(* ===== verification/_CoqProject ===== *)
-Q . S2P
Prelude.v
Effects.v
Records.v
AccountMode.v
Memory.v
Account.v
AccountFacts.v
Patch.v
SeqLock.v
Order.v
OrderFacts.v
Serial.v
Sequencer.v
SequencerFacts.v
Storage.v
Index.v
Store.v
StoreFacts.v
StoreBatch.v
StoreProps.v
Volatile.v
AccountsDb.v
AccountsDbFacts.v
Defrag.v
DefragFacts.v
DefragProps.v
TxBytes.v
TxFrame.v
TxView.v
TxWire.v
TxFacts.v
TxParse.v
TxDecode.v
TxSanitize.v
TxResolve.v
TxProps.v
CtxAccounts.v
CtxInstruction.v
CtxStack.v
CtxOps.v
CtxRun.v
CtxSession.v
CtxTrace.v
CtxProps.v
Programs.v
Invoke.v
InvokeFacts.v
InvokeFrames.v
InvokeLaw.v
Svm.v
SvmFacts.v
InvokeExample.v
InvokeProps.v
SvmProps.v
MagicRoot.v
MagicRootProps.v
Calculator.v
KeeperCache.v
KeeperSubs.v
KeeperLease.v
Serialize.v
SerializeProps.v
Cpi.v
CpiProps.v
LedgerFile.v
LedgerIndex.v
Ledger.v
LedgerReader.v
LedgerBook.v
LedgerRefine.v
LedgerSteps.v
LedgerEvents.v
LedgerRun.v
LedgerHistory.v
LedgerLookup.v
LedgerBlocks.v
LedgerAccounts.v
LedgerExample.v
LedgerProps.v
Keeper.v
