(* ===== verification/Prelude.v ===== *)
(** * MagicBlock Engine: a verification development

    The engine runs Solana transactions on accounts that a single node owns. A transaction
    arrives as bytes, is parsed and sanitized ([solana/transaction-view]), is ordered against
    the transactions before it and handed to an executor ([processor]), is loaded and runs its
    programs ([solana/svm], [solana/program-runtime]) in a transaction context over copy-on-write
    accounts ([solana/transaction-context], [solana/account]), has its accounts stored
    ([accountsdb]), and is recorded with its outcome in an append-only ledger that answers history
    requests and feeds replicas ([ledger]). One handle keeps the durable state, admits transactions,
    commits executions and notifies subscribers ([keeper]). This library translates those parts into
    Rocq functions and proves what they promise each other.

    ** Files

    - [Prelude] (this file), [Effects]: results and errors, the state and error monad of methods
      with mutable state, machine-width arithmetic, little-endian bytes, tactics and hints.
    - [AccountMode]: [solana/account/src/mode.rs]. Modes, their codec and [validate_transition].
    - [Memory], [Account], [AccountFacts], [Patch]: [solana/account/src/cow/] and [patch.rs]. A
      mapped file is a byte memory; a borrowed account is a header and two images in it, as the
      source's pointers are. [AccountFacts] refines both representations to a plain account.
    - [SeqLock]: the sequence lock of [cow/mod.rs], as interleavings of single byte loads with
      the writer's stores.
    - [Order], [OrderFacts], [Serial]: [processor/src/sequencer/order.rs]. The dependency table,
      its exactness against the history of requests, and the equivalence of any parallel
      schedule with the input order.
    - [Sequencer], [SequencerFacts]: [sequencer/mod.rs], [pool.rs]. Barriers, blocks, dispatch.
    - [Storage], [Index], [Store], [StoreFacts], [StoreBatch], [StoreProps]: the persisted store
      of [accountsdb/src/store/]: mapped file, LMDB tables, batched upsert with rollback.
    - [Volatile], [AccountsDb], [AccountsDbFacts]: [volatile.rs] and [lib.rs] of [accountsdb].
    - [Defrag], [DefragFacts], [DefragProps]: [store/defrag.rs].
    - [TxBytes], [TxFrame], [TxView]: the code of [solana/transaction-view]. [TxWire], [TxFacts],
      [TxParse], [TxDecode], [TxSanitize], [TxResolve], [TxProps]: the
      wire format as a serializer, and that the code accepts and shows exactly it.
    - [CtxAccounts], [CtxInstruction], [CtxStack]: the code of [solana/transaction-context].
      [CtxOps] to [CtxProps]: runs of its operations in any order and with any outcome.
    - [Programs], [Invoke]: the program cache and the invocation of programs of
      [solana/program-runtime], with the message loop of [solana/svm]. A program is a tree of the
      steps it takes through the runtime, so that theorems hold for every program. [InvokeFacts]
      to [InvokeLaw]: frames, privileges and what a message may reach. [InvokeProps]: the theorems.
    - [Svm]: the transaction processor of [solana/svm]. [SvmFacts], [SvmProps]: its outcomes.
    - [MagicRoot]: the builtin of [programs/magic-root-program] and its interface, with which the
      engine installs accounts. [MagicRootProps]: its effects and its guard. [InvokeExample]: a
      transaction with two programs, for the witnesses.
    - [Serialize]: the input of a program in the memory of the virtual machine
      ([program-runtime/src/serialization.rs]). [SerializeProps]: its layout and reading it back.
    - [Cpi]: calls from the virtual machine ([program-runtime/src/cpi.rs], [memory.rs]), in the C and
      the Rust interface. [CpiProps]: what is checked before the callee runs, and what the caller
      sees when it has returned.
    - [Calculator]: the example program of [programs/v42-calculator-program] and the builder of its
      byte code.
    - [Records], [LedgerFile], [LedgerIndex], [Ledger], [LedgerReader]: the code of [ledger] and
      the records of [nucleus/src/ledger.rs]. [LedgerBook] to [LedgerHistory]: the writers
      implement the abstract book, restarts included. [LedgerLookup] to
      [LedgerAccounts]: the readers answer from the book. [LedgerExample]: an instance of the
      environment. [LedgerProps]: the theorems.
    - [KeeperCache], [KeeperSubs], [KeeperLease], [Keeper]: [keeper/src] and the notifier of
      [nucleus]. Expiring caches and admission, subscription streams, account leases as
      interleavings of their atomic steps, and the commits over [AccountsDb], [Svm] and [Ledger].

    ** What the theorems show

    - Execution: conflicting transactions run in input order, a ticket is blocked exactly while
      an earlier conflicting one is unfinished, outstanding work progresses, drains end, and the
      accounts after any parallel run are those of the sequential one.
    - Accounts: both representations implement one record; commits publish atomically, also to
      concurrent readers; serialization and patches round-trip; modes change only as allowed.
    - Storage: a batch is an update of a map from keys to accounts; a failed batch restores what
      it can; compaction ends, keeps every account, and returns the space it gave back.
    - Transactions: the parser accepts exactly the canonical wire format and never reads outside
      its input; sanitization decides a property of the transaction; writability is resolved
      exactly.
    - Contexts: lamports are conserved, growth is bounded, a program stays within its rights,
      stack and trace agree, borrows are exclusive.
    - Programs: a call hands on no privilege its caller lacks; whatever the programs of a message
      do, only accounts declared writable change, lamports are conserved, stacks and meters are
      back. A processed transaction returns, within its budget, and respects rent; one that fails
      deploys nothing. The input of a program fills the buffer allocated for it exactly, its
      addresses lead to the fields of the accounts, and an input left alone changes nothing when it
      is read back. A call from the virtual machine is within its limits, signed only by addresses of
      the caller, and brings over only what the caller may change; when it returns, the memory of
      the caller shows what the callee left. MagicRoot installs exactly the image it is given, on authority only.
    - Ledger: every history of events, indexing and restarts implements the book; published data
      stays; lookups by signature, slot, range and account, and replays, are exact.
    - Keeper: no transaction is admitted twice; a commit stores a successful execution and nothing
      of a failed one, and a replay reaches the same state; receivers get what was sent in order,
      within their capacity, and no waiter misses a status; an account has one lease at a time.

    ** Parameters

    Code outside the repository is an argument with named laws: the LMDB tables ([Database] in
    [Index]), the Fjall keyspaces ([Fjall], [FjallLaws]), the codecs of ledger records ([LedgerCodec],
    [CodecLaws]), hash functions, the virtual machine with the programs it runs ([ProgramRuntime],
    [ProgramLoader]; [TypedPrograms] says that programs pass machine words), the rent rules and
    addresses of the Solana crates ([RentRules], [SvmLibraries], [InstructionsSysvar]), the wire
    format of MagicRoot ([MagicRootWire]), the memory mapping of the virtual machine ([GuestMemory],
    [GuestMemoryLaws]) with the layouts and the loader instructions of other crates ([GuestLayouts],
    [LoaderInstructions]), the concurrent recency cache ([RecencyCache]), sysvar
    encodings and signatures of the keeper ([KeeperLibraries]), and the answers of the operating
    system to file calls, which may be any error at any time. Each theorem under such laws has a
    witness with concrete functions.

    ** Bounds and fuel

    Integers are [Z] with the wrap-around, saturation or check of the source written out; hypotheses
    bound what the types bound. Loops over byte strings take the length of the input as fuel, which
    is enough because every step consumes a byte; calls between programs take one more than the
    capacity of the stack, and more changes no result; the passes of compaction take the number of
    storage units, which every pass that changes something decreases. Theorems about results prove
    that these bounds suffice.

    ** Not modelled

    The set-up of the virtual machine, its memory pools and its log lines (the rest of
    [solana/program-runtime]): unsafe glue over a crate outside the repository. The bodies of
    account data are not copied by calls, since they are mapped; the handler that maps them is in
    [CtxInstruction], and where it runs during a translation is left to the memory mapping. Of the
    keeper: opening and seeding the stores, resets and snapshot archives. The engine and the
    replicator, shutdown, metrics, configuration and the thread, channel and network code of every
    crate. *)

From stdpp Require Import base list gmap numbers option sorting.

Declare Scope engine_scope.
Delimit Scope engine_scope with E.

(** ** Fallible code

    [Result<T, E>] of the source; [?] is the monadic bind, written with stdpp's
    [x ← m; k] notation. *)

Inductive result (E A : Type) : Type :=
| Ok (val : A)
| Err (err : E).
Arguments Ok {E A} val.
Arguments Err {E A} err.

#[export] Instance result_ret {E} : MRet (result E) := @Ok E.
#[export] Instance result_bind {E} : MBind (result E) :=
  λ _ _ f r, match r with Ok a => f a | Err e => Err e end.
#[export] Instance result_fmap {E} : FMap (result E) :=
  λ _ _ f r, match r with Ok a => Ok (f a) | Err e => Err e end.

#[export] Instance result_eq_dec `{EqDecision E, EqDecision A} : EqDecision (result E A).
Proof. solve_decision. Defined.

(** [Option::ok_or]. *)
Definition ok_or {E A} (o : option A) (e : E) : result E A :=
  match o with Some a => Ok a | None => Err e end.

(** [Result::map_err]. *)
Definition map_err {E F A} (f : E → F) (r : result E A) : result F A :=
  match r with Ok a => Ok a | Err e => Err (f e) end.

Definition is_ok {E A} (r : result E A) : bool :=
  match r with Ok _ => true | Err _ => false end.

(** ** Machine integers

    An unsigned integer of [w] bits is a [Z]; every operation that can leave the
    range writes its wrap-around, its check or its saturation out. *)

Section machine_integers.
Local Open Scope Z_scope.

Definition umax (w : Z) : Z := 2 ^ w - 1.
Definition fits (w x : Z) : Prop := 0 ≤ x < 2 ^ w.
#[export] Instance fits_dec w x : Decision (fits w x).
Proof. unfold fits. apply _. Defined.

Definition wrap (w x : Z) : Z := x mod 2 ^ w.
Definition wrapping_add (w a b : Z) : Z := wrap w (a + b).
Definition wrapping_sub (w a b : Z) : Z := wrap w (a - b).
Definition checked_add (w a b : Z) : option Z :=
  if a + b <? 2 ^ w then Some (a + b) else None.
Definition checked_sub (a b : Z) : option Z :=
  if b <=? a then Some (a - b) else None.
Definition checked_mul (w a b : Z) : option Z :=
  if a * b <? 2 ^ w then Some (a * b) else None.
Definition saturating_sub (a b : Z) : Z := Z.max 0 (a - b).
Definition saturating_add (w a b : Z) : Z := Z.min (umax w) (a + b).
Definition saturating_mul (w a b : Z) : Z := Z.min (umax w) (a * b).

(** Two's complement: the signed reading of a [w]-bit pattern. *)
Definition sfits (w x : Z) : Prop := - 2 ^ (w - 1) ≤ x < 2 ^ (w - 1).
#[export] Instance sfits_dec w x : Decision (sfits w x).
Proof. unfold sfits. apply _. Defined.
Definition swrap (w x : Z) : Z := (x + 2 ^ (w - 1)) mod 2 ^ w - 2 ^ (w - 1).

(** [u32::count_ones] and the like on the low [w] bits. *)
Definition count_ones (w : nat) (x : Z) : Z :=
  Z.of_nat (length (List.filter (λ i, Z.testbit x (Z.of_nat i)) (seq 0 w))).

(** [u64::trailing_zeros]: the index of the lowest set bit, [w] for zero. *)
Definition trailing_zeros (w : nat) (x : Z) : Z :=
  match List.find (λ i, Z.testbit x (Z.of_nat i)) (seq 0 w) with
  | Some i => Z.of_nat i
  | None => Z.of_nat w
  end.

(** ** Little-endian bytes *)

Fixpoint le_bytes (n : nat) (x : Z) : list Z :=
  match n with
  | O => []
  | S n => x mod 256 :: le_bytes n (x / 256)
  end.

Fixpoint le_num (bs : list Z) : Z :=
  match bs with
  | [] => 0
  | b :: bs => b + 256 * le_num bs
  end.

Definition byte_ok (b : Z) : Prop := 0 ≤ b < 256.
#[export] Instance byte_ok_dec b : Decision (byte_ok b).
Proof. unfold byte_ok. apply _. Defined.

End machine_integers.

(** [len()] as a machine integer. *)
Definition zlen {A} (l : list A) : Z := Z.of_nat (length l).

Lemma zlen_app {A} (l l' : list A) : zlen (l ++ l') = (zlen l + zlen l')%Z.
Proof. unfold zlen. rewrite length_app. lia. Qed.
Lemma zlen_cons {A} (x : A) l : zlen (x :: l) = (1 + zlen l)%Z.
Proof. unfold zlen. simpl. lia. Qed.
Lemma zlen_nonneg {A} (l : list A) : (0 ≤ zlen l)%Z.
Proof. unfold zlen. lia. Qed.
Lemma zlen_0 {A} (l : list A) : zlen l = 0%Z → l = [].
Proof. unfold zlen. destruct l; simpl; [done|lia]. Qed.

(** ** Byte-string order

    The lexicographic order of [Ord for [u8; N]] and of LMDB's default key comparison. *)

Fixpoint lex_leb (a b : list Z) : bool :=
  match a, b with
  | [], _ => true
  | _ :: _, [] => false
  | x :: a, y :: b => (x <? y)%Z || ((x =? y)%Z && lex_leb a b)
  end.

Definition lex_le (a b : list Z) : Prop := lex_leb a b = true.

#[export] Instance lex_le_dec a b : Decision (lex_le a b).
Proof. unfold lex_le. apply _. Defined.

(** ** Tactics *)

(** Case analysis on the first stuck [match] scrutinee of the goal or of a
    hypothesis, keeping the equation. *)
Ltac split_match :=
  match goal with
  | |- context [match ?x with _ => _ end] => destruct x eqn:?
  | H : context [match ?x with _ => _ end] |- _ => destruct x eqn:?
  end.

(** Turns the boolean tests of the code into propositions. *)
Ltac bool_to_prop :=
  repeat match goal with
  | H : (_ <? _)%Z = true |- _ => apply Z.ltb_lt in H
  | H : (_ <? _)%Z = false |- _ => apply Z.ltb_ge in H
  | H : (_ <=? _)%Z = true |- _ => apply Z.leb_le in H
  | H : (_ <=? _)%Z = false |- _ => apply Z.leb_gt in H
  | H : (_ =? _)%Z = true |- _ => apply Z.eqb_eq in H
  | H : (_ =? _)%Z = false |- _ => apply Z.eqb_neq in H
  | H : (_ && _) = true |- _ => apply andb_true_iff in H as [? ?]
  | H : (_ || _) = false |- _ => apply orb_false_iff in H as [? ?]
  | H : negb _ = true |- _ => apply negb_true_iff in H
  | H : negb _ = false |- _ => apply negb_false_iff in H
  | H : bool_decide _ = true |- _ => apply bool_decide_eq_true in H
  | H : bool_decide _ = false |- _ => apply bool_decide_eq_false in H
  end.

(** Unfolds the result monad in hypotheses and follows the only [Ok] branch. *)
Ltac inv_ok :=
  repeat match goal with
  | H : Err _ = Ok _ |- _ => discriminate H
  | H : Ok _ = Err _ |- _ => discriminate H
  | H : Ok _ = Ok _ |- _ => injection H as H
  | H : Err _ = Err _ |- _ => injection H as H
  | H : (?r ≫= _) = Ok _ |- _ =>
      let E := fresh "Hok" in destruct r eqn:E; [simpl in H | discriminate H]
  | H : ok_or ?o _ = Ok _ |- _ =>
      let E := fresh "Hsome" in destruct o eqn:E; [simpl in H | discriminate H]
  end.

Create HintDb engine discriminated.

(** ** Generic lemmas *)

Section integer_lemmas.
Local Open Scope Z_scope.

Lemma wrap_small w x : fits w x → wrap w x = x.
Proof. intros H. by apply Z.mod_small. Qed.

Lemma wrap_fits w x : 0 ≤ w → fits w (wrap w x).
Proof. intros Hw. apply Z.mod_pos_bound. by apply Z.pow_pos_nonneg. Qed.

Lemma checked_add_Some w a b c : checked_add w a b = Some c ↔ c = a + b ∧ a + b < 2 ^ w.
Proof.
  unfold checked_add. destruct (Z.ltb_spec (a + b) (2 ^ w)); naive_solver lia.
Qed.

Lemma checked_add_None w a b : checked_add w a b = None ↔ 2 ^ w ≤ a + b.
Proof.
  unfold checked_add. destruct (Z.ltb_spec (a + b) (2 ^ w)); naive_solver lia.
Qed.

Lemma checked_sub_Some a b c : checked_sub a b = Some c ↔ c = a - b ∧ b ≤ a.
Proof. unfold checked_sub. destruct (Z.leb_spec b a); naive_solver lia. Qed.

Lemma checked_mul_Some w a b c : checked_mul w a b = Some c ↔ c = a * b ∧ a * b < 2 ^ w.
Proof.
  unfold checked_mul. destruct (Z.ltb_spec (a * b) (2 ^ w)); naive_solver lia.
Qed.

Lemma length_le_bytes n x : length (le_bytes n x) = n.
Proof. revert x. induction n; intros x; simpl; auto. Qed.

Lemma zlen_le_bytes n x : zlen (le_bytes n x) = Z.of_nat n.
Proof. unfold zlen. by rewrite length_le_bytes. Qed.

Lemma le_bytes_ok n x : Forall byte_ok (le_bytes n x).
Proof.
  revert x. induction n as [|n IH]; intros x; simpl; constructor; auto.
  unfold byte_ok. apply Z.mod_pos_bound. lia.
Qed.

Lemma le_num_le_bytes n x : le_num (le_bytes n x) = x mod 256 ^ Z.of_nat n.
Proof.
  revert x. induction n as [|n IH]; intros x; simpl le_num.
  - by rewrite Z.mod_1_r.
  - rewrite IH, Nat2Z.inj_succ, Z.pow_succ_r by lia.
    rewrite Z.rem_mul_r by lia. lia.
Qed.

Lemma le_num_range bs :
  Forall byte_ok bs → 0 ≤ le_num bs < 256 ^ Z.of_nat (length bs).
Proof.
  induction 1 as [|b bs Hb _ IH]; simpl le_num.
  - simpl. lia.
  - rewrite length_cons, Nat2Z.inj_succ, Z.pow_succ_r by lia.
    unfold byte_ok in Hb. lia.
Qed.

Lemma le_bytes_le_num bs :
  Forall byte_ok bs → le_bytes (length bs) (le_num bs) = bs.
Proof.
  induction 1 as [|b bs Hb _ IH]; [done|]. simpl. unfold byte_ok in Hb.
  rewrite (Z.mul_comm 256), Z.mod_add, Z.div_add by lia.
  rewrite Z.mod_small, Z.div_small by lia. by rewrite Z.add_0_l, IH.
Qed.

Lemma le_round_trip n x :
  0 ≤ x < 256 ^ Z.of_nat n → le_num (le_bytes n x) = x.
Proof. intros H. rewrite le_num_le_bytes. by apply Z.mod_small. Qed.

Lemma swrap_small w x : 1 ≤ w → sfits w x → swrap w x = x.
Proof.
  unfold sfits, swrap. intros Hw H.
  assert (2 ^ w = 2 * 2 ^ (w - 1)) as E.
  { rewrite <- Z.pow_succ_r by lia. f_equal. lia. }
  rewrite Z.mod_small; lia.
Qed.

Lemma land_disjoint a b k : 0 ≤ k → 0 ≤ a < 2 ^ k → Z.land a (b * 2 ^ k) = 0.
Proof.
  intros Hk Ha. apply Z.bits_inj'. intros n Hn. rewrite Z.land_spec, Z.bits_0.
  destruct (Z.ltb_spec n k).
  - by rewrite Z.mul_pow2_bits_low, andb_false_r.
  - rewrite <- (Z.mod_small a (2 ^ k)) by done. by rewrite Z.mod_pow2_bits_high by lia.
Qed.

(** Bits above and below a boundary add up. *)
Lemma lor_disjoint a b k : 0 ≤ k → 0 ≤ a < 2 ^ k → Z.lor a (b * 2 ^ k) = a + b * 2 ^ k.
Proof.
  intros Hk Ha. pose proof (land_disjoint a b k Hk Ha) as E.
  by rewrite Z.add_nocarry_lxor, Z.lxor_lor.
Qed.

End integer_lemmas.

Section order_lemmas.
Local Open Scope Z_scope.

#[export] Instance lex_le_total : Total lex_le.
Proof.
  intros a. unfold lex_le. induction a as [|x a IH]; intros b; simpl; [by left|].
  destruct b as [|y b]; [by right|]. simpl.
  destruct (Z.ltb_spec x y), (Z.ltb_spec y x), (Z.eqb_spec x y), (Z.eqb_spec y x);
    simpl; try lia; auto.
Qed.

#[export] Instance lex_le_trans : Transitive lex_le.
Proof.
  unfold lex_le. intros a. induction a as [|x a IH]; intros [|y b] [|z c]; simpl; try done.
  destruct (Z.ltb_spec x y), (Z.ltb_spec y z), (Z.ltb_spec x z), (Z.eqb_spec x y),
    (Z.eqb_spec y z), (Z.eqb_spec x z); simpl; try done; try lia. apply IH.
Qed.

#[export] Instance lex_le_antisymm : AntiSymm (=) lex_le.
Proof.
  unfold lex_le. intros a. induction a as [|x a IH]; intros [|y b]; simpl; try done.
  destruct (Z.ltb_spec x y), (Z.ltb_spec y x), (Z.eqb_spec x y), (Z.eqb_spec y x);
    simpl; try done; try lia. intros H1 H2. subst. f_equal. by apply IH.
Qed.

End order_lemmas.

#[export] Hint Resolve length_le_bytes le_bytes_ok wrap_small : engine.
