(* ===== verification/Effects.v ===== *)
(** * State and errors

    [Eff E S A] is a method of a type with mutable state: it returns a value or an error, and
    the state it leaves is visible on every path. *)

From stdpp Require Import base list.
From S2P Require Import Prelude.

Definition Eff (E S A : Type) : Type := S → result E A * S.

#[export] Instance op_ret {E S} : MRet (Eff E S) := λ _ a s, (Ok a, s).
#[export] Instance op_bind {E S} : MBind (Eff E S) := λ _ _ k p s,
  match p s with (Ok a, s) => k a s | (Err e, s) => (Err e, s) end.

Section op.
Context {E S : Type}.
Definition fail {A} (e : E) : Eff E S A := λ s, (Err e, s).
Definition lift {A} (r : result E A) : Eff E S A := λ s, (r, s).
Definition read {A} (f : S → A) : Eff E S A := λ s, (Ok (f s), s).
Definition modify (f : S → S) : Eff E S unit := λ s, (Ok tt, f s).
Definition ensure (b : bool) (e : E) : Eff E S unit := if b then mret tt else fail e.

Context {A B : Type}.
Lemma op_bind_ok (p : Eff E S A) (k : A → Eff E S B) s x s1 :
  p s = (Ok x, s1) → (p ≫= k) s = k x s1.
Proof. intros H. unfold mbind, op_bind. by rewrite H. Qed.
Lemma op_bind_err (p : Eff E S A) (k : A → Eff E S B) s e s1 :
  p s = (Err e, s1) → (p ≫= k) s = (Err e, s1).
Proof. intros H. unfold mbind, op_bind. by rewrite H. Qed.

(** A bind that succeeds ran both parts; one that fails stopped in either. *)
Lemma op_bind_inv_ok (p : Eff E S A) (k : A → Eff E S B) s y s2 :
  (p ≫= k) s = (Ok y, s2) → ∃ x s1, p s = (Ok x, s1) ∧ k x s1 = (Ok y, s2).
Proof. unfold mbind, op_bind. destruct (p s) as [[x|e] s1]; [|done]. intros H. by exists x, s1. Qed.
Lemma op_bind_inv_err (p : Eff E S A) (k : A → Eff E S B) s e s2 :
  (p ≫= k) s = (Err e, s2) →
  p s = (Err e, s2) ∨ ∃ x s1, p s = (Ok x, s1) ∧ k x s1 = (Err e, s2).
Proof.
  unfold mbind, op_bind. destruct (p s) as [[x|e'] s1]; intros H; [right; by exists x, s1|left]. congruence.
Qed.
End op.

(** [op_ok H] runs the first operation of a bind by the equation [H]. *)
Ltac op_ok H := rewrite (op_bind_ok _ _ _ _ _ H).

(** [op_check b] runs an [ensure], closing the goal for a failed check with [tac]. *)
Tactic Notation "op_check" constr(b) "by" tactic3(tac) :=
  destruct b eqn:?; [rewrite (op_bind_ok (ensure true _) _ _ tt _ eq_refl)
                    |rewrite (op_bind_err (ensure false _) _ _ _ _ eq_refl); tac].
