(* ===== verification/Records.v ===== *)
(** * Ledger records ([nucleus/src/ledger.rs], [ledger/src/schema.rs])

    Block boundaries, seals, resets and checkpoints with the producer's signature, the entries
    of the blockstore stream, and what is recorded of an execution. *)

From stdpp Require Import base list numbers.
From S2P Require Import Prelude.

Local Open Scope Z_scope.

Abbreviation Hash := (list Z).
Abbreviation Signature := (list Z).

(** ** Boundaries *)

Record Block := { block_slot : Z; block_hash : Hash; block_time : Z; block_parent : Hash }.

#[export] Instance Block_eq_dec : EqDecision Block.
Proof. solve_decision. Defined.

Record SuperblockSeal := { seal_id : Z; seal_checksum : Z; seal_transactions : Z }.

#[export] Instance SuperblockSeal_eq_dec : EqDecision SuperblockSeal.
Proof. solve_decision. Defined.

Record Reset := { reset_slot : Z; reset_rent : Z; reset_features : list (list Z) }.

#[export] Instance Reset_eq_dec : EqDecision Reset.
Proof. solve_decision. Defined.

(** A payload and its producer's signature. *)
Record Signed (A : Type) := { payload : A; signature : Signature }.
Arguments payload {A} _.
Arguments signature {A} _.

#[export] Instance Signed_eq_dec A `{EqDecision A} : EqDecision (Signed A).
Proof. solve_decision. Defined.

(** A cursor into the stream, ordered by superblock, then offset. *)
Record BlockstorePosition := { position_superblock : Z; position_offset : Z }.

(** ** The blockstore stream *)

Inductive BlockstoreEntry :=
| EBlock (b : Signed Block)
| ETransaction (bytes : list Z)
| ESuperblock (s : Signed SuperblockSeal)
| EReset (r : Signed Reset)
| ECheckpoint (c : Signed Z).

#[export] Instance BlockstoreEntry_eq_dec : EqDecision BlockstoreEntry.
Proof. solve_decision. Defined.

Definition SIGNATURE_PREFIX_LEN : nat := 16.
Definition signature_prefix (s : Signature) : list Z := take SIGNATURE_PREFIX_LEN s.

(** ** Executions

    A transaction error is an opaque code. *)

Record ExecutionHeader := {
  header_signature : Signature;
  header_result : result Z unit;
  header_slot : Z;
}.

Record CompiledInstruction := { program_index : Z; ci_accounts : list Z; ci_data : list Z }.
Record Instruction := { compiled : CompiledInstruction; stack_height : Z }.
Record ReturnData := { return_program : list Z; return_bytes : list Z }.
Record Balances := { pre_balances : list Z; post_balances : list Z }.

Record ExecutionDetails := {
  fee : Z;
  balances : Balances;
  logs : list (list Z);
  cpi : option (list (list Instruction));
  compute_units : Z;
  return_data : option ReturnData;
}.

Record Execution := { header : ExecutionHeader; details : option ExecutionDetails }.
