(* ===== verification/AccountMode.v ===== *)
(** * Account lifecycle modes ([solana/account/src/mode.rs])

    The two-byte mode discriminant, its projections to kind, access and data flow,
    the byte codec, and the lifecycle transition check of [validate_transition].
    A transition system over (mode, slot) pairs closes the check under repetition. *)

From stdpp Require Import base list gmap numbers option relations.
From S2P Require Import Prelude.

Local Open Scope Z_scope.

(** ** Data *)

Inductive AccountKind := KindMissing | KindRegular | KindClosed.
Inductive AccessMode := ReadOnly | Writable.
Inductive DataFlow := NoSync | BaseToEr | ErToBase.
Inductive StateAuthority := Base | Er.
Inductive AccountMode :=
| Missing | Mirrored | Delegated | Undelegating | Magic | Runtime | Closed.

#[export] Instance AccountKind_eq_dec : EqDecision AccountKind.
Proof. solve_decision. Defined.
#[export] Instance AccessMode_eq_dec : EqDecision AccessMode.
Proof. solve_decision. Defined.
#[export] Instance DataFlow_eq_dec : EqDecision DataFlow.
Proof. solve_decision. Defined.
#[export] Instance StateAuthority_eq_dec : EqDecision StateAuthority.
Proof. solve_decision. Defined.
#[export] Instance AccountMode_eq_dec : EqDecision AccountMode.
Proof. solve_decision. Defined.

Definition KIND_OFFSET : Z := 0.
Definition ACCESS_OFFSET : Z := 8.
Definition FLOW_OFFSET : Z := 10.
Definition KIND_MASK : Z := Z.shiftl 0x00FF KIND_OFFSET.
Definition ACCESS_MASK : Z := Z.shiftl 0x0003 ACCESS_OFFSET.
Definition FLOW_MASK : Z := Z.shiftl 0x0003 FLOW_OFFSET.

(** [kind as u16], [access as u16], [flow as u16]: the enum discriminants. *)
Definition kind_disc (k : AccountKind) : Z :=
  match k with KindMissing => 0 | KindRegular => 1 | KindClosed => 3 end.
Definition access_disc (a : AccessMode) : Z :=
  match a with ReadOnly => 0 | Writable => 1 end.
Definition flow_disc (f : DataFlow) : Z :=
  match f with NoSync => 0 | BaseToEr => 1 | ErToBase => 2 end.

Definition encode (kind : AccountKind) (access : AccessMode) (flow : DataFlow) : Z :=
  Z.lor (Z.lor (Z.shiftl (kind_disc kind) KIND_OFFSET)
               (Z.shiftl (access_disc access) ACCESS_OFFSET))
        (Z.shiftl (flow_disc flow) FLOW_OFFSET).

(** [self as u16]: the discriminants the enum declares through [encode]. *)
Definition as_u16 (m : AccountMode) : Z :=
  match m with
  | Missing => encode KindMissing ReadOnly BaseToEr
  | Mirrored => encode KindRegular ReadOnly BaseToEr
  | Delegated => encode KindRegular Writable ErToBase
  | Undelegating => encode KindRegular ReadOnly ErToBase
  | Magic => encode KindRegular Writable NoSync
  | Runtime => encode KindRegular ReadOnly NoSync
  | Closed => encode KindClosed ReadOnly NoSync
  end.

(** ** Projections

    [None] is the [unreachable!()] arm of the source. *)

Definition kind (m : AccountMode) : option AccountKind :=
  match Z.shiftr (Z.land (as_u16 m) KIND_MASK) KIND_OFFSET with
  | 0 => Some KindMissing
  | 1 => Some KindRegular
  | 3 => Some KindClosed
  | _ => None
  end.

Definition access (m : AccountMode) : option AccessMode :=
  match Z.shiftr (Z.land (as_u16 m) ACCESS_MASK) ACCESS_OFFSET with
  | 0 => Some ReadOnly
  | 1 => Some Writable
  | _ => None
  end.

Definition data_flow (m : AccountMode) : option DataFlow :=
  match Z.shiftr (Z.land (as_u16 m) FLOW_MASK) FLOW_OFFSET with
  | 0 => Some NoSync
  | 1 => Some BaseToEr
  | 2 => Some ErToBase
  | _ => None
  end.

Definition is_writable (m : AccountMode) : bool :=
  match access m with Some Writable => true | _ => false end.

(** The inner option is the source's [Option<StateAuthority>]. *)
Definition authority (m : AccountMode) : option (option StateAuthority) :=
  k ← kind m; f ← data_flow m;
  Some match k, f with
       | (KindMissing | KindClosed), _ => None
       | _, BaseToEr => Some Base
       | _, (NoSync | ErToBase) => Some Er
       end.

Definition requires_persistence (m : AccountMode) : bool :=
  match authority m with Some (Some Er) => true | _ => false end.

(** ** Lifecycle transitions *)

Inductive AccountPatchError :=
| InvalidModeTransition (from to : AccountMode)
| InvalidSlotTransition (from to : Z).

#[export] Instance AccountPatchError_eq_dec : EqDecision AccountPatchError.
Proof. solve_decision. Defined.

Definition validate_transition (self to : AccountMode) (from_slot to_slot : Z)
    : result AccountPatchError unit :=
  let check (valid : bool) :=
    if negb valid then Err (InvalidSlotTransition from_slot to_slot) else Ok tt in
  match self, to with
  | Missing, Missing
  | Mirrored, (Missing | Mirrored)
  | Runtime, Runtime
  | Undelegating, Delegated => check (from_slot <? to_slot)
  | Missing, (Mirrored | Runtime | Delegated | Magic | Closed)
  | Mirrored, (Delegated | Magic | Closed)
  | Delegated, Undelegating
  | Magic, (Delegated | Closed)
  | Undelegating, (Missing | Mirrored | Closed) => check (from_slot <=? to_slot)
  | _, _ => Err (InvalidModeTransition self to)
  end.

(** ** Byte codec *)

Definition to_bytes (m : AccountMode) : list Z := le_bytes 2 (as_u16 m).

Definition try_from (bytes : list Z) : result (list Z) AccountMode :=
  match bytes with
  | [0; 4] => Ok Missing
  | [1; 4] => Ok Mirrored
  | [1; 0] => Ok Runtime
  | [1; 9] => Ok Delegated
  | [1; 1] => Ok Magic
  | [1; 8] => Ok Undelegating
  | [3; 0] => Ok Closed
  | _ => Err bytes
  end.

(** ** Specification

    The transition table of the account model's README, column by column: targets
    allowed at the same or a newer slot, and targets that need a newer slot. *)

Definition same_or_newer (m : AccountMode) : list AccountMode :=
  match m with
  | Missing => [Mirrored; Runtime; Delegated; Magic; Closed]
  | Mirrored => [Delegated; Magic; Closed]
  | Runtime => []
  | Delegated => [Undelegating]
  | Magic => [Delegated; Closed]
  | Undelegating => [Mirrored; Missing; Closed]
  | Closed => []
  end.

Definition strictly_newer (m : AccountMode) : list AccountMode :=
  match m with
  | Missing => [Missing]
  | Mirrored => [Mirrored; Missing]
  | Runtime => [Runtime]
  | Delegated => []
  | Magic => []
  | Undelegating => [Delegated]
  | Closed => []
  end.

(** One accepted lifecycle replacement of an account's mode and slot. *)
Definition lifecycle_step (a b : AccountMode * Z) : Prop :=
  validate_transition a.1 b.1 a.2 b.2 = Ok tt.

(** Modes whose local image is the authority and must not be refreshed. *)
Definition authoritative (m : AccountMode) : bool :=
  match m with Delegated | Undelegating | Magic => true | _ => false end.

(** ** Theorems *)

(** The projections decode exactly the fields every variant was declared with, so
    no [unreachable!()] arm of [kind], [access], [data_flow] or [authority] is taken. *)
Theorem mode_projections m :
  ∃ k a f, as_u16 m = encode k a f ∧ kind m = Some k ∧ access m = Some a ∧
           data_flow m = Some f ∧ is_Some (authority m).
Proof. destruct m; do 3 eexists; repeat split; try reflexivity; by eexists. Qed.

Lemma try_from_Ok bytes m : try_from bytes = Ok m → bytes = to_bytes m.
Proof.
  intros H. unfold try_from in H.
  repeat (split_match; try discriminate H); injection H as <-; reflexivity.
Qed.

Lemma try_from_to_bytes m : try_from (to_bytes m) = Ok m.
Proof. by destruct m. Qed.

(** The two-byte codec is exact: encoding then decoding returns the mode, and the
    decoder accepts no other byte sequence, of any length. *)
Theorem mode_codec_exact bytes m : try_from bytes = Ok m ↔ bytes = to_bytes m.
Proof.
  split; [apply try_from_Ok|]. intros ->. apply try_from_to_bytes.
Qed.

Lemma writable_modes_persist m : is_writable m = true → requires_persistence m = true.
Proof. by destruct m. Qed.

Lemma validate_transition_cases from to s t :
  validate_transition from to s t = Ok tt →
  (to ∈ same_or_newer from ∧ s ≤ t) ∨ (to ∈ strictly_newer from ∧ s < t).
Proof.
  destruct from, to; simpl; intros H; try discriminate H;
  destruct (Z.ltb_spec s t), (Z.leb_spec s t); simpl in H; try discriminate H; try lia;
  first [left; split; [set_solver|lia] | right; split; [set_solver|lia]].
Qed.

(** [validate_transition] accepts exactly the README's transition table, with the
    slot condition of the column; otherwise it reports the mode pair when the table has
    no entry, and the slot pair when only the slots are at fault. *)
Theorem validate_transition_table from to s t :
  validate_transition from to s t =
    if bool_decide (to ∈ same_or_newer from) then
      if bool_decide (s ≤ t) then Ok tt else Err (InvalidSlotTransition s t)
    else if bool_decide (to ∈ strictly_newer from) then
      if bool_decide (s < t) then Ok tt else Err (InvalidSlotTransition s t)
    else Err (InvalidModeTransition from to).
Proof.
  destruct from, to; simpl; try reflexivity;
  repeat case_bool_decide; try reflexivity;
  destruct (Z.ltb_spec s t), (Z.leb_spec s t); simpl; try reflexivity; try lia;
  match goal with H : ¬ _ |- _ => exfalso; apply H; set_solver end.
Qed.

Lemma lifecycle_step_slot a b : lifecycle_step a b → a.2 ≤ b.2.
Proof.
  destruct a as [m s], b as [m' s']. unfold lifecycle_step; simpl.
  intros H%validate_transition_cases. naive_solver lia.
Qed.

Lemma lifecycle_step_mode a b :
  lifecycle_step a b → b.1 ∈ same_or_newer a.1 ∨ b.1 ∈ strictly_newer a.1.
Proof.
  destruct a as [m s], b as [m' s']. unfold lifecycle_step; simpl.
  intros H%validate_transition_cases. naive_solver.
Qed.

(** Along any sequence of accepted replacements the slot never decreases, a
    closed account stays closed at its slot, and a runtime account stays runtime. *)
Theorem lifecycle_reachable a b :
  rtc lifecycle_step a b →
  a.2 ≤ b.2 ∧ (a.1 = Closed → b = a) ∧ (a.1 = Runtime → b.1 = Runtime).
Proof.
  induction 1 as [a|a b c Hab _ (IHs & IHc & IHr)]; [done|].
  pose proof (lifecycle_step_slot _ _ Hab).
  pose proof (lifecycle_step_mode _ _ Hab) as Hm.
  split; [lia|]. split; intros E; rewrite E in Hm; simpl in Hm;
    [set_solver|]. apply IHr. set_solver.
Qed.

Lemma lifecycle_reachable_witness :
  (Missing, 3).2 ≤ (Mirrored, 7).2 ∧ ((Missing, 3).1 = Closed → (Mirrored, 7) = (Missing, 3)) ∧
  ((Missing, 3).1 = Runtime → (Mirrored, 7).1 = Runtime).
Proof.
  apply (lifecycle_reachable (Missing, 3) (Mirrored, 7)).
  eapply rtc_l; [|apply rtc_refl]. reflexivity.
Defined.

(** A locally authoritative image is never overwritten by a refresh: no accepted
    replacement keeps a Delegated, Undelegating or Magic account in its mode, whatever
    the slots, and leaving Delegated always goes through Undelegating. *)
Theorem authoritative_never_refreshed m m' s s' :
  authoritative m = true → lifecycle_step (m, s) (m', s') →
  m' ≠ m ∧ (m = Delegated → m' = Undelegating).
Proof.
  intros Ha Hs. apply lifecycle_step_mode in Hs. simpl in Hs.
  destruct m; try discriminate Ha; simpl in Hs; set_solver.
Qed.

Lemma authoritative_never_refreshed_witness :
  Undelegating ≠ Delegated ∧ (Delegated = Delegated → Undelegating = Undelegating).
Proof.
  apply (authoritative_never_refreshed Delegated Undelegating 4 4); reflexivity.
Defined.

#[export] Hint Resolve writable_modes_persist lifecycle_step_slot : engine.
