(* ===== verification/Memory.v ===== *)
(** * Byte-addressed memory

    The mapped account file and the raw buffers behind a borrowed account are one
    flat byte memory: pointer casts of the source become typed loads and stores at
    byte addresses, so that overlapping views alias here as they do in the program.
    Nothing in this file models repository code by itself; it is the memory the
    account and storage components work on, with its frame lemmas. *)

From Stdlib Require Import FunctionalExtensionality.
From stdpp Require Import base list numbers.
From S2P Require Import Prelude.

Local Open Scope Z_scope.

(** A memory gives every address a byte; unmapped addresses read as whatever is there. *)
Definition mem := Z → Z.

Definition load (m : mem) (a : Z) (n : nat) : list Z :=
  (λ i, m (a + Z.of_nat i)) <$> seq 0 n.

Definition store (m : mem) (a : Z) (bs : list Z) : mem :=
  λ x, if (a <=? x) && (x <? a + Z.of_nat (length bs))
       then nth (Z.to_nat (x - a)) bs 0 else m x.

(** [ptr::copy_from_nonoverlapping] of [n] bytes. *)
Definition copy (m : mem) (src dst : Z) (n : nat) : mem := store m dst (load m src n).

(** Typed little-endian scalars of [n] bytes. *)
Definition load_le (n : nat) (m : mem) (a : Z) : Z := le_num (load m a n).
Definition store_le (n : nat) (m : mem) (a v : Z) : mem := store m a (le_bytes n v).

(** Agreement of two memories on the half-open range [[lo, hi)]. *)
Definition agree (m m' : mem) (lo hi : Z) : Prop := ∀ x, lo ≤ x < hi → m x = m' x.

(** Agreement everywhere but on [[lo, hi)]: only that range may have been written. *)
Definition frame (m m' : mem) (lo hi : Z) : Prop := ∀ x, ¬ (lo ≤ x < hi) → m x = m' x.

(** ** Lemmas *)

Lemma length_load m a n : length (load m a n) = n.
Proof. unfold load. by rewrite length_fmap, length_seq. Qed.

Lemma lookup_load m a n i : (i < n)%nat → load m a n !! i = Some (m (a + Z.of_nat i)).
Proof.
  intros H. unfold load. rewrite list_lookup_fmap, lookup_seq_lt by done. done.
Qed.

Lemma load_ext m m' a n :
  (∀ x, a ≤ x < a + Z.of_nat n → m x = m' x) → load m a n = load m' a n.
Proof.
  intros H. apply list_eq. intros i. destruct (decide (i < n)%nat) as [Hi|Hi].
  - rewrite !lookup_load by done. f_equal. apply H. lia.
  - rewrite !lookup_ge_None_2; [done|rewrite length_load; lia..].
Qed.

Lemma load_0 m a : load m a 0 = [].
Proof. done. Qed.

Lemma load_app m a n k : load m a (n + k) = load m a n ++ load m (a + Z.of_nat n) k.
Proof.
  apply list_eq. intros i. destruct (decide (i < n)%nat) as [Hi|Hi].
  - rewrite lookup_app_l by (rewrite length_load; lia). rewrite !lookup_load by lia. done.
  - rewrite lookup_app_r by (rewrite length_load; lia). rewrite length_load.
    destruct (decide (i < n + k)%nat).
    + rewrite !lookup_load by lia. f_equal. f_equal. lia.
    + rewrite !lookup_ge_None_2; [done|rewrite length_load; lia..].
Qed.

Lemma take_load m a n k : (k ≤ n)%nat → take k (load m a n) = load m a k.
Proof.
  intros H. replace n with (k + (n - k))%nat by lia. rewrite load_app.
  apply take_app_length'. by rewrite length_load.
Qed.

Lemma load_sub m a (off k n : nat) :
  (off + k ≤ n)%nat → load m (a + Z.of_nat off) k = take k (drop off (load m a n)).
Proof.
  intros H. replace n with (off + (k + (n - off - k)))%nat by lia.
  rewrite load_app, drop_app_length' by (by rewrite length_load).
  by rewrite take_load by lia.
Qed.

Lemma store_in m a bs x b :
  a ≤ x → bs !! Z.to_nat (x - a) = Some b → store m a bs x = b.
Proof.
  intros Hx Hb. unfold store. pose proof (lookup_lt_Some _ _ _ Hb).
  destruct (Z.leb_spec a x); [|lia].
  destruct (Z.ltb_spec x (a + Z.of_nat (length bs))); [|lia]. simpl.
  by apply nth_lookup_Some.
Qed.

Lemma store_out m a bs x :
  ¬ (a ≤ x < a + Z.of_nat (length bs)) → store m a bs x = m x.
Proof.
  intros H. unfold store.
  destruct (Z.leb_spec a x), (Z.ltb_spec x (a + Z.of_nat (length bs))); simpl; auto; lia.
Qed.

Lemma load_store_same m a bs n : n = length bs → load (store m a bs) a n = bs.
Proof.
  intros ->. apply list_eq. intros i.
  destruct (decide (i < length bs)%nat) as [Hi|Hi].
  - rewrite lookup_load by done. destruct (lookup_lt_is_Some_2 bs i Hi) as [b Hb].
    rewrite Hb. f_equal. apply store_in; [lia|]. by replace (Z.to_nat _) with i by lia.
  - rewrite !lookup_ge_None_2; [done|lia|rewrite length_load; lia].
Qed.

Lemma load_store_disjoint m a n b bs :
  a + Z.of_nat n ≤ b ∨ b + Z.of_nat (length bs) ≤ a →
  load (store m b bs) a n = load m a n.
Proof. intros H. apply load_ext. intros x Hx. apply store_out. lia. Qed.

Lemma load_store_sub m b bs a n :
  b ≤ a → a + Z.of_nat n ≤ b + Z.of_nat (length bs) →
  load (store m b bs) a n = take n (drop (Z.to_nat (a - b)) bs).
Proof.
  intros H1 H2. apply list_eq. intros i. destruct (decide (i < n)%nat) as [Hi|Hi].
  - rewrite lookup_load by done. rewrite lookup_take_lt, lookup_drop by done.
    destruct (lookup_lt_is_Some_2 bs (Z.to_nat (a - b) + i)) as [x Hx]; [lia|].
    rewrite Hx. f_equal. apply store_in; [lia|].
    by replace (Z.to_nat (a + Z.of_nat i - b)) with (Z.to_nat (a - b) + i)%nat by lia.
  - rewrite !lookup_ge_None_2; [done| |rewrite length_load; lia].
    rewrite length_take, length_drop. lia.
Qed.

(** A second store of the same width hides the first. *)
Lemma store_store m a bs bs' :
  length bs = length bs' → store (store m a bs) a bs' = store m a bs'.
Proof.
  intros Hl. apply functional_extensionality. intros x. unfold store. rewrite Hl.
  by destruct ((a <=? x) && (x <? a + Z.of_nat (length bs'))).
Qed.

Lemma load_copy m src dst n k :
  (k ≤ n)%nat → load (copy m src dst n) dst k = load m src k.
Proof.
  intros H. unfold copy. rewrite load_store_sub by (rewrite ?length_load; lia).
  rewrite Z.sub_diag. simpl. rewrite drop_0. by apply take_load.
Qed.

Lemma load_le_store_same n m a v :
  load_le n (store_le n m a v) a = v mod 256 ^ Z.of_nat n.
Proof.
  unfold load_le, store_le. rewrite load_store_same by (by rewrite length_le_bytes).
  apply le_num_le_bytes.
Qed.

Lemma load_le_store_disjoint n m a b bs :
  a + Z.of_nat n ≤ b ∨ b + Z.of_nat (length bs) ≤ a →
  load_le n (store m b bs) a = load_le n m a.
Proof. intros H. unfold load_le. by rewrite load_store_disjoint. Qed.

Lemma load_le_ext n m m' a :
  (∀ x, a ≤ x < a + Z.of_nat n → m x = m' x) → load_le n m a = load_le n m' a.
Proof. intros H. unfold load_le. by rewrite (load_ext m m'). Qed.

Lemma frame_refl m lo hi : frame m m lo hi.
Proof. by intros x _. Qed.

Lemma frame_trans m1 m2 m3 lo hi :
  frame m1 m2 lo hi → frame m2 m3 lo hi → frame m1 m3 lo hi.
Proof. intros H1 H2 x Hx. rewrite H1, H2; done. Qed.

Lemma frame_weaken m m' lo hi lo' hi' :
  lo' ≤ lo → hi ≤ hi' → frame m m' lo hi → frame m m' lo' hi'.
Proof. intros ?? H x Hx. apply H. lia. Qed.

Lemma frame_store m a bs lo hi :
  lo ≤ a → a + Z.of_nat (length bs) ≤ hi → frame m (store m a bs) lo hi.
Proof. intros ?? x Hx. symmetry. apply store_out. lia. Qed.

Lemma frame_load m m' lo hi a n :
  frame m m' lo hi → a + Z.of_nat n ≤ lo ∨ hi ≤ a → load m' a n = load m a n.
Proof. intros H Hd. apply load_ext. intros x Hx. symmetry. apply H. lia. Qed.

Lemma frame_load_le m m' lo hi k a :
  frame m m' lo hi → a + Z.of_nat k ≤ lo ∨ hi ≤ a → load_le k m' a = load_le k m a.
Proof. intros H Hd. unfold load_le. by erewrite frame_load. Qed.

#[export] Hint Resolve frame_refl frame_trans : engine.
