(* ===== verification/Account.v ===== *)
(** * Copy-on-write accounts ([solana/account/src/cow/])

    [AccountCore], [OwnedAccount], the borrowed two-image layout with its sequence
    counter, and [AccountSharedData] over both representations. A borrowed account is
    a set of addresses into the byte memory, as the source's [NonNull] pointers are;
    every operation takes the memory and returns the memory it leaves. *)

From stdpp Require Import base list numbers option.
From S2P Require Import Prelude AccountMode Memory.

Local Open Scope Z_scope.

Abbreviation Pubkey := (list Z).

(** ** Constants and flags *)

Definition ALIGNMENT : Z := 8.
Definition STORAGE_UNIT : Z := 8.

(** [size_of::<AccountCore>()] for the [repr(C)] field order below, and
    [size_of::<DataHeader>()]. *)
Definition CORE_SIZE : Z := 56.
Definition DATA_HEADER_SIZE : Z := 8.
Definition STATIC_SIZE : Z := CORE_SIZE + DATA_HEADER_SIZE.
(** [(size_of::<AccountHeader>() + size_of::<Pubkey>()) / STORAGE_UNIT]. *)
Definition IMAGE_OFFSET : Z := (8 + 32) / STORAGE_UNIT.

Definition EXECUTABLE : Z := Z.shiftl 1 0.
Definition RENT_FUNDED : Z := Z.shiftl 1 1.

Definition OWNER : Z := Z.shiftl 1 0.
Definition LAMPORTS : Z := Z.shiftl 1 1.
Definition MODE : Z := Z.shiftl 1 2.
Definition FLAGS : Z := Z.shiftl 1 3.
Definition SLOT : Z := Z.shiftl 1 4.
Definition DATA : Z := Z.shiftl 1 5.
Definition COMMIT_SEQ : Z := Z.shiftl 1 6.
Definition all_markers : Z := 0x7F.

(** [bitflags] operations on the raw bits. *)
Definition contains (bits flag : Z) : bool := Z.land bits flag =? flag.
Definition intersects (bits flag : Z) : bool := negb (Z.land bits flag =? 0).
Definition insert_flag (bits flag : Z) : Z := Z.lor bits flag.
Definition set_flag (bits flag : Z) (on : bool) : Z :=
  if on then Z.lor bits flag else Z.ldiff bits flag.

(** ** Account core *)

Record AccountCore := {
  lamports : Z;
  owner : Pubkey;
  slot : Z;
  commit_seq : Z;
  mode : AccountMode;
  flags : Z;
  padding : Z;
}.

#[export] Instance AccountCore_eq_dec : EqDecision AccountCore.
Proof. solve_decision. Defined.

(** An assignment to one field of a core, [self.field = value] of the source. *)
Inductive CoreField :=
| FLamports (v : Z) | FOwner (v : Pubkey) | FSlot (v : Z) | FCommitSeq (v : Z)
| FMode (v : AccountMode) | FFlags (v : Z).

Definition core_put (c : AccountCore) (f : CoreField) : AccountCore :=
  let '(Build_AccountCore l o s q m g p) := c in
  match f with
  | FLamports v => Build_AccountCore v o s q m g p
  | FOwner v => Build_AccountCore l v s q m g p
  | FSlot v => Build_AccountCore l o v q m g p
  | FCommitSeq v => Build_AccountCore l o s v m g p
  | FMode v => Build_AccountCore l o s q v g p
  | FFlags v => Build_AccountCore l o s q m v p
  end.

(** The [repr(C)] little-endian image of a core, 56 bytes. *)
Definition core_bytes (c : AccountCore) : list Z :=
  le_bytes 8 (lamports c) ++ owner c ++ le_bytes 8 (slot c) ++
  le_bytes 4 (commit_seq c) ++ to_bytes (mode c) ++ le_bytes 1 (flags c) ++ [padding c].

(** Reading a byte pair that is no mode is undefined behaviour in the source; the
    model reads [Missing] there, and valid images never reach that case. *)
Definition mode_at (m : mem) (a : Z) : AccountMode :=
  match try_from (load m a 2) with Ok x => x | Err _ => Missing end.

Definition read_core (m : mem) (a : Z) : AccountCore := {|
  lamports := load_le 8 m a;
  owner := load m (a + 8) 32;
  slot := load_le 8 m (a + 40);
  commit_seq := load_le 4 m (a + 48);
  mode := mode_at m (a + 52);
  flags := load_le 1 m (a + 54);
  padding := m (a + 55);
|}.

Definition mem_put (m : mem) (a : Z) (f : CoreField) : mem :=
  match f with
  | FLamports v => store_le 8 m a v
  | FOwner v => store m (a + 8) v
  | FSlot v => store_le 8 m (a + 40) v
  | FCommitSeq v => store_le 4 m (a + 48) v
  | FMode v => store m (a + 52) (to_bytes v)
  | FFlags v => store_le 1 m (a + 54) v
  end.

(** ** Owned accounts *)

Record OwnedAccount := { o_core : AccountCore; o_data : list Z }.

#[export] Instance OwnedAccount_eq_dec : EqDecision OwnedAccount.
Proof. solve_decision. Defined.

Definition div_ceil (a b : Z) : Z := (a + b - 1) / b.

Definition allocation (o : OwnedAccount) : Z :=
  wrap 32 (div_ceil (STATIC_SIZE + zlen (o_data o)) ALIGNMENT).

Definition units (o : OwnedAccount) : Z := wrap 32 (allocation o * 2 + IMAGE_OFFSET).

(** [DataHeader::new]: length and capacity of one image. *)
Definition data_header (len alloc : Z) : list Z :=
  le_bytes 4 len ++ le_bytes 4 (alloc * STORAGE_UNIT - STATIC_SIZE).

(** [AccountHeader::new]: sequence zero and the image size in units. *)
Definition account_header (space : Z) : list Z := le_bytes 4 0 ++ le_bytes 4 space.

Definition serialize (m : mem) (buf : Z) (o : OwnedAccount) (pubkey : Pubkey) : mem :=
  let m := store m buf (account_header (allocation o)) in
  let m := store m (buf + 8) pubkey in
  let m := store m (buf + 40) (core_bytes (o_core o)) in
  let m := store m (buf + 96) (data_header (zlen (o_data o)) (allocation o)) in
  store m (buf + 104) (o_data o).

(** ** Borrowed accounts *)

Record DataSlice := { ds_header : Z; ds_ptr : Z }.

Record BorrowedAccount := {
  b_header : Z;
  b_core : Z;
  b_data : DataSlice;
  b_version : Z;
}.

#[export] Instance DataSlice_eq_dec : EqDecision DataSlice.
Proof. solve_decision. Defined.
#[export] Instance BorrowedAccount_eq_dec : EqDecision BorrowedAccount.
Proof. solve_decision. Defined.

(** [offset]: storage units from the header to the active or the shadow image. *)
Definition image_offset (space sequence : Z) (active : bool) : Z :=
  let even := Z.even sequence in
  let step := if xorb active even then 1 else 0 in
  step * space + IMAGE_OFFSET.

Definition header_space (m : mem) (h : Z) : Z := load_le 4 m (h + 4).
Definition sequence (m : mem) (h : Z) : Z := load_le 4 m h.

(** [BorrowedAccount::span], in storage units. *)
Definition span (m : mem) (ptr : Z) : Z := wrap 32 (header_space m ptr * 2 + IMAGE_OFFSET).

Definition buffer_pubkey (m : mem) (ptr : Z) : Pubkey := load m (ptr + STORAGE_UNIT) 32.

Definition data_slice_init (hdr : Z) : DataSlice := {| ds_header := hdr; ds_ptr := hdr + 8 |}.

Definition image_addr (m : mem) (h version : Z) (active : bool) : Z :=
  h + STORAGE_UNIT * image_offset (header_space m h) version active.

Definition view_at (h core version : Z) : BorrowedAccount :=
  {| b_header := h; b_core := core; b_data := data_slice_init (core + CORE_SIZE);
     b_version := version |}.

Definition init (m : mem) (buffer : Z) : BorrowedAccount :=
  let version := sequence m buffer in
  view_at buffer (image_addr m buffer version true) version.

Definition b_translate (m : mem) (b : BorrowedAccount) : mem * BorrowedAccount :=
  let dst := image_addr m (b_header b) (b_version b) false in
  let src := b_core b in
  if src =? dst then (m, b)
  else
    let count := header_space m (b_header b) in
    (copy m src dst (Z.to_nat (count * STORAGE_UNIT)),
     view_at (b_header b) dst (b_version b)).

Definition b_commit (m : mem) (b : BorrowedAccount) : mem :=
  let shadow := image_addr m (b_header b) (b_version b) false in
  if negb (b_core b =? shadow) then m
  else
    let next := wrapping_add 32 (b_version b) 1 in
    if sequence m (b_header b) =? b_version b then store_le 4 m (b_header b) next else m.

Definition b_reset (m : mem) (b : BorrowedAccount) : BorrowedAccount := init m (b_header b).

Definition b_rollback (m : mem) (b : BorrowedAccount) : mem :=
  store_le 4 m (b_header b) (wrapping_sub 32 (sequence m (b_header b)) 1).

(** Data slice accessors. *)
Definition ds_capacity (m : mem) (d : DataSlice) : Z := load_le 4 m (ds_header d + 4).
Definition ds_len (m : mem) (d : DataSlice) : Z :=
  Z.min (load_le 4 m (ds_header d)) (ds_capacity m d).
Definition ds_spare (m : mem) (d : DataSlice) : Z := ds_capacity m d - ds_len m d.
Definition ds_bytes (m : mem) (d : DataSlice) : list Z :=
  load m (ds_ptr d) (Z.to_nat (ds_len m d)).

Definition ds_resize (m : mem) (d : DataSlice) (len val : Z) : mem :=
  let prev := ds_len m d in
  let delta := saturating_sub len prev in
  let m := if 0 <? delta
           then store m (ds_ptr d + prev) (replicate (Z.to_nat delta) val) else m in
  store_le 4 m (ds_header d) len.

Definition ds_extend (m : mem) (d : DataSlice) (data : list Z) : mem :=
  let len := ds_len m d in
  let m := store m (ds_ptr d + len) data in
  store_le 4 m (ds_header d) (wrapping_add 32 (load_le 4 m (ds_header d)) (zlen data)).

Definition ds_set (m : mem) (d : DataSlice) (data : list Z) : mem :=
  let m := store m (ds_ptr d) data in
  store_le 4 m (ds_header d) (zlen data).

(** [From<&BorrowedAccount> for OwnedAccount]. *)
Definition b_owned (m : mem) (b : BorrowedAccount) : OwnedAccount :=
  {| o_core := read_core m (b_core b); o_data := ds_bytes m (b_data b) |}.

(** [BorrowedAccount::storage]: core, data header and initialized data. *)
Definition b_storage (m : mem) (b : BorrowedAccount) : list Z :=
  load m (b_core b) (Z.to_nat (STATIC_SIZE + ds_len m (b_data b))).

(** ** Copy-on-write representation *)

Inductive CoWAccount :=
| Borrowed (b : BorrowedAccount)
| Owned (o : OwnedAccount).

Record AccountSharedData := { cow : CoWAccount; dirty_bits : Z }.

#[export] Instance CoWAccount_eq_dec : EqDecision CoWAccount.
Proof. solve_decision. Defined.
#[export] Instance AccountSharedData_eq_dec : EqDecision AccountSharedData.
Proof. solve_decision. Defined.

(** [AccountSharedData::owned]: the account state the value denotes. *)
Definition owned (m : mem) (s : AccountSharedData) : OwnedAccount :=
  match cow s with Borrowed b => b_owned m b | Owned o => o end.

(** [Deref for AccountSharedData]. *)
Definition core_of (m : mem) (s : AccountSharedData) : AccountCore :=
  match cow s with Borrowed b => read_core m (b_core b) | Owned o => o_core o end.

Definition cow_data (m : mem) (c : CoWAccount) : list Z :=
  match c with Borrowed b => ds_bytes m (b_data b) | Owned o => o_data o end.

Definition promote (m : mem) (c : CoWAccount) : CoWAccount :=
  match c with Borrowed b => Owned (b_owned m b) | Owned o => Owned o end.

Definition map_owned (f : list Z → list Z) (c : CoWAccount) : CoWAccount :=
  match c with
  | Owned o => Owned {| o_core := o_core o; o_data := f (o_data o) |}
  | Borrowed b => Borrowed b
  end.

(** Vec capacity is not observable, so reserving only decides the promotion. *)
Definition cow_reserve (m : mem) (c : CoWAccount) (additional : Z) : CoWAccount :=
  match c with
  | Borrowed b => if additional <=? ds_spare m (b_data b) then c else promote m c
  | Owned _ => c
  end.

Definition cow_resize (m : mem) (c : CoWAccount) (len val : Z) : mem * CoWAccount :=
  match c with
  | Borrowed b =>
      if len <=? ds_capacity m (b_data b)
      then (ds_resize m (b_data b) len val, c)
      else (m, map_owned (resize (Z.to_nat len) val) (promote m c))
  | Owned _ => (m, map_owned (resize (Z.to_nat len) val) c)
  end.

Definition cow_extend_from_slice (m : mem) (c : CoWAccount) (data : list Z)
    : mem * CoWAccount :=
  match cow_reserve m c (zlen data) with
  | Borrowed b => (ds_extend m (b_data b) data, Borrowed b)
  | Owned o => (m, map_owned (λ d, d ++ data) (Owned o))
  end.

Definition cow_set_data_from_slice (m : mem) (c : CoWAccount) (data : list Z)
    : mem * CoWAccount :=
  let additional := saturating_sub (zlen data) (zlen (cow_data m c)) in
  match cow_reserve m c additional with
  | Borrowed b => (ds_set m (b_data b) data, Borrowed b)
  | Owned o => (m, map_owned (λ _, data) (Owned o))
  end.

(** [data_mut()[offset..offset + n].copy_from_slice(data)] with [n] the length of
    [data]; the callers keep the range within the data. *)
Definition cow_copy_at (m : mem) (c : CoWAccount) (offset : Z) (data : list Z)
    : mem * CoWAccount :=
  match c with
  | Borrowed b => (store m (ds_ptr (b_data b) + offset) data, c)
  | Owned _ =>
      let n := Z.to_nat offset in
      (m, map_owned (λ d, take n d ++ data ++ drop (n + length data) d) c)
  end.

(** ** AccountSharedData *)

Definition is_dirty (s : AccountSharedData) : bool := intersects (dirty_bits s) all_markers.

Definition mark (s : AccountSharedData) (marker : Z) : AccountSharedData :=
  {| cow := cow s; dirty_bits := insert_flag (dirty_bits s) marker |}.

Definition translate (m : mem) (s : AccountSharedData) : mem * AccountSharedData :=
  if is_dirty s then (m, s)
  else match cow s with
       | Borrowed b =>
           let '(m, b) := b_translate m b in
           (m, {| cow := Borrowed b; dirty_bits := dirty_bits s |})
       | Owned _ => (m, s)
       end.

(** [DerefMut]: assigns one field of the current image. *)
Definition assign (m : mem) (s : AccountSharedData) (f : CoreField)
    : mem * AccountSharedData :=
  match cow s with
  | Borrowed b => (mem_put m (b_core b) f, s)
  | Owned o =>
      (m, {| cow := Owned {| o_core := core_put (o_core o) f; o_data := o_data o |};
             dirty_bits := dirty_bits s |})
  end.

(** The translate, mark, write shape every setter of the source has. *)
Definition touch (m : mem) (s : AccountSharedData) (marker : Z) : mem * AccountSharedData :=
  let '(m, s) := translate m s in (m, mark s marker).

Definition with_cow (s : AccountSharedData) (r : mem * CoWAccount) : mem * AccountSharedData :=
  (r.1, {| cow := r.2; dirty_bits := dirty_bits s |}).

Definition set_lamports (m : mem) (s : AccountSharedData) (v : Z) :=
  if lamports (core_of m s) =? v then (m, s)
  else let '(m, s) := touch m s LAMPORTS in assign m s (FLamports v).

Definition set_owner (m : mem) (s : AccountSharedData) (v : Pubkey) :=
  if bool_decide (owner (core_of m s) = v) then (m, s)
  else let '(m, s) := touch m s OWNER in assign m s (FOwner v).

Definition set_commit_seq (m : mem) (s : AccountSharedData) (v : Z) :=
  if commit_seq (core_of m s) =? v then (m, s)
  else let '(m, s) := touch m s COMMIT_SEQ in assign m s (FCommitSeq v).

Definition set_flags (m : mem) (s : AccountSharedData) (v : Z) :=
  if flags (core_of m s) =? v then (m, s)
  else let '(m, s) := touch m s FLAGS in assign m s (FFlags v).

Definition set_executable (m : mem) (s : AccountSharedData) (on : bool) :=
  set_flags m s (set_flag (flags (core_of m s)) EXECUTABLE on).

Definition set_lifecycle (m : mem) (s : AccountSharedData) (to : AccountMode) (to_slot : Z)
    : mem * AccountSharedData * result AccountPatchError unit :=
  match validate_transition (mode (core_of m s)) to (slot (core_of m s)) to_slot with
  | Err e => (m, s, Err e)
  | Ok _ =>
      let '(m, s) := translate m s in
      let '(m, s) := if bool_decide (mode (core_of m s) = to) then (m, s)
                     else assign m (mark s MODE) (FMode to) in
      let '(m, s) := assign m (mark s SLOT) (FSlot to_slot) in
      (m, s, Ok tt)
  end.

Definition resize_data (m : mem) (s : AccountSharedData) (len val : Z) :=
  let '(m, s) := touch m s DATA in with_cow s (cow_resize m (cow s) len val).

Definition extend_from_slice (m : mem) (s : AccountSharedData) (data : list Z) :=
  let '(m, s) := touch m s DATA in with_cow s (cow_extend_from_slice m (cow s) data).

Definition set_data_from_slice (m : mem) (s : AccountSharedData) (data : list Z) :=
  let '(m, s) := touch m s DATA in with_cow s (cow_set_data_from_slice m (cow s) data).

(** [data_as_mut_slice()[offset..].copy_from_slice(data)]. *)
Definition write_data (m : mem) (s : AccountSharedData) (offset : Z) (data : list Z) :=
  let '(m, s) := touch m s DATA in with_cow s (cow_copy_at m (cow s) offset data).

Definition set_data_at (m : mem) (s : AccountSharedData) (offset : Z) (data : list Z) :=
  let '(m, s) := touch m s DATA in
  let len := zlen (cow_data m (cow s)) in
  let '(m, s) := if len <? offset then resize_data m s offset 0 else (m, s) in
  let n := Z.min (saturating_sub (zlen (cow_data m (cow s))) offset) (zlen data) in
  let '(m, s) := write_data m s offset (take (Z.to_nat n) data) in
  extend_from_slice m s (drop (Z.to_nat n) data).

Definition checked_add_lamports (m : mem) (s : AccountSharedData) (v : Z)
    : option (mem * AccountSharedData) :=
  set_lamports m s <$> checked_add 64 (lamports (core_of m s)) v.

Definition checked_sub_lamports (m : mem) (s : AccountSharedData) (v : Z)
    : option (mem * AccountSharedData) :=
  set_lamports m s <$> checked_sub (lamports (core_of m s)) v.

Definition executable (m : mem) (s : AccountSharedData) : bool :=
  contains (flags (core_of m s)) EXECUTABLE.

(** The transaction-final writeback predicate. *)
Definition can_writeback (m : mem) (s : AccountSharedData) : bool :=
  is_writable (mode (core_of m s)) ||
  (bool_decide (mode (core_of m s) ∈ [Undelegating; Closed]) && contains (dirty_bits s) MODE).

Definition from_owned (o : OwnedAccount) : AccountSharedData :=
  {| cow := Owned o; dirty_bits := 0 |}.
Definition from_borrowed (b : BorrowedAccount) : AccountSharedData :=
  {| cow := Borrowed b; dirty_bits := 0 |}.
