(* ===== verification/AccountFacts.v ===== *)
(** * Correctness of copy-on-write accounts

    Both representations of [AccountSharedData] refine one abstract account, a core and
    a byte string: every setter has the effect of the plain record update on what
    [owned] reads, and writes nothing but the shadow image. Committing publishes the
    shadow, rolling back restores the previous image, and serializing then opening a
    buffer reads the same account back. *)

From stdpp Require Import base list numbers option.
From S2P Require Import Prelude AccountMode Memory Account.

Local Open Scope Z_scope.

(** ** Invariant *)

Definition shadow_lo (m : mem) (b : BorrowedAccount) : Z :=
  image_addr m (b_header b) (b_version b) false.
Definition image_size (m : mem) (b : BorrowedAccount) : Z :=
  STORAGE_UNIT * header_space m (b_header b).

(** A view made by [init] or [translate] of a valid buffer. *)
Record wf_borrowed (m : mem) (b : BorrowedAccount) : Prop := {
  wf_space : 8 ≤ header_space m (b_header b);
  wf_small : image_size m b - STATIC_SIZE < 2 ^ 32;
  wf_version : sequence m (b_header b) = b_version b;
  wf_core : ∃ active, b_core b = image_addr m (b_header b) (b_version b) active;
  wf_data : b_data b = data_slice_init (b_core b + CORE_SIZE);
  wf_cap : load_le 4 m (b_core b + 60) = image_size m b - STATIC_SIZE;
  wf_len : 0 ≤ load_le 4 m (b_core b + 56) ≤ image_size m b - STATIC_SIZE;
}.

(** Once an account is dirty its view points at the shadow image. *)
Definition wf (m : mem) (s : AccountSharedData) : Prop :=
  match cow s with
  | Borrowed b => wf_borrowed m b ∧ (is_dirty s = true → b_core b = shadow_lo m b)
  | Owned _ => True
  end.

(** What an operation may change: of the memory only the shadow image, and of the
    representation only the image it points at, or a promotion to owned. *)
Definition evolves (m : mem) (s : AccountSharedData) (m' : mem) (s' : AccountSharedData)
    : Prop :=
  match cow s with
  | Owned _ => m' = m ∧ ∃ o, cow s' = Owned o
  | Borrowed b =>
      frame m m' (shadow_lo m b) (shadow_lo m b + image_size m b) ∧
      match cow s' with
      | Owned _ => True
      | Borrowed b' => b_header b' = b_header b ∧ b_version b' = b_version b
      end
  end.

(** The result of an operation on [(m, s)] is well formed, stays within its rights and
    denotes [cur]. *)
Definition denotes (m : mem) (s : AccountSharedData) (cur : OwnedAccount)
    (r : mem * AccountSharedData) : Prop :=
  wf r.1 r.2 ∧ evolves m s r.1 r.2 ∧ owned r.1 r.2 = cur.

(** ** Abstract accounts: the operations on the denoted value *)

Definition put (o : OwnedAccount) (f : CoreField) : OwnedAccount :=
  {| o_core := core_put (o_core o) f; o_data := o_data o |}.
Definition with_data (o : OwnedAccount) (d : list Z) : OwnedAccount :=
  {| o_core := o_core o; o_data := d |}.

(** Bytes written at an offset, zero-filling the gap and extending as needed. *)
Definition splice (d : list Z) (n : nat) (data : list Z) : list Z :=
  resize n 0 d ++ data ++ drop (n + length data) d.

Definition field_ok (f : CoreField) : Prop :=
  match f with
  | FLamports v | FSlot v => fits 64 v
  | FOwner v => length v = 32%nat
  | FCommitSeq v => fits 32 v
  | FMode _ => True
  | FFlags v => fits 8 v
  end.

Arguments core_put : simpl never.
Arguments core_bytes : simpl never.
Arguments data_header : simpl never.
Arguments account_header : simpl never.
Arguments load_le : simpl never.
Arguments store_le : simpl never.

(** ** Layout lemmas *)

Lemma image_addr_eq m h v active :
  image_addr m h v active =
  h + 40 + (if xorb active (Z.even v) then 8 * header_space m h else 0).
Proof.
  unfold image_addr, image_offset, STORAGE_UNIT.
  change IMAGE_OFFSET with 5. destruct (xorb active (Z.even v)); lia.
Qed.

Lemma frame_header m m' b :
  8 ≤ header_space m (b_header b) →
  frame m m' (shadow_lo m b) (shadow_lo m b + image_size m b) →
  header_space m' (b_header b) = header_space m (b_header b) ∧
  sequence m' (b_header b) = sequence m (b_header b).
Proof.
  intros Hs Hf. unfold header_space, sequence.
  assert (b_header b + 40 ≤ shadow_lo m b).
  { unfold shadow_lo. rewrite image_addr_eq. destruct (xorb _ _); lia. }
  split; eapply frame_load_le; eauto; simpl; lia.
Qed.

Lemma frame_shadow m m' b :
  8 ≤ header_space m (b_header b) →
  frame m m' (shadow_lo m b) (shadow_lo m b + image_size m b) →
  shadow_lo m' b = shadow_lo m b ∧ image_size m' b = image_size m b ∧
  (∀ a, image_addr m' (b_header b) (b_version b) a =
        image_addr m (b_header b) (b_version b) a).
Proof.
  intros Hs Hf. destruct (frame_header _ _ _ Hs Hf) as [E _].
  unfold shadow_lo, image_size. rewrite E. repeat split; [|intros a];
    by rewrite !image_addr_eq, E.
Qed.

Lemma wf_borrowed_frame m m' b :
  wf_borrowed m b →
  frame m m' (shadow_lo m b) (shadow_lo m b + image_size m b) →
  load_le 4 m' (b_core b + 60) = image_size m b - STATIC_SIZE →
  0 ≤ load_le 4 m' (b_core b + 56) ≤ image_size m b - STATIC_SIZE →
  wf_borrowed m' b.
Proof.
  intros [Hsp Hsm Hv [a Hc] Hd Hcap Hlen] Hf Hcap' Hlen'.
  destruct (frame_header _ _ _ Hsp Hf) as [E1 E2].
  destruct (frame_shadow _ _ _ Hsp Hf) as (E3 & E4 & E5).
  split; try rewrite E4; try congruence; try lia.
  exists a. by rewrite E5.
Qed.

Lemma ds_capacity_wf m b :
  wf_borrowed m b → ds_capacity m (b_data b) = image_size m b - STATIC_SIZE.
Proof.
  intros Hw. unfold ds_capacity. rewrite (wf_data _ _ Hw). simpl. rewrite <- (wf_cap _ _ Hw).
  f_equal. unfold CORE_SIZE. lia.
Qed.

Lemma ds_len_wf m b :
  wf_borrowed m b → ds_len m (b_data b) = load_le 4 m (b_core b + 56).
Proof.
  intros Hw. unfold ds_len. rewrite ds_capacity_wf by done. rewrite (wf_data _ _ Hw). simpl.
  unfold CORE_SIZE. pose proof (wf_len _ _ Hw). lia.
Qed.

Lemma ds_bytes_wf m b :
  wf_borrowed m b →
  ds_bytes m (b_data b) = load m (b_core b + 64) (Z.to_nat (load_le 4 m (b_core b + 56))).
Proof.
  intros Hw. unfold ds_bytes. rewrite ds_len_wf by done. rewrite (wf_data _ _ Hw). simpl.
  f_equal. unfold CORE_SIZE. lia.
Qed.

Lemma zlen_ds_bytes m b :
  wf_borrowed m b → zlen (ds_bytes m (b_data b)) = load_le 4 m (b_core b + 56).
Proof.
  intros Hw. rewrite ds_bytes_wf by done. unfold zlen. rewrite length_load.
  pose proof (wf_len _ _ Hw). lia.
Qed.

Lemma image_size_eq m b : image_size m b = 8 * header_space m (b_header b).
Proof. done. Qed.

(** ** Core fields in memory *)

Lemma mode_at_ext m m' a :
  (∀ x, a ≤ x < a + 2 → m x = m' x) → mode_at m a = mode_at m' a.
Proof. intros H. unfold mode_at. by rewrite (load_ext m m'). Qed.

Lemma read_core_ext m m' a :
  (∀ x, a ≤ x < a + 56 → m x = m' x) → read_core m a = read_core m' a.
Proof.
  intros H. unfold read_core. f_equal;
    first [ apply load_le_ext; intros; apply H; lia
          | apply load_ext; intros; apply H; lia
          | apply mode_at_ext; intros; apply H; lia
          | apply H; lia ].
Qed.

Lemma mode_at_store m a v : mode_at (store m a (to_bytes v)) a = v.
Proof.
  unfold mode_at. rewrite load_store_same by done.
  by rewrite try_from_to_bytes.
Qed.

(** Reduces a typed load over a store of a field by comparing address ranges. *)
Ltac frame_simpl :=
  repeat first
    [ rewrite load_le_store_same
    | rewrite load_le_store_disjoint by (rewrite ?length_le_bytes; simpl; lia)
    | rewrite load_store_same by (rewrite ?length_le_bytes; done)
    | rewrite load_store_disjoint by (rewrite ?length_le_bytes; simpl; lia)
    | rewrite store_out by (rewrite ?length_le_bytes; simpl; lia) ].

Lemma mode_at_store_disjoint m a b bs :
  a + 2 ≤ b ∨ b + zlen bs ≤ a → mode_at (store m b bs) a = mode_at m a.
Proof. intros H. unfold mode_at, zlen in *. by rewrite load_store_disjoint by lia. Qed.

Lemma read_core_mem_put m a f :
  field_ok f → read_core (mem_put m a f) a = core_put (read_core m a) f.
Proof.
  intros Hf. unfold read_core, core_put.
  destruct f; simpl in *; unfold store_le; f_equal; frame_simpl; try done;
    try (rewrite mode_at_store_disjoint by (unfold zlen; rewrite ?length_le_bytes; simpl; lia));
    try done; try (by apply mode_at_store);
    unfold fits, load_le in *; rewrite ?load_store_same by (by rewrite ?length_le_bytes);
    try (apply le_round_trip; simpl in *; lia); done.
Qed.

Lemma mem_put_frame m a f :
  field_ok f → frame m (mem_put m a f) a (a + 56).
Proof.
  intros Hf. destruct f; simpl in *; apply frame_store;
    rewrite ?length_le_bytes; simpl; lia.
Qed.

(** ** Translation to the shadow image *)

Lemma b_translate_spec m b :
  wf_borrowed m b →
  let r := b_translate m b in
  wf_borrowed r.1 r.2 ∧ b_core r.2 = shadow_lo r.1 r.2 ∧
  b_header r.2 = b_header b ∧ b_version r.2 = b_version b ∧
  frame m r.1 (shadow_lo m b) (shadow_lo m b + image_size m b) ∧
  b_owned r.1 r.2 = b_owned m b.
Proof.
  intros Hw. unfold b_translate. cbv zeta. fold (shadow_lo m b).
  destruct (Z.eqb_spec (b_core b) (shadow_lo m b)) as [E|E]; simpl.
  { repeat split; try apply Hw; auto with engine. }
  pose proof Hw as [Hsp Hsm Hv [act Hc] Hd Hcap Hlen].
  set (n := Z.to_nat (header_space m (b_header b) * STORAGE_UNIT)).
  set (dst := shadow_lo m b). set (m' := copy m (b_core b) dst n).
  set (b' := view_at (b_header b) dst (b_version b)).
  assert (Hn : Z.of_nat n = image_size m b).
  { unfold n. rewrite image_size_eq. unfold STORAGE_UNIT. lia. }
  assert (Hf : frame m m' dst (dst + image_size m b)).
  { unfold m', copy. apply frame_store; rewrite ?length_load; lia. }
  assert (Hget : ∀ k o, 0 ≤ o → o + Z.of_nat k ≤ image_size m b →
                 load m' (dst + o) k = load m (b_core b + o) k).
  { intros k o Ho Hk. unfold m', copy.
    rewrite load_store_sub by (rewrite ?length_load; lia).
    replace (Z.to_nat (dst + o - dst)) with (Z.to_nat o) by lia.
    replace n with (Z.to_nat o + (k + (n - Z.to_nat o - k)))%nat by lia.
    rewrite load_app, drop_app_length' by (by rewrite length_load).
    rewrite take_load by lia. f_equal. lia. }
  assert (Hle : ∀ k o, 0 ≤ o → o + Z.of_nat k ≤ image_size m b →
                load_le k m' (dst + o) = load_le k m (b_core b + o)).
  { intros. unfold load_le. by rewrite Hget. }
  rewrite image_size_eq in *. change STATIC_SIZE with 64 in *.
  destruct (frame_header m m' b Hsp Hf) as [E1 E2].
  destruct (frame_shadow m m' b Hsp Hf) as (E3 & E4 & E5).
  assert (Hcore : read_core m' dst = read_core m (b_core b)).
  { unfold read_core, mode_at. rewrite <- (Z.add_0_r dst), <- (Z.add_0_r (b_core b)) at 1.
    rewrite !Hle, !Hget by (simpl; lia).
    pose proof (Hget 1%nat 55 ltac:(lia) ltac:(simpl; lia)) as H1. injection H1 as H1.
    rewrite !Z.add_0_r in H1. by rewrite H1, !Z.add_0_r. }
  assert (Hwf : wf_borrowed m' b').
  { split; simpl; rewrite ?E1, ?E2, ?image_size_eq; simpl; rewrite ?E1, ?Hle by (simpl; lia);
      try done; try lia. exists false. by rewrite E5. }
  split; [done|]. split; [by symmetry|]. repeat split; auto.
  unfold b_owned. f_equal; [done|].
  rewrite !ds_bytes_wf by done. simpl. rewrite Hle by (simpl; lia).
  apply Hget; lia.
Qed.

(** ** Composition *)

Lemma evolves_refl m s : evolves m s m s.
Proof. unfold evolves. destruct (cow s); eauto using frame_refl. Qed.

Lemma evolves_trans m s m1 s1 m2 s2 :
  wf m s → evolves m s m1 s1 → evolves m1 s1 m2 s2 → evolves m s m2 s2.
Proof.
  unfold evolves, wf. destruct (cow s) as [b|o].
  - intros [Hw _] [Hf H1] H2.
    destruct (frame_shadow _ _ _ (wf_space _ _ Hw) Hf) as (E1 & E2 & _).
    destruct (cow s1) as [b1|o1].
    + destruct H1 as [Hh Hv]. destruct H2 as [Hf2 H2].
      assert (shadow_lo m1 b1 = shadow_lo m b) as E3.
      { rewrite <- E1. unfold shadow_lo. by rewrite Hh, Hv. }
      assert (image_size m1 b1 = image_size m b) as E4.
      { rewrite <- E2. unfold image_size. by rewrite Hh. }
      rewrite E3, E4 in Hf2. split; [eauto with engine|].
      destruct (cow s2); [|done]. destruct H2. split; congruence.
    + destruct H2 as [-> [o E]]. split; [done|]. by rewrite E.
  - intros _ [-> [o1 E1]] H2. rewrite E1 in H2. done.
Qed.

Lemma denotes_bind m s cur (r : mem * AccountSharedData) (k : mem → AccountSharedData → mem * AccountSharedData) cur' :
  wf m s → denotes m s cur r →
  (denotes m s cur r → denotes r.1 r.2 cur' (k r.1 r.2)) →
  denotes m s cur' (let '(m', s') := r in k m' s').
Proof.
  intros Hw Hd Hk. specialize (Hk Hd). destruct r as [m1 s1]. simpl in *.
  destruct Hd as (Hw1 & He1 & _), Hk as (Hw2 & He2 & Ho).
  split; [done|]. split; [|done]. by eapply evolves_trans.
Qed.

Lemma denotes_refl m s : wf m s → denotes m s (owned m s) (m, s).
Proof. intros Hw. split; [done|]. split; [apply evolves_refl|done]. Qed.

Lemma owned_mark m s k : owned m (mark s k) = owned m s.
Proof. done. Qed.

Lemma owned_borrowed m s b : cow s = Borrowed b → owned m s = b_owned m b.
Proof. unfold owned. by intros ->. Qed.

Lemma owned_owned m s o : cow s = Owned o → owned m s = o.
Proof. unfold owned. by intros ->. Qed.

Lemma core_of_owned m s : core_of m s = o_core (owned m s).
Proof. unfold core_of, owned. by destruct (cow s). Qed.

Lemma cow_data_owned m s : cow_data m (cow s) = o_data (owned m s).
Proof. unfold owned. by destruct (cow s). Qed.

Definition marker_ok (k : Z) : bool := intersects k all_markers.

Lemma is_dirty_mark s k : marker_ok k = true → is_dirty (mark s k) = true.
Proof.
  unfold marker_ok, is_dirty, intersects, mark, insert_flag. simpl. intros H.
  apply negb_true_iff, Z.eqb_neq in H. apply negb_true_iff, Z.eqb_neq.
  rewrite Z.land_lor_distr_l. intros E. apply Z.lor_eq_0_iff in E as [_ E]. done.
Qed.

Lemma is_dirty_mark_mono s k : is_dirty s = true → is_dirty (mark s k) = true.
Proof.
  unfold is_dirty, intersects, mark, insert_flag. simpl. intros H.
  apply negb_true_iff, Z.eqb_neq in H. apply negb_true_iff, Z.eqb_neq.
  rewrite Z.land_lor_distr_l. intros E. apply Z.lor_eq_0_iff in E as [E _]. done.
Qed.

(** The view is well formed and points at the shadow, or is owned: writable in place. *)
Definition prepared (m : mem) (s : AccountSharedData) : Prop :=
  match cow s with
  | Borrowed b => wf_borrowed m b ∧ b_core b = shadow_lo m b
  | Owned _ => True
  end.

Lemma prepared_wf m s : prepared m s → wf m s.
Proof. unfold prepared, wf. destruct (cow s); naive_solver. Qed.

Lemma wf_prepared m s : wf m s → is_dirty s = true → prepared m s.
Proof. unfold prepared, wf. destruct (cow s); naive_solver. Qed.

Lemma prepared_mark m s k : prepared m s → prepared m (mark s k).
Proof. done. Qed.

Lemma evolves_mark m s m' s' k : evolves m s m' s' → evolves m s m' (mark s' k).
Proof. done. Qed.

Lemma translate_spec m s :
  wf m s → denotes m s (owned m s) (translate m s) ∧
           prepared (translate m s).1 (translate m s).2.
Proof.
  intros Hw. unfold translate. destruct (is_dirty s) eqn:Ed.
  { split; [by apply denotes_refl|by apply wf_prepared]. }
  destruct (cow s) as [b|o] eqn:Ec.
  - unfold wf in Hw. rewrite Ec in Hw. destruct Hw as [Hb _].
    pose proof (b_translate_spec m b Hb) as H. destruct (b_translate m b) as [m' b'].
    simpl in H. destruct H as (Hw' & Hs & Hh & Hv & Hf & Ho).
    unfold denotes, wf, evolves, prepared, owned; simpl. rewrite Ec; simpl.
    split_and!; auto.
  - split; [by apply denotes_refl|]. unfold prepared; simpl. by rewrite Ec.
Qed.

Lemma touch_spec m s k :
  wf m s → marker_ok k = true →
  denotes m s (owned m s) (touch m s k) ∧
  prepared (touch m s k).1 (touch m s k).2 ∧ is_dirty (touch m s k).2 = true.
Proof.
  intros Hw Hk. unfold touch. destruct (translate_spec m s Hw) as [[Hw' [He Ho]] Hp].
  destruct (translate m s) as [m' s']. simpl in *.
  split; [|split; [by apply prepared_mark|by apply is_dirty_mark]].
  split; [by apply prepared_wf, prepared_mark|]. split; [by apply evolves_mark|done].
Qed.

(** ** Writes through a prepared view *)

Lemma assign_spec m s f :
  prepared m s → field_ok f →
  denotes m s (put (owned m s) f) (assign m s f) ∧
  prepared (assign m s f).1 (assign m s f).2 ∧
  dirty_bits (assign m s f).2 = dirty_bits s.
Proof.
  intros Hp Hf. unfold prepared in Hp. unfold assign.
  destruct (cow s) as [b|o] eqn:Ec; simpl.
  - destruct Hp as [Hw Hs]. pose proof (mem_put_frame m (b_core b) f Hf) as Hfr.
    pose proof Hw as [Hsp _ _ _ Hd Hcap Hlen]. rewrite image_size_eq in *.
    assert (Hfr' : frame m (mem_put m (b_core b) f) (shadow_lo m b)
                         (shadow_lo m b + image_size m b)).
    { eapply frame_weaken, Hfr; rewrite ?image_size_eq; lia. }
    assert (Hload : ∀ k a, b_core b + 56 ≤ a →
              load (mem_put m (b_core b) f) a k = load m a k).
    { intros k a Ha. eapply frame_load; [exact Hfr|lia]. }
    assert (Hw' : wf_borrowed (mem_put m (b_core b) f) b).
    { apply wf_borrowed_frame with m; auto; rewrite ?image_size_eq;
        unfold load_le; rewrite Hload by lia; done. }
    destruct (frame_shadow _ _ _ Hsp Hfr') as (E1 & E2 & _).
    assert (Hp' : prepared (mem_put m (b_core b) f) s)
      by (unfold prepared; rewrite Ec, E1; done).
    split; [|done]. split; [by apply prepared_wf|]. split.
    { unfold evolves; simpl; rewrite Ec; done. }
    simpl. rewrite !(owned_borrowed _ s b) by done. unfold put, b_owned; simpl.
    f_equal; [by apply read_core_mem_put|].
    rewrite !ds_bytes_wf by done. unfold load_le. by rewrite !Hload by lia.
  - split; [|done]. split; [done|]. split; [unfold evolves; rewrite Ec; eauto|].
    unfold owned, put. by rewrite Ec.
Qed.

(** A write confined to the data header's length and the data area of the shadow. *)
Lemma borrowed_data_spec m m' s s' b data :
  prepared m s → cow s = Borrowed b → cow s' = Borrowed b →
  frame m m' (b_core b + 56) (b_core b + image_size m b) →
  load_le 4 m' (b_core b + 60) = load_le 4 m (b_core b + 60) →
  load_le 4 m' (b_core b + 56) = zlen data → zlen data ≤ image_size m b - STATIC_SIZE →
  load m' (b_core b + 64) (length data) = data →
  denotes m s (with_data (owned m s) data) (m', s') ∧ prepared m' s'.
Proof.
  intros Hp Ec Ec' Hfr Hcap Hlen Hle Hdata. unfold prepared in Hp. rewrite Ec in Hp.
  destruct Hp as [Hw Hs]. pose proof Hw as [Hsp _ _ _ _ Hcap0 _].
  assert (Hfr' : frame m m' (shadow_lo m b) (shadow_lo m b + image_size m b)).
  { eapply frame_weaken, Hfr; lia. }
  assert (Hw' : wf_borrowed m' b).
  { apply wf_borrowed_frame with m; auto; [by rewrite Hcap|]. rewrite Hlen.
    unfold zlen in *. lia. }
  destruct (frame_shadow _ _ _ Hsp Hfr') as (E1 & E2 & _).
  assert (Hp' : prepared m' s') by (unfold prepared; rewrite Ec', E1; done).
  split; [|done]. split; [by apply prepared_wf|]. split.
  { unfold evolves; simpl; rewrite Ec, Ec'; done. }
  simpl. rewrite (owned_borrowed _ s' b), (owned_borrowed _ s b) by done.
  unfold with_data, b_owned; simpl. f_equal.
  - apply read_core_ext. intros x Hx. symmetry. apply Hfr. lia.
  - rewrite ds_bytes_wf by done. rewrite Hlen. unfold zlen. by rewrite Nat2Z.id.
Qed.

(** A value moved to, or kept in, owned storage. *)
Lemma owned_data_spec m s s' o :
  prepared m s → cow s' = Owned o →
  denotes m s o (m, s') ∧ prepared m s'.
Proof.
  intros Hp E. assert (Hp' : prepared m s') by (unfold prepared; by rewrite E).
  split; [|done]. split; [by apply prepared_wf|]. split.
  - unfold evolves; simpl. destruct (cow s); rewrite E; eauto using frame_refl.
  - unfold owned; simpl. by rewrite E.
Qed.

Lemma map_owned_promote m s f :
  map_owned f (promote m (cow s)) = Owned (with_data (owned m s) (f (o_data (owned m s)))).
Proof. unfold owned, promote. by destruct (cow s). Qed.

Lemma cow_data_length m s : zlen (cow_data m (cow s)) = zlen (o_data (owned m s)).
Proof. by rewrite cow_data_owned. Qed.

Lemma resize_app_replicate {A} (d : list A) n x :
  (length d ≤ n)%nat → resize n x d = d ++ replicate (n - length d) x.
Proof. intros H. by apply resize_ge. Qed.

Lemma cow_resize_spec m s len val :
  prepared m s → 0 ≤ len →
  let r := with_cow s (cow_resize m (cow s) len val) in
  denotes m s (with_data (owned m s) (resize (Z.to_nat len) val (o_data (owned m s)))) r ∧
  prepared r.1 r.2.
Proof.
  intros Hp Hl. unfold with_cow, cow_resize. destruct (cow s) as [b|o] eqn:Ec; simpl.
  2: { rewrite (owned_owned m s o) by done. by apply owned_data_spec. }
  pose proof Hp as Hp'. unfold prepared in Hp'. rewrite Ec in Hp'. destruct Hp' as [Hw Hs].
  pose proof (wf_len _ _ Hw) as Hlen. pose proof (wf_small _ _ Hw) as Hsm.
  rewrite ds_capacity_wf by done.
  destruct (Z.leb_spec len (image_size m b - STATIC_SIZE)) as [Hc|Hc]; simpl.
  2: { apply owned_data_spec; [done|]. unfold owned. by rewrite Ec. }
  rewrite (owned_borrowed m s b) at 2 by done. simpl.
  rewrite ds_bytes_wf by done.
  unfold ds_resize. rewrite ds_len_wf by done. rewrite (wf_data _ _ Hw); simpl.
  unfold CORE_SIZE. replace (b_core b + 56 + 8) with (b_core b + 64) by lia.
  change STATIC_SIZE with 64 in *.
  set (cur := load_le 4 m (b_core b + 56)) in *.
  set (d := load m (b_core b + 64) (Z.to_nat cur)).
  assert (Ed : length d = Z.to_nat cur) by apply length_load.
  assert (Er : zlen (resize (Z.to_nat len) val d) = len).
  { unfold zlen. rewrite length_resize. lia. }
  set (m1 := if 0 <? saturating_sub len cur then _ else m).
  assert (Hm1 : frame m m1 (b_core b + 64 + cur) (b_core b + 64 + Z.max cur len)).
  { unfold m1, saturating_sub. destruct (Z.ltb_spec 0 (Z.max 0 (len - cur))).
    - apply frame_store; rewrite ?length_replicate; lia.
    - apply frame_refl. }
  assert (Hd1 : load m1 (b_core b + 64) (Z.to_nat len) = resize (Z.to_nat len) val d).
  { destruct (decide (len ≤ cur)) as [Hlt|Hgt].
    - rewrite resize_le by lia. unfold d. rewrite take_load by lia.
      eapply frame_load; [exact Hm1|lia].
    - rewrite resize_app_replicate by lia.
      replace (Z.to_nat len) with (Z.to_nat cur + Z.to_nat (len - cur))%nat at 1 by lia.
      rewrite load_app. f_equal.
      + eapply frame_load; [exact Hm1|lia].
      + unfold m1, saturating_sub. destruct (Z.ltb_spec 0 (Z.max 0 (len - cur))); [|lia].
        replace (b_core b + 64 + Z.of_nat (Z.to_nat cur)) with (b_core b + 64 + cur) by lia.
        rewrite load_store_same by (rewrite length_replicate; lia). f_equal. lia. }
  apply (borrowed_data_spec m _ s _ b); auto; unfold store_le.
  - eapply frame_trans; [eapply frame_weaken, Hm1; lia|].
    apply frame_store; rewrite ?length_le_bytes; simpl; lia.
  - rewrite load_le_store_disjoint by (rewrite length_le_bytes; simpl; lia).
    unfold load_le. f_equal. eapply frame_load; [exact Hm1|simpl; lia].
  - rewrite Er. unfold load_le. rewrite load_store_same by (by rewrite length_le_bytes).
    apply le_round_trip. simpl in *. lia.
  - rewrite Er. change STATIC_SIZE with 64. lia.
  - rewrite length_resize.
    rewrite load_store_disjoint by (rewrite length_le_bytes; simpl; lia). done.
Qed.

Lemma cow_extend_spec m s data :
  prepared m s →
  let r := with_cow s (cow_extend_from_slice m (cow s) data) in
  denotes m s (with_data (owned m s) (o_data (owned m s) ++ data)) r ∧ prepared r.1 r.2.
Proof.
  intros Hp. unfold with_cow, cow_extend_from_slice.
  destruct (cow s) as [b|o] eqn:Ec; simpl.
  2: { rewrite (owned_owned m s o) by done. by apply owned_data_spec. }
  pose proof Hp as Hp'. unfold prepared in Hp'. rewrite Ec in Hp'. destruct Hp' as [Hw Hs].
  pose proof (wf_len _ _ Hw) as Hlen. pose proof (wf_small _ _ Hw) as Hsm.
  unfold ds_spare. rewrite ds_capacity_wf, ds_len_wf by done.
  set (cur := load_le 4 m (b_core b + 56)) in *.
  destruct (Z.leb_spec (zlen data) (image_size m b - STATIC_SIZE - cur)) as [Hc|Hc]; simpl.
  2: { apply owned_data_spec; [done|]. unfold owned. by rewrite Ec. }
  rewrite (owned_borrowed m s b) at 2 by done. simpl. rewrite ds_bytes_wf by done.
  unfold ds_extend. rewrite ds_len_wf by done. rewrite (wf_data _ _ Hw); simpl.
  unfold CORE_SIZE. replace (b_core b + 56 + 8) with (b_core b + 64) by lia.
  change STATIC_SIZE with 64 in *. fold cur.
  unfold zlen in Hc. rewrite (load_le_store_disjoint 4 m) by (simpl; lia). fold cur.
  unfold wrapping_add. rewrite wrap_small by (unfold fits, zlen; lia).
  apply (borrowed_data_spec m _ s _ b); auto; unfold store_le.
  - eapply frame_trans with (m2 := store m (b_core b + 64 + cur) data);
      apply frame_store; rewrite ?length_le_bytes; simpl; lia.
  - rewrite !load_le_store_disjoint by (rewrite ?length_le_bytes; simpl; lia). done.
  - unfold load_le. rewrite load_store_same by (by rewrite length_le_bytes).
    unfold zlen. rewrite length_app, length_load.
    rewrite le_round_trip by (simpl; lia). lia.
  - unfold zlen. rewrite length_app, length_load. change STATIC_SIZE with 64. lia.
  - rewrite length_app, length_load, load_app. f_equal.
    + by rewrite !load_store_disjoint by (rewrite ?length_le_bytes; simpl; lia).
    + rewrite load_store_disjoint by (rewrite ?length_le_bytes; simpl; lia).
      rewrite Z2Nat.id by lia. by rewrite load_store_same.
Qed.

Lemma cow_set_spec m s data :
  prepared m s →
  let r := with_cow s (cow_set_data_from_slice m (cow s) data) in
  denotes m s (with_data (owned m s) data) r ∧ prepared r.1 r.2.
Proof.
  intros Hp. unfold with_cow, cow_set_data_from_slice.
  destruct (cow s) as [b|o] eqn:Ec; simpl.
  2: { rewrite (owned_owned m s o) by done. by apply owned_data_spec. }
  pose proof Hp as Hp'. unfold prepared in Hp'. rewrite Ec in Hp'. destruct Hp' as [Hw Hs].
  pose proof (wf_len _ _ Hw) as Hlen. pose proof (wf_small _ _ Hw) as Hsm.
  rewrite zlen_ds_bytes by done.
  unfold ds_spare. rewrite ds_capacity_wf, ds_len_wf by done.
  set (cur := load_le 4 m (b_core b + 56)) in *.
  destruct (Z.leb_spec (saturating_sub (zlen data) cur) (image_size m b - STATIC_SIZE - cur))
    as [Hc|Hc]; simpl.
  2: { apply owned_data_spec; [done|]. unfold owned. by rewrite Ec. }
  unfold ds_set. rewrite (wf_data _ _ Hw); simpl.
  unfold CORE_SIZE. replace (b_core b + 56 + 8) with (b_core b + 64) by lia.
  unfold saturating_sub, zlen in Hc. change STATIC_SIZE with 64 in *.
  apply (borrowed_data_spec m _ s _ b); auto; unfold store_le.
  - eapply frame_trans with (m2 := store m (b_core b + 64) data);
      apply frame_store; rewrite ?length_le_bytes; simpl; lia.
  - rewrite !load_le_store_disjoint by (rewrite ?length_le_bytes; simpl; lia). done.
  - unfold load_le. rewrite load_store_same by (by rewrite length_le_bytes).
    unfold zlen. rewrite le_round_trip by (simpl; lia). lia.
  - unfold zlen. change STATIC_SIZE with 64. lia.
  - rewrite load_store_disjoint by (rewrite ?length_le_bytes; simpl; lia).
    by rewrite load_store_same.
Qed.

Lemma cow_copy_at_spec m s offset data :
  prepared m s → 0 ≤ offset → offset + zlen data ≤ zlen (o_data (owned m s)) →
  let r := with_cow s (cow_copy_at m (cow s) offset data) in
  let n := Z.to_nat offset in
  let d := o_data (owned m s) in
  denotes m s (with_data (owned m s) (take n d ++ data ++ drop (n + length data) d)) r ∧
  prepared r.1 r.2.
Proof.
  intros Hp Ho Hr. unfold with_cow, cow_copy_at. unfold zlen in Hr.
  destruct (cow s) as [b|o] eqn:Ec; simpl.
  2: { rewrite (owned_owned m s o) by done. by apply owned_data_spec. }
  pose proof Hp as Hp'. unfold prepared in Hp'. rewrite Ec in Hp'. destruct Hp' as [Hw Hs].
  pose proof (wf_len _ _ Hw) as Hlen. pose proof (wf_small _ _ Hw) as Hsm.
  revert Hr. rewrite !(owned_borrowed m s b) by done. simpl.
  rewrite ds_bytes_wf by done. rewrite (wf_data _ _ Hw); simpl.
  unfold CORE_SIZE. replace (b_core b + 56 + 8) with (b_core b + 64) by lia.
  change STATIC_SIZE with 64 in *.
  set (cur := load_le 4 m (b_core b + 56)) in *.
  set (d := load m (b_core b + 64) (Z.to_nat cur)). intros Hr.
  assert (Ed : length d = Z.to_nat cur) by apply length_load.
  set (d' := take (Z.to_nat offset) d ++ data ++ drop (Z.to_nat offset + length data) d).
  assert (Ed' : length d' = Z.to_nat cur).
  { unfold d'. rewrite !length_app, length_take, length_drop. lia. }
  rewrite <- (owned_borrowed m s b) by done.
  apply (borrowed_data_spec m _ s _ b); auto; unfold store_le.
  - apply frame_store; lia.
  - by rewrite load_le_store_disjoint by (simpl; lia).
  - unfold zlen. rewrite load_le_store_disjoint by (simpl; lia). fold cur. lia.
  - unfold zlen. change STATIC_SIZE with 64. lia.
  - rewrite Ed'.
    replace (Z.to_nat cur) with
      (Z.to_nat offset + (length data + (Z.to_nat cur - Z.to_nat offset - length data)))%nat
      by lia.
    rewrite !load_app, Z2Nat.id by lia. unfold d'. f_equal; [|f_equal].
    + rewrite load_store_disjoint by lia. unfold d. by rewrite take_load by lia.
    + by rewrite load_store_same.
    + rewrite load_store_disjoint by lia. unfold d.
      replace (Z.to_nat cur) with
        (Z.to_nat offset + length data + (Z.to_nat cur - Z.to_nat offset - length data))%nat
        at 2 by lia.
      rewrite load_app, drop_app_length' by (by rewrite length_load). f_equal. lia.
Qed.

(** ** Setters *)

(** A call of one mutating method of [AccountSharedData]. *)
Inductive Mutation :=
| MLamports (v : Z) | MOwner (v : Pubkey) | MCommitSeq (v : Z) | MFlags (v : Z)
| MLifecycle (to : AccountMode) (to_slot : Z)
| MResize (len val : Z) | MExtend (data : list Z) | MSetData (data : list Z)
| MSetDataAt (offset : Z) (data : list Z).

Definition mutation_ok (u : Mutation) : Prop :=
  match u with
  | MLamports v => field_ok (FLamports v)
  | MOwner v => field_ok (FOwner v)
  | MCommitSeq v => field_ok (FCommitSeq v)
  | MFlags v => field_ok (FFlags v)
  | MLifecycle _ t => field_ok (FSlot t)
  | MResize len _ => 0 ≤ len
  | MExtend _ | MSetData _ => True
  | MSetDataAt offset _ => 0 ≤ offset
  end.

Definition mutate (m : mem) (s : AccountSharedData) (u : Mutation) : mem * AccountSharedData :=
  match u with
  | MLamports v => set_lamports m s v
  | MOwner v => set_owner m s v
  | MCommitSeq v => set_commit_seq m s v
  | MFlags v => set_flags m s v
  | MLifecycle to t => (set_lifecycle m s to t).1
  | MResize len val => resize_data m s len val
  | MExtend data => extend_from_slice m s data
  | MSetData data => set_data_from_slice m s data
  | MSetDataAt offset data => set_data_at m s offset data
  end.

Definition abstract_mutate (o : OwnedAccount) (u : Mutation) : OwnedAccount :=
  match u with
  | MLamports v => put o (FLamports v)
  | MOwner v => put o (FOwner v)
  | MCommitSeq v => put o (FCommitSeq v)
  | MFlags v => put o (FFlags v)
  | MLifecycle to t =>
      match validate_transition (mode (o_core o)) to (slot (o_core o)) t with
      | Ok _ => put (put o (FMode to)) (FSlot t)
      | Err _ => o
      end
  | MResize len val => with_data o (resize (Z.to_nat len) val (o_data o))
  | MExtend data => with_data o (o_data o ++ data)
  | MSetData data => with_data o data
  | MSetDataAt offset data => with_data o (splice (o_data o) (Z.to_nat offset) data)
  end.

Fixpoint mutates (m : mem) (s : AccountSharedData) (us : list Mutation)
    : mem * AccountSharedData :=
  match us with
  | [] => (m, s)
  | u :: us => let '(m, s) := mutate m s u in mutates m s us
  end.

(** Every setter is a no-op on an equal value and otherwise touches and assigns. *)
Lemma setter_spec m s k f (same : bool) :
  wf m s → marker_ok k = true → field_ok f →
  (same = true → put (owned m s) f = owned m s) →
  denotes m s (put (owned m s) f)
    (if same then (m, s) else let '(m', s') := touch m s k in assign m' s' f).
Proof.
  intros Hw Hk Hf Hsame. destruct same.
  { rewrite Hsame by done. by apply denotes_refl. }
  destruct (touch_spec m s k Hw Hk) as (Hd & Hp & _).
  apply (denotes_bind m s (owned m s) (touch m s k) (λ m' s', assign m' s' f)); auto.
  intros (_ & _ & Ho). rewrite <- Ho. by apply assign_spec.
Qed.

Lemma put_same o f :
  core_put (o_core o) f = o_core o → put o f = o.
Proof. destruct o. unfold put; simpl. by intros ->. Qed.

Lemma with_data_same o : with_data o (o_data o) = o.
Proof. by destruct o. Qed.

Lemma touch_then m s k (op : mem → AccountSharedData → mem * AccountSharedData) cur :
  wf m s → marker_ok k = true →
  (∀ m' s', prepared m' s' → owned m' s' = owned m s → denotes m' s' cur (op m' s')) →
  denotes m s cur (let '(m', s') := touch m s k in op m' s').
Proof.
  intros Hw Hk Hop. destruct (touch_spec m s k Hw Hk) as (Hd & Hp & _).
  apply (denotes_bind m s (owned m s) (touch m s k) op); auto.
  intros (_ & _ & Ho). by apply Hop.
Qed.

Lemma set_lifecycle_spec m s to t :
  wf m s → field_ok (FSlot t) →
  denotes m s (abstract_mutate (owned m s) (MLifecycle to t)) (set_lifecycle m s to t).1.
Proof.
  intros Hw Ht. unfold set_lifecycle. simpl. rewrite core_of_owned.
  destruct (validate_transition _ _ _ _) as [[]|e]; simpl; [|by apply denotes_refl].
  destruct (translate_spec m s Hw) as [Hd Hp].
  destruct (translate m s) as [m1 s1] eqn:E1. simpl in Hp. pose proof Hd as (_ & He1 & Ho1).
  simpl in Ho1, He1.
  set (r2 := if bool_decide (mode (core_of m1 s1) = to) then (m1, s1)
             else assign m1 (mark s1 MODE) (FMode to)).
  assert (H2 : denotes m1 s1 (put (owned m1 s1) (FMode to)) r2 ∧ prepared r2.1 r2.2).
  { unfold r2. case_bool_decide as Em.
    - split; [|done]. rewrite put_same; [by apply denotes_refl, prepared_wf|].
      rewrite core_of_owned in Em. destruct (o_core (owned m1 s1)); simpl in *. by subst.
    - destruct (assign_spec m1 (mark s1 MODE) (FMode to)) as (H & ? & _);
        [done|done|]. split; [exact H|done]. }
  destruct r2 as [m2 s2]. destruct H2 as [H2 Hp2]. simpl in Hp2.
  destruct (assign_spec m2 (mark s2 SLOT) (FSlot t)) as (H3 & _ & _); [done|done|].
  destruct (assign m2 (mark s2 SLOT) (FSlot t)) as [m3 s3]. simpl.
  destruct H2 as (_ & He2 & Ho2), H3 as (Hw3 & He3 & Ho3). simpl in *.
  split; [done|]. split.
  - eapply evolves_trans; [done|exact He1|]. eapply evolves_trans; [by apply prepared_wf|exact He2|].
    exact He3.
  - simpl. rewrite Ho3, owned_mark, Ho2, Ho1. done.
Qed.

Lemma splice_resize_ext d offset data :
  (length d < offset)%nat → splice d offset data = resize offset 0 d ++ data.
Proof.
  intros H. unfold splice. rewrite (drop_ge d) by lia. by rewrite app_nil_r.
Qed.

Lemma splice_overlap d offset data n :
  (offset ≤ length d)%nat → n = Nat.min (length d - offset) (length data) →
  splice d offset data =
  (take offset d ++ take n data ++ drop (offset + length (take n data)) d) ++ drop n data.
Proof.
  intros H ->. unfold splice. rewrite resize_le by lia. rewrite <- !app_assoc. f_equal.
  rewrite length_take. destruct (decide (length data ≤ length d - offset)%nat).
  - rewrite (take_ge data), (drop_ge data) by lia. rewrite app_nil_r.
    f_equal. f_equal. lia.
  - rewrite (drop_ge d (offset + length data)) by lia. rewrite app_nil_r.
    rewrite (drop_ge d) by lia. simpl. by rewrite take_drop.
Qed.

Lemma resize_data_spec m s len val :
  wf m s → 0 ≤ len →
  denotes m s (abstract_mutate (owned m s) (MResize len val)) (resize_data m s len val).
Proof.
  intros Hw Hl. apply touch_then; [done..|]. intros m' s' Hp Ho.
  simpl. rewrite <- Ho. by apply cow_resize_spec.
Qed.

Lemma extend_spec m s data :
  wf m s →
  denotes m s (abstract_mutate (owned m s) (MExtend data)) (extend_from_slice m s data).
Proof.
  intros Hw. apply touch_then; [done..|]. intros m' s' Hp Ho.
  simpl. rewrite <- Ho. by apply cow_extend_spec.
Qed.

Lemma write_data_spec m s offset data :
  wf m s → 0 ≤ offset → offset + zlen data ≤ zlen (o_data (owned m s)) →
  let d := o_data (owned m s) in let n := Z.to_nat offset in
  denotes m s (with_data (owned m s) (take n d ++ data ++ drop (n + length data) d))
    (write_data m s offset data).
Proof.
  intros Hw Ho Hr d n. apply touch_then; [done..|]. intros m' s' Hp Hown.
  unfold d. rewrite <- Hown. apply cow_copy_at_spec; auto. by rewrite Hown.
Qed.

Lemma set_data_at_spec m s offset data :
  wf m s → 0 ≤ offset →
  denotes m s (abstract_mutate (owned m s) (MSetDataAt offset data))
    (set_data_at m s offset data).
Proof.
  intros Hw Ho. apply touch_then; [done..|]. intros m1 s1 Hp1 Hown1.
  simpl. rewrite <- Hown1. clear m s Hw Hown1. rewrite cow_data_owned.
  set (d := o_data (owned m1 s1)).
  set (d1 := if zlen d <? offset then resize (Z.to_nat offset) 0 d else d).
  set (r := if zlen d <? offset then resize_data m1 s1 offset 0 else (m1, s1)).
  apply (denotes_bind m1 s1 (with_data (owned m1 s1) d1) r
           (λ m s, let n := Z.min (saturating_sub (zlen (cow_data m (cow s))) offset) (zlen data) in
                   let '(m, s) := write_data m s offset (take (Z.to_nat n) data) in
                   extend_from_slice m s (drop (Z.to_nat n) data))).
  { by apply prepared_wf. }
  { unfold d1, r. destruct (Z.ltb_spec (zlen d) offset).
    - by apply resize_data_spec; [apply prepared_wf|].
    - unfold d. rewrite with_data_same. by apply denotes_refl, prepared_wf. }
  intros (Hw2 & _ & Ho2). clearbody r. destruct r as [m2 s2]. simpl in *.
  rewrite cow_data_owned, Ho2. simpl.
  set (n := Z.min (saturating_sub (zlen d1) offset) (zlen data)).
  assert (Hd1 : offset ≤ zlen d1).
  { unfold d1, zlen. destruct (Z.ltb_spec (Z.of_nat (length d)) offset); [|lia].
    rewrite length_resize. lia. }
  assert (Hn : 0 ≤ n ≤ zlen d1 - offset ∧ n ≤ zlen data) by (unfold n, saturating_sub, zlen in *; lia).
  set (d2 := take (Z.to_nat offset) d1 ++ take (Z.to_nat n) data ++
             drop (Z.to_nat offset + length (take (Z.to_nat n) data)) d1).
  apply (denotes_bind m2 s2 (with_data (owned m2 s2) d2) _
           (λ m s, extend_from_slice m s (drop (Z.to_nat n) data))); [done| |].
  { unfold d2. replace d1 with (o_data (owned m2 s2)) by (by rewrite Ho2).
    apply write_data_spec; auto. unfold zlen. rewrite length_take, Ho2. simpl.
    unfold zlen in *. lia. }
  intros (Hw3 & _ & Ho3).
  destruct (write_data m2 s2 offset (take (Z.to_nat n) data)) as [m3 s3]. simpl in *.
  replace (with_data (owned m1 s1) (splice d (Z.to_nat offset) data))
    with (abstract_mutate (owned m3 s3) (MExtend (drop (Z.to_nat n) data)));
    [by apply extend_spec|].
  simpl. rewrite Ho3, Ho2. unfold with_data; simpl. f_equal.
  unfold d2, d1. unfold n, d1, saturating_sub, zlen in *.
  destruct (Z.ltb_spec (Z.of_nat (length d)) offset).
  - rewrite splice_resize_ext by lia. rewrite !length_resize.
    replace (Z.to_nat (Z.min _ _)) with 0%nat by lia. simpl. rewrite drop_0.
    rewrite Nat.add_0_r, drop_ge by (rewrite length_resize; lia).
    rewrite take_ge by (rewrite length_resize; lia). by rewrite app_nil_r.
  - symmetry. apply splice_overlap; lia.
Qed.

Lemma mutate_spec m s u :
  wf m s → mutation_ok u → denotes m s (abstract_mutate (owned m s) u) (mutate m s u).
Proof.
  intros Hw Hu. destruct u; simpl in Hu |- *.
  - apply setter_spec; [done..|]. intros E%Z.eqb_eq. apply put_same.
    rewrite core_of_owned in E. destruct (o_core _); simpl in *. by subst.
  - apply setter_spec; [done..|]. intros E%bool_decide_eq_true. apply put_same.
    rewrite core_of_owned in E. destruct (o_core _); simpl in *. by subst.
  - apply setter_spec; [done..|]. intros E%Z.eqb_eq. apply put_same.
    rewrite core_of_owned in E. destruct (o_core _); simpl in *. by subst.
  - apply setter_spec; [done..|]. intros E%Z.eqb_eq. apply put_same.
    rewrite core_of_owned in E. destruct (o_core _); simpl in *. by subst.
  - by apply set_lifecycle_spec.
  - by apply resize_data_spec.
  - by apply extend_spec.
  - apply touch_then; [done..|]. intros m' s' Hp Ho. rewrite <- Ho. by apply cow_set_spec.
  - by apply set_data_at_spec.
Qed.

Lemma mutates_spec m s us :
  wf m s → Forall mutation_ok us →
  denotes m s (foldl abstract_mutate (owned m s) us) (mutates m s us).
Proof.
  intros Hw Hus. revert m s Hw. induction Hus as [|u us Hu Hus IH]; intros m s Hw; simpl.
  { by apply denotes_refl. }
  pose proof (mutate_spec m s u Hw Hu) as Hd.
  apply (denotes_bind m s _ _ (λ m s, mutates m s us) _ Hw Hd).
  intros (Hw' & _ & Ho). rewrite <- Ho. by apply IH.
Qed.

(** ** Publication *)

(** A buffer that opens to a well-formed view of its active image. *)
Definition valid_buffer (m : mem) (h : Z) : Prop := wf_borrowed m (init m h).

Definition open_account (m : mem) (h : Z) : OwnedAccount := b_owned m (init m h).

Lemma even_wrap32 x : Z.even (wrap 32 x) = Z.even x.
Proof.
  unfold wrap. rewrite (Z.div_mod x (2 ^ 32)) at 2 by lia.
  rewrite Z.even_add, Z.even_mul. simpl. by destruct (Z.even (x mod _)).
Qed.

Lemma wf_init_clean m h : valid_buffer m h → wf m (from_borrowed (init m h)).
Proof. intros Hv. split; [done|]. done. Qed.

(** Only the parity of the sequence decides which image a buffer opens to. *)
Lemma open_store_sequence m h v b :
  wf_borrowed m b → b_header b = h →
  b_core b = image_addr m h v true →
  let m' := store_le 4 m h v in
  valid_buffer m' h ∧ open_account m' h = b_owned m b.
Proof.
  intros Hw Hh Hc m'. pose proof Hw as [Hsp Hsm Hv Hact Hd Hcap Hlen].
  rewrite Hh in *. rewrite image_size_eq, Hh in *.
  assert (Hf : ∀ k a, h + 4 ≤ a → load m' a k = load m a k).
  { intros k a Ha. unfold m', store_le.
    apply load_store_disjoint. rewrite length_le_bytes. simpl. lia. }
  assert (Hle : ∀ k a, h + 4 ≤ a → load_le k m' a = load_le k m a).
  { intros. unfold load_le. by rewrite Hf. }
  assert (Es : header_space m' h = header_space m h) by (unfold header_space; apply Hle; lia).
  assert (Ev : Z.even (sequence m' h) = Z.even v).
  { unfold sequence, m'. rewrite load_le_store_same.
    change (256 ^ Z.of_nat 4) with (2 ^ 32). apply even_wrap32. }
  assert (Ea : ∀ act, image_addr m' h (sequence m' h) act = image_addr m h v act).
  { intros act. by rewrite !image_addr_eq, Ev, Es. }
  assert (Hlo : h + 40 ≤ b_core b) by (rewrite Hc, image_addr_eq; destruct (xorb _ _); lia).
  assert (Hwf : valid_buffer m' h).
  { split; simpl; rewrite ?image_size_eq, ?Ea, <- ?Hc; simpl; rewrite ?Es, ?Hle by lia;
      try done; try lia. exists true. by rewrite Ea. }
  split; [done|]. unfold open_account, b_owned. f_equal.
  - simpl. rewrite Ea, <- Hc. apply read_core_ext. intros x Hx. unfold m', store_le.
    apply store_out. rewrite length_le_bytes. simpl. lia.
  - rewrite ds_bytes_wf by done. rewrite ds_bytes_wf by done. simpl.
    rewrite Ea, <- Hc. rewrite Hle, Hf by lia. done.
Qed.

(** The view [init] opens, seen through a memory that only the shadow image changed in. *)
Lemma open_frame m m' b :
  wf_borrowed m b →
  frame m m' (shadow_lo m b) (shadow_lo m b + image_size m b) →
  b_core b = image_addr m (b_header b) (b_version b) true →
  wf_borrowed m' b ∧ b_owned m' b = b_owned m b ∧ init m' (b_header b) = init m (b_header b).
Proof.
  intros Hw Hf Hc. pose proof Hw as [Hsp _ _ _ _ Hcap Hlen].
  destruct (frame_header _ _ _ Hsp Hf) as [E1 E2].
  assert (Hd : b_core b + image_size m b ≤ shadow_lo m b ∨
               shadow_lo m b + image_size m b ≤ b_core b).
  { rewrite Hc, image_size_eq. unfold shadow_lo. rewrite !image_addr_eq.
    destruct (Z.even (b_version b)); simpl; lia. }
  assert (Hl : ∀ k a, b_core b ≤ a → a + Z.of_nat k ≤ b_core b + image_size m b →
               load m' a k = load m a k).
  { intros k a Ha Hk. eapply frame_load; [exact Hf|lia]. }
  rewrite image_size_eq in *. change STATIC_SIZE with 64 in *.
  assert (Hw' : wf_borrowed m' b).
  { apply wf_borrowed_frame with m; auto; rewrite ?image_size_eq; change STATIC_SIZE with 64;
      unfold load_le; rewrite Hl by (simpl; lia); done. }
  split; [done|]. split.
  - unfold b_owned. f_equal.
    + apply read_core_ext. intros x Hx. symmetry. apply Hf. lia.
    + rewrite !ds_bytes_wf by done.
      assert (E : load_le 4 m' (b_core b + 56) = load_le 4 m (b_core b + 56))
        by (unfold load_le; rewrite Hl by (simpl; lia); done).
      rewrite E. apply Hl; lia.
  - unfold init. by rewrite E2, !image_addr_eq, E1.
Qed.

(** ** Serialization *)

Definition core_ok (c : AccountCore) : Prop :=
  fits 64 (lamports c) ∧ length (owner c) = 32%nat ∧ fits 64 (slot c) ∧
  fits 32 (commit_seq c) ∧ fits 8 (flags c).

(** Small enough for the layout's 32-bit sizes; the runtime caps data at 10 MiB. *)
Definition small (o : OwnedAccount) : Prop := zlen (o_data o) + 128 ≤ 2 ^ 32.

Lemma length_core_bytes c : length (owner c) = 32%nat → length (core_bytes c) = 56%nat.
Proof.
  intros H. unfold core_bytes, to_bytes.
  rewrite !length_app, !length_le_bytes, H. done.
Qed.

Lemma allocation_eq o :
  small o → allocation o = (64 + zlen (o_data o) + 7) / 8 ∧
            64 + zlen (o_data o) ≤ 8 * allocation o ≤ 71 + zlen (o_data o).
Proof.
  intros Hs. unfold small, zlen in *.
  assert (E : allocation o = (64 + Z.of_nat (length (o_data o)) + 7) / 8).
  { unfold allocation, div_ceil, zlen. change STATIC_SIZE with 64. change ALIGNMENT with 8.
    rewrite wrap_small; [f_equal; lia|].
    unfold fits. Z.to_euclidean_division_equations; lia. }
  rewrite E. split; [done|]. Z.to_euclidean_division_equations; lia.
Qed.

(** The fields of a core sit where [read_core] looks for them. *)
Lemma split_core l ow s q md g p :
  length ow = 32%nat →
  let bs := core_bytes (Build_AccountCore l ow s q md g p) in
  take 8 (drop 0 bs) = le_bytes 8 l ∧ take 32 (drop 8 bs) = ow ∧
  take 8 (drop 40 bs) = le_bytes 8 s ∧ take 4 (drop 48 bs) = le_bytes 4 q ∧
  take 2 (drop 52 bs) = to_bytes md ∧ take 1 (drop 54 bs) = le_bytes 1 g ∧
  take 1 (drop 55 bs) = [p].
Proof.
  intros Ho. do 32 (destruct ow as [|? ow]; [discriminate Ho|]).
  destruct ow; [|discriminate Ho]. repeat split; reflexivity.
Qed.

Lemma read_core_bytes m a c :
  core_ok c → load m a 56 = core_bytes c → read_core m a = c.
Proof.
  intros (Hl & Ho & Hs & Hq & Hg) H. destruct c as [l ow s q md g p]. simpl in *.
  destruct (split_core l ow s q md g p Ho) as (H1 & H2 & H3 & H4 & H5 & H6 & H7).
  assert (Hsub : ∀ (off k : nat), (off + k ≤ 56)%nat →
            load m (a + Z.of_nat off) k = take k (drop off (load m a 56)))
    by (intros; by apply load_sub).
  unfold read_core, mode_at, load_le. rewrite <- (Z.add_0_r a) at 1.
  rewrite (Hsub 0%nat), (Hsub 8%nat), (Hsub 40%nat), (Hsub 48%nat), (Hsub 52%nat),
    (Hsub 54%nat) by lia.
  pose proof (Hsub 55%nat 1%nat ltac:(lia)) as Hp. rewrite H in Hp |- *.
  rewrite H1, H2, H3, H4, H5, H6. rewrite H7 in Hp.
  unfold load in Hp. simpl in Hp. rewrite Z.add_0_r in Hp.
  change (Z.of_nat 55) with 55 in Hp. injection Hp as ->.
  rewrite try_from_to_bytes. unfold fits in *.
  f_equal; apply le_round_trip; simpl in *; lia.
Qed.

(** Two adjacent 32-bit fields, the shape of both headers. *)
Lemma load_pair_u32 m a x y :
  load m a 8 = le_bytes 4 x ++ le_bytes 4 y → fits 32 x → fits 32 y →
  load_le 4 m a = x ∧ load_le 4 m (a + 4) = y.
Proof.
  intros H Hx Hy. change 8%nat with (4 + 4)%nat in H. rewrite load_app in H.
  apply app_inj_1 in H as [H1 H2]; [|by rewrite length_load, length_le_bytes].
  unfold load_le. change (a + 4) with (a + Z.of_nat 4). rewrite H1, H2.
  unfold fits in *. split; apply le_round_trip; simpl; lia.
Qed.

(** The parts a serialized buffer is written in, read back from the result. *)
Lemma serialize_loads m buf o pk :
  length (owner (o_core o)) = 32%nat → length pk = 32%nat →
  let m' := serialize m buf o pk in
  load m' buf 8 = account_header (allocation o) ∧ load m' (buf + 8) 32 = pk ∧
  load m' (buf + 40) 56 = core_bytes (o_core o) ∧
  load m' (buf + 96) 8 = data_header (zlen (o_data o)) (allocation o) ∧
  load m' (buf + 104) (length (o_data o)) = o_data o ∧
  frame m m' buf (buf + 104 + zlen (o_data o)).
Proof.
  intros Ho Hpk m'. pose proof (length_core_bytes _ Ho) as Hc.
  assert (H1 : ∀ x, length (account_header x) = 8%nat) by done.
  assert (H4 : ∀ x y, length (data_header x y) = 8%nat) by done.
  unfold m', serialize. split_and!.
  - rewrite !load_store_disjoint by (rewrite ?Hc, ?H4; lia). by apply load_store_same.
  - rewrite !load_store_disjoint by (rewrite ?Hc, ?H4; lia). by apply load_store_same.
  - rewrite !load_store_disjoint by (rewrite ?Hc, ?H4; lia). by apply load_store_same.
  - rewrite !load_store_disjoint by (rewrite ?Hc, ?H4; lia). by apply load_store_same.
  - by apply load_store_same.
  - intros x Hx. unfold zlen in Hx.
    rewrite !store_out by (rewrite ?H1, ?H4, ?Hc, ?Hpk; lia). done.
Qed.

Lemma units_eq o : small o → units o = allocation o * 2 + 5.
Proof.
  intros Hs. destruct (allocation_eq o Hs) as [_ Ha]. unfold small, zlen in *.
  unfold units. change IMAGE_OFFSET with 5. apply wrap_small. unfold fits. lia.
Qed.

Lemma serialize_spec m buf o pk :
  core_ok (o_core o) → small o → length pk = 32%nat →
  let m' := serialize m buf o pk in
  valid_buffer m' buf ∧ open_account m' buf = o ∧ buffer_pubkey m' buf = pk ∧
  span m' buf = units o ∧ sequence m' buf = 0 ∧
  frame m m' buf (buf + STORAGE_UNIT * units o).
Proof.
  intros Hc Hs Hpk. destruct (allocation_eq o Hs) as [_ Ha].
  destruct (serialize_loads m buf o pk (proj1 (proj2 Hc)) Hpk)
    as (H1 & H2 & H3 & H4 & H5 & Hf).
  rewrite (units_eq o Hs). generalize dependent (serialize m buf o pk). intros m' H1 H2 H3 H4 H5 Hf.
  unfold small, zlen in *. set (al := allocation o) in *. set (n := length (o_data o)) in *.
  destruct (load_pair_u32 _ _ _ _ H1) as [Eseq Esp]; [unfold fits; lia..|].
  destruct (load_pair_u32 _ _ _ _ H4) as [Elen Ecap];
    [unfold fits; change STORAGE_UNIT with 8; change STATIC_SIZE with 64; lia..|].
  replace (buf + 96 + 4) with (buf + 40 + 60) in Ecap by lia.
  replace (buf + 96) with (buf + 40 + 56) in Elen by lia.
  fold (sequence m' buf) in Eseq. fold (header_space m' buf) in Esp.
  assert (Eaddr : image_addr m' buf (sequence m' buf) true = buf + 40)
    by (rewrite image_addr_eq, Eseq; simpl; lia).
  assert (Hv : valid_buffer m' buf).
  { split; simpl; rewrite ?image_size_eq; simpl; rewrite ?Eaddr, ?Esp, ?Elen, ?Ecap;
      change STATIC_SIZE with 64; change STORAGE_UNIT with 8; try done; try lia.
    by exists true. }
  split_and!; try done.
  - unfold open_account, b_owned. rewrite ds_bytes_wf by done. simpl. rewrite Eaddr, Elen, Nat2Z.id.
    replace (buf + 40 + 64) with (buf + 104) by lia. fold n. rewrite H5.
    rewrite (read_core_bytes _ _ (o_core o)) by done. by destruct o.
  - unfold span. rewrite Esp. change IMAGE_OFFSET with 5. apply wrap_small. unfold fits. lia.
  - eapply frame_weaken, Hf; change STORAGE_UNIT with 8; lia.
Qed.

(** ** Publication of a mutated view *)

Section publication.
Context (m : mem) (h : Z) (us : list Mutation) (m' : mem) (s' : AccountSharedData)
  (b' : BorrowedAccount).
Hypothesis Hvalid : valid_buffer m h.
Hypothesis Hus : Forall mutation_ok us.
Hypothesis Hrun : mutates m (from_borrowed (init m h)) us = (m', s').
Hypothesis Hcow : cow s' = Borrowed b'.

Lemma run_facts :
  wf_borrowed m' b' ∧ (is_dirty s' = true → b_core b' = shadow_lo m' b') ∧
  frame m m' (shadow_lo m (init m h)) (shadow_lo m (init m h) + image_size m (init m h)) ∧
  b_header b' = h ∧ b_version b' = sequence m h ∧ owned m' s' = b_owned m' b'.
Proof using All.
  pose proof (mutates_spec _ _ _ (wf_init_clean m h Hvalid) Hus) as (Hw & He & _).
  rewrite Hrun in Hw, He. simpl in Hw, He. unfold wf in Hw. unfold evolves in He.
  rewrite Hcow in *. simpl in He. destruct Hw as [Hw Hd]. destruct He as (Hf & Hh & Hv).
  split_and!; auto. by apply owned_borrowed.
Qed.

(** The base image is untouched until the commit. *)
Lemma run_invisible :
  wf_borrowed m' (init m h) ∧ open_account m' h = open_account m h ∧
  sequence m' h = sequence m h.
Proof using All.
  destruct run_facts as (_ & _ & Hf & _ & _ & _).
  destruct (open_frame m m' (init m h) Hvalid Hf eq_refl) as (Hw & Ho & Hi).
  simpl in Hi. unfold open_account. rewrite Hi, Ho. split_and!; auto.
  change (b_version (init m' h) = b_version (init m h)). by rewrite Hi.
Qed.

Lemma active_view m1 b :
  wf_borrowed m1 b → b_core b = image_addr m1 (b_header b) (b_version b) true →
  b = init m1 (b_header b).
Proof using Type.
  intros [_ _ Hv _ Hd _ _] Hc. destruct b as [hd c d v]; simpl in *. subst.
  done.
Qed.

Lemma b_commit_shadow :
  b_core b' = shadow_lo m' b' →
  b_commit m' b' = store_le 4 m' h (wrapping_add 32 (sequence m h) 1).
Proof using All.
  intros Hc. destruct run_facts as (Hw & _ & _ & Hh & Hv & _).
  unfold b_commit. unfold shadow_lo in Hc. rewrite Hc, Z.eqb_refl. simpl.
  rewrite (wf_version _ _ Hw), Z.eqb_refl. by rewrite Hh, Hv.
Qed.

Lemma image_flip m1 v active :
  image_addr m1 h (wrapping_add 32 v 1) active = image_addr m1 h v (negb active).
Proof using Type.
  unfold wrapping_add. rewrite !image_addr_eq, even_wrap32, Z.even_add. simpl.
  by destruct active, (Z.even v).
Qed.

Lemma commit_opens :
  valid_buffer (b_commit m' b') h ∧ open_account (b_commit m' b') h = owned m' s'.
Proof using All.
  pose proof run_facts as (Hw & _ & _ & Hh & Hv & Ho). rewrite Ho.
  destruct (wf_core _ _ Hw) as [[|] Hc].
  - assert (b_commit m' b' = m') as ->.
    { unfold b_commit. destruct (Z.eqb_spec (b_core b')
        (image_addr m' (b_header b') (b_version b') false)) as [E|]; [|done].
      rewrite Hc, !image_addr_eq in E. pose proof (wf_space _ _ Hw).
      destruct (Z.even _); simpl in E; lia. }
    pose proof (active_view m' b' Hw Hc) as E. rewrite Hh in E.
    unfold valid_buffer, open_account. rewrite <- E. done.
  - rewrite b_commit_shadow by done. apply open_store_sequence; [done..|].
    rewrite image_flip, <- Hv, <- Hh. done.
Qed.

Lemma sequence_store m1 v : sequence (store_le 4 m1 h v) h = wrap 32 v.
Proof using Type. apply load_le_store_same. Qed.

Lemma rollback_restores :
  b_core b' = shadow_lo m' b' →
  valid_buffer (b_rollback (b_commit m' b') b') h ∧
  open_account (b_rollback (b_commit m' b') b') h = open_account m h.
Proof using All.
  intros Hc. destruct run_facts as (_ & _ & Hf & Hh & _ & _).
  destruct (open_frame m m' (init m h) Hvalid Hf eq_refl) as (Hw & Ho & Hi). simpl in Hi.
  rewrite b_commit_shadow by done. unfold b_rollback. rewrite Hh, sequence_store.
  set (v := wrapping_sub 32 _ 1).
  assert (Hv : Z.even v = Z.even (sequence m h)).
  { unfold v, wrapping_sub, wrapping_add.
    rewrite even_wrap32, Z.even_sub, !even_wrap32, Z.even_add. by destruct (Z.even _). }
  clearbody v. unfold store_le. rewrite store_store by (by rewrite !length_le_bytes).
  change (store m' h (le_bytes 4 v)) with (store_le 4 m' h v).
  unfold open_account at 2. rewrite <- Ho.
  apply (open_store_sequence m' h v (init m h) Hw eq_refl).
  rewrite <- Hi. simpl. rewrite !image_addr_eq, Hv. simpl.
  change (sequence m' h) with (b_version (init m' h)). by rewrite Hi.
Qed.

End publication.

(** ** Dirty markers *)

(** Every field in which two accounts differ has its marker in [bits]. *)
Definition tracked (bits : Z) (o o' : OwnedAccount) : Prop :=
  let c := o_core o in let c' := o_core o' in
  (lamports c ≠ lamports c' → contains bits LAMPORTS = true) ∧
  (owner c ≠ owner c' → contains bits OWNER = true) ∧
  (slot c ≠ slot c' → contains bits SLOT = true) ∧
  (commit_seq c ≠ commit_seq c' → contains bits COMMIT_SEQ = true) ∧
  (mode c ≠ mode c' → contains bits MODE = true) ∧
  (flags c ≠ flags c' → contains bits FLAGS = true) ∧
  (o_data o ≠ o_data o' → contains bits DATA = true) ∧
  padding c = padding c'.

Definition keeps_markers (bits bits' : Z) : Prop :=
  ∀ k, contains bits k = true → contains bits' k = true.

Lemma contains_spec b k : contains b k = true ↔ Z.land b k = k.
Proof. apply Z.eqb_eq. Qed.

Lemma contains_lor b k : contains (Z.lor b k) k = true.
Proof.
  apply contains_spec, Z.bits_inj'. intros n _.
  rewrite Z.land_spec, Z.lor_spec. by destruct (Z.testbit b n), (Z.testbit k n).
Qed.

Lemma contains_lor_mono b k k' : contains b k = true → contains (Z.lor b k') k = true.
Proof.
  rewrite !contains_spec. intros H. apply Z.bits_inj'. intros n _.
  rewrite <- H at 2. rewrite !Z.land_spec, Z.lor_spec. pose proof (f_equal (λ x, Z.testbit x n) H) as E.
  simpl in E. rewrite Z.land_spec in E.
  by destruct (Z.testbit b n), (Z.testbit k n), (Z.testbit k' n).
Qed.

Lemma tracked_trans bits bits' o o1 o2 :
  keeps_markers bits bits' → tracked bits o o1 → tracked bits' o1 o2 →
  tracked bits' o o2.
Proof.
  intros Hk (H1 & H2 & H3 & H4 & H5 & H6 & H7 & H8) (I1 & I2 & I3 & I4 & I5 & I6 & I7 & I8).
  split_and!; try congruence; intros Hne;
    match goal with
    | |- contains _ LAMPORTS = _ => destruct (decide (lamports (o_core o) = lamports (o_core o1)))
    | |- contains _ OWNER = _ => destruct (decide (owner (o_core o) = owner (o_core o1)))
    | |- contains _ SLOT = _ => destruct (decide (slot (o_core o) = slot (o_core o1)))
    | |- contains _ COMMIT_SEQ = _ =>
        destruct (decide (commit_seq (o_core o) = commit_seq (o_core o1)))
    | |- contains _ MODE = _ => destruct (decide (mode (o_core o) = mode (o_core o1)))
    | |- contains _ FLAGS = _ => destruct (decide (flags (o_core o) = flags (o_core o1)))
    | |- contains _ DATA = _ => destruct (decide (o_data o = o_data o1))
    end; auto; match goal with H : _ |- _ => apply H; congruence end.
Qed.

Lemma tracked_refl bits o : tracked bits o o.
Proof. unfold tracked. split_and!; auto; by intros []. Qed.

Lemma dirty_translate m s : dirty_bits (translate m s).2 = dirty_bits s.
Proof.
  unfold translate. destruct (is_dirty s), (cow s); simpl; try done.
  by destruct (b_translate m b).
Qed.

Lemma dirty_touch m s k : dirty_bits (touch m s k).2 = Z.lor (dirty_bits s) k.
Proof.
  unfold touch. pose proof (dirty_translate m s). destruct (translate m s). simpl in *.
  unfold insert_flag. congruence.
Qed.

Lemma dirty_assign m s f : dirty_bits (assign m s f).2 = dirty_bits s.
Proof. unfold assign. by destruct (cow s). Qed.

Lemma dirty_data m s (op : mem → CoWAccount → mem * CoWAccount) :
  dirty_bits (let '(m, s) := touch m s DATA in with_cow s (op m (cow s))).2
  = Z.lor (dirty_bits s) DATA.
Proof. rewrite <- (dirty_touch m). by destruct (touch m s DATA). Qed.

Lemma dirty_write m s offset data :
  dirty_bits (write_data m s offset data).2 = Z.lor (dirty_bits s) DATA.
Proof. apply (dirty_data m s (λ m c, cow_copy_at m c offset data)). Qed.

Lemma dirty_extend m s data :
  dirty_bits (extend_from_slice m s data).2 = Z.lor (dirty_bits s) DATA.
Proof. apply (dirty_data m s (λ m c, cow_extend_from_slice m c data)). Qed.

Lemma dirty_setter m s k f :
  dirty_bits (let '(m, s) := touch m s k in assign m s f).2 = Z.lor (dirty_bits s) k.
Proof. rewrite <- (dirty_touch m). destruct (touch m s k). apply dirty_assign. Qed.

Lemma dirty_set_data_at m s offset data :
  ∃ k, dirty_bits (set_data_at m s offset data).2 = Z.lor (Z.lor (dirty_bits s) DATA) k.
Proof.
  unfold set_data_at. rewrite <- (dirty_touch m). destruct (touch m s DATA) as [m1 s1]. simpl.
  assert (∃ k, dirty_bits (if zlen (cow_data m1 (cow s1)) <? offset
                           then resize_data m1 s1 offset 0 else (m1, s1)).2
               = Z.lor (dirty_bits s1) k) as [k Hk].
  { destruct (_ <? _); [|by exists 0; rewrite Z.lor_0_r].
    exists DATA. by apply (dirty_data m1 s1 (λ m c, cow_resize m c offset 0)). }
  set (r := if _ <? _ then _ else _) in *. clearbody r. destruct r as [m2 s2]. simpl in Hk.
  set (n := Z.to_nat _).
  pose proof (dirty_write m2 s2 offset (take n data)) as H2.
  destruct (write_data _ _ _ _) as [m3 s3]. simpl in H2.
  rewrite dirty_extend, H2, Hk.
  exists (Z.lor k DATA). by rewrite !Z.lor_assoc, <- !Z.lor_assoc, Z.lor_diag.
Qed.

Lemma dirty_set_lifecycle m s to t :
  match validate_transition (mode (core_of m s)) to (slot (core_of m s)) t with
  | Err _ => dirty_bits (set_lifecycle m s to t).1.2 = dirty_bits s
  | Ok _ =>
      dirty_bits (set_lifecycle m s to t).1.2 =
      Z.lor (Z.lor (dirty_bits s)
        (if bool_decide (mode (core_of (translate m s).1 (translate m s).2) = to) then 0 else MODE))
        SLOT
  end.
Proof.
  unfold set_lifecycle. destruct (validate_transition _ _ _ _); [|done].
  rewrite <- (dirty_translate m s). destruct (translate m s) as [m1 s1]. simpl.
  set (r := if bool_decide _ then (m1, s1) else _).
  assert (Hr : dirty_bits r.2 =
    Z.lor (dirty_bits s1) (if bool_decide (mode (core_of m1 s1) = to) then 0 else MODE)).
  { unfold r. case_bool_decide; [by rewrite Z.lor_0_r|]. by rewrite dirty_assign. }
  clearbody r. destruct r as [m2 s2]. simpl in Hr. rewrite <- Hr.
  pose proof (dirty_assign m2 (mark s2 SLOT) (FSlot t)) as H.
  by destruct (assign m2 (mark s2 SLOT) (FSlot t)).
Qed.

(** The markers of one call only grow, and cover what the call changed. *)
Lemma tracked_put bits o f k :
  (match f with
   | FLamports _ => k = LAMPORTS | FOwner _ => k = OWNER | FSlot _ => k = SLOT
   | FCommitSeq _ => k = COMMIT_SEQ | FMode _ => k = MODE | FFlags _ => k = FLAGS end) →
  contains bits k = true → tracked bits o (put o f).
Proof.
  intros Hf Hk. unfold tracked, put, core_put. destruct o as [[] d], f; simpl; subst;
    split_and!; auto; intros H; by destruct H.
Qed.

Lemma tracked_data bits o d : contains bits DATA = true → tracked bits o (with_data o d).
Proof. intros Hk. unfold tracked. split_and!; auto; simpl; by intros []. Qed.

Lemma setter_tracked m s k f (same : bool) :
  (∀ bits o, contains bits k = true → tracked bits o (put o f)) →
  (same = true → put (owned m s) f = owned m s) →
  let s' := (if same then (m, s) else let '(m', s') := touch m s k in assign m' s' f).2 in
  keeps_markers (dirty_bits s) (dirty_bits s') ∧ tracked (dirty_bits s') (owned m s) (put (owned m s) f).
Proof.
  intros Ht Hs s'. unfold s', keeps_markers. destruct same.
  - rewrite Hs by done. split; [done|apply tracked_refl].
  - rewrite dirty_setter. split; [intros; by apply contains_lor_mono|].
    apply Ht, contains_lor.
Qed.

Lemma data_tracked m s s' k d :
  dirty_bits s' = Z.lor (Z.lor (dirty_bits s) DATA) k →
  keeps_markers (dirty_bits s) (dirty_bits s') ∧ tracked (dirty_bits s') (owned m s) (with_data (owned m s) d).
Proof.
  intros E. unfold keeps_markers. rewrite E. split.
  - intros. by do 2 apply contains_lor_mono.
  - by apply tracked_data, contains_lor_mono, contains_lor.
Qed.

Lemma mutate_tracked m s u :
  wf m s →
  let s' := (mutate m s u).2 in
  keeps_markers (dirty_bits s) (dirty_bits s') ∧ tracked (dirty_bits s') (owned m s) (abstract_mutate (owned m s) u).
Proof.
  intros Hw. destruct u; simpl.
  - apply setter_tracked; [intros; by eapply tracked_put|]. intros E%Z.eqb_eq. apply put_same.
    rewrite core_of_owned in E. destruct (o_core _); simpl in *. by subst.
  - apply setter_tracked; [intros; by eapply tracked_put|]. intros E%bool_decide_eq_true.
    apply put_same. rewrite core_of_owned in E. destruct (o_core _); simpl in *. by subst.
  - apply setter_tracked; [intros; by eapply tracked_put|]. intros E%Z.eqb_eq. apply put_same.
    rewrite core_of_owned in E. destruct (o_core _); simpl in *. by subst.
  - apply setter_tracked; [intros; by eapply tracked_put|]. intros E%Z.eqb_eq. apply put_same.
    rewrite core_of_owned in E. destruct (o_core _); simpl in *. by subst.
  - pose proof (dirty_set_lifecycle m s to to_slot) as H. rewrite core_of_owned in H.
    destruct (translate_spec m s Hw) as [(_ & _ & Ho) _].
    rewrite core_of_owned, Ho in H.
    destruct (validate_transition _ _ _ _); unfold keeps_markers; rewrite H.
    2: { split; [done|apply tracked_refl]. }
    split; [intros; by do 2 apply contains_lor_mono|].
    set (bits := Z.lor _ SLOT).
    apply (tracked_trans bits bits _ (put (owned m s) (FMode to)));
      [by intros ?| |eapply tracked_put; [done|apply contains_lor]].
    case_bool_decide as Em.
    + rewrite put_same; [apply tracked_refl|]. destruct (o_core _); simpl in *. by subst.
    + eapply tracked_put; [done|]. apply contains_lor_mono, contains_lor.
  - eapply (data_tracked m s _ 0). rewrite Z.lor_0_r.
    apply (dirty_data m s (λ m c, cow_resize m c len val)).
  - eapply (data_tracked m s _ 0). rewrite Z.lor_0_r.
    apply (dirty_data m s (λ m c, cow_extend_from_slice m c data)).
  - eapply (data_tracked m s _ 0). rewrite Z.lor_0_r.
    apply (dirty_data m s (λ m c, cow_set_data_from_slice m c data)).
  - destruct (dirty_set_data_at m s offset data) as [k Hk]. by eapply data_tracked.
Qed.

Lemma mutates_tracked m s us :
  wf m s → Forall mutation_ok us →
  let '(m', s') := mutates m s us in
  keeps_markers (dirty_bits s) (dirty_bits s') ∧ tracked (dirty_bits s') (owned m s) (owned m' s').
Proof.
  intros Hw Hus. revert m s Hw. induction Hus as [|u us Hu Hus IH]; intros m s Hw; simpl.
  { split; [by intros ?|apply tracked_refl]. }
  destruct (mutate_tracked m s u Hw) as [Hk Ht].
  destruct (mutate_spec m s u Hw Hu) as (Hw1 & _ & Ho). rewrite <- Ho in Ht.
  destruct (mutate m s u) as [m1 s1]. simpl in *. specialize (IH m1 s1 Hw1).
  destruct (mutates m1 s1 us) as [m2 s2]. destruct IH as [Hk' Ht'].
  split; [by unfold keeps_markers in *; auto|]. by eapply tracked_trans.
Qed.

(** ** Properties *)

(** C28. Copy-on-write accounts refine the plain account record: after any sequence of
    mutating calls, on an owned value or on a view of mapped storage, reading the account
    gives what the same updates give on a core and a byte string; the view stays well
    formed, and of the memory only the shadow image is written (nothing at all for an
    owned value). *)
Theorem cow_refines_account m s us :
  wf m s → Forall mutation_ok us →
  let '(m', s') := mutates m s us in
  owned m' s' = foldl abstract_mutate (owned m s) us ∧ wf m' s' ∧ evolves m s m' s'.
Proof.
  intros Hw Hus. destruct (mutates_spec m s us Hw Hus) as (H1 & H2 & H3).
  by destruct (mutates m s us).
Qed.

(** C29. Publication through the sequence counter: mutations of a view are invisible to
    whoever opens the buffer until the commit, the commit makes the buffer open to exactly
    the mutated account, and rolling the commit back restores the account as it was before. *)
Theorem commit_publishes m h us m' s' b' :
  valid_buffer m h → Forall mutation_ok us →
  mutates m (from_borrowed (init m h)) us = (m', s') → cow s' = Borrowed b' →
  open_account m' h = open_account m h ∧
  (valid_buffer (b_commit m' b') h ∧ open_account (b_commit m' b') h = owned m' s') ∧
  (is_dirty s' = true →
   valid_buffer (b_rollback (b_commit m' b') b') h ∧
   open_account (b_rollback (b_commit m' b') b') h = open_account m h).
Proof.
  intros Hv Hus Hrun Hc.
  destruct (run_facts m h us m' s' b' Hv Hus Hrun Hc) as (_ & Hd & _).
  split_and!.
  - by eapply run_invisible.
  - by eapply commit_opens.
  - by eapply commit_opens.
  - intros Hs. eapply rollback_restores; eauto.
Qed.

(** Serializing an owned account into a buffer and opening the buffer gives the account
    back, under its key, as a valid buffer whose span is the number of storage units the
    allocator reserved; nothing outside those units is written. *)
Theorem serialize_open_round_trip m buf o pk :
  core_ok (o_core o) → small o → length pk = 32%nat →
  let m' := serialize m buf o pk in
  valid_buffer m' buf ∧ open_account m' buf = o ∧ buffer_pubkey m' buf = pk ∧
  span m' buf = units o ∧ frame m m' buf (buf + STORAGE_UNIT * units o).
Proof.
  intros Hc Hs Hpk. destruct (serialize_spec m buf o pk Hc Hs Hpk) as (?&?&?&?&_&?).
  by split_and!.
Qed.

(** Dirty markers are complete: after any sequence of mutating calls every field of the
    account that differs from before carries its marker, and an account without markers is
    unchanged. *)
Theorem dirty_markers_complete m s us :
  wf m s → Forall mutation_ok us →
  let '(m', s') := mutates m s us in
  tracked (dirty_bits s') (owned m s) (owned m' s') ∧
  (dirty_bits s' = 0 → owned m' s' = owned m s).
Proof.
  intros Hw Hus. pose proof (mutates_tracked m s us Hw Hus) as H.
  destruct (mutates m s us) as [m' s']. destruct H as [_ H]. split; [done|]. intros E.
  rewrite E in H. destruct H as (H1 & H2 & H3 & H4 & H5 & H6 & H7 & H8).
  destruct (owned m s) as [[] d], (owned m' s') as [[] d']. simpl in *.
  f_equal; [f_equal|]; auto; apply dec_stable; intros Hn;
    match goal with
    | H : _ → contains 0 _ = true |- _ => discriminate H; congruence
    end.
Qed.

(** Witnesses: a delegated account of five bytes in a buffer at address 4096. *)
Definition ex_core : AccountCore :=
  {| lamports := 1000; owner := replicate 32 7; slot := 3; commit_seq := 0;
     mode := Delegated; flags := 0; padding := 0 |}.
Definition ex_account : OwnedAccount := {| o_core := ex_core; o_data := [1; 2; 3; 4; 5] |}.
Definition ex_mem : mem := serialize (λ _, 0) 4096 ex_account (replicate 32 9).
Definition ex_mutations : list Mutation :=
  [MLamports 5; MSetDataAt 3 [9; 9; 9]; MLifecycle Undelegating 4; MOwner (replicate 32 1)].

Lemma ex_core_ok : core_ok ex_core.
Proof. unfold core_ok, fits. simpl. split_and!; lia || done. Qed.

Lemma ex_valid : valid_buffer ex_mem 4096.
Proof. by apply serialize_spec; [apply ex_core_ok| |]. Qed.

Lemma ex_mutations_ok : Forall mutation_ok ex_mutations.
Proof.
  unfold ex_mutations. repeat apply Forall_cons_2; try done; simpl; unfold fits; lia.
Qed.

Lemma cow_refines_account_witness :
  let '(m', s') := mutates ex_mem (from_borrowed (init ex_mem 4096)) ex_mutations in
  owned m' s' = foldl abstract_mutate (owned ex_mem (from_borrowed (init ex_mem 4096))) ex_mutations
  ∧ wf m' s' ∧ evolves ex_mem (from_borrowed (init ex_mem 4096)) m' s'.
Proof.
  apply (cow_refines_account ex_mem (from_borrowed (init ex_mem 4096)) ex_mutations).
  - apply wf_init_clean, ex_valid.
  - apply ex_mutations_ok.
Defined.

Lemma commit_publishes_witness :
  let r := mutates ex_mem (from_borrowed (init ex_mem 4096)) ex_mutations in
  ∃ b, cow r.2 = Borrowed b ∧ open_account r.1 4096 = ex_account ∧
       open_account (b_commit r.1 b) 4096 = foldl abstract_mutate ex_account ex_mutations ∧
       open_account (b_rollback (b_commit r.1 b) b) 4096 = ex_account.
Proof.
  destruct (commit_publishes ex_mem 4096 ex_mutations
    (mutates ex_mem (from_borrowed (init ex_mem 4096)) ex_mutations).1
    (mutates ex_mem (from_borrowed (init ex_mem 4096)) ex_mutations).2
    (match cow (mutates ex_mem (from_borrowed (init ex_mem 4096)) ex_mutations).2 with
     | Borrowed b => b | Owned _ => init ex_mem 4096 end)
    ex_valid ex_mutations_ok) as (H1 & (_ & H2) & H3).
  - by destruct (mutates _ _ _).
  - vm_compute. reflexivity.
  - intros r. eexists. split; [vm_compute; reflexivity|].
    split; [vm_compute; reflexivity|]. split; vm_compute; reflexivity.
Defined.

Lemma serialize_open_round_trip_witness :
  open_account ex_mem 4096 = ex_account ∧ span ex_mem 4096 = 23.
Proof.
  destruct (serialize_open_round_trip (λ _, 0) 4096 ex_account (replicate 32 9)) as (_ & H & _ & Hs & _).
  - apply ex_core_ok.
  - vm_compute. discriminate.
  - reflexivity.
  - split; [exact H|]. unfold ex_mem. rewrite Hs. reflexivity.
Defined.

Lemma dirty_markers_complete_witness :
  let '(m', s') := mutates ex_mem (from_borrowed (init ex_mem 4096)) ex_mutations in
  tracked (dirty_bits s') (owned ex_mem (from_borrowed (init ex_mem 4096))) (owned m' s') ∧
  (dirty_bits s' = 0 → owned m' s' = owned ex_mem (from_borrowed (init ex_mem 4096))).
Proof.
  apply (dirty_markers_complete ex_mem (from_borrowed (init ex_mem 4096)) ex_mutations).
  - apply wf_init_clean, ex_valid.
  - apply ex_mutations_ok.
Defined.
