(* ===== verification/Patch.v ===== *)
(** * Account patches ([solana/account/src/patch.rs])

    [AccountFieldPatch] with [apply] on copy-on-write accounts, and [sequence] ([patch_sequence] here), which
    decomposes an owned account into patches. Applying that sequence to any account whose
    lifecycle admits the target rebuilds every non-flag field. *)

From stdpp Require Import base list numbers option.
From S2P Require Import Prelude AccountMode Memory Account AccountFacts.

Local Open Scope Z_scope.

Definition MAX_DATA_CHUNK_SIZE : Z := umax 16 - 256.

Inductive AccountFieldPatch :=
| PLamports (v : Z)
| POwner (v : Pubkey)
| PDataAt (offset : Z) (data : list Z)
| PLifecycle (mode : AccountMode) (slot : Z)
| PDataLen (len : Z)
| PCommitSeq (v : Z).

Definition apply (m : mem) (s : AccountSharedData) (p : AccountFieldPatch)
    : mem * AccountSharedData * result AccountPatchError unit :=
  match p with
  | PLamports v => (set_lamports m s v, Ok tt)
  | POwner v => (set_owner m s v, Ok tt)
  | PLifecycle mode slot => set_lifecycle m s mode slot
  | PDataAt offset data => (set_data_at m s offset data, Ok tt)
  | PDataLen len => (resize_data m s len 0, Ok tt)
  | PCommitSeq v => (set_commit_seq m s v, Ok tt)
  end.

(** [slice::chunks]: blocks of [n] elements, the last possibly shorter; the fuel is the
    length of the slice, which is enough as every block takes at least one element. *)
Fixpoint chunks_aux {A} (fuel n : nat) (l : list A) : list (list A) :=
  match fuel, l with
  | S fuel, _ :: _ => take n l :: chunks_aux fuel n (drop n l)
  | _, _ => []
  end.
Definition chunks {A} (n : nat) (l : list A) : list (list A) := chunks_aux (length l) n l.

Definition patch_sequence (a : OwnedAccount) : list AccountFieldPatch :=
  [PLamports (lamports (o_core a));
   PLifecycle (mode (o_core a)) (slot (o_core a));
   PCommitSeq (commit_seq (o_core a));
   POwner (owner (o_core a));
   PDataLen (zlen (o_data a))] ++
  imap (λ index data, PDataAt (Z.of_nat index * MAX_DATA_CHUNK_SIZE) data)
    (chunks (Z.to_nat MAX_DATA_CHUNK_SIZE) (o_data a)).

(** Patches applied in order until the first failure. *)
Fixpoint apply_all (m : mem) (s : AccountSharedData) (ps : list AccountFieldPatch)
    : mem * AccountSharedData * result AccountPatchError unit :=
  match ps with
  | [] => (m, s, Ok tt)
  | p :: ps =>
      match apply m s p with
      | (m, s, Ok _) => apply_all m s ps
      | (m, s, Err e) => (m, s, Err e)
      end
  end.

(** ** Patches as mutations *)

Definition mutation_of (p : AccountFieldPatch) : Mutation :=
  match p with
  | PLamports v => MLamports v
  | POwner v => MOwner v
  | PDataAt offset data => MSetDataAt offset data
  | PLifecycle mode slot => MLifecycle mode slot
  | PDataLen len => MResize len 0
  | PCommitSeq v => MCommitSeq v
  end.

Definition patch_ok (p : AccountFieldPatch) : Prop := mutation_ok (mutation_of p).

(** The outcome a patch has, read off the denoted account. *)
Definition patch_result (o : OwnedAccount) (p : AccountFieldPatch)
    : result AccountPatchError unit :=
  match p with
  | PLifecycle to t => validate_transition (mode (o_core o)) to (slot (o_core o)) t
  | _ => Ok tt
  end.

Lemma apply_mutate m s p : (apply m s p).1 = mutate m s (mutation_of p).
Proof. by destruct p. Qed.

Lemma apply_result m s p : (apply m s p).2 = patch_result (owned m s) p.
Proof.
  destruct p; try done. simpl. unfold set_lifecycle. rewrite core_of_owned.
  destruct (validate_transition _ _ _ _) as [[]|]; [|done].
  by repeat (case_match; simplify_eq/=).
Qed.

Lemma apply_spec m s p :
  wf m s → patch_ok p →
  denotes m s (abstract_mutate (owned m s) (mutation_of p)) (apply m s p).1.
Proof. intros. rewrite apply_mutate. by apply mutate_spec. Qed.

Lemma apply_all_ok m s ps :
  wf m s → Forall patch_ok ps →
  (∀ k p, ps !! k = Some p →
     patch_result (foldl abstract_mutate (owned m s) (mutation_of <$> take k ps)) p = Ok tt) →
  (apply_all m s ps).2 = Ok tt ∧
  denotes m s (foldl abstract_mutate (owned m s) (mutation_of <$> ps)) (apply_all m s ps).1.
Proof.
  intros Hw Hps. revert m s Hw. induction Hps as [|p ps Hp Hps IH]; intros m s Hw Hr; simpl.
  { split; [done|by apply denotes_refl]. }
  pose proof (apply_spec m s p Hw Hp) as Hd. pose proof (apply_result m s p) as He.
  rewrite (Hr 0%nat p eq_refl : patch_result (owned m s) p = Ok tt) in He.
  destruct (apply m s p) as [[m1 s1] r]. simpl in *. subst r.
  pose proof Hd as (Hw1 & _ & Ho). simpl in Hw1, Ho.
  destruct (IH m1 s1 Hw1) as [H1 H2].
  { intros k q Hk. rewrite Ho. apply (Hr (S k) q Hk). }
  split; [done|]. rewrite Ho in H2.
  apply (denotes_bind m s _ (m1, s1) (λ m s, (apply_all m s ps).1) _ Hw Hd). done.
Qed.

(** ** Reassembling chunked data *)

Lemma splice_app (pre rest data : list Z) :
  (length data ≤ length rest)%nat →
  splice (pre ++ rest) (length pre) data = pre ++ data ++ drop (length data) rest.
Proof.
  intros H. unfold splice. rewrite resize_le by (rewrite length_app; lia).
  rewrite take_app_length. rewrite drop_app_add. done.
Qed.

Lemma chunks_rebuild n k fuel l pre rest o :
  (0 < n)%nat → (length l ≤ fuel)%nat → length rest = length l → length pre = (k * n)%nat →
  o_data o = pre ++ rest →
  foldl abstract_mutate o
    (mutation_of <$> imap (λ i data, PDataAt (Z.of_nat (k + i) * Z.of_nat n) data)
                       (chunks_aux fuel n l)) =
  with_data o (pre ++ l).
Proof.
  intros Hn. revert k l pre rest o. induction fuel as [|fuel IH]; intros k l pre rest o Hf Hr Hk Ho.
  { destruct l; [|simpl in Hf; lia]. destruct rest; [|done]. simpl.
    rewrite <- Ho. by rewrite with_data_same. }
  destruct l as [|x l'].
  { destruct rest; [|done]. simpl. rewrite <- Ho. by rewrite with_data_same. }
  set (l := x :: l') in *. assert (Hl : (0 < length l)%nat) by (simpl; lia).
  change (chunks_aux (S fuel) n l) with (take n l :: chunks_aux fuel n (drop n l)).
  rewrite imap_cons, fmap_cons. simpl foldl.
  set (c := take n l).
  assert (E : Z.to_nat (Z.of_nat (k + 0) * Z.of_nat n) = length pre) by lia.
  rewrite E, Ho, splice_app by (unfold c; rewrite length_take; lia).
  destruct (decide (n < length l)%nat) as [Hlt|Hge].
  - assert (Hc : length c = n) by (unfold c; rewrite length_take; lia).
    rewrite (imap_ext _ (λ i data, PDataAt (Z.of_nat (S k + i) * Z.of_nat n) data))
      by (intros i d _; simpl; do 2 f_equal; lia).
    rewrite (IH (S k) (drop n l) (pre ++ c) (drop (length c) rest)).
    + unfold with_data, c; simpl. by rewrite <- app_assoc, take_drop.
    + rewrite length_drop. lia.
    + rewrite !length_drop. lia.
    + rewrite length_app. lia.
    + simpl. by rewrite <- app_assoc.
  - unfold c. rewrite (take_ge l n), (drop_ge l n) by lia.
    rewrite (drop_ge rest) by lia. rewrite app_nil_r.
    by destruct fuel; simpl.
Qed.

(** ** The sequence of an account *)

(** What the sequence cannot carry over stays as the target had it. *)
Definition rebuilt (o a : OwnedAccount) : OwnedAccount :=
  let c := o_core a in
  {| o_core := Build_AccountCore (lamports c) (owner c) (slot c) (commit_seq c) (mode c)
                 (flags (o_core o)) (padding (o_core o));
     o_data := o_data a |}.

Lemma patch_sequence_ok a : core_ok (o_core a) → Forall patch_ok (patch_sequence a).
Proof.
  intros (Hl & Ho & Hs & Hq & _). unfold patch_sequence.
  apply Forall_app. split.
  - repeat apply Forall_cons_2; try done. unfold patch_ok, zlen. simpl. lia.
  - apply Forall_lookup_2. intros i p Hp. rewrite list_lookup_imap in Hp.
    destruct (chunks _ _ !! i); simplify_eq/=. unfold patch_ok. simpl.
    change MAX_DATA_CHUNK_SIZE with 65279. lia.
Qed.

Lemma patch_sequence_abstract o a :
  validate_transition (mode (o_core o)) (mode (o_core a)) (slot (o_core o)) (slot (o_core a)) = Ok tt →
  foldl abstract_mutate o (mutation_of <$> patch_sequence a) = rebuilt o a.
Proof.
  intros Hv. unfold patch_sequence. rewrite fmap_app, foldl_app.
  set (o1 := foldl abstract_mutate o _).
  assert (E : o1 = with_data (rebuilt o a) (resize (length (o_data a)) 0 (o_data o))).
  { unfold o1. destruct o as [[] d]. simpl in *. rewrite Hv. unfold with_data, put, core_put; simpl.
    unfold rebuilt, zlen. simpl. by rewrite Nat2Z.id. }
  clearbody o1. subst o1.
  unfold chunks. remember (Z.to_nat MAX_DATA_CHUNK_SIZE) as n eqn:En.
  assert (EM : MAX_DATA_CHUNK_SIZE = Z.of_nat n) by (by rewrite En, Z2Nat.id).
  assert (Hn : (0 < n)%nat) by (change MAX_DATA_CHUNK_SIZE with 65279 in EM; lia).
  rewrite EM. clear En EM.
  apply (chunks_rebuild n 0 _ (o_data a) [] (resize (length (o_data a)) 0 (o_data o)));
    [done|lia|by rewrite length_resize|done..].
Qed.

Lemma patch_results_ok o a :
  validate_transition (mode (o_core o)) (mode (o_core a)) (slot (o_core o)) (slot (o_core a)) = Ok tt →
  ∀ k p, patch_sequence a !! k = Some p →
    patch_result (foldl abstract_mutate o (mutation_of <$> take k (patch_sequence a))) p = Ok tt.
Proof.
  intros Hv k p Hk. destruct k as [|[|k]].
  - by simplify_eq/=.
  - simpl in Hk. simplify_eq/=. destruct o as [[] d]. exact Hv.
  - unfold patch_sequence in Hk. simpl in Hk.
    do 3 (destruct k as [|k]; [by simplify_eq/=|simpl in Hk]).
    rewrite list_lookup_imap in Hk. destruct (chunks _ _ !! k); by simplify_eq/=.
Qed.

(** Patching by decomposition: applying [sequence a] to any account whose current
    lifecycle admits [a]'s mode and slot succeeds on every patch and leaves exactly [a]'s
    lamports, owner, lifecycle, commit sequence and data, with the target's own flags; the
    view stays well formed and only its shadow image is written. *)
Theorem patch_sequence_rebuilds m s a :
  wf m s → core_ok (o_core a) →
  validate_transition (mode (core_of m s)) (mode (o_core a)) (slot (core_of m s)) (slot (o_core a)) = Ok tt →
  let r := apply_all m s (patch_sequence a) in
  r.2 = Ok tt ∧ owned r.1.1 r.1.2 = rebuilt (owned m s) a ∧
  wf r.1.1 r.1.2 ∧ evolves m s r.1.1 r.1.2.
Proof.
  rewrite core_of_owned. intros Hw Hc Hv r.
  destruct (apply_all_ok m s (patch_sequence a) Hw (patch_sequence_ok a Hc)
              (patch_results_ok _ a Hv)) as [H1 (H2 & H3 & H4)].
  by rewrite (patch_sequence_abstract _ a Hv) in H4.
Qed.

Lemma patch_sequence_rebuilds_witness :
  let s := from_borrowed (init ex_mem 4096) in
  let a := {| o_core := core_put (core_put ex_core (FMode Undelegating)) (FSlot 9);
              o_data := [8; 8; 8; 8; 8; 8; 8; 8; 8; 8] |} in
  let r := apply_all ex_mem s (patch_sequence a) in
  r.2 = Ok tt ∧ owned r.1.1 r.1.2 = rebuilt (owned ex_mem s) a ∧
  wf r.1.1 r.1.2 ∧ evolves ex_mem s r.1.1 r.1.2.
Proof.
  intros s a. apply (patch_sequence_rebuilds ex_mem s a).
  - apply wf_init_clean, ex_valid.
  - unfold core_ok, fits; simpl. split_and!; lia || done.
  - vm_compute. reflexivity.
Defined.
