(* ===== verification/SeqLock.v ===== *)
(** * Concurrent reads of borrowed accounts ([AccountSeqLock] in [solana/account/src/cow/mod.rs])

    A reader loads bytes of the active image one at a time while a writer mutates the
    shadow image and publishes by bumping the sequence. The reader is a program over single
    byte loads, the writer is an arbitrary interleaving of the memory changes the account
    operations make, and [AccountSeqLock::read] is the loop that rechecks the sequence. *)

From stdpp Require Import base list numbers option relations.
From S2P Require Import Prelude AccountMode Memory Account AccountFacts.

Local Open Scope Z_scope.

(** ** Readers *)

(** A closure over the account view, as the loads it performs. *)
Inductive reader_prog (R : Type) :=
| Return (r : R)
| LoadByte (a : Z) (k : Z → reader_prog R).
Arguments Return {R} r.
Arguments LoadByte {R} a k.

(** The reader's result when nothing interferes. *)
Fixpoint run {R} (m : mem) (p : reader_prog R) : R :=
  match p with
  | Return r => r
  | LoadByte a k => run m (k (m a))
  end.

(** The loads stay in the image of the view, as they do through its accessors. *)
Fixpoint within {R} (m : mem) (b : BorrowedAccount) (p : reader_prog R) : Prop :=
  match p with
  | Return _ => True
  | LoadByte a k => b_core b ≤ a < b_core b + image_size m b ∧ within m b (k (m a))
  end.

Fixpoint prog_map {R S} (f : R → S) (p : reader_prog R) : reader_prog S :=
  match p with
  | Return r => Return (f r)
  | LoadByte a k => LoadByte a (λ v, prog_map f (k v))
  end.

Section seqlock.
Context {R : Type} (h : Z) (reader : BorrowedAccount → reader_prog R).

(** ** Writers *)

(** What a writer of the buffer does to memory, at any granularity: bytes of the shadow
    image change, or a prepared shadow image is committed. *)
Inductive writes : mem → mem → Prop :=
| writes_shadow m m' :
    frame m m' (shadow_lo m (init m h)) (shadow_lo m (init m h) + image_size m (init m h)) →
    writes m m'.
Inductive publishes : mem → mem → Prop :=
| publishes_commit m b :
    wf_borrowed m b → b_header b = h → b_core b = shadow_lo m b → publishes m (b_commit m b).

(** ** The retry loop *)

(** [AccountSeqLock]: the view, the sequence it was opened at, and the rest of the current
    attempt; [commits] and [since] count publications in total and at the attempt's start. *)
Record attempt := {
  view : BorrowedAccount;
  sequence_at : Z;
  rest : reader_prog R;
  since : Z;
}.
Inductive lock_state := Reading (t : attempt) | Finished (r : R).

(** [AccountSeqLock::new] on a view of the buffer. *)
Definition lock_new (b : BorrowedAccount) (n : Z) : lock_state :=
  Reading {| view := b; sequence_at := b_version b; rest := reader b; since := n |}.

(** One step of [AccountSeqLock::read]: a load, or the check after the last one. *)
Definition lock_step (m : mem) (n : Z) (l : lock_state) : lock_state :=
  match l with
  | Finished r => Finished r
  | Reading t =>
      match rest t with
      | LoadByte a k =>
          Reading {| view := view t; sequence_at := sequence_at t; rest := k (m a); since := since t |}
      | Return r =>
          let post := sequence m (b_header (view t)) in
          if sequence_at t =? post then Finished r
          else lock_new (b_reset m (view t)) n
      end
  end.

Record world := { memory : mem; commits : Z; lock : lock_state }.

Inductive step : world → world → Prop :=
| step_reader m n l : step (Build_world m n l) (Build_world m n (lock_step m n l))
| step_write m m' n l : writes m m' → step (Build_world m n l) (Build_world m' n l)
| step_publish m m' n l :
    publishes m m' → step (Build_world m n l) (Build_world m' (n + 1) l).

(** A read attempt overlaps fewer than 2^32 publications; the sequence is 32 bits wide. *)
Definition bounded_attempts (w : world) : Prop :=
  match lock w with Reading t => commits w - since t < 2 ^ 32 | Finished _ => True end.

Definition steps : world → world → Prop :=
  rtc (λ w w', bounded_attempts w ∧ step w w').

Hypothesis reader_within :
  ∀ m, valid_buffer m h → within m (init m h) (reader (init m h)).

(** ** Invariant *)

(** While no publication has happened since the attempt began, the view is the active one
    and finishing the attempt now gives what reading atomically now gives. *)
Definition attempt_ok (m : mem) (n : Z) (t : attempt) : Prop :=
  b_header (view t) = h ∧ sequence_at t = wrap 32 (since t) ∧ since t ≤ n ∧
  (since t = n →
   view t = init m h ∧ within m (view t) (rest t) ∧
   run m (rest t) = run m (reader (init m h))).

Definition lock_ok (m : mem) (n : Z) (l : lock_state) (past : mem → Prop) : Prop :=
  match l with
  | Reading t => attempt_ok m n t
  | Finished r => ∃ m', past m' ∧ valid_buffer m' h ∧ r = run m' (reader (init m' h))
  end.

Definition world_ok (past : mem → Prop) (w : world) : Prop :=
  valid_buffer (memory w) h ∧ sequence (memory w) h = wrap 32 (commits w) ∧
  lock_ok (memory w) (commits w) (lock w) past.

Lemma within_agree m m' b (p : reader_prog R) :
  header_space m' (b_header b) = header_space m (b_header b) →
  (∀ x, b_core b ≤ x < b_core b + image_size m b → m x = m' x) →
  within m b p → within m' b p ∧ run m' p = run m p.
Proof using Type.
  intros Hs Ha. assert (Ei : image_size m' b = image_size m b) by (unfold image_size; by rewrite Hs).
  induction p as [r|a k IH]; simpl; [done|]. rewrite Ei. intros [Hr Hw].
  rewrite <- (Ha a Hr). destruct (IH (m a) Hw). done.
Qed.

Lemma active_disjoint m :
  valid_buffer m h → let b := init m h in
  b_core b + image_size m b ≤ shadow_lo m b ∨ shadow_lo m b + image_size m b ≤ b_core b.
Proof using Type.
  intros [Hsp _ _ _ _ _ _]. simpl in *. rewrite image_size_eq. unfold shadow_lo. simpl.
  rewrite !image_addr_eq. destruct (Z.even (sequence m h)); simpl; lia.
Qed.

(** A write to the shadow image changes nothing a reader of the active image sees. *)
Lemma writes_ok m m' :
  valid_buffer m h → writes m m' →
  valid_buffer m' h ∧ sequence m' h = sequence m h ∧ init m' h = init m h ∧
  ∀ p : reader_prog R, within m (init m h) p → within m' (init m h) p ∧ run m' p = run m p.
Proof using Type.
  intros Hv Hwr. revert Hv. destruct Hwr as [m m' Hf]. intros Hv. destruct (open_frame _ _ _ Hv Hf eq_refl) as (Hw & _ & Hi).
  destruct (frame_header _ _ _ (wf_space _ _ Hv) Hf) as [Es Eq]. simpl in Hi, Es, Eq.
  split_and!; [unfold valid_buffer; by rewrite Hi|done|done|].
  intros p. apply within_agree; [done|]. intros x Hx. apply Hf.
  destruct (active_disjoint _ Hv); lia.
Qed.

Lemma publishes_ok m m' :
  publishes m m' → valid_buffer m' h ∧ sequence m' h = wrap 32 (sequence m h + 1).
Proof using Type.
  intros [m1 b Hw Hh Hc]. unfold b_commit. unfold shadow_lo in Hc.
  rewrite Hc, Z.eqb_refl. simpl. rewrite (wf_version _ _ Hw), Z.eqb_refl. rewrite Hh.
  rewrite <- (wf_version _ _ Hw), Hh. split.
  - apply (open_store_sequence _ _ _ b); [done..|]. rewrite image_flip.
    rewrite Hc, Hh. f_equal. rewrite <- Hh. symmetry. apply (wf_version _ _ Hw).
  - rewrite sequence_store. unfold wrapping_add, wrap. by rewrite Z.mod_mod.
Qed.

Lemma lock_new_ok m n past :
  valid_buffer m h → sequence m h = wrap 32 n → lock_ok m n (lock_new (init m h) n) past.
Proof using reader_within.
  intros Hv Hs. simpl. unfold attempt_ok; simpl. split_and!; auto; lia.
Qed.

Lemma reader_step_ok m n l past :
  past m → world_ok past (Build_world m n l) → bounded_attempts (Build_world m n l) →
  lock_ok m n (lock_step m n l) past.
Proof using reader_within.
  intros Hm (Hv & Hs & Hl) Hb. simpl in Hv, Hs, Hl. unfold bounded_attempts in Hb. simpl in Hb.
  destruct l as [t|r]; [|done]. destruct Hl as (Hh & Hq & Hn & Hact). unfold lock_step.
  destruct (rest t) as [r|a k] eqn:Er.
  - rewrite Hh, Hq, Hs. destruct (Z.eqb_spec (wrap 32 (since t)) (wrap 32 n)) as [E|E].
    + assert (since t = n) as Hsn.
      { unfold wrap in E. Z.to_euclidean_division_equations. lia. }
      destruct (Hact Hsn) as (_ & _ & Hr). simpl in Hr |- *. eauto.
    + unfold b_reset. rewrite Hh. by apply lock_new_ok.
  - unfold lock_ok, attempt_ok; simpl. split_and!; auto. intros Hsn.
    destruct (Hact Hsn) as (H1 & H2 & H3). simpl in H2, H3. by destruct H2.
Qed.

Lemma reader_world_step_ok (past : mem → Prop) w w' :
  past (memory w) → world_ok past w → bounded_attempts w → step w w' → world_ok past w'.
Proof using reader_within.
  intros Hm Hw Hb Hst. destruct Hst as [m n l|m m' n l Hwr|m m' n l Hpub].
  - pose proof Hw as (Hv & Hs & _). split_and!; auto. by apply reader_step_ok.
  - destruct Hw as (Hv & Hs & Hl). simpl in *.
    destruct (writes_ok m m' Hv Hwr) as (Hv' & Hs' & Hi & Hp).
    split_and!; simpl; auto; [congruence|]. destruct l as [t|r]; [|done].
    destruct Hl as (Hh & Hq & Hn & Hact). split_and!; auto. intros E.
    destruct (Hact E) as (H1 & H2 & H3). rewrite H1 in *. rewrite Hi.
    destruct (Hp _ H2) as [H4 ->]. destruct (Hp _ (reader_within m Hv)) as [_ ->]. done.
  - destruct Hw as (Hv & Hs & Hl). simpl in *.
    destruct (publishes_ok m m' Hpub) as [Hv' Hs'].
    split_and!; simpl; auto.
    + rewrite Hs', Hs. unfold wrap. by rewrite Zplus_mod_idemp_l.
    + destruct l as [t|r]; [|done]. destruct Hl as (Hh & Hq & Hn & Hact).
      split_and!; auto; [lia|]. lia.
Qed.

(** Memories a run went through. *)
Definition visited (w w' : world) (m : mem) : Prop :=
  ∃ v, steps w v ∧ steps v w' ∧ memory v = m.

Lemma steps_ok w w' (past : mem → Prop) :
  steps w w' → (∀ m, visited w w' m → past m) → world_ok past w → world_ok past w'.
Proof using reader_within.
  intros Hst. induction Hst as [w|w v w' [Hb Hs] Hst IH]; intros Hp Hw; [done|].
  apply IH.
  - intros m (u & H1 & H2 & E). apply Hp. exists u. split_and!; auto.
    eapply rtc_l; [split; [exact Hb|exact Hs]|exact H1].
  - apply (reader_world_step_ok past w v); auto. apply Hp. exists w. split_and!; auto; [apply rtc_refl|].
    eapply rtc_l; [split; [exact Hb|exact Hs]|exact Hst].
Qed.

(** Without interference the loop ends: the rest of the attempt, then at most one more. *)
Fixpoint quiet (fuel : nat) (m : mem) (n : Z) (l : lock_state) : lock_state :=
  match fuel with O => l | S fuel => quiet fuel m n (lock_step m n l) end.

Lemma quiet_add f g m n l : quiet (f + g) m n l = quiet g m n (quiet f m n l).
Proof using Type. revert l. induction f; simpl; auto. Qed.

Lemma quiet_attempt m n t :
  ∃ f, quiet f m n (Reading t) =
       lock_step m n (Reading {| view := view t; sequence_at := sequence_at t;
                                 rest := Return (run m (rest t)); since := since t |}).
Proof using Type.
  destruct t as [v q p c]. simpl. induction p as [r|a k IH]; simpl.
  - by exists 1%nat.
  - destruct (IH (m a)) as [f Hf]. by exists (S f).
Qed.

Lemma quiet_finishes m n l :
  valid_buffer m h → lock_ok m n l (λ _, True) → ∃ f r, quiet f m n l = Finished r.
Proof using Type.
  intros Hv Hl. destruct l as [t|r]; [|by exists 0%nat, r].
  destruct (quiet_attempt m n t) as [f Hf]. simpl in Hf.
  destruct Hl as (Hh & _). rewrite Hh in Hf. destruct (_ =? _); [by eauto|].
  unfold b_reset, lock_new in Hf. rewrite Hh in Hf.
  match type of Hf with _ = Reading ?t' => destruct (quiet_attempt m n t') as [g Hg] end.
  simpl in Hg. rewrite Z.eqb_refl in Hg.
  exists (f + g)%nat. eexists. by rewrite quiet_add, Hf.
Qed.

End seqlock.

(** ** The reader that copies the whole account *)

Fixpoint load_prog (n : nat) (a : Z) : reader_prog (list Z) :=
  match n with
  | O => Return []
  | S n => LoadByte a (λ v, prog_map (cons v) (load_prog n (a + 1)))
  end.

Lemma run_prog_map {R S} (f : R → S) m p : run m (prog_map f p) = f (run m p).
Proof. induction p as [|a k IH]; simpl; auto. Qed.

Lemma run_load_prog n m a : run m (load_prog n a) = load m a n.
Proof.
  revert a. induction n as [|n IH]; intros a; [done|]. simpl. rewrite run_prog_map, IH.
  change (S n) with (1 + n)%nat. rewrite load_app. unfold load at 3. simpl. by rewrite Z.add_0_r.
Qed.

Lemma within_prog_map {R S} (f : R → S) m b p : within m b p → within m b (prog_map f p).
Proof. induction p as [|a k IH]; simpl; naive_solver. Qed.

Lemma within_load_prog n m b a :
  b_core b ≤ a → a + Z.of_nat n ≤ b_core b + image_size m b → within m b (load_prog n a).
Proof.
  revert a. induction n as [|n IH]; intros a H1 H2; [done|]. simpl. split; [lia|].
  apply within_prog_map, IH; lia.
Qed.

(** ** Properties *)

(** C26. Reads are atomic: whatever writes to the shadow image and whatever publications
    interleave with its loads, a read that returns gives the value an uninterrupted read
    of the account would have given in one memory of the run, as long as a single attempt
    does not overlap 2^32 publications. *)
Theorem seqlock_atomic {R} h (reader : BorrowedAccount → reader_prog R) m n w r :
  (∀ m, valid_buffer m h → within m (init m h) (reader (init m h))) →
  valid_buffer m h → Account.sequence m h = wrap 32 n →
  let w0 := {| memory := m; commits := n; lock := lock_new reader (init m h) n |} in
  steps h reader w0 w → lock w = Finished r →
  ∃ m', visited h reader w0 w m' ∧ valid_buffer m' h ∧ r = run m' (reader (init m' h)).
Proof.
  intros Hin Hv Hs w0 Hst Hr.
  destruct (steps_ok h reader Hin w0 w (visited h reader w0 w) Hst) as (_ & _ & Hl); [done| |].
  - split_and!; auto. by apply lock_new_ok.
  - by rewrite Hr in Hl.
Qed.

(** Reads terminate once writers pause: from every state the read can be in, with the
    memory held still, the retry loop returns after finitely many steps (the rest of the
    current attempt and at most one more). *)
Theorem seqlock_returns {R} h (reader : BorrowedAccount → reader_prog R) m n w :
  (∀ m, valid_buffer m h → within m (init m h) (reader (init m h))) →
  valid_buffer m h → Account.sequence m h = wrap 32 n →
  steps h reader {| memory := m; commits := n; lock := lock_new reader (init m h) n |} w →
  ∃ fuel r, quiet reader fuel (memory w) (commits w) (lock w) = Finished r.
Proof.
  intros Hin Hv Hs Hst.
  destruct (steps_ok h reader Hin _ w (λ _, True) Hst) as (Hv' & _ & Hl); [done| |].
  - split_and!; auto. by apply lock_new_ok.
  - by apply (quiet_finishes h).
Qed.

(** Witness: a reader of the balance overlaps a mutation and its publication, and retries. *)
Definition ex_reader (b : BorrowedAccount) : reader_prog (list Z) := load_prog 8 (b_core b).
Definition ex_after : mem * AccountSharedData :=
  mutates ex_mem (from_borrowed (init ex_mem 4096)) [MLamports 5].
Definition ex_view : BorrowedAccount :=
  match cow ex_after.2 with Borrowed b => b | Owned _ => init ex_mem 4096 end.

Lemma ex_reader_within m :
  valid_buffer m 4096 → within m (init m 4096) (ex_reader (init m 4096)).
Proof.
  intros [Hsp _ _ _ _ _ _]. simpl in Hsp.
  apply within_load_prog; [lia|]. rewrite image_size_eq. simpl in *. lia.
Qed.

Lemma ex_after_facts :
  wf_borrowed ex_after.1 ex_view ∧
  frame ex_mem ex_after.1 (shadow_lo ex_mem (init ex_mem 4096))
    (shadow_lo ex_mem (init ex_mem 4096) + image_size ex_mem (init ex_mem 4096)).
Proof.
  destruct (run_facts ex_mem 4096 [MLamports 5] ex_after.1 ex_after.2 ex_view)
    as (H1 & _ & H2 & _); [apply ex_valid| | |vm_compute; reflexivity|done].
  - apply Forall_cons_2; [|done]. simpl. unfold fits. lia.
  - unfold ex_after. by destruct (mutates _ _ _).
Qed.

Lemma ex_steps :
  steps 4096 ex_reader
    {| memory := ex_mem; commits := 0; lock := lock_new ex_reader (init ex_mem 4096) 0 |}
    {| memory := b_commit ex_after.1 ex_view; commits := 1; lock := Finished (le_bytes 8 5) |}.
Proof.
  eapply rtc_l; [split; [vm_compute; reflexivity|apply step_reader]|].
  eapply rtc_l; [split; [vm_compute; reflexivity|
    apply step_write, writes_shadow, ex_after_facts]|].
  eapply rtc_l; [split; [vm_compute; reflexivity|
    apply step_publish, (publishes_commit _ _ ex_view);
      [apply ex_after_facts|vm_compute; reflexivity|vm_compute; reflexivity]]|].
  do 17 (eapply rtc_l; [split; [vm_compute; reflexivity|apply step_reader]|]).
  match goal with |- rtc _ ?a ?b => replace a with b; [apply rtc_refl|] end.
  f_equal; vm_compute; reflexivity.
Qed.

Lemma seqlock_atomic_witness :
  ∃ m', valid_buffer m' 4096 ∧ le_bytes 8 5 = run m' (ex_reader (init m' 4096)).
Proof.
  destruct (seqlock_atomic 4096 ex_reader ex_mem 0 _ (le_bytes 8 5) ex_reader_within ex_valid
              eq_refl ex_steps eq_refl) as (m' & _ & H).
  exists m'. exact H.
Defined.

Lemma seqlock_returns_witness :
  ∃ fuel r, quiet ex_reader fuel (b_commit ex_after.1 ex_view) 1 (Finished (le_bytes 8 5))
            = Finished r.
Proof.
  destruct (seqlock_returns 4096 ex_reader ex_mem 0 _ ex_reader_within ex_valid eq_refl ex_steps)
    as (f & r & H).
  exists f, r. exact H.
Defined.
