(* ===== verification/Order.v ===== *)
(** * Input-ordered dependency tracking ([processor/src/sequencer/order.rs])

    [OrderingTable] with [register], [take_ready], [complete] and [reset]. Tickets are
    indices into the node arena; the completed sentinel is the largest [usize], as in the
    source. Array indexing that would panic out of range reads as absent here, and the
    invariant shows every index the code forms to be in range. *)

From stdpp Require Import base list gmap numbers option sorting.
From S2P Require Import Prelude.

Local Open Scope Z_scope.

Abbreviation Key := (list Z).
Abbreviation Ticket := nat.

(** The parts of [ExecutionRequest] the sequencer looks at: the static account keys, each
    with the [is_writable] answer for its index, and the first signature. *)
Record ExecutionRequest := {
  account_keys : list (Key * bool);
  first_signature : list Z;
}.

#[export] Instance ExecutionRequest_eq_dec : EqDecision ExecutionRequest.
Proof. solve_decision. Defined.

Definition COMPLETE : Z := umax 64.

Record AccountFrontier := { last_writer : option Ticket; readers : list Ticket }.
Definition default_frontier : AccountFrontier := {| last_writer := None; readers := [] |}.

Record TransactionNode := { predecessors : Z; dependents : list Ticket }.

Record ReadyTransaction := { ticket : Ticket; request : ExecutionRequest }.

Record OrderingTable := {
  accounts : gmap Key AccountFrontier;
  nodes : list TransactionNode;
  blocked : gmap Ticket ExecutionRequest;
  ready : list ReadyTransaction;
  outstanding : Z;
}.

Definition empty_table : OrderingTable :=
  {| accounts := ∅; nodes := []; blocked := ∅; ready := []; outstanding := 0 |}.

(** [nodes[prior].predecessors == COMPLETE]. *)
Definition is_complete (ns : list TransactionNode) (prior : Ticket) : bool :=
  match ns !! prior with Some n => predecessors n =? COMPLETE | None => false end.

(** [Option::take_if] on the last writer, as what is left in place. *)
Definition live_writer (ns : list TransactionNode) (f : AccountFrontier) : option Ticket :=
  match last_writer f with
  | Some prior => if is_complete ns prior then None else Some prior
  | None => None
  end.

Definition live_readers (ns : list TransactionNode) (f : AccountFrontier) : list Ticket :=
  filter (λ prior, is_complete ns prior = false) (readers f).

(** What one access adds to the predecessors, and the frontier it leaves. *)
Definition access_predecessors (ns : list TransactionNode) (f : AccountFrontier) (w : bool)
    : list Ticket :=
  option_list (live_writer ns f) ++ (if w then live_readers ns f else []).

Definition access_frontier (ns : list TransactionNode) (t : Ticket) (f : AccountFrontier)
    (w : bool) : AccountFrontier :=
  if w then {| last_writer := Some t; readers := [] |}
  else {| last_writer := live_writer ns f; readers := readers f ++ [t] |}.

Definition frontier_of (acc : gmap Key AccountFrontier) (k : Key) : AccountFrontier :=
  default default_frontier (acc !! k).

(** The body of the loop over the static account keys. *)
Definition access (ns : list TransactionNode) (t : Ticket)
    (st : gmap Key AccountFrontier * list Ticket) (a : Key * bool)
    : gmap Key AccountFrontier * list Ticket :=
  let f := frontier_of st.1 a.1 in
  (<[a.1 := access_frontier ns t f a.2]> st.1, st.2 ++ access_predecessors ns f a.2).

(** [Vec::dedup]: removes consecutive repetitions. *)
Fixpoint dedup (l : list Ticket) : list Ticket :=
  match l with
  | x :: (y :: _) as l' => if bool_decide (x = y) then dedup l' else x :: dedup l'
  | _ => l
  end.

Definition push_dependent (ns : list TransactionNode) (t p : Ticket) : list TransactionNode :=
  alter (λ n, {| predecessors := predecessors n; dependents := dependents n ++ [t] |}) p ns.

Definition register (o : OrderingTable) (r : ExecutionRequest) : OrderingTable * bool :=
  let t := length (nodes o) in
  let '(acc, ps) := foldl (access (nodes o) t) (accounts o, []) (account_keys r) in
  let ps := dedup (merge_sort le ps) in
  let ns := foldl (λ ns p, push_dependent ns t p) (nodes o) ps in
  let is_blocked := negb (bool_decide (ps = [])) in
  ({| accounts := acc;
      nodes := ns ++ [{| predecessors := Z.of_nat (length ps); dependents := [] |}];
      blocked := if is_blocked then <[t := r]> (blocked o) else blocked o;
      ready := if is_blocked then ready o else ready o ++ [{| ticket := t; request := r |}];
      outstanding := outstanding o + 1 |}, is_blocked).

Definition take_ready (o : OrderingTable) : option (ReadyTransaction * OrderingTable) :=
  match ready o with
  | [] => None
  | r :: rs =>
      Some (r, {| accounts := accounts o; nodes := nodes o; blocked := blocked o;
                  ready := rs; outstanding := outstanding o |})
  end.

Definition set_predecessors (ns : list TransactionNode) (t : Ticket) (v : Z)
    : list TransactionNode :=
  alter (λ n, {| predecessors := v; dependents := dependents n |}) t ns.

(** One dependent of a completed node: its count drops, and at zero its payload moves
    from the blocked map to the ready queue. *)
Definition release_dependent (st : OrderingTable * Z) (d : Ticket) : OrderingTable * Z :=
  let o := st.1 in
  match nodes o !! d with
  | None => st
  | Some n =>
      let v := predecessors n - 1 in
      let ns := set_predecessors (nodes o) d v in
      let o' := {| accounts := accounts o; nodes := ns; blocked := blocked o; ready := ready o;
                   outstanding := outstanding o |} in
      if negb (v =? 0) then (o', st.2)
      else match blocked o !! d with
           | None => (o', st.2)
           | Some r =>
               ({| accounts := accounts o; nodes := ns; blocked := delete d (blocked o);
                   ready := ready o ++ [{| ticket := d; request := r |}];
                   outstanding := outstanding o |}, st.2 + 1)
           end
  end.

Definition complete (o : OrderingTable) (t : Ticket) : OrderingTable * Z :=
  let deps := match nodes o !! t with Some n => dependents n | None => [] end in
  let ns := alter (λ _, {| predecessors := COMPLETE; dependents := [] |}) t (nodes o) in
  foldl release_dependent
    ({| accounts := accounts o; nodes := ns; blocked := blocked o; ready := ready o;
        outstanding := outstanding o - 1 |}, 0) deps.

Definition table_len (o : OrderingTable) : Z := outstanding o.
Definition is_empty (o : OrderingTable) : bool := outstanding o =? 0.

(** [reset] clears everything but the counter, which the drain has left at zero. *)
Definition reset (o : OrderingTable) : OrderingTable :=
  {| accounts := ∅; nodes := []; blocked := ∅; ready := []; outstanding := outstanding o |}.
