(* ===== verification/OrderFacts.v ===== *)
(** * Correctness of the dependency graph

    A history records what the table has been asked: the requests of the epoch in input
    order, the tickets handed out and those completed. Against it the table's frontiers,
    counters and queues are exact: a ticket is held back precisely while an earlier
    conflicting ticket is unfinished. *)

From stdpp Require Import base list gmap numbers option sorting relations.
From S2P Require Import Prelude Order.

Local Open Scope Z_scope.

(** ** Specification *)

(** Two requests conflict when they share an account that one of them writes. *)
Definition conflict (r1 r2 : ExecutionRequest) : Prop :=
  ∃ k w1 w2, (k, w1) ∈ account_keys r1 ∧ (k, w2) ∈ account_keys r2 ∧ w1 || w2 = true.

(** What sanitization guarantees of the static keys. *)
Definition unique_keys (r : ExecutionRequest) : Prop := NoDup (account_keys r).*1.

Record history := {
  txs : list ExecutionRequest;
  done : gset Ticket;
  running : gset Ticket;
}.

Definition empty_history : history := {| txs := []; done := ∅; running := ∅ |}.

(** Ticket [i] comes before ticket [j] in input order and conflicts with it. *)
Definition before (l : list ExecutionRequest) (i j : Ticket) : Prop :=
  (i < j)%nat ∧ ∃ ri rj, l !! i = Some ri ∧ l !! j = Some rj ∧ conflict ri rj.

Definition uses (l : list ExecutionRequest) (j : Ticket) (k : Key) (w : bool) : Prop :=
  ∃ r, l !! j = Some r ∧ (k, w) ∈ account_keys r.

Definition pending (d : gset Ticket) (l : list Ticket) : list Ticket :=
  filter (λ p, p ∉ d) l.

(** ** Invariant *)

Record frontier_ok (l : list ExecutionRequest) (d : gset Ticket) (k : Key)
    (f : AccountFrontier) : Prop := {
  fr_writer w : last_writer f = Some w → uses l w k true ∧ ∀ j, uses l j k true → (j ≤ w)%nat;
  fr_no_writer : last_writer f = None → ∀ j, uses l j k true → j ∈ d;
  fr_readers r : r ∈ readers f → uses l r k false;
  fr_all_readers r : uses l r k false → r ∉ d → (∀ w, uses l w k true → (w < r)%nat) →
                     r ∈ readers f;
}.

Definition node_ok (h : history) (P : Ticket → list Ticket) (j : Ticket)
    (n : TransactionNode) : Prop :=
  if decide (j ∈ done h) then predecessors n = COMPLETE
  else predecessors n = Z.of_nat (length (pending (done h) (P j))) ∧
       predecessors n < COMPLETE ∧ NoDup (dependents n) ∧
       ∀ d, d ∈ dependents n ↔ (d < length (txs h))%nat ∧ j ∈ P d.

(** [P j] are the direct predecessors ticket [j] was registered with. *)
Record table_ok (h : history) (P : Ticket → list Ticket) (o : OrderingTable) : Prop := {
  ok_len : length (nodes o) = length (txs h);
  ok_unique r : r ∈ txs h → unique_keys r;
  ok_done j : j ∈ done h → (j < length (txs h))%nat;
  ok_running j : j ∈ running h → (j < length (txs h))%nat ∧ j ∉ done h;
  ok_edges i j : (j < length (txs h))%nat → i ∈ P j → before (txs h) i j;
  ok_nodup j : (j < length (txs h))%nat → NoDup (P j);
  ok_cover i j : before (txs h) i j → i ∈ done h ∨ ∃ p, p ∈ P j ∧ (p = i ∨ before (txs h) i p);
  ok_node j n : nodes o !! j = Some n → node_ok h P j n;
  ok_ran j : j ∈ done h ∪ running h → pending (done h) (P j) = [];
  ok_blocked j r : blocked o !! j = Some r ↔
                   txs h !! j = Some r ∧ (j ∉ done h) ∧ pending (done h) (P j) ≠ [];
  ok_ready x : x ∈ ready o ↔
               txs h !! ticket x = Some (request x) ∧ (ticket x ∉ done h ∪ running h) ∧
               pending (done h) (P (ticket x)) = [];
  ok_ready_nodup : NoDup (ready o);
  ok_outstanding : outstanding o = Z.of_nat (length (txs h)) - Z.of_nat (size (done h));
  ok_frontier k : frontier_ok (txs h) (done h) k (frontier_of (accounts o) k);
}.

(** ** Lists of tickets *)

Lemma pending_elem d l p : p ∈ pending d l ↔ p ∈ l ∧ p ∉ d.
Proof. unfold pending. rewrite list_elem_of_filter. naive_solver. Qed.

Lemma pending_nil d l : pending d l = [] ↔ ∀ p, p ∈ l → p ∈ d.
Proof.
  split.
  - intros E p Hp. destruct (decide (p ∈ d)); [done|].
    assert (p ∈ pending d l) as H by (by apply pending_elem). rewrite E in H. set_solver.
  - intros H. destruct (pending d l) as [|p l'] eqn:E; [done|].
    assert (p ∈ pending d l) as [H1 H2]%pending_elem by (rewrite E; left). naive_solver.
Qed.

Lemma pending_all d l : (∀ p, p ∈ l → p ∉ d) → pending d l = l.
Proof.
  intros H. induction l as [|x l IH]; [done|]. unfold pending in *. rewrite filter_cons.
  rewrite decide_True by (apply H; left). f_equal. apply IH. intros p Hp. apply H. by right.
Qed.

Lemma pending_insert d l t :
  NoDup l → t ∉ d →
  Z.of_nat (length (pending ({[t]} ∪ d) l)) =
  Z.of_nat (length (pending d l)) - (if decide (t ∈ l) then 1 else 0).
Proof.
  intros Hl Ht. induction Hl as [|x l Hx Hl IH]; [done|]. unfold pending in *.
  rewrite !filter_cons. destruct (decide (x = t)) as [->|Hne].
  - rewrite decide_False by set_solver. rewrite (decide_True (P := t ∉ d)) by done.
    rewrite decide_False in IH by done. rewrite IH, (decide_True (P := t ∈ t :: l)) by left.
    simpl length. lia.
  - assert (E : t ∈ x :: l ↔ t ∈ l) by set_solver.
    rewrite (decide_ext _ _ _ _ E). destruct (decide (x ∈ d)).
    + rewrite !decide_False by set_solver. done.
    + rewrite (decide_True (P := x ∉ d)) by done.
      rewrite (decide_True (P := x ∉ {[t]} ∪ d))
        by (rewrite not_elem_of_union, not_elem_of_singleton; done).
      simpl length. lia.
Qed.

Lemma dedup_elem l x : x ∈ dedup l ↔ x ∈ l.
Proof.
  induction l as [|a [|b l] IH]; [done..|]. simpl in *. case_bool_decide as E.
  - subst. rewrite IH. set_solver.
  - rewrite elem_of_cons, IH. set_solver.
Qed.

Lemma dedup_NoDup l : StronglySorted le l → NoDup (dedup l).
Proof.
  induction 1 as [|a l Hs IH Ha]; [constructor|]. destruct l as [|b l]; [apply NoDup_singleton|].
  simpl in *. case_bool_decide as E; [done|]. constructor; [|done].
  intros Hin. apply (proj1 (dedup_elem (b :: l) a)) in Hin. apply Forall_cons in Ha as [Hab Ha].
  apply elem_of_cons in Hin as [->|Hin]; [done|].
  apply StronglySorted_inv in Hs as [_ Hb]. rewrite Forall_forall in Hb.
  specialize (Hb _ Hin). lia.
Qed.

Lemma in_option_list (m : option Ticket) x : x ∈ option_list m ↔ m = Some x.
Proof. destruct m; simpl; [rewrite list_elem_of_singleton|]; set_solver. Qed.

Definition order_preds (l : list Ticket) : list Ticket := dedup (merge_sort le l).

Lemma order_preds_elem l x : x ∈ order_preds l ↔ x ∈ l.
Proof. unfold order_preds. rewrite dedup_elem. by rewrite merge_sort_Permutation. Qed.

Lemma order_preds_NoDup l : NoDup (order_preds l).
Proof. apply dedup_NoDup, (StronglySorted_merge_sort le). Qed.

(** ** The loops *)

Lemma push_dependents_lookup ps ns t j :
  NoDup ps →
  foldl (λ ns p, push_dependent ns t p) ns ps !! j =
  (λ n, if decide (j ∈ ps)
        then {| predecessors := predecessors n; dependents := dependents n ++ [t] |} else n)
  <$> ns !! j.
Proof.
  intros Hps. revert ns. induction Hps as [|p ps Hp Hps IH]; intros ns; simpl.
  { by destruct (ns !! j). }
  rewrite IH. unfold push_dependent. destruct (decide (p = j)) as [->|Hne].
  - rewrite list_lookup_alter_eq. destruct (ns !! j); simpl; [|done].
    by rewrite decide_False, decide_True by set_solver.
  - rewrite list_lookup_alter_ne by done. destruct (ns !! j); simpl; [|done].
    assert (E : j ∈ p :: ps ↔ j ∈ ps) by set_solver. by rewrite (decide_ext _ _ _ _ E).
Qed.

Lemma length_push_dependents ps ns t :
  length (foldl (λ ns p, push_dependent ns t p) ns ps) = length ns.
Proof.
  revert ns. induction ps as [|p ps IH]; intros ns; simpl; [done|].
  rewrite IH. apply length_alter.
Qed.

Lemma access_fold ns t keys acc ps :
  NoDup keys.*1 →
  let st := foldl (access ns t) (acc, ps) keys in
  (∀ k w, (k, w) ∈ keys → st.1 !! k = Some (access_frontier ns t (frontier_of acc k) w)) ∧
  (∀ k, k ∉ keys.*1 → st.1 !! k = acc !! k) ∧
  (∀ p, p ∈ st.2 ↔
        p ∈ ps ∨ ∃ k w, (k, w) ∈ keys ∧ p ∈ access_predecessors ns (frontier_of acc k) w).
Proof.
  revert acc ps. induction keys as [|[k0 w0] keys IH]; intros acc ps Hnd.
  { simpl. split_and!; [set_solver|done|]. intros p. set_solver. }
  rewrite fmap_cons in Hnd |- *. apply NoDup_cons in Hnd as [Hk Hnd]. cbn [foldl].
  set (acc1 := <[k0 := access_frontier ns t (frontier_of acc k0) w0]> acc).
  set (ps1 := ps ++ access_predecessors ns (frontier_of acc k0) w0).
  change (access ns t (acc, ps) (k0, w0)) with (acc1, ps1).
  destruct (IH acc1 ps1 Hnd) as (H1 & H2 & H3).
  assert (Hf : ∀ k, k ≠ k0 → frontier_of acc1 k = frontier_of acc k).
  { intros k Hne. unfold frontier_of, acc1. by rewrite lookup_insert_ne. }
  split_and!.
  - intros k w [E|Hin]%elem_of_cons.
    + simplify_eq. rewrite H2 by done. unfold acc1. by rewrite lookup_insert_eq.
    + rewrite (H1 k w Hin). rewrite Hf; [done|]. intros ->.
      apply Hk, list_elem_of_fmap. by exists (k0, w).
  - intros k Hn. rewrite H2 by set_solver. unfold acc1. rewrite lookup_insert_ne; set_solver.
  - intros p. rewrite H3. unfold ps1. rewrite elem_of_app.
    assert (Hk' : ∀ k w, (k, w) ∈ keys → k ≠ k0).
    { intros k w Hin ->. apply Hk, list_elem_of_fmap. by exists (k0, w). }
    split.
    + intros [[Hp|Hp]|(k & w & Hin & Hp)]; [by left|right; exists k0, w0; set_solver|].
      right. exists k, w. rewrite Hf in Hp by eauto. set_solver.
    + intros [Hp|(k & w & [E|Hin]%elem_of_cons & Hp)]; [by left; left| |].
      * simplify_eq. by left; right.
      * right. exists k, w. rewrite Hf by eauto. done.
Qed.

(** A dependent whose count this completion brings to zero. *)
Definition freed (ns : list TransactionNode) (d : Ticket) : bool :=
  match ns !! d with Some n => predecessors n - 1 =? 0 | None => false end.

Definition promoted (ns : list TransactionNode) (b : gmap Ticket ExecutionRequest) (d : Ticket)
    : option ReadyTransaction :=
  if freed ns d then (λ r, {| ticket := d; request := r |}) <$> b !! d else None.

Lemma release_fold deps o c :
  NoDup deps → (∀ d, d ∈ deps → is_Some (nodes o !! d)) →
  let o' := (foldl release_dependent (o, c) deps).1 in
  accounts o' = accounts o ∧ outstanding o' = outstanding o ∧
  length (nodes o') = length (nodes o) ∧
  (∀ j, nodes o' !! j =
        (λ n, if decide (j ∈ deps)
              then {| predecessors := predecessors n - 1; dependents := dependents n |} else n)
        <$> nodes o !! j) ∧
  (∀ j, blocked o' !! j =
        if decide (j ∈ deps) then (if freed (nodes o) j then None else blocked o !! j)
        else blocked o !! j) ∧
  ready o' = ready o ++ omap (promoted (nodes o) (blocked o)) deps.
Proof.
  intros Hnd. revert o c. induction Hnd as [|d deps Hd Hnd IH]; intros o c Hin o'.
  { unfold o'. simpl. split_and!; auto; [|by rewrite app_nil_r]. intros j. by destruct (nodes o !! j). }
  destruct (Hin d) as [n Hn]; [left|].
  set (o1 := (release_dependent (o, c) d).1).
  assert (E1 : accounts o1 = accounts o ∧ outstanding o1 = outstanding o ∧
    nodes o1 = set_predecessors (nodes o) d (predecessors n - 1) ∧
    blocked o1 = (if freed (nodes o) d then delete d (blocked o) else blocked o) ∧
    ready o1 = ready o ++ option_list (promoted (nodes o) (blocked o) d)).
  { unfold o1, release_dependent, promoted, freed. simpl. rewrite Hn.
    destruct (predecessors n - 1 =? 0); simpl; [|split_and!; auto; by rewrite app_nil_r].
    destruct (blocked o !! d) eqn:Eb; simpl; split_and!; auto; [|by rewrite app_nil_r].
    symmetry. by apply delete_id. }
  destruct E1 as (Ea & Eo & En & Eb & Er).
  assert (Hl : ∀ j, j ≠ d → nodes o1 !! j = nodes o !! j).
  { intros j Hj. rewrite En. unfold set_predecessors. by rewrite list_lookup_alter_ne. }
  assert (Hf : ∀ j, j ≠ d → freed (nodes o1) j = freed (nodes o) j).
  { intros j Hj. unfold freed. by rewrite Hl. }
  assert (Hb : ∀ j, j ≠ d → blocked o1 !! j = blocked o !! j).
  { intros j Hj. rewrite Eb. destruct (freed _ _); [|done]. by rewrite lookup_delete_ne. }
  assert (Hne : ∀ j, j ∈ deps → j ≠ d) by (intros j Hj ->; done).
  assert (Eo' : o' = (foldl release_dependent (o1, (release_dependent (o, c) d).2) deps).1).
  { unfold o'. cbn [foldl]. unfold o1. by destruct (release_dependent (o, c) d). }
  destruct (IH o1 (release_dependent (o, c) d).2) as (I1 & I2 & I3 & I4 & I5 & I6).
  { intros j Hj. rewrite Hl by auto. apply Hin. by right. }
  rewrite <- Eo' in I1, I2, I3, I4, I5, I6.
  split_and!; try congruence.
  - rewrite I3, En. apply length_alter.
  - intros j. rewrite I4. destruct (decide (j = d)) as [->|Hj].
    + rewrite En. unfold set_predecessors. rewrite list_lookup_alter_eq, Hn. simpl.
      rewrite decide_False by done. by rewrite decide_True by left.
    + rewrite Hl by done. assert (E : j ∈ d :: deps ↔ j ∈ deps) by set_solver.
      destruct (nodes o !! j); [|done]. simpl. by rewrite (decide_ext _ _ _ _ E).
  - intros j. rewrite I5. destruct (decide (j = d)) as [->|Hj].
    + rewrite decide_False by done. rewrite decide_True by left. rewrite Eb.
      destruct (freed _ _); [by rewrite lookup_delete_eq|done].
    + rewrite Hf, Hb by done. assert (E : j ∈ d :: deps ↔ j ∈ deps) by set_solver.
      by rewrite (decide_ext _ _ _ _ E).
  - rewrite I6, Er, <- app_assoc. f_equal. simpl.
    assert (omap (promoted (nodes o1) (blocked o1)) deps =
            omap (promoted (nodes o) (blocked o)) deps) as ->.
    { apply list_omap_ext. apply Forall2_same_length_lookup_2; [done|].
      intros i x y Hx Hy. simplify_eq. unfold promoted.
      rewrite Hf, Hb by (apply Hne; by eapply list_elem_of_lookup_2). done. }
    by destruct (promoted _ _ d).
Qed.

(** ** Histories *)

Lemma conflict_sym r1 r2 : conflict r1 r2 → conflict r2 r1.
Proof. intros (k & w1 & w2 & ? & ? & ?). exists k, w2, w1. by rewrite orb_comm. Qed.

Lemma uses_lt l j k w : uses l j k w → (j < length l)%nat.
Proof. intros (r & Hr & _). by apply lookup_lt_Some in Hr. Qed.

Lemma uses_snoc l r j k w :
  uses (l ++ [r]) j k w ↔ uses l j k w ∨ (j = length l ∧ (k, w) ∈ account_keys r).
Proof.
  unfold uses. split.
  - intros (r' & Hr & Hk). apply lookup_snoc_Some in Hr as [[_ Hr]|[-> ->]]; eauto.
  - intros [(r' & Hr & Hk)|[-> Hk]].
    + exists r'. split; [|done]. by apply lookup_app_l_Some.
    + exists r. split; [|done]. by rewrite lookup_app_r, Nat.sub_diag by lia.
Qed.

Lemma before_uses l i j k w1 w2 :
  (i < j)%nat → uses l i k w1 → uses l j k w2 → w1 || w2 = true → before l i j.
Proof.
  intros Hlt (ri & Hi & Hk1) (rj & Hj & Hk2) Hw. split; [done|].
  exists ri, rj. split_and!; auto. exists k, w1, w2. done.
Qed.

Lemma before_inv l i j :
  before l i j → (i < j)%nat ∧ ∃ k w1 w2, uses l i k w1 ∧ uses l j k w2 ∧ w1 || w2 = true.
Proof.
  intros (Hlt & ri & rj & Hi & Hj & k & w1 & w2 & H1 & H2 & Hw). split; [done|].
  exists k, w1, w2. unfold uses. eauto 10.
Qed.

Lemma before_lt l i j : before l i j → (i < j < length l)%nat.
Proof. intros (? & ? & ? & ? & Hj & _). apply lookup_lt_Some in Hj. lia. Qed.

Lemma before_snoc_old l r i j :
  (j < length l)%nat → before (l ++ [r]) i j ↔ before l i j.
Proof.
  intros Hj. unfold before. split; intros (Hlt & ri & rj & Hi & Hrj & Hc); split; auto;
    exists ri, rj; rewrite ?lookup_app_l in * by lia; auto.
Qed.

Lemma before_snoc l r i j : before l i j → before (l ++ [r]) i j.
Proof. intros H. apply before_snoc_old; [|done]. apply before_lt in H. lia. Qed.

Section table.
Context (h : history) (P : Ticket → list Ticket) (o : OrderingTable).
Hypothesis Hok : table_ok h P o.

(** Completed and dispatched tickets have all their conflicting predecessors completed. *)
Lemma conflicts_done i j :
  j ∈ done h ∪ running h → before (txs h) i j → i ∈ done h.
Proof using Hok.
  revert i. induction (lt_wf j) as [j _ IH]. intros i Hj Hb.
  destruct (ok_cover _ _ _ Hok i j Hb) as [?|(p & Hp & Hor)]; [done|].
  pose proof (ok_ran _ _ _ Hok j Hj) as Hr. rewrite pending_nil in Hr.
  destruct Hor as [->|Hip]; [by apply Hr|].
  pose proof (before_lt _ _ _ Hb).
  pose proof (ok_edges _ _ _ Hok p j ltac:(lia) Hp) as Hpj. apply before_lt in Hpj.
  apply (IH p); [lia| |done]. apply elem_of_union_l, Hr, Hp.
Qed.

Lemma is_complete_done p : (p < length (txs h))%nat → is_complete (nodes o) p = true ↔ p ∈ done h.
Proof using Hok.
  intros Hp. unfold is_complete.
  destruct (lookup_lt_is_Some_2 (nodes o) p) as [n Hn]; [by rewrite (ok_len _ _ _ Hok)|].
  rewrite Hn. pose proof (ok_node _ _ _ Hok p n Hn) as Hnode. unfold node_ok in Hnode.
  rewrite Z.eqb_eq. destruct (decide (p ∈ done h)); [tauto|]. destruct Hnode as (_ & ? & _).
  split; [lia|done].
Qed.

Lemma live_writer_spec k w :
  live_writer (nodes o) (frontier_of (accounts o) k) = Some w ↔
  uses (txs h) w k true ∧ (w ∉ done h) ∧ ∀ j, uses (txs h) j k true → (j ≤ w)%nat.
Proof using Hok.
  pose proof (ok_frontier _ _ _ Hok k) as [Hw Hnw _ _]. unfold live_writer.
  destruct (last_writer _) as [p|] eqn:E.
  - destruct (Hw p eq_refl) as [Hu Hm]. pose proof (is_complete_done p (uses_lt _ _ _ _ Hu)) as Hc.
    destruct (is_complete _ _).
    + split; [done|]. intros (H1 & H2 & H3). destruct H2.
      assert (p = w) as <- by (specialize (Hm _ H1); specialize (H3 _ Hu); lia). by apply Hc.
    + split; [intros ?; simplify_eq; split_and!; auto; intros ?%Hc; done|].
      intros (H1 & H2 & H3). f_equal. specialize (Hm _ H1). specialize (H3 _ Hu). lia.
  - split; [done|]. intros (H1 & H2 & _). destruct H2. by eapply Hnw.
Qed.

Lemma live_readers_spec k r :
  r ∈ live_readers (nodes o) (frontier_of (accounts o) k) ↔
  r ∈ readers (frontier_of (accounts o) k) ∧ r ∉ done h.
Proof using Hok.
  unfold live_readers. rewrite list_elem_of_filter. split.
  - intros [Hc Hr]. split; [done|]. intros Hd.
    apply is_complete_done in Hd; [congruence|].
    by eapply uses_lt, (fr_readers _ _ _ _ (ok_frontier _ _ _ Hok k)).
  - intros [Hr Hd]. split; [|done]. destruct (is_complete _ r) eqn:E; [|done].
    apply is_complete_done in E; [done|].
    by eapply uses_lt, (fr_readers _ _ _ _ (ok_frontier _ _ _ Hok k)).
Qed.

(** The frontier's predecessors are earlier unfinished accesses in conflict. *)
Lemma access_predecessors_sound k w p :
  p ∈ access_predecessors (nodes o) (frontier_of (accounts o) k) w →
  ∃ w', uses (txs h) p k w' ∧ w' || w = true ∧ p ∉ done h.
Proof using Hok.
  unfold access_predecessors. rewrite elem_of_app. intros [Hp|Hp].
  - apply in_option_list, live_writer_spec in Hp as (? & ? & _). by exists true.
  - destruct w; [|set_solver]. apply live_readers_spec in Hp as [Hp Hd].
    exists false. split_and!; auto. by eapply (fr_readers _ _ _ _ (ok_frontier _ _ _ Hok k)).
Qed.

(** The last unfinished writer covers every earlier unfinished access it conflicts with. *)
Lemma writer_covers k w i wi :
  uses (txs h) i k wi → i ∉ done h → (∃ j, uses (txs h) j k true ∧ (i ≤ j)%nat) →
  ∃ p, p ∈ access_predecessors (nodes o) (frontier_of (accounts o) k) w ∧
       (p = i ∨ before (txs h) i p).
Proof using Hok.
  intros Hi Hd (j & Hj & Hij).
  pose proof (ok_frontier _ _ _ Hok k) as [Hw Hnw _ _].
  assert (Hlater : ∀ q, uses (txs h) q k true → (i ≤ q)%nat → q ∉ done h).
  { intros q Hq Hiq Hqd. destruct (decide (q = i)) as [->|]; [done|]. destruct Hd.
    eapply conflicts_done; [by apply elem_of_union_l|].
    eapply (before_uses _ i q); eauto; [lia|by rewrite orb_true_r]. }
  destruct (last_writer (frontier_of (accounts o) k)) as [p|] eqn:E.
  - destruct (Hw p eq_refl) as [Hp Hm]. exists p. specialize (Hm _ Hj) as Hjp.
    split.
    + unfold access_predecessors. apply elem_of_app. left.
      apply in_option_list, live_writer_spec. split_and!; auto. apply Hlater; [done|lia].
    + destruct (decide (p = i)); [by left|right].
      eapply (before_uses _ i p); eauto; [lia|by rewrite orb_true_r].
  - exfalso. by eapply Hlater, Hnw.
Qed.

Lemma access_predecessors_cover k w i wi :
  uses (txs h) i k wi → wi || w = true → i ∉ done h →
  ∃ p, p ∈ access_predecessors (nodes o) (frontier_of (accounts o) k) w ∧
       (p = i ∨ before (txs h) i p).
Proof using Hok.
  intros Hi Hc Hd. pose proof (ok_frontier _ _ _ Hok k) as [Hw Hnw _ Hall].
  destruct wi.
  { eapply writer_covers; eauto. }
  simpl in Hc. subst w.
  destruct (last_writer (frontier_of (accounts o) k)) as [p|] eqn:E.
  - destruct (Hw p eq_refl) as [Hp Hm]. destruct (decide (i ≤ p)%nat).
    { eapply writer_covers; eauto. }
    exists i. split; [|by left]. unfold access_predecessors. apply elem_of_app. right.
    apply live_readers_spec. split; [|done]. apply Hall; auto.
    intros q Hq. specialize (Hm _ Hq). lia.
  - exists i. split; [|by left]. unfold access_predecessors. apply elem_of_app. right.
    apply live_readers_spec. split; [|done]. apply Hall; auto.
    intros q Hq. destruct (decide (q < i)%nat) as [|Hge]; [done|]. exfalso.
    pose proof (Hnw eq_refl q Hq) as Hqd. destruct (decide (q = i)) as [->|]; [done|].
    apply Hd. eapply conflicts_done; [by apply elem_of_union_l|].
    eapply (before_uses _ i q); eauto. lia.
Qed.

(** ** Registration *)

Section register.
Context (r : ExecutionRequest).
Hypothesis Hr : unique_keys r.
Hypothesis Hroom : Z.of_nat (length (nodes o)) < COMPLETE.

Local Abbreviation n := (length (txs h)).
Let folded := foldl (access (nodes o) n) (accounts o, []) (account_keys r).
Let Q := order_preds folded.2.

Lemma register_preds_elem p :
  p ∈ Q ↔ ∃ k w, (k, w) ∈ account_keys r ∧
                 p ∈ access_predecessors (nodes o) (frontier_of (accounts o) k) w.
Proof using Hr.
  unfold Q. rewrite order_preds_elem.
  destruct (access_fold (nodes o) n (account_keys r) (accounts o) [] Hr) as (_ & _ & E).
  unfold folded. rewrite E. split; [intros [[]%elem_of_nil|?]; done|by right].
Qed.

Lemma register_preds_sound p : p ∈ Q → before (txs h ++ [r]) p n ∧ p ∉ done h.
Proof using Hok Hr.
  rewrite register_preds_elem. intros (k & w & Hk & Hp).
  destruct (access_predecessors_sound k w p Hp) as (w' & Hu & Hw & Hd). split; [|done].
  eapply (before_uses _ p n k w' w); auto.
  - by eapply uses_lt.
  - apply uses_snoc. by left.
  - apply uses_snoc. by right.
Qed.

Lemma register_preds_cover i :
  before (txs h ++ [r]) i n → i ∈ done h ∨ ∃ p, p ∈ Q ∧ (p = i ∨ before (txs h ++ [r]) i p).
Proof using Hok Hr.
  intros Hb. destruct (decide (i ∈ done h)) as [|Hd]; [by left|right].
  apply before_inv in Hb as (Hlt & k & w1 & w2 & H1 & H2 & Hw).
  apply uses_snoc in H1 as [H1|[? _]]; [|lia].
  apply uses_snoc in H2 as [H2|[_ H2]]; [apply uses_lt in H2; lia|].
  destruct (access_predecessors_cover k w2 i w1 H1 Hw Hd) as (p & Hp & Hor).
  exists p. split.
  - apply register_preds_elem. eauto.
  - destruct Hor; [by left|right; by apply before_snoc].
Qed.

Lemma register_frontier k : frontier_ok (txs h ++ [r]) (done h) k (frontier_of folded.1 k).
Proof using Hok Hr Hroom.
  destruct (access_fold (nodes o) n (account_keys r) (accounts o) [] Hr) as (Hin & Hout & _).
  fold folded in Hin, Hout. pose proof (ok_frontier _ _ _ Hok k) as [Hw Hnw Hrd Hall].
  destruct (decide (k ∈ (account_keys r).*1)) as [Hk|Hk].
  - apply list_elem_of_fmap in Hk as ([k' w] & -> & Hk). simpl in *.
    unfold frontier_of at 1. rewrite (Hin k' w Hk). simpl.
    assert (Hsame : ∀ w', (k', w') ∈ account_keys r → w' = w).
    { intros w' Hk'. apply list_elem_of_lookup in Hk as [a Ha], Hk' as [b Hb].
      assert (a = b) as ->; [|congruence].
      eapply NoDup_lookup; [exact Hr|..]; rewrite list_lookup_fmap, ?Ha, ?Hb; done. }
    destruct w; simpl.
    + split; simpl.
      * intros w E. assert (w = length (txs h)) as -> by congruence.
        split; [apply uses_snoc; by right|].
        intros j [Hj|[-> _]]%uses_snoc; [apply uses_lt in Hj; lia|done].
      * done.
      * set_solver.
      * intros x [Hx|[-> Hx]]%uses_snoc Hd Hlt; [|by apply Hsame in Hx].
        specialize (Hlt n ltac:(apply uses_snoc; by right)).
        apply uses_lt in Hx. lia.
    + assert (Hno : ∀ j, uses (txs h ++ [r]) j k' true ↔ uses (txs h) j k' true).
      { intros j. rewrite uses_snoc. split; [|by left]. intros [?|[_ Hx]]; [done|].
        by apply Hsame in Hx. }
      split; simpl.
      * intros x Hx%live_writer_spec. destruct Hx as (H1 & H2 & H3).
        setoid_rewrite Hno. done.
      * intros Hx j. rewrite Hno. intros Hj. destruct (decide (j ∈ done h)) as [|Hd]; [done|].
        exfalso. destruct (last_writer (frontier_of (accounts o) k')) as [p|] eqn:E;
          [|by eapply Hd, Hnw]. destruct (Hw p eq_refl) as [Hp Hm].
        assert (p ∉ done h).
        { intros Hpd. destruct (decide (j = p)) as [->|]; [done|]. apply Hd.
          specialize (Hm _ Hj). eapply conflicts_done; [by apply elem_of_union_l|].
          eapply (before_uses _ j p); eauto. lia. }
        assert (live_writer (nodes o) (frontier_of (accounts o) k') = Some p)
          by (apply live_writer_spec; done). congruence.
      * intros x. rewrite elem_of_app, list_elem_of_singleton, uses_snoc.
        intros [Hx| ->]; [left; by apply Hrd|by right].
      * intros x Hx Hd Hlt. setoid_rewrite Hno in Hlt. rewrite elem_of_app, list_elem_of_singleton.
        apply uses_snoc in Hx as [Hx|[-> _]]; [left; by apply Hall|by right].
  - unfold frontier_of. rewrite Hout by done. fold (frontier_of (accounts o) k).
    assert (Hno : ∀ j w, uses (txs h ++ [r]) j k w ↔ uses (txs h) j k w).
    { intros j w. rewrite uses_snoc. split; [|by left]. intros [?|[_ Hx]]; [done|].
      destruct Hk. apply list_elem_of_fmap. by exists (k, w). }
    split; intros *; setoid_rewrite Hno; eauto.
Qed.

Definition registered : history :=
  {| txs := txs h ++ [r]; done := done h; running := running h |}.
Definition registered_preds (j : Ticket) : list Ticket :=
  if decide (j = length (txs h)) then Q else P j.

Lemma registered_preds_old j : (j < length (txs h))%nat → registered_preds j = P j.
Proof using Type. intros Hj. unfold registered_preds. rewrite decide_False by lia. done. Qed.

Lemma registered_preds_new : registered_preds (length (txs h)) = Q.
Proof using Type. unfold registered_preds. by rewrite decide_True. Qed.

Lemma Q_pending : pending (done h) Q = Q.
Proof using Hok Hr.
  apply pending_all. intros p Hp. by apply register_preds_sound.
Qed.

Lemma Q_length : (length Q ≤ n)%nat.
Proof using Hok Hr.
  rewrite <- (length_seq n 0). apply submseteq_length, NoDup_submseteq.
  - apply order_preds_NoDup.
  - intros p Hp. apply register_preds_sound in Hp as [Hp%before_lt _].
    apply elem_of_seq. lia.
Qed.

Lemma register_eq :
  register o r =
  ({| accounts := folded.1;
      nodes := foldl (λ ns p, push_dependent ns n p) (nodes o) Q ++
               [{| predecessors := Z.of_nat (length Q); dependents := [] |}];
      blocked := if bool_decide (Q = []) then blocked o else <[n := r]> (blocked o);
      ready := if bool_decide (Q = []) then ready o ++ [{| ticket := n; request := r |}]
               else ready o;
      outstanding := outstanding o + 1 |}, negb (bool_decide (Q = []))).
Proof using Hok.
  unfold register, Q, folded, order_preds. rewrite (ok_len _ _ _ Hok).
  destruct (foldl _ _ _) as [acc ps]. simpl. by destruct (bool_decide _).
Qed.

Lemma register_node j nd :
  nodes (register o r).1 !! j = Some nd → node_ok registered registered_preds j nd.
Proof using Hok Hr Hroom.
  rewrite register_eq. simpl. intros Hj.
  assert (Hl : length (foldl (λ ns p, push_dependent ns n p) (nodes o) Q) = n)
    by (rewrite length_push_dependents; apply (ok_len _ _ _ Hok)).
  unfold node_ok. simpl. apply lookup_snoc_Some in Hj as [[Hlt Hj]|[-> <-]].
  - rewrite Hl in Hlt. rewrite push_dependents_lookup in Hj by apply order_preds_NoDup.
    apply fmap_Some in Hj as (nd0 & H0 & ->). pose proof (ok_node _ _ _ Hok j nd0 H0) as Hn.
    unfold node_ok in Hn. destruct (decide (j ∈ done h)) as [Hd|Hd].
    + rewrite decide_False; [done|]. intros Hq. by apply register_preds_sound in Hq as [_ ?].
    + destruct Hn as (H1 & H2 & H3 & H4). rewrite registered_preds_old by done.
      rewrite length_app. simpl. destruct (decide (j ∈ Q)) as [Hq|Hq]; simpl; split_and!; auto.
      * apply NoDup_app. split_and!; [done| |apply NoDup_singleton].
        intros d Hd' ->%list_elem_of_singleton. apply H4 in Hd'. lia.
      * intros d. rewrite elem_of_app, list_elem_of_singleton, H4. split.
        -- intros [[? ?]| ->]; [rewrite registered_preds_old by done; split; [lia|done]|].
           rewrite registered_preds_new. split; [lia|done].
        -- intros [Hd1 Hd2]. destruct (decide (d = length (txs h))) as [->|]; [by right|left].
           rewrite registered_preds_old in Hd2 by lia. split; [lia|done].
      * intros d. rewrite H4. split.
        -- intros [? ?]. rewrite registered_preds_old by done. split; [lia|done].
        -- intros [Hd1 Hd2]. destruct (decide (d = length (txs h))) as [->|].
           ++ by rewrite registered_preds_new in Hd2.
           ++ rewrite registered_preds_old in Hd2 by lia. split; [lia|done].
  - rewrite Hl. rewrite decide_False.
    2: { intros Hd%(ok_done _ _ _ Hok). lia. }
    rewrite registered_preds_new, Q_pending. simpl.
    pose proof Q_length. rewrite (ok_len _ _ _ Hok) in Hroom. 
    split_and!; auto; [lia|constructor|]. intros d. split; [by intros []%elem_of_nil|].
    intros [Hd1 Hd2]. exfalso. rewrite length_app in Hd1. simpl in Hd1.
    destruct (decide (d = length (txs h))) as [->|].
    + rewrite registered_preds_new in Hd2. apply register_preds_sound in Hd2 as [Hd2%before_lt _]. lia.
    + rewrite registered_preds_old in Hd2 by lia.
      apply (ok_edges _ _ _ Hok) in Hd2; [|lia]. apply before_lt in Hd2. lia.
Qed.

Lemma Q_nil : bool_decide (Q = []) = true ↔ pending (done h) (registered_preds n) = [].
Proof using Hok Hr. rewrite bool_decide_eq_true, registered_preds_new, Q_pending. done. Qed.

Lemma not_ran : n ∉ done h ∪ running h.
Proof using Hok.
  intros [Hd%(ok_done _ _ _ Hok)|[Hd _]%(ok_running _ _ _ Hok)]%elem_of_union; lia.
Qed.

Lemma lookup_registered j x :
  (txs h ++ [r]) !! j = Some x ↔ txs h !! j = Some x ∨ (j = n ∧ x = r).
Proof using Hr o.
  split.
  - intros H. apply lookup_snoc_Some in H as [[_ ?]|[-> ->]]; [by left|by right].
  - intros [H|[-> ->]]; [by apply lookup_app_l_Some|]. by rewrite lookup_app_r, Nat.sub_diag.
Qed.

Lemma register_blocked j x :
  blocked (register o r).1 !! j = Some x ↔
  (txs h ++ [r]) !! j = Some x ∧ (j ∉ done h) ∧ pending (done h) (registered_preds j) ≠ [].
Proof using Hok Hr.
  rewrite register_eq. simpl. rewrite lookup_registered. pose proof not_ran as Hn.
  rewrite not_elem_of_union in Hn. pose proof Q_nil as HQ. destruct (decide (j = n)) as [->|Hj].
  - assert (Hb : blocked o !! n = None).
    { destruct (blocked o !! n) eqn:E; [|done]. apply (ok_blocked _ _ _ Hok) in E as [E _].
      apply lookup_lt_Some in E. lia. }
    assert (Ht : txs h !! n = None) by (apply lookup_ge_None; lia). rewrite Ht.
    destruct (bool_decide (Q = [])); rewrite ?Hb, ?lookup_insert_eq; naive_solver.
  - assert (E : (if bool_decide (Q = []) then blocked o else <[n:=r]> (blocked o)) !! j = blocked o !! j).
    { destruct (bool_decide _); [done|]. by rewrite lookup_insert_ne. }
    rewrite E, (ok_blocked _ _ _ Hok). unfold registered_preds. rewrite decide_False by done.
    naive_solver.
Qed.

Lemma register_ready x :
  x ∈ ready (register o r).1 ↔
  (txs h ++ [r]) !! ticket x = Some (request x) ∧ (ticket x ∉ done h ∪ running h) ∧
  pending (done h) (registered_preds (ticket x)) = [].
Proof using Hok Hr.
  rewrite register_eq. simpl. rewrite lookup_registered. pose proof not_ran as Hn.
  pose proof Q_nil as HQ. destruct (decide (ticket x = n)) as [E|Hj].
  - assert (Hx : x ∉ ready o).
    { intros [Ht _]%(ok_ready _ _ _ Hok). apply lookup_lt_Some in Ht. lia. }
    rewrite E. assert (Ht : txs h !! n = None) by (apply lookup_ge_None; lia). rewrite Ht.
    destruct (bool_decide (Q = [])).
    + rewrite elem_of_app, list_elem_of_singleton. split.
      * intros [?|Hx']; [done|]. subst x. simpl. split_and!; auto. by apply HQ.
      * intros ([?|[_ Hr']] & _ & _); [done|right]. destruct x; simpl in *. by subst.
    + split; [done|]. intros (_ & _ & H). apply HQ in H. done.
  - assert (Hx : x ∈ (if bool_decide (Q = []) then ready o ++ [{| ticket := n; request := r |}]
                 else ready o) ↔ x ∈ ready o).
    { destruct (bool_decide _); [|done]. rewrite elem_of_app, list_elem_of_singleton.
      split; [|by left]. intros [?| ->]; [done|]. by destruct Hj. }
    rewrite Hx, (ok_ready _ _ _ Hok). unfold registered_preds. rewrite decide_False by done.
    naive_solver.
Qed.

Lemma register_ok : table_ok registered registered_preds (register o r).1.
Proof using Hok Hr Hroom.
  assert (Hlen : length (nodes (register o r).1) = length (txs h ++ [r])).
  { rewrite register_eq. simpl. rewrite !length_app, length_push_dependents. simpl.
    by rewrite (ok_len _ _ _ Hok). }
  assert (Hold : ∀ j, j ∈ done h ∪ running h → (j < length (txs h))%nat).
  { intros j [Hj|Hj]%elem_of_union; [by eapply ok_done|by eapply ok_running]. }
  split; simpl; auto.
  - intros x [Hx|Hx]%elem_of_app; [by eapply ok_unique|]. apply list_elem_of_singleton in Hx. by subst.
  - intros j Hj%(ok_done _ _ _ Hok). rewrite length_app. lia.
  - intros j Hj%(ok_running _ _ _ Hok). rewrite length_app. naive_solver lia.
  - intros i j Hj Hi. rewrite length_app in Hj. simpl in Hj.
    destruct (decide (j = length (txs h))) as [->|].
    + rewrite registered_preds_new in Hi. by apply register_preds_sound.
    + rewrite registered_preds_old in Hi by lia. apply before_snoc. eapply ok_edges; eauto. lia.
  - intros j Hj. rewrite length_app in Hj. simpl in Hj.
    destruct (decide (j = length (txs h))) as [->|].
    + rewrite registered_preds_new. apply order_preds_NoDup.
    + rewrite registered_preds_old by lia. eapply ok_nodup; eauto. lia.
  - intros i j Hb. pose proof (before_lt _ _ _ Hb) as Hlt. rewrite length_app in Hlt. simpl in Hlt.
    destruct (decide (j = length (txs h))) as [->|].
    + rewrite registered_preds_new. by apply register_preds_cover.
    + rewrite registered_preds_old by lia. rewrite before_snoc_old in Hb by lia.
      destruct (ok_cover _ _ _ Hok i j Hb) as [?|(p & Hp & Hor)]; [by left|right].
      exists p. split; [done|]. destruct Hor; [by left|right; by apply before_snoc].
  - apply register_node.
  - intros j Hj. rewrite registered_preds_old by auto. by apply (ok_ran _ _ _ Hok).
  - intros j x. apply register_blocked.
  - apply register_ready.
  - rewrite register_eq. simpl. destruct (bool_decide _); [|apply (ok_ready_nodup _ _ _ Hok)].
    apply NoDup_app. split_and!; [apply (ok_ready_nodup _ _ _ Hok)| |apply NoDup_singleton].
    intros x [Ht _]%(ok_ready _ _ _ Hok) ->%list_elem_of_singleton. apply lookup_lt_Some in Ht.
    simpl in Ht. lia.
  - rewrite register_eq. simpl. rewrite length_app, (ok_outstanding _ _ _ Hok). simpl. lia.
  - rewrite register_eq. apply register_frontier.
Qed.

(** The answer of [register]: the new ticket waits exactly when it must. *)
Lemma register_answer :
  (register o r).2 = true ↔ ∃ i, before (txs h ++ [r]) i n ∧ i ∉ done h.
Proof using Hok Hr.
  rewrite register_eq. simpl. rewrite negb_true_iff, bool_decide_eq_false. split.
  - intros Hq. destruct Q as [|p l] eqn:E; [done|].
    assert (Hp : p ∈ Q) by (rewrite E; left). apply register_preds_sound in Hp. eauto.
  - intros (i & Hb & Hd). destruct (register_preds_cover i Hb) as [?|(p & Hp & _)]; [done|].
    intros E. rewrite E in Hp. by apply elem_of_nil in Hp.
Qed.

End register.

(** ** Dispatch *)

Definition taken (t : Ticket) : history :=
  {| txs := txs h; done := done h; running := {[t]} ∪ running h |}.

Lemma take_ready_ok x o' :
  take_ready o = Some (x, o') →
  table_ok (taken (ticket x)) P o' ∧ txs h !! ticket x = Some (request x) ∧
  ticket x ∉ done h ∪ running h.
Proof using Hok.
  unfold take_ready. destruct (ready o) as [|x' rs] eqn:E; [done|]. intros H. simplify_eq.
  pose proof (ok_ready_nodup _ _ _ Hok) as Hnd. rewrite E in Hnd. apply NoDup_cons in Hnd as [Hx Hnd].
  pose proof (proj1 (ok_ready _ _ _ Hok x)) as Hready. rewrite E in Hready.
  destruct Hready as (Ht & Hn & Hp); [left|]. rewrite not_elem_of_union in Hn.
  split; [|rewrite not_elem_of_union; done].
  destruct Hok as [H1 H2 H3 H4 H5 H6 H7 H8 H9 H10 H11 H12 H13 H14]. split; simpl; auto.
  - intros j [->%elem_of_singleton|Hj]%elem_of_union; [|by apply H4].
    split; [by eapply lookup_lt_Some|tauto].
  - intros j Hj. destruct (decide (j = ticket x)) as [->|]; [done|]. apply H9. set_solver.
  - intros y. split.
    + intros Hy. assert (Hy' : y ∈ ready o) by (rewrite E; by right).
      apply H11 in Hy' as (Hy1 & Hy2 & Hy3). split_and!; auto.
      assert (ticket y ≠ ticket x); [|set_solver]. intros Heq. destruct Hx.
      destruct x, y; simpl in *; subst. rewrite Ht in Hy1. by simplify_eq.
    + intros (Hy1 & Hy2 & Hy3). assert (Hy : y ∈ ready o) by (apply H11; set_solver).
      rewrite E in Hy. apply elem_of_cons in Hy as [->|]; [set_solver|done].
Qed.

(** ** Completion *)

Section complete.
Context (t : Ticket).
Hypothesis Ht : t ∈ running h.

Definition completed : history :=
  {| txs := txs h; done := {[t]} ∪ done h; running := running h ∖ {[t]} |}.

Lemma completed_pending j :
  (j < length (txs h))%nat →
  Z.of_nat (length (pending ({[t]} ∪ done h) (P j))) =
  Z.of_nat (length (pending (done h) (P j))) - (if decide (t ∈ P j) then 1 else 0).
Proof using Hok Ht.
  intros Hj. apply pending_insert; [by eapply ok_nodup|]. by eapply ok_running.
Qed.

Lemma completed_pending_other j :
  t ∉ P j → pending ({[t]} ∪ done h) (P j) = [] ↔ pending (done h) (P j) = [].
Proof using Hok Ht. intros Hn. rewrite !pending_nil. set_solver. Qed.

Lemma waiting_not_ran j : t ∈ P j → j ∉ done h ∪ running h.
Proof using Hok Ht.
  intros Hp Hj%(ok_ran _ _ _ Hok). rewrite pending_nil in Hj. apply Hj in Hp.
  by apply (ok_running _ _ _ Hok) in Ht as [_ ?].
Qed.

Lemma ran_union : ({[t]} ∪ done h) ∪ (running h ∖ {[t]}) = done h ∪ running h.
Proof using Hok Ht. apply set_eq. intros j. destruct (decide (j = t)); set_solver. Qed.

Lemma complete_facts :
  ∃ deps, let o' := (complete o t).1 in
  NoDup deps ∧ (∀ d, d ∈ deps ↔ (d < length (txs h))%nat ∧ t ∈ P d) ∧
  accounts o' = accounts o ∧ outstanding o' = outstanding o - 1 ∧
  length (nodes o') = length (nodes o) ∧
  (∀ j, nodes o' !! j =
        (λ n, if decide (j = t) then {| predecessors := COMPLETE; dependents := [] |}
              else if decide (j ∈ deps)
              then {| predecessors := predecessors n - 1; dependents := dependents n |} else n)
        <$> nodes o !! j) ∧
  (∀ j, blocked o' !! j =
        if decide (j ∈ deps) then (if freed (nodes o) j then None else blocked o !! j)
        else blocked o !! j) ∧
  ready o' = ready o ++ omap (promoted (nodes o) (blocked o)) deps.
Proof using Hok Ht.
  pose proof (ok_running _ _ _ Hok t Ht) as [Hlt Hd].
  destruct (lookup_lt_is_Some_2 (nodes o) t) as [nt Hnt]; [by rewrite (ok_len _ _ _ Hok)|].
  pose proof (ok_node _ _ _ Hok t nt Hnt) as Hn. unfold node_ok in Hn.
  rewrite decide_False in Hn by done. destruct Hn as (_ & _ & Hnd & Hdeps).
  exists (dependents nt). unfold complete. rewrite Hnt. simpl.
  set (ns := alter _ t (nodes o)).
  assert (Hself : ∀ j, j ∈ dependents nt → j ≠ t).
  { intros j Hj ->. apply Hdeps in Hj as [_ Hj]. by eapply (waiting_not_ran t), elem_of_union_r. }
  assert (Hns : ∀ j, j ≠ t → ns !! j = nodes o !! j).
  { intros j Hj. unfold ns. by rewrite list_lookup_alter_ne. }
  match goal with |- context [foldl release_dependent (?a, 0) _] => set (o0 := a) end.
  destruct (release_fold (dependents nt) o0 0 Hnd) as (H1 & H2 & H3 & H4 & H5 & H6).
  { intros j Hj. unfold o0. simpl. rewrite Hns by auto. apply lookup_lt_is_Some_2.
    rewrite (ok_len _ _ _ Hok). by apply Hdeps. }
  assert (Hf : ∀ j, j ∈ dependents nt → freed ns j = freed (nodes o) j).
  { intros j Hj. unfold freed. by rewrite Hns by auto. }
  split_and!; auto.
  - rewrite H3. apply length_alter.
  - intros j. rewrite H4. unfold o0. simpl. destruct (decide (j = t)) as [->|Hj].
    + unfold ns. rewrite list_lookup_alter_eq, Hnt. simpl.
      rewrite decide_False; [done|]. intros Hj. by apply Hself in Hj.
    + rewrite Hns by done. done.
  - intros j. rewrite H5. unfold o0. simpl. destruct (decide (j ∈ dependents nt)); [|done].
    by rewrite Hf.
  - rewrite H6. unfold o0. simpl. f_equal. apply list_omap_ext.
    apply Forall2_same_length_lookup_2; [done|]. intros i x y Hx Hy. simplify_eq.
    unfold promoted. rewrite Hf by (by eapply list_elem_of_lookup_2). done.
Qed.

Lemma freed_spec d :
  (d < length (txs h))%nat → t ∈ P d →
  freed (nodes o) d = true ↔ pending ({[t]} ∪ done h) (P d) = [].
Proof using Hok Ht.
  intros Hd Hp. pose proof (waiting_not_ran d Hp) as Hn.
  destruct (lookup_lt_is_Some_2 (nodes o) d) as [nd Hnd]; [by rewrite (ok_len _ _ _ Hok)|].
  pose proof (ok_node _ _ _ Hok d nd Hnd) as Hnode. unfold node_ok in Hnode.
  rewrite decide_False in Hnode by set_solver. destruct Hnode as (Hc & _).
  unfold freed. rewrite Hnd, Z.eqb_eq. pose proof (completed_pending d Hd) as Hl.
  rewrite decide_True in Hl by done. rewrite <- length_zero_iff_nil. lia.
Qed.

Lemma complete_node j nd :
  nodes (complete o t).1 !! j = Some nd → node_ok completed P j nd.
Proof using Hok Ht.
  destruct complete_facts as (deps & _ & Hdeps & _ & _ & _ & Hn & _ & _).
  rewrite Hn. intros (n0 & H0 & ->)%fmap_Some.
  pose proof (lookup_lt_Some _ _ _ H0) as Hj. rewrite (ok_len _ _ _ Hok) in Hj.
  pose proof (ok_node _ _ _ Hok j n0 H0) as Hnode. unfold node_ok in *. simpl.
  destruct (decide (j = t)) as [->|Hne]; [by rewrite decide_True by set_solver|].
  assert (E : j ∈ {[t]} ∪ done h ↔ j ∈ done h)
    by (rewrite elem_of_union, elem_of_singleton; naive_solver).
  rewrite (decide_ext _ _ _ _ E). destruct (decide (j ∈ done h)) as [Hd|Hd].
  - rewrite decide_False; [done|]. intros [_ Hp]%Hdeps.
    by eapply waiting_not_ran, elem_of_union_l.
  - destruct Hnode as (H1 & H2 & H3 & H4). pose proof (completed_pending j Hj) as Hc.
    destruct (decide (j ∈ deps)) as [Hin|Hin]; simpl.
    + rewrite decide_True in Hc by (by apply Hdeps). split_and!; auto; lia.
    + rewrite decide_False in Hc by (intros Hp; apply Hin, Hdeps; done). split_and!; auto; lia.
Qed.

Lemma complete_blocked j r :
  blocked (complete o t).1 !! j = Some r ↔
  txs h !! j = Some r ∧ (j ∉ {[t]} ∪ done h) ∧ pending ({[t]} ∪ done h) (P j) ≠ [].
Proof using Hok Ht.
  destruct complete_facts as (deps & _ & Hdeps & _ & _ & _ & _ & Hb & _).
  rewrite Hb. destruct (decide (j ∈ deps)) as [Hin|Hin].
  - apply Hdeps in Hin as [Hj Hp]. pose proof (freed_spec j Hj Hp) as Hf.
    pose proof (waiting_not_ran j Hp) as Hn. rewrite not_elem_of_union in Hn.
    assert (Hjt : j ≠ t) by naive_solver.
    destruct (freed (nodes o) j).
    + split; [done|]. intros (_ & _ & H). by destruct H; apply Hf.
    + rewrite (ok_blocked _ _ _ Hok), not_elem_of_union, not_elem_of_singleton.
      assert (pending (done h) (P j) ≠ []).
      { rewrite pending_nil. intros Hall. apply Hall in Hp.
        by apply (ok_running _ _ _ Hok) in Ht as [_ ?]. }
      assert (pending ({[t]} ∪ done h) (P j) ≠ []) by (intros E; by apply Hf in E). tauto.
  - rewrite (ok_blocked _ _ _ Hok), not_elem_of_union, not_elem_of_singleton.
    assert (Hp : txs h !! j = Some r → t ∉ P j).
    { intros Hj%lookup_lt_Some Hp. by apply Hin, Hdeps. }
    pose proof (ok_ran _ _ _ Hok t ltac:(by apply elem_of_union_r)) as Hrt.
    split.
    + intros (H1 & H2 & H3). rewrite completed_pending_other by auto. split_and!; auto. congruence.
    + intros (H1 & H2 & H3). rewrite completed_pending_other in H3 by auto. tauto.
Qed.

Lemma promoted_spec (deps : list Ticket) x :
  (∀ d, d ∈ deps ↔ (d < length (txs h))%nat ∧ t ∈ P d) →
  x ∈ omap (promoted (nodes o) (blocked o)) deps ↔
  txs h !! ticket x = Some (request x) ∧ t ∈ P (ticket x) ∧
  pending ({[t]} ∪ done h) (P (ticket x)) = [].
Proof using Hok Ht.
  intros Hdeps. rewrite list_elem_of_omap. split.
  - intros (d & Hd & Hx). pose proof Hd as [Hlt Hp]%Hdeps. pose proof (freed_spec d Hlt Hp) as Hf.
    unfold promoted in Hx. destruct (freed _ _); [|done].
    apply fmap_Some in Hx as (r & Hr & ->). apply (ok_blocked _ _ _ Hok) in Hr as (Hr & _).
    simpl. split_and!; auto. by apply Hf.
  - intros (H1 & H2 & H3). exists (ticket x). pose proof (lookup_lt_Some _ _ _ H1) as Hlt.
    split; [by apply Hdeps|]. unfold promoted. rewrite (proj2 (freed_spec _ Hlt H2) H3).
    pose proof (waiting_not_ran _ H2) as Hn. rewrite not_elem_of_union in Hn.
    assert (blocked o !! ticket x = Some (request x)) as ->.
    { apply (ok_blocked _ _ _ Hok). split_and!; [done|tauto|]. rewrite pending_nil. intros Hall.
      apply Hall in H2. by apply (ok_running _ _ _ Hok) in Ht as [_ ?]. }
    simpl. by destruct x.
Qed.

Lemma complete_ready x :
  x ∈ ready (complete o t).1 ↔
  txs h !! ticket x = Some (request x) ∧
  (ticket x ∉ ({[t]} ∪ done h) ∪ (running h ∖ {[t]})) ∧
  pending ({[t]} ∪ done h) (P (ticket x)) = [].
Proof using Hok Ht.
  destruct complete_facts as (deps & _ & Hdeps & _ & _ & _ & _ & _ & Hr).
  rewrite Hr, elem_of_app, (promoted_spec deps x Hdeps), (ok_ready _ _ _ Hok), ran_union.
  split.
  - intros [(H1 & H2 & H3)|(H1 & H2 & H3)]; split_and!; auto; [|by apply waiting_not_ran].
    rewrite pending_nil in *. set_solver.
  - intros (H1 & H2 & H3). destruct (decide (t ∈ P (ticket x))); [by right|left].
    by rewrite completed_pending_other in H3.
Qed.

Lemma complete_ready_nodup : NoDup (ready (complete o t).1).
Proof using Hok Ht.
  destruct complete_facts as (deps & Hnd & Hdeps & _ & _ & _ & _ & _ & Hr).
  rewrite Hr. apply NoDup_app. split_and!; [apply (ok_ready_nodup _ _ _ Hok)| |].
  - intros x (_ & _ & Hx)%(ok_ready _ _ _ Hok) (_ & Hp & _)%(promoted_spec deps x Hdeps).
    rewrite pending_nil in Hx. apply Hx in Hp. by apply (ok_running _ _ _ Hok) in Ht as [_ ?].
  - clear Hr Hdeps. induction Hnd as [|d deps Hd Hnd IH]; simpl; [constructor|].
    destruct (promoted _ _ d) as [x|] eqn:E; [|done]. constructor; [|done].
    intros (d' & Hd' & E')%list_elem_of_omap. unfold promoted in E, E'.
    destruct (freed _ d); [|done]. destruct (freed _ d'); [|done].
    apply fmap_Some in E as (? & _ & ->), E' as (? & _ & E'). by simplify_eq.
Qed.

Lemma frontier_mono l d d' k f : d ⊆ d' → frontier_ok l d k f → frontier_ok l d' k f.
Proof using Type.
  intros Hs [H1 H2 H3 H4]. split; auto.
Qed.

Lemma complete_ok : table_ok completed P (complete o t).1.
Proof using Hok Ht.
  pose proof (ok_running _ _ _ Hok t Ht) as [Hlt Htd].
  destruct complete_facts as (deps & _ & _ & Ha & Ho & Hl & _ & _ & _).
  split; simpl.
  - rewrite Hl. apply (ok_len _ _ _ Hok).
  - apply (ok_unique _ _ _ Hok).
  - intros j [->%elem_of_singleton|Hj]%elem_of_union; [done|]. by eapply ok_done.
  - intros j [Hj Hne]%elem_of_difference. apply (ok_running _ _ _ Hok) in Hj. set_solver.
  - apply (ok_edges _ _ _ Hok).
  - apply (ok_nodup _ _ _ Hok).
  - intros i j Hb. destruct (ok_cover _ _ _ Hok i j Hb); [left; set_solver|by right].
  - intros j nd. apply complete_node.
  - intros j. rewrite ran_union. intros Hj%(ok_ran _ _ _ Hok). rewrite pending_nil in *. set_solver.
  - intros j r. apply complete_blocked.
  - intros x. apply complete_ready.
  - apply complete_ready_nodup.
  - rewrite Ho, size_union, size_singleton, (ok_outstanding _ _ _ Hok) by set_solver. lia.
  - intros k. rewrite Ha. eapply frontier_mono, (ok_frontier _ _ _ Hok). set_solver.
Qed.

End complete.
End table.

Lemma empty_ok P : table_ok empty_history P empty_table.
Proof.
  split; simpl; try done; try set_solver; try lia.
  - intros i j Hb%before_lt. simpl in Hb. lia.
  - constructor.
  - intros k. unfold frontier_of. rewrite lookup_empty. simpl. split; simpl; try done.
    + by intros _ j (r & ? & _).
    + set_solver.
    + by intros x (r & ? & _).
Qed.

(** ** Runs *)

(** The calls the sequencer makes: requests with unique keys are registered while the arena
    has room, the queue's head is taken, dispatched tickets complete, and an empty table
    is reset. *)
Inductive order_step : OrderingTable * history → OrderingTable * history → Prop :=
| step_register o h r :
    unique_keys r → Z.of_nat (length (nodes o)) < COMPLETE →
    order_step (o, h)
      ((register o r).1, {| txs := txs h ++ [r]; done := done h; running := running h |})
| step_take o h x o' :
    take_ready o = Some (x, o') →
    order_step (o, h)
      (o', {| txs := txs h; done := done h; running := {[ticket x]} ∪ running h |})
| step_complete o h t :
    t ∈ running h →
    order_step (o, h)
      ((complete o t).1,
       {| txs := txs h; done := {[t]} ∪ done h; running := running h ∖ {[t]} |})
| step_reset o h :
    is_empty o = true → order_step (o, h) (reset o, empty_history).

Definition order_reachable (w : OrderingTable * history) : Prop :=
  rtc order_step (empty_table, empty_history) w.

Lemma reset_ok h P o : table_ok h P o → is_empty o = true → reset o = empty_table.
Proof. intros _ He. apply Z.eqb_eq in He. unfold reset. by rewrite He. Qed.

Lemma order_step_ok w w' :
  order_step w w' → (∃ P, table_ok w.2 P w.1) → ∃ P, table_ok w'.2 P w'.1.
Proof.
  intros Hs [P Hok]. destruct Hs as [o h r Hr Hroom|o h x o' Hx|o h t Ht|o h He]; simpl in *.
  - eexists. by eapply register_ok.
  - exists P. by apply (take_ready_ok h P o Hok x o').
  - exists P. by apply complete_ok.
  - exists (λ _, []). rewrite (reset_ok h P o) by done. apply empty_ok.
Qed.

Lemma reachable_ok w : order_reachable w → ∃ P, table_ok w.2 P w.1.
Proof.
  assert (H0 : ∃ P, table_ok (empty_table, empty_history).2 P (empty_table, empty_history).1).
  { exists (λ _, []). apply empty_ok. }
  intros H. revert H0. unfold order_reachable in H.
  induction H as [|x y z Hxy _ IH]; [done|]. intros H0. by eapply IH, order_step_ok.
Qed.

(** An empty table has every registered ticket completed. *)
Lemma all_done h P o j :
  table_ok h P o → is_empty o = true → (0 ≤ j < 0 + length (txs h))%nat → j ∈ done h.
Proof.
  intros Hok He Hj. apply Z.eqb_eq in He. rewrite (ok_outstanding _ _ _ Hok) in He.
  assert (E : done h = list_to_set (seq 0 (length (txs h)))).
  { apply set_subseteq_size_eq.
    - intros i Hi%(ok_done _ _ _ Hok). apply elem_of_list_to_set, elem_of_seq. lia.
    - rewrite size_list_to_set, length_seq by apply NoDup_seq. lia. }
  rewrite E, elem_of_list_to_set, elem_of_seq. lia.
Qed.

(** Every unfinished ticket is in exactly one place. *)
Lemma placed h P o j r :
  table_ok h P o → txs h !! j = Some r → j ∉ done h →
  (pending (done h) (P j) ≠ [] ∧ blocked o !! j = Some r) ∨
  (pending (done h) (P j) = [] ∧ (j ∉ running h) ∧ {| ticket := j; request := r |} ∈ ready o) ∨
  (pending (done h) (P j) = [] ∧ j ∈ running h).
Proof.
  intros Hok Hj Hd. destruct (decide (pending (done h) (P j) = [])) as [E|E].
  - right. destruct (decide (j ∈ running h)); [by right|left]. split_and!; auto.
    apply (ok_ready _ _ _ Hok). simpl. set_solver.
  - left. split; [done|]. by apply (ok_blocked _ _ _ Hok).
Qed.

Lemma pending_conflicts h P o j :
  table_ok h P o → (j < length (txs h))%nat → j ∉ done h →
  pending (done h) (P j) ≠ [] ↔ ∃ i, before (txs h) i j ∧ i ∉ done h.
Proof.
  intros Hok Hj Hd. split.
  - intros Hne. destruct (pending (done h) (P j)) as [|i l] eqn:E; [done|].
    assert (Hi : i ∈ pending (done h) (P j)) by (rewrite E; left).
    apply pending_elem in Hi as [Hi Hid]. exists i. split; [|done]. by eapply ok_edges.
  - intros (i & Hb & Hid) E. rewrite pending_nil in E.
    destruct (ok_cover _ _ _ Hok i j Hb) as [?|(p & Hp & Hor)]; [done|].
    pose proof (E p Hp) as Hpd. destruct Hor as [->|Hip]; [done|].
    apply Hid. eapply conflicts_done; [done| |done]. by apply elem_of_union_l.
Qed.

(** Two running transactions never conflict. *)
Lemma running_no_conflict h P o t t' r r' :
  table_ok h P o → t ∈ running h → t' ∈ running h → t ≠ t' →
  txs h !! t = Some r → txs h !! t' = Some r' → ¬ conflict r r'.
Proof.
  intros Hok Ht Ht' Hne Hr Hr' Hc.
  pose proof (ok_running _ _ _ Hok _ Ht) as [_ Hd]. pose proof (ok_running _ _ _ Hok _ Ht') as [_ Hd'].
  destruct (decide (t < t')%nat).
  - apply Hd. eapply (conflicts_done h P o Hok t t'); [by apply elem_of_union_r|].
    split; [done|]. eauto 10.
  - apply Hd'. eapply (conflicts_done h P o Hok t' t); [by apply elem_of_union_r|].
    split; [lia|]. exists r', r. split_and!; auto. by apply conflict_sym.
Qed.

(** The earliest unfinished ticket is never blocked. *)
Lemma least_unfinished h P o :
  table_ok h P o → 0 < outstanding o →
  ∃ j r, txs h !! j = Some r ∧ (j ∉ done h) ∧ pending (done h) (P j) = [].
Proof.
  intros Hok Ho. rewrite (ok_outstanding _ _ _ Hok) in Ho.
  assert (Hex : ∃ j, j ∈ seq 0 (length (txs h)) ∧ j ∉ done h).
  { destruct (decide (Exists (λ j, j ∉ done h) (seq 0 (length (txs h))))) as [He|Hn].
    { apply Exists_exists in He. naive_solver. }
    exfalso. assert (Hsub : list_to_set (seq 0 (length (txs h))) ⊆ done h).
    { intros j. rewrite elem_of_list_to_set. intros Hj.
      destruct (decide (j ∈ done h)); [done|]. destruct Hn. apply Exists_exists. eauto. }
    apply subseteq_size in Hsub. rewrite size_list_to_set, length_seq in Hsub by apply NoDup_seq.
    lia. }
  destruct Hex as (j0 & Hj0 & Hd0). revert Hj0 Hd0.
  induction (lt_wf j0) as [j _ IH]. intros Hj Hd. apply elem_of_seq in Hj.
  destruct (lookup_lt_is_Some_2 (txs h) j) as [r Hr]; [lia|].
  destruct (decide (pending (done h) (P j) = [])) as [E|E]; [by exists j, r|].
  apply (pending_conflicts h P o) in E as (i & Hb & Hi); [|done|lia|done].
  apply before_lt in Hb. apply (IH i); [lia|apply elem_of_seq; lia|done].
Qed.

(** ** Properties *)

(** C30. Conflicting transactions run in input order: whatever the interleaving of
    registrations, dispatches, completions and resets, a ticket that has been dispatched or
    completed has every earlier conflicting ticket of its epoch completed before it. *)
Theorem conflicts_follow_input_order o h i j :
  order_reachable (o, h) → j ∈ done h ∪ running h → before (txs h) i j → i ∈ done h.
Proof. intros [P Hok]%reachable_ok. by eapply (conflicts_done h P o Hok). Qed.

(** Blocking is exact: an unfinished ticket waits in the blocked map, with its own
    request, if and only if some earlier conflicting ticket is unfinished; otherwise it is
    running or queued as ready, so no parallelism is lost. *)
Theorem blocked_iff_conflict_pending o h j r :
  order_reachable (o, h) → txs h !! j = Some r → j ∉ done h →
  (blocked o !! j = Some r ↔ ∃ i, before (txs h) i j ∧ i ∉ done h) ∧
  (blocked o !! j = None ↔ j ∈ running h ∨ {| ticket := j; request := r |} ∈ ready o).
Proof.
  intros [P Hok]%reachable_ok Hj Hd. simpl in Hok.
  pose proof (lookup_lt_Some _ _ _ Hj) as Hlt.
  rewrite <- (pending_conflicts h P o j Hok Hlt Hd).
  destruct (placed h P o j r Hok Hj Hd) as [[H1 H2]|[(H1 & H2 & H3)|[H1 H2]]].
  - split; [done|]. rewrite H2. split; [done|]. intros [Hr|Hr].
    + apply (elem_of_union_r j (done h)) in Hr. by apply (ok_ran _ _ _ Hok) in Hr.
    + apply (ok_ready _ _ _ Hok) in Hr as (_ & _ & ?). done.
  - assert (blocked o !! j ≠ Some r) as Hb.
    { intros Hb. apply (ok_blocked _ _ _ Hok) in Hb as (_ & _ & ?). done. }
    split; [naive_solver|]. split; [by right|]. intros _. apply eq_None_not_Some.
    intros [r' Hr']. pose proof Hr' as (Hr'' & _)%(ok_blocked _ _ _ Hok). congruence.
  - assert (blocked o !! j = None) as Hb.
    { apply eq_None_not_Some. intros [r' Hb]. by apply (ok_blocked _ _ _ Hok) in Hb as (_ & _ & ?). }
    rewrite Hb. naive_solver.
Qed.

(** C35. No deadlock: while registered work is outstanding, some ticket is running or ready
    to be dispatched, and the counter is the exact number of unfinished tickets. *)
Theorem outstanding_work_progresses o h :
  order_reachable (o, h) →
  outstanding o = Z.of_nat (length (txs h)) - Z.of_nat (size (done h)) ∧
  (0 < outstanding o → running h ≠ ∅ ∨ ready o ≠ []).
Proof.
  intros [P Hok]%reachable_ok. simpl in Hok. split; [apply (ok_outstanding _ _ _ Hok)|].
  intros Ho. destruct (least_unfinished h P o Hok Ho) as (j & r & Hj & Hd & Hp).
  destruct (placed h P o j r Hok Hj Hd) as [[H1 _]|[(_ & _ & H3)|[_ H2]]]; [done| |].
  - right. intros E. rewrite E in H3. by apply elem_of_nil in H3.
  - left. set_solver.
Qed.

(** The arena is used safely: completing a running ticket meets every assertion of the
    code. The ticket is in the arena and not yet complete, the outstanding counter is
    positive, and each dependent is a later, incomplete arena node with a positive count,
    so no index is out of range, no counter underflows and none reaches the sentinel. *)
Theorem completion_assertions_hold o h t n :
  order_reachable (o, h) → t ∈ running h → nodes o !! t = Some n →
  predecessors n ≠ COMPLETE ∧ 0 < outstanding o ∧
  ∀ d, d ∈ dependents n → (t < d)%nat ∧
    ∃ nd, nodes o !! d = Some nd ∧ predecessors nd ≠ COMPLETE ∧ 0 < predecessors nd.
Proof.
  intros [P Hok]%reachable_ok Ht Hn. simpl in Hok.
  pose proof (ok_running _ _ _ Hok t Ht) as [Hlt Hd].
  pose proof (ok_node _ _ _ Hok t n Hn) as Hnode. unfold node_ok in Hnode.
  rewrite decide_False in Hnode by done. destruct Hnode as (H1 & H2 & H3 & H4).
  split; [lia|]. split.
  { rewrite (ok_outstanding _ _ _ Hok). assert (size ({[t]} ∪ done h) ≤ length (txs h))%nat as Hs.
    { rewrite <- (length_seq (length (txs h)) 0), <- (size_list_to_set (C := gset nat)) by apply NoDup_seq.
      apply subseteq_size. intros j. rewrite elem_of_list_to_set, elem_of_seq, elem_of_union,
        elem_of_singleton. intros [->|Hj%(ok_done _ _ _ Hok)]; lia. }
    rewrite size_union, size_singleton in Hs by set_solver. lia. }
  intros d [Hdl Hdp]%H4. pose proof (ok_edges _ _ _ Hok t d Hdl Hdp) as Hb%before_lt.
  split; [lia|]. destruct (lookup_lt_is_Some_2 (nodes o) d) as [nd Hnd];
    [by rewrite (ok_len _ _ _ Hok)|].
  exists nd. split; [done|]. pose proof (ok_node _ _ _ Hok d nd Hnd) as Hnode. unfold node_ok in Hnode.
  pose proof (waiting_not_ran h P o Hok t Ht d Hdp) as Hnr. rewrite not_elem_of_union in Hnr.
  rewrite decide_False in Hnode by tauto. destruct Hnode as (I1 & I2 & _). split; [lia|].
  assert (Hin : t ∈ pending (done h) (P d)) by (by apply pending_elem).
  destruct (pending (done h) (P d)); [by apply elem_of_nil in Hin|]. simpl in I1. lia.
Qed.

(** Witnesses: [X(A) -> Y(A, B) -> Z(B)] of the module comment, with [X] dispatched. *)
Definition ex_x : ExecutionRequest := {| account_keys := [([1], true)]; first_signature := [1] |}.
Definition ex_y : ExecutionRequest :=
  {| account_keys := [([1], true); ([2], true)]; first_signature := [2] |}.
Definition ex_z : ExecutionRequest := {| account_keys := [([2], false)]; first_signature := [3] |}.

Definition ex_table : OrderingTable :=
  (register (register (register empty_table ex_x).1 ex_y).1 ex_z).1.
Definition ex_dispatched : OrderingTable :=
  match take_ready ex_table with Some (_, o) => o | None => ex_table end.
Definition ex_history : history :=
  {| txs := [ex_x; ex_y; ex_z]; done := ∅; running := {[0%nat]} ∪ ∅ |}.

Lemma ex_unique : unique_keys ex_x ∧ unique_keys ex_y ∧ unique_keys ex_z.
Proof.
  unfold unique_keys. split_and!; simpl; repeat (apply NoDup_cons; split); try apply NoDup_nil_2;
    rewrite ?list_elem_of_singleton; intros H; try discriminate H; by apply elem_of_nil in H.
Qed.

Lemma ex_reachable : order_reachable (ex_dispatched, ex_history).
Proof.
  destruct ex_unique as (H1 & H2 & H3).
  eapply rtc_l; [apply (step_register _ _ ex_x H1); vm_compute; reflexivity|].
  eapply rtc_l; [apply (step_register _ _ ex_y H2); vm_compute; reflexivity|].
  eapply rtc_l; [apply (step_register _ _ ex_z H3); vm_compute; reflexivity|].
  eapply rtc_l; [|apply rtc_refl].
  apply (step_take ex_table {| txs := [ex_x; ex_y; ex_z]; done := ∅; running := ∅ |}
           {| ticket := 0%nat; request := ex_x |} ex_dispatched).
  vm_compute. reflexivity.
Qed.

Lemma ex_completed :
  order_reachable ((complete ex_dispatched 0).1,
    {| txs := txs ex_history; done := {[0%nat]} ∪ done ex_history;
       running := running ex_history ∖ {[0%nat]} |}).
Proof.
  eapply rtc_r; [exact ex_reachable|]. apply step_complete. simpl. set_solver.
Qed.

Lemma ex_before : before [ex_x; ex_y; ex_z] 0 1.
Proof.
  split; [lia|]. exists ex_x, ex_y. split_and!; auto. exists [1], true, true.
  split_and!; [left|left|done].
Qed.

Lemma conflicts_follow_input_order_witness :
  (blocked ex_dispatched !! 1%nat = Some ex_y ∧
   1%nat ∉ done ex_history ∪ running ex_history).
Proof.
  split; [vm_compute; reflexivity|]. intros H.
  pose proof (conflicts_follow_input_order ex_dispatched ex_history 0 1 ex_reachable H ex_before) as Hd.
  simpl in Hd. set_solver.
Defined.

Lemma blocked_iff_conflict_pending_witness :
  blocked ex_dispatched !! 1%nat = Some ex_y ∧
  ∃ i, before [ex_x; ex_y; ex_z] i 1 ∧ i ∉ done ex_history.
Proof.
  destruct (blocked_iff_conflict_pending ex_dispatched ex_history 1 ex_y ex_reachable eq_refl)
    as [H _]; [simpl; set_solver|].
  split; [vm_compute; reflexivity|]. apply H. vm_compute. reflexivity.
Defined.

Lemma outstanding_work_progresses_witness :
  let o := (complete ex_dispatched 0).1 in outstanding o = 2 ∧ (running ex_history ∖ {[0%nat]} ≠ ∅ ∨ ready o ≠ []).
Proof.
  destruct (outstanding_work_progresses _ _ ex_completed) as [H1 H2].
  split; [vm_compute; reflexivity|]. apply H2. vm_compute. reflexivity.
Defined.

Lemma completion_assertions_hold_witness :
  0 < outstanding ex_dispatched ∧
  ∃ nd, nodes ex_dispatched !! 1%nat = Some nd ∧ predecessors nd ≠ COMPLETE ∧ 0 < predecessors nd.
Proof.
  destruct (completion_assertions_hold ex_dispatched ex_history 0
    {| predecessors := 0; dependents := [1%nat] |} ex_reachable) as (_ & H1 & H2).
  - simpl. set_solver.
  - vm_compute. reflexivity.
  - split; [exact H1|]. apply H2. left.
Defined.
