(* ===== verification/Serial.v ===== *)
(** * Parallel execution is equivalent to the input order

    The executors of the sequencer load the accounts of a dispatched transaction, execute
    it and write its writable accounts back, all between the dispatch and the completion of
    its ticket and interleaved with each other. Under the ordering table the store they
    leave is the one sequential execution in input order leaves. *)

From stdpp Require Import base list gmap numbers option relations.
From S2P Require Import Prelude Order OrderFacts.

Local Open Scope Z_scope.

(** ** Written transactions, in input order *)

Fixpoint select (i : Ticket) (c : gset Ticket) (l : list ExecutionRequest)
    : list ExecutionRequest :=
  match l with
  | [] => []
  | r :: l => (if decide (i ∈ c) then [r] else []) ++ select (S i) c l
  end.

Lemma select_ext i c c' l :
  (∀ j, (i ≤ j < i + length l)%nat → j ∈ c ↔ j ∈ c') → select i c l = select i c' l.
Proof.
  revert i. induction l as [|r l IH]; intros i H; simpl; [done|]. f_equal.
  - assert (E : i ∈ c ↔ i ∈ c') by (apply H; simpl; lia). by rewrite (decide_ext _ _ _ _ E).
  - apply IH. intros j Hj. apply H. simpl. lia.
Qed.

Lemma select_snoc i c l r :
  (i + length l)%nat ∉ c → select i c (l ++ [r]) = select i c l.
Proof.
  revert i. induction l as [|r' l IH]; intros i H; simpl in *.
  - rewrite Nat.add_0_r in H. by rewrite decide_False.
  - f_equal. apply IH. by replace (S i + length l)%nat with (i + S (length l))%nat by lia.
Qed.

Lemma select_all i c l :
  (∀ j, (i ≤ j < i + length l)%nat → j ∈ c) → select i c l = l.
Proof.
  revert i. induction l as [|r l IH]; intros i H; simpl; [done|].
  rewrite decide_True by (apply H; simpl; lia). simpl. f_equal.
  apply IH. intros j Hj. apply H. simpl. lia.
Qed.

Lemma select_elem i c l r :
  r ∈ select i c l → ∃ j, l !! j = Some r ∧ (i + j)%nat ∈ c.
Proof.
  revert i. induction l as [|r' l IH]; intros i; simpl; [by intros ?%elem_of_nil|].
  rewrite elem_of_app. intros [Hr|Hr].
  - destruct (decide (i ∈ c)); [|by apply elem_of_nil in Hr].
    apply list_elem_of_singleton in Hr as ->. exists 0%nat. by rewrite Nat.add_0_r.
  - destruct (IH _ Hr) as (j & Hj & Hc). exists (S j).
    by replace (i + S j)%nat with (S i + j)%nat by lia.
Qed.

Lemma select_insert i c l j r :
  l !! j = Some r → (i + j)%nat ∉ c →
  ∃ l1 l2, select i c l = l1 ++ l2 ∧ select i ({[(i + j)%nat]} ∪ c) l = l1 ++ r :: l2 ∧
           ∀ r', r' ∈ l2 → ∃ j', (j < j')%nat ∧ l !! j' = Some r' ∧ (i + j')%nat ∈ c.
Proof.
  revert i j. induction l as [|r0 l IH]; intros i j Hj Hn; [done|]. destruct j as [|j].
  - simpl in Hj. simplify_eq. rewrite Nat.add_0_r in *. exists [], (select (S i) c l).
    simpl. rewrite decide_False, decide_True by set_solver. simpl. split_and!; auto.
    + f_equal. apply select_ext. intros j Hj. rewrite elem_of_union, elem_of_singleton. naive_solver lia.
    + intros r' Hr'. apply select_elem in Hr' as (j' & Hj' & Hc). exists (S j').
      split_and!; [lia|done|]. by replace (i + S j')%nat with (S i + j')%nat by lia.
  - simpl in Hj. destruct (IH (S i) j Hj) as (l1 & l2 & H1 & H2 & H3).
    { by replace (S i + j)%nat with (i + S j)%nat by lia. }
    exists ((if decide (i ∈ c) then [r0] else []) ++ l1), l2.
    replace (S i + j)%nat with (i + S j)%nat in H2 by lia. simpl. rewrite H1, H2.
    assert (E : i ∈ {[(i + S j)%nat]} ∪ c ↔ i ∈ c).
    { rewrite elem_of_union, elem_of_singleton. naive_solver lia. }
    rewrite (decide_ext _ _ _ _ E), <- !app_assoc. split_and!; auto.
    intros r' Hr'. destruct (H3 _ Hr') as (j' & ? & ? & ?). exists (S j').
    split_and!; [lia|done|]. by replace (i + S j')%nat with (S i + j')%nat by lia.
Qed.

Section serial.
Context {V : Type}.

(** Execution of one transaction on account states, by the SVM. *)
Context (exec : ExecutionRequest → (Key → V) → Key → V).

(** A transaction reads only the accounts it declares. *)
Hypothesis exec_local : ∀ r s s' k,
  (∀ k' w, (k', w) ∈ account_keys r → s k' = s' k') → exec r s k = exec r s' k.

Abbreviation Store := (Key → V).

(** Write-back of an execution that ran on [snap]. *)
Definition write_back (r : ExecutionRequest) (snap s : Store) : Store :=
  λ k, if bool_decide ((k, true) ∈ account_keys r) then exec r snap k else s k.

(** Sequential execution, the specification. *)
Definition execute (s : Store) (r : ExecutionRequest) : Store := write_back r s s.
Definition sequentially (s : Store) (l : list ExecutionRequest) : Store := foldl execute s l.

(** Where an executor is with its transaction. *)
Inductive Phase := Dispatched | Loaded (snap : Store) | Written.

Record world := {
  table : OrderingTable;
  hist : history;
  store : Store;
  phase : Ticket → Phase;
  past : list ExecutionRequest;
}.

Definition set_phase (f : Ticket → Phase) (t : Ticket) (p : Phase) : Ticket → Phase :=
  λ j, if decide (j = t) then p else f j.

Inductive exec_step : world → world → Prop :=
| exec_register o h s f l r :
    unique_keys r → Z.of_nat (length (nodes o)) < COMPLETE →
    exec_step (Build_world o h s f l)
      (Build_world (register o r).1
         {| txs := txs h ++ [r]; done := done h; running := running h |} s f l)
| exec_dispatch o h s f l x o' :
    take_ready o = Some (x, o') →
    exec_step (Build_world o h s f l)
      (Build_world o' {| txs := txs h; done := done h; running := {[ticket x]} ∪ running h |}
         s (set_phase f (ticket x) Dispatched) l)
| exec_load o h s f l t :
    t ∈ running h → f t = Dispatched →
    exec_step (Build_world o h s f l) (Build_world o h s (set_phase f t (Loaded s)) l)
| exec_write o h s f l t r snap :
    t ∈ running h → f t = Loaded snap → txs h !! t = Some r →
    exec_step (Build_world o h s f l)
      (Build_world o h (write_back r snap s) (set_phase f t Written) l)
| exec_complete o h s f l t :
    t ∈ running h → f t = Written →
    exec_step (Build_world o h s f l)
      (Build_world (complete o t).1
         {| txs := txs h; done := {[t]} ∪ done h; running := running h ∖ {[t]} |} s f l)
| exec_reset o h s f l :
    is_empty o = true →
    exec_step (Build_world o h s f l)
      (Build_world (reset o) empty_history s f (l ++ txs h)).

Definition initial (s : Store) : world :=
  Build_world empty_table empty_history s (λ _, Dispatched) [].

(** ** Commutation *)

Definition eqs (s s' : Store) : Prop := ∀ k, s k = s' k.

#[local] Instance eqs_equiv : Equivalence eqs.
Proof using Type.
  split; unfold eqs; [by intros s k|by intros s s' H k|by intros s1 s2 s3 H1 H2 k; rewrite H1].
Qed.

Lemma execute_in r s k : (k, true) ∈ account_keys r → execute s r k = exec r s k.
Proof using Type. intros H. unfold execute, write_back. by rewrite bool_decide_eq_true_2. Qed.

Lemma execute_out r s k : (k, true) ∉ account_keys r → execute s r k = s k.
Proof using Type. intros H. unfold execute, write_back. by rewrite bool_decide_eq_false_2. Qed.

#[local] Instance execute_proper : Proper (eqs ==> eq ==> eqs) execute.
Proof using exec_local.
  intros s s' Hs r r' <- k. destruct (decide ((k, true) ∈ account_keys r)).
  - rewrite !execute_in by done. apply exec_local. intros. apply Hs.
  - rewrite !execute_out by done. apply Hs.
Qed.

#[local] Instance sequentially_proper : Proper (eqs ==> eq ==> eqs) sequentially.
Proof using exec_local.
  intros s s' Hs l l' <-. revert s s' Hs. induction l as [|r l IH]; intros s s' Hs; [done|].
  apply IH. by rewrite Hs.
Qed.

Lemma execute_commute_at r1 r2 s k :
  ¬ conflict r1 r2 → (k, true) ∈ account_keys r1 →
  execute (execute s r1) r2 k = execute (execute s r2) r1 k.
Proof using exec_local.
  intros Hc Hk.
  assert (H2 : ∀ k' w, (k', w) ∈ account_keys r1 → (k', true) ∉ account_keys r2).
  { intros k' w H1 H2. apply Hc. exists k', w, true. by rewrite orb_true_r. }
  rewrite execute_out by eauto. rewrite !execute_in by done. apply exec_local.
  intros k' w Hk'. by rewrite execute_out by eauto.
Qed.

Lemma execute_commute r1 r2 s :
  ¬ conflict r1 r2 → eqs (execute (execute s r1) r2) (execute (execute s r2) r1).
Proof using exec_local.
  intros Hc k. destruct (decide ((k, true) ∈ account_keys r1)) as [H1|H1].
  { by apply execute_commute_at. }
  destruct (decide ((k, true) ∈ account_keys r2)) as [H2|H2].
  { symmetry. apply execute_commute_at; [|done]. by intros ?%conflict_sym. }
  by rewrite !execute_out.
Qed.

Lemma sequentially_commute r l s :
  Forall (λ r', ¬ conflict r r') l →
  eqs (sequentially (execute s r) l) (execute (sequentially s l) r).
Proof using exec_local.
  intros Hl. revert s. induction Hl as [|r' l Hr _ IH]; intros s; [done|]. simpl.
  rewrite <- IH. unfold sequentially. simpl. fold (sequentially (execute (execute s r) r') l).
  fold (sequentially (execute (execute s r') r) l). by rewrite execute_commute.
Qed.

(** Adding one selected transaction to the sequence, when it conflicts with none of the
    later selected ones, is executing it last. *)
Lemma sequentially_insert r l1 l2 s :
  Forall (λ r', ¬ conflict r r') l2 →
  eqs (sequentially s (l1 ++ r :: l2)) (execute (sequentially s (l1 ++ l2)) r).
Proof using exec_local.
  intros Hl. unfold sequentially. rewrite !foldl_app. simpl. by apply sequentially_commute.
Qed.

Definition is_written (p : Phase) : bool := match p with Written => true | _ => false end.

Definition written (h : history) (f : Ticket → Phase) : gset Ticket :=
  done h ∪ filter (λ t, is_written (f t) = true) (running h).

Lemma elem_written h f t :
  t ∈ written h f ↔ t ∈ done h ∨ (t ∈ running h ∧ is_written (f t) = true).
Proof using Type. unfold written. rewrite elem_of_union, elem_of_filter. naive_solver. Qed.

Lemma set_phase_eq f t p : set_phase f t p t = p.
Proof using Type. unfold set_phase. by rewrite decide_True. Qed.

Lemma set_phase_ne f t p j : j ≠ t → set_phase f t p j = f j.
Proof using Type. intros. unfold set_phase. by rewrite decide_False. Qed.

(** ** Invariant *)

Record serial_ok (s0 : Store) (w : world) : Prop := {
  so_table : ∃ P, table_ok (hist w) P (table w);
  so_store : eqs (store w)
    (sequentially s0 (past w ++ select 0 (written (hist w) (phase w)) (txs (hist w))));
  so_loaded t snap r k b :
    t ∈ running (hist w) → phase w t = Loaded snap → txs (hist w) !! t = Some r →
    (k, b) ∈ account_keys r → snap k = store w k;
}.

Lemma write_ok s0 o h s f l t r snap :
  serial_ok s0 (Build_world o h s f l) →
  t ∈ running h → f t = Loaded snap → txs h !! t = Some r →
  serial_ok s0 (Build_world o h (write_back r snap s) (set_phase f t Written) l).
Proof using exec_local.
  intros [[P Hok] Hs Hl] Ht Hf Hr. simpl in *.
  assert (Hsnap : eqs (write_back r snap s) (execute s r)).
  { intros k. unfold execute, write_back. destruct (bool_decide _); [|done].
    apply exec_local. intros k' w Hk. by eapply Hl. }
  pose proof (ok_running _ _ _ Hok t Ht) as [_ Hd].
  split; simpl; [by exists P| |].
  - destruct (select_insert 0 (written h f) (txs h) t r Hr) as (l1 & l2 & H1 & H2 & H3).
    { simpl. rewrite elem_written, Hf. naive_solver. }
    simpl in H2. assert (E : written h (set_phase f t Written) = {[t]} ∪ written h f).
    { apply set_eq. intros j. rewrite elem_of_union, elem_of_singleton, !elem_written.
      destruct (decide (j = t)) as [->|]; [rewrite set_phase_eq|rewrite set_phase_ne by done]; simpl; tauto. }
    rewrite E, H2, Hsnap, app_assoc, sequentially_insert, <- app_assoc, <- H1, <- Hs; [done|].
    apply Forall_forall. intros r' (j' & Hlt & Hj' & Hw)%H3 Hc. apply Hd.
    eapply (conflicts_done h P o Hok t j'); [|by split; [done|]; eauto 10].
    apply elem_written in Hw. set_solver.
  - intros t' snap' r' k b Ht' Hf' Hr' Hk. destruct (decide (t' = t)) as [->|Hne].
    { by rewrite set_phase_eq in Hf'. }
    rewrite set_phase_ne in Hf' by done. rewrite (Hl t' snap' r' k b Ht' Hf' Hr' Hk).
    unfold write_back. rewrite bool_decide_eq_false_2; [done|]. intros Hk'.
    eapply (running_no_conflict h P o t t'); eauto. exists k, true, b. done.
Qed.

Lemma exec_step_ok s0 w w' : exec_step w w' → serial_ok s0 w → serial_ok s0 w'.
Proof using exec_local.
  intros Hst Hw. destruct Hst as [o h s f l r Hr Hroom|o h s f l x o' Hx|o h s f l t Ht Hf
    |o h s f l t r snap Ht Hf Hr|o h s f l t Ht Hf|o h s f l He].
  4: { by eapply write_ok. }
  all: destruct Hw as [[P Hok] Hs Hl]; simpl in *.
  - split; simpl; [eexists; by eapply register_ok| |].
    + rewrite select_snoc; [done|]. simpl. rewrite elem_written.
      intros [H%(ok_done _ _ _ Hok)|[[H _]%(ok_running _ _ _ Hok) _]]; lia.
    + intros t snap r' k b Ht Hf Hr'. apply lookup_snoc_Some in Hr' as [[_ Hr']|[E _]]; [by eapply Hl|].
      apply (ok_running _ _ _ Hok) in Ht. lia.
  - destruct (take_ready_ok h P o Hok x o' Hx) as (Hok' & Htx & Hn). rewrite not_elem_of_union in Hn.
    split; simpl; [by exists P| |].
    + etransitivity; [exact Hs|]. apply reflexive_eq. do 2 f_equal. apply select_ext. intros j _.
      rewrite !elem_written. simpl. rewrite elem_of_union, elem_of_singleton.
      destruct (decide (j = ticket x)) as [->|]; [rewrite set_phase_eq|rewrite set_phase_ne by done];
        simpl; naive_solver.
    + intros t snap r k b Ht Hf. destruct (decide (t = ticket x)) as [->|].
      * by rewrite set_phase_eq in Hf.
      * rewrite set_phase_ne in Hf by done. apply (Hl t); set_solver.
  - split; simpl; [by exists P| |].
    + etransitivity; [exact Hs|]. apply reflexive_eq. do 2 f_equal. apply select_ext. intros j _. rewrite !elem_written.
      destruct (decide (j = t)) as [->|]; [rewrite set_phase_eq, Hf|rewrite set_phase_ne by done]; done.
    + intros t' snap r k b Ht' Hf'. destruct (decide (t' = t)) as [->|].
      * rewrite set_phase_eq in Hf'. by simplify_eq.
      * rewrite set_phase_ne in Hf' by done. by apply (Hl t').
  - split; simpl; [exists P; by apply complete_ok| |].
    + etransitivity; [exact Hs|]. apply reflexive_eq. do 2 f_equal. apply select_ext. intros j _.
      rewrite !elem_written. simpl. destruct (decide (j = t)) as [->|]; [rewrite Hf; set_solver|set_solver].
    + intros t' snap r k b Ht' Hf'. apply (Hl t'); set_solver.
  - split; simpl; [exists (λ _, []); rewrite (reset_ok h P o) by done; apply empty_ok| |set_solver].
    rewrite app_nil_r. etransitivity; [exact Hs|]. apply reflexive_eq. do 2 f_equal. apply select_all. intros j Hj.
    apply elem_written. left. by eapply (all_done h P o).
Qed.

End serial.

Arguments Dispatched {V}.
Arguments Loaded {V} snap.
Arguments Written {V}.

Lemma exec_reachable_ok {V} exec
    (exec_local : ∀ r s s' k,
       (∀ k' w, (k', w) ∈ account_keys r → s k' = s' k') → exec r s k = exec r s' k)
    (s0 : Key → V) w :
  rtc (exec_step exec) (initial s0) w → serial_ok exec s0 w.
Proof.
  assert (H0 : serial_ok exec s0 (initial s0)).
  { split; simpl; [exists (λ _, []); apply empty_ok|done|set_solver]. }
  intros H. revert H0. induction H as [|x y z Hxy _ IH]; [done|]. intros Hx.
  by eapply IH, exec_step_ok.
Qed.

(** ** Property *)

(** C1. Serializability: however dispatches, loads, write-backs and completions of the
    executors interleave, over any number of drained epochs, the account store is at every
    moment the one that executing the already written transactions one by one in input
    order produces; once the table is empty it is the store of the whole input executed
    sequentially. *)
Theorem parallel_equals_sequential {V} exec
    (exec_local : ∀ r s s' k,
       (∀ k' w, (k', w) ∈ account_keys r → s k' = s' k') → exec r s k = exec r s' k)
    (s0 : Key → V) w :
  rtc (exec_step exec) (initial s0) w →
  (∀ k, store w k =
        sequentially exec s0 (past w ++ select 0 (written (hist w) (phase w)) (txs (hist w))) k) ∧
  (is_empty (table w) = true →
   ∀ k, store w k = sequentially exec s0 (past w ++ txs (hist w)) k).
Proof.
  intros Hr. destruct (exec_reachable_ok exec exec_local s0 w Hr) as [[P Hok] Hs _].
  split; [exact Hs|]. intros He k. rewrite (Hs k), select_all; [done|].
  intros j Hj. apply elem_written. left. by eapply all_done.
Qed.

(** Witness: two disjoint transfers dispatched together, written back out of order. *)
Definition ex_exec (r : ExecutionRequest) (s : Key → Z) (k : Key) : Z :=
  foldr Z.add (Z.of_nat (length (first_signature r))) ((λ a, s a.1) <$> account_keys r).
Definition ex_a : ExecutionRequest :=
  {| account_keys := [([1], true); ([3], false)]; first_signature := [1] |}.
Definition ex_b : ExecutionRequest :=
  {| account_keys := [([2], true); ([3], false)]; first_signature := [1; 1] |}.

Lemma ex_exec_local r s s' k :
  (∀ k' w, (k', w) ∈ account_keys r → s k' = s' k') → ex_exec r s k = ex_exec r s' k.
Proof.
  intros H. unfold ex_exec. f_equal. apply list_fmap_ext. intros i [k' w] Hi.
  eapply H, list_elem_of_lookup_2, Hi.
Qed.

Definition ex_tables : OrderingTable := (register (register empty_table ex_a).1 ex_b).1.
Definition ex_take (o : OrderingTable) : OrderingTable :=
  match take_ready o with Some (_, o) => o | None => o end.

Definition ex_final : world :=
  let s0 : Key → Z := λ _, 5 in
  let f := set_phase (set_phase (set_phase (set_phase (set_phase (set_phase
             (λ _, Dispatched) 0 Dispatched) 1 Dispatched) 0 (Loaded s0)) 1 (Loaded s0))
             1 Written) 0 Written in
  {| table := (complete (complete (ex_take (ex_take ex_tables)) 1).1 0).1;
     hist := {| txs := [ex_a; ex_b];
                done := {[0%nat]} ∪ ({[1%nat]} ∪ ∅);
                running := (({[1%nat]} ∪ ({[0%nat]} ∪ ∅)) ∖ {[1%nat]}) ∖ {[0%nat]} |};
     store := write_back ex_exec ex_a s0 (write_back ex_exec ex_b s0 s0);
     phase := f; past := [] |}.

Lemma ex_unique_keys : unique_keys ex_a ∧ unique_keys ex_b.
Proof.
  split; (apply NoDup_cons; split; [rewrite list_elem_of_singleton; discriminate|apply NoDup_singleton]).
Qed.

Lemma ex_run : rtc (exec_step ex_exec) (initial (λ _, 5)) ex_final.
Proof.
  destruct ex_unique_keys as [Ha Hb].
  eapply rtc_l; [apply (exec_register _ _ _ _ _ _ ex_a Ha); vm_compute; reflexivity|].
  eapply rtc_l; [apply (exec_register _ _ _ _ _ _ ex_b Hb); vm_compute; reflexivity|].
  eapply rtc_l; [apply (exec_dispatch _ _ _ _ _ _ {| ticket := 0; request := ex_a |} (ex_take ex_tables));
    vm_compute; reflexivity|].
  eapply rtc_l; [apply (exec_dispatch _ _ _ _ _ _ {| ticket := 1; request := ex_b |}
    (ex_take (ex_take ex_tables))); vm_compute; reflexivity|].
  eapply rtc_l; [apply (exec_load _ _ _ _ _ _ 0); [simpl; set_solver|reflexivity]|].
  eapply rtc_l; [apply (exec_load _ _ _ _ _ _ 1); [simpl; set_solver|reflexivity]|].
  eapply rtc_l; [apply (exec_write _ _ _ _ _ _ 1 ex_b (λ _, 5));
    [simpl; set_solver|reflexivity|reflexivity]|].
  eapply rtc_l; [apply (exec_write _ _ _ _ _ _ 0 ex_a (λ _, 5));
    [simpl; set_solver|reflexivity|reflexivity]|].
  eapply rtc_l; [apply (exec_complete _ _ _ _ _ _ 1); [simpl; set_solver|reflexivity]|].
  eapply rtc_l; [apply (exec_complete _ _ _ _ _ _ 0); [simpl; set_solver|reflexivity]|].
  apply rtc_refl.
Qed.

Lemma parallel_equals_sequential_witness :
  store ex_final [1] = sequentially ex_exec (λ _, 5) [ex_a; ex_b] [1] ∧ store ex_final [2] = 12.
Proof.
  destruct (parallel_equals_sequential ex_exec ex_exec_local (λ _, 5) ex_final ex_run) as [_ H].
  split; [apply H; vm_compute; reflexivity|vm_compute; reflexivity].
Defined.
