(* ===== verification/Sequencer.v ===== *)
(** * The transaction sequencer ([processor/src/sequencer/mod.rs], [pool.rs])

    The executor pool with its availability bitset, the block hash chain, and the
    sequencer's handlers over the ordering table. A worker's channel is the list of
    messages it has not finished; awaiting code is split at its await points, so that
    executors and the sequencer interleave. *)

From stdpp Require Import base list gmap numbers option.
From S2P Require Import Prelude Records Order.

Local Open Scope Z_scope.

Abbreviation ExecutorId := nat.

(** ** Blocks and the hash chain *)

Abbreviation SignedBlock := (Signed Block).

Inductive BlockInput := Production (b : Block) | Replay (b : SignedBlock).

(** [BlockInput::payload]. *)
Definition input_payload (i : BlockInput) : Block :=
  match i with Production b => b | Replay b => payload b end.

(** The rolling hasher: the bytes fed since the last reset, and the committed parent. *)
Record BlockHasher := { current : list Z; parent : Hash }.

Definition hasher_new (p : Hash) : BlockHasher := {| current := p; parent := p |}.
Definition hasher_update (h : BlockHasher) (sig : list Z) : BlockHasher :=
  {| current := current h ++ sig; parent := parent h |}.
Definition hasher_advance (h : BlockHasher) (hash : Hash) : BlockHasher :=
  {| current := hash; parent := hash |}.

(** ** Executor pool *)

Definition MAX_EXECUTORS : Z := 64.
Definition MAX_PENDING_EXECUTOR_TXNS : Z := 16.

Inductive ExecutorMessage := MTransaction (x : ReadyTransaction) | MBlock (b : Block).
Inductive ExecutorEvent := Completed (id : ExecutorId) (t : Ticket) | Failed (id : ExecutorId).

Inductive Service := TransactionExecutor (id : ExecutorId) | TransactionSimulator.

(** A worker's inbound channel; a closed one refuses messages. *)
Record ExecutorHandle := { inbox : list ExecutorMessage; closed : bool }.

Record Executors := { handles : list ExecutorHandle; available_bits : Z }.

Definition pool_new (hs : list ExecutorHandle) : Executors :=
  let count := Z.of_nat (length hs) in
  {| handles := hs;
     available_bits := if count =? 0 then 0 else Z.shiftr (umax 64) (64 - count) |}.

Definition capacity (e : Executors) : Z := Z.of_nat (length (handles e)).

Definition available (e : Executors) : option ExecutorId :=
  let id := trailing_zeros 64 (available_bits e) in
  if id =? MAX_EXECUTORS then None else Some (Z.to_nat id).

(** [ExecutorHandle::send] to the worker [id]. *)
Definition send (e : Executors) (id : ExecutorId) (msg : ExecutorMessage)
    : result Service Executors :=
  match handles e !! id with
  | Some h =>
      if closed h then Err (TransactionExecutor id)
      else Ok {| handles := <[id := {| inbox := inbox h ++ [msg]; closed := false |}]> (handles e);
                 available_bits := available_bits e |}
  | None => Err (TransactionExecutor id)
  end.

Definition dispatch (e : Executors) (id : ExecutorId) (x : ReadyTransaction)
    : result Service Executors :=
  e ← send e id (MTransaction x);
  Ok {| handles := handles e;
        available_bits := Z.land (available_bits e) (Z.lnot (Z.shiftl 1 (Z.of_nat id))) |}.

Definition release (e : Executors) (id : ExecutorId) : Executors :=
  {| handles := handles e;
     available_bits := Z.lor (available_bits e) (Z.shiftl 1 (Z.of_nat id)) |}.

(** [Executors::transition]: the block goes to every worker, stopping at a closed one. *)
Fixpoint transition_from (e : Executors) (ids : list ExecutorId) (b : Block)
    : result Service Executors :=
  match ids with
  | [] => Ok e
  | id :: ids => e ← send e id (MBlock b); transition_from e ids b
  end.
Definition transition (e : Executors) (b : Block) : result Service Executors :=
  transition_from e (seq 0 (length (handles e))) b.

(** ** Keeper interface

    What the sequencer asks of the durable state: admission of a transaction (the outer
    error is an infrastructure failure, the inner one a rejection), the block append, and
    the slot being built. *)
Class KeeperApi (K E R : Type) := {
  append_transaction : K → ExecutionRequest → K * result E (result R unit);
  append_block : K → SignedBlock → bool → K * result E unit;
  current_slot : K → Z;
}.

(** Primitives outside the repository: the hash function and the signing key. *)
Record Crypto := {
  blake3 : list Z → Hash;
  sign : Block → list Z;
}.

Inductive ProcessorError (E : Type) :=
| State (e : E) | ServiceUnavailable (s : Service) | Internal.
Arguments State {E} e.
Arguments ServiceUnavailable {E} s.
Arguments Internal {E}.

Definition hasher_finalize (c : Crypto) (h : BlockHasher) : Hash := blake3 c (current h).

(** A production boundary completed with the local chain, and signed. *)
Definition produce (c : Crypto) (h : BlockHasher) (b : Block) : SignedBlock :=
  let b := {| block_slot := block_slot b; block_hash := hasher_finalize c h;
              block_time := block_time b; block_parent := parent h |} in
  {| payload := b; signature := sign c b |}.

(** The check a replayed boundary has to pass. *)
Definition matches_chain (c : Crypto) (h : BlockHasher) (b : SignedBlock) : bool :=
  bool_decide (block_parent (payload b) = parent h) &&
  bool_decide (block_hash (payload b) = hasher_finalize c h).

(** ** Sequencer *)

Section sequencer.
Context {K E R : Type} `{KeeperApi K E R} (crypto : Crypto).

Record Sequencer := {
  keeper : K;
  ordering : OrderingTable;
  hasher : BlockHasher;
  executors : Executors;
  slot : Z;
  replay : bool;
}.

(** [Sequencer::new]: between one and sixty-four idle workers over the keeper's state. *)
Definition sequencer_new (count : Z) (k : K) (blockhash : Hash) (replaying : bool) : Sequencer :=
  let count := Z.max 1 (Z.min count MAX_EXECUTORS) in
  {| keeper := k; ordering := empty_table; hasher := hasher_new blockhash;
     executors := pool_new (replicate (Z.to_nat count) {| inbox := []; closed := false |});
     slot := current_slot k; replay := replaying |}.

Definition with_pool (s : Sequencer) (o : OrderingTable) (e : Executors) : Sequencer :=
  {| keeper := keeper s; ordering := o; hasher := hasher s; executors := e; slot := slot s;
     replay := replay s |}.

Definition accepting (s : Sequencer) : bool :=
  table_len (ordering s) <? MAX_PENDING_EXECUTOR_TXNS * capacity (executors s).

(** The dispatch loop; each round takes one ready transaction, so one more round than the
    queue is long always reaches an exit. *)
Fixpoint dispatch_loop (fuel : nat) (s : Sequencer) : result (ProcessorError E) Sequencer :=
  match fuel with
  | O => Ok s
  | S fuel =>
      match available (executors s) with
      | None => Ok s
      | Some id =>
          match take_ready (ordering s) with
          | None => Ok s
          | Some (x, o) =>
              e ← map_err ServiceUnavailable (dispatch (executors s) id x);
              dispatch_loop fuel (with_pool s o e)
          end
      end
  end.
Definition dispatch_ready (s : Sequencer) : result (ProcessorError E) Sequencer :=
  dispatch_loop (S (length (ready (ordering s)))) s.

(** [schedule]; a rejected transaction answers its own request and changes nothing else. *)
Definition schedule (s : Sequencer) (r : ExecutionRequest) : result (ProcessorError E) Sequencer :=
  let enqueue (k : K) :=
    dispatch_ready
      {| keeper := k; ordering := (register (ordering s) r).1;
         hasher := hasher_update (hasher s) (first_signature r);
         executors := executors s; slot := slot s; replay := replay s |} in
  if replay s then enqueue (keeper s)
  else match append_transaction (keeper s) r with
       | (k, Err e) => Err (State e)
       | (k, Ok (Err _)) =>
           Ok {| keeper := k; ordering := ordering s; hasher := hasher s;
                 executors := executors s; slot := slot s; replay := replay s |}
       | (k, Ok (Ok _)) => enqueue k
       end.

Definition handle_event (s : Sequencer) (e : ExecutorEvent) : result (ProcessorError E) Sequencer :=
  match e with
  | Failed id => Err (ServiceUnavailable (TransactionExecutor id))
  | Completed id t =>
      dispatch_ready (with_pool s (complete (ordering s) t).1 (release (executors s) id))
  end.

(** [finalize] up to the drain: the block this boundary commits, or the chain mismatch. *)
Definition finalize_block (s : Sequencer) (input : BlockInput)
    : result (ProcessorError E) SignedBlock :=
  match input with
  | Production b => Ok (produce crypto (hasher s) b)
  | Replay b => if matches_chain crypto (hasher s) b then Ok b else Err Internal
  end.

(** [finalize] after the drain. *)
Definition finalize_commit (s : Sequencer) (b : SignedBlock)
    : result (ProcessorError E) Sequencer :=
  e ← map_err ServiceUnavailable (transition (executors s) (payload b));
  match append_block (keeper s) b (replay s) with
  | (_, Err err) => Err (State err)
  | (k, Ok _) =>
      Ok {| keeper := k; ordering := ordering s;
            hasher := hasher_advance (hasher s) (block_hash (payload b));
            executors := e; slot := current_slot k; replay := replay s |}
  end.

(** ** Control state *)

Abbreviation Guard := nat.

(** What follows a drain, in the handler that started it. *)
Inductive Continuation :=
| KBlock (b : SignedBlock) (guard : option Guard)
| KBarrier (g : Guard)
| KShutdown (g : Guard)
| KExit.

Inductive Control :=
| Serving
| DrainingTo (k : Continuation)
| AwaitingSimulator (g : Guard)
| Paused (g : Guard) (resume : bool)
| Stopped (e : option (ProcessorError E)).

Record world := {
  seqr : Sequencer;
  control : Control;
  events : list ExecutorEvent;
  acknowledged : list Guard;
}.

Definition boot (count : Z) (k : K) (blockhash : Hash) (replaying : bool) : world :=
  {| seqr := sequencer_new count k blockhash replaying; control := Serving; events := [];
     acknowledged := [] |}.

Definition pause (w : world) (s : Sequencer) (g : Guard) (resume : bool) : world :=
  {| seqr := s; control := Paused g resume; events := events w;
     acknowledged := acknowledged w ++ [g] |}.
Definition stop (w : world) (e : option (ProcessorError E)) : world :=
  {| seqr := seqr w; control := Stopped e; events := events w; acknowledged := acknowledged w |}.
Definition continue (w : world) (s : Sequencer) (c : Control) : world :=
  {| seqr := s; control := c; events := events w; acknowledged := acknowledged w |}.

(** [drain] up to its first await. *)
Definition drain_start (w : world) (k : Continuation) : world :=
  match dispatch_ready (seqr w) with
  | Err e => stop w (Some e)
  | Ok s => continue w s (DrainingTo k)
  end.

(** What the awaiting handler does once the drain has emptied and reset the table. *)
Definition drain_finish (w : world) (k : Continuation) : world :=
  let s := with_pool (seqr w) (reset (ordering (seqr w))) (executors (seqr w)) in
  match k with
  | KBlock b g =>
      match finalize_commit s b with
      | Err e => stop (continue w s (DrainingTo k)) (Some e)
      | Ok s => match g with None => continue w s Serving | Some g => pause w s g true end
      end
  | KBarrier g => continue w s (AwaitingSimulator g)
  | KShutdown g => pause w s g false
  | KExit => stop (continue w s (DrainingTo k)) None
  end.

(** One message from the inbound channel. *)
Inductive SequencerMessage :=
| MsgTransaction (r : ExecutionRequest)
| MsgBlock (b : BlockInput)
| MsgCheckpoint (b : Block) (g : Guard)
| MsgBarrier (g : Guard)
| MsgShutdown (g : Guard).

Definition start_finalize (w : world) (input : BlockInput) (g : option Guard) : world :=
  match finalize_block (seqr w) input with
  | Err e => stop w (Some e)
  | Ok b => drain_start w (KBlock b g)
  end.

Definition receive (w : world) (m : SequencerMessage) : world :=
  match m with
  | MsgTransaction r =>
      match schedule (seqr w) r with
      | Err e => stop w (Some e)
      | Ok s => continue w s Serving
      end
  | MsgBlock b => start_finalize w b None
  | MsgCheckpoint b g => start_finalize w (Production b) (Some g)
  | MsgBarrier g => drain_start w (KBarrier g)
  | MsgShutdown g => drain_start w (KShutdown g)
  end.

Definition deliver (w : world) (e : ExecutorEvent) (rest : list ExecutorEvent) : world :=
  let w := {| seqr := seqr w; control := control w; events := rest;
              acknowledged := acknowledged w |} in
  match handle_event (seqr w) e with
  | Err e => stop w (Some e)
  | Ok s => continue w s (control w)
  end.

(** A worker finishes, or fails on, the head of its channel. *)
Definition set_inbox (s : Sequencer) (id : ExecutorId) (h : ExecutorHandle) : Sequencer :=
  with_pool s (ordering s)
    {| handles := <[id := h]> (handles (executors s)); available_bits := available_bits (executors s) |}.

Definition worker_step (w : world) (id : ExecutorId) (fails : bool) : option world :=
  match handles (executors (seqr w)) !! id with
  | Some h =>
      if closed h then None
      else match inbox h with
           | [] => None
           | MBlock _ :: q =>
               Some {| seqr := set_inbox (seqr w) id {| inbox := q; closed := false |};
                       control := control w; events := events w;
                       acknowledged := acknowledged w |}
           | MTransaction x :: q =>
               Some {| seqr := set_inbox (seqr w) id {| inbox := q; closed := fails |};
                       control := control w;
                       events := events w ++ [if fails then Failed id else Completed id (ticket x)];
                       acknowledged := acknowledged w |}
           end
  | None => None
  end.

(** Steps of the running system. Ingress is taken only while [accepting]; sanitization
    gives unique keys, and the arena has room (a [usize] index). *)
Inductive step : world → world → Prop :=
| step_receive w m :
    control w = Serving → accepting (seqr w) = true →
    (∀ r, m = MsgTransaction r → NoDup (account_keys r).*1 ∧
          Z.of_nat (length (nodes (ordering (seqr w)))) < COMPLETE) →
    step w (receive w m)
| step_deliver w e rest :
    events w = e :: rest → (control w = Serving ∨ ∃ k, control w = DrainingTo k) →
    step w (deliver w e rest)
| step_drained w k :
    control w = DrainingTo k → is_empty (ordering (seqr w)) = true → step w (drain_finish w k)
| step_simulator w g (answered : bool) :
    control w = AwaitingSimulator g →
    step w (if answered then pause w (seqr w) g true
            else stop w (Some (ServiceUnavailable TransactionSimulator)))
| step_resume w g resume :
    control w = Paused g resume →
    step w (if resume then continue w (seqr w) Serving else drain_start w KExit)
| step_signalled w : control w = Serving → step w (drain_start w KExit)
| step_worker w id fails w' : worker_step w id fails = Some w' → step w w'.

End sequencer.
