(* ===== verification/SequencerFacts.v ===== *)
(** * Correctness of the sequencer

    An assignment of unfinished tickets to executors ties the ordering table, the
    availability bitset, the workers' channels and the event channel together. It shows
    that dispatch never meets a busy or closed worker, that no two executors hold
    conflicting transactions, that acknowledged barriers are quiescent, and that every
    drain ends. *)

From stdpp Require Import base list gmap numbers option relations.
From S2P Require Import Prelude Records Order OrderFacts Sequencer.

Local Open Scope Z_scope.

(** ** The availability bitset *)

Lemma trailing_zeros_spec x :
  (trailing_zeros 64 x = 64 ∧ ∀ i, (i < 64)%nat → Z.testbit x (Z.of_nat i) = false) ∨
  ∃ i, (i < 64)%nat ∧ trailing_zeros 64 x = Z.of_nat i ∧ Z.testbit x (Z.of_nat i) = true.
Proof.
  unfold trailing_zeros. destruct (List.find _ _) as [i|] eqn:E.
  - right. apply List.find_some in E as [Hin Hb]. apply List.in_seq in Hin.
    exists i. split_and!; auto. lia.
  - left. split; [done|]. intros i Hi. eapply (List.find_none _ _ E), List.in_seq. lia.
Qed.

Lemma available_Some e i :
  available e = Some i → (i < 64)%nat ∧ Z.testbit (available_bits e) (Z.of_nat i) = true.
Proof.
  unfold available. change MAX_EXECUTORS with 64.
  destruct (trailing_zeros_spec (available_bits e)) as [[-> _]|(j & Hj & -> & Hb)]; [done|].
  destruct (Z.eqb_spec (Z.of_nat j) 64); [lia|]. intros [= <-]. rewrite Nat2Z.id. done.
Qed.

Lemma available_None e i :
  available e = None → (i < 64)%nat → Z.testbit (available_bits e) (Z.of_nat i) = false.
Proof.
  unfold available. change MAX_EXECUTORS with 64.
  destruct (trailing_zeros_spec (available_bits e)) as [[_ H]|(j & Hj & -> & Hb)]; [auto|].
  destruct (Z.eqb_spec (Z.of_nat j) 64); [lia|done].
Qed.

Lemma pool_new_bits hs i :
  (1 ≤ length hs ≤ 64)%nat →
  Z.testbit (available_bits (pool_new hs)) (Z.of_nat i) = bool_decide (i < length hs)%nat.
Proof.
  intros Hn. unfold pool_new. simpl. destruct (Z.eqb_spec (Z.of_nat (length hs)) 0); [lia|].
  rewrite Z.shiftr_spec by lia. unfold umax.
  replace (2 ^ 64 - 1) with (Z.ones 64) by done.
  case_bool_decide.
  - apply Z.ones_spec_low. lia.
  - apply Z.ones_spec_high. lia.
Qed.

Lemma clear_bit x i j :
  Z.testbit (Z.land x (Z.lnot (Z.shiftl 1 (Z.of_nat i)))) (Z.of_nat j) =
  if decide (j = i) then false else Z.testbit x (Z.of_nat j).
Proof.
  rewrite Z.land_spec, Z.lnot_spec, Z.shiftl_1_l, Z.pow2_bits_eqb by lia.
  destruct (decide (j = i)) as [->|].
  - rewrite Z.eqb_refl. apply andb_false_r.
  - destruct (Z.eqb_spec (Z.of_nat i) (Z.of_nat j)); [lia|]. apply andb_true_r.
Qed.

Lemma set_bit x i j :
  Z.testbit (Z.lor x (Z.shiftl 1 (Z.of_nat i))) (Z.of_nat j) =
  if decide (j = i) then true else Z.testbit x (Z.of_nat j).
Proof.
  rewrite Z.lor_spec, Z.shiftl_1_l, Z.pow2_bits_eqb by lia.
  destruct (decide (j = i)) as [->|].
  - rewrite Z.eqb_refl. apply orb_true_r.
  - destruct (Z.eqb_spec (Z.of_nat i) (Z.of_nat j)); [lia|]. apply orb_false_r.
Qed.

(** ** Assignments *)

(** Where the report of an assigned ticket is. *)
Inductive Stage := Queued | Reported | Lost.

#[export] Instance Stage_eq_dec : EqDecision Stage.
Proof. solve_decision. Defined.

Abbreviation Assignment := (gmap ExecutorId (Ticket * Stage)).

Definition tickets_in (q : list ExecutorMessage) : list Ticket :=
  omap (λ m, match m with MTransaction x => Some (ticket x) | MBlock _ => None end) q.

Definition queued (a : option (Ticket * Stage)) : list Ticket :=
  match a with Some (t, Queued) => [t] | _ => [] end.

Record pool_ok (h : history) (asg : Assignment) (e : Executors) (evs : list ExecutorEvent)
    : Prop := {
  pk_count : (1 ≤ length (handles e) ≤ 64)%nat;
  pk_bits i : Z.testbit (available_bits e) (Z.of_nat i) = true ↔
              (i < length (handles e))%nat ∧ asg !! i = None;
  pk_dom i x : asg !! i = Some x → (i < length (handles e))%nat;
  pk_inj i j t p q : asg !! i = Some (t, p) → asg !! j = Some (t, q) → i = j;
  pk_running t : t ∈ running h ↔ ∃ i p, asg !! i = Some (t, p);
  pk_inbox i hd : handles e !! i = Some hd → tickets_in (inbox hd) = queued (asg !! i);
  pk_closed i hd : handles e !! i = Some hd →
                   closed hd = true → ∃ t, asg !! i = Some (t, Lost);
  pk_completed i t : Completed i t ∈ evs ↔ asg !! i = Some (t, Reported);
  pk_failed i : Failed i ∈ evs ↔ ∃ t, asg !! i = Some (t, Lost);
  pk_nodup : NoDup evs;
  pk_request i hd x : handles e !! i = Some hd → MTransaction x ∈ inbox hd →
                      txs h !! ticket x = Some (request x);
}.

Lemma tickets_in_snoc q m :
  tickets_in (q ++ [m]) =
  tickets_in q ++ match m with MTransaction x => [ticket x] | MBlock _ => [] end.
Proof. unfold tickets_in. rewrite omap_app. by destruct m. Qed.

Lemma tickets_in_cons m q :
  tickets_in (m :: q) =
  match m with MTransaction x => [ticket x] | MBlock _ => [] end ++ tickets_in q.
Proof. by destruct m. Qed.

(** An available worker accepts a transaction, and the assignment records it. *)
Lemma dispatch_ok h asg e evs id x :
  pool_ok h asg e evs → available e = Some id → ticket x ∉ running h →
  txs h !! ticket x = Some (request x) →
  ∃ e', dispatch e id x = Ok e' ∧
        pool_ok {| txs := txs h; done := done h; running := {[ticket x]} ∪ running h |}
          (<[id := (ticket x, Queued)]> asg) e' evs ∧
        length (handles e') = length (handles e).
Proof.
  intros Hok Hav Hnew Hreq. apply available_Some in Hav as [H64 Hb].
  apply (pk_bits _ _ _ _ Hok) in Hb as [Hlt Hn].
  destruct (lookup_lt_is_Some_2 _ _ Hlt) as [hd Hhd].
  assert (Hcl : closed hd = false).
  { destruct (closed hd) eqn:E; [|done]. destruct (pk_closed _ _ _ _ Hok id hd Hhd E) as [t Ht].
    congruence. }
  unfold dispatch, send. rewrite Hhd, Hcl. simpl. eexists. split; [done|].
  destruct Hok as [H1 H2 H3 H4 H5 H6 H7 H8 H9 H10 H11].
  split; [|simpl; by rewrite length_insert]. split; simpl; rewrite ?length_insert; auto.
  - intros i. rewrite clear_bit. destruct (decide (i = id)) as [->|].
    + rewrite lookup_insert_eq. naive_solver.
    + rewrite lookup_insert_ne by done. apply H2.
  - intros i y. destruct (decide (i = id)) as [->|]; [done|]. rewrite lookup_insert_ne by done. apply H3.
  - assert (Hfresh : ∀ i p, asg !! i ≠ Some (ticket x, p)).
    { intros i p Hi. apply Hnew, H5. eauto. }
    intros i j t p q.
    destruct (decide (i = id)) as [->|], (decide (j = id)) as [->|]; auto;
      rewrite ?lookup_insert_eq, ?lookup_insert_ne by done; intros Hi Hj; simplify_eq;
      [by destruct (Hfresh _ _ Hj)|by destruct (Hfresh _ _ Hi)|by eapply H4].
  - intros t. rewrite elem_of_union, elem_of_singleton, H5. split.
    + intros [->|(i & p & Hi)]; [exists id, Queued; apply lookup_insert_eq|].
      exists i, p. rewrite lookup_insert_ne; [done|]. congruence.
    + intros (i & p & Hi). destruct (decide (i = id)) as [->|].
      * rewrite lookup_insert_eq in Hi. simplify_eq. by left.
      * rewrite lookup_insert_ne in Hi by done. right. eauto.
  - intros i hd'. destruct (decide (i = id)) as [->|].
    + rewrite list_lookup_insert_eq, lookup_insert_eq by done. intros ?. simplify_eq/=.
      by rewrite tickets_in_snoc, (H6 _ _ Hhd), Hn.
    + rewrite list_lookup_insert_ne, lookup_insert_ne by done. apply H6.
  - intros i hd'. destruct (decide (i = id)) as [->|].
    + rewrite list_lookup_insert_eq by done. intros ?. by simplify_eq/=.
    + rewrite list_lookup_insert_ne, lookup_insert_ne by done. apply H7.
  - intros i t. rewrite H8. destruct (decide (i = id)) as [->|]; [|by rewrite lookup_insert_ne].
    rewrite lookup_insert_eq. naive_solver.
  - intros i. rewrite H9. destruct (decide (i = id)) as [->|]; [|by rewrite lookup_insert_ne].
    rewrite lookup_insert_eq. naive_solver.
  - intros i hd' y. destruct (decide (i = id)) as [->|].
    + rewrite list_lookup_insert_eq by done. intros ?. simplify_eq/=.
      rewrite elem_of_app, list_elem_of_singleton. intros [Hy|Hy]; [by eapply H11|]. by simplify_eq.
    + rewrite list_lookup_insert_ne by done. apply H11.
Qed.

(** A delivered completion frees its worker and its ticket. *)
Lemma release_ok h asg e evs id t :
  pool_ok h asg e (Completed id t :: evs) →
  t ∈ running h ∧
  pool_ok {| txs := txs h; done := {[t]} ∪ done h; running := running h ∖ {[t]} |}
    (delete id asg) (release e id) evs.
Proof.
  intros Hok.
  assert (Hid : asg !! id = Some (t, Reported)) by (apply (pk_completed _ _ _ _ Hok); left).
  destruct Hok as [H1 H2 H3 H4 H5 H6 H7 H8 H9 H10 H11]. apply NoDup_cons in H10 as [Hnin Hnd].
  split; [apply H5; eauto|]. split; simpl; auto.
  - intros i. rewrite set_bit. destruct (decide (i = id)) as [->|].
    + rewrite lookup_delete_eq. split; [|done]. intros _. split; [by eapply H3|done].
    + rewrite lookup_delete_ne by done. apply H2.
  - intros i x. destruct (decide (i = id)) as [->|]; [by rewrite lookup_delete_eq|].
    rewrite lookup_delete_ne by done. apply H3.
  - intros i j u p q Hi Hj. apply lookup_delete_Some in Hi as [_ Hi], Hj as [_ Hj]. by eapply H4.
  - intros u. rewrite elem_of_difference, elem_of_singleton, H5. split.
    + intros [(i & p & Hi) Hne]. exists i, p. apply lookup_delete_Some. split; [|done]. congruence.
    + intros (i & p & [Hne Hi]%lookup_delete_Some). split; [eauto|]. intros ->.
      by eapply Hne, H4.
  - intros i hd Hi. rewrite (H6 i hd Hi). destruct (decide (i = id)) as [->|].
    + by rewrite lookup_delete_eq, Hid.
    + by rewrite lookup_delete_ne.
  - intros i hd Hi Hc. destruct (H7 i hd Hi Hc) as [u Hu]. exists u.
    rewrite lookup_delete_ne; [done|]. congruence.
  - intros i u. specialize (H8 i u). rewrite elem_of_cons in H8. split.
    + intros Hin. apply lookup_delete_Some.
      assert (Hu : asg !! i = Some (u, Reported)) by (apply H8; by right).
      split; [|done]. intros <-. by simplify_eq.
    + intros [Hne Hi]%lookup_delete_Some. apply H8 in Hi as [Hi|]; [|done]. by simplify_eq.
  - intros i. specialize (H9 i). rewrite elem_of_cons in H9. split.
    + intros Hin. destruct (proj1 H9) as [u Hu]; [by right|]. exists u.
      rewrite lookup_delete_ne; [done|]. congruence.
    + intros (u & [Hne Hi]%lookup_delete_Some). destruct (proj2 H9) as [?|?]; eauto. done.
Qed.

(** Messages of any kind leave the assignment alone when they carry no transaction. *)
Lemma send_block_ok h asg e evs id b :
  pool_ok h asg e evs → asg = ∅ → (id < length (handles e))%nat →
  ∃ e', send e id (MBlock b) = Ok e' ∧ pool_ok h asg e' evs ∧
        length (handles e') = length (handles e).
Proof.
  intros Hok He Hlt. destruct (lookup_lt_is_Some_2 _ _ Hlt) as [hd Hhd].
  assert (Hcl : closed hd = false).
  { destruct (closed hd) eqn:E; [|done]. destruct (pk_closed _ _ _ _ Hok id hd Hhd E) as [t Ht].
    by rewrite He, lookup_empty in Ht. }
  unfold send. rewrite Hhd, Hcl. eexists. split; [done|].
  destruct Hok as [H1 H2 H3 H4 H5 H6 H7 H8 H9 H10 H11].
  split; [|simpl; by rewrite length_insert]. split; simpl; rewrite ?length_insert; auto.
  - intros i hd'. destruct (decide (i = id)) as [->|].
    + rewrite list_lookup_insert_eq by done. intros ?. simplify_eq/=.
      by rewrite tickets_in_snoc, app_nil_r, (H6 _ _ Hhd).
    + rewrite list_lookup_insert_ne by done. apply H6.
  - intros i hd'. destruct (decide (i = id)) as [->|].
    + rewrite list_lookup_insert_eq by done. intros ?. by simplify_eq/=.
    + rewrite list_lookup_insert_ne by done. apply H7.
  - intros i hd' y. destruct (decide (i = id)) as [->|].
    + rewrite list_lookup_insert_eq by done. intros ?. simplify_eq/=.
      rewrite elem_of_app, list_elem_of_singleton. intros [Hy|Hy]; [by eapply H11|done].
    + rewrite list_lookup_insert_ne by done. apply H11.
Qed.

Lemma transition_ok h asg e evs b :
  pool_ok h asg e evs → asg = ∅ →
  ∃ e', transition e b = Ok e' ∧ pool_ok h asg e' evs ∧ length (handles e') = length (handles e).
Proof.
  intros Hok He. unfold transition.
  assert (Hids : Forall (λ id, (id < length (handles e))%nat) (seq 0 (length (handles e)))).
  { apply Forall_forall. intros id Hid%elem_of_seq. lia. }
  generalize dependent (seq 0 (length (handles e))). intros ids Hids.
  remember (length (handles e)) as n eqn:En. symmetry in En. revert e Hok En.
  induction Hids as [|id ids Hid _ IH]; intros e Hok En; simpl; [eauto|].
  destruct (send_block_ok h asg e evs id b Hok He ltac:(lia)) as (e1 & E1 & Hok1 & En1).
  rewrite E1. simpl. destruct (IH e1 Hok1 ltac:(lia)) as (e2 & ? & ? & ?). eauto.
Qed.

Section system.
Context {K E R : Type} `{KeeperApi K E R} (crypto : Crypto).
Implicit Types (s : Sequencer (K := K)) (w : world (K := K) (E := E)).

(** The two invariants of one sequencer state. *)
Definition core (h : history) (asg : Assignment) s (evs : list ExecutorEvent) : Prop :=
  (∃ P, table_ok h P (ordering s)) ∧ pool_ok h asg (executors s) evs.

(** No executor idles while a transaction is ready. *)
Definition conserving s : Prop := available (executors s) = None ∨ ready (ordering s) = [].

Definition same_rest s s' : Prop :=
  keeper s' = keeper s ∧ hasher s' = hasher s ∧ slot s' = slot s ∧ replay s' = replay s ∧
  outstanding (ordering s') = outstanding (ordering s) ∧
  length (handles (executors s')) = length (handles (executors s)).

Lemma dispatch_loop_ok fuel h asg s evs :
  core h asg s evs →
  ∃ s' h' asg', dispatch_loop (E := E) fuel s = Ok s' ∧ core h' asg' s' evs ∧
    txs h' = txs h ∧ done h' = done h ∧ same_rest s s' ∧
    ((length (ready (ordering s)) < fuel)%nat → conserving s').
Proof.
  revert h asg s. induction fuel as [|fuel IH]; intros h asg s [[P Ht] Hp]; simpl.
  { exists s, h, asg. unfold core, same_rest. split_and!; eauto. lia. }
  destruct (available (executors s)) as [id|] eqn:Ea.
  2: { exists s, h, asg. unfold core, same_rest, conserving. split_and!; eauto. }
  destruct (take_ready (ordering s)) as [[x o]|] eqn:Er.
  2: { exists s, h, asg. unfold core, same_rest, conserving, take_ready in *.
       destruct (ready (ordering s)); [|done]. split_and!; eauto. }
  destruct (take_ready_ok h P _ Ht x o Er) as (Ht' & Htx & Hn).
  rewrite not_elem_of_union in Hn.
  destruct (dispatch_ok h asg _ evs id x Hp Ea (proj2 Hn) Htx) as (e & Ee & Hp' & Hl).
  rewrite Ee. simpl.
  assert (Hlen : outstanding o = outstanding (ordering s) ∧
                 length (ready (ordering s)) = S (length (ready o))).
  { unfold take_ready in Er. destruct (ready (ordering s)); simplify_eq/=. done. }
  destruct (IH _ _ (with_pool s o e) (conj (ex_intro _ P Ht') Hp'))
    as (s' & h' & asg' & E1 & Hc & E2 & E3 & (R1 & R2 & R3 & R4 & R5 & R6) & Hcons).
  exists s', h', asg'. simpl in *. unfold same_rest. split_and!; auto; try congruence; try lia.
  intros Hlt. apply Hcons. lia.
Qed.

Lemma dispatch_ready_ok h asg s evs :
  core h asg s evs →
  ∃ s' h' asg', dispatch_ready (E := E) s = Ok s' ∧ core h' asg' s' evs ∧
    txs h' = txs h ∧ done h' = done h ∧ same_rest s s' ∧ conserving s'.
Proof.
  intros Hc. unfold dispatch_ready.
  destruct (dispatch_loop_ok (S (length (ready (ordering s)))) h asg s evs Hc)
    as (s' & h' & asg' & ? & ? & ? & ? & ? & Hcons).
  exists s', h', asg'. split_and!; auto.
Qed.

(** ** World invariant *)

Definition bound s : Z := MAX_PENDING_EXECUTOR_TXNS * capacity (executors s).

Definition live w (h : history) (asg : Assignment) : Prop :=
  core h asg (seqr w) (events w) ∧ outstanding (ordering (seqr w)) ≤ bound (seqr w) ∧
  match control w with
  | Serving | DrainingTo _ => conserving (seqr w)
  | AwaitingSimulator _ | Paused _ _ => h = empty_history
  | Stopped _ => True
  end.

Definition world_ok w : Prop :=
  (∃ e, control w = Stopped e) ∨ ∃ h asg, live w h asg.

Lemma stop_ok w e : world_ok (stop w e).
Proof. left. by exists e. Qed.

Lemma drain_start_ok w k h asg :
  core h asg (seqr w) (events w) → outstanding (ordering (seqr w)) ≤ bound (seqr w) →
  world_ok (drain_start w k).
Proof.
  intros Hc Hb. unfold drain_start.
  destruct (dispatch_ready_ok h asg (seqr w) (events w) Hc)
    as (s' & h' & asg' & -> & Hc' & _ & _ & (_ & _ & _ & _ & Ho & Hl) & Hcons).
  right. exists h', asg'. unfold live. simpl. split_and!; auto.
  unfold bound, capacity in *. rewrite Ho, Hl. done.
Qed.

Lemma empty_assignment asg s evs : core empty_history asg s evs → asg = ∅.
Proof.
  intros [_ Hp]. apply map_empty. intros i. destruct (asg !! i) as [[t p]|] eqn:E1; [|done].
  exfalso. assert (Hr : t ∈ running empty_history) by (apply (pk_running _ _ _ _ Hp); eauto).
  simpl in Hr. set_solver.
Qed.

(** A drained table resets to the empty history, with nothing assigned. *)
Lemma drained_core h asg w :
  core h asg (seqr w) (events w) → is_empty (ordering (seqr w)) = true →
  core empty_history ∅ (with_pool (seqr w) (reset (ordering (seqr w))) (executors (seqr w))) (events w).
Proof.
  intros [[P Ht] Hp] He.
  assert (Hrun : running h = ∅).
  { apply set_eq. intros t. split; [|set_solver]. intros Hr.
    pose proof (ok_running _ _ _ Ht t Hr) as [Hlt Hd]. destruct Hd.
    apply (all_done h P _ t Ht He). lia. }
  assert (asg = ∅) as ->.
  { apply map_empty. intros i. destruct (asg !! i) as [[t p]|] eqn:E1; [|done]. exfalso.
    assert (Hr : t ∈ running h) by (apply (pk_running _ _ _ _ Hp); eauto).
    rewrite Hrun in Hr. set_solver. }
  split; simpl.
  - exists (λ _, []). rewrite (reset_ok h P) by done. apply empty_ok.
  - destruct Hp as [H1 H2 H3 H4 H5 H6 H7 H8 H9 H10 H11]. split; auto.
    + intros t. rewrite <- H5, Hrun. done.
    + intros i hd x Hi Hx. pose proof (H6 i hd Hi) as Hq. rewrite lookup_empty in Hq. simpl in Hq.
      assert (Hin : ticket x ∈ tickets_in (inbox hd)) by (apply list_elem_of_omap; by exists (MTransaction x)).
      rewrite Hq in Hin. by apply elem_of_nil in Hin.
Qed.

Lemma drain_finish_ok w k :
  world_ok w → control w = DrainingTo k → is_empty (ordering (seqr w)) = true →
  world_ok (drain_finish w k).
Proof.
  intros [[e He]|(h & asg & Hc & Hb & _)] Hk Hem; [congruence|].
  pose proof (drained_core h asg w Hc Hem) as Hd. unfold drain_finish.
  set (s := with_pool _ _ _) in *.
  assert (Ho : outstanding (ordering s) = 0) by (by apply Z.eqb_eq in Hem).
  assert (Hn : 1 ≤ capacity (executors s)).
  { destruct Hd as [_ Hp]. pose proof (pk_count _ _ _ _ Hp). unfold capacity. lia. }
  assert (Hb0 : outstanding (ordering s) ≤ bound s)
    by (unfold bound; change MAX_PENDING_EXECUTOR_TXNS with 16; lia).
  destruct k as [b g|g|g|].
  - unfold finalize_commit. destruct Hd as [Htbl Hp].
    destruct (transition_ok _ _ _ _ (payload b) Hp eq_refl) as (e & -> & Hp' & Hl). simpl.
    destruct (append_block _ _ _) as [k' [[]|err]]; [|apply stop_ok].
    right. exists empty_history, ∅. destruct g; unfold live, core; simpl; split_and!; auto;
      unfold bound, capacity in *; simpl; try (rewrite Hl; done).
    right. destruct Htbl as [P Ht]. destruct (ready (ordering s)) as [|x l] eqn:E1; [done|].
    assert (Hx : x ∈ ready (ordering s)) by (rewrite E1; left).
    apply (ok_ready _ _ _ Ht) in Hx as [Hx _]. done.
  - right. exists empty_history, ∅. unfold live. simpl. done.
  - right. exists empty_history, ∅. unfold live. simpl. done.
  - apply stop_ok.
Qed.

Lemma register_outstanding o r : outstanding (register o r).1 = outstanding o + 1.
Proof. unfold register. by destruct (foldl _ _ _). Qed.

Lemma admit_ok h asg w k r :
  live w h asg → control w = Serving → accepting (seqr w) = true →
  NoDup (account_keys r).*1 → Z.of_nat (length (nodes (ordering (seqr w)))) < COMPLETE →
  match dispatch_ready (E := E)
      {| keeper := k; ordering := (register (ordering (seqr w)) r).1;
         hasher := hasher_update (hasher (seqr w)) (first_signature r);
         executors := executors (seqr w); slot := slot (seqr w); replay := replay (seqr w) |} with
  | Err e => False
  | Ok s => world_ok (continue w s Serving)
  end.
Proof.
  intros [[[P Ht] Hp] [Hb _]] Hs Ha Hu Hroom.
  pose proof (register_ok h P _ Ht r Hu Hroom) as Ht'.
  set (s0 := Build_Sequencer _ _ _ _ _ _).
  destruct (dispatch_ready_ok {| txs := txs h ++ [r]; done := done h; running := running h |} asg s0
    (events w)) as (s' & h' & asg' & -> & Hc' & _ & _ & (_ & _ & _ & _ & Ho & Hl) & Hcons).
  { split; [eexists; exact Ht'|]. destruct Hp as [H1 H2 H3 H4 H5 H6 H7 H8 H9 H10 H11]. split; auto.
    intros i hd x Hi Hx. simpl. apply lookup_app_l_Some. by eapply H11. }
  right. exists h', asg'. unfold live. simpl. split_and!; auto.
  rewrite Ho. unfold s0. simpl. rewrite register_outstanding.
  unfold accepting, bound, capacity, table_len in *. rewrite Hl. simpl. apply Z.ltb_lt in Ha. lia.
Qed.

Lemma receive_ok w m :
  world_ok w → control w = Serving → accepting (seqr w) = true →
  (∀ r, m = MsgTransaction r → NoDup (account_keys r).*1 ∧
        Z.of_nat (length (nodes (ordering (seqr w)))) < COMPLETE) →
  world_ok (receive crypto w m).
Proof.
  intros [[e He]|(h & asg & Hl)] Hs Ha Hm; [congruence|]. pose proof Hl as (Hc & Hb & _).
  destruct m as [r|b|b g|g|g]; simpl.
  - destruct (Hm r eq_refl) as [Hu Hroom]. unfold schedule.
    destruct (replay (seqr w)) eqn:Hr.
    + pose proof (admit_ok h asg w (keeper (seqr w)) r Hl Hs Ha Hu Hroom) as Had. rewrite Hr in Had.
      by destruct (dispatch_ready _).
    + destruct (append_transaction (keeper (seqr w)) r) as [k [[[]|]|]]; [| |apply stop_ok].
      * pose proof (admit_ok h asg w k r Hl Hs Ha Hu Hroom) as Had. rewrite Hr in Had.
        by destruct (dispatch_ready _).
      * right. exists h, asg. unfold live in *. rewrite Hs in Hl. simpl. done.
  - unfold start_finalize. destruct (finalize_block _ _ _); [by eapply drain_start_ok|apply stop_ok].
  - unfold start_finalize. destruct (finalize_block _ _ _); [by eapply drain_start_ok|apply stop_ok].
  - by eapply drain_start_ok.
  - by eapply drain_start_ok.
Qed.

Lemma deliver_ok w e rest :
  world_ok w → events w = e :: rest → (control w = Serving ∨ ∃ k, control w = DrainingTo k) →
  world_ok (deliver w e rest).
Proof.
  intros [[x Hx]|(h & asg & Hl)] He Hctl; [destruct Hctl as [Hc|[k Hc]]; congruence|].
  destruct Hl as ([[P Ht] Hp] & Hb & _). rewrite He in Hp. unfold deliver. simpl.
  destruct e as [id t|id]; [|apply stop_ok].
  destruct (release_ok _ _ _ _ _ _ Hp) as [Hrun Hp']. unfold handle_event.
  pose proof (complete_ok h P _ Ht t Hrun) as Ht'.
  set (s0 := with_pool _ _ _).
  destruct (dispatch_ready_ok _ (delete id asg) s0 rest (conj (ex_intro _ P Ht') Hp'))
    as (s' & h' & asg' & -> & Hc' & _ & _ & (_ & _ & _ & _ & Ho & Hlen) & Hcons).
  right. exists h', asg'. unfold live. simpl. split_and!; auto.
  - rewrite Ho. unfold s0. simpl.
    destruct (complete_facts h P _ Ht t Hrun) as (deps & _ & _ & _ & Hout & _).
    rewrite Hout. unfold bound, capacity in *. rewrite Hlen. simpl. lia.
  - destruct Hctl as [->|[k ->]]; done.
Qed.

Lemma tickets_in_head h asg pool evs id hd x q :
  pool_ok h asg pool evs → handles pool !! id = Some hd → inbox hd = MTransaction x :: q →
  asg !! id = Some (ticket x, Queued) ∧ tickets_in q = [].
Proof.
  intros Hp Hid Hq. pose proof (pk_inbox _ _ _ _ Hp id hd Hid) as Hi. rewrite Hq in Hi.
  unfold tickets_in in Hi. simpl in Hi. unfold queued in Hi.
  destruct (asg !! id) as [[t [| |]]|]; by simplify_eq/=.
Qed.

(** A worker that finishes moves its ticket from its channel to the event channel. *)
Lemma worker_report_ok h asg pool evs id hd x q (fails : bool) :
  pool_ok h asg pool evs → handles pool !! id = Some hd → inbox hd = MTransaction x :: q →
  closed hd = false →
  pool_ok h (<[id := (ticket x, if fails then Lost else Reported)]> asg)
    {| handles := <[id := {| inbox := q; closed := fails |}]> (handles pool);
       available_bits := available_bits pool |}
    (evs ++ [if fails then Failed id else Completed id (ticket x)]).
Proof.
  intros Hp Hid Hq Hcl. destruct (tickets_in_head _ _ _ _ _ _ _ _ Hp Hid Hq) as [Ha Ht].
  pose proof (lookup_lt_Some _ _ _ Hid) as Hlt.
  destruct Hp as [H1 H2 H3 H4 H5 H6 H7 H8 H9 H10 H11].
  set (p := if fails then Lost else Reported). assert (Hpq : p ≠ Queued) by (by destruct fails).
  assert (Hl : ∀ i u r, <[id := (ticket x, p)]> asg !! i = Some (u, r) →
                        ∃ r', asg !! i = Some (u, r')).
  { intros i u r. destruct (decide (i = id)) as [->|].
    - rewrite lookup_insert_eq. intros ?. simplify_eq. eauto.
    - rewrite lookup_insert_ne by done. eauto. }
  split; simpl; rewrite ?length_insert; auto.
  - intros i. rewrite H2. destruct (decide (i = id)) as [->|]; [|by rewrite lookup_insert_ne].
    rewrite lookup_insert_eq, Ha. naive_solver.
  - intros i [u r] Hi. apply Hl in Hi as [r' Hi]. by eapply H3.
  - intros i j u r r' Hi Hj. apply Hl in Hi as [? Hi], Hj as [? Hj]. by eapply H4.
  - intros t. rewrite H5. split.
    + intros (i & r & Hi). destruct (decide (i = id)) as [->|].
      * exists id, p. rewrite lookup_insert_eq. congruence.
      * exists i, r. by rewrite lookup_insert_ne.
    + intros (i & r & Hi). apply Hl in Hi as [r' Hi]. eauto.
  - intros i hd'. destruct (decide (i = id)) as [->|].
    + rewrite list_lookup_insert_eq, lookup_insert_eq by done. intros ?. simplify_eq/=. rewrite Ht.
      by destruct fails.
    + rewrite list_lookup_insert_ne, lookup_insert_ne by done. apply H6.
  - intros i hd'. destruct (decide (i = id)) as [->|].
    + rewrite list_lookup_insert_eq, lookup_insert_eq by done. intros ? ?. simplify_eq/=.
      unfold p. eauto.
    + rewrite list_lookup_insert_ne, lookup_insert_ne by done. apply H7.
  - intros i t. rewrite elem_of_app, list_elem_of_singleton, H8.
    destruct (decide (i = id)) as [->|].
    + rewrite lookup_insert_eq, Ha. unfold p. destruct fails; naive_solver.
    + rewrite lookup_insert_ne by done. destruct fails; naive_solver.
  - intros i. rewrite elem_of_app, list_elem_of_singleton, H9.
    destruct (decide (i = id)) as [->|].
    + rewrite lookup_insert_eq, Ha. unfold p. destruct fails; naive_solver.
    + rewrite lookup_insert_ne by done. destruct fails; naive_solver.
  - apply NoDup_app. split_and!; [done| |apply NoDup_singleton].
    intros ev Hev ->%list_elem_of_singleton. destruct fails.
    + apply H9 in Hev as [t Hev]. congruence.
    + apply H8 in Hev. congruence.
  - intros i hd' y. destruct (decide (i = id)) as [->|].
    + rewrite list_lookup_insert_eq by done. intros ? Hy. simplify_eq/=. eapply H11; [done|].
      rewrite Hq. by right.
    + rewrite list_lookup_insert_ne by done. apply H11.
Qed.

Lemma worker_block_ok h asg pool evs id hd b q :
  pool_ok h asg pool evs → handles pool !! id = Some hd → inbox hd = MBlock b :: q →
  closed hd = false →
  pool_ok h asg
    {| handles := <[id := {| inbox := q; closed := false |}]> (handles pool);
       available_bits := available_bits pool |} evs.
Proof.
  intros Hp Hid Hq Hcl. pose proof (lookup_lt_Some _ _ _ Hid) as Hlt.
  destruct Hp as [H1 H2 H3 H4 H5 H6 H7 H8 H9 H10 H11]. split; simpl; rewrite ?length_insert; auto.
  - intros i hd'. destruct (decide (i = id)) as [->|].
    + rewrite list_lookup_insert_eq by done. intros ?. simplify_eq/=.
      rewrite <- (H6 _ _ Hid), Hq. done.
    + rewrite list_lookup_insert_ne by done. apply H6.
  - intros i hd'. destruct (decide (i = id)) as [->|].
    + rewrite list_lookup_insert_eq by done. intros ?. by simplify_eq/=.
    + rewrite list_lookup_insert_ne by done. apply H7.
  - intros i hd' y. destruct (decide (i = id)) as [->|].
    + rewrite list_lookup_insert_eq by done. intros ? Hy. simplify_eq/=. eapply H11; [done|].
      rewrite Hq. by right.
    + rewrite list_lookup_insert_ne by done. apply H11.
Qed.

Lemma worker_step_ok w id fails w' :
  world_ok w → worker_step w id fails = Some w' → world_ok w'.
Proof.
  intros [[x Hx]|(h & asg & Hl)] Hst; unfold worker_step in Hst;
    destruct (handles _ !! id) as [hd|] eqn:Hid; simplify_eq; destruct (closed hd) eqn:Hcl;
    simplify_eq; destruct (inbox hd) as [|[y|b] q] eqn:Hq; simplify_eq.
  1,2: left; by exists x.
  - destruct Hl as ([Ht Hp] & Hb & Hctl). right. eexists h, _.
    pose proof (worker_report_ok h asg _ _ id hd y q fails Hp Hid Hq Hcl) as Hp'.
    unfold live, core; simpl. split_and!; [exact Ht|exact Hp'| |].
    + unfold bound, capacity in *. simpl. by rewrite length_insert.
    + destruct (control w); auto.
  - destruct Hl as ([Ht Hp] & Hb & Hctl). right. exists h, asg.
    pose proof (worker_block_ok h asg _ _ id hd b q Hp Hid Hq Hcl) as Hp'.
    unfold live, core; simpl. split_and!; [exact Ht|exact Hp'| |].
    + unfold bound, capacity in *. simpl. by rewrite length_insert.
    + destruct (control w); auto.
Qed.

Lemma step_ok w w' : world_ok w → step crypto w w' → world_ok w'.
Proof.
  intros Hw Hst. destruct Hst as [w m Hs Ha Hm|w e rest He Hc|w k Hk Hem|w g ans Hc|w g res Hc|w Hs|w id fails w' Hwk].
  - by apply receive_ok.
  - by apply deliver_ok.
  - by apply drain_finish_ok.
  - destruct Hw as [[x Hx]|(h & asg & Hl)]; [congruence|]. destruct ans; [|apply stop_ok].
    unfold live in Hl. rewrite Hc in Hl. right. exists h, asg. unfold live. simpl. done.
  - destruct Hw as [[x Hx]|(h & asg & Hl & Hb & Hh)]; [congruence|]. rewrite Hc in Hh. subst h.
    destruct res; [|by eapply drain_start_ok].
    right. exists empty_history, asg. unfold live. simpl. split_and!; auto. right.
    destruct Hl as [[P Ht] _]. destruct (ready (ordering (seqr w))) as [|y l] eqn:E1; [done|].
    assert (Hy : y ∈ ready (ordering (seqr w))) by (rewrite E1; left).
    apply (ok_ready _ _ _ Ht) in Hy as [Hy _]. done.
  - destruct Hw as [[x Hx]|(h & asg & Hl & Hb & _)]; [congruence|]. by eapply drain_start_ok.
  - by eapply worker_step_ok.
Qed.

Lemma boot_ok count k p r : world_ok (boot count k p r).
Proof.
  right. exists empty_history, ∅. set (n := Z.to_nat (Z.max 1 (Z.min count MAX_EXECUTORS))).
  assert (Hn : (1 ≤ n ≤ 64)%nat) by (unfold n; change MAX_EXECUTORS with 64; lia).
  set (hs := replicate n {| inbox := []; closed := false |}).
  assert (Hlen : length hs = n) by apply length_replicate.
  unfold live, core, conserving, bound, capacity; simpl. fold n hs. split_and!; auto.
  - exists (λ _, []). apply empty_ok.
  - split; simpl; fold n hs; rewrite ?Hlen; auto.
    + intros i. fold (available_bits (pool_new hs)). pose proof (pool_new_bits hs i) as Hb.
      rewrite Hlen in Hb. unfold pool_new in Hb. simpl in Hb. rewrite Hlen in Hb.
      unfold pool_new. simpl. rewrite Hb, bool_decide_eq_true by done.
      rewrite lookup_empty. naive_solver.
    + intros i x. by rewrite lookup_empty.
    + intros i j t a b. by rewrite lookup_empty.
    + intros t. split; [set_solver|]. intros (i & a & Hi). by rewrite lookup_empty in Hi.
    + intros i hd Hi. apply lookup_replicate in Hi as [-> _]. by rewrite lookup_empty.
    + intros i hd Hi. apply lookup_replicate in Hi as [-> _]. done.
    + intros i t. rewrite lookup_empty. split; [by intros ?%elem_of_nil|done].
    + intros i. split; [by intros ?%elem_of_nil|]. intros [t Ht]. by rewrite lookup_empty in Ht.
    + constructor.
    + intros i hd x Hi. apply lookup_replicate in Hi as [-> _]. by intros ?%elem_of_nil.
  - rewrite Hlen. change MAX_PENDING_EXECUTOR_TXNS with 16. lia.
Qed.

Definition reachable count k p r w : Prop := rtc (step crypto) (boot count k p r) w.

Lemma reachable_world_ok count k p r w : reachable count k p r w → world_ok w.
Proof.
  intros Hr. assert (H0 : world_ok (boot count k p r)) by apply boot_ok. revert H0.
  induction Hr as [|x y z Hxy _ IH]; [done|]. intros Hx. by eapply IH, step_ok.
Qed.

(** ** Measure of a drain *)

Definition weight (m : ExecutorMessage) : Z :=
  match m with MTransaction _ => -1 | MBlock _ => 1 end.
Definition inbox_weight (q : list ExecutorMessage) : Z := foldr (λ m n, weight m + n) 0 q.
Definition pool_weight (hs : list ExecutorHandle) : Z :=
  foldr (λ hd n, inbox_weight (inbox hd) + n) 0 hs.

(** Remaining steps of a drain: three per unfinished transaction, less the ones a
    transaction in a channel has already made, and one per pending block message; the
    constant term keeps it nonnegative, as each worker holds at most one transaction. *)
Definition drain_measure w : Z :=
  3 * outstanding (ordering (seqr w)) + pool_weight (handles (executors (seqr w)))
  - 2 * Z.of_nat (length (events w)) + 3 * capacity (executors (seqr w)).

Lemma inbox_weight_snoc q m : inbox_weight (q ++ [m]) = inbox_weight q + weight m.
Proof.
  unfold inbox_weight. induction q as [|a q IH]; simpl in *; lia.
Qed.

Lemma pool_weight_insert hs id hd hd' :
  hs !! id = Some hd →
  pool_weight (<[id := hd']> hs) = pool_weight hs - inbox_weight (inbox hd) + inbox_weight (inbox hd').
Proof.
  unfold pool_weight. revert id. induction hs as [|a hs IH]; intros [|id] Hid; simpl in *; simplify_eq.
  - lia.
  - rewrite (IH id Hid). lia.
Qed.

Lemma dispatch_weight pool id x e' :
  dispatch pool id x = Ok e' → pool_weight (handles e') = pool_weight (handles pool) - 1.
Proof.
  unfold dispatch, send. destruct (handles pool !! id) as [hd|] eqn:Hid; [|done].
  destruct (closed hd); [done|]. simpl. intros [= <-]. simpl.
  rewrite (pool_weight_insert _ _ _ _ Hid). simpl. rewrite inbox_weight_snoc. simpl. lia.
Qed.

Lemma dispatch_loop_weight fuel s s' :
  dispatch_loop (E := E) fuel s = Ok s' →
  pool_weight (handles (executors s')) ≤ pool_weight (handles (executors s)).
Proof.
  revert s. induction fuel as [|fuel IH]; intros s; simpl; [intros [= ->]; lia|].
  destruct (available _); [|intros [= ->]; lia].
  destruct (take_ready _) as [[x o]|]; [|intros [= ->]; lia].
  destruct (dispatch _ _ _) as [e'|] eqn:Ed; simpl; [|done]. intros Hs.
  apply IH in Hs. simpl in Hs. apply dispatch_weight in Ed. lia.
Qed.

Lemma deliver_measure w e rest k :
  world_ok w → control w = DrainingTo k → events w = e :: rest →
  control (deliver w e rest) = DrainingTo k → drain_measure (deliver w e rest) < drain_measure w.
Proof.
  intros [[x Hx]|(h & asg & Hl)] Hk He Hk'; [congruence|].
  destruct Hl as ([[P Ht] Hp] & _). rewrite He in Hp. unfold deliver, handle_event in *. simpl in *.
  destruct e as [id t|id]; [|done].
  destruct (release_ok _ _ _ _ _ _ Hp) as [Hrun Hp'].
  pose proof (complete_ok h P _ Ht t Hrun) as Ht'.
  set (s0 := with_pool _ _ _) in *.
  destruct (dispatch_ready_ok _ (delete id asg) s0 rest (conj (ex_intro _ P Ht') Hp'))
    as (s' & h' & asg' & Es & _ & _ & _ & (_ & _ & _ & _ & Ho & Hlen) & _).
  rewrite Es in *. unfold drain_measure, capacity. simpl. rewrite Ho, He, Hlen.
  unfold dispatch_ready in Es. apply dispatch_loop_weight in Es.
  unfold s0 in Es |- *. simpl in Es |- *.
  destruct (complete_facts h P _ Ht t Hrun) as (deps & _ & _ & _ & Hout & _). rewrite Hout. lia.
Qed.

Lemma worker_measure w id fails w' :
  worker_step w id fails = Some w' → drain_measure w' < drain_measure w.
Proof.
  unfold worker_step. intros Hst. destruct (handles _ !! id) as [hd|] eqn:Hid; simplify_eq.
  destruct (closed hd); simplify_eq. destruct (inbox hd) as [|[y|b] q] eqn:Hq; simplify_eq;
    unfold drain_measure, capacity; simpl; rewrite (pool_weight_insert _ _ _ _ Hid), Hq; simpl;
    rewrite ?length_app, length_insert; unfold inbox_weight at 1; simpl; fold (inbox_weight q); lia.
Qed.

Lemma inbox_weight_bound q : - Z.of_nat (length (tickets_in q)) ≤ inbox_weight q.
Proof.
  induction q as [|m q IH]; [done|]. rewrite tickets_in_cons, length_app.
  unfold inbox_weight in *. destruct m; simpl in *; lia.
Qed.

Lemma pool_weight_bound h asg pool evs :
  pool_ok h asg pool evs → - Z.of_nat (length (handles pool)) ≤ pool_weight (handles pool).
Proof.
  intros Hp. assert (Hq : ∀ hd, hd ∈ handles pool → -1 ≤ inbox_weight (inbox hd)).
  { intros hd [i Hi]%list_elem_of_lookup. pose proof (inbox_weight_bound (inbox hd)) as Hb.
    rewrite (pk_inbox _ _ _ _ Hp i hd Hi) in Hb.
    destruct (asg !! i) as [[t [| |]]|]; simpl in Hb; lia. }
  revert Hq. generalize (handles pool). intros hs. unfold pool_weight.
  induction hs as [|hd hs IH]; intros Hq; simpl; [lia|].
  pose proof (Hq hd ltac:(left)). assert (∀ hd, hd ∈ hs → -1 ≤ inbox_weight (inbox hd)) as Hq'.
  { intros hd' ?. apply Hq. by right. } specialize (IH Hq'). lia.
Qed.

Definition event_id (e : ExecutorEvent) : ExecutorId :=
  match e with Completed i _ => i | Failed i => i end.

Lemma events_bound h asg pool evs :
  pool_ok h asg pool evs → (length evs ≤ length (handles pool))%nat.
Proof.
  intros Hp. rewrite <- (length_fmap event_id), <- (length_seq (length (handles pool)) 0).
  apply submseteq_length, NoDup_submseteq.
  - apply NoDup_fmap_2_strong; [|apply (pk_nodup _ _ _ _ Hp)].
    intros [i t|i] [j u|j] Hx Hy; simpl; intros ->; auto.
    + apply (pk_completed _ _ _ _ Hp) in Hx, Hy. congruence.
    + apply (pk_completed _ _ _ _ Hp) in Hx. apply (pk_failed _ _ _ _ Hp) in Hy as [? ?]. congruence.
    + apply (pk_completed _ _ _ _ Hp) in Hy. apply (pk_failed _ _ _ _ Hp) in Hx as [? ?]. congruence.
  - intros i (e & -> & He)%list_elem_of_fmap. apply elem_of_seq. split; [lia|]. destruct e as [i t|i].
    + apply (pk_completed _ _ _ _ Hp) in He. by eapply (pk_dom _ _ _ _ Hp).
    + apply (pk_failed _ _ _ _ Hp) in He as [? He]. by eapply (pk_dom _ _ _ _ Hp).
Qed.

Lemma drain_measure_nonneg w h asg : core h asg (seqr w) (events w) → 0 ≤ drain_measure w.
Proof.
  intros [[P Ht] Hp]. pose proof (pool_weight_bound _ _ _ _ Hp). pose proof (events_bound _ _ _ _ Hp).
  assert (0 ≤ outstanding (ordering (seqr w))).
  { rewrite (ok_outstanding _ _ _ Ht). assert (size (done h) ≤ length (txs h))%nat; [|lia].
    rewrite <- (length_seq (length (txs h)) 0), <- (size_list_to_set (C := gset nat)) by apply NoDup_seq.
    apply subseteq_size. intros j Hj%(ok_done _ _ _ Ht). apply elem_of_list_to_set, elem_of_seq. lia. }
  unfold drain_measure, capacity. lia.
Qed.

(** A drain that is not finished has a worker to run or a report to take. *)
Lemma drain_progress w h asg :
  core h asg (seqr w) (events w) → conserving (seqr w) →
  is_empty (ordering (seqr w)) = false →
  events w ≠ [] ∨ ∃ id w', worker_step w id false = Some w'.
Proof.
  intros [[P Ht] Hp] Hcons He. apply Z.eqb_neq in He.
  assert (Hpos : 0 < outstanding (ordering (seqr w))).
  { rewrite (ok_outstanding _ _ _ Ht) in *. assert (size (done h) ≤ length (txs h))%nat; [|lia].
    rewrite <- (length_seq (length (txs h)) 0), <- (size_list_to_set (C := gset nat)) by apply NoDup_seq.
    apply subseteq_size. intros j Hj%(ok_done _ _ _ Ht). apply elem_of_list_to_set, elem_of_seq. lia. }
  assert (Hasg : ∃ i t p, asg !! i = Some (t, p)).
  { destruct Hcons as [Hav|Hr].
    - pose proof (pk_count _ _ _ _ Hp) as Hn. destruct (asg !! 0%nat) as [[t p]|] eqn:E0; [eauto|].
      exfalso. pose proof (available_None _ 0 Hav ltac:(lia)) as Hb.
      assert (Z.testbit (available_bits (executors (seqr w))) (Z.of_nat 0) = true); [|congruence].
      apply (pk_bits _ _ _ _ Hp). split; [lia|done].
    - destruct (least_unfinished h P _ Ht Hpos) as (j & r & Hj & Hd & Hpd).
      destruct (placed h P _ j r Ht Hj Hd) as [[? _]|[(_ & _ & Hin)|[_ Hrun]]]; [done| |].
      + rewrite Hr in Hin. by apply elem_of_nil in Hin.
      + apply (pk_running _ _ _ _ Hp) in Hrun as (i & p & Hi). eauto. }
  destruct Hasg as (i & t & p & Hi).
  destruct (lookup_lt_is_Some_2 _ _ (pk_dom _ _ _ _ Hp i _ Hi)) as [hd Hhd]. destruct p.
  - right. exists i. unfold worker_step. rewrite Hhd.
    destruct (closed hd) eqn:Hc.
    { destruct (pk_closed _ _ _ _ Hp i hd Hhd Hc) as [u Hu]. congruence. }
    pose proof (pk_inbox _ _ _ _ Hp i hd Hhd) as Hq. rewrite Hi in Hq. simpl in Hq.
    destruct (inbox hd) as [|[x|b] q]; [done|eauto..].
  - left. intros E0. apply (pk_completed _ _ _ _ Hp) in Hi. rewrite E0 in Hi. by apply elem_of_nil in Hi.
  - left. intros E0. assert (Hf : Failed i ∈ events w) by (apply (pk_failed _ _ _ _ Hp); eauto).
    rewrite E0 in Hf. by apply elem_of_nil in Hf.
Qed.

Lemma draining_step_measure w w' k :
  world_ok w → control w = DrainingTo k → step crypto w w' → control w' = DrainingTo k →
  drain_measure w' < drain_measure w.
Proof.
  intros Hw Hk Hst Hk'.
  destruct Hst as [w m Hs|w e rest He Hc|w k' Hkk Hem|w g ans Hc|w g res Hc|w Hs|w id fails w' Hwk];
    try congruence.
  - by eapply deliver_measure.
  - exfalso. unfold drain_finish, finalize_commit in Hk'. destruct k' as [b g|g|g|]; try done.
    destruct (map_err _ _) as [e|]; [|done]. simpl in Hk'.
    destruct (append_block _ _ _) as [? [?|?]]; [|done]. by destruct g.
  - by eapply worker_measure.
Qed.

(** ** Hash chain *)

Lemma dispatch_loop_hasher fuel s s' :
  dispatch_loop (E := E) fuel s = Ok s' → hasher s' = hasher s.
Proof.
  revert s. induction fuel as [|fuel IH]; intros s; simpl; [by intros [= ->]|].
  destruct (available _); [|by intros [= ->]].
  destruct (take_ready _) as [[x o]|]; [|by intros [= ->]].
  destruct (dispatch _ _ _); simpl; [|done]. intros Hs. by apply IH in Hs.
Qed.

(** Whether [schedule] admits a transaction. *)
Definition admits s (r : ExecutionRequest) : bool :=
  replay s || match (append_transaction (keeper s) r).2 with Ok (Ok _) => true | _ => false end.

Lemma schedule_hasher s r s' :
  schedule s r = Ok s' →
  hasher s' = if admits s r then hasher_update (hasher s) (first_signature r) else hasher s.
Proof.
  unfold schedule, admits. destruct (replay s); simpl.
  { intros Hs. by apply dispatch_loop_hasher in Hs. }
  destruct (append_transaction _ _) as [k [[[]|]|]]; simpl; [| |done].
  - intros Hs. by apply dispatch_loop_hasher in Hs.
  - by intros [= <-].
Qed.

Lemma finalize_commit_hasher s b s' :
  finalize_commit s b = Ok s' → hasher s' = hasher_advance (hasher s) (block_hash (payload b)).
Proof.
  unfold finalize_commit. destruct (map_err _ _); simpl; [|done].
  destruct (append_block _ _ _) as [k [?|?]]; [|done]. by intros [= <-].
Qed.

End system.

(** The hasher after a block's worth of admitted signatures. *)
Definition fed (p : Hash) (sigs : list (list Z)) : BlockHasher :=
  foldl hasher_update (hasher_new p) sigs.

Lemma fed_eq p sigs : fed p sigs = {| current := p ++ concat sigs; parent := p |}.
Proof.
  unfold fed, hasher_new. assert (H : ∀ acc, foldl hasher_update {| current := acc; parent := p |} sigs =
    {| current := acc ++ concat sigs; parent := p |}).
  { induction sigs as [|x l IH]; intros acc; simpl; [by rewrite app_nil_r|].
    unfold hasher_update at 2. simpl. by rewrite IH, app_assoc. }
  apply H.
Qed.

Lemma concat_inj (n : nat) (l1 l2 : list (list Z)) :
  (0 < n)%nat → Forall (λ x, length x = n) l1 → Forall (λ x, length x = n) l2 →
  concat l1 = concat l2 → l1 = l2.
Proof.
  intros Hn H1. revert l2. induction H1 as [|x l1 Hx _ IH]; intros l2 H2 E.
  - destruct H2 as [|y l2 Hy _]; [done|]. simpl in E. destruct y; simpl in *; [lia|done].
  - destruct H2 as [|y l2 Hy H2]; simpl in E; [destruct x; simpl in *; [lia|done]|].
    apply app_inj_1 in E as [-> E]; [|congruence]. f_equal. by apply IH.
Qed.

(** ** Properties *)

(** The executors hold disjoint work: in every reachable state of a running sequencer,
    a worker marked available has an empty channel but for block messages, no worker holds
    two transactions, and the transactions held by two workers at the same time never
    conflict. *)
Theorem executors_hold_disjoint_work {K E R} `{KeeperApi K E R} crypto count k p r w :
  reachable crypto count k p r w → (∀ e, control w ≠ Stopped e) →
  (∀ i hd, handles (executors (seqr w)) !! i = Some hd →
     (length (tickets_in (inbox hd)) ≤ 1)%nat ∧
     (Z.testbit (available_bits (executors (seqr w))) (Z.of_nat i) = true →
      tickets_in (inbox hd) = [])) ∧
  (∀ i j hi hj x y,
     handles (executors (seqr w)) !! i = Some hi → handles (executors (seqr w)) !! j = Some hj →
     MTransaction x ∈ inbox hi → MTransaction y ∈ inbox hj → i ≠ j →
     ¬ conflict (request x) (request y)).
Proof.
  intros Hr Hns. destruct (reachable_world_ok crypto count k p r w Hr) as [[e He]|(h & asg & Hl)].
  { by destruct (Hns e). }
  destruct Hl as ([[P Ht] Hp] & _ & _). split.
  - intros i hd Hi. rewrite (pk_inbox _ _ _ _ Hp i hd Hi). split.
    + destruct (asg !! i) as [[t [| |]]|]; simpl; lia.
    + intros [_ Hn]%(pk_bits _ _ _ _ Hp). by rewrite Hn.
  - intros i j hi hj x y Hi Hj Hx Hy Hij.
    assert (Hq : ∀ i hd z, handles (executors (seqr w)) !! i = Some hd → MTransaction z ∈ inbox hd →
      asg !! i = Some (ticket z, Queued)).
    { intros i' hd z Hi' Hz. pose proof (pk_inbox _ _ _ _ Hp i' hd Hi') as Hq.
      assert (Hin : ticket z ∈ tickets_in (inbox hd)) by (apply list_elem_of_omap; by exists (MTransaction z)).
      rewrite Hq in Hin. destruct (asg !! i') as [[t [| |]]|]; simpl in Hin;
        [apply list_elem_of_singleton in Hin; by subst|by apply elem_of_nil in Hin..]. }
    pose proof (Hq i hi x Hi Hx) as Ax. pose proof (Hq j hj y Hj Hy) as Ay.
    assert (Hne : ticket x ≠ ticket y).
    { intros E1. rewrite E1 in Ax. by apply Hij, (pk_inj _ _ _ _ Hp i j (ticket y) Queued Queued). }
    apply (running_no_conflict h P (ordering (seqr w)) (ticket x) (ticket y)); auto.
    + apply (pk_running _ _ _ _ Hp). eauto.
    + apply (pk_running _ _ _ _ Hp). eauto.
    + by eapply (pk_request _ _ _ _ Hp i hi).
    + by eapply (pk_request _ _ _ _ Hp j hj).
Qed.

(** Work conservation and backpressure: whenever the sequencer waits for its next
    message or completion, no ready transaction is left while an executor is available, and
    accepted unfinished transactions never exceed sixteen per executor. *)
Theorem sequencer_work_conserving {K E R} `{KeeperApi K E R} crypto count k p r w :
  reachable crypto count k p r w → control w = Serving ∨ (∃ c, control w = DrainingTo c) →
  (available (executors (seqr w)) = None ∨ ready (ordering (seqr w)) = []) ∧
  outstanding (ordering (seqr w)) ≤ MAX_PENDING_EXECUTOR_TXNS * capacity (executors (seqr w)).
Proof.
  intros Hr Hc. destruct (reachable_world_ok crypto count k p r w Hr) as [[e He]|(h & asg & Hl)].
  { destruct Hc as [Hc|[c Hc]]; congruence. }
  destruct Hl as (_ & Hb & Hcons). split; [|exact Hb]. destruct Hc as [Hc|[c Hc]]; by rewrite Hc in Hcons.
Qed.

(** Acknowledged pauses are quiescent: while a barrier, checkpoint or shutdown guard
    holds the sequencer, the ordering table is empty, no worker holds a transaction, every
    worker is available and no report is in flight. *)
Theorem paused_is_quiescent {K E R} `{KeeperApi K E R} crypto count k p r w g resume :
  reachable crypto count k p r w → control w = Paused g resume →
  outstanding (ordering (seqr w)) = 0 ∧ ready (ordering (seqr w)) = [] ∧
  blocked (ordering (seqr w)) = ∅ ∧ events w = [] ∧
  ∀ i hd, handles (executors (seqr w)) !! i = Some hd →
    tickets_in (inbox hd) = [] ∧ closed hd = false ∧
    Z.testbit (available_bits (executors (seqr w))) (Z.of_nat i) = true.
Proof.
  intros Hr Hc. destruct (reachable_world_ok crypto count k p r w Hr) as [[e He]|(h & asg & Hl)].
  { congruence. }
  destruct Hl as (Hcore & _ & Hh). rewrite Hc in Hh. subst h.
  pose proof (empty_assignment _ _ _ Hcore) as ->. destruct Hcore as [[P Ht] Hp]. split_and!.
  - by rewrite (ok_outstanding _ _ _ Ht).
  - destruct (ready _) as [|x l] eqn:E1; [done|].
    assert (Hx : x ∈ ready (ordering (seqr w))) by (rewrite E1; left).
    by apply (ok_ready _ _ _ Ht) in Hx as [Hx _].
  - apply map_empty. intros i. destruct (blocked _ !! i) eqn:E1; [|done].
    by apply (ok_blocked _ _ _ Ht) in E1 as [E1 _].
  - destruct (events w) as [|[i t|i] l] eqn:E1; [done|..]; exfalso.
    + assert (Hi : Completed i t ∈ Completed i t :: l) by left.
      apply (pk_completed _ _ _ _ Hp) in Hi. by rewrite lookup_empty in Hi.
    + assert (Hi : Failed i ∈ Failed i :: l) by left.
      apply (pk_failed _ _ _ _ Hp) in Hi as [t Hi]. by rewrite lookup_empty in Hi.
  - intros i hd Hi. rewrite (pk_inbox _ _ _ _ Hp i hd Hi), lookup_empty. split_and!; auto.
    + destruct (closed hd) eqn:Hcl; [|done]. destruct (pk_closed _ _ _ _ Hp i hd Hi Hcl) as [t Ht'].
      by rewrite lookup_empty in Ht'.
    + apply (pk_bits _ _ _ _ Hp). split; [by eapply lookup_lt_Some|apply lookup_empty].
Qed.

(** Every drain ends: from any reachable draining state, either the table is empty and
    the drain finishes, or some worker can complete its transaction or a report can be
    taken; and every step that leaves the sequencer draining strictly decreases a
    nonnegative measure, so a drain cannot go on forever or get stuck. *)
Theorem drain_terminates {K E R} `{KeeperApi K E R} crypto count k p r w c :
  reachable crypto count k p r w → control w = DrainingTo c →
  0 ≤ drain_measure w ∧
  (is_empty (ordering (seqr w)) = false →
   events w ≠ [] ∨ ∃ id w', worker_step w id false = Some w') ∧
  (∀ w', step crypto w w' → control w' = DrainingTo c → drain_measure w' < drain_measure w).
Proof.
  intros Hr Hc. pose proof (reachable_world_ok crypto count k p r w Hr) as Hw.
  pose proof Hw as [[e He]|(h & asg & Hl)]; [congruence|].
  destruct Hl as (Hcore & _ & Hcons). rewrite Hc in Hcons. split_and!.
  - by eapply drain_measure_nonneg.
  - by eapply drain_progress.
  - intros w' Hst Hc'. by eapply draining_step_measure.
Qed.



(** A block hash binds the order of its transactions: with a collision-free hash, a block
    that matches the local chain after two sequences of 64-byte signatures pins both the
    parent and the whole sequence, so replaying transactions missing, added or reordered is
    detected at the boundary. *)
Theorem block_hash_binds_order crypto p1 p2 sigs1 sigs2 b :
  (∀ x y, blake3 crypto x = blake3 crypto y → x = y) →
  Forall (λ x, length x = 64%nat) sigs1 → Forall (λ x, length x = 64%nat) sigs2 →
  matches_chain crypto (fed p1 sigs1) b = true →
  matches_chain crypto (fed p2 sigs2) b = true →
  p1 = p2 ∧ sigs1 = sigs2.
Proof.
  rewrite !fed_eq. unfold matches_chain, hasher_finalize. simpl.
  intros Hinj H1 H2 [A1 B1]%andb_true_iff [A2 B2]%andb_true_iff. bool_to_prop.
  assert (p1 = p2) as -> by congruence. split; [done|].
  assert (E : p2 ++ concat sigs1 = p2 ++ concat sigs2) by (apply Hinj; congruence).
  apply app_inv_head in E. by apply (concat_inj 64); [lia|..].
Qed.

(** ** Witnesses: two executors, a keeper that admits everything *)

#[local] Instance ex_keeper : KeeperApi Z unit unit := {|
  append_transaction k _ := (k, Ok (Ok tt));
  append_block k b _ := (block_slot (payload b), Ok tt);
  current_slot k := k + 1;
|}.
Definition ex_crypto : Crypto := {| blake3 x := x; sign b := block_hash b |}.

Abbreviation ex_world := (world (K := Z) (E := unit)).
Definition ex_boot : ex_world := boot 2 7 [0] false.
Definition ex_after_x : ex_world := receive ex_crypto ex_boot (MsgTransaction ex_x).
Definition ex_after_y : ex_world := receive ex_crypto ex_after_x (MsgTransaction ex_y).
Definition ex_draining : ex_world := receive ex_crypto ex_after_y (MsgShutdown 5).

Lemma ex_receive_x : step ex_crypto ex_boot ex_after_x.
Proof.
  apply step_receive; [reflexivity|vm_compute; reflexivity|]. intros r [= <-].
  split; [apply ex_unique|vm_compute; reflexivity].
Qed.
Lemma ex_receive_y : step ex_crypto ex_after_x ex_after_y.
Proof.
  apply step_receive; [vm_compute; reflexivity|vm_compute; reflexivity|]. intros r [= <-].
  split; [apply ex_unique|vm_compute; reflexivity].
Qed.
Lemma ex_shutdown : step ex_crypto ex_after_y ex_draining.
Proof. apply step_receive; [vm_compute; reflexivity|vm_compute; reflexivity|]. intros r [=]. Qed.

Lemma ex_reach_y : reachable ex_crypto 2 7 [0] false ex_after_y.
Proof. eapply rtc_l; [exact ex_receive_x|]. eapply rtc_l; [exact ex_receive_y|apply rtc_refl]. Qed.
Lemma ex_reach_draining : reachable ex_crypto 2 7 [0] false ex_draining.
Proof. eapply rtc_r; [exact ex_reach_y|exact ex_shutdown]. Qed.

Lemma executors_hold_disjoint_work_witness :
  ∃ hd, handles (executors (seqr ex_after_y)) !! 0%nat = Some hd ∧
        (length (tickets_in (inbox hd)) ≤ 1)%nat.
Proof.
  destruct (executors_hold_disjoint_work ex_crypto 2 7 [0] false ex_after_y ex_reach_y) as [H _].
  - vm_compute. discriminate.
  - eexists. split; [vm_compute; reflexivity|]. apply (H 0%nat). vm_compute. reflexivity.
Defined.

Lemma sequencer_work_conserving_witness :
  (available (executors (seqr ex_after_y)) = None ∨ ready (ordering (seqr ex_after_y)) = []) ∧
  outstanding (ordering (seqr ex_after_y)) ≤ 32.
Proof.
  apply (sequencer_work_conserving ex_crypto 2 7 [0] false ex_after_y ex_reach_y).
  left. vm_compute. reflexivity.
Defined.

Lemma drain_terminates_witness :
  0 ≤ drain_measure ex_draining ∧
  (events ex_draining ≠ [] ∨ ∃ id w', worker_step ex_draining id false = Some w').
Proof.
  destruct (drain_terminates ex_crypto 2 7 [0] false ex_draining (KShutdown 5) ex_reach_draining)
    as (H1 & H2 & _); [vm_compute; reflexivity|].
  split; [exact H1|]. apply H2. vm_compute. reflexivity.
Defined.

(** The shutdown of an idle sequencer acknowledges and pauses. *)
Definition ex_idle_drain : ex_world := receive ex_crypto ex_boot (MsgShutdown 5).
Definition ex_paused : ex_world := drain_finish ex_idle_drain (KShutdown 5).

Lemma ex_reach_paused : reachable ex_crypto 2 7 [0] false ex_paused.
Proof.
  eapply rtc_l; [apply (step_receive _ _ (MsgShutdown 5));
    [vm_compute; reflexivity|vm_compute; reflexivity|intros r [=]]|].
  eapply rtc_l; [apply (step_drained _ _ (KShutdown 5)); vm_compute; reflexivity|apply rtc_refl].
Qed.

Lemma paused_is_quiescent_witness :
  control ex_paused = Paused 5 false ∧ acknowledged ex_paused = [5%nat] ∧
  outstanding (ordering (seqr ex_paused)) = 0 ∧ events ex_paused = [].
Proof.
  destruct (paused_is_quiescent ex_crypto 2 7 [0] false ex_paused 5 false ex_reach_paused)
    as (H1 & _ & _ & H2 & _); [vm_compute; reflexivity|].
  split_and!; [vm_compute; reflexivity|vm_compute; reflexivity|exact H1|exact H2].
Defined.


Lemma block_hash_binds_order_witness :
  let sigs := [replicate 64 3; replicate 64 4] in [9] = [9] ∧ sigs = sigs.
Proof.
  intros sigs.
  apply (block_hash_binds_order ex_crypto [9] [9] sigs sigs
    (produce ex_crypto (fed [9] sigs)
       {| block_slot := 1; block_hash := []; block_time := 2; block_parent := [] |})).
  - intros x y E. exact E.
  - repeat apply Forall_cons_2; try reflexivity. apply Forall_nil_2.
  - repeat apply Forall_cons_2; try reflexivity. apply Forall_nil_2.
  - vm_compute. reflexivity.
  - vm_compute. reflexivity.
Defined.
