(* ===== verification/Storage.v ===== *)
(** * Mapped storage ([accountsdb/src/store/mmap.rs])

    The account file: a metadata header, then account images addressed in storage
    units. The mapping is a byte memory whose image region starts at [head]; the header
    is a record, because nothing addresses it but the accessors. File calls may fail:
    what the operating system answers is a parameter, and an operation returns the
    storage it leaves next to its result, since an error does not undo what happened
    before it. *)

From stdpp Require Import base list numbers option.
From S2P Require Import Prelude AccountMode Memory Account.

Local Open Scope Z_scope.

(** ** Errors

    Errors of the operating system, of LMDB and of serde are opaque codes. *)

Abbreviation ErrorCode := Z.

Inductive AccountsDBError :=
| Codec (e : ErrorCode)
| IO (e : ErrorCode)
| IndexError (e : ErrorCode)
| Allocation
| UnsupportedVersion (v : Z)
| Corruption
| Serde (e : ErrorCode).

#[export] Instance AccountsDBError_eq_dec : EqDecision AccountsDBError.
Proof. solve_decision. Defined.

(** What the operating system answers to the file calls of [resize] and [flush], given
    the length concerned. *)
Class FileIo := {
  io_metadata : Z → result ErrorCode unit;
  io_set_len : Z → result ErrorCode unit;
  io_flush : Z → result ErrorCode unit;
  io_mmap_flush : Z → result ErrorCode unit;
}.

(** ** Constants of the default build *)

Definition MB : Z := 1024 * 1024.
Definition GB : Z := 1024 * MB.
Definition DATABASE_META_RESERVATION : Z := 256.
Definition STORAGE_BLOCK : Z := 256 * MB.
Definition INIT_STORAGE_SIZE : Z := STORAGE_BLOCK + DATABASE_META_RESERVATION.
Definition MMAP_SIZE : Z := 1024 * GB.
Definition STORAGE_CAPACITY : Z := (MMAP_SIZE - DATABASE_META_RESERVATION) / STORAGE_UNIT.
Definition VERSION : Z := 1.

(** ** Data *)

Record Stats := {
  reads : Z; commits : Z; allocs : Z; reallocs : Z;
  compactions : Z; removals : Z; resizes : Z;
}.

Record DatabaseMeta := {
  version : Z;
  checksum : Z;
  meta_slot : Z;
  superblock : Z;
  transactions : Z;
  len : Z;
  stats : Stats;
  cursor : Z;
  chain_slot : Z;
}.

Record MappedStorage := {
  mm : mem;
  head : Z;
  meta : DatabaseMeta;
  file_len : Z;
}.

(** Field updates. *)
Definition with_mem (s : MappedStorage) (m : mem) : MappedStorage :=
  {| mm := m; head := head s; meta := meta s; file_len := file_len s |}.
Definition with_meta (s : MappedStorage) (d : DatabaseMeta) : MappedStorage :=
  {| mm := mm s; head := head s; meta := d; file_len := file_len s |}.
Definition with_file_len (s : MappedStorage) (n : Z) : MappedStorage :=
  {| mm := mm s; head := head s; meta := meta s; file_len := n |}.

Inductive MetaField :=
| PChecksum (v : Z) | PSlot (v : Z) | PSuperblock (v : Z) | PTransactions (v : Z)
| PLen (v : Z) | PStats (v : Stats) | PCursor (v : Z) | PChainSlot (v : Z).

Definition meta_put (d : DatabaseMeta) (f : MetaField) : DatabaseMeta :=
  let '(Build_DatabaseMeta ver c sl sb t l st cu ch) := d in
  match f with
  | PChecksum v => Build_DatabaseMeta ver v sl sb t l st cu ch
  | PSlot v => Build_DatabaseMeta ver c v sb t l st cu ch
  | PSuperblock v => Build_DatabaseMeta ver c sl v t l st cu ch
  | PTransactions v => Build_DatabaseMeta ver c sl sb v l st cu ch
  | PLen v => Build_DatabaseMeta ver c sl sb t v st cu ch
  | PStats v => Build_DatabaseMeta ver c sl sb t l v cu ch
  | PCursor v => Build_DatabaseMeta ver c sl sb t l st v ch
  | PChainSlot v => Build_DatabaseMeta ver c sl sb t l st cu v
  end.

(** A store to one atomic of the header. *)
Definition meta_store (s : MappedStorage) (f : MetaField) : MappedStorage :=
  with_meta s (meta_put (meta s) f).

(** ** Counters *)

Inductive StatEvent :=
| SRead | SCommit | SAlloc | SRealloc | SCompact (count : Z) | SRemove | SResize.

Definition bump (st : Stats) (e : StatEvent) : Stats :=
  let '(Build_Stats r c a ra cp rm rs) := st in
  let inc := λ x, wrapping_add 64 x 1 in
  match e with
  | SRead => Build_Stats (inc r) c a ra cp rm rs
  | SCommit => Build_Stats r (inc c) a ra cp rm rs
  | SAlloc => Build_Stats r c (inc a) ra cp rm rs
  | SRealloc => Build_Stats r c a (inc ra) cp rm rs
  | SCompact n => Build_Stats r c a ra (wrapping_add 64 cp n) rm rs
  | SRemove => Build_Stats r c a ra cp (inc rm) rs
  | SResize => Build_Stats r c a ra cp rm (inc rs)
  end.

Definition count (s : MappedStorage) (e : StatEvent) : MappedStorage :=
  meta_store s (PStats (bump (stats (meta s)) e)).

(** ** Operations *)

Definition at_ (s : MappedStorage) (offset : Z) : Z := head s + STORAGE_UNIT * offset.

Definition bytes (units : Z) : Z := units * STORAGE_UNIT + DATABASE_META_RESERVATION.

Definition zero_stats : Stats := Build_Stats 0 0 0 0 0 0 0.

(** [DatabaseMeta] of a new file. *)
Definition initial_meta : DatabaseMeta :=
  Build_DatabaseMeta VERSION 0 1 0 0 INIT_STORAGE_SIZE zero_stats 0 0.

(** [MappedStorage::new] over the mapping [m] of a file of [flen] bytes whose header
    reads [disk]. *)
Definition storage_new (m : mem) (base flen : Z) (disk : DatabaseMeta) : MappedStorage :=
  let '(flen, d) := if flen =? 0 then (INIT_STORAGE_SIZE, initial_meta) else (flen, disk) in
  let s := {| mm := m; head := base + DATABASE_META_RESERVATION; meta := d; file_len := flen |} in
  meta_store s (PLen flen).

Definition storage_validate (s : MappedStorage) : result AccountsDBError unit :=
  if negb (version (meta s) =? VERSION) then Err (UnsupportedVersion (version (meta s)))
  else if (cursor (meta s) <=? STORAGE_CAPACITY) && (bytes (cursor (meta s)) <=? len (meta s))
       then Ok tt else Err Corruption.

Section files.
Context `{FileIo}.

Definition resize (s : MappedStorage) (n : Z) (cmp : Z → Z → bool)
    : MappedStorage * result ErrorCode unit :=
  match io_metadata (file_len s) with
  | Err e => (s, Err e)
  | Ok _ =>
      if cmp (file_len s) n then (s, Ok tt)
      else
        match io_set_len n with
        | Err e => (s, Err e)
        | Ok _ =>
            let s := with_file_len s n in
            match io_flush n with
            | Err e => (s, Err e)
            | Ok _ =>
                let s := count (meta_store s (PLen n)) SResize in
                (s, io_mmap_flush n)
            end
        end
  end.

Definition grow (s : MappedStorage) (n : Z) : MappedStorage * result AccountsDBError unit :=
  let n := div_ceil n STORAGE_BLOCK * STORAGE_BLOCK in
  if MMAP_SIZE <? n then (s, Err Allocation)
  else let '(s, r) := resize s n Z.geb in (s, map_err IO r).

(** One writer at a time: the compare-exchange of the loop succeeds at its first try. *)
Definition storage_allocate (s : MappedStorage) (units : Z)
    : MappedStorage * result AccountsDBError Z :=
  let offset := cursor (meta s) in
  match checked_add 64 offset units with
  | Some end_ =>
      if negb (end_ <=? STORAGE_CAPACITY) then (s, Err Allocation)
      else
        let needed := bytes end_ in
        let '(s, grown) := if len (meta s) <? needed then grow s needed else (s, Ok tt) in
        match grown with
        | Err e => (s, Err e)
        | Ok _ => (count (meta_store s (PCursor end_)) SAlloc, Ok offset)
        end
  | None => (s, Err Allocation)
  end.

Definition shrink (s : MappedStorage) (units : Z) : MappedStorage * result ErrorCode unit :=
  match resize s (bytes units) Z.leb with
  | (s, Ok _) => (meta_store s (PCursor units), Ok tt)
  | (s, Err e) => (s, Err e)
  end.

End files.
