(* ===== verification/Index.v ===== *)
(** * The LMDB index ([accountsdb/src/store/index.rs], [kv.rs])

    Three tables: accounts by key, account offsets by owner tag, and free offsets by span
    size, the last two with sorted duplicates. LMDB itself is a parameter: a [Database]
    gives the calls the code makes, which may all fail, and the laws state what the LMDB
    documentation says a successful call does. A write transaction is the state of the
    three tables as the transaction sees it; it becomes the committed state at commit and
    vanishes when dropped. *)

From stdpp Require Import base list gmap numbers option.
From S2P Require Import Prelude Account Storage.

Local Open Scope Z_scope.

(** ** Keys and values *)

Abbreviation KeyTail := (list Z).
Abbreviation Offset := Z.

(** [From<Pubkey> for KeyTail]: the last 16 bytes. *)
Definition key_tail (v : Pubkey) : KeyTail := take 16 (drop 16 v).

Record OwnerAndOffset := { tag : KeyTail; offset : Offset }.

#[export] Instance OwnerAndOffset_eq_dec : EqDecision OwnerAndOffset.
Proof. solve_decision. Defined.

(** The fixed-size value codec: 16 tag bytes, then the offset. *)
Definition encode_entry (e : OwnerAndOffset) : list Z := tag e ++ le_bytes 8 (offset e).
Definition decode_entry (bs : list Z) : option OwnerAndOffset :=
  if decide (length bs = 24%nat)
  then Some {| tag := take 16 bs; offset := le_num (drop 16 bs) |} else None.

(** ** LMDB tables *)

Class Database (Db K V : Type) := {
  db_get : Db → K → result ErrorCode (option V);
  db_put : Db → K → V → result ErrorCode Db;
  db_delete : Db → K → result ErrorCode Db;
  db_delete_one_duplicate : Db → K → V → result ErrorCode Db;
  db_get_duplicates : Db → K → result ErrorCode (list V);
  db_iter : Db → result ErrorCode (list (K * V));
}.

(** A table with one value per key. *)
Class MapDatabase (Db K V : Type) `{Countable K, !Database Db K V} := {
  contents : Db → gmap K V;
  map_get d k o : db_get d k = Ok o → o = contents d !! k;
  map_put d k v d' : db_put d k v = Ok d' → contents d' = <[k:=v]> (contents d);
  map_delete d k d' : db_delete d k = Ok d' → contents d' = delete k (contents d);
  map_iter d l : db_iter d = Ok l → l ≡ₚ map_to_list (contents d);
}.

(** A table with sorted duplicates: a set of key-value pairs. *)
Class DupDatabase (Db K V : Type) `{Countable K, Countable V, !Database Db K V} := {
  pairs : Db → gset (K * V);
  dup_get_some d k v : db_get d k = Ok (Some v) → (k, v) ∈ pairs d;
  dup_get_none d k v : db_get d k = Ok None → (k, v) ∉ pairs d;
  dup_put d k v d' : db_put d k v = Ok d' → pairs d' = {[ (k, v) ]} ∪ pairs d;
  dup_delete_one d k v d' :
    db_delete_one_duplicate d k v = Ok d' → pairs d' = pairs d ∖ {[ (k, v) ]};
  dup_get_duplicates d k l :
    db_get_duplicates d k = Ok l → NoDup l ∧ ∀ v, v ∈ l ↔ (k, v) ∈ pairs d;
  dup_iter d l : db_iter d = Ok l → l ≡ₚ elements (pairs d);
}.

(** ** The index *)

Record Index (A P F : Type) := { accounts : A; programs : P; freelist : F }.
Arguments Build_Index {A P F} _ _ _.
Arguments accounts {A P F} _.
Arguments programs {A P F} _.
Arguments freelist {A P F} _.

(** Opening and committing a transaction of the environment. *)
Class HeedEnv (A P F : Type) := {
  env_write_txn : Index A P F → result ErrorCode unit;
  env_read_txn : Index A P F → result ErrorCode unit;
  env_commit : Index A P F → result ErrorCode unit;
  env_force_sync : Index A P F → result ErrorCode unit;
}.

Section index.
Context {A P F : Type}.
Context `{!Database A Pubkey OwnerAndOffset, !Database P KeyTail Offset, !Database F Z Offset}.
Context `{!HeedEnv A P F}.

Abbreviation Idx := (Index A P F).

Definition with_accounts (i : Idx) (a : A) : Idx := Build_Index a (programs i) (freelist i).
Definition with_programs (i : Idx) (p : P) : Idx := Build_Index (accounts i) p (freelist i).
Definition with_freelist (i : Idx) (f : F) : Idx := Build_Index (accounts i) (programs i) f.

(** The supplied transaction, or a new one over the committed state. *)
Definition write_txn (env : Idx) (txn : option Idx) : result ErrorCode Idx :=
  match txn with
  | Some t => Ok t
  | None => _ ← env_write_txn env; Ok env
  end.

Definition read_txn (env : Idx) (txn : option Idx) : result ErrorCode Idx :=
  match txn with
  | Some t => Ok t
  | None => _ ← env_read_txn env; Ok env
  end.

Definition index_offset (i : Idx) (key : Pubkey) : result ErrorCode (option Offset) :=
  entry ← db_get (accounts i) key; Ok (option_map offset entry).

Definition index_allocate (i : Idx) (units : Z) : result ErrorCode (Idx * option Offset) :=
  found ← db_get (freelist i) units;
  match found with
  | Some o => f ← db_delete_one_duplicate (freelist i) units o; Ok (with_freelist i f, Some o)
  | None => Ok (i, None)
  end.

Definition index_insert (i : Idx) (key : Pubkey) (data : OwnerAndOffset)
    : result ErrorCode Idx :=
  a ← db_put (accounts i) key data;
  let i := with_accounts i a in
  p ← db_put (programs i) (tag data) (offset data);
  Ok (with_programs i p).

Definition index_delete (i : Idx) (key : Pubkey) : result ErrorCode (Idx * option Offset) :=
  found ← db_get (accounts i) key;
  match found with
  | None => Ok (i, None)
  | Some entry =>
      a ← db_delete (accounts i) key;
      let i := with_accounts i a in
      p ← db_delete_one_duplicate (programs i) (tag entry) (offset entry);
      Ok (with_programs i p, Some (offset entry))
  end.

(** The offsets of the accounts of one owner tag; [None] when there is none. *)
Definition index_program (i : Idx) (ow : Pubkey) : result ErrorCode (option (list Offset)) :=
  _ ← env_read_txn i;
  os ← db_get_duplicates (programs i) (key_tail ow);
  Ok (match os with [] => None | _ => Some os end).

Definition index_accounts (i : Idx) : result ErrorCode (list (Pubkey * OwnerAndOffset)) :=
  _ ← env_read_txn i; db_iter (accounts i).

Definition update_owner (i : Idx) (acc : Pubkey) (new : KeyTail) : result ErrorCode Idx :=
  found ← db_get (accounts i) acc;
  match found with
  | None => Ok i
  | Some val =>
      p ← db_delete_one_duplicate (programs i) (tag val) (offset val);
      let i := with_programs i p in
      let data := {| tag := new; offset := offset val |} in
      a ← db_put (accounts i) acc data;
      let i := with_accounts i a in
      p ← db_put (programs i) new (offset val);
      Ok (with_programs i p)
  end.

Definition relocate (i : Idx) (key : Pubkey) (old : Offset) (new : OwnerAndOffset)
    : result ErrorCode Idx :=
  a ← db_put (accounts i) key new;
  let i := with_accounts i a in
  p ← db_delete_one_duplicate (programs i) (tag new) old;
  let i := with_programs i p in
  p ← db_put (programs i) (tag new) (offset new);
  Ok (with_programs i p).

End index.

(** ** Lemmas: the effect of a successful call on the contents *)

Section index_lemmas.
Context {A P F : Type}.
Context `{HA : !Database A Pubkey OwnerAndOffset, !MapDatabase A Pubkey OwnerAndOffset}.
Context `{HP : !Database P KeyTail Offset, !DupDatabase P KeyTail Offset}.
Context `{HF : !Database F Z Offset, !DupDatabase F Z Offset}.

(** What the three tables hold. *)
Definition acc_of (i : Index A P F) : gmap Pubkey OwnerAndOffset := contents (accounts i).
Definition prog_of (i : Index A P F) : gset (KeyTail * Offset) := pairs (programs i).
Definition free_of (i : Index A P F) : gset (Z * Offset) := pairs (freelist i).

Lemma index_offset_spec i key o :
  index_offset i key = Ok o → o = offset <$> acc_of i !! key.
Proof.
  unfold index_offset. intros E. inv_ok. subst. by rewrite (map_get _ _ _ Hok).
Qed.

Lemma index_allocate_spec i u i' o :
  index_allocate i u = Ok (i', o) →
  acc_of i' = acc_of i ∧ prog_of i' = prog_of i ∧
  match o with
  | Some x => (u, x) ∈ free_of i ∧ free_of i' = free_of i ∖ {[ (u, x) ]}
  | None => i' = i ∧ ∀ x, (u, x) ∉ free_of i
  end.
Proof.
  unfold index_allocate. intros E. inv_ok. destruct val as [x|]; inv_ok; simplify_eq.
  - split_and!; [done..|by apply dup_get_some|by apply dup_delete_one in Hok0].
  - split_and!; auto. intros x. by apply dup_get_none.
Qed.

Lemma index_insert_spec i key d i' :
  index_insert i key d = Ok i' →
  acc_of i' = <[key:=d]> (acc_of i) ∧ prog_of i' = {[ (tag d, offset d) ]} ∪ prog_of i ∧
  free_of i' = free_of i.
Proof.
  unfold index_insert. intros E. inv_ok. subst. simpl in *.
  split_and!; [by apply map_put in Hok|by apply dup_put in Hok0|done].
Qed.

Lemma index_delete_spec i key i' o :
  index_delete i key = Ok (i', o) →
  o = offset <$> acc_of i !! key ∧ free_of i' = free_of i ∧
  acc_of i' = delete key (acc_of i) ∧
  prog_of i' = match acc_of i !! key with
               | Some e => prog_of i ∖ {[ (tag e, offset e) ]} | None => prog_of i end.
Proof.
  unfold index_delete. intros E. inv_ok.
  apply map_get in Hok. fold (acc_of i) in Hok.
  destruct val as [e|]; inv_ok; simplify_eq; rewrite <- Hok.
  - split_and!; [done..|by apply map_delete in Hok0|by apply dup_delete_one in Hok1].
  - split_and!; auto. by rewrite delete_id.
Qed.

Lemma update_owner_spec i key t i' :
  update_owner i key t = Ok i' →
  free_of i' = free_of i ∧
  match acc_of i !! key with
  | Some e =>
      acc_of i' = <[key:={| tag := t; offset := offset e |}]> (acc_of i) ∧
      prog_of i' = {[ (t, offset e) ]} ∪ (prog_of i ∖ {[ (tag e, offset e) ]})
  | None => i' = i
  end.
Proof.
  unfold update_owner. intros E. inv_ok.
  apply map_get in Hok. fold (acc_of i) in Hok. rewrite <- Hok.
  destruct val as [e|]; inv_ok; subst; [|done].
  apply dup_delete_one in Hok0. apply map_put in Hok1. apply dup_put in Hok2.
  simpl in *. unfold prog_of. by rewrite <- Hok0.
Qed.

Lemma relocate_spec i key old d i' :
  relocate i key old d = Ok i' →
  acc_of i' = <[key:=d]> (acc_of i) ∧ free_of i' = free_of i ∧
  prog_of i' = {[ (tag d, offset d) ]} ∪ (prog_of i ∖ {[ (tag d, old) ]}).
Proof.
  unfold relocate. intros E. inv_ok. subst.
  apply map_put in Hok. apply dup_delete_one in Hok0. apply dup_put in Hok1.
  simpl in *. unfold prog_of. by rewrite <- Hok0.
Qed.

End index_lemmas.

(** ** An instance: tables that never fail, up to a bound on their size

    [gmap] and [gset] tables that refuse to grow past a limit, as LMDB does when its map
    is full. *)

Section gmap_tables.
Context (K V : Type) `{Countable K, Countable V}.

Record GMapTable := { gm_limit : nat; gm_map : gmap K V }.
Record GSetTable := { gs_limit : nat; gs_set : gset (K * V) }.

(** [MDB_MAP_FULL]. *)
Definition MAP_FULL : ErrorCode := -30792.

#[global] Instance gmap_database : Database GMapTable K V := {
  db_get d k := Ok (gm_map d !! k);
  db_put d k v :=
    if (size (gm_map d) <? gm_limit d)%nat || bool_decide (is_Some (gm_map d !! k))
    then Ok {| gm_limit := gm_limit d; gm_map := <[k:=v]> (gm_map d) |} else Err MAP_FULL;
  db_delete d k := Ok {| gm_limit := gm_limit d; gm_map := delete k (gm_map d) |};
  db_delete_one_duplicate d k v :=
    Ok {| gm_limit := gm_limit d;
          gm_map := if decide (gm_map d !! k = Some v) then delete k (gm_map d) else gm_map d |};
  db_get_duplicates d k := Ok (option_list (gm_map d !! k));
  db_iter d := Ok (map_to_list (gm_map d));
}.

#[global, program] Instance gmap_map_database : MapDatabase GMapTable K V :=
  {| contents := gm_map |}.
Next Obligation. simpl. intros d k o E. by simplify_eq. Qed.
Next Obligation.
  simpl. intros d k v d' E. by destruct (_ || _); simplify_eq.
Qed.
Next Obligation. simpl. intros d k d' E. by simplify_eq. Qed.
Next Obligation. simpl. intros d l E. by simplify_eq. Qed.

Definition first_dup (s : gset (K * V)) (k : K) : option V :=
  hd_error (omap (λ p, if decide (p.1 = k) then Some p.2 else None) (elements s)).

#[global] Instance gset_database : Database GSetTable K V := {
  db_get d k := Ok (first_dup (gs_set d) k);
  db_put d k v :=
    if (size (gs_set d) <? gs_limit d)%nat || bool_decide ((k, v) ∈ gs_set d)
    then Ok {| gs_limit := gs_limit d; gs_set := {[ (k, v) ]} ∪ gs_set d |} else Err MAP_FULL;
  db_delete d k :=
    Ok {| gs_limit := gs_limit d; gs_set := filter (λ p, p.1 ≠ k) (gs_set d) |};
  db_delete_one_duplicate d k v :=
    Ok {| gs_limit := gs_limit d; gs_set := gs_set d ∖ {[ (k, v) ]} |};
  db_get_duplicates d k := Ok (snd <$> filter (λ p, p.1 = k) (elements (gs_set d)));
  db_iter d := Ok (elements (gs_set d));
}.

Lemma first_dup_spec s k :
  match first_dup s k with Some v => (k, v) ∈ s | None => ∀ v, (k, v) ∉ s end.
Proof.
  unfold first_dup. set (f := λ p : K * V, if decide (p.1 = k) then Some p.2 else None).
  assert (Hin : ∀ v, v ∈ omap f (elements s) ↔ (k, v) ∈ s).
  { intros v. rewrite list_elem_of_omap. split.
    - intros ([k' v'] & Hp & E). unfold f in E. simpl in E.
      destruct (decide (k' = k)); simplify_eq. set_solver.
    - intros Hp. exists (k, v). split; [set_solver|]. unfold f. simpl. by rewrite decide_True. }
  destruct (omap f (elements s)) as [|v l]; simpl.
  - intros v Hv%Hin. set_solver.
  - apply Hin. set_solver.
Qed.

#[global, program] Instance gset_dup_database : DupDatabase GSetTable K V :=
  {| pairs := gs_set |}.
Next Obligation.
  simpl. intros d k v E. pose proof (first_dup_spec (gs_set d) k).
  destruct (first_dup _ _); by simplify_eq.
Qed.
Next Obligation.
  simpl. intros d k v E. pose proof (first_dup_spec (gs_set d) k).
  destruct (first_dup _ _); simplify_eq; auto.
Qed.
Next Obligation.
  simpl. intros d k v d' E. by destruct (_ || _); simplify_eq.
Qed.
Next Obligation. simpl. intros d k v d' E. by simplify_eq. Qed.
Next Obligation.
  simpl. intros d k l E. simplify_eq. split.
  - assert (Hn : NoDup (filter (λ p : K * V, p.1 = k) (elements (gs_set d))))
      by (apply list.NoDup_filter, NoDup_elements).
    assert (Hk : ∀ p, p ∈ filter (λ p : K * V, p.1 = k) (elements (gs_set d)) → p.1 = k)
      by (intros p; rewrite list_elem_of_filter; tauto).
    revert Hn Hk. generalize (filter (λ p : K * V, p.1 = k) (elements (gs_set d))).
    induction l as [|[k' v] l IH]; intros Hn Hk; simpl; [constructor|].
    apply list.NoDup_cons in Hn as [Hn1 Hn2]. constructor; [|apply IH; [done|]; set_solver].
    intros ([k2 v2] & E & Hp)%list_elem_of_fmap. simpl in E. subst.
    pose proof (Hk (k', v2) ltac:(set_solver)). pose proof (Hk (k2, v2) ltac:(set_solver)).
    simpl in *. by subst.
  - intros v. rewrite list_elem_of_fmap. split.
    + intros ([k' v'] & E & [Ek Hp]%list_elem_of_filter). simpl in *. subst. set_solver.
    + intros Hp. exists (k, v). split; [done|]. apply list_elem_of_filter. set_solver.
Qed.
Next Obligation. simpl. intros d l E. by simplify_eq. Qed.

End gmap_tables.
