(* ===== verification/Store.v ===== *)
(** * The persisted store ([accountsdb/src/store/mod.rs])

    The mapped storage and the index together: loading, the batched upsert with its
    rollback, and the checksum. The write path threads the store and the optional write
    transaction of a batch through fallible calls, as a state and error monad: an error
    keeps the memory and the cursor as they are at that point, which is what the rollback
    of [upsert] has to deal with. *)

From stdpp Require Import base list gmap numbers option.
From S2P Require Import Prelude AccountMode Memory Account Storage Index.

Local Open Scope Z_scope.

Abbreviation AccountEntry := (Pubkey * AccountSharedData)%type.

(** [XxHash3_64] of the concatenation of all the bytes written. *)
Class Hasher := { xxhash3_64 : list Z → Z }.

Section store.
Context {A P F : Type}.
Context `{!Database A Pubkey OwnerAndOffset, !Database P KeyTail Offset, !Database F Z Offset}.
Context `{!HeedEnv A P F, !FileIo, !Hasher}.

Abbreviation Idx := (Index A P F).

Record PersistedStore := { storage : MappedStorage; index : Idx }.

(** A batch in progress. *)
Record Batch := { store_ : PersistedStore; txn : option Idx }.

Definition M (B : Type) : Type := Batch → Batch * result AccountsDBError B.

#[global] Instance M_ret : MRet M := λ _ b st, (st, Ok b).
#[global] Instance M_bind : MBind M := λ _ _ k c st,
  match c st with (st, Ok b) => k b st | (st, Err e) => (st, Err e) end.

Definition with_storage (st : Batch) (s : MappedStorage) : Batch :=
  {| store_ := {| storage := s; index := index (store_ st) |}; txn := txn st |}.
Definition with_txn (st : Batch) (t : Idx) : Batch := {| store_ := store_ st; txn := Some t |}.

(** Reading the storage, and replacing it. *)
Definition get_storage : M MappedStorage := λ st, (st, Ok (storage (store_ st))).
Definition put_storage (s : MappedStorage) : M unit := λ st, (with_storage st s, Ok tt).
Definition on_memory (f : mem → mem) : M unit :=
  s ← get_storage; put_storage (with_mem s (f (mm s))).
Definition tally (e : StatEvent) : M unit := s ← get_storage; put_storage (count s e).

(** [write_txn(self.index.env(), txn)?] *)
Definition open_txn : M Idx := λ st,
  match write_txn (index (store_ st)) (txn st) with
  | Ok t => (with_txn st t, Ok t)
  | Err e => (st, Err (IndexError e))
  end.
Definition put_txn (t : Idx) : M unit := λ st, (with_txn st t, Ok tt).
Definition lift {B} (r : result AccountsDBError B) : M B := λ st, (st, r).
Definition heed {B} (r : result ErrorCode B) : M B := λ st, (st, map_err IndexError r).

Definition store_load (s : PersistedStore) (ro : option Idx) (pubkey : Pubkey)
    : PersistedStore * result AccountsDBError (option BorrowedAccount) :=
  match t ← read_txn (index s) ro; index_offset t pubkey with
  | Err e => (s, Err (IndexError e))
  | Ok None => (s, Ok None)
  | Ok (Some o) =>
      let m := count (storage s) SRead in
      ({| storage := m; index := index s |}, Ok (Some (init (mm m) (at_ m o))))
  end.

Definition store_contains (s : PersistedStore) (ro : option Idx) (pubkey : Pubkey)
    : result AccountsDBError bool :=
  map_err IndexError
    (t ← read_txn (index s) ro; o ← index_offset t pubkey; Ok (bool_decide (is_Some o))).

(** [free]: the span is read off the image that is still there. *)
Definition store_free (t : Idx) (o : Offset) : M Idx :=
  s ← get_storage;
  let space := span (mm s) (at_ s o) in
  f ← heed (db_put (freelist t) space o);
  let t := with_freelist t f in
  _ ← put_txn t; mret t.

Definition store_delete (pubkey : Pubkey) : M unit :=
  t ← open_txn;
  '(t, found) ← heed (index_delete t pubkey);
  _ ← put_txn t;
  match found with
  | None => mret tt
  | Some o => _ ← store_free t o; tally SRemove
  end.

Definition store_update (pubkey : Pubkey) (acc : BorrowedAccount) (markers : Z) : M unit :=
  _ ← (if contains markers OWNER
       then t ← open_txn;
            s ← get_storage;
            let ow := key_tail (owner (read_core (mm s) (b_core acc))) in
            t ← heed (update_owner t pubkey ow);
            put_txn t
       else mret tt);
  if negb (intersects markers all_markers) then mret tt
  else _ ← on_memory (λ m, b_commit m acc); tally SCommit.

(** A freed span of the exact size, or a fresh one from the end of the file. *)
Definition allocate_span (t : Idx) (units : Z) : M (Idx * Offset) :=
  '(t, found) ← heed (index_allocate t units);
  _ ← put_txn t;
  match found with
  | Some o => _ ← tally SRealloc; mret (t, o)
  | None =>
      s ← get_storage;
      let '(s, r) := storage_allocate s units in
      _ ← put_storage s;
      o ← lift r;
      mret (t, o)
  end.

Definition store_insert (pubkey : Pubkey) (acc : OwnedAccount) : M unit :=
  t ← open_txn;
  let space := units acc in
  '(t, o) ← allocate_span t space;
  let data := {| tag := key_tail (owner (o_core acc)); offset := o |} in
  '(t, old) ← heed (index_delete t pubkey);
  _ ← put_txn t;
  t ← (match old with Some x => store_free t x | None => mret t end);
  t ← heed (index_insert t pubkey data);
  _ ← put_txn t;
  s ← get_storage;
  on_memory (λ m, serialize m (at_ s o) acc pubkey).

Definition store_apply (entry : AccountEntry) : M unit :=
  let '(pubkey, account) := entry in
  s ← get_storage;
  if negb (requires_persistence (mode (core_of (mm s) account)))
  then _ ← store_delete pubkey;
       match cow account with
       | Borrowed acc => on_memory (λ m, b_commit m acc)
       | Owned _ => mret tt
       end
  else match cow account with
       | Borrowed acc => store_update pubkey acc (dirty_bits account)
       | Owned acc => store_insert pubkey acc
       end.

(** The loop of [upsert]: how many entries were applied, and the first error. *)
Fixpoint apply_all (accounts : list AccountEntry) (applied : nat) (st : Batch)
    : Batch * nat * result AccountsDBError unit :=
  match accounts with
  | [] => (st, applied, Ok tt)
  | entry :: rest =>
      match store_apply entry st with
      | (st, Ok _) => apply_all rest (S applied) st
      | (st, Err e) => (st, applied, Err e)
      end
  end.

Definition store_rollback (m : mem) (accounts : list AccountSharedData) : mem :=
  foldl (λ m acc,
    if negb (is_dirty acc) then m
    else match cow acc with
         | Borrowed b => b_rollback m b
         | Owned _ => m
         end) m accounts.

Definition store_upsert (s : PersistedStore) (accounts : list AccountEntry)
    : PersistedStore * result AccountsDBError unit :=
  let '(st, applied, r) := apply_all accounts 0 {| store_ := s; txn := None |} in
  let s := store_ st in
  let '(s, r) :=
    match txn st, r with
    | Some t, Ok _ =>
        match env_commit t with
        | Ok _ => ({| storage := storage s; index := t |}, Ok tt)
        | Err e => (s, Err (IndexError e))
        end
    | _, _ => (s, r)
    end in
  match r with
  | Ok _ => (s, Ok tt)
  | Err e =>
      let processed := snd <$> take applied accounts in
      ({| storage := with_mem (storage s) (store_rollback (mm (storage s)) processed);
          index := index s |}, Err e)
  end.

(** The persisted accounts of a program, recovered from the images alone. *)
Definition store_program (s : PersistedStore) (ow : Pubkey)
    : PersistedStore * result AccountsDBError (option (list AccountEntry)) :=
  match index_program (index s) ow with
  | Err e => (s, Err (IndexError e))
  | Ok None => (s, Ok None)
  | Ok (Some os) =>
      let m := foldl (λ m _, count m SRead) (storage s) os in
      let item := λ o,
        (buffer_pubkey (mm m) (at_ m o), from_borrowed (init (mm m) (at_ m o))) in
      ({| storage := m; index := index s |}, Ok (Some (item <$> os)))
  end.

(** The bytes [checksum] hashes: slot, superblock, then key and image of every account. *)
Definition checksum_bytes (s : PersistedStore) (entries : list (Pubkey * OwnerAndOffset))
    : list Z :=
  let m := storage s in
  le_bytes 8 (meta_slot (meta m)) ++ le_bytes 8 (superblock (meta m)) ++
  concat ((λ '(pubkey, data),
    pubkey ++ b_storage (mm m) (init (mm m) (at_ m (offset data)))) <$> entries).

Definition store_checksum (s : PersistedStore) : result ErrorCode Z :=
  entries ← index_accounts (index s); Ok (xxhash3_64 (checksum_bytes s entries)).

(** [flush]: a synchronous flush refreshes the cached checksum. *)
Definition store_flush (s : PersistedStore) (sync : bool)
    : PersistedStore * result ErrorCode unit :=
  let flushed := λ s, (s, io_mmap_flush (bytes (cursor (meta (storage s))))) in
  if sync then
    match _ ← env_force_sync (index s); store_checksum s with
    | Err e => (s, Err e)
    | Ok c =>
        flushed {| storage := meta_store (storage s) (PChecksum c); index := index s |}
    end
  else flushed s.

Definition store_validate (s : PersistedStore) : result AccountsDBError unit :=
  _ ← storage_validate (storage s);
  if cursor (meta (storage s)) =? 0 then Ok tt
  else
    actual ← map_err IndexError (store_checksum s);
    if negb (checksum (meta (storage s)) =? actual) then Err Corruption else Ok tt.

End store.

Arguments PersistedStore A P F : clear implicits.
Arguments Batch A P F : clear implicits.
