(* ===== verification/StoreFacts.v ===== *)
(** * Facts about the persisted store

    The layout invariant (live images and free spans are disjoint parts of the allocated
    file, and the three tables describe them), its preservation by the write path, the
    refinement of a batch to updates of a map from keys to accounts, and what the rollback
    of a failed batch restores. *)

From stdpp Require Import base list gmap numbers option sets.
From S2P Require Import Prelude AccountMode Memory Account AccountFacts Storage Index Store.

Local Open Scope Z_scope.

(** ** Locality: a buffer is determined by the bytes of its span *)

Lemma span_eq m h :
  valid_buffer m h → span m h = 2 * header_space m h + 5 ∧ 8 ≤ header_space m h.
Proof.
  intros [Hs Hm _ _ _ _ _]. simpl in *. split; [|done]. unfold span.
  rewrite image_size_eq in Hm. simpl in Hm. change STATIC_SIZE with 64 in Hm.
  change IMAGE_OFFSET with 5. rewrite wrap_small; [lia|]. unfold fits. lia.
Qed.

(** The bytes of a buffer whose images take [sp] units. *)
Definition same_buffer (m m' : mem) (h sp : Z) : Prop :=
  agree m m' h (h + 8 * (2 * sp + 5)).

Section locality.
Context (m m' : mem) (b : BorrowedAccount).
Hypothesis Hw : wf_borrowed m b.
Hypothesis Hsame : same_buffer m m' (b_header b) (header_space m (b_header b)).

Lemma local_load a k :
  b_header b ≤ a →
  a + Z.of_nat k ≤ b_header b + 8 * (2 * header_space m (b_header b) + 5) →
  load m' a k = load m a k.
Proof using All.
  intros H1 H2. apply load_ext. intros x Hx. symmetry. apply Hsame. lia.
Qed.

Lemma local_header :
  header_space m' (b_header b) = header_space m (b_header b) ∧
  sequence m' (b_header b) = sequence m (b_header b).
Proof using All.
  pose proof (wf_space _ _ Hw). unfold header_space at 1, sequence, load_le.
  rewrite !local_load by (simpl; lia). done.
Qed.

Lemma core_in_span :
  b_header b + 40 ≤ b_core b ∧
  b_core b + 8 * header_space m (b_header b)
    ≤ b_header b + 8 * (2 * header_space m (b_header b) + 5).
Proof using Hw.
  pose proof (wf_space _ _ Hw). destruct (wf_core _ _ Hw) as [act E].
  rewrite image_addr_eq in E. destruct (xorb _ _); lia.
Qed.

Lemma local_view :
  wf_borrowed m' b ∧ b_owned m' b = b_owned m b ∧ shadow_lo m' b = shadow_lo m b ∧
  read_core m' (b_core b) = read_core m (b_core b) ∧
  init m' (b_header b) = init m (b_header b).
Proof using All.
  pose proof Hw as [Hsp Hsm Hv [act Hact] Hd Hcap Hlen].
  destruct local_header as [E1 E2]. destruct core_in_span as [H1 H2].
  rewrite image_size_eq in *. change STATIC_SIZE with 64 in *.
  assert (Ea : ∀ v a, image_addr m' (b_header b) v a = image_addr m (b_header b) v a)
    by (intros; by rewrite !image_addr_eq, E1).
  assert (Hl : ∀ k a, b_core b ≤ a →
    a + Z.of_nat k ≤ b_core b + 8 * header_space m (b_header b) → load m' a k = load m a k)
    by (intros; apply local_load; lia).
  assert (Hc : read_core m' (b_core b) = read_core m (b_core b)).
  { apply read_core_ext. intros x Hx. symmetry. apply Hsame. lia. }
  assert (Hw' : wf_borrowed m' b).
  { split; rewrite ?image_size_eq, ?E1, ?E2; auto; change STATIC_SIZE with 64;
      unfold load_le; rewrite ?Hl by (simpl; lia); auto.
    exists act. by rewrite Ea. }
  split_and!; auto.
  - unfold b_owned. rewrite Hc. f_equal. rewrite !ds_bytes_wf by done.
    assert (E : load_le 4 m' (b_core b + 56) = load_le 4 m (b_core b + 56))
      by (unfold load_le; rewrite Hl by (simpl; lia); done).
    rewrite E. apply Hl; lia.
  - apply Ea.
  - unfold init. by rewrite Ea, E2.
Qed.

End locality.

Lemma local_buffer m m' h :
  valid_buffer m h → same_buffer m m' h (header_space m h) →
  valid_buffer m' h ∧ open_account m' h = open_account m h ∧ span m' h = span m h ∧
  buffer_pubkey m' h = buffer_pubkey m h ∧ init m' h = init m h ∧
  header_space m' h = header_space m h.
Proof.
  intros Hv Hs. destruct (local_view m m' (init m h) Hv Hs) as (H1 & H2 & _ & _ & H4).
  destruct (local_header m m' (init m h) Hv Hs) as [E1 _]. simpl in *.
  unfold valid_buffer, open_account, span. rewrite H4, E1. split_and!; auto.
  pose proof (wf_space _ _ Hv). simpl in *.
  apply (local_load m m' (init m h) Hv Hs); simpl; change STORAGE_UNIT with 8; lia.
Qed.

(** ** Commit and rollback of one view *)

Lemma commit_clean m h : valid_buffer m h → b_commit m (init m h) = m.
Proof.
  intros Hv. pose proof (wf_space _ _ Hv) as Hs. simpl in Hs. unfold b_commit. simpl.
  destruct (Z.eqb_spec (image_addr m h (sequence m h) true)
                       (image_addr m h (sequence m h) false)) as [E|]; [|done].
  rewrite !image_addr_eq in E. destruct (Z.even _); simpl in E; lia.
Qed.

Section one_view.
Context (m : mem) (b : BorrowedAccount).
Hypothesis Hw : wf_borrowed m b.
Hypothesis Hc : b_core b = shadow_lo m b.

Lemma commit_shadow :
  b_commit m b = store_le 4 m (b_header b) (wrapping_add 32 (b_version b) 1).
Proof using All.
  unfold b_commit. unfold shadow_lo in Hc. rewrite Hc, Z.eqb_refl. simpl.
  by rewrite (wf_version _ _ Hw), Z.eqb_refl.
Qed.

Lemma commit_frame : frame m (b_commit m b) (b_header b) (b_header b + 4).
Proof using All. rewrite commit_shadow. apply frame_store; rewrite ?length_le_bytes; lia. Qed.

Lemma commit_view :
  valid_buffer (b_commit m b) (b_header b) ∧
  open_account (b_commit m b) (b_header b) = b_owned m b ∧
  header_space (b_commit m b) (b_header b) = header_space m (b_header b) ∧
  buffer_pubkey (b_commit m b) (b_header b) = buffer_pubkey m (b_header b).
Proof using All.
  rewrite commit_shadow.
  destruct (open_store_sequence m (b_header b) (wrapping_add 32 (b_version b) 1) b Hw eq_refl)
    as [H1 H2].
  { rewrite image_flip. exact Hc. }
  split_and!; auto.
  - unfold header_space, store_le. rewrite load_le_store_disjoint; [done|].
    rewrite length_le_bytes. simpl. lia.
  - unfold buffer_pubkey, store_le. rewrite load_store_disjoint; [done|].
    rewrite length_le_bytes. change STORAGE_UNIT with 8. simpl. lia.
Qed.

(** Whatever happened elsewhere since the commit, the rollback opens the old image. *)
Lemma rollback_view m2 :
  valid_buffer m (b_header b) →
  same_buffer (b_commit m b) m2 (b_header b) (header_space m (b_header b)) →
  valid_buffer (b_rollback m2 b) (b_header b) ∧
  open_account (b_rollback m2 b) (b_header b) = open_account m (b_header b).
Proof using All.
  intros Hv H2. set (h := b_header b) in *. pose proof (wf_space _ _ Hw) as Hsp. fold h in Hsp.
  rewrite commit_shadow in H2. fold h in H2.
  assert (Es : sequence m2 h = wrap 32 (wrapping_add 32 (b_version b) 1)).
  { rewrite <- (sequence_store h m). unfold sequence. apply load_le_ext. intros x Hx.
    symmetry. apply H2. simpl in *. lia. }
  set (v := wrapping_sub 32 (sequence m2 h) 1).
  assert (Ev : Z.even v = Z.even (sequence m h)).
  { rewrite (wf_version _ _ Hw : sequence m h = b_version b).
    unfold v. rewrite Es. unfold wrapping_sub, wrapping_add.
    rewrite even_wrap32, Z.even_sub, !even_wrap32, Z.even_add. by destruct (Z.even _). }
  destruct (open_store_sequence m h v (init m h) Hv eq_refl) as [H3 H4].
  { simpl. by rewrite !image_addr_eq, Ev. }
  assert (Hsame : same_buffer (store_le 4 m h v) (b_rollback m2 b) h
                    (header_space (store_le 4 m h v) h)).
  { assert (header_space (store_le 4 m h v) h = header_space m h) as ->.
    { unfold header_space, store_le. rewrite load_le_store_disjoint; [done|].
      rewrite length_le_bytes. simpl. lia. }
    intros x Hx. change (b_rollback m2 b) with (store_le 4 m2 h v). clearbody v.
    unfold store_le, store.
    rewrite !length_le_bytes. change (Z.of_nat 4) with 4. destruct ((h <=? x) && (x <? h + 4)) eqn:E; [done|].
    rewrite <- (H2 x Hx). unfold store_le. symmetry. apply store_out.
    rewrite length_le_bytes. simpl. apply andb_false_iff in E. lia. }
  destruct (local_buffer _ _ _ H3 Hsame) as (? & -> & _). by rewrite H4.
Qed.

End one_view.

(** ** Layout *)

Section layout.
Context {A P F : Type}.
Context `{HA : !Database A Pubkey OwnerAndOffset, !MapDatabase A Pubkey OwnerAndOffset}.
Context `{HP : !Database P KeyTail Offset, !DupDatabase P KeyTail Offset}.
Context `{HF : !Database F Z Offset, !DupDatabase F Z Offset}.

(** The parts of the file: the image of a key, or a free span of the freelist. *)
Inductive block := Live (k : Pubkey) | Hole (u o : Z).

Definition block_at (s : MappedStorage) (i : Index A P F) (b : block) (o u : Z) : Prop :=
  match b with
  | Live k => ∃ e, acc_of i !! k = Some e ∧ o = offset e ∧ u = span (mm s) (at_ s o)
  | Hole u' o' => (u', o') ∈ free_of i ∧ o = o' ∧ u = u'
  end.

Definition apart (o u o' u' : Z) : Prop := o + u ≤ o' ∨ o' + u' ≤ o.

Record layout (s : MappedStorage) (i : Index A P F) : Prop := {
  lay_image k e : acc_of i !! k = Some e →
    valid_buffer (mm s) (at_ s (offset e)) ∧
    buffer_pubkey (mm s) (at_ s (offset e)) = k ∧
    tag e = key_tail (owner (o_core (open_account (mm s) (at_ s (offset e)))));
  lay_bounds b o u : block_at s i b o u → 0 ≤ o ∧ 0 < u ∧ o + u ≤ cursor (meta s);
  lay_apart b o u b' o' u' :
    block_at s i b o u → block_at s i b' o' u' → b ≠ b' → apart o u o' u';
  lay_programs t o :
    (t, o) ∈ prog_of i ↔ ∃ k e, acc_of i !! k = Some e ∧ tag e = t ∧ offset e = o;
  lay_cursor : 0 ≤ cursor (meta s);
}.

(** What the store holds: the account each indexed image opens to. *)
Definition view (s : MappedStorage) (i : Index A P F) : gmap Pubkey OwnedAccount :=
  (λ e, open_account (mm s) (at_ s (offset e))) <$> acc_of i.

(** Memory changes that leave the images of the keys other than those in [ks] alone. *)
Definition keeps (s s' : MappedStorage) (i : Index A P F) (k : Pubkey) : Prop :=
  head s' = head s ∧
  ∀ k' e, k' ≠ k → acc_of i !! k' = Some e →
    same_buffer (mm s) (mm s') (at_ s (offset e)) (header_space (mm s) (at_ s (offset e))).

Lemma live_block s i k e :
  acc_of i !! k = Some e →
  block_at s i (Live k) (offset e) (span (mm s) (at_ s (offset e))).
Proof using Type. intros H. exists e. auto. Qed.

Lemma offsets_injective s i k k' e e' :
  layout s i → acc_of i !! k = Some e → acc_of i !! k' = Some e' →
  offset e = offset e' → k = k'.
Proof using Type.
  intros Hl H1 H2 E. destruct (lay_image _ _ Hl _ _ H1) as (_ & <- & _).
  destruct (lay_image _ _ Hl _ _ H2) as (_ & <- & _). by rewrite E.
Qed.

Lemma live_span s i k e :
  layout s i → acc_of i !! k = Some e →
  span (mm s) (at_ s (offset e)) = 2 * header_space (mm s) (at_ s (offset e)) + 5.
Proof using Type. intros Hl H. by apply span_eq, (lay_image _ _ Hl _ _ H). Qed.

(** Two memories in which a buffer holds the same account under the same key. *)
Definition same_image (m m' : mem) (h : Z) : Prop :=
  valid_buffer m' h ∧ open_account m' h = open_account m h ∧ span m' h = span m h ∧
  buffer_pubkey m' h = buffer_pubkey m h.

(** Storage whose live images are the same keeps layout and contents. *)
Lemma layout_images s s' i :
  layout s i → head s' = head s → cursor (meta s) ≤ cursor (meta s') →
  (∀ k e, acc_of i !! k = Some e → same_image (mm s) (mm s') (at_ s (offset e))) →
  layout s' i ∧ view s' i = view s i.
Proof using Type.
  intros Hl Hh Hc Hb.
  assert (Ea : ∀ o, at_ s' o = at_ s o) by (intros; unfold at_; by rewrite Hh).
  assert (Hbl : ∀ b o u, block_at s' i b o u → block_at s i b o u).
  { intros [k|u' o'] o u; simpl; [|done]. intros (e & He & -> & ->).
    exists e. split_and!; auto. rewrite Ea. by apply (Hb k). }
  split; [split|].
  - intros k e He. rewrite Ea. destruct (Hb k e He) as (? & -> & _ & ->).
    destruct (lay_image _ _ Hl _ _ He) as (_ & ? & ?). by split_and!.
  - intros b o u H%Hbl. destruct (lay_bounds _ _ Hl _ _ _ H) as (?&?&?). lia.
  - intros b o u b' o' u' H1%Hbl H2%Hbl. by apply (lay_apart _ _ Hl).
  - apply (lay_programs _ _ Hl).
  - pose proof (lay_cursor _ _ Hl). lia.
  - apply map_eq. intros k. unfold view. rewrite !lookup_fmap.
    destruct (acc_of i !! k) as [e|] eqn:He; [|done]. simpl. f_equal. rewrite Ea.
    by apply (Hb k).
Qed.

Lemma same_buffer_image m m' h :
  valid_buffer m h → same_buffer m m' h (header_space m h) → same_image m m' h.
Proof using Type.
  intros Hv Hs. destruct (local_buffer _ _ _ Hv Hs) as (?&?&?&?&_). by split_and!.
Qed.

Lemma layout_frame s s' i :
  layout s i → head s' = head s → cursor (meta s) ≤ cursor (meta s') →
  (∀ k e, acc_of i !! k = Some e →
    same_buffer (mm s) (mm s') (at_ s (offset e)) (header_space (mm s) (at_ s (offset e)))) →
  layout s' i ∧ view s' i = view s i.
Proof using Type.
  intros Hl Hh Hc Hm. apply layout_images; auto. intros k e He.
  apply same_buffer_image; [by apply (lay_image _ _ Hl _ _ He)|by apply (Hm k)].
Qed.

(** The image of one key is republished in place, under a new owner tag. *)
Lemma layout_republish s s' i i' k e t :
  layout s i → acc_of i !! k = Some e → keeps s s' i k →
  cursor (meta s') = cursor (meta s) →
  valid_buffer (mm s') (at_ s (offset e)) →
  header_space (mm s') (at_ s (offset e)) = header_space (mm s) (at_ s (offset e)) →
  buffer_pubkey (mm s') (at_ s (offset e)) = k →
  t = key_tail (owner (o_core (open_account (mm s') (at_ s (offset e))))) →
  acc_of i' = <[k:={| tag := t; offset := offset e |}]> (acc_of i) →
  prog_of i' = {[ (t, offset e) ]} ∪ prog_of i ∖ {[ (tag e, offset e) ]} →
  free_of i' = free_of i →
  layout s' i' ∧ view s' i' = <[k:=open_account (mm s') (at_ s (offset e))]> (view s i).
Proof using Type.
  intros Hl He [Hh Hk] Hc Hv Hsp Hpk Ht Ha Hp Hf.
  assert (Ea : ∀ o, at_ s' o = at_ s o) by (intros; unfold at_; by rewrite Hh).
  assert (Hb : ∀ k' e', k' ≠ k → acc_of i !! k' = Some e' →
    valid_buffer (mm s') (at_ s (offset e')) ∧
    open_account (mm s') (at_ s (offset e')) = open_account (mm s) (at_ s (offset e')) ∧
    span (mm s') (at_ s (offset e')) = span (mm s) (at_ s (offset e')) ∧
    buffer_pubkey (mm s') (at_ s (offset e')) = buffer_pubkey (mm s) (at_ s (offset e'))).
  { intros k' e' Hne He'. destruct (lay_image _ _ Hl _ _ He') as (Hv' & _).
    destruct (local_buffer _ _ _ Hv' (Hk _ _ Hne He')) as (?&?&?&?&_). by split_and!. }
  assert (Hbl : ∀ b o u, block_at s' i' b o u → block_at s i b o u).
  { intros [k'|u' o'] o u; simpl; rewrite ?Hf; [|done]. intros (e' & He' & -> & ->).
    rewrite Ha in He'. rewrite Ea. destruct (decide (k' = k)) as [->|Hne].
    - rewrite lookup_insert_eq in He'. simplify_eq/=. exists e. split_and!; auto.
      unfold span. by rewrite Hsp.
    - rewrite lookup_insert_ne in He' by done. exists e'. split_and!; auto. by apply (Hb k'). }
  split; [split|].
  - intros k' e' He'. rewrite Ea. rewrite Ha in He'. destruct (decide (k' = k)) as [->|Hne].
    + rewrite lookup_insert_eq in He'. simplify_eq/=. by split_and!.
    + rewrite lookup_insert_ne in He' by done. destruct (Hb k' e' Hne He') as (? & -> & _ & ->).
      destruct (lay_image _ _ Hl _ _ He') as (_ & ? & ?). by split_and!.
  - intros b o u H%Hbl. rewrite Hc. by apply (lay_bounds _ _ Hl b).
  - intros b o u b' o' u' H1%Hbl H2%Hbl. by apply (lay_apart _ _ Hl).
  - intros t' o'. rewrite Hp, Ha, elem_of_union, elem_of_difference, !elem_of_singleton.
    rewrite (lay_programs _ _ Hl). split.
    + intros [[= -> ->]|[(k' & e' & He' & <- & <-) Hne]].
      * exists k. eexists. by rewrite lookup_insert_eq.
      * exists k', e'. rewrite lookup_insert_ne; [done|]. intros <-. by simplify_eq.
    + intros (k' & e' & He' & <- & <-). destruct (decide (k' = k)) as [->|Hne].
      * rewrite lookup_insert_eq in He'. simplify_eq/=. by left.
      * rewrite lookup_insert_ne in He' by done. right. split; [by exists k', e'|].
        intros [= _ E]. by apply Hne, (offsets_injective s i k' k e' e).
  - rewrite Hc. apply (lay_cursor _ _ Hl).
  - apply map_eq. intros k'. unfold view. rewrite lookup_fmap, Ha.
    destruct (decide (k' = k)) as [->|Hne].
    + by rewrite !lookup_insert_eq; simpl; rewrite Ea.
    + rewrite !lookup_insert_ne, lookup_fmap by done.
      destruct (acc_of i !! k') as [e'|] eqn:He'; [|done]. simpl. f_equal. rewrite Ea.
      by apply (Hb k').
Qed.

(** A live image becomes a free span. *)
Lemma layout_delete s i i' k e :
  layout s i → acc_of i !! k = Some e →
  acc_of i' = delete k (acc_of i) →
  prog_of i' = prog_of i ∖ {[ (tag e, offset e) ]} →
  free_of i' = {[ (span (mm s) (at_ s (offset e)), offset e) ]} ∪ free_of i →
  layout s i' ∧ view s i' = delete k (view s i) ∧
  ∀ b o u, block_at s i' b o u → ∃ b', block_at s i b' o u.
Proof using Type.
  intros Hl He Ha Hp Hf. set (sp := span _ _) in *.
  set (old := λ b, match b with
    | Hole u o => if decide ((u, o) = (sp, offset e)) then Live k else Hole u o
    | Live k => Live k end).
  pose proof (live_block s i k e He) as Hlive. fold sp in Hlive.
  assert (Hbl : ∀ b o u, block_at s i' b o u → block_at s i (old b) o u ∧ b ≠ Live k).
  { intros [k'|u' o'] o u; simpl.
    - intros (e' & He' & ? & ?). rewrite Ha, lookup_delete_Some in He'. destruct He' as [Hne He'].
      split; [by exists e'|congruence].
    - rewrite Hf, elem_of_union, elem_of_singleton. intros (H & -> & ->).
      split; [|done]. case_decide as E; [simplify_eq; by exists e|]. by destruct H. }
  assert (Hno : (sp, offset e) ∉ free_of i).
  { intros Hin. destruct (lay_bounds _ _ Hl _ _ _ Hlive) as (_ & ? & _).
    destruct (lay_apart _ _ Hl (Live k) _ _ (Hole sp (offset e)) (offset e) sp Hlive); try done; lia. }
  split_and!.
  - split.
    + intros k' e' He'. rewrite Ha, lookup_delete_Some in He'. by apply (lay_image _ _ Hl), He'.
    + intros b o u [H _]%Hbl. by apply (lay_bounds _ _ Hl (old b)).
    + intros b o u b' o' u' [H1 N1]%Hbl [H2 N2]%Hbl Hne. apply (lay_apart _ _ Hl _ _ _ _ _ _ H1 H2).
      intros E. apply Hne. destruct b as [|u1 o1], b' as [|u2 o2]; simpl in *;
        repeat case_decide; simplify_eq; done.
    + intros t o. rewrite Hp, Ha, elem_of_difference, elem_of_singleton, (lay_programs _ _ Hl).
      split.
      * intros [(k' & e' & He' & <- & <-) Hne]. exists k', e'. rewrite lookup_delete_ne; [done|].
        intros <-. by simplify_eq.
      * intros (k' & e' & [Hne He']%lookup_delete_Some & <- & <-).
        split; [by exists k', e'|]. intros [= _ E]. by apply Hne, (offsets_injective s i k k' e e').
    + apply (lay_cursor _ _ Hl).
  - unfold view. by rewrite Ha, fmap_delete.
  - intros b o u [H _]%Hbl. by eexists.
Qed.

(** A span that belongs to nobody. *)
Definition reserved (s : MappedStorage) (i : Index A P F) (o u : Z) : Prop :=
  0 ≤ o ∧ 0 < u ∧ o + u ≤ cursor (meta s) ∧
  ∀ b o' u', block_at s i b o' u' → apart o u o' u'.

(** A new image is written into a reserved span. *)
Lemma layout_place s s' i i' k d u :
  layout s i → acc_of i !! k = None → reserved s i (offset d) u →
  head s' = head s → cursor (meta s') = cursor (meta s) →
  frame (mm s) (mm s') (at_ s (offset d)) (at_ s (offset d + u)) →
  valid_buffer (mm s') (at_ s (offset d)) → span (mm s') (at_ s (offset d)) = u →
  buffer_pubkey (mm s') (at_ s (offset d)) = k →
  tag d = key_tail (owner (o_core (open_account (mm s') (at_ s (offset d))))) →
  acc_of i' = <[k:=d]> (acc_of i) →
  prog_of i' = {[ (tag d, offset d) ]} ∪ prog_of i →
  free_of i' = free_of i →
  layout s' i' ∧ view s' i' = <[k:=open_account (mm s') (at_ s (offset d))]> (view s i) ∧
  keeps s s' i k.
Proof using Type.
  intros Hl Hn (Hr1 & Hr2 & Hr3 & Hr) Hh Hc Hfr Hv Hsp Hpk Ht Ha Hp Hf.
  assert (Hm : ∀ k' e, acc_of i !! k' = Some e → same_buffer (mm s) (mm s')
    (at_ s (offset e)) (header_space (mm s) (at_ s (offset e)))).
  { intros k' e He x Hx. apply Hfr. pose proof (Hr _ _ _ (live_block s i k' e He)) as Hap.
    rewrite (live_span s i k' e Hl He) in Hap. unfold apart, at_ in *.
    change STORAGE_UNIT with 8 in *. lia. }
  destruct (layout_frame s s' i Hl Hh ltac:(lia) Hm) as [Hl' Hview].
  assert (Ea : ∀ o, at_ s' o = at_ s o) by (intros; unfold at_; by rewrite Hh).
  set (old := λ b o u', b = Live k ∧ o = offset d ∧ u' = u).
  assert (Hbl : ∀ b o u', block_at s' i' b o u' →
    (b ≠ Live k ∧ block_at s' i b o u') ∨ old b o u').
  { intros [k'|u1 o1] o u'; simpl; rewrite ?Hf; [|by left].
    intros (e & He & -> & ->). rewrite Ha in He. destruct (decide (k' = k)) as [->|Hne].
    - rewrite lookup_insert_eq in He. simplify_eq. right. by rewrite Ea.
    - rewrite lookup_insert_ne in He by done. left. split; [congruence|by exists e]. }
  assert (Hr' : ∀ b o' u', block_at s' i b o' u' → apart (offset d) u o' u').
  { intros b o' u' Hb. apply (Hr b). destruct b as [k'|]; [|done].
    destruct Hb as (e & He & -> & ->). exists e. split_and!; auto. rewrite Ea.
    by apply (local_buffer _ _ _ (proj1 (lay_image _ _ Hl _ _ He)) (Hm _ _ He)). }
  split_and!; [split| |].
  - intros k' e He. rewrite Ha in He. destruct (decide (k' = k)) as [->|Hne].
    + rewrite lookup_insert_eq in He. simplify_eq. rewrite Ea. by split_and!.
    + rewrite lookup_insert_ne in He by done. by apply (lay_image _ _ Hl').
  - intros b o u' [[_ H]|(_ & -> & ->)]%Hbl; [by apply (lay_bounds _ _ Hl' b)|lia].
  - intros b o u1 b' o' u' [[_ H1]|(-> & -> & ->)]%Hbl [[_ H2]|(-> & -> & ->)]%Hbl Hne; [| | |done].
    + by apply (lay_apart _ _ Hl' b _ _ b').
    + apply Hr' in H1. unfold apart in *. lia.
    + by apply (Hr' b').
  - intros t o. rewrite Hp, Ha, elem_of_union, elem_of_singleton, (lay_programs _ _ Hl). split.
    + intros [[= -> ->]|(k' & e & He & <- & <-)].
      * exists k, d. by rewrite lookup_insert_eq.
      * exists k', e. rewrite lookup_insert_ne; [done|congruence].
    + intros (k' & e & He & <- & <-). destruct (decide (k' = k)) as [->|Hne].
      * rewrite lookup_insert_eq in He. simplify_eq. by left.
      * rewrite lookup_insert_ne in He by done. right. by exists k', e.
  - apply (lay_cursor _ _ Hl').
  - rewrite <- Hview. unfold view. by rewrite Ha, fmap_insert, Ea.
  - split; [done|]. intros k' e _. apply Hm.
Qed.

End layout.

(** ** The write path *)

Section write_path.
Context {A P F : Type}.
Context `{HA : !Database A Pubkey OwnerAndOffset, !MapDatabase A Pubkey OwnerAndOffset}.
Context `{HP : !Database P KeyTail Offset, !DupDatabase P KeyTail Offset}.
Context `{HF : !Database F Z Offset, !DupDatabase F Z Offset}.
Context `{HE : !HeedEnv A P F, IO_ : !FileIo}.

Abbreviation Batch := (Store.Batch A P F).
Abbreviation M := (@Store.M A P F).

(** The storage of a batch, and the index as its next call sees it. *)
Definition bs (st : Batch) : MappedStorage := storage (store_ st).
Definition cur (st : Batch) : Index A P F := default (index (store_ st)) (txn st).

Lemma bind_inv {B C} (c : M B) (k : B → M C) st st' r :
  (c ≫= k) st = (st', r) →
  (∃ st1 b, c st = (st1, Ok b) ∧ k b st1 = (st', r)) ∨
  (∃ e, c st = (st', Err e) ∧ r = Err e).
Proof using Type.
  unfold mbind, M_bind. destruct (c st) as [st1 [b|e]] eqn:E; intros H; [left|right].
  - by exists st1, b.
  - simplify_eq. by exists e.
Qed.

Lemma bind_ok {B C} (c : M B) (k : B → M C) st st' x :
  (c ≫= k) st = (st', Ok x) →
  ∃ st1 b, c st = (st1, Ok b) ∧ k b st1 = (st', Ok x).
Proof using Type. intros [H|(e & _ & [=])]%bind_inv; done. Qed.

(** Calls that neither write account memory nor publish the index. *)
Definition silent (st st' : Batch) : Prop :=
  index (store_ st') = index (store_ st) ∧ mm (bs st') = mm (bs st) ∧
  head (bs st') = head (bs st) ∧ cursor (meta (bs st)) ≤ cursor (meta (bs st')).
Definition quiet {B} (c : M B) : Prop := ∀ st st' r, c st = (st', r) → silent st st'.

Lemma silent_refl st : silent st st.
Proof using Type. split_and!; auto; lia. Qed.

Lemma silent_trans st st1 st2 : silent st st1 → silent st1 st2 → silent st st2.
Proof using Type.
  intros (H1 & H2 & H3 & H4) (I1 & I2 & I3 & I4).
  split_and!; [congruence..|lia].
Qed.

Lemma quiet_bind {B C} (c : M B) (k : B → M C) :
  quiet c → (∀ b, quiet (k b)) → quiet (c ≫= k).
Proof using Type.
  intros Hc Hk st st' r [(st1 & b & H1 & H2)|(e & H1 & _)]%bind_inv; [|by eapply Hc].
  eapply silent_trans; [by eapply Hc|by eapply Hk].
Qed.

Lemma quiet_ret {B} (b : B) : quiet (mret b : M B).
Proof using Type. intros st st' r [= <- <-]. apply silent_refl. Qed.
Lemma quiet_get : quiet get_storage.
Proof using Type. intros st st' r [= <- <-]. apply silent_refl. Qed.
Lemma quiet_heed {B} (x : result ErrorCode B) : quiet (heed x : M B).
Proof using Type. intros st st' r [= <- <-]. apply silent_refl. Qed.
Lemma quiet_lift {B} (x : result AccountsDBError B) : quiet (lift x : M B).
Proof using Type. intros st st' r [= <- <-]. apply silent_refl. Qed.
Lemma quiet_put_txn t : quiet (put_txn t).
Proof using Type. intros st st' r [= <- <-]. split_and!; reflexivity. Qed.
Lemma quiet_open_txn : quiet open_txn.
Proof using Type.
  intros st st' r. unfold open_txn. case_match; intros [= <- <-]; split_and!; reflexivity.
Qed.

Lemma count_fields s e :
  mm (count s e) = mm s ∧ head (count s e) = head s ∧
  cursor (meta (count s e)) = cursor (meta s).
Proof using Type. by destruct s as [m h [] f], e. Qed.

Lemma quiet_tally e : quiet (tally e : M unit).
Proof using Type.
  intros st st' r [= <- <-]. destruct (count_fields (bs st) e) as (E1 & E2 & E3).
  split_and!; [done|exact E1|exact E2|]. by rewrite <- E3.
Qed.

#[local] Hint Resolve quiet_ret quiet_get quiet_heed quiet_lift quiet_put_txn quiet_open_txn
  quiet_tally : engine.

Ltac quiet :=
  repeat first [ done | solve [auto with engine] | apply quiet_bind; [|intros ?]
               | case_match ].

Lemma quiet_free t o : quiet (store_free t o).
Proof using Type. unfold store_free. quiet. Qed.
#[local] Hint Resolve quiet_free : engine.

Lemma quiet_delete k : quiet (store_delete k).
Proof using Type. unfold store_delete. quiet. Qed.

(** *** Storage allocation *)

Lemma resize_fields s n cmp :
  let s' := (resize s n cmp).1 in
  mm s' = mm s ∧ head s' = head s ∧ cursor (meta s') = cursor (meta s).
Proof using Type.
  unfold resize. repeat case_match; simpl; auto. by destruct s as [m h [] f].
Qed.

Lemma storage_allocate_spec s u s' r :
  storage_allocate s u = (s', r) →
  mm s' = mm s ∧ head s' = head s ∧
  match r with
  | Ok o => o = cursor (meta s) ∧ cursor (meta s') = o + u
  | Err _ => cursor (meta s') = cursor (meta s)
  end.
Proof using Type.
  unfold storage_allocate. destruct (checked_add 64 (cursor (meta s)) u) as [e|] eqn:Ec;
    [|by intros [= <- <-]].
  apply checked_add_Some in Ec as [-> _].
  destruct (negb _); [by intros [= <- <-]|].
  assert (Hg : ∀ s1 g, (if len (meta s) <? bytes (cursor (meta s) + u)
      then grow s (bytes (cursor (meta s) + u)) else (s, Ok tt)) = (s1, g) →
      mm s1 = mm s ∧ head s1 = head s ∧ cursor (meta s1) = cursor (meta s)).
  { intros s1 g. destruct (_ <? _); [|by intros [= <- <-]]. unfold grow.
    set (n := div_ceil _ _ * _). destruct (_ <? n); [by intros [= <- <-]|].
    pose proof (resize_fields s n Z.geb) as Hr. destruct (resize s n Z.geb).
    by intros [= <- <-]. }
  destruct (if _ <? _ then _ else _) as [s1 g]. destruct (Hg s1 g eq_refl) as (E1 & E2 & E3).
  destruct g; intros [= <- <-]; [|by split_and!].
  destruct (count_fields (meta_store s1 (PCursor (cursor (meta s) + u))) SAlloc) as (-> & -> & ->).
  split_and!; auto. destruct s1 as [m1 h1 [] f1]. simpl in *. by subst.
Qed.

Lemma quiet_allocate t u : 0 ≤ u → quiet (allocate_span t u).
Proof using Type.
  intros Hu. unfold allocate_span. apply quiet_bind; [quiet|]. intros [t' found].
  apply quiet_bind; [quiet|]. intros _. destruct found; [quiet|].
  intros st st' r. unfold mbind, M_bind, get_storage.
  destruct (storage_allocate _ u) as [s1 r1] eqn:Es.
  apply storage_allocate_spec in Es as (E1 & E2 & E3).
  unfold put_storage, lift. destruct r1; intros [= <- <-]; split_and!; simpl; auto;
    unfold bs; simpl; lia.
Qed.

(** *** The steps of one entry *)

Lemma open_txn_ok st st' t :
  open_txn st = (st', Ok t) → t = cur st ∧ store_ st' = store_ st ∧ cur st' = t.
Proof using Type.
  unfold open_txn, write_txn, cur. destruct (txn st) as [t'|]; simpl.
  - intros [= <- <-]. done.
  - destruct (env_write_txn _); simpl; intros [= <- <-]. done.
Qed.

Lemma heed_ok {B} (x : result ErrorCode B) (st st' : Batch) b :
  heed x st = (st', Ok b) → x = Ok b ∧ st' = st.
Proof using Type. unfold heed. destruct x; simpl; intros [= <- <-]; done. Qed.

Lemma free_ok t o st st' t' :
  store_free t o st = (st', Ok t') →
  store_ st' = store_ st ∧ cur st' = t' ∧ acc_of t' = acc_of t ∧ prog_of t' = prog_of t ∧
  free_of t' = {[ (span (mm (bs st)) (at_ (bs st) o), o) ]} ∪ free_of t.
Proof using Type.
  unfold store_free. intros H. apply bind_ok in H as (st1 & s1 & [= <- <-] & H).
  apply bind_ok in H as (st1 & f & [Hf ->]%heed_ok & H).
  injection H as <- <-. split_and!; auto. by apply dup_put in Hf.
Qed.

(** Unlinking a key: its entry goes, its span becomes free. *)
Record unlinked (s : MappedStorage) (t t' : Index A P F) (k : Pubkey) : Prop := {
  ul_layout : layout s t';
  ul_view : view s t' = delete k (view s t);
  ul_acc : acc_of t' = delete k (acc_of t);
  ul_blocks b o u : block_at s t' b o u → ∃ b', block_at s t b' o u;
  ul_free : acc_of t !! k = None → free_of t' = free_of t;
}.

Lemma unlink_ok t t1 old k st st' t' :
  layout (bs st) t → index_delete t k = Ok (t1, old) →
  match old with Some x => store_free t1 x | None => mret t1 end st = (st', Ok t') →
  store_ st' = store_ st ∧ (txn st = Some t1 → cur st' = t') ∧ unlinked (bs st) t t' k.
Proof using Type.
  intros Hl (Ho & Hf & Ha & Hp)%index_delete_spec.
  destruct (acc_of t !! k) as [e|] eqn:He; simpl in Ho; subst old.
  - intros (H1 & H2 & H3 & H4 & H5)%free_ok. split_and!; auto.
    rewrite <- H3 in Ha. rewrite <- H4 in Hp. rewrite Hf in H5.
    destruct (layout_delete (bs st) t t' k e Hl He Ha Hp H5) as (?&?&?). split; auto. congruence.
  - intros [= <- <-]. split_and!; auto; [by unfold cur; intros ->|].
    rewrite delete_id in Ha by done.
    assert (Hb : ∀ b o u, block_at (bs st) t1 b o u → block_at (bs st) t b o u).
    { intros [k'|u' o'] o u; simpl; by rewrite ?Ha, ?Hf. }
    split; auto.
    + destruct Hl as [L1 L2 L3 L4 L5]. split; rewrite ?Ha, ?Hp; eauto.
    + unfold view. by rewrite Ha, delete_id by (by rewrite lookup_fmap, He).
    + by rewrite Ha, delete_id.
    + intros b o u Hx%Hb. by eexists.
Qed.

(** What an entry for [k] leaves: the new contents, the other keys untouched. *)
Record Post (st st' : Batch) (k : Pubkey) (v : option OwnedAccount) : Prop := {
  post_layout : layout (bs st') (cur st');
  post_view : view (bs st') (cur st') = partial_alter (λ _, v) k (view (bs st) (cur st));
  post_keeps : keeps (bs st) (bs st') (cur st) k;
  post_keys k' : k' ≠ k → acc_of (cur st') !! k' = acc_of (cur st) !! k';
}.

Lemma cur_txn st t : txn st = Some t → cur st = t.
Proof using Type. unfold cur. by intros ->. Qed.

Lemma silent_layout st st' i :
  silent st st' → layout (bs st) i → layout (bs st') i ∧ view (bs st') i = view (bs st) i.
Proof using Type.
  intros (_ & Hm & Hh & Hc) Hl. apply layout_frame; auto.
  intros k e _ x _. by rewrite Hm.
Qed.

Lemma silent_store st st' : store_ st' = store_ st → silent st st'.
Proof using Type. unfold silent, bs. intros ->. split_and!; auto; lia. Qed.

Lemma delete_post st st' k :
  layout (bs st) (cur st) → store_delete k st = (st', Ok tt) → Post st st' k None.
Proof using Type.
  intros Hl. unfold store_delete. intros H.
  pose proof (quiet_delete k _ _ _ H) as Hs. pose proof Hs as (_ & Hm & Hh & _).
  apply bind_ok in H as (st1 & t & (-> & E1 & E2)%open_txn_ok & H).
  apply bind_ok in H as (? & [t1 old] & [Hd ->]%heed_ok & H).
  apply bind_ok in H as (st2 & ? & [= <- _] & H).
  assert (Hx : ∃ st3 t', match old with Some x => store_free t1 x | None => mret t1 end
      (with_txn st1 t1) = (st3, Ok t') ∧ cur st' = cur st3).
  { destruct old as [o|].
    - apply bind_ok in H as (st3 & t' & H & H'). exists st3, t'. split; [done|].
      by injection H' as <-.
    - exists (with_txn st1 t1), t1. by injection H as <-. }
  destruct Hx as (st3 & t' & Hx & Ec).
  eapply (unlink_ok (cur st)) in Hx as (Hst & Hcur & [L1 L2 L3 _ _]);
    [|unfold bs in *; simpl; by rewrite E1|exact Hd].
  rewrite Hcur in Ec by done. unfold bs in L1, L2. simpl in L1, L2. rewrite E1 in L1, L2.
  fold (bs st) in L1, L2. rewrite <- Ec in *.
  destruct (silent_layout _ _ _ Hs L1) as [L1' V'].
  split; auto.
  - by rewrite V', L2.
  - split; [done|]. intros k' e _ _ y _. by rewrite Hm.
  - intros k' Hne. by rewrite L3, lookup_delete_ne.
Qed.

Lemma delete_free st st' k :
  store_delete k st = (st', Ok tt) → acc_of (cur st) !! k = None →
  free_of (cur st') ⊆ free_of (cur st).
Proof using All.
  unfold store_delete. intros H Hn.
  apply bind_ok in H as (st1 & t & (-> & E1 & E2)%open_txn_ok & H).
  apply bind_ok in H as (? & [t1 old] & [Hd ->]%heed_ok & H).
  apply bind_ok in H as (st2 & ? & [= <- _] & H).
  apply index_delete_spec in Hd as (Ho & Hf & _). rewrite Hn in Ho. simpl in Ho. subst old.
  injection H as <-. unfold cur at 1. simpl. by rewrite Hf.
Qed.

(** A span for a new image: reserved, from the freelist or from the end of the file. *)
Lemma allocate_ok t u st st' t' o :
  layout (bs st) t → 0 < u → allocate_span t u st = (st', Ok (t', o)) →
  silent st st' ∧ cur st' = t' ∧ layout (bs st') t' ∧ view (bs st') t' = view (bs st) t ∧
  reserved (bs st') t' o u ∧ acc_of t' = acc_of t ∧ free_of t' ⊆ free_of t ∧
  ((u, o) ∈ free_of t ∨ cursor (meta (bs st)) ≤ o).
Proof using Type.
  intros Hl Hu H. pose proof (quiet_allocate t u ltac:(lia) _ _ _ H) as Hs.
  pose proof Hs as (_ & Hm & Hh & Hc). unfold allocate_span in H.
  apply bind_ok in H as (? & [t1 found] & [Ha ->]%heed_ok & H).
  apply bind_ok in H as (st1 & ? & [= <- _] & H).
  apply index_allocate_spec in Ha as (Ea & Ep & Hf).
  assert (Hb : ∀ b o u, block_at (bs st') t1 b o u → block_at (bs st) t b o u).
  { intros [k|u1 o1] o1' u1'; simpl; unfold at_; rewrite ?Ea, ?Hm, ?Hh; [done|].
    destruct found; [destruct Hf as [_ ->]; set_solver|by destruct Hf as [-> _]]. }
  assert (Hl1 : layout (bs st') t1 ∧ view (bs st') t1 = view (bs st) t).
  { destruct (silent_layout _ _ _ Hs Hl) as [Hl' Hv']. split.
    - destruct Hl' as [L1 L2 L3 L4 L5]. destruct Hl as [K1 K2 K3 K4 K5].
      split; rewrite ?Ea, ?Ep; eauto.
      + intros b o1 u1 Hx%Hb. destruct (K2 _ _ _ Hx) as (?&?&?). lia.
    - rewrite <- Hv'. unfold view. by rewrite Ea. }
  destruct Hl1 as [Hl1 Hv1].
  destruct found as [o1|].
  - destruct Hf as [Hin Hdel]. apply bind_ok in H as (st2 & ? & Ht & H).
    injection H as <- <- <-. injection Ht as <- _. split_and!; auto.
    + destruct (lay_bounds _ _ Hl (Hole u o1) o1 u) as (?&?&?); [done|].
      split_and!; auto; [lia|]. intros b o' u' Hx. pose proof (Hb _ _ _ Hx) as Hx'.
      eapply (lay_apart _ _ Hl (Hole u o1)); [done|exact Hx'|]. intros <-.
      destruct Hx as [Hin' _]. rewrite Hdel in Hin'. set_solver.
    + rewrite Hdel. set_solver.
  - destruct Hf as [-> _]. apply bind_ok in H as (? & s1 & [= <- <-] & H).
    destruct (storage_allocate _ u) as [s2 r] eqn:Es. simpl in H.
    apply bind_ok in H as (st2 & ? & [= <- _] & H).
    apply bind_ok in H as (st3 & o2 & Ho & H). injection H as <- <- <-.
    injection Ho as <- ->.
    apply storage_allocate_spec in Es as (_ & _ & -> & Ec).
    change (cursor (meta s2) = cursor (meta (bs st)) + u) in Ec.
    change (storage (store_ (with_txn st t))) with (bs st) in *. fold (bs st) in *.
    change (bs (with_storage (with_txn st t) s2)) with s2 in *.
    change (storage (store_ st)) with (bs st).
    split_and!; auto; [|right; reflexivity].
    pose proof (lay_cursor _ _ Hl).
    split_and!; auto; [lia|]. intros b o' u' Hx%Hb.
    destruct (lay_bounds _ _ Hl _ _ _ Hx) as (?&?&?). right. lia.
Qed.

End write_path.
