(* ===== verification/StoreBatch.v ===== *)
(** * Batches of the persisted store

    The effect of one applied entry and of a whole [upsert]: refinement to updates of a
    map from keys to accounts, and the restored contents after a failure. *)

From stdpp Require Import base list gmap numbers option sets.
From S2P Require Import Prelude AccountMode Memory Account AccountFacts Storage Index Store.
From S2P Require Import StoreFacts.

Local Open Scope Z_scope.

Section batch.
Context {A P F : Type}.
Context `{HA : !Database A Pubkey OwnerAndOffset, !MapDatabase A Pubkey OwnerAndOffset}.
Context `{HP : !Database P KeyTail Offset, !DupDatabase P KeyTail Offset}.
Context `{HF : !Database F Z Offset, !DupDatabase F Z Offset}.
Context `{HE : !HeedEnv A P F, IO_ : !FileIo}.

Abbreviation Batch := (Store.Batch A P F).

(** ** One entry *)

Lemma units_pos o : small o → 0 < units o.
Proof using Type.
  intros Hs. rewrite units_eq by done. destruct (allocation_eq o Hs) as [_ H].
  unfold zlen in *. lia.
Qed.

(** Where an owned image is written: a span that was free, or past the old cursor. *)
Definition fresh_write (st st' : Batch) : Prop :=
  ∃ o u, frame (mm (bs st)) (mm (bs st')) (at_ (bs st) o) (at_ (bs st) (o + u)) ∧
         ((u, o) ∈ free_of (cur st) ∨ cursor (meta (bs st)) ≤ o).

Lemma insert_post st st' k acc :
  layout (bs st) (cur st) → core_ok (o_core acc) → small acc → length k = 32%nat →
  store_insert k acc st = (st', Ok tt) →
  Post st st' k (Some acc) ∧ fresh_write st st' ∧
  (acc_of (cur st) !! k = None → free_of (cur st') ⊆ free_of (cur st)).
Proof using Type.
  intros Hl Hco Hsm Hk. unfold store_insert. intros H.
  apply bind_ok in H as (st1 & t & (-> & E1 & E2)%open_txn_ok & H).
  apply bind_ok in H as (st2 & [t2 o] & Hal & H).
  assert (Hl1 : layout (bs st1) (cur st)) by (unfold bs; by rewrite E1).
  assert (Hu : 0 < units acc) by (by apply units_pos).
  apply (allocate_ok _ _ _ _ _ _ Hl1 Hu) in Hal
    as (Hs & E3 & Hl2 & V2 & Hr & Ha2 & Hf2 & Hwhere).
  apply bind_ok in H as (? & [t3 old] & [Hd ->]%heed_ok & H).
  apply bind_ok in H as (st3 & ? & [= <- _] & H).
  apply bind_ok in H as (st4 & t4 & Hfr & H).
  apply (unlink_ok t2 t3 old k) in Hfr as (E4 & E5 & [Hl4 V4 Ha4 Hb4 Hf4]); [|done|done].
  apply bind_ok in H as (? & t5 & [Hi ->]%heed_ok & H).
  apply bind_ok in H as (st5 & ? & [= <- _] & H).
  apply bind_ok in H as (? & s & [= <- <-] & H).
  assert (E : st' = with_storage (with_txn st4 t5)
    (with_mem (bs st4) (serialize (mm (bs st4)) (at_ (bs st4) o) acc k))) by (by injection H).
  clear H. change (store_ (with_txn st2 t3)) with (store_ st2) in E4.
  change (bs (with_txn st2 t3)) with (bs st2) in *.
  assert (E6 : bs st4 = bs st2) by (unfold bs; by rewrite E4). rewrite E6 in E. subst st'.
  apply index_insert_spec in Hi as (Ha5 & Hp5 & Hf5). simpl in Ha5, Hp5.
  assert (E7 : bs st1 = bs st) by (unfold bs; by rewrite E1). rewrite E7 in *.
  pose proof Hs as (_ & Hm & Hh & Hc). rewrite E7 in *.
  destruct (serialize_spec (mm (bs st2)) (at_ (bs st2) o) acc k Hco Hsm Hk)
    as (S1 & S2 & S3 & S4 & _ & S5).
  set (st' := with_storage _ _). set (data := {| tag := _; offset := o |}) in *.
  assert (Hfr : frame (mm (bs st2)) (mm (bs st')) (at_ (bs st2) o) (at_ (bs st2) (o + units acc))).
  { eapply frame_weaken, S5; unfold at_; change STORAGE_UNIT with 8; lia. }
  destruct (layout_place (bs st2) (bs st') t4 (cur st') k data (units acc))
    as (Hl' & V' & Hk'); auto.
  { by rewrite Ha4, lookup_delete_eq. }
  { destruct Hr as (?&?&?&Hr). split_and!; auto. intros b o' u' [b' Hx]%Hb4. by apply (Hr b'). }
  { change (mm (bs st')) with (serialize (mm (bs st2)) (at_ (bs st2) o) acc k).
    change (offset data) with o. by rewrite S2. }
  assert (Ea : ∀ x, at_ (bs st2) x = at_ (bs st) x) by (intros; unfold at_; by rewrite Hh).
  split_and!.
  - split; auto.
    + rewrite V', V4, V2. change (offset data) with o.
      change (mm (bs st')) with (serialize (mm (bs st2)) (at_ (bs st2) o) acc k). rewrite S2.
      apply map_eq. intros y. destruct (decide (y = k)) as [->|].
      * by rewrite lookup_insert_eq, lookup_partial_alter_eq.
      * by rewrite lookup_insert_ne, lookup_delete_ne, lookup_partial_alter_ne.
    + destruct Hk' as [_ Hk']. split; [done|]. intros k' e Hne He.
      rewrite <- Hm, <- Ea. apply (Hk' k' e Hne). by rewrite Ha4, lookup_delete_ne, Ha2 by done.
    + intros k' Hne. change (cur st') with t5.
      by rewrite Ha5, lookup_insert_ne, Ha4, lookup_delete_ne, Ha2 by done.
  - exists o, (units acc). split; [|done]. by rewrite <- Hm, <- !Ea.
  - intros Hn. change (cur st') with t5. rewrite Hf5, Hf4; [done|]. by rewrite Ha2.
Qed.

(** What the caller of [upsert] hands in: an owned account within the layout's bounds, or
    the view a load of that key gave, with its changes in the shadow image and marked. *)
Definition entry_ok (s : MappedStorage) (i : Index A P F) (entry : AccountEntry) : Prop :=
  let '(k, a) := entry in
  match cow a with
  | Owned o => core_ok (o_core o) ∧ small o ∧ length k = 32%nat
  | Borrowed b =>
      (∃ e, acc_of i !! k = Some e ∧ b_header b = at_ s (offset e)) ∧ wf_borrowed (mm s) b ∧
      (if is_dirty a then b_core b = shadow_lo (mm s) b else b = init (mm s) (b_header b)) ∧
      (contains (dirty_bits a) OWNER = false →
       owner (o_core (b_owned (mm s) b)) = owner (o_core (open_account (mm s) (b_header b))))
  end.

Lemma owner_dirty bits : contains bits OWNER = true → intersects bits all_markers = true.
Proof using Type.
  unfold contains, intersects, OWNER, all_markers. intros H%Z.eqb_eq.
  apply negb_true_iff, Z.eqb_neq. intros E.
  assert (H0 : Z.testbit (Z.land bits 1) 0 = true)
    by (change (Z.shiftl 1 0) with 1 in H; by rewrite H).
  assert (H1 : Z.testbit (Z.land bits 0x7F) 0 = false) by (by rewrite E).
  rewrite Z.land_spec in H0, H1. by destruct (Z.testbit bits 0).
Qed.

(** Committing a shadow image only touches the sequence word of its own buffer. *)
Lemma commit_keeps s i k e b :
  layout s i → acc_of i !! k = Some e → b_header b = at_ s (offset e) →
  wf_borrowed (mm s) b → b_core b = shadow_lo (mm s) b →
  ∀ k' e', k' ≠ k → acc_of i !! k' = Some e' →
    same_buffer (mm s) (b_commit (mm s) b) (at_ s (offset e'))
      (header_space (mm s) (at_ s (offset e'))).
Proof using Type.
  intros Hl He Hh Hw Hc k' e' Hne He' x Hx.
  apply (commit_frame _ _ Hw Hc). rewrite Hh.
  pose proof (lay_apart _ _ Hl _ _ _ _ _ _ (live_block s i k e He) (live_block s i k' e' He')
    ltac:(congruence)) as Hap.
  rewrite (live_span s i k e Hl He), (live_span s i k' e' Hl He') in Hap.
  pose proof (wf_space _ _ Hw) as Hsp. rewrite Hh in Hsp.
  unfold apart, at_ in *. change STORAGE_UNIT with 8 in *. lia.
Qed.

(** The in-place commit of a dirty view, once the index holds the new owner tag. *)
Lemma publish_post st st1 st' k a b :
  layout (bs st) (cur st) → entry_ok (bs st) (cur st) (k, a) → cow a = Borrowed b →
  is_dirty a = true → silent st st1 → cursor (meta (bs st1)) = cursor (meta (bs st)) →
  (∀ e, acc_of (cur st) !! k = Some e →
     let t := key_tail (owner (o_core (b_owned (mm (bs st)) b))) in
     acc_of (cur st1) = <[k:={| tag := t; offset := offset e |}]> (acc_of (cur st)) ∧
     prog_of (cur st1) = {[ (t, offset e) ]} ∪ prog_of (cur st) ∖ {[ (tag e, offset e) ]}) →
  free_of (cur st1) = free_of (cur st) →
  mm (bs st') = b_commit (mm (bs st1)) b → head (bs st') = head (bs st1) →
  cursor (meta (bs st')) = cursor (meta (bs st1)) → cur st' = cur st1 →
  Post st st' k (Some (b_owned (mm (bs st)) b)).
Proof using Type.
  intros Hl Hok Hcow Hd (_ & Hm & Hh & _) Hcur1 Hidx Hf Em Eh Ec Ei.
  unfold entry_ok in Hok. rewrite Hcow, Hd in Hok.
  destruct Hok as ((e & He & Hb) & Hw & Hc & _).
  destruct (Hidx e He) as [Ha Hp]. rewrite Hm in Em.
  destruct (commit_view _ _ Hw Hc) as (C1 & C2 & C3 & C4). rewrite Hb in C1, C2, C3, C4.
  assert (Hk : keeps (bs st) (bs st') (cur st) k).
  { split; [congruence|]. intros k' e' Hne He'. rewrite Em.
    by apply (commit_keeps (bs st) (cur st) k e b Hl He Hb Hw Hc k' e'). }
  destruct (layout_republish (bs st) (bs st') (cur st) (cur st') k e
    (key_tail (owner (o_core (b_owned (mm (bs st)) b))))) as [Hl' V']; auto.
  - congruence.
  - by rewrite Em.
  - by rewrite Em.
  - rewrite Em, C4. by apply (lay_image _ _ Hl).
  - by rewrite Em, C2.
  - by rewrite Ei.
  - by rewrite Ei.
  - by rewrite Ei.
  - split; auto.
    + rewrite V', Em, C2. done.
    + intros k' Hne. by rewrite Ei, Ha, lookup_insert_ne.
Qed.

Lemma update_owner_cur t k ow t' e :
  acc_of t !! k = Some e → update_owner t k ow = Ok t' →
  acc_of t' = <[k:={| tag := ow; offset := offset e |}]> (acc_of t) ∧
  prog_of t' = {[ (ow, offset e) ]} ∪ prog_of t ∖ {[ (tag e, offset e) ]} ∧
  free_of t' = free_of t.
Proof using Type.
  intros He (Hf & H)%update_owner_spec. rewrite He in H. destruct H. by split_and!.
Qed.

Lemma publish_state (st st' : Batch) b :
  (_ ← on_memory (λ m, b_commit m b); tally SCommit) st = (st', Ok tt) →
  mm (bs st') = b_commit (mm (bs st)) b ∧ head (bs st') = head (bs st) ∧
  cursor (meta (bs st')) = cursor (meta (bs st)) ∧ cur st' = cur st ∧
  index (store_ st') = index (store_ st).
Proof using Type.
  intros H. apply bind_ok in H as (st1 & ? & [= <- _] & [= <-]).
  set (s1 := with_mem (bs st) (b_commit (mm (bs st)) b)).
  destruct (count_fields s1 SCommit) as (E1 & E2 & E3).
  split_and!; [exact E1|exact E2|exact E3|done|done].
Qed.

Lemma update_post st st' k a b :
  layout (bs st) (cur st) → entry_ok (bs st) (cur st) (k, a) → cow a = Borrowed b →
  store_update k b (dirty_bits a) st = (st', Ok tt) →
  Post st st' k (Some (b_owned (mm (bs st)) b)) ∧
  index (store_ st') = index (store_ st) ∧ cursor (meta (bs st')) = cursor (meta (bs st)) ∧
  free_of (cur st') = free_of (cur st) ∧
  mm (bs st') = if is_dirty a then b_commit (mm (bs st)) b else mm (bs st).
Proof using Type.
  intros Hl Hok Hcow H. unfold store_update in H. apply bind_ok in H as (st1 & ? & H1 & H).
  pose proof Hok as Hok'. unfold entry_ok in Hok'. rewrite Hcow in Hok'.
  destruct Hok' as ((e & He & Hb) & Hw & Hc & How). fold (is_dirty a) in H.
  destruct (is_dirty a) eqn:Hd; simpl in H.
  2: { destruct (contains (dirty_bits a) OWNER) eqn:Eo.
       { apply owner_dirty in Eo. unfold is_dirty in Hd. congruence. }
       injection H1 as <- _. injection H as <-. split_and!; auto. split; auto.
       - apply map_eq. intros k'. destruct (decide (k' = k)) as [->|Hne].
         + rewrite lookup_partial_alter_eq. unfold view. rewrite lookup_fmap, He. simpl.
           rewrite Hc at 1. by rewrite Hb.
         + by rewrite lookup_partial_alter_ne.
       - by split. }
  apply publish_state in H as (E1 & E2 & E3 & E4 & E5).
  destruct (contains (dirty_bits a) OWNER) eqn:Eo.
  - apply bind_ok in H1 as (st2 & t & (-> & Es & Ec)%open_txn_ok & H1).
    apply bind_ok in H1 as (? & s2 & [= <- <-] & H1).
    apply bind_ok in H1 as (? & t2 & [Hu ->]%heed_ok & H1). injection H1 as <- _.
    apply (update_owner_cur _ _ _ _ e He) in Hu as (Ha & Hp & Hf).
    assert (Eb : bs (with_txn st2 t2) = bs st) by (unfold bs; simpl; by rewrite Es).
    rewrite Eb in *. unfold bs in Ha, Hp. rewrite Es in Ha, Hp. fold (bs st) in Ha, Hp.
    split_and!; auto; [|by rewrite E5; simpl; rewrite Es|by rewrite E4].
    apply (publish_post st (with_txn st2 t2) st' k a b); rewrite ?Eb; auto.
    + split_and!; simpl; rewrite ?Eb; auto; [by rewrite Es|lia].
    + intros e' He'. simplify_eq. by split.
  - injection H1 as <- _. split_and!; auto; [|by rewrite E4].
    apply (publish_post st st st' k a b); auto.
    + apply silent_refl.
    + intros e' He'. simplify_eq. rewrite How, Hb by done.
      destruct (lay_image _ _ Hl _ _ He) as (_ & _ & <-). split.
      * rewrite insert_id; [done|]. rewrite He. by destruct e.
      * assert ((tag e, offset e) ∈ prog_of (cur st))
          by (apply (lay_programs _ _ Hl); by exists k, e).
        apply set_eq. intros y. rewrite elem_of_union, elem_of_difference, elem_of_singleton.
        destruct (decide (y = (tag e, offset e))); naive_solver.
Qed.

Definition persists (m : mem) (a : AccountSharedData) : bool :=
  requires_persistence (mode (core_of m a)).

(** The value an entry leaves under its key. *)
Definition entry_value (m : mem) (a : AccountSharedData) : option OwnedAccount :=
  if persists m a then Some (owned m a) else None.

(** Everything an applied entry does. *)
Record Effect (st st' : Batch) (k : Pubkey) (a : AccountSharedData) : Prop := {
  eff_post : Post st st' k (entry_value (mm (bs st)) a);
  eff_index : index (store_ st') = index (store_ st);
  eff_cursor : cursor (meta (bs st)) ≤ cursor (meta (bs st'));
  eff_free : (acc_of (cur st) !! k = None ∨
              (persists (mm (bs st)) a = true ∧ ∃ b, cow a = Borrowed b)) →
             free_of (cur st') ⊆ free_of (cur st);
  eff_mem : match cow a with
            | Borrowed b => mm (bs st') = if is_dirty a then b_commit (mm (bs st)) b else mm (bs st)
            | Owned _ => if persists (mm (bs st)) a then fresh_write st st'
                         else mm (bs st') = mm (bs st)
            end;
}.

(** *** Calls of a failing or succeeding entry before its last write *)

Lemma quiet_insert_prefix st st' k acc r :
  small acc → store_insert k acc st = (st', r) →
  index (store_ st') = index (store_ st) ∧ head (bs st') = head (bs st) ∧
  cursor (meta (bs st)) ≤ cursor (meta (bs st')) ∧ (∀ e, r = Err e → mm (bs st') = mm (bs st)).
Proof using Type.
  intros Hs. pose proof (units_pos acc Hs) as Hu.
  set (pre := (t ← open_txn;
    '(t, o) ← allocate_span t (units acc);
    let data := {| tag := key_tail (owner (o_core acc)); offset := o |} in
    '(t, old) ← heed (index_delete t k);
    _ ← put_txn t;
    t ← (match old with Some x => store_free t x | None => mret t end);
    t ← heed (index_insert t k data);
    _ ← put_txn t; mret o) : M Offset).
  assert (E : ∀ st, store_insert k acc st =
    (o ← pre; s ← get_storage; on_memory (λ m, serialize m (at_ s o) acc k)) st).
  { intros st0. unfold store_insert, pre, mbind, M_bind, mret, M_ret.
    repeat (case_match; simplify_eq/=; try done). }
  assert (Hq : quiet pre).
  { unfold pre. apply quiet_bind; [apply quiet_open_txn|]. intros t.
    apply quiet_bind; [apply quiet_allocate; lia|]. intros [t1 o].
    apply quiet_bind; [apply quiet_heed|]. intros [t2 old].
    apply quiet_bind; [apply quiet_put_txn|]. intros _.
    apply quiet_bind; [destruct old; [apply quiet_free|apply quiet_ret]|]. intros t3.
    apply quiet_bind; [apply quiet_heed|]. intros t4.
    apply quiet_bind; [apply quiet_put_txn|]. intros _. apply quiet_ret. }
  rewrite E. intros [(st1 & o & H1 & H2)|(e & H1 & ->)]%bind_inv.
  - apply Hq in H1 as (E1 & E2 & E3 & E4). injection H2 as <- <-.
    split_and!; auto. done.
  - apply Hq in H1 as (E1 & E2 & E3 & E4). split_and!; auto.
Qed.

Lemma on_memory_state (st st' : Batch) f r :
  on_memory f st = (st', r) →
  r = Ok tt ∧ mm (bs st') = f (mm (bs st)) ∧ head (bs st') = head (bs st) ∧
  cursor (meta (bs st')) = cursor (meta (bs st)) ∧ cur st' = cur st ∧
  index (store_ st') = index (store_ st).
Proof using Type. intros [= <- <-]. by split_and!. Qed.

Lemma apply_error st st' k a e :
  (∀ o, cow a = Owned o → small o) → store_apply (k, a) st = (st', Err e) → silent st st'.
Proof using Type.
  intros Hs H. unfold store_apply in H. apply bind_inv in H as [(st1 & s1 & [= <- <-] & H)|(?&[=]&_)].
  destruct (negb _).
  - apply bind_inv in H as [(st1 & ? & H1 & H)|(? & H1 & _)]; [|by eapply quiet_delete].
    destruct (cow a); [|done]. by apply on_memory_state in H as [[=] _].
  - destruct (cow a) as [b|o].
    + unfold store_update in H.
      assert (Hq : quiet (if contains (dirty_bits a) OWNER
        then t ← open_txn; s ← get_storage;
             t ← heed (update_owner t k (key_tail (owner (read_core (mm s) (b_core b)))));
             put_txn t
        else mret tt)).
      { destruct (contains _ _); [|apply quiet_ret].
        apply quiet_bind; [apply quiet_open_txn|]. intros t.
        apply quiet_bind; [apply quiet_get|]. intros s.
        apply quiet_bind; [apply quiet_heed|]. intros t1. apply quiet_put_txn. }
      apply bind_inv in H as [(st1 & ? & H1 & H)|(? & H1 & _)]; [|by eapply Hq].
      apply Hq in H1. destruct (negb _); [done|]. apply bind_inv in H as [(?&?&_&[=])|(?&[=]&_)].
    + apply (quiet_insert_prefix _ _ _ _ _ (Hs o eq_refl)) in H as (?&?&?&?).
      split_and!; eauto.
Qed.

Lemma post_cow st st1 st' k v :
  Post st st1 k v → keeps (bs st) (bs st') (cur st) k →
  cursor (meta (bs st1)) ≤ cursor (meta (bs st')) → cur st' = cur st1 →
  mm (bs st1) = mm (bs st) → head (bs st1) = head (bs st) → acc_of (cur st1) !! k = None →
  Post st st' k v.
Proof using Type.
  intros [Hl Hv _ Hk] Hkeep Hc Ei Em Eh Hn. pose proof Hkeep as [Hh Hm].
  destruct (layout_frame (bs st1) (bs st') (cur st1) Hl) as [Hl' Hv'].
  - congruence.
  - done.
  - intros k' e He. assert (k' ≠ k) by congruence. unfold at_. rewrite Em, Eh.
    apply (Hm k' e); [done|]. by rewrite <- Hk.
  - split; rewrite ?Ei; auto. by rewrite Hv', Hv.
Qed.

Lemma view_lookup_None s (i : Index A P F) k :
  view s i !! k = None ↔ acc_of i !! k = None.
Proof using Type. unfold view. rewrite lookup_fmap. by destruct (acc_of i !! k). Qed.

Lemma apply_effect st st' k a :
  layout (bs st) (cur st) → entry_ok (bs st) (cur st) (k, a) →
  store_apply (k, a) st = (st', Ok tt) → Effect st st' k a.
Proof using Type.
  intros Hl Hok H. unfold store_apply in H. apply bind_ok in H as (? & s1 & [= <- <-] & H).
  change (requires_persistence _) with (persists (mm (bs st)) a) in H. unfold entry_ok in Hok.
  destruct (persists (mm (bs st)) a) eqn:Hp; simpl in H.
  - destruct (cow a) as [b|o] eqn:Ecow.
    + pose proof (update_post st st' k a b Hl) as U. unfold entry_ok in U. rewrite Ecow in U.
      destruct (U Hok eq_refl H) as (H1 & H2 & H3 & H4 & H5). split; auto.
      * unfold entry_value. rewrite Hp, (owned_borrowed _ _ b) by done. done.
      * lia.
      * intros _. by rewrite H4.
      * by rewrite Ecow.
    + destruct Hok as (O1 & O2 & O3).
      destruct (insert_post st st' k o Hl O1 O2 O3 H) as (H1 & H2 & H3).
      apply (quiet_insert_prefix _ _ _ _ _ O2) in H as (E1 & _ & E2 & _). split; auto.
      * unfold entry_value. rewrite Hp, (owned_owned _ _ o) by done. done.
      * intros [Hn|(_ & b & Eb)]; [auto|congruence].
      * by rewrite Ecow, Hp.
  - apply bind_ok in H as (st1 & [] & H1 & H). pose proof (quiet_delete _ _ _ _ H1) as Hq.
    pose proof (delete_post _ _ _ Hl H1) as Hpost.
    assert (Hfree : acc_of (cur st) !! k = None → free_of (cur st1) ⊆ free_of (cur st))
      by (by eapply delete_free).
    destruct Hq as (Q1 & Q2 & Q3 & Q4).
    assert (Hn : acc_of (cur st1) !! k = None).
    { apply (view_lookup_None (bs st1)). rewrite (post_view _ _ _ _ Hpost).
      apply lookup_partial_alter_eq. }
    destruct (cow a) as [b|o] eqn:Ecow.
    + apply on_memory_state in H as (_ & M1 & M2 & M3 & M4 & M5).
      destruct Hok as ((e & He & Hb) & Hw & Hc & _).
      assert (Em : mm (bs st') = if is_dirty a then b_commit (mm (bs st)) b else mm (bs st)).
      { rewrite M1, Q2. destruct (is_dirty a); [done|]. rewrite Hc. apply commit_clean.
        rewrite Hb. by apply (lay_image _ _ Hl _ _ He). }
      split.
      * unfold entry_value. rewrite Hp. eapply (post_cow st st1); eauto; [|lia].
        split; [congruence|]. intros k' e' Hne He'. rewrite Em. destruct (is_dirty a); [|done].
        by apply (commit_keeps (bs st) (cur st) k e b Hl He Hb Hw Hc k' e').
      * congruence.
      * lia.
      * rewrite M4. intros [Hx|[Hx _]]; [auto|congruence].
      * by rewrite Ecow.
    + injection H as <-. split; auto.
      * unfold entry_value. by rewrite Hp.
      * intros [Hx|(_ & b & Hx)]; [auto|congruence].
      * by rewrite Ecow, Hp.
Qed.

(** ** A batch *)

Lemma entry_ok_step st st' k a k' a' :
  layout (bs st) (cur st) → Effect st st' k a → k' ≠ k →
  entry_ok (bs st) (cur st) (k', a') →
  entry_ok (bs st') (cur st') (k', a') ∧ owned (mm (bs st')) a' = owned (mm (bs st)) a' ∧
  persists (mm (bs st')) a' = persists (mm (bs st)) a'.
Proof using Type.
  intros Hl [[_ _ [Hh Hm] Hk] _ _ _ _] Hne Hok. unfold entry_ok, persists, core_of, owned in *.
  destruct (cow a') as [b|o]; [|done].
  destruct Hok as ((e & He & Hb) & Hw & Hc & How).
  assert (Hs : same_buffer (mm (bs st)) (mm (bs st')) (b_header b)
                 (header_space (mm (bs st)) (b_header b))) by (rewrite Hb; by apply (Hm k')).
  destruct (local_view _ _ b Hw Hs) as (W1 & W2 & W3 & W4 & W5).
  assert (Hv : valid_buffer (mm (bs st)) (b_header b))
    by (rewrite Hb; by apply (lay_image _ _ Hl _ _ He)).
  destruct (same_buffer_image _ _ _ Hv Hs) as (_ & W6 & _).
  rewrite W2, W3, W4, W5, W6. split_and!; auto.
  exists e. rewrite Hk by done. split; [done|]. rewrite Hb. unfold at_. by rewrite Hh.
Qed.

(** The abstract batch: a map update per entry, all read in the memory at its start. *)
Definition spec_apply (m : mem) (v : gmap Pubkey OwnedAccount) (entry : AccountEntry)
    : gmap Pubkey OwnedAccount :=
  partial_alter (λ _, entry_value m entry.2) entry.1 v.

Lemma spec_apply_ext m m' l v :
  Forall (λ en, entry_value m' en.2 = entry_value m en.2) l →
  foldl (spec_apply m') v l = foldl (spec_apply m) v l.
Proof using Type.
  intros H. revert v. induction H as [|en l Hen _ IH]; intros v; simpl; [done|].
  rewrite IH. f_equal. unfold spec_apply. by rewrite Hen.
Qed.

Lemma batch_apply_ok l n st st' n' :
  layout (bs st) (cur st) → NoDup l.*1 → Forall (entry_ok (bs st) (cur st)) l →
  apply_all l n st = (st', n', Ok tt) →
  layout (bs st') (cur st') ∧
  view (bs st') (cur st') = foldl (spec_apply (mm (bs st))) (view (bs st) (cur st)) l ∧
  index (store_ st') = index (store_ st).
Proof using Type.
  revert n st. induction l as [|[k a] l IH]; intros n st Hl Hnd Hok H.
  { injection H as <- <-. done. }
  rewrite fmap_cons in Hnd. apply list.NoDup_cons in Hnd as [Hk Hnd].
  apply Forall_cons in Hok as [Hka Hok]. simpl in Hk. cbn [apply_all] in H.
  destruct (store_apply (k, a) st) as [st1 [[]|e]] eqn:E; [|discriminate H].
  pose proof (apply_effect _ _ _ _ Hl Hka E) as Heff.
  assert (Hstep : Forall (λ en, entry_ok (bs st1) (cur st1) en ∧
      entry_value (mm (bs st1)) en.2 = entry_value (mm (bs st)) en.2) l).
  { apply Forall_forall. intros [k' a'] Hin.
    destruct (entry_ok_step st st1 k a k' a' Hl Heff) as (H1 & H2 & H3).
    - intros ->. apply Hk, list_elem_of_fmap. by exists (k, a').
    - by apply (proj1 (Forall_forall _ _) Hok).
    - split; [done|]. unfold entry_value. simpl. by rewrite H2, H3. }
  apply Forall_and in Hstep as [Hok1 Hval].
  destruct (IH (S n) st1 (post_layout _ _ _ _ (eff_post _ _ _ _ Heff)) Hnd Hok1 H)
    as (I1 & I2 & I3).
  split_and!; auto.
  - rewrite I2. rewrite (spec_apply_ext _ _ _ _ Hval). simpl. f_equal.
    by rewrite (post_view _ _ _ _ (eff_post _ _ _ _ Heff)).
  - rewrite I3. apply (eff_index _ _ _ _ Heff).
Qed.

(** ** Failed batches *)

(** The dirty view among the processed entries of a key. *)
Definition dirty_borrowed (a : AccountSharedData) : option BorrowedAccount :=
  match cow a with Borrowed b => if is_dirty a then Some b else None | Owned _ => None end.

Definition dirty_view (processed : list AccountEntry) (k : Pubkey) : option BorrowedAccount :=
  match list_find (λ en, en.1 = k) processed with
  | Some (_, en) => dirty_borrowed en.2
  | None => None
  end.

(** The memory a key's buffer shows once the processed entries were applied. *)
Definition written (processed : list AccountEntry) (k : Pubkey) (m : mem) : mem :=
  match dirty_view processed k with Some b => b_commit m b | None => m end.

(** An entry that returns a live span to the freelist, and one that takes a span. *)
Definition frees (i : Index A P F) (m : mem) (en : AccountEntry) : bool :=
  bool_decide (is_Some (acc_of i !! en.1)) &&
  (negb (persists m en.2) || match cow en.2 with Owned _ => true | Borrowed _ => false end).
Definition places (m : mem) (a : AccountSharedData) : bool :=
  persists m a && match cow a with Owned _ => true | Borrowed _ => false end.

(** No entry takes a span after an earlier entry of the batch gave one back. *)
Fixpoint safe_batch (i : Index A P F) (m : mem) (freed : bool) (l : list AccountEntry) : Prop :=
  match l with
  | [] => True
  | en :: l => (freed = true → places m en.2 = false) ∧ safe_batch i m (freed || frees i m en) l
  end.

Lemma dirty_view_fresh d k : k ∉ d.*1 → dirty_view d k = None.
Proof using Type.
  intros Hk. unfold dirty_view. destruct (list_find _ d) as [[j en]|] eqn:Ef; [|done].
  apply list_find_Some in Ef as (Hj & <- & _). exfalso. apply Hk, list_elem_of_fmap.
  exists en. split; [done|]. by apply list_elem_of_lookup_2 in Hj.
Qed.

Lemma dirty_view_snoc d k a k' :
  k ∉ d.*1 →
  dirty_view (d ++ [(k, a)]) k' = if decide (k' = k) then dirty_borrowed a else dirty_view d k'.
Proof using Type.
  intros Hk. unfold dirty_view. destruct (decide (k' = k)) as [->|Hne].
  - assert (Hn : list_find (λ en : AccountEntry, en.1 = k) d = None).
    { apply list_find_None, Forall_forall. intros en Hin E. apply Hk, list_elem_of_fmap.
      by exists en. }
    rewrite list_find_app_r by done. simpl. by rewrite decide_True.
  - destruct (list_find (λ en : AccountEntry, en.1 = k') d) as [[j en]|] eqn:E.
    + erewrite list_find_app_l by done. done.
    + rewrite list_find_app_r by done. simpl. by rewrite decide_False by congruence.
Qed.

Section failing.
Context (s0 : MappedStorage) (i0 : Index A P F).
Hypothesis Hl0 : layout s0 i0.

Definition kept (m m' : mem) (e : OwnerAndOffset) : Prop :=
  same_buffer m m' (at_ s0 (offset e)) (header_space (mm s0) (at_ s0 (offset e))).

Lemma kept_refl m e : kept m m e.
Proof using Type. by intros x _. Qed.
Lemma kept_trans m1 m2 m3 e : kept m1 m2 e → kept m2 m3 e → kept m1 m3 e.
Proof using Type. intros H1 H2 x Hx. rewrite (H1 x Hx). by apply H2. Qed.

(** A write within the buffer of [k], or outside all live spans, keeps other buffers. *)
Lemma kept_other m m' k e k' e' lo hi :
  acc_of i0 !! k = Some e → acc_of i0 !! k' = Some e' → k' ≠ k →
  at_ s0 (offset e) ≤ lo → hi ≤ at_ s0 (offset e) + 8 → frame m m' lo hi → kept m m' e'.
Proof using Hl0.
  intros He He' Hne Hlo Hhi Hf x Hx. apply Hf.
  pose proof (lay_apart _ _ Hl0 _ _ _ _ _ _ (live_block s0 i0 k e He) (live_block s0 i0 k' e' He')
    ltac:(congruence)) as Hap.
  rewrite (live_span s0 i0 k e Hl0 He), (live_span s0 i0 k' e' Hl0 He') in Hap.
  destruct (lay_image _ _ Hl0 _ _ He) as (Hv & _). destruct (span_eq _ _ Hv) as [_ Hsp].
  unfold apart, at_ in *. change STORAGE_UNIT with 8 in *. lia.
Qed.

Lemma kept_fresh m m' o u k e :
  acc_of i0 !! k = Some e → frame m m' (at_ s0 o) (at_ s0 (o + u)) →
  (u, o) ∈ free_of i0 ∨ cursor (meta s0) ≤ o → kept m m' e.
Proof using Hl0.
  intros He Hf Hwhere x Hx. apply Hf. pose proof (live_block s0 i0 k e He) as Hb.
  destruct (lay_bounds _ _ Hl0 _ _ _ Hb) as (_ & _ & Hcur).
  assert (Hap : apart o u (offset e) (span (mm s0) (at_ s0 (offset e))) ∨ cursor (meta s0) ≤ o).
  { destruct Hwhere as [Hin|]; [left|by right].
    by apply (lay_apart _ _ Hl0 (Hole u o) o u (Live k)). }
  rewrite (live_span s0 i0 k e Hl0 He) in *.
  unfold apart, at_ in *. change STORAGE_UNIT with 8 in *. lia.
Qed.

(** The durable accounts during a batch: every live buffer shows the start of the batch,
    or the commit of its own processed view. *)
Record Saved (processed : list AccountEntry) (freed : bool) (st : Batch) : Prop := {
  sv_index : index (store_ st) = i0;
  sv_head : head (bs st) = head s0;
  sv_cursor : cursor (meta s0) ≤ cursor (meta (bs st));
  sv_keys k : k ∉ processed.*1 → acc_of (cur st) !! k = acc_of i0 !! k;
  sv_free : freed = false → free_of (cur st) ⊆ free_of i0;
  sv_mem k e : acc_of i0 !! k = Some e → kept (written processed k (mm s0)) (mm (bs st)) e;
}.

Lemma saved_silent d fr st st' :
  Saved d fr st → silent st st' →
  index (store_ st') = i0 ∧ head (bs st') = head s0 ∧
  cursor (meta s0) ≤ cursor (meta (bs st')) ∧
  ∀ k e, acc_of i0 !! k = Some e → kept (written d k (mm s0)) (mm (bs st')) e.
Proof using Type.
  intros [S1 S2 S3 _ _ S6] (H1 & H2 & H3 & H4). rewrite H1, H2, H3. split_and!; auto. lia.
Qed.

(** The processed entry's own buffer: the commit acts on it as it would have at the start. *)
Lemma commit_kept m b e :
  wf_borrowed (mm s0) b → b_core b = shadow_lo (mm s0) b → b_header b = at_ s0 (offset e) →
  kept (mm s0) m e → kept (b_commit (mm s0) b) (b_commit m b) e.
Proof using Type.
  intros Hw Hc Hh Hk. assert (Hs := Hk). unfold kept in Hs. rewrite <- Hh in Hs.
  destruct (local_view _ _ b Hw Hs) as (W1 & _ & W3 & _).
  rewrite (commit_shadow _ _ Hw Hc), (commit_shadow m b W1) by congruence.
  intros x Hx. specialize (Hk x Hx). unfold store_le, store. by rewrite Hk.
Qed.

(** An owned entry never writes a durable live buffer of a safe batch. *)
Lemma owned_kept d fr st st' k a o k' e' :
  Saved d fr st → cow a = Owned o → Effect st st' k a →
  persists (mm (bs st)) a = persists (mm s0) a →
  (fr = true → places (mm s0) a = false) →
  acc_of i0 !! k' = Some e' → kept (mm (bs st)) (mm (bs st')) e'.
Proof using Hl0.
  intros [S1 S2 S3 S4 S5 S6] Ecow [_ _ _ _ E4] Hper Hsafe He'. rewrite Ecow, Hper in E4.
  destruct (persists (mm s0) a) eqn:Hp; [|by rewrite E4; apply kept_refl].
  destruct E4 as (o' & u & Hf & Hw). destruct fr.
  { specialize (Hsafe eq_refl). unfold places in Hsafe. by rewrite Hp, Ecow in Hsafe. }
  eapply (kept_fresh _ _ o' u); eauto.
  - unfold at_ in *. by rewrite <- S2.
  - destruct Hw as [Hin|]; [left; by apply (S5 eq_refl)|right; lia].
Qed.

Lemma view_kept st st' k a b e k' e' :
  entry_ok (bs st) (cur st) (k, a) → cow a = Borrowed b → Effect st st' k a →
  acc_of i0 !! k = Some e → b_header b = at_ s0 (offset e) → k' ≠ k →
  acc_of i0 !! k' = Some e' → kept (mm (bs st)) (mm (bs st')) e'.
Proof using Hl0.
  intros Hok Ecow [_ _ _ _ E4] He Hb Hne He'. rewrite Ecow in E4. rewrite E4.
  destruct (is_dirty a) eqn:Hd; [|apply kept_refl].
  unfold entry_ok in Hok. rewrite Ecow, Hd in Hok. destruct Hok as (_ & Hw & Hc & _).
  eapply (kept_other _ _ k e k' e'); auto; [| |apply (commit_frame _ _ Hw Hc)];
    rewrite Hb; lia.
Qed.

Lemma saved_step d fr st st' k a :
  Saved d fr st → layout (bs st) (cur st) → k ∉ d.*1 →
  entry_ok s0 i0 (k, a) → entry_ok (bs st) (cur st) (k, a) →
  persists (mm (bs st)) a = persists (mm s0) a →
  (fr = true → places (mm s0) a = false) → Effect st st' k a →
  Saved (d ++ [(k, a)]) (fr || frees i0 (mm s0) (k, a)) st'.
Proof using Hl0.
  intros HS Hl Hk Hok0 Hok Hper Hsafe He. pose proof HS as [S1 S2 S3 S4 S5 S6].
  pose proof He as [Hpost E1 E2 E3 E4]. split.
  - congruence.
  - rewrite <- S2. apply (post_keeps _ _ _ _ Hpost).
  - lia.
  - intros k' Hk'. rewrite fmap_app in Hk'. apply not_elem_of_app in Hk' as [H1 H2].
    rewrite (post_keys _ _ _ _ Hpost); [auto|]. intros ->. apply H2. by apply list_elem_of_singleton.
  - intros [Hfr Hf]%orb_false_iff. etrans; [|by apply S5]. apply E3. rewrite S4 by done.
    unfold frees in Hf. simpl in Hf. rewrite Hper. apply andb_false_iff in Hf as [Hf|Hf].
    + left. apply bool_decide_eq_false in Hf. by apply eq_None_not_Some.
    + right. apply orb_false_iff in Hf as [Hf1%negb_false_iff Hf2]. split; [done|].
      destruct (cow a); [eauto|done].
  - intros k' e' He'. unfold written. rewrite dirty_view_snoc by done.
    pose proof (S6 k' e' He') as Hkeep. unfold written in Hkeep.
    unfold dirty_borrowed. destruct (cow a) as [b|o] eqn:Ecow.
    + unfold entry_ok in Hok0. rewrite Ecow in Hok0.
      destruct Hok0 as ((e & Hke & Hb) & Hw & Hc & _).
      destruct (decide (k' = k)) as [->|Hne].
      * simplify_eq. rewrite dirty_view_fresh in Hkeep by done. rewrite E4.
        destruct (is_dirty a); [by apply commit_kept|done].
      * eapply kept_trans; [exact Hkeep|]. by eapply view_kept.
    + eapply kept_trans; [|by eapply owned_kept].
      destruct (decide (k' = k)) as [->|]; [by rewrite dirty_view_fresh in Hkeep|done].
Qed.

Lemma apply_all_saved l d fr n st st' n' r :
  Saved d fr st → layout (bs st) (cur st) → NoDup (d ++ l).*1 →
  Forall (λ en, entry_ok (bs st) (cur st) en ∧
                persists (mm (bs st)) en.2 = persists (mm s0) en.2) l →
  Forall (entry_ok s0 i0) l → safe_batch i0 (mm s0) fr l →
  apply_all l n st = (st', n', r) →
  ∃ j, n' = (n + j)%nat ∧ index (store_ st') = i0 ∧ head (bs st') = head s0 ∧
       cursor (meta s0) ≤ cursor (meta (bs st')) ∧
       ∀ k e, acc_of i0 !! k = Some e →
              kept (written (d ++ take j l) k (mm s0)) (mm (bs st')) e.
Proof using Hl0.
  revert d fr n st. induction l as [|[k a] l IH]; intros d fr n st HS Hl Hnd Hok Hok0 Hsafe H.
  { injection H as <- <- <-. exists 0%nat. simpl. rewrite app_nil_r.
    destruct (saved_silent _ _ _ _ HS (silent_refl st)) as (?&?&?&?). by split_and!. }
  cbn [apply_all] in H. destruct (store_apply (k, a) st) as [st1 [[]|e]] eqn:E.
  2: { injection H as <- <- <-. exists 0%nat. simpl. rewrite app_nil_r. split; [lia|].
       eapply saved_silent; [done|]. eapply apply_error; [|exact E].
       intros o Eo. apply Forall_cons in Hok0 as [Hok0 _]. unfold entry_ok in Hok0.
       rewrite Eo in Hok0. tauto. }
  apply Forall_cons in Hok as [[Hka Hp] Hok]. apply Forall_cons in Hok0 as [Hka0 Hok0].
  destruct Hsafe as [Hs1 Hs2]. rewrite fmap_app, fmap_cons in Hnd.
  pose proof Hnd as Hnd'. apply NoDup_app in Hnd' as (_ & Hdis & Hnd2).
  apply list.NoDup_cons in Hnd2 as [Hkl Hnd2]. simpl in Hkl, Hdis.
  assert (Hkd : k ∉ d.*1) by (intros Hin; apply (Hdis k Hin); left).
  pose proof (apply_effect _ _ _ _ Hl Hka E) as Heff.
  assert (Hok' : Forall (λ en, entry_ok (bs st1) (cur st1) en ∧
      persists (mm (bs st1)) en.2 = persists (mm s0) en.2) l).
  { apply Forall_forall. intros [k' a'] Hin.
    destruct (proj1 (Forall_forall _ _) Hok (k', a') Hin) as [Hen Hper].
    destruct (entry_ok_step st st1 k a k' a' Hl Heff) as (H1 & _ & H3); auto.
    - intros ->. apply Hkl, list_elem_of_fmap. by exists (k, a').
    - split; [done|]. simpl in *. congruence. }
  destruct (IH (d ++ [(k, a)]) (fr || frees i0 (mm s0) (k, a)) (S n) st1) as (j & Hj & Hrest); auto.
  - by apply (saved_step d fr st st1 k a).
  - apply (post_layout _ _ _ _ (eff_post _ _ _ _ Heff)).
  - by rewrite <- app_assoc, fmap_app, fmap_app.
  - exists (S j). split; [lia|]. simpl. by rewrite <- app_assoc in Hrest.
Qed.

(** ** Rollback *)

Definition roll (m : mem) (a : AccountSharedData) : mem :=
  match dirty_borrowed a with Some b => b_rollback m b | None => m end.

Lemma store_rollback_eq m l : store_rollback m l = foldl roll m l.
Proof using Type.
  unfold store_rollback. revert m. induction l as [|a l IH]; intros m; simpl; [done|].
  rewrite IH. f_equal. unfold roll, dirty_borrowed. by destruct (cow a), (is_dirty a).
Qed.

Lemma rollback_frame m b : frame m (b_rollback m b) (b_header b) (b_header b + 4).
Proof using Type. apply frame_store; rewrite ?length_le_bytes; simpl; lia. Qed.

Lemma rolls_other l m k e :
  Forall (entry_ok s0 i0) l → k ∉ l.*1 → acc_of i0 !! k = Some e →
  kept m (foldl roll m l.*2) e.
Proof using Hl0.
  intros Hok Hk He. revert m Hk. induction Hok as [|[k' a] l Ha _ IH]; intros m Hk;
    [apply kept_refl|].
  apply not_elem_of_cons in Hk as [Hne Hk]. simpl in *.
  eapply kept_trans; [|by apply IH]. unfold roll, dirty_borrowed.
  destruct (cow a) as [b|]; [|apply kept_refl]. destruct (is_dirty a); [|apply kept_refl].
  destruct Ha as ((e' & He' & Hb) & _).
  eapply (kept_other _ _ k' e' k e); auto; [| |apply rollback_frame]; rewrite Hb; lia.
Qed.

Lemma rollback_image m b m2 :
  wf_borrowed m b → b_core b = shadow_lo m b → valid_buffer m (b_header b) →
  same_buffer (b_commit m b) m2 (b_header b) (header_space m (b_header b)) →
  same_image m (b_rollback m2 b) (b_header b).
Proof using Type.
  intros Hw Hc Hv Hs. destruct (rollback_view m b Hw Hc m2 Hv Hs) as [H1 H2].
  destruct (commit_view m b Hw Hc) as (C1 & _ & C3 & C4).
  rewrite <- C3 in Hs. destruct (local_buffer _ _ _ C1 Hs) as (_ & _ & _ & L4 & _ & L6).
  assert (Hd : ∀ n a, b_header b + 4 ≤ a → load (b_rollback m2 b) a n = load m2 a n).
  { intros n a Ha. eapply frame_load; [apply rollback_frame|]. lia. }
  split_and!; auto.
  - unfold span. f_equal. f_equal. unfold header_space, load_le in *. rewrite Hd by lia. congruence.
  - unfold buffer_pubkey in *. rewrite Hd by (change STORAGE_UNIT with 8; lia). congruence.
Qed.

Lemma same_image_kept m m' e k :
  acc_of i0 !! k = Some e → same_image (mm s0) m (at_ s0 (offset e)) → kept m m' e →
  same_image (mm s0) m' (at_ s0 (offset e)).
Proof using Hl0.
  intros He (H1 & H2 & H3 & H4) Hk.
  assert (Hsp : header_space m (at_ s0 (offset e)) = header_space (mm s0) (at_ s0 (offset e))).
  { destruct (span_eq _ _ H1) as [E1 _].
    destruct (span_eq _ _ (proj1 (lay_image _ _ Hl0 _ _ He))) as [E2 _]. lia. }
  unfold kept in Hk. rewrite <- Hsp in Hk.
  destruct (same_buffer_image _ _ _ H1 Hk) as (?&?&?&?). split_and!; auto; congruence.
Qed.

Lemma rolls_clean l m k e :
  Forall (entry_ok s0 i0) l → NoDup l.*1 → acc_of i0 !! k = Some e →
  dirty_view l k = None → kept m (foldl roll m l.*2) e.
Proof using Hl0.
  intros Hok Hnd He Ed. revert m. induction l as [|[k' a] l IH]; intros m; simpl;
    [apply kept_refl|].
  apply Forall_cons in Hok as [Ha Hok]. apply list.NoDup_cons in Hnd as [Hkn Hnd].
  unfold dirty_view in Ed. simpl in Ed. destruct (decide (k' = k)) as [->|Hne].
  - unfold roll at 2. simpl in Ed. rewrite Ed. by apply (rolls_other l _ k).
  - assert (Hdl : dirty_view l k = None)
      by (unfold dirty_view; destruct (list_find _ l) as [[]|]; done).
    eapply kept_trans; [|by apply IH]. unfold roll.
    destruct (dirty_borrowed a) as [b|] eqn:Eb; [|apply kept_refl].
    unfold dirty_borrowed in Eb. unfold entry_ok in Ha. destruct (cow a); [|done].
    destruct (is_dirty a); simplify_eq. destruct Ha as ((e' & He' & Hb) & _).
    eapply (kept_other _ _ k' e' k e); auto; [| |apply rollback_frame]; rewrite Hb; lia.
Qed.

Lemma rolls_restore l m k e :
  Forall (entry_ok s0 i0) l → NoDup l.*1 → acc_of i0 !! k = Some e →
  kept (written l k (mm s0)) m e →
  same_image (mm s0) (foldl roll m l.*2) (at_ s0 (offset e)).
Proof using Hl0.
  intros Hok Hnd He Hk. pose proof (proj1 (lay_image _ _ Hl0 _ _ He)) as Hv.
  destruct (dirty_view l k) as [b|] eqn:Ed; unfold written in Hk; rewrite Ed in Hk.
  - unfold dirty_view in Ed. destruct (list_find _ l) as [[j [k' a]]|] eqn:Ef; [|done].
    apply list_find_Some in Ef as (Hj & E & _). simpl in E, Ed. subst k'.
    apply list_elem_of_split_length in Hj as (l1 & l2 & -> & _).
    rewrite fmap_app, fmap_cons in Hnd. apply NoDup_app in Hnd as (_ & Hd1 & Hnd).
    apply list.NoDup_cons in Hnd as [Hd2 _]. simpl in *.
    apply Forall_app in Hok as [Ho1 Ho2]. apply Forall_cons in Ho2 as [Ha Ho2].
    rewrite fmap_app, fmap_cons, foldl_app. simpl.
    unfold dirty_borrowed in Ed. unfold entry_ok in Ha.
    destruct (cow a) as [b'|] eqn:Ecow; [|done]. destruct (is_dirty a) eqn:Hda; simplify_eq.
    destruct Ha as ((e' & He' & Hb) & Hw & Hc & _). assert (e' = e) as -> by congruence.
    eapply (same_image_kept _ _ _ k He); [|by apply (rolls_other l2 _ k)].
    unfold roll at 1, dirty_borrowed. rewrite Ecow, Hda. rewrite <- Hb.
    apply rollback_image; auto; [by rewrite Hb|].
    rewrite Hb. eapply kept_trans; [exact Hk|]. apply (rolls_other l1 _ k); auto.
    intros Hin. apply (Hd1 k Hin). left.
  - eapply (same_image_kept m); eauto; [|by apply (rolls_clean l m k)].
    apply same_buffer_image; [done|exact Hk].
Qed.

End failing.

(** ** The store *)

Definition store_ok (s : PersistedStore A P F) : Prop := layout (storage s) (index s).
Definition store_view (s : PersistedStore A P F) : gmap Pubkey OwnedAccount :=
  view (storage s) (index s).
Definition batch_ok (s : PersistedStore A P F) (l : list AccountEntry) : Prop :=
  NoDup l.*1 ∧ Forall (entry_ok (storage s) (index s)) l.

Lemma upsert_ok s l s' :
  store_ok s → batch_ok s l → store_upsert s l = (s', Ok tt) →
  store_ok s' ∧ store_view s' = foldl (spec_apply (mm (storage s))) (store_view s) l.
Proof using Type.
  intros Hs [Hnd Hok] H. unfold store_upsert in H.
  destruct (apply_all l 0 _) as [[st n] r] eqn:E.
  assert (Hr : r = Ok tt ∧ s' = {| storage := bs st; index := cur st |}).
  { unfold cur, bs. destruct (txn st) as [t|], r as [[]|e]; simpl in *.
    - destruct (env_commit t); simpl in H; [|discriminate H]. by injection H as <-.
    - discriminate H.
    - injection H as <-. by destruct (store_ st).
    - discriminate H. }
  destruct Hr as [-> ->].
  by destruct (batch_apply_ok l 0 {| store_ := s; txn := None |} st n Hs Hnd Hok E) as (H1 & H2 & _).
Qed.

Lemma upsert_err s l s' e :
  store_ok s → batch_ok s l → safe_batch (index s) (mm (storage s)) false l →
  store_upsert s l = (s', Err e) →
  index s' = index s ∧ store_ok s' ∧ store_view s' = store_view s.
Proof using Type.
  intros Hs [Hnd Hok] Hsafe H. unfold store_upsert in H.
  destruct (apply_all l 0 _) as [[st n] r] eqn:E.
  set (st0 := {| store_ := s; txn := None |}) in E.
  assert (HS : Saved (storage s) (index s) [] false st0).
  { by split. }
  assert (Hok' : Forall (λ en, entry_ok (bs st0) (cur st0) en ∧
    persists (mm (bs st0)) en.2 = persists (mm (storage s)) en.2) l)
    by (eapply Forall_impl; [exact Hok|]; by intros en Hen).
  destruct (apply_all_saved (storage s) (index s) Hs l [] false 0 st0 st n r HS Hs Hnd Hok' Hok Hsafe E)
    as (j & -> & Hi & Hh & Hc & Hm). simpl in Hm.
  assert (Hs' : s' = {| storage := with_mem (bs st)
      (store_rollback (mm (bs st)) (snd <$> take j l)); index := index s |}).
  { rewrite <- Hi. unfold bs. destruct (txn st) as [t|], r as [[]|e0]; simpl in H;
      try destruct (env_commit t); simplify_eq/=; done. }
  subst s'. rewrite store_rollback_eq. split; [done|].
  eapply (layout_images (storage s)); auto. intros k e' He. simpl.
  eapply (rolls_restore (storage s) (index s) Hs (take j l)); eauto.
  - by apply Forall_take.
  - rewrite fmap_take. eapply sublist_NoDup; [done|apply sublist_take].
Qed.

End batch.
