(* ===== verification/StoreProps.v ===== *)
(** * Properties of the persisted store

    Load, modify and upsert as one cycle, batches as map updates, failed batches, the
    program listing, and the limit of the rollback. *)

From stdpp Require Import base list gmap numbers option sets.
From S2P Require Import Prelude AccountMode Memory Account AccountFacts Storage Index Store.
From S2P Require Import StoreFacts StoreBatch.

Local Open Scope Z_scope.

(** ** Views that come out of the mutating calls *)

Lemma mark_dirty s k bits :
  dirty_bits s = Z.lor bits k → marker_ok k = true → is_dirty s = true.
Proof.
  intros E Hk. unfold is_dirty, intersects. rewrite E, Z.land_lor_distr_l.
  apply negb_true_iff, Z.eqb_neq. intros H. apply Z.lor_eq_0_iff in H as [_ H].
  unfold marker_ok, intersects in Hk. by rewrite H in Hk.
Qed.

(** A call that leaves no marker changed nothing. *)
Lemma mutate_clean m s u :
  is_dirty (mutate m s u).2 = false → mutate m s u = (m, s).
Proof.
  assert (Hset : ∀ k f (same : bool), marker_ok k = true →
    is_dirty (if same then (m, s) else let '(m', s') := touch m s k in assign m' s' f).2 = false →
    (if same then (m, s) else let '(m', s') := touch m s k in assign m' s' f) = (m, s)).
  { intros k f [|] Hk H; [done|]. exfalso.
    rewrite (mark_dirty _ k (dirty_bits s)) in H; [done| |done]. apply dirty_setter. }
  assert (Hdata : ∀ s' k, dirty_bits s' = Z.lor (Z.lor (dirty_bits s) DATA) k →
    is_dirty s' = false → False).
  { intros s' k E H. rewrite <- Z.lor_assoc, (Z.lor_comm DATA), Z.lor_assoc in E.
    rewrite (mark_dirty s' DATA _ E) in H; done. }
  assert (Hop : ∀ op, is_dirty (let '(m, s) := touch m s DATA in with_cow s (op m (cow s))).2 = false
    → False).
  { intros op H. eapply Hdata; [|exact H]. rewrite dirty_data. by rewrite Z.lor_0_r. }
  destruct u; simpl; intros H; try (by apply Hset).
  - unfold set_lifecycle in *. pose proof (dirty_set_lifecycle m s to to_slot) as E.
    unfold set_lifecycle in E. destruct (validate_transition _ _ _ _); [|done]. exfalso.
    rewrite (mark_dirty _ SLOT _ E) in H; done.
  - exfalso. by eapply (Hop (λ m c, cow_resize m c len val)).
  - exfalso. by eapply (Hop (λ m c, cow_extend_from_slice m c data)).
  - exfalso. by eapply (Hop (λ m c, cow_set_data_from_slice m c data)).
  - exfalso. destruct (dirty_set_data_at m s offset data) as [k Hk]. by eapply Hdata.
Qed.

Lemma mutates_clean m s us :
  wf m s → Forall mutation_ok us → is_dirty (mutates m s us).2 = false →
  mutates m s us = (m, s).
Proof.
  intros Hw Hus. revert m s Hw. induction Hus as [|u us Hu Hus IH]; intros m s Hw H; simpl; [done|].
  simpl in H. destruct (mutate_spec m s u Hw Hu) as (Hw1 & _ & _).
  destruct (mutate m s u) as [m1 s1] eqn:E. simpl in Hw1. 
  pose proof (IH m1 s1 Hw1 H) as E1. rewrite E1 in H |- *.
  rewrite <- E. apply mutate_clean. by rewrite E.
Qed.

Section store.
Context {A P F : Type}.
Context `{HA : !Database A Pubkey OwnerAndOffset, !MapDatabase A Pubkey OwnerAndOffset}.
Context `{HP : !Database P KeyTail Offset, !DupDatabase P KeyTail Offset}.
Context `{HF : !Database F Z Offset, !DupDatabase F Z Offset}.
Context `{HE : !HeedEnv A P F, IO_ : !FileIo}.

Abbreviation PersistedStore := (Store.PersistedStore A P F).

(** Storage that differs in the counters only. *)
Definition same_state (s s' : PersistedStore) : Prop :=
  mm (storage s') = mm (storage s) ∧ head (storage s') = head (storage s) ∧
  cursor (meta (storage s')) = cursor (meta (storage s)) ∧ index s' = index s.

Lemma same_state_view s s' :
  same_state s s' → store_ok s → store_ok s' ∧ store_view s' = store_view s.
Proof using Type.
  intros (H1 & H2 & H3 & H4) Hs. unfold store_ok, store_view. rewrite H4.
  apply (layout_frame (storage s)); auto; [lia|]. intros k e _ x _. by rewrite H1.
Qed.

Lemma load_spec s k s' r :
  store_ok s → store_load s None k = (s', r) →
  same_state s s' ∧
  match r with
  | Ok (Some b) => ∃ e, acc_of (index s) !! k = Some e ∧
      b = init (mm (storage s)) (at_ (storage s) (offset e)) ∧
      store_view s !! k = Some (b_owned (mm (storage s)) b)
  | Ok None => store_view s !! k = None
  | Err _ => True
  end.
Proof using Type.
  intros Hs. unfold store_load, read_txn.
  destruct (env_read_txn (index s)) as [[]|e] eqn:Er; simpl; [|by intros [= <- <-]].
  destruct (index_offset (index s) k) as [o|e] eqn:Eo; [|by intros [= <- <-]].
  apply index_offset_spec in Eo.
  assert (Hview : store_view s !! k =
    (λ e, open_account (mm (storage s)) (at_ (storage s) (offset e))) <$> acc_of (index s) !! k)
    by (unfold store_view, view; by rewrite lookup_fmap).
  destruct (acc_of (index s) !! k) as [e|] eqn:He; simpl in Eo; subst o; intros [= <- <-].
  - destruct (count_fields (storage s) SRead) as (E1 & E2 & E3). split; [by split_and!|].
    exists e. by split_and!.
  - by split_and!.
Qed.

(** Writes to the shadow image of one live buffer change nothing a load can see. *)
Lemma shadow_writes_invisible s k e m :
  store_ok s → acc_of (index s) !! k = Some e →
  let m0 := mm (storage s) in let h := at_ (storage s) (offset e) in
  frame m0 m (shadow_lo m0 (init m0 h)) (shadow_lo m0 (init m0 h) + image_size m0 (init m0 h)) →
  let s2 := {| storage := with_mem (storage s) m; index := index s |} in
  store_ok s2 ∧ store_view s2 = store_view s ∧ same_image m0 m h.
Proof using Type.
  intros Hs He m0 h Hfr s2. destruct (lay_image _ _ Hs _ _ He) as (Hv & _). fold m0 h in Hv.
  destruct (open_frame m0 m (init m0 h) Hv Hfr eq_refl) as (Hw0 & Hopen & Hinit). simpl in Hinit.
  pose proof (wf_space _ _ Hv) as Hsp. simpl in Hsp.
  assert (Himg : same_image m0 m h).
  { split_and!.
    - unfold valid_buffer. by rewrite Hinit.
    - unfold open_account. by rewrite Hinit.
    - destruct (frame_header _ _ _ (wf_space _ _ Hv) Hfr) as [E _].
      unfold span. simpl in E. by rewrite E.
    - unfold buffer_pubkey. eapply frame_load; [exact Hfr|]. left.
      unfold shadow_lo. rewrite image_addr_eq. simpl.
      change STORAGE_UNIT with 8. destruct (Z.even _); lia. }
  destruct (layout_images (storage s) (with_mem (storage s) m) (index s) Hs) as [Hl' Hview]; auto.
  { simpl. lia. }
  intros k' e' He'. destruct (decide (k' = k)) as [->|Hne]; [by simplify_eq|].
  apply same_buffer_image; [by apply (lay_image _ _ Hs _ _ He')|]. intros x Hx. apply Hfr.
  pose proof (lay_apart _ _ Hs _ _ _ _ _ _ (live_block _ _ k e He) (live_block _ _ k' e' He')
    ltac:(congruence)) as Hap.
  rewrite (live_span _ _ k e Hs He), (live_span _ _ k' e' Hs He') in Hap. fold m0 h in Hap.
  unfold shadow_lo. rewrite image_size_eq, image_addr_eq. simpl. unfold apart in Hap.
  fold m0 in Hx. unfold h, at_ in *. change STORAGE_UNIT with 8 in *. destruct (Z.even _); lia.
Qed.

(** A loaded view, mutated: the store is as before, and the view is a valid entry. *)
Lemma mutated_entry s k e us m a :
  store_ok s → acc_of (index s) !! k = Some e → Forall mutation_ok us →
  mutates (mm (storage s)) (from_borrowed (init (mm (storage s)) (at_ (storage s) (offset e)))) us
    = (m, a) →
  (∀ o, cow a = Owned o → core_ok (o_core o) ∧ small o) →
  let s2 := {| storage := with_mem (storage s) m; index := index s |} in
  store_ok s2 ∧ store_view s2 = store_view s ∧ batch_ok s2 [(k, a)] ∧
  owned m a = foldl abstract_mutate (open_account (mm (storage s)) (at_ (storage s) (offset e))) us.
Proof using Type.
  intros Hs He Hus Hrun Hown s2. set (m0 := mm (storage s)) in *.
  set (h := at_ (storage s) (offset e)) in *.
  destruct (lay_image _ _ Hs _ _ He) as (Hv & Hpk & _). fold m0 h in Hv, Hpk.
  pose proof (mutates_spec m0 _ us (wf_init_clean m0 h Hv) Hus) as (Hw & Hev & Ho).
  pose proof (mutates_tracked m0 _ us (wf_init_clean m0 h Hv) Hus) as Htr.
  pose proof (mutates_clean m0 _ us (wf_init_clean m0 h Hv) Hus) as Hcl.
  rewrite Hrun in Hw, Hev, Ho, Htr, Hcl. simpl in Hw, Hev, Ho, Hcl. destruct Htr as [_ Htr].
  destruct Hev as [Hfr Hcow].
  destruct (shadow_writes_invisible s k e m Hs He Hfr) as (Hs2 & Hview & Himg). fold m0 h in Himg.
  split_and!; auto. split; [apply NoDup_singleton|].
  apply Forall_singleton. unfold entry_ok. simpl. unfold wf in Hw.
  destruct (cow a) as [b|o] eqn:Ecow.
  2: { destruct (Hown o eq_refl). split_and!; auto. rewrite <- Hpk. apply length_load. }
  destruct Hcow as [Hbh Hbv]. simpl in Hbh, Hbv. destruct Hw as [Hw Hd]. split_and!; auto.
  - by exists e.
  - destruct (is_dirty a) eqn:Hda; [auto|]. injection (Hcl eq_refl) as Em Ea.
    rewrite Ea in Ecow. injection Ecow as <-. simpl. by rewrite Em.
  - intros Hno. rewrite Hbh.
    change (owner (o_core (b_owned m b)) = owner (o_core (open_account m h))).
    destruct Himg as (_ & -> & _).
    destruct Htr as (_ & Htr & _). rewrite (owned_borrowed m a b Ecow) in Htr.
    apply dec_stable. intros Hne. rewrite Htr in Hno; [done|]. intros E. by apply Hne.
Qed.

Lemma single_safe i m en : safe_batch (A:=A) (P:=P) (F:=F) i m false [en].
Proof using Type. done. Qed.

Lemma count_reads (s : MappedStorage) (l : list Offset) :
  let s' := foldl (λ m _, count m SRead) s l in
  mm s' = mm s ∧ head s' = head s ∧ cursor (meta s') = cursor (meta s).
Proof using Type.
  revert s. induction l as [|o l IH]; intros s; simpl; [done|].
  destruct (count_fields s SRead) as (E1 & E2 & E3). destruct (IH (count s SRead)) as (-> & -> & ->).
  done.
Qed.

Lemma program_spec s ow s' r :
  store_program s ow = (s', Ok r) →
  same_state s s' ∧ ∃ os,
    default [] r = (λ o, (buffer_pubkey (mm (storage s)) (at_ (storage s) o),
      from_borrowed (init (mm (storage s)) (at_ (storage s) o)))) <$> os ∧
    NoDup os ∧ ∀ o, o ∈ os ↔ (key_tail ow, o) ∈ prog_of (index s).
Proof using Type.
  unfold store_program. intros H.
  assert (Hi : ∀ o, index_program (index s) ow = Ok o → NoDup (default [] o) ∧
    ∀ x, x ∈ default [] o ↔ (key_tail ow, x) ∈ prog_of (index s)).
  { unfold index_program. intros o E. inv_ok. apply dup_get_duplicates in Hok0.
    subst o. by destruct val0. }
  destruct (index_program (index s) ow) as [[os|]|e]; [| |by simplify_eq];
    destruct (Hi _ eq_refl) as [Hn Hin]; injection H as <- <-.
  - destruct (count_reads (storage s) os) as (E1 & E2 & E3). split; [by split_and!|].
    exists os. unfold at_. by rewrite E1, E2.
  - split; [by split_and!|]. by exists [].
Qed.

(** ** Properties *)

(** The read-modify-write cycle of one account. Loading a key and mutating the view it
    gives changes nothing another load can see. Upserting the mutated account then either
    succeeds, and the store maps the key to exactly the mutated account (or drops the key,
    when its new mode is not a persistent one), or fails, and the store is as before; every
    other key keeps its account, and the layout invariant holds in both cases. *)
Theorem load_mutate_upsert s k s1 b us m a :
  store_ok s → store_load s None k = (s1, Ok (Some b)) → Forall mutation_ok us →
  mutates (mm (storage s1)) (from_borrowed b) us = (m, a) →
  (∀ o, cow a = Owned o → core_ok (o_core o) ∧ small o) →
  let s2 := {| storage := with_mem (storage s1) m; index := index s1 |} in
  let new := foldl abstract_mutate (b_owned (mm (storage s1)) b) us in
  let '(s3, r) := store_upsert s2 [(k, a)] in
  store_view s2 = store_view s ∧ store_ok s3 ∧
  match r with
  | Ok _ => store_view s3 = partial_alter
      (λ _, if requires_persistence (mode (o_core new)) then Some new else None) k (store_view s)
  | Err _ => store_view s3 = store_view s
  end.
Proof using Type.
  intros Hs Hload Hus Hrun Hown s2 new.
  destruct (load_spec s k s1 _ Hs Hload) as (Hst & e & He & -> & _).
  destruct (same_state_view s s1 Hst Hs) as [Hs1 Hv1]. pose proof Hst as (E1 & E2 & _ & E4).
  assert (Eb : init (mm (storage s)) (at_ (storage s) (offset e)) =
               init (mm (storage s1)) (at_ (storage s1) (offset e)))
    by (unfold at_; by rewrite E1, E2).
  rewrite Eb in Hrun. rewrite <- E4 in He.
  destruct (mutated_entry s1 k e us m a Hs1 He Hus Hrun Hown) as (Hs2 & Hv2 & Hb & Ho).
  fold s2 in Hs2, Hv2, Hb. destruct (store_upsert s2 [(k, a)]) as [s3 r] eqn:Eu.
  rewrite <- Hv1, <- Hv2. split; [done|]. destruct r as [[]|e'].
  - destruct (upsert_ok s2 _ s3 Hs2 Hb Eu) as [Hs3 Hv3]. split; [done|]. rewrite Hv3. simpl.
    unfold spec_apply, entry_value, persists. simpl. rewrite core_of_owned, Ho.
    unfold new. by rewrite Eb.
  - destruct (upsert_err s2 _ s3 e' Hs2 Hb (single_safe _ _ _) Eu) as (_ & ? & ?). done.
Qed.

(** A batch is a sequence of map updates: a successful upsert of entries with distinct
    keys, owned accounts and dirty or clean views of loaded accounts in any order, leaves a
    store that maps each key to the last state of its entry (or to nothing when the mode is
    not persistent) and all other keys to what they had, with the layout invariant kept. *)
Theorem upsert_refines_map s l s' :
  store_ok s → batch_ok s l → store_upsert s l = (s', Ok tt) →
  store_ok s' ∧ store_view s' = foldl (spec_apply (mm (storage s))) (store_view s) l.
Proof using Type. apply upsert_ok. Qed.

(** C36. A failed batch is undone: when any call of the batch fails (allocation, index
    update, commit), the committed index is the one before, and every persisted account
    opens to its old state, provided that no entry takes a span after an earlier entry of
    the same batch gave one back. *)
Theorem failed_upsert_restores s l s' e :
  store_ok s → batch_ok s l → safe_batch (index s) (mm (storage s)) false l →
  store_upsert s l = (s', Err e) →
  index s' = index s ∧ store_ok s' ∧ store_view s' = store_view s.
Proof using Type. apply upsert_err. Qed.

(** The listing of a program is exact: it holds each persisted account whose owner has
    the listed owner's tag, once, under its key and in its current state, and nothing else. *)
Theorem program_lists_owner s ow s' r :
  store_ok s → store_program s ow = (s', Ok r) →
  same_state s s' ∧ NoDup (default [] r).*1 ∧
  ∀ k acc, (∃ a, (k, a) ∈ default [] r ∧ owned (mm (storage s')) a = acc) ↔
           store_view s !! k = Some acc ∧ key_tail (owner (o_core acc)) = key_tail ow.
Proof using Type.
  intros Hs H. destruct (program_spec s ow s' r H) as (Hst & os & -> & Hnd & Hos).
  pose proof Hst as (E1 & E2 & _ & _). split; [done|].
  assert (Himg : ∀ o, o ∈ os → ∃ k e, acc_of (index s) !! k = Some e ∧ offset e = o ∧
    tag e = key_tail ow ∧ buffer_pubkey (mm (storage s)) (at_ (storage s) o) = k).
  { intros o Ho%Hos%(lay_programs _ _ Hs). destruct Ho as (k & e & He & Ht & <-).
    exists k, e. by destruct (lay_image _ _ Hs _ _ He) as (_ & ? & _). }
  split.
  - rewrite <- list_fmap_compose. apply NoDup_fmap_2_strong; [|done]. simpl.
    intros o o' Ho Ho' E. destruct (Himg o Ho) as (k & e & He & <- & _ & Hk).
    destruct (Himg o' Ho') as (k' & e' & He' & <- & _ & Hk').
    rewrite Hk, Hk' in E. by simplify_eq.
  - intros k acc. split.
    + intros (a & Hin & <-). apply list_elem_of_fmap in Hin as (o & [= -> ->] & Ho).
      destruct (Himg o Ho) as (k & e & He & <- & Ht & ->).
      destruct (lay_image _ _ Hs _ _ He) as (_ & _ & Htag).
      unfold store_view, view, owned. rewrite lookup_fmap, He. simpl. rewrite E1.
      split; [done|]. rewrite <- Ht. by symmetry.
    + unfold store_view, view. rewrite lookup_fmap. intros [(e & He & ->)%fmap_Some Htag].
      destruct (lay_image _ _ Hs _ _ He) as (_ & Hk & Htag').
      exists (from_borrowed (init (mm (storage s)) (at_ (storage s) (offset e)))). split.
      * apply list_elem_of_fmap. exists (offset e). split; [by rewrite Hk|].
        apply Hos, (lay_programs _ _ Hs). exists k, e. by rewrite Htag'.
      * unfold owned. simpl. by rewrite E1.
Qed.

End store.

(** ** Witnesses: a store over finite tables *)

Lemma by_result {X Y} (p : X * Y) y : p.2 = y → p = (p.1, y).
Proof. destruct p. simpl. by intros ->. Qed.

Abbreviation AT := (GMapTable Pubkey OwnerAndOffset).
Abbreviation PT := (GSetTable KeyTail Offset).
Abbreviation FT := (GSetTable Z Offset).

(** An operating system that never fails, and environments whose commit does what it is
    told. *)
Definition good_io : FileIo :=
  {| io_metadata _ := Ok tt; io_set_len _ := Ok tt; io_flush _ := Ok tt;
     io_mmap_flush _ := Ok tt |}.
Definition env_with (commit : result ErrorCode unit) : HeedEnv AT PT FT :=
  {| env_write_txn _ := Ok tt; env_read_txn _ := Ok tt; env_commit _ := commit;
     env_force_sync _ := Ok tt |}.

#[local] Existing Instance good_io.

Definition empty_index : Index AT PT FT :=
  Build_Index {| gm_limit := 100; gm_map := ∅ |} {| gs_limit := 100; gs_set := ∅ |}
              {| gs_limit := 100; gs_set := ∅ |}.
Definition empty_store : Store.PersistedStore AT PT FT :=
  {| storage := storage_new (λ _, 0) 4096 0 initial_meta; index := empty_index |}.

Lemma empty_store_ok : store_ok empty_store.
Proof.
  assert (Hb : ∀ b o u, ¬ block_at (storage empty_store) empty_index b o u).
  { intros [k|u' o'] o u; simpl; [intros (e & He & _)|intros [He _]]; set_solver. }
  split; simpl; try done.
  - intros b o u H. by destruct (Hb b o u).
  - intros b o u b' o' u' H. by destruct (Hb b o u).
  - intros t o. split; [set_solver|]. by intros (k & e & He & _).
Qed.

Definition key_a : Pubkey := replicate 32 9.
Definition key_b : Pubkey := replicate 32 11.
Definition other_account : OwnedAccount := {| o_core := ex_core; o_data := [6; 6; 6; 6; 6] |}.

Definition one_batch : list AccountEntry := [(key_a, from_owned ex_account)].
Definition one_store : Store.PersistedStore AT PT FT :=
  (store_upsert (HeedEnv0 := env_with (Ok tt)) empty_store one_batch).1.

Lemma owned_entry_ok s k o :
  core_ok (o_core o) → zlen (o_data o) = 5 → length k = 32%nat →
  entry_ok (A:=AT) (P:=PT) (F:=FT) (storage s) (index s) (k, from_owned o).
Proof.
  intros Ho Hd Hk. unfold entry_ok. simpl. split_and!; auto. unfold small. rewrite Hd. lia.
Qed.

Lemma one_batch_ok : batch_ok empty_store one_batch.
Proof.
  split; [apply NoDup_singleton|]. apply Forall_singleton.
  apply owned_entry_ok; [apply ex_core_ok|done|done].
Qed.

Lemma upsert_refines_map_witness :
  store_ok one_store ∧ store_view one_store = {[ key_a := ex_account ]}.
Proof.
  destruct (upsert_refines_map (HE := env_with (Ok tt)) empty_store one_batch one_store)
    as [H1 H2].
  - apply empty_store_ok.
  - apply one_batch_ok.
  - apply by_result. vm_compute. reflexivity.
  - split; [exact H1|]. rewrite H2. vm_compute. reflexivity.
Defined.

Lemma one_store_ok : store_ok one_store.
Proof.
  apply (upsert_ok (HE := env_with (Ok tt)) empty_store one_batch);
    [apply empty_store_ok|apply one_batch_ok|].
  apply by_result. vm_compute. reflexivity.
Qed.

(** The replacement of one account and the insertion of another of the same size. *)
Definition two_batch : list AccountEntry :=
  [(key_a, from_owned other_account); (key_b, from_owned other_account)].

Lemma two_batch_ok : batch_ok one_store two_batch.
Proof.
  split.
  - apply list.NoDup_cons. split; [|apply NoDup_singleton].
    rewrite list_elem_of_singleton. discriminate.
  - repeat apply Forall_cons_2; [apply owned_entry_ok; [apply ex_core_ok|done|done]..|done].
Qed.

(** C37. Without the condition on the order of the batch the rollback is not enough: the
    replacement of an owned account frees its committed span, the next insertion of the
    batch takes that span and overwrites the image in place, and when the commit then fails
    the index still points the first key at a span that holds another account. *)
Theorem failed_upsert_clobbers :
  ∃ s l s' e, store_ok s ∧ batch_ok s l ∧
    store_upsert (HeedEnv0 := env_with (Err MAP_FULL)) s l = (s', Err e) ∧
    index s' = index s ∧ store_view s !! key_a = Some ex_account ∧
    store_view s' !! key_a = Some other_account.
Proof.
  exists one_store, two_batch,
    (store_upsert (HeedEnv0 := env_with (Err MAP_FULL)) one_store two_batch).1,
    (IndexError MAP_FULL).
  split; [apply one_store_ok|]. split; [apply two_batch_ok|].
  split; [apply by_result|split; [|split]]; vm_compute; reflexivity.
Qed.

(** A new account alone is a safe batch. *)
Definition new_batch : list AccountEntry := [(key_b, from_owned other_account)].

Lemma failed_upsert_restores_witness :
  let r := store_upsert (HeedEnv0 := env_with (Err MAP_FULL)) one_store new_batch in
  r.2 = Err (IndexError MAP_FULL) ∧ store_view r.1 = store_view one_store.
Proof.
  intros r. destruct (failed_upsert_restores (HE := env_with (Err MAP_FULL)) one_store new_batch
    r.1 (IndexError MAP_FULL)) as (_ & _ & H).
  - apply one_store_ok.
  - split; [apply NoDup_singleton|]. apply Forall_singleton.
    apply owned_entry_ok; [apply ex_core_ok|done|done].
  - split; [discriminate|exact I].
  - apply by_result. vm_compute. reflexivity.
  - split; [vm_compute; reflexivity|exact H].
Defined.

Lemma program_lists_owner_witness :
  let r := store_program (HeedEnv0 := env_with (Ok tt)) one_store (replicate 32 7) in
  NoDup (match r.2 with Ok l => default [] l | Err _ => [] end).*1 ∧
  (match r.2 with Ok l => default [] l | Err _ => [] end).*1 = [key_a].
Proof.
  intros r. destruct (program_lists_owner (HE := env_with (Ok tt)) one_store (replicate 32 7) r.1
    (match r.2 with Ok l => l | Err _ => None end)) as (_ & H & _).
  - apply one_store_ok.
  - apply by_result. vm_compute. reflexivity.
  - split; [exact H|]. vm_compute. reflexivity.
Defined.

Definition cycle_mutations : list Mutation := [MLamports 5; MSetDataAt 3 [9; 9; 9]].
Definition cycle_load : Store.PersistedStore AT PT FT :=
  (store_load (HeedEnv0 := env_with (Ok tt)) one_store None key_a).1.
Definition cycle_run : mem * AccountSharedData :=
  mutates (mm (storage cycle_load)) (from_borrowed (init (mm (storage one_store)) 4352))
    cycle_mutations.

Lemma cycle_mutations_ok : Forall mutation_ok cycle_mutations.
Proof. repeat apply Forall_cons_2; try done; simpl; unfold fits; lia. Qed.

Lemma load_mutate_upsert_witness :
  let s2 := {| storage := with_mem (storage cycle_load) cycle_run.1; index := index cycle_load |} in
  let r := store_upsert (HeedEnv0 := env_with (Ok tt)) s2 [(key_a, cycle_run.2)] in
  store_view s2 = store_view one_store ∧ store_ok r.1 ∧
  store_view r.1 !! key_a = Some (foldl abstract_mutate ex_account cycle_mutations).
Proof.
  intros s2 r.
  assert (H : store_view s2 = store_view one_store ∧ store_ok r.1).
  { assert (Hload : store_load (HeedEnv0 := env_with (Ok tt)) one_store None key_a =
      (cycle_load, Ok (Some (init (mm (storage one_store)) 4352))))
      by (apply (by_result (store_load _ _ _)); vm_compute; reflexivity).
    assert (Hrun : mutates (mm (storage cycle_load))
      (from_borrowed (init (mm (storage one_store)) 4352)) cycle_mutations =
      (cycle_run.1, cycle_run.2)) by (unfold cycle_run; apply surjective_pairing).
    assert (Hown : ∀ o, cow cycle_run.2 = Owned o → core_ok (o_core o) ∧ small o)
      by (intros o E; exfalso; revert E; vm_compute; discriminate).
    pose proof (load_mutate_upsert (HE := env_with (Ok tt)) one_store key_a cycle_load _
      cycle_mutations cycle_run.1 cycle_run.2 one_store_ok Hload cycle_mutations_ok Hrun Hown) as H.
    cbv zeta in H. fold s2 in H. fold r in H. destruct r as [s3 res]. tauto. }
  destruct H as [H1 H2]. split; [exact H1|]. split; [exact H2|]. vm_compute. reflexivity.
Defined.
