(* ===== verification/Volatile.v ===== *)
(** * The volatile store ([accountsdb/src/volatile.rs])

    Owned accounts by key and, per owner, the set of its keys. The concurrent maps are
    finite maps here, one call after the other; the invariant ties the two together. *)

From stdpp Require Import base list gmap numbers option sets.
From S2P Require Import Prelude AccountMode Memory Account AccountFacts Store.

Local Open Scope Z_scope.

(** ** Data and operations *)

Record VolatileStore := {
  v_accounts : gmap Pubkey OwnedAccount;
  v_programs : gmap Pubkey (gset Pubkey);
}.

(** [programs.entry_sync(owner).or_default()] and the insertion into the set. *)
Definition link (ps : gmap Pubkey (gset Pubkey)) (ow pubkey : Pubkey)
    : gmap Pubkey (gset Pubkey) :=
  <[ow := {[ pubkey ]} ∪ default ∅ (ps !! ow)]> ps.

(** [programs.remove_if_sync(owner, |set| { set.remove(pubkey); set.is_empty() })]. *)
Definition unlink (ps : gmap Pubkey (gset Pubkey)) (ow pubkey : Pubkey)
    : gmap Pubkey (gset Pubkey) :=
  match ps !! ow with
  | None => ps
  | Some set =>
      let set := set ∖ {[ pubkey ]} in
      if bool_decide (set = ∅) then delete ow ps else <[ow := set]> ps
  end.

(** [VolatileStore::new]: the ownership sets are rebuilt from the restored accounts. *)
Definition volatile_new (restored : gmap Pubkey OwnedAccount) : VolatileStore :=
  {| v_accounts := restored;
     v_programs := map_fold (λ pk acc ps, link ps (owner (o_core acc)) pk) ∅ restored |}.

Definition volatile_delete (v : VolatileStore) (pubkey : Pubkey) : VolatileStore :=
  match v_accounts v !! pubkey with
  | None => v
  | Some e =>
      {| v_accounts := delete pubkey (v_accounts v);
         v_programs := unlink (v_programs v) (owner (o_core e)) pubkey |}
  end.

Definition volatile_upsert_one (m : mem) (v : VolatileStore) (entry : AccountEntry)
    : VolatileStore :=
  let '(pubkey, account) := entry in
  let md := mode (core_of m account) in
  if requires_persistence md || bool_decide (md = Closed) then volatile_delete v pubkey
  else
    let ow := owner (core_of m account) in
    let ps := link (v_programs v) ow pubkey in
    let prev := v_accounts v !! pubkey in
    let accs := <[pubkey := owned m account]> (v_accounts v) in
    match prev with
    | None => {| v_accounts := accs; v_programs := ps |}
    | Some prev =>
        if bool_decide (owner (o_core prev) = ow)
        then {| v_accounts := accs; v_programs := ps |}
        else {| v_accounts := accs; v_programs := unlink ps (owner (o_core prev)) pubkey |}
    end.

Definition volatile_upsert (m : mem) (v : VolatileStore) (accounts : list AccountEntry)
    : VolatileStore :=
  foldl (volatile_upsert_one m) v accounts.

Definition volatile_load (v : VolatileStore) (pubkey : Pubkey) : option OwnedAccount :=
  v_accounts v !! pubkey.

Definition volatile_lifecycle (v : VolatileStore) (pubkey : Pubkey) : option (AccountMode * Z) :=
  (λ acc, (mode (o_core acc), slot (o_core acc))) <$> v_accounts v !! pubkey.

Definition volatile_contains (v : VolatileStore) (pubkey : Pubkey) : bool :=
  bool_decide (is_Some (v_accounts v !! pubkey)).

Definition volatile_program (v : VolatileStore) (ow : Pubkey) : gset Pubkey :=
  default ∅ (v_programs v !! ow).

Definition volatile_reset (v : VolatileStore) : VolatileStore :=
  {| v_accounts := ∅; v_programs := ∅ |}.

(** ** Invariant: the sets of the owners partition the keys, and none is empty *)

Record synced (accs : gmap Pubkey OwnedAccount) (ps : gmap Pubkey (gset Pubkey)) : Prop := {
  sync_owner ow pk :
    pk ∈ default ∅ (ps !! ow) ↔ ∃ acc, accs !! pk = Some acc ∧ owner (o_core acc) = ow;
  sync_nonempty ow set : ps !! ow = Some set → set ≠ ∅;
}.

Definition volatile_ok (v : VolatileStore) : Prop := synced (v_accounts v) (v_programs v).

(** ** Lemmas *)

Lemma link_lookup ps ow pk ow' :
  default ∅ (link ps ow pk !! ow') =
  if decide (ow' = ow) then {[ pk ]} ∪ default ∅ (ps !! ow) else default ∅ (ps !! ow').
Proof.
  unfold link. case_decide as E; [subst; by rewrite lookup_insert_eq|].
  by rewrite lookup_insert_ne by congruence.
Qed.

Lemma unlink_lookup ps ow pk ow' :
  default ∅ (unlink ps ow pk !! ow') =
  if decide (ow' = ow) then default ∅ (ps !! ow) ∖ {[ pk ]} else default ∅ (ps !! ow').
Proof.
  unfold unlink. destruct (ps !! ow) as [set|] eqn:E; case_decide as Ee; subst; simpl.
  - case_bool_decide as Es; [by rewrite lookup_delete_eq|by rewrite lookup_insert_eq].
  - case_bool_decide; [by rewrite lookup_delete_ne by congruence|].
    by rewrite lookup_insert_ne by congruence.
  - rewrite E. simpl. set_solver.
  - done.
Qed.

Lemma link_nonempty ps ow pk :
  (∀ o set, ps !! o = Some set → set ≠ ∅) → ∀ o set, link ps ow pk !! o = Some set → set ≠ ∅.
Proof.
  intros H o set. unfold link. destruct (decide (o = ow)) as [->|Hne].
  - rewrite lookup_insert_eq. intros [= <-]. set_solver.
  - rewrite lookup_insert_ne by congruence. apply H.
Qed.

Lemma unlink_nonempty ps ow pk :
  (∀ o set, ps !! o = Some set → set ≠ ∅) → ∀ o set, unlink ps ow pk !! o = Some set → set ≠ ∅.
Proof.
  intros H o set. unfold unlink. destruct (ps !! ow) as [s|]; [|apply H].
  case_bool_decide as Es; [rewrite lookup_delete_Some; intros [_ ?]; by apply (H o)|].
  destruct (decide (o = ow)) as [->|Hne].
  - rewrite lookup_insert_eq. by intros [= <-].
  - rewrite lookup_insert_ne by congruence. apply H.
Qed.

Lemma synced_delete accs ps pk acc :
  synced accs ps → accs !! pk = Some acc →
  synced (delete pk accs) (unlink ps (owner (o_core acc)) pk).
Proof.
  intros [H1 H2] Hacc. split; [|by apply unlink_nonempty].
  intros ow pk'. rewrite unlink_lookup. case_decide as E.
  - subst. rewrite elem_of_difference, elem_of_singleton, H1. split.
    + intros [(a & Ha & Ho) Hne]. exists a. by rewrite lookup_delete_ne.
    + intros (a & [Hne Ha]%lookup_delete_Some & Ho). split; [by exists a|congruence].
  - rewrite H1. split; intros (a & Ha & Ho); exists a.
    + rewrite lookup_delete_ne; [done|]. intros <-. congruence.
    + by apply lookup_delete_Some in Ha as [_ Ha].
Qed.

Lemma synced_insert_fresh accs ps pk acc :
  synced accs ps → (∀ a, accs !! pk = Some a → owner (o_core a) = owner (o_core acc)) →
  synced (<[pk := acc]> accs) (link ps (owner (o_core acc)) pk).
Proof.
  intros [H1 H2] Hsame. split; [|by apply link_nonempty].
  intros ow pk'. rewrite link_lookup. case_decide as E.
  - subst. rewrite elem_of_union, elem_of_singleton, H1. destruct (decide (pk' = pk)) as [->|Hne].
    + rewrite lookup_insert_eq. naive_solver.
    + rewrite lookup_insert_ne by congruence. naive_solver.
  - rewrite H1. destruct (decide (pk' = pk)) as [->|Hne].
    + rewrite lookup_insert_eq. naive_solver.
    + by rewrite lookup_insert_ne by congruence.
Qed.

(** Moving a key between owners: linked to the new one first, then unlinked. *)
Lemma synced_move accs ps pk prev acc :
  synced accs ps → accs !! pk = Some prev → owner (o_core prev) ≠ owner (o_core acc) →
  synced (<[pk := acc]> accs) (unlink (link ps (owner (o_core acc)) pk) (owner (o_core prev)) pk).
Proof.
  intros [H1 H2] Hprev Hne. split; [|by apply unlink_nonempty, link_nonempty].
  intros ow pk'. rewrite unlink_lookup, !link_lookup.
  rewrite (decide_False (P := owner (o_core prev) = _)) by done.
  destruct (decide (pk' = pk)) as [->|Hpk];
    [rewrite lookup_insert_eq|rewrite lookup_insert_ne by congruence];
    repeat case_decide; subst; rewrite ?elem_of_difference, ?elem_of_union, ?elem_of_singleton, ?H1;
    naive_solver.
Qed.

Lemma volatile_delete_ok v pk :
  volatile_ok v →
  volatile_ok (volatile_delete v pk) ∧
  v_accounts (volatile_delete v pk) = delete pk (v_accounts v).
Proof.
  intros H. unfold volatile_delete. destruct (v_accounts v !! pk) as [e|] eqn:E.
  - split; [by apply synced_delete|done].
  - split; [done|]. by rewrite delete_id.
Qed.

(** What an entry leaves under its key in the volatile store. *)
Definition volatile_value (m : mem) (a : AccountSharedData) : option OwnedAccount :=
  let md := mode (core_of m a) in
  if requires_persistence md || bool_decide (md = Closed) then None else Some (owned m a).

Lemma volatile_upsert_one_ok m v entry :
  volatile_ok v →
  volatile_ok (volatile_upsert_one m v entry) ∧
  v_accounts (volatile_upsert_one m v entry) =
    partial_alter (λ _, volatile_value m entry.2) entry.1 (v_accounts v).
Proof.
  intros H. destruct entry as [pk a]. unfold volatile_upsert_one, volatile_value. simpl.
  destruct (_ || _); [by apply volatile_delete_ok|].
  rewrite (core_of_owned m a). set (acc := owned m a).
  destruct (v_accounts v !! pk) as [prev|] eqn:E; [case_bool_decide as Eo|]; split; simpl; try done.
  - apply synced_insert_fresh; [done|]. by intros ? [= <-]%(eq_trans (eq_sym E)).
  - by apply synced_move.
  - apply synced_insert_fresh; [done|]. intros a'. by rewrite E.
Qed.

Lemma volatile_upsert_ok m v l :
  volatile_ok v →
  volatile_ok (volatile_upsert m v l) ∧
  v_accounts (volatile_upsert m v l) =
    foldl (λ accs en, partial_alter (λ _, volatile_value m en.2) en.1 accs) (v_accounts v) l.
Proof.
  revert v. induction l as [|en l IH]; intros v H; simpl; [done|].
  destruct (volatile_upsert_one_ok m v en H) as [H1 H2].
  destruct (IH _ H1) as [H3 H4]. split; [done|]. by rewrite H4, H2.
Qed.

Lemma synced_empty : synced ∅ ∅.
Proof.
  split; [|done]. intros ow pk. rewrite lookup_empty. simpl. split; [set_solver|].
  intros (a & Ha & _). by rewrite lookup_empty in Ha.
Qed.

Lemma volatile_new_ok restored : volatile_ok (volatile_new restored).
Proof.
  unfold volatile_ok, volatile_new. simpl.
  apply (map_fold_weak_ind (λ ps accs, synced accs ps)).
  - apply synced_empty.
  - intros pk acc accs ps Hn H. apply synced_insert_fresh; [done|]. intros a. by rewrite Hn.
Qed.

(** ** Property *)

(** A restart from a saved map, then any mix of batches and resets. *)
Inductive VolatileOp := VUpsert (m : mem) (l : list AccountEntry) | VReset.
Definition volatile_step (v : VolatileStore) (op : VolatileOp) : VolatileStore :=
  match op with VUpsert m l => volatile_upsert m v l | VReset => volatile_reset v end.

(** The ownership index of the volatile store is exact: after a restart from any saved
    accounts and any sequence of batches and resets, the keys listed for a program are
    exactly those of the cached accounts it owns, and no owner keeps an empty set. *)
Theorem volatile_index_exact restored ops ow :
  let v := foldl volatile_step (volatile_new restored) ops in
  (∀ pk, pk ∈ volatile_program v ow ↔
         ∃ acc, volatile_load v pk = Some acc ∧ owner (o_core acc) = ow) ∧
  v_programs v !! ow ≠ Some ∅.
Proof.
  intros v. assert (H : volatile_ok v).
  { unfold v. generalize (volatile_new_ok restored). generalize (volatile_new restored).
    induction ops as [|op ops IH]; intros v0 H0; simpl; [done|]. apply IH.
    destruct op as [m l|]; [by apply volatile_upsert_ok|].
    apply synced_empty. }
  split; [intros pk; apply (sync_owner _ _ H)|]. intros E. by apply (sync_nonempty _ _ H) in E.
Qed.
