(* ===== verification/AccountsDb.v ===== *)
(** * The accounts database ([accountsdb/src/lib.rs])

    Routing of accounts between the persisted and the volatile backend by their lifecycle
    mode, loading with volatile precedence, and the commit of a transaction's accounts. *)

From stdpp Require Import base list gmap numbers option sets sorting.
From S2P Require Import Prelude AccountMode Memory Account AccountFacts Storage Index Store.
From S2P Require Import StoreFacts StoreBatch StoreProps Volatile.

Local Open Scope Z_scope.

Section accountsdb.
Context {A P F : Type}.
Context `{HA : !Database A Pubkey OwnerAndOffset, HP : !Database P KeyTail Offset}.
Context `{HF : !Database F Z Offset, HE : !HeedEnv A P F, IO_ : !FileIo, HH : !Hasher}.

Record AccountsDB := { persisted : PersistedStore A P F; volatile : VolatileStore }.

Definition db_mem (db : AccountsDB) : mem := mm (storage (persisted db)).

Definition with_persisted (db : AccountsDB) (s : PersistedStore A P F) : AccountsDB :=
  {| persisted := s; volatile := volatile db |}.

Definition put_meta (db : AccountsDB) (f : MetaField) : AccountsDB :=
  with_persisted db {| storage := meta_store (storage (persisted db)) f;
                       index := index (persisted db) |}.

(** The filters of [store]. *)
Definition persisted_entry (m : mem) (entry : AccountEntry) : bool :=
  let account := entry.2 in
  match cow account with Borrowed _ => true | Owned _ => false end
  || requires_persistence (mode (core_of m account))
  || bool_decide (mode (core_of m account) = Closed)
  || contains (dirty_bits account) MODE.

Definition volatile_entry (m : mem) (entry : AccountEntry) : bool :=
  let account := entry.2 in
  match cow account with Owned _ => true | Borrowed _ => false end
  || negb (requires_persistence (mode (core_of m account))).

(** [is_new]: no account image was ever allocated. *)
Definition is_new (db : AccountsDB) : bool := cursor (meta (storage (persisted db))) =? 0.

(** The volatile filter and the volatile copy read the borrowed views again, after the
    persisted upsert. *)
Definition db_store (db : AccountsDB) (accounts : list AccountEntry)
    : AccountsDB * result AccountsDBError unit :=
  match store_upsert (persisted db) (List.filter (persisted_entry (db_mem db)) accounts) with
  | (s, Err e) => (with_persisted db s, Err e)
  | (s, Ok _) =>
      let m := mm (storage s) in
      ({| persisted := s;
          volatile := volatile_upsert m (volatile db) (List.filter (volatile_entry m) accounts) |},
       Ok tt)
  end.

Definition db_commit (db : AccountsDB) (accounts : list AccountEntry)
    : AccountsDB * result AccountsDBError unit :=
  match db_store db accounts with
  | (db, Err e) => (db, Err e)
  | (db, Ok _) =>
      let t := transactions (meta (storage (persisted db))) in
      (put_meta db (PTransactions (wrapping_add 64 t 1)), Ok tt)
  end.

(** [AccountLoader::load] outside a cached transaction. *)
Definition db_load (db : AccountsDB) (pubkey : Pubkey)
    : AccountsDB * result AccountsDBError (option AccountSharedData) :=
  match volatile_load (volatile db) pubkey with
  | Some account => (db, Ok (Some (from_owned account)))
  | None =>
      match store_load (persisted db) None pubkey with
      | (s, Ok b) => (with_persisted db s, Ok (from_borrowed <$> b))
      | (s, Err e) => (with_persisted db s, Err e)
      end
  end.

(** [AccountLoader::read] and [lifecycle] with no concurrent writer. *)
Definition db_read {R} (db : AccountsDB) (pubkey : Pubkey) (reader : mem → AccountSharedData → R)
    : AccountsDB * result AccountsDBError (option R) :=
  match db_load db pubkey with
  | (db, Ok a) => (db, Ok (reader (db_mem db) <$> a))
  | (db, Err e) => (db, Err e)
  end.

Definition db_lifecycle (db : AccountsDB) (pubkey : Pubkey)
    : AccountsDB * result AccountsDBError (option (AccountMode * Z)) :=
  match volatile_lifecycle (volatile db) pubkey with
  | Some l => (db, Ok (Some l))
  | None =>
      match store_load (persisted db) None pubkey with
      | (s, Ok b) =>
          let m := mm (storage s) in
          (with_persisted db s,
           Ok ((λ b, let c := core_of m (from_borrowed b) in (mode c, slot c)) <$> b))
      | (s, Err e) => (with_persisted db s, Err e)
      end
  end.

Definition db_contains (db : AccountsDB) (pubkey : Pubkey) : result AccountsDBError bool :=
  found ← store_contains (persisted db) None pubkey;
  if (found : bool) then Ok true else Ok (volatile_contains (volatile db) pubkey).

(** [program] with its iterator drained: persisted accounts, then the volatile ones in key
    order, a key without an account being skipped. *)
Definition db_program (db : AccountsDB) (ow : Pubkey)
    : AccountsDB * result AccountsDBError (list AccountEntry) :=
  match store_program (persisted db) ow with
  | (s, Err e) => (with_persisted db s, Err e)
  | (s, Ok l) =>
      let vs := omap (λ pk, (λ acc, (pk, from_owned acc)) <$> volatile_load (volatile db) pk)
                     (merge_sort lex_le (elements (volatile_program (volatile db) ow))) in
      (with_persisted db s, Ok (default [] l ++ vs))
  end.

Definition set_superblock (db : AccountsDB) (v : Z) : AccountsDB := put_meta db (PSuperblock v).

Definition advance_chain_slot (db : AccountsDB) (v : Z) : AccountsDB :=
  put_meta db (PChainSlot (Z.max (chain_slot (meta (storage (persisted db)))) v)).

Definition db_flush (db : AccountsDB) (force : bool) : AccountsDB * result AccountsDBError unit :=
  let '(s, r) := store_flush (persisted db) force in (with_persisted db s, map_err IndexError r).

Definition set_slot (db : AccountsDB) (v : Z) : AccountsDB * result AccountsDBError unit :=
  db_flush (put_meta db (PSlot v)) false.

Definition db_reset (db : AccountsDB) : AccountsDB :=
  {| persisted := persisted db; volatile := volatile_reset (volatile db) |}.

End accountsdb.

Arguments AccountsDB A P F : clear implicits.
