(* ===== verification/AccountsDbFacts.v ===== *)
(** * Facts about the accounts database

    The two backends together hold one account per key: storing a batch is a map update of
    that combined contents, and what is stored is what loads, lists and lifecycle reads
    return. *)

From stdpp Require Import base list gmap numbers option sets sorting.
From S2P Require Import Prelude AccountMode Memory Account AccountFacts Storage Index Store.
From S2P Require Import StoreFacts StoreBatch StoreProps Volatile AccountsDb.

Local Open Scope Z_scope.

(** ** Batches of map updates with distinct keys *)

Section updates.
Context {V W : Type}.

Definition updates (f : W → option V) (l : list (Pubkey * W)) (m : gmap Pubkey V)
    : gmap Pubkey V :=
  foldl (λ m en, partial_alter (λ _, f en.2) en.1 m) m l.

Lemma updates_out f l m k : k ∉ l.*1 → updates f l m !! k = m !! k.
Proof using Type.
  unfold updates. revert m. induction l as [|[k' w] l IH]; intros m Hk; simpl; [done|].
  apply not_elem_of_cons in Hk as [Hne Hk]. rewrite IH by done.
  by rewrite lookup_partial_alter_ne by (simpl in *; congruence).
Qed.

Lemma updates_in f l m k w :
  NoDup l.*1 → (k, w) ∈ l → updates f l m !! k = f w.
Proof using Type.
  unfold updates. revert m. induction l as [|[k' w'] l IH]; intros m Hnd Hin; [set_solver|].
  apply list.NoDup_cons in Hnd as [Hk Hnd]. apply elem_of_cons in Hin as [[= <- <-]|Hin]; simpl.
  - fold (updates f l). change (foldl _ ?x l) with (updates f l x).
    rewrite updates_out by done. apply lookup_partial_alter_eq.
  - by apply IH.
Qed.

End updates.

Lemma filter_keys_NoDup (f : AccountEntry → bool) (l : list AccountEntry) :
  NoDup l.*1 → NoDup (List.filter f l).*1.
Proof.
  induction l as [|[k a] l IH]; simpl; intros Hnd; [constructor|].
  apply list.NoDup_cons in Hnd as [Hk Hnd]. destruct (f (k, a)); [|by apply IH].
  simpl. apply list.NoDup_cons. split; [|by apply IH].
  intros Hin. apply Hk. apply list_elem_of_fmap in Hin as (en & -> & Hin).
  apply list_elem_of_fmap. exists en. split; [done|].
  apply list_elem_of_In, filter_In in Hin as [Hin _]. by apply list_elem_of_In.
Qed.

Lemma elem_of_List_filter {B} (f : B → bool) l x :
  x ∈ List.filter f l ↔ x ∈ l ∧ f x = true.
Proof. by rewrite !list_elem_of_In, filter_In. Qed.

Lemma elem_key {W} (l : list (Pubkey * W)) k a : (k, a) ∈ l → k ∈ l.*1.
Proof. intros H. apply list_elem_of_fmap. by exists (k, a). Qed.

Lemma entry_unique {W} (l : list (Pubkey * W)) k a a' :
  NoDup l.*1 → (k, a) ∈ l → (k, a') ∈ l → a' = a.
Proof.
  induction l as [|[k1 a1] l IH]; intros Hnd H1 H2; [set_solver|].
  apply list.NoDup_cons in Hnd as [Hk Hnd]. simpl in Hk.
  apply elem_of_cons in H1 as [[= <- <-]|H1]; apply elem_of_cons in H2 as [E|H2].
  - by injection E.
  - by apply elem_key in H2.
  - injection E as <- <-. by apply elem_key in H1.
  - by apply IH.
Qed.

(** A view reads the same account wherever its image bytes are the same. *)
Lemma view_bytes m m' b :
  wf_borrowed m b →
  (∀ x, b_core b ≤ x < b_core b + 8 * header_space m (b_header b) → m' x = m x) →
  b_owned m' b = b_owned m b.
Proof.
  intros Hw H. pose proof Hw as [Hsp Hsm _ _ Hd Hcap Hlen].
  rewrite image_size_eq in *. change STATIC_SIZE with 64 in *.
  assert (Hl : ∀ k a, b_core b ≤ a →
    a + Z.of_nat k ≤ b_core b + 8 * header_space m (b_header b) → load m' a k = load m a k)
    by (intros k a ? ?; apply load_ext; intros; apply H; lia).
  unfold b_owned. f_equal; [apply read_core_ext; intros; apply H; lia|].
  unfold ds_bytes, ds_len, ds_capacity. rewrite Hd. simpl. unfold CORE_SIZE.
  unfold load_le in *. rewrite !(Hl 4%nat) by lia.
  replace (b_core b + 56 + 4) with (b_core b + 60) by lia.
  apply Hl; [lia|]. rewrite Z2Nat.id by lia. lia.
Qed.

Section facts.
Context {A P F : Type}.
Context `{HA : !Database A Pubkey OwnerAndOffset, !MapDatabase A Pubkey OwnerAndOffset}.
Context `{HP : !Database P KeyTail Offset, !DupDatabase P KeyTail Offset}.
Context `{HF : !Database F Z Offset, !DupDatabase F Z Offset}.
Context `{HE : !HeedEnv A P F, IO_ : !FileIo}.

(** After a successful safe batch, every view handed in still reads what it read before:
    only the sequence word of its buffer may have changed. *)
Lemma upsert_views_intact s l s' k a :
  store_ok s → batch_ok s l → safe_batch (index s) (mm (storage s)) false l →
  store_upsert s l = (s', Ok tt) → entry_ok (storage s) (index s) (k, a) →
  owned (mm (storage s')) a = owned (mm (storage s)) a.
Proof using Type.
  intros Hs [Hnd Hok] Hsafe H Ha. unfold entry_ok in Ha. unfold owned.
  destruct (cow a) as [b|o]; [|done]. destruct Ha as ((e & He & Hb) & Hw & _ & _).
  unfold store_upsert in H. destruct (apply_all l 0 _) as [[st n] r] eqn:E.
  set (st0 := {| store_ := s; txn := None |}) in E.
  assert (HS : Saved (storage s) (index s) [] false st0) by (by split).
  assert (Hok' : Forall (λ en, entry_ok (bs st0) (cur st0) en ∧
    persists (mm (bs st0)) en.2 = persists (mm (storage s)) en.2) l)
    by (eapply Forall_impl; [exact Hok|]; by intros en Hen).
  destruct (apply_all_saved (storage s) (index s) Hs l [] false 0 st0 st n r HS Hs Hnd Hok' Hok
    Hsafe E) as (j & -> & _ & _ & _ & Hm). simpl in Hm.
  assert (Em : mm (storage s') = mm (bs st)).
  { unfold bs. destruct (txn st) as [t|], r as [[]|]; simpl in H; try destruct (env_commit t);
      simplify_eq/=; done. }
  rewrite Em. specialize (Hm k e He). apply view_bytes; [done|]. intros x Hx.
  pose proof (wf_space _ _ Hw) as Hsp. destruct (core_in_span _ _ Hw) as [C1 C2].
  rewrite <- Hm by (rewrite <- Hb; lia).
  unfold written. destruct (dirty_view (take j l) k) as [b'|] eqn:Ed; [|done].
  unfold dirty_view in Ed. destruct (list_find _ (take j l)) as [[i [k' a']]|] eqn:Ef; [|done].
  apply list_find_Some in Ef as (Hi & Ek & _). simpl in Ek, Ed. subst k'.
  assert (Hen : entry_ok (storage s) (index s) (k, a')).
  { eapply Forall_forall; [exact Hok|]. eapply list_elem_of_lookup_2.
    rewrite lookup_take_Some in Hi. apply Hi. }
  unfold dirty_borrowed in Ed. unfold entry_ok in Hen. destruct (cow a') as [b2|]; [|done].
  destruct (is_dirty a'); [|done]. injection Ed as ->.
  destruct Hen as ((e' & He' & Hb') & Hw' & Hc' & _). assert (e' = e) as -> by congruence.
  symmetry. apply (commit_frame _ _ Hw' Hc'). rewrite Hb', <- Hb. lia.
Qed.

(** ** The combined contents *)

Abbreviation AccountsDB := (AccountsDb.AccountsDB A P F).

Definition db_view (db : AccountsDB) : gmap Pubkey OwnedAccount :=
  v_accounts (volatile db) ∪ store_view (persisted db).

(** One backend per key, chosen by the mode. *)
Record db_ok (db : AccountsDB) : Prop := {
  ok_persisted : store_ok (persisted db);
  ok_volatile : volatile_ok (volatile db);
  ok_exclusive k : is_Some (store_view (persisted db) !! k) → v_accounts (volatile db) !! k = None;
  ok_modes k acc : store_view (persisted db) !! k = Some acc →
    requires_persistence (mode (o_core acc)) = true;
  ok_volatile_modes k acc : v_accounts (volatile db) !! k = Some acc →
    requires_persistence (mode (o_core acc)) = false ∧ mode (o_core acc) ≠ Closed;
}.

(** A batch for [store]: distinct keys, valid entries, no span taken after one was given
    back, and an account that leaves the persisted backend carries its mode marker. *)
Record db_batch_ok (db : AccountsDB) (l : list AccountEntry) : Prop := {
  b_keys : NoDup l.*1;
  b_entries : Forall (entry_ok (storage (persisted db)) (index (persisted db))) l;
  b_safe : safe_batch (index (persisted db)) (db_mem db) false
             (List.filter (persisted_entry (db_mem db)) l);
  b_marked k a : (k, a) ∈ l → persisted_entry (db_mem db) (k, a) = false →
    store_view (persisted db) !! k = None;
}.

Definition db_value (m : mem) (a : AccountSharedData) : option OwnedAccount :=
  if decide (mode (core_of m a) = Closed) then None else Some (owned m a).

Lemma persisted_batch db l :
  db_batch_ok db l →
  batch_ok (persisted db) (List.filter (persisted_entry (db_mem db)) l).
Proof using Type.
  intros [H1 H2 _ _]. split; [by apply filter_keys_NoDup|].
  apply Forall_forall. intros en [Hin _]%elem_of_List_filter. by eapply Forall_forall.
Qed.

Lemma filter_persisted_None m a k :
  persisted_entry m (k, a) = false → entry_value m a = None.
Proof using Type.
  unfold persisted_entry, entry_value, persists. simpl. intros H.
  apply orb_false_iff in H as [H _]. apply orb_false_iff in H as [H _].
  apply orb_false_iff in H as [_ ->]. done.
Qed.

Lemma filter_updates {V} (f : AccountSharedData → option V) (g : AccountEntry → bool) l m k a :
  NoDup l.*1 → (k, a) ∈ l → (g (k, a) = false → m !! k = f a) →
  updates f (List.filter g l) m !! k = f a.
Proof using Type.
  intros Hnd Hin Hg. destruct (g (k, a)) eqn:E.
  - apply updates_in; [by apply filter_keys_NoDup|]. by apply elem_of_List_filter.
  - rewrite updates_out; [by apply Hg|]. intros Hk.
    apply list_elem_of_fmap in Hk as ([k' a'] & Ek & [Hin' Hg']%elem_of_List_filter).
    simpl in Ek. subst k'. assert (a' = a) as ->; [|congruence].
    by eapply entry_unique.
Qed.

Lemma filter_updates_out {V} (f : AccountSharedData → option V) (g : AccountEntry → bool)
    (l : list AccountEntry) (m : gmap Pubkey V) k :
  k ∉ l.*1 → updates f (List.filter g l) m !! k = m !! k.
Proof using Type.
  intros Hk. apply updates_out. intros Hin. apply Hk.
  apply list_elem_of_fmap in Hin as (en & -> & [Hin _]%elem_of_List_filter).
  apply list_elem_of_fmap. by exists en.
Qed.

(** Both backends after a successful batch, key by key. *)
Lemma db_store_backends db l db' :
  db_ok db → db_batch_ok db l → db_store db l = (db', Ok tt) →
  store_ok (persisted db') ∧ volatile_ok (volatile db') ∧
  (∀ k a, (k, a) ∈ l → store_view (persisted db') !! k = entry_value (db_mem db) a ∧
                       v_accounts (volatile db') !! k = volatile_value (db_mem db) a) ∧
  (∀ k, k ∉ l.*1 → store_view (persisted db') !! k = store_view (persisted db) !! k ∧
                   v_accounts (volatile db') !! k = v_accounts (volatile db) !! k).
Proof using Type.
  intros Hdb Hb. pose proof (persisted_batch db l Hb) as Hpb. unfold db_store.
  destruct (store_upsert _ _) as [s [[]|e]] eqn:Eu; [|done]. intros [= <-].
  destruct (upsert_ok _ _ _ (ok_persisted _ Hdb) Hpb Eu) as [Hs Hv].
  set (m := db_mem db) in *. set (m' := mm (storage s)).
  assert (Hown : ∀ k a, (k, a) ∈ l → owned m' a = owned m a).
  { intros k a Hin. eapply (upsert_views_intact _ _ _ k a); eauto; [apply Hdb|apply Hb|].
    eapply (proj1 (Forall_forall _ _)), Hin. apply Hb. }
  destruct (volatile_upsert_ok m' (volatile db) (List.filter (volatile_entry m') l))
    as [Hvo Hva]; [apply Hdb|].
  simpl. split_and!; auto.
  - intros k a Hin. split.
    + rewrite Hv. apply (filter_updates (entry_value m)); [apply Hb|done|]. intros Hf.
      rewrite (b_marked _ _ Hb k a Hin Hf). symmetry. by eapply filter_persisted_None.
    + rewrite Hva. assert (E : volatile_value m' a = volatile_value m a).
      { unfold volatile_value. by rewrite !core_of_owned, (Hown k a Hin). }
      rewrite <- E. apply (filter_updates (volatile_value m')); [apply Hb|done|]. intros Hf.
      unfold volatile_entry in Hf. simpl in Hf. apply orb_false_iff in Hf as [Hf1 Hf2].
      apply negb_false_iff in Hf2. unfold volatile_value. rewrite Hf2. simpl.
      apply (ok_exclusive _ Hdb). unfold store_view, view. rewrite lookup_fmap.
      assert (Ha : entry_ok (storage (persisted db)) (index (persisted db)) (k, a))
        by (eapply (proj1 (Forall_forall _ _)), Hin; apply Hb).
      unfold entry_ok in Ha. destruct (cow a); [|done]. destruct Ha as ((e & -> & _) & _).
      simpl. by eexists.
  - intros k Hk. rewrite Hv, Hva. split; by apply filter_updates_out.
Qed.

Lemma db_store_contents db l db' :
  db_ok db → db_batch_ok db l → db_store db l = (db', Ok tt) →
  db_ok db' ∧ db_view db' = updates (db_value (db_mem db)) l (db_view db).
Proof using Type.
  intros Hdb Hb H. destruct (db_store_backends db l db' Hdb Hb H) as (H1 & H2 & H3 & H4).
  assert (Hcase : ∀ k, (∃ a, (k, a) ∈ l) ∨ k ∉ l.*1).
  { intros k. destruct (decide (k ∈ l.*1)) as [Hin|]; [left|by right].
    apply list_elem_of_fmap in Hin as ([k' a] & -> & Hin). by exists a. }
  assert (Hval : ∀ a, let m := db_mem db in
    volatile_value m a ∪ entry_value m a = db_value m a ∧
    (is_Some (entry_value m a) → volatile_value m a = None)).
  { intros a m. unfold volatile_value, entry_value, db_value, persists.
    destruct (mode (core_of m a)); simpl; split; try done; by intros []. }
  split; [split; auto|].
  - intros k. destruct (Hcase k) as [[a Hin]|Hout].
    + destruct (H3 k a Hin) as [-> ->]. apply Hval.
    + destruct (H4 k Hout) as [-> ->]. apply (ok_exclusive _ Hdb).
  - intros k acc. destruct (Hcase k) as [[a Hin]|Hout].
    + destruct (H3 k a Hin) as [-> _]. unfold entry_value, persists.
      destruct (requires_persistence _) eqn:E; [|done]. intros [= <-]. by rewrite <- core_of_owned.
    + destruct (H4 k Hout) as [-> _]. apply (ok_modes _ Hdb).
  - intros k acc. destruct (Hcase k) as [[a Hin]|Hout].
    + destruct (H3 k a Hin) as [_ ->]. unfold volatile_value.
      destruct (_ || _) eqn:E; [done|]. intros [= <-]. rewrite <- core_of_owned.
      apply orb_false_iff in E as [E1 E2]. by apply bool_decide_eq_false in E2.
    + destruct (H4 k Hout) as [_ ->]. apply (ok_volatile_modes _ Hdb).
  - apply map_eq. intros k. unfold db_view. rewrite lookup_union.
    destruct (Hcase k) as [[a Hin]|Hout].
    + destruct (H3 k a Hin) as [-> ->]. rewrite (updates_in _ _ _ _ a) by (done || apply Hb).
      apply (Hval a).
    + destruct (H4 k Hout) as [-> ->]. by rewrite updates_out, lookup_union.
Qed.

Lemma db_store_err db l db' e :
  db_ok db → db_batch_ok db l → db_store db l = (db', Err e) →
  db_ok db' ∧ db_view db' = db_view db.
Proof using Type.
  intros Hdb Hb. pose proof (persisted_batch db l Hb) as Hpb. unfold db_store.
  destruct (store_upsert _ _) as [s [[]|e']] eqn:Eu; [done|]. intros [= <- <-].
  destruct (upsert_err _ _ _ _ (ok_persisted _ Hdb) Hpb (b_safe _ _ Hb) Eu) as (_ & Hs & Hv).
  unfold db_view. simpl. rewrite Hv. split; [|done]. destruct Hdb. split; simpl; auto; by rewrite Hv.
Qed.

(** Storage changes that keep the account state. *)
Lemma db_same_state db s :
  same_state (persisted db) s → db_ok db →
  db_ok (with_persisted db s) ∧ db_view (with_persisted db s) = db_view db.
Proof using Type.
  intros Hst [H1 H2 H3 H4 H5]. destruct (same_state_view _ _ Hst H1) as [Hs Hv].
  unfold db_view. simpl. rewrite Hv. split; [|done]. split; simpl; auto; by rewrite Hv.
Qed.

Lemma put_meta_same (db : AccountsDB) f :
  (∀ v, f ≠ PCursor v) → same_state (persisted db) (persisted (put_meta db f)).
Proof using Type.
  intros Hf. unfold same_state. simpl. destruct (meta _); destruct f; try done. by destruct (Hf v).
Qed.

Lemma db_view_lookup (db : AccountsDB) k :
  db_view db !! k = match v_accounts (volatile db) !! k with
                    | Some acc => Some acc
                    | None => store_view (persisted db) !! k end.
Proof using Type.
  unfold db_view. rewrite lookup_union. by destruct (v_accounts _ !! k), (store_view _ !! k).
Qed.

(** ** Properties *)


(** The recovery counter counts commits: it advances by one exactly when the accounts of
    the transaction were stored, empty batches included, and a failed store leaves it. *)
Theorem commit_counts db l :
  db_ok db → db_batch_ok db l →
  let count := λ db : AccountsDB, transactions (meta (storage (persisted db))) in
  let '(db', r) := db_commit db l in
  let stored := db_store db l in
  db_ok db' ∧ r = stored.2 ∧ db_view db' = db_view stored.1 ∧
  count db' = if is_ok r then wrapping_add 64 (count stored.1) 1 else count stored.1.
Proof using Type.
  intros Hdb Hb cnt. unfold db_commit. destruct (db_store db l) as [db1 [[]|e]] eqn:E.
  - destruct (db_store_contents db l db1 Hdb Hb E) as [H1 H2].
    destruct (db_same_state db1 (persisted (put_meta db1
      (PTransactions (wrapping_add 64 (cnt db1) 1))))) as [H3 H4];
      [by apply put_meta_same|done|].
    split_and!; [exact H3|done|exact H4|]. unfold cnt. simpl.
    by destruct (meta (storage (persisted db1))).
  - destruct (db_store_err db l db1 e Hdb Hb E). by split_and!.
Qed.

(** Reads agree with the combined contents: a load returns a value that denotes the
    account of the key, or nothing when there is none; the lifecycle read returns the mode
    and slot of that same account; [contains] tells whether there is one; and none of the
    reads changes an account. *)
Theorem reads_agree db k :
  db_ok db →
  match db_load db k with
  | (db', Ok a) => (owned (db_mem db') <$> a) = db_view db !! k ∧
                   db_ok db' ∧ db_view db' = db_view db
  | (db', Err _) => db_ok db' ∧ db_view db' = db_view db
  end ∧
  match db_lifecycle db k with
  | (db', Ok l) => l = (λ acc, (mode (o_core acc), slot (o_core acc))) <$> db_view db !! k ∧
                   db_ok db' ∧ db_view db' = db_view db
  | (db', Err _) => db_ok db' ∧ db_view db' = db_view db
  end ∧
  match db_contains db k with
  | Ok found => found = true ↔ is_Some (db_view db !! k)
  | Err _ => True
  end.
Proof using Type.
  intros Hdb. pose proof (ok_persisted _ Hdb) as Hs. rewrite db_view_lookup. split_and!.
  - unfold db_load, volatile_load. destruct (v_accounts (volatile db) !! k) as [acc|]; [done|].
    destruct (store_load (persisted db) None k) as [s r] eqn:E.
    destruct (load_spec _ _ _ _ Hs E) as [Hst Hr].
    pose proof (db_same_state db s Hst Hdb) as Hd.
    destruct r as [[b|]|e]; [|split; [by rewrite Hr|done]|done].
    destruct Hr as (e & _ & _ & Hv). split; [|done]. rewrite Hv. simpl. f_equal.
    destruct Hst as (Em & _). unfold db_mem, owned. simpl. by rewrite Em.
  - unfold db_lifecycle, volatile_lifecycle.
    destruct (v_accounts (volatile db) !! k) as [acc|]; [done|]. simpl.
    destruct (store_load (persisted db) None k) as [s r] eqn:E.
    destruct (load_spec _ _ _ _ Hs E) as [Hst Hr].
    pose proof (db_same_state db s Hst Hdb) as Hd.
    destruct r as [[b|]|e]; [|split; [by rewrite Hr|done]|done].
    destruct Hr as (e & _ & _ & Hv). split; [|done]. rewrite Hv. simpl. f_equal.
    destruct Hst as (Em & _). unfold core_of. simpl. by rewrite Em.
  - unfold db_contains, store_contains, read_txn.
    destruct (env_read_txn (index (persisted db))); simpl; [|done].
    destruct (index_offset (index (persisted db)) k) as [o|] eqn:Eo; simpl; [|done].
    apply index_offset_spec in Eo. unfold volatile_contains.
    assert (Hv : is_Some (store_view (persisted db) !! k) ↔ is_Some o).
    { unfold store_view, view. rewrite lookup_fmap, Eo, !fmap_is_Some. done. }
    case_bool_decide as Ho; simpl; rewrite ?bool_decide_eq_true;
      destruct (v_accounts (volatile db) !! k); split; naive_solver.
Qed.

End facts.

(** ** Witnesses *)

#[local] Existing Instance good_io.
#[local] Instance good_env : HeedEnv AT PT FT := env_with (Ok tt).

Definition no_volatile : VolatileStore := {| v_accounts := ∅; v_programs := ∅ |}.
Definition fresh_db : AccountsDb.AccountsDB AT PT FT :=
  {| persisted := empty_store; volatile := no_volatile |}.

Lemma fresh_db_ok : db_ok fresh_db.
Proof.
  split; simpl.
  - apply empty_store_ok.
  - apply synced_empty.
  - done.
  - intros k acc. unfold store_view, view. rewrite lookup_fmap. by intros (e & He & _)%fmap_Some.
  - done.
Qed.

(** A delegated and a mirrored account in one batch. *)
Definition mirror_core : AccountCore := core_put ex_core (FMode Mirrored).
Definition mirror : OwnedAccount := {| o_core := mirror_core; o_data := [1; 2; 3; 4; 5] |}.
Definition mixed_batch : list AccountEntry :=
  [(key_a, from_owned ex_account); (key_b, from_owned mirror)].

Lemma mixed_batch_ok : db_batch_ok fresh_db mixed_batch.
Proof.
  assert (Hm : core_ok mirror_core) by (unfold core_ok, fits; simpl; split_and!; lia || done).
  split.
  - apply list.NoDup_cons. split; [|apply NoDup_singleton].
    rewrite list_elem_of_singleton. discriminate.
  - repeat apply Forall_cons_2; [apply owned_entry_ok; [apply ex_core_ok || done|done|done]..|done].
  - split; [discriminate|exact I].
  - intros k a _ _. unfold store_view, view. rewrite lookup_fmap. done.
Qed.


Lemma commit_counts_witness :
  let r := db_commit fresh_db mixed_batch in
  db_ok r.1 ∧ transactions (meta (storage (persisted r.1))) = 1.
Proof.
  intros r. pose proof (commit_counts fresh_db mixed_batch fresh_db_ok mixed_batch_ok) as H.
  assert (Hok : db_ok r.1) by (unfold r; destruct (db_commit fresh_db mixed_batch); apply H).
  split; [exact Hok|]. vm_compute. reflexivity.
Defined.

Lemma reads_agree_witness :
  match db_contains fresh_db key_a with
  | Ok found => found = true ↔ is_Some (db_view fresh_db !! key_a)
  | Err _ => True
  end.
Proof. apply (reads_agree fresh_db key_a fresh_db_ok). Defined.

(** *** A span given back and taken within one batch *)

Definition one_entry : OwnerAndOffset := {| tag := replicate 16 7; offset := 0 |}.
Definition undelegated : mem * AccountSharedData :=
  mutates (mm (storage one_store)) (from_borrowed (init (mm (storage one_store)) 4352))
    [MLifecycle Undelegating 3].
Definition undelegated_store : Store.PersistedStore AT PT FT :=
  (store_upsert {| storage := with_mem (storage one_store) undelegated.1; index := index one_store |}
     [(key_a, undelegated.2)]).1.
Definition mirrored : mem * AccountSharedData :=
  mutates (mm (storage undelegated_store))
    (from_borrowed (init (mm (storage undelegated_store)) 4352)) [MLifecycle Mirrored 4].
Definition mirrored_store : Store.PersistedStore AT PT FT :=
  {| storage := with_mem (storage undelegated_store) mirrored.1; index := index undelegated_store |}.
Definition handover : list AccountEntry :=
  [(key_a, mirrored.2); (key_b, from_owned other_account)].
Definition handover_db : AccountsDb.AccountsDB AT PT FT :=
  {| persisted := mirrored_store; volatile := no_volatile |}.

Lemma undelegated_store_ok : store_ok undelegated_store.
Proof.
  destruct (mutated_entry one_store key_a one_entry [MLifecycle Undelegating 3]
    undelegated.1 undelegated.2) as (H1 & _ & H3 & _).
  - apply one_store_ok.
  - vm_compute. reflexivity.
  - apply Forall_singleton. simpl. unfold fits. lia.
  - unfold undelegated. apply surjective_pairing.
  - intros o E. exfalso. revert E. vm_compute. discriminate.
  - eapply (upsert_ok _ _ _ H1 H3). apply by_result. vm_compute. reflexivity.
Qed.

Lemma mirrored_store_ok : store_ok mirrored_store ∧ batch_ok mirrored_store [(key_a, mirrored.2)].
Proof.
  destruct (mutated_entry undelegated_store key_a one_entry [MLifecycle Mirrored 4]
    mirrored.1 mirrored.2) as (H1 & _ & H3 & _).
  - apply undelegated_store_ok.
  - vm_compute. reflexivity.
  - apply Forall_singleton. simpl. unfold fits. lia.
  - unfold mirrored. apply surjective_pairing.
  - intros o E. exfalso. revert E. vm_compute. discriminate.  - split; [exact H1|exact H3].
Qed.

Definition undelegating_account : OwnedAccount :=
  foldl abstract_mutate ex_account [MLifecycle Undelegating 3].
Definition mirrored_account : OwnedAccount :=
  foldl abstract_mutate undelegating_account [MLifecycle Mirrored 4].

Lemma handover_view : store_view mirrored_store = {[ key_a := undelegating_account ]}.
Proof. vm_compute. reflexivity. Qed.

Lemma handover_db_ok : db_ok handover_db.
Proof.
  split.
  - exact (proj1 mirrored_store_ok).
  - exact synced_empty.
  - intros k _. exact (lookup_empty k).
  - intros k acc. change (persisted handover_db) with mirrored_store. rewrite handover_view. by intros [_ <-]%lookup_singleton_Some.
  - intros k acc H. by apply (lookup_empty_Some k acc) in H.
Qed.

Lemma handover_entries :
  Forall (entry_ok (storage mirrored_store) (index mirrored_store)) handover.
Proof.
  destruct mirrored_store_ok as [_ [_ H]]. unfold handover.
  apply (Forall_app_2 _ [_] [_] H), Forall_singleton, owned_entry_ok; [apply ex_core_ok|done|done].
Qed.

(** C38. Storing loses an account when a span moves within one batch. An account that leaves
    the persisted backend is deleted there first and copied to the volatile backend only
    after the whole persisted batch; if a later entry of the batch is an owned account of
    the same size, it is serialized over the image the copy is taken from. Here the batch is
    valid and the store reports success, but the mirrored account is in neither backend. *)
Theorem store_loses_account :
  ∃ (db : AccountsDb.AccountsDB AT PT FT) l db',
    db_ok db ∧ NoDup l.*1 ∧
    Forall (entry_ok (storage (persisted db)) (index (persisted db))) l ∧
    Forall (λ en, persisted_entry (db_mem db) en = true) l ∧
    db_store db l = (db', Ok tt) ∧
    updates (db_value (db_mem db)) l (db_view db) !! key_a = Some mirrored_account ∧
    db_view db' !! key_a = None.
Proof.
  exists handover_db, handover, (db_store handover_db handover).1.
  split; [apply handover_db_ok|]. split.
  { apply list.NoDup_cons. split; [|apply NoDup_singleton].
    rewrite list_elem_of_singleton. discriminate. }
  split; [exact handover_entries|].
  split; [repeat apply Forall_cons_2; [vm_compute; reflexivity..|done]|].
  split; [apply by_result; vm_compute; reflexivity|].
  split; vm_compute; reflexivity.
Qed.
