(* ===== verification/Defrag.v ===== *)
(** * Defragmentation of the mapped storage ([accountsdb/src/store/defrag.rs])

    One packing pass: the free spans at its start, grouped into runs of adjacent spans,
    receive accounts from the tail by best fit; then the plan is copied, the index and the
    freelist are rewritten in one transaction, and the free suffix of the file is cut off.
    [compact] of [lib.rs] repeats passes until one changes nothing. *)

From stdpp Require Import base list gmap numbers option sorting.
From S2P Require Import Prelude AccountMode Memory Account Storage Index Store Volatile AccountsDb.

Local Open Scope Z_scope.

Definition MIN_REMAINDER : Z := 43.

Record Defragged := { moved : Z; reclaimed : Z }.

Definition changed (d : Defragged) : bool := (0 <? moved d) || (0 <? reclaimed d).

(** ** Free spans, runs and moves *)

Record Span := { h_offset : Offset; h_units : Z }.

#[export] Instance Span_eq_dec : EqDecision Span.
Proof. solve_decision. Defined.

Definition hole_new (e : Z * Offset) : Span := {| h_offset := e.2; h_units := e.1 |}.
Definition hole_end (h : Span) : Offset := h_offset h + h_units h.

(** [derive(Ord)] on the field order. *)
Definition hole_le (a b : Span) : Prop :=
  h_offset a < h_offset b ∨ (h_offset a = h_offset b ∧ h_units a ≤ h_units b).
#[export] Instance hole_le_dec a b : Decision (hole_le a b).
Proof. unfold hole_le. apply _. Defined.

(** [parts] is the index range of the run's spans. *)
Record Run := { parts : nat * nat; r_offset : Offset; r_units : Z }.

Definition run_end (r : Run) : Offset := r_offset r + r_units r.

Definition take_units (r : Run) (u : Z) : Run * Offset :=
  ({| parts := parts r; r_offset := r_offset r + u; r_units := r_units r - u |}, r_offset r).

Record Move := { src : Offset; dst : Offset; m_units : Z }.

Definition source (mv : Move) : Span := {| h_offset := src mv; h_units := m_units mv |}.

(** The two nested loops of [runs]: [first] and [o] start the run in progress, [end_] is
    where it ends so far and [i] the index of the next span. *)
Fixpoint runs_from (first : nat) (o end_ : Offset) (i : nat) (holes : list Span) : list Run :=
  let run := {| parts := (first, i); r_offset := o; r_units := end_ - o |} in
  match holes with
  | [] => [run]
  | h :: rest =>
      if h_offset h =? end_ then runs_from first o (hole_end h) (S i) rest
      else run :: runs_from i (h_offset h) (hole_end h) (S i) rest
  end.

Definition runs (holes : list Span) : list Run :=
  match holes with
  | [] => []
  | h :: rest => runs_from 0 (h_offset h) (hole_end h) 1 rest
  end.

(** ** Best fit

    The [BTreeSet<(u64, Offset, usize)>] as its elements in ascending order. *)

Abbreviation Fit := (Z * Offset * nat)%type.

Definition fit_ltb (a b : Fit) : bool :=
  let '(u, o, i) := a in let '(u', o', i') := b in
  (u <? u') || ((u =? u') && ((o <? o') || ((o =? o') && (i <? i')%nat))).

Fixpoint fit_insert (x : Fit) (s : list Fit) : list Fit :=
  match s with
  | [] => [x]
  | y :: s' => if fit_ltb x y then x :: s
               else if bool_decide (x = y) then s else y :: fit_insert x s'
  end.

Definition fit_remove (x : Fit) (s : list Fit) : list Fit :=
  List.filter (λ y, negb (bool_decide (y = x))) s.

Definition fit (s : list Fit) (units : Z) : option Fit :=
  match last s with
  | None => None
  | Some (largest, _, _) =>
      if largest <? units then None
      else
        match List.find (λ x, units <=? x.1.1) s with
        | Some (u, o, i) =>
            if u =? units then Some (u, o, i)
            else
              match checked_add 64 units MIN_REMAINDER with
              | None => None
              | Some minimum =>
                  if largest <? minimum then None
                  else List.find (λ x, minimum <=? x.1.1) s
              end
        | None => None
        end
  end.

(** ** Planning *)

Record Plan := { p_runs : list Run; p_moves : list Move; p_fit : list Fit; eligible : nat }.

(** Runs that end past the source are no destinations for it, nor for later sources. *)
Fixpoint drop_ineligible (rs : list Run) (s : Offset) (eligible : nat) (f : list Fit)
    : nat * list Fit :=
  match eligible with
  | O => (O, f)
  | S i =>
      match rs !! i with
      | Some r => if s <? run_end r
                  then drop_ineligible rs s i (fit_remove (r_units r, r_offset r, i) f)
                  else (eligible, f)
      | None => (eligible, f)
      end
  end.

(** One iteration of the loop of [pack]; [None] is its [break]. *)
Definition pack_one (m : mem) (hd : Z) (p : Plan) (s : Offset) : option Plan :=
  let '(el, f) := drop_ineligible (p_runs p) s (eligible p) (p_fit p) in
  match f with
  | [] => None
  | _ =>
      let units := span m (hd + STORAGE_UNIT * s) in
      match fit f units with
      | None =>
          Some {| p_runs := p_runs p; p_moves := p_moves p; p_fit := f; eligible := el |}
      | Some (remaining, start, i) =>
          let f := fit_remove (remaining, start, i) f in
          match p_runs p !! i with
          | None => None
          | Some r =>
              let '(r, d) := take_units r units in
              let mv := {| src := s; dst := d; m_units := units |} in
              let f := if 0 <? r_units r then fit_insert (r_units r, r_offset r, i) f else f in
              Some {| p_runs := <[i := r]> (p_runs p); p_moves := p_moves p ++ [mv];
                      p_fit := f; eligible := el |}
          end
      end
  end.

Fixpoint pack (m : mem) (hd : Z) (p : Plan) (accounts : list Offset) : Plan :=
  match accounts with
  | [] => p
  | s :: rest =>
      match pack_one m hd p s with
      | None => p
      | Some p => pack m hd p rest
      end
  end.

Definition initial_plan (rs : list Run) : Plan :=
  {| p_runs := rs; p_moves := [];
     p_fit := foldr fit_insert [] (imap (λ i r, (r_units r, r_offset r, i)) rs);
     eligible := length rs |}.

(** ** The free suffix *)

(** The runs from the last one backwards, and the moves in order: each iteration takes the
    later of the two candidates and stops at the first one that does not end at the tail. *)
Fixpoint compacted_tail (fuel : nat) (rev_runs : list Run) (moves : list Move) (tail : Offset)
    : Offset :=
  match fuel with
  | O => tail
  | S fuel =>
      match rev_runs with
      | r :: rest =>
          if r_units r =? 0 then compacted_tail fuel rest moves tail
          else
            match moves with
            | mv :: moves' =>
                if src mv <=? r_offset r
                then if run_end r =? tail
                     then compacted_tail fuel rest moves (r_offset r) else tail
                else if hole_end (source mv) =? tail
                     then compacted_tail fuel rev_runs moves' (src mv) else tail
            | [] => if run_end r =? tail
                    then compacted_tail fuel rest [] (r_offset r) else tail
            end
      | [] =>
          match moves with
          | mv :: moves' => if hole_end (source mv) =? tail
                            then compacted_tail fuel [] moves' (src mv) else tail
          | [] => tail
          end
      end
  end.

Section defrag.
Context {A P F : Type}.
Context `{HA : !Database A Pubkey OwnerAndOffset, HP : !Database P KeyTail Offset}.
Context `{HF : !Database F Z Offset, HE : !HeedEnv A P F, IO_ : !FileIo, HH : !Hasher}.

Abbreviation Idx := (Index A P F).

(** What a pass works from. *)
Record Defrag := { d_holes : list Span; d_plan : Plan; d_tail : Offset }.

Definition desc_le (a b : Offset) : Prop := b ≤ a.
#[global] Instance desc_le_dec a b : Decision (desc_le a b).
Proof using Type. unfold desc_le. apply _. Defined.

(** The offsets of the indexed accounts, not read when nothing is free. *)
Definition account_offsets (i : Idx) (free : list Span) : result ErrorCode (list Offset) :=
  match free with
  | [] => Ok []
  | _ => (λ accs : list (Pubkey * OwnerAndOffset), (λ e, offset e.2) <$> accs) <$>
         db_iter (accounts i)
  end.

Definition defrag_new (s : PersistedStore A P F) : result ErrorCode Defrag :=
  let i : Idx := index s in
  _ ← env_read_txn i;
  free ← (db_iter (freelist i) : result ErrorCode (list (Z * Offset)));
  offsets ← account_offsets i (hole_new <$> free);
  let holes := merge_sort hole_le (hole_new <$> free) in
  let sorted := merge_sort desc_le offsets in
  Ok {| d_holes := holes;
        d_plan := pack (mm (storage s)) (head (storage s)) (initial_plan (runs holes)) sorted;
        d_tail := cursor (meta (storage s)) |}.

Definition plan_tail (d : Defrag) : Offset :=
  let rs := p_runs (d_plan d) in let mvs := p_moves (d_plan d) in
  compacted_tail (S (length rs + length mvs)) (rev rs) mvs (d_tail d).

(** [copy_to_nonoverlapping] of every move. *)
Definition copy_moves (s : MappedStorage) (mvs : list Move) : mem :=
  foldl (λ m mv, copy m (at_ s (src mv)) (at_ s (dst mv))
                   (Z.to_nat (STORAGE_UNIT * m_units mv))) (mm s) mvs.

Fixpoint relocate_moves (s : MappedStorage) (t : Idx) (mvs : list Move) : result ErrorCode Idx :=
  match mvs with
  | [] => Ok t
  | mv :: mvs =>
      let ptr := at_ s (src mv) in
      let pubkey := buffer_pubkey (mm s) ptr in
      let ow := key_tail (owner (read_core (mm s) (b_core (init (mm s) ptr)))) in
      t ← relocate t pubkey (src mv) {| tag := ow; offset := dst mv |};
      relocate_moves s t mvs
  end.

Definition publish_hole (tail : Offset) (r : Run) (t : Idx) (h : Span) : result ErrorCode Idx :=
  let o := Z.max (h_offset h) (r_offset r) in
  let end_ := Z.min (hole_end h) tail in
  if (o =? h_offset h) && (end_ =? hole_end h) then Ok t
  else
    f ← db_delete_one_duplicate (freelist t) (h_units h) (h_offset h);
    let t := with_freelist t f in
    if o <? end_ then f ← db_put (freelist t) (end_ - o) o; Ok (with_freelist t f) else Ok t.

Definition publish_source (tail : Offset) (t : Idx) (mv : Move) : result ErrorCode Idx :=
  if src mv <? tail then
    let end_ := Z.min (hole_end (source mv)) tail in
    f ← db_put (freelist t) (end_ - src mv) (src mv); Ok (with_freelist t f)
  else Ok t.

Fixpoint fold_result {B} (f : Idx → B → result ErrorCode Idx) (t : Idx) (l : list B)
    : result ErrorCode Idx :=
  match l with
  | [] => Ok t
  | x :: l => t ← f t x; fold_result f t l
  end.

Definition run_holes (holes : list Span) (r : Run) : list Span :=
  take (snd (parts r) - fst (parts r)) (drop (fst (parts r)) holes).

Definition publish (d : Defrag) (tail : Offset) (t : Idx) : result ErrorCode Idx :=
  t ← fold_result (λ t r, fold_result (publish_hole tail r) t (run_holes (d_holes d) r))
                  t (p_runs (d_plan d));
  fold_result (publish_source tail) t (p_moves (d_plan d)).

Definition execute (s : PersistedStore A P F) (d : Defrag)
    : PersistedStore A P F * result ErrorCode Defragged :=
  let tail := plan_tail d in
  let mvs := p_moves (d_plan d) in
  let outcome := {| moved := zlen mvs; reclaimed := d_tail d - tail |} in
  if negb (changed outcome) then (s, Ok outcome)
  else
    let m := with_mem (storage s) (copy_moves (storage s) mvs) in
    let s := {| storage := m; index := index s |} in
    match _ ← env_write_txn (index s);
          t ← relocate_moves m (index s) mvs;
          t ← publish d tail t;
          _ ← env_commit t;
          Ok t with
    | Err e => (s, Err e)
    | Ok t =>
        let m := count m (SCompact (moved outcome)) in
        if 0 <? reclaimed outcome then
          match shrink m tail with
          | (m, Ok _) => ({| storage := m; index := t |}, Ok outcome)
          | (m, Err e) => ({| storage := m; index := t |}, Err e)
          end
        else ({| storage := m; index := t |}, Ok outcome)
    end.

Definition defragment (s : PersistedStore A P F) : PersistedStore A P F * result ErrorCode Defragged :=
  match defrag_new s with
  | Err e => (s, Err e)
  | Ok d => execute s d
  end.

(** ** Compaction

    The loop of [compact], which ends at the first pass that changes nothing or fails;
    [None] when [fuel] passes were not enough. *)
Fixpoint compact_passes (fuel : nat) (s : PersistedStore A P F) (reclaimed_ : Z) (changed_ : bool)
    : option (PersistedStore A P F * result ErrorCode (Z * bool)) :=
  match fuel with
  | O => None
  | S fuel =>
      match defragment s with
      | (s, Err e) => Some (s, Err e)
      | (s, Ok pass) =>
          let reclaimed_ := reclaimed_ + reclaimed pass in
          let changed_ := changed_ || changed pass in
          if negb (changed pass) then Some (s, Ok (reclaimed_, changed_))
          else compact_passes fuel s reclaimed_ changed_
      end
  end.

Definition compact (fuel : nat) (db : AccountsDB A P F)
    : option (AccountsDB A P F * result AccountsDBError Z) :=
  match compact_passes fuel (persisted db) 0 false with
  | None => None
  | Some (s, Err e) => Some (with_persisted db s, Err (IndexError e))
  | Some (s, Ok (n, changed_)) =>
      let db := with_persisted db s in
      if changed_ then
        match db_flush db true with
        | (db, Err e) => Some (db, Err e)
        | (db, Ok _) => Some (db, Ok n)
        end
      else Some (db, Ok n)
  end.

End defrag.

Arguments Defrag : clear implicits.
