(* ===== verification/DefragFacts.v ===== *)
(** * Facts about defragmentation

    A pass moves images without changing what the store holds: the plan's destinations are
    disjoint parts of spans that were free at its start, the copied images open to the same
    accounts, the rewritten tables describe the new layout, and the suffix that is cut off
    holds nothing. Every pass that changes something decreases a measure, so compaction
    ends. *)

From stdpp Require Import base list gmap numbers option sets sorting.
From S2P Require Import Prelude AccountMode Memory Account AccountFacts Storage Index Store.
From S2P Require Import StoreFacts StoreBatch StoreProps Defrag.

Local Open Scope Z_scope.

(** ** Moving a buffer *)

Definition shift (d : Z) (m : mem) : mem := λ x, m (x + d).

Section shift.
Context (d : Z) (m : mem).

Lemma load_shift a n : load (shift d m) a n = load m (a + d) n.
Proof using Type.
  unfold load, shift. apply list_fmap_ext. intros i x _. f_equal. lia.
Qed.

Lemma load_le_shift k a : load_le k (shift d m) a = load_le k m (a + d).
Proof using Type. unfold load_le. by rewrite load_shift. Qed.

Lemma header_shift h :
  header_space (shift d m) h = header_space m (h + d) ∧ sequence (shift d m) h = sequence m (h + d).
Proof using Type.
  unfold header_space, sequence. rewrite !load_le_shift. split; f_equal; lia.
Qed.

Lemma image_addr_shift h v act :
  image_addr (shift d m) h v act = image_addr m (h + d) v act - d.
Proof using Type.
  rewrite !image_addr_eq. destruct (header_shift h) as [-> _]. lia.
Qed.

Lemma read_core_shift a : read_core (shift d m) a = read_core m (a + d).
Proof using Type.
  unfold read_core, mode_at. rewrite !load_le_shift, !load_shift. unfold shift.
  assert (E : ∀ x, a + x + d = a + d + x) by lia. by rewrite !E.
Qed.

Lemma buffer_shift h :
  valid_buffer (shift d m) h →
  valid_buffer m (h + d) ∧ open_account m (h + d) = open_account (shift d m) h ∧
  span m (h + d) = span (shift d m) h ∧
  buffer_pubkey m (h + d) = buffer_pubkey (shift d m) h.
Proof using Type.
  intros Hv. destruct (header_shift h) as [Es Eq].
  set (a := image_addr m (h + d) (sequence m (h + d)) true).
  assert (Ea : image_addr (shift d m) h (sequence (shift d m) h) true = a - d)
    by (by rewrite Eq, image_addr_shift).
  pose proof Hv as [H1 H2 _ _ _ H6 H7]. simpl in *. rewrite image_size_eq in *. simpl in *.
  rewrite Ea, Es, ?load_le_shift in *.
  replace (a - d + 60 + d) with (a + 60) in * by lia.
  replace (a - d + 56 + d) with (a + 56) in * by lia.
  assert (Hv' : valid_buffer m (h + d)).
  { split; simpl; rewrite ?image_size_eq; auto. by exists true. }
  split_and!; auto.
  - unfold open_account, b_owned. rewrite !ds_bytes_wf by done. simpl. rewrite Ea.
    rewrite read_core_shift, load_le_shift, load_shift. fold a.
    replace (a - d + d) with a by lia. replace (a - d + 56 + d) with (a + 56) by lia.
    by replace (a - d + 64 + d) with (a + 64) by lia.
  - unfold span. by rewrite Es.
  - unfold buffer_pubkey. rewrite load_shift. f_equal. lia.
Qed.

End shift.

(** An image copied byte by byte opens to the same account. *)
Lemma buffer_moved m m' h h' :
  valid_buffer m h →
  (∀ x, 0 ≤ x < 8 * span m h → m' (h' + x) = m (h + x)) →
  valid_buffer m' h' ∧ open_account m' h' = open_account m h ∧
  span m' h' = span m h ∧ buffer_pubkey m' h' = buffer_pubkey m h.
Proof.
  intros Hv Hm. destruct (span_eq m h Hv) as [Es Hs].
  assert (Hsame : same_buffer m (shift (h' - h) m') h (header_space m h)).
  { intros x Hx. unfold shift. replace (x + (h' - h)) with (h' + (x - h)) by lia.
    rewrite Hm by lia. f_equal. lia. }
  destruct (local_buffer _ _ _ Hv Hsame) as (L1 & L2 & L3 & L4 & _).
  destruct (buffer_shift _ _ _ L1) as (S1 & S2 & S3 & S4).
  replace (h + (h' - h)) with h' in * by lia. split_and!; [done|congruence..].
Qed.

(** ** Runs *)

Definition inside (p o u : Z) : Prop := o ≤ p < o + u.

(** Spans that follow each other without a gap, from [o] to [e]. *)
Fixpoint chain (l : list Span) (o e : Z) : Prop :=
  match l with
  | [] => o = e
  | h :: l => h_offset h = o ∧ chain l (hole_end h) e
  end.

(** Nonempty spans in ascending order, the first one at or after [e]. *)
Fixpoint ascending (e : Z) (l : list Span) : Prop :=
  match l with
  | [] => True
  | h :: l => e ≤ h_offset h ∧ 0 < h_units h ∧ ascending (hole_end h) l
  end.

Definition precedes (a b : Run) : Prop := run_end a ≤ r_offset b.

Lemma chain_app l h o e : chain l o e → h_offset h = e → chain (l ++ [h]) o (hole_end h).
Proof.
  revert o. induction l as [|x l IH]; intros o; simpl; [intros -> ->; done|].
  intros [-> H] E. split; [done|]. by apply IH.
Qed.

Lemma chain_cover l o e p :
  chain l o e → Forall (λ h, 0 < h_units h) l → o ≤ p < e →
  ∃ h, h ∈ l ∧ inside p (h_offset h) (h_units h).
Proof.
  revert o. induction l as [|h l IH]; intros o Hc Hp Hin; simpl in *; [lia|].
  destruct Hc as [<- Hc]. apply Forall_cons in Hp as [Hh Hp]. unfold hole_end in *.
  destruct (decide (p < h_offset h + h_units h)).
  - exists h. split; [left|unfold inside; lia].
  - destruct (IH _ Hc Hp) as (x & Hx & ?); [lia|]. exists x. by split; [right|].
Qed.

Lemma chain_bounds l o e h :
  chain l o e → Forall (λ h, 0 < h_units h) l → h ∈ l → o ≤ h_offset h ∧ hole_end h ≤ e.
Proof.
  revert o. induction l as [|x l IH]; intros o Hc Hp Hin; [set_solver|].
  destruct Hc as [<- Hc]. apply Forall_cons in Hp as [Hx Hp].
  assert (Hle : hole_end x ≤ e).
  { clear IH Hin. revert x Hx Hc. induction l as [|y l IH]; intros x Hx Hc; simpl in Hc; [lia|].
    destruct Hc as [E Hc]. apply Forall_cons in Hp as [Hy Hp].
    specialize (IH Hp y Hy Hc). unfold hole_end in *. lia. }
  apply elem_of_cons in Hin as [->|Hin]; [lia|].
  destruct (IH _ Hc Hp Hin). unfold hole_end in *. lia.
Qed.

Record runs_ok (holes : list Span) (rs : list Run) : Prop := {
  ro_chain : Forall (λ r, chain (run_holes holes r) (r_offset r) (run_end r)) rs;
  ro_concat : concat (run_holes holes <$> rs) = holes;
  ro_sorted : StronglySorted precedes rs;
  ro_positive : Forall (λ r, 0 < r_units r) rs;
}.

Lemma chain_run all first i o e :
  chain (take (i - first) (drop first all)) o e →
  let r := {| parts := (first, i); r_offset := o; r_units := e - o |} in
  chain (run_holes all r) (r_offset r) (run_end r).
Proof.
  intros H. unfold run_holes, run_end. simpl. by replace (o + (e - o)) with e by lia.
Qed.

Lemma runs_from_ok all first o e i hs :
  chain (take (i - first) (drop first all)) o e → drop i all = hs → (first < i)%nat →
  (i ≤ length all)%nat → o < e → ascending e hs →
  let rs := runs_from first o e i hs in
  Forall (λ r, chain (run_holes all r) (r_offset r) (run_end r)) rs ∧
  concat (run_holes all <$> rs) = drop first all ∧
  StronglySorted precedes rs ∧ Forall (λ r, 0 < r_units r ∧ o ≤ r_offset r) rs.
Proof.
  revert first o e i. induction hs as [|h hs IH]; intros first o e i Hc Hd Hfi Hi Hoe Ha rs.
  - unfold rs. simpl. split_and!.
    + apply Forall_singleton. by apply chain_run.
    + rewrite app_nil_r. unfold run_holes. simpl. apply take_ge. rewrite length_drop.
      apply (f_equal length) in Hd. rewrite length_drop in Hd. simpl in Hd. lia.
    + repeat constructor.
    + apply Forall_singleton. simpl. lia.
  - destruct Ha as (He & Hu & Ha). unfold rs. simpl.
    assert (Hlen : (S i ≤ length all)%nat).
    { apply (f_equal length) in Hd. rewrite length_drop in Hd. simpl in Hd. lia. }
    assert (Hdi : drop (S i) all = hs) by (by rewrite <- Nat.add_1_r, <- drop_drop, Hd).
    assert (Htake : take (S i - first) (drop first all) = take (i - first) (drop first all) ++ [h]).
    { replace (S i - first)%nat with (S (i - first)) by lia. apply take_S_r.
      rewrite lookup_drop. replace (first + (i - first))%nat with (i + 0)%nat by lia.
      by rewrite <- lookup_drop, Hd. }
    destruct (Z.eqb_spec (h_offset h) e) as [Ee|Ene].
    + destruct (IH first o (hole_end h) (S i)) as (I1 & I2 & I3 & I4); auto; try lia.
      * rewrite Htake. by apply chain_app with e.
      * unfold hole_end. lia.
    + destruct (IH i (h_offset h) (hole_end h) (S i)) as (I1 & I2 & I3 & I4); auto; try lia.
      * replace (S i - i)%nat with 1%nat by lia. rewrite Hd. done.
      * unfold hole_end. lia.
      * split_and!.
        -- apply Forall_cons_2; [by apply chain_run|done].
        -- rewrite fmap_cons, List.concat_cons, I2. unfold run_holes. simpl. rewrite <- (take_drop (i - first) (drop first all)) at 2.
           rewrite drop_drop. by replace (first + (i - first))%nat with i by lia.
        -- constructor; [done|]. eapply Forall_impl; [exact I4|]. intros r [_ Hr].
           unfold precedes, run_end. simpl. lia.
        -- apply Forall_cons_2; [simpl; lia|]. eapply Forall_impl; [exact I4|]. simpl. lia.
Qed.

Lemma runs_spec e holes : ascending e holes → runs_ok holes (runs holes).
Proof.
  destruct holes as [|h hs]; simpl.
  - intros _. split; try constructor.
  - intros (_ & Hu & Ha).
    destruct (runs_from_ok (h :: hs) 0 (h_offset h) (hole_end h) 1 hs) as (I1 & I2 & I3 & I4);
      auto; try lia; try (unfold hole_end; lia).
    { done. }
    { simpl. lia. }
    split; auto. eapply Forall_impl; [exact I4|]. by intros r [? _].
Qed.

(** ** The plan *)

(** The set of remaining spaces. *)
Lemma fit_insert_elem x y f : y ∈ fit_insert x f ↔ y = x ∨ y ∈ f.
Proof.
  induction f as [|z f IH]; simpl; [set_solver|].
  destruct (fit_ltb x z); [set_solver|]. case_bool_decide; set_solver.
Qed.

Lemma fit_remove_elem x y f : y ∈ fit_remove x f ↔ y ≠ x ∧ y ∈ f.
Proof.
  unfold fit_remove. rewrite !list_elem_of_In, filter_In, negb_true_iff, bool_decide_eq_false.
  tauto.
Qed.

Lemma fit_spec f u x : fit f u = Some x → x ∈ f ∧ u ≤ x.1.1.
Proof.
  assert (Hfind : ∀ n y, List.find (λ x : Fit, n <=? x.1.1) f = Some y → y ∈ f ∧ n ≤ y.1.1).
  { intros n y [H1 H2]%find_some. rewrite list_elem_of_In. by split; [|apply Z.leb_le]. }
  unfold fit. destruct (last f) as [[[largest ?] ?]|]; [|done]. destruct (_ <? _); [done|].
  destruct (List.find _ f) as [[[u' o'] i']|] eqn:Ef; [|done].
  destruct (u' =? u); [intros [= <-]; by apply Hfind|].
  destruct (checked_add _ _ _) as [mi|] eqn:Ec; [|done].
  destruct (_ <? _); [done|]. intros [H1 H2]%Hfind. split; [done|].
  apply checked_add_Some in Ec as [-> _]. unfold MIN_REMAINDER in *. lia.
Qed.

Lemma drop_ineligible_spec rs s el f el' f' :
  drop_ineligible rs s el f = (el', f') →
  (∀ u o i, (u, o, i) ∈ f →
    (i < el)%nat ∧ ∃ r, rs !! i = Some r ∧ r_units r = u ∧ r_offset r = o) →
  (∀ x, x ∈ f' → x ∈ f) ∧ (∀ u o i, (u, o, i) ∈ f' → (i < el')%nat) ∧
  (∀ i r, el' = S i → rs !! i = Some r → run_end r ≤ s).
Proof.
  revert f. induction el as [|i IH]; intros f; simpl.
  - intros [= <- <-] Hf. split_and!; auto; [|done]. intros u o i Hi. by apply Hf in Hi as [? _].
  - destruct (rs !! i) as [r|] eqn:Hr.
    + destruct (Z.ltb_spec s (run_end r)) as [Hlt|Hge].
      * intros E Hf. apply IH in E as (E1 & E2 & E3).
        -- split_and!; auto. intros x Hx%E1. by apply fit_remove_elem in Hx as [_ Hx].
        -- intros u o j [Hne Hj]%fit_remove_elem. destruct (Hf _ _ _ Hj) as (Hlt' & r' & Hr' & ? & ?).
           split; [|by exists r']. assert (j ≠ i); [|lia]. intros ->. by simplify_eq.
      * intros [= <- <-] Hf. split_and!; auto; [intros u o j Hj; by apply Hf in Hj as [? _]|].
        intros j r' [= <-] Hr'. by simplify_eq.
    + intros [= <- <-] Hf. split_and!; auto; [intros u o j Hj; by apply Hf in Hj as [? _]|].
      intros j r' [= <-] Hr'. by simplify_eq.
Qed.

Section plan.
Context (m : mem) (hd : Z) (holes : list Span) (srcs : list Offset).

Let rs0 := runs holes.
Let spn (o : Offset) := span m (hd + STORAGE_UNIT * o).

Hypothesis Hruns : runs_ok holes rs0.
Hypothesis Hspans : ∀ o, o ∈ srcs → 0 < spn o.

(** A run shrinks from its start: its end and its spans stay. *)
Definition shrunk (r0 r : Run) : Prop :=
  parts r = parts r0 ∧ run_end r = run_end r0 ∧ r_offset r0 ≤ r_offset r ∧ 0 ≤ r_units r.

(** A destination lies in the part of a run that the run has given away. *)
Definition placed (rs : list Run) (mv : Move) : Prop :=
  ∃ i r0 r, rs0 !! i = Some r0 ∧ rs !! i = Some r ∧
    r_offset r0 ≤ dst mv ∧ dst mv + m_units mv ≤ r_offset r.

Definition move_ok (mv : Move) : Prop :=
  src mv ∈ srcs ∧ m_units mv = spn (src mv) ∧ dst mv + m_units mv ≤ src mv.

Definition dst_apart (a b : Move) : Prop := apart (dst a) (m_units a) (dst b) (m_units b).

Record plan_ok (p : Plan) : Prop := {
  po_runs : Forall2 shrunk rs0 (p_runs p);
  po_fit u o i : (u, o, i) ∈ p_fit p →
    (i < eligible p)%nat ∧ ∃ r, p_runs p !! i = Some r ∧ r_units r = u ∧ r_offset r = o;
  po_moves : Forall (λ mv, move_ok mv ∧ placed (p_runs p) mv) (p_moves p);
  po_apart : StronglySorted dst_apart (p_moves p);
}.

Lemma initial_plan_ok : plan_ok (initial_plan rs0).
Proof using Hruns.
  split; simpl.
  - apply Forall_Forall2_diag. eapply Forall_impl; [apply (ro_positive _ _ Hruns)|].
    intros r Hr. unfold shrunk. split_and!; auto; simpl in *; lia.
  - intros u o i Hin.
    assert (Hx : (u, o, i) ∈ imap (λ i r, (r_units r, r_offset r, i)) rs0).
    { revert Hin. generalize (imap (λ i r, (r_units r, r_offset r, i)) rs0).
      induction l; simpl; [done|]. rewrite fit_insert_elem, elem_of_cons. tauto. }
    apply elem_of_lookup_imap in Hx as (j & r & [= -> -> ->] & Hr).
    split; [by apply lookup_lt_Some in Hr|]. by exists r.
  - constructor.
  - constructor.
Qed.

Lemma shrunk_lookup rs i r :
  Forall2 shrunk rs0 rs → rs !! i = Some r → ∃ r0, rs0 !! i = Some r0 ∧ shrunk r0 r.
Proof using Type. intros H Hr. by apply (Forall2_lookup_r _ _ _ _ _ H Hr). Qed.

Lemma sorted_lookup i j a b :
  (i < j)%nat → rs0 !! i = Some a → rs0 !! j = Some b → run_end a ≤ r_offset b.
Proof using Hruns.
  intros Hij Ha Hb. pose proof (ro_sorted _ _ Hruns) as Hs.
  rewrite <- (take_drop (S i) rs0) in Hs.
  apply (StronglySorted_app_1_elem_of precedes _ _ _ _ Hs).
  - apply list_elem_of_lookup. exists i. rewrite lookup_take_lt by lia. done.
  - apply list_elem_of_lookup. exists (j - S i)%nat. rewrite lookup_drop, <- Hb. f_equal. lia.
Qed.

(** The runs that are still eligible end at or before the source. *)
Lemma eligible_end rs s el i r :
  Forall2 shrunk rs0 rs → (∀ i r, el = S i → rs !! i = Some r → run_end r ≤ s) →
  (i < el)%nat → (el ≤ length rs)%nat → rs !! i = Some r → run_end r ≤ s.
Proof using Hruns.
  intros Hsh Hel Hi Hlen Hr. destruct (decide (el = S i)) as [E|Hne]; [by eapply Hel|].
  destruct (lookup_lt_is_Some_2 rs (el - 1)) as [rl Hrl]; [lia|].
  specialize (Hel (el - 1)%nat rl ltac:(lia) Hrl).
  destruct (shrunk_lookup _ _ _ Hsh Hr) as (r0 & Hr0 & _ & -> & _).
  destruct (shrunk_lookup _ _ _ Hsh Hrl) as (rl0 & Hrl0 & _ & Ee & _).
  pose proof (sorted_lookup i (el - 1) r0 rl0 ltac:(lia) Hr0 Hrl0).
  pose proof (ro_positive _ _ Hruns) as Hp. rewrite Forall_lookup in Hp.
  pose proof (Hp _ _ Hrl0) as Hp'. simpl in Hp'. unfold run_end in *. lia.
Qed.

Lemma placed_step rs i r r' mv :
  rs !! i = Some r → r_offset r ≤ r_offset r' → placed rs mv → placed (<[i:=r']> rs) mv.
Proof using Type.
  intros Hr Hle (j & r0 & rj & H0 & Hj & H1 & H2).
  destruct (decide (i = j)) as [<-|Hne].
  - simplify_eq. exists i, r0, r'. rewrite list_lookup_insert_eq; [|by eapply lookup_lt_Some].
    split_and!; auto. lia.
  - exists j, r0, rj. by rewrite list_lookup_insert_ne.
Qed.

(** The start of a run is past every destination placed in it so far. *)
Lemma placed_apart rs i r u mv :
  Forall2 shrunk rs0 rs → rs !! i = Some r → placed rs mv → u ≤ r_units r →
  apart (dst mv) (m_units mv) (r_offset r) u.
Proof using Hruns.
  intros Hsh Hr (j & r0 & rj & H0 & Hj & H1 & H2) Hu. unfold apart.
  destruct (shrunk_lookup _ _ _ Hsh Hr) as (ri0 & Hi0 & _ & Ei & ? & ?).
  destruct (shrunk_lookup _ _ _ Hsh Hj) as (rj0 & Hj0 & _ & Ej & ? & ?). simplify_eq.
  unfold run_end in *. destruct (lt_eq_lt_dec i j) as [[Hlt|<-]|Hlt].
  - pose proof (sorted_lookup i j _ _ Hlt Hi0 H0). unfold run_end in *. lia.
  - simplify_eq. lia.
  - pose proof (sorted_lookup j i _ _ Hlt H0 Hi0). unfold run_end in *. lia.
Qed.

Lemma pack_one_ok p s p' :
  plan_ok p → s ∈ srcs → (eligible p ≤ length (p_runs p))%nat → pack_one m hd p s = Some p' →
  plan_ok p' ∧ (eligible p' ≤ length (p_runs p'))%nat ∧
  (p_moves p' = p_moves p ∨ ∃ mv, p_moves p' = p_moves p ++ [mv] ∧ src mv = s).
Proof using All.
  intros [P1 P2 P3 P4] Hs Hel. unfold pack_one.
  destruct (drop_ineligible _ _ _ _) as [el f] eqn:Ed.
  assert (Hle : (el ≤ eligible p)%nat).
  { clear -Ed. revert Ed. generalize (p_fit p). induction (eligible p) as [|n IH]; simpl.
    - by intros ? [= <- _].
    - intros f0. repeat case_match; intros E; [apply IH in E; lia|by simplify_eq..]. }
  apply drop_ineligible_spec in Ed as (D1 & D2 & D3); [|done].
  assert (Hfit : ∀ u o i, (u, o, i) ∈ f →
    (i < el)%nat ∧ ∃ r, p_runs p !! i = Some r ∧ r_units r = u ∧ r_offset r = o).
  { intros u o i Hi. split; [by eapply D2|]. by apply D1, P2 in Hi as [_ ?]. }
  destruct f as [|f0 f']; [done|]. set (f := f0 :: f') in *. fold (spn s).
  destruct (fit f (spn s)) as [[[u o] i]|] eqn:Ef.
  - apply fit_spec in Ef as [Hin Hu]. simpl in Hu.
    destruct (Hfit _ _ _ Hin) as (Hi & r & Hr & <- & <-). rewrite Hr. simpl.
    intros [= <-]. simpl. rewrite length_insert. split_and!; [|lia|by right; eexists].
    pose proof (Hspans s Hs) as Hpos.
    destruct (shrunk_lookup _ _ _ P1 Hr) as (r0 & Hr0 & Hsh).
    assert (Hend : run_end r ≤ s) by (eapply eligible_end; eauto; lia).
    assert (Hlt : (i < length (p_runs p))%nat) by lia.
    set (r' := {| parts := parts r; r_offset := r_offset r + spn s;
                  r_units := r_units r - spn s |}).
    set (mv := {| src := s; dst := r_offset r; m_units := spn s |}).
    destruct Hsh as (S1 & S2 & S3 & S4).
    split; simpl.
    + rewrite <- (list_insert_id rs0 i r0 Hr0). apply Forall2_insert; [done|].
      unfold shrunk, run_end in *. simpl. split_and!; auto; lia.
    + assert (Hold : ∀ u o j, (u, o, j) ∈ fit_remove (r_units r, r_offset r, i) f →
        (j < el)%nat ∧ ∃ x, <[i:=r']> (p_runs p) !! j = Some x ∧ r_units x = u ∧ r_offset x = o).
      { intros u o j [Hne Hj]%fit_remove_elem. destruct (Hfit _ _ _ Hj) as (? & x & Hx & ? & ?).
        split; [done|]. exists x. rewrite list_lookup_insert_ne; [done|]. intros <-.
        by simplify_eq. }
      intros u o j. case_match; [|apply Hold].
      intros [[= -> -> ->]|Hj]%fit_insert_elem; [|by apply Hold].
      split; [done|]. exists r'. by rewrite list_lookup_insert_eq.
    + apply Forall_app. split.
      * eapply Forall_impl; [exact P3|]. intros mv' [? ?]. split; [done|].
        eapply placed_step; eauto. simpl. lia.
      * apply Forall_singleton. split.
        -- unfold move_ok, run_end in *. simpl. split_and!; auto. lia.
        -- exists i, r0, r'. rewrite list_lookup_insert_eq by done. simpl. split_and!; auto; lia.
    + apply StronglySorted_app_2; auto; [|repeat constructor].
      intros a b Ha ->%list_elem_of_singleton. rewrite Forall_forall in P3.
      destruct (P3 _ Ha) as [_ Hp]. unfold dst_apart. simpl. eapply placed_apart; eauto.
  - intros [= <-]. simpl. split_and!; [|lia|by left]. by split.
Qed.

Lemma pack_ok l p :
  plan_ok p → (eligible p ≤ length (p_runs p))%nat → (∀ s, s ∈ l → s ∈ srcs) →
  NoDup ((src <$> p_moves p) ++ l) →
  plan_ok (pack m hd p l) ∧ NoDup (src <$> p_moves (pack m hd p l)).
Proof using All.
  revert p. induction l as [|s l IH]; intros p Hp Hel Hsub Hnd; simpl.
  - by rewrite app_nil_r in Hnd.
  - destruct (pack_one m hd p s) as [p'|] eqn:E.
    + apply pack_one_ok in E as (Hp' & Hel' & Hmv); [|auto|apply Hsub; left|auto].
      apply IH; auto; [by intros; apply Hsub; right|].
      destruct Hmv as [->|(mv & -> & <-)].
      * eapply sublist_NoDup; [exact Hnd|]. apply sublist_app; [done|by apply sublist_cons].
      * by rewrite fmap_app, <- app_assoc.
    + split; [done|]. by apply NoDup_app in Hnd as [? _].
Qed.

Lemma eligible_initial : (eligible (initial_plan rs0) ≤ length (p_runs (initial_plan rs0)))%nat.
Proof using Type. done. Qed.

Lemma plan_spec l :
  (∀ s, s ∈ l → s ∈ srcs) → NoDup l →
  let p := pack m hd (initial_plan rs0) l in plan_ok p ∧ NoDup (src <$> p_moves p).
Proof using All.
  intros Hsub Hnd. apply pack_ok; auto using initial_plan_ok, eligible_initial.
Qed.

End plan.

(** ** The free suffix *)

Local Ltac nothing := split; [lia|intros; lia].

Lemma compacted_tail_spec fuel rrs mvs tail :
  Forall (λ r, 0 ≤ r_offset r ∧ 0 ≤ r_units r) rrs →
  Forall (λ mv, 0 ≤ src mv ∧ 0 < m_units mv) mvs → 0 ≤ tail →
  let t := compacted_tail fuel rrs mvs tail in
  0 ≤ t ≤ tail ∧
  ∀ p, t ≤ p < tail →
    (∃ r, r ∈ rrs ∧ inside p (r_offset r) (r_units r)) ∨
    (∃ mv, mv ∈ mvs ∧ inside p (src mv) (m_units mv)).
Proof.
  revert rrs mvs tail. induction fuel as [|fuel IH]; intros rrs mvs tail Hr Hm Ht; simpl; [nothing|].
  assert (Hmove : ∀ mv mvs', mvs = mv :: mvs' →
    let t := if hole_end (source mv) =? tail then compacted_tail fuel rrs mvs' (src mv) else tail in
    0 ≤ t ≤ tail ∧ ∀ p, t ≤ p < tail →
    (∃ r, r ∈ rrs ∧ inside p (r_offset r) (r_units r)) ∨
    (∃ mv, mv ∈ mvs ∧ inside p (src mv) (m_units mv))).
  { intros mv mvs' ->. apply Forall_cons in Hm as [[? ?] Hm]. unfold hole_end. simpl.
    destruct (Z.eqb_spec (src mv + m_units mv) tail) as [<-|]; [|nothing].
    destruct (IH rrs mvs' (src mv) Hr Hm) as [I1 I2]; [done|]. simpl in *. split; [lia|].
    intros p Hp. destruct (decide (p < src mv)).
    - destruct (I2 p ltac:(lia)) as [?|(x & ? & ?)]; [by left|]. right. exists x.
      by split; [right|].
    - right. exists mv. split; [left|]. unfold inside. lia. }
  destruct rrs as [|r rrs]; [destruct mvs; [nothing|by apply Hmove]|].
  apply Forall_cons in Hr as [[? ?] Hr].
  assert (Hrun : let t := if run_end r =? tail
      then compacted_tail fuel rrs mvs (r_offset r) else tail in
    0 ≤ t ≤ tail ∧ ∀ p, t ≤ p < tail →
    (∃ r', r' ∈ r :: rrs ∧ inside p (r_offset r') (r_units r')) ∨
    (∃ mv, mv ∈ mvs ∧ inside p (src mv) (m_units mv))).
  { unfold run_end. destruct (Z.eqb_spec (r_offset r + r_units r) tail) as [<-|]; [|nothing].
    destruct (IH rrs mvs (r_offset r) Hr Hm) as [I1 I2]; [done|]. simpl in *. split; [lia|].
    intros p Hp. destruct (decide (p < r_offset r)).
    - destruct (I2 p ltac:(lia)) as [(x & ? & ?)|?]; [|by right]. left. exists x.
      by split; [right|].
    - left. exists r. split; [left|]. unfold inside. lia. }
  destruct (Z.eqb_spec (r_units r) 0).
  - destruct (IH rrs mvs tail Hr Hm Ht) as [I1 I2]. split; [done|]. intros p Hp.
    destruct (I2 p Hp) as [(x & ? & ?)|?]; [|by right]. left. exists x. by split; [right|].
  - destruct mvs as [|mv mvs]; [done|]. destruct (_ <=? _); [done|by apply Hmove].
Qed.

(** ** Copying *)

Definition copies (s : MappedStorage) (m : mem) (mvs : list Move) : mem :=
  foldl (λ m mv, copy m (at_ s (src mv)) (at_ s (dst mv))
                   (Z.to_nat (STORAGE_UNIT * m_units mv))) m mvs.

Lemma copy_in m a b n x :
  0 ≤ x < Z.of_nat n → copy m a b n (b + x) = m (a + x).
Proof.
  intros Hx. apply store_in; [lia|]. replace (b + x - b) with x by lia.
  rewrite lookup_load by lia. f_equal. f_equal. lia.
Qed.

Lemma copy_out m a b n x : ¬ (b ≤ x < b + Z.of_nat n) → copy m a b n x = m x.
Proof. intros H. apply store_out. by rewrite length_load. Qed.

Lemma copies_out s m mvs x :
  Forall (λ mv, 0 < m_units mv ∧
    ¬ (at_ s (dst mv) ≤ x < at_ s (dst mv) + 8 * m_units mv)) mvs →
  copies s m mvs x = m x.
Proof.
  revert m. induction mvs as [|a l IH]; intros m H; [done|].
  apply Forall_cons in H as [[Hp Ha] H]. simpl. rewrite IH by done. apply copy_out.
  change STORAGE_UNIT with 8. lia.
Qed.

Lemma copies_in s m mvs mv x :
  Forall (λ mv, 0 < m_units mv) mvs →
  (∀ a b, a ∈ mvs → b ∈ mvs → apart (src a) (m_units a) (dst b) (m_units b)) →
  StronglySorted dst_apart mvs → mv ∈ mvs → 0 ≤ x < 8 * m_units mv →
  copies s m mvs (at_ s (dst mv) + x) = m (at_ s (src mv) + x).
Proof.
  revert m. induction mvs as [|a l IH]; intros m Hp Hs Hd Hin Hx; [by apply not_elem_of_nil in Hin|].
  pose proof (Hs mv a Hin ltac:(left)) as Hsa. simpl.
  apply Forall_cons in Hp as [Ha Hp]. apply StronglySorted_inv in Hd as [Hd Hda].
  apply elem_of_cons in Hin as [->|Hin].
  - change (foldl _ ?m l) with (copies s m l).
    rewrite copies_out; [apply copy_in; change STORAGE_UNIT with 8; lia|].
    rewrite Forall_forall in Hp, Hda |- *. intros b Hb. split; [by apply Hp|].
    pose proof (Hda b Hb) as Hab. unfold dst_apart, apart, at_ in *. change STORAGE_UNIT with 8. lia.
  - change (foldl _ ?m l) with (copies s m l). rewrite IH; auto; [|intros; apply Hs; by right].
    apply copy_out. unfold apart, at_ in *. change STORAGE_UNIT with 8. lia.
Qed.

(** ** The effect of a pass on the tables *)

Definition relocated (mvs : list Move) (o : Offset) : Offset :=
  match List.find (λ mv, src mv =? o) mvs with Some mv => dst mv | None => o end.

Definition move_entry (mvs : list Move) (e : OwnerAndOffset) : OwnerAndOffset :=
  {| tag := tag e; offset := relocated mvs (offset e) |}.

(** What is left of a free span of run [r], and of the source of a move, below [tail]. *)
Definition trim (tail : Offset) (rh : Run * Span) : option (Z * Offset) :=
  let o := Z.max (h_offset rh.2) (r_offset rh.1) in
  let e := Z.min (hole_end rh.2) tail in
  if o <? e then Some (e - o, o) else None.

Definition trim_source (tail : Offset) (mv : Move) : option (Z * Offset) :=
  if src mv <? tail then Some (Z.min (hole_end (source mv)) tail - src mv, src mv) else None.

Definition hole_pair (h : Span) : Z * Offset := (h_units h, h_offset h).

Lemma relocated_cases mvs o :
  (∃ mv, mv ∈ mvs ∧ src mv = o ∧ relocated mvs o = dst mv) ∨
  ((o ∉ (src <$> mvs)) ∧ relocated mvs o = o).
Proof.
  unfold relocated. destruct (List.find _ mvs) as [mv|] eqn:E; [left|right].
  - apply find_some in E as [Hin E]. exists mv. rewrite list_elem_of_In. split_and!; auto. lia.
  - split; [|done]. intros (mv & -> & Hin)%list_elem_of_fmap.
    rewrite list_elem_of_In in Hin. apply (find_none _ _ E) in Hin. lia.
Qed.

Lemma relocated_snoc dn mv o :
  src mv ∉ (src <$> dn) →
  relocated (dn ++ [mv]) o = if decide (o = src mv) then dst mv else relocated dn o.
Proof.
  intros Hn. unfold relocated. induction dn as [|x dn IH]; simpl.
  - destruct (Z.eqb_spec (src mv) o); case_decide; congruence.
  - rewrite fmap_cons, not_elem_of_cons in Hn. destruct Hn as [Hx Hn].
    destruct (Z.eqb_spec (src x) o); [|by apply IH]. rewrite decide_False; congruence.
Qed.

(** The spans with the run each of them belongs to, in the order they are published. *)
Definition with_run (holes : list Span) (rs : list Run) : list (Run * Span) :=
  concat ((λ r, (λ h, (r, h)) <$> run_holes holes r) <$> rs).

Lemma with_run_holes holes rs : (with_run holes rs).*2 = concat (run_holes holes <$> rs).
Proof.
  induction rs as [|r rs IH]; [done|]. unfold with_run in *.
  rewrite !fmap_cons, !List.concat_cons, fmap_app, IH, <- list_fmap_compose. f_equal.
  by rewrite list_fmap_id.
Qed.

Lemma with_run_elem holes rs r h :
  (r, h) ∈ with_run holes rs ↔ r ∈ rs ∧ h ∈ run_holes holes r.
Proof.
  unfold with_run. induction rs as [|x rs IH]; simpl; [set_solver|].
  rewrite elem_of_app, IH, elem_of_cons, list_elem_of_fmap. split.
  - intros [(h' & [= -> ->] & ?)|[? ?]]; auto.
  - intros [[->|?] ?]; [left; by exists h|by right].
Qed.

Lemma ex_cons {X} (Q : X → Prop) a l :
  (∃ x, x ∈ a :: l ∧ Q x) ↔ Q a ∨ ∃ x, x ∈ l ∧ Q x.
Proof. setoid_rewrite elem_of_cons. naive_solver. Qed.

Lemma ex_snoc {X} (Q : X → Prop) a l :
  (∃ x, x ∈ l ++ [a] ∧ Q x) ↔ (∃ x, x ∈ l ∧ Q x) ∨ Q a.
Proof. setoid_rewrite elem_of_app. setoid_rewrite list_elem_of_singleton. naive_solver. Qed.

Lemma hole_pair_inj h h' : hole_pair h = hole_pair h' → h = h'.
Proof. destruct h, h'. by intros [= -> ->]. Qed.

Section tables.
Context {A P F : Type}.
Context `{HA : !Database A Pubkey OwnerAndOffset, !MapDatabase A Pubkey OwnerAndOffset}.
Context `{HP : !Database P KeyTail Offset, !DupDatabase P KeyTail Offset}.
Context `{HF : !Database F Z Offset, !DupDatabase F Z Offset}.
Context (s : MappedStorage) (i : Index A P F).

Abbreviation Idx := (Index A P F).

Hypothesis Hl : layout s i.

(** The two account tables agree. *)
Definition programs_ok (t : Idx) : Prop :=
  ∀ tg o, (tg, o) ∈ prog_of t ↔ ∃ k e, acc_of t !! k = Some e ∧ tag e = tg ∧ offset e = o.

Section relocating.
Context (mvs : list Move).
Hypothesis Hsrc : ∀ mv, mv ∈ mvs → ∃ k e, acc_of i !! k = Some e ∧ offset e = src mv.
Hypothesis Hfresh : ∀ mv k e, mv ∈ mvs → acc_of i !! k = Some e → offset e ≠ dst mv.
Hypothesis Hnd : NoDup (src <$> mvs).

Definition reloc_inv (dn : list Move) (t : Idx) : Prop :=
  acc_of t = move_entry dn <$> acc_of i ∧ free_of t = free_of i ∧ programs_ok t.

Lemma relocate_step dn mv todo t t' k e :
  mvs = dn ++ mv :: todo → reloc_inv dn t → acc_of i !! k = Some e → offset e = src mv →
  relocate t k (src mv) {| tag := tag e; offset := dst mv |} = Ok t' →
  reloc_inv (dn ++ [mv]) t'.
Proof using All.
  intros Em (I1 & I2 & I3) He Eo (R1 & R2 & R3)%relocate_spec. simpl in *.
  assert (Hn : src mv ∉ (src <$> dn)).
  { clear -Hnd Em. subst. rewrite fmap_app, fmap_cons, NoDup_app in Hnd.
    destruct Hnd as (_ & Hd & _). intros Hin%Hd. by destruct Hin; left. }
  assert (Hk : ∀ k', relocated dn (offset e) = offset e ∧
    (∀ e', acc_of i !! k' = Some e' → k' ≠ k → relocated dn (offset e') ≠ src mv)).
  { intros k'. split.
    - destruct (relocated_cases dn (offset e)) as [(x & Hx & Ex & _)|[_ ?]]; [|done].
      destruct Hn. rewrite <- Eo, <- Ex. by apply list_elem_of_fmap_2.
    - intros e' He' Hne. destruct (relocated_cases dn (offset e')) as [(x & Hx & _ & ->)|[_ ->]].
      + rewrite <- Eo. intros E. apply (Hfresh x k e); auto. subst mvs. by apply elem_of_app; left.
      + intros E. rewrite <- Eo in E. by apply Hne, (offsets_injective s i k' k e' e). }
  assert (Ha : acc_of t' = move_entry (dn ++ [mv]) <$> acc_of i).
  { rewrite R1, I1. apply map_eq. intros k'. rewrite lookup_fmap.
    destruct (decide (k' = k)) as [->|Hne].
    - rewrite lookup_insert_eq, He. simpl. unfold move_entry.
      by rewrite relocated_snoc, decide_True.
    - rewrite lookup_insert_ne, lookup_fmap by done.
      destruct (acc_of i !! k') as [e'|] eqn:He'; [|done]. simpl. unfold move_entry.
      rewrite relocated_snoc, decide_False; [done| |done]. intros E.
      rewrite <- Eo in E. by apply Hne, (offsets_injective s i k' k e' e). }
  split_and!; [done|congruence|]. intros tg o.
  rewrite R3, elem_of_union, elem_of_difference, !elem_of_singleton, (I3 tg o), R1, I1. split.
  - intros [[= -> ->]|[(k' & e' & He' & <- & <-) Hne]].
    + exists k. eexists. by rewrite lookup_insert_eq.
    + exists k', e'. rewrite lookup_insert_ne; [done|]. intros <-.
      rewrite lookup_fmap, He in He'. simpl in He'. simplify_eq.
      apply Hne. simpl. by rewrite (proj1 (Hk k)), Eo.
  - intros (k' & e' & He' & <- & <-). destruct (decide (k' = k)) as [->|Hne].
    + rewrite lookup_insert_eq in He'. simplify_eq/=. by left.
    + rewrite lookup_insert_ne in He' by done. right. split; [by exists k', e'|].
      rewrite lookup_fmap in He'. destruct (acc_of i !! k') as [e0|] eqn:He0; [|done].
      simpl in He'. simplify_eq/=. intros [= _ E]. by apply (proj2 (Hk k') e0).
Qed.

Lemma relocate_moves_spec m1 t' :
  layout m1 i → head m1 = head s → relocate_moves m1 i mvs = Ok t' → reloc_inv mvs t'.
Proof using All.
  intros Hl1 Hh.
  assert (Hgen : ∀ todo dn t, mvs = dn ++ todo → reloc_inv dn t →
    relocate_moves m1 t todo = Ok t' → reloc_inv mvs t').
  { induction todo as [|mv todo IH]; intros dn t Em Hi; cbn [relocate_moves].
    - intros [= <-]. by rewrite app_nil_r in Em; subst.
    - intros E. inv_ok. destruct (Hsrc mv) as (k & e & He & Eo).
      { subst mvs. apply elem_of_app. right. left. }
      destruct (lay_image _ _ Hl1 _ _ He) as (_ & Hk & Ht). rewrite Eo in Hk, Ht.
      rewrite Hk in Hok. change (owner (read_core _ _)) with
        (owner (o_core (open_account (mm m1) (at_ m1 (src mv))))) in Hok. rewrite <- Ht in Hok.
      apply (IH (dn ++ [mv]) val); auto; [by rewrite <- app_assoc|].
      by eapply relocate_step. }
  apply (Hgen mvs []); [done|]. split_and!; [|done|intros tg o; apply (lay_programs _ _ Hl)].
  apply map_eq. intros k. rewrite lookup_fmap. by destruct (acc_of i !! k) as [[]|].
Qed.

End relocating.

(** *** The freelist *)

Lemma fold_result_app {B} (f : Idx → B → result ErrorCode Idx) t l1 l2 :
  fold_result f t (l1 ++ l2) = t ← fold_result f t l1; fold_result f t l2.
Proof using Type.
  revert t. induction l1 as [|x l1 IH]; intros t; cbn [fold_result app]; [done|].
  destruct (f t x); simpl; [apply IH|done].
Qed.

Lemma publish_flat tail holes rs (t : Idx) :
  fold_result (λ t r, fold_result (publish_hole tail r) t (run_holes holes r)) t rs =
  fold_result (λ t rh, publish_hole tail rh.1 t rh.2) t (with_run holes rs).
Proof using Type.
  revert t. induction rs as [|r rs IH]; intros t; [done|]. unfold with_run.
  rewrite fmap_cons, List.concat_cons, fold_result_app. cbn [fold_result].
  assert (∀ l (t : Idx), fold_result (publish_hole tail r) t l = fold_result
    (λ t rh, publish_hole tail rh.1 t rh.2) t ((λ h, (r, h)) <$> l)) as <-.
  { induction l as [|x l IHl]; intros t0; [done|]. rewrite fmap_cons. cbn [fold_result fst snd].
    by destruct (publish_hole tail r t0 x); simpl. }
  destruct (fold_result (publish_hole tail r) t (run_holes holes r)); [apply IH|done].
Qed.

Definition same_accounts (t t' : Idx) : Prop := acc_of t' = acc_of t ∧ prog_of t' = prog_of t.

(** Spans published so far are trimmed, the others are as they were. *)
Definition free_inv (tail : Offset) (dn todo : list (Run * Span)) (t : Idx) : Prop :=
  ∀ x, x ∈ free_of t ↔
    (∃ rh, rh ∈ dn ∧ trim tail rh = Some x) ∨ (∃ rh, rh ∈ todo ∧ x = hole_pair rh.2).

Lemma publish_hole_spec tail r h (t t' : Idx) :
  publish_hole tail r t h = Ok t' →
  same_accounts t t' ∧
  ((trim tail (r, h) = Some (hole_pair h) ∨ h_units h ≤ 0) ∧ free_of t' = free_of t ∨
   free_of t' = match trim tail (r, h) with
     | Some x => {[ x ]} ∪ free_of t ∖ {[ hole_pair h ]}
     | None => free_of t ∖ {[ hole_pair h ]} end).
Proof using Type.
  unfold publish_hole, trim, same_accounts. cbn [fst snd].
  set (o := Z.max _ _). set (e := Z.min _ _).
  destruct ((o =? h_offset h) && (e =? hole_end h)) eqn:Eb.
  - intros [= <-]. apply andb_true_iff in Eb as [E1 E2]. apply Z.eqb_eq in E1, E2.
    split; [done|]. left. split; [|done]. rewrite E1, E2. unfold hole_end, hole_pair.
    destruct (Z.ltb_spec (h_offset h) (h_offset h + h_units h)); [left|right; lia].
    do 2 f_equal. lia.
  - intros E. inv_ok. apply dup_delete_one in Hok. destruct (o <? e); inv_ok; subst.
    + apply dup_put in Hok0. simpl in Hok0. split; [done|]. right.
      unfold free_of. simpl. by rewrite Hok0, Hok.
    + split; [done|]. right. unfold free_of. simpl. by rewrite Hok.
Qed.

Section freeing.
Context (holes : list Span) (tail : Offset).
Hypothesis Hholes : ∀ h, h ∈ holes ↔ hole_pair h ∈ free_of i.
Hypothesis Hndh : NoDup holes.

Lemma hole_pos h : h ∈ holes → 0 < h_units h.
Proof using Hl Hholes.
  intros Hh%Hholes. by destruct (lay_bounds _ _ Hl (Hole (h_units h) (h_offset h)) (h_offset h)
    (h_units h)) as (_ & ? & _).
Qed.

Lemma holes_apart h h' :
  h ∈ holes → h' ∈ holes → h ≠ h' → apart (h_offset h) (h_units h) (h_offset h') (h_units h').
Proof using Hl Hholes.
  intros H1%Hholes H2%Hholes Hne.
  apply (lay_apart _ _ Hl (Hole (h_units h) (h_offset h)) _ _ (Hole (h_units h') (h_offset h')));
    [done..|]. intros [= E1 E2]. apply Hne, hole_pair_inj. unfold hole_pair. congruence.
Qed.

(** What is left of a span is no other span. *)
Lemma trim_other r h h' :
  h ∈ holes → h' ∈ holes → trim tail (r, h) = Some (hole_pair h') → h = h'.
Proof using Hl Hholes.
  intros H1 H2. unfold trim, hole_pair, hole_end. cbn [fst snd].
  destruct (Z.ltb_spec (Z.max (h_offset h) (r_offset r))
    (Z.min (h_offset h + h_units h) tail)); [|done].
  intros [= E1 E2]. destruct (decide (h = h')) as [|Hne]; [done|].
  pose proof (holes_apart h h' H1 H2 Hne). pose proof (hole_pos h' H2). unfold apart in *. lia.
Qed.

Lemma publish_holes_spec todo dn (t t' : Idx) :
  (dn ++ todo).*2 = holes → free_inv tail dn todo t →
  fold_result (λ t rh, publish_hole tail rh.1 t rh.2) t todo = Ok t' →
  same_accounts t t' ∧ free_inv tail (dn ++ todo) [] t'.
Proof using All.
  revert dn t. induction todo as [|[r h] todo IH]; intros dn t Eh Hi; cbn [fold_result].
  - intros [= <-]. by rewrite app_nil_r.
  - intros E. inv_ok. cbn [fst snd] in *.
    apply publish_hole_spec in Hok as ([Ea Ep] & Hf).
    assert (Hin : ∀ rh, rh ∈ dn ++ (r, h) :: todo → rh.2 ∈ holes).
    { intros rh Hrh. rewrite <- Eh. by apply list_elem_of_fmap_2. }
    assert (Hh : h ∈ holes) by (apply (Hin (r, h)), elem_of_app; right; left).
    assert (Hnt : ∀ rh, rh ∈ todo → rh.2 ≠ h).
    { clear -Eh Hndh. intros rh Hrh <-. rewrite <- Eh, fmap_app, NoDup_app in Hndh.
      destruct Hndh as (_ & _ & Hnd). rewrite fmap_cons, list.NoDup_cons in Hnd.
      destruct Hnd as [Hn _]. apply Hn. by apply (list_elem_of_fmap_2 snd todo rh). }
    assert (Hnd' : ∀ rh, rh ∈ dn → trim tail rh ≠ Some (hole_pair h)).
    { intros [r' h'] Hrh Et. assert (h' = h) as ->.
      { eapply trim_other; eauto. apply (Hin (r', h')), elem_of_app. by left. }
      clear -Eh Hndh Hrh. rewrite <- Eh, fmap_app, NoDup_app in Hndh.
      destruct Hndh as (_ & Hd & _). apply (Hd h); [|left].
      by apply (list_elem_of_fmap_2 snd _ (r', h)). }
    assert (Hi' : free_inv tail (dn ++ [(r, h)]) todo val).
    { intros x. pose proof (hole_pos h Hh) as Hpos. specialize (Hi x).
      rewrite ex_cons in Hi. rewrite ex_snoc. cbn [snd] in Hi.
      destruct Hf as [[[Ht|] ->]|Hf]; [|lia|].
      - rewrite Hi, Ht. naive_solver.
      - assert (Hx : x ∈ free_of t ∖ {[ hole_pair h ]} ↔
          (∃ rh, rh ∈ dn ∧ trim tail rh = Some x) ∨ (∃ rh, rh ∈ todo ∧ x = hole_pair rh.2)).
        { rewrite elem_of_difference, elem_of_singleton, Hi. split; [naive_solver|].
          intros [(rh & Hrh & Ht)|(rh & Hrh & ->)]; (split; [naive_solver|]).
          - intros ->. by apply (Hnd' rh).
          - intros Ex%hole_pair_inj. by apply (Hnt rh). }
        rewrite Hf. destruct (trim tail (r, h)) as [y|].
        + rewrite elem_of_union, elem_of_singleton, Hx. naive_solver.
        + rewrite Hx. naive_solver. }
    destruct (IH (dn ++ [(r, h)]) val) as ([Ea' Ep'] & Hf'); auto;
      [by rewrite <- app_assoc|].
    split; [by split; etrans|]. by rewrite <- app_assoc in Hf'.
Qed.

Lemma publish_source_spec mvs (t t' : Idx) :
  fold_result (publish_source tail) t mvs = Ok t' →
  same_accounts t t' ∧
  ∀ x, x ∈ free_of t' ↔ x ∈ free_of t ∨ ∃ mv, mv ∈ mvs ∧ trim_source tail mv = Some x.
Proof using All.
  revert t. induction mvs as [|mv mvs IH]; intros t; cbn [fold_result].
  - intros [= <-]. split; [done|]. intros x. split; [by left|].
    by intros [?|(mv & ?%not_elem_of_nil & _)].
  - intros E. inv_ok. destruct (IH _ E) as ([Ea Ep] & Hf).
    assert (Hv : same_accounts t val ∧
      free_of val = match trim_source tail mv with Some x => {[x]} | None => ∅ end ∪ free_of t).
    { unfold publish_source, trim_source in *. destruct (_ <? _); inv_ok; subst.
      - apply dup_put in Hok0. done.
      - split; [done|]. by rewrite (left_id_L ∅ (∪)). }
    destruct Hv as ([Ea' Ep'] & Hf'). split; [by split; etrans|].
    intros x. rewrite Hf, Hf', elem_of_union, ex_cons.
    destruct (trim_source tail mv); rewrite ?elem_of_singleton, ?elem_of_empty; naive_solver.
Qed.

Lemma publish_spec d (t t' : Idx) :
  d_holes d = holes → concat (run_holes holes <$> p_runs (d_plan d)) = holes →
  free_of t = free_of i → publish d tail t = Ok t' →
  same_accounts t t' ∧
  ∀ x, x ∈ free_of t' ↔
    (∃ rh, rh ∈ with_run holes (p_runs (d_plan d)) ∧ trim tail rh = Some x) ∨
    (∃ mv, mv ∈ p_moves (d_plan d) ∧ trim_source tail mv = Some x).
Proof using All.
  intros Ed Ec Ef. unfold publish. rewrite Ed, publish_flat. intros E. inv_ok.
  apply (publish_holes_spec _ []) in Hok as ([Ea Ep] & Hf).
  - apply publish_source_spec in E as ([Ea' Ep'] & Hf'). split; [by split; etrans|].
    intros x. rewrite Hf', (Hf x). simpl. split; [|naive_solver].
    intros [[?|(rh & ?%not_elem_of_nil & _)]|?]; naive_solver.
  - simpl. by rewrite with_run_holes.
  - intros x. rewrite Ef. split.
    + destruct x as [u o]. intros Hx. right.
      assert (Hh : {| h_offset := o; h_units := u |} ∈ holes) by (by apply Hholes).
      rewrite <- Ec, <- with_run_holes in Hh. apply list_elem_of_fmap in Hh as (rh & E1 & Hrh).
      exists rh. split; [done|]. by rewrite <- E1.
    + intros [(rh & ?%not_elem_of_nil & _)|(rh & Hrh & ->)]; [done|].
      apply Hholes. rewrite <- Ec, <- with_run_holes. by apply list_elem_of_fmap_2.
Qed.

End freeing.
End tables.

(** ** A pass keeps the layout *)

Lemma apart_points o u o' u' :
  0 < u → 0 < u' → (∀ x, inside x o u → inside x o' u' → False) → apart o u o' u'.
Proof.
  intros Hu Hu' H. unfold apart, inside in *. specialize (H (Z.max o o')). lia.
Qed.

Lemma apart_inside x o u o' u' : apart o u o' u' → inside x o u → inside x o' u' → False.
Proof. unfold apart, inside. lia. Qed.

Lemma fmap_inj_elem {X Y} (f : X → Y) l x y :
  NoDup (f <$> l) → x ∈ l → y ∈ l → f x = f y → x = y.
Proof.
  intros Hn (n & Hx)%list_elem_of_lookup (k & Hy)%list_elem_of_lookup E.
  assert (n = k) as ->; [|congruence].
  apply (NoDup_lookup (f <$> l) n k (f x)); [done|by rewrite list_lookup_fmap, Hx|].
  by rewrite list_lookup_fmap, Hy, E.
Qed.

Lemma shrunk_concat holes rs0 rs :
  Forall2 shrunk rs0 rs → concat (run_holes holes <$> rs) = concat (run_holes holes <$> rs0).
Proof.
  induction 1 as [|r0 r rs0 rs (E & _) _ IH]; [done|].
  rewrite !fmap_cons, !List.concat_cons, IH. unfold run_holes at 1 3. by rewrite E.
Qed.

Section pass.
Context {A P F : Type}.
Context `{HA : !Database A Pubkey OwnerAndOffset, !MapDatabase A Pubkey OwnerAndOffset}.
Context `{HP : !Database P KeyTail Offset, !DupDatabase P KeyTail Offset}.
Context `{HF : !Database F Z Offset, !DupDatabase F Z Offset}.
Context (s : MappedStorage) (i : Index A P F) (holes : list Span) (srcs : list Offset).
Context (p : Plan).

Hypothesis Hl : layout s i.
Hypothesis Hholes : ∀ h, h ∈ holes ↔ hole_pair h ∈ free_of i.
Hypothesis Hndh : NoDup holes.
Hypothesis Hruns : runs_ok holes (runs holes).
Hypothesis Hsrcs : ∀ o, o ∈ srcs → ∃ k e, acc_of i !! k = Some e ∧ offset e = o.
Hypothesis Hplan : plan_ok (mm s) (head s) holes srcs p.
Hypothesis Hnds : NoDup (src <$> p_moves p).

Let mvs := p_moves p.
Let rs := p_runs p.

(** The source of a move is a live image, all of it is moved. *)
Lemma move_source mv :
  mv ∈ mvs → ∃ k e, acc_of i !! k = Some e ∧ offset e = src mv ∧
    block_at s i (Live k) (src mv) (m_units mv).
Proof using All.
  intros Hin. pose proof (po_moves _ _ _ _ _ Hplan) as Hm. rewrite Forall_forall in Hm.
  destruct (Hm mv Hin) as [(Hs & Hu & _) _]. destruct (Hsrcs _ Hs) as (k & e & He & Eo).
  exists k, e. split_and!; auto. exists e. rewrite Hu. by split_and!.
Qed.

Lemma run_lookup r :
  r ∈ rs → ∃ j r0, rs !! j = Some r ∧ runs holes !! j = Some r0 ∧ shrunk r0 r ∧
    run_holes holes r = run_holes holes r0 ∧
    chain (run_holes holes r) (r_offset r0) (run_end r).
Proof using All.
  intros (j & Hj)%list_elem_of_lookup.
  destruct (Forall2_lookup_r _ _ _ _ _ (po_runs _ _ _ _ _ Hplan) Hj) as (r0 & Hr0 & Hsh).
  pose proof (ro_chain _ _ Hruns) as Hc. rewrite Forall_lookup in Hc. specialize (Hc _ _ Hr0).
  pose proof Hsh as (E1 & E2 & _).
  assert (E : run_holes holes r = run_holes holes r0) by (unfold run_holes; by rewrite E1).
  exists j, r0. rewrite E, E2. by split_and!.
Qed.

Lemma run_holes_in r h : h ∈ run_holes holes r → h ∈ holes.
Proof using Type. intros Hh%subseteq_take%subseteq_drop. done. Qed.

Lemma hole_block h : h ∈ holes → block_at s i (Hole (h_units h) (h_offset h)) (h_offset h) (h_units h).
Proof using Hholes. intros Hh%Hholes. by split. Qed.

Lemma run_holes_pos r : Forall (λ h, 0 < h_units h) (run_holes holes r).
Proof using All.
  apply Forall_forall. intros h Hh%run_holes_in%hole_block.
  by destruct (lay_bounds _ _ Hl _ _ _ Hh) as (_ & ? & _).
Qed.

(** Destinations were free at the start of the pass, *)
Lemma dst_free mv x :
  mv ∈ mvs → inside x (dst mv) (m_units mv) →
  ∃ h, h ∈ holes ∧ inside x (h_offset h) (h_units h).
Proof using All.
  intros Hin Hx. pose proof (po_moves _ _ _ _ _ Hplan) as Hm. rewrite Forall_forall in Hm.
  destruct (Hm mv Hin) as [_ (j & r0 & r & H0 & Hj & H1 & H2)].
  destruct (Forall2_lookup_r _ _ _ _ _ (po_runs _ _ _ _ _ Hplan) Hj) as (r0' & Hr0 & Hsh).
  simplify_eq. destruct Hsh as (E1 & E2 & E3 & E4).
  pose proof (ro_chain _ _ Hruns) as Hc. rewrite Forall_lookup in Hc. specialize (Hc _ _ H0).
  destruct (chain_cover _ _ _ x Hc (run_holes_pos r0)) as (h & Hh & ?).
  - unfold inside, run_end in *. lia.
  - exists h. split; [by eapply run_holes_in|done].
Qed.

(** and are not among what is left of the runs. *)
Lemma dst_taken mv r h x :
  mv ∈ mvs → r ∈ rs → h ∈ run_holes holes r →
  inside x (dst mv) (m_units mv) → inside x (h_offset h) (h_units h) → x < r_offset r.
Proof using All.
  intros Hin Hr Hh Hx Hxh. pose proof (po_moves _ _ _ _ _ Hplan) as Hm.
  rewrite Forall_forall in Hm. destruct (Hm mv Hin) as [_ (j & r0 & rj & H0 & Hj & H1 & H2)].
  destruct (run_lookup r Hr) as (j' & r0' & Hj' & H0' & (_ & _ & S3 & S4) & _ & Hc).
  destruct (chain_bounds _ _ _ h Hc (run_holes_pos r) Hh) as [B1 B2].
  destruct (Forall2_lookup_r _ _ _ _ _ (po_runs _ _ _ _ _ Hplan) Hj) as (r1 & Hr1 & Hsh).
  destruct (Forall2_lookup_r _ _ _ _ _ (po_runs _ _ _ _ _ Hplan) Hj') as (r2 & Hr2 & Hsh').
  simplify_eq. destruct Hsh as (_ & E2 & _ & E4), Hsh' as (_ & E2' & _).
  unfold inside, hole_end in *. destruct (lt_eq_lt_dec j j') as [[Hlt|<-]|Hlt].
  - pose proof (sorted_lookup _ Hruns j j' _ _ Hlt H0 H0'). unfold run_end in *. lia.
  - unfold rs in Hj'. simplify_eq. lia.
  - pose proof (sorted_lookup _ Hruns j' j _ _ Hlt H0' H0). unfold run_end in *. lia.
Qed.

(** The blocks of the layout are disjoint, point by point. *)
Lemma old_block_unique b o u b' o' u' x :
  block_at s i b o u → block_at s i b' o' u' → inside x o u → inside x o' u' → b = b'.
Proof using Hl.
  intros H H' Hx Hx'.
  destruct (lay_bounds _ _ Hl _ _ _ H) as (_ & Hu & _).
  destruct (lay_bounds _ _ Hl _ _ _ H') as (_ & Hu' & _).
  assert (Hd : Decision (b = b')) by (unfold Decision; repeat decide equality).
  destruct Hd as [|Hne]; [done|].
  destruct (apart_inside x o u o' u' (lay_apart _ _ Hl _ _ _ _ _ _ H H' Hne)); done.
Qed.

Lemma live_dst k e mv x :
  acc_of i !! k = Some e → mv ∈ mvs → inside x (offset e) (span (mm s) (at_ s (offset e))) →
  inside x (dst mv) (m_units mv) → False.
Proof using All.
  intros He Hmv Hx Hd. destruct (dst_free mv x Hmv Hd) as (h & Hh & Hxh).
  by discriminate (old_block_unique _ _ _ _ _ _ x (live_block s i k e He) (hole_block h Hh)).
Qed.

Lemma move_pos mv : mv ∈ mvs → 0 < m_units mv ∧ 0 ≤ src mv.
Proof using All.
  intros (k & e & _ & _ & Hb)%move_source. destruct (lay_bounds _ _ Hl _ _ _ Hb) as (? & ? & _).
  done.
Qed.

Lemma live_dst_apart k e mv :
  acc_of i !! k = Some e → mv ∈ mvs →
  apart (offset e) (span (mm s) (at_ s (offset e))) (dst mv) (m_units mv).
Proof using All.
  intros He Hmv. pose proof (move_pos mv Hmv). apply apart_points; [|lia|].
  - by destruct (lay_bounds _ _ Hl _ _ _ (live_block s i k e He)) as (_ & ? & _).
  - intros x Hx Hd. by apply (live_dst k e mv x).
Qed.

Let m1 := copy_moves s mvs.

Lemma copied_out k e x :
  acc_of i !! k = Some e →
  at_ s (offset e) ≤ x < at_ s (offset e) + 8 * span (mm s) (at_ s (offset e)) → m1 x = mm s x.
Proof using All.
  intros He Hx. apply copies_out, Forall_forall. intros mv Hmv.
  destruct (move_pos mv Hmv). pose proof (live_dst_apart k e mv He Hmv) as Ha.
  split; [done|]. unfold apart, at_ in *. change STORAGE_UNIT with 8 in *. lia.
Qed.

Lemma copied_layout s1 :
  mm s1 = m1 → head s1 = head s → cursor (meta s) ≤ cursor (meta s1) →
  layout s1 i ∧ view s1 i = view s i.
Proof using All.
  intros Em Hh Hc. apply layout_frame; auto. intros k e He x Hx. rewrite Em. symmetry.
  apply (copied_out k e); [done|]. by rewrite (live_span s i k e Hl He).
Qed.

Lemma copied_in mv k e :
  mv ∈ mvs → acc_of i !! k = Some e → offset e = src mv →
  valid_buffer m1 (at_ s (dst mv)) ∧
  open_account m1 (at_ s (dst mv)) = open_account (mm s) (at_ s (offset e)) ∧
  span m1 (at_ s (dst mv)) = m_units mv ∧
  m_units mv = span (mm s) (at_ s (offset e)) ∧
  buffer_pubkey m1 (at_ s (dst mv)) = k.
Proof using All.
  intros Hmv He Eo. destruct (lay_image _ _ Hl _ _ He) as (Hv & Hk & _).
  destruct (move_source mv Hmv) as (k' & e' & He' & Eo' & Hb).
  assert (Eu : m_units mv = span (mm s) (at_ s (offset e))).
  { destruct Hb as (e2 & _ & _ & ->). by rewrite Eo. }
  destruct (buffer_moved (mm s) m1 (at_ s (offset e)) (at_ s (dst mv)) Hv) as (H1 & H2 & H3 & H4).
  - rewrite <- Eu, Eo. intros x Hx. apply copies_in; auto.
    + apply Forall_forall. intros a Ha. by apply move_pos.
    + intros a b Ha Hb'. destruct (move_source a Ha) as (ka & ea & Hea & <- & Hba).
      destruct Hba as (e2 & He2 & _ & ->). by apply (live_dst_apart ka ea b).
    + apply (po_apart _ _ _ _ _ Hplan).
  - rewrite H4, H3. by split_and!.
Qed.

(** *** The new layout *)

Context (s' : MappedStorage) (t' : Index A P F) (tail : Offset).

Hypothesis Hm' : mm s' = m1.
Hypothesis Hh' : head s' = head s.
Hypothesis Hc' : tail ≤ cursor (meta s').
Hypothesis Hacc : acc_of t' = move_entry mvs <$> acc_of i.
Hypothesis Hprog : programs_ok t'.
Hypothesis Hfree : ∀ x, x ∈ free_of t' ↔
  (∃ rh, rh ∈ with_run holes rs ∧ trim tail rh = Some x) ∨
  (∃ mv, mv ∈ mvs ∧ trim_source tail mv = Some x).
Hypothesis Htail : 0 ≤ tail ≤ cursor (meta s).
Hypothesis Hsuffix : ∀ x, tail ≤ x < cursor (meta s) →
  (∃ r, r ∈ rs ∧ inside x (r_offset r) (r_units r)) ∨
  (∃ mv, mv ∈ mvs ∧ inside x (src mv) (m_units mv)).

(** Where a block of the new layout comes from. *)
Inductive origin : block → Z → Z → Prop :=
| kept_image k e : acc_of i !! k = Some e → (offset e ∉ (src <$> mvs)) →
    origin (Live k) (offset e) (span (mm s) (at_ s (offset e)))
| moved_image k e mv : acc_of i !! k = Some e → mv ∈ mvs → src mv = offset e →
    origin (Live k) (dst mv) (m_units mv)
| left_over r h u o : r ∈ rs → h ∈ run_holes holes r → trim tail (r, h) = Some (u, o) →
    origin (Hole u o) o u
| vacated mv u o : mv ∈ mvs → trim_source tail mv = Some (u, o) → origin (Hole u o) o u.

Lemma at_same o : at_ s' o = at_ s o.
Proof using Hh'. unfold at_. by rewrite Hh'. Qed.

Lemma new_entry k e' :
  acc_of t' !! k = Some e' →
  ∃ e, acc_of i !! k = Some e ∧ tag e' = tag e ∧ offset e' = relocated mvs (offset e).
Proof using Hacc.
  rewrite Hacc, lookup_fmap. destruct (acc_of i !! k) as [e|]; [|done]. simpl.
  intros [= <-]. by exists e.
Qed.

(** The image an entry of the new index points to. *)
Lemma new_image k e e' :
  acc_of i !! k = Some e → offset e' = relocated mvs (offset e) →
  valid_buffer m1 (at_ s (offset e')) ∧
  open_account m1 (at_ s (offset e')) = open_account (mm s) (at_ s (offset e)) ∧
  buffer_pubkey m1 (at_ s (offset e')) = k ∧
  origin (Live k) (offset e') (span m1 (at_ s (offset e'))).
Proof using All.
  intros He ->. destruct (relocated_cases mvs (offset e)) as [(mv & Hmv & E & ->)|[Hn ->]].
  - destruct (copied_in mv k e Hmv He (eq_sym E)) as (? & ? & -> & _ & ?).
    split_and!; auto. by apply moved_image with e.
  - destruct (lay_image _ _ Hl _ _ He) as (Hv & Hk & _).
    destruct (same_buffer_image (mm s) m1 _ Hv) as (? & ? & Es & ->).
    + intros x Hx. symmetry. apply (copied_out k e); [done|].
      by rewrite (live_span s i k e Hl He).
    + rewrite Es. split_and!; auto. by apply kept_image.
Qed.

Lemma new_block b o u : block_at s' t' b o u → origin b o u.
Proof using All.
  destruct b as [k|u' o']; simpl.
  - intros (e' & He' & -> & ->). rewrite at_same, Hm'.
    destruct (new_entry k e' He') as (e & He & _ & Eo). by apply (new_image k e e').
  - intros ([([r h] & [Hr Hh]%with_run_elem & Ht)|(mv & Hmv & Ht)]%Hfree & -> & ->).
    + by eapply left_over.
    + by eapply vacated.
Qed.

Lemma trim_inside r h u o x :
  trim tail (r, h) = Some (u, o) → inside x o u →
  inside x (h_offset h) (h_units h) ∧ r_offset r ≤ x < tail.
Proof using Type.
  unfold trim, hole_end, inside. cbn [fst snd]. case_match; [|done]. intros [= <- <-]. lia.
Qed.

Lemma trim_source_inside mv u o x :
  trim_source tail mv = Some (u, o) → inside x o u →
  inside x (src mv) (m_units mv) ∧ x < tail.
Proof using Type.
  unfold trim_source, hole_end, inside. case_match; [|done]. intros [= <- <-]. simpl. lia.
Qed.

Lemma dst_unique mv mv' x :
  mv ∈ mvs → mv' ∈ mvs → inside x (dst mv) (m_units mv) →
  inside x (dst mv') (m_units mv') → mv = mv'.
Proof using Hplan.
  intros H1%list_elem_of_In H2%list_elem_of_In Hx Hx'.
  assert (Hf : ForallOrdPairs dst_apart mvs).
  { clear -Hplan. pose proof (po_apart _ _ _ _ _ Hplan) as Hs. fold mvs in Hs.
    induction Hs; by constructor. }
  destruct (ForallOrdPairs_In Hf mv mv' H1 H2) as [|[Ha|Ha]]; [done|..];
    by edestruct (apart_inside x _ _ _ _ Ha).
Qed.

Lemma run_unique r r' h :
  r ∈ rs → r' ∈ rs → h ∈ run_holes holes r → h ∈ run_holes holes r' → r = r'.
Proof using All.
  intros Hr Hr' Hh Hh'0.
  assert (E : (r, h) = (r', h)); [|congruence].
  apply (fmap_inj_elem snd (with_run holes rs)); [|by apply with_run_elem..|done].
  rewrite with_run_holes, (shrunk_concat _ _ _ (po_runs _ _ _ _ _ Hplan)).
  by rewrite (ro_concat _ _ Hruns).
Qed.

(** The part of the old layout a point of the new one was in. *)
Lemma origin_point b o u x :
  origin b o u → inside x o u →
  (∃ k e, acc_of i !! k = Some e ∧ inside x (offset e) (span (mm s) (at_ s (offset e))) ∧
     ((b = Live k ∧ offset e ∉ (src <$> mvs)) ∨
      ∃ mv, mv ∈ mvs ∧ src mv = offset e ∧ trim_source tail mv = Some (u, o) ∧ b = Hole u o)) ∨
  (∃ r h, r ∈ rs ∧ h ∈ run_holes holes r ∧ inside x (h_offset h) (h_units h) ∧
     ((x < r_offset r ∧ ∃ mv k e, mv ∈ mvs ∧ inside x (dst mv) (m_units mv) ∧
         acc_of i !! k = Some e ∧ src mv = offset e ∧ b = Live k) ∨
      (r_offset r ≤ x ∧ trim tail (r, h) = Some (u, o) ∧ b = Hole u o))).
Proof using All.
  intros [k e He Hn|k e mv He Hmv E|r h u' o' Hr Hh Ht|mv u' o' Hmv Ht] Hx.
  - left. exists k, e. split_and!; auto.
  - right. destruct (dst_free mv x Hmv Hx) as (h & Hh & Hxh).
    assert (Hrh : h ∈ (with_run holes rs).*2).
    { rewrite with_run_holes, (shrunk_concat _ _ _ (po_runs _ _ _ _ _ Hplan)).
      by rewrite (ro_concat _ _ Hruns). }
    apply list_elem_of_fmap in Hrh as ([r h'] & E' & [Hr Hh2]%with_run_elem). simpl in E'. subst h'.
    exists r, h. split_and!; auto. left. split; [by eapply dst_taken|].
    exists mv, k, e. by split_and!.
  - right. destruct (trim_inside _ _ _ _ _ Ht Hx) as [? [? _]].
    exists r, h. split_and!; auto.
  - left. destruct (trim_source_inside _ _ _ _ Ht Hx) as [Hi _].
    destruct (move_source mv Hmv) as (k & e & He & Eo & (e2 & _ & _ & Eu)).
    exists k, e. rewrite Eo, <- Eu. split_and!; auto. right. exists mv. by split_and!.
Qed.

Lemma origin_unique b o u b' o' u' x :
  origin b o u → origin b' o' u' → inside x o u → inside x o' u' → b = b'.
Proof using All.
  intros H H' Hx Hx'.
  destruct (origin_point _ _ _ _ H Hx) as [(k & e & He & Hxe & Hb)|(r & h & Hr & Hh & Hxh & Hb)],
    (origin_point _ _ _ _ H' Hx') as [(k' & e' & He' & Hxe' & Hb')|(r' & h' & Hr' & Hh2 & Hxh' & Hb')].
  - assert (E : Live k = Live k') by (eapply old_block_unique; eauto using live_block).
    injection E as <-. simplify_eq.
    destruct Hb as [[-> Hn]|(mv & Hmv & E1 & E2 & ->)], Hb' as [[-> Hn']|(mv' & Hmv' & E1' & E2' & ->)];
      [done|destruct Hn; rewrite <- E1'; by apply list_elem_of_fmap_2
      |destruct Hn'; rewrite <- E1; by apply list_elem_of_fmap_2|].
    assert (mv = mv') as -> by (apply (fmap_inj_elem src mvs); auto; congruence). congruence.
  - by discriminate (old_block_unique _ _ _ _ _ _ x (live_block s i k e He)
      (hole_block h' (run_holes_in r' h' Hh2))).
  - by discriminate (old_block_unique _ _ _ _ _ _ x (live_block s i k' e' He')
      (hole_block h (run_holes_in r h Hh))).
  - assert (E : Hole (h_units h) (h_offset h) = Hole (h_units h') (h_offset h')).
    { eapply (old_block_unique _ _ _ _ _ _ x); eauto using hole_block, run_holes_in. }
    assert (h = h') as <- by (apply hole_pair_inj; unfold hole_pair; congruence).
    assert (r = r') as <- by (by eapply run_unique).
    destruct Hb as [[? (mv & k & e & Hmv & Hd & He & Eo & ->)]|(? & Ht & ->)],
      Hb' as [[? (mv' & k' & e' & Hmv' & Hd' & He' & Eo' & ->)]|(? & Ht' & ->)]; try lia.
    + assert (mv = mv') as <- by (by eapply dst_unique).
      f_equal. apply (offsets_injective s i k k' e e'); auto. congruence.
    + congruence.
Qed.

Lemma remaining_hole r x :
  r ∈ rs → inside x (r_offset r) (r_units r) →
  ∃ h, h ∈ run_holes holes r ∧ inside x (h_offset h) (h_units h).
Proof using All.
  intros Hr Hx. destruct (run_lookup r Hr) as (j & r0 & _ & _ & (_ & _ & S3 & _) & _ & Hc).
  apply (chain_cover _ _ _ x Hc (run_holes_pos r)). unfold inside, run_end in *. lia.
Qed.

Lemma origin_start b o u : origin b o u → 0 ≤ o ∧ 0 < u.
Proof using All.
  intros [k e He Hn|k e mv He Hmv E|r h u' o' Hr Hh Ht|mv u' o' Hmv Ht].
  - by destruct (lay_bounds _ _ Hl _ _ _ (live_block s i k e He)) as (? & ? & _).
  - destruct (move_pos mv Hmv). split; [|done].
    destruct (dst_free mv (dst mv) Hmv) as (h & Hh & Hx); [unfold inside; lia|].
    destruct (lay_bounds _ _ Hl _ _ _ (hole_block h Hh)) as (? & _). unfold inside in Hx. lia.
  - destruct (lay_bounds _ _ Hl _ _ _ (hole_block h (run_holes_in r h Hh))) as (? & _).
    unfold trim in Ht. cbn [fst snd] in Ht. case_match; simplify_eq. lia.
  - destruct (move_pos mv Hmv). unfold trim_source, hole_end in Ht.
    case_match; simplify_eq. simpl. lia.
Qed.

(** Nothing is left in the suffix that is cut off. *)
Lemma origin_below b o u x : origin b o u → inside x o u → x < tail.
Proof using All.
  intros H Hx. destruct (decide (x < tail)) as [|Hge]; [done|]. exfalso.
  destruct (origin_point _ _ _ _ H Hx) as [(k & e & He & Hxe & Hb)|(r & h & Hr & Hh & Hxh & Hb)].
  - destruct Hb as [[-> Hn]|(mv & Hmv & _ & Ht & ->)];
      [|destruct (trim_source_inside _ _ _ _ Ht Hx); lia].
    pose proof (live_block s i k e He) as Hlive.
    destruct (lay_bounds _ _ Hl _ _ _ Hlive) as (_ & _ & Hcu).
    destruct (Hsuffix x) as [(r & Hr & Hxr)|(mv & Hmv & Hxm)]; [unfold inside in Hxe; lia|..].
    + destruct (remaining_hole r x Hr Hxr) as (h & Hh & Hxh).
      by discriminate (old_block_unique _ _ _ _ _ _ x Hlive (hole_block h (run_holes_in r h Hh))).
    + destruct (move_source mv Hmv) as (k' & e' & He' & Eo & Hb).
      assert (E : Live k = Live k') by (eapply old_block_unique; eauto).
      injection E as <-. simplify_eq. apply Hn. rewrite Eo. by apply list_elem_of_fmap_2.
  - destruct Hb as [[Hlt _]|(_ & Ht & _)]; [|destruct (trim_inside _ _ _ _ _ Ht Hx); lia].
    pose proof (hole_block h (run_holes_in r h Hh)) as Hhole.
    destruct (lay_bounds _ _ Hl _ _ _ Hhole) as (_ & _ & Hcu).
    destruct (Hsuffix x) as [(r' & Hr' & Hxr)|(mv & Hmv & Hxm)]; [unfold inside in Hxh; lia|..].
    + destruct (remaining_hole r' x Hr' Hxr) as (h' & Hh2 & Hxh').
      assert (E : Hole (h_units h) (h_offset h) = Hole (h_units h') (h_offset h')).
      { eapply (old_block_unique _ _ _ _ _ _ x); eauto using hole_block, run_holes_in. }
      assert (h = h') as <- by (apply hole_pair_inj; unfold hole_pair; congruence).
      assert (r = r') as <- by (by eapply run_unique). unfold inside in Hxr. lia.
    + destruct (move_source mv Hmv) as (k' & e' & _ & _ & Hb).
      by discriminate (old_block_unique _ _ _ _ _ _ x Hb Hhole).
Qed.

Theorem pass_layout : layout s' t' ∧ view s' t' = view s i.
Proof using All.
  split; [split|].
  - intros k e' He'. destruct (new_entry k e' He') as (e & He & -> & Eo). rewrite at_same, Hm'.
    destruct (new_image k e e' He Eo) as (? & -> & ? & _). split_and!; auto.
    by destruct (lay_image _ _ Hl _ _ He) as (_ & _ & ?).
  - intros b o u Hb%new_block. destruct (origin_start _ _ _ Hb). split_and!; auto.
    pose proof (origin_below _ _ _ (o + u - 1) Hb). unfold inside in *. lia.
  - intros b o u b' o' u' H%new_block H'%new_block Hne.
    destruct (origin_start _ _ _ H), (origin_start _ _ _ H').
    apply apart_points; auto. intros x Hx Hx'. by apply Hne, (origin_unique b o u b' o' u' x).
  - apply Hprog.
  - lia.
  - apply map_eq. intros k. unfold view. rewrite Hacc, !lookup_fmap.
    destruct (acc_of i !! k) as [e|] eqn:He; [|done]. simpl. f_equal. rewrite at_same, Hm'.
    by apply (new_image k e (move_entry mvs e)).
Qed.

End pass.
