(* ===== verification/DefragProps.v ===== *)
(** * Compaction

    One pass from a well-formed store, its errors included, and the loop of [compact]: it
    terminates, keeps every account, returns the space it gave back, and stops where no
    further move is possible. *)

From stdpp Require Import base list gmap numbers option sets sorting.
From S2P Require Import Prelude AccountMode Memory Account AccountFacts Storage Index Store.
From S2P Require Import StoreFacts StoreBatch StoreProps Volatile AccountsDb AccountsDbFacts Defrag DefragFacts.

Local Open Scope Z_scope.

#[export] Instance hole_le_total : Total hole_le.
Proof. intros a b. unfold hole_le. lia. Qed.
#[export] Instance hole_le_trans : Transitive hole_le.
Proof. intros a b c. unfold hole_le. lia. Qed.

#[export] Instance hole_new_inj : Inj (=) (=) hole_new.
Proof. intros [u o] [u' o'] E. unfold hole_new in E. by simplify_eq/=. Qed.

Lemma hole_new_pair h : hole_new (hole_pair h) = h.
Proof. by destruct h. Qed.

(** Disjoint spans sorted by their starts are in ascending order. *)
Lemma sorted_ascending e l :
  StronglySorted hole_le l → NoDup l → Forall (λ h, e ≤ h_offset h) l →
  Forall (λ h, 0 < h_units h) l →
  (∀ h h', h ∈ l → h' ∈ l → h ≠ h' →
     apart (h_offset h) (h_units h) (h_offset h') (h_units h')) →
  ascending e l.
Proof.
  revert e. induction l as [|h l IH]; intros e Hs Hn He Hp Ha; simpl; [done|].
  apply StronglySorted_inv in Hs as [Hs Hle]. apply list.NoDup_cons in Hn as [Hh Hn].
  apply Forall_cons in He as [He0 He]. apply Forall_cons in Hp as [Hp0 Hp].
  split_and!; auto. apply IH; auto.
  - rewrite Forall_forall in Hle, Hp |- *. intros x Hx.
    specialize (Hle x Hx). specialize (Hp x Hx). simpl in Hp.
    assert (Hne : h ≠ x) by (by intros ->).
    pose proof (Ha h x ltac:(left) ltac:(by right) Hne) as Hap.
    unfold apart, hole_le, hole_end in *. lia.
  - intros x y Hx Hy. apply Ha; by right.
Qed.

Section compaction.
Context {A P F : Type}.
Context `{HA : !Database A Pubkey OwnerAndOffset, !MapDatabase A Pubkey OwnerAndOffset}.
Context `{HP : !Database P KeyTail Offset, !DupDatabase P KeyTail Offset}.
Context `{HF : !Database F Z Offset, !DupDatabase F Z Offset}.
Context `{HE : !HeedEnv A P F, IO_ : !FileIo, HH : !Hasher}.

Abbreviation PersistedStore := (Store.PersistedStore A P F).
Abbreviation AccountsDB := (AccountsDb.AccountsDB A P F).

(** What planning establishes. *)
Record planned (s : PersistedStore) (d : Defrag) (srcs : list Offset) : Prop := {
  pl_holes h : h ∈ d_holes d ↔ hole_pair h ∈ free_of (index s);
  pl_nodup : NoDup (d_holes d);
  pl_runs : runs_ok (d_holes d) (runs (d_holes d));
  pl_srcs o : o ∈ srcs → ∃ k e, acc_of (index s) !! k = Some e ∧ offset e = o;
  pl_plan : plan_ok (mm (storage s)) (head (storage s)) (d_holes d) srcs (d_plan d);
  pl_moves : NoDup (src <$> p_moves (d_plan d));
  pl_tail : d_tail d = cursor (meta (storage s));
}.

Lemma account_offsets_spec s free l :
  layout (storage s) (index s) → account_offsets (A:=A) (P:=P) (F:=F) (index s) free = Ok l →
  NoDup l ∧ ∀ o, o ∈ l → ∃ k e, acc_of (index s) !! k = Some e ∧ offset e = o.
Proof using Type.
  intros Hl. unfold account_offsets. destruct free.
  - intros [= <-]. split; [constructor|]. by intros o ?%not_elem_of_nil.
  - destruct (db_iter (accounts (index s))) as [accs|] eqn:E; [|done]. intros [= <-].
    apply map_iter in E. fold (acc_of (index s)) in E. split.
    + apply NoDup_fmap_2_strong; [|rewrite E; apply NoDup_map_to_list].
      intros [k e] [k' e'] H H' Eo. simpl in Eo. rewrite E, elem_of_map_to_list in H, H'.
      assert (k = k') as <- by (eapply offsets_injective; eauto). congruence.
    + intros o ([k e] & -> & H)%list_elem_of_fmap. rewrite E, elem_of_map_to_list in H.
      by exists k, e.
Qed.

Lemma defrag_new_spec s d : store_ok s → defrag_new s = Ok d → ∃ srcs, planned s d srcs.
Proof using Type.
  intros Hl. unfold defrag_new. intros E. inv_ok. subst d.
  apply dup_iter in Hok0. fold (free_of (index s)) in Hok0.
  destruct (account_offsets_spec _ _ _ Hl Hok1) as [Hn Hs].
  set (holes := merge_sort hole_le (hole_new <$> val0)).
  assert (Hp : holes ≡ₚ hole_new <$> elements (free_of (index s)))
    by (unfold holes; by rewrite merge_sort_Permutation, Hok0).
  assert (Hholes : ∀ h, h ∈ holes ↔ hole_pair h ∈ free_of (index s)).
  { intros h. rewrite Hp, list_elem_of_fmap. setoid_rewrite elem_of_elements. split.
    - by intros ([u o] & -> & ?).
    - intros Hh. exists (hole_pair h). by rewrite hole_new_pair. }
  assert (Hnd : NoDup holes) by (rewrite Hp; apply NoDup_fmap_2, NoDup_elements; apply _).
  assert (Hruns : runs_ok holes (runs holes)).
  { apply (runs_spec 0), sorted_ascending; auto.
    - apply StronglySorted_merge_sort; apply _.
    - apply Forall_forall. intros h Hh%Hholes.
      by destruct (lay_bounds _ _ Hl (Hole (h_units h) (h_offset h)) (h_offset h) (h_units h)).
    - apply Forall_forall. intros h Hh. by eapply hole_pos.
    - intros h h' Hh Hh'. by eapply (holes_apart (storage s)). }
  exists (merge_sort desc_le val1).
  assert (Hsrt : ∀ o, o ∈ merge_sort desc_le val1 ↔ o ∈ val1)
    by (intros o; by rewrite merge_sort_Permutation).
  destruct (plan_spec (mm (storage s)) (head (storage s)) holes (merge_sort desc_le val1) Hruns)
    with (l := merge_sort desc_le val1) as [P1 P2]; auto.
  - intros o (k & e & He & <-)%Hsrt%Hs.
    by destruct (lay_bounds _ _ Hl _ _ _ (live_block _ _ k e He)) as (_ & ? & _).
  - by rewrite merge_sort_Permutation.
  - split; auto. intros o Ho%Hsrt. by apply Hs.
Qed.

(** ** One pass *)

(** Decreases with every pass that changes something. *)
Definition offset_sum (l : list (Pubkey * OwnerAndOffset)) : Z :=
  foldr (λ x n, offset x.2 + n) 0 l.
Definition measure (s : PersistedStore) : Z :=
  cursor (meta (storage s)) + offset_sum (map_to_list (acc_of (index s))).

Lemma offset_sum_le (f : OwnerAndOffset → OwnerAndOffset) l :
  (∀ x, x ∈ l → offset (f x.2) ≤ offset x.2) →
  offset_sum (prod_map id f <$> l) ≤ offset_sum l ∧
  ((∃ x, x ∈ l ∧ offset (f x.2) < offset x.2) →
   offset_sum (prod_map id f <$> l) < offset_sum l).
Proof using Type.
  assert (Hc : ∀ k x l, offset_sum (prod_map id f <$> (k, x) :: l) =
    offset (f x) + offset_sum (prod_map id f <$> l)) by done.
  induction l as [|[k x] l IH]; intros H; [|rewrite Hc; cbn [offset_sum foldr snd]].
  - split; [done|]. by intros (x & ?%not_elem_of_nil & _).
  - pose proof (H (k, x) ltac:(left)) as Hx. simpl in Hx. fold (offset_sum l). destruct IH as [I1 I2]; [intros; apply H; by right|].
    split; [lia|]. intros (y & [->|Hy]%elem_of_cons & Hlt); simpl in *; [lia|].
    specialize (I2 ltac:(by exists y)). lia.
Qed.

Lemma measure_nonneg s : store_ok s → 0 ≤ measure s.
Proof using Type.
  intros Hl. unfold measure. pose proof (lay_cursor _ _ Hl).
  assert (0 ≤ offset_sum (map_to_list (acc_of (index s)))); [|lia].
  assert (Hpos : ∀ x, x ∈ map_to_list (acc_of (index s)) → 0 ≤ offset x.2).
  { intros [k e] He%elem_of_map_to_list.
    by destruct (lay_bounds _ _ Hl _ _ _ (live_block _ _ k e He)). }
  induction (map_to_list _) as [|x l IH]; simpl; [done|].
  pose proof (Hpos x ltac:(left)). specialize (IH ltac:(intros; apply Hpos; by right)). lia.
Qed.

Section one_pass.
Context (s : PersistedStore) (d : Defrag) (srcs : list Offset).
Hypothesis Hl : store_ok s.
Hypothesis Hd : planned s d srcs.

Let mvs := p_moves (d_plan d).

Lemma run_start r : r ∈ p_runs (d_plan d) → 0 ≤ r_offset r ∧ 0 ≤ r_units r.
Proof using Hl Hd.
  intros (j & Hj)%list_elem_of_lookup.
  destruct (Forall2_lookup_r _ _ _ _ _ (po_runs _ _ _ _ _ (pl_plan _ _ _ Hd)) Hj)
    as (r0 & Hr0 & _ & _ & Hle & Hu).
  pose proof (ro_chain _ _ (pl_runs _ _ _ Hd)) as Hc. rewrite Forall_lookup in Hc.
  pose proof (ro_positive _ _ (pl_runs _ _ _ Hd)) as Hp. rewrite Forall_lookup in Hp.
  specialize (Hc _ _ Hr0). specialize (Hp _ _ Hr0). simpl in Hp.
  pose proof (run_holes_pos _ _ _ _ _ Hl (pl_holes _ _ _ Hd) (pl_nodup _ _ _ Hd) (pl_runs _ _ _ Hd)
    (pl_srcs _ _ _ Hd) (pl_plan _ _ _ Hd) (pl_moves _ _ _ Hd) r0) as Hrp.
  destruct (chain_cover _ _ _ (r_offset r0) Hc Hrp) as (h & Hh & Hx); [unfold run_end; lia|].
  destruct (chain_bounds _ _ _ h Hc Hrp Hh) as [Hb _].
  apply run_holes_in, (pl_holes _ _ _ Hd) in Hh.
  destruct (lay_bounds _ _ Hl (Hole (h_units h) (h_offset h)) (h_offset h) (h_units h)) as (? & _);
    [done|]. unfold inside in Hx. lia.
Qed.

Lemma plan_tail_spec :
  0 ≤ plan_tail d ≤ cursor (meta (storage s)) ∧
  ∀ x, plan_tail d ≤ x < cursor (meta (storage s)) →
    (∃ r, r ∈ p_runs (d_plan d) ∧ inside x (r_offset r) (r_units r)) ∨
    (∃ mv, mv ∈ mvs ∧ inside x (src mv) (m_units mv)).
Proof using Hl Hd.
  rewrite <- (pl_tail _ _ _ Hd).
  destruct (compacted_tail_spec (S (length (p_runs (d_plan d)) + length mvs))
    (rev (p_runs (d_plan d))) mvs (d_tail d)) as [H1 H2].
  - apply Forall_forall. intros r Hr. apply run_start.
    rewrite list_elem_of_In in Hr |- *. by apply in_rev.
  - apply Forall_forall. intros mv Hmv. destruct Hd as [D1 D2 D3 D4 D5 D6 _].
    destruct (move_pos _ _ _ _ _ Hl D1 D2 D3 D4 D5 D6 mv Hmv). done.
  - rewrite (pl_tail _ _ _ Hd). apply (lay_cursor _ _ Hl).
  - split; [exact H1|]. intros x Hx. destruct (H2 x Hx) as [(r & Hr & Hi)|?]; [left|by right].
    exists r. split; [|done]. rewrite list_elem_of_In in Hr |- *. by apply in_rev.
Qed.

(** After the copies nothing that was stored has changed. *)
Lemma copied_ok s1 :
  mm s1 = copy_moves (storage s) mvs → head s1 = head (storage s) →
  cursor (meta s1) = cursor (meta (storage s)) →
  layout s1 (index s) ∧ view s1 (index s) = store_view s.
Proof using Hl Hd.
  intros H1 H2 H3. destruct Hd as [D1 D2 D3 D4 D5 D6 _].
  apply (copied_layout _ _ _ _ _ Hl D1 D2 D3 D4 D5 D6); auto. lia.
Qed.

Definition rewritten (t : Index A P F) : Prop :=
  acc_of t = move_entry mvs <$> acc_of (index s) ∧ programs_ok t ∧
  ∀ x, x ∈ free_of t ↔
    (∃ rh, rh ∈ with_run (d_holes d) (p_runs (d_plan d)) ∧ trim (plan_tail d) rh = Some x) ∨
    (∃ mv, mv ∈ mvs ∧ trim_source (plan_tail d) mv = Some x).

Lemma tables_rewritten s1 t1 t2 :
  mm s1 = copy_moves (storage s) mvs → head s1 = head (storage s) →
  cursor (meta s1) = cursor (meta (storage s)) →
  relocate_moves s1 (index s) mvs = Ok t1 → publish d (plan_tail d) t1 = Ok t2 → rewritten t2.
Proof using Hl Hd.
  intros H1 H2 H3 Hr Hp. destruct (copied_ok s1 H1 H2 H3) as [Hl1 _].
  pose proof Hd as [D1 D2 D3 D4 D5 D6 _].
  eapply (relocate_moves_spec (storage s)) in Hr as (R1 & R2 & R3); auto.
  - eapply (publish_spec (storage s)) in Hp as ([P1 P2] & P3); eauto.
    + split_and!; [congruence| |exact P3]. intros tg o. rewrite P1, P2. apply R3.
    + rewrite (shrunk_concat _ _ _ (po_runs _ _ _ _ _ D5)). apply (ro_concat _ _ D3).
  - intros mv Hmv. destruct (move_source _ _ _ _ _ Hl D1 D2 D3 D4 D5 D6 mv Hmv)
      as (k & e & He & Eo & _). by exists k, e.
  - intros mv k e Hmv He E.
    destruct (move_pos _ _ _ _ _ Hl D1 D2 D3 D4 D5 D6 mv Hmv) as [Hu _].
    pose proof (live_dst_apart _ _ _ _ _ Hl D1 D2 D3 D4 D5 D6 k e mv He Hmv) as Ha.
    destruct (lay_bounds _ _ Hl _ _ _ (live_block _ _ k e He)) as (_ & ? & _).
    unfold apart in Ha. lia.
Qed.

Lemma rewritten_ok s1 t :
  rewritten t → mm s1 = copy_moves (storage s) mvs → head s1 = head (storage s) →
  plan_tail d ≤ cursor (meta s1) → layout s1 t ∧ view s1 t = store_view s.
Proof using Hl Hd.
  intros (R1 & R2 & R3) H1 H2 H3. destruct plan_tail_spec as [T1 T2].
  pose proof Hd as [D1 D2 D3 D4 D5 D6 _].
  by apply (pass_layout _ _ _ _ _ Hl D1 D2 D3 D4 D5 D6 s1 t (plan_tail d)).
Qed.

Lemma rewritten_measure t :
  rewritten t →
  offset_sum (map_to_list (acc_of t)) ≤ offset_sum (map_to_list (acc_of (index s))) ∧
  (mvs ≠ [] →
   offset_sum (map_to_list (acc_of t)) < offset_sum (map_to_list (acc_of (index s)))).
Proof using Hl Hd.
  intros (-> & _). rewrite map_to_list_fmap. pose proof Hd as [D1 D2 D3 D4 D5 D6 _].
  assert (Hm : ∀ mv, mv ∈ mvs → dst mv < src mv).
  { intros mv Hmv. destruct (move_pos _ _ _ _ _ Hl D1 D2 D3 D4 D5 D6 mv Hmv) as [Hu _].
    pose proof (po_moves _ _ _ _ _ D5) as Hf. rewrite Forall_forall in Hf.
    destruct (Hf mv Hmv) as [(_ & _ & ?) _]. lia. }
  destruct (offset_sum_le (move_entry mvs) (map_to_list (acc_of (index s)))) as [S1 S2].
  - intros [k e] _. simpl. destruct (relocated_cases mvs (offset e)) as [(mv & Hmv & <- & ->)|[_ ->]];
      [|done]. specialize (Hm mv Hmv). lia.
  - split; [done|]. intros Hne. apply S2. destruct mvs as [|mv l] eqn:Emvs; [done|].
    rewrite <- Emvs in *. assert (Hmv : mv ∈ mvs) by (rewrite Emvs; left).
    destruct (move_source _ _ _ _ _ Hl D1 D2 D3 D4 D5 D6 mv Hmv) as (k & e & He & Eo & _).
    exists (k, e). split; [by apply elem_of_map_to_list|]. simpl.
    destruct (relocated_cases mvs (offset e)) as [(mv' & Hmv' & <- & ->)|[Hn _]]; [by apply Hm|].
    destruct Hn. rewrite Eo. by apply list_elem_of_fmap_2.
Qed.

Lemma shrink_spec s1 n s2 r :
  shrink s1 n = (s2, r) →
  mm s2 = mm s1 ∧ head s2 = head s1 ∧
  cursor (meta s2) = match r with Ok _ => n | Err _ => cursor (meta s1) end.
Proof using Type.
  unfold shrink. pose proof (resize_fields s1 (bytes n) Z.leb) as (E1 & E2 & E3).
  destruct (resize s1 (bytes n) Z.leb) as [s3 [u|e]]; simpl in *; intros [= <- <-]; [|done].
  by destruct s3 as [? ? [] ?].
Qed.

(** What a pass leaves, whether it succeeds or not. *)
Definition pass_post (s' : PersistedStore) (r : result ErrorCode Defragged) : Prop :=
  store_ok s' ∧ store_view s' = store_view s ∧
  match r with
  | Ok o => reclaimed o = cursor (meta (storage s)) - cursor (meta (storage s')) ∧
            if changed o then measure s' < measure s
            else s' = s ∧ o = {| moved := 0; reclaimed := 0 |}
  | Err _ => True
  end.

Lemma execute_spec s' r : execute s d = (s', r) → pass_post s' r.
Proof using Hl Hd.
  unfold execute. fold mvs. set (o := {| moved := _; reclaimed := _ |}).
  destruct plan_tail_spec as [[T0 T1] _]. pose proof (pl_tail _ _ _ Hd) as Et.
  destruct (changed o) eqn:Ec; cbn [negb].
  2: { intros [= <- <-]. unfold changed in Ec. apply orb_false_iff in Ec as [E1 E2].
       unfold o, zlen in *. simpl in *. split_and!; auto; simpl; [lia|].
       unfold changed. simpl. rewrite E1, E2. simpl. split; [done|]. f_equal; lia. }
  set (m := with_mem (storage s) (copy_moves (storage s) mvs)).
  assert (Hfail : ∀ e, pass_post {| storage := m; index := index s |} (Err e)).
  { intros e. destruct (copied_ok m) as [? ?]; auto. by split_and!. }
  cbn [index].
  destruct (env_write_txn (index s)) as [_t|]; simpl; [|intros [= <- <-]; apply Hfail].
  destruct (relocate_moves m (index s) mvs) as [t1|] eqn:Er; simpl; [|intros [= <- <-]; apply Hfail].
  destruct (publish d (plan_tail d) t1) as [t2|] eqn:Ep; simpl; [|intros [= <- <-]; apply Hfail].
  destruct (env_commit t2) as [_c|]; simpl; [|intros [= <- <-]; apply Hfail].
  pose proof (tables_rewritten m t1 t2 eq_refl eq_refl eq_refl Er Ep) as Hrw.
  destruct (rewritten_measure t2 Hrw) as [M1 M2].
  destruct (count_fields m (SCompact (zlen mvs))) as (C1 & C2 & C3).
  set (mc := count m _) in *.
  destruct (Z.ltb_spec 0 (d_tail d - plan_tail d)) as [Hlt|Hge].
  - destruct (shrink mc (plan_tail d)) as [m3 [[]|e]] eqn:Es; intros [= <- <-];
      apply shrink_spec in Es as (S1 & S2 & S3); rewrite C1 in S1; rewrite C2 in S2.
    + destruct (rewritten_ok m3 t2) as [L V]; auto; [lia|]. split_and!; auto; simpl; [lia|].
      rewrite Ec. unfold measure. simpl. lia.
    + rewrite C3 in S3. destruct (rewritten_ok m3 t2) as [L V]; auto; [simpl in *; lia|].
      by split_and!.
  - intros [= <- <-]. destruct (rewritten_ok mc t2) as [L V]; auto; [rewrite C3; simpl; lia|].
    change (cursor (meta m)) with (cursor (meta (storage s))) in C3.
    split_and!; auto; cbn [storage index]; [rewrite C3; simpl; lia|].
    rewrite Ec. unfold measure. cbn [storage index]. rewrite C3.
    assert (Hne : mvs ≠ []); [|specialize (M2 Hne); lia].
    intros E. unfold changed, o in Ec. simpl in Ec.
    rewrite E in Ec. change (zlen []) with 0 in Ec. simpl in Ec. lia.
Qed.

End one_pass.

Lemma defragment_spec s s' r : store_ok s → defragment s = (s', r) → pass_post s s' r.
Proof using Type.
  intros Hl. unfold defragment. destruct (defrag_new s) as [d|e] eqn:E.
  - destruct (defrag_new_spec s d Hl E) as (srcs & Hd). by eapply execute_spec.
  - intros [= <- <-]. by split_and!.
Qed.

(** ** The loop *)

(** Nothing can be moved and nothing cut off. *)
Definition compacted (s : PersistedStore) : Prop :=
  defragment s = (s, Ok {| moved := 0; reclaimed := 0 |}).

Lemma compact_passes_spec fuel s n c :
  store_ok s → measure s < Z.of_nat fuel →
  ∃ s' r, compact_passes fuel s n c = Some (s', r) ∧ store_ok s' ∧ store_view s' = store_view s ∧
    match r with
    | Ok (n', _) => n' = n + (cursor (meta (storage s)) - cursor (meta (storage s'))) ∧ compacted s'
    | Err _ => True
    end.
Proof using Type.
  revert s n c. induction fuel as [|fuel IH]; intros s n c Hl Hm;
    [pose proof (measure_nonneg s Hl); lia|].
  simpl. destruct (defragment s) as [s1 [o|e]] eqn:E.
  - pose proof (defragment_spec _ _ _ Hl E) as (H1 & H2 & H3 & H4).
    destruct (changed o) eqn:Ec; cbn [negb].
    + destruct (IH s1 (n + reclaimed o) (c || true) H1 ltac:(lia)) as (s' & r & -> & I1 & I2 & I3).
      exists s', r. split_and!; auto; [congruence|].
      destruct r as [[n' c']|]; [|done]. split; [lia|tauto].
    + destruct H4 as [-> ->]. eexists s, _. split_and!; auto. simpl. split; [simpl in H3; lia|done].
  - pose proof (defragment_spec _ _ _ Hl E) as (H1 & H2 & _). by eexists s1, _.
Qed.

Lemma flush_same s b s' r : store_flush s b = (s', r) → same_state s s'.
Proof using Type.
  unfold store_flush. destruct b; [|by intros [= <- <-]].
  destruct (_ ≫= _); intros [= <- <-]; unfold same_state; simpl; [|done].
  by destruct (meta (storage s)).
Qed.

Lemma db_replaced (db : AccountsDB) s :
  store_ok s → store_view s = store_view (persisted db) → db_ok db →
  db_ok (with_persisted db s) ∧ db_view (with_persisted db s) = db_view db.
Proof using Type.
  intros Hs Hv [H1 H2 H3 H4 H5]. split; [|unfold db_view; simpl; by rewrite Hv].
  split; simpl; rewrite ?Hv; auto.
Qed.

(** C12. Compaction terminates and loses nothing: with more passes than the units and offsets
    in use, the loop ends; the database then holds the same accounts under the same keys,
    also when a pass or the final flush failed half way; and on success the file is shorter
    by exactly the units returned and no account can be moved any more. *)
Theorem compact_keeps_accounts db fuel :
  db_ok db → measure (persisted db) < Z.of_nat fuel →
  ∃ db' r, compact fuel db = Some (db', r) ∧ db_ok db' ∧ db_view db' = db_view db ∧
    match r with
    | Ok n => n = cursor (meta (storage (persisted db))) - cursor (meta (storage (persisted db'))) ∧
              ∃ s, same_state s (persisted db') ∧ compacted s
    | Err _ => True
    end.
Proof using Type.
  intros Hdb Hf. unfold compact.
  destruct (compact_passes_spec fuel (persisted db) 0 false (ok_persisted _ Hdb) Hf)
    as (s & r & -> & H1 & H2 & H3).
  destruct (db_replaced db s H1 H2 Hdb) as [D1 D2].
  destruct r as [[n c]|e]; [|by eexists _, _]. destruct H3 as [-> H3].
  destruct c; [|eexists _, _; split_and!; auto; simpl; split; [lia|by exists s]].
  unfold db_flush. cbn [persisted with_persisted]. destruct (store_flush s true) as [s' r] eqn:Ef.
  pose proof (flush_same _ _ _ _ Ef) as Hst.
  destruct (db_same_state (with_persisted db s) s' Hst D1) as [D3 D4]. simpl in D3, D4.
  destruct r as [[]|e]; simpl; eexists _, _; (split_and!; [done|done|congruence|]); [|done].
  pose proof Hst as (_ & _ & E & _). split; [simpl; rewrite E; lia|]. by exists s.
Qed.

End compaction.

(** ** Witness: a hole in front of an account *)

Definition closed_account : OwnedAccount :=
  {| o_core := {| lamports := 0; owner := replicate 32 7; slot := 3; commit_seq := 0;
                  mode := Closed; flags := 0; padding := 0 |};
     o_data := [0; 0; 0; 0; 0] |}.

#[local] Existing Instance good_io.
#[local] Instance good_env : HeedEnv AT PT FT := env_with (Ok tt).
#[local] Instance some_hash : Hasher := {| xxhash3_64 := foldr Z.add 0 |}.

Definition both_store : Store.PersistedStore AT PT FT := (store_upsert one_store new_batch).1.
Definition close_batch : list AccountEntry := [(key_a, from_owned closed_account)].
Definition holed_store : Store.PersistedStore AT PT FT := (store_upsert both_store close_batch).1.
Definition holed_db : AccountsDb.AccountsDB AT PT FT :=
  {| persisted := holed_store; volatile := no_volatile |}.

Lemma owned_batch_ok (s : Store.PersistedStore AT PT FT) k o :
  core_ok (o_core o) → zlen (o_data o) = 5 → length k = 32%nat →
  batch_ok s [(k, from_owned o)].
Proof. intros. split; [apply NoDup_singleton|]. by apply Forall_singleton, owned_entry_ok. Qed.

Lemma holed_store_ok : store_ok holed_store.
Proof.
  apply (upsert_ok both_store close_batch); [|apply owned_batch_ok; [|done|done]|].
  - apply (upsert_ok one_store new_batch);
      [apply one_store_ok|apply owned_batch_ok; [apply ex_core_ok|done|done]|].
    apply (by_result (store_upsert one_store new_batch)). vm_compute. reflexivity.
  - unfold core_ok, fits. simpl. split_and!; lia || done.
  - apply (by_result (store_upsert both_store close_batch)). vm_compute. reflexivity.
Qed.

Lemma holed_db_ok : db_ok holed_db.
Proof.
  assert (Hv : store_view holed_store = {[ key_b := other_account ]})
    by (vm_compute; reflexivity).
  split.
  - exact holed_store_ok.
  - exact synced_empty.
  - intros k _. exact (lookup_empty k).
  - intros k acc. change (persisted holed_db) with holed_store. rewrite Hv.
    by intros [_ <-]%lookup_singleton_Some.
  - intros k acc H. destruct (lookup_empty_Some k acc H).
Qed.

Lemma compact_keeps_accounts_witness :
  ∃ db', compact 100 holed_db = Some (db', Ok 23) ∧ db_ok db' ∧ db_view db' = db_view holed_db.
Proof.
  assert (Hm : measure (persisted holed_db) = 69) by (vm_compute; reflexivity).
  destruct (compact_keeps_accounts holed_db 100 holed_db_ok ltac:(rewrite Hm; lia))
    as (db' & r & E & H1 & H2 & _).
  assert (Er : snd <$> compact 100 holed_db = Some (Ok 23)) by (vm_compute; reflexivity).
  rewrite E in Er. simpl in Er. injection Er as ->. exists db'. split; [exact E|]. by split.
Defined.
