(* ===== verification/TxBytes.v ===== *)
(** * Bounds-checked reads ([solana/transaction-view/src/bytes.rs], [result.rs])

    The parser of serialized transactions moves a [&mut usize] offset through a byte slice:
    a parser is a function from an offset to a value and the next offset. The code mixes
    checked reads, which return an error, with unchecked reads that are undefined behaviour
    outside the slice, and with slice indexing that panics; [Undefined] is the outcome of the
    last two, so that their absence can be proved. *)

From stdpp Require Import base list numbers option.
From S2P Require Import Prelude.

Local Open Scope Z_scope.

Inductive TransactionViewError := ParseError | SanitizeError | AddressLookupMismatch.

#[export] Instance TransactionViewError_eq_dec : EqDecision TransactionViewError.
Proof. solve_decision. Defined.

Inductive Fault := Reject (e : TransactionViewError) | Undefined.

#[export] Instance Fault_eq_dec : EqDecision Fault.
Proof. solve_decision. Defined.

(** A function that takes [offset: &mut usize] and returns a [Result]. *)
Definition parser (A : Type) : Type := Z → result Fault (A * Z).

#[export] Instance parser_ret : MRet parser := λ _ a off, Ok (a, off).
#[export] Instance parser_bind : MBind parser :=
  λ _ _ k p off, '(a, off) ← p off; k a off.

(** A computation that does not move the offset, and access to the offset. *)
Definition pure_ {A} (r : result Fault A) : parser A := λ off, a ← r; Ok (a, off).
Definition get_offset : parser Z := λ off, Ok (off, off).
Definition set_offset (offset : Z) : parser unit := λ _, Ok (tt, offset).
Definition reject {A} (e : TransactionViewError) : parser A := λ _, Err (Reject e).

(** [&bytes[start..start + len]] on checked bounds. *)
Definition slice (bytes : list Z) (start len : Z) : list Z :=
  take (Z.to_nat len) (drop (Z.to_nat start) bytes).

Section bytes.
Context (bytes : list Z).

Definition try_u32_offset (offset : Z) : result Fault Z :=
  if offset <? 2 ^ 32 then Ok offset else Err (Reject ParseError).

Definition check_remaining (offset num_bytes : Z) : result Fault unit :=
  end_ ← ok_or (checked_add 64 offset num_bytes) (Reject ParseError);
  if end_ <=? zlen bytes then Ok tt else Err (Reject ParseError).

Definition read_byte : parser Z := λ offset,
  value ← ok_or (bytes !! Z.to_nat offset) (Reject ParseError);
  offset ← ok_or (checked_add 64 offset 1) (Reject ParseError);
  Ok (value, offset).

Definition unchecked_read_byte : parser Z := λ offset,
  match bytes !! Z.to_nat offset with
  | Some value => Ok (value, offset + 1)
  | None => Err Undefined
  end.

(** The loop of [read_compressed_u16] over the remaining values of [i]. *)
Fixpoint compressed_u16_loop (offset : Z) (steps : list Z) (value shift : Z)
    : result Fault (Z * Z) :=
  match steps with
  | [] =>
      offset ← ok_or (checked_add 64 offset 3) (Reject ParseError);
      Ok (value, offset)
  | i :: steps =>
      index ← ok_or (checked_add 64 offset i) (Reject ParseError);
      byte ← ok_or (bytes !! Z.to_nat index) (Reject ParseError);
      if ((0 <? i) && (byte =? 0)) || ((i =? 2) && (3 <? byte)) then Err (Reject ParseError)
      else
        let value := Z.lor value (wrap 16 (Z.shiftl (Z.land byte 127) shift)) in
        if Z.land byte 128 =? 0 then
          offset ← ok_or (checked_add 64 index 1) (Reject ParseError);
          Ok (value, offset)
        else compressed_u16_loop offset steps value (shift + 7)
  end.

Definition read_compressed_u16 : parser Z := λ offset,
  compressed_u16_loop offset [0; 1; 2] 0 0.

(** Arrays of [num_elements] elements of [size] bytes. *)
Definition advance_offset_for_array (size num_elements : Z) : parser unit := λ offset,
  array_len_bytes ← ok_or (checked_mul 64 num_elements size) (Reject ParseError);
  _ ← check_remaining offset array_len_bytes;
  offset ← ok_or (checked_add 64 offset array_len_bytes) (Reject ParseError);
  Ok (tt, offset).

Definition advance_offset_for_type (size : Z) : parser unit := λ offset,
  _ ← check_remaining offset size;
  offset ← ok_or (checked_add 64 offset size) (Reject ParseError);
  Ok (tt, offset).

(** The references returned are the bytes they cover. *)
Definition read_slice_data (size num_elements : Z) : parser (list Z) :=
  start ← get_offset;
  _ ← advance_offset_for_array size num_elements;
  mret (slice bytes start (num_elements * size)).

Definition read_type (size : Z) : parser (list Z) :=
  start ← get_offset;
  _ ← advance_offset_for_type size;
  mret (slice bytes start size).

Definition unchecked_read_slice_data (size num_elements : Z) : parser (list Z) := λ offset,
  let array_len_bytes := num_elements * size in
  if offset + array_len_bytes <=? zlen bytes
  then Ok (slice bytes offset array_len_bytes, offset + array_len_bytes)
  else Err Undefined.

Definition unchecked_copy_value (size offset : Z) : result Fault (list Z) :=
  if offset + size <=? zlen bytes then Ok (slice bytes offset size) else Err Undefined.

(** Indexing with a range, which panics out of bounds. *)
Definition index_range (start end_ : Z) : result Fault (list Z) :=
  if (start <=? end_) && (end_ <=? zlen bytes)
  then Ok (slice bytes start (end_ - start)) else Err Undefined.

End bytes.
