(* ===== verification/TxFrame.v ===== *)
(** * Transaction frames ([solana/transaction-view/src/*_frame.rs], [transaction_view.rs])

    Parsing a serialized transaction records where its parts are (a frame); accessors and
    iterators read the parts again through the frame, without checking. The four formats are
    legacy, v0, v1 and the private Magicblock version, which shares the v1 layout. *)

From stdpp Require Import base list numbers option.
From S2P Require Import Prelude Account TxBytes.

Local Open Scope Z_scope.

(** ** Constants

    [Signature], [Pubkey] and [Hash] are byte arrays; a packet has at most 1232 bytes. The
    version byte of v1 transactions, the default heap length and the address of the
    upgradeable loader belong to crates outside the repository. *)

Definition SIGNATURE_SIZE : Z := 64.
Definition PUBKEY_SIZE : Z := 32.
Definition HASH_SIZE : Z := 32.
Definition PACKET_DATA_SIZE : Z := 1232.
Definition MESSAGE_VERSION_PREFIX : Z := 128.

Class WireConstants := {
  V1_PREFIX : Z;
  HEAP_LENGTH : Z;
  BPF_LOADER_UPGRADEABLE : list Z;
  v1_prefix_msb : 128 ≤ V1_PREFIX < 255;
}.

Definition MAGICBLOCK_VERSION : Z := 127.
Definition MAGICBLOCK_PREFIX : Z := Z.lor MESSAGE_VERSION_PREFIX MAGICBLOCK_VERSION.

Definition MAX_SIGNATURES_PER_PACKET : Z := PACKET_DATA_SIZE / (SIGNATURE_SIZE + PUBKEY_SIZE).
Definition LEGACY_OR_V0_MAX_STATIC_ACCOUNTS_PER_PACKET : Z := PACKET_DATA_SIZE / PUBKEY_SIZE.
Definition MIN_SIZED_ATL : Z := PUBKEY_SIZE + 1 + 1 + 1.
Definition MIN_SIZED_PACKET_WITH_ATLS : Z :=
  1 + SIGNATURE_SIZE + 1 + 3 + 1 + PUBKEY_SIZE + HASH_SIZE + 1 + 1.
Definition MAX_ATLS_PER_PACKET : Z :=
  (PACKET_DATA_SIZE - MIN_SIZED_PACKET_WITH_ATLS) / MIN_SIZED_ATL.

(** ** Data *)

Inductive TransactionVersion := Legacy | V0 | V1 | Magicblock.

#[export] Instance TransactionVersion_eq_dec : EqDecision TransactionVersion.
Proof. solve_decision. Defined.

Record SignatureFrame := { num_signatures_ : Z; sig_offset : Z }.

Record MessageHeaderFrame := {
  msg_offset : Z;
  version_ : TransactionVersion;
  num_required_signatures_ : Z;
  num_readonly_signed_accounts : Z;
  num_readonly_unsigned_accounts : Z;
}.

Record StaticAccountKeysFrame := { num_static_accounts : Z; keys_offset : Z }.

Record LegacyAndV0InstructionFrame := {
  num_accounts : Z;
  data_len_ : Z;
  num_accounts_len : Z;
  data_len_len : Z;
}.

Inductive InstructionsFrame :=
| ILegacyAndV0 (num_instructions offset : Z) (frames : list LegacyAndV0InstructionFrame)
| IV1 (num_instructions headers_offset payloads_offset : Z).

Record V1InstructionHeader := {
  h_program_id_index : Z;
  h_num_accounts : Z;
  h_data_len : Z;
}.

Record AddressTableLookupFrame := {
  num_address_table_lookups_ : Z;
  atl_offset : Z;
  total_writable : Z;
  total_readonly : Z;
}.

Record TransactionConfigFrame := {
  mask_offset : Z;
  mask_ : Z;
  values_offset : Z;
  num_values : Z;
}.

Record TransactionFrame := {
  signature : SignatureFrame;
  message_header : MessageHeaderFrame;
  static_keys : StaticAccountKeysFrame;
  recent_blockhash_offset : Z;
  instructions : InstructionsFrame;
  address_table_lookup : AddressTableLookupFrame;
  transaction_config_frame : TransactionConfigFrame;
  frame_data_len : Z;
}.

(** What the iterators yield. *)
Record SVMInstruction := {
  program_id_index : Z;
  ix_accounts : list Z;
  ix_data : list Z;
}.

Record SVMMessageAddressTableLookup := {
  account_key : list Z;
  writable_indexes : list Z;
  readonly_indexes : list Z;
}.

#[export] Instance SVMInstruction_eq_dec : EqDecision SVMInstruction.
Proof. solve_decision. Defined.
#[export] Instance SVMMessageAddressTableLookup_eq_dec : EqDecision SVMMessageAddressTableLookup.
Proof. solve_decision. Defined.

Section frames.
Context (bytes : list Z).

(** ** Parsing the parts *)

Definition signature_try_new : parser SignatureFrame :=
  num_signatures ← read_byte bytes;
  if (num_signatures =? 0) || (MAX_SIGNATURES_PER_PACKET <? num_signatures)
  then reject ParseError
  else
    offset ← get_offset;
    signature_offset ← pure_ (try_u32_offset offset);
    _ ← advance_offset_for_array bytes SIGNATURE_SIZE num_signatures;
    mret {| num_signatures_ := num_signatures; sig_offset := signature_offset |}.

Definition header_try_new_legacy_or_v0 : parser MessageHeaderFrame :=
  offset ← get_offset;
  message_offset ← pure_ (try_u32_offset offset);
  message_prefix ← read_byte bytes;
  '(version, num_required_signatures) ←
    (if negb (Z.land message_prefix MESSAGE_VERSION_PREFIX =? 0) then
       if Z.ldiff message_prefix MESSAGE_VERSION_PREFIX =? 0
       then n ← read_byte bytes; mret (V0, n)
       else reject ParseError
     else mret (Legacy, message_prefix));
  num_readonly_signed_accounts ← read_byte bytes;
  num_readonly_unsigned_accounts ← read_byte bytes;
  mret {| msg_offset := message_offset; version_ := version;
          num_required_signatures_ := num_required_signatures;
          num_readonly_signed_accounts := num_readonly_signed_accounts;
          num_readonly_unsigned_accounts := num_readonly_unsigned_accounts |}.

Definition keys_try_new : parser StaticAccountKeysFrame :=
  num_static_accounts ← read_byte bytes;
  if (num_static_accounts =? 0)
     || (LEGACY_OR_V0_MAX_STATIC_ACCOUNTS_PER_PACKET <? num_static_accounts)
  then reject ParseError
  else
    offset ← get_offset;
    static_accounts_offset ← pure_ (try_u32_offset offset);
    _ ← advance_offset_for_array bytes PUBKEY_SIZE num_static_accounts;
    mret {| num_static_accounts := num_static_accounts; keys_offset := static_accounts_offset |}.

(** [u8::try_from(offset.checked_sub(start)?)] *)
Definition encoded_len (start : Z) : parser Z :=
  offset ← get_offset;
  len ← pure_ (ok_or (checked_sub offset start) (Reject ParseError));
  if len <? 256 then mret len else reject ParseError.

(** One iteration of the loop over legacy instructions. *)
Definition instruction_try_new : parser LegacyAndV0InstructionFrame :=
  _program_id_index ← read_byte bytes;
  num_accounts_offset ← get_offset;
  num_accounts ← read_compressed_u16 bytes;
  num_accounts_len ← encoded_len num_accounts_offset;
  _ ← advance_offset_for_array bytes 1 num_accounts;
  data_len_offset ← get_offset;
  data_len ← read_compressed_u16 bytes;
  data_len_len ← encoded_len data_len_offset;
  _ ← advance_offset_for_array bytes 1 data_len;
  mret {| num_accounts := num_accounts; data_len_ := data_len;
          num_accounts_len := num_accounts_len; data_len_len := data_len_len |}.

(** [n] iterations that push their results. *)
Fixpoint repeat_parser {A} (n : nat) (p : parser A) : parser (list A) :=
  match n with
  | O => mret []
  | S n => x ← p; xs ← repeat_parser n p; mret (x :: xs)
  end.

Definition instructions_try_new_for_legacy_and_v0 : parser InstructionsFrame :=
  num_instructions ← read_compressed_u16 bytes;
  minimum_instructions_len ← pure_ (ok_or (checked_mul 64 3 num_instructions) (Reject ParseError));
  offset ← get_offset;
  _ ← pure_ (check_remaining bytes offset minimum_instructions_len);
  instructions_offset ← pure_ (try_u32_offset offset);
  frames ← repeat_parser (Z.to_nat num_instructions) instruction_try_new;
  mret (ILegacyAndV0 num_instructions instructions_offset frames).

Definition V1_HEADER_SIZE : Z := 4.

(** [#[repr(C)]]: two bytes, then a little-endian [u16]. *)
Definition read_v1_header : parser V1InstructionHeader := λ offset,
  b ← unchecked_copy_value bytes V1_HEADER_SIZE offset;
  Ok ({| h_program_id_index := nth 0 b 0; h_num_accounts := nth 1 b 0;
         h_data_len := le_num (drop 2 b) |}, offset + V1_HEADER_SIZE).

(** The loop that adds up the payload sizes. *)
Fixpoint total_payload (n : nat) (header_offset total_payload_len : Z) : result Fault Z :=
  match n with
  | O => Ok total_payload_len
  | S n =>
      '(header, header_offset) ← read_v1_header header_offset;
      payload_len ← ok_or (checked_add 64 (h_num_accounts header) (h_data_len header))
                          (Reject ParseError);
      total_payload_len ← ok_or (checked_add 64 total_payload_len payload_len) (Reject ParseError);
      total_payload n header_offset total_payload_len
  end.

Definition instructions_try_new_for_v1 (num_instructions : Z) : parser InstructionsFrame :=
  offset ← get_offset;
  headers_offset ← pure_ (try_u32_offset offset);
  headers_len ← pure_ (ok_or (checked_mul 64 V1_HEADER_SIZE num_instructions) (Reject ParseError));
  _ ← pure_ (check_remaining bytes offset headers_len);
  let header_offset := offset in
  offset ← pure_ (ok_or (checked_add 64 offset headers_len) (Reject ParseError));
  payloads_offset ← pure_ (try_u32_offset offset);
  total_payload_len ← pure_ (total_payload (Z.to_nat num_instructions) header_offset 0);
  _ ← pure_ (check_remaining bytes offset total_payload_len);
  offset ← pure_ (ok_or (checked_add 64 offset total_payload_len) (Reject ParseError));
  _ ← set_offset offset;
  mret (IV1 num_instructions headers_offset payloads_offset).

(** One iteration of the loop over lookup tables: the lengths it adds to the totals. *)
Definition lookup_try_new (totals : Z * Z) : parser (Z * Z) :=
  _ ← advance_offset_for_type bytes PUBKEY_SIZE;
  num_write_accounts ← read_compressed_u16 bytes;
  w ← pure_ (ok_or (checked_add 32 totals.1 num_write_accounts) (Reject ParseError));
  _ ← advance_offset_for_array bytes 1 num_write_accounts;
  num_read_accounts ← read_compressed_u16 bytes;
  r ← pure_ (ok_or (checked_add 32 totals.2 num_read_accounts) (Reject ParseError));
  _ ← advance_offset_for_array bytes 1 num_read_accounts;
  mret (w, r).

Fixpoint lookups_loop (n : nat) (totals : Z * Z) : parser (Z * Z) :=
  match n with
  | O => mret totals
  | S n => totals ← lookup_try_new totals; lookups_loop n totals
  end.

Definition try_u16 (x : Z) : result Fault Z :=
  if x <? 2 ^ 16 then Ok x else Err (Reject SanitizeError).

Definition lookups_try_new : parser AddressTableLookupFrame :=
  num_address_table_lookups ← read_byte bytes;
  if MAX_ATLS_PER_PACKET <? num_address_table_lookups then reject ParseError
  else
    min_len ← pure_ (ok_or (checked_mul 64 MIN_SIZED_ATL num_address_table_lookups)
                           (Reject ParseError));
    offset ← get_offset;
    _ ← pure_ (check_remaining bytes offset min_len);
    address_table_lookups_offset ← pure_ (try_u32_offset offset);
    totals ← lookups_loop (Z.to_nat num_address_table_lookups) (0, 0);
    w ← pure_ (try_u16 totals.1);
    r ← pure_ (try_u16 totals.2);
    mret {| num_address_table_lookups_ := num_address_table_lookups;
            atl_offset := address_table_lookups_offset;
            total_writable := w; total_readonly := r |}.

(** [AddressTableLookupFrame::default()], [TransactionConfigFrame::not_applicable()]. *)
Definition no_lookups : AddressTableLookupFrame :=
  {| num_address_table_lookups_ := 0; atl_offset := 0; total_writable := 0; total_readonly := 0 |}.
Definition not_applicable : TransactionConfigFrame :=
  {| mask_offset := 0; mask_ := 0; values_offset := 0; num_values := 0 |}.

Definition is_present (f : TransactionConfigFrame) : bool := negb (mask_offset f =? 0).

Definition has_bit (mask bit : Z) : bool :=
  (bit <? 32) && negb (Z.land (Z.shiftr mask bit) 1 =? 0).

Definition sanitize_mask (mask : Z) : result Fault unit :=
  if negb (Z.ldiff mask 31 =? 0) then Err (Reject SanitizeError)
  else if xorb (has_bit mask 0) (has_bit mask 1) then Err (Reject SanitizeError)
  else Ok tt.

Definition config_try_new (mask_offset mask : Z) : parser TransactionConfigFrame :=
  if mask_offset =? 0 then λ _, Err Undefined
  else
    _ ← pure_ (sanitize_mask mask);
    let num_values := count_ones 32 mask in
    mask_offset ← pure_ (try_u32_offset mask_offset);
    offset ← get_offset;
    values_offset ← pure_ (try_u32_offset offset);
    _ ← advance_offset_for_array bytes 4 num_values;
    mret {| mask_offset := mask_offset; mask_ := mask; values_offset := values_offset;
            num_values := num_values |}.

Definition word_index_for_bit (f : TransactionConfigFrame) (bit : Z) : option Z :=
  if negb (is_present f) || negb (has_bit (mask_ f) bit) then None
  else
    let mask_before_bit := wrapping_sub 32 (wrap 32 (Z.shiftl 1 bit)) 1 in
    Some (count_ones 32 (Z.land (mask_ f) mask_before_bit)).

Definition word_offset (f : TransactionConfigFrame) (bit : Z) : option Z :=
  word_index ← word_index_for_bit f bit;
  n ← checked_mul 64 word_index 4;
  checked_add 64 (values_offset f) n.

(** A configuration value of [size] bytes at [bit]. *)
Definition config_value (f : TransactionConfigFrame) (bit size : Z) : result Fault (option Z) :=
  match word_offset f bit with
  | None => Ok None
  | Some offset => b ← unchecked_copy_value bytes size offset; Ok (Some (le_num b))
  end.

Definition priority_fee_lamports f := config_value f 0 8.
Definition compute_unit_limit f := config_value f 2 4.
Definition loaded_accounts_data_size_limit f := config_value f 3 4.
Definition requested_heap_size f := config_value f 4 4.

(** ** Parsing a transaction *)

Definition parse_legacy_or_v0 : parser TransactionFrame :=
  signature ← signature_try_new;
  message_header ← header_try_new_legacy_or_v0;
  static_keys ← keys_try_new;
  offset ← get_offset;
  recent_blockhash_offset ← pure_ (try_u32_offset offset);
  _ ← advance_offset_for_type bytes HASH_SIZE;
  instructions ← instructions_try_new_for_legacy_and_v0;
  address_table_lookup ←
    (if bool_decide (version_ message_header = V0) then lookups_try_new else mret no_lookups);
  offset ← get_offset;
  if negb (offset =? zlen bytes) then reject ParseError
  else
    data_len ← pure_ (try_u32_offset offset);
    mret {| signature := signature; message_header := message_header;
            static_keys := static_keys; recent_blockhash_offset := recent_blockhash_offset;
            instructions := instructions; address_table_lookup := address_table_lookup;
            transaction_config_frame := not_applicable; frame_data_len := data_len |}.

Definition try_new_as_legacy_or_v0 : result Fault TransactionFrame := fst <$> parse_legacy_or_v0 0.

Definition FIXED_V1_PREFIX_LEN : Z := 1 + 3 + 4 + HASH_SIZE + 1 + 1.

Definition skip (n : Z) : parser unit := λ offset,
  offset ← ok_or (checked_add 64 offset n) (Reject ParseError); Ok (tt, offset).

Context `{!WireConstants}.

Definition parse_v1 : parser TransactionFrame :=
  offset ← get_offset;
  _ ← pure_ (check_remaining bytes offset FIXED_V1_PREFIX_LEN);
  message_offset ← pure_ (try_u32_offset offset);
  version ← unchecked_read_byte bytes;
  version ← (if version =? V1_PREFIX then mret V1
             else if version =? MAGICBLOCK_PREFIX then mret Magicblock
             else reject ParseError);
  num_required_signatures ← unchecked_read_byte bytes;
  num_readonly_signed_accounts ← unchecked_read_byte bytes;
  num_readonly_unsigned_accounts ← unchecked_read_byte bytes;
  transaction_config_mask_offset ← get_offset;
  mask ← pure_ (unchecked_copy_value bytes 4 transaction_config_mask_offset);
  let transaction_config_mask := le_num mask in
  _ ← skip 4;
  offset ← get_offset;
  recent_blockhash_offset ← pure_ (try_u32_offset offset);
  _ ← skip HASH_SIZE;
  num_instructions ← unchecked_read_byte bytes;
  num_addresses ← unchecked_read_byte bytes;
  offset ← get_offset;
  addresses_offset ← pure_ (try_u32_offset offset);
  _ ← advance_offset_for_array bytes PUBKEY_SIZE num_addresses;
  transaction_config_frame ←
    config_try_new transaction_config_mask_offset transaction_config_mask;
  instructions ← instructions_try_new_for_v1 num_instructions;
  offset ← get_offset;
  signatures_offset ← pure_ (try_u32_offset offset);
  _ ← advance_offset_for_array bytes SIGNATURE_SIZE num_required_signatures;
  offset ← get_offset;
  if negb (offset =? zlen bytes) then reject ParseError
  else
    data_len ← pure_ (try_u32_offset offset);
    mret
      {| signature := {| num_signatures_ := num_required_signatures;
                         sig_offset := signatures_offset |};
         message_header :=
           {| msg_offset := message_offset; version_ := version;
              num_required_signatures_ := num_required_signatures;
              num_readonly_signed_accounts := num_readonly_signed_accounts;
              num_readonly_unsigned_accounts := num_readonly_unsigned_accounts |};
         static_keys := {| num_static_accounts := num_addresses;
                           keys_offset := addresses_offset |};
         recent_blockhash_offset := recent_blockhash_offset;
         instructions := instructions;
         address_table_lookup := no_lookups;
         transaction_config_frame := transaction_config_frame;
         frame_data_len := data_len |}.

Definition try_new_as_v1 : result Fault TransactionFrame := fst <$> parse_v1 0.

Definition is_legacy_or_v0 : result Fault bool :=
  first_byte ← ok_or (hd_error bytes) (Reject ParseError);
  Ok (Z.land first_byte MESSAGE_VERSION_PREFIX =? 0).

Definition try_new : result Fault TransactionFrame :=
  _ ← try_u32_offset (zlen bytes);
  is_legacy_or_v0 ≫= λ legacy_or_v0 : bool,
  if legacy_or_v0 then try_new_as_legacy_or_v0 else try_new_as_v1.

End frames.
