(* ===== verification/TxView.v ===== *)
(** * Transaction views ([solana/transaction-view/src/transaction_view.rs], [sanitize.rs],
    [resolved_transaction_view.rs])

    Accessors and iterators over a parsed frame, the sanitization of a view, and the
    writability cache of a resolved view. *)

From stdpp Require Import base list gmap numbers option.
From S2P Require Import Prelude Account TxBytes TxFrame.

Local Open Scope Z_scope.

(** ** Constants of the callers *)

Definition MAX_INSTRUCTION_TRACE_LENGTH : Z := 64.
Definition MAX_ACCOUNTS_PER_INSTRUCTION : Z := 255.
Definition MAX_HEAP_FRAME_BYTES : Z := 256 * 1024.
Definition USE_STATIC_ACCOUNT_KEYS_SET_SIZE : Z := 32.
Definition MAGICBLOCK_INSTRUCTION_TRACE_LENGTH : Z := 255.
Definition MAX_STANDARD_TRANSACTION_SIZE : Z := umax 16.
Definition MAX_MAGICBLOCK_TRANSACTION_SIZE : Z := 16 * 1024 * 1024.
Definition MAX_MAGICBLOCK_ACCOUNT_LOCKS : Z := umax 8.

(** ** Views *)

Record TransactionView := { data : list Z; frame : TransactionFrame }.

(** A slice of byte arrays of [size] bytes. *)
Fixpoint chunks (size n : nat) (bs : list Z) : list (list Z) :=
  match n with
  | O => []
  | S n => take size bs :: chunks size n (drop size bs)
  end.

Section view.
Context (v : TransactionView).

Definition num_signatures : Z := num_signatures_ (signature (frame v)).
Definition version : TransactionVersion := version_ (message_header (frame v)).
Definition num_required_signatures : Z := num_required_signatures_ (message_header (frame v)).
Definition num_readonly_signed_static_accounts : Z :=
  num_readonly_signed_accounts (message_header (frame v)).
Definition num_readonly_unsigned_static_accounts : Z :=
  num_readonly_unsigned_accounts (message_header (frame v)).
Definition num_static_account_keys : Z := num_static_accounts (static_keys (frame v)).
Definition num_instructions : Z :=
  match instructions (frame v) with ILegacyAndV0 n _ _ => n | IV1 n _ _ => n end.
Definition num_address_table_lookups : Z :=
  num_address_table_lookups_ (address_table_lookup (frame v)).
Definition total_writable_lookup_accounts : Z := total_writable (address_table_lookup (frame v)).
Definition total_readonly_lookup_accounts : Z := total_readonly (address_table_lookup (frame v)).

Definition signatures : result Fault (list (list Z)) :=
  let start := sig_offset (signature (frame v)) in
  let end_ := start + num_signatures * SIGNATURE_SIZE in
  signature_bytes ← index_range (data v) start end_;
  Ok (chunks (Z.to_nat SIGNATURE_SIZE) (Z.to_nat num_signatures) signature_bytes).

Definition static_account_keys : result Fault (list Pubkey) :=
  let start := keys_offset (static_keys (frame v)) in
  let end_ := start + num_static_account_keys * PUBKEY_SIZE in
  account_bytes ← index_range (data v) start end_;
  Ok (chunks (Z.to_nat PUBKEY_SIZE) (Z.to_nat num_static_account_keys) account_bytes).

Definition recent_blockhash : result Fault (list Z) :=
  let start := recent_blockhash_offset (frame v) in
  index_range (data v) start (start + HASH_SIZE).

Definition message_data : result Fault (list Z) :=
  let end_ := match version with
              | V1 | Magicblock => sig_offset (signature (frame v))
              | Legacy | V0 => frame_data_len (frame v) end in
  index_range (data v) (msg_offset (message_header (frame v))) end_.

(** *** Iterators *)

Inductive InstructionsIterator :=
| ItLegacyAndV0 (offset num_instructions index : Z) (frames : list LegacyAndV0InstructionFrame)
| ItV1 (index num_instructions headers_offset payloads_offset : Z).

Definition instructions_iter : InstructionsIterator :=
  match instructions (frame v) with
  | ILegacyAndV0 n offset frames => ItLegacyAndV0 offset n 0 frames
  | IV1 n headers_offset payloads_offset => ItV1 0 n headers_offset payloads_offset
  end.

Definition for_legacy_and_v0 (f : LegacyAndV0InstructionFrame) : parser SVMInstruction :=
  program_id_index ← unchecked_read_byte (data v);
  offset ← get_offset;
  _ ← set_offset (offset + num_accounts_len f);
  accounts ← unchecked_read_slice_data (data v) 1 (num_accounts f);
  offset ← get_offset;
  _ ← set_offset (offset + data_len_len f);
  d ← unchecked_read_slice_data (data v) 1 (data_len_ f);
  mret {| program_id_index := program_id_index; ix_accounts := accounts; ix_data := d |}.

Definition for_v1 (program_id_index num_accounts data_len : Z) : parser SVMInstruction :=
  accounts ← unchecked_read_slice_data (data v) 1 num_accounts;
  d ← unchecked_read_slice_data (data v) 1 data_len;
  mret {| program_id_index := program_id_index; ix_accounts := accounts; ix_data := d |}.

Definition instructions_next (it : InstructionsIterator)
    : result Fault (option (SVMInstruction * InstructionsIterator)) :=
  match it with
  | ItLegacyAndV0 offset n index frames =>
      if n <=? index then Ok None
      else
        match frames !! Z.to_nat index with
        | None => Err Undefined
        | Some f =>
            '(ix, offset) ← for_legacy_and_v0 f offset;
            Ok (Some (ix, ItLegacyAndV0 offset n (wrapping_add 16 index 1) frames))
        end
  | ItV1 index n headers_offset payloads_offset =>
      if n <=? index then Ok None
      else
        '(header, headers_offset) ← read_v1_header (data v) headers_offset;
        '(ix, payloads_offset) ←
          for_v1 (h_program_id_index header) (h_num_accounts header) (h_data_len header)
            payloads_offset;
        Ok (Some (ix, ItV1 (wrapping_add 16 index 1) n headers_offset payloads_offset))
  end.

Record AddressTableLookupIterator := { it_offset : Z; it_num : Z; it_index : Z }.

Definition address_table_lookup_iter : AddressTableLookupIterator :=
  {| it_offset := atl_offset (address_table_lookup (frame v));
     it_num := num_address_table_lookups; it_index := 0 |}.

(** [Err] of a checked read ends the iteration: [.ok()?]. *)
Definition lookups_next (it : AddressTableLookupIterator)
    : result Fault (option (SVMMessageAddressTableLookup * AddressTableLookupIterator)) :=
  if it_index it <? it_num it then
    let read : parser SVMMessageAddressTableLookup :=
      account_key ← read_type (data v) PUBKEY_SIZE;
      num_write_accounts ← read_compressed_u16 (data v);
      writable_indexes ← read_slice_data (data v) 1 num_write_accounts;
      num_read_accounts ← read_compressed_u16 (data v);
      readonly_indexes ← read_slice_data (data v) 1 num_read_accounts;
      mret {| account_key := account_key; writable_indexes := writable_indexes;
              readonly_indexes := readonly_indexes |} in
    match read (it_offset it) with
    | Ok (l, offset) =>
        Ok (Some (l, {| it_offset := offset; it_num := it_num it;
                        it_index := wrapping_add 8 (it_index it) 1 |}))
    | Err (Reject _) => Ok None
    | Err Undefined => Err Undefined
    end
  else Ok None.

(** Everything an iterator yields, with [fuel] calls of [next]. *)
Fixpoint collect {S A} (next : S → result Fault (option (A * S))) (fuel : nat) (it : S)
    : result Fault (list A) :=
  match fuel with
  | O => Err Undefined
  | Datatypes.S fuel =>
      r ← next it;
      match r with
      | None => Ok []
      | Some (x, it) => xs ← collect next fuel it; Ok (x :: xs)
      end
  end.

Definition all_instructions : result Fault (list SVMInstruction) :=
  collect instructions_next (Datatypes.S (Z.to_nat num_instructions)) instructions_iter.

Definition all_lookups : result Fault (list SVMMessageAddressTableLookup) :=
  collect lookups_next (Datatypes.S (Z.to_nat num_address_table_lookups)) address_table_lookup_iter.

(** *** Counts of a sanitized view *)

Definition num_static_unsigned_static_accounts : Z :=
  wrapping_sub 8 num_static_account_keys num_required_signatures.
Definition num_writable_unsigned_static_accounts : Z :=
  wrapping_sub 8 num_static_unsigned_static_accounts num_readonly_unsigned_static_accounts.
Definition num_writable_signed_static_accounts : Z :=
  wrapping_sub 8 num_required_signatures num_readonly_signed_static_accounts.
Definition total_num_accounts : Z :=
  wrapping_add 16 (wrapping_add 16 num_static_account_keys total_writable_lookup_accounts)
    total_readonly_lookup_accounts.
Definition num_requested_write_locks : Z :=
  wrapping_add 16
    (wrapping_sub 8 (wrapping_sub 8 num_static_account_keys num_readonly_signed_static_accounts)
       num_readonly_unsigned_static_accounts)
    total_writable_lookup_accounts.

(** ** Sanitization *)

Definition refuse_if (b : bool) (e : TransactionViewError) : result Fault unit :=
  if b then Err (Reject e) else Ok tt.

Definition sanitize_transaction_size : result Fault unit :=
  let max_transaction_size := match version with
    | Legacy | V0 | V1 => MAX_STANDARD_TRANSACTION_SIZE
    | Magicblock => MAX_MAGICBLOCK_TRANSACTION_SIZE end in
  refuse_if (max_transaction_size <? zlen (data v)) SanitizeError.

Definition sanitize_message_header : result Fault unit :=
  _ ← refuse_if (num_required_signatures <? 1) SanitizeError;
  _ ← refuse_if (num_required_signatures <=? num_readonly_signed_static_accounts) SanitizeError;
  refuse_if (wrapping_sub 8 num_static_account_keys num_required_signatures
               <? num_readonly_unsigned_static_accounts) SanitizeError.

Definition transaction_config : option TransactionConfigFrame :=
  if is_present (transaction_config_frame (frame v))
  then Some (transaction_config_frame (frame v)) else None.

Context `{!WireConstants}.

Definition MIN_HEAP_FRAME_BYTES : Z := HEAP_LENGTH.

Definition sanitize_config : result Fault unit :=
  requested ← match transaction_config with
              | Some config => requested_heap_size (data v) config
              | None => Ok None end;
  match requested with
  | None => Ok tt
  | Some n => refuse_if (negb ((MIN_HEAP_FRAME_BYTES <=? n) && (n <=? MAX_HEAP_FRAME_BYTES))
                         || negb (n mod 1024 =? 0)) SanitizeError
  end.

Definition sanitize_signatures : result Fault unit :=
  _ ← refuse_if (negb (num_signatures =? num_required_signatures)) SanitizeError;
  _ ← refuse_if (MAX_SIGNATURES_PER_PACKET <? num_signatures) SanitizeError;
  refuse_if (num_static_account_keys <? num_signatures) SanitizeError.

Definition total_number_of_accounts : Z :=
  saturating_add 16 (saturating_add 16 num_static_account_keys total_writable_lookup_accounts)
    total_readonly_lookup_accounts.

(** Duplicates among few keys are found by comparing each key with the rest, among many
    by inserting them into a set that is cleared afterwards. *)
Fixpoint dup_quadratic (keys : list Pubkey) : bool :=
  match keys with
  | [] => false
  | k :: rest => bool_decide (k ∈ rest) || dup_quadratic rest
  end.

Fixpoint dup_insert (set : gset Pubkey) (keys : list Pubkey) : bool :=
  match keys with
  | [] => false
  | k :: rest => if bool_decide (k ∈ set) then true else dup_insert ({[ k ]} ∪ set) rest
  end.

Definition has_duplicates (keys : list Pubkey) : bool :=
  if USE_STATIC_ACCOUNT_KEYS_SET_SIZE <=? zlen keys then dup_insert ∅ keys else dup_quadratic keys.

Definition sanitize_account_access : result Fault unit :=
  let addresses_limit := match version with
    | Legacy | V0 => 256 | V1 => 64 | Magicblock => MAX_MAGICBLOCK_ACCOUNT_LOCKS end in
  _ ← refuse_if (addresses_limit <? total_number_of_accounts) SanitizeError;
  keys ← static_account_keys;
  refuse_if (has_duplicates keys) SanitizeError.

(** The body of the loop over the instructions. *)
Definition sanitize_instruction (limit : bool) (max_program_id_index max_account_index : Z)
    (ix : SVMInstruction) : result Fault unit :=
  _ ← refuse_if (max_program_id_index <? program_id_index ix) SanitizeError;
  _ ← refuse_if (program_id_index ix =? 0) SanitizeError;
  _ ← refuse_if (existsb (λ i, max_account_index <? i) (ix_accounts ix)) SanitizeError;
  refuse_if (limit && (MAX_ACCOUNTS_PER_INSTRUCTION <? zlen (ix_accounts ix))) SanitizeError.

(** A [for] loop over an iterator, its body returning early on an error. *)
Fixpoint for_each {S A} (next : S → result Fault (option (A * S))) (body : A → result Fault unit)
    (fuel : nat) (it : S) : result Fault unit :=
  match fuel with
  | O => Err Undefined
  | Datatypes.S fuel =>
      r ← next it;
      match r with
      | None => Ok tt
      | Some (x, it) => _ ← body x; for_each next body fuel it
      end
  end.

Definition sanitize_instructions (enable_instruction_accounts_limit : bool) : result Fault unit :=
  let instructions_limit := match version with
    | Magicblock => MAGICBLOCK_INSTRUCTION_TRACE_LENGTH
    | V0 | V1 | Legacy => MAX_INSTRUCTION_TRACE_LENGTH end in
  _ ← refuse_if (instructions_limit <? num_instructions) SanitizeError;
  let max_program_id_index := wrapping_sub 8 num_static_account_keys 1 in
  let max_account_index := wrap 8 (wrapping_sub 16 total_number_of_accounts 1) in
  for_each instructions_next
    (sanitize_instruction enable_instruction_accounts_limit max_program_id_index max_account_index)
    (Datatypes.S (Z.to_nat num_instructions)) instructions_iter.

Definition sanitize_address_table_lookups : result Fault unit :=
  refuse_if (negb (num_address_table_lookups =? 0)) AddressLookupMismatch.

Definition sanitize (enable_instruction_accounts_limit : bool) : result Fault unit :=
  _ ← sanitize_transaction_size;
  _ ← sanitize_message_header;
  _ ← sanitize_config;
  _ ← sanitize_signatures;
  _ ← sanitize_account_access;
  _ ← sanitize_instructions enable_instruction_accounts_limit;
  sanitize_address_table_lookups.

End view.

Section construct.
Context `{!WireConstants}.

Definition try_new_unsanitized (data : list Z) : result Fault TransactionView :=
  frame ← try_new data; Ok {| data := data; frame := frame |}.

Definition try_new_sanitized (data : list Z) (limit : bool) : result Fault TransactionView :=
  v ← try_new_unsanitized data;
  _ ← sanitize v limit;
  Ok v.

End construct.

(** ** Resolved views *)

(** [LoadedAddresses] of a message; [AccountKeys] iterates the static keys, then these. *)
Record LoadedAddresses := { l_writable : list Pubkey; l_readonly : list Pubkey }.

Definition account_keys (static : list Pubkey) (loaded : option LoadedAddresses) : list Pubkey :=
  static ++ match loaded with Some l => l_writable l ++ l_readonly l | None => [] end.

Record ResolvedTransactionView := { view_ : TransactionView; writable_cache : list Z }.

Section resolved.
Context `{!WireConstants}.

(** Bit [index] of an array of [u64] words; indexing past its end panics. *)
Definition get_word (cache : list Z) (index : Z) : result Fault Z :=
  ok_or (cache !! Z.to_nat (index / 64)) Undefined.
Definition put_word (cache : list Z) (index w : Z) : list Z := <[Z.to_nat (index / 64) := w]> cache.
Definition bit_of (index : Z) : Z := Z.shiftl 1 (index mod 64).

Definition requested_write (v : TransactionView) (index : Z) : bool :=
  if num_static_account_keys v <=? index
  then index - num_static_account_keys v <? total_writable_lookup_accounts v
  else if num_required_signatures v <=? index
  then index - num_required_signatures v <? num_writable_unsigned_static_accounts v
  else index <? num_writable_signed_static_accounts v.

(** The loop over the keys, from [index]. *)
Fixpoint mark_writable (v : TransactionView) (reserved : gset Pubkey) (index : Z)
    (keys : list Pubkey) (cache : list Z) : result Fault (list Z) :=
  match keys with
  | [] => Ok cache
  | key :: keys =>
      cache ← (if requested_write v index && negb (bool_decide (key ∈ reserved))
               then w ← get_word cache index; Ok (put_word cache index (Z.lor w (bit_of index)))
               else Ok cache);
      mark_writable v reserved (index + 1) keys cache
  end.

(** The body of the loop over the instructions; the search for the loader runs at most
    once, at the first writable program. *)
Definition demote_program (keys : list Pubkey) (cache : list Z) (ix : SVMInstruction)
    : result Fault (list Z) :=
  w ← get_word cache (program_id_index ix);
  let bit := bit_of (program_id_index ix) in
  if negb (Z.land w bit =? 0) && negb (existsb (λ k, bool_decide (k = BPF_LOADER_UPGRADEABLE)) keys)
  then Ok (put_word cache (program_id_index ix) (Z.ldiff w bit))
  else Ok cache.

Fixpoint demote_programs (v : TransactionView) (keys : list Pubkey) (fuel : nat)
    (it : InstructionsIterator) (cache : list Z) : result Fault (list Z) :=
  match fuel with
  | O => Err Undefined
  | S fuel =>
      r ← instructions_next v it;
      match r with
      | None => Ok cache
      | Some (ix, it) =>
          cache ← demote_program keys cache ix; demote_programs v keys fuel it cache
      end
  end.

Definition cache_is_writable (v : TransactionView) (loaded : option LoadedAddresses)
    (reserved : gset Pubkey) : result Fault (list Z) :=
  static ← static_account_keys v;
  let keys := account_keys static loaded in
  cache ← mark_writable v reserved 0 keys [0; 0; 0; 0];
  demote_programs v keys (S (Z.to_nat (num_instructions v))) (instructions_iter v) cache.

Definition resolved_try_new (v : TransactionView) (resolved : option LoadedAddresses)
    (reserved : gset Pubkey) : result Fault ResolvedTransactionView :=
  let mismatch := match resolved with
    | Some l => negb (zlen (l_writable l) =? total_writable_lookup_accounts v)
                || negb (zlen (l_readonly l) =? total_readonly_lookup_accounts v)
    | None => negb (total_writable_lookup_accounts v =? 0)
              || negb (total_readonly_lookup_accounts v =? 0) end in
  _ ← refuse_if mismatch AddressLookupMismatch;
  cache ← cache_is_writable v resolved reserved;
  Ok {| view_ := v; writable_cache := cache |}.

Definition is_writable_index (r : ResolvedTransactionView) (index : Z) : bool :=
  match writable_cache r !! Z.to_nat (index / 64) with
  | Some w => negb (Z.land w (bit_of index) =? 0)
  | None => false
  end.

Definition is_signer (r : ResolvedTransactionView) (index : Z) : bool :=
  index <? num_required_signatures (view_ r).

End resolved.
