(* ===== verification/TxWire.v ===== *)
(** * The wire format of transactions

    An abstract transaction, its serialization in the four formats, and what it means that a
    piece of a byte string is at an offset. The parser's primitives are characterised as
    reading exactly such a piece. *)

From stdpp Require Import base list numbers option.
From S2P Require Import Prelude Account TxBytes TxFrame TxView.

Local Open Scope Z_scope.

(** ** Abstract transactions *)

Record Config := {
  c_fee : option Z;
  c_compute_units : option Z;
  c_loaded_size : option Z;
  c_heap : option Z;
}.

Record Transaction := {
  tx_version : TransactionVersion;
  tx_signatures : list (list Z);
  tx_required : Z;
  tx_readonly_signed : Z;
  tx_readonly_unsigned : Z;
  tx_keys : list Pubkey;
  tx_blockhash : list Z;
  tx_instructions : list SVMInstruction;
  tx_lookups : list SVMMessageAddressTableLookup;
  tx_config : option Config;
}.

#[export] Instance Config_eq_dec : EqDecision Config.
Proof. solve_decision. Defined.
#[export] Instance Transaction_eq_dec : EqDecision Transaction.
Proof. solve_decision. Defined.

(** ** Serialization *)

(** The compact encoding of a [u16] in one to three bytes. *)
Definition enc16 (n : Z) : list Z :=
  if n <? 128 then [n]
  else if n <? 16384 then [n mod 128 + 128; n / 128]
  else [n mod 128 + 128; n / 128 mod 128 + 128; n / 16384].

Definition wire_instruction (ix : SVMInstruction) : list Z :=
  [program_id_index ix] ++ enc16 (zlen (ix_accounts ix)) ++ ix_accounts ix ++
  enc16 (zlen (ix_data ix)) ++ ix_data ix.

Definition wire_lookup (l : SVMMessageAddressTableLookup) : list Z :=
  account_key l ++ enc16 (zlen (writable_indexes l)) ++ writable_indexes l ++
  enc16 (zlen (readonly_indexes l)) ++ readonly_indexes l.

Definition wire_header (ix : SVMInstruction) : list Z :=
  [program_id_index ix; zlen (ix_accounts ix)] ++ le_bytes 2 (zlen (ix_data ix)).

Definition wire_payload (ix : SVMInstruction) : list Z := ix_accounts ix ++ ix_data ix.

Definition present (o : option Z) (bits : Z) : Z := match o with Some _ => bits | None => 0 end.
Definition config_mask (c : Config) : Z :=
  present (c_fee c) 3 + present (c_compute_units c) 4 + present (c_loaded_size c) 8 +
  present (c_heap c) 16.

Definition wire_word (n : nat) (o : option Z) : list Z :=
  match o with Some x => le_bytes n x | None => [] end.
Definition wire_config (c : Config) : list Z :=
  wire_word 8 (c_fee c) ++ wire_word 4 (c_compute_units c) ++ wire_word 4 (c_loaded_size c) ++
  wire_word 4 (c_heap c).

Definition header_bytes (tx : Transaction) : list Z :=
  [tx_required tx; tx_readonly_signed tx; tx_readonly_unsigned tx].

Section wire.
Context `{!WireConstants}.

Definition wire_legacy_or_v0 (tx : Transaction) : list Z :=
  [zlen (tx_signatures tx)] ++ concat (tx_signatures tx) ++
  (if bool_decide (tx_version tx = V0) then [MESSAGE_VERSION_PREFIX] else []) ++
  header_bytes tx ++ [zlen (tx_keys tx)] ++ concat (tx_keys tx) ++ tx_blockhash tx ++
  enc16 (zlen (tx_instructions tx)) ++ concat (wire_instruction <$> tx_instructions tx) ++
  (if bool_decide (tx_version tx = V0)
   then [zlen (tx_lookups tx)] ++ concat (wire_lookup <$> tx_lookups tx) else []).

Definition wire_v1 (prefix : Z) (tx : Transaction) (c : Config) : list Z :=
  [prefix] ++ header_bytes tx ++ le_bytes 4 (config_mask c) ++ tx_blockhash tx ++
  [zlen (tx_instructions tx); zlen (tx_keys tx)] ++ concat (tx_keys tx) ++ wire_config c ++
  concat (wire_header <$> tx_instructions tx) ++ concat (wire_payload <$> tx_instructions tx) ++
  concat (tx_signatures tx).

Definition no_config : Config :=
  {| c_fee := None; c_compute_units := None; c_loaded_size := None; c_heap := None |}.

Definition wire (tx : Transaction) : list Z :=
  match tx_version tx with
  | Legacy | V0 => wire_legacy_or_v0 tx
  | V1 => wire_v1 V1_PREFIX tx (default no_config (tx_config tx))
  | Magicblock => wire_v1 MAGICBLOCK_PREFIX tx (default no_config (tx_config tx))
  end.

End wire.

(** ** Well-formed transactions: what each format can express *)

Definition array_ok (n : Z) (l : list Z) : Prop := zlen l = n ∧ Forall byte_ok l.
Definition short (l : list Z) : Prop := zlen l < 2 ^ 16 ∧ Forall byte_ok l.

Definition instruction_ok (ix : SVMInstruction) : Prop :=
  byte_ok (program_id_index ix) ∧ short (ix_accounts ix) ∧ short (ix_data ix).

Definition lookup_ok (l : SVMMessageAddressTableLookup) : Prop :=
  array_ok PUBKEY_SIZE (account_key l) ∧ short (writable_indexes l) ∧ short (readonly_indexes l).

Definition sum_len {A} (f : A → list Z) (l : list A) : Z := zlen (concat (f <$> l)).

Definition lookups_ok (l : list SVMMessageAddressTableLookup) : Prop :=
  zlen l ≤ MAX_ATLS_PER_PACKET ∧ Forall lookup_ok l ∧
  MIN_SIZED_ATL * zlen l ≤ sum_len wire_lookup l ∧
  sum_len writable_indexes l < 2 ^ 16 ∧ sum_len readonly_indexes l < 2 ^ 16.

Definition word_ok (w : Z) (o : option Z) : Prop := match o with Some x => fits w x | None => True end.
Definition config_ok (c : Config) : Prop :=
  word_ok 64 (c_fee c) ∧ word_ok 32 (c_compute_units c) ∧ word_ok 32 (c_loaded_size c) ∧
  word_ok 32 (c_heap c).

Record common_ok (tx : Transaction) : Prop := {
  ok_signatures : Forall (array_ok SIGNATURE_SIZE) (tx_signatures tx);
  ok_header : Forall byte_ok (header_bytes tx);
  ok_keys : Forall (array_ok PUBKEY_SIZE) (tx_keys tx);
  ok_blockhash : array_ok HASH_SIZE (tx_blockhash tx);
  ok_instructions : Forall instruction_ok (tx_instructions tx);
}.

Record legacy_or_v0_ok (tx : Transaction) : Prop := {
  ok_num_signatures : 1 ≤ zlen (tx_signatures tx) ≤ MAX_SIGNATURES_PER_PACKET;
  ok_num_keys : 1 ≤ zlen (tx_keys tx) ≤ LEGACY_OR_V0_MAX_STATIC_ACCOUNTS_PER_PACKET;
  ok_num_instructions : zlen (tx_instructions tx) < 2 ^ 16;
  ok_lookups : lookups_ok (tx_lookups tx);
  ok_legacy : tx_version tx = Legacy → tx_required tx < 128 ∧ tx_lookups tx = [];
  ok_no_config : tx_config tx = None;
}.

Record v1_ok (tx : Transaction) : Prop := {
  ok_required : zlen (tx_signatures tx) = tx_required tx;
  ok_v1_keys : zlen (tx_keys tx) < 256;
  ok_v1_instructions : zlen (tx_instructions tx) < 256;
  ok_v1_accounts : Forall (λ ix, zlen (ix_accounts ix) < 256) (tx_instructions tx);
  ok_v1_lookups : tx_lookups tx = [];
  ok_config : ∃ c, tx_config tx = Some c ∧ config_ok c;
}.

Definition tx_ok `{!WireConstants} (tx : Transaction) : Prop :=
  common_ok tx ∧ zlen (wire tx) < 2 ^ 32 ∧
  match tx_version tx with
  | Legacy | V0 => legacy_or_v0_ok tx
  | V1 | Magicblock => v1_ok tx
  end.

(** What a view shows: everything its accessors and iterators return. *)
Definition decode (v : TransactionView) : result Fault Transaction :=
  sigs ← signatures v;
  keys ← static_account_keys v;
  hash ← recent_blockhash v;
  ixs ← all_instructions v;
  lookups ← all_lookups v;
  config ← match transaction_config v with
           | None => Ok None
           | Some f =>
               fee ← priority_fee_lamports (data v) f;
               cu ← compute_unit_limit (data v) f;
               loaded ← loaded_accounts_data_size_limit (data v) f;
               heap ← requested_heap_size (data v) f;
               Ok (Some {| c_fee := fee; c_compute_units := cu; c_loaded_size := loaded;
                           c_heap := heap |})
           end;
  Ok {| tx_version := version v; tx_signatures := sigs;
        tx_required := num_required_signatures v;
        tx_readonly_signed := num_readonly_signed_static_accounts v;
        tx_readonly_unsigned := num_readonly_unsigned_static_accounts v;
        tx_keys := keys; tx_blockhash := hash; tx_instructions := ixs; tx_lookups := lookups;
        tx_config := config |}.

(** ** Pieces of a byte string *)

(** [w] is at offset [off] and ends at [off']. *)
Definition reads (bytes : list Z) (off : Z) (w : list Z) (off' : Z) : Prop :=
  0 ≤ off ∧ off' = off + zlen w ∧ off' ≤ zlen bytes ∧ w `prefix_of` drop (Z.to_nat off) bytes.

Section reads.
Context (bytes : list Z).

Lemma reads_nil off off' : reads bytes off [] off' ↔ 0 ≤ off ≤ zlen bytes ∧ off' = off.
Proof.
  unfold reads. change (zlen []) with 0. split.
  - intros (? & -> & ? & _). lia.
  - intros [? ->]. split_and!; try lia. apply prefix_nil.
Qed.

Lemma reads_app off w1 w2 off2 :
  reads bytes off (w1 ++ w2) off2 ↔
  ∃ off1, reads bytes off w1 off1 ∧ reads bytes off1 w2 off2.
Proof.
  unfold reads. rewrite zlen_app. pose proof (zlen_nonneg w1). pose proof (zlen_nonneg w2). split.
  - intros (H1 & -> & H3 & [k Hk]). exists (off + zlen w1).
    split_and!; try lia.
    + exists (w2 ++ k). by rewrite app_assoc.
    + exists k. replace (Z.to_nat (off + zlen w1)) with (Z.to_nat off + length w1)%nat
        by (unfold zlen; lia).
      rewrite <- drop_drop, Hk, <- app_assoc. by rewrite drop_app_length.
  - intros (off1 & (H1 & -> & H3 & [k Hk]) & (H4 & -> & H6 & [k' Hk'])).
    split_and!; try lia. exists k'. rewrite Hk, <- app_assoc. f_equal.
    replace (Z.to_nat (off + zlen w1)) with (Z.to_nat off + length w1)%nat in Hk'
      by (unfold zlen; lia).
    rewrite <- drop_drop, Hk, drop_app_length in Hk'. done.
Qed.

Lemma reads_cons off b w off2 :
  reads bytes off (b :: w) off2 ↔
  ∃ off1, reads bytes off [b] off1 ∧ reads bytes off1 w off2.
Proof. apply (reads_app off [b] w). Qed.

Lemma reads_bounds off w off' :
  reads bytes off w off' → 0 ≤ off ∧ off ≤ off' ∧ off' = off + zlen w ∧ off' ≤ zlen bytes.
Proof. intros (? & ? & ? & _). pose proof (zlen_nonneg w). lia. Qed.

Lemma reads_slice off w off' : reads bytes off w off' → slice bytes off (zlen w) = w.
Proof.
  intros (H1 & -> & H3 & [k Hk]). unfold slice. rewrite Hk. unfold zlen.
  rewrite Nat2Z.id. apply take_app_length.
Qed.

Lemma reads_some off n :
  0 ≤ off → 0 ≤ n → off + n ≤ zlen bytes →
  reads bytes off (slice bytes off n) (off + n) ∧ zlen (slice bytes off n) = n.
Proof.
  intros H1 H2 H3. unfold zlen in H3.
  assert (E : zlen (slice bytes off n) = n).
  { unfold zlen, slice. rewrite length_take, length_drop. lia. }
  split; [|done]. unfold reads. rewrite E. split_and!; auto.
  exists (drop (Z.to_nat n) (drop (Z.to_nat off) bytes)). unfold slice. by rewrite take_drop.
Qed.

Lemma reads_det off w w' o1 o2 :
  reads bytes off w o1 → reads bytes off w' o2 → zlen w = zlen w' → w = w'.
Proof. intros H%reads_slice H'%reads_slice E. by rewrite <- H, <- H', E. Qed.

Lemma reads_byte off b off' :
  reads bytes off [b] off' ↔ 0 ≤ off ∧ off' = off + 1 ∧ bytes !! Z.to_nat off = Some b.
Proof.
  unfold reads. change (zlen [b]) with 1. split.
  - intros (H1 & -> & H3 & [k Hk]). split_and!; auto.
    replace (Z.to_nat off) with (Z.to_nat off + 0)%nat by lia.
    by rewrite <- lookup_drop, Hk.
  - intros (H1 & -> & Hb). pose proof (lookup_lt_Some _ _ _ Hb). unfold zlen.
    split_and!; try lia. exists (drop (S (Z.to_nat off)) bytes). by apply drop_S.
Qed.

Lemma reads_byte_ok off w off' : Forall byte_ok bytes → reads bytes off w off' → Forall byte_ok w.
Proof.
  intros Hok (_ & _ & _ & [k Hk]). apply (Forall_drop _ (Z.to_nat off)) in Hok.
  rewrite Hk in Hok. by apply Forall_app in Hok as [? _].
Qed.

Lemma reads_concat {A} (f : A → list Z) x l off off' :
  reads bytes off (concat (f <$> x :: l)) off' ↔
  ∃ off1, reads bytes off (f x) off1 ∧ reads bytes off1 (concat (f <$> l)) off'.
Proof. rewrite fmap_cons, List.concat_cons. apply reads_app. Qed.

(** ** The primitives read exactly their piece *)

Hypothesis Hlen : zlen bytes < 2 ^ 32.

Lemma read_byte_iff off b off' :
  0 ≤ off → read_byte bytes off = Ok (b, off') ↔ reads bytes off [b] off'.
Proof using Hlen.
  intros H0. rewrite reads_byte. unfold read_byte.
  destruct (bytes !! Z.to_nat off) as [x|] eqn:E; simpl; [|naive_solver].
  pose proof (lookup_lt_Some _ _ _ E). unfold zlen in Hlen.
  destruct (checked_add 64 off 1) as [o|] eqn:Ec; simpl.
  - apply checked_add_Some in Ec as [-> _]. naive_solver.
  - apply checked_add_None in Ec. lia.
Qed.

Lemma check_remaining_iff off n :
  0 ≤ off → 0 ≤ n → check_remaining bytes off n = Ok tt ↔ off + n ≤ zlen bytes.
Proof using Hlen.
  intros H0 Hn. unfold check_remaining.
  destruct (checked_add 64 off n) as [e|] eqn:Ec; simpl.
  - apply checked_add_Some in Ec as [-> _]. destruct (Z.leb_spec (off + n) (zlen bytes)); naive_solver lia.
  - apply checked_add_None in Ec. split; [done|lia].
Qed.

Lemma advance_array_iff size n off off' :
  0 ≤ off → 0 < size ≤ 64 → 0 ≤ n < 2 ^ 16 →
  advance_offset_for_array bytes size n off = Ok (tt, off') ↔
  ∃ w, zlen w = n * size ∧ reads bytes off w off'.
Proof using Hlen.
  intros H0 Hs Hn. unfold advance_offset_for_array, checked_mul.
  destruct (Z.ltb_spec (n * size) (2 ^ 64)); [|nia]. simpl.
  assert (Hc := check_remaining_iff off (n * size) H0 ltac:(nia)).
  destruct (check_remaining bytes off (n * size)) as [[]|] eqn:E; simpl.
  - destruct Hc as [Hc _]. specialize (Hc eq_refl). unfold checked_add.
    destruct (Z.ltb_spec (off + n * size) (2 ^ 64)); [|lia]. simpl. split.
    + intros [= <-]. destruct (reads_some off (n * size)) as [? ?]; try nia. eauto.
    + intros (w & Hw & (_ & -> & _)). by rewrite Hw.
  - split; [done|]. intros (w & Hw & (_ & E1 & E2 & _)). destruct Hc as [_ Hc].
    discriminate Hc. lia.
Qed.

Lemma advance_type_iff size off off' :
  0 ≤ off → 0 < size ≤ 64 →
  advance_offset_for_type bytes size off = Ok (tt, off') ↔
  ∃ w, zlen w = size ∧ reads bytes off w off'.
Proof using Hlen.
  intros H0 Hs. unfold advance_offset_for_type.
  assert (Hc := check_remaining_iff off size H0 ltac:(lia)).
  destruct (check_remaining bytes off size) as [[]|] eqn:E; simpl.
  - destruct Hc as [Hc _]. specialize (Hc eq_refl). unfold checked_add.
    destruct (Z.ltb_spec (off + size) (2 ^ 64)); [|lia]. simpl. split.
    + intros [= <-]. destruct (reads_some off size) as [? ?]; try lia. eauto.
    + intros (w & Hw & (_ & -> & _)). by rewrite Hw.
  - split; [done|]. intros (w & Hw & (_ & E1 & E2 & _)). destruct Hc as [_ Hc].
    discriminate Hc. lia.
Qed.

Hypothesis Hok : Forall byte_ok bytes.

Lemma land_127 b : Z.land b 127 = b mod 128.
Proof using Type. change 127 with (Z.ones 7). by rewrite Z.land_ones. Qed.

Lemma land_128_high b : 128 ≤ b < 256 → Z.land b 128 = 128.
Proof using Type.
  intros Hb. pose proof (lor_disjoint (b - 128) 1 7 ltac:(lia) ltac:(lia)) as E.
  pose proof (land_disjoint (b - 128) 1 7 ltac:(lia) ltac:(lia)) as E'.
  change (1 * 2 ^ 7) with 128 in E, E'.
  replace (b - 128 + 128) with b in E by lia. by rewrite <- E, Z.land_lor_distr_l, E'.
Qed.

Lemma land_128 b : byte_ok b → (Z.land b 128 =? 0) = (b <? 128).
Proof using Type.
  unfold byte_ok. intros Hb. destruct (Z.ltb_spec b 128).
  - pose proof (land_disjoint b 1 7 ltac:(lia) ltac:(lia)) as E.
    change (1 * 2 ^ 7) with 128 in E. by rewrite E.
  - by rewrite land_128_high by lia.
Qed.

Lemma byte_at i b : bytes !! i = Some b → byte_ok b.
Proof using Hok. intros H. by eapply Forall_lookup in Hok. Qed.

Lemma cadd x i : x < zlen bytes + 3 → i < 4 → checked_add 64 x i = Some (x + i).
Proof using Hlen. intros. apply checked_add_Some. lia. Qed.

Lemma shift_0 x : byte_ok x → Z.lor 0 (wrap 16 (Z.shiftl (x mod 128) 0)) = x mod 128.
Proof using Type.
  intros Hx. rewrite Z.lor_0_l, Z.shiftl_0_r. apply wrap_small. unfold fits.
  pose proof (Z.mod_pos_bound x 128). lia.
Qed.

Lemma shift_7 x y :
  0 ≤ x < 128 → Z.lor x (wrap 16 (Z.shiftl (y mod 128) (0 + 7))) = x + (y mod 128) * 128.
Proof using Type.
  intros Hx. pose proof (Z.mod_pos_bound y 128). rewrite Z.shiftl_mul_pow2 by lia.
  rewrite wrap_small by (unfold fits; lia). by rewrite lor_disjoint.
Qed.

Lemma shift_14 x y :
  0 ≤ x < 16384 → 0 ≤ y < 4 → Z.lor x (wrap 16 (Z.shiftl y (0 + 7 + 7))) = x + y * 16384.
Proof using Type.
  intros Hx Hy. rewrite Z.shiftl_mul_pow2 by lia.
  rewrite wrap_small by (unfold fits; lia). by rewrite lor_disjoint.
Qed.

(** One to three bytes, the shortest encoding only. *)
Lemma read_compressed_u16_cases off n off' :
  0 ≤ off →
  read_compressed_u16 bytes off = Ok (n, off') ↔
  ∃ b0, bytes !! Z.to_nat off = Some b0 ∧
    (b0 < 128 ∧ n = b0 ∧ off' = off + 1 ∨
     128 ≤ b0 ∧ ∃ b1, bytes !! Z.to_nat (off + 1) = Some b1 ∧ 0 < b1 ∧
       (b1 < 128 ∧ n = b0 - 128 + b1 * 128 ∧ off' = off + 2 ∨
        128 ≤ b1 ∧ ∃ b2, bytes !! Z.to_nat (off + 2) = Some b2 ∧ 0 < b2 ≤ 3 ∧
          n = b0 - 128 + (b1 - 128) * 128 + b2 * 16384 ∧ off' = off + 3)).
Proof using Hlen Hok.
  intros H0. unfold read_compressed_u16. cbn [compressed_u16_loop].
  destruct (decide (off < zlen bytes)) as [Hlt|Hge].
  2: { assert (E : bytes !! Z.to_nat off = None) by (apply lookup_ge_None_2; unfold zlen in *; lia).
       split; [|naive_solver].
       unfold checked_add. rewrite Z.add_0_r. destruct (off <? 2 ^ 64); simpl; [|done].
       rewrite E. done. }
  rewrite (cadd off 0) by lia. simpl. rewrite Z.add_0_r.
  destruct (bytes !! Z.to_nat off) as [b0|] eqn:E0; simpl; [|naive_solver].
  pose proof (byte_at _ _ E0) as B0. rewrite land_128, land_127, shift_0 by done.
  rewrite (cadd off 1) by lia. simpl. unfold byte_ok in B0.
  destruct (Z.ltb_spec b0 128) as [L0|L0]; [rewrite Z.mod_small by lia; naive_solver lia|].
  replace (b0 mod 128) with (b0 - 128) by (apply (Z.mod_unique_pos _ _ 1); lia).
  destruct (bytes !! Z.to_nat (off + 1)) as [b1|] eqn:E1; simpl; [|naive_solver lia].
  pose proof (byte_at _ _ E1) as B1. rewrite orb_false_r, land_128, land_127 by done.
  unfold byte_ok in B1. destruct (Z.eqb_spec b1 0); [naive_solver lia|].
  rewrite (cadd (off + 1) 1) by lia. rewrite (shift_7 (b0 - 128)) by lia. simpl.
  destruct (Z.ltb_spec b1 128) as [L1|L1].
  { rewrite Z.mod_small by lia. split.
    - intros [= <- <-]. exists b0. split; [done|]. right. split; [done|]. exists b1.
      split_and!; auto; [lia|]. left. lia.
    - intros (x & [= <-] & [?|(_ & y & [= <-] & _ & [(_ & -> & ->)|[? _]])]); [lia| |lia].
      do 2 f_equal. lia. }
  replace (b1 mod 128) with (b1 - 128) by (apply (Z.mod_unique_pos _ _ 1); lia).
  rewrite (cadd off 2) by lia. simpl.
  destruct (bytes !! Z.to_nat (off + 2)) as [b2|] eqn:E2; simpl; [|naive_solver lia].
  pose proof (byte_at _ _ E2) as B2. rewrite land_128, land_127 by done. unfold byte_ok in B2.
  destruct (Z.eqb_spec b2 0); [naive_solver lia|].
  destruct (Z.ltb_spec 3 b2); simpl; [naive_solver lia|].
  destruct (Z.ltb_spec b2 128); [|lia]. rewrite (cadd (off + 2) 1) by lia.
  rewrite Z.mod_small, shift_14 by lia. simpl. split.
  - intros [= <- <-]. exists b0. split; [done|]. right. split; [done|]. exists b1.
    split_and!; auto; [lia|]. right. split; [done|]. exists b2. split_and!; auto; lia.
  - intros (x & [= <-] & [?|(_ & y & [= <-] & _ & [[? _]|(_ & z & [= <-] & _ & -> & ->)])]);
      [lia|lia|]. do 2 f_equal. lia.
Qed.

Lemma read_compressed_u16_iff off n off' :
  0 ≤ off →
  read_compressed_u16 bytes off = Ok (n, off') ↔ fits 16 n ∧ reads bytes off (enc16 n) off'.
Proof using Hlen Hok.
  intros H0. rewrite read_compressed_u16_cases by done. unfold enc16, fits. split.
  - intros (b0 & E0 & H). pose proof (byte_at _ _ E0) as B0. unfold byte_ok in B0.
    destruct H as [(L & -> & ->)|(L & b1 & E1 & Hp & H)].
    + split; [lia|]. destruct (Z.ltb_spec b0 128); [|lia]. by apply reads_byte.
    + pose proof (byte_at _ _ E1) as B1. unfold byte_ok in B1.
      destruct H as [(L1 & -> & ->)|(L1 & b2 & E2 & Hp2 & -> & ->)].
      * split; [lia|]. destruct (Z.ltb_spec (b0 - 128 + b1 * 128) 128); [lia|].
        destruct (Z.ltb_spec (b0 - 128 + b1 * 128) 16384); [|lia].
        rewrite Z.mod_add, Z.div_add, Z.mod_small, Z.div_small by lia.
        rewrite Z.sub_add, Z.add_0_l. apply reads_cons. exists (off + 1).
        split; apply reads_byte; split_and!; auto; lia.
      * split; [lia|]. set (n := b0 - 128 + (b1 - 128) * 128 + b2 * 16384).
        destruct (Z.ltb_spec n 128); [lia|]. destruct (Z.ltb_spec n 16384); [lia|].
        assert (n mod 128 = b0 - 128) as -> by (symmetry; apply (Z.mod_unique_pos _ _ (b1 - 128 + b2 * 128)); lia).
        assert (n / 128 = b1 - 128 + b2 * 128) as -> by (symmetry; apply (Z.div_unique_pos _ _ _ (b0 - 128)); lia).
        assert (n / 16384 = b2) as -> by (symmetry; apply (Z.div_unique_pos _ _ _ (b0 - 128 + (b1 - 128) * 128)); lia).
        rewrite Z.mod_add, Z.mod_small by lia. rewrite !Z.sub_add.
        apply reads_cons. exists (off + 1). split; [apply reads_byte; split_and!; auto; lia|].
        apply reads_cons. exists (off + 2). split; apply reads_byte; split_and!; auto; try lia.
  - intros [Hn H]. destruct (Z.ltb_spec n 128).
    + apply reads_byte in H as (_ & -> & E0). exists n. split; [done|]. left. lia.
    + pose proof (Z.mod_pos_bound n 128 ltac:(lia)). pose proof (Z.div_mod n 128 ltac:(lia)).
      destruct (Z.ltb_spec n 16384).
      * apply reads_cons in H as (o1 & (_ & -> & E0)%reads_byte & (_ & -> & E1)%reads_byte).
        exists (n mod 128 + 128). split; [done|]. right. split; [lia|]. exists (n / 128).
        split; [done|]. split; [lia|]. left. lia.
      * apply reads_cons in H as (o1 & (_ & -> & E0)%reads_byte & H).
        apply reads_cons in H as (o1 & (_ & -> & E1)%reads_byte & (_ & -> & E2)%reads_byte).
        pose proof (Z.mod_pos_bound (n / 128) 128 ltac:(lia)).
        pose proof (Z.div_mod (n / 128) 128 ltac:(lia)) as D. rewrite Z.div_div in D by lia.
        change (128 * 128) with 16384 in D.
        exists (n mod 128 + 128). split; [done|]. right. split; [lia|].
        exists (n / 128 mod 128 + 128). split; [done|]. split; [lia|]. right. split; [lia|].
        exists (n / 16384). replace (off + 1 + 1) with (off + 2) in E2 by lia.
        split; [done|]. lia.
Qed.

End reads.
