(* ===== verification/TxFacts.v ===== *)
(** * The parser against the wire format

    Each part of the parser succeeds exactly on the serialization of such a part, and the
    accessors and iterators return what was serialized; no unchecked read leaves the
    buffer. *)

From stdpp Require Import base list numbers option.
From S2P Require Import Prelude Account TxBytes TxFrame TxView TxWire.

Local Open Scope Z_scope.

(** ** Chunks *)

Lemma chunks_concat size l :
  Forall (λ x, length x = size) l → chunks size (length l) (concat l) = l.
Proof.
  induction 1 as [|x l Hx _ IH]; simpl; [done|].
  rewrite take_app_length', drop_app_length' by done. by rewrite IH.
Qed.

Lemma concat_chunks size n bs :
  length bs = (n * size)%nat →
  concat (chunks size n bs) = bs ∧ Forall (λ x, length x = size) (chunks size n bs) ∧
  length (chunks size n bs) = n.
Proof.
  revert bs. induction n as [|n IH]; intros bs Hb; simpl.
  - by destruct bs.
  - destruct (IH (drop size bs)) as (I1 & I2 & I3); [rewrite length_drop; lia|].
    rewrite I1, take_drop, I3. split_and!; auto. constructor; [rewrite length_take; lia|done].
Qed.

Lemma Forall_concat {A} (P : A → Prop) (ls : list (list A)) :
  Forall P (concat ls) ↔ Forall (Forall P) ls.
Proof.
  induction ls as [|l ls IH]; simpl; [by split; constructor|].
  rewrite Forall_app, (list.Forall_cons (Forall P)). by rewrite IH.
Qed.

Lemma arrays_iff size n w :
  0 ≤ size → 0 ≤ n →
  (zlen w = n * size ∧ Forall byte_ok w) ↔
  ∃ l, zlen l = n ∧ Forall (array_ok size) l ∧ concat l = w.
Proof.
  intros Hs Hn. split.
  - intros [Hl Hb]. destruct (concat_chunks (Z.to_nat size) (Z.to_nat n) w) as (C1 & C2 & C3).
    { unfold zlen in Hl. nia. }
    exists (chunks (Z.to_nat size) (Z.to_nat n) w). split_and!; auto; [unfold zlen; lia|].
    rewrite <- C1, Forall_concat in Hb. rewrite Forall_forall in C2, Hb |- *.
    intros x Hx. split; [|by apply Hb]. unfold zlen. rewrite (C2 x Hx). lia.
  - intros (l & <- & Hl & <-). clear Hn. induction Hl as [|x l [Hx Hxb] _ [IH1 IH2]]; simpl.
    + by split; [unfold zlen; simpl; lia|constructor].
    + rewrite zlen_app, zlen_cons, Forall_app. split; [lia|done].
Qed.

(** ** Running parsers *)

Lemma pbind_iff {A B} (p : parser A) (k : A → parser B) off r :
  (p ≫= k) off = Ok r ↔ ∃ a off1, p off = Ok (a, off1) ∧ k a off1 = Ok r.
Proof.
  unfold mbind, parser_bind. destruct (p off) as [[a off1]|e]; simpl; naive_solver.
Qed.

Lemma pret_iff {A} (a : A) off r off' : (mret a : parser A) off = Ok (r, off') ↔ r = a ∧ off' = off.
Proof. unfold mret, parser_ret. naive_solver. Qed.

Lemma pure_iff {A} (c : result Fault A) off a off' :
  pure_ c off = Ok (a, off') ↔ c = Ok a ∧ off' = off.
Proof. unfold pure_. destruct c; simpl; naive_solver. Qed.

Lemma get_iff off a off' : get_offset off = Ok (a, off') ↔ a = off ∧ off' = off.
Proof. unfold get_offset. naive_solver. Qed.

Lemma set_iff o off a off' : set_offset o off = Ok (a, off') ↔ off' = o.
Proof. unfold set_offset. destruct a. naive_solver. Qed.

Lemma try_u32_iff o a : try_u32_offset o = Ok a ↔ a = o ∧ o < 2 ^ 32.
Proof. unfold try_u32_offset. destruct (Z.ltb_spec o (2 ^ 32)); naive_solver lia. Qed.

Lemma mul64_ok a b (e : Fault) : a * b < 2 ^ 64 → ok_or (checked_mul 64 a b) e = Ok (a * b).
Proof. intros H. unfold checked_mul. destruct (Z.ltb_spec (a * b) (2 ^ 64)); [done|lia]. Qed.
Lemma add_ok w a b (e : Fault) : a + b < 2 ^ w → ok_or (checked_add w a b) e = Ok (a + b).
Proof. intros H. unfold checked_add. destruct (Z.ltb_spec (a + b) (2 ^ w)); [done|lia]. Qed.

(** Steps forward through a parser that succeeds. *)
Ltac p_get := apply pbind_iff; eexists _, _; split; [by apply get_iff|].
Ltac p_pure tac := apply pbind_iff; eexists _, _; split; [apply pure_iff; split; [tac|reflexivity]|].
Ltac p_u32 := p_pure ltac:(apply try_u32_iff; split; [reflexivity|lia]).

Section parts.
Context (bytes : list Z).
Hypothesis Hlen : zlen bytes < 2 ^ 32.
Hypothesis Hok : Forall byte_ok bytes.

Lemma advance_arrays_iff size n off off' :
  0 ≤ off → 0 < size ≤ 64 → 0 ≤ n < 2 ^ 16 →
  advance_offset_for_array bytes size n off = Ok (tt, off') ↔
  ∃ l, zlen l = n ∧ Forall (array_ok size) l ∧ reads bytes off (concat l) off'.
Proof using All.
  intros H0 Hs Hn. rewrite advance_array_iff by done. split.
  - intros (w & Hw & Hr). pose proof (reads_byte_ok _ _ _ _ Hok Hr) as Hb.
    destruct (proj1 (arrays_iff size n w ltac:(lia) ltac:(lia)) (conj Hw Hb)) as (l & ? & ? & <-).
    by exists l.
  - intros (l & Hl & Ha & Hr). exists (concat l). split; [|done].
    by apply (proj2 (arrays_iff size n (concat l) ltac:(lia) ltac:(lia))); eauto.
Qed.

(** A string of [n] bytes. *)
Lemma advance_bytes_iff n off off' :
  0 ≤ off → 0 ≤ n < 2 ^ 16 →
  advance_offset_for_array bytes 1 n off = Ok (tt, off') ↔
  ∃ w, zlen w = n ∧ Forall byte_ok w ∧ reads bytes off w off'.
Proof using All.
  intros H0 Hn. rewrite advance_array_iff by lia. rewrite Z.mul_1_r. split.
  - intros (w & Hw & Hr). exists w. split_and!; auto. by eapply reads_byte_ok.
  - intros (w & Hw & _ & Hr). by exists w.
Qed.

Lemma advance_type_array_iff size off off' :
  0 ≤ off → 0 < size ≤ 64 →
  advance_offset_for_type bytes size off = Ok (tt, off') ↔
  ∃ w, array_ok size w ∧ reads bytes off w off'.
Proof using All.
  intros H0 Hs. rewrite advance_type_iff by done. split.
  - intros (w & Hw & Hr). exists w. split; [|done]. split; [done|]. by eapply reads_byte_ok.
  - intros (w & [Hw _] & Hr). by exists w.
Qed.

Lemma byte_read off b off' : reads bytes off [b] off' → byte_ok b ∧ off' = off + 1 ∧ 0 ≤ off'.
Proof using Hok.
  intros (? & -> & H)%reads_byte. split; [by eapply byte_at|lia].
Qed.

(** *** Signatures and keys: a count, then as many arrays *)

Definition counted {A} (size max : Z) (mk : Z → Z → A) : parser A :=
  n ← read_byte bytes;
  if (n =? 0) || (max <? n) then reject ParseError
  else
    offset ← get_offset;
    o ← pure_ (try_u32_offset offset);
    _ ← advance_offset_for_array bytes size n;
    mret (mk n o).

Lemma counted_iff {A} size max (mk : Z → Z → A) off f off' :
  0 ≤ off → 0 < size ≤ 64 → max < 256 →
  counted size max mk off = Ok (f, off') ↔
  ∃ l, Forall (array_ok size) l ∧ 1 ≤ zlen l ≤ max ∧
    reads bytes off ([zlen l] ++ concat l) off' ∧ f = mk (zlen l) (off + 1).
Proof using All.
  intros H0 Hs Hmax. unfold counted. rewrite pbind_iff. split.
  - intros (n & off1 & Hn & H). apply read_byte_iff in Hn; auto.
    destruct (byte_read _ _ _ Hn) as (Hb & -> & _).
    destruct ((n =? 0) || (max <? n)) eqn:Ec; [done|]. bool_to_prop.
    apply pbind_iff in H as (? & ? & [-> ->]%get_iff & H).
    apply pbind_iff in H as (? & ? & [[-> _]%try_u32_iff ->]%pure_iff & H).
    apply pbind_iff in H as ([] & off2 & Ha & [-> ->]%pret_iff). unfold byte_ok in Hb.
    apply advance_arrays_iff in Ha as (l & Hl & Hf & Hr); [|lia..].
    exists l. rewrite Hl. split_and!; auto; [lia|]. apply reads_app. eauto.
  - intros (l & Hf & Hc & (off1 & Hn & Hr)%reads_app & ->).
    destruct (byte_read _ _ _ Hn) as (_ & -> & _). exists (zlen l), (off + 1).
    split; [by apply read_byte_iff|].
    destruct ((zlen l =? 0) || (max <? zlen l)) eqn:Ec; [apply orb_true_iff in Ec; lia|].
    pose proof (reads_bounds _ _ _ _ Hr).
    p_get.
    p_u32.
    apply pbind_iff. exists tt, off'. split; [|done].
    apply advance_arrays_iff; [lia..|]. eauto.
Qed.

Lemma signature_iff off f off' :
  0 ≤ off →
  signature_try_new bytes off = Ok (f, off') ↔
  ∃ l, Forall (array_ok SIGNATURE_SIZE) l ∧ 1 ≤ zlen l ≤ MAX_SIGNATURES_PER_PACKET ∧
    reads bytes off ([zlen l] ++ concat l) off' ∧
    f = {| num_signatures_ := zlen l; sig_offset := off + 1 |}.
Proof using All.
  intros H0. by apply (counted_iff SIGNATURE_SIZE MAX_SIGNATURES_PER_PACKET Build_SignatureFrame).
Qed.

Lemma keys_iff off f off' :
  0 ≤ off →
  keys_try_new bytes off = Ok (f, off') ↔
  ∃ l, Forall (array_ok PUBKEY_SIZE) l ∧
    1 ≤ zlen l ≤ LEGACY_OR_V0_MAX_STATIC_ACCOUNTS_PER_PACKET ∧
    reads bytes off ([zlen l] ++ concat l) off' ∧
    f = {| num_static_accounts := zlen l; keys_offset := off + 1 |}.
Proof using All.
  intros H0. by apply (counted_iff PUBKEY_SIZE LEGACY_OR_V0_MAX_STATIC_ACCOUNTS_PER_PACKET
    Build_StaticAccountKeysFrame).
Qed.

(** *** The message header *)

Definition prefix_of_version (v : TransactionVersion) : list Z :=
  if bool_decide (v = V0) then [MESSAGE_VERSION_PREFIX] else [].

Lemma header_iff off f off' :
  0 ≤ off →
  header_try_new_legacy_or_v0 bytes off = Ok (f, off') ↔
  ∃ v a b c, (v = V0 ∨ v = Legacy ∧ a < 128) ∧ Forall byte_ok [a; b; c] ∧
    reads bytes off (prefix_of_version v ++ [a; b; c]) off' ∧
    f = {| msg_offset := off; version_ := v; num_required_signatures_ := a;
           num_readonly_signed_accounts := b; num_readonly_unsigned_accounts := c |}.
Proof using All.
  intros H0. unfold header_try_new_legacy_or_v0. split.
  - intros H. apply pbind_iff in H as (? & ? & [-> ->]%get_iff & H).
    apply pbind_iff in H as (? & ? & [[-> _]%try_u32_iff ->]%pure_iff & H).
    apply pbind_iff in H as (p & o1 & Hp & H). apply read_byte_iff in Hp; auto.
    destruct (byte_read _ _ _ Hp) as (Bp & E1 & P1).
    apply pbind_iff in H as ([v a] & o2 & Hv & H).
    assert (Hva : 0 ≤ o2 ∧ byte_ok a ∧ (v = V0 ∨ v = Legacy ∧ a < 128) ∧
      reads bytes off (prefix_of_version v ++ [a]) o2).
    { unfold MESSAGE_VERSION_PREFIX in Hv. rewrite land_128 in Hv by done.
      destruct (Z.ltb_spec p 128) as [Hlt|Hge]; cbn [negb] in Hv.
      - apply pret_iff in Hv as [[= -> ->] ->]. split_and!; auto.
      - destruct (Z.eqb_spec (Z.ldiff p 128) 0) as [El|]; [|done].
        assert (p = 128) as ->.
        { unfold byte_ok in Bp. pose proof (Z.lor_ldiff_and p 128) as E.
          rewrite El, Z.lor_0_l, land_128_high in E by lia. done. }
        apply pbind_iff in Hv as (n & o3 & Hn & [[= -> ->] ->]%pret_iff).
        apply read_byte_iff in Hn; auto. destruct (byte_read _ _ _ Hn) as (Bn & ? & ?).
        split_and!; auto. apply reads_app. eauto. }
    destruct Hva as (P2 & Ba & Hv' & Hr). clear Hv.
    apply pbind_iff in H as (b & o3 & Hb & H). apply read_byte_iff in Hb; auto.
    destruct (byte_read _ _ _ Hb) as (Bb & ? & ?).
    apply pbind_iff in H as (c & o4 & Hc & [-> ->]%pret_iff). apply read_byte_iff in Hc; auto.
    destruct (byte_read _ _ _ Hc) as (Bc & ? & ?).
    exists v, a, b, c. split_and!; auto.
    change [a; b; c] with ([a] ++ [b] ++ [c]). rewrite app_assoc. apply reads_app.
    exists o2. split; [done|]. apply reads_app. eauto.
  - intros (v & a & b & c & Hv & Hb & Hr & ->).
    assert (Hb' : byte_ok a ∧ byte_ok b ∧ byte_ok c)
      by (rewrite !list.Forall_cons in Hb; tauto).
    destruct Hb' as (Ba & Bb & Bc).
    apply reads_app in Hr as (o1 & Hp & Hr). apply reads_cons in Hr as (o2 & Ha & Hr).
    apply reads_cons in Hr as (o3 & Hb' & Hc).
    pose proof (reads_bounds _ _ _ _ Hp). pose proof (reads_bounds _ _ _ _ Ha).
    pose proof (reads_bounds _ _ _ _ Hb'). pose proof (reads_bounds _ _ _ _ Hc).
    p_get.
    p_u32.
    assert (Htail : ∀ o, o = o2 → (num_readonly_signed_accounts ← read_byte bytes;
      num_readonly_unsigned_accounts ← read_byte bytes;
      mret {| msg_offset := off; version_ := v; num_required_signatures_ := a;
              num_readonly_signed_accounts := num_readonly_signed_accounts;
              num_readonly_unsigned_accounts := num_readonly_unsigned_accounts |}) o =
      Ok ({| msg_offset := off; version_ := v; num_required_signatures_ := a;
             num_readonly_signed_accounts := b; num_readonly_unsigned_accounts := c |}, off')).
    { intros o ->. apply pbind_iff. exists b, o3. split; [apply read_byte_iff; auto; lia|].
      apply pbind_iff. exists c, off'. split; [apply read_byte_iff; auto; lia|done]. }
    destruct Hv as [->|[-> Hlt]]; simpl in Hp.
    + apply pbind_iff. exists 128, o1. split; [by apply read_byte_iff|].
      apply pbind_iff. exists (V0, a), o2. split; [|by apply Htail]. simpl.
      apply pbind_iff. exists a, o2. split; [apply read_byte_iff; auto; lia|done].
    + apply reads_nil in Hp as [_ ->]. apply pbind_iff. exists a, o2.
      split; [by apply read_byte_iff|].
      apply pbind_iff. exists (Legacy, a), o2. split; [|by apply Htail].
      unfold MESSAGE_VERSION_PREFIX. rewrite land_128 by done.
      destruct (Z.ltb_spec a 128); [done|lia].
Qed.

(** *** Strings with a compact length *)

Definition short_string : parser (Z * Z) :=
  start ← get_offset;
  n ← read_compressed_u16 bytes;
  len ← encoded_len start;
  _ ← advance_offset_for_array bytes 1 n;
  mret (n, len).

Lemma zlen_enc16 n : 1 ≤ zlen (enc16 n) ≤ 3.
Proof using Type. unfold enc16. repeat case_match; unfold zlen; simpl; lia. Qed.

Lemma encoded_len_iff start off a off' :
  encoded_len start off = Ok (a, off') ↔ a = off - start ∧ off' = off ∧ 0 ≤ off - start < 256.
Proof using Type.
  unfold encoded_len. rewrite pbind_iff. setoid_rewrite get_iff. split.
  - intros (? & ? & [-> ->] & H). apply pbind_iff in H as (len & ? & [Hc ->]%pure_iff & H).
    destruct (checked_sub off start) as [l|] eqn:Es; simplify_eq/=.
    apply checked_sub_Some in Es as [-> ?]. destruct (Z.ltb_spec (off - start) 256); [|done].
    apply pret_iff in H as [-> ->]. lia.
  - intros (-> & -> & H). eexists _, _. split; [done|]. apply pbind_iff.
    exists (off - start), off. split.
    + apply pure_iff. split; [|done]. unfold checked_sub. destruct (Z.leb_spec start off); [done|lia].
    + destruct (Z.ltb_spec (off - start) 256); [done|lia].
Qed.

Lemma short_string_iff off r off' :
  0 ≤ off →
  short_string off = Ok (r, off') ↔
  ∃ w, short w ∧ reads bytes off (enc16 (zlen w) ++ w) off' ∧
       r = (zlen w, zlen (enc16 (zlen w))).
Proof using All.
  intros H0. unfold short_string. rewrite pbind_iff. setoid_rewrite get_iff. split.
  - intros (? & ? & [-> ->] & H). apply pbind_iff in H as (n & o1 & Hn & H).
    apply read_compressed_u16_iff in Hn as [Hn Hr]; auto. unfold fits in Hn.
    pose proof (reads_bounds _ _ _ _ Hr).
    apply pbind_iff in H as (l & ? & (-> & -> & _)%encoded_len_iff & H).
    apply pbind_iff in H as ([] & o2 & Ha & [-> ->]%pret_iff).
    apply advance_bytes_iff in Ha as (w & <- & Hw & Hr'); [|lia..].
    exists w. split; [by split; [lia|]|]. split; [apply reads_app; eauto|]. f_equal. lia.
  - intros (w & [Hw Hb] & (o1 & Hr & Hr')%reads_app & ->). eexists _, _. split; [done|].
    pose proof (reads_bounds _ _ _ _ Hr). pose proof (zlen_nonneg w).
    pose proof (zlen_enc16 (zlen w)).
    apply pbind_iff. exists (zlen w), o1.
    split; [by apply read_compressed_u16_iff; auto; split; [unfold fits; lia|]|].
    apply pbind_iff. exists (zlen (enc16 (zlen w))), o1.
    split; [apply encoded_len_iff; lia|].
    apply pbind_iff. exists tt, off'. split; [|done]. apply advance_bytes_iff; [lia..|]. eauto.
Qed.

(** *** Legacy instructions *)

Definition frame_of (ix : SVMInstruction) : LegacyAndV0InstructionFrame :=
  {| num_accounts := zlen (ix_accounts ix); data_len_ := zlen (ix_data ix);
     num_accounts_len := zlen (enc16 (zlen (ix_accounts ix)));
     data_len_len := zlen (enc16 (zlen (ix_data ix))) |}.

Lemma instruction_eq off :
  instruction_try_new bytes off =
  (_ ← read_byte bytes; a ← short_string; d ← short_string;
   mret {| num_accounts := a.1; data_len_ := d.1; num_accounts_len := a.2;
           data_len_len := d.2 |}) off.
Proof using Type.
  unfold instruction_try_new, short_string, mbind, parser_bind, get_offset. simpl.
  destruct (read_byte bytes off) as [[b o]|]; simpl; [|done].
  destruct (read_compressed_u16 bytes o) as [[n o1]|]; simpl; [|done].
  destruct (encoded_len o o1) as [[l o2]|]; simpl; [|done].
  destruct (advance_offset_for_array bytes 1 n o2) as [[[] o3]|]; simpl; [|done].
  destruct (read_compressed_u16 bytes o3) as [[n' o4]|]; simpl; [|done].
  destruct (encoded_len o3 o4) as [[l' o5]|]; simpl; [|done].
  by destruct (advance_offset_for_array bytes 1 n' o5) as [[[] o6]|]; simpl.
Qed.

Lemma instruction_iff off f off' :
  0 ≤ off →
  instruction_try_new bytes off = Ok (f, off') ↔
  ∃ ix, instruction_ok ix ∧ reads bytes off (wire_instruction ix) off' ∧ f = frame_of ix.
Proof using All.
  intros H0. rewrite instruction_eq. split.
  - intros H. apply pbind_iff in H as (p & o1 & Hp & H). apply read_byte_iff in Hp; auto.
    destruct (byte_read _ _ _ Hp) as (Bp & _ & ?).
    apply pbind_iff in H as (? & o2 & (a & Sa & Ra & ->)%short_string_iff & H); auto.
    pose proof (reads_bounds _ _ _ _ Ra).
    apply pbind_iff in H as (? & o3 & (d & Sd & Rd & ->)%short_string_iff & [-> ->]%pret_iff); [|lia].
    exists {| program_id_index := p; ix_accounts := a; ix_data := d |}.
    split; [done|]. split; [|done]. unfold wire_instruction. simpl.
    apply reads_cons. exists o1. split; [done|]. rewrite app_assoc. apply reads_app. eauto.
  - intros (ix & (Bp & Sa & Sd) & Hr & ->). unfold wire_instruction in Hr.
    apply reads_app in Hr as (o1 & Rp & Hr). rewrite app_assoc in Hr.
    apply reads_app in Hr as (o2 & Ra & Rd).
    pose proof (reads_bounds _ _ _ _ Rp). pose proof (reads_bounds _ _ _ _ Ra).
    apply pbind_iff. exists (program_id_index ix), o1. split; [by apply read_byte_iff|].
    apply pbind_iff. eexists _, o2. split; [apply short_string_iff; [lia|]; eauto|].
    apply pbind_iff. eexists _, off'. split; [apply short_string_iff; [lia|]; eauto|]. done.
Qed.

(** *** Repetition *)

Lemma repeat_parser_iff {A B} (p : parser A) (ok : B → Prop) (w : B → list Z) (g : B → A) n off r off' :
  (∀ off a off', 0 ≤ off → p off = Ok (a, off') ↔ ∃ b, ok b ∧ reads bytes off (w b) off' ∧ a = g b) →
  0 ≤ off ≤ zlen bytes →
  repeat_parser n p off = Ok (r, off') ↔
  ∃ l, length l = n ∧ Forall ok l ∧ reads bytes off (concat (w <$> l)) off' ∧ r = g <$> l.
Proof using Type.
  intros Hp. revert off r off'. induction n as [|n IH]; intros off r off' H0; cbn [repeat_parser].
  - rewrite pret_iff. split.
    + intros [-> ->]. exists []. split_and!; auto. by apply reads_nil.
    + intros (l & ->%nil_length_inv & _ & [_ ->]%reads_nil & ->). done.
  - split.
    + intros H. apply pbind_iff in H as (a & o1 & (b & Hb & Rb & ->)%Hp & H); [|lia].
      pose proof (reads_bounds _ _ _ _ Rb).
      apply pbind_iff in H as (xs & o2 & (l & <- & Hl & Rl & ->)%IH & [-> ->]%pret_iff); [|lia].
      exists (b :: l). split_and!; auto. apply reads_concat. eauto.
    + intros (l & Hn & Hl & Hr & ->). destruct l as [|b l]; [done|].
      apply list.Forall_cons in Hl as [Hb Hl]. apply reads_concat in Hr as (o1 & Rb & Rl).
      pose proof (reads_bounds _ _ _ _ Rb).
      apply pbind_iff. exists (g b), o1. split; [apply Hp; [lia|]; eauto|].
      apply pbind_iff. exists (g <$> l), off'. split; [|done].
      apply IH; [lia|]. exists l. split_and!; auto.
Qed.

Lemma wire_instruction_min l : 3 * zlen l ≤ zlen (concat (wire_instruction <$> l)).
Proof using Type.
  induction l as [|ix l IH]; [done|].
  rewrite fmap_cons, List.concat_cons, zlen_app, zlen_cons. unfold wire_instruction at 1.
  rewrite !zlen_app, zlen_cons. pose proof (zlen_enc16 (zlen (ix_accounts ix))).
  pose proof (zlen_enc16 (zlen (ix_data ix))). pose proof (zlen_nonneg (ix_accounts ix)).
  pose proof (zlen_nonneg (ix_data ix)). change (zlen []) with 0. lia.
Qed.

Lemma instructions_iff off f off' :
  0 ≤ off →
  instructions_try_new_for_legacy_and_v0 bytes off = Ok (f, off') ↔
  ∃ l, zlen l < 2 ^ 16 ∧ Forall instruction_ok l ∧
    reads bytes off (enc16 (zlen l) ++ concat (wire_instruction <$> l)) off' ∧
    f = ILegacyAndV0 (zlen l) (off + zlen (enc16 (zlen l))) (frame_of <$> l).
Proof using All.
  intros H0. unfold instructions_try_new_for_legacy_and_v0. split.
  - intros H. apply pbind_iff in H as (n & o1 & [Hn Hr]%read_compressed_u16_iff & H); auto.
    unfold fits in Hn. pose proof (reads_bounds _ _ _ _ Hr).
    apply pbind_iff in H as (? & ? & [_ ->]%pure_iff & H).
    apply pbind_iff in H as (? & ? & [-> ->]%get_iff & H).
    apply pbind_iff in H as (? & ? & [_ ->]%pure_iff & H).
    apply pbind_iff in H as (? & ? & [[-> _]%try_u32_iff ->]%pure_iff & H).
    apply pbind_iff in H as (fs & o2 & Hf & [-> ->]%pret_iff).
    apply (repeat_parser_iff _ instruction_ok wire_instruction frame_of) in Hf
      as (l & Hl & Hok' & Hrl & ->); [|apply instruction_iff|lia].
    assert (E : zlen l = n) by (unfold zlen; lia). exists l. rewrite E.
    split_and!; auto; [lia|apply reads_app; eauto|]. f_equal. lia.
  - intros (l & Hl & Hf & (o1 & Hr & Hrl)%reads_app & ->). pose proof (zlen_nonneg l).
    pose proof (reads_bounds _ _ _ _ Hr). pose proof (reads_bounds _ _ _ _ Hrl).
    pose proof (wire_instruction_min l).
    apply pbind_iff. exists (zlen l), o1.
    split; [by apply read_compressed_u16_iff; auto; split; [unfold fits; lia|]|].
    p_pure ltac:(apply mul64_ok; lia).
    p_get.
    p_pure ltac:(apply check_remaining_iff; lia).
    p_u32.
    apply pbind_iff. exists (frame_of <$> l), off'. split.
    + apply (repeat_parser_iff _ instruction_ok wire_instruction frame_of); [apply instruction_iff|lia|].
      exists l. split_and!; auto. unfold zlen. lia.
    + apply pret_iff. split; [f_equal; lia|done].
Qed.

(** *** Lookup tables *)

Lemma lookup_iff t t' off off' :
  0 ≤ off → 0 ≤ t.1 → 0 ≤ t.2 → t.1 + 2 ^ 16 ≤ 2 ^ 32 → t.2 + 2 ^ 16 ≤ 2 ^ 32 →
  lookup_try_new bytes t off = Ok (t', off') ↔
  ∃ l, lookup_ok l ∧ reads bytes off (wire_lookup l) off' ∧
    t' = (t.1 + zlen (writable_indexes l), t.2 + zlen (readonly_indexes l)).
Proof using All.
  intros H0 T1 T2 B1 B2. unfold lookup_try_new, wire_lookup. split.
  - intros H. apply pbind_iff in H as ([] & o1 & (k & Hk & Rk)%advance_type_array_iff & H);
      [|done|unfold PUBKEY_SIZE; lia].
    pose proof (reads_bounds _ _ _ _ Rk).
    apply pbind_iff in H as (n & o2 & [Hn Rn]%read_compressed_u16_iff & H); [|done..|lia].
    pose proof (reads_bounds _ _ _ _ Rn). unfold fits in Hn.
    apply pbind_iff in H as (x & ? & [Hx ->]%pure_iff & H). unfold checked_add in Hx.
    destruct (Z.ltb_spec (t.1 + n) (2 ^ 32)); [|lia]. injection Hx as <-.
    apply pbind_iff in H as ([] & o3 & (w & <- & Hw & Rw)%advance_bytes_iff & H); [|lia..].
    pose proof (reads_bounds _ _ _ _ Rw).
    apply pbind_iff in H as (n' & o4 & [Hn' Rn']%read_compressed_u16_iff & H); [|done..|lia].
    pose proof (reads_bounds _ _ _ _ Rn'). unfold fits in Hn'.
    apply pbind_iff in H as (x & ? & [Hx ->]%pure_iff & H). unfold checked_add in Hx.
    destruct (Z.ltb_spec (t.2 + n') (2 ^ 32)); [|lia]. injection Hx as <-.
    apply pbind_iff in H as ([] & o5 & (r & <- & Hr & Rr)%advance_bytes_iff & [-> ->]%pret_iff); [|lia..].
    exists {| account_key := k; writable_indexes := w; readonly_indexes := r |}. simpl.
    split; [by split; [|split; (split; [simpl; lia|])]|]. split; [|done].
    apply reads_app. exists o1. split; [done|]. apply reads_app. exists o2. split; [done|].
    apply reads_app. exists o3. split; [done|]. apply reads_app. eauto.
  - intros (l & (Hk & [Lw Hw] & [Lr Hr]) & R & ->).
    apply reads_app in R as (o1 & Rk & R). apply reads_app in R as (o2 & Rn & R).
    apply reads_app in R as (o3 & Rw & R). apply reads_app in R as (o4 & Rn' & Rr).
    pose proof (reads_bounds _ _ _ _ Rk). pose proof (reads_bounds _ _ _ _ Rn).
    pose proof (reads_bounds _ _ _ _ Rw). pose proof (reads_bounds _ _ _ _ Rn').
    pose proof (zlen_nonneg (writable_indexes l)). pose proof (zlen_nonneg (readonly_indexes l)).
    apply pbind_iff. exists tt, o1. split; [apply advance_type_array_iff; [lia|unfold PUBKEY_SIZE; lia|eauto]|].
    apply pbind_iff. exists (zlen (writable_indexes l)), o2.
    split; [apply read_compressed_u16_iff; auto; [lia|]; split; [unfold fits; lia|exact Rn]|].
    p_pure ltac:(apply add_ok; lia).
    apply pbind_iff. exists tt, o3. split; [apply advance_bytes_iff; [lia..|eauto]|].
    apply pbind_iff. exists (zlen (readonly_indexes l)), o4.
    split; [apply read_compressed_u16_iff; auto; [lia|]; split; [unfold fits; lia|exact Rn']|].
    p_pure ltac:(apply add_ok; lia).
    apply pbind_iff. exists tt, off'. split; [apply advance_bytes_iff; [lia..|eauto]|]. done.
Qed.

Lemma sum_len_cons {A} (f : A → list Z) x l : sum_len f (x :: l) = zlen (f x) + sum_len f l.
Proof using Type. unfold sum_len. by rewrite fmap_cons, List.concat_cons, zlen_app. Qed.

Lemma lookups_loop_iff n t t' off off' :
  0 ≤ off ≤ zlen bytes → 0 ≤ t.1 → 0 ≤ t.2 →
  t.1 + Z.of_nat n * 2 ^ 16 ≤ 2 ^ 32 → t.2 + Z.of_nat n * 2 ^ 16 ≤ 2 ^ 32 →
  lookups_loop bytes n t off = Ok (t', off') ↔
  ∃ l, length l = n ∧ Forall lookup_ok l ∧ reads bytes off (concat (wire_lookup <$> l)) off' ∧
    t' = (t.1 + sum_len writable_indexes l, t.2 + sum_len readonly_indexes l).
Proof using All.
  revert t off. induction n as [|n IH]; intros t off H0 T1 T2 B1 B2; cbn [lookups_loop].
  - rewrite pret_iff. split.
    + intros [-> ->]. exists []. split_and!; auto; [by apply reads_nil|].
      change (sum_len _ []) with 0. destruct t. simpl. f_equal; lia.
    + intros (l & ->%nil_length_inv & _ & [_ ->]%reads_nil & ->). split; [|done].
      change (sum_len _ []) with 0. destruct t. simpl. f_equal; lia.
  - split.
    + intros H. apply pbind_iff in H as (t1 & o1 & (x & Hx & Rx & ->)%lookup_iff & H); [|lia..].
      pose proof (reads_bounds _ _ _ _ Rx). destruct Hx as (? & [? ?] & [? ?]).
      pose proof (zlen_nonneg (writable_indexes x)). pose proof (zlen_nonneg (readonly_indexes x)).
      apply IH in H as (l & <- & Hl & Rl & ->); [|simpl; lia..].
      exists (x :: l). split_and!; auto; [by constructor; [split_and!|]|apply reads_concat; eauto|].
      rewrite !sum_len_cons. simpl. f_equal; lia.
    + intros (l & Hn & Hl & R & ->). destruct l as [|x l]; [done|]. injection Hn as Hn.
      apply list.Forall_cons in Hl as [Hx Hl]. apply reads_concat in R as (o1 & Rx & Rl).
      pose proof (reads_bounds _ _ _ _ Rx). apply pbind_iff. eexists _, o1.
      split; [apply lookup_iff; [lia..|]; eauto|]. destruct Hx as (? & [? ?] & [? ?]).
      pose proof (zlen_nonneg (writable_indexes x)). pose proof (zlen_nonneg (readonly_indexes x)).
      apply IH; [simpl; lia..|]. exists l. split_and!; auto. rewrite !sum_len_cons. simpl. f_equal; lia.
Qed.

Lemma try_u16_iff x a : try_u16 x = Ok a ↔ a = x ∧ x < 2 ^ 16.
Proof using Type. unfold try_u16. destruct (Z.ltb_spec x (2 ^ 16)); naive_solver lia. Qed.

Lemma lookups_iff off f off' :
  0 ≤ off →
  lookups_try_new bytes off = Ok (f, off') ↔
  ∃ l, zlen l ≤ MAX_ATLS_PER_PACKET ∧ Forall lookup_ok l ∧
    MIN_SIZED_ATL * zlen l ≤ zlen bytes - (off + 1) ∧
    sum_len writable_indexes l < 2 ^ 16 ∧ sum_len readonly_indexes l < 2 ^ 16 ∧
    reads bytes off ([zlen l] ++ concat (wire_lookup <$> l)) off' ∧
    f = {| num_address_table_lookups_ := zlen l; atl_offset := off + 1;
           total_writable := sum_len writable_indexes l;
           total_readonly := sum_len readonly_indexes l |}.
Proof using All.
  intros H0. change MAX_ATLS_PER_PACKET with 31. unfold lookups_try_new.
  change MAX_ATLS_PER_PACKET with 31. change MIN_SIZED_ATL with 35. split.
  - intros H. apply pbind_iff in H as (n & o1 & Hn%read_byte_iff & H); auto.
    destruct (byte_read _ _ _ Hn) as (Bn & -> & ?). unfold byte_ok in Bn.
    destruct (Z.ltb_spec 31 n); [done|].
    apply pbind_iff in H as (x & ? & [Hx ->]%pure_iff & H). unfold checked_mul in Hx.
    destruct (Z.ltb_spec (35 * n) (2 ^ 64)); [|lia]. injection Hx as <-.
    apply pbind_iff in H as (? & ? & [-> ->]%get_iff & H).
    apply pbind_iff in H as ([] & ? & [Hc ->]%pure_iff & H).
    apply check_remaining_iff in Hc; [|done|lia..].
    apply pbind_iff in H as (? & ? & [[-> _]%try_u32_iff ->]%pure_iff & H).
    apply pbind_iff in H as (tt' & o2 & Ht & H).
    apply lookups_loop_iff in Ht as (l & Hl & Hf & Rl & ->); [|simpl; lia..].
    apply pbind_iff in H as (? & ? & [[-> Hw]%try_u16_iff ->]%pure_iff & H).
    apply pbind_iff in H as (? & ? & [[-> Hr]%try_u16_iff ->]%pure_iff & [-> ->]%pret_iff).
    assert (E : zlen l = n) by (unfold zlen; lia). simpl in *. rewrite !Z.add_0_l in *.
    exists l. rewrite E. split_and!; auto; [lia|]. apply reads_cons. eauto.
  - intros (l & Hn & Hf & Hm & Sw & Sr & (o1 & Rn & Rl)%reads_app & ->).
    destruct (byte_read _ _ _ Rn) as (_ & -> & _). pose proof (zlen_nonneg l).
    pose proof (reads_bounds _ _ _ _ Rl).
    apply pbind_iff. exists (zlen l), (off + 1). split; [by apply read_byte_iff|].
    destruct (Z.ltb_spec 31 (zlen l)); [lia|].
    p_pure ltac:(apply mul64_ok; lia).
    p_get.
    p_pure ltac:(apply check_remaining_iff; lia).
    p_u32.
    apply pbind_iff. exists (sum_len writable_indexes l, sum_len readonly_indexes l), off'. split.
    + apply lookups_loop_iff; [simpl; unfold zlen in *; lia..|]. exists l.
      split_and!; auto. unfold zlen. lia.
    + apply pbind_iff. eexists _, _. split; [apply pure_iff; split; [by apply try_u16_iff|done]|].
      apply pbind_iff. eexists _, _. split; [apply pure_iff; split; [by apply try_u16_iff|done]|].
      done.
Qed.

(** *** The configuration *)

Definition flags_mask (b0 b1 b2 b3 : bool) : Z :=
  (if b0 then 3 else 0) + (if b1 then 4 else 0) + (if b2 then 8 else 0) + (if b3 then 16 else 0).

Definition flag_combinations : list (bool * bool * bool * bool) :=
  b0 ← [true; false]; b1 ← [true; false]; b2 ← [true; false]; b3 ← [true; false];
  [(b0, b1, b2, b3)].

Lemma sanitize_mask_flags mask :
  0 ≤ mask → sanitize_mask mask = Ok tt → ∃ b0 b1 b2 b3, mask = flags_mask b0 b1 b2 b3.
Proof using Type.
  intros H0 H. assert (Hm : mask < 32).
  { unfold sanitize_mask in H. destruct (Z.eqb_spec (Z.ldiff mask 31) 0) as [E|]; [|done].
    pose proof (Z.lor_ldiff_and mask 31) as E'. rewrite E, Z.lor_0_l in E'.
    change 31 with (Z.ones 5) in E'. rewrite Z.land_ones in E' by lia.
    pose proof (Z.mod_pos_bound mask (2 ^ 5)). lia. }
  set (check := λ m, negb (is_ok (sanitize_mask m)) ||
    existsb (λ '(b0, b1, b2, b3), m =? flags_mask b0 b1 b2 b3) flag_combinations).
  assert (Hall : forallb check (seqZ 0 32) = true) by (vm_compute; reflexivity).
  rewrite forallb_forall in Hall. specialize (Hall mask).
  rewrite <- list_elem_of_In, elem_of_seqZ in Hall. specialize (Hall ltac:(lia)).
  unfold check in Hall. rewrite H in Hall. simpl is_ok in Hall. cbn [negb orb] in Hall.
  apply existsb_exists in Hall as ([[[b0 b1] b2] b3] & _ & E). apply Z.eqb_eq in E. eauto.
Qed.

Lemma flags_mask_ok b0 b1 b2 b3 :
  sanitize_mask (flags_mask b0 b1 b2 b3) = Ok tt ∧
  count_ones 32 (flags_mask b0 b1 b2 b3) =
    (if b0 then 2 else 0) + (if b1 then 1 else 0) + (if b2 then 1 else 0) + (if b3 then 1 else 0).
Proof using Type. destruct b0, b1, b2, b3; by vm_compute. Qed.

Definition has {A} (o : option A) : bool := match o with Some _ => true | None => false end.

Lemma config_mask_flags c :
  config_mask c =
  flags_mask (has (c_fee c)) (has (c_compute_units c)) (has (c_loaded_size c)) (has (c_heap c)).
Proof using Type. by destruct c as [[] [] [] []]. Qed.

Lemma zlen_wire_word n o : zlen (wire_word n o) = if has o then Z.of_nat n else 0.
Proof using Type. unfold zlen. destruct o; simpl; [by rewrite length_le_bytes|done]. Qed.

(** Any string of the right length is the encoding of one word, or of none. *)
Lemma wire_word_exists (b : bool) n w :
  Forall byte_ok w → zlen w = (if b then Z.of_nat n else 0) →
  ∃ o, has o = b ∧ word_ok (8 * Z.of_nat n) o ∧ wire_word n o = w.
Proof using Type.
  intros Hw Hl. destruct b.
  - exists (Some (le_num w)). assert (length w = n) as <- by (unfold zlen in Hl; lia).
    split_and!; [done| |by simpl; rewrite le_bytes_le_num].
    simpl. unfold fits. pose proof (le_num_range w Hw) as H.
    rewrite (Z.pow_mul_r 2 8) by lia. done.
  - exists None. apply zlen_0 in Hl as ->. done.
Qed.

Lemma config_exists b0 b1 b2 b3 w :
  Forall byte_ok w → zlen w = count_ones 32 (flags_mask b0 b1 b2 b3) * 4 →
  ∃ c, config_ok c ∧ config_mask c = flags_mask b0 b1 b2 b3 ∧ wire_config c = w.
Proof using Type.
  intros Hw. rewrite (proj2 (flags_mask_ok b0 b1 b2 b3)). intros Hl.
  set (n0 := if b0 then 8%nat else 0%nat). set (n1 := if b1 then 4%nat else 0%nat).
  set (n2 := if b2 then 4%nat else 0%nat).
  assert (Hs : w = take n0 w ++ take n1 (drop n0 w) ++ take n2 (drop n1 (drop n0 w)) ++
    drop n2 (drop n1 (drop n0 w))) by (by rewrite !take_drop).
  assert (Hlen' : length w = (n0 + n1 + n2 + if b3 then 4 else 0)%nat)
    by (unfold zlen in Hl; unfold n0, n1, n2; destruct b0, b1, b2, b3; lia).
  destruct (wire_word_exists b0 8 (take n0 w)) as (o0 & F0 & W0 & E0);
    [by apply Forall_take|unfold zlen; rewrite length_take; unfold n0 in *; destruct b0; lia|].
  destruct (wire_word_exists b1 4 (take n1 (drop n0 w))) as (o1 & F1 & W1 & E1);
    [by apply Forall_take, Forall_drop|
     unfold zlen; rewrite length_take, length_drop; unfold n1 in *; destruct b1; lia|].
  destruct (wire_word_exists b2 4 (take n2 (drop n1 (drop n0 w)))) as (o2 & F2 & W2 & E2);
    [by apply Forall_take, Forall_drop, Forall_drop|
     unfold zlen; rewrite length_take, !length_drop; unfold n2 in *; destruct b2; lia|].
  destruct (wire_word_exists b3 4 (drop n2 (drop n1 (drop n0 w)))) as (o3 & F3 & W3 & E3);
    [by apply Forall_drop, Forall_drop, Forall_drop|
     unfold zlen; rewrite !length_drop; destruct b3; lia|].
  exists {| c_fee := o0; c_compute_units := o1; c_loaded_size := o2; c_heap := o3 |}.
  split_and!; [by split_and!| |].
  - rewrite config_mask_flags. simpl. congruence.
  - unfold wire_config. simpl. by rewrite E0, E1, E2, E3, <- Hs.
Qed.

Lemma zlen_wire_config c : zlen (wire_config c) = count_ones 32 (config_mask c) * 4.
Proof using Type.
  rewrite config_mask_flags, (proj2 (flags_mask_ok _ _ _ _)). unfold wire_config.
  rewrite !zlen_app, !zlen_wire_word.
  destruct (has (c_fee c)), (has (c_compute_units c)), (has (c_loaded_size c)), (has (c_heap c)); lia.
Qed.

Lemma count_mask_bounds c : 0 ≤ count_ones 32 (config_mask c) ≤ 5.
Proof using Type.
  rewrite config_mask_flags, (proj2 (flags_mask_ok _ _ _ _)).
  destruct (has (c_fee c)), (has (c_compute_units c)), (has (c_loaded_size c)), (has (c_heap c)); lia.
Qed.

Lemma config_iff mo mask off f off' :
  0 < mo < 2 ^ 32 → 0 ≤ mask → 0 ≤ off →
  config_try_new bytes mo mask off = Ok (f, off') ↔
  ∃ c, config_ok c ∧ mask = config_mask c ∧ reads bytes off (wire_config c) off' ∧
    f = {| mask_offset := mo; mask_ := mask; values_offset := off;
           num_values := count_ones 32 mask |}.
Proof using All.
  intros Hmo Hmask H0. unfold config_try_new. destruct (Z.eqb_spec mo 0); [lia|]. split.
  - intros H. apply pbind_iff in H as ([] & ? & [Hs ->]%pure_iff & H).
    apply pbind_iff in H as (? & ? & [[-> _]%try_u32_iff ->]%pure_iff & H).
    apply pbind_iff in H as (? & ? & [-> ->]%get_iff & H).
    apply pbind_iff in H as (? & ? & [[-> _]%try_u32_iff ->]%pure_iff & H).
    apply pbind_iff in H as ([] & o2 & Ha & [-> ->]%pret_iff).
    destruct (sanitize_mask_flags mask Hmask Hs) as (b0 & b1 & b2 & b3 & Em).
    apply advance_array_iff in Ha as (w & Hw & Hr);
      [|done|done|lia|rewrite Em, (proj2 (flags_mask_ok _ _ _ _)); destruct b0, b1, b2, b3; lia].
    pose proof (reads_byte_ok _ _ _ _ Hok Hr) as Hb. rewrite Em in Hw.
    destruct (config_exists b0 b1 b2 b3 w Hb Hw) as (c & Hc & Ec & <-).
    exists c. split_and!; auto. congruence.
  - intros (c & Hc & -> & Hr & ->). pose proof (reads_bounds _ _ _ _ Hr).
    pose proof (count_mask_bounds c).
    apply pbind_iff. exists tt, off. split; [apply pure_iff; split; [|done];
      rewrite config_mask_flags; apply flags_mask_ok|].
    p_u32.
    p_get.
    p_u32.
    apply pbind_iff. exists tt, off'. split; [|done].
    apply advance_array_iff; [done|lia..|]. exists (wire_config c). split; [|done].
    apply zlen_wire_config.
Qed.

(** *** Instructions of v1 *)

Definition header_of (ix : SVMInstruction) : V1InstructionHeader :=
  {| h_program_id_index := program_id_index ix; h_num_accounts := zlen (ix_accounts ix);
     h_data_len := zlen (ix_data ix) |}.

Definition v1_header_bytes (h : V1InstructionHeader) : list Z :=
  [h_program_id_index h; h_num_accounts h] ++ le_bytes 2 (h_data_len h).

Definition v1_header_ok (h : V1InstructionHeader) : Prop :=
  byte_ok (h_program_id_index h) ∧ byte_ok (h_num_accounts h) ∧ fits 16 (h_data_len h).

Definition payload_len (h : V1InstructionHeader) : Z := h_num_accounts h + h_data_len h.
Definition payloads_len (l : list V1InstructionHeader) : Z := foldr (λ h n, payload_len h + n) 0 l.

Lemma unchecked_copy_reads size off w off' :
  reads bytes off w off' → zlen w = size → unchecked_copy_value bytes size off = Ok w.
Proof using Type.
  intros Hr Hw. unfold unchecked_copy_value. pose proof (reads_bounds _ _ _ _ Hr).
  destruct (Z.leb_spec (off + size) (zlen bytes)); [|lia].
  by rewrite <- Hw, (reads_slice _ _ _ _ Hr).
Qed.

Lemma read_v1_header_reads off h off' :
  v1_header_ok h → reads bytes off (v1_header_bytes h) off' →
  read_v1_header bytes off = Ok (h, off').
Proof using Type.
  intros (_ & _ & Hd) Hr. unfold read_v1_header.
  rewrite (unchecked_copy_reads V1_HEADER_SIZE _ _ _ Hr) by done.
  destruct (reads_bounds _ _ _ _ Hr) as (_ & _ & -> & _).
  cbn -[le_bytes le_num]. rewrite drop_0, le_round_trip by done. by destruct h.
Qed.

Lemma payloads_len_nonneg hs : Forall v1_header_ok hs → 0 ≤ payloads_len hs.
Proof using Type.
  induction 1 as [|h hs (_ & Ha & Hd) _ IH]; simpl; [done|].
  unfold payload_len, byte_ok, fits in *. lia.
Qed.

Lemma header_bytes_exist w :
  Forall byte_ok w → zlen w = 4 → ∃ h, v1_header_ok h ∧ v1_header_bytes h = w.
Proof using Type.
  intros Hw Hl. destruct w as [|a [|b w]]; [done|done|].
  rewrite !list.Forall_cons in Hw. destruct Hw as (Ha & Hb & Hw).
  assert (length w = 2%nat) as E by (unfold zlen in Hl; simpl in Hl; lia).
  exists {| h_program_id_index := a; h_num_accounts := b; h_data_len := le_num w |}.
  split; [split_and!; auto|].
  - unfold fits. simpl. pose proof (le_num_range w Hw) as H. rewrite E in H. simpl in H. lia.
  - unfold v1_header_bytes. cbn -[le_bytes le_num]. rewrite <- E, le_bytes_le_num by done. done.
Qed.

Lemma headers_exist n off off' w :
  reads bytes off w off' → zlen w = 4 * Z.of_nat n →
  ∃ hs, length hs = n ∧ Forall v1_header_ok hs ∧ concat (v1_header_bytes <$> hs) = w.
Proof using All.
  intros Hr Hl. pose proof (reads_byte_ok _ _ _ _ Hok Hr) as Hb. clear Hr.
  revert w Hl Hb. induction n as [|n IH]; intros w Hl Hb.
  - exists []. by apply zlen_0 in Hl as ->.
  - destruct (header_bytes_exist (take 4 w)) as (h & Hh & Eh);
      [by apply Forall_take|unfold zlen in *; rewrite length_take; lia|].
    destruct (IH (drop 4 w)) as (hs & E1 & E2 & E3);
      [unfold zlen in *; rewrite length_drop; lia|by apply Forall_drop|].
    exists (h :: hs). split_and!; [simpl; lia|by constructor|].
    rewrite fmap_cons, List.concat_cons, Eh, E3. apply take_drop.
Qed.

Lemma payloads_exist hs w :
  Forall v1_header_ok hs → Forall byte_ok w → zlen w = payloads_len hs →
  ∃ l, hs = header_of <$> l ∧ Forall instruction_ok l ∧
    Forall (λ ix, zlen (ix_accounts ix) < 256) l ∧ concat (wire_payload <$> l) = w.
Proof using bytes.
  intros Hh. revert w. induction Hh as [|h hs (Hp & Ha & Hd) Hhs IH]; intros w Hw Hl.
  - exists []. by apply zlen_0 in Hl as ->.
  - simpl in Hl. unfold payload_len in Hl. unfold byte_ok, fits in *.
    set (a := Z.to_nat (h_num_accounts h)). set (d := Z.to_nat (h_data_len h)).
    pose proof (payloads_len_nonneg hs Hhs).
    destruct (IH (drop d (drop a w))) as (l & -> & E2 & E3 & E4).
    { by apply Forall_drop, Forall_drop. }
    { unfold zlen in *. rewrite !length_drop. lia. }
    assert (La : zlen (take a w) = h_num_accounts h)
      by (unfold zlen in *; rewrite length_take; lia).
    assert (Ld : zlen (take d (drop a w)) = h_data_len h)
      by (unfold zlen in *; rewrite length_take, length_drop; lia).
    exists ({| program_id_index := h_program_id_index h; ix_accounts := take a w;
               ix_data := take d (drop a w) |} :: l).
    split_and!.
    + rewrite fmap_cons. f_equal. unfold header_of. simpl. rewrite La, Ld. by destruct h.
    + constructor; [|done]. split_and!; [done| |]; split; simpl; rewrite ?La, ?Ld; try lia;
        by repeat (apply Forall_take || apply Forall_drop).
    + constructor; [simpl; lia|done].
    + rewrite fmap_cons, List.concat_cons, E4. unfold wire_payload. simpl.
      by rewrite <- app_assoc, !take_drop.
Qed.

Lemma total_payload_reads hs off off' acc :
  Forall v1_header_ok hs → reads bytes off (concat (v1_header_bytes <$> hs)) off' →
  0 ≤ acc → acc + payloads_len hs < 2 ^ 64 →
  total_payload bytes (length hs) off acc = Ok (acc + payloads_len hs).
Proof using Type.
  intros Hh. revert off acc. induction Hh as [|h hs Hx Hhs IH]; intros off acc Hr Ha Hb; simpl.
  - f_equal. lia.
  - apply reads_concat in Hr as (o1 & Rh & Rl). rewrite (read_v1_header_reads _ _ _ Hx Rh). simpl.
    simpl in Hb. unfold payload_len in Hb. pose proof (payloads_len_nonneg hs Hhs).
    destruct Hx as (_ & Hn & Hd). unfold byte_ok, fits in *. unfold checked_add.
    destruct (Z.ltb_spec (h_num_accounts h + h_data_len h) (2 ^ 64)); [|lia]. simpl.
    destruct (Z.ltb_spec (acc + (h_num_accounts h + h_data_len h)) (2 ^ 64)); [|lia]. simpl.
    rewrite (IH o1) by (auto; lia). f_equal. unfold payload_len. lia.
Qed.

Lemma payloads_len_bound hs : Forall v1_header_ok hs → payloads_len hs ≤ zlen hs * 65791.
Proof using Type.
  induction 1 as [|h hs (_ & Hn & Hd) Hhs IH]; simpl; [done|].
  rewrite zlen_cons. unfold payload_len, byte_ok, fits in *. lia.
Qed.

Lemma header_of_ok l :
  Forall instruction_ok l → Forall (λ ix, zlen (ix_accounts ix) < 256) l →
  Forall v1_header_ok (header_of <$> l) ∧
  payloads_len (header_of <$> l) = zlen (concat (wire_payload <$> l)).
Proof using Type.
  intros Hl Ha. induction Hl as [|ix l (Hp & [? _] & [? _]) _ IH]; simpl; [by split; constructor|].
  apply list.Forall_cons in Ha as [Ha Hal]. destruct (IH Hal) as [I1 I2].
  rewrite zlen_app. unfold wire_payload at 1. rewrite zlen_app. split.
  - constructor; [|done]. pose proof (zlen_nonneg (ix_accounts ix)).
    pose proof (zlen_nonneg (ix_data ix)). split_and!; [done|unfold byte_ok; simpl; lia|unfold fits; simpl; lia].
  - unfold payload_len, fmap in *. simpl. lia.
Qed.

Lemma v1_instructions_iff n off f off' :
  0 ≤ off → 0 ≤ n < 256 →
  instructions_try_new_for_v1 bytes n off = Ok (f, off') ↔
  ∃ l, zlen l = n ∧ Forall instruction_ok l ∧ Forall (λ ix, zlen (ix_accounts ix) < 256) l ∧
    reads bytes off (concat (wire_header <$> l) ++ concat (wire_payload <$> l)) off' ∧
    f = IV1 n off (off + 4 * n).
Proof using All.
  intros H0 Hn. unfold instructions_try_new_for_v1. change V1_HEADER_SIZE with 4.
  assert (Hw : ∀ l, wire_header <$> l = v1_header_bytes <$> (header_of <$> l))
    by (intros l; rewrite <- list_fmap_compose; done).
  split.
  - intros H. apply pbind_iff in H as (? & ? & [-> ->]%get_iff & H).
    apply pbind_iff in H as (? & ? & [[-> _]%try_u32_iff ->]%pure_iff & H).
    apply pbind_iff in H as (x & ? & [Hx ->]%pure_iff & H). unfold checked_mul in Hx.
    destruct (Z.ltb_spec (4 * n) (2 ^ 64)); [|lia]. injection Hx as <-.
    apply pbind_iff in H as ([] & ? & [Hc ->]%pure_iff & H).
    apply check_remaining_iff in Hc; [|done|lia..].
    apply pbind_iff in H as (x & ? & [Hx ->]%pure_iff & H).
    destruct (checked_add 64 off (4 * n)) eqn:Ec; [|done]. apply checked_add_Some in Ec as [-> _].
    injection Hx as <-.
    apply pbind_iff in H as (? & ? & [[-> _]%try_u32_iff ->]%pure_iff & H).
    apply pbind_iff in H as (total & ? & [Ht ->]%pure_iff & H).
    destruct (reads_some bytes off (4 * n)) as [Rh Lh]; [lia..|].
    destruct (headers_exist (Z.to_nat n) off (off + 4 * n) _ Rh) as (hs & E1 & E2 & E3); [lia|].
    rewrite <- E3 in Rh. pose proof (payloads_len_bound hs E2) as Hpb.
    pose proof (payloads_len_nonneg hs E2) as Hpn.
    assert (Hz : zlen hs = n) by (unfold zlen; lia).
    pose proof (total_payload_reads hs off (off + 4 * n) 0 E2 Rh ltac:(lia) ltac:(lia)) as Ht'.
    rewrite E1, Z.add_0_l in Ht'. rewrite Ht' in Ht. injection Ht as <-.
    apply pbind_iff in H as ([] & ? & [Hc2 ->]%pure_iff & H).
    apply check_remaining_iff in Hc2; [|done|lia..].
    apply pbind_iff in H as (x & ? & [Hx ->]%pure_iff & H).
    destruct (checked_add 64 (off + 4 * n) (payloads_len hs)) eqn:Ec; [|done].
    apply checked_add_Some in Ec as [-> _]. injection Hx as <-.
    apply pbind_iff in H as ([] & ? & ->%set_iff & [-> ->]%pret_iff).
    destruct (reads_some bytes (off + 4 * n) (payloads_len hs)) as [Rp Lp]; [lia..|].
    destruct (payloads_exist hs _ E2 (reads_byte_ok _ _ _ _ Hok Rp) Lp) as (l & -> & L1 & L2 & L3).
    exists l. split_and!; auto; [unfold zlen in *; by rewrite length_fmap in Hz|].
    apply reads_app. exists (off + 4 * n). rewrite Hw, L3. by split.
  - intros (l & Hl & L1 & L2 & (o1 & Rh & Rp)%reads_app & ->). rewrite Hw in Rh.
    destruct (header_of_ok l L1 L2) as [E2 E3]. set (hs := header_of <$> l) in *.
    assert (Hz : zlen hs = n) by (unfold hs, zlen in *; by rewrite length_fmap).
    pose proof (payloads_len_bound hs E2) as Hpb. pose proof (payloads_len_nonneg hs E2) as Hpn.
    assert (Lh : zlen (concat (v1_header_bytes <$> hs)) = 4 * n).
    { rewrite <- Hz. clear. induction hs as [|h hs IH]; [done|].
      rewrite fmap_cons, List.concat_cons, zlen_app, IH, zlen_cons. change (zlen (v1_header_bytes h)) with 4. lia. }
    destruct (reads_bounds _ _ _ _ Rh) as (_ & _ & -> & ?).
    destruct (reads_bounds _ _ _ _ Rp) as (_ & _ & -> & ?). rewrite Lh, <- E3 in *.
    p_get.
    p_u32.
    p_pure ltac:(apply mul64_ok; lia).
    p_pure ltac:(apply check_remaining_iff; lia).
    p_pure ltac:(apply add_ok; lia).
    p_u32.
    apply pbind_iff. exists (payloads_len hs), off. split.
    { apply pure_iff. split; [|done].
      pose proof (total_payload_reads hs off (off + 4 * n) 0 E2 Rh ltac:(lia) ltac:(lia)) as Ht.
      by replace (length hs) with (Z.to_nat n) in Ht by (unfold zlen in Hz; lia). }
    p_pure ltac:(apply check_remaining_iff; lia).
    p_pure ltac:(apply add_ok; lia).
    apply pbind_iff. exists tt, (off + 4 * n + payloads_len hs). split; [done|]. done.
Qed.

End parts.
