(* ===== verification/TxParse.v ===== *)
(** * Parsing accepts exactly the wire format *)

From stdpp Require Import base list numbers option.
From S2P Require Import Prelude Account TxBytes TxFrame TxView TxWire TxFacts.

Local Open Scope Z_scope.

Lemma reads_all bytes w : reads bytes 0 w (zlen bytes) ↔ w = bytes.
Proof.
  split.
  - intros (_ & E & _ & [k Hk]). rewrite drop_0 in Hk. subst bytes. rewrite zlen_app in E.
    assert (k = []) as -> by (apply zlen_0; lia). by rewrite app_nil_r.
  - intros ->. split_and!; try lia. by rewrite drop_0.
Qed.

Lemma reads_own w1 w2 w3 : reads (w1 ++ w2 ++ w3) (zlen w1) w2 (zlen w1 + zlen w2).
Proof.
  pose proof (zlen_nonneg w1). pose proof (zlen_nonneg w3). unfold reads.
  rewrite !zlen_app. split_and!; try lia. exists w3. unfold zlen. rewrite Nat2Z.id.
  by rewrite drop_app_length.
Qed.

(** ** Frames of serialized transactions *)

Section frame.
Context `{WC : !WireConstants}.

Definition header_frame (tx : Transaction) (off : Z) : MessageHeaderFrame :=
  {| msg_offset := off; version_ := tx_version tx; num_required_signatures_ := tx_required tx;
     num_readonly_signed_accounts := tx_readonly_signed tx;
     num_readonly_unsigned_accounts := tx_readonly_unsigned tx |}.

Definition lookups_frame (tx : Transaction) (off : Z) : AddressTableLookupFrame :=
  if bool_decide (tx_version tx = V0) then
    {| num_address_table_lookups_ := zlen (tx_lookups tx); atl_offset := off + 1;
       total_writable := sum_len writable_indexes (tx_lookups tx);
       total_readonly := sum_len readonly_indexes (tx_lookups tx) |}
  else no_lookups.

Definition frame_legacy_or_v0 (tx : Transaction) : TransactionFrame :=
  let o_msg := 1 + zlen (concat (tx_signatures tx)) in
  let o_keys := o_msg + zlen (prefix_of_version (tx_version tx)) + 3 in
  let o_hash := o_keys + 1 + zlen (concat (tx_keys tx)) in
  let o_ixs := o_hash + HASH_SIZE + zlen (enc16 (zlen (tx_instructions tx))) in
  let o_lookups := o_ixs + zlen (concat (wire_instruction <$> tx_instructions tx)) in
  {| signature := {| num_signatures_ := zlen (tx_signatures tx); sig_offset := 1 |};
     message_header := header_frame tx o_msg;
     static_keys := {| num_static_accounts := zlen (tx_keys tx); keys_offset := o_keys + 1 |};
     recent_blockhash_offset := o_hash;
     instructions := ILegacyAndV0 (zlen (tx_instructions tx)) o_ixs (frame_of <$> tx_instructions tx);
     address_table_lookup := lookups_frame tx o_lookups;
     transaction_config_frame := not_applicable;
     frame_data_len := zlen (wire_legacy_or_v0 tx) |}.

Definition frame_v1 (prefix : Z) (tx : Transaction) (c : Config) : TransactionFrame :=
  let o_config := 42 + zlen (concat (tx_keys tx)) in
  let o_ixs := o_config + zlen (wire_config c) in
  let n := zlen (tx_instructions tx) in
  let o_sigs := o_ixs + 4 * n + zlen (concat (wire_payload <$> tx_instructions tx)) in
  {| signature := {| num_signatures_ := tx_required tx; sig_offset := o_sigs |};
     message_header := header_frame tx 0;
     static_keys := {| num_static_accounts := zlen (tx_keys tx); keys_offset := 42 |};
     recent_blockhash_offset := 8;
     instructions := IV1 n o_ixs (o_ixs + 4 * n);
     address_table_lookup := no_lookups;
     transaction_config_frame :=
       {| mask_offset := 4; mask_ := config_mask c; values_offset := o_config;
          num_values := count_ones 32 (config_mask c) |};
     frame_data_len := zlen (wire_v1 prefix tx c) |}.

Definition frame_for (tx : Transaction) : TransactionFrame :=
  match tx_version tx with
  | Legacy | V0 => frame_legacy_or_v0 tx
  | V1 => frame_v1 V1_PREFIX tx (default no_config (tx_config tx))
  | Magicblock => frame_v1 MAGICBLOCK_PREFIX tx (default no_config (tx_config tx))
  end.

(** ** Legacy and v0 *)

Section parse.
Context (bytes : list Z).
Hypothesis Hlen : zlen bytes < 2 ^ 32.
Hypothesis Hok : Forall byte_ok bytes.

Lemma lookups_part off f off' v :
  0 ≤ off → (if bool_decide (v = V0) then lookups_try_new bytes else mret no_lookups) off = Ok (f, off') →
  off' = zlen bytes →
  ∃ l, lookups_ok l ∧ (v = Legacy → l = []) ∧
    reads bytes off (if bool_decide (v = V0)
                     then [zlen l] ++ concat (wire_lookup <$> l) else []) off' ∧
    f = if bool_decide (v = V0) then
          {| num_address_table_lookups_ := zlen l; atl_offset := off + 1;
             total_writable := sum_len writable_indexes l;
             total_readonly := sum_len readonly_indexes l |}
        else no_lookups.
Proof using Hlen Hok.
  intros H0 H He. destruct (bool_decide (v = V0)) eqn:Ev.
  - apply lookups_iff in H as (l & L1 & L2 & L3 & L4 & L5 & R & ->); [|done..].
    exists l. split.
    + split_and!; auto. apply reads_app in R as (o1 & R1 & R2).
      apply reads_bounds in R1 as (_ & _ & -> & _). apply reads_bounds in R2 as (_ & _ & E & _).
      change (zlen [zlen l]) with 1 in E. unfold sum_len. lia.
    + split; [|done]. apply bool_decide_eq_true in Ev as ->. done.
  - apply pret_iff in H as [-> ->]. exists [].
    split; [by split_and!|]. split; [done|]. split; [apply reads_nil; lia|done].
Qed.

(** The offsets of the parts. *)
Lemma frame_legacy_or_v0_eq tx o1 o2 o3 o4 o5 :
  o1 = 1 + zlen (concat (tx_signatures tx)) → o2 = o1 + zlen (prefix_of_version (tx_version tx)) + 3 →
  o3 = o2 + 1 + zlen (concat (tx_keys tx)) → o4 = o3 + HASH_SIZE →
  o5 = o4 + (zlen (enc16 (zlen (tx_instructions tx))) +
             zlen (concat (wire_instruction <$> tx_instructions tx))) →
  {| signature := {| num_signatures_ := zlen (tx_signatures tx); sig_offset := 0 + 1 |};
     message_header := header_frame tx o1;
     static_keys := {| num_static_accounts := zlen (tx_keys tx); keys_offset := o2 + 1 |};
     recent_blockhash_offset := o3;
     instructions := ILegacyAndV0 (zlen (tx_instructions tx))
       (o4 + zlen (enc16 (zlen (tx_instructions tx)))) (frame_of <$> tx_instructions tx);
     address_table_lookup := lookups_frame tx o5;
     transaction_config_frame := not_applicable;
     frame_data_len := zlen (wire_legacy_or_v0 tx) |} = frame_legacy_or_v0 tx.
Proof using Type.
  intros -> -> -> -> ->. unfold frame_legacy_or_v0. by rewrite !Z.add_assoc.
Qed.

Lemma parse_legacy_or_v0_iff f :
  (∃ off, parse_legacy_or_v0 bytes 0 = Ok (f, off)) ↔
  ∃ tx, (tx_version tx = V0 ∨ tx_version tx = Legacy) ∧ common_ok tx ∧ legacy_or_v0_ok tx ∧
    wire_legacy_or_v0 tx = bytes ∧ f = frame_legacy_or_v0 tx.
Proof using Hlen Hok.
  unfold parse_legacy_or_v0. split.
  - intros [off H].
    apply pbind_iff in H as (fs & o1 & (sigs & S1 & S2 & Rs & ->)%signature_iff & H); [|done..].
    pose proof (reads_bounds _ _ _ _ Rs) as (? & ? & Es & ?).
    apply pbind_iff in H as (fh & o2 & (v & a & b & c & Hv & Hb & Rh & ->)%header_iff & H); [|done|done|lia].
    pose proof (reads_bounds _ _ _ _ Rh) as (? & ? & Eh & ?).
    apply pbind_iff in H as (fk & o3 & (keys & K1 & K2 & Rk & ->)%keys_iff & H); [|done|done|lia].
    pose proof (reads_bounds _ _ _ _ Rk) as (? & ? & Ek & ?).
    apply pbind_iff in H as (? & ? & [-> ->]%get_iff & H).
    apply pbind_iff in H as (? & ? & [[-> _]%try_u32_iff ->]%pure_iff & H).
    apply pbind_iff in H as ([] & o4 & (h & Hh & Rhash)%advance_type_array_iff & H);
      [|done|done|lia|unfold HASH_SIZE; lia].
    pose proof (reads_bounds _ _ _ _ Rhash) as (? & ? & Ehash & ?).
    apply pbind_iff in H as (fi & o5 & (ixs & I1 & I2 & Ri & ->)%instructions_iff & H); [|done|done|lia].
    pose proof (reads_bounds _ _ _ _ Ri) as (? & ? & Ei & ?).
    apply pbind_iff in H as (fl & o6 & Hlk & H).
    apply pbind_iff in H as (? & ? & [-> ->]%get_iff & H).
    destruct (Z.eqb_spec o6 (zlen bytes)) as [E6|]; [|done]. cbn [negb] in H.
    apply pbind_iff in H as (? & ? & [[-> _]%try_u32_iff ->]%pure_iff & [-> ->]%pret_iff).
    destruct (lookups_part o5 fl o6 v ltac:(lia) Hlk E6) as (lks & L1 & L2 & Rl & ->).
    set (tx := {| tx_version := v; tx_signatures := sigs; tx_required := a;
                  tx_readonly_signed := b; tx_readonly_unsigned := c; tx_keys := keys;
                  tx_blockhash := h; tx_instructions := ixs; tx_lookups := lks;
                  tx_config := None |}).
    assert (Ew : wire_legacy_or_v0 tx = bytes).
    { apply reads_all. rewrite <- E6. unfold wire_legacy_or_v0. simpl tx_signatures.
      rewrite app_assoc. apply reads_app. exists o1. split; [done|].
      rewrite app_assoc. apply reads_app. exists o2. split; [done|].
      rewrite app_assoc. apply reads_app. exists o3. split; [done|].
      apply reads_app. exists o4. split; [done|].
      rewrite app_assoc. apply reads_app. exists o5. split; [done|]. done. }
    exists tx. split; [destruct Hv as [->|[-> _]]; auto|].
    split; [by split|]. split.
    { split; simpl; auto. intros ->. destruct Hv as [|[_ ?]]; [done|]. auto. }
    split; [done|]. destruct Hh as [Eh' _]. rewrite zlen_app in Es, Eh, Ek, Ei.
    change (zlen [a; b; c]) with 3 in Eh. change (zlen [zlen keys]) with 1 in Ek.
    change (zlen [zlen sigs]) with 1 in Es.
    rewrite <- (frame_legacy_or_v0_eq tx o1 o2 o3 o4 o5), Ew; try (simpl; lia). by rewrite E6.
  - intros (tx & Hv & [C1 C2 C3 C4 C5] & [L1 L2 L3 L4 L5 L6] & Ew & ->).
    pose proof (proj2 (reads_all bytes bytes) eq_refl) as R. rewrite <- Ew in R at 2.
    unfold wire_legacy_or_v0 in R.
    rewrite app_assoc in R. apply reads_app in R as (o1 & Rs & R).
    rewrite app_assoc in R. apply reads_app in R as (o2 & Rh & R).
    rewrite app_assoc in R. apply reads_app in R as (o3 & Rk & R).
    apply reads_app in R as (o4 & Rhash & R).
    rewrite app_assoc in R. apply reads_app in R as (o5 & Ri & Rl).
    pose proof (reads_bounds _ _ _ _ Rs) as (? & ? & Es & ?).
    pose proof (reads_bounds _ _ _ _ Rh) as (? & ? & Eh & ?).
    pose proof (reads_bounds _ _ _ _ Rk) as (? & ? & Ek & ?).
    pose proof (reads_bounds _ _ _ _ Rhash) as (? & ? & Ehash & ?).
    pose proof (reads_bounds _ _ _ _ Ri) as (? & ? & Ei & ?). rewrite (proj1 C4) in Ehash.
    rewrite zlen_app in Es, Eh, Ek, Ei.
    change (if bool_decide (tx_version tx = V0) then _ else _)
      with (prefix_of_version (tx_version tx)) in Eh.
    change (zlen (header_bytes tx)) with 3 in Eh. change (zlen [zlen (tx_keys tx)]) with 1 in Ek.
    change (zlen [zlen (tx_signatures tx)]) with 1 in Es.
    rewrite <- (frame_legacy_or_v0_eq tx o1 o2 o3 o4 o5) by lia.
    exists (zlen bytes).
    apply pbind_iff. eexists _, o1. split; [apply signature_iff; eauto|].
    apply pbind_iff. eexists (header_frame tx o1), o2.
    split; [apply header_iff; [done|done|lia|]; eexists _, _, _, _; split_and!; [|exact C2|exact Rh|done];
            destruct Hv as [->|Hv]; [by left|right; split; [done|by apply L5]]|].
    apply pbind_iff. eexists _, o3. split; [apply keys_iff; [done|done|lia|]; eauto|].
    p_get. p_u32.
    apply pbind_iff. exists tt, o4.
    split; [apply advance_type_array_iff; [done|done|lia|unfold HASH_SIZE; lia|];
            eexists; split; [exact C4|]; by rewrite <- ?Ek|].
    apply pbind_iff. eexists _, o5. split; [apply instructions_iff; [done|done|lia|]; eauto|].
    apply pbind_iff. exists (lookups_frame tx o5), (zlen bytes). split.
    { unfold lookups_frame. change (version_ (header_frame tx o1)) with (tx_version tx). destruct (bool_decide (tx_version tx = V0)) eqn:Ev.
      - apply lookups_iff; [done|done|lia|]. destruct L4 as (A1 & A2 & A3 & A4 & A5).
        exists (tx_lookups tx). split_and!; auto.
        apply reads_app in Rl as (o6 & R1 & R2).
        apply reads_bounds in R1 as (_ & _ & -> & _). apply reads_bounds in R2 as (_ & _ & E & _).
        change (zlen [zlen (tx_lookups tx)]) with 1 in E. unfold sum_len in A3. lia.
      - apply pret_iff. apply reads_nil in Rl as [_ ->]. done. }
    p_get. rewrite Z.eqb_refl. cbn [negb]. p_u32. rewrite Ew. rewrite <- Ek. done.
Qed.

End parse.
End frame.

(** ** Parsing v1 and Magicblock transactions

    The fixed 42-byte prefix is read without checks after one check of its length; the parts
    behind it are read as in the other formats. *)

Lemma pbind_eq {A B} (p : parser A) (k : A → parser B) off a off1 :
  p off = Ok (a, off1) → (p ≫= k) off = k a off1.
Proof. intros H. unfold mbind, parser_bind. by rewrite H. Qed.

Section v1.
Context `{WC : !WireConstants} (bytes : list Z).
Hypothesis Hlen : zlen bytes < 2 ^ 32.
Hypothesis Hok : Forall byte_ok bytes.

Definition version_of_prefix (p : Z) : option TransactionVersion :=
  if p =? V1_PREFIX then Some V1 else if p =? MAGICBLOCK_PREFIX then Some Magicblock else None.

(** The parser behind the fixed prefix. *)
Definition v1_tail (version : TransactionVersion) (a b c mask ni nk : Z) : parser TransactionFrame :=
  offset ← get_offset;
  addresses_offset ← pure_ (try_u32_offset offset);
  _ ← advance_offset_for_array bytes PUBKEY_SIZE nk;
  config ← config_try_new bytes 4 mask;
  ixs ← instructions_try_new_for_v1 bytes ni;
  offset ← get_offset;
  signatures_offset ← pure_ (try_u32_offset offset);
  _ ← advance_offset_for_array bytes SIGNATURE_SIZE a;
  offset ← get_offset;
  if negb (offset =? zlen bytes) then reject ParseError
  else
    data_len ← pure_ (try_u32_offset offset);
    mret
      {| signature := {| num_signatures_ := a; sig_offset := signatures_offset |};
         message_header :=
           {| msg_offset := 0; version_ := version; num_required_signatures_ := a;
              num_readonly_signed_accounts := b; num_readonly_unsigned_accounts := c |};
         static_keys := {| num_static_accounts := nk; keys_offset := addresses_offset |};
         recent_blockhash_offset := 8;
         instructions := ixs;
         address_table_lookup := no_lookups;
         transaction_config_frame := config;
         frame_data_len := data_len |}.

Lemma unchecked_byte_reads off x off' :
  reads bytes off [x] off' → unchecked_read_byte bytes off = Ok (x, off').
Proof using Type. intros (_ & -> & H)%reads_byte. unfold unchecked_read_byte. by rewrite H. Qed.

Ltac u_byte H := rewrite (pbind_eq _ _ _ _ _ (unchecked_byte_reads _ _ _ H)).

Lemma prefix_reads p a b c m h ni nk :
  reads bytes 0 ([p; a; b; c] ++ m ++ h ++ [ni; nk]) 42 → zlen m = 4 → zlen h = 32 →
  reads bytes 0 [p] 1 ∧ reads bytes 1 [a] 2 ∧ reads bytes 2 [b] 3 ∧ reads bytes 3 [c] 4 ∧
  reads bytes 4 m 8 ∧ reads bytes 8 h 40 ∧ reads bytes 40 [ni] 41 ∧ reads bytes 41 [nk] 42.
Proof using Type.
  intros Hr Hm Hh. cbn [app] in Hr. rewrite !reads_cons in Hr.
  destruct Hr as (o1 & R1 & Hr). apply reads_cons in Hr as (o2 & R2 & Hr).
  apply reads_cons in Hr as (o3 & R3 & Hr). apply reads_cons in Hr as (o4 & R4 & Hr).
  apply reads_app in Hr as (o5 & R5 & Hr). apply reads_app in Hr as (o6 & R6 & Hr).
  apply reads_cons in Hr as (o7 & R7 & R8).
  destruct (reads_bounds _ _ _ _ R1) as (_ & _ & -> & _).
  destruct (reads_bounds _ _ _ _ R2) as (_ & _ & -> & _).
  destruct (reads_bounds _ _ _ _ R3) as (_ & _ & -> & _).
  destruct (reads_bounds _ _ _ _ R4) as (_ & _ & -> & _).
  destruct (reads_bounds _ _ _ _ R5) as (_ & _ & -> & _).
  destruct (reads_bounds _ _ _ _ R6) as (_ & _ & -> & _).
  destruct (reads_bounds _ _ _ _ R7) as (_ & _ & -> & _).
  rewrite Hm, Hh in *. done.
Qed.

Lemma prefix_exists :
  42 ≤ zlen bytes →
  ∃ p a b c m h ni nk, array_ok 4 m ∧ array_ok 32 h ∧ Forall byte_ok [p; a; b; c; ni; nk] ∧
    reads bytes 0 ([p; a; b; c] ++ m ++ h ++ [ni; nk]) 42.
Proof using Hok.
  intros Hl. destruct (reads_some bytes 0 42) as [R E]; [lia..|].
  set (w := slice bytes 0 42) in *. pose proof (reads_byte_ok _ _ _ _ Hok R) as Hb.
  destruct w as [|p [|a [|b [|c w]]]]; try done.
  rewrite !list.Forall_cons in Hb. destruct Hb as (B1 & B2 & B3 & B4 & Hb).
  rewrite !zlen_cons in E. assert (length w = 38%nat) as El by (unfold zlen in E; lia).
  assert (∃ ni nk, drop 36 w = [ni; nk]) as (ni & nk & Ed).
  { pose proof (length_drop w 36) as L. rewrite El in L.
    destruct (drop 36 w) as [|ni [|nk [|? ?]]]; try done. by exists ni, nk. }
  exists p, a, b, c, (take 4 w), (take 32 (drop 4 w)), ni, nk.
  assert (Ew : w = take 4 w ++ take 32 (drop 4 w) ++ [ni; nk]).
  { rewrite <- Ed. rewrite <- (take_drop 4 w) at 1. f_equal.
    by rewrite <- (take_drop 32 (drop 4 w)) at 1; rewrite drop_drop. }
  pose proof (Forall_drop _ 36 _ Hb) as Hd. rewrite Ed, !list.Forall_cons in Hd.
  destruct Hd as (N1 & N2 & _). split_and!.
  - split; [unfold zlen; rewrite length_take; lia|by apply Forall_take].
  - split; [unfold zlen; rewrite length_take, length_drop; lia|by apply Forall_take, Forall_drop].
  - rewrite !list.Forall_cons. by split_and!.
  - rewrite Ew in R. exact R.
Qed.

Lemma skip_eq n off : off + n < 2 ^ 64 → skip n off = Ok (tt, off + n).
Proof using Type. intros H. unfold skip. by rewrite add_ok. Qed.

Lemma parse_v1_prefix p a b c m h ni nk :
  reads bytes 0 ([p; a; b; c] ++ m ++ h ++ [ni; nk]) 42 → zlen m = 4 → zlen h = 32 →
  parse_v1 bytes 0 =
  match version_of_prefix p with
  | Some v => v1_tail v a b c (le_num m) ni nk 42
  | None => Err (Reject ParseError)
  end.
Proof using Hlen.
  intros Hr Hm Hh. pose proof (reads_bounds _ _ _ _ Hr) as (_ & _ & _ & H42).
  destruct (prefix_reads _ _ _ _ _ _ _ _ Hr Hm Hh) as (R1 & R2 & R3 & R4 & R5 & _ & R7 & R8).
  unfold parse_v1. rewrite (pbind_eq _ _ _ 0 0) by done.
  rewrite (pbind_eq _ _ _ tt 0).
  2: { apply pure_iff. split; [|done]. by apply check_remaining_iff. }
  rewrite (pbind_eq _ _ _ 0 0) by done. u_byte R1.
  unfold version_of_prefix. destruct (p =? V1_PREFIX).
  - rewrite (pbind_eq _ _ _ V1 1) by done. u_byte R2. u_byte R3. u_byte R4.
    rewrite (pbind_eq _ _ _ 4 4) by done.
    rewrite (pbind_eq _ _ _ m 4) by (apply pure_iff; split; [by eapply unchecked_copy_reads|done]).
    cbv zeta. rewrite (pbind_eq _ _ _ tt 8) by by apply skip_eq.
    rewrite (pbind_eq _ _ _ 8 8) by done. rewrite (pbind_eq _ _ _ 8 8) by done.
    rewrite (pbind_eq _ _ _ tt 40) by by apply skip_eq. u_byte R7. u_byte R8. done.
  - destruct (p =? MAGICBLOCK_PREFIX); [|done].
    rewrite (pbind_eq _ _ _ Magicblock 1) by done. u_byte R2. u_byte R3. u_byte R4.
    rewrite (pbind_eq _ _ _ 4 4) by done.
    rewrite (pbind_eq _ _ _ m 4) by (apply pure_iff; split; [by eapply unchecked_copy_reads|done]).
    cbv zeta. rewrite (pbind_eq _ _ _ tt 8) by by apply skip_eq.
    rewrite (pbind_eq _ _ _ 8 8) by done. rewrite (pbind_eq _ _ _ 8 8) by done.
    rewrite (pbind_eq _ _ _ tt 40) by by apply skip_eq. u_byte R7. u_byte R8. done.
Qed.

(** What the tail of a transaction with such a prefix must be. *)
Definition tail_of (tx : Transaction) (c : Config) : list Z :=
  concat (tx_keys tx) ++ wire_config c ++
  (concat (wire_header <$> tx_instructions tx) ++ concat (wire_payload <$> tx_instructions tx)) ++
  concat (tx_signatures tx).

Record tail_ok (tx : Transaction) (c : Config) : Prop := {
  tok_signatures : Forall (array_ok SIGNATURE_SIZE) (tx_signatures tx);
  tok_keys : Forall (array_ok PUBKEY_SIZE) (tx_keys tx);
  tok_instructions : Forall instruction_ok (tx_instructions tx);
  tok_accounts : Forall (λ ix, zlen (ix_accounts ix) < 256) (tx_instructions tx);
  tok_required : zlen (tx_signatures tx) = tx_required tx;
  tok_config : tx_config tx = Some c ∧ config_ok c;
}.

Definition tail_frame (tx : Transaction) (c : Config) : TransactionFrame :=
  let o_config := 42 + zlen (concat (tx_keys tx)) in
  let o_ixs := o_config + zlen (wire_config c) in
  let n := zlen (tx_instructions tx) in
  {| signature := {| num_signatures_ := tx_required tx;
       sig_offset := o_ixs + zlen (concat (wire_header <$> tx_instructions tx) ++
                                   concat (wire_payload <$> tx_instructions tx)) |};
     message_header := header_frame tx 0;
     static_keys := {| num_static_accounts := zlen (tx_keys tx); keys_offset := 42 |};
     recent_blockhash_offset := 8;
     instructions := IV1 n o_ixs (o_ixs + 4 * n);
     address_table_lookup := no_lookups;
     transaction_config_frame :=
       {| mask_offset := 4; mask_ := config_mask c; values_offset := o_config;
          num_values := count_ones 32 (config_mask c) |};
     frame_data_len := zlen bytes |}.

Lemma v1_tail_inv v a b c mask ni nk h f off :
  v1_tail v a b c mask ni nk 42 = Ok (f, off) →
  byte_ok a → byte_ok ni → byte_ok nk → 0 ≤ mask →
  ∃ tx cfg, tx_version tx = v ∧ tx_required tx = a ∧ tx_readonly_signed tx = b ∧
    tx_readonly_unsigned tx = c ∧ tx_blockhash tx = h ∧ tx_lookups tx = [] ∧
    zlen (tx_instructions tx) = ni ∧ zlen (tx_keys tx) = nk ∧ config_mask cfg = mask ∧
    tail_ok tx cfg ∧ reads bytes 42 (tail_of tx cfg) (zlen bytes) ∧ f = tail_frame tx cfg.
Proof using Hlen Hok.
  unfold v1_tail, byte_ok. intros H Ha Hi Hk Hmask.
  apply pbind_iff in H as (? & ? & [-> ->]%get_iff & H).
  apply pbind_iff in H as (? & ? & [[-> _]%try_u32_iff ->]%pure_iff & H).
  apply pbind_iff in H as ([] & o1 & (keys & Kn & K & Rk)%advance_arrays_iff & H);
    [|done|done|done|unfold PUBKEY_SIZE; lia|lia].
  pose proof (reads_bounds _ _ _ _ Rk) as (? & ? & Ek & ?).
  apply pbind_iff in H as (fc & o2 & (cfg & C1 & C2 & Rc & ->)%config_iff & H); [|done|done|lia..].
  pose proof (reads_bounds _ _ _ _ Rc) as (? & ? & Ec & ?).
  apply pbind_iff in H as (fi & o3 & (ixs & In & I1 & I2 & Ri & ->)%v1_instructions_iff & H);
    [|done|done|lia..].
  pose proof (reads_bounds _ _ _ _ Ri) as (? & ? & Ei & ?).
  apply pbind_iff in H as (? & ? & [-> ->]%get_iff & H).
  apply pbind_iff in H as (? & ? & [[-> _]%try_u32_iff ->]%pure_iff & H).
  apply pbind_iff in H as ([] & o4 & (sigs & Sn & S1 & Rs)%advance_arrays_iff & H);
    [|done|done|lia|unfold SIGNATURE_SIZE; lia|lia].
  apply pbind_iff in H as (? & ? & [-> ->]%get_iff & H).
  destruct (Z.eqb_spec o4 (zlen bytes)) as [->|]; [|done]. cbn [negb] in H.
  apply pbind_iff in H as (? & ? & [[-> _]%try_u32_iff ->]%pure_iff & [-> ->]%pret_iff).
  exists {| tx_version := v; tx_signatures := sigs; tx_required := a;
            tx_readonly_signed := b; tx_readonly_unsigned := c; tx_keys := keys;
            tx_blockhash := h; tx_instructions := ixs; tx_lookups := [];
            tx_config := Some cfg |}, cfg.
  split_and!; try done.
  - unfold tail_of. apply reads_app. exists o1. split; [done|]. apply reads_app. exists o2.
    split; [done|]. apply reads_app. by exists o3.
  - unfold tail_frame. simpl. subst o1 o2 o3 nk ni mask. done.
Qed.

Lemma v1_tail_run tx c :
  tail_ok tx c → byte_ok (tx_required tx) → byte_ok (zlen (tx_instructions tx)) →
  byte_ok (zlen (tx_keys tx)) → reads bytes 42 (tail_of tx c) (zlen bytes) →
  v1_tail (tx_version tx) (tx_required tx) (tx_readonly_signed tx) (tx_readonly_unsigned tx)
    (config_mask c) (zlen (tx_instructions tx)) (zlen (tx_keys tx)) 42 =
  Ok (tail_frame tx c, zlen bytes).
Proof using Hlen Hok.
  unfold byte_ok. intros [T1 T2 T3 T4 T5 [_ T6]] Ha Hi Hk R. unfold v1_tail.
  apply reads_app in R as (o1 & Rk & R). apply reads_app in R as (o2 & Rc & R).
  apply reads_app in R as (o3 & Ri & Rs).
  pose proof (reads_bounds _ _ _ _ Rk) as (? & ? & Ek & ?).
  pose proof (reads_bounds _ _ _ _ Rc) as (? & ? & Ec & ?).
  pose proof (reads_bounds _ _ _ _ Ri) as (? & ? & Ei & ?).
  p_get. p_u32. apply pbind_iff. exists tt, o1. split.
  { apply advance_arrays_iff; [done|done|lia|unfold PUBKEY_SIZE; lia|lia|]. by exists (tx_keys tx). }
  apply pbind_iff. eexists _, o2. split.
  { apply config_iff; [done|done|lia|rewrite config_mask_flags; by destruct c as [[] [] [] []]|lia|].
    by exists c. }
  apply pbind_iff. eexists _, o3. split.
  { apply v1_instructions_iff; [done|done|lia|lia|]. by exists (tx_instructions tx). }
  p_get. p_u32. apply pbind_iff. exists tt, (zlen bytes). split.
  { apply advance_arrays_iff; [done|done|lia|unfold SIGNATURE_SIZE; lia|lia|].
    rewrite <- Ei. by exists (tx_signatures tx). }
  p_get. rewrite Z.eqb_refl. cbn [negb]. p_u32. apply pret_iff. split; [|done].
  unfold tail_frame. by subst o1 o2 o3.
Qed.

Lemma wire_v1_split p tx c :
  wire_v1 p tx c =
  ([p; tx_required tx; tx_readonly_signed tx; tx_readonly_unsigned tx] ++
   le_bytes 4 (config_mask c) ++ tx_blockhash tx ++
   [zlen (tx_instructions tx); zlen (tx_keys tx)]) ++ tail_of tx c.
Proof using Type.
  unfold wire_v1, tail_of, header_bytes. rewrite <- !app_assoc. done.
Qed.

Lemma zlen_headers l : zlen (concat (wire_header <$> l)) = 4 * zlen l.
Proof using Type.
  induction l as [|ix l IH]; [done|]. rewrite fmap_cons, List.concat_cons, zlen_app, IH, zlen_cons.
  unfold wire_header. rewrite zlen_app, zlen_le_bytes.
  change (zlen [program_id_index ix; zlen (ix_accounts ix)]) with 2. lia.
Qed.

Lemma tail_frame_eq p tx c : wire_v1 p tx c = bytes → tail_frame tx c = frame_v1 p tx c.
Proof using Type.
  intros H. unfold tail_frame, frame_v1. rewrite H. f_equal. f_equal.
  rewrite zlen_app, zlen_headers. lia.
Qed.

Lemma config_mask_bounds c : fits 32 (config_mask c).
Proof using Type. rewrite config_mask_flags. by destruct c as [[] [] [] []]. Qed.

Definition prefix_byte (v : TransactionVersion) : Z :=
  match v with Magicblock => MAGICBLOCK_PREFIX | _ => V1_PREFIX end.

Lemma version_of_prefix_iff p v :
  version_of_prefix p = Some v ↔ p = prefix_byte v ∧ (v = V1 ∨ v = Magicblock).
Proof using Type.
  unfold version_of_prefix, prefix_byte. pose proof v1_prefix_msb as Hp.
  change MAGICBLOCK_PREFIX with 255.
  destruct (Z.eqb_spec p V1_PREFIX), (Z.eqb_spec p 255); destruct v; naive_solver lia.
Qed.

Lemma wire_v1_eq tx c :
  tx_version tx = V1 ∨ tx_version tx = Magicblock → tx_config tx = Some c →
  wire tx = wire_v1 (prefix_byte (tx_version tx)) tx c ∧
  frame_for tx = frame_v1 (prefix_byte (tx_version tx)) tx c.
Proof using Type. intros [E|E] Ec; unfold wire, frame_for; by rewrite E, Ec. Qed.

Lemma parse_v1_iff f :
  (∃ off, parse_v1 bytes 0 = Ok (f, off)) ↔
  ∃ tx, (tx_version tx = V1 ∨ tx_version tx = Magicblock) ∧ common_ok tx ∧ v1_ok tx ∧
    wire tx = bytes ∧ f = frame_for tx.
Proof using Hlen Hok.
  split.
  - intros [off H]. assert (42 ≤ zlen bytes) as H42.
    { unfold parse_v1 in H. apply pbind_iff in H as (? & ? & [-> ->]%get_iff & H).
      apply pbind_iff in H as ([] & ? & [Hc _]%pure_iff & _).
      by apply (check_remaining_iff bytes Hlen 0 42) in Hc. }
    destruct (prefix_exists H42) as (p & a & b & c & m & h & ni & nk & [Hm Hmb] & Hh & Hb & R).
    rewrite (parse_v1_prefix _ _ _ _ _ _ _ _ R Hm (proj1 Hh)) in H.
    destruct (version_of_prefix p) as [v|] eqn:Ev; [|done].
    apply version_of_prefix_iff in Ev as [-> Hv]. rewrite !list.Forall_cons in Hb.
    destruct Hb as (_ & Ba & Bb & Bc & Bi & Bk & _).
    assert (Hn : 0 ≤ le_num m) by (pose proof (le_num_range m Hmb); lia).
    destruct (v1_tail_inv v a b c (le_num m) ni nk h f off H Ba Bi Bk Hn)
      as (tx & cfg & <- & <- & <- & <- & <- & Hl & <- & <- & Hc & Hok' & Rt & ->).
    destruct Hok' as [T1 T2 T3 T4 T5 [T6 T7]].
    destruct (wire_v1_eq tx cfg Hv T6) as [Ew Ef].
    assert (E : wire tx = bytes).
    { apply reads_all. rewrite Ew, wire_v1_split, Hc. apply reads_app. exists 42. split; [|done].
      replace 4%nat with (length m) by (unfold zlen in Hm; lia). by rewrite le_bytes_le_num. }
    exists tx. split_and!; auto.
    + constructor; auto. unfold header_bytes. rewrite !list.Forall_cons. by split_and!.
    + unfold byte_ok in Bk, Bi. constructor; auto; [lia|lia|by exists cfg].
    + rewrite Ef. apply tail_frame_eq. by rewrite <- Ew.
  - intros (tx & Hv & [C1 C2 C3 C4 C5] & [V1 V2 V3 V4 V5 (c & Ec & Vc)] & E & ->).
    exists (zlen bytes). destruct (wire_v1_eq tx c Hv Ec) as [Ew Ef]. rewrite Ew in E.
    pose proof E as Er. apply reads_all in Er. rewrite wire_v1_split in Er.
    apply reads_app in Er as (o & Rp & Rt).
    assert (o = 42) as ->.
    { destruct (reads_bounds _ _ _ _ Rp) as (_ & _ & -> & _). destruct C4 as [C4 _].
      by rewrite !zlen_app, C4, zlen_le_bytes. }
    unfold header_bytes in C2. rewrite !list.Forall_cons in C2. destruct C2 as (B1 & B2 & B3 & _).
    rewrite (parse_v1_prefix _ _ _ _ _ _ _ _ Rp); [|by rewrite zlen_le_bytes|by destruct C4].
    rewrite (proj2 (version_of_prefix_iff _ _) (conj eq_refl Hv)).
    rewrite le_num_le_bytes, Z.mod_small by apply config_mask_bounds.
    rewrite v1_tail_run; try done.
    + rewrite Ef. f_equal. f_equal. by apply tail_frame_eq.
    + pose proof (zlen_nonneg (tx_instructions tx)). done.
    + pose proof (zlen_nonneg (tx_keys tx)). done.
Qed.

End v1.
