(* ===== verification/TxDecode.v ===== *)
(** * The parser as a whole

    [try_new] accepts exactly the serializations of well-formed transactions, and it never
    reads outside its input nor trips over an assertion. *)

From stdpp Require Import base list numbers option.
From S2P Require Import Prelude Account TxBytes TxFrame TxView TxWire TxFacts TxParse.

Local Open Scope Z_scope.

(** ** Parsers without undefined behaviour *)

Definition defined {A} (r : result Fault A) : Prop := r ≠ Err Undefined.
Definition safe {A} (p : parser A) : Prop := ∀ off, defined (p off).

Lemma defined_bind {A B} (r : result Fault A) (k : A → result Fault B) :
  defined r → (∀ a, r = Ok a → defined (k a)) → defined (r ≫= k).
Proof. unfold defined. destruct r as [a|e]; simpl; [naive_solver|]. intros H _. congruence. Qed.

Lemma defined_ok {A} (a : A) : defined (Ok a).
Proof. done. Qed.
Lemma defined_reject {A} e : defined (Err (A := A) (Reject e)).
Proof. done. Qed.
Lemma defined_ok_or {A} (o : option A) e : defined (ok_or o (Reject e)).
Proof. by destruct o. Qed.

Lemma safe_bind {A B} (p : parser A) (k : A → parser B) :
  safe p → (∀ a, safe (k a)) → safe (p ≫= k).
Proof. intros Hp Hk off. apply defined_bind; [apply Hp|]. intros [a o] _. apply Hk. Qed.
Lemma safe_ret {A} (a : A) : safe (mret a).
Proof. done. Qed.
Lemma safe_reject {A} e : safe (reject (A := A) e).
Proof. done. Qed.
Lemma safe_get : safe get_offset.
Proof. done. Qed.
Lemma safe_pure {A} (r : result Fault A) : defined r → safe (pure_ r).
Proof. intros H off. apply defined_bind; [done|]. done. Qed.
Lemma safe_if {A} (b : bool) (p q : parser A) : safe p → safe q → safe (if b then p else q).
Proof. by destruct b. Qed.
Lemma safe_pair {A B C} (x : A * B) (k : A → B → parser C) :
  (∀ a b, safe (k a b)) → safe (let '(a, b) := x in k a b).
Proof. by destruct x. Qed.

Create HintDb safe_db.
#[export] Hint Resolve defined_bind defined_ok defined_reject defined_ok_or safe_bind safe_ret
  safe_reject safe_get safe_pure safe_if safe_pair : safe_db.

Section safe.
Context (bytes : list Z).

Lemma try_u32_defined x : defined (try_u32_offset x).
Proof using Type. unfold try_u32_offset. by case_match. Qed.
Lemma check_remaining_defined off n : defined (check_remaining bytes off n).
Proof using Type. apply defined_bind; [auto with safe_db|]. intros a _. by destruct (a <=? _). Qed.
Lemma try_u16_defined x : defined (try_u16 x).
Proof using Type. unfold try_u16. by case_match. Qed.
Lemma sanitize_mask_defined m : defined (sanitize_mask m).
Proof using Type. unfold sanitize_mask. by repeat case_match. Qed.
#[local] Hint Resolve try_u32_defined check_remaining_defined try_u16_defined sanitize_mask_defined : safe_db.

Lemma read_byte_safe : safe (read_byte bytes).
Proof using Type. intros off. unfold read_byte. eauto 6 with safe_db. Qed.
Lemma advance_array_safe size n : safe (advance_offset_for_array bytes size n).
Proof using Type. intros off. unfold advance_offset_for_array. eauto 8 with safe_db. Qed.
Lemma advance_type_safe size : safe (advance_offset_for_type bytes size).
Proof using Type. intros off. unfold advance_offset_for_type. eauto 8 with safe_db. Qed.

Lemma compressed_loop_defined off steps v s : defined (compressed_u16_loop bytes off steps v s).
Proof using Type.
  revert v s. induction steps as [|i steps IH]; intros v s; cbn [compressed_u16_loop].
  - auto with safe_db.
  - apply defined_bind; [auto with safe_db|]. intros x _.
    apply defined_bind; [auto with safe_db|]. intros y _.
    case_match; [done|]. cbv zeta. case_match; auto with safe_db.
Qed.

Lemma read_compressed_safe : safe (read_compressed_u16 bytes).
Proof using Type. intros off. apply compressed_loop_defined. Qed.
#[local] Hint Resolve read_byte_safe advance_array_safe advance_type_safe read_compressed_safe : safe_db.

Lemma encoded_len_safe o : safe (encoded_len o).
Proof using Type. unfold encoded_len. auto 8 with safe_db. Qed.
#[local] Hint Resolve encoded_len_safe : safe_db.

Lemma signature_safe : safe (signature_try_new bytes).
Proof using Type. unfold signature_try_new. auto 20 with safe_db. Qed.
Lemma header_safe : safe (header_try_new_legacy_or_v0 bytes).
Proof using Type. unfold header_try_new_legacy_or_v0. auto 20 with safe_db. Qed.
Lemma keys_safe : safe (keys_try_new bytes).
Proof using Type. unfold keys_try_new. auto 20 with safe_db. Qed.
Lemma instruction_safe : safe (instruction_try_new bytes).
Proof using Type. unfold instruction_try_new. auto 30 with safe_db. Qed.

Lemma repeat_safe {A} (p : parser A) n : safe p → safe (repeat_parser n p).
Proof using Type. intros H. induction n as [|n IH]; cbn [repeat_parser]; auto 10 with safe_db. Qed.
Lemma lookups_loop_safe n t : safe (lookups_loop bytes n t).
Proof using Type.
  revert t. induction n as [|n IH]; intros t; cbn [lookups_loop]; [done|].
  apply safe_bind; [|done]. unfold lookup_try_new. auto 20 with safe_db.
Qed.
#[local] Hint Resolve signature_safe header_safe keys_safe instruction_safe repeat_safe
  lookups_loop_safe : safe_db.

Lemma instructions_safe : safe (instructions_try_new_for_legacy_and_v0 bytes).
Proof using Type. unfold instructions_try_new_for_legacy_and_v0. auto 20 with safe_db. Qed.
Lemma lookups_safe : safe (lookups_try_new bytes).
Proof using Type. unfold lookups_try_new. auto 30 with safe_db. Qed.
#[local] Hint Resolve instructions_safe lookups_safe : safe_db.

Lemma parse_legacy_or_v0_safe : safe (parse_legacy_or_v0 bytes).
Proof using Type. unfold parse_legacy_or_v0. auto 40 with safe_db. Qed.

Lemma config_safe mo mask : mo ≠ 0 → safe (config_try_new bytes mo mask).
Proof using Type.
  intros H. unfold config_try_new. destruct (Z.eqb_spec mo 0); [done|].
  cbv zeta. auto 20 with safe_db.
Qed.

(** ** The v1 parser: its unchecked reads stay inside the checked part *)

Context `{WC : !WireConstants}.
Hypothesis Hlen : zlen bytes < 2 ^ 32.
Hypothesis Hok : Forall byte_ok bytes.

Lemma total_payload_defined n off :
  0 ≤ off → 0 ≤ n < 256 → off + 4 * n ≤ zlen bytes →
  ∃ t, total_payload bytes (Z.to_nat n) off 0 = Ok t.
Proof using Hlen Hok.
  intros H0 Hn Hb. destruct (reads_some bytes off (4 * n)) as [R E]; [lia..|].
  destruct (headers_exist bytes Hlen Hok (Z.to_nat n) _ _ _ R) as (hs & Hl & Hh & Ew); [lia|].
  rewrite <- Ew in R. pose proof (payloads_len_bound hs Hh). pose proof (payloads_len_nonneg hs Hh).
  eexists. rewrite <- Hl. apply (total_payload_reads _ _ _ _ 0 Hh R); [done|]. unfold zlen in *. lia.
Qed.

Lemma instructions_v1_defined n off :
  0 ≤ off → 0 ≤ n < 256 → defined (instructions_try_new_for_v1 bytes n off).
Proof using Hlen Hok.
  intros H0 Hn. unfold instructions_try_new_for_v1. rewrite (pbind_eq _ _ _ off off) by done.
  apply defined_bind; [apply safe_pure; auto with safe_db|]. intros [? ?] [_ ->]%pure_iff.
  rewrite (pbind_eq _ _ _ (4 * n) off).
  2: { apply pure_iff. split; [|done]. apply (mul64_ok V1_HEADER_SIZE). unfold V1_HEADER_SIZE. lia. }
  apply defined_bind; [apply safe_pure; auto with safe_db|]. intros [[] ?] [Hc ->]%pure_iff.
  apply check_remaining_iff in Hc; [|done|done|lia].
  apply defined_bind; [apply safe_pure; auto with safe_db|]. intros [? ?] [_ ->]%pure_iff.
  apply defined_bind; [apply safe_pure; auto with safe_db|]. intros [? ?] [_ ->]%pure_iff.
  destruct (total_payload_defined n off H0 Hn Hc) as [t Ht]. rewrite Ht.
  assert (safe (pure_ (A := Z) (Ok t))) as Hs by auto with safe_db.
  apply defined_bind; [apply Hs|]. intros [? ?] _.
  apply defined_bind; [apply safe_pure; auto with safe_db|]. intros [[] ?] _.
  apply defined_bind; [apply safe_pure; auto with safe_db|]. by intros [? ?] _.
Qed.

Lemma v1_tail_defined v a b c mask ni nk :
  byte_ok ni → byte_ok nk → 0 ≤ mask → defined (v1_tail bytes v a b c mask ni nk 42).
Proof using Hlen Hok.
  unfold byte_ok. intros Hi Hk Hm. unfold v1_tail.
  do 2 (rewrite (pbind_eq _ _ _ 42 42) by done).
  apply defined_bind; [apply advance_array_safe|]. intros [[] o1] Hr.
  apply advance_arrays_iff in Hr as (keys & _ & _ & Hr); [|done|done|lia|unfold PUBKEY_SIZE; lia|lia].
  apply reads_bounds in Hr as (_ & ? & _).
  apply defined_bind; [by apply config_safe|]. intros [cf o2] Hr.
  apply config_iff in Hr as (cfg & _ & _ & Hr & _); [|done|done|lia..].
  apply reads_bounds in Hr as (_ & ? & _).
  apply defined_bind; [apply instructions_v1_defined; lia|]. intros [fi o3] _.
  pose proof (advance_array_safe SIGNATURE_SIZE a).
  match goal with |- defined (?p o3) => assert (safe p) as Hs; [|apply Hs] end.
  auto 20 with safe_db.
Qed.

Lemma parse_v1_defined : defined (parse_v1 bytes 0).
Proof using Hlen Hok.
  destruct (decide (42 ≤ zlen bytes)) as [H42|Hs].
  - destruct (prefix_exists bytes Hok H42) as (p & a & b & c & m & h & ni & nk & [Hm Hmb] & Hh & Hb & R).
    rewrite (parse_v1_prefix bytes Hlen _ _ _ _ _ _ _ _ R Hm (proj1 Hh)).
    destruct (version_of_prefix p) as [v|]; [|done]. rewrite !list.Forall_cons in Hb.
    destruct Hb as (_ & Ba & Bb & Bc & Bi & Bk & _).
    apply v1_tail_defined; [done|done|]. pose proof (le_num_range m Hmb). lia.
  - unfold parse_v1. rewrite (pbind_eq _ _ _ 0 0) by done.
    apply defined_bind; [apply safe_pure; auto with safe_db|]. intros [[] ?] [Hc _]%pure_iff.
    apply (check_remaining_iff bytes Hlen 0 42) in Hc; [lia|done|done].
Qed.

(** ** Choosing the format by the first byte *)

Lemma prefix_byte_bit v : Z.land (prefix_byte v) MESSAGE_VERSION_PREFIX = 128.
Proof using Type.
  unfold prefix_byte. pose proof v1_prefix_msb.
  destruct v; [|..|done]; apply land_128_high; lia.
Qed.

Lemma wire_head tx :
  common_ok tx →
  match tx_version tx with Legacy | V0 => legacy_or_v0_ok tx | _ => v1_ok tx end →
  ∃ b rest, wire tx = b :: rest ∧
    (Z.land b MESSAGE_VERSION_PREFIX =? 0) =
    match tx_version tx with Legacy | V0 => true | _ => false end.
Proof using Type.
  intros Hc Hv. unfold wire. destruct (tx_version tx).
  1,2: eexists _, _; split; [reflexivity|]; destruct Hv as [Hs _ _ _ _ _];
    change MAX_SIGNATURES_PER_PACKET with 12 in Hs;
    rewrite land_128 by (unfold byte_ok; lia); apply Z.ltb_lt; lia.
  - eexists _, _. split; [reflexivity|]. pose proof (prefix_byte_bit V1) as E.
    cbn [prefix_byte] in E. by rewrite E.
  - eexists _, _. split; [reflexivity|]. done.
Qed.

End safe.

Section try_new.
Context `{WC : !WireConstants} (bytes : list Z).
Hypothesis Hok : Forall byte_ok bytes.

Lemma fst_iff (p : parser TransactionFrame) f :
  fst <$> p 0 = Ok f ↔ ∃ off, p 0 = Ok (f, off).
Proof using Type. destruct (p 0) as [[a o]|e]; simpl; naive_solver. Qed.

Lemma try_new_iff f :
  try_new bytes = Ok f ↔ ∃ tx, tx_ok tx ∧ wire tx = bytes ∧ f = frame_for tx.
Proof using Hok.
  unfold try_new, try_u32_offset, tx_ok. destruct (Z.ltb_spec (zlen bytes) (2 ^ 32)) as [Hlen|Hlen].
  2: { split; [done|]. intros (tx & (_ & ? & _) & E & _). rewrite E in *. lia. }
  cbn [mbind result_bind]. unfold is_legacy_or_v0. split.
  - intros H. destruct bytes as [|b0 rest] eqn:Eb; [done|]. cbn [hd_error ok_or mbind result_bind] in H.
    destruct (Z.land b0 MESSAGE_VERSION_PREFIX =? 0).
    + apply fst_iff, parse_legacy_or_v0_iff in H as (tx & Hv & Hc & Ho & E & ->); [|done..].
      exists tx. unfold wire, frame_for. destruct Hv as [-> | ->]; split_and!; auto; by rewrite E.
    + apply fst_iff, parse_v1_iff in H as (tx & Hv & Hc & Ho & E & ->); [|done..].
      exists tx. rewrite E. destruct Hv as [-> | ->]; by split_and!.
  - intros (tx & (Hc & _ & Hv) & E & ->).
    destruct (wire_head tx Hc) as (b0 & rest & Eh & Hb); [by destruct (tx_version tx)|].
    rewrite E in Eh. rewrite Eh. cbn [hd_error ok_or mbind result_bind]. rewrite Hb, <- Eh.
    destruct (tx_version tx) eqn:Ev.
    1,2: apply fst_iff, parse_legacy_or_v0_iff; [done..|]; exists tx;
      unfold frame_for, wire in *; rewrite Ev in *; split_and!; auto.
    1,2: apply fst_iff, parse_v1_iff; [done..|]; exists tx; split_and!; auto.
Qed.

Lemma try_new_defined : defined (try_new bytes).
Proof using Hok.
  unfold try_new, try_u32_offset. destruct (Z.ltb_spec (zlen bytes) (2 ^ 32)) as [Hlen|Hlen]; [|done].
  cbn [mbind result_bind]. apply defined_bind; [|intros [] _].
  - unfold is_legacy_or_v0. auto with safe_db.
  - apply defined_bind; [apply parse_legacy_or_v0_safe|done].
  - apply defined_bind; [by apply parse_v1_defined|done].
Qed.

End try_new.

(** ** Reading a transaction back

    The accessors and iterators of a view over a serialized transaction return its parts. *)

(** ** Arrays and slices *)

Section reading.
Context (bytes : list Z).

Lemma index_range_reads off w off' : reads bytes off w off' → index_range bytes off off' = Ok w.
Proof using Type.
  intros R. destruct (reads_bounds _ _ _ _ R) as (? & ? & E & ?). unfold index_range.
  destruct (Z.leb_spec off off'); [|lia]. destruct (Z.leb_spec off' (zlen bytes)); [|lia].
  simpl. f_equal. replace (off' - off) with (zlen w) by lia. by eapply reads_slice.
Qed.

Lemma zlen_arrays size (l : list (list Z)) :
  Forall (array_ok size) l → zlen (concat l) = zlen l * size.
Proof using Type.
  induction 1 as [|x l [Hx _] _ IH]; [done|].
  rewrite List.concat_cons, zlen_app, zlen_cons, IH. lia.
Qed.

Lemma arrays_reads size l off off' :
  Forall (array_ok size) l → reads bytes off (concat l) off' →
  (b ← index_range bytes off (off + zlen l * size);
   Ok (chunks (Z.to_nat size) (Z.to_nat (zlen l)) b)) = Ok l.
Proof using Type.
  intros Hl R. destruct (reads_bounds _ _ _ _ R) as (? & ? & E & ?).
  rewrite (zlen_arrays size) in E by done. rewrite <- E, (index_range_reads _ _ _ R).
  simpl. f_equal. unfold zlen. rewrite Nat2Z.id. apply chunks_concat.
  eapply list.Forall_impl; [exact Hl|]. intros x [Hx _]. unfold zlen in Hx. lia.
Qed.

Lemma unchecked_slice_reads off w off' :
  reads bytes off w off' → unchecked_read_slice_data bytes 1 (zlen w) off = Ok (w, off').
Proof using Type.
  intros R. destruct (reads_bounds _ _ _ _ R) as (? & ? & E & ?).
  unfold unchecked_read_slice_data. rewrite Z.mul_1_r, <- E.
  destruct (Z.leb_spec off' (zlen bytes)); [|lia]. by rewrite (reads_slice _ _ _ _ R).
Qed.

Hypothesis Hlen : zlen bytes < 2 ^ 32.

Lemma read_slice_reads off w off' :
  zlen w < 2 ^ 16 → reads bytes off w off' → read_slice_data bytes 1 (zlen w) off = Ok (w, off').
Proof using Hlen.
  intros Hw R. destruct (reads_bounds _ _ _ _ R) as (? & ? & E & ?). pose proof (zlen_nonneg w).
  unfold read_slice_data. rewrite (pbind_eq _ _ _ off off) by done.
  rewrite (pbind_eq _ _ _ tt off').
  - rewrite Z.mul_1_r. by rewrite (reads_slice _ _ _ _ R).
  - apply advance_array_iff; [done|done|lia|lia|]. exists w. split; [lia|done].
Qed.

Lemma read_type_reads size off w off' :
  0 < size ≤ 64 → zlen w = size → reads bytes off w off' →
  read_type bytes size off = Ok (w, off').
Proof using Hlen.
  intros Hs <- R. destruct (reads_bounds _ _ _ _ R) as (? & ? & E & ?).
  unfold read_type. rewrite (pbind_eq _ _ _ off off) by done. rewrite (pbind_eq _ _ _ tt off').
  - by rewrite (reads_slice _ _ _ _ R).
  - apply advance_type_iff; [done|done|lia|]. by exists w.
Qed.

End reading.

(** ** Iterators *)

Section iterators.
Context (v : TransactionView).
Hypothesis Hlen : zlen (data v) < 2 ^ 32.

Lemma for_legacy_reads ix off off' :
  reads (data v) off (wire_instruction ix) off' →
  for_legacy_and_v0 v (frame_of ix) off = Ok (ix, off').
Proof using Type.
  intros R. unfold wire_instruction in R. apply reads_app in R as (o1 & R1 & R).
  apply reads_app in R as (o2 & R2 & R). apply reads_app in R as (o3 & R3 & R).
  apply reads_app in R as (o4 & R4 & R5).
  destruct (reads_bounds _ _ _ _ R2) as (_ & _ & E2 & _).
  destruct (reads_bounds _ _ _ _ R4) as (_ & _ & E4 & _).
  unfold for_legacy_and_v0. rewrite (pbind_eq _ _ _ _ _ (unchecked_byte_reads _ _ _ _ R1)).
  rewrite (pbind_eq _ _ _ o1 o1) by done. rewrite (pbind_eq _ _ _ tt o2) by by rewrite E2.
  rewrite (pbind_eq _ _ _ _ _ (unchecked_slice_reads _ _ _ _ R3)).
  rewrite (pbind_eq _ _ _ o3 o3) by done. rewrite (pbind_eq _ _ _ tt o4) by by rewrite E4.
  rewrite (pbind_eq _ _ _ _ _ (unchecked_slice_reads _ _ _ _ R5)). by destruct ix.
Qed.

Lemma collect_legacy seen rest off off' :
  zlen (seen ++ rest) < 2 ^ 16 → reads (data v) off (concat (wire_instruction <$> rest)) off' →
  collect (instructions_next v) (S (length rest))
    (ItLegacyAndV0 off (zlen (seen ++ rest)) (zlen seen) (frame_of <$> seen ++ rest)) = Ok rest.
Proof using Type.
  revert seen off. induction rest as [|ix rest IH]; intros seen off Hn R.
  - cbn [collect instructions_next]. rewrite app_nil_r. by rewrite Z.leb_refl.
  - apply reads_concat in R as (o1 & R1 & R). cbn [length].
    remember (S (length rest)) as fuel. cbn [collect instructions_next].
    pose proof Hn as Hn'. rewrite zlen_app, zlen_cons in Hn'. pose proof (zlen_nonneg rest).
    pose proof (zlen_nonneg seen). rewrite zlen_app, zlen_cons at 1.
    destruct (Z.leb_spec (zlen seen + (1 + zlen rest)) (zlen seen)); [lia|].
    replace (frame_of <$> seen ++ ix :: rest) with ((frame_of <$> seen) ++ frame_of ix :: (frame_of <$> rest))
      by by rewrite fmap_app.
    rewrite list_lookup_middle by (unfold zlen; rewrite length_fmap; lia).
    rewrite (for_legacy_reads _ _ _ R1). cbn [mbind result_bind].
    replace (wrapping_add 16 (zlen seen) 1) with (zlen (seen ++ [ix])).
    2: { unfold wrapping_add. rewrite wrap_small by (unfold fits; lia). by rewrite zlen_app. }
    specialize (IH (seen ++ [ix]) o1). rewrite <- app_assoc in IH. cbn [app] in IH.
    rewrite fmap_app, fmap_cons in IH. rewrite IH by done. done.
Qed.

Lemma for_v1_reads ix off off' :
  reads (data v) off (wire_payload ix) off' →
  for_v1 v (program_id_index ix) (zlen (ix_accounts ix)) (zlen (ix_data ix)) off = Ok (ix, off').
Proof using Type.
  intros R. apply reads_app in R as (o1 & R1 & R2). unfold for_v1.
  rewrite (pbind_eq _ _ _ _ _ (unchecked_slice_reads _ _ _ _ R1)).
  rewrite (pbind_eq _ _ _ _ _ (unchecked_slice_reads _ _ _ _ R2)). by destruct ix.
Qed.

Lemma collect_v1 rest i ho po ho' po' :
  Forall instruction_ok rest → Forall (λ ix, zlen (ix_accounts ix) < 256) rest →
  0 ≤ i → i + zlen rest < 2 ^ 16 →
  reads (data v) ho (concat (wire_header <$> rest)) ho' →
  reads (data v) po (concat (wire_payload <$> rest)) po' →
  collect (instructions_next v) (S (length rest)) (ItV1 i (i + zlen rest) ho po) = Ok rest.
Proof using Type.
  intros Ho Ha. revert i ho po. induction rest as [|ix rest IH]; intros i ho po Hi Hn Rh Rp.
  - cbn [collect instructions_next]. change (zlen []) with 0. by rewrite Z.add_0_r, Z.leb_refl.
  - apply reads_concat in Rh as (o1 & Rh1 & Rh). apply reads_concat in Rp as (o2 & Rp1 & Rp).
    apply list.Forall_cons in Ho as [Hx Ho]. apply list.Forall_cons in Ha as [Hax Ha].
    cbn [length]. remember (S (length rest)) as fuel. cbn [collect instructions_next].
    rewrite zlen_cons in Hn |- *. pose proof (zlen_nonneg rest).
    destruct (Z.leb_spec (i + (1 + zlen rest)) i); [lia|].
    rewrite (read_v1_header_reads _ ho (header_of ix) o1); [|split_and!; simpl|exact Rh1].
    + cbn [mbind result_bind header_of h_program_id_index h_num_accounts h_data_len].
      rewrite (for_v1_reads _ _ _ Rp1). cbn [mbind result_bind].
      unfold wrapping_add. rewrite wrap_small by (unfold fits; lia).
      rewrite Z.add_assoc. rewrite IH by (try done; lia). done.
    + apply Hx.
    + pose proof (zlen_nonneg (ix_accounts ix)). unfold byte_ok. lia.
    + pose proof (zlen_nonneg (ix_data ix)). destruct Hx as (_ & _ & [? _]). unfold fits. lia.
Qed.

Hypothesis Hok : Forall byte_ok (data v).

Lemma collect_lookups rest i off off' :
  Forall lookup_ok rest → 0 ≤ i → i + zlen rest < 2 ^ 8 →
  reads (data v) off (concat (wire_lookup <$> rest)) off' →
  collect (lookups_next v) (S (length rest))
    {| it_offset := off; it_num := i + zlen rest; it_index := i |} = Ok rest.
Proof using Hlen Hok.
  intros Ho. revert i off. induction rest as [|l rest IH]; intros i off Hi Hn R.
  - cbn [collect]. unfold lookups_next. simpl it_index. simpl it_num. change (zlen []) with 0.
    by rewrite Z.add_0_r, Z.ltb_irrefl.
  - apply reads_concat in R as (o1 & R1 & R). apply list.Forall_cons in Ho as [(Hk & Hw & Hr) Ho].
    cbn [length]. remember (S (length rest)) as fuel. cbn [collect]. unfold lookups_next.
    cbn [it_index it_num it_offset]. rewrite zlen_cons in Hn |- *. pose proof (zlen_nonneg rest).
    destruct (Z.ltb_spec i (i + (1 + zlen rest))); [|lia].
    apply reads_app in R1 as (p1 & Q1 & R1). apply reads_app in R1 as (p2 & Q2 & R1).
    apply reads_app in R1 as (p3 & Q3 & R1). apply reads_app in R1 as (p4 & Q4 & Q5).
    pose proof (zlen_nonneg (writable_indexes l)). pose proof (zlen_nonneg (readonly_indexes l)).
    destruct (reads_bounds _ _ _ _ Q2) as (? & _ & _ & _).
    destruct (reads_bounds _ _ _ _ Q4) as (? & _ & _ & _).
    rewrite (pbind_eq _ _ _ (account_key l) p1)
      by (apply read_type_reads; [done|unfold PUBKEY_SIZE; lia|by destruct Hk|done]).
    rewrite (pbind_eq _ _ _ (zlen (writable_indexes l)) p2)
      by (apply read_compressed_u16_iff; [done|done|lia|]; split; [destruct Hw; unfold fits; lia|done]).
    rewrite (pbind_eq _ _ _ (writable_indexes l) p3)
      by (apply read_slice_reads; [done|by destruct Hw|done]).
    rewrite (pbind_eq _ _ _ (zlen (readonly_indexes l)) p4)
      by (apply read_compressed_u16_iff; [done|done|lia|]; split; [destruct Hr; unfold fits; lia|done]).
    rewrite (pbind_eq _ _ _ (readonly_indexes l) o1)
      by (apply read_slice_reads; [done|by destruct Hr|done]).
    cbn [mret parser_ret mbind result_bind].
    unfold wrapping_add. rewrite wrap_small by (unfold fits; lia).
    rewrite Z.add_assoc. rewrite IH by (try done; lia). by destruct l.
Qed.

End iterators.

Lemma all_lookups_reads v tx off off' :
  zlen (data v) < 2 ^ 32 → Forall byte_ok (data v) → lookups_ok (tx_lookups tx) →
  (tx_version tx ≠ V0 → tx_lookups tx = []) →
  address_table_lookup (frame v) = lookups_frame tx off →
  reads (data v) off (if bool_decide (tx_version tx = V0)
    then [zlen (tx_lookups tx)] ++ concat (wire_lookup <$> tx_lookups tx) else []) off' →
  all_lookups v = Ok (tx_lookups tx).
Proof.
  intros Hlen Hok (M1 & M2 & _) Hn E R.
  unfold all_lookups, address_table_lookup_iter, num_address_table_lookups. rewrite E.
  unfold lookups_frame. destruct (decide (tx_version tx = V0)) as [Hv|Hv].
  - rewrite bool_decide_eq_true_2 in R |- * by done.
    cbn [num_address_table_lookups_ atl_offset].
    apply reads_app in R as (o1 & Rn & Rl). pose proof (reads_bounds _ _ _ _ Rn) as (_ & _ & -> & _).
    unfold zlen at 1. rewrite Nat2Z.id.
    apply (collect_lookups v Hlen Hok (tx_lookups tx) 0 _ off'); [done|done| |done].
    change MAX_ATLS_PER_PACKET with 31 in M1. lia.
  - rewrite bool_decide_eq_false_2 in R |- * by done. by rewrite Hn.
Qed.

(** ** Configuration values *)

Definition word_index (mask bit : Z) : option Z :=
  if negb (has_bit mask bit) then None
  else Some (count_ones 32 (Z.land mask (wrapping_sub 32 (wrap 32 (Z.shiftl 1 bit)) 1))).

Lemma word_index_flags b0 b1 b2 b3 :
  let m := flags_mask b0 b1 b2 b3 in
  word_index m 0 = (if b0 then Some 0 else None) ∧
  word_index m 2 = (if b1 then Some (if b0 then 2 else 0) else None) ∧
  word_index m 3 = (if b2 then Some ((if b0 then 2 else 0) + if b1 then 1 else 0) else None) ∧
  word_index m 4 =
    (if b3 then Some ((if b0 then 2 else 0) + (if b1 then 1 else 0) + if b2 then 1 else 0)
     else None).
Proof. by destruct b0, b1, b2, b3; vm_compute. Qed.

Section config.
Context (bytes : list Z) (c : Config) (f : TransactionConfigFrame).
Hypothesis Hmask : mask_ f = config_mask c.
Hypothesis Hmo : mask_offset f = 4.

(** A word behind [k] others. *)
Lemma config_value_reads bit size n o k off' :
  word_index (config_mask c) bit = (if has o then Some k else None) →
  size = Z.of_nat n → word_ok (8 * size) o → 0 ≤ k ≤ 5 →
  0 ≤ values_offset f < 2 ^ 32 →
  reads bytes (values_offset f + k * 4) (wire_word n o) off' →
  config_value bytes f bit size = Ok o.
Proof using Hmask Hmo.
  intros Hi -> Hw Hk Hv R.
  assert (word_index_for_bit f bit = if has o then Some k else None) as Hw'.
  { rewrite <- Hi. unfold word_index_for_bit, is_present, word_index. by rewrite Hmo, Hmask. }
  clear Hi. unfold config_value, word_offset. rewrite Hw'.
  destruct o as [x|]; cbn [has mbind option_bind wire_word word_ok] in *; [|done].
  assert (checked_mul 64 k 4 = Some (k * 4)) as -> by (apply checked_mul_Some; lia).
  cbn [mbind option_bind].
  assert (checked_add 64 (values_offset f) (k * 4) = Some (values_offset f + k * 4)) as ->
    by (apply checked_add_Some; lia).
  rewrite (unchecked_copy_reads _ _ _ _ _ R) by apply zlen_le_bytes. cbn [mbind result_bind].
  rewrite le_round_trip; [done|]. unfold fits in Hw. change 256 with (2 ^ 8).
  by rewrite <- Z.pow_mul_r by lia.
Qed.

Lemma config_reads off' :
  config_ok c → 0 ≤ values_offset f < 2 ^ 32 → reads bytes (values_offset f) (wire_config c) off' →
  priority_fee_lamports bytes f = Ok (c_fee c) ∧ compute_unit_limit bytes f = Ok (c_compute_units c) ∧
  loaded_accounts_data_size_limit bytes f = Ok (c_loaded_size c) ∧
  requested_heap_size bytes f = Ok (c_heap c).
Proof using Hmask Hmo.
  intros (H1 & H2 & H3 & H4) Hv R. unfold wire_config in R.
  apply reads_app in R as (o1 & R1 & R). apply reads_app in R as (o2 & R2 & R).
  apply reads_app in R as (o3 & R3 & R4).
  destruct (reads_bounds _ _ _ _ R1) as (_ & _ & E1 & _).
  destruct (reads_bounds _ _ _ _ R2) as (_ & _ & E2 & _).
  destruct (reads_bounds _ _ _ _ R3) as (_ & _ & E3 & _).
  rewrite zlen_wire_word in E1, E2, E3.
  pose proof (word_index_flags (has (c_fee c)) (has (c_compute_units c)) (has (c_loaded_size c))
                (has (c_heap c))) as W. cbv zeta in W. rewrite <- config_mask_flags in W.
  destruct W as (W1 & W2 & W3 & W4). split_and!.
  - eapply (config_value_reads 0 8 8); [exact W1|done|done|lia|done|].
    rewrite Z.add_0_r. exact R1.
  - eapply (config_value_reads 2 4 4); [exact W2|done|done|destruct (has (c_fee c)); lia|done|].
    replace (values_offset f + _) with o1 by (rewrite E1; destruct (has (c_fee c)); lia). exact R2.
  - eapply (config_value_reads 3 4 4); [exact W3|done|done|
      destruct (has (c_fee c)), (has (c_compute_units c)); lia|done|].
    replace (values_offset f + _) with o2
      by (rewrite E2, E1; destruct (has (c_fee c)), (has (c_compute_units c)); lia). exact R3.
  - eapply (config_value_reads 4 4 4); [exact W4|done|done|
      destruct (has (c_fee c)), (has (c_compute_units c)), (has (c_loaded_size c)); lia|done|].
    replace (values_offset f + _) with o3
      by (rewrite E3, E2, E1;
          destruct (has (c_fee c)), (has (c_compute_units c)), (has (c_loaded_size c)); lia).
    exact R4.
Qed.

End config.

(** ** Decoding *)

Section decode.
Context `{WC : !WireConstants} (tx : Transaction).
Definition view_of : TransactionView := {| data := wire tx; frame := frame_for tx |}.
Hypothesis Hlen : zlen (wire tx) < 2 ^ 32.
Hypothesis Hok : Forall byte_ok (wire tx).
Hypothesis Hc : common_ok tx.

(** Everything a view shows except the configuration. *)
Record shows (v : TransactionView) : Prop := {
  sh_signatures : signatures v = Ok (tx_signatures tx);
  sh_keys : static_account_keys v = Ok (tx_keys tx);
  sh_hash : recent_blockhash v = Ok (tx_blockhash tx);
  sh_instructions : all_instructions v = Ok (tx_instructions tx);
  sh_lookups : all_lookups v = Ok (tx_lookups tx);
}.

Lemma shows_legacy_or_v0 :
  tx_version tx = Legacy ∨ tx_version tx = V0 → legacy_or_v0_ok tx → shows view_of.
Proof using Hlen Hok Hc.
  intros Hv [L1 L2 L3 L4 L5 L6]. destruct Hc as [C1 C2 C3 C4 C5].
  assert (Ew : wire tx = wire_legacy_or_v0 tx) by (unfold wire; by destruct Hv as [-> | ->]).
  assert (Ef : frame_for tx = frame_legacy_or_v0 tx) by (unfold frame_for; by destruct Hv as [-> | ->]).
  assert (R : reads (wire tx) 0 (wire_legacy_or_v0 tx) (zlen (wire tx))) by by apply reads_all.
  unfold wire_legacy_or_v0 in R. fold (prefix_of_version (tx_version tx)) in R.
  apply reads_app in R as (o1 & R1 & R). apply reads_app in R as (o2 & R2 & R).
  apply reads_app in R as (o3 & R3 & R). apply reads_app in R as (o4 & R4 & R).
  apply reads_app in R as (o5 & R5 & R). apply reads_app in R as (o6 & R6 & R).
  apply reads_app in R as (o7 & R7 & R). apply reads_app in R as (o8 & R8 & R).
  apply reads_app in R as (o9 & R9 & R10).
  pose proof (reads_bounds _ _ _ _ R1) as (_ & _ & E1 & _).
  pose proof (reads_bounds _ _ _ _ R2) as (_ & _ & E2 & _).
  pose proof (reads_bounds _ _ _ _ R3) as (_ & _ & E3 & _).
  pose proof (reads_bounds _ _ _ _ R4) as (_ & _ & E4 & _).
  pose proof (reads_bounds _ _ _ _ R5) as (_ & _ & E5 & _).
  pose proof (reads_bounds _ _ _ _ R6) as (_ & _ & E6 & _).
  pose proof (reads_bounds _ _ _ _ R7) as (_ & _ & E7 & _).
  pose proof (reads_bounds _ _ _ _ R8) as (_ & _ & E8 & _).
  pose proof (reads_bounds _ _ _ _ R9) as (_ & _ & E9 & _).
  change (zlen [_]) with 1 in E1, E5. change (zlen (header_bytes tx)) with 3 in E4.
  assert (zlen (tx_blockhash tx) = HASH_SIZE) as Eh by apply C4. rewrite Eh in E7.
  constructor; unfold view_of; rewrite ?Ef.
  - unfold signatures, num_signatures. cbn. apply (arrays_reads _ _ _ 1 o2); [done|]. by subst o1.
  - unfold static_account_keys, num_static_account_keys. cbn.
    eapply (arrays_reads _ _ _ _ o6); [done|]. subst. by rewrite ?Z.add_assoc in *.
  - unfold recent_blockhash. cbn. replace (_ + HASH_SIZE) with o7 by lia.
    replace (1 + _ + _ + _ + _ + _) with o6 by lia. by apply index_range_reads.
  - unfold all_instructions, num_instructions, instructions_iter. cbn -[collect].
    unfold zlen at 1. rewrite Nat2Z.id. eapply (collect_legacy _ [] _ _ o9); [done|].
    cbn [data]. replace (1 + _ + _ + _ + _ + _ + _ + _) with o8 by lia. exact R9.
  - apply (all_lookups_reads _ tx o9 (zlen (wire tx))); [done|done|done| | |done].
    + intros H. apply L5. naive_solver.
    + cbn -[lookups_frame]. f_equal. lia.
Qed.

Lemma shows_v1 c :
  tx_version tx = V1 ∨ tx_version tx = Magicblock → v1_ok tx → tx_config tx = Some c →
  shows view_of.
Proof using Hlen Hok Hc.
  intros Hv [L1 L2 L3 L4 L5 _] Ec. destruct Hc as [C1 C2 C3 C4 C5].
  destruct (wire_v1_eq tx c Hv Ec) as [Ew Ef].
  assert (R : reads (wire tx) 0 (wire tx) (zlen (wire tx))) by by apply reads_all.
  rewrite Ew in R at 2. rewrite wire_v1_split in R. apply reads_app in R as (o & Rp & Rt).
  assert (o = 42) as ->.
  { destruct (reads_bounds _ _ _ _ Rp) as (_ & _ & -> & _). destruct C4 as [C4 _].
    by rewrite !zlen_app, C4, zlen_le_bytes. }
  apply prefix_reads in Rp as (_ & _ & _ & _ & _ & Rh & _); [|apply zlen_le_bytes|apply C4].
  apply reads_app in Rt as (o1 & R1 & R). apply reads_app in R as (o2 & R2 & R).
  apply reads_app in R as (o3 & R3 & R5). apply reads_app in R3 as (o4 & R3 & R4).
  pose proof (reads_bounds _ _ _ _ R1) as (_ & _ & E1 & _).
  pose proof (reads_bounds _ _ _ _ R2) as (_ & _ & E2 & _).
  pose proof (reads_bounds _ _ _ _ R3) as (_ & _ & E3 & _). rewrite zlen_headers in E3.
  pose proof (reads_bounds _ _ _ _ R4) as (_ & _ & E4 & _).
  constructor; unfold view_of; rewrite ?Ef.
  - unfold signatures, num_signatures. cbn -[Z.mul Z.add]. rewrite <- L1.
    apply (arrays_reads _ _ _ _ (zlen (wire tx))); [done|]. by replace (_ + _) with o3 by lia.
  - unfold static_account_keys, num_static_account_keys. cbn -[Z.mul Z.add].
    by apply (arrays_reads _ _ _ _ o1).
  - unfold recent_blockhash. by apply index_range_reads.
  - unfold all_instructions, num_instructions, instructions_iter. cbn -[collect Z.mul Z.add].
    unfold zlen at 1. rewrite Nat2Z.id.
    apply (collect_v1 _ (tx_instructions tx) 0 _ _ o4 o3); [done|done|done|lia| |]; cbn [data].
    + by replace (42 + _ + _) with o2 by lia.
    + by replace (42 + _ + _ + _) with o4 by lia.
  - unfold all_lookups. by rewrite L5.
Qed.

Lemma decode_legacy_or_v0 :
  tx_version tx = Legacy ∨ tx_version tx = V0 → legacy_or_v0_ok tx → decode view_of = Ok tx.
Proof using Hlen Hok Hc.
  intros E Hv. destruct (shows_legacy_or_v0 E Hv) as [S1 S2 S3 S4 S5].
  unfold decode. rewrite S1, S2, S3, S4, S5. destruct Hv as [_ _ _ _ _ L6].
  assert (Ef : frame_for tx = frame_legacy_or_v0 tx) by (unfold frame_for; by destruct E as [-> | ->]).
  unfold view_of, transaction_config, version, num_required_signatures,
    num_readonly_signed_static_accounts, num_readonly_unsigned_static_accounts. rewrite Ef. cbn.
  by destruct tx; simplify_eq/=.
Qed.

Lemma decode_v1 c :
  tx_version tx = V1 ∨ tx_version tx = Magicblock → v1_ok tx → tx_config tx = Some c →
  config_ok c → decode view_of = Ok tx.
Proof using Hlen Hok Hc.
  intros E Hv Ec Hcfg. destruct (shows_v1 c E Hv Ec) as [S1 S2 S3 S4 S5].
  unfold decode. rewrite S1, S2, S3, S4, S5. destruct (wire_v1_eq tx c E Ec) as [Ew Ef].
  unfold view_of, transaction_config, version, num_required_signatures,
    num_readonly_signed_static_accounts, num_readonly_unsigned_static_accounts. rewrite Ef.
  assert (R : reads (wire tx) 0 (wire tx) (zlen (wire tx))) by by apply reads_all.
  rewrite Ew in R at 2. rewrite wire_v1_split in R. apply reads_app in R as (o & Rp & Rt).
  assert (o = 42) as ->.
  { destruct (reads_bounds _ _ _ _ Rp) as (_ & _ & -> & _). destruct Hc as [_ _ _ [C4 _] _].
    by rewrite !zlen_app, C4, zlen_le_bytes. }
  apply reads_app in Rt as (o1 & R1 & R). apply reads_app in R as (o2 & R2 & _).
  pose proof (reads_bounds _ _ _ _ R1) as (_ & _ & -> & B1).
  pose proof (reads_bounds _ _ _ _ R2) as (_ & _ & _ & _).
  pose proof (zlen_nonneg (concat (tx_keys tx))).
  destruct (config_reads (wire tx) c (transaction_config_frame (frame_v1 (prefix_byte (tx_version tx)) tx c))
              eq_refl eq_refl o2 Hcfg) as (F1 & F2 & F3 & F4);
    [cbn [values_offset transaction_config_frame frame_v1]; lia|done|].
  cbn [frame data]. change (is_present _) with true. cbv iota.
  rewrite F1, F2, F3, F4. cbn [mbind result_bind]. destruct c, tx; by simplify_eq/=.
Qed.

End decode.

(** ** Serializations are byte strings *)

Section wire_ok.
Context `{WC : !WireConstants}.

Lemma enc16_ok n : 0 ≤ n < 2 ^ 16 → Forall byte_ok (enc16 n).
Proof using Type.
  intros Hn. unfold enc16, byte_ok. pose proof (Z.mod_pos_bound n 128 ltac:(lia)).
  pose proof (Z.mod_pos_bound (n / 128) 128 ltac:(lia)).
  destruct (Z.ltb_spec n 128); [|destruct (Z.ltb_spec n 16384)]; rewrite !list.Forall_cons;
    split_and!; try done; Z.to_euclidean_division_equations; lia.
Qed.

Lemma Forall_parts {A} (ok : A → Prop) (f : A → list Z) l :
  (∀ x, ok x → Forall byte_ok (f x)) → Forall ok l → Forall byte_ok (concat (f <$> l)).
Proof using Type.
  intros H. induction 1; simpl; [done|]. apply Forall_app. auto.
Qed.

Lemma short_ok l : short l → Forall byte_ok (enc16 (zlen l)) ∧ Forall byte_ok l.
Proof using Type. intros [? ?]. pose proof (zlen_nonneg l). split; [apply enc16_ok; lia|done]. Qed.

Lemma arrays_ok size l : Forall (array_ok size) l → Forall byte_ok (concat l).
Proof using Type. intros H. apply Forall_concat. eapply list.Forall_impl; [exact H|]. by intros x [_ ?]. Qed.

Lemma wire_instruction_ok ix : instruction_ok ix → Forall byte_ok (wire_instruction ix).
Proof using Type.
  intros (Hp & [? ?]%short_ok & [? ?]%short_ok). unfold wire_instruction.
  rewrite !Forall_app. rewrite list.Forall_singleton. done.
Qed.

Lemma wire_lookup_ok l : lookup_ok l → Forall byte_ok (wire_lookup l).
Proof using Type.
  intros ([_ Hk] & [? ?]%short_ok & [? ?]%short_ok). unfold wire_lookup. by rewrite !Forall_app.
Qed.

Lemma wire_payload_ok ix : instruction_ok ix → Forall byte_ok (wire_payload ix).
Proof using Type. intros (_ & [_ ?] & [_ ?]). unfold wire_payload. by rewrite Forall_app. Qed.

Lemma wire_header_ok ix :
  instruction_ok ix ∧ zlen (ix_accounts ix) < 256 → Forall byte_ok (wire_header ix).
Proof using Type.
  intros [(Hp & _ & _) Ha]. pose proof (zlen_nonneg (ix_accounts ix)). unfold wire_header.
  rewrite Forall_app, !list.Forall_cons. split_and!; try done. apply le_bytes_ok.
Qed.

Lemma wire_word_bytes_ok n o : Forall byte_ok (wire_word n o).
Proof using Type. destruct o; [apply le_bytes_ok|done]. Qed.

Lemma wire_legacy_or_v0_bytes tx :
  common_ok tx → legacy_or_v0_ok tx → Forall byte_ok (wire_legacy_or_v0 tx).
Proof using Type.
  intros [C1 C2 C3 C4 C5] [L1 L2 L3 L4 L5 L6].
  change MAX_SIGNATURES_PER_PACKET with 12 in L1.
  change LEGACY_OR_V0_MAX_STATIC_ACCOUNTS_PER_PACKET with 38 in L2.
  destruct L4 as (M1 & M2 & _). change MAX_ATLS_PER_PACKET with 31 in M1.
  pose proof (zlen_nonneg (tx_lookups tx)). pose proof (zlen_nonneg (tx_instructions tx)).
  unfold wire_legacy_or_v0. rewrite !Forall_app, !list.Forall_singleton. split_and!.
  - unfold byte_ok. lia.
  - by eapply arrays_ok.
  - case_bool_decide; [|done]. by apply list.Forall_singleton.
  - done.
  - unfold byte_ok. lia.
  - by eapply arrays_ok.
  - apply C4.
  - apply enc16_ok. lia.
  - eapply Forall_parts; [apply wire_instruction_ok|done].
  - case_bool_decide; [|done]. apply Forall_app. split.
    + apply list.Forall_singleton. unfold byte_ok. lia.
    + eapply Forall_parts; [apply wire_lookup_ok|done].
Qed.

Lemma wire_v1_bytes p tx c :
  byte_ok p → common_ok tx → v1_ok tx → Forall byte_ok (wire_v1 p tx c).
Proof using Type.
  intros Hp [C1 C2 C3 C4 C5] [V1 V2 V3 V4 V5 V6].
  pose proof (zlen_nonneg (tx_keys tx)). pose proof (zlen_nonneg (tx_instructions tx)).
  unfold wire_v1. rewrite !Forall_app, !list.Forall_cons. split_and!; try done.
  - apply le_bytes_ok.
  - apply C4.
  - by eapply arrays_ok.
  - unfold wire_config. rewrite !Forall_app. auto using wire_word_bytes_ok.
  - eapply Forall_parts; [apply wire_header_ok|by apply Forall_and].
  - eapply Forall_parts; [apply wire_payload_ok|done].
  - by eapply arrays_ok.
Qed.

Lemma wire_bytes tx : tx_ok tx → Forall byte_ok (wire tx).
Proof using Type.
  intros (Hc & _ & Hv). unfold wire. pose proof v1_prefix_msb as Hp.
  destruct (tx_version tx); auto using wire_legacy_or_v0_bytes; apply wire_v1_bytes; auto.
  - unfold byte_ok. lia.
  - done.
Qed.

Lemma decode_frame tx : tx_ok tx → decode (view_of tx) = Ok tx.
Proof using Type.
  intros Hx. pose proof (wire_bytes tx Hx) as Hb. destruct Hx as (Hc & Hl & Hv).
  destruct (tx_version tx) eqn:Ev.
  1,2: by apply decode_legacy_or_v0; auto.
  1,2: pose proof Hv as [_ _ _ _ _ (c & Ec & Hcfg)]; by apply (decode_v1 tx Hl Hb Hc c); auto.
Qed.

End wire_ok.
