(* ===== verification/TxSanitize.v ===== *)
(** * Sanitization decides a property of the transaction *)

From stdpp Require Import base list gmap numbers option.
From S2P Require Import Prelude Account TxBytes TxFrame TxView TxWire TxFacts TxParse TxDecode.

Local Open Scope Z_scope.

(** ** Transactions the checks accept *)

Definition size_limit (v : TransactionVersion) : Z :=
  match v with Magicblock => 16777216 | _ => 65535 end.
Definition accounts_limit (v : TransactionVersion) : Z :=
  match v with Legacy | V0 => 256 | V1 => 64 | Magicblock => 255 end.
Definition instructions_limit (v : TransactionVersion) : Z :=
  match v with Magicblock => 255 | _ => 64 end.

Definition total_accounts (tx : Transaction) : Z :=
  zlen (tx_keys tx) + sum_len writable_indexes (tx_lookups tx) +
  sum_len readonly_indexes (tx_lookups tx).

Record instruction_sane (limit : bool) (tx : Transaction) (ix : SVMInstruction) : Prop := {
  sane_program : 0 < program_id_index ix < zlen (tx_keys tx);
  sane_indexes : Forall (λ i, i < total_accounts tx) (ix_accounts ix);
  sane_count : limit = true → zlen (ix_accounts ix) ≤ 255;
}.

Record sane `{!WireConstants} (limit : bool) (tx : Transaction) : Prop := {
  sane_size : zlen (wire tx) ≤ size_limit (tx_version tx);
  sane_signers : 1 ≤ tx_required tx ≤ zlen (tx_keys tx);
  sane_readonly_signed : tx_readonly_signed tx < tx_required tx;
  sane_readonly_unsigned : tx_required tx + tx_readonly_unsigned tx ≤ zlen (tx_keys tx);
  sane_heap : ∀ n, (tx_config tx ≫= c_heap) = Some n → HEAP_LENGTH ≤ n ≤ 262144 ∧ n mod 1024 = 0;
  sane_signatures : zlen (tx_signatures tx) = tx_required tx ∧ tx_required tx ≤ 12;
  sane_accounts : total_accounts tx ≤ accounts_limit (tx_version tx);
  sane_distinct : NoDup (tx_keys tx);
  sane_num_instructions : zlen (tx_instructions tx) ≤ instructions_limit (tx_version tx);
  sane_instructions : Forall (instruction_sane limit tx) (tx_instructions tx);
}.

(** ** Checks *)

(** [r] passes exactly when [P] holds, and otherwise is a [SanitizeError]. *)
Definition checks (r : result Fault unit) (P : Prop) : Prop :=
  match r with
  | Ok _ => P
  | Err (Reject SanitizeError) => ¬ P
  | _ => False
  end.

Lemma checks_refuse b (P : Prop) : (b = false ↔ P) → checks (refuse_if b SanitizeError) P.
Proof. unfold refuse_if. destruct b; simpl; naive_solver. Qed.

Lemma checks_bind r r' (P Q : Prop) :
  checks r P → (P → checks r' Q) → checks (_ ← r; r') (P ∧ Q).
Proof.
  intros H H'. destruct r as [u|[[]|]]; simpl in *; try done; [|naive_solver].
  specialize (H' H). destruct r' as [u'|[[]|]]; simpl in *; naive_solver.
Qed.

Lemma checks_iff r (P Q : Prop) : (P ↔ Q) → checks r P → checks r Q.
Proof. intros E. destruct r as [u|[[]|]]; simpl; naive_solver. Qed.

(** ** Loops *)

Fixpoint run {A} (body : A → result Fault unit) (l : list A) : result Fault unit :=
  match l with
  | [] => Ok tt
  | x :: l => _ ← body x; run body l
  end.

Lemma for_each_collect {S A} (next : S → result Fault (option (A * S))) body fuel it l :
  collect next fuel it = Ok l → for_each next body fuel it = run body l.
Proof.
  revert it l. induction fuel as [|fuel IH]; intros it l; [done|]. cbn [collect for_each].
  destruct (next it) as [[[x it']|]|]; cbn [mbind result_bind]; try naive_solver.
  destruct (collect next fuel it') as [xs|] eqn:E; cbn [mbind result_bind]; [|done].
  intros [= <-]. cbn [run]. destruct (body x); cbn [mbind result_bind]; [|done]. by apply IH.
Qed.

Lemma checks_run {A} (body : A → result Fault unit) (P : A → Prop) l :
  Forall (λ x, checks (body x) (P x)) l → checks (run body l) (Forall P l).
Proof.
  induction 1 as [|x l Hx _ IH]; cbn [run]; [by constructor|].
  eapply checks_iff; [symmetry; apply list.Forall_cons|]. by apply checks_bind.
Qed.

(** ** Duplicate keys *)

Lemma dup_quadratic_spec keys : dup_quadratic keys = false ↔ NoDup keys.
Proof.
  induction keys as [|k keys IH]; simpl; [by split; [constructor|]|].
  rewrite orb_false_iff, bool_decide_eq_false, IH. by rewrite list.NoDup_cons.
Qed.

Lemma dup_insert_spec keys set :
  dup_insert set keys = false ↔ NoDup keys ∧ ∀ k, k ∈ keys → k ∉ set.
Proof.
  revert set. induction keys as [|k keys IH]; intros set; simpl.
  - split; [|done]. intros _. split; [constructor|]. intros k H. by apply elem_of_nil in H.
  - case_bool_decide as Hk.
    + split; [done|]. intros [_ H]. by destruct (H k (list_elem_of_here _ _)).
    + rewrite IH, list.NoDup_cons. split.
      * intros [Hn Hs]. split; [split; [|done]|].
        -- intros Hin. apply (Hs k Hin). set_solver.
        -- intros k' [-> |Hin]%elem_of_cons; [done|]. specialize (Hs k' Hin). set_solver.
      * intros [[Hn Hd] Hs]. split; [done|]. intros k' Hin.
        assert (k' ≠ k) by (intros ->; done).
        assert (k' ∉ set) by (apply Hs; by apply elem_of_cons; right). set_solver.
Qed.

Lemma has_duplicates_spec keys : has_duplicates keys = false ↔ NoDup keys.
Proof.
  unfold has_duplicates. case_match; [|apply dup_quadratic_spec].
  rewrite dup_insert_spec. split; [naive_solver|]. intros Hn. split; [done|]. intros k _. set_solver.
Qed.

(** ** What the checks read *)

Section sanitize.
Context `{WC : !WireConstants}.

Record exposes (tx : Transaction) (v : TransactionView) : Prop := {
  ex_data : data v = wire tx;
  ex_version : version v = tx_version tx;
  ex_num_signatures : num_signatures v = zlen (tx_signatures tx);
  ex_required : num_required_signatures v = tx_required tx;
  ex_readonly_signed : num_readonly_signed_static_accounts v = tx_readonly_signed tx;
  ex_readonly_unsigned : num_readonly_unsigned_static_accounts v = tx_readonly_unsigned tx;
  ex_num_keys : num_static_account_keys v = zlen (tx_keys tx);
  ex_num_instructions : num_instructions v = zlen (tx_instructions tx);
  ex_num_lookups : num_address_table_lookups v = zlen (tx_lookups tx);
  ex_writable : total_writable_lookup_accounts v = sum_len writable_indexes (tx_lookups tx);
  ex_readonly : total_readonly_lookup_accounts v = sum_len readonly_indexes (tx_lookups tx);
  ex_keys : static_account_keys v = Ok (tx_keys tx);
  ex_instructions : all_instructions v = Ok (tx_instructions tx);
  ex_heap : match transaction_config v with
            | Some f => requested_heap_size (data v) f
            | None => Ok None end = Ok (tx_config tx ≫= c_heap);
}.

Lemma decode_parts v tx :
  decode v = Ok tx →
  static_account_keys v = Ok (tx_keys tx) ∧ all_instructions v = Ok (tx_instructions tx) ∧
  match transaction_config v with
  | Some f => requested_heap_size (data v) f
  | None => Ok None end = Ok (tx_config tx ≫= c_heap) ∧
  version v = tx_version tx ∧ num_required_signatures v = tx_required tx ∧
  num_readonly_signed_static_accounts v = tx_readonly_signed tx ∧
  num_readonly_unsigned_static_accounts v = tx_readonly_unsigned tx.
Proof using Type.
  unfold decode. intros H. destruct (signatures v) as [sigs|]; [|done]. cbn [mbind result_bind] in H.
  destruct (static_account_keys v) as [keys|]; [|done]. cbn [mbind result_bind] in H.
  destruct (recent_blockhash v) as [hash|]; [|done]. cbn [mbind result_bind] in H.
  destruct (all_instructions v) as [ixs|]; [|done]. cbn [mbind result_bind] in H.
  destruct (all_lookups v) as [lks|]; [|done]. cbn [mbind result_bind] in H.
  destruct (transaction_config v) as [f|].
  - destruct (priority_fee_lamports (data v) f) as [fee|]; [|done]. cbn [mbind result_bind] in H.
    destruct (compute_unit_limit (data v) f) as [cu|]; [|done]. cbn [mbind result_bind] in H.
    destruct (loaded_accounts_data_size_limit (data v) f) as [ld|]; [|done].
    cbn [mbind result_bind] in H.
    destruct (requested_heap_size (data v) f) as [heap|]; [|done]. cbn [mbind result_bind] in H.
    injection H as <-. done.
  - cbn [mbind result_bind] in H. injection H as <-. done.
Qed.

Lemma view_exposes tx : tx_ok tx → exposes tx (view_of tx).
Proof using Type.
  intros Hx. pose proof (decode_frame tx Hx) as Hd.
  destruct (decode_parts _ _ Hd) as (D1 & D2 & D3 & D4 & D5 & D6 & D7).
  destruct Hx as (Hc & Hl & Hv).
  assert (num_signatures (view_of tx) = zlen (tx_signatures tx) ∧
          num_static_account_keys (view_of tx) = zlen (tx_keys tx) ∧
          num_instructions (view_of tx) = zlen (tx_instructions tx) ∧
          num_address_table_lookups (view_of tx) = zlen (tx_lookups tx) ∧
          total_writable_lookup_accounts (view_of tx) = sum_len writable_indexes (tx_lookups tx) ∧
          total_readonly_lookup_accounts (view_of tx) = sum_len readonly_indexes (tx_lookups tx))
    as (E1 & E2 & E3 & E4 & E5 & E6); [|by constructor].
  unfold num_signatures, num_static_account_keys, num_instructions, num_address_table_lookups,
    total_writable_lookup_accounts, total_readonly_lookup_accounts, view_of, frame_for.
  destruct (tx_version tx) eqn:Ev; cbn; unfold lookups_frame; rewrite ?Ev.
  - destruct Hv as [_ _ _ _ H _]. destruct (H Ev) as [_ ->]. done.
  - done.
  - destruct Hv as [H1 _ _ _ H2 _]. by rewrite H1, H2.
  - destruct Hv as [H1 _ _ _ H2 _]. by rewrite H1, H2.
Qed.

(** Bounds of the counts. *)
Lemma tx_bounds tx :
  tx_ok tx →
  zlen (tx_keys tx) < 256 ∧ byte_ok (tx_required tx) ∧ byte_ok (tx_readonly_signed tx) ∧
  byte_ok (tx_readonly_unsigned tx) ∧ 0 ≤ sum_len writable_indexes (tx_lookups tx) < 2 ^ 16 ∧
  0 ≤ sum_len readonly_indexes (tx_lookups tx) < 2 ^ 16 ∧
  Forall instruction_ok (tx_instructions tx).
Proof using Type.
  intros ([_ C2 _ _ C5] & _ & Hv). unfold header_bytes in C2. rewrite !list.Forall_cons in C2.
  destruct C2 as (B1 & B2 & B3 & _).
  assert (zlen (tx_keys tx) < 256 ∧ lookups_ok (tx_lookups tx)) as [Hk (_ & _ & _ & L1 & L2)].
  { destruct (tx_version tx).
    1,2: destruct Hv as [_ K _ L _ _];
      change LEGACY_OR_V0_MAX_STATIC_ACCOUNTS_PER_PACKET with 38 in K; split; [lia|done].
    1,2: destruct Hv as [_ K _ _ L _]; rewrite L; split; [lia|by split_and!]. }
  split_and!; try done; apply zlen_nonneg.
Qed.

Section steps.
Context (tx : Transaction) (v : TransactionView) (limit : bool).
Hypothesis Htx : tx_ok tx.
Hypothesis Hv : exposes tx v.

Lemma checks_size : checks (sanitize_transaction_size v) (zlen (wire tx) ≤ size_limit (tx_version tx)).
Proof using Hv.
  apply checks_refuse. rewrite (ex_version _ _ Hv), (ex_data _ _ Hv).
  rewrite Z.ltb_ge. by destruct (tx_version tx).
Qed.

Lemma checks_header :
  checks (sanitize_message_header v)
    (1 ≤ tx_required tx ∧ tx_readonly_signed tx < tx_required tx ∧
     tx_readonly_unsigned tx ≤ wrapping_sub 8 (zlen (tx_keys tx)) (tx_required tx)).
Proof using Hv.
  unfold sanitize_message_header. destruct Hv.
  rewrite ex_required0, ex_readonly_signed0, ex_readonly_unsigned0, ex_num_keys0.
  apply checks_bind; [apply checks_refuse; rewrite Z.ltb_ge; lia|]. intros _.
  apply checks_bind; [apply checks_refuse; rewrite Z.leb_gt; lia|]. intros _.
  apply checks_refuse. by rewrite Z.ltb_ge.
Qed.

Lemma checks_config :
  checks (sanitize_config v)
    (∀ n, (tx_config tx ≫= c_heap) = Some n → HEAP_LENGTH ≤ n ≤ 262144 ∧ n mod 1024 = 0).
Proof using Hv.
  unfold sanitize_config. rewrite (ex_heap _ _ Hv). cbn [mbind result_bind].
  change (@option_bind Config Z) with (@mbind option option_bind Config Z).
  destruct (tx_config tx ≫= c_heap) as [n|]; [|done].
  apply checks_refuse. unfold MIN_HEAP_FRAME_BYTES. change MAX_HEAP_FRAME_BYTES with 262144.
  rewrite orb_false_iff, !negb_false_iff, andb_true_iff, !Z.leb_le, Z.eqb_eq. naive_solver.
Qed.

Lemma checks_signatures :
  checks (sanitize_signatures v)
    (zlen (tx_signatures tx) = tx_required tx ∧ zlen (tx_signatures tx) ≤ 12 ∧
     zlen (tx_signatures tx) ≤ zlen (tx_keys tx)).
Proof using Hv.
  unfold sanitize_signatures. destruct Hv. rewrite ex_required0, ex_num_signatures0, ex_num_keys0.
  apply checks_bind; [apply checks_refuse; by rewrite negb_false_iff, Z.eqb_eq|]. intros _.
  apply checks_bind; [apply checks_refuse; by rewrite Z.ltb_ge|]. intros _.
  apply checks_refuse. by rewrite Z.ltb_ge.
Qed.

Lemma accounts_limit_bound ver : accounts_limit ver ≤ 256.
Proof using Type. by destruct ver. Qed.

Lemma total_saturates l : l ≤ 256 → total_number_of_accounts v ≤ l ↔ total_accounts tx ≤ l.
Proof using Htx Hv.
  destruct (tx_bounds tx Htx) as (K & _ & _ & _ & W & R & _). pose proof (zlen_nonneg (tx_keys tx)).
  unfold total_number_of_accounts, total_accounts. destruct Hv.
  rewrite ex_num_keys0, ex_writable0, ex_readonly0. unfold saturating_add, umax. lia.
Qed.

Lemma total_exact : total_accounts tx ≤ 256 → total_number_of_accounts v = total_accounts tx.
Proof using Htx Hv.
  destruct (tx_bounds tx Htx) as (K & _ & _ & _ & W & R & _). pose proof (zlen_nonneg (tx_keys tx)).
  unfold total_number_of_accounts, total_accounts. destruct Hv.
  rewrite ex_num_keys0, ex_writable0, ex_readonly0. unfold saturating_add, umax. lia.
Qed.

Lemma checks_access :
  checks (sanitize_account_access v)
    (total_accounts tx ≤ accounts_limit (tx_version tx) ∧ NoDup (tx_keys tx)).
Proof using Htx Hv.
  unfold sanitize_account_access. apply checks_bind.
  - apply checks_refuse. rewrite (ex_version _ _ Hv), Z.ltb_ge.
    rewrite <- total_saturates by apply accounts_limit_bound. by destruct (tx_version tx).
  - intros _. rewrite (ex_keys _ _ Hv). cbn [mbind result_bind].
    apply checks_refuse, has_duplicates_spec.
Qed.

Lemma checks_instruction ix :
  instruction_ok ix → 1 ≤ zlen (tx_keys tx) → total_accounts tx ≤ 256 →
  checks (sanitize_instruction limit (wrapping_sub 8 (zlen (tx_keys tx)) 1)
            (wrap 8 (wrapping_sub 16 (total_number_of_accounts v) 1)) ix)
    (instruction_sane limit tx ix).
Proof using Htx Hv.
  intros (Hp & [_ Ha] & _) Hk Ht. destruct (tx_bounds tx Htx) as (K & _ & _ & _ & W & R & _).
  rewrite total_exact by done. unfold byte_ok in Hp.
  assert (1 ≤ total_accounts tx) by (unfold total_accounts; lia).
  unfold wrapping_sub. rewrite !wrap_small by (unfold fits; rewrite ?wrap_small; unfold fits; lia).
  eapply checks_iff; [|unfold sanitize_instruction; apply checks_bind;
    [apply checks_refuse; apply Z.ltb_ge|intros _; apply checks_bind;
      [apply checks_refuse; apply Z.eqb_neq|intros _; apply checks_bind;
        [apply checks_refuse|intros _; apply checks_refuse; apply andb_false_iff]]]].
  2: { instantiate (1 := Forall (λ i, i < total_accounts tx) (ix_accounts ix)).
       rewrite <- not_true_iff_false, existsb_exists, Forall_forall. setoid_rewrite Z.ltb_lt. split.
       - intros Hn i Hi. destruct (Z.lt_ge_cases i (total_accounts tx)); [done|].
         destruct Hn. exists i. split; [done|lia].
       - intros Hn (i & Hi & Hlt). apply Hn in Hi. lia. }
  rewrite Z.ltb_ge. change MAX_ACCOUNTS_PER_INSTRUCTION with 255. split.
  - intros (A & B & C & D). constructor; [lia|done|]. intros ->. by destruct D.
  - intros [A B C]. split_and!; [lia|lia|done|]. destruct limit; [right; by apply C|by left].
Qed.

Lemma checks_instructions :
  1 ≤ zlen (tx_keys tx) → total_accounts tx ≤ 256 →
  checks (sanitize_instructions v limit)
    (zlen (tx_instructions tx) ≤ instructions_limit (tx_version tx) ∧
     Forall (instruction_sane limit tx) (tx_instructions tx)).
Proof using Htx Hv.
  intros Hk Ht. unfold sanitize_instructions. apply checks_bind.
  - apply checks_refuse. rewrite (ex_version _ _ Hv), (ex_num_instructions _ _ Hv), Z.ltb_ge.
    by destruct (tx_version tx).
  - intros _. cbv zeta. rewrite (for_each_collect _ _ _ _ _ (ex_instructions _ _ Hv)).
    apply checks_run. rewrite (ex_num_keys _ _ Hv). destruct (tx_bounds tx Htx) as (_ & _ & _ & _ & _ & _ & Hi).
    eapply list.Forall_impl; [exact Hi|]. intros ix Hix. by apply checks_instruction.
Qed.

(** All checks but the last. *)
Lemma sanitize_spec :
  match sanitize v limit with
  | Ok _ => sane limit tx ∧ tx_lookups tx = []
  | Err (Reject AddressLookupMismatch) => sane limit tx ∧ tx_lookups tx ≠ []
  | Err (Reject SanitizeError) => ¬ sane limit tx
  | Err _ => False
  end.
Proof using Htx Hv.
  assert (checks (_ ← sanitize_transaction_size v; _ ← sanitize_message_header v;
    _ ← sanitize_config v; _ ← sanitize_signatures v; _ ← sanitize_account_access v;
    sanitize_instructions v limit) (sane limit tx)) as Hc.
  { eapply checks_iff; [|apply checks_bind; [apply checks_size|intros _; apply checks_bind;
      [apply checks_header|intros Hh; apply checks_bind; [apply checks_config|intros _;
        apply checks_bind; [apply checks_signatures|intros Hs; apply checks_bind;
          [apply checks_access|intros Ha; apply checks_instructions]]]]]].
    - destruct (tx_bounds tx Htx) as (K & B1 & B2 & B3 & _). unfold byte_ok, wrapping_sub in *. split.
      + intros (? & (? & ? & Hw) & ? & (? & ? & ?) & (? & ?) & ? & ?).
        rewrite wrap_small in Hw by (unfold fits; lia). constructor; auto; lia.
      + intros [? ? ? ? ? [? ?] ? ? ? ?]. rewrite wrap_small by (unfold fits; lia).
        split_and!; auto; lia.
    - lia.
    - destruct Ha as [Ha _]. pose proof (accounts_limit_bound (tx_version tx)). lia. }
  unfold sanitize, checks in *. revert Hc.
  destruct (sanitize_transaction_size v) as [[]|e]; cbn [mbind result_bind]; [|by repeat case_match].
  destruct (sanitize_message_header v) as [[]|e]; cbn [mbind result_bind]; [|by repeat case_match].
  destruct (sanitize_config v) as [[]|e]; cbn [mbind result_bind]; [|by repeat case_match].
  destruct (sanitize_signatures v) as [[]|e]; cbn [mbind result_bind]; [|by repeat case_match].
  destruct (sanitize_account_access v) as [[]|e]; cbn [mbind result_bind]; [|by repeat case_match].
  destruct (sanitize_instructions v limit) as [[]|e]; cbn [mbind result_bind]; [|by repeat case_match].
  intros Hs. unfold sanitize_address_table_lookups, refuse_if. rewrite (ex_num_lookups _ _ Hv).
  destruct (Z.eqb_spec (zlen (tx_lookups tx)) 0) as [E|E]; cbn [negb].
  - split; [done|by apply zlen_0].
  - split; [done|]. intros E'. by rewrite E' in E.
Qed.

End steps.
End sanitize.
