(* ===== verification/TxResolve.v ===== *)
(** * The writability cache of a resolved view *)

From stdpp Require Import base list gmap numbers option.
From S2P Require Import Prelude Account TxBytes TxFrame TxView TxWire TxFacts TxParse TxDecode TxSanitize.

Local Open Scope Z_scope.

(** ** Which accounts a transaction may write *)

Section reference.
Context `{WC : !WireConstants}.

(** Signed keys come first, and within the signed and the unsigned ones the writable ones. *)
Definition asks_write (tx : Transaction) (i : Z) : Prop :=
  i < tx_required tx - tx_readonly_signed tx ∨
  tx_required tx ≤ i < zlen (tx_keys tx) - tx_readonly_unsigned tx.

(** A requested write is granted unless the key is reserved, or is a program that is called
    while the upgradeable loader is not among the accounts. *)
Definition may_write (tx : Transaction) (reserved : gset Pubkey) (i : Z) : Prop :=
  asks_write tx i ∧
  (∃ key, tx_keys tx !! Z.to_nat i = Some key ∧ key ∉ reserved) ∧
  ((∃ ix, ix ∈ tx_instructions tx ∧ program_id_index ix = i) →
   BPF_LOADER_UPGRADEABLE ∈ tx_keys tx).

(** ** Bits of the cache *)

Definition bit (cache : list Z) (i : Z) : bool :=
  match cache !! Z.to_nat (i / 64) with Some w => Z.testbit w (i mod 64) | None => false end.

Lemma land_bit w i : 0 ≤ i → negb (Z.land w (Z.shiftl 1 i) =? 0) = Z.testbit w i.
Proof using Type.
  intros Hi. assert (Z.land w (Z.shiftl 1 i) = if Z.testbit w i then 2 ^ i else 0) as ->.
  { apply Z.bits_inj'. intros n Hn. rewrite Z.land_spec, Z.shiftl_1_l, Z.pow2_bits_eqb by lia.
    destruct (Z.eqb_spec i n) as [<-|].
    - rewrite andb_true_r. destruct (Z.testbit w i); [by rewrite Z.pow2_bits_true|by rewrite Z.bits_0].
    - rewrite andb_false_r. destruct (Z.testbit w i); [by rewrite Z.pow2_bits_false|by rewrite Z.bits_0]. }
  destruct (Z.testbit w i); [|done]. by rewrite (proj2 (Z.eqb_neq _ _)) by lia.
Qed.

Lemma is_writable_bit r i : 0 ≤ i → is_writable_index r i = bit (writable_cache r) i.
Proof using Type.
  intros Hi. unfold is_writable_index, bit, bit_of. case_match; [|done].
  apply land_bit. apply Z.mod_pos_bound. lia.
Qed.

Lemma word_of_index i j :
  0 ≤ i → 0 ≤ j → Z.to_nat (i / 64) = Z.to_nat (j / 64) → i mod 64 = j mod 64 → i = j.
Proof using Type. intros Hi Hj E1 E2. Z.to_euclidean_division_equations. lia. Qed.

Lemma get_word_ok (cache : list Z) i : length cache = 4%nat → 0 ≤ i < 256 → ∃ w, cache !! Z.to_nat (i / 64) = Some w.
Proof using Type.
  intros Hl Hi. apply lookup_lt_is_Some. rewrite Hl. Z.to_euclidean_division_equations. lia.
Qed.

Lemma bit_put cache i w w' j f :
  length cache = 4%nat → 0 ≤ i < 256 → 0 ≤ j → cache !! Z.to_nat (i / 64) = Some w →
  (∀ k, 0 ≤ k → Z.testbit w' k = if bool_decide (k = i mod 64) then f else Z.testbit w k) →
  bit (put_word cache i w') j = if bool_decide (j = i) then f else bit cache j.
Proof using Type.
  intros Hl Hi Hj Hw Hf. unfold bit, put_word.
  pose proof (Z.mod_pos_bound j 64 ltac:(lia)).
  destruct (decide (Z.to_nat (j / 64) = Z.to_nat (i / 64))) as [E|E].
  - rewrite E, list_lookup_insert_eq by (by eapply lookup_lt_Some). rewrite Hf by lia. rewrite Hw.
    destruct (decide (j = i)) as [->|Hne]; [by rewrite !bool_decide_eq_true_2|].
    rewrite !bool_decide_eq_false_2; [done|done|]. intros Em. apply Hne, word_of_index; [lia|lia|done|done].
  - rewrite list_lookup_insert_ne by done. rewrite bool_decide_eq_false_2; [done|]. by intros ->.
Qed.

Lemma testbit_set w n k : 0 ≤ n → 0 ≤ k →
  Z.testbit (Z.lor w (Z.shiftl 1 n)) k = if bool_decide (k = n) then true else Z.testbit w k.
Proof using Type.
  intros Hn Hk. rewrite Z.lor_spec, Z.shiftl_1_l, Z.pow2_bits_eqb by done.
  case_bool_decide; destruct (Z.eqb_spec n k); try lia; by rewrite ?orb_true_r, ?orb_false_r.
Qed.

Lemma testbit_clear w n k : 0 ≤ n → 0 ≤ k →
  Z.testbit (Z.ldiff w (Z.shiftl 1 n)) k = if bool_decide (k = n) then false else Z.testbit w k.
Proof using Type.
  intros Hn Hk. rewrite Z.ldiff_spec, Z.shiftl_1_l, Z.pow2_bits_eqb by done.
  case_bool_decide; destruct (Z.eqb_spec n k); try lia; by rewrite ?andb_false_r, ?andb_true_r.
Qed.

Lemma bit_set cache i w j :
  length cache = 4%nat → 0 ≤ i < 256 → 0 ≤ j → cache !! Z.to_nat (i / 64) = Some w →
  bit (put_word cache i (Z.lor w (bit_of i))) j = if bool_decide (j = i) then true else bit cache j.
Proof using Type.
  intros Hl Hi Hj Hw. apply (bit_put _ _ w); [done|done|done|done|]. intros k Hk.
  apply testbit_set; [|done]. apply Z.mod_pos_bound. lia.
Qed.

Lemma bit_clear cache i w j :
  length cache = 4%nat → 0 ≤ i < 256 → 0 ≤ j → cache !! Z.to_nat (i / 64) = Some w →
  bit (put_word cache i (Z.ldiff w (bit_of i))) j = if bool_decide (j = i) then false else bit cache j.
Proof using Type.
  intros Hl Hi Hj Hw. apply (bit_put _ _ w); [done|done|done|done|]. intros k Hk.
  apply testbit_clear; [|done]. apply Z.mod_pos_bound. lia.
Qed.

(** ** The two loops *)

Lemma lookup_shift (keys : list Pubkey) key i j :
  j ≠ i → ∀ x, (i + 1 ≤ j ∧ keys !! Z.to_nat (j - (i + 1)) = Some x) ↔
               (i ≤ j ∧ (key :: keys) !! Z.to_nat (j - i) = Some x).
Proof using Type.
  intros Hj x. split; intros [? Hx]; (split; [lia|]).
  - by replace (Z.to_nat (j - i)) with (S (Z.to_nat (j - (i + 1)))) by lia.
  - by replace (Z.to_nat (j - i)) with (S (Z.to_nat (j - (i + 1)))) in Hx by lia.
Qed.

Lemma mark_writable_spec v reserved keys index cache :
  length cache = 4%nat → 0 ≤ index → index + zlen keys ≤ 256 →
  ∃ cache', mark_writable v reserved index keys cache = Ok cache' ∧ length cache' = 4%nat ∧
    ∀ j, 0 ≤ j → bit cache' j = true ↔ bit cache j = true ∨
      index ≤ j ∧ requested_write v j = true ∧
      ∃ key, keys !! Z.to_nat (j - index) = Some key ∧ key ∉ reserved.
Proof using Type.
  revert index cache. induction keys as [|key keys IH]; intros index cache Hl Hi Hn; cbn [mark_writable].
  - exists cache. split_and!; [done|done|]. intros j Hj. split; [by left|]. intros [?|(_ & _ & ? & ? & _)]; done.
  - rewrite zlen_cons in Hn. pose proof (zlen_nonneg keys).
    destruct (requested_write v index && negb (bool_decide (key ∈ reserved))) eqn:E.
    + destruct (get_word_ok cache index Hl ltac:(lia)) as [w Hw]. unfold get_word. rewrite Hw.
      cbn [ok_or mbind result_bind].
      destruct (IH (index + 1) (put_word cache index (Z.lor w (bit_of index)))) as (c & Hc & Hlc & Hb);
        [unfold put_word; by rewrite length_insert|lia|lia|].
      exists c. split_and!; [done|done|]. intros j Hj. rewrite Hb by done.
      rewrite (bit_set cache index w j) by (done || lia).
      apply andb_true_iff in E as [E1 E2]. apply negb_true_iff, bool_decide_eq_false in E2.
      case_bool_decide as Ej.
      * subst j. split; [|by left]. intros _. right. split; [lia|]. split; [done|].
        exists key. rewrite Z.sub_diag. done.
      * split; (intros [?|(Hle & Hq & k & Hk & Hr)]; [by left|right]).
        -- destruct (proj1 (lookup_shift keys key index j Ej k) (conj Hle Hk)) as [? ?]. eauto 6.
        -- destruct (proj2 (lookup_shift keys key index j Ej k) (conj Hle Hk)) as [? ?]. eauto 6.
    + cbn [mbind result_bind]. destruct (IH (index + 1) cache Hl ltac:(lia) ltac:(lia)) as (c & Hc & Hlc & Hb).
      exists c. split_and!; [done|done|]. intros j Hj. rewrite Hb by done.
      apply andb_false_iff in E. rewrite negb_false_iff, bool_decide_eq_true in E.
      destruct (decide (j = index)) as [->|Ej].
      * rewrite Z.sub_diag. split; [intros [?|[? _]]; [by left|lia]|].
        intros [?|(_ & Hr & k & [= <-] & Hk)]; [by left|]. destruct E as [E|E]; [congruence|done].
      * split; (intros [?|(Hle & Hq & k & Hk & Hr)]; [by left|right]).
        -- destruct (proj1 (lookup_shift keys key index j Ej k) (conj Hle Hk)) as [? ?]. eauto 6.
        -- destruct (proj2 (lookup_shift keys key index j Ej k) (conj Hle Hk)) as [? ?]. eauto 6.
Qed.

Fixpoint demote_all (keys : list Pubkey) (ixs : list SVMInstruction) (cache : list Z)
    : result Fault (list Z) :=
  match ixs with
  | [] => Ok cache
  | ix :: ixs => cache ← demote_program keys cache ix; demote_all keys ixs cache
  end.

Lemma demote_programs_collect v keys fuel it cache ixs :
  collect (instructions_next v) fuel it = Ok ixs →
  demote_programs v keys fuel it cache = demote_all keys ixs cache.
Proof using Type.
  revert it cache ixs. induction fuel as [|fuel IH]; intros it cache ixs; [done|].
  cbn [collect demote_programs].
  destruct (instructions_next v it) as [[[x it']|]|]; cbn [mbind result_bind]; try naive_solver.
  destruct (collect (instructions_next v) fuel it') as [xs|] eqn:E; cbn [mbind result_bind]; [|done].
  intros [= <-]. cbn [demote_all].
  destruct (demote_program keys cache x); cbn [mbind result_bind]; [|done]. by apply IH.
Qed.

Lemma has_loader keys :
  existsb (λ k, bool_decide (k = BPF_LOADER_UPGRADEABLE)) keys = true ↔ BPF_LOADER_UPGRADEABLE ∈ keys.
Proof using Type.
  rewrite existsb_exists. setoid_rewrite bool_decide_eq_true. rewrite list_elem_of_In. naive_solver.
Qed.

Lemma demote_program_spec keys cache ix :
  length cache = 4%nat → byte_ok (program_id_index ix) →
  ∃ cache', demote_program keys cache ix = Ok cache' ∧ length cache' = 4%nat ∧
    ∀ j, 0 ≤ j → bit cache' j = true ↔
      bit cache j = true ∧ (program_id_index ix = j → BPF_LOADER_UPGRADEABLE ∈ keys).
Proof using Type.
  intros Hl Hp. unfold demote_program, get_word.
  destruct (get_word_ok cache (program_id_index ix) Hl Hp) as [w Hw]. rewrite Hw.
  cbn [ok_or mbind result_bind]. unfold byte_ok in Hp. pose proof (has_loader keys) as HL.
  assert (Hb : negb (Z.land w (bit_of (program_id_index ix)) =? 0) = bit cache (program_id_index ix)).
  { unfold bit. rewrite Hw. apply land_bit. apply Z.mod_pos_bound. lia. }
  rewrite Hb. destruct (bit cache (program_id_index ix)) eqn:Eb; cbn [andb].
  - revert HL. destruct (existsb _ keys); cbn [negb]; intros HL.
    + exists cache. split_and!; [done|done|]. intros j Hj. naive_solver.
    + eexists. split_and!; [done|unfold put_word; by rewrite length_insert|]. intros j Hj.
      rewrite (bit_clear cache _ w) by (done || lia). case_bool_decide; naive_solver.
  - exists cache. split_and!; [done|done|]. intros j Hj. split; [|by intros [? _]].
    intros Hb'. split; [done|]. intros <-. congruence.
Qed.

Lemma demote_all_spec keys ixs cache :
  length cache = 4%nat → Forall (λ ix, byte_ok (program_id_index ix)) ixs →
  ∃ cache', demote_all keys ixs cache = Ok cache' ∧ length cache' = 4%nat ∧
    ∀ j, 0 ≤ j → bit cache' j = true ↔
      bit cache j = true ∧
      ((∃ ix, ix ∈ ixs ∧ program_id_index ix = j) → BPF_LOADER_UPGRADEABLE ∈ keys).
Proof using Type.
  intros Hl Hi. revert cache Hl. induction Hi as [|ix ixs Hx _ IH]; intros cache Hl; cbn [demote_all].
  - exists cache. split_and!; [done|done|]. intros j Hj. split; [|naive_solver]. intros ?. split; [done|].
    intros (ix & Hin & _). by apply elem_of_nil in Hin.
  - destruct (demote_program_spec keys cache ix Hl Hx) as (c1 & E1 & L1 & B1). rewrite E1.
    cbn [mbind result_bind]. destruct (IH c1 L1) as (c2 & E2 & L2 & B2).
    exists c2. split_and!; [done|done|]. intros j Hj. rewrite B2, B1 by done.
    setoid_rewrite elem_of_cons. naive_solver.
Qed.

(** ** The cache *)

Lemma requested_spec limit tx v i :
  exposes tx v → tx_ok tx → sane limit tx → tx_lookups tx = [] → 0 ≤ i < zlen (tx_keys tx) →
  requested_write v i = true ↔ asks_write tx i.
Proof using Type.
  intros Hv Hx [_ S1 S2 S3 _ _ _ _ _ _] Hn Hi. unfold requested_write, asks_write.
  destruct (tx_bounds tx Hx) as (K & B1 & B2 & B3 & _). unfold byte_ok in *.
  unfold num_writable_unsigned_static_accounts, num_static_unsigned_static_accounts,
    num_writable_signed_static_accounts.
  rewrite (ex_num_keys _ _ Hv), (ex_required _ _ Hv), (ex_readonly_signed _ _ Hv),
    (ex_readonly_unsigned _ _ Hv). unfold wrapping_sub.
  rewrite (wrap_small 8 (zlen (tx_keys tx) - _)) by (unfold fits; lia).
  rewrite !wrap_small by (unfold fits; lia).
  destruct (Z.leb_spec (zlen (tx_keys tx)) i); [lia|].
  destruct (Z.leb_spec (tx_required tx) i); rewrite Z.ltb_lt; lia.
Qed.

Lemma cache_spec limit tx v loaded reserved :
  exposes tx v → tx_ok tx → sane limit tx → tx_lookups tx = [] →
  account_keys (tx_keys tx) loaded = tx_keys tx →
  ∃ cache, cache_is_writable v loaded reserved = Ok cache ∧ length cache = 4%nat ∧
    ∀ i, 0 ≤ i → bit cache i = true ↔ may_write tx reserved i.
Proof using Type.
  intros Hv Hx Hs Hn Hk. unfold cache_is_writable. rewrite (ex_keys _ _ Hv). cbn [mbind result_bind].
  rewrite Hk. destruct (tx_bounds tx Hx) as (K & _ & _ & _ & _ & _ & Hi).
  destruct (mark_writable_spec v reserved (tx_keys tx) 0 [0; 0; 0; 0]) as (c1 & E1 & L1 & B1);
    [done|done|lia|]. rewrite E1. cbn [mbind result_bind].
  rewrite (demote_programs_collect _ _ _ _ _ _ (ex_instructions _ _ Hv)).
  destruct (demote_all_spec (tx_keys tx) (tx_instructions tx) c1 L1) as (c2 & E2 & L2 & B2).
  { eapply list.Forall_impl; [exact Hi|]. by intros ix (? & _). }
  exists c2. split_and!; [done|done|]. intros i Hi0. rewrite B2, B1 by done.
  assert (bit [0; 0; 0; 0] i = false) as ->.
  { unfold bit. destruct (_ !! _) as [w|] eqn:E; [|done].
    assert (w = 0) as -> by (apply list_elem_of_lookup_2 in E; set_solver). apply Z.bits_0. }
  rewrite Z.sub_0_r. unfold may_write.
  assert (Hr : ∀ key, tx_keys tx !! Z.to_nat i = Some key → requested_write v i = true ↔ asks_write tx i).
  { intros key Hkey. apply (requested_spec limit); try done.
    apply lookup_lt_Some in Hkey. unfold zlen. lia. }
  split.
  - intros [[?|(_ & Hq & key & Hkey & ?)] Hp]; [done|]. split_and!; [by apply (Hr key)|by exists key|done].
  - intros (Hq & (key & Hkey & ?) & Hp). split; [|done]. right. split_and!; [done|by apply (Hr key)|by exists key].
Qed.

End reference.
