(* ===== verification/TxProps.v ===== *)
(** * Transactions: the theorems

    The parser accepts exactly the serializations of well-formed transactions and shows their
    contents; sanitization decides a property of the transaction, with the error it reports;
    the writability cache is the set of accounts the transaction may write. *)

From stdpp Require Import base list gmap numbers option.
From S2P Require Import Prelude Account TxBytes TxFrame TxView TxWire TxFacts TxParse TxDecode TxSanitize TxResolve.

Local Open Scope Z_scope.

Section props.
Context `{WC : !WireConstants}.

Lemma unsanitized_iff bytes v :
  Forall byte_ok bytes →
  try_new_unsanitized bytes = Ok v ↔ ∃ tx, tx_ok tx ∧ wire tx = bytes ∧ v = view_of tx.
Proof using Type.
  intros Hb. unfold try_new_unsanitized. destruct (try_new bytes) as [f|e] eqn:E; cbn [mbind result_bind].
  - apply try_new_iff in E as (tx & Htx & Hw & ->); [|done]. split.
    + intros [= <-]. exists tx. unfold view_of. by rewrite Hw.
    + intros (tx' & Htx' & Hw' & ->). unfold view_of. rewrite Hw'. do 2 f_equal.
      assert (Hd : decode (view_of tx) = Ok tx) by by apply decode_frame.
      assert (E : try_new bytes = Ok (frame_for tx)) by (apply try_new_iff; [done|]; by exists tx).
      assert (E' : try_new bytes = Ok (frame_for tx')) by (apply try_new_iff; [done|]; by exists tx').
      congruence.
  - split; [done|]. intros (tx & Htx & Hw & ->).
    assert (try_new bytes = Ok (frame_for tx)) by (apply try_new_iff; [done|]; by exists tx). congruence.
Qed.

Lemma unsanitized_exposes bytes v tx :
  Forall byte_ok bytes → try_new_unsanitized bytes = Ok v → decode v = Ok tx →
  tx_ok tx ∧ exposes tx v.
Proof using Type.
  intros Hb (tx' & Htx & Hw & ->)%unsanitized_iff Hd; [|done].
  rewrite decode_frame in Hd by done. injection Hd as <-. split; [done|]. by apply view_exposes.
Qed.

Lemma sanitized_iff bytes limit v :
  try_new_sanitized bytes limit = Ok v ↔
  try_new_unsanitized bytes = Ok v ∧ sanitize v limit = Ok tt.
Proof using Type.
  unfold try_new_sanitized. destruct (try_new_unsanitized bytes) as [w|]; cbn [mbind result_bind].
  - destruct (sanitize w limit) as [[]|] eqn:E; cbn [mbind result_bind]; split.
    + by intros [= <-].
    + by intros [? _].
    + done.
    + intros [[= <-] Hs]. congruence.
  - split; [done|by intros [? _]].
Qed.

(** C7. Parsing is exact. On every byte string the parser returns, without undefined
    behaviour from its unchecked reads. It succeeds exactly on the serializations of
    well-formed transactions (in the four formats, with the shortest length encodings and
    nothing behind the end), and what the accessors and iterators of the view then return is
    the serialized transaction. *)
Theorem parse_exact bytes :
  Forall byte_ok bytes →
  match try_new_unsanitized bytes with
  | Ok v => ∃ tx, tx_ok tx ∧ wire tx = bytes ∧ decode v = Ok tx
  | Err (Reject _) => ¬ ∃ tx, tx_ok tx ∧ wire tx = bytes
  | Err Undefined => False
  end.
Proof using Type.
  intros Hb. destruct (try_new_unsanitized bytes) as [v|e] eqn:E.
  - apply unsanitized_iff in E as (tx & Htx & Hw & ->); [|done]. exists tx.
    split_and!; [done|done|by apply decode_frame].
  - destruct e as [e|].
    + intros (tx & Htx & Hw).
      assert (try_new_unsanitized bytes = Ok (view_of tx)) by (apply unsanitized_iff; [done|]; by exists tx).
      congruence.
    + pose proof (try_new_defined bytes Hb) as Hd. unfold try_new_unsanitized in E.
      destruct (try_new bytes) as [f|e']; [done|]. cbn [mbind result_bind] in E. congruence.
Qed.

(** Serialization followed by parsing is the identity on well-formed transactions. *)
Theorem wire_round_trip tx :
  tx_ok tx → ∃ v, try_new_unsanitized (wire tx) = Ok v ∧ decode v = Ok tx.
Proof using Type.
  intros H. exists (view_of tx). split; [|by apply decode_frame].
  apply unsanitized_iff; [by apply wire_bytes|]. by exists tx.
Qed.

(** C31. Sanitization decides [sane], a property of the transaction stated without the
    wrapping and saturating arithmetic of the code; each error is reported exactly when it
    applies, a lookup table only after everything else is in order, and no check reads
    outside the transaction. *)
Theorem sanitize_exact bytes v tx limit :
  Forall byte_ok bytes → try_new_unsanitized bytes = Ok v → decode v = Ok tx →
  match sanitize v limit with
  | Ok _ => sane limit tx ∧ tx_lookups tx = []
  | Err (Reject AddressLookupMismatch) => sane limit tx ∧ tx_lookups tx ≠ []
  | Err (Reject SanitizeError) => ¬ sane limit tx
  | Err _ => False
  end.
Proof using Type.
  intros Hb Hp Hd. destruct (unsanitized_exposes _ _ _ Hb Hp Hd). by apply sanitize_spec.
Qed.

(** A sanitized transaction resolves unless loaded addresses are supplied, and the
    resolved view calls an index writable exactly when the transaction may write the account:
    it asks for it, the key is not reserved, and it is not a called program without the
    upgradeable loader. Building the cache stays inside its four words. *)
Theorem resolved_writes_exact bytes limit v tx loaded reserved :
  Forall byte_ok bytes → try_new_sanitized bytes limit = Ok v → decode v = Ok tx →
  match resolved_try_new v loaded reserved with
  | Ok r => (∀ l, loaded = Some l → l = {| l_writable := []; l_readonly := [] |}) ∧
            ∀ i, 0 ≤ i → is_writable_index r i = true ↔ may_write tx reserved i
  | Err (Reject AddressLookupMismatch) => ∃ l, loaded = Some l ∧ (l_writable l ≠ [] ∨ l_readonly l ≠ [])
  | Err _ => False
  end.
Proof using Type.
  intros Hb [Hp Hs]%sanitized_iff Hd. destruct (unsanitized_exposes _ _ _ Hb Hp Hd) as [Hx He].
  pose proof (sanitize_spec tx v limit Hx He) as Hspec. rewrite Hs in Hspec. destruct Hspec as [Hsane Hl].
  unfold resolved_try_new. rewrite (ex_writable _ _ He), (ex_readonly _ _ He), Hl.
  change (sum_len _ []) with 0.
  destruct loaded as [[w r]|]; cbn [l_writable l_readonly].
  - destruct (Z.eqb_spec (zlen w) 0) as [Ew|Ew]; [destruct (Z.eqb_spec (zlen r) 0) as [Er|Er]|].
    + apply zlen_0 in Ew as ->. apply zlen_0 in Er as ->. cbn [negb orb refuse_if mbind result_bind].
      destruct (cache_spec limit tx v (Some {| l_writable := []; l_readonly := [] |}) reserved He Hx Hsane Hl)
        as (c & Hc & _ & Hbit); [apply app_nil_r|]. rewrite Hc. cbn [mbind result_bind].
      split; [by intros l [= <-]|]. intros i Hi. rewrite is_writable_bit by done. by apply Hbit.
    + cbn [negb orb refuse_if mbind result_bind]. eexists. split; [done|]. right. cbn. intros ->. done.
    + cbn [negb orb refuse_if mbind result_bind]. eexists. split; [done|]. left. cbn. intros ->. done.
  - cbn [Z.eqb negb orb refuse_if mbind result_bind].
    destruct (cache_spec limit tx v None reserved He Hx Hsane Hl) as (c & Hc & _ & Hbit);
      [apply app_nil_r|]. rewrite Hc. cbn [mbind result_bind].
    split; [done|]. intros i Hi. rewrite is_writable_bit by done. by apply Hbit.
Qed.

End props.

(** ** A concrete transaction

    A v1 transaction of one signer that calls a program with itself as the only account. *)

Lemma sample_prefix : 128 ≤ 129 < 255.
Proof. lia. Qed.

#[export] Instance sample_constants : WireConstants :=
  {| V1_PREFIX := 129; HEAP_LENGTH := 32768; BPF_LOADER_UPGRADEABLE := replicate 32 7;
     v1_prefix_msb := sample_prefix |}.

Definition sample_tx : Transaction :=
  {| tx_version := V1; tx_signatures := [replicate 64 9]; tx_required := 1; tx_readonly_signed := 0;
     tx_readonly_unsigned := 0; tx_keys := [replicate 32 1; replicate 32 2];
     tx_blockhash := replicate 32 3;
     tx_instructions := [{| program_id_index := 1; ix_accounts := [0]; ix_data := [5; 6] |}];
     tx_lookups := [];
     tx_config := Some {| c_fee := Some 5000; c_compute_units := None; c_loaded_size := None;
                          c_heap := Some 65536 |} |}.

Definition sample_view : TransactionView :=
  Eval vm_compute in {| data := wire sample_tx; frame := frame_for sample_tx |}.

Lemma sample_bytes_ok : Forall byte_ok (data sample_view).
Proof.
  assert (forallb (λ b, (0 <=? b) && (b <? 256)) (data sample_view) = true) as H
    by (vm_compute; reflexivity).
  rewrite forallb_forall in H. apply List.Forall_forall. intros b Hb. apply H in Hb.
  apply andb_true_iff in Hb as [?%Z.leb_le ?%Z.ltb_lt]. split; done.
Qed.

Lemma sample_ok : tx_ok sample_tx.
Proof.
  assert (∃ v, try_new_unsanitized (data sample_view) = Ok v ∧ decode v = Ok sample_tx) as (v & Hv & Hd).
  { exists sample_view. split; vm_compute; reflexivity. }
  by destruct (unsanitized_exposes _ _ _ sample_bytes_ok Hv Hd).
Qed.

Lemma parse_exact_witness :
  ∃ v, try_new_unsanitized (data sample_view) = Ok v ∧
    ∃ tx, tx_ok tx ∧ wire tx = data sample_view ∧ decode v = Ok tx.
Proof.
  exists sample_view. split; [vm_compute; reflexivity|].
  exact (parse_exact (data sample_view) sample_bytes_ok).
Defined.

Lemma wire_round_trip_witness :
  ∃ v, try_new_unsanitized (wire sample_tx) = Ok v ∧ decode v = Ok sample_tx.
Proof. exact (wire_round_trip sample_tx sample_ok). Defined.

Lemma sanitize_exact_witness :
  sanitize sample_view true = Ok tt ∧ sane true sample_tx ∧ tx_lookups sample_tx = [].
Proof.
  split; [vm_compute; reflexivity|].
  refine (sanitize_exact (data sample_view) sample_view sample_tx true sample_bytes_ok _ _);
    vm_compute; reflexivity.
Defined.

Lemma resolved_writes_exact_witness :
  ∃ r, resolved_try_new sample_view None ∅ = Ok r ∧ is_writable_index r 0 = true ∧
    is_writable_index r 1 = false ∧
    (∀ l, None = Some l → l = {| l_writable := []; l_readonly := [] |}) ∧
    ∀ i, 0 ≤ i → is_writable_index r i = true ↔ may_write sample_tx ∅ i.
Proof.
  eexists. split; [vm_compute; reflexivity|].
  refine (conj _ (conj _ (resolved_writes_exact (data sample_view) true sample_view sample_tx None ∅
    sample_bytes_ok _ _))); vm_compute; reflexivity.
Defined.
