(* ===== verification/CtxAccounts.v ===== *)
(** * Accounts of a transaction ([solana/transaction-context/src/transaction_accounts.rs],
    [vm_slice.rs], [lib.rs])

    The accounts a transaction has loaded, with a borrow counter and a touched flag each and
    the running deltas of lamports and data sizes. The methods take [&self] and mutate cells,
    also when they fail: an operation maps a state to a result and the state after it. *)

From stdpp Require Import base list numbers option.
From S2P Require Import Prelude Effects Memory AccountMode Account.

Local Open Scope Z_scope.

(** ** Constants *)

Definition MAX_ACCOUNTS_PER_TRANSACTION : Z := 256.
Definition MAX_ACCOUNT_DATA_LEN : Z := 10 * 1024 * 1024.
Definition MAX_ACCOUNT_DATA_GROWTH_PER_TRANSACTION : Z := MAX_ACCOUNT_DATA_LEN * 2.
Definition MAX_ACCOUNT_DATA_GROWTH_PER_INSTRUCTION : Z := 10 * 1024.
Definition MAX_CPI_TRACE_LENGTH : Z := 64.

(** ** Errors: the cases of [InstructionError] the crates use *)

Inductive InstructionError :=
| MissingAccount | AccountBorrowFailed | AccountBorrowOutstanding
| InvalidRealloc | MaxAccountsDataAllocationsExceeded | ArithmeticOverflow
| CallDepth | UnbalancedInstruction | MaxInstructionTraceLengthExceeded
| InvalidAccountOwner | AccountDataTooSmall | InvalidAccountData
| ModifiedProgramId | ExternalAccountLamportSpend | ReadonlyLamportChange | Immutable
| ExecutableAccountNotRentExempt | ExecutableModified | ReadonlyDataModified
| ExternalAccountDataModified | AccountDataSizeChanged
| ReentrancyNotAllowed | UnsupportedProgramId | PrivilegeEscalation | ComputationalBudgetExceeded
| BuiltinProgramsMustConsumeComputeUnits | ProgramFailedToComplete | InvalidArgument
| MissingRequiredSignature | InvalidInstructionData | BorshIoError
| MaxAccountsExceeded | MaxSeedLengthExceeded | InvalidSeeds | ProgramEnvironmentSetupFailure
| Custom (code : Z).

#[export] Instance InstructionError_eq_dec : EqDecision InstructionError.
Proof. solve_decision. Defined.

Abbreviation Op := (Eff InstructionError).

(** Saturation of [i8] and [i64] arithmetic. *)
Definition clamp (w x : Z) : Z := Z.max (- 2 ^ (w - 1)) (Z.min (2 ^ (w - 1) - 1) x).

(** ** Transaction accounts

    [storage] is the mapped memory the borrowed accounts point into. *)

Record TransactionAccounts := {
  storage : mem;
  accounts : list (Pubkey * AccountSharedData);
  borrow_counters : list Z;
  touched_flags : list bool;
  resize_delta : Z;
  lamports_delta : Z;
}.

Definition with_accounts (a : TransactionAccounts) (m : mem) (l : list (Pubkey * AccountSharedData)) :=
  {| storage := m; accounts := l; borrow_counters := borrow_counters a;
     touched_flags := touched_flags a; resize_delta := resize_delta a;
     lamports_delta := lamports_delta a |}.
Definition with_counters (a : TransactionAccounts) (c : list Z) :=
  {| storage := storage a; accounts := accounts a; borrow_counters := c;
     touched_flags := touched_flags a; resize_delta := resize_delta a;
     lamports_delta := lamports_delta a |}.
Definition with_touched (a : TransactionAccounts) (t : list bool) :=
  {| storage := storage a; accounts := accounts a; borrow_counters := borrow_counters a;
     touched_flags := t; resize_delta := resize_delta a; lamports_delta := lamports_delta a |}.
Definition with_deltas (a : TransactionAccounts) (r l : Z) :=
  {| storage := storage a; accounts := accounts a; borrow_counters := borrow_counters a;
     touched_flags := touched_flags a; resize_delta := r; lamports_delta := l |}.

Definition transaction_accounts_new (m : mem) (l : list (Pubkey * AccountSharedData))
    : TransactionAccounts :=
  {| storage := m; accounts := l; borrow_counters := replicate (length l) 0;
     touched_flags := replicate (length l) false; resize_delta := 0; lamports_delta := 0 |}.

Definition account_touch (index : Z) : Op TransactionAccounts unit := λ a,
  match touched_flags a !! Z.to_nat index with
  | None => (Err MissingAccount, a)
  | Some _ => (Ok tt, with_touched a (<[Z.to_nat index := true]> (touched_flags a)))
  end.

Definition update_resize_delta (old_len new_len : Z) : Op TransactionAccounts unit :=
  modify (λ a, with_deltas a
    (clamp 64 (resize_delta a + clamp 64 (swrap 64 new_len - swrap 64 old_len)))
    (lamports_delta a)).

Definition check_resize (old_len new_len : Z) : Op TransactionAccounts unit :=
  _ ← ensure (new_len <=? MAX_ACCOUNT_DATA_LEN) InvalidRealloc;
  let length_delta := clamp 64 (swrap 64 new_len - swrap 64 old_len) in
  delta ← read resize_delta;
  ensure (clamp 64 (delta + length_delta) <=? MAX_ACCOUNT_DATA_GROWTH_PER_TRANSACTION)
    MaxAccountsDataAllocationsExceeded.

(** *** Borrow counters: [i8], negative while written, positive while read *)

Definition is_writing (counter : Z) : bool := counter <? 0.
Definition is_reading (counter : Z) : bool := 0 <? counter.

Definition counter_try_borrow (counter : Z) : result InstructionError Z :=
  if is_writing counter then Err AccountBorrowFailed
  else if counter + 1 <? 2 ^ 7 then Ok (counter + 1) else Err AccountBorrowFailed.

Definition counter_try_borrow_mut (counter : Z) : result InstructionError Z :=
  if is_writing counter || is_reading counter then Err AccountBorrowFailed
  else Ok (clamp 8 (counter - 1)).

Definition release_borrow (counter : Z) : Z := clamp 8 (counter - 1).
Definition release_borrow_mut (counter : Z) : Z := clamp 8 (counter + 1).

(** A successful borrow is the account's index; dropping it runs the release. *)
Definition borrow_with (f : Z → result InstructionError Z) (index : Z)
    : Op TransactionAccounts Z := λ a,
  match borrow_counters a !! Z.to_nat index with
  | None => (Err MissingAccount, a)
  | Some c =>
      match f c with
      | Err e => (Err e, a)
      | Ok c => (Ok index, with_counters a (<[Z.to_nat index := c]> (borrow_counters a)))
      end
  end.

Definition try_borrow_mut : Z → Op TransactionAccounts Z := borrow_with counter_try_borrow_mut.
Definition try_borrow : Z → Op TransactionAccounts Z := borrow_with counter_try_borrow.

Definition drop_with (f : Z → Z) (index : Z) (a : TransactionAccounts) : TransactionAccounts :=
  with_counters a (alter f (Z.to_nat index) (borrow_counters a)).
Definition drop_ref : Z → TransactionAccounts → TransactionAccounts := drop_with release_borrow.
Definition drop_ref_mut : Z → TransactionAccounts → TransactionAccounts :=
  drop_with release_borrow_mut.

(** *** Deltas, keys and results *)

(** [i128::checked_add]. *)
Definition add_lamports_delta (balance : Z) : Op TransactionAccounts unit := λ a,
  let delta := lamports_delta a + balance in
  if bool_decide (sfits 128 delta) then (Ok tt, with_deltas a (resize_delta a) delta)
  else (Err ArithmeticOverflow, a).

Definition account_key (a : TransactionAccounts) (index : Z) : option Pubkey :=
  fst <$> accounts a !! Z.to_nat index.

(** [find_index_of_account]: the position of the first account with the key. *)
Fixpoint position (key : Pubkey) (keys : list Pubkey) (i : Z) : option Z :=
  match keys with
  | [] => None
  | k :: keys => if bool_decide (k = key) then Some i else position key keys (i + 1)
  end.
Definition find_index_of_account (a : TransactionAccounts) (key : Pubkey) : option Z :=
  wrap 16 <$> position key ((accounts a).*1) 0.

Record ExecutionRecord := {
  r_accounts : list (Pubkey * AccountSharedData);
  r_return_program : Pubkey;
  r_return_data : list Z;
  r_touched_account_count : Z;
  r_accounts_resize_delta : Z;
}.

(** [saturating_add] of the touched flags. *)
Definition count_touched (flags : list bool) : Z :=
  foldl (λ n (t : bool), saturating_add 64 n (if t then 1 else 0)) 0 flags.

(** ** Slices of the guest address space *)

Record VmSlice := { vm_ptr : Z; vm_len : Z }.
Definition vm_end (size : Z) (s : VmSlice) : Z :=
  saturating_add 64 (vm_ptr s) (Z.min (umax 64) (vm_len s * size)).

Definition GUEST_REGION_SIZE : Z := 2 ^ 32.
Definition RETURN_DATA_SCRATCHPAD : Z := 7 * GUEST_REGION_SIZE.
Definition GUEST_INSTRUCTION_DATA_BASE_ADDRESS : Z := 264 * GUEST_REGION_SIZE.
Definition GUEST_INSTRUCTION_ACCOUNT_BASE_ADDRESS : Z := 328 * GUEST_REGION_SIZE.
