(* ===== verification/CtxInstruction.v ===== *)
(** * Accounts borrowed by an instruction
    ([solana/transaction-context/src/instruction_accounts.rs])

    The calls through which a builtin program, and the synchronization of a virtual machine's
    accounts, change an account: each checks the instruction's writable flag, the account's
    owner and its mode before it touches anything. *)

From stdpp Require Import base list numbers option.
From S2P Require Import Prelude Effects Memory AccountMode Account CtxAccounts.

Local Open Scope Z_scope.

(** ** Instruction accounts *)

Record InstructionAccount := { index_in_transaction : Z; ia_is_signer : Z; ia_is_writable : Z }.

Definition instruction_account_new (index : Z) (signer writable : bool) : InstructionAccount :=
  {| index_in_transaction := index; ia_is_signer := Z.b2z signer; ia_is_writable := Z.b2z writable |}.
Definition account_is_signer (ia : InstructionAccount) : bool := negb (ia_is_signer ia =? 0).
Definition account_is_writable (ia : InstructionAccount) : bool := negb (ia_is_writable ia =? 0).

(** ** Rent is computed by another crate *)

Class RentRules := rent_is_exempt : Z → Z → bool.

(** [ZEROS.len()] bytes at a time, then the remainder. *)
Definition ZEROS_LEN : nat := 1024.
Fixpoint zero_chunks (fuel : nat) (buf : list Z) : bool :=
  match fuel with
  | O => true
  | S fuel =>
      if (ZEROS_LEN <=? length buf)%nat
      then bool_decide (take ZEROS_LEN buf = replicate ZEROS_LEN 0)
           && zero_chunks fuel (drop ZEROS_LEN buf)
      else bool_decide (buf = replicate (length buf) 0)
  end.
Definition is_zeroed (buf : list Z) : bool := zero_chunks (S (length buf)) buf.

(** ** Borrowed instruction accounts

    A handle holds the mutable borrow of its account, so that its index is in range. *)

Record BorrowedInstructionAccount := {
  instruction_account : InstructionAccount;
  program_index : Z;
}.

Section borrowed.
Context `{RR : !RentRules} (b : BorrowedInstructionAccount).

Definition handle_index : nat := Z.to_nat (index_in_transaction (instruction_account b)).

Definition borrowed_account : Op TransactionAccounts AccountSharedData := λ a,
  match accounts a !! handle_index with
  | Some (_, s) => (Ok s, a)
  | None => (Err MissingAccount, a)
  end.

(** A call on the account the handle derefs to. *)
Definition update_account (f : mem → AccountSharedData → mem * AccountSharedData)
    : Op TransactionAccounts unit := λ a,
  match accounts a !! handle_index with
  | Some (k, s) =>
      let '(m, s) := f (storage a) s in
      (Ok tt, with_accounts a m (<[handle_index := (k, s)]> (accounts a)))
  | None => (Err MissingAccount, a)
  end.

Definition get_core : Op TransactionAccounts AccountCore :=
  s ← borrowed_account; read (λ a, core_of (storage a) s).
Definition get_data : Op TransactionAccounts (list Z) :=
  s ← borrowed_account; read (λ a, cow_data (storage a) (cow s)).

Definition handle_is_writable : bool := account_is_writable (instruction_account b).

Definition is_owned_by_current_program : Op TransactionAccounts bool :=
  core ← get_core;
  read (λ a, match account_key a (program_index b) with
             | Some program_key => bool_decide (program_key = owner core)
             | None => false
             end).

Definition check_mutable : Op TransactionAccounts unit :=
  core ← get_core; ensure (is_writable (mode core)) Immutable.

Definition handle_touch : Op TransactionAccounts unit :=
  account_touch (index_in_transaction (instruction_account b)).

Definition can_data_be_changed : Op TransactionAccounts unit :=
  _ ← ensure handle_is_writable ReadonlyDataModified;
  own ← is_owned_by_current_program;
  _ ← ensure own ExternalAccountDataModified;
  check_mutable.

Definition can_data_be_resized (new_len : Z) : Op TransactionAccounts unit :=
  data ← get_data;
  let old_len := zlen data in
  _ ← (if new_len =? old_len then mret tt
       else
         own ← is_owned_by_current_program;
         _ ← ensure own AccountDataSizeChanged;
         core ← get_core;
         ensure (negb (bool_decide (mode core = Magic))) InvalidRealloc);
  _ ← check_resize old_len new_len;
  can_data_be_changed.

Definition update_accounts_resize_delta (new_len : Z) : Op TransactionAccounts unit :=
  data ← get_data; update_resize_delta (zlen data) new_len.

(** [copy_into_owner_from_slice] of 32 bytes. *)
Definition copy_into_owner (v : Pubkey) (m : mem) (s : AccountSharedData) : mem * AccountSharedData :=
  let '(m, s) := touch m s OWNER in assign m s (FOwner v).

Definition bia_set_owner (pubkey : Pubkey) : Op TransactionAccounts unit :=
  own ← is_owned_by_current_program;
  _ ← ensure (own && handle_is_writable) ModifiedProgramId;
  data ← get_data;
  _ ← ensure (is_zeroed data) ModifiedProgramId;
  core ← get_core;
  if bool_decide (owner core = pubkey) then mret tt
  else
    _ ← check_mutable;
    _ ← handle_touch;
    update_account (copy_into_owner pubkey).

Definition bia_set_lamports (v : Z) : Op TransactionAccounts unit :=
  core ← get_core;
  let old_lamports := lamports core in
  own ← is_owned_by_current_program;
  _ ← ensure (own || (old_lamports <=? v)) ExternalAccountLamportSpend;
  _ ← ensure handle_is_writable ReadonlyLamportChange;
  if old_lamports =? v then mret tt
  else
    _ ← check_mutable;
    _ ← add_lamports_delta (v - old_lamports);
    _ ← handle_touch;
    update_account (λ m s, set_lamports m s v).

Definition bia_checked_add_lamports (v : Z) : Op TransactionAccounts unit :=
  core ← get_core;
  total ← lift (ok_or (checked_add 64 (lamports core) v) ArithmeticOverflow);
  bia_set_lamports total.

Definition bia_checked_sub_lamports (v : Z) : Op TransactionAccounts unit :=
  core ← get_core;
  rest ← lift (ok_or (checked_sub (lamports core) v) ArithmeticOverflow);
  bia_set_lamports rest.

(** [is_shared() || Borrowed]: reserving in an owned buffer does not show. *)
Definition make_data_mut : Op TransactionAccounts unit :=
  update_account (λ m s,
    (m, {| cow := cow_reserve m (cow s) MAX_ACCOUNT_DATA_GROWTH_PER_INSTRUCTION;
           dirty_bits := dirty_bits s |})).

(** [data_as_mut_slice]. *)
Definition bia_get_data_mut : Op TransactionAccounts unit :=
  _ ← can_data_be_changed;
  _ ← handle_touch;
  _ ← make_data_mut;
  update_account (λ m s, touch m s DATA).

(** What the caller writes through the slice it got. *)
Definition write_slice (offset : Z) (bytes : list Z) : Op TransactionAccounts unit :=
  update_account (λ m s, with_cow s (cow_copy_at m (cow s) offset bytes)).

Definition bia_set_data_from_slice (data : list Z) : Op TransactionAccounts unit :=
  _ ← can_data_be_resized (zlen data);
  _ ← handle_touch;
  _ ← update_accounts_resize_delta (zlen data);
  update_account (λ m s, set_data_from_slice m s data).

Definition bia_set_data_length (new_length : Z) : Op TransactionAccounts unit :=
  _ ← can_data_be_resized new_length;
  data ← get_data;
  if zlen data =? new_length then mret tt
  else
    _ ← handle_touch;
    _ ← update_accounts_resize_delta new_length;
    update_account (λ m s, resize_data m s new_length 0).

Definition bia_extend_from_slice (bytes : list Z) : Op TransactionAccounts unit :=
  data ← get_data;
  let new_len := saturating_add 64 (zlen data) (zlen bytes) in
  _ ← can_data_be_resized new_len;
  if bool_decide (bytes = []) then mret tt
  else
    _ ← handle_touch;
    _ ← update_accounts_resize_delta new_len;
    _ ← make_data_mut;
    update_account (λ m s, extend_from_slice m s bytes).

Definition bia_set_executable (is_executable : bool) : Op TransactionAccounts unit :=
  core ← get_core;
  data ← get_data;
  _ ← ensure (rent_is_exempt (lamports core) (zlen data)) ExecutableAccountNotRentExempt;
  own ← is_owned_by_current_program;
  _ ← ensure (own && handle_is_writable) ExecutableModified;
  if Bool.eqb (contains (flags core) EXECUTABLE) is_executable then mret tt
  else
    _ ← check_mutable;
    _ ← handle_touch;
    update_account (λ m s, set_executable m s is_executable).

End borrowed.

(** ** The handler for writes to unmapped account memory

    A region of the virtual machine that is backed by an account: its guest address, its
    length, whether it may be written, the account's index when it may become writable, and
    which account's bytes it shows. *)

Record MemoryRegion := {
  region_vm_addr : Z;
  region_len : Z;
  region_writable : bool;
  payload : option Z;
  backing : option Z;
}.

Inductive AccessType := Load | Store.

#[export] Instance AccessType_eq_dec : EqDecision AccessType.
Proof. solve_decision. Defined.

Definition access_violation_handler (region : MemoryRegion) (reserved : Z) (access_type : AccessType)
    (vm_addr len : Z) (a : TransactionAccounts) : MemoryRegion * TransactionAccounts :=
  if bool_decide (access_type = Load) then (region, a)
  else
    match payload region with
    | None => (region, a)
    | Some index =>
        let requested_length := saturating_sub (saturating_add 64 vm_addr len) (region_vm_addr region) in
        if reserved <? requested_length then (region, a)
        else
          match try_borrow_mut index a with
          | (Err _, a) => (region, a)
          | (Ok _, a) =>
              let b := {| instruction_account := instruction_account_new index false true;
                          program_index := index |} in
              let map_data : Op TransactionAccounts Z :=
                _ ← account_touch index;
                data ← get_data b;
                core ← get_core b;
                _ ← (if region_len region <? requested_length then
                       let old_len := zlen data in
                       let new_len := requested_length in
                       _ ← ensure (new_len <=? MAX_ACCOUNT_DATA_LEN) InvalidRealloc;
                       _ ← check_resize old_len new_len;
                       _ ← ensure (negb (bool_decide (mode core = Magic))) InvalidRealloc;
                       _ ← update_resize_delta old_len new_len;
                       update_account b (λ m s, resize_data m s new_len 0)
                     else mret tt);
                _ ← update_account b (λ m s, touch m s DATA);
                data ← get_data b;
                mret (zlen data) in
              match map_data a with
              | (Err _, a) => (region, drop_ref_mut index a)
              | (Ok n, a) =>
                  ({| region_vm_addr := region_vm_addr region; region_len := n;
                      region_writable := true; payload := payload region;
                      backing := Some index |}, drop_ref_mut index a)
              end
          end
    end.
