(* ===== verification/CtxStack.v ===== *)
(** * The instruction stack and trace of a transaction
    ([solana/transaction-context/src/transaction.rs], [instruction.rs])

    Instructions are configured in the last frame of the trace, pushed on the stack, run and
    popped; calls between programs nest on the stack and lengthen the trace. *)

From stdpp Require Import base list gmap numbers option.
From S2P Require Import Prelude Effects Memory AccountMode Account CtxAccounts CtxInstruction.

Local Open Scope Z_scope.

(** ** The instructions sysvar

    Its address, the address of its owner and the write of the current instruction's index
    belong to other crates. The write keeps the length of the account's data. *)

Class InstructionsSysvar := {
  INSTRUCTIONS_ID : Pubkey;
  SYSVAR_ID : Pubkey;
  store_current_index_checked : list Z → Z → result InstructionError (list Z);
  store_current_index_length d i d' :
    store_current_index_checked d i = Ok d' → length d' = length d;
}.

(** ** Frames *)

Record InstructionFrame := {
  reserved : Z;
  program_account_index_in_tx : Z;
  nesting_level : Z;
  index_of_caller_instruction : Z;
  frame_accounts : VmSlice;
  frame_data : VmSlice;
}.

Definition default_frame : InstructionFrame :=
  {| reserved := 0; program_account_index_in_tx := 0; nesting_level := 0;
     index_of_caller_instruction := umax 16;
     frame_accounts := {| vm_ptr := 0; vm_len := 0 |};
     frame_data := {| vm_ptr := 0; vm_len := 0 |} |}.

Definition region_address (base index : Z) : Z :=
  saturating_add 64 base (Z.min (umax 64) (GUEST_REGION_SIZE * index)).

Definition configure_vm_slices (f : InstructionFrame) (index accounts_len data_len : Z)
    : InstructionFrame :=
  {| reserved := reserved f; program_account_index_in_tx := program_account_index_in_tx f;
     nesting_level := nesting_level f; index_of_caller_instruction := index_of_caller_instruction f;
     frame_accounts := {| vm_ptr := region_address GUEST_INSTRUCTION_ACCOUNT_BASE_ADDRESS index;
                          vm_len := accounts_len |};
     frame_data := {| vm_ptr := region_address GUEST_INSTRUCTION_DATA_BASE_ADDRESS index;
                      vm_len := data_len |} |}.

Definition with_caller (f : InstructionFrame) (c : Z) : InstructionFrame :=
  {| reserved := reserved f; program_account_index_in_tx := program_account_index_in_tx f;
     nesting_level := nesting_level f; index_of_caller_instruction := c;
     frame_accounts := frame_accounts f; frame_data := frame_data f |}.
Definition with_program (f : InstructionFrame) (p : Z) : InstructionFrame :=
  {| reserved := reserved f; program_account_index_in_tx := p; nesting_level := nesting_level f;
     index_of_caller_instruction := index_of_caller_instruction f;
     frame_accounts := frame_accounts f; frame_data := frame_data f |}.
Definition with_level (f : InstructionFrame) (n : Z) : InstructionFrame :=
  {| reserved := reserved f; program_account_index_in_tx := program_account_index_in_tx f;
     nesting_level := n; index_of_caller_instruction := index_of_caller_instruction f;
     frame_accounts := frame_accounts f; frame_data := frame_data f |}.

Record TransactionFrame := {
  return_data_pubkey : Pubkey;
  return_data_scratchpad : VmSlice;
  cpi_scratchpad : VmSlice;
  current_executing_instruction : Z;
  total_number_of_instructions_in_trace : Z;
  number_of_cpis_in_trace : Z;
  number_of_transaction_accounts : Z;
}.

(** ** The context *)

Record TransactionContext := {
  tx_accounts : TransactionAccounts;
  instruction_stack_capacity : Z;
  instruction_trace_capacity : Z;
  instruction_stack : list Z;
  instruction_trace : list InstructionFrame;
  transaction_frame : TransactionFrame;
  return_data_bytes : list Z;
  next_top_level_instruction_index : Z;
  deduplication_maps : list (list Z);
  instruction_accounts : list (list InstructionAccount);
  instruction_data : list (list Z);
}.

Definition with_tx_accounts (c : TransactionContext) (a : TransactionAccounts) :=
  {| tx_accounts := a; instruction_stack_capacity := instruction_stack_capacity c;
     instruction_trace_capacity := instruction_trace_capacity c;
     instruction_stack := instruction_stack c; instruction_trace := instruction_trace c;
     transaction_frame := transaction_frame c; return_data_bytes := return_data_bytes c;
     next_top_level_instruction_index := next_top_level_instruction_index c;
     deduplication_maps := deduplication_maps c; instruction_accounts := instruction_accounts c;
     instruction_data := instruction_data c |}.

(** A method of the accounts of a context. *)
Definition on_accounts {A} (p : Op TransactionAccounts A) : Op TransactionContext A := λ c,
  let '(r, a) := p (tx_accounts c) in (r, with_tx_accounts c a).

Definition with_stack (c : TransactionContext) (s : list Z) (t : list InstructionFrame)
    (f : TransactionFrame) (next : Z) :=
  {| tx_accounts := tx_accounts c; instruction_stack_capacity := instruction_stack_capacity c;
     instruction_trace_capacity := instruction_trace_capacity c;
     instruction_stack := s; instruction_trace := t;
     transaction_frame := f; return_data_bytes := return_data_bytes c;
     next_top_level_instruction_index := next;
     deduplication_maps := deduplication_maps c; instruction_accounts := instruction_accounts c;
     instruction_data := instruction_data c |}.

Definition context_new (m : mem) (l : list (Pubkey * AccountSharedData))
    (stack_capacity trace_capacity number_of_top_level_instructions : Z) : TransactionContext :=
  {| tx_accounts := transaction_accounts_new m l;
     instruction_stack_capacity := stack_capacity;
     instruction_trace_capacity := trace_capacity;
     instruction_stack := []; instruction_trace := [default_frame];
     transaction_frame :=
       {| return_data_pubkey := replicate 32 0;
          return_data_scratchpad := {| vm_ptr := RETURN_DATA_SCRATCHPAD; vm_len := 0 |};
          cpi_scratchpad := {| vm_ptr := 0; vm_len := 0 |};
          current_executing_instruction := 0;
          total_number_of_instructions_in_trace := wrap 16 number_of_top_level_instructions;
          number_of_cpis_in_trace := 0;
          number_of_transaction_accounts := wrap 16 (zlen l) |};
     return_data_bytes := []; next_top_level_instruction_index := 0;
     deduplication_maps := []; instruction_accounts := []; instruction_data := [] |}.

Definition get_instruction_trace_length (c : TransactionContext) : Z :=
  saturating_sub (zlen (instruction_trace c)) 1.
Definition get_instruction_stack_height (c : TransactionContext) : Z := zlen (instruction_stack c).
Definition get_current_instruction_index (c : TransactionContext) : result InstructionError Z :=
  ok_or (list.last (instruction_stack c)) CallDepth.

(** ** Views on instructions *)

Record InstructionContext := {
  index_in_trace : Z;
  ic_nesting_level : Z;
  ic_caller : Z;
  ic_program_index : Z;
  ic_accounts : list InstructionAccount;
  dedup_map : list Z;
  ic_data : list Z;
}.

Definition get_instruction_context_at_index_in_trace (c : TransactionContext) (index : Z)
    : result InstructionError InstructionContext :=
  f ← ok_or (instruction_trace c !! Z.to_nat index) CallDepth;
  Ok {| index_in_trace := index; ic_nesting_level := nesting_level f;
        ic_caller := index_of_caller_instruction f;
        ic_program_index := program_account_index_in_tx f;
        ic_accounts := default [] (instruction_accounts c !! Z.to_nat index);
        dedup_map := default [] (deduplication_maps c !! Z.to_nat index);
        ic_data := default [] (instruction_data c !! Z.to_nat index) |}.

Definition get_current_instruction_context (c : TransactionContext)
    : result InstructionError InstructionContext :=
  index ← get_current_instruction_index c;
  get_instruction_context_at_index_in_trace c index.

Definition get_instruction_context_at_nesting_level (c : TransactionContext) (level : Z)
    : result InstructionError InstructionContext :=
  index ← ok_or (instruction_stack c !! Z.to_nat level) CallDepth;
  get_instruction_context_at_index_in_trace c index.

Definition get_next_instruction_context (c : TransactionContext)
    : result InstructionError InstructionContext :=
  index ← ok_or (checked_sub (zlen (instruction_trace c)) 1) CallDepth;
  get_instruction_context_at_index_in_trace c index.

Definition get_stack_height (ic : InstructionContext) : Z := saturating_add 64 (ic_nesting_level ic) 1.

Definition get_index_of_program_account_in_transaction (ic : InstructionContext)
    : result InstructionError Z :=
  if ic_program_index ic =? umax 16 then Err MissingAccount else Ok (ic_program_index ic).

Definition get_index_of_instruction_account_in_transaction (ic : InstructionContext) (i : Z)
    : result InstructionError Z :=
  ia ← ok_or (ic_accounts ic !! Z.to_nat i) MissingAccount; Ok (index_in_transaction ia).

Definition get_index_of_account_in_instruction (ic : InstructionContext) (i : Z)
    : result InstructionError Z :=
  ok_or (idx ← dedup_map ic !! Z.to_nat i;
         if zlen (ic_accounts ic) <=? idx then None else Some idx) MissingAccount.

Definition is_instruction_account_duplicate (ic : InstructionContext) (i : Z)
    : result InstructionError (option Z) :=
  index_in_transaction ← get_index_of_instruction_account_in_transaction ic i;
  first ← get_index_of_account_in_instruction ic index_in_transaction;
  Ok (if first =? i then None else Some first).

Definition is_instruction_account_signer (ic : InstructionContext) (i : Z)
    : result InstructionError bool :=
  ia ← ok_or (ic_accounts ic !! Z.to_nat i) MissingAccount; Ok (account_is_signer ia).
Definition is_instruction_account_writable (ic : InstructionContext) (i : Z)
    : result InstructionError bool :=
  ia ← ok_or (ic_accounts ic !! Z.to_nat i) MissingAccount; Ok (account_is_writable ia).

(** The keys of the signing accounts, in a set. *)
Fixpoint get_signers (a : TransactionAccounts) (l : list InstructionAccount)
    : result InstructionError (gset Pubkey) :=
  match l with
  | [] => Ok ∅
  | ia :: l =>
      if account_is_signer ia then
        key ← ok_or (account_key a (index_in_transaction ia)) MissingAccount;
        s ← get_signers a l; Ok ({[ key ]} ∪ s)
      else get_signers a l
  end.

Definition try_borrow_instruction_account (ic : InstructionContext) (i : Z)
    : Op TransactionAccounts BorrowedInstructionAccount :=
  ia ← lift (ok_or (ic_accounts ic !! Z.to_nat i) MissingAccount);
  _ ← try_borrow_mut (index_in_transaction ia);
  mret {| instruction_account := ia; program_index := ic_program_index ic |}.

(** ** Configuring the next instruction *)

Definition configure_frame (f : InstructionFrame) (index program : Z) (accounts_len data_len : Z)
    (caller_index : option Z) : InstructionFrame :=
  let f := match caller_index with Some c => with_caller f c | None => f end in
  configure_vm_slices (with_program f program) index accounts_len data_len.

Definition configure_instruction_at_index (index program : Z) (accs : list InstructionAccount)
    (dedup data : list Z) (caller_index : option Z) : Op TransactionContext unit := λ c,
  match instruction_trace c !! Z.to_nat index with
  | None => (Err MaxInstructionTraceLengthExceeded, c)
  | Some f =>
      let tf := transaction_frame c in
      let total := match caller_index with
        | Some _ => saturating_add 16 (total_number_of_instructions_in_trace tf) 1
        | None => total_number_of_instructions_in_trace tf end in
      (Ok tt,
       {| tx_accounts := tx_accounts c; instruction_stack_capacity := instruction_stack_capacity c;
          instruction_trace_capacity := instruction_trace_capacity c;
          instruction_stack := instruction_stack c;
          instruction_trace :=
            <[Z.to_nat index := configure_frame f index program (zlen accs) (zlen data) caller_index]>
              (instruction_trace c);
          transaction_frame :=
            {| return_data_pubkey := return_data_pubkey tf;
               return_data_scratchpad := return_data_scratchpad tf;
               cpi_scratchpad :=
                 {| vm_ptr := region_address GUEST_INSTRUCTION_DATA_BASE_ADDRESS total; vm_len := 0 |};
               current_executing_instruction := current_executing_instruction tf;
               total_number_of_instructions_in_trace := total_number_of_instructions_in_trace tf;
               number_of_cpis_in_trace := number_of_cpis_in_trace tf;
               number_of_transaction_accounts := number_of_transaction_accounts tf |};
          return_data_bytes := return_data_bytes c;
          next_top_level_instruction_index := next_top_level_instruction_index c;
          deduplication_maps := deduplication_maps c ++ [dedup];
          instruction_accounts := instruction_accounts c ++ [accs];
          instruction_data := instruction_data c ++ [data] |})
  end.

(** ** Push and pop *)

Section stack.
Context `{!InstructionsSysvar}.

Definition with_counts (f : TransactionFrame) (current total cpis : Z) : TransactionFrame :=
  {| return_data_pubkey := return_data_pubkey f; return_data_scratchpad := return_data_scratchpad f;
     cpi_scratchpad := cpi_scratchpad f; current_executing_instruction := current;
     total_number_of_instructions_in_trace := total; number_of_cpis_in_trace := cpis;
     number_of_transaction_accounts := number_of_transaction_accounts f |}.

(** The write into the instructions sysvar, with its mutable borrow. *)
Definition store_index (index current : Z) : Op TransactionAccounts unit :=
  let b := {| instruction_account := instruction_account_new index false true;
              program_index := index |} in
  let body : Op TransactionAccounts unit :=
    core ← get_core b;
    _ ← ensure (bool_decide (owner core = SYSVAR_ID)) InvalidAccountOwner;
    _ ← update_account b (λ m s, touch m s DATA);
    data ← get_data b;
    d ← lift (store_current_index_checked data (wrap 16 current));
    write_slice b 0 d in
  λ a,
    match try_borrow_mut index a with
    | (Err e, a) => (Err e, a)
    | (Ok _, a) => let '(r, a) := body a in (r, drop_ref_mut index a)
    end.

(** The checks of [push], then its effects, one [λ] per statement that mutates. *)
Definition push : Op TransactionContext unit := λ c,
  let level := get_instruction_stack_height c in
  let is_cpi := negb (bool_decide (instruction_stack c = [])) in
  if is_cpi && negb (lamports_delta (tx_accounts c) =? 0) then (Err UnbalancedInstruction, c)
  else
    let index := get_instruction_trace_length c in
    if instruction_trace_capacity c <=? index then (Err MaxInstructionTraceLengthExceeded, c)
    else
      let tf := transaction_frame c in
      if is_cpi && ((MAX_CPI_TRACE_LENGTH <=? number_of_cpis_in_trace tf)
                    || (instruction_trace_capacity c <=? total_number_of_instructions_in_trace tf))
      then (Err MaxInstructionTraceLengthExceeded, c)
      else
        match list.last (instruction_trace c) with
        | None => (Err CallDepth, c)
        | Some f =>
            let trace := <[Z.to_nat index := with_level f (wrap 16 level)]> (instruction_trace c) in
            let next := next_top_level_instruction_index c in
            let '(tf, next, current) :=
              if is_cpi then
                (with_counts tf (current_executing_instruction tf)
                   (saturating_add 16 (total_number_of_instructions_in_trace tf) 1)
                   (saturating_add 16 (number_of_cpis_in_trace tf) 1),
                 next, saturating_sub next 1)
              else (tf, saturating_add 64 next 1, next) in
            let trace := trace ++ [default_frame] in
            let c := with_stack c (instruction_stack c) trace tf next in
            if instruction_stack_capacity c <=? level then (Err CallDepth, c)
            else
              let tf := with_counts tf (wrap 16 index) (total_number_of_instructions_in_trace tf)
                          (number_of_cpis_in_trace tf) in
              let c := with_stack c (instruction_stack c ++ [index]) trace tf next in
              match find_index_of_account (tx_accounts c) INSTRUCTIONS_ID with
              | None => (Ok tt, c)
              | Some i => on_accounts (store_index i current) c
              end
        end.

(** [try_borrow_mut] of the program account, dropped at once. *)
Definition probe_program (index : Z) : Op TransactionAccounts unit := λ a,
  match try_borrow_mut index a with
  | (Ok _, a) => (Ok tt, drop_ref_mut index a)
  | (Err e, a) =>
      (Err (if bool_decide (e = AccountBorrowFailed) then AccountBorrowOutstanding else e), a)
  end.

Definition pop : Op TransactionContext unit := λ c,
  if bool_decide (instruction_stack c = []) then (Err CallDepth, c)
  else
    let check : Op TransactionContext bool :=
      ic ← lift (get_current_instruction_context c);
      program ← lift (get_index_of_program_account_in_transaction ic);
      _ ← on_accounts (probe_program program);
      read (λ c, negb (lamports_delta (tx_accounts c) =? 0)) in
    let '(detected, c) := check c in
    let stack := removelast (instruction_stack c) in
    let tf := transaction_frame c in
    let tf := match list.last stack with
      | Some i => with_counts tf (wrap 16 i) (total_number_of_instructions_in_trace tf)
                    (number_of_cpis_in_trace tf)
      | None => tf end in
    let c := with_stack c stack (instruction_trace c) tf (next_top_level_instruction_index c) in
    match detected with
    | Err e => (Err e, c)
    | Ok true => (Err UnbalancedInstruction, c)
    | Ok false => (Ok tt, c)
    end.

End stack.

(** ** Results *)

Definition get_return_data (c : TransactionContext) : Pubkey * list Z :=
  (return_data_pubkey (transaction_frame c), return_data_bytes c).

Definition set_return_data (program_id : Pubkey) (data : list Z) : Op TransactionContext unit :=
  modify (λ c,
    let f := transaction_frame c in
    {| tx_accounts := tx_accounts c; instruction_stack_capacity := instruction_stack_capacity c;
       instruction_trace_capacity := instruction_trace_capacity c;
       instruction_stack := instruction_stack c; instruction_trace := instruction_trace c;
       transaction_frame :=
         {| return_data_pubkey := program_id;
            return_data_scratchpad :=
              {| vm_ptr := vm_ptr (return_data_scratchpad f); vm_len := zlen data |};
            cpi_scratchpad := cpi_scratchpad f;
            current_executing_instruction := current_executing_instruction f;
            total_number_of_instructions_in_trace := total_number_of_instructions_in_trace f;
            number_of_cpis_in_trace := number_of_cpis_in_trace f;
            number_of_transaction_accounts := number_of_transaction_accounts f |};
       return_data_bytes := data;
       next_top_level_instruction_index := next_top_level_instruction_index c;
       deduplication_maps := deduplication_maps c; instruction_accounts := instruction_accounts c;
       instruction_data := instruction_data c |}).

Definition deconstruct_without_keys (c : TransactionContext)
    : result InstructionError (list AccountSharedData) :=
  if bool_decide (instruction_stack c = []) then Ok ((accounts (tx_accounts c)).*2)
  else Err CallDepth.

Definition take_instruction_trace (c : TransactionContext)
    : list InstructionFrame * list (list InstructionAccount) * list (list Z) :=
  (removelast (instruction_trace c), instruction_accounts c, instruction_data c).

Definition number_of_active_instructions_in_trace (c : TransactionContext) : Z :=
  saturating_add 64 (next_top_level_instruction_index c)
    (number_of_cpis_in_trace (transaction_frame c)).

Definition execution_record (c : TransactionContext) : ExecutionRecord :=
  {| r_accounts := accounts (tx_accounts c);
     r_return_program := return_data_pubkey (transaction_frame c);
     r_return_data := return_data_bytes c;
     r_touched_account_count := count_touched (touched_flags (tx_accounts c));
     r_accounts_resize_delta := resize_delta (tx_accounts c) |}.
