(* ===== verification/CtxOps.v ===== *)
(** * Accounts of one transaction do not interfere

    The borrowed accounts of a transaction live in separate buffers of one memory, so that a
    call on one of them changes the state of that account only. *)

From stdpp Require Import base list numbers option.
From S2P Require Import Prelude Effects Memory AccountMode Account AccountFacts CtxAccounts CtxInstruction.

Local Open Scope Z_scope.

(** ** Separate buffers *)

(** The buffer of a borrowed account: its header and its two images. *)
Definition buffer_end (m : mem) (b : BorrowedAccount) : Z :=
  b_header b + 40 + 2 * image_size m b.

Definition apart_from (m : mem) (s s' : AccountSharedData) : Prop :=
  match cow s, cow s' with
  | Borrowed b, Borrowed b' => buffer_end m b ≤ b_header b' ∨ buffer_end m b' ≤ b_header b
  | _, _ => True
  end.

Definition separated (m : mem) (l : list AccountSharedData) : Prop :=
  Forall (wf m) l ∧
  ∀ i j s s', i ≠ j → l !! i = Some s → l !! j = Some s' → apart_from m s s'.

Lemma image_in_buffer m b active :
  wf_borrowed m b →
  b_header b + 40 ≤ image_addr m (b_header b) (b_version b) active ∧
  image_addr m (b_header b) (b_version b) active + image_size m b ≤ buffer_end m b.
Proof.
  intros [Hs _ _ _ _ _ _]. rewrite image_addr_eq. unfold buffer_end, image_size, STORAGE_UNIT.
  destruct (xorb active (Z.even (b_version b))); lia.
Qed.

Lemma core_in_buffer m b :
  wf_borrowed m b → b_header b + 40 ≤ b_core b ∧ b_core b + image_size m b ≤ buffer_end m b.
Proof.
  intros Hw. destruct (wf_core _ _ Hw) as [active ->]. by apply image_in_buffer.
Qed.

Lemma image_size_min m b : wf_borrowed m b → 64 ≤ image_size m b.
Proof. intros [Hs _ _ _ _ _ _]. unfold image_size, STORAGE_UNIT. lia. Qed.

(** A view depends on its buffer only. *)
Lemma view_agree m m' b :
  wf_borrowed m b → agree m m' (b_header b) (buffer_end m b) →
  wf_borrowed m' b ∧ b_owned m' b = b_owned m b ∧ image_size m' b = image_size m b ∧
  shadow_lo m' b = shadow_lo m b.
Proof.
  intros Hw Ha. pose proof (core_in_buffer m b Hw) as [C1 C2]. pose proof (image_size_min m b Hw).
  assert (Hld : ∀ n a, b_header b ≤ a → a + Z.of_nat n ≤ buffer_end m b → load m' a n = load m a n).
  { intros n a H1 H2. symmetry. apply load_ext. intros i Hi. apply Ha. lia. }
  assert (Hle : ∀ n a, b_header b ≤ a → a + Z.of_nat n ≤ buffer_end m b → load_le n m' a = load_le n m a).
  { intros n a H1 H2. unfold load_le. by rewrite Hld. }
  assert (Hhs : header_space m' (b_header b) = header_space m (b_header b)) by (apply Hle; lia).
  assert (Hsz : image_size m' b = image_size m b) by (unfold image_size; by rewrite Hhs).
  assert (Hia : ∀ a, image_addr m' (b_header b) (b_version b) a = image_addr m (b_header b) (b_version b) a)
    by (intros a; rewrite !image_addr_eq; by rewrite Hhs).
  assert (E56 : load_le 4 m' (b_core b + 56) = load_le 4 m (b_core b + 56)) by (apply Hle; lia).
  assert (Hw' : wf_borrowed m' b).
  { destruct Hw as [W1 W2 W3 [act W4] W5 W6 W7]. split; rewrite ?Hsz, ?Hhs, ?E56; auto.
    - rewrite <- W3. apply Hle; lia.
    - exists act. by rewrite Hia.
    - rewrite <- W6. apply Hle; lia. }
  split_and!; [done| |done|unfold shadow_lo; apply Hia].
  pose proof (wf_len m b Hw). unfold b_owned. f_equal.
  - unfold read_core, mode_at. rewrite !Hle by lia. rewrite !Hld by lia.
    by rewrite <- (Ha (b_core b + 55)) by lia.
  - rewrite !ds_bytes_wf by done. rewrite E56. apply Hld; [lia|]. unfold STATIC_SIZE, CORE_SIZE, DATA_HEADER_SIZE in *. lia.
Qed.

Lemma account_agree m m' s :
  wf m s →
  match cow s with Borrowed b => agree m m' (b_header b) (buffer_end m b) | Owned _ => True end →
  wf m' s ∧ owned m' s = owned m s ∧
  match cow s with Borrowed b => buffer_end m' b = buffer_end m b | Owned _ => True end.
Proof.
  unfold wf, owned. destruct (cow s) as [b|o]; [|done]. intros [Hw Hd] Ha.
  destruct (view_agree m m' b Hw Ha) as (H1 & H2 & H3 & H4). split_and!; auto.
  - intros Hdirty. rewrite H4. auto.
  - unfold buffer_end. by rewrite H3.
Qed.

(** What an operation on one account may write is inside its buffer. *)
Lemma evolves_frame m s m' s' b' :
  wf m s → evolves m s m' s' →
  match cow s with
  | Borrowed b => agree m m' (b_header b') (buffer_end m b') ∨
                  ¬ (buffer_end m b ≤ b_header b' ∨ buffer_end m b' ≤ b_header b)
  | Owned _ => m' = m
  end.
Proof.
  unfold wf, evolves. destruct (cow s) as [b|o]; [|naive_solver]. intros [Hw _] [Hf _].
  destruct (image_in_buffer m b false Hw) as [I1 I2]. fold (shadow_lo m b) in I1, I2.
  destruct (decide (buffer_end m b ≤ b_header b' ∨ buffer_end m b' ≤ b_header b)); [left|by right].
  intros x Hx. apply Hf. lia.
Qed.

Lemma evolves_end m s m' s' b b' :
  wf m s → wf m' s' → evolves m s m' s' → cow s = Borrowed b → cow s' = Borrowed b' →
  b_header b' = b_header b ∧ buffer_end m' b' = buffer_end m b.
Proof.
  unfold wf, evolves. intros Hw Hw' He E E'. rewrite E in *. rewrite E' in *.
  destruct He as [Hf [Hh Hv]]. destruct Hw as [Hw _].
  destruct (frame_header m m' b (wf_space _ _ Hw) Hf) as [Es _].
  split; [done|]. unfold buffer_end, image_size. by rewrite Hh, Es.
Qed.

(** Whoever is apart from an account stays apart, well formed and unchanged. *)
Lemma evolves_other m s m' s' t :
  wf m s → wf m' s' → evolves m s m' s' → wf m t → apart_from m s t →
  wf m' t ∧ owned m' t = owned m t ∧ apart_from m' s' t.
Proof.
  intros Hs Hs' He Ht Ha. unfold apart_from in *.
  assert (Hag : match cow t with Borrowed b => agree m m' (b_header b) (buffer_end m b) | Owned _ => True end).
  { destruct (cow t) as [bt|] eqn:Et; [|done]. pose proof (evolves_frame m s m' s' bt Hs He) as Hf.
    destruct (cow s) as [bs|]; [naive_solver|]. by subst m'. }
  destruct (account_agree m m' t Ht Hag) as (H1 & H2 & H3). split_and!; [done|done|].
  destruct (cow s') as [bs'|] eqn:Es'; [|done]. destruct (cow t) as [bt|] eqn:Et; [|done].
  destruct (cow s) as [bs|] eqn:Es.
  - destruct (evolves_end m s m' s' bs bs' Hs Hs' He Es Es') as [E1 E2]. rewrite E1, E2, H3. done.
  - unfold evolves in He. rewrite Es in He. destruct He as [_ [o2 Ho]]. congruence.
Qed.

Lemma apart_sym m s s' : apart_from m s s' → apart_from m s' s.
Proof. unfold apart_from. destruct (cow s), (cow s'); naive_solver. Qed.

Lemma apart_stable m m' s s' t u :
  wf m s → evolves m s m' s' → wf m t → wf m u → apart_from m s t → apart_from m s u →
  apart_from m t u → apart_from m' t u.
Proof.
  intros Hs He Ht Hu Hst Hsu Htu.
  assert (Hag : ∀ x, wf m x → apart_from m s x →
    match cow x with Borrowed b => buffer_end m' b = buffer_end m b | Owned _ => True end).
  { intros x Hx Hsx. apply (account_agree m m' x Hx). unfold apart_from in Hsx.
    destruct (cow x) as [bx|] eqn:Ex; [|done]. pose proof (evolves_frame m s m' s' bx Hs He) as Hf.
    destruct (cow s) as [bs|]; [naive_solver|]. by subst m'. }
  pose proof (Hag t Ht Hst) as Et. pose proof (Hag u Hu Hsu) as Eu. unfold apart_from in *.
  destruct (cow t), (cow u); try done. by rewrite Et, Eu.
Qed.

(** The states of all accounts after an operation on one of them. *)
Lemma separated_step m l i s cur r :
  separated m l → l !! i = Some s → denotes m s cur r →
  separated r.1 (<[i := r.2]> l) ∧ owned r.1 <$> <[i := r.2]> l = <[i := cur]> (owned m <$> l).
Proof.
  intros [Hw Ha] Hi (Hr & He & Ho). destruct r as [m' s']. simpl in *.
  assert (Hws : wf m s) by (by eapply Forall_lookup in Hw).
  assert (Hoth : ∀ j t, j ≠ i → l !! j = Some t → wf m' t ∧ owned m' t = owned m t ∧ apart_from m' s' t).
  { intros j t Hj Ht. apply (evolves_other m s); auto; [by eapply Forall_lookup in Hw|eapply (Ha i j); [congruence|done|done]]. }
  split; [split|].
  - apply Forall_lookup. intros j t Ht. destruct (decide (j = i)) as [->|Hj].
    + rewrite list_lookup_insert_eq in Ht by (by eapply lookup_lt_Some). by injection Ht as <-.
    + rewrite list_lookup_insert_ne in Ht by done. by apply (Hoth j).
  - intros j k t u Hjk Hj Hk.
    assert (Hlen : (i < length l)%nat) by (by eapply lookup_lt_Some).
    destruct (decide (j = i)) as [->|Hji]; [|destruct (decide (k = i)) as [->|Hki]].
    + rewrite list_lookup_insert_eq in Hj by done. injection Hj as <-.
      rewrite list_lookup_insert_ne in Hk by done. by apply (Hoth k).
    + rewrite list_lookup_insert_eq in Hk by done. injection Hk as <-.
      rewrite list_lookup_insert_ne in Hj by done. apply apart_sym. by apply (Hoth j).
    + rewrite list_lookup_insert_ne in Hj, Hk by done.
      assert (Hap : apart_from m t u) by (by eapply (Ha j k)).
      destruct (Hoth j t Hji Hj) as (_ & Hot & _). destruct (Hoth k u Hki Hk) as (_ & Hou & _).
      pose proof (apart_stable m m' s s' t u Hws He) as Hst. apply Hst; auto;
        [by eapply Forall_lookup in Hw|by eapply Forall_lookup in Hw|by eapply (Ha i j)|by eapply (Ha i k)].
  - rewrite list_fmap_insert, Ho. apply list_eq. intros j.
    destruct (decide (j = i)) as [->|Hj].
    + rewrite !list_lookup_insert_eq; [done|rewrite length_fmap; by eapply lookup_lt_Some..].
    + rewrite !list_lookup_insert_ne by done. rewrite !list_lookup_fmap.
      destruct (l !! j) as [t|] eqn:Et; [|done]. simpl. f_equal. by apply (Hoth j).
Qed.

(** ** What the calls of an instruction do

    Every call through a borrowed instruction account either leaves the transaction's
    accounts as they are or changes the one account it was made on, within the rights of the
    program, and keeps the running deltas exact. *)

(** ** States *)

Definition states (a : TransactionAccounts) : list OwnedAccount :=
  owned (storage a) <$> (accounts a).*2.

Record tidy (a : TransactionAccounts) : Prop := {
  tidy_separated : separated (storage a) ((accounts a).*2);
  tidy_touched : length (touched_flags a) = length (accounts a);
  tidy_counters : length (borrow_counters a) = length (accounts a);
}.

(** The words of an account that a call computes with. *)
Definition words_ok (o : OwnedAccount) : Prop :=
  fits 64 (lamports (o_core o)) ∧ fits 8 (flags (o_core o)).

(** The account at an index, and what a call may have changed of the rest. *)
Record effect (i : nat) (o o' : OwnedAccount) (a a' : TransactionAccounts) : Prop := {
  ef_tidy : tidy a';
  ef_keys : (accounts a').*1 = (accounts a).*1;
  ef_counters : borrow_counters a' = borrow_counters a;
  ef_states : states a' = <[i := o']> (states a);
  ef_lamports : lamports_delta a' = lamports_delta a + (lamports (o_core o') - lamports (o_core o));
  ef_resize : resize_delta a' = resize_delta a ∧ zlen (o_data o') = zlen (o_data o) ∨
    resize_delta a' = clamp 64 (resize_delta a + clamp 64 (swrap 64 (zlen (o_data o')) - swrap 64 (zlen (o_data o)))) ∧
    zlen (o_data o') ≤ MAX_ACCOUNT_DATA_LEN ∧ resize_delta a' ≤ MAX_ACCOUNT_DATA_GROWTH_PER_TRANSACTION;
  ef_fits : words_ok o → words_ok o';
}.

(** What a program with key [pk] may do to an account, [w] when the instruction may write it. *)
Record permit (w : bool) (pk : option Pubkey) (o o' : OwnedAccount) : Prop := {
  pm_locked : w = false ∨ is_writable (mode (o_core o)) = false → o' = o;
  pm_lifecycle : mode (o_core o') = mode (o_core o) ∧ slot (o_core o') = slot (o_core o) ∧
                 commit_seq (o_core o') = commit_seq (o_core o);
  pm_owner : owner (o_core o') ≠ owner (o_core o) →
             pk = Some (owner (o_core o)) ∧ Forall (λ x, x = 0) (o_data o');
  pm_lamports : lamports (o_core o') < lamports (o_core o) → pk = Some (owner (o_core o));
  pm_data : o_data o' ≠ o_data o → pk = Some (owner (o_core o));
  pm_flags : flags (o_core o') ≠ flags (o_core o) → pk = Some (owner (o_core o));
  pm_magic : mode (o_core o) = Magic → zlen (o_data o') = zlen (o_data o);
}.

Lemma permit_refl w pk o : permit w pk o o.
Proof. constructor; try done; lia. Qed.

Lemma permit_trans w pk o1 o2 o3 : permit w pk o1 o2 → permit w pk o2 o3 → permit w pk o1 o3.
Proof.
  intros [A1 (A2 & A3 & A4) A5 A6 A7 A8 A9] [B1 (B2 & B3 & B4) B5 B6 B7 B8 B9].
  assert (Hk : pk ≠ Some (owner (o_core o1)) → owner (o_core o2) = owner (o_core o1)).
  { intros Hn. destruct (decide (owner (o_core o2) = owner (o_core o1))); [done|]. destruct A5; done. }
  assert (Hb : ∀ P : Prop, (P → pk = Some (owner (o_core o2))) → P → pk = Some (owner (o_core o1))).
  { intros P HP p. specialize (HP p). destruct (decide (pk = Some (owner (o_core o1)))) as [|Hn]; [done|].
    by rewrite <- (Hk Hn). }
  constructor.
  - intros Hl. assert (o2 = o1) as -> by auto. auto.
  - split_and!; congruence.
  - intros Hn. destruct (decide (owner (o_core o2) = owner (o_core o1))) as [E|E].
    + rewrite <- E in Hn. destruct (B5 Hn) as [? ?]. split; [congruence|done].
    + destruct (A5 E) as [Hpk Hz]. split; [done|].
      destruct (decide (o_data o3 = o_data o2)) as [-> |Hd]; [done|].
      exfalso. specialize (B7 Hd). congruence.
  - intros Hl. destruct (decide (lamports (o_core o2) < lamports (o_core o1))); [auto|].
    apply (Hb (lamports (o_core o3) < lamports (o_core o2))); [auto|lia].
  - intros Hd. destruct (decide (o_data o2 = o_data o1)) as [E|E]; [|auto]. rewrite <- E in Hd. eauto.
  - intros Hd. destruct (decide (flags (o_core o2) = flags (o_core o1))) as [E|E]; [|auto].
    rewrite <- E in Hd. eauto.
  - intros Hm. rewrite <- A9, B9 by congruence. done.
Qed.

Section calls.
Context `{RR : !RentRules} (b : BorrowedInstructionAccount) (a : TransactionAccounts) (o : OwnedAccount).
Hypothesis Ht : tidy a.
Hypothesis Ho : states a !! handle_index b = Some o.

Let pk := account_key a (program_index b).
Let w := handle_is_writable b.

Lemma states_lookup : ∃ k s, accounts a !! handle_index b = Some (k, s) ∧ owned (storage a) s = o.
Proof using Ho.
  unfold states in Ho. rewrite list_lookup_fmap, list_lookup_fmap in Ho.
  destruct (accounts a !! handle_index b) as [[k s]|]; [|done]. injection Ho as <-. by exists k, s.
Qed.

Lemma get_core_eq : get_core b a = (Ok (o_core o), a).
Proof using Ho.
  destruct states_lookup as (k & s & E & <-). unfold get_core, mbind, op_bind, borrowed_account. rewrite E.
  unfold read, core_of, owned. by destruct (cow s).
Qed.

Lemma get_data_eq : get_data b a = (Ok (o_data o), a).
Proof using Ho.
  destruct states_lookup as (k & s & E & <-). unfold get_data, mbind, op_bind, borrowed_account. rewrite E.
  unfold read, cow_data, owned. by destruct (cow s).
Qed.

Definition owns : bool := bool_decide (pk = Some (owner (o_core o))).

Lemma is_owned_eq : is_owned_by_current_program b a = (Ok owns, a).
Proof using Ho.
  unfold is_owned_by_current_program. op_ok get_core_eq. unfold read, owns. fold pk.
  destruct pk as [k|]; [|done]. do 2 f_equal. apply bool_decide_ext. naive_solver.
Qed.

Lemma check_mutable_eq :
  check_mutable b a = (if is_writable (mode (o_core o)) then Ok tt else Err Immutable, a).
Proof using Ho. unfold check_mutable. op_ok get_core_eq. by destruct (is_writable _). Qed.

Lemma handle_touch_eq :
  handle_touch b a = (Ok tt, with_touched a (<[handle_index b := true]> (touched_flags a))).
Proof using Ht Ho.
  unfold handle_touch, account_touch. fold (handle_index b).
  destruct states_lookup as (k & s & E & _). apply lookup_lt_Some in E.
  destruct (lookup_lt_is_Some_2 (touched_flags a) (handle_index b)) as [t ->]; [|done].
  by rewrite (tidy_touched _ Ht).
Qed.

Lemma can_data_be_changed_eq :
  can_data_be_changed b a =
  (if w then if owns then if is_writable (mode (o_core o)) then Ok tt else Err Immutable
             else Err ExternalAccountDataModified
   else Err ReadonlyDataModified, a).
Proof using Ho.
  unfold can_data_be_changed. fold w. op_check w by reflexivity. op_ok is_owned_eq.
  op_check owns by reflexivity. apply check_mutable_eq.
Qed.

End calls.

(** ** Steps of a call *)

(** One account changes, the deltas and counters do not. *)
Record updates (i : nat) (o' : OwnedAccount) (a a' : TransactionAccounts) : Prop := {
  up_tidy : tidy a';
  up_keys : (accounts a').*1 = (accounts a).*1;
  up_counters : borrow_counters a' = borrow_counters a;
  up_states : states a' = <[i := o']> (states a);
  up_resize : resize_delta a' = resize_delta a;
  up_lamports : lamports_delta a' = lamports_delta a;
}.

Lemma update_account_spec b a o o' f :
  tidy a → states a !! handle_index b = Some o →
  (∀ m s, wf m s → owned m s = o → denotes m s o' (f m s)) →
  ∃ a', update_account b f a = (Ok tt, a') ∧ updates (handle_index b) o' a a'.
Proof.
  intros Ht Ho Hf. destruct (states_lookup b a o Ho) as (k & s & E & Eo).
  destruct Ht as [Hsep Ht1 Ht2].
  assert (Hs : (accounts a).*2 !! handle_index b = Some s) by (by rewrite list_lookup_fmap, E).
  assert (Hw : wf (storage a) s) by (destruct Hsep as [Hw _]; by eapply Forall_lookup in Hw).
  pose proof (Hf _ _ Hw Eo) as Hd. unfold update_account. rewrite E.
  destruct (f (storage a) s) as [m' s'] eqn:Ef.
  destruct (separated_step _ _ _ _ _ _ Hsep Hs Hd) as [Hsep' Hst]. simpl in *.
  eexists. split; [done|].
  assert (E2 : (<[handle_index b:=(k, s')]> (accounts a)).*2 = <[handle_index b:=s']> ((accounts a).*2))
    by apply list_fmap_insert.
  constructor; simpl; try done.
  - constructor; simpl; rewrite ?E2, ?length_insert; done.
  - rewrite list_fmap_insert. simpl. apply list_insert_id. by rewrite list_lookup_fmap, E.
  - unfold states. simpl. by rewrite E2.
Qed.

Lemma touched_updates b a o l :
  tidy a → states a !! handle_index b = Some o → length l = length (touched_flags a) →
  updates (handle_index b) o a (with_touched a l).
Proof.
  intros [H1 H2 H3] Ho Hl. constructor; try done.
  - constructor; simpl; [done|congruence|done].
  - unfold states in *. simpl. by rewrite list_insert_id.
Qed.

Lemma updates_trans i o1 o2 a1 a2 a3 :
  updates i o1 a1 a2 → updates i o2 a2 a3 → updates i o2 a1 a3.
Proof.
  intros [U1 U2 U3 U4 U5 U6] [V1 V2 V3 V4 V5 V6]. constructor; [done|congruence..| | |]; try congruence.
  rewrite V4, U4. by rewrite list_insert_insert_eq.
Qed.

Lemma updates_lookup i o o' a a' :
  updates i o' a a' → states a !! i = Some o → states a' !! i = Some o'.
Proof.
  intros U Ho. rewrite (up_states _ _ _ _ U). apply list_lookup_insert_eq. by eapply lookup_lt_Some.
Qed.

Lemma updates_key i o' a a' j : updates i o' a a' → account_key a' j = account_key a j.
Proof.
  intros U. unfold account_key. rewrite <- !list_lookup_fmap. by rewrite (up_keys _ _ _ _ U).
Qed.

Lemma updates_effect i o o' a a' :
  updates i o' a a' → lamports (o_core o') = lamports (o_core o) →
  zlen (o_data o') = zlen (o_data o) → (words_ok o → words_ok o') → effect i o o' a a'.
Proof.
  intros [U1 U2 U3 U4 U5 U6] El Ed Hf. constructor; auto; [rewrite U6, El; lia].
Qed.

Lemma effect_refl i o a : tidy a → states a !! i = Some o → effect i o o a a.
Proof.
  intros Ht Ho. constructor; auto; [|lia]. by rewrite list_insert_id.
Qed.

Lemma update_bind_assoc {S A B C} (p : Op S A) (k : A → Op S B) (k' : B → Op S C) s :
  ((p ≫= k) ≫= k') s = (p ≫= (λ x, k x ≫= k')) s.
Proof. unfold mbind, op_bind. destruct (p s) as [[x|e] s1]; [|done]. by destruct (k x s1) as [[]]. Qed.

Lemma update_fuse b f g a :
  (_ ← update_account b f; update_account b g) a =
  update_account b (λ m s, let '(m, s) := f m s in g m s) a.
Proof.
  unfold mbind, op_bind, update_account. destruct (accounts a !! handle_index b) as [[k s]|] eqn:E; [|done].
  destruct (f (storage a) s) as [m1 s1] eqn:Ef. simpl.
  rewrite list_lookup_insert_eq by (by eapply lookup_lt_Some).
  destruct (g m1 s1) as [m2 s2]. unfold with_accounts. simpl. by rewrite list_insert_insert_eq.
Qed.

(** ** The calls *)

Inductive AccountCall :=
| CSetOwner (k : Pubkey) | CSetLamports (v : Z) | CAddLamports (v : Z) | CSubLamports (v : Z)
| CWrite (offset : Z) (bytes : list Z) | CSetData (data : list Z) | CSetLength (n : Z)
| CExtend (data : list Z) | CSetExecutable (e : bool).

(** A write outside the slice the caller got does not reach the account. *)
Definition write_within (b : BorrowedInstructionAccount) (offset : Z) (bytes : list Z)
    : Op TransactionAccounts unit :=
  data ← get_data b;
  if offset + zlen bytes <=? zlen data then write_slice b offset bytes else fail InvalidAccountData.

Definition run_call `{!RentRules} (b : BorrowedInstructionAccount) (c : AccountCall)
    : Op TransactionAccounts unit :=
  match c with
  | CSetOwner k => bia_set_owner b k
  | CSetLamports v => bia_set_lamports b v
  | CAddLamports v => bia_checked_add_lamports b v
  | CSubLamports v => bia_checked_sub_lamports b v
  | CWrite offset bytes => _ ← bia_get_data_mut b; write_within b offset bytes
  | CSetData data => bia_set_data_from_slice b data
  | CSetLength n => bia_set_data_length b n
  | CExtend data => bia_extend_from_slice b data
  | CSetExecutable e => bia_set_executable b e
  end.

(** Arguments of the types the source gives them. *)
Definition call_ok (c : AccountCall) : Prop :=
  match c with
  | CSetOwner k => length k = 32%nat
  | CSetLamports v | CAddLamports v | CSubLamports v => fits 64 v
  | CWrite offset _ => 0 ≤ offset
  | CSetLength n => 0 ≤ n
  | CSetData _ | CExtend _ | CSetExecutable _ => True
  end.

(** ** Effects *)

Definition call_spec (b : BorrowedInstructionAccount) (a : TransactionAccounts) (o : OwnedAccount)
    (a' : TransactionAccounts) : Prop :=
  ∃ o', effect (handle_index b) o o' a a' ∧
        permit (handle_is_writable b) (account_key a (program_index b)) o o'.

Lemma spec_refl b a o :
  tidy a → states a !! handle_index b = Some o → call_spec b a o a.
Proof. intros Ht Ho. exists o. split; [by apply effect_refl|apply permit_refl]. Qed.

Lemma owns_true b a o : owns b a o = true → account_key a (program_index b) = Some (owner (o_core o)).
Proof. unfold owns. by intros ?%bool_decide_eq_true. Qed.

(** Touching an account and then changing it. *)
Lemma touch_update b a o o' f :
  tidy a → states a !! handle_index b = Some o →
  (∀ m s, wf m s → owned m s = o → denotes m s o' (f m s)) →
  ∃ a', (_ ← handle_touch b; update_account b f) a = (Ok tt, a') ∧ updates (handle_index b) o' a a'.
Proof.
  intros Ht Ho Hf. op_ok (handle_touch_eq b a o Ht Ho).
  set (a1 := with_touched a _).
  assert (U : updates (handle_index b) o a a1)
    by (apply touched_updates; auto; by rewrite length_insert).
  destruct (update_account_spec b a1 o o' f) as (a2 & E & V);
    [apply U|by eapply updates_lookup|done|]. exists a2. split; [done|]. by eapply updates_trans.
Qed.

Lemma put_owner o k :
  let o' := put o (FOwner k) in
  lamports (o_core o') = lamports (o_core o) ∧ owner (o_core o') = k ∧
  mode (o_core o') = mode (o_core o) ∧ slot (o_core o') = slot (o_core o) ∧
  commit_seq (o_core o') = commit_seq (o_core o) ∧ flags (o_core o') = flags (o_core o) ∧
  o_data o' = o_data o.
Proof. by destruct o as [[] d]. Qed.
Lemma put_lamports o v :
  let o' := put o (FLamports v) in
  lamports (o_core o') = v ∧ owner (o_core o') = owner (o_core o) ∧
  mode (o_core o') = mode (o_core o) ∧ slot (o_core o') = slot (o_core o) ∧
  commit_seq (o_core o') = commit_seq (o_core o) ∧ flags (o_core o') = flags (o_core o) ∧
  o_data o' = o_data o.
Proof. by destruct o as [[] d]. Qed.
Lemma put_flags o v :
  let o' := put o (FFlags v) in
  lamports (o_core o') = lamports (o_core o) ∧ owner (o_core o') = owner (o_core o) ∧
  mode (o_core o') = mode (o_core o) ∧ slot (o_core o') = slot (o_core o) ∧
  commit_seq (o_core o') = commit_seq (o_core o) ∧ flags (o_core o') = v ∧
  o_data o' = o_data o.
Proof. by destruct o as [[] d]. Qed.

Lemma flag_fits (x : Z) e :
  fits 8 x → fits 8 (set_flag x EXECUTABLE e).
Proof.
  unfold fits, set_flag. intros Hx. assert (0 ≤ EXECUTABLE < 2 ^ 8) by (vm_compute; done).
  assert (Z.log2 x < 8) by (destruct (decide (x = 0)) as [->|]; [done|apply Z.log2_lt_pow2; lia]).
  destruct e.
  - split; [apply Z.lor_nonneg; lia|]. apply Z.log2_lt_cancel. rewrite Z.log2_lor by lia.
    change (Z.log2 (2 ^ 8)) with 8. by apply Z.max_lub_lt.
  - change EXECUTABLE with (Z.ones 1). rewrite Z.ldiff_ones_r, Z.shiftl_mul_pow2, Z.shiftr_div_pow2 by lia.
    change (2 ^ 1) with 2. Z.to_euclidean_division_equations. lia.
Qed.

(** Reserving keeps the state of the account. *)
Lemma reserve_denotes m s n :
  wf m s → denotes m s (owned m s) (m, {| cow := cow_reserve m (cow s) n; dirty_bits := dirty_bits s |}).
Proof.
  intros Hw. unfold cow_reserve. destruct s as [[bb|oo] d]; simpl; [|by apply denotes_refl].
  case_match; [by apply denotes_refl|]. split_and!; [done| |done].
  unfold evolves. simpl. split; [apply frame_refl|done].
Qed.

Lemma make_data_mut_step b o a1 :
  tidy a1 → states a1 !! handle_index b = Some o →
  ∃ a2, make_data_mut b a1 = (Ok tt, a2) ∧ updates (handle_index b) o a1 a2.
Proof.
  intros T H1. apply (update_account_spec b a1 o o); [exact T|exact H1|]. intros m s Hw <-. by apply reserve_denotes.
Qed.

Section specs.
Context `{RR : !RentRules} (b : BorrowedInstructionAccount) (a : TransactionAccounts) (o : OwnedAccount).
Hypothesis Ht : tidy a.
Hypothesis Ho : states a !! handle_index b = Some o.

Ltac failed := by apply spec_refl.

Lemma is_zeroed_spec buf : is_zeroed buf = true ↔ Forall (λ x, x = 0) buf.
Proof using Type.
  unfold is_zeroed. assert (Hr : ∀ l : list Z, bool_decide (l = replicate (length l) 0) = true ↔ Forall (λ x, x = 0) l).
  { intros l. rewrite bool_decide_eq_true. split.
    - intros ->. apply Forall_replicate. done.
    - intros H. induction H as [|x l -> _ IH]; simpl; [done|]. by rewrite <- IH. }
  assert (Hc : ∀ fuel l, (length l < fuel)%nat → zero_chunks fuel l = true ↔ Forall (λ x, x = 0) l);
    [|apply Hc; lia].
  induction fuel as [|fuel IH]; intros l Hl; [lia|]. cbn [zero_chunks].
  destruct (Nat.leb_spec ZEROS_LEN (length l)) as [Hz|Hz]; [|apply Hr].
  rewrite andb_true_iff, IH by (rewrite length_drop; unfold ZEROS_LEN in *; lia).
  assert (Forall (λ x, x = 0) l ↔ Forall (λ x, x = 0) (take ZEROS_LEN l) ∧ Forall (λ x, x = 0) (drop ZEROS_LEN l))
    as -> by (by rewrite <- Forall_app, take_drop).
  rewrite <- (Hr (take ZEROS_LEN l)), length_take_le by done. done.
Qed.

Lemma set_owner_call k : length k = 32%nat → call_spec b a o (bia_set_owner b k a).2.
Proof using Ht Ho.
  intros Hk. unfold bia_set_owner. op_ok (is_owned_eq b a o Ho).
  op_check (owns b a o && handle_is_writable b) by failed.
  op_ok (get_data_eq b a o Ho). op_check (is_zeroed (o_data o)) by failed.
  op_ok (get_core_eq b a o Ho). case_bool_decide; [failed|].
  unfold mbind at 1, op_bind at 1. rewrite (check_mutable_eq b a o Ho).
  destruct (is_writable (mode (o_core o))) eqn:Em; [|failed].
  destruct (touch_update b a o (put o (FOwner k)) (copy_into_owner k) Ht Ho) as (a' & -> & U).
  { intros m s Hw <-. apply touch_then; [done|done|]. intros m' s' Hp <-. by apply assign_spec. }
  match goal with H : _ && _ = true |- _ => apply andb_true_iff in H as [Hown Hw] end.
  apply owns_true in Hown. exists (put o (FOwner k)). rewrite Hw.
  destruct (put_owner o k) as (F1 & F2 & F3 & F4 & F5 & F6 & F7).
  split; [by apply updates_effect; [|rewrite F1|rewrite F7|unfold words_ok; rewrite F1, F6]|].
  constructor; rewrite ?F1, ?F2, ?F3, ?F4, ?F5, ?F6, ?F7; try done.
  - intros [?|?]; congruence.
  - intros _. split; [done|]. by apply is_zeroed_spec.
Qed.

Lemma set_lamports_call v : fits 64 v → call_spec b a o (bia_set_lamports b v a).2.
Proof using Ht Ho.
  intros Hv. unfold bia_set_lamports. op_ok (get_core_eq b a o Ho). cbv zeta.
  op_ok (is_owned_eq b a o Ho). op_check (owns b a o || (lamports (o_core o) <=? v)) by failed.
  op_check (handle_is_writable b) by failed.
  destruct (Z.eqb_spec (lamports (o_core o)) v); [failed|].
  unfold mbind at 1, op_bind at 1. rewrite (check_mutable_eq b a o Ho).
  destruct (is_writable (mode (o_core o))) eqn:Em; [|failed].
  unfold mbind at 1, op_bind at 1, add_lamports_delta. case_bool_decide; [|failed].
  set (a1 := with_deltas a (resize_delta a) _).
  assert (Ht1 : tidy a1) by (by destruct Ht).
  destruct (touch_update b a1 o (put o (FLamports v)) (λ m s, set_lamports m s v) Ht1 Ho) as (a' & -> & U).
  { intros m s Hw <-. unfold set_lamports. rewrite core_of_owned. apply setter_spec; [done|done|done|].
    intros <-%Z.eqb_eq. by destruct (owned m s) as [[] ?]. }
  exists (put o (FLamports v)). destruct U as [U1 U2 U3 U4 U5 U6].
  destruct (put_lamports o v) as (F1 & F2 & F3 & F4 & F5 & F6 & F7). split.
  - constructor; rewrite ?F1, ?F7; auto. unfold words_ok. rewrite F1, F6. by intros [_ ?].
  - match goal with H : handle_is_writable b = true |- _ => rewrite H end.
    constructor; rewrite ?F1, ?F2, ?F3, ?F4, ?F5, ?F6, ?F7; try done.
    + intros [?|?]; congruence.
    + intros Hlt. apply owns_true. match goal with H : _ || _ = true |- _ =>
        apply orb_true_iff in H as [H|H]; [done|apply Z.leb_le in H; lia] end.
Qed.

Lemma checked_lamports_call c :
  call_ok c → match c with CAddLamports _ | CSubLamports _ => True | _ => False end →
  fits 64 (lamports (o_core o)) → call_spec b a o (run_call b c a).2.
Proof using Ht Ho.
  intros Hc Hk Hl. destruct c as [| |v|v| | | | |]; try done; unfold fits in *; simpl;
    [unfold bia_checked_add_lamports|unfold bia_checked_sub_lamports];
    rewrite (op_bind_ok _ _ _ _ _ (get_core_eq b a o Ho)).
  - destruct (checked_add 64 (lamports (o_core o)) v) as [t|] eqn:E; [|failed].
    apply checked_add_Some in E as [-> ?]. apply set_lamports_call. simpl in Hc. unfold fits in *. lia.
  - destruct (checked_sub (lamports (o_core o)) v) as [t|] eqn:E; [|failed].
    apply checked_sub_Some in E as [-> ?]. apply set_lamports_call. simpl in Hc. unfold fits in *. lia.
Qed.

(** What a passed resize check has established. *)
Record resizable (n : Z) : Prop := {
  rz_max : n ≤ MAX_ACCOUNT_DATA_LEN;
  rz_growth : clamp 64 (resize_delta a + clamp 64 (swrap 64 n - swrap 64 (zlen (o_data o)))) ≤
              MAX_ACCOUNT_DATA_GROWTH_PER_TRANSACTION;
  rz_writable : handle_is_writable b = true;
  rz_owner : account_key a (program_index b) = Some (owner (o_core o));
  rz_mode : is_writable (mode (o_core o)) = true;
  rz_magic : mode (o_core o) = Magic → n = zlen (o_data o);
}.

Lemma can_data_be_changed_cases :
  (∃ e, can_data_be_changed b a = (Err e, a)) ∨
  can_data_be_changed b a = (Ok tt, a) ∧ handle_is_writable b = true ∧
  account_key a (program_index b) = Some (owner (o_core o)) ∧ is_writable (mode (o_core o)) = true.
Proof using Ho.
  rewrite (can_data_be_changed_eq b a o Ho). destruct (handle_is_writable b); [|by left; eexists].
  destruct (owns b a o) eqn:E; [|by left; eexists]. apply owns_true in E.
  destruct (is_writable (mode (o_core o))); [|by left; eexists]. by right.
Qed.

Lemma check_resize_cases n :
  (∃ e, check_resize (zlen (o_data o)) n a = (Err e, a)) ∨
  check_resize (zlen (o_data o)) n a = (Ok tt, a) ∧ n ≤ MAX_ACCOUNT_DATA_LEN ∧
  clamp 64 (resize_delta a + clamp 64 (swrap 64 n - swrap 64 (zlen (o_data o)))) ≤
    MAX_ACCOUNT_DATA_GROWTH_PER_TRANSACTION.
Proof using Type.
  unfold check_resize. destruct (Z.leb_spec n MAX_ACCOUNT_DATA_LEN) as [H1|]; [|by left; eexists].
  rewrite (op_bind_ok (ensure true _) _ _ tt _ eq_refl). cbv zeta.
  rewrite (op_bind_ok (read resize_delta) _ a _ _ eq_refl).
  destruct (Z.leb_spec (clamp 64 (resize_delta a + clamp 64 (swrap 64 n - swrap 64 (zlen (o_data o)))))
              MAX_ACCOUNT_DATA_GROWTH_PER_TRANSACTION); [|by left; eexists]. by right.
Qed.

Lemma can_data_be_resized_cases n :
  (∃ e, can_data_be_resized b n a = (Err e, a)) ∨
  can_data_be_resized b n a = (Ok tt, a) ∧ resizable n.
Proof using Ho.
  unfold can_data_be_resized. op_ok (get_data_eq b a o Ho). cbv zeta.
  assert (Htail : (n ≠ zlen (o_data o) → mode (o_core o) ≠ Magic) →
    (∃ e, (_ ← check_resize (zlen (o_data o)) n; can_data_be_changed b) a = (Err e, a)) ∨
    (_ ← check_resize (zlen (o_data o)) n; can_data_be_changed b) a = (Ok tt, a) ∧ resizable n).
  { intros Hm. destruct (check_resize_cases n) as [[e E]|(E & H1 & H2)].
    - left. exists e. by rewrite (op_bind_err _ _ _ _ _ E).
    - op_ok E. destruct can_data_be_changed_cases as [?|(E' & H3 & H4 & H5)]; [by left|].
      right. split; [done|]. constructor; auto. intros Hg.
      destruct (decide (n = zlen (o_data o))); [done|]. by destruct Hm. }
  destruct (Z.eqb_spec n (zlen (o_data o))) as [E|E].
  { rewrite (op_bind_ok (mret tt) _ _ tt a eq_refl). by apply Htail. }
  rewrite update_bind_assoc. op_ok (is_owned_eq b a o Ho). rewrite update_bind_assoc.
  op_check (owns b a o) by (by left; eexists).
  rewrite update_bind_assoc. op_ok (get_core_eq b a o Ho). case_bool_decide; cbn [negb].
  - left. eexists. apply op_bind_err. done.
  - rewrite (op_bind_ok (ensure true _) _ _ tt a eq_refl). apply Htail. done.
Qed.

(** Touch, account the new length, write. *)
Lemma resize_step n o' (write : Op TransactionAccounts unit) :
  resizable n → o_core o' = o_core o → zlen (o_data o') = n →
  (∀ a1, tidy a1 → states a1 !! handle_index b = Some o →
     ∃ a2, write a1 = (Ok tt, a2) ∧ updates (handle_index b) o' a1 a2) →
  call_spec b a o ((_ ← handle_touch b; _ ← update_accounts_resize_delta b n; write) a).2.
Proof using Ht Ho.
  intros [R1 R2 R3 R4 R5 R6] Hcore Hn Hwr. op_ok (handle_touch_eq b a o Ht Ho).
  set (a1 := with_touched a _).
  assert (U1 : updates (handle_index b) o a a1)
    by (apply touched_updates; auto; by rewrite length_insert).
  assert (H1 : states a1 !! handle_index b = Some o) by by eapply updates_lookup.
  unfold update_accounts_resize_delta. rewrite update_bind_assoc. op_ok (get_data_eq b a1 o H1).
  set (d := clamp 64 (resize_delta a + clamp 64 (swrap 64 n - swrap 64 (zlen (o_data o))))).
  rewrite (op_bind_ok (update_resize_delta _ n) _ a1 tt (with_deltas a1 d (lamports_delta a)) eq_refl).
  set (a2 := with_deltas a1 d _).
  assert (T2 : tidy a2) by (destruct (up_tidy _ _ _ _ U1); by constructor).
  destruct (Hwr a2 T2 H1) as (a3 & E3 & [V1 V2 V3 V4 V5 V6]). rewrite E3. cbn [snd].
  exists o'. split.
  - constructor; [done|done|done|done| | |].
    + rewrite Hcore, Z.sub_diag, Z.add_0_r. done.
    + right. rewrite V5, Hn. by split_and!.
    + unfold words_ok. by rewrite Hcore.
  - rewrite R3, R4. constructor; rewrite ?Hcore; try done; try lia.
    + intros [?|?]; congruence.
    + intros Hm. rewrite Hn. auto.
Qed.

Lemma set_data_call data : call_spec b a o (bia_set_data_from_slice b data a).2.
Proof using Ht Ho.
  unfold bia_set_data_from_slice.
  destruct (can_data_be_resized_cases (zlen data)) as [[e E]|[E Hr]];
    [rewrite (op_bind_err _ _ _ _ _ E); failed|]. op_ok E.
  apply (resize_step (zlen data) (with_data o data) _ Hr); [done|done|].
  intros a1 T1 H1. apply (update_account_spec b a1 o); [done|done|].
  intros m s Hw <-. apply touch_then; [done|done|]. intros m' s' Hp <-. by apply cow_set_spec.
Qed.

Lemma set_length_call n : 0 ≤ n → call_spec b a o (bia_set_data_length b n a).2.
Proof using Ht Ho.
  intros Hn. unfold bia_set_data_length.
  destruct (can_data_be_resized_cases n) as [[e E]|[E Hr]];
    [rewrite (op_bind_err _ _ _ _ _ E); failed|]. op_ok E. op_ok (get_data_eq b a o Ho).
  case_match; [failed|].
  apply (resize_step n (with_data o (resize (Z.to_nat n) 0 (o_data o))) _ Hr); [done| |].
  - simpl. unfold zlen. rewrite length_resize. lia.
  - intros a1 T1 H1. apply (update_account_spec b a1 o); [done|done|]. intros m s Hw <-. by apply resize_data_spec.
Qed.

Lemma extend_call data : call_spec b a o (bia_extend_from_slice b data a).2.
Proof using Ht Ho.
  unfold bia_extend_from_slice. op_ok (get_data_eq b a o Ho). cbv zeta.
  set (n := saturating_add 64 _ _).
  destruct (can_data_be_resized_cases n) as [[e E]|[E Hr]];
    [rewrite (op_bind_err _ _ _ _ _ E); failed|]. op_ok E. case_bool_decide; [failed|].
  apply (resize_step n (with_data o (o_data o ++ data)) _ Hr); [done| |].
  - destruct Hr as [Hm _ _ _ _ _]. simpl. unfold zlen in *. rewrite length_app.
    unfold n, saturating_add, umax, MAX_ACCOUNT_DATA_LEN in *. lia.
  - intros a1 T1 H1. destruct (make_data_mut_step b o a1 T1 H1) as (a2 & E2 & U2). op_ok E2.
    destruct (update_account_spec b a2 o (with_data o (o_data o ++ data))
      (λ m s, extend_from_slice m s data)) as (a3 & E3 & U3);
      [apply U2|by eapply updates_lookup|intros m s Hw <-; by apply extend_spec|].
    exists a3. split; [done|]. by eapply updates_trans.
Qed.

Lemma set_executable_call e : fits 8 (flags (o_core o)) → call_spec b a o (bia_set_executable b e a).2.
Proof using Ht Ho.
  intros Hfl. unfold bia_set_executable. op_ok (get_core_eq b a o Ho). op_ok (get_data_eq b a o Ho).
  op_check (rent_is_exempt (lamports (o_core o)) (zlen (o_data o))) by failed.
  op_ok (is_owned_eq b a o Ho). op_check (owns b a o && handle_is_writable b) by failed.
  case_match; [failed|].
  unfold mbind at 1, op_bind at 1. rewrite (check_mutable_eq b a o Ho).
  destruct (is_writable (mode (o_core o))) eqn:Em; [|failed].
  match goal with H : _ && _ = true |- _ => apply andb_true_iff in H as [Hown Hw] end.
  apply owns_true in Hown. set (v := set_flag (flags (o_core o)) EXECUTABLE e).
  destruct (touch_update b a o (put o (FFlags v)) (λ m s, set_executable m s e) Ht Ho) as (a' & -> & U).
  { intros m s Hws <-. unfold set_executable, set_flags. rewrite !core_of_owned. apply setter_spec; [done|done| |].
    - simpl. unfold v, set_flag, EXECUTABLE, fits in *. apply flag_fits. done.
    - intros E%Z.eqb_eq. unfold v. rewrite <- E. by destruct (owned m s) as [[] ?]. }
  exists (put o (FFlags v)). rewrite Hw.
  destruct (put_flags o v) as (F1 & F2 & F3 & F4 & F5 & F6 & F7).
  split.
  { apply updates_effect; [done|by rewrite F1|by rewrite F7|]. unfold words_ok. rewrite F1, F6.
    intros [? ?]. split; [done|by apply flag_fits]. }
  constructor; rewrite ?F1, ?F2, ?F3, ?F4, ?F5, ?F6, ?F7; try done; try lia.
  intros [?|?]; congruence.
Qed.

Lemma write_call offset bytes :
  0 ≤ offset → call_spec b a o (run_call b (CWrite offset bytes) a).2.
Proof using Ht Ho.
  intros H0. simpl. unfold bia_get_data_mut. rewrite update_bind_assoc.
  destruct can_data_be_changed_cases as [[e E]|(E & R1 & R2 & R3)];
    [rewrite (op_bind_err _ _ _ _ _ E); failed|]. op_ok E. rewrite update_bind_assoc.
  op_ok (handle_touch_eq b a o Ht Ho). set (a1 := with_touched a _).
  assert (U1 : updates (handle_index b) o a a1)
    by (apply touched_updates; auto; by rewrite length_insert).
  assert (H1 : states a1 !! handle_index b = Some o) by by eapply updates_lookup.
  rewrite update_bind_assoc. destruct (make_data_mut_step b o a1 (up_tidy _ _ _ _ U1) H1) as (a2 & E2 & U2).
  op_ok E2. pose proof (updates_lookup _ _ _ _ _ U2 H1) as H2.
  destruct (update_account_spec b a2 o o (λ m s, touch m s DATA)) as (a3 & E3 & U3);
    [apply U2|done|intros m s Hw <-; by apply touch_spec|].
  pose proof (updates_trans _ _ _ _ _ _ U1 (updates_trans _ _ _ _ _ _ U2 U3)) as U.
  destruct (Z.leb_spec (offset + zlen bytes) (zlen (o_data o))) as [Hr|Hr].
  - assert (Ew : (_ ← update_account b (λ m s, touch m s DATA); write_within b offset bytes) a2 =
                 update_account b (λ m s, write_data m s offset bytes) a2).
    { unfold write_data. rewrite <- (update_fuse b (λ m s, touch m s DATA)
        (λ m s, with_cow s (cow_copy_at m (cow s) offset bytes))).
      op_ok E3. op_ok E3. unfold write_within. op_ok (get_data_eq b a3 o (updates_lookup _ _ _ _ _ U3 H2)).
      destruct (Z.leb_spec (offset + zlen bytes) (zlen (o_data o))); [done|lia]. }
    rewrite Ew. set (d := o_data o). set (k := Z.to_nat offset).
    set (o' := with_data o (take k d ++ bytes ++ drop (k + length bytes) d)).
    destruct (update_account_spec b a2 o o' (λ m s, write_data m s offset bytes)) as (a4 & -> & U4);
      [apply U2|done| |].
    { intros m s Hw Es. unfold o', d, k. rewrite <- Es. apply write_data_spec; [done|done|]. by rewrite Es. }
    pose proof (updates_trans _ _ _ _ _ _ U1 (updates_trans _ _ _ _ _ _ U2 U4)) as V.
    assert (Hz : zlen (o_data o') = zlen (o_data o)).
    { unfold o', d, k, zlen in *. simpl. rewrite !length_app, length_take, length_drop. lia. }
    exists o'. split; [by apply updates_effect|]. rewrite R1, R2.
    constructor; try done; try lia. intros [?|?]; congruence.
  - op_ok E3. unfold write_within. op_ok (get_data_eq b a3 o (updates_lookup _ _ _ _ _ U3 H2)).
    destruct (Z.leb_spec (offset + zlen bytes) (zlen (o_data o))); [lia|].
    exists o. split; [by apply updates_effect|apply permit_refl].
Qed.

Lemma run_call_spec c :
  call_ok c → words_ok o → call_spec b a o (run_call b c a).2.
Proof using Ht Ho.
  intros Hc [Hl Hf]. destruct c; simpl run_call; simpl in Hc;
    auto using set_owner_call, set_lamports_call, write_call, set_data_call, set_length_call,
      extend_call, set_executable_call.
  - by apply (checked_lamports_call (CAddLamports v)).
  - by apply (checked_lamports_call (CSubLamports v)).
  - by apply (write_call offset bytes).
Qed.

End specs.
