(* ===== verification/CtxRun.v ===== *)
(** * Running instructions

    Sequences of the operations of a transaction context, and that they keep the accounts
    tidy and the running deltas exact. *)

From stdpp Require Import base list numbers option.
From S2P Require Import Prelude Effects Memory AccountMode Account AccountFacts CtxAccounts CtxInstruction CtxStack CtxOps.

Local Open Scope Z_scope.

(** ** Sums over accounts *)

Definition sum_of {A} (f : A → Z) (l : list A) : Z := foldr (λ x n, f x + n) 0 l.

Lemma sum_of_insert {A} (f : A → Z) l i x y :
  l !! i = Some x → sum_of f (<[i := y]> l) = sum_of f l + (f y - f x).
Proof.
  revert i. induction l as [|z l IH]; intros [|i]; simpl; intros H; [done|done| |].
  - injection H as ->. lia.
  - rewrite (IH i) by done. lia.
Qed.

Definition total_lamports (a : TransactionAccounts) : Z :=
  sum_of (λ o, lamports (o_core o)) (states a).
Definition total_data (a : TransactionAccounts) : Z := sum_of (λ o, zlen (o_data o)) (states a).

(** ** Accounting

    [accounted a0 a]: between [a0] and [a] every change of a balance and of a length went
    through the deltas. *)

Record accounted (a0 a : TransactionAccounts) : Prop := {
  ac_tidy : tidy a;
  ac_keys : (accounts a).*1 = (accounts a0).*1;
  ac_words : Forall words_ok (states a);
  ac_lamports : total_lamports a - total_lamports a0 = lamports_delta a - lamports_delta a0;
}.

Lemma accounted_effect a0 a a' i o o' :
  accounted a0 a → states a !! i = Some o → effect i o o' a a' → accounted a0 a'.
Proof.
  intros [A1 A2 A4 A5] Hi [E1 E2 E3 E4 E5 _ E7]. constructor; try congruence.
  - rewrite E4. apply Forall_insert; [done|]. apply E7. by eapply Forall_lookup in A4.
  - unfold total_lamports in *. rewrite E4, (sum_of_insert _ _ _ o) by done. lia.
Qed.

(** ** Lengths

    With at most 256 accounts of legal size the signed arithmetic does not saturate. *)

Record measured (a0 a : TransactionAccounts) : Prop := {
  me_count : zlen (states a) ≤ 256;
  me_sizes : Forall (λ o, zlen (o_data o) ≤ MAX_ACCOUNT_DATA_LEN) (states a);
  me_total0 : 0 ≤ total_data a0 ≤ 256 * MAX_ACCOUNT_DATA_LEN;
  me_delta : resize_delta a = total_data a - total_data a0;
  me_growth : resize_delta a ≤ MAX_ACCOUNT_DATA_GROWTH_PER_TRANSACTION;
}.

Lemma total_bounds l :
  Forall (λ o, zlen (o_data o) ≤ MAX_ACCOUNT_DATA_LEN) l →
  0 ≤ sum_of (λ o, zlen (o_data o)) l ≤ zlen l * MAX_ACCOUNT_DATA_LEN.
Proof.
  induction 1 as [|o l Ho _ IH]; simpl; [done|]. pose proof (zlen_nonneg (o_data o)).
  assert (zlen (o :: l) = 1 + zlen l) as -> by (unfold zlen; simpl; lia). lia.
Qed.

Lemma clamp_small w x : - 2 ^ (w - 1) ≤ x < 2 ^ (w - 1) → clamp w x = x.
Proof. unfold clamp. lia. Qed.

Lemma measured_effect a0 a a' i o o' :
  measured a0 a → states a !! i = Some o → effect i o o' a a' → measured a0 a'.
Proof.
  intros [M1 M2 M3 M4 M5] Hi [E1 E2 E3 E4 E5 E6 E7].
  assert (Ho : zlen (o_data o) ≤ MAX_ACCOUNT_DATA_LEN) by by eapply Forall_lookup in M2.
  pose proof (zlen_nonneg (o_data o)). pose proof (zlen_nonneg (o_data o')).
  pose proof (total_bounds _ M2) as Hb. fold (total_data a) in Hb. unfold MAX_ACCOUNT_DATA_LEN in *.
  assert (Ht : total_data a' = total_data a + (zlen (o_data o') - zlen (o_data o)))
    by (unfold total_data; by rewrite E4, (sum_of_insert _ _ _ o)).
  assert (Hd : resize_delta a' = resize_delta a + (zlen (o_data o') - zlen (o_data o)) ∧
               zlen (o_data o') ≤ 10 * 1024 * 1024 ∧
               resize_delta a' ≤ MAX_ACCOUNT_DATA_GROWTH_PER_TRANSACTION).
  { destruct E6 as [[E6 E8]|(E6 & E8 & E9)]; [rewrite E6, E8; lia|]. split; [|done].
    rewrite E6. rewrite !swrap_small by (try lia; unfold sfits; change (64 - 1) with 63; lia).
    rewrite (clamp_small 64 (zlen (o_data o') - zlen (o_data o))) by (change (64 - 1) with 63; lia).
    rewrite clamp_small by (change (64 - 1) with 63; lia). done. }
  destruct Hd as (Hd & Hs & Hg). constructor; try done.
  - rewrite E4. unfold zlen in *. by rewrite length_insert.
  - rewrite E4. by apply Forall_insert.
  - lia.
Qed.

(** ** Borrowing for the time of an operation *)

Lemma borrow_mut_inv index a i a1 :
  try_borrow_mut index a = (Ok i, a1) →
  i = index ∧ borrow_counters a !! Z.to_nat index = Some 0 ∧
  a1 = with_counters a (<[Z.to_nat index := -1]> (borrow_counters a)).
Proof.
  unfold try_borrow_mut, borrow_with. destruct (borrow_counters a !! Z.to_nat index) as [c|] eqn:E; [|done].
  unfold counter_try_borrow_mut, is_writing, is_reading.
  destruct (Z.ltb_spec c 0); [done|]. destruct (Z.ltb_spec 0 c); [done|]. simpl.
  intros [= <- <-]. assert (c = 0) as -> by lia. done.
Qed.

Lemma borrow_mut_err index a e a1 : try_borrow_mut index a = (Err e, a1) → a1 = a.
Proof.
  unfold try_borrow_mut, borrow_with. destruct (borrow_counters a !! Z.to_nat index) as [c|]; [|congruence].
  destruct (counter_try_borrow_mut c); congruence.
Qed.

(** Dropping the borrow gives the counters back. *)
Lemma drop_after_borrow index a a2 :
  borrow_counters a !! Z.to_nat index = Some 0 →
  borrow_counters a2 = <[Z.to_nat index := -1]> (borrow_counters a) →
  drop_ref_mut index a2 = with_counters a2 (borrow_counters a).
Proof.
  intros H0 H2. unfold drop_ref_mut, drop_with. f_equal. rewrite H2.
  assert (Hl : (Z.to_nat index < length (borrow_counters a))%nat) by by eapply lookup_lt_Some.
  apply list_eq. intros j. destruct (decide (j = Z.to_nat index)) as [->|Hj].
  - rewrite list_lookup_alter_eq, list_lookup_insert_eq by done. simpl. by rewrite H0.
  - rewrite list_lookup_alter_ne, list_lookup_insert_ne by done. done.
Qed.

Lemma tidy_with_counters a c : tidy a → length c = length (borrow_counters a) → tidy (with_counters a c).
Proof. intros [H1 H2 H3] Hc. constructor; simpl; [done|done|congruence]. Qed.

(** An effect on borrowed accounts is one on the accounts before and after the borrow. *)
Lemma effect_counters i o o' a c a2 :
  effect i o o' (with_counters a c) a2 → length c = length (borrow_counters a) →
  effect i o o' a (with_counters a2 (borrow_counters a)).
Proof.
  intros [[T1 T2 T3] E2 E3 E4 E5 E6 E7] Hc. simpl in *. constructor; simpl; auto.
  constructor; simpl; auto. rewrite <- T3, E3. done.
Qed.

(** ** Instructions *)

Section run.
Context `{RR : !RentRules} `{IS : !InstructionsSysvar}.

Lemma states_with_counters a c : states (with_counters a c) = states a.
Proof using Type. done. Qed.

Lemma states_in_range a i : tidy a → (i < length (borrow_counters a))%nat → ∃ o, states a !! i = Some o.
Proof using Type.
  intros [_ _ H] Hi. apply lookup_lt_is_Some. unfold states. rewrite !length_fmap. lia.
Qed.

Section invariant.
(** An invariant that effects on the accounts with an index in [J] keep. *)
Context (J : nat → Prop) (P : TransactionAccounts → Prop).
Hypothesis HP : ∀ a a' i o o', J i → P a → states a !! i = Some o → effect i o o' a a' → P a'.
Hypothesis HC : ∀ a c, length c = length (borrow_counters a) → P a → P (with_counters a c).

(** The operations that borrow an account for their own time give the borrow back. *)
Definition keeps (a a' : TransactionAccounts) : Prop :=
  P a' ∧ borrow_counters a' = borrow_counters a.

Lemma updates_invariant a a' i o : J i → P a → states a !! i = Some o → updates i o a a' → P a'.
Proof using HP. intros Hi Ha Ho Hu. eapply (HP a a' i o o); [done|done|done|]. by apply updates_effect. Qed.

Lemma account_touch_eq b a o :
  tidy a → states a !! handle_index b = Some o →
  ∃ a1, account_touch (index_in_transaction (instruction_account b)) a = (Ok tt, a1) ∧
    updates (handle_index b) o a a1.
Proof using Type.
  intros Ht Ho. eexists. split; [exact (handle_touch_eq b a o Ht Ho)|].
  apply touched_updates; auto. by rewrite length_insert.
Qed.

(** Under a borrow, and back. *)
Lemma borrowed_invariant index a i a1 a2 :
  try_borrow_mut index a = (Ok i, a1) → P a →
  (P a1 → keeps a1 a2) → keeps a (drop_ref_mut index a2).
Proof using HC.
  intros (-> & H0 & ->)%borrow_mut_inv Ha H2. destruct H2 as [H2 Hc].
  { apply HC; [by rewrite length_insert|done]. }
  rewrite (drop_after_borrow _ a) by done. split; [|done]. apply HC; [|done].
  rewrite Hc. simpl. by rewrite length_insert.
Qed.

Lemma probe_invariant index a : P a → keeps a (probe_program index a).2.
Proof using HC.
  intros Ha. unfold probe_program. destruct (try_borrow_mut index a) as [[i|e] a1] eqn:E.
  - apply (borrowed_invariant index a i a1); [done|done|]. done.
  - by apply borrow_mut_err in E as ->.
Qed.

Hypothesis HT : ∀ a, P a → tidy a.

Lemma borrowed_lookup index a i a1 b :
  try_borrow_mut index a = (Ok i, a1) → P a → handle_index b = Z.to_nat index →
  ∃ o, states a1 !! handle_index b = Some o ∧ tidy a1.
Proof using HT.
  intros (-> & H0 & ->)%borrow_mut_inv Ha Hb. pose proof (HT a Ha) as Ht.
  destruct (states_in_range a (handle_index b) Ht) as [o Ho].
  { rewrite Hb. by eapply lookup_lt_Some. }
  exists o. split; [done|]. apply tidy_with_counters; [done|by rewrite length_insert].
Qed.

Lemma store_index_invariant index current a :
  J (Z.to_nat index) → P a → keeps a (store_index index current a).2.
Proof using HP HC HT.
  intros Hi Ha. unfold store_index. destruct (try_borrow_mut index a) as [[i|e] a1] eqn:E;
    [|by apply borrow_mut_err in E as ->].
  set (b := {| instruction_account := _; program_index := _ |}).
  destruct (borrowed_lookup index a i a1 b E Ha eq_refl) as (o & Ho & Ht).
  match goal with |- context [let '(r, a) := ?body a1 in _] => set (prog := body) end.
  assert (Hbody : P a1 → keeps a1 (prog a1).2).
  { intros H1. unfold prog. op_ok (get_core_eq b a1 o Ho).
    op_check (bool_decide (owner (o_core o) = SYSVAR_ID)) by done.
    destruct (update_account_spec b a1 o o (λ m s, touch m s DATA)) as (a2 & E2 & U2);
      [done|done|intros m s Hw <-; by apply touch_spec|]. op_ok E2.
    pose proof (updates_lookup _ _ _ _ _ U2 Ho) as H2. op_ok (get_data_eq b a2 o H2).
    assert (P2 : P a2) by by eapply updates_invariant.
    destruct (store_current_index_checked (o_data o) (wrap 16 current)) as [d|e] eqn:Es.
    2: { rewrite (op_bind_err (lift _) _ _ _ _ eq_refl). split; [done|apply U2]. }
    rewrite (op_bind_ok (lift _) _ _ _ _ eq_refl). apply store_current_index_length in Es.
    assert (Ew : write_slice b 0 d a2 = update_account b (λ m s, write_data m s 0 d) a1).
    { unfold write_data, write_slice. rewrite <- (update_fuse b (λ m s, touch m s DATA)
        (λ m s, with_cow s (cow_copy_at m (cow s) 0 d))). by op_ok E2. }
    rewrite Ew. destruct (update_account_spec b a1 o (with_data o (d ++ drop (length d) (o_data o)))
      (λ m s, write_data m s 0 d)) as (a3 & -> & U3); [done|done| |].
    { intros m s Hw Eo. rewrite <- Eo. apply write_data_spec; [done|done|]. rewrite Eo. unfold zlen. lia. }
    split; [|apply U3]. eapply (HP a1 a3 _ o); [exact Hi|done|done|]. apply updates_effect; [done|done| |done].
    simpl. unfold zlen. rewrite length_app, length_drop. lia. }
  destruct (prog a1) as [r a2]. by apply (borrowed_invariant index a i a1).
Qed.

(** The resize of the handler, after its touch. *)
Lemma fault_resize b a o n :
  tidy a → states a !! handle_index b = Some o → 0 ≤ n → n ≤ MAX_ACCOUNT_DATA_LEN →
  clamp 64 (resize_delta a + clamp 64 (swrap 64 n - swrap 64 (zlen (o_data o)))) ≤
    MAX_ACCOUNT_DATA_GROWTH_PER_TRANSACTION →
  ∃ a', (_ ← update_resize_delta (zlen (o_data o)) n; update_account b (λ m s, resize_data m s n 0)) a =
        (Ok tt, a') ∧
    effect (handle_index b) o (with_data o (resize (Z.to_nat n) 0 (o_data o))) a a'.
Proof using Type.
  intros Ht Ho Hn0 Hn Hg.
  set (d := clamp 64 (resize_delta a + clamp 64 (swrap 64 n - swrap 64 (zlen (o_data o))))) in *.
  rewrite (op_bind_ok (update_resize_delta _ n) _ a tt (with_deltas a d (lamports_delta a)) eq_refl).
  set (a1 := with_deltas a d _). set (o' := with_data o (resize (Z.to_nat n) 0 (o_data o))).
  assert (T1 : tidy a1) by (destruct Ht; by constructor).
  destruct (update_account_spec b a1 o o' (λ m s, resize_data m s n 0)) as (a2 & E2 & [U1 U2 U3 U4 U5 U6]);
    [done|done|intros m s Hw Eo; unfold o'; rewrite <- Eo; by apply resize_data_spec|].
  exists a2. split; [done|]. assert (Hz : zlen (o_data o') = n)
    by (unfold o', zlen; simpl; rewrite length_resize; lia).
  constructor; try done.
  - simpl. rewrite U6. simpl. lia.
  - right. by rewrite Hz, U5.
Qed.

(** What the handler does to a borrowed account. *)
Lemma fault_body_invariant b a o (len requested : Z) :
  let body : Op TransactionAccounts Z :=
    _ ← account_touch (index_in_transaction (instruction_account b));
    data ← get_data b;
    core ← get_core b;
    _ ← (if len <? requested then
           _ ← ensure (requested <=? MAX_ACCOUNT_DATA_LEN) InvalidRealloc;
           _ ← check_resize (zlen data) requested;
           _ ← ensure (negb (bool_decide (mode core = Magic))) InvalidRealloc;
           _ ← update_resize_delta (zlen data) requested;
           update_account b (λ m s, resize_data m s requested 0)
         else mret tt);
    _ ← update_account b (λ m s, touch m s DATA);
    data ← get_data b;
    mret (zlen data) in
  J (handle_index b) → tidy a → states a !! handle_index b = Some o → 0 ≤ requested → P a →
  keeps a (body a).2.
Proof using HP.
  intros body Hi Ht Ho Hr Ha. unfold body.
  destruct (account_touch_eq b a o Ht Ho) as (a1 & E1 & U1). op_ok E1.
  pose proof (updates_lookup _ _ _ _ _ U1 Ho) as H1. pose proof (up_tidy _ _ _ _ U1) as T1.
  assert (P1 : P a1) by by eapply updates_invariant.
  assert (Hfail : P a1 ∧ borrow_counters a1 = borrow_counters a) by (split; [done|apply U1]).
  op_ok (get_data_eq b a1 o H1). op_ok (get_core_eq b a1 o H1).
  assert (Hend : ∀ a2 o2, tidy a2 → states a2 !! handle_index b = Some o2 → P a2 →
    borrow_counters a2 = borrow_counters a →
    let r := (_ ← update_account b (λ m s, touch m s DATA); data ← get_data b; mret (zlen data)) a2 in
    P r.2 ∧ borrow_counters r.2 = borrow_counters a).
  { intros a2 o2 T2 H2 P2 C2.
    destruct (update_account_spec b a2 o2 o2 (λ m s, touch m s DATA)) as (a3 & E3 & U3);
      [done|done|intros m s Hw <-; by apply touch_spec|]. op_ok E3.
    op_ok (get_data_eq b a3 o2 (updates_lookup _ _ _ _ _ U3 H2)). simpl.
    split; [by eapply updates_invariant|]. rewrite (up_counters _ _ _ _ U3). done. }
  destruct (len <? requested).
  2: { rewrite (op_bind_ok (mret tt) _ _ tt a1 eq_refl). apply (Hend a1 o); try done; apply Hfail. }
  rewrite !update_bind_assoc. op_check (requested <=? MAX_ACCOUNT_DATA_LEN) by exact Hfail.
  rewrite update_bind_assoc. destruct (check_resize_cases a1 o requested) as [[e Ec]|(Ec & C1 & C2)];
    [rewrite (op_bind_err _ _ _ _ _ Ec); exact Hfail|]. op_ok Ec.
  rewrite update_bind_assoc. op_check (negb (bool_decide (mode (o_core o) = Magic))) by exact Hfail.
  destruct (fault_resize b a1 o requested T1 H1 Hr C1 C2) as (a2 & E2 & Ef). op_ok E2.
  apply (Hend a2 (with_data o (resize (Z.to_nat requested) 0 (o_data o)))).
  - apply Ef.
  - rewrite (ef_states _ _ _ _ _ Ef). apply list_lookup_insert_eq. by eapply lookup_lt_Some.
  - by eapply HP.
  - rewrite (ef_counters _ _ _ _ _ Ef). apply Hfail.
Qed.

Lemma handler_invariant region reserved ty vm_addr len a :
  (∀ index, payload region = Some index → J (Z.to_nat index)) →
  P a → keeps a (access_violation_handler region reserved ty vm_addr len a).2.
Proof using HP HC HT.
  intros Hi Ha. unfold access_violation_handler. case_bool_decide; [done|].
  destruct (payload region) as [index|]; [|done]. cbv zeta. case_match; [done|].
  destruct (try_borrow_mut index a) as [[i|e] a1] eqn:E; [|by apply borrow_mut_err in E as ->].
  set (b := {| instruction_account := _; program_index := _ |}).
  destruct (borrowed_lookup index a i a1 b E Ha eq_refl) as (o & Ho & Ht).
  match goal with |- context [saturating_sub ?x ?y] => set (requested := saturating_sub x y) in * end.
  pose proof (fault_body_invariant b a1 o (region_len region) requested (Hi index eq_refl) Ht Ho
                ltac:(unfold requested, saturating_sub; lia)) as Hb. cbv zeta in Hb.
  match type of Hb with _ → keeps _ (?f a1).2 => set (body := f) in * end.
  match goal with |- context [match ?g a1 with _ => _ end] => change (g a1) with (body a1) end.
  destruct (body a1) as [[n|e] a2]; simpl in *; by apply (borrowed_invariant index a i a1).
Qed.

End invariant.

End run.
