(* ===== verification/CtxSession.v ===== *)
(** * Sessions: a context in use

    A session is a transaction context with the account handles that are open on it. Its
    actions are the operations programs, the runtime and the virtual machine perform, in any
    order and whatever they return. *)

From stdpp Require Import base list numbers option.
From S2P Require Import Prelude Effects Memory AccountMode Account AccountFacts CtxAccounts CtxInstruction CtxStack CtxOps CtxRun.

Local Open Scope Z_scope.

Record Session := {
  ctx : TransactionContext;
  held : list BorrowedInstructionAccount;
  shared : list Z;
}.

Definition state_of (s : Session) : TransactionAccounts := tx_accounts (ctx s).
Definition with_state (s : Session) (a : TransactionAccounts) : Session :=
  {| ctx := with_tx_accounts (ctx s) a; held := held s; shared := shared s |}.
Definition with_handles (s : Session) (l : list BorrowedInstructionAccount) (r : list Z) : Session :=
  {| ctx := ctx s; held := l; shared := r |}.

Inductive Action :=
| XConfigure (index program : Z) (accs : list InstructionAccount) (dedup data : list Z)
    (caller : option Z)
| XPush
| XPop
| XReturn (program_id : Pubkey) (data : list Z)
| XBorrow (i : Z)
| XCall (h : nat) (c : AccountCall)
| XDrop (h : nat)
| XShare (index : Z)
| XUnshare (h : nat)
| XFault (region : MemoryRegion) (reserved : Z) (ty : AccessType) (vm_addr len : Z).

Definition action_ok (x : Action) : Prop :=
  match x with XCall _ c => call_ok c | _ => True end.

(** Handles open on an account. *)
Definition count_at {A} (f : A → nat) (l : list A) (i : nat) : nat :=
  length (filter (λ x, f x = i) l).
Definition writers (s : Session) : nat → nat := count_at handle_index (held s).
Definition readers (s : Session) : nat → nat := count_at Z.to_nat (shared s).

Section count.
Context {A} (f : A → nat).

Lemma count_app l x i :
  count_at f (l ++ [x]) i = (count_at f l i + if decide (f x = i) then 1 else 0)%nat.
Proof using Type.
  unfold count_at. rewrite list.filter_app, length_app, list.filter_cons. by case_decide.
Qed.

Lemma count_delete l h x i :
  l !! h = Some x →
  count_at f l i = (count_at f (delete h l) i + if decide (f x = i) then 1 else 0)%nat.
Proof using Type.
  intros Hx. unfold count_at.
  rewrite (Permutation_length (filter_Permutation _ _ _ (delete_Permutation _ _ _ Hx))).
  rewrite list.filter_cons. case_decide; simpl; lia.
Qed.

End count.

Section session.
Context `{RR : !RentRules} `{IS : !InstructionsSysvar}.

Definition on_context (p : Op TransactionContext unit) (s : Session) : Session :=
  {| ctx := (p (ctx s)).2; held := held s; shared := shared s |}.

Definition borrow_account (i : Z) (s : Session) : Session :=
  match get_current_instruction_context (ctx s) with
  | Err _ => s
  | Ok ic =>
      match try_borrow_instruction_account ic i (state_of s) with
      | (Ok b, a) => with_handles (with_state s a) (held s ++ [b]) (shared s)
      | (Err _, a) => with_state s a
      end
  end.

Definition share_account (index : Z) (s : Session) : Session :=
  match try_borrow index (state_of s) with
  | (Ok k, a) => with_handles (with_state s a) (held s) (shared s ++ [k])
  | (Err _, a) => with_state s a
  end.

Definition act (s : Session) (x : Action) : Session :=
  match x with
  | XConfigure index program accs dedup data caller =>
      on_context (configure_instruction_at_index index program accs dedup data caller) s
  | XPush => on_context push s
  | XPop => on_context pop s
  | XReturn program_id data => on_context (set_return_data program_id data) s
  | XBorrow i => borrow_account i s
  | XCall h c =>
      match held s !! h with
      | Some b => with_state s (run_call b c (state_of s)).2
      | None => s
      end
  | XDrop h =>
      match held s !! h with
      | Some b =>
          with_handles
            (with_state s (drop_ref_mut (index_in_transaction (instruction_account b)) (state_of s)))
            (delete h (held s)) (shared s)
      | None => s
      end
  | XShare index => share_account index s
  | XUnshare h =>
      match shared s !! h with
      | Some k => with_handles (with_state s (drop_ref k (state_of s))) (held s) (delete h (shared s))
      | None => s
      end
  | XFault region reserved ty vm_addr len =>
      with_state s (access_violation_handler region reserved ty vm_addr len (state_of s)).2
  end.

Definition run (xs : list Action) (s : Session) : Session := foldl act s xs.

(** ** Borrow counters *)

(** The counter of an account counts its open handles. *)
Definition counted (s : Session) (i : nat) (c : Z) : Prop :=
  c = Z.of_nat (readers s i) - Z.of_nat (writers s i) ∧
  (writers s i = 0%nat ∧ Z.of_nat (readers s i) < 2 ^ 7 ∨ writers s i = 1%nat ∧ readers s i = 0%nat).

Definition balanced (s : Session) : Prop :=
  Forall (λ b, (handle_index b < length (borrow_counters (state_of s)))%nat) (held s) ∧
  ∀ i c, borrow_counters (state_of s) !! i = Some c → counted s i c.

Lemma balanced_counters s s' :
  held s' = held s → shared s' = shared s →
  borrow_counters (state_of s') = borrow_counters (state_of s) → balanced s → balanced s'.
Proof using Type.
  unfold balanced, counted, writers, readers. by intros -> -> ->.
Qed.

(** ** Invariants of sessions *)

(** [push] writes no account but the instructions sysvar. *)
Lemma push_keeps_at (J : nat → Prop) (P : TransactionAccounts → Prop) c :
  (∀ a a' i o o', J i → P a → states a !! i = Some o → effect i o o' a a' → P a') →
  (∀ a c, length c = length (borrow_counters a) → P a → P (with_counters a c)) →
  (∀ a, P a → tidy a) →
  (∀ i, find_index_of_account (tx_accounts c) INSTRUCTIONS_ID = Some i → J (Z.to_nat i)) →
  P (tx_accounts c) → keeps P (tx_accounts c) (tx_accounts (push c).2).
Proof using Type.
  intros HP HC HT Hi Hc. unfold push. cbv zeta. case_match; [done|]. case_match; [done|]. case_match; [done|].
  destruct (list.last (instruction_trace c)) as [f|]; [|done].
  match goal with |- context [let '(p, q) := ?x in _] => destruct x as [[tf next] current] end.
  case_match; [done|]. simpl. destruct (find_index_of_account _ _) as [i|]; [|done].
  unfold on_accounts. simpl.
  pose proof (store_index_invariant J P HP HC HT i current _ (Hi i eq_refl) Hc) as Hs.
  by destruct (store_index i current (tx_accounts c)).
Qed.

Section invariant.
Context (P : TransactionAccounts → Prop).
Hypothesis HP : ∀ a a' i o o', P a → states a !! i = Some o → effect i o o' a a' → P a'.
Hypothesis HC : ∀ a c, length c = length (borrow_counters a) → P a → P (with_counters a c).
Hypothesis HT : ∀ a, P a → tidy a ∧ Forall words_ok (states a).

Lemma push_keeps c : P (tx_accounts c) → keeps P (tx_accounts c) (tx_accounts (push c).2).
Proof using HP HC HT.
  apply (push_keeps_at (λ _, True)); [|done|intros a Ha; by apply HT|done].
  intros a a' i o o' _. apply HP.
Qed.

Lemma pop_keeps c : P (tx_accounts c) → keeps P (tx_accounts c) (tx_accounts (pop c).2).
Proof using HC.
  intros Hc. unfold pop. case_bool_decide; [done|]. cbv zeta.
  match goal with |- context [let '(u, v) := ?x in _] =>
    assert (keeps P (tx_accounts c) (tx_accounts x.2)) as Hx; [|destruct x as [r c1]; simpl in Hx] end.
  - unfold mbind, op_bind, lift.
    destruct (get_current_instruction_context c) as [ic|]; [|done].
    destruct (get_index_of_program_account_in_transaction ic) as [p|]; [|done].
    unfold on_accounts. pose proof (probe_invariant P HC p _ Hc) as Hp.
    destruct (probe_program p (tx_accounts c)) as [[] a]; done.
  - by destruct r as [[]|].
Qed.

Definition safe_session (s : Session) : Prop := P (state_of s) ∧ balanced s.

Lemma keeps_session s s' :
  held s' = held s → shared s' = shared s → keeps P (state_of s) (state_of s') →
  safe_session s → safe_session s'.
Proof using Type.
  intros Hh Hr [Hp Hc] [_ Hb]. split; [done|]. by eapply balanced_counters.
Qed.

Lemma context_keeps s p :
  (P (state_of s) → keeps P (state_of s) (tx_accounts (p (ctx s)).2)) →
  safe_session s → safe_session (on_context p s).
Proof using Type. intros Hp Hs. apply (keeps_session s); [done|done| |done]. apply Hp, Hs. Qed.

Lemma borrow_safe s i : safe_session s → safe_session (borrow_account i s).
Proof using HC.
  intros Hs. pose proof Hs as [Hp [Hr Hb]]. unfold borrow_account.
  destruct (get_current_instruction_context (ctx s)) as [ic|]; [|by apply (keeps_session s)].
  unfold try_borrow_instruction_account, mbind, op_bind, lift.
  destruct (ic_accounts ic !! Z.to_nat i) as [ia|]; [|by apply (keeps_session s)].
  simpl. destruct (try_borrow_mut (index_in_transaction ia) (state_of s)) as [[x|e] a1] eqn:E;
    [|apply borrow_mut_err in E as ->; by apply (keeps_session s)].
  apply borrow_mut_inv in E as (-> & H0 & ->). set (b := {| instruction_account := ia; program_index := _ |}).
  split; [apply HC; [by rewrite length_insert|done]|]. split; simpl.
  - rewrite length_insert. apply Forall_app. split; [done|]. repeat constructor.
    by eapply lookup_lt_Some.
  - intros j c Hj. destruct (Hb _ _ H0) as [H1 H2]. unfold counted, writers. cbn [held with_handles].
    rewrite count_app. fold (writers s). destruct (decide (handle_index b = j)) as [<-|Hn].
    + change (Z.to_nat _) with (handle_index b) in *.
      rewrite list_lookup_insert_eq in Hj by by eapply lookup_lt_Some. injection Hj as <-.
      unfold readers in *. cbn [shared with_handles]. lia.
    + rewrite list_lookup_insert_ne in Hj by done. destruct (Hb _ _ Hj) as [H3 H4].
      unfold readers in *. cbn [shared with_handles]. lia.
Qed.

Lemma share_safe s index : safe_session s → safe_session (share_account index s).
Proof using HC.
  intros Hs. pose proof Hs as [Hp [Hr Hb]]. unfold share_account, try_borrow, borrow_with.
  destruct (borrow_counters (state_of s) !! Z.to_nat index) as [c0|] eqn:E0; [|by apply (keeps_session s)].
  unfold counter_try_borrow, is_writing. destruct (Z.ltb_spec c0 0); [by apply (keeps_session s)|].
  destruct (Z.ltb_spec (c0 + 1) (2 ^ 7)); [|by apply (keeps_session s)].
  split; [apply HC; [by rewrite length_insert|done]|]. split; simpl; [by rewrite length_insert|].
  intros j c Hj. destruct (Hb _ _ E0) as [H1 H2]. unfold counted, readers. cbn [shared with_handles].
  rewrite count_app. fold (readers s). destruct (decide (Z.to_nat index = j)) as [<-|Hn].
  - rewrite list_lookup_insert_eq in Hj by by eapply lookup_lt_Some. injection Hj as <-.
    unfold writers in *. cbn [held with_handles]. lia.
  - rewrite list_lookup_insert_ne in Hj by done. destruct (Hb _ _ Hj) as [H3 H4].
    unfold writers in *. cbn [held with_handles]. lia.
Qed.

Lemma drop_safe s h : safe_session s → safe_session (act s (XDrop h)).
Proof using HC.
  intros Hs. pose proof Hs as [Hp [Hr Hb]]. simpl. destruct (held s !! h) as [b|] eqn:Eh; [|by apply (keeps_session s)].
  split; [apply HC; [by rewrite length_alter|done]|]. split; simpl.
  { rewrite length_alter. by apply list.Forall_delete. }
  intros j c Hj. unfold counted, writers. cbn [held with_handles].
  pose proof (count_delete handle_index _ _ _ j Eh) as Hd. fold (writers s j) in Hd.
  change (Z.to_nat _) with (handle_index b) in Hj. destruct (decide (handle_index b = j)) as [<-|Hn].
  - rewrite list_lookup_alter_eq in Hj. apply fmap_Some in Hj as (c0 & Hc0 & ->).
    destruct (Hb _ _ Hc0) as [H1 H2]. unfold readers in *. cbn [shared with_handles].
    unfold release_borrow_mut, clamp. lia.
  - rewrite list_lookup_alter_ne in Hj by done. destruct (Hb _ _ Hj) as [H1 H2].
    unfold readers in *. cbn [shared with_handles]. lia.
Qed.

Lemma unshare_safe s h : safe_session s → safe_session (act s (XUnshare h)).
Proof using HC.
  intros Hs. pose proof Hs as [Hp [Hr Hb]]. simpl. destruct (shared s !! h) as [k|] eqn:Eh; [|by apply (keeps_session s)].
  split; [apply HC; [by rewrite length_alter|done]|]. split; simpl; [by rewrite length_alter|].
  intros j c Hj. unfold counted, readers. cbn [shared with_handles].
  pose proof (count_delete Z.to_nat _ _ _ j Eh) as Hd. fold (readers s j) in Hd.
  destruct (decide (Z.to_nat k = j)) as [<-|Hn].
  - rewrite list_lookup_alter_eq in Hj. apply fmap_Some in Hj as (c0 & Hc0 & ->).
    destruct (Hb _ _ Hc0) as [H1 H2]. unfold writers in *. cbn [held with_handles].
    unfold release_borrow, clamp. lia.
  - rewrite list_lookup_alter_ne in Hj by done. destruct (Hb _ _ Hj) as [H1 H2].
    unfold writers in *. cbn [held with_handles]. lia.
Qed.

(** An open handle reaches a state, and a call changes it as its specification says. *)
Lemma held_lookup s h b :
  safe_session s → held s !! h = Some b →
  ∃ o, states (state_of s) !! handle_index b = Some o ∧ words_ok o.
Proof using HT.
  intros [Hp [Hr _]] Hb. destruct (HT _ Hp) as [Ht Hw].
  destruct (states_in_range (state_of s) (handle_index b) Ht) as [o Ho].
  { by eapply Forall_lookup in Hr. }
  exists o. split; [done|]. by eapply Forall_lookup in Hw.
Qed.

Lemma call_safe s h c : call_ok c → safe_session s → safe_session (act s (XCall h c)).
Proof using HP HT.
  intros Hc Hs. simpl. destruct (held s !! h) as [b|] eqn:Eh; [|done].
  destruct (held_lookup s h b Hs Eh) as (o & Ho & Hw). destruct (HT _ (proj1 Hs)) as [Ht _].
  destruct (run_call_spec b _ o Ht Ho c Hc Hw) as (o' & He & _).
  apply (keeps_session s); [done|done| |done]. split; [|apply He]. eapply HP; [apply Hs|done|done].
Qed.

Lemma act_safe s x : action_ok x → safe_session s → safe_session (act s x).
Proof using HP HC HT.
  intros Hx Hs. destruct x; simpl in Hx.
  - apply context_keeps; [|done]. unfold configure_instruction_at_index. by case_match.
  - apply context_keeps; [|done]. apply push_keeps.
  - apply context_keeps; [|done]. apply pop_keeps.
  - by apply context_keeps.
  - by apply borrow_safe.
  - by apply call_safe.
  - by apply drop_safe.
  - by apply share_safe.
  - by apply unshare_safe.
  - apply (keeps_session s); [done|done| |done].
    apply (handler_invariant (λ _, True) P (λ a a' i o o' _, HP a a' i o o') HC); [|done|apply Hs].
    intros a Ha. by apply HT.
Qed.

Lemma run_safe xs s : Forall action_ok xs → safe_session s → safe_session (run xs s).
Proof using HP HC HT.
  intros Hxs. revert s. induction Hxs as [|x xs Hx _ IH]; intros s Hs; [done|].
  apply IH. by apply act_safe.
Qed.

End invariant.

End session.
