(* ===== verification/CtxTrace.v ===== *)
(** * The instruction stack and trace of a session

    The stack holds indices of the trace in increasing order, each frame knows its depth, and
    the calls between programs never take the room of the top-level instructions to come. *)

From stdpp Require Import base list numbers option sorting.
From S2P Require Import Prelude Effects Memory AccountMode Account CtxAccounts CtxInstruction CtxStack CtxOps CtxRun CtxSession.

Local Open Scope Z_scope.

(** The counters of a context for [n] top-level instructions. *)
Record counts (n : Z) (c : TransactionContext) : Prop := {
  co_trace : zlen (instruction_trace c) = next_top_level_instruction_index c +
               number_of_cpis_in_trace (transaction_frame c) + 1;
  co_total : total_number_of_instructions_in_trace (transaction_frame c) =
               n + number_of_cpis_in_trace (transaction_frame c);
  co_cpis : 0 ≤ number_of_cpis_in_trace (transaction_frame c) ≤ MAX_CPI_TRACE_LENGTH;
  co_next : 0 ≤ next_top_level_instruction_index c;
  co_length : zlen (instruction_trace c) - 1 ≤ instruction_trace_capacity c;
  co_room : n + number_of_cpis_in_trace (transaction_frame c) ≤ instruction_trace_capacity c;
}.

(** The stack against the trace. *)
Record stacked (c : TransactionContext) : Prop := {
  st_depth : zlen (instruction_stack c) ≤ instruction_stack_capacity c;
  st_order : StronglySorted Z.lt (instruction_stack c);
  st_frames k i : instruction_stack c !! k = Some i →
    0 ≤ i < zlen (instruction_trace c) - 1 ∧
    ∃ f, instruction_trace c !! Z.to_nat i = Some f ∧ nesting_level f = Z.of_nat k;
  st_current i : list.last (instruction_stack c) = Some i →
    current_executing_instruction (transaction_frame c) = i;
}.

(** What operations on the accounts and the results keep. *)
Definition same_trace (c c' : TransactionContext) : Prop :=
  instruction_stack_capacity c' = instruction_stack_capacity c ∧
  instruction_trace_capacity c' = instruction_trace_capacity c ∧
  instruction_stack c' = instruction_stack c ∧ instruction_trace c' = instruction_trace c ∧
  next_top_level_instruction_index c' = next_top_level_instruction_index c ∧
  total_number_of_instructions_in_trace (transaction_frame c') =
    total_number_of_instructions_in_trace (transaction_frame c) ∧
  number_of_cpis_in_trace (transaction_frame c') = number_of_cpis_in_trace (transaction_frame c) ∧
  current_executing_instruction (transaction_frame c') =
    current_executing_instruction (transaction_frame c).

Lemma same_counts n c c' : same_trace c c' → counts n c → counts n c'.
Proof.
  intros (E1 & E2 & E3 & E4 & E5 & E6 & E7 & E8) [C1 C2 C3 C4 C5 C6].
  constructor; rewrite ?E1, ?E2, ?E3, ?E4, ?E5, ?E6, ?E7, ?E8; done.
Qed.

Lemma same_stacked c c' : same_trace c c' → stacked c → stacked c'.
Proof.
  intros (E1 & E2 & E3 & E4 & E5 & E6 & E7 & E8) [S1 S2 S3 S4].
  constructor; [|..|intros k]; intros; rewrite ?E1, ?E2, ?E3, ?E4, ?E5, ?E6, ?E7, ?E8 in *; auto.
Qed.

Lemma sorted_snoc l (x : Z) :
  StronglySorted Z.lt l → (∀ k y, l !! k = Some y → y < x) → StronglySorted Z.lt (l ++ [x]).
Proof.
  intros Hl Hx. apply StronglySorted_app_2; [|done|repeat constructor].
  intros y z [k Hk]%list_elem_of_lookup ->%list_elem_of_singleton. by eapply Hx.
Qed.

Lemma removelast_snoc {A} (l : list A) x : removelast (l ++ [x]) = l.
Proof. by rewrite removelast_app, app_nil_r. Qed.

Lemma stack_snoc {A} (l : list A) : l ≠ [] → ∃ l' x, l = l' ++ [x].
Proof. intros Hl. destruct (exists_last Hl) as (l' & x & ->). by exists l', x. Qed.

Section trace.
Context `{IS : !InstructionsSysvar}.

(** The capacities the runtime gives fit the frames' 16 bits. *)
Definition small (n : Z) (c : TransactionContext) : Prop :=
  0 ≤ n ∧ n + MAX_CPI_TRACE_LENGTH < 2 ^ 16 ∧ instruction_trace_capacity c < 2 ^ 16 ∧
  0 < instruction_stack_capacity c ≤ 2 ^ 16.

(** What [push] leaves in the stack, the trace and the counters when it gets past its checks. *)
Lemma on_accounts_same {A} (p : Op TransactionAccounts A) c : same_trace c (on_accounts p c).2.
Proof using Type. unfold on_accounts. by destruct (p (tx_accounts c)). Qed.

(** The effects of [push] in two steps: the trace grows, then the stack. *)
Definition grown (c : TransactionContext) (f : InstructionFrame) : TransactionContext :=
  let cpi := negb (bool_decide (instruction_stack c = [])) in
  let tf := transaction_frame c in
  let trace := <[Z.to_nat (get_instruction_trace_length c) :=
                   with_level f (wrap 16 (get_instruction_stack_height c))]> (instruction_trace c) in
  with_stack c (instruction_stack c) (trace ++ [default_frame])
    (if cpi then with_counts tf (current_executing_instruction tf)
                   (saturating_add 16 (total_number_of_instructions_in_trace tf) 1)
                   (saturating_add 16 (number_of_cpis_in_trace tf) 1)
     else tf)
    (if cpi then next_top_level_instruction_index c
     else saturating_add 64 (next_top_level_instruction_index c) 1).

Definition entered (c : TransactionContext) (index : Z) : TransactionContext :=
  with_stack c (instruction_stack c ++ [index]) (instruction_trace c)
    (with_counts (transaction_frame c) (wrap 16 index)
       (total_number_of_instructions_in_trace (transaction_frame c))
       (number_of_cpis_in_trace (transaction_frame c)))
    (next_top_level_instruction_index c).

Lemma push_steps c f :
  let index := get_instruction_trace_length c in
  let tf := transaction_frame c in
  list.last (instruction_trace c) = Some f →
  index < instruction_trace_capacity c →
  (instruction_stack c ≠ [] → lamports_delta (tx_accounts c) = 0 ∧
     number_of_cpis_in_trace tf < MAX_CPI_TRACE_LENGTH ∧
     total_number_of_instructions_in_trace tf < instruction_trace_capacity c) →
  if decide (get_instruction_stack_height c < instruction_stack_capacity c)
  then same_trace (entered (grown c f) index) (push c).2
  else push c = (Err CallDepth, grown c f).
Proof using Type.
  intros index tf Hf Hi Hcpi. unfold push. fold index. fold tf. cbv zeta. rewrite Hf.
  destruct (Z.leb_spec (instruction_trace_capacity c) index); [lia|]. unfold grown. fold index tf.
  case_bool_decide as Hs; cbn [negb andb].
  - case_decide.
    + destruct (Z.leb_spec (instruction_stack_capacity c) (get_instruction_stack_height c)); [lia|].
      cbn [instruction_stack_capacity with_stack]. rewrite (proj2 (Z.leb_gt _ _)) by done.
      simpl. case_match; [|by repeat split].
      apply (on_accounts_same (store_index _ _)).
    + cbn [instruction_stack_capacity with_stack]. by rewrite (proj2 (Z.leb_le _ _)) by lia.
  - destruct (Hcpi Hs) as (Hz & Hn & Ht). rewrite Hz.
    destruct (Z.leb_spec MAX_CPI_TRACE_LENGTH (number_of_cpis_in_trace tf)); [lia|].
    destruct (Z.leb_spec (instruction_trace_capacity c) (total_number_of_instructions_in_trace tf)); [lia|].
    cbn [negb orb Z.eqb instruction_stack_capacity with_stack]. case_decide.
    + rewrite (proj2 (Z.leb_gt _ _)) by done. simpl. case_match; [|by repeat split].
      apply (on_accounts_same (store_index _ _)).
    + by rewrite (proj2 (Z.leb_le _ _)) by lia.
Qed.

(** [push] fails its checks and changes nothing, or takes the two steps. *)
Lemma push_cases c :
  (push c).2 = c ∨
  ∃ f, list.last (instruction_trace c) = Some f ∧
    get_instruction_trace_length c < instruction_trace_capacity c ∧
    (instruction_stack c ≠ [] → 
       number_of_cpis_in_trace (transaction_frame c) < MAX_CPI_TRACE_LENGTH ∧
       total_number_of_instructions_in_trace (transaction_frame c) < instruction_trace_capacity c) ∧
    (if decide (get_instruction_stack_height c < instruction_stack_capacity c)
     then same_trace (entered (grown c f) (get_instruction_trace_length c)) (push c).2
     else push c = (Err CallDepth, grown c f)).
Proof using Type.
  destruct (list.last (instruction_trace c)) as [f|] eqn:Hf.
  2: { left. unfold push. cbv zeta. rewrite Hf. by repeat case_match. }
  destruct (decide (get_instruction_trace_length c < instruction_trace_capacity c)) as [Hi|Hi].
  2: { left. unfold push. cbv zeta. case_match; [done|]. by rewrite (proj2 (Z.leb_le _ _)) by lia. }
  destruct (decide (instruction_stack c = [])) as [Hs|Hs].
  { right. exists f. split_and!; [done|done|done|]. by apply push_steps. }
  destruct (decide (lamports_delta (tx_accounts c) = 0)) as [Hz|Hz].
  2: { left. unfold push. cbv zeta. rewrite (bool_decide_eq_false_2 _ Hs).
       by rewrite (proj2 (Z.eqb_neq _ _)). }
  destruct (decide (number_of_cpis_in_trace (transaction_frame c) < MAX_CPI_TRACE_LENGTH ∧
    total_number_of_instructions_in_trace (transaction_frame c) < instruction_trace_capacity c)) as [Hg|Hg].
  { right. exists f. split_and!; [done|done|done|]. apply push_steps; [done|done|]. by intros _. }
  left. unfold push. cbv zeta. rewrite (bool_decide_eq_false_2 _ Hs), (proj2 (Z.eqb_eq _ _) Hz).
  cbn [negb andb]. rewrite (proj2 (Z.leb_gt _ _)) by done.
  destruct (Z.leb_spec MAX_CPI_TRACE_LENGTH (number_of_cpis_in_trace (transaction_frame c))); [done|].
  by rewrite (proj2 (Z.leb_le _ _)) by lia.
Qed.

Lemma grown_trace_length c f : zlen (instruction_trace (grown c f)) = zlen (instruction_trace c) + 1.
Proof using Type. unfold grown, zlen. simpl. rewrite length_app, length_insert. simpl. lia. Qed.

Lemma grown_counts n c f :
  small n c → counts n c → get_instruction_trace_length c < instruction_trace_capacity c →
  (instruction_stack c ≠ [] →
     number_of_cpis_in_trace (transaction_frame c) < MAX_CPI_TRACE_LENGTH ∧
     total_number_of_instructions_in_trace (transaction_frame c) < instruction_trace_capacity c) →
  counts n (grown c f).
Proof using Type.
  intros (N1 & N2 & N3 & N4) [C1 C2 C3 C4 C5 C6] Hi Hcpi. unfold get_instruction_trace_length, saturating_sub in Hi.
  assert (MAX_CPI_TRACE_LENGTH = 64) as HM by done.
  constructor; rewrite ?grown_trace_length; unfold grown; simpl; try case_bool_decide; simpl;
    unfold saturating_add, umax; try specialize (Hcpi ltac:(done)); lia.
Qed.

Lemma frame_of_grown c f i :
  0 ≤ i < zlen (instruction_trace c) - 1 →
  instruction_trace (grown c f) !! Z.to_nat i = instruction_trace c !! Z.to_nat i.
Proof using Type.
  intros Hi. unfold grown, get_instruction_trace_length, saturating_sub, zlen in *. simpl.
  rewrite lookup_app_l by (rewrite length_insert; lia). by rewrite list_lookup_insert_ne by lia.
Qed.

Lemma grown_stacked c f : stacked c → stacked (grown c f).
Proof using Type.
  intros [S1 S2 S3 S4]. constructor; [done|done| |].
  - intros k i Hk. destruct (S3 k i Hk) as [Hi Hf]. rewrite grown_trace_length, frame_of_grown by done.
    split; [lia|done].
  - intros i Hi. unfold grown. simpl. case_bool_decide; simpl; by apply S4.
Qed.

Lemma entered_stacked n c f :
  small n c → counts n c → stacked c →
  get_instruction_trace_length c < instruction_trace_capacity c →
  get_instruction_stack_height c < instruction_stack_capacity c →
  stacked (entered (grown c f) (get_instruction_trace_length c)).
Proof using Type.
  intros (N1 & N2 & N3 & N4) [C1 C2 C3 C4 C5 C6] Hs Hi Hh.
  assert (Hl : get_instruction_trace_length c = zlen (instruction_trace c) - 1)
    by (unfold get_instruction_trace_length, saturating_sub; lia).
  pose proof (grown_stacked c f Hs) as [S1 S2 S3 S4]. constructor; cbn [instruction_stack entered with_stack].
  - cbn [instruction_stack_capacity grown with_stack instruction_stack] in *.
    unfold get_instruction_stack_height, zlen in *. rewrite length_app. simpl. lia.
  - apply sorted_snoc; [done|]. intros k y Hk. destruct (st_frames _ Hs k y Hk) as [Hy _]. lia.
  - intros k i Hk. cbn [instruction_trace with_stack entered].
    rewrite grown_trace_length. apply lookup_app_Some in Hk as [Hk|[Hk1 Hk2]].
    + destruct (S3 k i Hk) as [H1 H2]. rewrite grown_trace_length in H1. split; [lia|done].
    + apply list_lookup_singleton_Some in Hk2 as [Hk2 <-]. split; [lia|].
      exists (with_level f (wrap 16 (get_instruction_stack_height c))).
      unfold zlen in *. cbn [instruction_trace instruction_stack with_stack grown] in *. split.
      * rewrite lookup_app_l by (rewrite length_insert; lia). apply list_lookup_insert_eq. lia.
      * simpl. rewrite wrap_small; unfold fits, get_instruction_stack_height, zlen in *; lia.
  - intros i. rewrite last_snoc. intros [= <-]. cbn. apply wrap_small. unfold fits. lia.
Qed.

Lemma push_trace n c :
  small n c → counts n c → stacked c → counts n (push c).2 ∧ stacked (push c).2.
Proof using Type.
  intros Hn Hc Hs. destruct (push_cases c) as [->|(f & Hf & Hi & Hcpi & Hp)]; [done|].
  pose proof (grown_counts n c f Hn Hc Hi Hcpi) as Hg. case_decide.
  - split; [eapply same_counts; [exact Hp|]|eapply same_stacked; [exact Hp|by eapply entered_stacked]].
    by destruct Hg.
  - rewrite Hp. split; [done|by apply grown_stacked].
Qed.

Lemma pop_shape c :
  instruction_stack c ≠ [] →
  let stack := removelast (instruction_stack c) in
  let tf := match list.last stack with
            | Some i => with_counts (transaction_frame c) (wrap 16 i)
                          (total_number_of_instructions_in_trace (transaction_frame c))
                          (number_of_cpis_in_trace (transaction_frame c))
            | None => transaction_frame c end in
  same_trace (with_stack c stack (instruction_trace c) tf (next_top_level_instruction_index c)) (pop c).2.
Proof using Type.
  intros Hs. unfold pop. rewrite (bool_decide_eq_false_2 _ Hs). cbv zeta.
  match goal with |- context [let '(u, v) := ?x in _] => assert (same_trace c x.2 ∧ transaction_frame x.2 = transaction_frame c) as [Hx Ht];
    [|destruct x as [r c1]; simpl in Hx, Ht] end.
  - unfold mbind, op_bind, lift.
    destruct (get_current_instruction_context c) as [ic|]; [|done].
    destruct (get_index_of_program_account_in_transaction ic) as [p|]; [|done].
    unfold on_accounts. by destruct (probe_program p (tx_accounts c)) as [[] a].
  - destruct Hx as (E1 & E2 & E3 & E4 & E5 & E6 & E7 & E8).
    rewrite E3, Ht. destruct r as [[]|]; unfold same_trace; simpl; by case_match.
Qed.

Lemma pop_trace n c :
  small n c → counts n c → stacked c → counts n (pop c).2 ∧ stacked (pop c).2.
Proof using Type.
  intros (N1 & N2 & N3 & N4) Hc Hs. destruct (decide (instruction_stack c = [])) as [He|He].
  { unfold pop. by rewrite (bool_decide_eq_true_2 _ He). }
  pose proof (pop_shape c He) as Hp. cbv zeta in Hp.
  destruct (stack_snoc _ He) as (l & x & El). rewrite El, removelast_snoc in Hp.
  destruct Hc as [C1 C2 C3 C4 C5 C6], Hs as [S1 S2 S3 S4]. rewrite El in S1, S2, S3.
  split; [eapply same_counts|eapply same_stacked]; try exact Hp; constructor; simpl; try done;
    try by case_match.
  - unfold zlen in *. rewrite length_app in S1. simpl in S1. lia.
  - by apply StronglySorted_app in S2 as (_ & ? & _).
  - intros k i Hk. apply S3. by apply lookup_app_l_Some.
  - intros i Hi. rewrite Hi. simpl. apply wrap_small. rewrite last_lookup in Hi.
    destruct (S3 _ _ (lookup_app_l_Some _ _ _ _ Hi)) as [H1 _]. unfold fits. lia.
Qed.

(** Configuring rewrites a frame of the trace but not its depth. *)
Lemma configure_trace n c index program accs dedup data caller :
  counts n c → stacked c →
  let c' := (configure_instruction_at_index index program accs dedup data caller c).2 in
  counts n c' ∧ stacked c'.
Proof using Type.
  intros [C1 C2 C3 C4 C5 C6] [S1 S2 S3 S4]. unfold configure_instruction_at_index.
  destruct (instruction_trace c !! Z.to_nat index) as [g|] eqn:Eg; [|by split].
  split; constructor; cbn; unfold zlen in *; rewrite ?length_insert; try done.
  intros k i Hk. destruct (S3 k i Hk) as [H1 (f & Hf & Hl)]. split; [done|].
  destruct (decide (Z.to_nat index = Z.to_nat i)) as [Hn|Hn].
  - rewrite <- Hn in *. rewrite list_lookup_insert_eq by by eapply lookup_lt_Some.
    eexists. split; [done|]. assert (f = g) as -> by congruence. unfold configure_frame. by destruct caller.
  - rewrite list_lookup_insert_ne by done. by exists f.
Qed.

Context `{RR : !RentRules}.

Lemma act_trace n s x :
  small n (ctx s) → counts n (ctx s) → stacked (ctx s) →
  small n (ctx (act s x)) ∧ counts n (ctx (act s x)) ∧ stacked (ctx (act s x)).
Proof using Type.
  intros Hn Hc Hs.
  assert (Hsame : same_trace (ctx s) (ctx (act s x)) →
    small n (ctx (act s x)) ∧ counts n (ctx (act s x)) ∧ stacked (ctx (act s x))).
  { intros E. split_and!; [|by eapply same_counts|by eapply same_stacked].
    destruct E as (E1 & E2 & _). unfold small. by rewrite E1, E2. }
  destruct x; try (apply Hsame; simpl; try unfold borrow_account, share_account;
    repeat case_match; by repeat split).
  - cbn [act on_context ctx]. split; [|by apply configure_trace].
    unfold configure_instruction_at_index. by case_match.
  - cbn [act on_context ctx]. split; [|by apply push_trace].
    destruct (push_cases (ctx s)) as [->|(f & _ & _ & _ & Hp)]; [done|]. case_decide; [|by rewrite Hp].
    destruct Hp as (E1 & E2 & _). unfold small. by rewrite E1, E2.
  - cbn [act on_context ctx]. split; [|by apply pop_trace].
    destruct (decide (instruction_stack (ctx s) = [])) as [He|He].
    { unfold pop. by rewrite (bool_decide_eq_true_2 _ He). }
    destruct (pop_shape (ctx s) He) as (E1 & E2 & _). unfold small. by rewrite E1, E2.
Qed.

Lemma run_trace n xs s :
  small n (ctx s) → counts n (ctx s) → stacked (ctx s) →
  small n (ctx (run xs s)) ∧ counts n (ctx (run xs s)) ∧ stacked (ctx (run xs s)).
Proof using Type.
  revert s. induction xs as [|x xs IH]; intros s Hn Hc Hs; [done|].
  destruct (act_trace n s x Hn Hc Hs) as (H1 & H2 & H3). by apply IH.
Qed.

End trace.
