(* ===== verification/CtxProps.v ===== *)
(** * Transaction contexts: the theorems

    Lamports are conserved by every balanced instruction, data growth is bounded and exactly
    accounted, a program stays within its rights, the instruction stack and trace are
    consistent and leave room for the top-level instructions, and borrows are exclusive. *)

From stdpp Require Import base list numbers option.
From S2P Require Import Prelude Effects Memory AccountMode Account AccountFacts CtxAccounts CtxInstruction CtxStack CtxOps CtxRun CtxSession CtxTrace.

Local Open Scope Z_scope.

(** What the loader hands over: accounts in separate buffers with legal words. *)
Definition loaded (m : mem) (l : list (Pubkey * AccountSharedData)) : Prop :=
  separated m (l.*2) ∧ Forall words_ok (owned m <$> l.*2).

Definition session_new (m : mem) (l : list (Pubkey * AccountSharedData))
    (stack_capacity trace_capacity number_of_top_level_instructions : Z) : Session :=
  {| ctx := context_new m l stack_capacity trace_capacity number_of_top_level_instructions;
     held := []; shared := [] |}.

(** The lamports and the data of a list of accounts. *)
Definition supply (m : mem) (l : list (Pubkey * AccountSharedData)) : Z :=
  sum_of (λ o, lamports (o_core o)) (owned m <$> l.*2).
Definition loaded_size (m : mem) (l : list (Pubkey * AccountSharedData)) : Z :=
  sum_of (λ o, zlen (o_data o)) (owned m <$> l.*2).

Lemma accounted_new m l :
  loaded m l → accounted (transaction_accounts_new m l) (transaction_accounts_new m l).
Proof.
  intros [Hs Hw]. constructor; [|done|done|lia]. constructor; simpl; [done|by rewrite length_replicate..].
Qed.

Lemma balanced_new m l sc tc n : balanced (session_new m l sc tc n).
Proof.
  split; [constructor|]. intros i c Hc. simpl in Hc. apply lookup_replicate in Hc as [-> _].
  unfold counted, readers, writers, count_at. simpl. lia.
Qed.

Section accounting.
Context `{RR : !RentRules} `{IS : !InstructionsSysvar}.

Lemma accounted_run a0 xs s :
  Forall action_ok xs → safe_session (accounted a0) s → safe_session (accounted a0) (run xs s).
Proof using Type.
  intros Hxs Hc. apply (run_safe (accounted a0)); [| | |done|done].
  - intros a a' i o o' Ha Ho He. by eapply accounted_effect.
  - intros a l Hl [A1 A2 A3 A4]. constructor; simpl; try done. by apply tidy_with_counters.
  - by intros a [A1 _ A3 _].
Qed.

Lemma measured_run a0 xs s :
  Forall action_ok xs → safe_session (λ a, accounted a0 a ∧ measured a0 a) s →
  safe_session (λ a, accounted a0 a ∧ measured a0 a) (run xs s).
Proof using Type.
  intros Hxs Hc. apply (run_safe (λ a, accounted a0 a ∧ measured a0 a)); [| | |done|done].
  - intros a a' i o o' [Ha Hb] Ho He. split; [by eapply accounted_effect|by eapply measured_effect].
  - intros a l Hl [[A1 A2 A3 A4] [M1 M2 M3 M4 M5]]. split; constructor; simpl; try done.
    by apply tidy_with_counters.
  - by intros a [[A1 _ A3 _] _].
Qed.

Context (m : mem) (l : list (Pubkey * AccountSharedData)) (sc tc n : Z).
Hypothesis Hl : loaded m l.

Lemma reachable_safe xs :
  Forall action_ok xs →
  safe_session (accounted (transaction_accounts_new m l)) (run xs (session_new m l sc tc n)).
Proof using Hl.
  intros Hxs. apply accounted_run; [done|]. split; [by apply accounted_new|apply balanced_new].
Qed.

Lemma reachable_lamports xs :
  Forall action_ok xs →
  let a := state_of (run xs (session_new m l sc tc n)) in
  total_lamports a = supply m l + lamports_delta a.
Proof using Hl.
  intros Hxs a. destruct (reachable_safe xs Hxs) as [[_ _ _ H4] _]. fold a in H4.
  change (total_lamports (transaction_accounts_new m l)) with (supply m l) in H4.
  change (lamports_delta (transaction_accounts_new m l)) with 0 in H4. lia.
Qed.

Lemma pop_ok_balanced c c' : pop c = (Ok tt, c') → lamports_delta (tx_accounts c') = 0.
Proof using Type.
  unfold pop. case_bool_decide; [done|]. cbv zeta.
  match goal with |- context [let '(u, v) := ?x in _] => destruct x as [r c1] eqn:E end.
  destruct r as [[]|e]; [done| |done]. intros [= <-]. simpl. revert E. unfold mbind, op_bind, lift.
  destruct (get_current_instruction_context c) as [ic|]; [|done].
  destruct (get_index_of_program_account_in_transaction ic) as [p|]; [|done].
  destruct (on_accounts (probe_program p) c) as [[[]|] c2]; [|done].
  unfold read. intros [= E <-]. by apply negb_false_iff, Z.eqb_eq in E.
Qed.

Lemma push_cpi_balanced c c' :
  instruction_stack c ≠ [] → push c = (Ok tt, c') → lamports_delta (tx_accounts c) = 0.
Proof using Type.
  intros Hs. unfold push. cbv zeta. rewrite (bool_decide_eq_false_2 _ Hs). cbn [negb andb].
  by destruct (Z.eqb_spec (lamports_delta (tx_accounts c)) 0).
Qed.

End accounting.

(** C8. Lamports are conserved. However a transaction configures, pushes and pops
    instructions, lets programs change their accounts and handles faults of the virtual
    machine, the sum of all balances differs from the sum of the loaded ones by exactly the
    recorded delta. When an instruction is popped without an error, or calls another program
    without an error, the sum is therefore what was loaded. *)
Theorem lamports_conserved `{!RentRules} `{!InstructionsSysvar} m l sc tc n xs :
  loaded m l → Forall action_ok xs →
  let s := run xs (session_new m l sc tc n) in
  total_lamports (state_of s) = supply m l + lamports_delta (state_of s) ∧
  (∀ c', pop (ctx s) = (Ok tt, c') → total_lamports (tx_accounts c') = supply m l) ∧
  (∀ c', instruction_stack (ctx s) ≠ [] → push (ctx s) = (Ok tt, c') →
     total_lamports (state_of s) = supply m l).
Proof.
  intros Hl Hxs s. pose proof (reachable_lamports m l sc tc n Hl xs Hxs) as Hs. fold s in Hs.
  split_and!; [done| |].
  - intros c' Hp. pose proof (reachable_lamports m l sc tc n Hl (xs ++ [XPop])) as He. cbv zeta in He.
    unfold run in He. rewrite foldl_app in He. cbn [foldl act] in He.
    fold (run xs (session_new m l sc tc n)) in He. fold s in He.
    unfold on_context, state_of in He. cbn [ctx] in He. rewrite Hp in He. cbn [snd] in He.
    rewrite He, (pop_ok_balanced _ _ Hp); [lia|]. apply Forall_app. by repeat constructor.
  - intros c' Hn Hp. pose proof (push_cpi_balanced _ _ Hn Hp). unfold state_of in *. lia.
Qed.

(** Data growth is bounded. With at most 256 accounts of at most 10 MiB each, every
    account stays within 10 MiB, the recorded size delta is exactly the change of the sum of
    all data lengths, and it never exceeds the 20 MiB a transaction may allocate. *)
Theorem data_growth_bounded `{!RentRules} `{!InstructionsSysvar} m l sc tc n xs :
  loaded m l → (length l ≤ 256)%nat →
  Forall (λ o, zlen (o_data o) ≤ MAX_ACCOUNT_DATA_LEN) (owned m <$> l.*2) →
  Forall action_ok xs →
  let a := state_of (run xs (session_new m l sc tc n)) in
  Forall (λ o, zlen (o_data o) ≤ MAX_ACCOUNT_DATA_LEN) (states a) ∧
  resize_delta a = total_data a - loaded_size m l ∧
  resize_delta a ≤ MAX_ACCOUNT_DATA_GROWTH_PER_TRANSACTION.
Proof.
  intros Hl Hn Hs Hxs a. set (a0 := transaction_accounts_new m l).
  assert (Hm : measured a0 a0).
  { pose proof (total_bounds _ Hs) as Hb. change (owned m <$> l.*2) with (states a0) in *.
    assert (Hz : zlen (states a0) ≤ 256) by (unfold zlen, states; rewrite !length_fmap; simpl; lia).
    change (sum_of _ _) with (total_data a0) in Hb. unfold MAX_ACCOUNT_DATA_LEN in *.
    constructor; [done|done| |simpl; lia|done]. unfold MAX_ACCOUNT_DATA_LEN. lia. }
  destruct (measured_run a0 xs (session_new m l sc tc n) Hxs) as [[_ [M1 M2 M3 M4 M5]] _].
  { split; [split; [by apply accounted_new|done]|apply balanced_new]. }
  by split_and!.
Qed.

(** ** Rights of an instruction *)

(** What the code of a program can do by itself. *)
Definition program_action (x : Action) : bool :=
  match x with
  | XBorrow _ | XCall _ _ | XDrop _ | XShare _ | XUnshare _ => true
  | _ => false
  end.

(** The instruction lists the account as writable. *)
Definition declares_writable (ic : InstructionContext) (i : nat) : bool :=
  existsb (λ ia, account_is_writable ia && bool_decide (Z.to_nat (index_in_transaction ia) = i))
    (ic_accounts ic).

Definition belongs (ic : InstructionContext) (b : BorrowedInstructionAccount) : Prop :=
  instruction_account b ∈ ic_accounts ic ∧ program_index b = ic_program_index ic.

Definition rights (ic : InstructionContext) (s s' : Session) : Prop :=
  (accounts (state_of s')).*1 = (accounts (state_of s)).*1 ∧
  ∀ i o, states (state_of s) !! i = Some o →
    ∃ o', states (state_of s') !! i = Some o' ∧
      permit (declares_writable ic i) (account_key (state_of s) (ic_program_index ic)) o o'.

Lemma permit_more w w' pk o o' : (w = true → w' = true) → permit w pk o o' → permit w' pk o o'.
Proof.
  intros Hw [A1 A2 A3 A4 A5 A6 A7]. constructor; try done.
  intros [H|H]; apply A1; [left|by right]. destruct w; [|done]. by rewrite Hw in H.
Qed.

Lemma account_key_fst a i : account_key a i = (accounts a).*1 !! Z.to_nat i.
Proof. unfold account_key. by rewrite list_lookup_fmap. Qed.

Lemma rights_states ic s s' :
  accounts (state_of s') = accounts (state_of s) → states (state_of s') = states (state_of s) →
  rights ic s s'.
Proof. intros E1 E2. split; [by rewrite E1|]. intros i o Ho. exists o. rewrite E2. split; [done|apply permit_refl]. Qed.

Lemma rights_trans ic s1 s2 s3 : rights ic s1 s2 → rights ic s2 s3 → rights ic s1 s3.
Proof.
  intros [K1 R1] [K2 R2]. split; [congruence|]. intros i o Ho.
  destruct (R1 i o Ho) as (o2 & H2 & P2), (R2 i o2 H2) as (o3 & H3 & P3). exists o3. split; [done|].
  eapply permit_trans; [done|]. by rewrite account_key_fst, K1, <- account_key_fst in P3.
Qed.

Lemma belongs_writable ic b :
  belongs ic b → handle_is_writable b = true → declares_writable ic (handle_index b) = true.
Proof.
  intros [Hb _] Hw. apply existsb_exists. exists (instruction_account b). split; [by apply list_elem_of_In|].
  apply andb_true_iff. split; [done|]. by apply bool_decide_eq_true.
Qed.

Section rights.
Context `{RR : !RentRules} `{IS : !InstructionsSysvar} (a0 : TransactionAccounts).

Lemma call_rights ic s h c :
  safe_session (accounted a0) s → Forall (belongs ic) (held s) → call_ok c →
  rights ic s (act s (XCall h c)).
Proof using Type.
  intros Hs Hb Hc. simpl. destruct (held s !! h) as [b|] eqn:Eh; [|by apply rights_states].
  pose proof Hs as [[A1 _ A3 _] _].
  destruct (held_lookup (accounted a0) (λ a H, conj (ac_tidy _ _ H) (ac_words _ _ H)) s h b Hs Eh) as (o & Ho & Hw).
  destruct (run_call_spec b _ o A1 Ho c Hc Hw) as (o' & He & Hp).
  assert (Hbb : belongs ic b) by by eapply Forall_lookup in Hb.
  split; [apply He|]. intros i x Hx. unfold state_of. cbn. fold (state_of s).
  rewrite (ef_states _ _ _ _ _ He). destruct (decide (handle_index b = i)) as [<-|Hn].
  - exists o'. rewrite list_lookup_insert_eq by by eapply lookup_lt_Some. split; [done|].
    assert (x = o) as -> by congruence. destruct Hbb as [Hm Hpi]. rewrite <- Hpi.
    eapply permit_more; [|exact Hp]. intros. by apply belongs_writable.
  - exists x. rewrite list_lookup_insert_ne by done. split; [done|apply permit_refl].
Qed.

Lemma program_step ic s x :
  safe_session (accounted a0) s → Forall (belongs ic) (held s) →
  get_current_instruction_context (ctx s) = Ok ic → action_ok x → program_action x = true →
  rights ic s (act s x) ∧ Forall (belongs ic) (held (act s x)) ∧
  get_current_instruction_context (ctx (act s x)) = Ok ic.
Proof using Type.
  intros Hs Hb Hic Hx Hp. destruct x; try done.
  - cbn [act]. unfold borrow_account. rewrite Hic.
    unfold try_borrow_instruction_account, mbind, op_bind, lift.
    destruct (ic_accounts ic !! Z.to_nat i) as [ia|] eqn:Ei; cbn [ok_or]; [|split_and!; [by apply rights_states|done|done]].
    destruct (try_borrow_mut (index_in_transaction ia) (state_of s)) as [[x|e] a1] eqn:E.
    + apply borrow_mut_inv in E as (_ & _ & ->). split_and!; [by apply rights_states| |done].
      apply Forall_app. split; [done|]. repeat constructor. simpl. by eapply list_elem_of_lookup_2.
    + apply borrow_mut_err in E as ->. split_and!; [by apply rights_states|done|done].
  - split; [by apply call_rights|]. simpl. by destruct (held s !! h).
  - simpl. destruct (held s !! h); [|split_and!; [by apply rights_states|done|done]].
    split_and!; [by apply rights_states|by apply list.Forall_delete|done].
  - simpl. unfold share_account, try_borrow, borrow_with.
    repeat case_match; simplify_eq; (split_and!; [by apply rights_states|done|done]).
  - simpl. destruct (shared s !! h); (split_and!; [by apply rights_states|done|done]).
Qed.

Lemma program_run ic ys s :
  safe_session (accounted a0) s → Forall (belongs ic) (held s) →
  get_current_instruction_context (ctx s) = Ok ic → Forall action_ok ys →
  Forall (λ y, program_action y = true) ys → rights ic s (run ys s).
Proof using Type.
  revert s. induction ys as [|y ys IH]; intros s Hs Hb Hic Hy Hp; [by apply rights_states|].
  apply list.Forall_cons in Hy as [Hy Hys]. apply list.Forall_cons in Hp as [Hp Hps].
  destruct (program_step ic s y Hs Hb Hic Hy Hp) as (R1 & B1 & C1).
  eapply rights_trans; [exact R1|]. apply IH; try done.
  apply (accounted_run a0 [y] s); [by constructor|done].
Qed.

End rights.

(** C27. A program stays within its rights. Whatever the current instruction does with its
    accounts, from a state with no open handle, every account of the transaction ends up as
    the instruction's rights permit: it is unchanged unless the instruction lists it as
    writable and its mode is writable; its mode, slot and commit sequence never change; only
    the program that owns it can lower its balance, change its data or its flags or hand it
    to another owner, the last only with zeroed data; and a magic account keeps its size. *)
Theorem program_within_rights `{!RentRules} `{!InstructionsSysvar} m l sc tc n xs ys ic :
  loaded m l → Forall action_ok xs → Forall action_ok ys →
  Forall (λ y, program_action y = true) ys →
  let s := run xs (session_new m l sc tc n) in
  held s = [] → get_current_instruction_context (ctx s) = Ok ic →
  rights ic s (run ys s).
Proof.
  intros Hl Hxs Hys Hp s Hh Hic. eapply (program_run (transaction_accounts_new m l)); try done.
  - by apply reachable_safe.
  - by rewrite Hh.
Qed.

(** ** Stack and trace *)

(** The instruction stack and trace are consistent. With room for the [n] top-level
    instructions and capacities that fit 16 bits, the trace holds one frame per instruction
    entered and the next one, of which at most 64 are calls between programs; the stack holds
    indices of the trace in increasing order, each frame's nesting level is its depth on the
    stack, and the top is the executing instruction. Calls never take the room of top-level
    instructions: while one is to come and none runs, [push] enters it. *)
Theorem trace_consistent `{!RentRules} `{!InstructionsSysvar} m l sc tc n xs :
  0 < sc ≤ 2 ^ 16 → 0 ≤ n → n + MAX_CPI_TRACE_LENGTH < 2 ^ 16 → n ≤ tc < 2 ^ 16 →
  let c := ctx (run xs (session_new m l sc tc n)) in
  let next := next_top_level_instruction_index c in
  let cpis := number_of_cpis_in_trace (transaction_frame c) in
  get_instruction_trace_length c = next + cpis ∧ 0 ≤ cpis ≤ MAX_CPI_TRACE_LENGTH ∧
  stacked c ∧
  (instruction_stack c = [] → next < n →
     instruction_stack (push c).2 = [get_instruction_trace_length c]).
Proof.
  intros Hsc Hn Hn2 Htc c next cpis.
  destruct (run_trace n xs (session_new m l sc tc n)) as ((_ & _ & _ & Hcap) & [C1 C2 C3 C4 C5 C6] & Hst).
  - unfold small. simpl. lia.
  - constructor; simpl; rewrite ?wrap_small; unfold fits, zlen, MAX_CPI_TRACE_LENGTH in *; simpl; lia.
  - constructor; simpl; [unfold zlen; simpl; lia|constructor|done|done].
  - fold c in Hcap, C1, C2, C3, C4, C5, C6, Hst.
    assert (HT : get_instruction_trace_length c = next + cpis)
      by (unfold get_instruction_trace_length, saturating_sub; lia).
    split_and!; [done|lia|lia|done|]. intros He Hlt.
    destruct (list.last (instruction_trace c)) as [f|] eqn:Hf.
    2: { apply last_None in Hf. rewrite Hf in C1. unfold zlen in C1. simpl in C1. lia. }
    pose proof (push_steps c f Hf ltac:(lia) ltac:(done)) as Hp. cbv zeta in Hp.
    rewrite decide_True in Hp by (unfold get_instruction_stack_height; rewrite He; unfold zlen; simpl; lia).
    destruct Hp as (_ & _ & -> & _). simpl. by rewrite He.
Qed.

(** ** Borrows *)

(** Borrows are exclusive. An account has one mutable handle and no shared one, or no
    mutable handle and fewer than 128 shared ones; a mutable borrow of a loaded account
    succeeds exactly when no handle is open on it, and a shared one exactly when no mutable
    handle is and the counter can still count it. *)
Theorem borrows_exclusive `{!RentRules} `{!InstructionsSysvar} m l sc tc n xs index :
  loaded m l → Forall action_ok xs → (Z.to_nat index < length l)%nat →
  let s := run xs (session_new m l sc tc n) in
  let i := Z.to_nat index in
  (writers s i = 0 ∧ readers s i < 128 ∨ writers s i = 1 ∧ readers s i = 0)%nat ∧
  ((try_borrow_mut index (state_of s)).1 = Ok index ↔ writers s i = 0%nat ∧ readers s i = 0%nat) ∧
  ((try_borrow index (state_of s)).1 = Ok index ↔ writers s i = 0%nat ∧ (readers s i < 127)%nat).
Proof.
  intros Hl Hxs Hi s i. destruct (reachable_safe m l sc tc n Hl xs Hxs) as [Ha [_ Hb]]. fold s in Ha, Hb.
  assert (Hlen : (i < length (borrow_counters (state_of s)))%nat).
  { rewrite (tidy_counters _ (ac_tidy _ _ Ha)), <- (length_fmap fst), (ac_keys _ _ Ha), length_fmap. done. }
  apply lookup_lt_is_Some in Hlen as [c Hc]. destruct (Hb i c Hc) as [H1 H2]. change (2 ^ 7) with 128 in H2.
  unfold try_borrow_mut, try_borrow, borrow_with. fold i. rewrite Hc.
  unfold counter_try_borrow_mut, counter_try_borrow, is_writing, is_reading. change (2 ^ 7) with 128.
  destruct (Z.ltb_spec c 0), (Z.ltb_spec 0 c), (Z.ltb_spec (c + 1) 128); simpl;
    (split_and!; [lia| |]); (split; [intros; first [done|lia]|intros; first [done|lia]]).
Qed.

(** ** Examples *)

#[local] Instance sample_rent : RentRules := λ _ _, true.
#[local] Instance sample_sysvar : InstructionsSysvar.
Proof.
  refine {| INSTRUCTIONS_ID := replicate 32 6; SYSVAR_ID := replicate 32 7;
            store_current_index_checked := λ d _, Ok d |}.
  by intros d i d' [= ->].
Defined.

Definition sample_account (n : Z) : Pubkey * AccountSharedData :=
  (replicate 32 n,
   {| cow := Owned {| o_core := {| lamports := 100 * n; owner := replicate 32 1; slot := 0;
                                   commit_seq := 0; mode := Delegated; flags := 0; padding := 0 |};
                      o_data := replicate 8 n |};
      dirty_bits := 0 |}).
Definition sample_loaded : list (Pubkey * AccountSharedData) :=
  [sample_account 1; sample_account 2; sample_account 3].

(** The program at index 0 moves 30 lamports between its accounts 1 and 2. *)
Definition sample_entry : list Action :=
  [XConfigure 0 0 [instruction_account_new 1 false true; instruction_account_new 2 false true] [] [] None;
   XPush].
Definition sample_transfer : list Action :=
  [XBorrow 0; XBorrow 1; XCall 0 (CSubLamports 30); XCall 1 (CAddLamports 30);
   XCall 0 (CSetLength 20); XDrop 1; XDrop 0].

Lemma sample_loaded_ok : loaded (λ _, 0) sample_loaded.
Proof.
  split; [|repeat constructor; vm_compute; done]. split; [by repeat constructor|].
  intros i j s s' _ Hi Hj. destruct i as [|[|[|]]], j as [|[|[|]]]; simplify_eq/=; done.
Qed.

Abbreviation sample_session := (session_new (λ _, 0) sample_loaded 5 64 1).

Lemma lamports_conserved_witness :
  let s := run (sample_entry ++ sample_transfer) sample_session in
  total_lamports (state_of s) = 600 ∧ lamports <$> (o_core <$> states (state_of s)) = [100; 170; 330] ∧
  ∃ c', pop (ctx s) = (Ok tt, c') ∧ total_lamports (tx_accounts c') = 600.
Proof.
  destruct (lamports_conserved (λ _, 0) sample_loaded 5 64 1 (sample_entry ++ sample_transfer))
    as (H1 & H2 & _); [apply sample_loaded_ok|repeat constructor; vm_compute; done|].
  intros s. split; [etransitivity; [exact H1|vm_compute; reflexivity]|]. split; [vm_compute; reflexivity|].
  eexists. split; [|apply H2]; vm_compute; reflexivity.
Defined.

Lemma data_growth_bounded_witness :
  let a := state_of (run (sample_entry ++ sample_transfer) sample_session) in
  resize_delta a = 12 ∧ resize_delta a = total_data a - 24.
Proof.
  intros a. destruct (data_growth_bounded (λ _, 0) sample_loaded 5 64 1 (sample_entry ++ sample_transfer))
    as (_ & H & _);
    [apply sample_loaded_ok|vm_compute; lia|repeat constructor; vm_compute; done|
     repeat constructor; vm_compute; done|].
  split; [vm_compute; reflexivity|exact H].
Defined.

Lemma program_within_rights_witness :
  ∃ ic, let s := run sample_entry sample_session in
    rights ic s (run sample_transfer s) ∧ declares_writable ic 2 = true ∧ declares_writable ic 0 = false.
Proof.
  eexists. split; [|split].
  - eapply (program_within_rights (λ _, 0) sample_loaded 5 64 1 sample_entry sample_transfer);
      [apply sample_loaded_ok|repeat constructor; vm_compute; done..|vm_compute; reflexivity|
       vm_compute; reflexivity].
  - vm_compute; reflexivity.
  - vm_compute; reflexivity.
Defined.

Lemma trace_consistent_witness :
  let c := ctx (run (sample_entry ++ sample_transfer) sample_session) in
  stacked c ∧ instruction_stack c = [0] ∧
  instruction_stack (push (ctx sample_session)).2 = [0].
Proof.
  intros c. split; [|split].
  - apply (trace_consistent (λ _, 0) sample_loaded 5 64 1 (sample_entry ++ sample_transfer)); vm_compute; done.
  - vm_compute; reflexivity.
  - apply (trace_consistent (λ _, 0) sample_loaded 5 64 1 []); vm_compute; done.
Defined.

Lemma borrows_exclusive_witness :
  let s := run (sample_entry ++ take 2 sample_transfer) sample_session in
  writers s 1 = 1%nat ∧ (try_borrow_mut 1 (state_of s)).1 ≠ Ok 1 ∧ (try_borrow 0 (state_of s)).1 = Ok 0.
Proof.
  intros s.
  destruct (borrows_exclusive (λ _, 0) sample_loaded 5 64 1 (sample_entry ++ take 2 sample_transfer) 1)
    as (_ & H1 & _);
    [apply sample_loaded_ok|repeat constructor; vm_compute; done|vm_compute; lia|].
  destruct (borrows_exclusive (λ _, 0) sample_loaded 5 64 1 (sample_entry ++ take 2 sample_transfer) 0)
    as (_ & _ & H2);
    [apply sample_loaded_ok|repeat constructor; vm_compute; done|vm_compute; lia|].
  split; [vm_compute; reflexivity|]. split; [|apply H2; split; [vm_compute; reflexivity|vm_compute; lia]].
  intros H. apply H1 in H as [H _]. vm_compute in H. discriminate H.
Defined.
