(* ===== verification/Programs.v ===== *)
(** * The program cache ([solana/program-runtime/src/loaded_programs.rs], [deploy.rs],
    [solana/svm/src/program_loader.rs])

    Entries by program address: one cache shared by all executors, and the view a transaction
    has of it, in which a deployment is visible before it is merged. The executables, the
    builtins and the loader that verifies and compiles them belong to the virtual machine's
    crate: they are a type and two functions here. *)

From stdpp Require Import base list gmap option.
From S2P Require Import Prelude Memory AccountMode Account CtxAccounts.

Local Open Scope Z_scope.

(** An environment is compared by the address of its loader. *)
Abbreviation Environment := Z.

Class ProgramLoader (Code : Type) := {
  (** [Executable::load], then [verify], then [jit_compile]; the flag skips the verifier. *)
  compile : Environment → list Z → bool → option Code;
  (** The stricter environment of deployments, when its functions can be registered. *)
  deployment_environment : Environment → option Environment;
  (** [Executable::load] and [verify] in it. *)
  deployable : Environment → list Z → bool;
}.

Inductive ProgramCacheEntry (Code : Type) :=
| FailedVerification (env : Environment)
| EntryClosed
| DelayVisibility
| Unloaded (env : Environment)
| Loaded (env : Environment) (program : Code)
| Builtin (program : Code).
Arguments FailedVerification {Code} env.
Arguments EntryClosed {Code}.
Arguments DelayVisibility {Code}.
Arguments Unloaded {Code} env.
Arguments Loaded {Code} env program.
Arguments Builtin {Code} program.

Section cache.
Context {Code : Type}.
Abbreviation Entry := (ProgramCacheEntry Code).

Definition get_environment (e : Entry) : option Environment :=
  match e with
  | Loaded env _ | FailedVerification env | Unloaded env => Some env
  | _ => None
  end.

(** ** The view of a transaction *)

Record ProgramCacheForTxBatch := {
  entries : gmap Pubkey Entry;
  modified_entries : gmap Pubkey Entry;
  cache_slot : Z;
}.

Definition batch_new (slot : Z) : ProgramCacheForTxBatch :=
  {| entries := ∅; modified_entries := ∅; cache_slot := slot |}.
Definition replenish (c : ProgramCacheForTxBatch) (key : Pubkey) (e : Entry) : ProgramCacheForTxBatch :=
  {| entries := <[key := e]> (entries c); modified_entries := modified_entries c;
     cache_slot := cache_slot c |}.
Definition store_modified_entry (c : ProgramCacheForTxBatch) (key : Pubkey) (e : Entry)
    : ProgramCacheForTxBatch :=
  {| entries := entries c; modified_entries := <[key := e]> (modified_entries c);
     cache_slot := cache_slot c |}.
Definition drain_modified_entries (c : ProgramCacheForTxBatch)
    : gmap Pubkey Entry * ProgramCacheForTxBatch :=
  (modified_entries c,
   {| entries := entries c; modified_entries := ∅; cache_slot := cache_slot c |}).
Definition cache_find (c : ProgramCacheForTxBatch) (key : Pubkey) : option Entry :=
  match modified_entries c !! key with
  | Some e => Some e
  | None => entries c !! key
  end.

(** ** The shared cache *)

Abbreviation ProgramCache := (gmap Pubkey Entry).

Definition invalidate (c : ProgramCache) : ProgramCache :=
  filter (λ ke, get_environment ke.2 = None) c.
Definition assign_program (c : ProgramCache) (key : Pubkey) (e : Entry) : ProgramCache :=
  <[key := e]> c.

(** One iteration of [merge]; the order of the iterations does not matter. *)
Definition merge_entry (key : Pubkey) (e : Entry) (c : ProgramCache) : ProgramCache :=
  match e with
  | EntryClosed => delete key c
  | _ => assign_program c key e
  end.
Definition cache_merge (c : ProgramCache) (modified : gmap Pubkey Entry) : ProgramCache :=
  map_fold merge_entry c modified.

(** ** Loading and deployment *)

Context `{!ProgramLoader Code}.

Definition load_program (env : Environment) (data : list Z) : Entry :=
  match compile env data false with
  | Some x => Loaded env x
  | None => FailedVerification env
  end.

Definition deploy_program (c : ProgramCacheForTxBatch) (env : Environment) (program_id : Pubkey)
    (programdata : list Z) : result InstructionError ProgramCacheForTxBatch :=
  strict ← ok_or (deployment_environment env) ProgramEnvironmentSetupFailure;
  if negb (deployable strict programdata) then Err InvalidAccountData
  else
    x ← ok_or (compile env programdata true) InvalidAccountData;
    Ok (store_modified_entry c program_id (Loaded env x)).

(** ** Facts *)

Lemma merge_lookup c modified key :
  cache_merge c modified !! key =
    match modified !! key with
    | Some EntryClosed => None
    | Some e => Some e
    | None => c !! key
    end.
Proof using Type.
  unfold cache_merge. revert key.
  apply (map_fold_weak_ind (λ r m, ∀ key, r !! key =
    match m !! key with Some EntryClosed => None | Some e => Some e | None => c !! key end)).
  - intros key. by rewrite lookup_empty.
  - intros k e m r Hm IH key. destruct (decide (k = key)) as [->|Hk].
    + rewrite lookup_insert_eq. destruct e; simpl; unfold assign_program;
        by rewrite ?lookup_insert_eq, ?lookup_delete_eq.
    + rewrite lookup_insert_ne by done. destruct e; simpl; unfold assign_program;
        by rewrite ?lookup_insert_ne, ?lookup_delete_ne, IH by done.
Qed.

Lemma invalidate_lookup c key e :
  invalidate c !! key = Some e ↔ c !! key = Some e ∧ get_environment e = None.
Proof using Type. unfold invalidate. by rewrite map_lookup_filter_Some. Qed.

End cache.
