(* ===== verification/Invoke.v ===== *)
(** * Invocation of programs ([solana/program-runtime/src/invoke_context.rs],
    [memory_context.rs], [solana/svm/src/message_processor.rs])

    The pipeline from the instructions of a message to the programs they name, and from a
    program to the programs it calls: frames are prepared with checked privileges, pushed,
    run and popped, under one compute meter.

    What a program does is not part of the runtime: a program is a tree of the steps it takes
    through the runtime, each chosen from the result of the step before and the state it
    leaves. Builtins, and the virtual machine with the programs it interprets, give such
    trees. *)

From stdpp Require Import base list gmap numbers option.
From S2P Require Import Prelude Effects Memory AccountMode Account CtxAccounts CtxInstruction CtxStack CtxOps CtxSession Programs.

Local Open Scope Z_scope.

(** ** Errors of a transaction: the cases of [TransactionError] the crates use *)

Inductive TransactionError :=
| InstructionErrorAt (index : Z) (e : InstructionError)
| UnbalancedTransaction | InsufficientFundsForRent (account_index : Z)
| ProgramAccountNotFound | InvalidProgramForExecution | MaxLoadedAccountsDataSizeExceeded
| InvalidWritableAccount | InvalidAccountForFee
| AlreadyProcessed | BlockhashNotFound.

#[export] Instance TransactionError_eq_dec : EqDecision TransactionError.
Proof. solve_decision. Defined.

(** ** Messages: the part of [SVMMessage] the runtime reads *)

Record SVMInstruction := { program_id_index : Z; ix_accounts : list Z; ix_data : list Z }.

Record SVMMessage := {
  msg_keys : list Pubkey;
  msg_signer : Z → bool;
  msg_writable : Z → bool;
  msg_instructions : list SVMInstruction;
  msg_lookup_tables : Z;
}.

(** [program_instructions_iter]: the program of an instruction is in range, as sanitization
    has checked. *)
Definition program_instructions (m : SVMMessage) : list (Pubkey * SVMInstruction) :=
  omap (λ ix, k ← msg_keys m !! Z.to_nat (program_id_index ix); Some (k, ix)) (msg_instructions m).

(** ** Instructions programs build *)

Record AccountMeta := { meta_pubkey : Pubkey; meta_is_signer : bool; meta_is_writable : bool }.
Record CallInstruction := {
  program_id : Pubkey;
  instruction_metas : list AccountMeta;
  instruction_bytes : list Z;
}.

(** ** The allocator of a program's heap *)

(** The address map of the virtual machine. *)
Class VmLayout := { MM_HEAP_START : Z; MM_INPUT_START : Z }.

Record BpfAllocator := { alloc_len : Z; alloc_pos : Z }.
Definition allocator_new (len : Z) : BpfAllocator := {| alloc_len := len; alloc_pos := 0 |}.

(** [align_offset] of an address, for a power of two. *)
Definition align_offset (x align : Z) : Z := (- x) mod align.

Definition alloc `{!VmLayout} (a : BpfAllocator) (size align : Z) : option (Z * BpfAllocator) :=
  let bytes_to_align := align_offset (alloc_pos a) align in
  if saturating_add 64 (saturating_add 64 (alloc_pos a) bytes_to_align) size <=? alloc_len a then
    let pos := saturating_add 64 (alloc_pos a) bytes_to_align in
    Some (saturating_add 64 MM_HEAP_START pos,
          {| alloc_len := alloc_len a; alloc_pos := saturating_add 64 pos size |})
  else None.

Record SerializedAccountMetadata := {
  vm_addr_ : Z; original_data_len : Z; vm_data_addr : Z; vm_key_addr : Z;
  vm_lamports_addr : Z; vm_owner_addr : Z;
}.

Record SyscallContext := {
  allocator : BpfAllocator;
  accounts_metadata : list SerializedAccountMetadata;
}.

(** The mapping of a memory context is the virtual machine's. *)
Inductive MemoryContextType := ABIv1 (a : BpfAllocator) (l : list SerializedAccountMetadata) | Placeholder.

(** ** The invoke context *)

Record NativeCaller := { nc_program_id : Pubkey; nc_stack_height : Z }.

Record InvokeContext (Code : Type) := {
  session : Session;
  program_cache : @ProgramCacheForTxBatch Code;
  compute_meter : Z;
  syscall_context : list (option SyscallContext);
  memory_contexts : list MemoryContextType;
  native_caller : option NativeCaller;
  magic_root : option Z;
}.
Arguments session {Code}.
Arguments program_cache {Code}.
Arguments compute_meter {Code}.
Arguments syscall_context {Code}.
Arguments memory_contexts {Code}.
Arguments native_caller {Code}.
Arguments magic_root {Code}.

Definition transaction_context {Code} (s : InvokeContext Code) : TransactionContext := ctx (session s).

(** ** What programs do

    Programs act on the session, meter their work, deploy programs and call others. MagicRoot,
    a builtin of the engine, also works on the accounts of the transaction directly. *)

Inductive CallKind :=
| InvokeSigned (signer_seeds : list (list (list Z)))
| InvokeMagicRoot
| InvokeAs (source_program : Pubkey) (signers : list Pubkey).

Inductive ProgramStep (Code : Type) :=
| SAction (x : Action)
| SConsumeChecked (amount : Z)
| SConsume (amount : Z)
| SDeploy (key : Pubkey) (e : ProgramCacheEntry Code)
| SAccounts (op : Op TransactionAccounts unit)
| SInvoke (how : CallKind) (ix : CallInstruction).
Arguments SAction {Code} x.
Arguments SConsumeChecked {Code} amount.
Arguments SConsume {Code} amount.
Arguments SDeploy {Code} key e.
Arguments SAccounts {Code} op.
Arguments SInvoke {Code} how ix.

(** A failure is an [InstructionError] in a box, or another error. *)
Inductive Failure := FInstruction (e : InstructionError) | FOther.
Definition downcast (f : Failure) : InstructionError :=
  match f with FInstruction e => e | FOther => ProgramFailedToComplete end.

Inductive Program (Code : Type) :=
| Exit (r : result Failure unit)
| Step (x : ProgramStep Code) (k : result InstructionError unit → InvokeContext Code → Program Code).
Arguments Exit {Code} r.
Arguments Step {Code} x k.

(** Code outside the repository: the addresses of the loaders, program-derived addresses, the
    precompiles, the entry points of builtins and the virtual machine. *)
Class ProgramRuntime (Code : Type) := {
  native_loader : Pubkey;
  bpf_loader_deprecated : Pubkey;
  bpf_loader : Pubkey;
  bpf_loader_upgradeable : Pubkey;
  loader_v4 : Pubkey;
  create_program_address : list (list Z) → Pubkey → result InstructionError Pubkey;
  is_precompile : Pubkey → bool;
  precompile : Pubkey → list Z → list (list Z) → result InstructionError unit;
  entrypoint : Code → option (InvokeContext Code → Program Code);
  vm_execute : Code → InvokeContext Code → Program Code;
}.

(** ** Views of the current instruction *)

Definition get_program_key (c : TransactionContext) (ic : InstructionContext)
    : result InstructionError Pubkey :=
  i ← get_index_of_program_account_in_transaction ic;
  ok_or (account_key (tx_accounts c) i) MissingAccount.

(** The owner is read through a shared borrow of the program account. *)
Definition get_program_owner (ic : InstructionContext) : Op TransactionAccounts Pubkey := λ a,
  match get_index_of_program_account_in_transaction ic with
  | Err e => (Err e, a)
  | Ok i =>
      match try_borrow i a with
      | (Err e, a) => (Err e, a)
      | (Ok _, a) =>
          (match accounts a !! Z.to_nat i with
           | Some (_, s) => Ok (owner (core_of (storage a) s))
           | None => Err MissingAccount
           end, drop_ref i a)
      end
  end.

Section invoke.
Context {Code : Type}.
Abbreviation IC := (InvokeContext Code).
Abbreviation Inv := (Eff InstructionError IC).

Definition with_session (s : IC) (x : Session) : IC :=
  {| session := x; program_cache := program_cache s; compute_meter := compute_meter s;
     syscall_context := syscall_context s; memory_contexts := memory_contexts s;
     native_caller := native_caller s; magic_root := magic_root s |}.
Definition with_cache (s : IC) (c : ProgramCacheForTxBatch) : IC :=
  {| session := session s; program_cache := c; compute_meter := compute_meter s;
     syscall_context := syscall_context s; memory_contexts := memory_contexts s;
     native_caller := native_caller s; magic_root := magic_root s |}.
Definition with_meter (s : IC) (n : Z) : IC :=
  {| session := session s; program_cache := program_cache s; compute_meter := n;
     syscall_context := syscall_context s; memory_contexts := memory_contexts s;
     native_caller := native_caller s; magic_root := magic_root s |}.
Definition with_frames (s : IC) (a : list (option SyscallContext)) (b : list MemoryContextType) : IC :=
  {| session := session s; program_cache := program_cache s; compute_meter := compute_meter s;
     syscall_context := a; memory_contexts := b;
     native_caller := native_caller s; magic_root := magic_root s |}.
Definition with_origin (s : IC) (n : option NativeCaller) (r : option Z) : IC :=
  {| session := session s; program_cache := program_cache s; compute_meter := compute_meter s;
     syscall_context := syscall_context s; memory_contexts := memory_contexts s;
     native_caller := n; magic_root := r |}.

Definition invoke_context_new (x : Session) (cache : ProgramCacheForTxBatch) (compute_unit_limit : Z) : IC :=
  {| session := x; program_cache := cache; compute_meter := compute_unit_limit;
     syscall_context := []; memory_contexts := []; native_caller := None; magic_root := None |}.

(** Methods of the transaction context and of its accounts. *)
Definition on_session (f : Session → Session) (s : IC) : IC := with_session s (f (session s)).
Definition on_ctx {A} (p : Op TransactionContext A) : Inv A := λ s,
  let '(r, c) := p (transaction_context s) in
  (r, with_session s {| ctx := c; held := held (session s); shared := shared (session s) |}).

(** ** The compute meter *)

Definition consume (amount : Z) (s : IC) : IC :=
  with_meter s (saturating_sub (compute_meter s) amount).
Definition consume_checked (amount : Z) : Inv unit := λ s,
  (if compute_meter s <? amount then Err ComputationalBudgetExceeded else Ok tt, consume amount s).

(** ** Frames *)

Definition same_program (c : TransactionContext) (id : Pubkey)
    (r : result InstructionError InstructionContext) : bool :=
  match ic ← r; get_program_key c ic with Ok k => bool_decide (k = id) | Err _ => false end.

Definition invoke_push `{!InstructionsSysvar} : Inv unit := λ s,
  let c := transaction_context s in
  let height := get_instruction_stack_height c in
  (ic ← lift (get_next_instruction_context c);
   id ← lift (map_err (λ _, UnsupportedProgramId) (get_program_key c ic));
   _ ← (if height =? 0 then mret tt
        else
          let contains := existsb (λ level, same_program c id (get_instruction_context_at_nesting_level c level))
                            (seqZ 0 height) in
          let is_last := same_program c id (get_current_instruction_context c) in
          ensure (negb (contains && negb is_last)) ReentrancyNotAllowed);
   _ ← on_ctx push;
   modify (λ s, with_frames s (syscall_context s ++ [None]) (memory_contexts s ++ [Placeholder]))) s.

Definition invoke_pop `{!InstructionsSysvar} : Inv unit := λ s,
  on_ctx pop (with_frames s (removelast (syscall_context s)) (removelast (memory_contexts s))).

Definition invoke_stack_height (s : IC) : Z := get_instruction_stack_height (transaction_context s).

(** [*last_mut().ok_or(CallDepth)? = ..]. *)
Definition set_last {A} (l : list A) (x : A) : result InstructionError (list A) :=
  if bool_decide (l = []) then Err CallDepth else Ok (removelast l ++ [x]).

Definition set_syscall_context (x : SyscallContext) : Inv unit := λ s,
  match set_last (syscall_context s) (Some x) with
  | Err e => (Err e, s)
  | Ok l => (Ok tt, with_frames s l (memory_contexts s))
  end.
Definition set_memory_context_abi_v1 (x : MemoryContextType) : Inv unit := λ s,
  match set_last (memory_contexts s) x with
  | Err e => (Err e, s)
  | Ok l => (Ok tt, with_frames s (syscall_context s) l)
  end.

Definition is_magic_root_authorized (s : IC) : bool :=
  match magic_root s with
  | Some index => bool_decide (get_current_instruction_index (transaction_context s) = Ok index)
  | None => false
  end.

Definition effective_caller (s : IC) : result InstructionError (option Pubkey) :=
  let height := invoke_stack_height s in
  let physical :=
    match checked_sub height 2 with
    | None => Ok None
    | Some parent_level =>
        k ← (ic ← get_instruction_context_at_nesting_level (transaction_context s) parent_level;
             get_program_key (transaction_context s) ic);
        Ok (Some k)
    end in
  match native_caller s with
  | Some caller => if nc_stack_height caller =? height then Ok (Some (nc_program_id caller)) else physical
  | None => physical
  end.

(** ** Preparing a call between programs *)

(** [transaction_callee_map] and [instruction_accounts]; an account of a transaction has an
    index below 256. *)
Record Callee := { callee_map : list Z; callee_accounts : list InstructionAccount }.

Definition callee_new : Callee :=
  {| callee_map := replicate (Z.to_nat MAX_ACCOUNTS_PER_TRANSACTION) (umax 16); callee_accounts := [] |}.
Definition index_in_callee (x : Callee) (index : Z) : Z := default (umax 16) (callee_map x !! Z.to_nat index).

(** [set_is_signer(old || s)] and [set_is_writable(old || w)]. *)
Definition widen (ia : InstructionAccount) (s w : bool) : InstructionAccount :=
  {| index_in_transaction := index_in_transaction ia;
     ia_is_signer := Z.b2z (account_is_signer ia || s);
     ia_is_writable := Z.b2z (account_is_writable ia || w) |}.

(** The loop over the metas of the instruction. *)
Definition add_meta (a : TransactionAccounts) (x : Callee) (meta : AccountMeta)
    : result InstructionError Callee :=
  index ← ok_or (find_index_of_account a (meta_pubkey meta)) MissingAccount;
  let i := index_in_callee x index in
  if i <? zlen (callee_accounts x) then
    ia ← ok_or (callee_accounts x !! Z.to_nat i) MissingAccount;
    let ia := widen ia (meta_is_signer meta) (meta_is_writable meta) in
    Ok {| callee_map := callee_map x;
          callee_accounts := <[Z.to_nat i := ia]> (callee_accounts x) ++ [ia] |}
  else
    Ok {| callee_map := <[Z.to_nat index := wrap 16 (zlen (callee_accounts x))]> (callee_map x);
          callee_accounts := callee_accounts x ++
            [instruction_account_new index (meta_is_signer meta) (meta_is_writable meta)] |}.

Fixpoint add_metas (a : TransactionAccounts) (x : Callee) (metas : list AccountMeta)
    : result InstructionError Callee :=
  match metas with
  | [] => Ok x
  | m :: metas => x ← add_meta a x m; add_metas a x metas
  end.

(** The loop that spreads the privileges of repeated accounts and checks those of the others
    against the caller. *)
Definition check_meta (ic : InstructionContext) (metas : list AccountMeta) (signers : list Pubkey)
    (map : list Z) (accs : list InstructionAccount) (current : nat)
    : result InstructionError (list InstructionAccount) :=
  ia ← ok_or (accs !! current) MissingAccount;
  let first := default (umax 16) (map !! Z.to_nat (index_in_transaction ia)) in
  if negb (Z.of_nat current =? first) then
    reference ← ok_or (accs !! Z.to_nat first) MissingAccount;
    Ok (<[current := widen ia (account_is_signer reference) (account_is_writable reference)]> accs)
  else
    index_in_caller ← get_index_of_account_in_instruction ic (index_in_transaction ia);
    meta ← ok_or (metas !! current) MissingAccount;
    caller ← ok_or (ic_accounts ic !! Z.to_nat index_in_caller) MissingAccount;
    if account_is_writable ia && negb (account_is_writable caller) then Err PrivilegeEscalation
    else if account_is_signer ia
            && negb (account_is_signer caller || bool_decide (meta_pubkey meta ∈ signers))
    then Err PrivilegeEscalation
    else Ok accs.

Fixpoint check_metas (ic : InstructionContext) (metas : list AccountMeta) (signers : list Pubkey)
    (map : list Z) (accs : list InstructionAccount) (indices : list nat)
    : result InstructionError (list InstructionAccount) :=
  match indices with
  | [] => Ok accs
  | i :: indices =>
      accs ← check_meta ic metas signers map accs i;
      check_metas ic metas signers map accs indices
  end.

(** The program must be one of the caller's accounts. *)
Definition callee_program (a : TransactionAccounts) (ic : InstructionContext) (id : Pubkey)
    : result InstructionError Z :=
  index ← ok_or (find_index_of_account a id) MissingAccount;
  _ ← map_err (λ _, MissingAccount) (get_index_of_account_in_instruction ic index);
  Ok index.

Definition prepare_next_cpi_instruction (ix : CallInstruction) (signers : list Pubkey) : Inv unit := λ s,
  let c := transaction_context s in
  (ic ← lift (get_current_instruction_context c);
   x ← lift (add_metas (tx_accounts c) callee_new (instruction_metas ix));
   accs ← lift (check_metas ic (instruction_metas ix) signers (callee_map x) (callee_accounts x)
                  (seq 0 (length (callee_accounts x))));
   program ← lift (callee_program (tx_accounts c) ic (program_id ix));
   caller_index ← lift (get_current_instruction_index c);
   on_ctx (configure_instruction_at_index (get_instruction_trace_length c) program accs (callee_map x)
             (instruction_bytes ix) (Some (wrap 16 caller_index)))) s.

(** ** Preparing an instruction of the message *)

Definition add_index (m : SVMMessage) (x : Callee) (index : Z) : Callee :=
  {| callee_map :=
       if zlen (callee_accounts x) <? index_in_callee x index
       then <[Z.to_nat index := wrap 16 (zlen (callee_accounts x))]> (callee_map x)
       else callee_map x;
     callee_accounts := callee_accounts x ++
       [instruction_account_new index (msg_signer m index) (msg_writable m index)] |}.

Definition prepare_next_top_level_instruction (m : SVMMessage) (ix : SVMInstruction)
    (program_account_index : Z) : Inv unit := λ s,
  let x := foldl (add_index m) callee_new (ix_accounts ix) in
  on_ctx (configure_instruction_at_index (get_instruction_trace_length (transaction_context s))
            program_account_index (callee_accounts x) (callee_map x) (ix_data ix) None) s.

(** ** Processing instructions *)

Section process.
Context `{RR : !RentRules} `{IS : !InstructionsSysvar} `{PR : !ProgramRuntime Code}.

(** Programs reach the accounts through handles, through shared borrows and through memory
    regions. A region names an account only where [can_data_be_changed] passed: the current
    instruction may write the account, and its mode permits writes. *)
Definition current_accounts (s : IC) : list InstructionAccount :=
  match get_current_instruction_context (transaction_context s) with
  | Ok ic => ic_accounts ic
  | Err _ => []
  end.
Definition may_write (s : IC) (index : Z) : bool :=
  existsb (λ ia, (index_in_transaction ia =? index) && account_is_writable ia) (current_accounts s) &&
  match accounts (tx_accounts (transaction_context s)) !! Z.to_nat index with
  | Some (_, a) => is_writable (mode (core_of (storage (tx_accounts (transaction_context s))) a))
  | None => false
  end.
Definition allowed_action (s : IC) (x : Action) : bool :=
  match x with
  | XConfigure _ _ _ _ _ _ | XPush | XPop => false
  | XFault region _ _ _ _ =>
      match payload region with Some index => may_write s index | None => true end
  | _ => true
  end.
Definition take_action (x : Action) (s : IC) : IC :=
  if allowed_action s x then on_session (λ t, act t x) s else s.

(** A part of the runtime that also reports the units it consumed, on errors too. *)
Abbreviation Metered := (IC → result InstructionError unit * Z * IC).

Fixpoint derive_signers (seeds : list (list (list Z))) (caller : Pubkey)
    : result InstructionError (list Pubkey) :=
  match seeds with
  | [] => Ok []
  | x :: seeds =>
      k ← create_program_address x caller; rest ← derive_signers seeds caller; Ok (k :: rest)
  end.

Section calls.
(** [process_instruction] of the callee. *)
Context (process : Metered).

Definition process_callee : Inv unit := λ s, let '(r, _, s) := process s in (r, s).

Definition native_invoke_signed (ix : CallInstruction) (signer_seeds : list (list (list Z))) : Inv unit := λ s,
  let c := transaction_context s in
  (caller ← lift (ic ← get_current_instruction_context c; get_program_key c ic);
   signers ← lift (derive_signers signer_seeds caller);
   _ ← prepare_next_cpi_instruction ix signers;
   process_callee) s.

(** [replace] of the authorization, the call, and its restoration. *)
Definition process_as_magic_root : Inv unit := λ s,
  let saved := magic_root s in
  let s := with_origin s (native_caller s)
             (Some (get_instruction_trace_length (transaction_context s))) in
  let '(r, s) := process_callee s in
  (r, with_origin s (native_caller s) saved).
Definition process_on_behalf (caller : NativeCaller) : Inv unit := λ s,
  let saved := native_caller s in
  let s := with_origin s (Some caller) (magic_root s) in
  let '(r, s) := process_callee s in
  (r, with_origin s saved (magic_root s)).

Definition native_invoke_magic_root (ix : CallInstruction) : Inv unit :=
  _ ← prepare_next_cpi_instruction ix [];
  process_as_magic_root.

Definition native_invoke_as (source_program : Pubkey) (ix : CallInstruction) (signers : list Pubkey)
    : Inv unit := λ s,
  (height ← lift (ok_or (checked_add 64 (invoke_stack_height s) 1) CallDepth);
   _ ← prepare_next_cpi_instruction ix signers;
   process_on_behalf {| nc_program_id := source_program; nc_stack_height := height |}) s.

Definition program_step (x : ProgramStep Code) : Inv unit :=
  match x with
  | SAction a => modify (take_action a)
  | SConsumeChecked n => consume_checked n
  | SConsume n => modify (consume n)
  | SDeploy key e => modify (λ s, with_cache s (store_modified_entry (program_cache s) key e))
  | SAccounts op => on_ctx (on_accounts op)
  | SInvoke (InvokeSigned seeds) ix => native_invoke_signed ix seeds
  | SInvoke InvokeMagicRoot ix => native_invoke_magic_root ix
  | SInvoke (InvokeAs source signers) ix => native_invoke_as source ix signers
  end.

Fixpoint run_program (p : Program Code) (s : IC) : result Failure unit * IC :=
  match p with
  | Exit r => (r, s)
  | Step x k => let '(r, s) := program_step x s in run_program (k r s) s
  end.

(** What runs in the frame, once the entry of the program is found. *)
Definition enter (id : Pubkey) (e : ProgramCacheEntry Code) : Inv (Program Code) :=
  match e with
  | Builtin code =>
      f ← lift (ok_or (entrypoint code) UnsupportedProgramId);
      _ ← on_ctx (set_return_data id []);
      _ ← set_syscall_context {| allocator := allocator_new 0; accounts_metadata := [] |};
      _ ← set_memory_context_abi_v1 (ABIv1 (allocator_new 0) []);
      read f
  | Loaded _ code =>
      _ ← on_ctx (set_return_data id []);
      read (vm_execute code)
  | _ => mret (Exit (Err (FInstruction UnsupportedProgramId)))
  end.

Definition is_builtin (e : ProgramCacheEntry Code) : bool :=
  match e with Builtin _ => true | _ => false end.

(** The checks of [process_executable_chain] up to the entry. *)
Definition find_entry : Inv (Pubkey * ProgramCacheEntry Code) := λ s,
  let c := transaction_context s in
  (ic ← lift (get_current_instruction_context c);
   id ← lift (get_program_key c ic);
   owner ← on_ctx (on_accounts (get_program_owner ic));
   _ ← ensure (bool_decide (owner = native_loader) || bool_decide (owner = bpf_loader_deprecated)
               || bool_decide (owner = bpf_loader) || bool_decide (owner = bpf_loader_upgradeable)
               || bool_decide (owner = loader_v4)) UnsupportedProgramId;
   e ← lift (ok_or (cache_find (program_cache s) id) UnsupportedProgramId);
   mret (id, e)) s.

Definition process_executable_chain : Metered := λ s,
  match find_entry s with
  | (Err e, s) => (Err e, 0, s)
  | (Ok (id, entry), s) =>
      let pre := compute_meter s in
      match enter id entry s with
      | (Err e, s) => (Err e, 0, s)
      | (Ok p, s) =>
          let '(r, s) := run_program p s in
          let r := map_err downcast r in
          let units := saturating_sub pre (compute_meter s) in
          if is_builtin entry && match r with Ok _ => true | Err _ => false end && (units =? 0)
          then (Err BuiltinProgramsMustConsumeComputeUnits, units, s)
          else (r, units, s)
      end
  end.

End calls.

(** [a.and(b)]: both have run, the first error is reported. *)
Definition and_then (a b : result InstructionError unit) : result InstructionError unit :=
  match a with Ok _ => b | Err e => Err e end.

(** A frame needs a place on the stack, so that the depth of calls is bounded by its capacity;
    the fuel counts the places left. *)
Fixpoint process_instruction (fuel : nat) : Metered := λ s,
  match fuel with
  | O => (Err CallDepth, 0, s)
  | S fuel =>
      match invoke_push s with
      | (Err e, s) => (Err e, 0, s)
      | (Ok _, s) =>
          let '(r, units, s) := process_executable_chain (process_instruction fuel) s in
          let '(r', s) := invoke_pop s in
          (and_then r r', units, s)
      end
  end.

(** The fuel of [process_instruction]: one more than the stack can hold. *)
Definition depth (s : IC) : nat := S (Z.to_nat (instruction_stack_capacity (transaction_context s))).

Definition process_precompile (id : Pubkey) (data : list Z) (datas : list (list Z)) : Inv unit := λ s,
  match invoke_push s with
  | (Err e, s) => (Err e, s)
  | (Ok _, s) => let '(r, s) := invoke_pop s in (and_then (precompile id data datas) r, s)
  end.

(** ** The instructions of a message *)



(** One iteration of [process_message]; the units are added before an error is returned. *)
Definition process_top_level (m : SVMMessage) (index : Z) (id : Pubkey) (ix : SVMInstruction)
    (program_index : Z) (units : Z) (s : IC) : result TransactionError unit * Z * IC :=
  match prepare_next_top_level_instruction m ix program_index s with
  | (Err e, s) => (Err (InstructionErrorAt (wrap 8 index) e), units, s)
  | (Ok _, s) =>
      let '(r, n, s) :=
        if is_precompile id then
          let '(r, s) := process_precompile id (ix_data ix) (ix_data <$> msg_instructions m) s in
          (r, 0, s)
        else process_instruction (depth s) s in
      (map_err (InstructionErrorAt (wrap 8 index)) r, saturating_add 64 units n, s)
  end.

Fixpoint process_instructions (m : SVMMessage) (l : list (Pubkey * SVMInstruction * Z)) (index units : Z)
    (s : IC) : result TransactionError unit * Z * IC :=
  match l with
  | [] => (Ok tt, units, s)
  | (id, ix, program_index) :: l =>
      match process_top_level m index id ix program_index units s with
      | (Ok _, units, s) => process_instructions m l (index + 1) units s
      | (Err e, units, s) => (Err e, units, s)
      end
  end.

Definition process_message (m : SVMMessage) (program_indices : list Z) (s : IC)
    : result TransactionError unit * Z * IC :=
  process_instructions m (zip (program_instructions m) program_indices) 0 0 s.

End process.
End invoke.
