(* ===== verification/InvokeFacts.v ===== *)
(** * Facts about invocations

    Whatever the programs do, processing an instruction keeps the invariants of the session
    that its primitive operations keep, restores the stacks, and accounts for the compute
    units it took. *)

From stdpp Require Import base list gmap numbers option.
From S2P Require Import Prelude Effects Memory AccountMode Account CtxAccounts CtxInstruction CtxStack CtxOps CtxSession CtxTrace Programs Invoke.

Local Open Scope Z_scope.

(** ** Programs with arguments of the right types

    Calls from the virtual machine are limited to 255 accounts, and builtins build shorter ones. *)

Definition MAX_ACCOUNTS_PER_INSTRUCTION : Z := 255.

(** [direct]: whether programs may work on the accounts of the transaction without handles,
    which only the engine's own MagicRoot builtin does. *)
Definition argument_ok {Code} (direct : bool) (x : ProgramStep Code) : Prop :=
  match x with
  | SAction x => action_ok x
  | SConsumeChecked n | SConsume n => 0 ≤ n
  | SInvoke _ ix => zlen (instruction_metas ix) ≤ MAX_ACCOUNTS_PER_INSTRUCTION
  | SAccounts _ => direct = true
  | _ => True
  end.

Inductive typed {Code} (direct : bool) : Program Code → Prop :=
| typed_exit r : typed direct (Exit r)
| typed_step x k : argument_ok direct x → (∀ r s, typed direct (k r s)) → typed direct (Step x k).

Class TypedPrograms (Code : Type) (direct : bool) `{!ProgramRuntime Code} := {
  entrypoint_typed code f s : entrypoint code = Some f → typed direct (f s);
  vm_execute_typed code s : typed direct (vm_execute code s);
}.

Section facts.
Context {Code : Type} `{RR : !RentRules} `{IS : !InstructionsSysvar} `{PR : !ProgramRuntime Code}.
Context {direct : bool} `{TP : !TypedPrograms Code direct}.
Abbreviation IC := (InvokeContext Code).
Abbreviation Inv := (Eff InstructionError IC).
Abbreviation Metered := (IC → result InstructionError unit * Z * IC).

(** ** Operations on the transaction context are actions of the session *)

Lemma on_ctx_session {A} (p : Op TransactionContext A) (s : IC) :
  session (on_ctx p s).2 = {| ctx := (p (transaction_context s)).2; held := held (session s);
                              shared := shared (session s) |}.
Proof using Type. unfold on_ctx. by destruct (p (transaction_context s)). Qed.

Lemma on_ctx_rest {A} (p : Op TransactionContext A) (s : IC) :
  let s' := (on_ctx p s).2 in
  compute_meter s' = compute_meter s ∧ syscall_context s' = syscall_context s ∧
  memory_contexts s' = memory_contexts s ∧ native_caller s' = native_caller s ∧
  magic_root s' = magic_root s ∧ program_cache s' = program_cache s.
Proof using Type. unfold on_ctx. by destruct (p (transaction_context s)). Qed.

Lemma on_ctx_result {A} (p : Op TransactionContext A) (s : IC) :
  (on_ctx p s).1 = (p (transaction_context s)).1.
Proof using Type. unfold on_ctx. by destruct (p (transaction_context s)). Qed.

(** A frame is refused before or by the push, or entered. *)
Definition entered_frame (s : IC) : IC :=
  let s' := (on_ctx push s).2 in
  with_frames s' (syscall_context s' ++ [None]) (memory_contexts s' ++ [Placeholder]).

Lemma invoke_push_cases (s : IC) :
  (∃ e, invoke_push s = (Err e, s)) ∨
  (∃ e, invoke_push s = (Err e, (on_ctx push s).2)) ∨
  ((push (transaction_context s)).1 = Ok tt ∧ invoke_push s = (Ok tt, entered_frame s)).
Proof using Type.
  unfold invoke_push, mbind, op_bind, lift.
  destruct (get_next_instruction_context (transaction_context s)) as [ic|e]; [|left; by eexists].
  destruct (map_err _ (get_program_key _ ic)) as [id|e]; [|left; by eexists].
  match goal with |- context [if ?x =? 0 then ?y else ?z] =>
    assert (∃ r, (if x =? 0 then y else z) s = (r, s)) as [r Hr] end.
  { case_match; [by eexists|]. unfold ensure, fail, mret, op_ret. case_match; by eexists. }
  rewrite Hr. destruct r as [[]|e]; [|left; by eexists]. right.
  unfold entered_frame. pose proof (on_ctx_result push s) as Hp.
  destruct (on_ctx push s) as [[[]|e] s1]; [right|left; by eexists]. done.
Qed.

(** A call between programs is refused, or configured with checked accounts. *)
Record prepared (ix : CallInstruction) (signers : list Pubkey) (s : IC) (ic : InstructionContext)
    (x : Callee) (accs : list InstructionAccount) (program caller : Z) : Prop := {
  pr_current : get_current_instruction_context (transaction_context s) = Ok ic;
  pr_metas : add_metas (tx_accounts (transaction_context s)) callee_new (instruction_metas ix) = Ok x;
  pr_checked : check_metas ic (instruction_metas ix) signers (callee_map x) (callee_accounts x)
                 (seq 0 (length (callee_accounts x))) = Ok accs;
  pr_program : callee_program (tx_accounts (transaction_context s)) ic (program_id ix) = Ok program;
  pr_caller : get_current_instruction_index (transaction_context s) = Ok caller;
}.

Lemma prepare_cases ix signers (s : IC) :
  (∃ e, prepare_next_cpi_instruction ix signers s = (Err e, s)) ∨
  ∃ ic x accs program caller, prepared ix signers s ic x accs program caller ∧
    prepare_next_cpi_instruction ix signers s
    = on_ctx (configure_instruction_at_index (get_instruction_trace_length (transaction_context s))
                program accs (callee_map x) (instruction_bytes ix) (Some (wrap 16 caller))) s.
Proof using Type.
  unfold prepare_next_cpi_instruction, mbind, op_bind, lift.
  destruct (get_current_instruction_context _) as [ic|] eqn:E1; [|left; by eexists].
  destruct (add_metas _ _ _) as [x|] eqn:E2; [|left; by eexists].
  destruct (check_metas _ _ _ _ _ _) as [accs|] eqn:E3; [|left; by eexists].
  destruct (callee_program _ _ _) as [program|] eqn:E4; [|left; by eexists].
  destruct (get_current_instruction_index _) as [caller|] eqn:E5; [|left; by eexists].
  right. by exists ic, x, accs, program, caller.
Qed.

(** Reading the owner of the program is a shared borrow and its release. *)
Lemma program_owner_session ic (s : IC) :
  session (on_ctx (on_accounts (get_program_owner ic)) s).2 = session s ∨
  ∃ i, session (on_ctx (on_accounts (get_program_owner ic)) s).2
    = run [XShare i; XUnshare (length (shared (session s)))] (session s).
Proof using Type.
  rewrite on_ctx_session. unfold on_accounts, get_program_owner, transaction_context.
  destruct (session s) as [c h r] eqn:Es. simpl.
  assert (Hc : {| ctx := with_tx_accounts c (tx_accounts c); held := h; shared := r |}
               = {| ctx := c; held := h; shared := r |}) by by destruct c.
  destruct (get_index_of_program_account_in_transaction ic) as [i|e]; [|left; done].
  right. exists i. unfold share_account, state_of. cbn [ctx].
  destruct (try_borrow i (tx_accounts c)) as [[k|e] a] eqn:Eb; simpl.
  - unfold try_borrow, borrow_with in Eb. destruct (borrow_counters _ !! _) as [n|]; [|done].
    destruct (counter_try_borrow n); simplify_eq.
    rewrite (list_lookup_middle r [] k (length r)) by done. simpl.
    rewrite delete_middle, app_nil_r. by destruct c.
  - destruct (r !! length r) eqn:Er; [apply lookup_lt_Some in Er; lia|]. by destruct c.
Qed.

(** ** Invariants of the session *)

Section invariant.
Context (I : Session → Prop).
Hypothesis H_action : ∀ x (s : IC), action_ok x → I (session s) → I (session (take_action x s)).
Hypothesis H_plain : ∀ x t,
  match x with XPush | XPop | XReturn _ _ | XShare _ | XUnshare _ => True | _ => False end →
  I t → I (act t x).
Hypothesis H_cpi : ∀ ix signers (s : IC),
  zlen (instruction_metas ix) ≤ MAX_ACCOUNTS_PER_INSTRUCTION →
  I (session s) → I (session (prepare_next_cpi_instruction ix signers s).2).

Hypothesis H_direct : direct = true → ∀ (op : Op TransactionAccounts unit) (s : IC),
  I (session s) → I (session (on_ctx (on_accounts op) s).2).

Lemma invoke_push_keeps (s : IC) : I (session s) → I (session (invoke_push s).2).
Proof using H_plain.
  intros Hs.
  assert (I (session (on_ctx push s).2)) as Hp.
  { rewrite on_ctx_session. change (I (act (session s) XPush)). by apply H_plain. }
  by destruct (invoke_push_cases s) as [[e ->]|[[e ->]|(_ & ->)]].
Qed.

Lemma invoke_pop_keeps (s : IC) : I (session s) → I (session (invoke_pop s).2).
Proof using H_plain.
  intros Hs. unfold invoke_pop. rewrite on_ctx_session.
  change (I (act (session s) XPop)). by apply H_plain.
Qed.

Lemma find_entry_keeps (s : IC) : I (session s) → I (session (find_entry s).2).
Proof using H_plain.
  intros Hs. unfold find_entry, mbind, op_bind, lift, ensure, fail, mret, op_ret.
  destruct (get_current_instruction_context _) as [ic|]; [|done].
  destruct (get_program_key _ ic) as [id|]; [|done].
  assert (I (session (on_ctx (on_accounts (get_program_owner ic)) s).2)) as Ho.
  { destruct (program_owner_session ic s) as [->|[i ->]]; [done|].
    apply (H_plain (XUnshare _) (act _ _)); [done|]. by apply (H_plain (XShare _)). }
  destruct (on_ctx (on_accounts (get_program_owner ic)) s) as [[o|] s1]; [|done].
  repeat (case_match; try done); by simplify_eq.
Qed.

Lemma set_return_keeps id bytes (s : IC) :
  I (session s) → I (session (on_ctx (set_return_data id bytes) s).2).
Proof using H_plain.
  intros Hs. rewrite on_ctx_session. change (I (act (session s) (XReturn id bytes))). by apply H_plain.
Qed.

Lemma enter_keeps id e (s : IC) : I (session s) → I (session (enter id e s).2).
Proof using H_plain.
  intros Hs. unfold enter. destruct e; try done.
  - unfold mbind, op_bind. pose proof (set_return_keeps id [] s Hs) as Hr.
    by destruct (on_ctx (set_return_data id []) s) as [[]].
  - unfold mbind, op_bind, lift. destruct (ok_or _ _); [|done].
    pose proof (set_return_keeps id [] s Hs) as Hr.
    destruct (on_ctx (set_return_data id []) s) as [[] s1]; [|done].
    unfold set_syscall_context, set_memory_context_abi_v1. repeat (case_match; simplify_eq; try done).
Qed.

Lemma enter_typed id e (s s' : IC) p : enter id e s = (Ok p, s') → typed direct p.
Proof using TP.
  unfold enter. destruct e; try by (injection 1 as <- <-; constructor).
  - intros (? & ? & _ & [= <- <-])%op_bind_inv_ok. apply vm_execute_typed.
  - intros (f & s1 & H1 & H)%op_bind_inv_ok. unfold lift, ok_or in H1. case_match; simplify_eq.
    apply op_bind_inv_ok in H as (? & ? & _ & H). apply op_bind_inv_ok in H as (? & ? & _ & H).
    apply op_bind_inv_ok in H as (? & ? & _ & [= <- <-]). by eapply entrypoint_typed.
Qed.

Section calls.
Context (process : Metered).
Hypothesis H_process : ∀ s, I (session s) → I (session (process s).2).

Lemma process_callee_keeps (s : IC) : I (session s) → I (session (process_callee process s).2).
Proof using H_process. intros Hs. unfold process_callee. apply H_process in Hs. by destruct (process s) as [[]]. Qed.

Lemma program_step_keeps x (s : IC) :
  argument_ok direct x → I (session s) → I (session (program_step process x s).2).
Proof using H_action H_cpi H_direct H_process.
  intros Hx Hs. destruct x as [x|n|n|key e|op|[seeds| |source signers] ix]; simpl in Hx |- *; try done.
  - by apply H_action.
  - by apply H_direct.
  - unfold native_invoke_signed, mbind, op_bind, lift.
    match goal with |- context [match ?x with Ok _ => _ | Err _ => _ end] => destruct x as [k|] end; [|done].
    destruct (derive_signers seeds k) as [l|]; [|done].
    pose proof (H_cpi ix l s Hx Hs) as Hp.
    destruct (prepare_next_cpi_instruction ix l s) as [[] s1]; [|done]. by apply process_callee_keeps.
  - unfold native_invoke_magic_root, mbind, op_bind. pose proof (H_cpi ix [] s Hx Hs) as Hp.
    destruct (prepare_next_cpi_instruction ix [] s) as [[] s1]; [|done].
    unfold process_as_magic_root.
    match goal with |- context [process_callee process ?x] =>
      pose proof (process_callee_keeps x Hp) as Hq; by destruct (process_callee process x) end.
  - unfold native_invoke_as, mbind, op_bind, lift. case_match; [|done].
    pose proof (H_cpi ix signers s Hx Hs) as Hp.
    destruct (prepare_next_cpi_instruction ix signers s) as [[] s1]; [|done].
    unfold process_on_behalf.
    match goal with |- context [process_callee process ?x] =>
      pose proof (process_callee_keeps x Hp) as Hq; by destruct (process_callee process x) end.
Qed.

Lemma run_program_keeps p (s : IC) : typed direct p → I (session s) → I (session (run_program process p s).2).
Proof using H_action H_cpi H_direct H_process.
  intros Hp. revert s. induction Hp as [|x k Hx _ IH]; intros s Hs; [done|]. simpl.
  pose proof (program_step_keeps x s Hx Hs) as H1. destruct (program_step process x s) as [r s1].
  by apply IH.
Qed.

Lemma chain_keeps (s : IC) : I (session s) → I (session (process_executable_chain process s).2).
Proof using All.
  intros Hs. unfold process_executable_chain. pose proof (find_entry_keeps s Hs) as H1.
  destruct (find_entry s) as [[[id e]|] s1]; [|done].
  pose proof (enter_keeps id e s1 H1) as H2.
  destruct (enter id e s1) as [[p|] s2] eqn:E2; [|done].
  pose proof (run_program_keeps p s2 (enter_typed _ _ _ _ _ E2) H2) as H3.
  destruct (run_program process p s2) as [r s3]. cbv zeta. by case_match.
Qed.

End calls.

Lemma process_instruction_keeps fuel (s : IC) :
  I (session s) → I (session (process_instruction fuel s).2).
Proof using All.
  revert s. induction fuel as [|fuel IH]; intros s Hs; [done|]. simpl.
  pose proof (invoke_push_keeps s Hs) as H1. destruct (invoke_push s) as [[] s1]; [|done].
  pose proof (chain_keeps _ IH s1 H1) as H2.
  destruct (process_executable_chain _ s1) as [[r n] s2].
  pose proof (invoke_pop_keeps s2 H2) as H3. by destruct (invoke_pop s2).
Qed.

Context (m : SVMMessage).
Hypothesis H_top : ∀ ix program_index (s : IC),
  ix ∈ msg_instructions m →
  I (session s) → I (session (prepare_next_top_level_instruction m ix program_index s).2).

Lemma process_top_level_keeps index id ix program_index units (s : IC) :
  ix ∈ msg_instructions m →
  I (session s) → I (session (process_top_level m index id ix program_index units s).2).
Proof using All.
  intros Hix Hs. unfold process_top_level. pose proof (H_top ix program_index s Hix Hs) as H1.
  destruct (prepare_next_top_level_instruction _ _ _ s) as [[] s1]; [|done].
  destruct (is_precompile id).
  - unfold process_precompile. pose proof (invoke_push_keeps s1 H1) as H2.
    destruct (invoke_push s1) as [[] s2]; [|done]. pose proof (invoke_pop_keeps s2 H2) as H3.
    by destruct (invoke_pop s2).
  - pose proof (process_instruction_keeps (depth s1) s1 H1) as H2.
    by destruct (process_instruction (depth s1) s1) as [[]].
Qed.

Lemma process_message_keeps indices (s : IC) :
  I (session s) → I (session (process_message m indices s).2).
Proof using All.
  unfold process_message.
  assert (Hl : Forall (λ x, x.1.2 ∈ msg_instructions m) (zip (program_instructions m) indices)).
  { apply list.Forall_forall. intros [[id ix] p] Hx. apply elem_of_zip_l in Hx.
    unfold program_instructions in Hx. apply list_elem_of_omap in Hx as (ix' & Hin & Hx).
    destruct (msg_keys m !! _); simplify_eq/=. done. }
  generalize 0 at 1. generalize 0 as units. revert s.
  induction Hl as [|[[id ix] p] l Hix _ IH]; intros s units index Hs; [done|]. simpl.
  pose proof (process_top_level_keeps index id ix p units s Hix Hs) as H1.
  destruct (process_top_level m index id ix p units s) as [[[] units'] s1]; [|done]. by apply IH.
Qed.

End invariant.

End facts.
