(* ===== verification/InvokeFrames.v ===== *)
(** * Frames and compute units of invocations

    Processing an instruction keeps the frames below it, restores the runtime's own stacks and
    the origin of the call, and takes exactly the compute units it reports. Calls nest no
    deeper than the stack, so that the fuel of the model never decides a result. *)

From stdpp Require Import base list gmap numbers option.
From S2P Require Import Prelude Effects Memory AccountMode Account CtxAccounts CtxInstruction CtxStack CtxOps CtxSession CtxTrace Programs Invoke InvokeFacts.

Local Open Scope Z_scope.

Section frames.
Context {Code : Type} `{RR : !RentRules} `{IS : !InstructionsSysvar} `{PR : !ProgramRuntime Code}.
Context {direct : bool} `{TP : !TypedPrograms Code direct}.
Abbreviation IC := (InvokeContext Code).
Abbreviation Inv := (Eff InstructionError IC).
Abbreviation Metered := (IC → result InstructionError unit * Z * IC).

Definition stack_of (s : IC) : list Z := instruction_stack (transaction_context s).
Definition capacity_of (s : IC) : Z := instruction_stack_capacity (transaction_context s).

(** The last entry of a list may have been replaced. *)
Definition same_below {A} (l l' : list A) : Prop :=
  removelast l' = removelast l ∧ length l' = length l.

Record framed (s s' : IC) : Prop := {
  fr_stack : stack_of s `prefix_of` stack_of s';
  fr_capacity : capacity_of s' = capacity_of s;
  fr_syscall : same_below (syscall_context s) (syscall_context s');
  fr_memory : same_below (memory_contexts s) (memory_contexts s');
  fr_origin : native_caller s' = native_caller s ∧ magic_root s' = magic_root s;
  fr_meter : 0 ≤ compute_meter s → 0 ≤ compute_meter s' ≤ compute_meter s;
}.

#[global] Instance framed_preorder : PreOrder framed.
Proof.
  split.
  - intros s. by constructor.
  - intros s t u [A1 A2 [A3 A3'] [A4 A4'] [A5 A5'] A6] [B1 B2 [B3 B3'] [B4 B4'] [B5 B5'] B6].
    constructor; try (split; congruence); [by etrans|congruence|]. intros. lia.
Qed.

(** A call also puts back the top of the runtime's stacks. *)
Definition restored (s s' : IC) : Prop :=
  framed s s' ∧ syscall_context s' = syscall_context s ∧ memory_contexts s' = memory_contexts s.

(** What a call reports is what it took. *)
Definition sound (process : Metered) : Prop := ∀ s r n s',
  0 ≤ compute_meter s → process s = (r, n, s') →
  restored s s' ∧ n = compute_meter s - compute_meter s'.

Lemma framed_session (s s' : IC) :
  stack_of s `prefix_of` stack_of s' → capacity_of s' = capacity_of s →
  compute_meter s' = compute_meter s → syscall_context s' = syscall_context s →
  memory_contexts s' = memory_contexts s → native_caller s' = native_caller s →
  magic_root s' = magic_root s → framed s s'.
Proof using Type.
  intros H1 H2 H3 H4 H5 H6 H7. constructor; try done; rewrite ?H4, ?H5; try done. lia.
Qed.

Lemma framed_on_ctx {A} (p : Op TransactionContext A) (s : IC) :
  instruction_stack (transaction_context s) `prefix_of` instruction_stack (p (transaction_context s)).2 →
  instruction_stack_capacity (p (transaction_context s)).2 = capacity_of s →
  framed s (on_ctx p s).2.
Proof using Type.
  intros H1 H2. pose proof (on_ctx_rest p s) as (E1 & E2 & E3 & E4 & E5 & _).
  pose proof (on_ctx_session p s) as Es. apply framed_session; try done.
  - unfold stack_of, transaction_context at 2. by rewrite Es.
  - unfold capacity_of, transaction_context at 1. by rewrite Es.
Qed.

Lemma push_framed c :
  instruction_stack c `prefix_of` instruction_stack (push c).2 ∧
  instruction_stack_capacity (push c).2 = instruction_stack_capacity c.
Proof using Type.
  destruct (push_cases c) as [->|(f & _ & _ & _ & Hp)]; [done|]. case_decide; [|by rewrite Hp].
  destruct Hp as (-> & _ & -> & _). split; [|done]. simpl. by apply prefix_app_r.
Qed.

Lemma push_grows c : (push c).1 = Ok tt →
  length (instruction_trace (push c).2) = S (length (instruction_trace c)).
Proof using Type.
  unfold push. cbv zeta. case_match; [done|]. case_match; [done|]. case_match; [done|].
  destruct (list.last (instruction_trace c)) as [f|]; [|done].
  match goal with |- context [let '(p, q) := ?x in _] => destruct x as [[tf next] current] end.
  case_match; [done|]. intros _. cbn [tx_accounts with_stack].
  assert (∀ t : list InstructionFrame, length (t ++ [default_frame]) = S (length t)) as Ht.
  { intros t. rewrite length_app. simpl. lia. }
  destruct (find_index_of_account _ _) as [i|].
  - unfold on_accounts. destruct (store_index _ _ _). cbn. by rewrite Ht, length_insert.
  - cbn. by rewrite Ht, length_insert.
Qed.

Lemma push_ok c : (push c).1 = Ok tt →
  ∃ i, instruction_stack (push c).2 = instruction_stack c ++ [i] ∧
       get_instruction_stack_height c < instruction_stack_capacity c.
Proof using Type.
  intros Hok. pose proof (push_grows c Hok) as Hg.
  destruct (push_cases c) as [E|(f & Hf & _ & _ & Hp)]; [rewrite E in Hg; lia|].
  case_decide; [|by rewrite Hp in Hok]. destruct Hp as (_ & _ & -> & _). by eexists.
Qed.

Lemma act_stack (t : Session) x :
  match x with XPush | XPop => False | _ => True end →
  instruction_stack (ctx (act t x)) = instruction_stack (ctx t) ∧
  instruction_stack_capacity (ctx (act t x)) = instruction_stack_capacity (ctx t).
Proof using Type.
  intros Hx. destruct x; try done; simpl; try unfold borrow_account, share_account,
    configure_instruction_at_index; by repeat case_match.
Qed.

Lemma take_action_framed x (s : IC) : framed s (take_action x s).
Proof using Type.
  unfold take_action. destruct (allowed_action s x) eqn:Ea; [|done].
  destruct (act_stack (session s) x) as [H1 H2]; [by destruct x|].
  apply framed_session; try done. unfold stack_of, transaction_context. simpl. by rewrite H1.
Qed.

Lemma prepare_framed ix signers (s : IC) : framed s (prepare_next_cpi_instruction ix signers s).2.
Proof using Type.
  destruct (prepare_cases ix signers s) as [[e ->]|(ic & x & accs & p & c & _ & ->)]; [done|].
  apply framed_on_ctx; unfold configure_instruction_at_index; by case_match.
Qed.

Lemma prepare_top_framed m ix i (s : IC) : framed s (prepare_next_top_level_instruction m ix i s).2.
Proof using Type.
  unfold prepare_next_top_level_instruction. apply framed_on_ctx;
    unfold configure_instruction_at_index; by case_match.
Qed.

Lemma find_entry_framed (s : IC) :
  framed s (find_entry s).2 ∧ compute_meter (find_entry s).2 = compute_meter s.
Proof using Type.
  assert (H : ∀ ic, let s1 := (on_ctx (on_accounts (get_program_owner ic)) s).2 in
            framed s s1 ∧ compute_meter s1 = compute_meter s).
  { intros ic. split; [apply framed_on_ctx; unfold on_accounts; by case_match|apply on_ctx_rest]. }
  unfold find_entry, mbind, op_bind, lift. case_match; [|done]. case_match; [|done].
  specialize (H val). destruct (on_ctx (on_accounts (get_program_owner val)) s) as [[o|] s1]; [|done].
  unfold ensure, fail, mret, op_ret. repeat (case_match; simplify_eq; try done).
Qed.

Lemma same_below_last {A} (l : list A) x l' : set_last l x = Ok l' → same_below l l'.
Proof using Type.
  unfold set_last. case_bool_decide as H; [done|]. intros [= <-].
  destruct (stack_snoc l H) as (l0 & y & ->). unfold same_below.
  rewrite !removelast_snoc, !length_app. done.
Qed.

Lemma enter_framed id e (s : IC) :
  framed s (enter id e s).2 ∧ compute_meter (enter id e s).2 = compute_meter s.
Proof using Type.
  assert (H : let s1 := (on_ctx (set_return_data id []) s).2 in
            framed s s1 ∧ compute_meter s1 = compute_meter s).
  { split; [by apply framed_on_ctx|apply on_ctx_rest]. }
  unfold enter. destruct e; try (by split); unfold mbind, op_bind.
  unfold lift. destruct (ok_or _ _); [|by split].
  destruct (on_ctx (set_return_data id []) s) as [[] s1]; [|exact H]. destruct H as [H1 H2].
  unfold set_syscall_context. destruct (set_last (syscall_context s1) _) as [l|] eqn:El; [|by split].
  apply same_below_last in El. unfold set_memory_context_abi_v1. simpl.
  destruct (set_last (memory_contexts s1) _) as [l'|] eqn:El'; [apply same_below_last in El'|]; simpl;
    (split; [|done]); etrans; try exact H1; by constructor.
Qed.

Section calls.
Context (process : Metered) (Hsound : sound process).

Lemma callee_framed (s : IC) : 0 ≤ compute_meter s → restored s (process_callee process s).2.
Proof using Hsound.
  intros Hs. unfold process_callee. destruct (process s) as [[r n] s'] eqn:E.
  by destruct (Hsound s r n s' Hs E).
Qed.

Lemma program_step_framed x (s : IC) :
  argument_ok direct x → 0 ≤ compute_meter s → framed s (program_step process x s).2.
Proof using Hsound.
  intros Hx Hs.
  assert (Hc : ∀ n, 0 ≤ n → framed s (consume n s)).
  { intros n Hn. constructor; try done. simpl. unfold saturating_sub. lia. }
  destruct x as [x|n|n|key e|op|[seeds| |source signers] ix]; simpl in Hx |- *; auto using take_action_framed.
  - by apply framed_session.
  - unfold on_accounts. apply framed_on_ctx; by destruct (op (tx_accounts (transaction_context s))).
  - unfold native_invoke_signed, mbind, op_bind, lift.
    match goal with |- context [match ?x with Ok _ => _ | Err _ => _ end] => destruct x as [k|] end; [|done].
    destruct (derive_signers seeds k) as [l|]; [|done].
    pose proof (prepare_framed ix l s) as Hp.
    destruct (prepare_next_cpi_instruction ix l s) as [[] s1]; [|done].
    etrans; [exact Hp|]. apply callee_framed. by apply Hp.
  - unfold native_invoke_magic_root, mbind, op_bind. pose proof (prepare_framed ix [] s) as Hp.
    destruct (prepare_next_cpi_instruction ix [] s) as [[] s1]; [|done].
    etrans; [exact Hp|]. unfold process_as_magic_root.
    match goal with |- context [process_callee process ?x] =>
      destruct (callee_framed x) as [[F1 F2 F3 F4 [F5 F6] F7] _]; [by apply Hp|];
      destruct (process_callee process x) end.
    by constructor.
  - unfold native_invoke_as, mbind, op_bind, lift. case_match; [|done].
    pose proof (prepare_framed ix signers s) as Hp.
    destruct (prepare_next_cpi_instruction ix signers s) as [[] s1]; [|done].
    etrans; [exact Hp|]. unfold process_on_behalf.
    match goal with |- context [process_callee process ?x] =>
      destruct (callee_framed x) as [[F1 F2 F3 F4 [F5 F6] F7] _]; [by apply Hp|];
      destruct (process_callee process x) end.
    by constructor.
Qed.

Lemma run_program_framed p (s : IC) :
  typed direct p → 0 ≤ compute_meter s → framed s (run_program process p s).2.
Proof using Hsound.
  intros Hp. revert s. induction Hp as [|x k Hx _ IH]; intros s Hs; [done|]. simpl.
  pose proof (program_step_framed x s Hx Hs) as H1. destruct (program_step process x s) as [r s1].
  etrans; [exact H1|]. apply IH. by apply H1.
Qed.

Lemma chain_framed (s : IC) r n s' :
  0 ≤ compute_meter s → process_executable_chain process s = (r, n, s') →
  framed s s' ∧ n = compute_meter s - compute_meter s'.
Proof using Hsound TP.
  intros Hs. unfold process_executable_chain.
  destruct (find_entry_framed s) as [F1 M1]. destruct (find_entry s) as [[[id e]|] s1]; simpl in F1, M1.
  2: { intros [= <- <- <-]. split; [done|lia]. }
  destruct (enter_framed id e s1) as [F2 M2].
  destruct (enter id e s1) as [[p|] s2] eqn:E2; simpl in F2, M2.
  2: { intros [= <- <- <-]. split; [by etrans|lia]. }
  pose proof (run_program_framed p s2 (enter_typed _ _ _ _ _ E2)) as F3.
  destruct (run_program process p s2) as [q s3]. cbv zeta. intros H.
  destruct F3 as [? ? ? ? ? F3]; [lia|]. specialize (F3 ltac:(lia)). simpl in F3.
  assert (n = saturating_sub (compute_meter s1) (compute_meter s3) ∧ s' = s3) as [-> ->]
    by (case_match; by simplify_eq).
  split; [|unfold saturating_sub; lia]. do 2 (etrans; [eassumption|]). by constructor.
Qed.

End calls.

Lemma pop_framed (s s1 s2 : IC) :
  stack_of s1 = stack_of s ++ [default 0 (list.last (stack_of s1))] →
  capacity_of s1 = capacity_of s →
  syscall_context s1 = syscall_context s ++ [None] → memory_contexts s1 = memory_contexts s ++ [Placeholder] →
  native_caller s1 = native_caller s → magic_root s1 = magic_root s →
  compute_meter s1 = compute_meter s →
  framed s1 s2 → restored s (invoke_pop s2).2.
Proof using Type.
  intros E1 E2 E3 E4 E5 E6 E7 [F1 F2 [F3 F3'] [F4 F4'] [F5 F5'] F6].
  unfold invoke_pop. set (s3 := with_frames s2 _ _).
  pose proof (on_ctx_rest pop s3) as (G1 & G2 & G3 & G4 & G5 & _).
  pose proof (on_ctx_session pop s3) as Gs.
  rewrite E3, removelast_snoc in F3. rewrite E4, removelast_snoc in F4.
  assert (Hne : instruction_stack (transaction_context s3) ≠ []).
  { change (transaction_context s3) with (transaction_context s2). fold (stack_of s2).
    destruct F1 as [k ->]. rewrite E1. by destruct (stack_of s). }
  pose proof (pop_shape (transaction_context s3) Hne) as (P1 & _ & P3 & _). cbn in P1, P3.
  assert (Hsys : syscall_context (on_ctx pop s3).2 = syscall_context s) by by rewrite G2.
  assert (Hmem : memory_contexts (on_ctx pop s3).2 = memory_contexts s) by by rewrite G3.
  split; [|done]. constructor; rewrite ?Hsys, ?Hmem; try done.
  - unfold stack_of, transaction_context at 2. rewrite Gs. cbn [ctx]. rewrite P3.
    change (transaction_context s3) with (transaction_context s2). fold (stack_of s2).
    destruct F1 as [k Hk]. rewrite E1, <- app_assoc in Hk. rewrite Hk.
    rewrite removelast_app by done. by apply prefix_app_r.
  - unfold capacity_of, transaction_context at 1. rewrite Gs. cbn [ctx]. rewrite P1. unfold s3.
    change (transaction_context (with_frames s2 _ _)) with (transaction_context s2).
    fold (capacity_of s2). fold (capacity_of s). congruence.
  - rewrite G4, G5. unfold s3. simpl. split; congruence.
  - rewrite G1. unfold s3. simpl. intros. rewrite <- E7. apply F6. lia.
Qed.

Lemma entered_frame_stack (s : IC) :
  (push (transaction_context s)).1 = Ok tt →
  stack_of (entered_frame s) = stack_of s ++ [default 0 (list.last (stack_of (entered_frame s)))] ∧
  capacity_of (entered_frame s) = capacity_of s ∧ zlen (stack_of s) < capacity_of s.
Proof using Type.
  intros Hok. destruct (push_ok _ Hok) as (i & Hi & Hlt).
  assert (Es : transaction_context (entered_frame s) = (push (transaction_context s)).2).
  { unfold entered_frame, transaction_context at 1. simpl. by rewrite on_ctx_session. }
  unfold stack_of, capacity_of. rewrite Es, Hi, last_snoc. split_and!; [done|apply push_framed|done].
Qed.

Lemma leave_frame (s s1 : IC) :
  (push (transaction_context s)).1 = Ok tt → framed (entered_frame s) s1 →
  restored s (invoke_pop s1).2 ∧ compute_meter (invoke_pop s1).2 = compute_meter s1 ∧
  compute_meter (entered_frame s) = compute_meter s.
Proof using Type.
  intros Hok F. destruct (entered_frame_stack s Hok) as (E1 & E2 & _).
  pose proof (on_ctx_rest push s) as (G1 & G2 & G3 & G4 & G5 & _). split_and!.
  - apply (pop_framed s (entered_frame s)); try done; unfold entered_frame; simpl; congruence.
  - unfold invoke_pop. by destruct (on_ctx_rest pop (with_frames s1 (removelast (syscall_context s1))
      (removelast (memory_contexts s1)))) as [-> _].
  - unfold entered_frame. simpl. congruence.
Qed.

Lemma refused_frame (s : IC) :
  restored s (on_ctx push s).2 ∧ compute_meter (on_ctx push s).2 = compute_meter s.
Proof using Type.
  destruct (push_framed (transaction_context s)) as [P1 P2].
  pose proof (on_ctx_rest push s) as (G1 & G2 & G3 & _). split; [|done]. split; [by apply framed_on_ctx|done].
Qed.

Lemma process_sound fuel : sound (process_instruction fuel).
Proof using TP.
  induction fuel as [|fuel IH]; intros s r n s' Hs; simpl.
  { intros [= <- <- <-]. split; [done|lia]. }
  destruct (invoke_push_cases s) as [[e ->]|[[e ->]|(Hok & ->)]].
  - intros [= <- <- <-]. split; [done|lia].
  - intros [= <- <- <-]. destruct (refused_frame s). split; [done|lia].
  - destruct (process_executable_chain _ (entered_frame s)) as [[r1 n1] s1] eqn:Ec.
    destruct (leave_frame s (entered_frame s) Hok) as (_ & _ & M1); [done|].
    apply chain_framed in Ec as [F ->]; [|done|lia].
    destruct (leave_frame s s1 Hok F) as (R & M & _).
    destruct (invoke_pop s1) as [r2 s2]. intros [= <- <- <-]. simpl in M, M1 |- *. split; [done|lia].
Qed.

(** ** Fuel *)

(** Above the frames of [s0], two ways to process callees agree. *)
Definition agree (s0 : IC) (p q : Metered) : Prop := ∀ s,
  0 ≤ compute_meter s → stack_of s0 `prefix_of` stack_of s → capacity_of s = capacity_of s0 → p s = q s.

Section agree.
Context (s0 : IC) (p q : Metered) (Hp : sound p) (Ha : agree s0 p q).

Definition above (s : IC) : Prop :=
  0 ≤ compute_meter s ∧ stack_of s0 `prefix_of` stack_of s ∧ capacity_of s = capacity_of s0.

Lemma above_framed s s' : framed s s' → above s → above s'.
Proof using Type.
  intros [F1 F2 _ _ _ F6] (H1 & H2 & H3). split_and!; [by apply F6|by etrans|congruence].
Qed.

Lemma callee_agree s : above s → process_callee p s = process_callee q s.
Proof using Ha. intros (H1 & H2 & H3). unfold process_callee. by rewrite Ha. Qed.

Lemma step_agree x s : above s → program_step p x s = program_step q x s.
Proof using Ha.
  intros Hs. destruct x as [x|n|n|key e|op|[seeds| |source signers] ix]; try done; simpl.
  - unfold native_invoke_signed, mbind, op_bind, lift. case_match; [|done]. case_match; [|done].
    match goal with |- context [prepare_next_cpi_instruction ix ?l s] =>
      pose proof (above_framed _ _ (prepare_framed ix l s) Hs) as H2;
      destruct (prepare_next_cpi_instruction ix l s) as [[] s1]; [|done] end.
    by apply callee_agree.
  - unfold native_invoke_magic_root, mbind, op_bind.
    pose proof (above_framed _ _ (prepare_framed ix [] s) Hs) as H2.
    destruct (prepare_next_cpi_instruction ix [] s) as [[] s1]; [|done].
    unfold process_as_magic_root. by rewrite callee_agree.
  - unfold native_invoke_as, mbind, op_bind, lift. case_match; [|done].
    pose proof (above_framed _ _ (prepare_framed ix signers s) Hs) as H2.
    destruct (prepare_next_cpi_instruction ix signers s) as [[] s1]; [|done].
    unfold process_on_behalf. by rewrite callee_agree.
Qed.

Lemma run_program_agree g s : typed direct g → above s → run_program p g s = run_program q g s.
Proof using Ha Hp.
  intros Hg. revert s. induction Hg as [|x k Hx _ IH]; intros s Hs; [done|]. simpl.
  rewrite <- step_agree by done.
  pose proof (program_step_framed p Hp x s Hx (proj1 Hs)) as H1.
  destruct (program_step p x s) as [r s1]. apply IH. by eapply above_framed.
Qed.

Lemma chain_agree s : above s → process_executable_chain p s = process_executable_chain q s.
Proof using Ha Hp TP.
  intros Hs. unfold process_executable_chain.
  destruct (find_entry_framed s) as [F1 _]. destruct (find_entry s) as [[[id e]|] s1]; [|done].
  apply above_framed in F1; [|done]. destruct (enter_framed id e s1) as [F2 _].
  destruct (enter id e s1) as [[g|] s2] eqn:E2; [|done]. apply above_framed in F2; [|done].
  by rewrite run_program_agree by (done || by eapply enter_typed).
Qed.

End agree.

Lemma process_fuel fuel fuel' s :
  0 ≤ compute_meter s → (0 < fuel ≤ fuel')%nat →
  capacity_of s < zlen (stack_of s) + Z.of_nat fuel →
  process_instruction fuel' s = process_instruction fuel s.
Proof using TP.
  revert fuel' s. induction fuel as [|fuel IH]; intros fuel' s Hs Hf Hc; [lia|].
  destruct fuel' as [|fuel']; [lia|]. simpl.
  destruct (invoke_push_cases s) as [[e ->]|[[e ->]|(Hok & ->)]]; [done|done|].
  destruct (entered_frame_stack s Hok) as (E1 & E2 & Hlt).
  assert (Hz : zlen (stack_of (entered_frame s)) = zlen (stack_of s) + 1).
  { rewrite E1, zlen_app. done. }
  rewrite (chain_agree (entered_frame s) _ (process_instruction fuel)); [done|apply process_sound| |].
  - intros t Ht Hpre Hcap. apply IH; [done|lia|].
    destruct Hpre as [k Hk]. rewrite Hk, Hcap, zlen_app, Hz, E2. pose proof (zlen_nonneg k). lia.
  - split_and!; [|done|done]. unfold entered_frame. simpl.
    destruct (on_ctx_rest push s) as [-> _]. done.
Qed.

(** [depth] is enough, from any state. *)
Lemma depth_suffices fuel s :
  0 ≤ compute_meter s → 0 ≤ capacity_of s → (depth s ≤ fuel)%nat →
  process_instruction fuel s = process_instruction (depth s) s.
Proof using TP.
  intros Hs Hc Hf. pose proof (zlen_nonneg (stack_of s)).
  apply process_fuel; [done|unfold depth in *; lia|]. unfold depth. fold (capacity_of s). lia.
Qed.

(** ** Messages *)

Lemma precompile_restored id data datas (s : IC) :
  restored s (process_precompile id data datas s).2 ∧
  compute_meter (process_precompile id data datas s).2 = compute_meter s.
Proof using Type.
  unfold process_precompile.
  destruct (invoke_push_cases s) as [[e ->]|[[e ->]|(Hok & ->)]]; [done|apply refused_frame|].
  destruct (leave_frame s (entered_frame s) Hok) as (R & M & M1); [done|].
  destruct (invoke_pop (entered_frame s)). simpl in *. split; [done|congruence].
Qed.

Lemma prepare_top_restored m ix i (s : IC) :
  restored s (prepare_next_top_level_instruction m ix i s).2 ∧
  compute_meter (prepare_next_top_level_instruction m ix i s).2 = compute_meter s.
Proof using Type.
  pose proof (prepare_top_framed m ix i s). unfold prepare_next_top_level_instruction in *. cbv zeta in *.
  match goal with |- context [on_ctx ?p s] => pose proof (on_ctx_rest p s) as (G1 & G2 & G3 & _) end.
  done.
Qed.

Lemma top_level_restored m index id ix i units s r n s' :
  0 ≤ units → 0 ≤ compute_meter s → fits 64 (units + compute_meter s) →
  process_top_level m index id ix i units s = (r, n, s') →
  restored s s' ∧ n = units + (compute_meter s - compute_meter s').
Proof using TP.
  intros Hu Hs Hfit. unfold process_top_level. destruct (prepare_top_restored m ix i s) as [R1 M1].
  destruct (prepare_next_top_level_instruction m ix i s) as [[] s1]; simpl in R1, M1.
  2: { intros [= <- <- <-]. split; [done|lia]. }
  destruct (if is_precompile id then _ else _) as [[q k] s2] eqn:Ex.
  assert (restored s1 s2 ∧ k = compute_meter s1 - compute_meter s2) as [R2 ->].
  { revert Ex. destruct (is_precompile id); [|apply process_sound; lia].
    destruct (precompile_restored id (ix_data ix) (ix_data <$> msg_instructions m) s1) as [R2 M2].
    destruct (process_precompile _ _ _ s1). simpl in R2, M2. intros [= <- <- <-]. split; [done|lia]. }
  pose proof (fr_meter _ _ (proj1 R2)) as Hm2. intros [= <- <- <-].
  split; [destruct R1 as (F1 & ? & ?), R2 as (F2 & ? & ?); split_and!; [by etrans|congruence..]|].
  unfold saturating_add, umax, fits in *. lia.
Qed.

(** The units a message reports are those its instructions took from the meter; the runtime's
    stacks and the origin of calls are as before. *)
Lemma message_restored m indices s r n s' :
  0 ≤ compute_meter s → fits 64 (compute_meter s) →
  process_message m indices s = (r, n, s') →
  restored s s' ∧ n = compute_meter s - compute_meter s'.
Proof using TP.
  unfold process_message. intros Hs Hf.
  assert (Hg : ∀ l index units s, 0 ≤ units → 0 ≤ compute_meter s → fits 64 (units + compute_meter s) →
    process_instructions m l index units s = (r, n, s') →
    restored s s' ∧ n = units + (compute_meter s - compute_meter s')); [|by intros ?%Hg].
  clear Hs Hf s. induction l as [|[[id ix] p] l IH]; intros index units s Hu Hs Hf; simpl.
  { intros [= <- <- <-]. split; [done|lia]. }
  destruct (process_top_level m index id ix p units s) as [[q k] s1] eqn:Et.
  apply top_level_restored in Et as [R1 ->]; [|done..].
  pose proof (fr_meter _ _ (proj1 R1) Hs). destruct q as [[]|e].
  - intros [R2 ->]%IH; [|unfold fits in *; lia..].
    split; [destruct R1 as (F1 & ? & ?), R2 as (F2 & ? & ?); split_and!; [by etrans|congruence..]|lia].
  - intros [= <- <- <-]. split; [done|lia].
Qed.

End frames.

(** ** Privileges of calls between programs

    The accounts of a callee carry the union of the privileges the instruction asks for, and no
    more than the caller has: writable accounts are writable in the caller, signers sign in
    the caller or were derived for the call. *)

(** ** Finding accounts *)

Lemma position_spec key keys i j :
  position key keys i = Some j → ∃ n, j = i + Z.of_nat n ∧ keys !! n = Some key.
Proof.
  revert i. induction keys as [|k keys IH]; intros i; simpl; [done|]. case_bool_decide.
  - intros [= <-]. exists 0%nat. subst. split; [lia|done].
  - intros (n & -> & Hn)%IH. exists (S n). split; [lia|done].
Qed.

Lemma find_index_spec a key index :
  (length (accounts a) ≤ 256)%nat → find_index_of_account a key = Some index →
  0 ≤ index < 256 ∧ account_key a index = Some key.
Proof.
  intros Hl. unfold find_index_of_account, account_key.
  destruct (position key (accounts a).*1 0) as [j|] eqn:Ej; [|done]. intros [= <-].
  apply position_spec in Ej as (n & -> & Hn). rewrite list_lookup_fmap in Hn.
  assert (n < length (accounts a))%nat.
  { destruct (accounts a !! n) eqn:En; [by eapply lookup_lt_Some|done]. }
  rewrite wrap_small by (unfold fits; lia). split; [lia|].
  rewrite Z.add_0_l, Nat2Z.id. by rewrite Hn.
Qed.

(** ** Frames *)

(** The deduplication map of a frame leads to an account with the index it was asked for. *)
Definition frame_ok (accs : list InstructionAccount) (map : list Z) : Prop :=
  ∀ index pos, map !! index = Some pos → pos < zlen accs →
    0 ≤ pos ∧ ∃ ia, accs !! Z.to_nat pos = Some ia ∧ index_in_transaction ia = Z.of_nat index.

Lemma account_in_instruction ic index j :
  frame_ok (ic_accounts ic) (dedup_map ic) → 0 ≤ index →
  get_index_of_account_in_instruction ic index = Ok j →
  ∃ ia, ic_accounts ic !! Z.to_nat j = Some ia ∧ index_in_transaction ia = index.
Proof.
  intros Hf Hi. unfold get_index_of_account_in_instruction.
  destruct (dedup_map ic !! Z.to_nat index) as [p|] eqn:Ep; [|done]. simpl.
  destruct (Z.leb_spec (zlen (ic_accounts ic)) p); [done|]. intros [= <-].
  destruct (Hf _ _ Ep) as (_ & ia & H1 & H2); [done|]. exists ia. split; [done|]. lia.
Qed.

(** ** The accounts of a call *)

Section callee.
Context (a : TransactionAccounts) (Hsmall : (length (accounts a) ≤ 256)%nat).

(** Some occurrence of the account asks for the privilege. *)
Definition asked (f : AccountMeta → bool) (metas : list AccountMeta) (index : Z) : bool :=
  existsb (λ meta, bool_decide (find_index_of_account a (meta_pubkey meta) = Some index) && f meta) metas.

Lemma asked_app f metas meta index :
  asked f (metas ++ [meta]) index =
    asked f metas index || (bool_decide (find_index_of_account a (meta_pubkey meta) = Some index) && f meta).
Proof using Type. unfold asked. rewrite existsb_app. simpl. by rewrite orb_false_r. Qed.

Lemma flags_new index s w :
  account_is_signer (instruction_account_new index s w) = s ∧
  account_is_writable (instruction_account_new index s w) = w.
Proof using Type. by destruct s, w. Qed.
Lemma flags_widen ia s w :
  account_is_signer (widen ia s w) = account_is_signer ia || s ∧
  account_is_writable (widen ia s w) = account_is_writable ia || w.
Proof using Type.
  unfold widen, account_is_signer, account_is_writable. simpl.
  generalize (negb (ia_is_signer ia =? 0)), (negb (ia_is_writable ia =? 0)). by intros [] []; destruct s, w.
Qed.

Definition full (metas : list AccountMeta) (ia : InstructionAccount) : Prop :=
  account_is_signer ia = asked meta_is_signer metas (index_in_transaction ia) ∧
  account_is_writable ia = asked meta_is_writable metas (index_in_transaction ia).
Definition partial (metas : list AccountMeta) (ia : InstructionAccount) : Prop :=
  (account_is_signer ia = true → asked meta_is_signer metas (index_in_transaction ia) = true) ∧
  (account_is_writable ia = true → asked meta_is_writable metas (index_in_transaction ia) = true).

(** After the metas seen so far. *)
Record callee_ok (metas : list AccountMeta) (x : Callee) : Prop := {
  ck_length : length (callee_accounts x) = length metas;
  ck_map : length (callee_map x) = 256%nat;
  ck_index i ia meta : callee_accounts x !! i = Some ia → metas !! i = Some meta →
    find_index_of_account a (meta_pubkey meta) = Some (index_in_transaction ia);
  ck_partial i ia : callee_accounts x !! i = Some ia → partial metas ia;
  ck_first index pos : callee_map x !! index = Some pos →
    (pos = umax 16 ∧ ∀ i ia, callee_accounts x !! i = Some ia → index_in_transaction ia ≠ Z.of_nat index) ∨
    ∃ i ia, pos = Z.of_nat i ∧ callee_accounts x !! i = Some ia ∧
      index_in_transaction ia = Z.of_nat index ∧ full metas ia;
}.

Lemma callee_new_ok : callee_ok [] callee_new.
Proof using Type.
  constructor; try done. intros index pos Hp. left. split; [|done].
  by apply lookup_replicate in Hp as [-> _].
Qed.

Lemma asked_extend f metas meta index index' :
  find_index_of_account a (meta_pubkey meta) = Some index → index' ≠ index →
  asked f (metas ++ [meta]) index' = asked f metas index'.
Proof using Type.
  intros Hf Hn. rewrite asked_app, bool_decide_eq_false_2 by congruence. by rewrite orb_false_r.
Qed.
Lemma asked_same f metas meta index :
  find_index_of_account a (meta_pubkey meta) = Some index →
  asked f (metas ++ [meta]) index = asked f metas index || f meta.
Proof using Type. intros Hf. by rewrite asked_app, bool_decide_eq_true_2. Qed.

Lemma partial_extend metas meta ia : partial metas ia → partial (metas ++ [meta]) ia.
Proof using Type. intros [H1 H2]. split; intros H; rewrite asked_app; [rewrite H1|rewrite H2]; done. Qed.
Lemma full_partial metas ia : full metas ia → partial metas ia.
Proof using Type. intros [H1 H2]. split; congruence. Qed.
Lemma full_extend metas meta index ia :
  find_index_of_account a (meta_pubkey meta) = Some index → index_in_transaction ia ≠ index →
  full metas ia → full (metas ++ [meta]) ia.
Proof using Type. intros Hf Hn [H1 H2]. unfold full. by rewrite !(asked_extend _ _ _ index). Qed.
Lemma full_widen metas meta ia :
  find_index_of_account a (meta_pubkey meta) = Some (index_in_transaction ia) → full metas ia →
  full (metas ++ [meta]) (widen ia (meta_is_signer meta) (meta_is_writable meta)).
Proof using Type.
  intros Hf [H1 H2]. unfold full. destruct (flags_widen ia (meta_is_signer meta) (meta_is_writable meta)) as [-> ->].
  simpl. rewrite !asked_same by done. by rewrite H1, H2.
Qed.

(** Nothing was asked for an account that did not occur. *)
Lemma asked_absent f metas x index :
  callee_ok metas x → (∀ i ia, callee_accounts x !! i = Some ia → index_in_transaction ia ≠ index) →
  asked f metas index = false.
Proof using Type.
  intros Hx Hn. apply not_true_is_false. unfold asked. rewrite existsb_exists. intros (meta & Hm & H).
  apply andb_true_iff in H as [H%bool_decide_eq_true _].
  apply list_elem_of_In, list_elem_of_lookup in Hm as [i Hi].
  destruct (lookup_lt_is_Some_2 (callee_accounts x) i) as [ia Hia].
  { rewrite (ck_length _ _ Hx). by eapply lookup_lt_Some. }
  apply (Hn i ia Hia). pose proof (ck_index _ _ Hx i ia meta Hia Hi). congruence.
Qed.

Section step.
Context (metas : list AccountMeta) (x : Callee) (meta : AccountMeta) (index : Z).
Hypothesis Hx : callee_ok metas x.
Hypothesis Hf : find_index_of_account a (meta_pubkey meta) = Some index.
Hypothesis Hi : 0 ≤ index < 256.

Lemma add_repeated i ia :
  callee_map x !! Z.to_nat index = Some (Z.of_nat i) → callee_accounts x !! i = Some ia →
  index_in_transaction ia = index → full metas ia →
  let ia' := widen ia (meta_is_signer meta) (meta_is_writable meta) in
  callee_ok (metas ++ [meta])
    {| callee_map := callee_map x; callee_accounts := <[i := ia']> (callee_accounts x) ++ [ia'] |}.
Proof using Hsmall Hx Hf.
  intros Hm Hia Hidx Hfull ia'. pose proof (lookup_lt_Some _ _ _ Hia) as Hlt.
  assert (Hfull' : full (metas ++ [meta]) ia') by (apply full_widen; [by rewrite Hidx|done]).
  assert (Hentry : ∀ j u, (<[i := ia']> (callee_accounts x) ++ [ia']) !! j = Some u →
    u = ia' ∧ (j = i ∨ j = length metas) ∨ j ≠ i ∧ callee_accounts x !! j = Some u).
  { intros j u [Hj|[Hge Hj]]%lookup_app_Some.
    - destruct (decide (j = i)) as [->|Hn]; [left|right; by rewrite list_lookup_insert_ne in Hj].
      rewrite list_lookup_insert_eq in Hj by done. injection Hj as <-. auto.
    - rewrite length_insert in *. left. apply list_lookup_singleton_Some in Hj as [Hz <-].
      split; [done|right]. rewrite <- (ck_length _ _ Hx). lia. }
  destruct Hx as [C1 C2 C3 C4 C5]. constructor; cbn [callee_map callee_accounts].
  - rewrite !length_app, length_insert. simpl. lia.
  - done.
  - intros j u v [[-> [->| ->]]|[Hn Hu]]%Hentry Hv.
    + apply (C3 i ia); [done|]. rewrite lookup_app_l in Hv by lia. done.
    + rewrite list_lookup_middle in Hv by done. injection Hv as <-. by rewrite <- Hidx in Hf.
    + apply (C3 j u v Hu). rewrite lookup_app_l in Hv; [done|]. rewrite <- C1. by eapply lookup_lt_Some.
  - intros j u [[-> _]|[_ Hu]]%Hentry; [by apply full_partial|]. apply partial_extend. by eapply C4.
  - intros index' pos Hpos. destruct (C5 _ _ Hpos) as [[-> Hno]|(j & u & -> & Hu & Hju & Hful)].
    + left. split; [done|]. intros j u [[-> _]|[_ Hu]]%Hentry; [|by eapply Hno]. simpl. by eapply Hno.
    + right. destruct (decide (j = i)) as [->|Hn].
      * exists i, ia'. assert (u = ia) as -> by congruence. split_and!; [done| |done|done].
        rewrite lookup_app_l by (by rewrite length_insert). by rewrite list_lookup_insert_eq.
      * exists j, u. pose proof (lookup_lt_Some _ _ _ Hu). split_and!; [done| |done|].
        { rewrite lookup_app_l by (by rewrite length_insert). by rewrite list_lookup_insert_ne. }
        apply (full_extend _ _ index); [done| |done]. intros He. apply Hn.
        assert (index' = Z.to_nat index) as -> by lia. assert (Z.of_nat j = Z.of_nat i) by congruence. lia.
Qed.

Lemma add_first :
  zlen metas < umax 16 →
  (∀ i ia, callee_accounts x !! i = Some ia → index_in_transaction ia ≠ index) →
  callee_ok (metas ++ [meta])
    {| callee_map := <[Z.to_nat index := wrap 16 (zlen (callee_accounts x))]> (callee_map x);
       callee_accounts := callee_accounts x ++
         [instruction_account_new index (meta_is_signer meta) (meta_is_writable meta)] |}.
Proof using Hsmall Hx Hf Hi.
  intros Hsz Hno. set (ia' := instruction_account_new _ _ _).
  assert (Hfull' : full (metas ++ [meta]) ia').
  { destruct (flags_new index (meta_is_signer meta) (meta_is_writable meta)) as [F1 F2].
    unfold full. subst ia'. rewrite F1, F2. simpl. rewrite !asked_same by done.
    by rewrite !(asked_absent _ metas x) by done. }
  assert (Hentry : ∀ j u, (callee_accounts x ++ [ia']) !! j = Some u →
    u = ia' ∧ j = length metas ∨ callee_accounts x !! j = Some u).
  { intros j u [Hj|[Hge Hj]]%lookup_app_Some; [by right|]. left.
    apply list_lookup_singleton_Some in Hj as [Hz <-]. split; [done|]. rewrite <- (ck_length _ _ Hx). lia. }
  assert (Hw : wrap 16 (zlen (callee_accounts x)) = Z.of_nat (length metas)).
  { unfold zlen in *. rewrite (ck_length _ _ Hx). apply wrap_small. unfold fits, umax in *. lia. }
  destruct Hx as [C1 C2 C3 C4 C5]. constructor; cbn [callee_map callee_accounts].
  - rewrite !length_app. simpl. lia.
  - by rewrite length_insert.
  - intros j u v [[-> ->]|Hu]%Hentry Hv.
    + rewrite list_lookup_middle in Hv by done. by injection Hv as <-.
    + apply (C3 j u v Hu). rewrite lookup_app_l in Hv; [done|]. rewrite <- C1. by eapply lookup_lt_Some.
  - intros j u [[-> _]|Hu]%Hentry; [by apply full_partial|]. apply partial_extend. by eapply C4.
  - intros index' pos Hpos. destruct (decide (index' = Z.to_nat index)) as [->|Hn].
    + rewrite list_lookup_insert_eq in Hpos by lia. injection Hpos as <-. right.
      exists (length metas), ia'. split_and!; [done| |simpl; lia|done]. by apply list_lookup_middle.
    + rewrite list_lookup_insert_ne in Hpos by done.
      destruct (C5 _ _ Hpos) as [[-> Hno']|(j & u & -> & Hu & Hju & Hful)].
      * left. split; [done|]. intros j u [[-> _]|Hu]%Hentry; [|by eapply Hno']. simpl. lia.
      * right. exists j, u. split_and!; [done|by apply lookup_app_l_Some|done|].
        apply (full_extend _ _ index); [done|lia|done].
Qed.

End step.

Lemma add_meta_ok metas x meta x' :
  callee_ok metas x → zlen metas < umax 16 → add_meta a x meta = Ok x' → callee_ok (metas ++ [meta]) x'.
Proof using Hsmall.
  intros Hx Hsz. unfold add_meta.
  destruct (find_index_of_account a (meta_pubkey meta)) as [index|] eqn:Ef; [|done]. simpl.
  destruct (find_index_spec _ _ _ Hsmall Ef) as [Hi _]. unfold index_in_callee.
  destruct (lookup_lt_is_Some_2 (callee_map x) (Z.to_nat index)) as [pos Hpos].
  { rewrite (ck_map _ _ Hx). lia. }
  rewrite Hpos. simpl. pose proof (ck_length _ _ Hx) as Hlen.
  assert (Hz : zlen (callee_accounts x) = zlen metas) by (unfold zlen; congruence).
  destruct (ck_first _ _ Hx _ _ Hpos) as [[-> Hno]|(i & ia & -> & Hia & Hidx & Hfull)].
  - destruct (Z.ltb_spec (umax 16) (zlen (callee_accounts x))); [lia|]. intros [= <-].
    apply add_first; try done. intros j u Hu. pose proof (Hno j u Hu). lia.
  - pose proof (lookup_lt_Some _ _ _ Hia).
    destruct (Z.ltb_spec (Z.of_nat i) (zlen (callee_accounts x))); [|unfold zlen in *; lia].
    rewrite Nat2Z.id, Hia. simpl. intros [= <-]. apply (add_repeated metas x meta index); try done. lia.
Qed.

Lemma add_metas_ok metas x l x' :
  callee_ok metas x → zlen metas + zlen l ≤ umax 16 → add_metas a x l = Ok x' → callee_ok (metas ++ l) x'.
Proof using Hsmall.
  revert metas x. induction l as [|meta l IH]; intros metas x Hx Hsz; simpl.
  { intros [= <-]. by rewrite app_nil_r. }
  rewrite zlen_cons in Hsz. pose proof (zlen_nonneg l).
  destruct (add_meta a x meta) as [x1|] eqn:E1; [|done]. simpl. intros H2.
  rewrite cons_middle, app_assoc. apply (IH _ x1); [|rewrite zlen_app; unfold zlen in *; simpl; lia|done].
  eapply add_meta_ok; [done|lia|done].
Qed.

(** ** The check against the caller *)

Section check.
Context (ic : InstructionContext) (metas : list AccountMeta) (signers : list Pubkey) (x : Callee).
Hypothesis Hx : callee_ok metas x.
Hypothesis Hsz : zlen metas < umax 16.

(** The caller has the account, with the privileges the callee gets. *)
Definition granted (ia : InstructionAccount) : Prop :=
  ∃ j cia, get_index_of_account_in_instruction ic (index_in_transaction ia) = Ok j ∧
    ic_accounts ic !! Z.to_nat j = Some cia ∧
    (account_is_writable ia = true → account_is_writable cia = true) ∧
    (account_is_signer ia = true → account_is_signer cia = true ∨
       ∃ k, k ∈ signers ∧ find_index_of_account a k = Some (index_in_transaction ia)).

Definition is_first (i : nat) (ia : InstructionAccount) : Prop :=
  callee_map x !! Z.to_nat (index_in_transaction ia) = Some (Z.of_nat i).

(** After the first [n] accounts. *)
Definition checked (n : nat) (accs : list InstructionAccount) : Prop :=
  length accs = length metas ∧
  ∀ i ia0, callee_accounts x !! i = Some ia0 → ∃ ia, accs !! i = Some ia ∧
    index_in_transaction ia = index_in_transaction ia0 ∧
    (is_first i ia0 → ia = ia0 ∧ ((i < n)%nat → granted ia)) ∧
    (¬ is_first i ia0 → if decide (i < n)%nat then full metas ia else ia = ia0).

(** Where the first occurrence of an account is. *)
Lemma first_of i ia :
  callee_accounts x !! i = Some ia →
  0 ≤ index_in_transaction ia < 256 ∧
  ∃ j ja, callee_map x !! Z.to_nat (index_in_transaction ia) = Some (Z.of_nat j) ∧
    callee_accounts x !! j = Some ja ∧ index_in_transaction ja = index_in_transaction ia ∧
    full metas ja ∧ is_first j ja.
Proof using Hsmall Hx.
  intros Hia. destruct (lookup_lt_is_Some_2 metas i) as [meta Hm].
  { rewrite <- (ck_length _ _ Hx). by eapply lookup_lt_Some. }
  pose proof (ck_index _ _ Hx _ _ _ Hia Hm) as Hf.
  destruct (find_index_spec _ _ _ Hsmall Hf) as [Hr _]. split; [done|].
  destruct (lookup_lt_is_Some_2 (callee_map x) (Z.to_nat (index_in_transaction ia))) as [pos Hpos].
  { rewrite (ck_map _ _ Hx). lia. }
  destruct (ck_first _ _ Hx _ _ Hpos) as [[_ Hno]|(j & ja & -> & Hja & Hidx & Hfull)].
  - exfalso. apply (Hno _ _ Hia). lia.
  - rewrite Z2Nat.id in Hidx by lia. exists j, ja. unfold is_first. by rewrite Hidx.
Qed.

Lemma check_meta_ok n accs accs' :
  checked n accs → (n < length metas)%nat →
  check_meta ic metas signers (callee_map x) accs n = Ok accs' → checked (S n) accs'.
Proof using Hsmall Hx.
  intros [Hlen Hc] Hn. unfold check_meta.
  destruct (lookup_lt_is_Some_2 (callee_accounts x) n) as [ia0 Hia0]; [by rewrite (ck_length _ _ Hx)|].
  destruct (Hc _ _ Hia0) as (ia & Hia & Hidx & H1 & H2). rewrite Hia. simpl.
  destruct (first_of n ia0 Hia0) as (Hr & j & ja & Hmap & Hja & Hjdx & Hjf & Hjfirst).
  rewrite Hidx, Hmap. simpl. destruct (Z.eqb_spec (Z.of_nat n) (Z.of_nat j)) as [Hj|Hj]; simpl.
  - assert (Hfirst : is_first n ia0) by (unfold is_first; congruence).
    destruct (H1 Hfirst) as [-> _].
    destruct (get_index_of_account_in_instruction ic _) as [c|] eqn:Ec; [|done]. simpl.
    destruct (metas !! n) as [meta|] eqn:Em; [|done]. simpl.
    destruct (ic_accounts ic !! Z.to_nat c) as [cia|] eqn:Ecia; [|done]. simpl.
    destruct (account_is_writable ia0 && negb (account_is_writable cia)) eqn:Ew; [done|].
    destruct (account_is_signer ia0 && negb _) eqn:Es; [done|]. intros [= <-].
    assert (Hg : granted ia0).
    { exists c, cia. split_and!; [done|done| |].
      - intros Hw. rewrite Hw in Ew. by apply negb_false_iff in Ew.
      - intros Hs. rewrite Hs in Es. apply negb_false_iff, orb_true_iff in Es as [Es|Es]; [by left|].
        right. exists (meta_pubkey meta). split; [by apply bool_decide_eq_true in Es|].
        by apply (ck_index _ _ Hx n). }
    split; [done|]. intros i ia1 Hi1. destruct (Hc _ _ Hi1) as (u & Hu & Hux & G1 & G2).
    exists u. split_and!; [done|done| |].
    + intros Hf1. destruct (G1 Hf1) as [-> G1']. split; [done|]. intros Hin.
      destruct (decide (i = n)) as [->|]; [by assert (ia1 = ia0) as -> by congruence|apply G1'; lia].
    + intros Hnf. specialize (G2 Hnf). assert (i ≠ n) by (intros ->; apply Hnf; congruence).
      repeat case_decide; try done; lia.
  - assert (Hnf : ¬ is_first n ia0) by (unfold is_first; rewrite Hmap; intros [=]; lia).
    specialize (H2 Hnf). rewrite decide_False in H2 by lia. subst ia.
    destruct (Hc _ _ Hja) as (u & Hu & Hux & G1 & _). destruct (G1 Hjfirst) as [-> _].
    rewrite Nat2Z.id, Hu. simpl. intros [= <-].
    assert (Hw : full metas (widen ia0 (account_is_signer ja) (account_is_writable ja))).
    { destruct (flags_widen ia0 (account_is_signer ja) (account_is_writable ja)) as [F1 F2].
      destruct Hjf as [J1 J2]. destruct (ck_partial _ _ Hx _ _ Hia0) as [P1 P2].
      unfold full. rewrite F1, F2. simpl. rewrite J1, J2, Hjdx.
      destruct (account_is_signer ia0), (account_is_writable ia0); simpl; split; auto; symmetry; auto. }
    split; [by rewrite length_insert|]. intros i ia1 Hi1. destruct (decide (i = n)) as [->|Hin].
    + assert (ia1 = ia0) as -> by congruence. eexists. split_and!.
      * apply list_lookup_insert_eq. lia.
      * done.
      * done.
      * intros _. by rewrite decide_True by lia.
    + destruct (Hc _ _ Hi1) as (v & Hv & Hvx & K1 & K2). exists v.
      rewrite list_lookup_insert_ne by done. split_and!; [done|done| |].
      * intros Hf1. destruct (K1 Hf1) as [-> K1']. split; [done|]. intros. apply K1'. lia.
      * intros Hnf1. specialize (K2 Hnf1). repeat case_decide; try done; lia.
Qed.

Lemma check_metas_ok n k accs accs' :
  checked n accs → (n + k = length metas)%nat →
  check_metas ic metas signers (callee_map x) accs (seq n k) = Ok accs' → checked (n + k) accs'.
Proof using Hsmall Hx.
  revert n accs. induction k as [|k IH]; intros n accs Hc Hk; simpl.
  { intros [= <-]. by rewrite Nat.add_0_r. }
  destruct (check_meta ic metas signers (callee_map x) accs n) as [accs1|] eqn:E1; [|done]. simpl.
  intros H2. rewrite <- Nat.add_succ_comm. apply (IH _ accs1); [|lia|done].
  eapply check_meta_ok; [done|lia|done].
Qed.

(** What a call that passes the checks configures. *)
Record callee_rights (accs : list InstructionAccount) : Prop := {
  cr_length : length accs = length metas;
  cr_full i ia : accs !! i = Some ia → full metas ia ∧
    ∃ meta, metas !! i = Some meta ∧ find_index_of_account a (meta_pubkey meta) = Some (index_in_transaction ia);
  cr_granted i ia : accs !! i = Some ia → granted ia;
  cr_frame : frame_ok accs (callee_map x);
}.

Lemma checked_rights accs : checked (length metas) accs → callee_rights accs.
Proof using Hsmall Hsz Hx.
  intros [Hlen Hc].
  assert (Hall : ∀ i ia, accs !! i = Some ia → ∃ ia0, callee_accounts x !! i = Some ia0 ∧
    index_in_transaction ia = index_in_transaction ia0 ∧ full metas ia ∧
    (is_first i ia0 → granted ia) ).
  { intros i ia Hia. assert (Hi : (i < length metas)%nat) by (rewrite <- Hlen; by eapply lookup_lt_Some).
    destruct (lookup_lt_is_Some_2 (callee_accounts x) i) as [ia0 Hia0]; [by rewrite (ck_length _ _ Hx)|].
    destruct (Hc _ _ Hia0) as (u & Hu & Hux & G1 & G2). assert (u = ia) as -> by congruence.
    destruct (first_of i ia0 Hia0) as (Hr & j & ja & Hmap & Hja & Hjdx & Hjf & Hjfirst).
    exists ia0. split_and!; [done|done| |intros Hf; by apply G1].
    destruct (decide (i = j)) as [->|Hn].
    - destruct G1 as [-> _]; [by unfold is_first|]. by assert (ja = ia0) as -> by congruence.
    - specialize (G2 ltac:(unfold is_first; rewrite Hmap; intros [=]; lia)). by rewrite decide_True in G2. }
  constructor; [done| | |].
  - intros i ia Hia. destruct (Hall _ _ Hia) as (ia0 & Hia0 & Hidx & Hfull & _). split; [done|].
    destruct (lookup_lt_is_Some_2 metas i) as [meta Hm]; [rewrite <- Hlen; by eapply lookup_lt_Some|].
    exists meta. split; [done|]. rewrite Hidx. by apply (ck_index _ _ Hx i).
  - intros i ia Hia. destruct (Hall _ _ Hia) as (ia0 & Hia0 & Hidx & [F1 F2] & _).
    destruct (first_of i ia0 Hia0) as (Hr & j & ja & Hmap & Hja & Hjdx & [J1 J2] & Hjfirst).
    destruct (Hc _ _ Hja) as (u & Hu & Hux & G1 & _). destruct (G1 Hjfirst) as [-> G1'].
    destruct G1' as (c & cia & A1 & A2 & A3 & A4).
    { rewrite <- (ck_length _ _ Hx). by eapply lookup_lt_Some. }
    exists c, cia. rewrite Hidx, <- Hjdx. rewrite Hidx, <- Hjdx, <- J1 in F1. rewrite Hidx, <- Hjdx, <- J2 in F2.
    by rewrite F1, F2.
  - intros index pos Hpos Hlt.
    destruct (ck_first _ _ Hx _ _ Hpos) as [[-> _]|(j & ja & -> & Hja & Hjdx & _)].
    { unfold zlen in *. lia. }
    split; [lia|]. destruct (Hc _ _ Hja) as (u & Hu & Hux & _). exists u. rewrite Nat2Z.id.
    split; [done|]. congruence.
Qed.

End check.

Lemma call_grants ic metas signers x accs :
  zlen metas < umax 16 →
  add_metas a callee_new metas = Ok x →
  check_metas ic metas signers (callee_map x) (callee_accounts x) (seq 0 (length (callee_accounts x))) = Ok accs →
  callee_rights ic metas signers x accs.
Proof using Hsmall.
  intros Hsz Hx Hc. apply (add_metas_ok [] callee_new) in Hx;
    [|apply callee_new_ok|change (zlen (@nil AccountMeta)) with 0; lia].
  simpl in Hx. apply checked_rights; [done|done|].
  rewrite (ck_length _ _ Hx) in Hc. apply (check_metas_ok _ _ _ _ Hx 0) in Hc; [done| |done].
  split; [apply Hx|]. intros i ia0 Hia. exists ia0. split_and!; [done|done| |].
  - intros _. split; [done|lia].
  - intros _. by rewrite decide_False by lia.
Qed.

End callee.

(** ** The frames of the message's instructions *)

Section top.
Context (m : SVMMessage).

Record top_ok (l : list Z) (x : Callee) : Prop := {
  to_accounts : callee_accounts x = (λ i, instruction_account_new i (msg_signer m i) (msg_writable m i)) <$> l;
  to_first index pos : callee_map x !! index = Some pos →
    pos = umax 16 ∨ ∃ i, pos = Z.of_nat i ∧ l !! i = Some (Z.of_nat index);
}.

Lemma add_index_ok l x index :
  top_ok l x → zlen l < umax 16 → 0 ≤ index → top_ok (l ++ [index]) (add_index m x index).
Proof using Type.
  intros [T1 T2] Hsz Hi.
  assert (Hold : ∀ index' pos, callee_map x !! index' = Some pos →
    pos = umax 16 ∨ ∃ i, pos = Z.of_nat i ∧ (l ++ [index]) !! i = Some (Z.of_nat index')).
  { intros index' pos Hp. destruct (T2 _ _ Hp) as [->|(i & -> & Hl)]; [by left|].
    right. exists i. split; [done|]. by apply lookup_app_l_Some. }
  constructor; unfold add_index; cbn [callee_accounts callee_map].
  - by rewrite T1, fmap_app.
  - intros index' pos. case_match; [|apply Hold].
    destruct (decide (index' = Z.to_nat index)) as [->|Hn]; [|rewrite list_lookup_insert_ne by done; apply Hold].
    destruct (callee_map x !! Z.to_nat index) eqn:Eo.
    + rewrite list_lookup_insert_eq by (by eapply lookup_lt_Some). intros [= <-]. right.
      exists (length l). rewrite list_lookup_middle by done. rewrite Z2Nat.id by done. split; [|done].
      rewrite T1. unfold zlen in *. rewrite length_fmap. apply wrap_small. unfold fits, umax in *. lia.
    + rewrite list_insert_ge by (by apply lookup_ge_None). by rewrite Eo.
Qed.

Lemma top_rights l :
  zlen l < umax 16 → Forall (λ i, 0 ≤ i) l →
  let x := foldl (add_index m) callee_new l in
  top_ok l x ∧ frame_ok (callee_accounts x) (callee_map x).
Proof using Type.
  intros Hsz Hpos x.
  assert (Hx : top_ok l x).
  { assert (Hg : ∀ l0 y, top_ok l0 y → zlen l0 + zlen l < umax 16 + 1 → top_ok (l0 ++ l) (foldl (add_index m) y l)).
    { clear x Hsz. induction Hpos as [|i l Hi _ IH]; intros l0 y Hy Hs; simpl; [by rewrite app_nil_r|].
      rewrite zlen_cons in Hs. pose proof (zlen_nonneg l). rewrite cons_middle, app_assoc. apply IH.
      - apply add_index_ok; [done|lia|done].
      - rewrite zlen_app. unfold zlen in *. simpl. lia. }
    apply (Hg [] callee_new); [|change (zlen (@nil Z)) with 0; lia].
    constructor; [done|]. intros index pos Hp. left. by apply lookup_replicate in Hp as [-> _]. }
  split; [done|]. intros index pos Hp Hlt. rewrite (to_accounts _ _ Hx) in *.
  unfold zlen in *. rewrite length_fmap in Hlt.
  destruct (to_first _ _ Hx _ _ Hp) as [->|(i & -> & Hi)]; [lia|]. split; [lia|].
  rewrite Nat2Z.id, list_lookup_fmap, Hi. by eexists.
Qed.

End top.
