(* ===== verification/InvokeLaw.v ===== *)
(** * What a message may change

    Along the whole processing of a message, calls between programs included, no frame and no
    open handle has a writable account the message did not declare writable. So the accounts
    the message does not declare writable keep their states, whatever the programs do; only
    the instructions sysvar is written by the runtime itself. *)

From stdpp Require Import base list gmap numbers option.
From S2P Require Import Prelude Effects Memory AccountMode Account AccountFacts CtxAccounts CtxInstruction CtxStack CtxOps CtxRun CtxSession CtxTrace CtxProps Programs Invoke InvokeFacts InvokeFrames.

Local Open Scope Z_scope.

(** The instructions of a decoded message name accounts by bytes, and fewer than 2^16 of them. *)
Definition indices_ok (m : SVMMessage) : Prop :=
  Forall (λ ix, zlen (ix_accounts ix) < umax 16 ∧ Forall (λ i, 0 ≤ i) (ix_accounts ix)) (msg_instructions m).

Section law.
Context {Code : Type} `{RR : !RentRules} `{IS : !InstructionsSysvar} `{PR : !ProgramRuntime Code}.
Context `{TP : !TypedPrograms Code false}.
Context (m : SVMMessage).
Abbreviation IC := (InvokeContext Code).

(** Writable only where the message is. *)
Definition declared (ia : InstructionAccount) : Prop :=
  0 ≤ index_in_transaction ia ∧
  (account_is_writable ia = true → msg_writable m (index_in_transaction ia) = true).

Definition frame_lawful (accs : list InstructionAccount) (map : list Z) : Prop :=
  frame_ok accs map ∧ Forall declared accs.

Record lawful (t : Session) : Prop := {
  lw_maps : length (deduplication_maps (ctx t)) = length (instruction_accounts (ctx t));
  lw_frames i accs map : instruction_accounts (ctx t) !! i = Some accs →
    deduplication_maps (ctx t) !! i = Some map → frame_lawful accs map;
  lw_held : Forall (λ b, declared (instruction_account b)) (held t);
}.

Lemma lawful_same (t t' : Session) :
  deduplication_maps (ctx t') = deduplication_maps (ctx t) →
  instruction_accounts (ctx t') = instruction_accounts (ctx t) →
  Forall (λ b, declared (instruction_account b)) (held t') → lawful t → lawful t'.
Proof using Type. intros H1 H2 H3 [L1 L2 _]. constructor; rewrite ?H1, ?H2; done. Qed.

Lemma current_lawful t ic :
  lawful t → get_current_instruction_context (ctx t) = Ok ic → frame_lawful (ic_accounts ic) (dedup_map ic).
Proof using Type.
  intros [L1 L2 _]. unfold get_current_instruction_context, get_instruction_context_at_index_in_trace.
  destruct (get_current_instruction_index (ctx t)) as [index|]; [|done]. simpl.
  destruct (instruction_trace (ctx t) !! _); [|done]. simpl. intros [= <-]. simpl.
  destruct (instruction_accounts (ctx t) !! Z.to_nat index) as [accs|] eqn:Ea; simpl.
  - destruct (lookup_lt_is_Some_2 (deduplication_maps (ctx t)) (Z.to_nat index)) as [map Hm].
    { rewrite L1. by eapply lookup_lt_Some. }
    rewrite Hm. simpl. by eapply L2.
  - split; [|done]. intros index' pos. simpl.
    destruct (deduplication_maps (ctx t) !! Z.to_nat index) eqn:Em; simpl; [|done].
    apply lookup_lt_Some in Em. rewrite L1 in Em. apply lookup_ge_None in Ea. lia.
Qed.

(** Configuring a frame with declared accounts. *)
Lemma configure_lawful t index program accs map data caller :
  lawful t → frame_lawful accs map → lawful (act t (XConfigure index program accs map data caller)).
Proof using Type.
  intros [L1 L2 L3] Hf. simpl. unfold on_context, configure_instruction_at_index.
  destruct (instruction_trace (ctx t) !! Z.to_nat index) as [fr|]; [|by constructor].
  constructor; simpl; [|intros i accs' map'|done].
  - rewrite !length_app. simpl. lia.
  - intros Ha Hm. destruct (decide (i < length (instruction_accounts (ctx t)))%nat).
    + rewrite lookup_app_l in Ha by lia. rewrite lookup_app_l in Hm by lia. by eapply L2.
    + rewrite lookup_app_r in Ha by lia. rewrite lookup_app_r in Hm by lia.
      apply list_lookup_singleton_Some in Ha as [_ <-]. by apply list_lookup_singleton_Some in Hm as [_ <-].
Qed.

Lemma push_frames c :
  deduplication_maps (push c).2 = deduplication_maps c ∧ instruction_accounts (push c).2 = instruction_accounts c.
Proof using Type.
  unfold push. cbv zeta. case_match; [done|]. case_match; [done|]. case_match; [done|].
  destruct (list.last (instruction_trace c)) as [f|]; [|done].
  match goal with |- context [let '(p, q) := ?x in _] => destruct x as [[tf next] current] end.
  case_match; [done|]. simpl. destruct (find_index_of_account _ _) as [i|]; [|done].
  unfold on_accounts. simpl. by destruct (store_index i current (tx_accounts c)).
Qed.

Lemma pop_frames c :
  deduplication_maps (pop c).2 = deduplication_maps c ∧ instruction_accounts (pop c).2 = instruction_accounts c.
Proof using Type.
  unfold pop. case_bool_decide; [done|]. cbv zeta.
  match goal with |- context [let '(u, v) := ?x in _] =>
    assert (deduplication_maps x.2 = deduplication_maps c ∧ instruction_accounts x.2 = instruction_accounts c)
      as Hx; [|destruct x as [r c1]; simpl in Hx] end.
  - unfold mbind, op_bind, lift.
    destruct (get_current_instruction_context c) as [ic|]; [|done].
    destruct (get_index_of_program_account_in_transaction ic) as [p|]; [|done].
    unfold on_accounts. by destruct (probe_program p (tx_accounts c)) as [[] a].
  - by destruct r as [[]|].
Qed.

(** Every other action keeps the frames, and opens handles on accounts of the current one. *)
Lemma act_lawful t x :
  match x with XConfigure _ _ _ _ _ _ => False | _ => True end → lawful t → lawful (act t x).
Proof using Type.
  intros Hx Ht. pose proof (lw_held _ Ht) as Hh.
  destruct x as [|  |  | |i|h c|h|i|h|region reserved ty vm_addr len]; try done; simpl.
  - destruct (push_frames (ctx t)). by apply (lawful_same t).
  - destruct (pop_frames (ctx t)). by apply (lawful_same t).
  - by apply (lawful_same t).
  - unfold borrow_account.
    destruct (get_current_instruction_context (ctx t)) as [ic|] eqn:Ec; [|done].
    destruct (current_lawful t ic Ht Ec) as [_ Hd]. unfold try_borrow_instruction_account, mbind, op_bind, lift.
    destruct (ic_accounts ic !! Z.to_nat i) as [ia|] eqn:Ei; [|by apply (lawful_same t)]. simpl.
    destruct (try_borrow_mut _ (state_of t)) as [[] a]; [|by apply (lawful_same t)].
    apply (lawful_same t); [done|done| |done]. simpl. apply Forall_app. split; [done|].
    apply Forall_singleton. by eapply Forall_lookup in Ei.
  - case_match; [|done]. by apply (lawful_same t).
  - case_match; [|done]. apply (lawful_same t); [done|done| |done]. simpl. by apply list.Forall_delete.
  - unfold share_account. destruct (try_borrow i (state_of t)) as [[] a]; by apply (lawful_same t).
  - case_match; [|done]. by apply (lawful_same t).
  - by apply (lawful_same t).
Qed.

(** ** The frames of calls *)

Lemma cpi_lawful ix signers (s : IC) :
  zlen (instruction_metas ix) ≤ MAX_ACCOUNTS_PER_INSTRUCTION →
  (length (accounts (state_of (session s))) ≤ 256)%nat →
  lawful (session s) → lawful (session (prepare_next_cpi_instruction ix signers s).2).
Proof using RR IS.
  intros Hn Hsmall Ht.
  destruct (prepare_cases ix signers s) as [[e ->]|(ic & x & accs & program & caller & [P1 P2 P3 _ _] & ->)]; [done|].
  rewrite on_ctx_session.
  apply (configure_lawful (session s) _ program accs (callee_map x) (instruction_bytes ix)
    (Some (wrap 16 caller))); [done|].
  destruct (current_lawful _ _ Ht P1) as [Hf Hd].
  assert (Hmax : zlen (instruction_metas ix) < umax 16)
    by (unfold umax, MAX_ACCOUNTS_PER_INSTRUCTION in *; lia).
  destruct (call_grants _ Hsmall ic _ signers x accs Hmax P2 P3) as [_ R2 R3 R4]. split; [done|].
  apply Forall_lookup. intros i ia Hia. destruct (R2 _ _ Hia) as [_ (meta & _ & Hfind)].
  apply find_index_spec in Hfind as [Hr _]; [|done]. split; [lia|]. intros Hw.
  destruct (R3 _ _ Hia) as (j & cia & G1 & G2 & G3 & _).
  apply account_in_instruction in G1 as (ja & G4 & G5); [|done|lia].
  assert (cia = ja) as -> by congruence. rewrite <- G5.
  eapply Forall_lookup in Hd; [|exact G4]. by apply Hd, G3.
Qed.

Lemma top_lawful ix program_index (s : IC) :
  indices_ok m → ix ∈ msg_instructions m →
  lawful (session s) → lawful (session (prepare_next_top_level_instruction m ix program_index s).2).
Proof using RR IS.
  intros Hm Hix Ht. unfold prepare_next_top_level_instruction. cbv zeta. rewrite on_ctx_session.
  eapply list.Forall_forall in Hm as [Hsz Hpos]; [|done].
  destruct (top_rights m _ Hsz Hpos) as [[T1 _] Hf].
  set (x := foldl (add_index m) callee_new (ix_accounts ix)) in *.
  apply (configure_lawful (session s) _ program_index (callee_accounts x) (callee_map x) (ix_data ix) None); [done|].
  split; [done|]. rewrite T1. apply Forall_fmap. eapply list.Forall_impl; [exact Hpos|]. intros i Hi. split; [done|].
  simpl. by destruct (flags_new i (msg_signer m i) (msg_writable m i)) as [_ ->].
Qed.

(** ** The accounts a message leaves alone *)

Section intact.
Context (a0 : TransactionAccounts) (Hsmall : (length (accounts a0) ≤ 256)%nat).

(** Accounts the message does not declare writable, and those whose mode forbids writes. *)
Definition untouchable (i : nat) (o : OwnedAccount) : Prop :=
  (msg_writable m (Z.of_nat i) = false ∨ is_writable (mode (o_core o)) = false) ∧
  account_key a0 (Z.of_nat i) ≠ Some INSTRUCTIONS_ID.

Definition kept (i : nat) (o : OwnedAccount) (a : TransactionAccounts) : Prop :=
  accounted a0 a ∧ states a !! i = Some o.

Lemma kept_effect i o a a' j o1 o2 :
  j ≠ i → kept i o a → states a !! j = Some o1 → effect j o1 o2 a a' → kept i o a'.
Proof using Type.
  intros Hn [Ha Hi] Hj He. split; [by eapply accounted_effect|].
  by rewrite (ef_states _ _ _ _ _ He), list_lookup_insert_ne.
Qed.
Lemma kept_counters i o a c :
  length c = length (borrow_counters a) → kept i o a → kept i o (with_counters a c).
Proof using Type.
  intros Hl [[A1 A2 A3 A4] Hi]. split; [|by rewrite states_with_counters].
  constructor; simpl; try done. by apply tidy_with_counters.
Qed.
Lemma kept_tidy i o a : kept i o a → tidy a.
Proof using Type. by intros [[] _]. Qed.

Lemma accounted_key a index : accounted a0 a → account_key a index = account_key a0 index.
Proof using Type.
  intros [_ A2 _ _]. unfold account_key. rewrite <- !list_lookup_fmap. by rewrite A2.
Qed.
Lemma accounted_small a : accounted a0 a → (length (accounts a) ≤ 256)%nat.
Proof using Hsmall. intros [_ A2 _ _]. by rewrite <- (length_fmap fst), A2, length_fmap. Qed.

Lemma push_intact i o c :
  untouchable i o → kept i o (tx_accounts c) → kept i o (tx_accounts (push c).2).
Proof using Hsmall.
  intros [_ Hk] Hc. apply (push_keeps_at (λ j, j ≠ i) (kept i o)).
  - intros a a' j o1 o2 Hj. by apply kept_effect.
  - by apply kept_counters.
  - apply kept_tidy.
  - intros index Hf. apply find_index_spec in Hf as [Hr Hf]; [|by apply accounted_small, Hc].
    intros <-. apply Hk. rewrite Z2Nat.id by lia. rewrite <- Hf. symmetry. apply accounted_key, Hc.
  - done.
Qed.

Lemma fault_intact i o region reserved ty vm_addr len a :
  (∀ index, payload region = Some index → Z.to_nat index ≠ i) →
  kept i o a → kept i o (access_violation_handler region reserved ty vm_addr len a).2.
Proof using Type.
  intros Hp Hc. apply (handler_invariant (λ j, j ≠ i) (kept i o)); [|by apply kept_counters|apply kept_tidy|done|done].
  intros a1 a' j o1 o2 Hj. by apply kept_effect.
Qed.

Lemma call_intact i o b c a :
  untouchable i o → declared (instruction_account b) → call_ok c →
  (∃ o1, states a !! handle_index b = Some o1 ∧ words_ok o1) →
  kept i o a → kept i o (run_call b c a).2.
Proof using Type.
  intros [Hw _] [Hpos Hd] Hc (o1 & Ho1 & Hok) Hk.
  destruct (run_call_spec b _ o1 (kept_tidy _ _ _ Hk) Ho1 c Hc Hok) as (o2 & He & Hp).
  destruct (decide (handle_index b = i)) as [Hi|Hn]; [|by eapply kept_effect].
  destruct Hk as [Ha Hs]. split; [by apply (accounted_effect a0 a _ (handle_index b) o1 o2)|].
  assert (o2 = o1) as ->.
  { apply (pm_locked _ _ _ _ Hp). destruct Hw as [Hw|Hw]; [left|right; congruence].
    unfold handle_is_writable. apply not_true_is_false. intros Ht.
    apply Hd in Ht. unfold handle_index in Hi. rewrite <- Hi, Z2Nat.id in Hw by done. congruence. }
  rewrite (ef_states _ _ _ _ _ He), Hi, list_lookup_insert_eq; [congruence|]. by eapply lookup_lt_Some.
Qed.

Definition intact (t : Session) : Prop :=
  ∀ i o, untouchable i o → states a0 !! i = Some o → states (state_of t) !! i = Some o.

(** What holds of the session at every point of the processing. *)
Record obeys (t : Session) : Prop := {
  ob_safe : safe_session (accounted a0) t;
  ob_lawful : lawful t;
  ob_intact : intact t;
}.

Lemma obeys_held t h b :
  obeys t → held t !! h = Some b →
  declared (instruction_account b) ∧ ∃ o, states (state_of t) !! handle_index b = Some o ∧ words_ok o.
Proof using Type.
  intros [O1 O2 _] Hb. split; [pose proof (lw_held _ O2) as Hd; by eapply Forall_lookup in Hd|].
  eapply (held_lookup (accounted a0)); [|done|done]. by intros a [A1 _ A3 _].
Qed.

(** The regions programs fault on are of accounts that may be written. *)
Definition region_declared (t : Session) (x : Action) : Prop :=
  match x with
  | XFault region _ _ _ _ => ∀ index, payload region = Some index →
      0 ≤ index ∧ msg_writable m index = true ∧
      ∀ o, states (state_of t) !! Z.to_nat index = Some o → is_writable (mode (o_core o)) = true
  | _ => True
  end.

Lemma act_intact t x :
  action_ok x → region_declared t x → obeys t → intact (act t x).
Proof using Hsmall.
  intros Hx Hr Ht i o Hu Ho. pose proof Ht as [[Ha _] Hlaw Hi]. specialize (Hi i o Hu Ho).
  assert (Hk : kept i o (state_of t)) by done.
  assert (Hc : ∀ c, states (with_counters (state_of t) c) !! i = Some o) by (intros; by rewrite states_with_counters).
  destruct x as [| | | |k|h c|h|k|h|region reserved ty vm_addr len]; simpl in Hx, Hr |- *.
  - unfold on_context, state_of, configure_instruction_at_index. by case_match.
  - by apply (push_intact i o (ctx t)).
  - apply (pop_keeps (kept i o) (kept_counters i o) (ctx t) Hk).
  - done.
  - unfold borrow_account. destruct (get_current_instruction_context (ctx t)) as [ic|]; [|done].
    unfold try_borrow_instruction_account, mbind, op_bind, lift.
    destruct (ok_or _ _) as [ia|]; [|done]. unfold try_borrow_mut, borrow_with.
    destruct (borrow_counters (state_of t) !! _); [|done]. destruct (counter_try_borrow_mut _); [|done]. apply Hc.
  - destruct (held t !! h) as [b|] eqn:Eb; [|done]. destruct (obeys_held t h b Ht Eb) as [Hd Hw].
    by apply (call_intact i o b c (state_of t)).
  - destruct (held t !! h) as [b|]; [|done]. apply Hc.
  - unfold share_account, try_borrow, borrow_with.
    destruct (borrow_counters (state_of t) !! _); [|done]. destruct (counter_try_borrow _); [|done]. apply Hc.
  - destruct (shared t !! h); [|done]. apply Hc.
  - apply (fault_intact i o); [|done]. intros index Hp He. destruct (Hr index Hp) as (H0 & H1 & H2).
    destruct Hu as [[Hu|Hu] _].
    + rewrite <- He, Z2Nat.id in Hu by done. congruence.
    + rewrite He in H2. specialize (H2 o Hi). congruence.
Qed.

Lemma act_obeys t x :
  match x with XConfigure _ _ _ _ _ _ => False | _ => True end →
  action_ok x → region_declared t x → obeys t → obeys (act t x).
Proof using Hsmall.
  intros Hn Hx Hr Ht. constructor.
  - apply (accounted_run a0 [x]); [by repeat constructor|apply Ht].
  - apply act_lawful; [done|apply Ht].
  - by apply act_intact.
Qed.

Lemma configure_obeys t index program accs map data caller :
  lawful (act t (XConfigure index program accs map data caller)) → obeys t →
  obeys (act t (XConfigure index program accs map data caller)).
Proof using Hsmall.
  intros Hl Ht. constructor; [|done|by apply act_intact].
  apply (accounted_run a0 [XConfigure index program accs map data caller]); [by repeat constructor|apply Ht].
Qed.

Lemma action_obeys x (s : IC) : action_ok x → obeys (session s) → obeys (session (take_action x s)).
Proof using Hsmall.
  intros Hx Hs. unfold take_action. destruct (allowed_action s x) eqn:Ea; [|done].
  apply act_obeys; [by destruct x|done| |done].
  destruct x as [| | | | | | | | |region reserved ty vm_addr len]; try done.
  intros index Hp. simpl in Ea. rewrite Hp in Ea. unfold may_write in Ea.
  apply andb_true_iff in Ea as [Ea Em].
  apply existsb_exists in Ea as (ia & Hin & Hw). apply andb_true_iff in Hw as [He%Z.eqb_eq Hw].
  unfold current_accounts in Hin.
  destruct (get_current_instruction_context (transaction_context s)) as [ic|] eqn:Ec; [|done].
  destruct (current_lawful (session s) ic (ob_lawful _ Hs) Ec) as [_ Hd].
  apply list_elem_of_In in Hin. eapply list.Forall_forall in Hd as [H0 H1]; [|done].
  rewrite <- He. split_and!; [done|by apply H1|]. intros o Ho. rewrite He in Ho.
  unfold state_of, states in Ho. rewrite !list_lookup_fmap in Ho. unfold transaction_context in Em.
  destruct (accounts _ !! Z.to_nat index) as [[k a]|]; [|done]. injection Ho as <-.
  by rewrite core_of_owned in Em.
Qed.

Lemma cpi_obeys ix signers (s : IC) :
  zlen (instruction_metas ix) ≤ MAX_ACCOUNTS_PER_INSTRUCTION →
  obeys (session s) → obeys (session (prepare_next_cpi_instruction ix signers s).2).
Proof using Hsmall RR IS.
  intros Hn Hs. pose proof (cpi_lawful ix signers s Hn (accounted_small _ (proj1 (ob_safe _ Hs))) (ob_lawful _ Hs)) as Hl.
  destruct (prepare_cases ix signers s) as [[e He]|(ic & x & accs & program & caller & _ & He)]; rewrite He in *; [done|].
  rewrite on_ctx_session in *. by apply (configure_obeys (session s) _ program accs (callee_map x)
    (instruction_bytes ix) (Some (wrap 16 caller))).
Qed.

Lemma top_obeys ix program_index (s : IC) :
  indices_ok m → ix ∈ msg_instructions m →
  obeys (session s) → obeys (session (prepare_next_top_level_instruction m ix program_index s).2).
Proof using Hsmall RR IS.
  intros Hm Hix Hs. pose proof (top_lawful ix program_index s Hm Hix (ob_lawful _ Hs)) as Hl. revert Hl.
  unfold prepare_next_top_level_instruction. cbv zeta. rewrite on_ctx_session.
  set (x := foldl (add_index m) callee_new (ix_accounts ix)). intros Hl.
  by apply (configure_obeys (session s) _ program_index (callee_accounts x) (callee_map x) (ix_data ix) None).
Qed.

Lemma message_obeys indices (s : IC) :
  indices_ok m → obeys (session s) → obeys (session (process_message m indices s).2).
Proof using Hsmall TP.
  intros Hm. apply process_message_keeps.
  - apply action_obeys.
  - intros x t Hx. apply act_obeys; by destruct x.
  - apply cpi_obeys.
  - done.
  - intros ix program_index t. by apply top_obeys.
Qed.

End intact.

(** A loaded transaction starts lawfully. *)
Lemma obeys_new mm l sc tc n :
  loaded mm l → obeys (transaction_accounts_new mm l) (session_new mm l sc tc n).
Proof using Type.
  intros Hl. constructor.
  - split; [by apply accounted_new|apply balanced_new].
  - constructor; simpl; try done.
  - by intros i o _ Ho.
Qed.

(** ** The session is reached by actions *)

Definition reached (t0 t : Session) : Prop := ∃ xs, Forall action_ok xs ∧ t = run xs t0.

Lemma reached_act t0 t x : action_ok x → reached t0 t → reached t0 (act t x).
Proof using Type.
  intros Hx (xs & Hxs & ->). exists (xs ++ [x]). split; [by apply Forall_app_2; [|constructor]|].
  unfold run. by rewrite foldl_app.
Qed.

Lemma message_reached indices t0 (s : IC) :
  reached t0 (session s) → reached t0 (session (process_message m indices s).2).
Proof using TP.
  apply process_message_keeps.
  - intros x t Hx Ht. unfold take_action. case_match; [|done]. by apply reached_act.
  - intros x t Hx. apply reached_act. by destruct x.
  - intros ix signers t _ Ht.
    destruct (prepare_cases ix signers t) as [[e ->]|(ic & x & accs & program & caller & _ & ->)]; [done|].
    rewrite on_ctx_session. by apply (reached_act t0 (session t) (XConfigure _ _ _ _ _ _)).
  - done.
  - intros ix program_index t _ Ht. unfold prepare_next_top_level_instruction. cbv zeta.
    rewrite on_ctx_session. by apply (reached_act t0 (session t) (XConfigure _ _ _ _ _ _)).
Qed.

End law.
