(* ===== verification/Svm.v ===== *)
(** * The transaction processor ([solana/svm])

    [account_loader.rs], [rent_calculator.rs], [transaction_account_state_info.rs],
    [access_permissions.rs], [transaction_balances.rs], [transaction_execution_result.rs],
    [transaction_processing_result.rs] and [transaction_processor.rs]: a sanitized transaction
    is loaded, executed over copy-on-write accounts, and checked for rent, lamports and
    writeback permissions. The result carries the changed accounts; nothing is stored. *)

From stdpp Require Import base list gmap numbers option strings.
From S2P Require Import Prelude Effects Memory AccountMode Account CtxAccounts CtxInstruction CtxStack CtxSession CtxProps Programs Invoke.

Local Open Scope Z_scope.

(** ** Code outside the repository *)

(** [construct_instructions_data]; [None] when an index or a length does not fit. *)
Record BorrowedInstruction := {
  bi_program : Pubkey;
  bi_accounts : list AccountMeta;
  bi_data : list Z;
}.
Class SvmLibraries := {
  construct_instructions_data : list BorrowedInstruction → option (list Z);
  sysvar_id : Pubkey;
  incinerator : Pubkey;
  magic_root_id : Pubkey;
}.
(** The messages of the log collector at the end of the execution. *)
Class LogCollector (Code : Type) := collected_messages : InvokeContext Code → list string.

(** ** Budgets ([execution_budget.rs]) *)

Definition MAX_INSTRUCTION_STACK_DEPTH : Z := 5.
Definition MAX_INSTRUCTION_STACK_DEPTH_SIMD_0268 : Z := 9.
Definition MAX_CALL_DEPTH : Z := 64.
Definition STACK_FRAME_SIZE : Z := 4096.
Definition MAX_COMPUTE_UNIT_LIMIT : Z := 1400000.
(** [HEAP_LENGTH] of the entrypoint crate. *)
Definition MIN_HEAP_FRAME_BYTES : Z := 32 * 1024.
Definition MAX_LOADED_ACCOUNTS_DATA_SIZE_BYTES : Z := 64 * 1024 * 1024.
Definition MAX_INSTRUCTION_TRACE_LENGTH : Z := 64.

Record SVMTransactionExecutionBudget := {
  compute_unit_limit : Z;
  max_instruction_stack_depth : Z;
  max_instruction_trace_length : Z;
  sha256_max_slices : Z;
  max_call_depth : Z;
  stack_frame_size : Z;
  heap_size : Z;
}.

Definition get_max_instruction_stack_depth (simd_0268_active : bool) : Z :=
  if simd_0268_active then MAX_INSTRUCTION_STACK_DEPTH_SIMD_0268 else MAX_INSTRUCTION_STACK_DEPTH.

Definition budget_new_with_defaults (simd_0268_active : bool) : SVMTransactionExecutionBudget :=
  {| compute_unit_limit := MAX_COMPUTE_UNIT_LIMIT;
     max_instruction_stack_depth := get_max_instruction_stack_depth simd_0268_active;
     max_instruction_trace_length := MAX_INSTRUCTION_TRACE_LENGTH;
     sha256_max_slices := 20000;
     max_call_depth := MAX_CALL_DEPTH;
     stack_frame_size := STACK_FRAME_SIZE;
     heap_size := MIN_HEAP_FRAME_BYTES |}.

Record FeeDetails := { transaction_fee : Z; prioritization_fee : Z }.

(** [CheckedTransactionDetails], after the nonce was dropped. *)
Record ValidatedTransactionDetails := {
  vd_compute_budget : SVMTransactionExecutionBudget;
  vd_loaded_accounts_bytes_limit : Z;
  vd_fee_details : FeeDetails;
}.

(** ** Loading accounts *)

Definition TRANSACTION_ACCOUNT_BASE_SIZE : Z := 64.
Definition ADDRESS_LOOKUP_TABLE_BASE_SIZE : Z := 8248.

Record LoadedTransactionAccount := { lta_account : AccountSharedData; lta_loaded_size : Z }.

Record LoadedTransaction := {
  lt_accounts : list (Pubkey * AccountSharedData);
  lt_program_indices : list Z;
  lt_fee_details : FeeDetails;
  lt_compute_budget : SVMTransactionExecutionBudget;
  lt_loaded_accounts_data_size : Z;
}.

Inductive TransactionLoadResult := TxLoaded (t : LoadedTransaction) | TxNotLoaded (e : TransactionError).

Definition increase_calculated_data_size (size delta limit : Z) : result TransactionError Z :=
  if umax 32 <? delta then Err MaxLoadedAccountsDataSizeExceeded
  else
    let size := saturating_add 32 size delta in
    if limit <? size then Err MaxLoadedAccountsDataSizeExceeded else Ok size.

Section load.
Context {Code : Type} `{PR : !ProgramRuntime Code} `{SL : !SvmLibraries}.
(** The storage accounts are read from, and the callback that reads them. *)
Context (m : mem) (get_account_shared_data : Pubkey → option AccountSharedData).

(** [OwnedAccount::default]: a missing account. *)
Definition default_core (owner : Pubkey) : AccountCore :=
  {| lamports := 0; owner := owner; slot := 0; commit_seq := 0; mode := Missing; flags := 0; padding := 0 |}.
Definition default_account : AccountSharedData :=
  from_owned {| o_core := default_core (replicate 32 0); o_data := [] |}.

Definition loaded_account_new (a : AccountSharedData) : LoadedTransactionAccount :=
  {| lta_account := a;
     lta_loaded_size := saturating_add 64 TRANSACTION_ACCOUNT_BASE_SIZE (zlen (cow_data m (cow a))) |}.

(** [None] when an account index is past the keys, where the source panics. *)
Definition decompile (tx : SVMMessage) : option (list BorrowedInstruction) :=
  mapM (λ pi : Pubkey * SVMInstruction,
    metas ← mapM (λ i, k ← msg_keys tx !! Z.to_nat i;
              Some {| meta_pubkey := k; meta_is_signer := msg_signer tx i;
                      meta_is_writable := msg_writable tx i |}) (ix_accounts pi.2);
    Some {| bi_program := pi.1; bi_accounts := metas; bi_data := ix_data pi.2 |})
    (program_instructions tx).

Definition construct_instructions_account (tx : SVMMessage) : option (result TransactionError AccountSharedData) :=
  l ← decompile tx;
  Some (match construct_instructions_data l with
        | Some data => Ok (from_owned {| o_core := default_core sysvar_id; o_data := data |})
        | None => Err MaxLoadedAccountsDataSizeExceeded
        end).

Context `{IS : !InstructionsSysvar}.

Definition load_transaction_account (tx : SVMMessage) (key : Pubkey)
    : option (result TransactionError LoadedTransactionAccount) :=
  if bool_decide (key = INSTRUCTIONS_ID) then
    r ← construct_instructions_account tx;
    Some (a ← r; Ok {| lta_account := a; lta_loaded_size := 0 |})
  else
    Some (Ok (loaded_account_new (default default_account (get_account_shared_data key)))).

Fixpoint load_keys (tx : SVMMessage) (limit : Z) (keys : list Pubkey) (size : Z)
    (loaded : list (Pubkey * AccountSharedData))
    : option (result TransactionError (list (Pubkey * AccountSharedData) * Z)) :=
  match keys with
  | [] => Some (Ok (loaded, size))
  | key :: keys =>
      r ← load_transaction_account tx key;
      match r with
      | Err e => Some (Err e)
      | Ok a =>
          match increase_calculated_data_size size (lta_loaded_size a) limit with
          | Err e => Some (Err e)
          | Ok size => load_keys tx limit keys size (loaded ++ [(key, lta_account a)])
          end
      end
  end.

(** The owners of programs; loader ids are code outside the repository. *)
Definition PROGRAM_OWNERS : list Pubkey :=
  [native_loader; bpf_loader_upgradeable; bpf_loader; bpf_loader_deprecated; loader_v4].

Fixpoint load_program_indices (l : list (Pubkey * SVMInstruction)) : result TransactionError (list Z) :=
  match l with
  | [] => Ok []
  | (id, ix) :: l =>
      match get_account_shared_data id with
      | None => Err ProgramAccountNotFound
      | Some a =>
          if bool_decide (owner (core_of m a) ∈ PROGRAM_OWNERS)
          then rest ← load_program_indices l; Ok (wrap 16 (program_id_index ix) :: rest)
          else Err InvalidProgramForExecution
      end
  end.

Definition load_transaction_accounts (tx : SVMMessage) (limit : Z)
    : option (result TransactionError (list (Pubkey * AccountSharedData) * list Z * Z)) :=
  match increase_calculated_data_size 0
          (saturating_mul 64 (msg_lookup_tables tx) ADDRESS_LOOKUP_TABLE_BASE_SIZE) limit with
  | Err e => Some (Err e)
  | Ok size =>
      r ← load_keys tx limit (msg_keys tx) size [];
      Some (ls ← r; indices ← load_program_indices (program_instructions tx);
            Ok (ls.1, indices, ls.2))
  end.

Definition load_transaction (tx : SVMMessage) (d : ValidatedTransactionDetails)
    : option TransactionLoadResult :=
  r ← load_transaction_accounts tx (vd_loaded_accounts_bytes_limit d);
  Some (match r with
        | Ok (accs, indices, size) =>
            TxLoaded {| lt_accounts := accs; lt_program_indices := indices;
                        lt_fee_details := vd_fee_details d; lt_compute_budget := vd_compute_budget d;
                        lt_loaded_accounts_data_size := size |}
        | Err e => TxNotLoaded e
        end).

End load.

(** ** Rent states ([rent_calculator.rs]) *)

Inductive RentState := Uninitialized | RentPaying (paying_lamports paying_data_size : Z) | RentExempt.

#[export] Instance RentState_eq_dec : EqDecision RentState.
Proof. solve_decision. Defined.

Definition get_account_rent_state `{!RentRules} (o : OwnedAccount) : RentState :=
  let balance := lamports (o_core o) in
  let len := zlen (o_data o) in
  if balance =? 0 then Uninitialized
  else if rent_is_exempt balance len || bool_decide (mode (o_core o) = Magic) then RentExempt
  else RentPaying balance len.

Definition transition_allowed (pre post : RentState) : bool :=
  match post with
  | Uninitialized | RentExempt => true
  | RentPaying post_lamports post_size =>
      match pre with
      | Uninitialized | RentExempt => false
      | RentPaying pre_lamports pre_size => (post_size =? pre_size) && (post_lamports <=? pre_lamports)
      end
  end.

(** ** State of the writable accounts ([transaction_account_state_info.rs]) *)

Record TransactionAccountStateInfo := {
  rent_state : option RentState;
  info_balance : Z;
  info_data_size : Z;
  info_owner : Pubkey;
}.
Definition default_info : TransactionAccountStateInfo :=
  {| rent_state := None; info_balance := 0; info_data_size := 0; info_owner := replicate 32 0 |}.

Definition is_rent_paying (r : RentState) : bool :=
  match r with RentPaying _ _ => true | _ => false end.

Section state_info.
Context `{SL : !SvmLibraries} `{RR : !RentRules}.

(** The account seen through a shared borrow, which is dropped at once. *)
Definition peek (a : TransactionAccounts) (index : Z) : option OwnedAccount :=
  match try_borrow index a with
  | (Ok _, _) => owned (storage a) <$> (snd <$> accounts a !! Z.to_nat index)
  | (Err _, _) => None
  end.

Definition account_state_info (relax : bool) (o : OwnedAccount) : TransactionAccountStateInfo :=
  let state := get_account_rent_state o in
  let state := if relax && is_rent_paying state then RentExempt else state in
  {| rent_state := Some state; info_balance := lamports (o_core o);
     info_data_size := zlen (o_data o); info_owner := owner (o_core o) |}.

Definition state_info_new (a : TransactionAccounts) (tx : SVMMessage) (relax : bool)
    : list TransactionAccountStateInfo :=
  (λ i, if msg_writable tx (Z.of_nat i)
        then default default_info (account_state_info relax <$> peek a (wrap 16 (Z.of_nat i)))
        else default_info) <$> seq 0 (length (msg_keys tx)).

(** Underfunded accounts that kept their owner, did not grow and lost nothing stay accepted. *)
Definition grandfather (pre post : TransactionAccountStateInfo) : TransactionAccountStateInfo :=
  if match rent_state post with Some s => is_rent_paying s | None => false end
     && bool_decide (rent_state pre = Some RentExempt)
     && (info_balance pre <=? info_balance post) && (info_data_size post <=? info_data_size pre)
     && bool_decide (info_owner post = info_owner pre)
  then {| rent_state := Some RentExempt; info_balance := info_balance post;
          info_data_size := info_data_size post; info_owner := info_owner post |}
  else post.

Definition state_info_new_post_exec (a : TransactionAccounts) (tx : SVMMessage)
    (pre : list TransactionAccountStateInfo) (relax : bool) : list TransactionAccountStateInfo :=
  let post := state_info_new a tx false in
  if negb relax then post
  else zip_with grandfather pre post ++ drop (length pre) post.

(** [None] when the index has no account, where the source panics. *)
Definition check_rent_state (a : TransactionAccounts) (index : Z) (pre post : option RentState)
    : option (result TransactionError unit) :=
  match pre, post with
  | Some pre, Some post =>
      key ← account_key a index;
      Some (if negb (bool_decide (key = incinerator)) && negb (transition_allowed pre post)
            then Err (InsufficientFundsForRent (wrap 8 index)) else Ok tt)
  | _, _ => Some (Ok tt)
  end.

Fixpoint verify_changes (a : TransactionAccounts) (index : Z)
    (l : list (TransactionAccountStateInfo * TransactionAccountStateInfo))
    : option (result TransactionError unit) :=
  match l with
  | [] => Some (Ok tt)
  | (pre, post) :: l =>
      r ← check_rent_state a (wrap 16 index) (rent_state pre) (rent_state post);
      match r with
      | Ok _ => verify_changes a (index + 1) l
      | Err e => Some (Err e)
      end
  end.

End state_info.

(** ** Results *)

Record InnerInstruction := {
  inner_program : Z; inner_data : list Z; inner_accounts : list Z; inner_stack_height : Z;
}.

(** Lines of the log: those of the collector and those of the access checks. *)
Inductive LogMessage := Collected (s : string) | ImmutableModified (key : Pubkey) | FeepayerReadonly (key : Pubkey).

Record TransactionExecutionDetails := {
  status : result TransactionError unit;
  log_messages : option (list LogMessage);
  inner_instructions : option (list (list InnerInstruction));
  return_data : option (Pubkey * list Z);
  executed_units : Z;
  accounts_data_len_delta : Z;
}.
Definition with_status (d : TransactionExecutionDetails) (s : result TransactionError unit)
    (l : option (list LogMessage)) : TransactionExecutionDetails :=
  {| status := s; log_messages := l; inner_instructions := inner_instructions d;
     return_data := return_data d; executed_units := executed_units d;
     accounts_data_len_delta := accounts_data_len_delta d |}.

Record ExecutedTransaction := {
  loaded_transaction : LoadedTransaction;
  execution_details : TransactionExecutionDetails;
}.
Definition was_successful (e : ExecutedTransaction) : bool :=
  match status (execution_details e) with Ok _ => true | Err _ => false end.

Abbreviation TransactionProcessingResult := (result TransactionError ExecutedTransaction).
Definition was_processed_with_successful_result (r : TransactionProcessingResult) : bool :=
  match r with Ok e => was_successful e | Err _ => false end.
Definition flattened_result (r : TransactionProcessingResult) : result TransactionError unit :=
  e ← r; status (execution_details e).

(** ** Balances ([transaction_balances.rs]) *)

Record BalanceCollector := { native_pre : list Z; native_post : list Z }.
Definition collect_balances (m : mem) (l : list (Pubkey * AccountSharedData)) : list Z :=
  (λ a, lamports (core_of m a.2)) <$> l.
Definition collect_pre_balances (m : mem) (l : list (Pubkey * AccountSharedData))
    (c : option BalanceCollector) : option BalanceCollector :=
  (λ c, {| native_pre := collect_balances m l; native_post := native_post c |}) <$> c.
Definition collect_post_balances (m : mem) (l : list (Pubkey * AccountSharedData))
    (c : option BalanceCollector) : option BalanceCollector :=
  (λ c, {| native_pre := native_pre c; native_post := collect_balances m l |}) <$> c.

(** ** Final access checks ([access_permissions.rs]) *)

Section access.
Context `{SL : !SvmLibraries}.

Definition is_privileged (tx : SVMMessage) : bool :=
  forallb (λ pi : Pubkey * SVMInstruction, bool_decide (pi.1 = magic_root_id)) (program_instructions tx).

(** The accounts after the fee payer, numbered from [i]; [Some key] is the first refused. *)
Fixpoint immutable_written (m : mem) (tx : SVMMessage) (privileged : bool) (i : Z)
    (l : list (Pubkey * AccountSharedData)) : option Pubkey :=
  match l with
  | [] => None
  | (key, a) :: l =>
      if negb (msg_writable tx i) || can_writeback m a || privileged
      then immutable_written m tx privileged (i + 1) l
      else Some key
  end.

Definition access_is_valid (m : mem) (tx : SVMMessage) (e : ExecutedTransaction) : bool * ExecutedTransaction :=
  if negb (was_successful e) then (false, e)
  else
    match lt_accounts (loaded_transaction e) with
    | [] => (false, e)
    | (payer_key, payer) :: rest =>
        let d := execution_details e in
        let logs := default [] (log_messages d) in
        let refuse err line := (false,
          {| loaded_transaction := loaded_transaction e;
             execution_details := with_status d (Err err) (Some (logs ++ [line])) |}) in
        match immutable_written m tx (is_privileged tx) 1 rest with
        | Some key => refuse InvalidWritableAccount (ImmutableModified key)
        | None =>
            if is_dirty payer && negb (can_writeback m payer)
            then refuse InvalidAccountForFee (FeepayerReadonly payer_key)
            else (true, {| loaded_transaction := loaded_transaction e;
                           execution_details := with_status d (status d) (Some logs) |})
        end
    end.

End access.

(** ** The processor *)

Record ExecutionRecordingConfig := {
  enable_cpi_recording : bool;
  enable_log_recording : bool;
  enable_return_data_recording : bool;
  enable_transaction_balance_recording : bool;
}.
Definition new_single_setting (option : bool) : ExecutionRecordingConfig :=
  {| enable_cpi_recording := option; enable_log_recording := option;
     enable_return_data_recording := option; enable_transaction_balance_recording := option |}.

(** The part of the environment the processor itself reads. *)
Record TransactionProcessingEnvironment := {
  relax_post_exec_min_balance_check : bool;
  env_for_execution : Environment;
}.

Definition TRANSACTION_LEVEL_STACK_HEIGHT : Z := 1.

(** [deconstruct_transaction]: the calls of each instruction of the message, in order. *)
Definition record_inner (outer : list (list InnerInstruction))
    (x : InstructionFrame * list Z * list InstructionAccount) : list (list InnerInstruction) :=
  let '(frame, data, accs) := x in
  let height := saturating_add 16 (nesting_level frame) 1 in
  if height =? TRANSACTION_LEVEL_STACK_HEIGHT then outer ++ [[]]
  else
    match list.last outer with
    | None => outer
    | Some inner =>
        removelast outer ++
        [inner ++ [{| inner_program := wrap 8 (program_account_index_in_tx frame); inner_data := data;
                      inner_accounts := (λ a, wrap 8 (index_in_transaction a)) <$> accs;
                      inner_stack_height := if height <=? umax 8 then height else umax 8 |}]]
    end.
Definition deconstruct_transaction (c : TransactionContext) (record : bool)
    : ExecutionRecord * option (list (list InnerInstruction)) :=
  (execution_record c,
   if record then
     let '(frames, accs, datas) := take_instruction_trace c in
     Some (foldl record_inner [] (zip (zip frames datas) accs))
   else None).

(** [try_fold] with [checked_add] over 128 bits. *)
Fixpoint lamports_sum (m : mem) (sum : Z) (l : list (Pubkey * AccountSharedData)) : option Z :=
  match l with
  | [] => Some sum
  | (_, a) :: l => sum ← checked_add 128 sum (lamports (core_of m a)); lamports_sum m sum l
  end.

Section processor.
Context {Code : Type} `{PL : !ProgramLoader Code} `{PR : !ProgramRuntime Code} `{SL : !SvmLibraries}.
Context `{LC : !LogCollector Code} `{RR : !RentRules} `{IS : !InstructionsSysvar}.
Abbreviation IC := (InvokeContext Code).
Abbreviation Entry := (ProgramCacheEntry Code).

Record TransactionBatchProcessor := {
  processor_slot : Z;
  shared_programs : gmap Pubkey Entry;
}.

(** Entries come from the shared cache, which is filled on a miss. *)
Definition replenish_entry (m : mem) (env : Environment) (s : gmap Pubkey Entry * @ProgramCacheForTxBatch Code)
    (x : Pubkey * AccountSharedData) : gmap Pubkey Entry * @ProgramCacheForTxBatch Code :=
  let '(shared, batch) := s in
  let '(key, a) := x in
  if executable m a && bool_decide (owner (core_of m a) ∈ PROGRAM_OWNERS) then
    match shared !! key with
    | Some entry => (shared, replenish batch key entry)
    | None =>
        let entry := load_program env (cow_data m (cow a)) in
        (assign_program shared key entry, replenish batch key entry)
    end
  else s.
Definition replenish_program_cache (m : mem) (env : Environment) (shared : gmap Pubkey Entry)
    (batch : @ProgramCacheForTxBatch Code) (l : list (Pubkey * AccountSharedData))
    : gmap Pubkey Entry * @ProgramCacheForTxBatch Code :=
  foldl (replenish_entry m env) (shared, batch) l.

(** The rent check, after the message was processed without an error. *)
Definition rent_status (a : TransactionAccounts) (tx : SVMMessage) (pre : list TransactionAccountStateInfo)
    (relax : bool) (r : result TransactionError unit) : option (result TransactionError unit) :=
  match r with
  | Err e => Some (Err e)
  | Ok _ => verify_changes a 0 (zip pre (state_info_new_post_exec a tx pre relax))
  end.

(** The lamports check, after the rent check. *)
Definition balance_status (a : TransactionAccounts) (before : Z) (r : result TransactionError unit)
    : result TransactionError unit :=
  match r with
  | Err e => Err e
  | Ok _ => if bool_decide (lamports_sum (storage a) 0 (accounts a) = Some before)
            then Ok tt else Err UnbalancedTransaction
  end.

Definition executed (t : LoadedTransaction) (config : ExecutionRecordingConfig) (s : IC) (units : Z)
    (st : result TransactionError unit) : ExecutedTransaction :=
  let '(record, inner) := deconstruct_transaction (transaction_context s) (enable_cpi_recording config) in
  {| loaded_transaction :=
       {| lt_accounts := r_accounts record; lt_program_indices := lt_program_indices t;
          lt_fee_details := lt_fee_details t; lt_compute_budget := lt_compute_budget t;
          lt_loaded_accounts_data_size := lt_loaded_accounts_data_size t |};
     execution_details :=
       {| status := st;
          log_messages := if enable_log_recording config
                          then Some (map Collected (collected_messages s)) else None;
          inner_instructions := inner;
          return_data := if enable_return_data_recording config && negb (bool_decide (r_return_data record = []))
                         then Some (r_return_program record, r_return_data record) else None;
          executed_units := units;
          accounts_data_len_delta := r_accounts_resize_delta record |} |}.

(** The executed transaction, the accounts' storage and the cache of the transaction; [None]
    is the panic of [check_rent_state]. *)
Definition execute_loaded_transaction (m : mem) (tx : SVMMessage) (t : LoadedTransaction)
    (cache : ProgramCacheForTxBatch) (env : TransactionProcessingEnvironment)
    (config : ExecutionRecordingConfig) : option (ExecutedTransaction * mem * ProgramCacheForTxBatch) :=
  let before := default 0 (lamports_sum m 0 (lt_accounts t)) in
  let budget := lt_compute_budget t in
  let x := session_new m (lt_accounts t) (max_instruction_stack_depth budget)
             (max_instruction_trace_length budget) (zlen (msg_instructions tx)) in
  let relax := relax_post_exec_min_balance_check env in
  let pre := state_info_new (state_of x) tx relax in
  match process_message tx (lt_program_indices t)
          (invoke_context_new x cache (compute_unit_limit budget)) with
  | (r, units, s) =>
      let a := tx_accounts (transaction_context s) in
      match rent_status a tx pre relax r with
      | None => None
      | Some r =>
          Some (executed t config s units (balance_status a before r), storage a, program_cache s)
      end
  end.

Record Output := {
  processing_result : TransactionProcessingResult;
  balance_collector : option BalanceCollector;
}.

(** The memory afterwards holds the changed images; the shared cache takes the entries the
    transaction deployed only when it passed every check. *)
Definition load_and_execute_sanitized_transaction (p : TransactionBatchProcessor) (m : mem)
    (load : Pubkey → option AccountSharedData) (tx : SVMMessage) (d : ValidatedTransactionDetails)
    (env : TransactionProcessingEnvironment) (config : ExecutionRecordingConfig)
    : option (Output * mem * TransactionBatchProcessor) :=
  let balances := if enable_transaction_balance_recording config
                  then Some {| native_pre := []; native_post := [] |} else None in
  match load_transaction m load tx d with
  | None => None
  | Some (TxNotLoaded e) => Some ({| processing_result := Err e; balance_collector := balances |}, m, p)
  | Some (TxLoaded t) =>
      let balances := collect_pre_balances m (lt_accounts t) balances in
      let '(shared, batch) :=
        replenish_program_cache m (env_for_execution env) (shared_programs p)
          (batch_new (processor_slot p)) (lt_accounts t) in
      match execute_loaded_transaction m tx t batch env config with
      | None => None
      | Some (e, m, batch) =>
          let balances := collect_post_balances m (lt_accounts (loaded_transaction e)) balances in
          let '(valid, e) := access_is_valid m tx e in
          let shared := if valid then cache_merge shared (drain_modified_entries batch).1 else shared in
          Some ({| processing_result := Ok e; balance_collector := balances |}, m,
                {| processor_slot := processor_slot p; shared_programs := shared |})
      end
  end.

End processor.
