(* ===== verification/SvmFacts.v ===== *)
(** * Facts about the transaction processor

    Loading gives the accounts of the message in order within the size limit; execution of
    programs that use their handles conserves lamports, leaves alone what the message or the
    account's mode protects, and never stops with a panic. *)

From stdpp Require Import base list gmap numbers option.
From S2P Require Import Prelude Effects Memory AccountMode Account AccountFacts CtxAccounts CtxInstruction CtxStack CtxOps CtxRun CtxSession CtxTrace CtxProps Programs Invoke InvokeFacts InvokeFrames InvokeLaw Svm.

Local Open Scope Z_scope.

(** ** Loading *)

Section load.
Context {Code : Type} `{PR : !ProgramRuntime Code} `{SL : !SvmLibraries} `{IS : !InstructionsSysvar}.
Context (m : mem) (load : Pubkey → option AccountSharedData).

(** The account a key stands for. *)
Definition loaded_as (tx : SVMMessage) (key : Pubkey) (a : AccountSharedData) : Prop :=
  if bool_decide (key = INSTRUCTIONS_ID) then construct_instructions_account tx = Some (Ok a)
  else a = default default_account (load key).

(** What it is charged for. *)
Definition charge (key : Pubkey) (a : AccountSharedData) : Z :=
  if bool_decide (key = INSTRUCTIONS_ID) then 0
  else TRANSACTION_ACCOUNT_BASE_SIZE + zlen (cow_data m (cow a)).

Lemma increase_ok size delta limit size' :
  0 ≤ size → 0 ≤ delta → limit < umax 32 → increase_calculated_data_size size delta limit = Ok size' →
  size' = size + delta ∧ size' ≤ limit.
Proof using Type.
  unfold increase_calculated_data_size, saturating_add, umax. intros Hs Hd Hl.
  destruct (Z.ltb_spec (2 ^ 32 - 1) delta); [done|].
  destruct (Z.ltb_spec limit (Z.min (2 ^ 32 - 1) (size + delta))); [done|]. intros [= <-]. lia.
Qed.

Definition charges (l : list (Pubkey * AccountSharedData)) : Z := sum_of (λ ka, charge ka.1 ka.2) l.

Lemma sum_of_app {A} (f : A → Z) l k : sum_of f (l ++ k) = sum_of f l + sum_of f k.
Proof using Type. unfold sum_of. induction l as [|x l IH]; simpl; lia. Qed.

(** No account is as long as a 32-bit word can count. *)
Definition short_data (a : AccountSharedData) : Prop := zlen (cow_data m (cow a)) < 2 ^ 32.

Lemma load_keys_ok tx limit keys size l r :
  limit < umax 32 → 0 ≤ size →
  (∀ key a, key ≠ INSTRUCTIONS_ID → loaded_as tx key a → short_data a) →
  load_keys m load tx limit keys size l = Some (Ok r) →
  ∃ k, r.1 = l ++ k ∧ k.*1 = keys ∧ Forall (λ ka, loaded_as tx ka.1 ka.2) k ∧
    r.2 = size + charges k ∧ (size ≤ limit → r.2 ≤ limit).
Proof using Type.
  intros Hlim. revert size l. induction keys as [|key keys IH]; intros size l Hs Hshort; simpl.
  { intros [= <-]. exists []. simpl. rewrite app_nil_r. unfold charges. simpl. split_and!; [done..|lia|done]. }
  destruct (load_transaction_account m load tx key) as [[a|]|] eqn:Ea; simpl; [|done..].
  assert (Ha : loaded_as tx key (lta_account a) ∧ lta_loaded_size a = charge key (lta_account a)).
  { unfold load_transaction_account, loaded_as, charge in *. specialize (Hshort key (lta_account a)).
    unfold loaded_as in Hshort. case_bool_decide.
    - destruct (construct_instructions_account tx) as [[x|]|]; simpl in *; [|done..]. by simplify_eq/=.
    - injection Ea as <-. simpl in *. split; [done|].
      specialize (Hshort H eq_refl). unfold short_data in Hshort.
      unfold saturating_add, umax, TRANSACTION_ACCOUNT_BASE_SIZE. lia. }
  destruct Ha as [Ha Hc].
  assert (0 ≤ charge key (lta_account a)).
  { unfold charge, TRANSACTION_ACCOUNT_BASE_SIZE. case_bool_decide; [done|].
    pose proof (zlen_nonneg (cow_data m (cow (lta_account a)))). lia. }
  destruct (increase_calculated_data_size _ _ _) as [size'|] eqn:Ei; [|done].
  apply increase_ok in Ei as [-> Hle]; [|lia..]. intros Hr.
  apply IH in Hr as (k & -> & Hk1 & Hk2 & -> & Hk4); [|lia|done].
  exists ((key, lta_account a) :: k). rewrite <- app_assoc. rewrite fmap_cons, Hk1.
  split_and!; [done|done|by constructor|rewrite Hc; unfold charges; simpl; lia|]. intros _. by apply Hk4.
Qed.

(** Programs are accounts of a loader. *)
Definition is_program (id : Pubkey) : Prop :=
  ∃ a, load id = Some a ∧ owner (core_of m a) ∈ PROGRAM_OWNERS.

Lemma load_programs_ok l indices :
  load_program_indices m load l = Ok indices →
  Forall (λ pi : Pubkey * SVMInstruction, is_program pi.1) l ∧
  indices = (λ pi : Pubkey * SVMInstruction, wrap 16 (program_id_index pi.2)) <$> l.
Proof using Type.
  revert indices. induction l as [|[id ix] l IH]; intros indices; simpl; [by intros [= <-]|].
  destruct (load id) as [a|] eqn:Ea; [|done]. case_bool_decide as Ho; [|done].
  destruct (load_program_indices m load l) as [rest|]; [|done]. simpl. intros [= <-].
  destruct (IH rest eq_refl) as [H1 ->]. split; [|done]. constructor; [|done]. by exists a.
Qed.

(** What a loaded transaction is. *)
Record load_spec (tx : SVMMessage) (limit : Z) (t : LoadedTransaction) : Prop := {
  ls_keys : (lt_accounts t).*1 = msg_keys tx;
  ls_accounts : Forall (λ ka, loaded_as tx ka.1 ka.2) (lt_accounts t);
  ls_size : lt_loaded_accounts_data_size t
    = msg_lookup_tables tx * ADDRESS_LOOKUP_TABLE_BASE_SIZE + charges (lt_accounts t);
  ls_limit : lt_loaded_accounts_data_size t ≤ limit;
  ls_programs : Forall (λ pi : Pubkey * SVMInstruction, is_program pi.1) (program_instructions tx);
  ls_indices : lt_program_indices t
    = (λ pi : Pubkey * SVMInstruction, wrap 16 (program_id_index pi.2)) <$> program_instructions tx;
}.

Lemma load_ok tx d t :
  vd_loaded_accounts_bytes_limit d < umax 32 → 0 ≤ msg_lookup_tables tx →
  (∀ key a, key ≠ INSTRUCTIONS_ID → loaded_as tx key a → short_data a) →
  load_transaction m load tx d = Some (TxLoaded t) →
  load_spec tx (vd_loaded_accounts_bytes_limit d) t.
Proof using Type.
  intros Hlim Htab Hshort. unfold load_transaction, load_transaction_accounts.
  destruct (increase_calculated_data_size 0 _ _) as [size|] eqn:Es; simpl; [|done].
  assert (Hsz : size = msg_lookup_tables tx * ADDRESS_LOOKUP_TABLE_BASE_SIZE ∧
                size ≤ vd_loaded_accounts_bytes_limit d).
  { apply increase_ok in Es as [-> Hle]; [|lia|unfold saturating_mul, ADDRESS_LOOKUP_TABLE_BASE_SIZE, umax; lia|done].
    unfold saturating_mul, umax, ADDRESS_LOOKUP_TABLE_BASE_SIZE in *. lia. }
  destruct Hsz as [-> Hle].
  destruct (load_keys _ _ _ _ _ _ _) as [[r|]|] eqn:Ek; simpl; [|done..].
  apply load_keys_ok in Ek as (k & Hr1 & Hk1 & Hk2 & Hr2 & Hk4);
    [|done|unfold ADDRESS_LOOKUP_TABLE_BASE_SIZE; lia|done].
  destruct (load_program_indices _ _ _) as [indices|] eqn:Ep; simpl; [|done].
  apply load_programs_ok in Ep as [Hp ->]. intros [= <-]. simpl in Hr1. rewrite Hr1, Hr2 in *.
  constructor; simpl; try done. by apply Hk4.
Qed.

End load.

(** ** What the store hands over *)

(** Legal accounts, in separate buffers for separate keys. *)
Record source_ok (m : mem) (load : Pubkey → option AccountSharedData) : Prop := {
  so_legal k a : load k = Some a → wf m a ∧ words_ok (owned m a) ∧ zlen (cow_data m (cow a)) < 2 ^ 32;
  so_apart k k' a a' : k ≠ k' → load k = Some a → load k' = Some a' → apart_from m a a';
}.

Section source.
Context `{SL : !SvmLibraries} `{IS : !InstructionsSysvar}.
Context (m : mem) (load : Pubkey → option AccountSharedData) (Hsource : source_ok m load).

(** The instructions sysvar is built as an owned account, and missing accounts are owned. *)
Lemma loaded_as_cases tx key a :
  loaded_as load tx key a →
  (key ≠ INSTRUCTIONS_ID ∧ load key = Some a) ∨
  ∃ data, cow a = Owned {| o_core := default_core (owner (core_of m a)); o_data := data |} ∧
    (key = INSTRUCTIONS_ID ∨ data = []).
Proof using Type.
  unfold loaded_as. case_bool_decide.
  - unfold construct_instructions_account. destruct (decompile tx) as [l|]; simpl; [|done].
    destruct (construct_instructions_data l) as [data|]; [|done]. intros [= <-]. right. exists data. auto.
  - destruct (load key) as [x|] eqn:Ex; simpl; intros ->; [by left|]. right. exists []. auto.
Qed.

Lemma loaded_as_legal tx key a : loaded_as load tx key a → wf m a ∧ words_ok (owned m a).
Proof using Hsource.
  intros [[_ Ha]|(data & Ha & _)]%loaded_as_cases.
  - by destruct (so_legal _ _ Hsource _ _ Ha) as (? & ? & _).
  - unfold wf, owned. rewrite Ha. done.
Qed.

Lemma loaded_as_short tx key a : key ≠ INSTRUCTIONS_ID → loaded_as load tx key a → short_data m a.
Proof using Hsource.
  intros Hk [[_ Ha]|(data & Ha & [?|Hd])]%loaded_as_cases; [|done|].
  - by destruct (so_legal _ _ Hsource _ _ Ha) as (_ & _ & ?).
  - unfold short_data. rewrite Ha, Hd. simpl. unfold zlen. simpl. lia.
Qed.

Lemma loaded_as_apart tx k k' a a' :
  k ≠ k' → loaded_as load tx k a → loaded_as load tx k' a' → apart_from m a a'.
Proof using Hsource.
  intros Hk [[_ Ha]|(data & Ha & _)]%loaded_as_cases [[_ Ha']|(data' & Ha' & _)]%loaded_as_cases.
  - by eapply (so_apart _ _ Hsource).
  - unfold apart_from. rewrite Ha'. by destruct (cow a).
  - unfold apart_from. by rewrite Ha.
  - unfold apart_from. by rewrite Ha.
Qed.

Lemma loaded_accounts tx l :
  NoDup (l.*1) → Forall (λ ka, loaded_as load tx ka.1 ka.2) l → loaded m l.
Proof using Hsource.
  intros Hd Hl. split; [split|].
  - apply Forall_fmap. eapply list.Forall_impl; [exact Hl|]. intros [k a] Ha. by eapply loaded_as_legal.
  - intros i j s s' Hij Hi Hj. apply list_lookup_fmap_Some in Hi as ([k a] & -> & Hi).
    apply list_lookup_fmap_Some in Hj as ([k' a'] & -> & Hj).
    apply (loaded_as_apart tx k k').
    + intros <-. apply Hij, (NoDup_lookup (l.*1) i j k Hd);
        rewrite list_lookup_fmap; [by rewrite Hi|by rewrite Hj].
    + by eapply Forall_lookup in Hi; [|exact Hl].
    + by eapply Forall_lookup in Hj; [|exact Hl].
  - rewrite <- list_fmap_compose. apply Forall_fmap. eapply list.Forall_impl; [exact Hl|].
    intros [k a] Ha. by eapply loaded_as_legal.
Qed.

End source.

(** ** Execution *)

Lemma lamports_sum_ok m sum l :
  0 ≤ sum → Forall (λ o, fits 64 (lamports (o_core o))) (owned m <$> l.*2) →
  sum + 2 ^ 64 * zlen l < 2 ^ 128 → lamports_sum m sum l = Some (sum + supply m l).
Proof.
  revert sum. induction l as [|[k a] l IH]; intros sum Hs Hf Hb; simpl.
  { unfold supply. simpl. f_equal. lia. }
  rewrite zlen_cons in Hb. pose proof (zlen_nonneg l). apply list.Forall_cons in Hf as [Hf1 Hf2].
  rewrite core_of_owned. unfold fits in Hf1. cbn [snd] in Hf1. unfold checked_add.
  destruct (Z.ltb_spec (sum + lamports (o_core (owned m a))) (2 ^ 128)); [|lia]. simpl.
  rewrite IH; [|lia|done|lia]. unfold supply. rewrite !fmap_cons. unfold sum_of. simpl. f_equal. lia.
Qed.

Section execution.
Context {Code : Type} `{RR : !RentRules} `{IS : !InstructionsSysvar} `{PR : !ProgramRuntime Code}.
Context `{TP : !TypedPrograms Code false}.
Abbreviation IC := (InvokeContext Code).

(** An instruction that ends without an error has its lamports in balance. *)
Lemma invoke_pop_balanced (s s' : IC) :
  invoke_pop s = (Ok tt, s') → lamports_delta (tx_accounts (transaction_context s')) = 0.
Proof using Type.
  unfold invoke_pop. intros H. set (s1 := with_frames s _ _) in H.
  pose proof (on_ctx_result pop s1) as Hr. pose proof (on_ctx_session pop s1) as Hs. rewrite H in Hr, Hs.
  simpl in Hr, Hs. unfold transaction_context at 1. rewrite Hs. cbn [ctx].
  apply (pop_ok_balanced (transaction_context s1)).
  by rewrite (surjective_pairing (pop (transaction_context s1))), <- Hr.
Qed.

Lemma process_balanced fuel (s s' : IC) n :
  process_instruction fuel s = (Ok tt, n, s') → lamports_delta (tx_accounts (transaction_context s')) = 0.
Proof using Type.
  destruct fuel as [|fuel]; [done|]. simpl. destruct (invoke_push s) as [[] s1]; [|done].
  destruct (process_executable_chain _ s1) as [[r k] s2].
  destruct (invoke_pop s2) as [r' s3] eqn:Ep. destruct r; [|done]. simpl. intros [= -> _ <-].
  by eapply invoke_pop_balanced.
Qed.

Lemma top_level_balanced m index id ix p units (s s' : IC) n :
  process_top_level m index id ix p units s = (Ok tt, n, s') →
  lamports_delta (tx_accounts (transaction_context s')) = 0.
Proof using Type.
  unfold process_top_level. destruct (prepare_next_top_level_instruction m ix p s) as [[] s1]; [|done].
  destruct (is_precompile id).
  - unfold process_precompile. destruct (invoke_push s1) as [[] s2]; [|done].
    destruct (invoke_pop s2) as [r' s3] eqn:Ep. destruct (precompile _ _ _); [|done]. simpl.
    destruct r' as [[]|]; [|done]. intros [= _ <-]. by eapply invoke_pop_balanced.
  - destruct (process_instruction (depth s1) s1) as [[r k] s2] eqn:Ep.
    destruct r as [[]|]; [|done]. simpl. intros [= _ <-]. by eapply process_balanced.
Qed.

Lemma message_balanced m indices (s s' : IC) n :
  lamports_delta (tx_accounts (transaction_context s)) = 0 →
  process_message m indices s = (Ok tt, n, s') → lamports_delta (tx_accounts (transaction_context s')) = 0.
Proof using Type.
  unfold process_message. generalize 0 at 2. generalize 0 at 2. revert s.
  induction (zip (program_instructions m) indices) as [|[[id ix] p] l IH]; intros s units index Hs; simpl.
  { by intros [= _ <-]. }
  destruct (process_top_level m index id ix p units s) as [[[[]|] k] s1] eqn:Et; [|done].
  apply IH. by eapply top_level_balanced.
Qed.

(** Processing stops at errors of instructions only. *)
Lemma message_errors m indices (s s' : IC) n e :
  process_message m indices s = (Err e, n, s') → ∃ index e', e = InstructionErrorAt index e'.
Proof using Type.
  unfold process_message. generalize 0 at 2. generalize 0. revert s.
  induction (zip (program_instructions m) indices) as [|[[id ix] p] l IH]; intros s index units; simpl; [done|].
  destruct (process_top_level m index id ix p units s) as [[[[]|e1] k] s1] eqn:Et; [apply IH|].
  intros [= -> _ _]. revert Et. unfold process_top_level.
  destruct (prepare_next_top_level_instruction m ix p s) as [[] s2]; [|intros [= <- _ _]; by eexists _, _].
  destruct (if is_precompile id then _ else _) as [[[[]|] ?] ?]; [done|].
  intros [= <- _ _]. by eexists _, _.
Qed.

End execution.

(** ** Rent *)

Section rent.
Context `{RR : !RentRules} `{SL : !SvmLibraries}.

(** What an account may become: not below the exempt minimum, or no worse than before. *)
Definition rent_acceptable (relax : bool) (o o' : OwnedAccount) : Prop :=
  is_rent_paying (get_account_rent_state o') = false ∨
  if relax then
    lamports (o_core o) ≠ 0 ∧ lamports (o_core o) ≤ lamports (o_core o') ∧
    zlen (o_data o') ≤ zlen (o_data o) ∧ owner (o_core o') = owner (o_core o)
  else
    is_rent_paying (get_account_rent_state o) = true ∧
    zlen (o_data o') = zlen (o_data o) ∧ lamports (o_core o') ≤ lamports (o_core o).

Definition post_info (relax : bool) (o o' : OwnedAccount) : TransactionAccountStateInfo :=
  if relax then grandfather (account_state_info relax o) (account_state_info false o')
  else account_state_info false o'.

Lemma rent_state_cases o :
  (get_account_rent_state o = Uninitialized ∧ lamports (o_core o) = 0) ∨
  (get_account_rent_state o = RentExempt ∧ lamports (o_core o) ≠ 0) ∨
  (get_account_rent_state o = RentPaying (lamports (o_core o)) (zlen (o_data o)) ∧ lamports (o_core o) ≠ 0).
Proof using Type.
  unfold get_account_rent_state. destruct (Z.eqb_spec (lamports (o_core o)) 0); [by left|]. right.
  case_match; auto.
Qed.

Lemma transition_strict o o' :
  transition_allowed (get_account_rent_state o) (get_account_rent_state o') = true ↔
  rent_acceptable false o o'.
Proof using Type.
  unfold rent_acceptable. destruct (rent_state_cases o') as [[-> _]|[[-> _]|[-> _]]]; simpl; [by split; [left|]..|].
  destruct (rent_state_cases o) as [[-> _]|[[-> _]|[-> _]]]; simpl; [by split; [|intros [|[]]]..|].
  rewrite andb_true_iff, Z.eqb_eq, Z.leb_le. split; [by right|by intros [|(_ & ? & ?)]].
Qed.

(** With the relaxed check no account counts as paying before, and funded ones are kept. *)
Definition pre_relaxed (o : OwnedAccount) : RentState :=
  if lamports (o_core o) =? 0 then Uninitialized else RentExempt.

Lemma pre_relaxed_eq o : rent_state (account_state_info true o) = Some (pre_relaxed o).
Proof using Type.
  unfold account_state_info, pre_relaxed. simpl.
  destruct (rent_state_cases o) as [[-> H]|[[-> H]|[-> H]]]; simpl; apply Z.eqb_eq in H || apply Z.eqb_neq in H;
    by rewrite H.
Qed.

Lemma transition_relaxed o o' :
  (∀ post, rent_state (post_info true o o') = Some post → transition_allowed (pre_relaxed o) post = true) ↔
  rent_acceptable true o o'.
Proof using Type.
  unfold rent_acceptable, post_info, grandfather. rewrite pre_relaxed_eq. unfold account_state_info. simpl.
  destruct (is_rent_paying (get_account_rent_state o')) eqn:Ep; simpl.
  2: { split; [by left|]. intros _ post [= <-]. by destruct (get_account_rent_state o'). }
  unfold pre_relaxed. destruct (Z.eqb_spec (lamports (o_core o)) 0) as [H0|H0]; simpl.
  { split; [|by intros [|[]]]. intros H. specialize (H _ eq_refl).
    by destruct (get_account_rent_state o'). }
  destruct (Z.leb_spec (lamports (o_core o)) (lamports (o_core o'))); simpl.
  2: { split; [|intros [|(_ & ? & _)]; [done|lia]]. intros H'. specialize (H' _ eq_refl).
       by destruct (get_account_rent_state o'). }
  destruct (Z.leb_spec (zlen (o_data o')) (zlen (o_data o))); simpl.
  2: { split; [|intros [|(_ & _ & ? & _)]; [done|lia]]. intros H'. specialize (H' _ eq_refl).
       by destruct (get_account_rent_state o'). }
  case_bool_decide as Ho; simpl.
  - split; [by right|]. by intros _ post [= <-].
  - split; [|by intros [|(_ & _ & _ & ?)]]. intros H'. specialize (H' _ eq_refl).
    by destruct (get_account_rent_state o').
Qed.

Lemma transition_spec relax o o' pre post :
  rent_state (account_state_info relax o) = Some pre → rent_state (post_info relax o o') = Some post →
  transition_allowed pre post = true ↔ rent_acceptable relax o o'.
Proof using Type.
  destruct relax.
  - rewrite pre_relaxed_eq. intros [= <-] Hp. rewrite <- transition_relaxed. split; [|by auto].
    intros Ht post' Hp'. congruence.
  - simpl. intros [= <-] [= <-]. apply transition_strict.
Qed.

(** Each pair is checked against the key of its account. *)
Lemma verify_spec a index l :
  verify_changes a index l = Some (Ok tt) →
  ∀ i pre post, l !! i = Some (pre, post) →
    check_rent_state a (wrap 16 (index + Z.of_nat i)) (rent_state pre) (rent_state post) = Some (Ok tt).
Proof using Type.
  revert index. induction l as [|[pre post] l IH]; intros index; simpl; [done|].
  destruct (check_rent_state a _ _ _) as [[[]|]|] eqn:Ec; simpl; [|done..]. intros Hl [|i] pre' post' Hi.
  - simpl in Hi. simplify_eq. by rewrite Z.add_0_r.
  - simpl in Hi. specialize (IH _ Hl i _ _ Hi). by replace (index + Z.of_nat (S i)) with (index + 1 + Z.of_nat i) by lia.
Qed.

Lemma verify_total a index l :
  (∀ i, (i < length l)%nat → is_Some (account_key a (wrap 16 (index + Z.of_nat i)))) →
  is_Some (verify_changes a index l).
Proof using Type.
  revert index. induction l as [|[pre post] l IH]; intros index Hk; simpl; [done|].
  assert (is_Some (check_rent_state a (wrap 16 index) (rent_state pre) (rent_state post))) as [r ->].
  { unfold check_rent_state. destruct (rent_state pre), (rent_state post); try done.
    destruct (Hk 0%nat) as [k Hk0]; [simpl; lia|]. rewrite Z.add_0_r in Hk0. by rewrite Hk0. }
  simpl. destruct r; [|done]. apply IH. intros i Hi. specialize (Hk (S i) ltac:(simpl; lia)).
  by replace (index + 1 + Z.of_nat i) with (index + Z.of_nat (S i)) by lia.
Qed.

End rent.

(** ** An executed transaction *)

Section executed.
Context {Code : Type} `{PL : !ProgramLoader Code} `{PR : !ProgramRuntime Code} `{SL : !SvmLibraries}.
Context `{LC : !LogCollector Code} `{RR : !RentRules} `{IS : !InstructionsSysvar}.
Context `{TP : !TypedPrograms Code false}.
Context (m : mem) (tx : SVMMessage) (t : LoadedTransaction).
Hypothesis Hl : loaded m (lt_accounts t).
Hypothesis Hfew : (length (lt_accounts t) ≤ 256)%nat.
Hypothesis Hkeys : (lt_accounts t).*1 = msg_keys tx.
Hypothesis Hindices : indices_ok tx.
Hypothesis Hunits : fits 64 (compute_unit_limit (lt_compute_budget t)).

Definition initial : TransactionAccounts := transaction_accounts_new m (lt_accounts t).

Definition start (cache : @ProgramCacheForTxBatch Code) : InvokeContext Code :=
  invoke_context_new
    (session_new m (lt_accounts t) (max_instruction_stack_depth (lt_compute_budget t))
       (max_instruction_trace_length (lt_compute_budget t)) (zlen (msg_instructions tx)))
    cache (compute_unit_limit (lt_compute_budget t)).

Section processed.
Context (cache : @ProgramCacheForTxBatch Code) (r : result TransactionError unit) (units : Z)
  (s : InvokeContext Code).
Hypothesis Hs : process_message tx (lt_program_indices t) (start cache) = (r, units, s).
Let a := tx_accounts (transaction_context s).

Lemma processed_obeys : obeys tx initial (session s).
Proof using Hl Hfew Hindices Hs TP.
  pose proof (message_obeys tx initial Hfew (lt_program_indices t) (start cache) Hindices) as H.
  rewrite Hs in H. by apply H, obeys_new.
Qed.

Lemma processed_accounted : accounted initial a.
Proof using Hl Hfew Hindices Hs TP. apply (ob_safe _ _ _ processed_obeys). Qed.

Lemma processed_length : length (accounts a) = length (lt_accounts t).
Proof using Hl Hfew Hindices Hs TP.
  rewrite <- (length_fmap fst (accounts a)), (ac_keys _ _ processed_accounted). apply length_fmap.
Qed.

Lemma processed_units : 0 ≤ units ≤ compute_unit_limit (lt_compute_budget t).
Proof using Hfew Hs Hunits TP.
  destruct (message_restored tx (lt_program_indices t) (start cache) r units s) as [[F _] ->]; [|done|done|].
  { simpl. unfold fits in Hunits. lia. }
  pose proof (fr_meter _ _ F). simpl in *. unfold fits in Hunits. lia.
Qed.

Lemma processed_supply : r = Ok tt → supply (storage a) (accounts a) = supply m (lt_accounts t).
Proof using Hl Hfew Hindices Hs TP.
  intros Hr. pose proof (ac_lamports _ _ processed_accounted) as H. unfold a in H at 2.
  rewrite (message_balanced tx (lt_program_indices t) (start cache) s units) in H by (rewrite ?Hs, ?Hr; done).
  change (total_lamports a) with (supply (storage a) (accounts a)) in H.
  change (total_lamports initial) with (supply m (lt_accounts t)) in H. simpl in H. lia.
Qed.

(** The sums of the lamports check do not overflow, so the check passes. *)
Lemma processed_balance :
  balance_status a (default 0 (lamports_sum m 0 (lt_accounts t))) r = r.
Proof using Hl Hfew Hindices Hs TP.
  pose proof processed_supply as Hsupply. pose proof processed_length as Hlen.
  pose proof processed_accounted as Hacc. unfold balance_status.
  assert (Hsum : ∀ m l, Forall words_ok (owned m <$> l.*2) → (length l ≤ 256)%nat →
    lamports_sum m 0 l = Some (supply m l)).
  { intros m1 l Hw Hn. rewrite lamports_sum_ok; [f_equal; lia|lia| |unfold zlen; lia].
    eapply list.Forall_impl; [exact Hw|]. by intros o [? _]. }
  rewrite (Hsum (storage a)); [|apply Hacc|lia]. rewrite (Hsum m); [|apply Hl|lia].
  destruct r as [[]|]; [|done]. simpl. rewrite bool_decide_eq_true_2; [done|]. f_equal. by apply Hsupply.
Qed.

Lemma processed_key i : (i < length (msg_keys tx))%nat → is_Some (account_key a (wrap 16 (0 + Z.of_nat i))).
Proof using Hl Hfew Hindices Hs Hkeys TP.
  intros Hi. rewrite <- Hkeys, length_fmap in Hi. unfold account_key.
  rewrite wrap_small by (unfold fits; lia). rewrite Z.add_0_l, Nat2Z.id.
  destruct (lookup_lt_is_Some_2 (accounts a) i) as [x ->]; [rewrite processed_length; lia|done].
Qed.

(** The rent check of one account. *)
Lemma processed_rent relax i o o' :
  let pre := state_info_new initial tx relax in
  verify_changes a 0 (zip pre (state_info_new_post_exec a tx pre relax)) = Some (Ok tt) →
  (i < length (msg_keys tx))%nat →
  msg_writable tx (Z.of_nat i) = true → account_key a (Z.of_nat i) ≠ Some incinerator →
  peek initial (Z.of_nat i) = Some o → peek a (Z.of_nat i) = Some o' → rent_acceptable relax o o'.
Proof using Hl Hfew Hindices Hs Hkeys TP.
  intros pre Hv Hi Hw Hk Ho Ho'.
  assert (Hn : wrap 16 (Z.of_nat i) = Z.of_nat i).
  { rewrite <- Hkeys, length_fmap in Hi. apply wrap_small. unfold fits. lia. }
  assert (Hpre : pre !! i = Some (account_state_info relax o)).
  { unfold pre, state_info_new. rewrite list_lookup_fmap, lookup_seq_lt by done. simpl. by rewrite Hw, Hn, Ho. }
  assert (Hnew : state_info_new a tx false !! i = Some (account_state_info false o')).
  { unfold state_info_new. rewrite list_lookup_fmap, lookup_seq_lt by done. simpl. by rewrite Hw, Hn, Ho'. }
  assert (Hpost : state_info_new_post_exec a tx pre relax !! i = Some (post_info relax o o')).
  { unfold state_info_new_post_exec, post_info. destruct relax; simpl; [|done].
    apply lookup_app_l_Some. by rewrite lookup_zip_with, Hpre, Hnew. }
  pose proof (verify_spec _ _ _ Hv i (account_state_info relax o) (post_info relax o o')) as Hc.
  rewrite lookup_zip_with, Hpre, Hpost in Hc. specialize (Hc eq_refl). rewrite Z.add_0_l, Hn in Hc.
  unfold check_rent_state in Hc.
  destruct (rent_state (account_state_info relax o)) as [x|] eqn:Ex; [|done].
  destruct (rent_state (post_info relax o o')) as [y|] eqn:Ey.
  - destruct (account_key a (Z.of_nat i)) as [k|]; simpl in Hc; [|done].
    rewrite bool_decide_eq_false_2 in Hc by congruence. simpl in Hc.
    apply (transition_spec relax o o' x y Ex Ey). by destruct (transition_allowed x y).
  - exfalso. revert Ey. unfold post_info, grandfather. destruct relax; [case_match|]; done.
Qed.

End processed.

(** What execution leaves. *)
Record executed_spec (relax : bool) (e : ExecutedTransaction) (m' : mem) (a : TransactionAccounts) : Prop := {
  ex_accounts : lt_accounts (loaded_transaction e) = accounts a ∧ m' = storage a;
  ex_accounted : accounted initial a;
  ex_intact i o : untouchable tx initial i o → states initial !! i = Some o → states a !! i = Some o;
  ex_units : 0 ≤ executed_units (execution_details e) ≤ compute_unit_limit (lt_compute_budget t);
  ex_balanced : status (execution_details e) ≠ Err UnbalancedTransaction;
  ex_supply : was_successful e = true → supply m' (lt_accounts (loaded_transaction e)) = supply m (lt_accounts t);
  ex_rent i o o' : was_successful e = true →
    msg_writable tx (Z.of_nat i) = true → account_key a (Z.of_nat i) ≠ Some incinerator →
    peek initial (Z.of_nat i) = Some o → peek a (Z.of_nat i) = Some o' → rent_acceptable relax o o';
}.

Lemma verify_errors a index l e : verify_changes a index l = Some (Err e) → ∃ i, e = InsufficientFundsForRent i.
Proof using Type.
  revert index. induction l as [|[pre post] l IH]; intros index; simpl; [done|].
  destruct (check_rent_state a _ _ _) as [[[]|e1]|] eqn:Ec; simpl; [apply IH| |done].
  intros [= <-]. unfold check_rent_state in Ec. destruct (rent_state pre), (rent_state post); try done.
  destruct (account_key a _); simpl in Ec; [|done]. case_match; simplify_eq. by eexists.
Qed.

Lemma loaded_execute_spec cache env config :
  let relax := relax_post_exec_min_balance_check env in
  let s := (process_message tx (lt_program_indices t) (start cache)).2 in
  ∃ e m' cache', execute_loaded_transaction m tx t cache env config = Some (e, m', cache') ∧
    executed_spec relax e m' (tx_accounts (transaction_context s)).
Proof using Hl Hfew Hkeys Hindices Hunits TP.
  intros relax s0. unfold execute_loaded_transaction. cbv zeta. fold initial (start cache) relax. subst s0.
  change (state_of (session_new _ _ _ _ _)) with initial.
  destruct (process_message tx (lt_program_indices t) (start cache)) as [[r units] s] eqn:Ep. cbn [snd].
  set (a := tx_accounts (transaction_context s)). set (pre := state_info_new initial tx relax).
  assert (Hr : ∃ r', rent_status a tx pre relax r = Some r' ∧ r' ≠ Err UnbalancedTransaction ∧
    (r' = Ok tt → r = Ok tt ∧
       verify_changes a 0 (zip pre (state_info_new_post_exec a tx pre relax)) = Some (Ok tt))).
  { destruct r as [[]|e]; simpl.
    - destruct (verify_total a 0 (zip pre (state_info_new_post_exec a tx pre relax))) as [r' Hr'].
      { intros i Hi. apply (processed_key cache (Ok tt) units s Ep). rewrite length_zip_with in Hi.
        unfold pre in Hi. unfold state_info_new in Hi at 1. rewrite length_fmap, length_seq in Hi. lia. }
      exists r'. split_and!; [done| |by intros ->]. intros ->. by apply verify_errors in Hr' as [].
    - exists (Err e). split_and!; [done| |done]. intros [= ->]. by apply message_errors in Ep as (? & ? & ?). }
  destruct Hr as (r' & Hr' & Hne & Hok). rewrite Hr'.
  assert (Hb : balance_status a (default 0 (lamports_sum m 0 (lt_accounts t))) r' = r').
  { destruct r' as [[]|]; [|done]. destruct (Hok eq_refl) as [-> _]. by apply (processed_balance cache (Ok tt) units). }
  rewrite Hb. eexists _, _, _. split; [done|].
  assert (Hsucc : was_successful (executed t config s units r') = true → r' = Ok tt).
  { unfold was_successful, executed, deconstruct_transaction. simpl. by destruct r' as [[]|]. }
  constructor.
  - done.
  - by eapply processed_accounted.
  - intros i o Hu Ho. by eapply (ob_intact _ _ _ (processed_obeys cache r units s Ep)).
  - by eapply (processed_units cache r units s).
  - done.
  - intros ->%Hsucc. by eapply processed_supply; [|apply Hok].
  - intros i o o' ->%Hsucc Hw Hk Ho Ho'. destruct (Hok eq_refl) as [-> Hv].
    eapply (processed_rent cache (Ok tt) units s Ep relax i); try done.
    unfold peek, try_borrow, borrow_with in Ho. unfold initial in Ho. simpl in Ho.
    destruct (replicate _ _ !! _) as [c|] eqn:Ec; [|done]. apply lookup_replicate in Ec as [_ Hlt].
    rewrite <- Hkeys, length_fmap. lia.
Qed.

(** When the programs have closed their handles, every account can be looked at. *)
Lemma closed_peek a0 s i o :
  safe_session (accounted a0) s → held s = [] → CtxSession.shared s = [] →
  states (state_of s) !! i = Some o → peek (state_of s) (Z.of_nat i) = Some o.
Proof using Type.
  intros [Ha [_ Hb]] Hh Hr Hi. unfold peek, try_borrow, borrow_with. rewrite Nat2Z.id.
  destruct (lookup_lt_is_Some_2 (borrow_counters (state_of s)) i) as [c Hc].
  { apply lookup_lt_Some in Hi. unfold states in Hi. rewrite !length_fmap in Hi.
    by rewrite (tidy_counters _ (ac_tidy _ _ Ha)). }
  destruct (Hb _ _ Hc) as [H1 H2]. unfold writers, readers in *. rewrite Hh, Hr in *.
  unfold count_at in *. simpl in *. rewrite Hc. subst c.
  unfold states in Hi. rewrite !list_lookup_fmap in Hi. simpl. by destruct (accounts (state_of s) !! i).
Qed.

End executed.
