(* ===== verification/InvokeExample.v ===== *)
(** * A transaction with two programs

    A builtin calls another one, which moves lamports between two of its accounts. The
    witnesses of the properties of invocations and of the processor evaluate it. *)

From stdpp Require Import base list gmap numbers option strings.
From S2P Require Import Prelude Effects Memory AccountMode Account CtxAccounts CtxInstruction CtxStack CtxOps CtxSession CtxProps Programs Invoke InvokeFacts Svm.

Local Open Scope Z_scope.

Definition key (n : Z) : Pubkey := replicate 32 n.

Definition example_account (balance : Z) (own : Pubkey) (md : AccountMode) (fl : Z) : AccountSharedData :=
  from_owned {| o_core := {| lamports := balance; owner := own; slot := 0; commit_seq := 0; mode := md;
                             flags := fl; padding := 0 |};
                o_data := [1; 2; 3; 4] |}.

(** The payer, two accounts of the program with key 1, that program and its caller. *)
Definition example_accounts : list (Pubkey * AccountSharedData) :=
  [(key 9, example_account 10 (key 0) Mirrored 0);
   (key 2, example_account 200 (key 1) Delegated 0);
   (key 3, example_account 300 (key 1) Delegated 0);
   (key 1, example_account 1 (key 5) Mirrored EXECUTABLE);
   (key 4, example_account 1 (key 5) Mirrored EXECUTABLE)].

Definition example_load (k : Pubkey) : option AccountSharedData :=
  (list_to_map example_accounts : gmap Pubkey AccountSharedData) !! k.

Definition steps (l : list (ProgramStep nat)) : Program nat :=
  foldr (λ x p, Step x (λ _ _, p)) (Exit (Ok tt)) l.

Definition transfer : list (ProgramStep nat) :=
  [SConsume 150; SAction (XBorrow 0); SAction (XBorrow 1); SAction (XCall 0 (CSubLamports 30));
   SAction (XCall 1 (CAddLamports 30)); SAction (XDrop 1); SAction (XDrop 0)].
Definition call_transfer : CallInstruction :=
  {| program_id := key 1;
     instruction_metas := [{| meta_pubkey := key 2; meta_is_signer := false; meta_is_writable := true |};
                           {| meta_pubkey := key 3; meta_is_signer := false; meta_is_writable := true |}];
     instruction_bytes := [7] |}.

Definition example_runtime : ProgramRuntime nat := {|
  native_loader := key 5; bpf_loader_deprecated := key 11; bpf_loader := key 12;
  bpf_loader_upgradeable := key 13; loader_v4 := key 14;
  create_program_address := λ _ k, Ok k;
  is_precompile := λ _, false;
  precompile := λ _ _ _, Ok tt;
  entrypoint := λ n, Some (λ _, steps (match n with
                                       | O => transfer
                                       | _ => [SConsume 150; SInvoke (InvokeSigned []) call_transfer]
                                       end));
  vm_execute := λ _ _, Exit (Ok tt);
|}.
Definition example_programs : gmap Pubkey (ProgramCacheEntry nat) :=
  {[ key 1 := Builtin 0%nat; key 4 := Builtin 1%nat ]}.
Definition example_loader : ProgramLoader nat :=
  {| compile := λ _ _ _, None; deployment_environment := λ _, None; deployable := λ _ _, false |}.
Definition example_rent : RentRules := λ _ _, true.
Definition example_sysvar : InstructionsSysvar.
Proof.
  refine {| INSTRUCTIONS_ID := key 6; SYSVAR_ID := key 7; store_current_index_checked := λ d _, Ok d |}.
  by intros d i d' [= ->].
Defined.
Definition example_libraries : SvmLibraries :=
  {| construct_instructions_data := λ _, Some []; sysvar_id := key 7; incinerator := key 8; magic_root_id := key 10 |}.
Definition example_logs : LogCollector nat := λ _, [].

Lemma example_typed direct : @TypedPrograms nat direct example_runtime.
Proof.
  split; [|constructor]. intros n f s [= <-]. destruct n; repeat constructor; vm_compute; done.
Qed.

(** One instruction, for the calling program. *)
Definition example_message : SVMMessage :=
  {| msg_keys := example_accounts.*1; msg_signer := λ i, i =? 0; msg_writable := λ i, i <? 3;
     msg_instructions := [{| program_id_index := 4; ix_accounts := [1; 2; 3]; ix_data := [] |}];
     msg_lookup_tables := 0 |}.

Definition example_cache : ProgramCacheForTxBatch :=
  {| entries := example_programs; modified_entries := ∅; cache_slot := 1 |}.
Definition example_start : InvokeContext nat :=
  invoke_context_new (session_new (λ _, 0) example_accounts 5 64 1) example_cache 1000.

Lemma example_loaded : loaded (λ _, 0) example_accounts.
Proof.
  split; [|repeat constructor; vm_compute; done]. split; [by repeat constructor|].
  intros i j s s' _ Hi Hj.
  destruct i as [|[|[|[|[|]]]]], j as [|[|[|[|[|]]]]]; simplify_eq/=; done.
Qed.

#[local] Existing Instance example_runtime.
#[local] Existing Instance example_sysvar.

(** The caller's frame has been entered. *)
Definition example_caller : InvokeContext nat :=
  (invoke_push (prepare_next_top_level_instruction example_message
     {| program_id_index := 4; ix_accounts := [1; 2; 3]; ix_data := [] |} 4 example_start).2).2.
