(* ===== verification/InvokeProps.v ===== *)
(** * Properties of invocations

    What calls between programs may do, what a message may change, and what it costs. *)

From stdpp Require Import base list gmap numbers option strings.
From S2P Require Import Prelude Effects Memory AccountMode Account AccountFacts CtxAccounts CtxInstruction CtxStack CtxOps CtxRun CtxSession CtxTrace CtxProps Programs Invoke InvokeFacts InvokeFrames InvokeLaw Svm SvmFacts InvokeExample.

Local Open Scope Z_scope.



(** A message is accounted for. The units it reports are what its instructions took from
    the meter, never more than the meter had; the runtime's stacks and the origin of calls
    are as before, whatever failed; no frame of the transaction's stack below is removed; and
    the depth of calls the stack's capacity allows is enough for every instruction, whatever
    the programs do. *)
Theorem message_accounted {Code} `{!RentRules} `{!InstructionsSysvar} `{!ProgramRuntime Code}
    {direct} `{!TypedPrograms Code direct} tx indices (s : InvokeContext Code) :
  fits 64 (compute_meter s) →
  let '(r, n, s') := process_message tx indices s in
  n = compute_meter s - compute_meter s' ∧ 0 ≤ n ≤ compute_meter s ∧
  syscall_context s' = syscall_context s ∧ memory_contexts s' = memory_contexts s ∧
  native_caller s' = native_caller s ∧ magic_root s' = magic_root s ∧
  instruction_stack (transaction_context s) `prefix_of` instruction_stack (transaction_context s') ∧
  ∀ fuel (t : InvokeContext Code),
    0 ≤ compute_meter t → 0 ≤ instruction_stack_capacity (transaction_context t) → (depth t ≤ fuel)%nat →
    process_instruction fuel t = process_instruction (depth t) t.
Proof.
  intros Hf. destruct (process_message tx indices s) as [[r n] s'] eqn:Ep.
  assert (0 ≤ compute_meter s) as Hpos by (unfold fits in Hf; lia).
  destruct (message_restored tx indices s r n s' Hpos Hf Ep) as [([F1 F2 F3 F4 [F5 F6] F7] & R1 & R2) ->].
  specialize (F7 Hpos). split_and!; try done; try lia. intros fuel t Ht Hc Hd. by apply depth_suffices.
Qed.

(** ** Examples *)

#[local] Existing Instance example_runtime.
#[local] Existing Instance example_rent.
#[local] Existing Instance example_sysvar.
#[local] Instance example_typed_false : TypedPrograms nat false := example_typed false.



Lemma message_accounted_witness :
  let '(r, n, s') := process_message example_message [4] example_start in
  n = 1000 - compute_meter s' ∧ n = 300.
Proof.
  pose proof (message_accounted (direct := false) example_message [4] example_start ltac:(vm_compute; split; [intro H; discriminate H|reflexivity])) as H.
  assert (Hn : (process_message example_message [4] example_start).1.2 = 300) by (vm_compute; reflexivity).
  destruct (process_message example_message [4] example_start) as [[r k] s]. destruct H as [H _].
  split; [exact H|exact Hn].
Defined.
