(* ===== verification/SvmProps.v ===== *)
(** * Properties of the transaction processor

    The whole path of a transaction, from loading its accounts to the final access check:
    what can have changed, what was charged, and what the shared caches keep. *)

From stdpp Require Import base list gmap numbers option strings.
From S2P Require Import Prelude Effects Memory AccountMode Account AccountFacts CtxAccounts CtxInstruction CtxStack CtxOps CtxRun CtxSession CtxTrace CtxProps Programs Invoke InvokeFacts InvokeFrames InvokeLaw Svm SvmFacts InvokeExample.

Local Open Scope Z_scope.

(** ** The access check *)

Section access.
Context `{SL : !SvmLibraries}.

Lemma immutable_written_none m tx privileged i l :
  immutable_written m tx privileged i l = None →
  ∀ j k a, l !! j = Some (k, a) → msg_writable tx (i + Z.of_nat j) = true → privileged = false →
    can_writeback m a = true.
Proof using Type.
  revert i. induction l as [|[k a] l IH]; intros i; simpl; [done|].
  destruct (negb (msg_writable tx i) || can_writeback m a || privileged) eqn:E; [|done].
  intros Hl [|j] k' a' Hj Hw Hp; simpl in Hj; simplify_eq.
  - rewrite Z.add_0_r in Hw. rewrite Hw in E. simpl in E. by rewrite orb_false_r in E.
  - eapply (IH _ Hl j); [done| |done]. by replace (i + 1 + Z.of_nat j) with (i + Z.of_nat (S j)) by lia.
Qed.

(** The check keeps the accounts; with a payer it passes exactly when the status stays. *)
Lemma access_spec m tx e valid e' :
  access_is_valid m tx e = (valid, e') →
  loaded_transaction e' = loaded_transaction e ∧
  executed_units (execution_details e') = executed_units (execution_details e) ∧
  (lt_accounts (loaded_transaction e) ≠ [] → valid = was_successful e') ∧
  (valid = true → was_successful e = true ∧ was_successful e' = true ∧
     ∀ i k a, i ≠ 0%nat → lt_accounts (loaded_transaction e) !! i = Some (k, a) →
       msg_writable tx (Z.of_nat i) = true → is_privileged tx = false → can_writeback m a = true).
Proof using Type.
  unfold access_is_valid. destruct (was_successful e) eqn:Es; simpl.
  2: { intros [= <- <-]. by rewrite Es. }
  destruct (lt_accounts (loaded_transaction e)) as [|[pk payer] rest] eqn:El.
  { intros [= <- <-]. done. }
  destruct (immutable_written m tx (is_privileged tx) 1 rest) as [k|] eqn:Ei.
  { intros [= <- <-]. done. }
  case_match; [by intros [= <- <-]|]. intros [= <- <-]. unfold was_successful in *. simpl. rewrite Es.
  split_and!; [done|done|done|]. intros _. split_and!; [done|done|].
  intros [|i] k a Hi0 Hi Hw Hp; [done|]. simpl in Hi.
  eapply (immutable_written_none _ _ _ _ _ Ei i); [done| |done].
  by replace (1 + Z.of_nat i) with (Z.of_nat (S i)) by lia.
Qed.

Lemma access_status m tx e :
  let st := status (execution_details (access_is_valid m tx e).2) in
  st = status (execution_details e) ∨ st = Err InvalidWritableAccount ∨ st = Err InvalidAccountForFee.
Proof using Type.
  unfold access_is_valid. destruct (was_successful e); simpl; [|by left].
  destruct (lt_accounts _) as [|[]]; simpl; [by left|].
  destruct (immutable_written _ _ _ _ _); simpl; [by right; left|]. case_match; simpl; auto.
Qed.

End access.

(** ** The whole path *)

Section path.
Context {Code : Type} `{PL : !ProgramLoader Code} `{PR : !ProgramRuntime Code} `{SL : !SvmLibraries}.
Context `{LC : !LogCollector Code} `{RR : !RentRules} `{IS : !InstructionsSysvar}.

(** A sanitized message: distinct keys, at most 256 of them, indices in range. *)
Record sanitized (tx : SVMMessage) : Prop := {
  sz_keys : NoDup (msg_keys tx);
  sz_count : (1 ≤ length (msg_keys tx) ≤ 256)%nat;
  sz_indices : Forall (λ ix, zlen (ix_accounts ix) < umax 16 ∧
    Forall (λ i, 0 ≤ i ∧ (Z.to_nat i < length (msg_keys tx))%nat) (ix_accounts ix)) (msg_instructions tx);
  sz_tables : 0 ≤ msg_lookup_tables tx;
}.

Definition details_ok (d : ValidatedTransactionDetails) : Prop :=
  vd_loaded_accounts_bytes_limit d < umax 32 ∧ fits 64 (compute_unit_limit (vd_compute_budget d)).

Lemma sanitized_indices tx : sanitized tx → indices_ok tx.
Proof using Type.
  intros [_ _ H _]. unfold indices_ok. eapply list.Forall_impl; [exact H|]. intros ix [H1 H2]. split; [done|].
  eapply list.Forall_impl; [exact H2|]. by intros i [].
Qed.

Lemma sanitized_decompile tx : sanitized tx → is_Some (decompile tx).
Proof using Type.
  intros [_ _ H _]. unfold decompile. apply mapM_is_Some_2, list.Forall_forall. intros [id ix] Hin.
  unfold program_instructions in Hin. apply list_elem_of_omap in Hin as (ix' & Hin & Hx).
  destruct (msg_keys tx !! _); simplify_eq/=. eapply list.Forall_forall in H as [_ H]; [|done].
  match goal with |- is_Some (mapM ?f ?l ≫= _) => assert (is_Some (mapM f l)) as [metas Hmetas] end.
  { apply mapM_is_Some_2. eapply list.Forall_impl; [exact H|]. intros i [_ Hi]. simpl.
    by destruct (lookup_lt_is_Some_2 _ _ Hi) as [k ->]. }
  unfold mbind in *. by rewrite Hmetas.
Qed.

Lemma load_total m load tx d : is_Some (decompile tx) → is_Some (load_transaction (Code := Code) m load tx d).
Proof using Type.
  intros [l Hd]. unfold load_transaction, load_transaction_accounts.
  destruct (increase_calculated_data_size 0 _ _) as [size|]; simpl; [|done].
  assert (Hk : ∀ keys size l, is_Some (load_keys m load tx (vd_loaded_accounts_bytes_limit d) keys size l)).
  { induction keys as [|k keys IH]; intros size' l'; simpl; [done|].
    assert (is_Some (load_transaction_account m load tx k)) as [r ->].
    { unfold load_transaction_account, construct_instructions_account. rewrite Hd. case_bool_decide; simpl; done. }
    simpl. destruct r; [|done]. case_match; [apply IH|done]. }
  destruct (Hk (msg_keys tx) size []) as [r ->]. done.
Qed.

Context `{TP : !TypedPrograms Code false}.

(** Processing never panics; a transaction that is not loaded changes nothing, any other one
    was loaded, executed and checked. *)
Lemma path_cases p m load tx d env config :
  source_ok m load → sanitized tx → details_ok d →
  ∃ out m' p', load_and_execute_sanitized_transaction p m load tx d env config = Some (out, m', p') ∧
  ((∃ e, processing_result out = Err e ∧ m' = m ∧ p' = p) ∨
   ∃ t e0 e a valid, processing_result out = Ok e ∧
     load_spec (Code := Code) m load tx (vd_loaded_accounts_bytes_limit d) t ∧ loaded m (lt_accounts t) ∧
     lt_compute_budget t = vd_compute_budget d ∧
     executed_spec m tx t (relax_post_exec_min_balance_check env) e0 m' a ∧
     access_is_valid m' tx e0 = (valid, e) ∧
     processor_slot p' = processor_slot p ∧
     (valid = false → shared_programs p'
        = (replenish_program_cache m (env_for_execution env) (shared_programs p)
             (batch_new (processor_slot p)) (lt_accounts t)).1)).
Proof using TP.
  intros Hsource Htx [Hlim Hunits]. unfold load_and_execute_sanitized_transaction. cbv zeta.
  destruct (load_total m load tx d (sanitized_decompile tx Htx)) as [[t|err] Hload]; rewrite Hload.
  2: { eexists _, _, _. split; [done|]. left. by eexists. }
  assert (Hbudget : lt_compute_budget t = vd_compute_budget d).
  { revert Hload. unfold load_transaction. destruct (load_transaction_accounts _ _ _ _) as [[[[] ?]|]|]; simpl; [|done..].
    by intros [= <-]. }
  apply load_ok in Hload; [|done|apply Htx|intros key a Hk; by eapply loaded_as_short].
  destruct (replenish_program_cache _ _ _ _ _) as [shared batch] eqn:Er.
  assert (Hl : loaded m (lt_accounts t)).
  { apply (loaded_accounts m load Hsource tx); [rewrite (ls_keys _ _ _ _ _ Hload); apply Htx|apply Hload]. }
  destruct (loaded_execute_spec m tx t Hl) with (cache := batch) (env := env) (config := config)
    as (e0 & m' & cache' & -> & Hex).
  { rewrite <- (length_fmap fst), (ls_keys _ _ _ _ _ Hload). apply Htx. }
  { apply Hload. }
  { by apply sanitized_indices. }
  { by rewrite Hbudget. }
  destruct (access_is_valid m' tx e0) as [valid e] eqn:Ea.
  eexists _, _, _. split; [done|]. right. eexists t, e0, e, _, valid. split_and!; try done.
  intros ->. simpl. by rewrite Er.
Qed.

End path.

(** The shared cache only grows while a transaction is prepared. *)
Lemma replenish_keeps {Code} `{!ProgramLoader Code} `{!ProgramRuntime Code} (m : mem) (env : Z)
    (shared : gmap Pubkey (ProgramCacheEntry Code)) (batch : ProgramCacheForTxBatch)
    (l : list (Pubkey * AccountSharedData)) (k : Pubkey) (e : ProgramCacheEntry Code) :
  shared !! k = Some e → (replenish_program_cache m env shared batch l).1 !! k = Some e.
Proof.
  unfold replenish_program_cache. revert shared batch.
  induction l as [|[key a] l IH]; intros shared batch Hk; [done|]. simpl. case_match; [|by apply IH].
  destruct (shared !! key) as [x|] eqn:Ek; [by apply IH|]. apply IH. unfold assign_program.
  rewrite lookup_insert_ne; [done|]. congruence.
Qed.


(** C11. Every transaction has an outcome. Processing a sanitized transaction never panics; it
    reports at most the compute units of its budget; it never finds the lamports unbalanced
    (the instructions were checked one by one); what it loaded was within its limit, counted
    as 64 bytes and the data of each account and 8248 bytes per lookup table; and when it
    fails, at loading or later, the shared program cache keeps every entry it had. *)
Theorem transaction_outcome {Code} `{!ProgramLoader Code} `{!ProgramRuntime Code} `{!SvmLibraries}
    `{!LogCollector Code} `{!RentRules} `{!InstructionsSysvar} `{!TypedPrograms Code false}
    p m load tx d env config :
  source_ok m load → sanitized tx → details_ok d →
  ∃ out m' p', load_and_execute_sanitized_transaction p m load tx d env config = Some (out, m', p') ∧
    (∀ e, processing_result out = Ok e →
       0 ≤ executed_units (execution_details e) ≤ compute_unit_limit (vd_compute_budget d) ∧
       status (execution_details e) ≠ Err UnbalancedTransaction ∧
       ∃ t, load_spec (Code := Code) m load tx (vd_loaded_accounts_bytes_limit d) t) ∧
    (was_processed_with_successful_result (processing_result out) = false →
       ∀ k x, shared_programs p !! k = Some x → shared_programs p' !! k = Some x).
Proof.
  intros Hsource Htx Hd.
  destruct (path_cases p m load tx d env config Hsource Htx Hd) as (out & m' & p' & Hp & Hc).
  exists out, m', p'. split; [done|].
  destruct Hc as [(err & Hc & -> & ->)|(t & e0 & e & a & valid & Hc & Hload & Hl & Hb & Hex & Hacc & Hslot & Hv)].
  { rewrite Hc. done. }
  rewrite Hc. destruct Hex as [[X1 _] X2 _ X4 X5 _ _]. pose proof Hacc as Hacc'.
  apply access_spec in Hacc' as (A1 & A2 & A3 & A4). split.
  - intros e' [= <-]. rewrite A2, <- Hb. split_and!; [lia|lia| |by exists t].
    pose proof (access_status m' tx e0) as Hst. rewrite Hacc in Hst. simpl in Hst.
    destruct Hst as [->|[->| ->]]; done.
  - simpl. intros Hs k x Hk. rewrite Hv; [by apply replenish_keeps|].
    rewrite A3; [done|]. rewrite X1. intros E.
    assert (Hkeys : (accounts a).*1 = msg_keys tx) by (rewrite (ac_keys _ _ X2); apply Hload).
    rewrite E in Hkeys. destruct (sz_count _ Htx) as [Hn _]. rewrite <- Hkeys in Hn. simpl in Hn. lia.
Qed.

(** C32. Rent is respected. After a successful execution whose programs have closed their
    handles, every account declared writable, the incinerator apart, is empty, exempt or a
    funded magic account, or else is no worse than it was: with the relaxed rule it was
    funded, kept its owner, did not lose lamports and did not grow; with the strict rule it
    was paying rent already, kept its size and gained nothing. *)
Theorem rent_respected {Code} `{!ProgramLoader Code} `{!ProgramRuntime Code} `{!SvmLibraries}
    `{!LogCollector Code} `{!RentRules} `{!InstructionsSysvar} `{!TypedPrograms Code false}
    m tx t cache env config e m' cache' :
  loaded m (lt_accounts t) → (length (lt_accounts t) ≤ 256)%nat → (lt_accounts t).*1 = msg_keys tx →
  indices_ok tx → fits 64 (compute_unit_limit (lt_compute_budget t)) →
  let s := session (process_message tx (lt_program_indices t) (start m tx t cache)).2 in
  held s = [] → CtxSession.shared s = [] →
  execute_loaded_transaction m tx t cache env config = Some (e, m', cache') → was_successful e = true →
  ∀ i k a a', lt_accounts t !! i = Some (k, a) → lt_accounts (loaded_transaction e) !! i = Some (k, a') →
    msg_writable tx (Z.of_nat i) = true → k ≠ incinerator →
    rent_acceptable (relax_post_exec_min_balance_check env) (owned m a) (owned m' a').
Proof.
  intros Hl Hfew Hkeys Hix Hunits s Hh Hr He Hs i k a a' Hi Hi' Hw Hk.
  destruct (loaded_execute_spec m tx t Hl Hfew Hkeys Hix Hunits cache env config) as (e1 & m1 & c1 & He1 & Hex).
  rewrite He in He1. simplify_eq.
  assert (Hobey : obeys tx (initial m t) s).
  { destruct (process_message tx (lt_program_indices t) (start m tx t cache)) as [[r u] s1] eqn:Ep.
    by eapply (processed_obeys m tx t Hl Hfew Hix cache r u s1). }
  destruct Hex as [[X1 ->] X2 _ _ _ _ X7]. change (transaction_context _) with (ctx s) in *.
  rewrite X1 in Hi'. eapply (X7 i); [done|done| | |].
  - rewrite (accounted_key _ _ _ X2). unfold account_key. rewrite Nat2Z.id. simpl. rewrite Hi. simpl. congruence.
  - unfold peek, try_borrow, borrow_with. simpl. rewrite Nat2Z.id.
    rewrite lookup_replicate_2 by by eapply lookup_lt_Some. simpl. by rewrite Hi.
  - apply (closed_peek (initial m t) s i); [apply Hobey|done|done|].
    unfold states, state_of. rewrite !list_lookup_fmap. by rewrite Hi'.
Qed.

(** ** Examples *)

#[local] Existing Instance example_runtime.
#[local] Existing Instance example_loader.
#[local] Existing Instance example_rent.
#[local] Existing Instance example_sysvar.
#[local] Existing Instance example_libraries.
#[local] Existing Instance example_logs.
#[local] Instance example_typed_svm : TypedPrograms nat false := example_typed false.

Definition example_processor : TransactionBatchProcessor :=
  {| processor_slot := 1; shared_programs := example_programs |}.
Definition example_environment : TransactionProcessingEnvironment :=
  {| relax_post_exec_min_balance_check := true; env_for_execution := 0 |}.

Lemma example_source : source_ok (λ _, 0) example_load.
Proof.
  assert (H : ∀ k a, example_load k = Some a →
    ∃ o, cow a = Owned o ∧ words_ok o ∧ zlen (o_data o) < 2 ^ 32).
  { intros k a Ha. unfold example_load in Ha. apply elem_of_list_to_map_2 in Ha.
    assert (Hall : Forall (λ ka : Pubkey * AccountSharedData,
      ∃ o, cow ka.2 = Owned o ∧ words_ok o ∧ zlen (o_data o) < 2 ^ 32) example_accounts).
    { repeat constructor; (eexists; split; [reflexivity|]; vm_compute; done). }
    by eapply list.Forall_forall in Hall as (o & Ho); [|exact Ha]; exists o. }
  split.
  - intros k a (o & Ho & H1 & H2)%H. unfold wf, owned, cow_data. rewrite Ho. done.
  - intros k k' a a' _ (o & Ho & _)%H _. unfold apart_from. by rewrite Ho.
Qed.

Lemma example_sanitized : sanitized example_message.
Proof.
  split; [|vm_compute; lia| |vm_compute; done].
  - apply (bool_decide_eq_true_1 (NoDup (msg_keys example_message))). vm_compute. reflexivity.
  - repeat constructor; vm_compute; (done || lia).
Qed.

Abbreviation example_run limit :=
  (load_and_execute_sanitized_transaction example_processor (λ _, 0) example_load example_message
     {| vd_compute_budget := budget_new_with_defaults false; vd_loaded_accounts_bytes_limit := limit;
        vd_fee_details := {| transaction_fee := 0; prioritization_fee := 0 |} |}
     example_environment (new_single_setting true)).


Lemma transaction_outcome_witness :
  ∃ out m' p', example_run 339 = Some (out, m', p') ∧
  processing_result out = Err MaxLoadedAccountsDataSizeExceeded ∧
  shared_programs p' !! key 1 = Some (Builtin 0%nat).
Proof.
  assert (Hr : match example_run 339 with
    | Some (out, _, _) => processing_result out = Err MaxLoadedAccountsDataSizeExceeded
    | None => False
    end) by (vm_compute; reflexivity).
  destruct (transaction_outcome example_processor (λ _, 0) example_load example_message
    {| vd_compute_budget := budget_new_with_defaults false; vd_loaded_accounts_bytes_limit := 339;
       vd_fee_details := {| transaction_fee := 0; prioritization_fee := 0 |} |}
    example_environment (new_single_setting true)) as (out & m' & p' & E & _ & H);
    [apply example_source|apply example_sanitized|vm_compute; split; [reflexivity|split; [intro H; discriminate H|reflexivity]]|].
  rewrite E in Hr. exists out, m', p'. split; [exact E|]. split; [exact Hr|].
  apply H; [rewrite Hr; reflexivity|vm_compute; reflexivity].
Defined.

Definition example_transaction : LoadedTransaction :=
  {| lt_accounts := example_accounts; lt_program_indices := [4];
     lt_fee_details := {| transaction_fee := 0; prioritization_fee := 0 |};
     lt_compute_budget := budget_new_with_defaults false; lt_loaded_accounts_data_size := 340 |}.

Abbreviation example_execution :=
  (execute_loaded_transaction (λ _, 0) example_message example_transaction example_cache
     example_environment (new_single_setting true)).

Lemma rent_respected_witness :
  ∃ e m' cache' a', example_execution = Some (e, m', cache') ∧
  lt_accounts (loaded_transaction e) !! 1%nat = Some (key 2, a') ∧
  rent_acceptable true (owned (λ _, 0) (example_account 200 (key 1) Delegated 0)) (owned m' a').
Proof.
  assert (H : match example_execution with
    | Some (e, _, _) => was_successful e = true ∧ fst <$> lt_accounts (loaded_transaction e) !! 1%nat = Some (key 2)
    | None => False
    end) by (vm_compute; split; reflexivity).
  destruct example_execution as [[[e m'] c']|] eqn:E; [|destruct H]. destruct H as [Hs Ha].
  destruct (lt_accounts (loaded_transaction e) !! 1%nat) as [[k a']|] eqn:Ea; [|discriminate Ha].
  injection Ha as ->. exists e, m', c', a'. split; [reflexivity|]. split; [exact Ea|].
  apply (rent_respected (λ _, 0) example_message example_transaction example_cache example_environment
    (new_single_setting true) e m' c') with (i := 1%nat) (k := key 2);
    [apply example_loaded|apply (bool_decide_eq_true_1 (_ ≤ _)%nat); vm_compute; reflexivity|reflexivity|
     apply sanitized_indices, example_sanitized|vm_compute; split; [intro H; discriminate H|reflexivity]|
     vm_compute; reflexivity|vm_compute; reflexivity|exact E|exact Hs|reflexivity|exact Ea|reflexivity|
     vm_compute; discriminate].
Defined.

(** The access check refuses, and logs as modified, an account that no program touched: being
    writable in the message and not fit for writeback is enough. *)
Example access_refuses_unmodified :
  let untouched := example_account 5 (key 1) Mirrored 0 in
  let e := {| loaded_transaction :=
                {| lt_accounts := [(key 9, example_account 10 (key 0) Mirrored 0); (key 2, untouched)];
                   lt_program_indices := []; lt_fee_details := {| transaction_fee := 0; prioritization_fee := 0 |};
                   lt_compute_budget := budget_new_with_defaults false; lt_loaded_accounts_data_size := 0 |};
              execution_details :=
                {| status := Ok tt; log_messages := None; inner_instructions := None; return_data := None;
                   executed_units := 0; accounts_data_len_delta := 0 |} |} in
  let '(valid, e') := access_is_valid (SL := example_libraries) (λ _, 0) example_message e in
  is_dirty untouched = false ∧ valid = false ∧
  status (execution_details e') = Err InvalidWritableAccount ∧
  log_messages (execution_details e') = Some [ImmutableModified (key 2)].
Proof. vm_compute. repeat split; reflexivity. Qed.
