(* ===== verification/MagicRoot.v ===== *)
(** * The MagicRoot builtin ([programs/magic-root-program], [programs/magic-root-interface])

    The engine installs, finalizes and closes accounts with a builtin program whose operations
    run inside transactions. It works on the accounts of the transaction directly, so its
    authorization is checked before any account is touched. *)

From stdpp Require Import base list gmap numbers option.
From S2P Require Import Prelude Effects Memory AccountMode Account Patch CtxAccounts CtxInstruction CtxStack CtxSession Programs Invoke.

Local Open Scope Z_scope.

(** ** Instructions ([magic-root-interface/src/lib.rs]) *)

Record PostFinalize := { source_program : Pubkey; actions : list CallInstruction }.

Inductive MagicRootInstruction :=
| RootPatch (p : AccountFieldPatch)
| RootFinalize (flags : Z)
| RootDelete
| RootPostFinalize (x : PostFinalize)
| RootNonce (n : Z)
| RootCompareAndPatch (expected : OwnedAccount) (p : AccountFieldPatch).

(** [ACCOUNT_CHANGED]. *)
Definition ACCOUNT_CHANGED : InstructionError := Custom 0.

(** Code outside the repository: the wire format of instructions and the address of the
    program. What is encoded is decoded. *)
Class MagicRootWire := {
  MAGIC_ROOT_ID : Pubkey;
  encode_root : MagicRootInstruction → option (list Z);
  decode_root : list Z → option MagicRootInstruction;
  decode_encode_root x d : encode_root x = Some d → decode_root d = Some x;
}.

Section compose.
Context `{MW : !MagicRootWire}.

(** The metas of follow-up actions, with the signer bits cleared. *)
Definition extend_metas (x : MagicRootInstruction) (metas : list AccountMeta) : list AccountMeta :=
  match x with
  | RootPostFinalize pf =>
      metas ++ flat_map (λ ix,
        {| meta_pubkey := program_id ix; meta_is_signer := false; meta_is_writable := false |} ::
        map (λ meta, {| meta_pubkey := meta_pubkey meta; meta_is_signer := false;
                        meta_is_writable := meta_is_writable meta |}) (instruction_metas ix)) (actions pf)
  | _ => metas
  end.

Definition compose (x : MagicRootInstruction) (account : Pubkey) : result InstructionError CallInstruction :=
  let metas :=
    extend_metas x [{| meta_pubkey := account; meta_is_signer := false; meta_is_writable := true |}] in
  data ← ok_or (encode_root x) BorshIoError;
  Ok {| program_id := MAGIC_ROOT_ID; instruction_metas := metas; instruction_bytes := data |}.

Fixpoint compose_all (l : list MagicRootInstruction) (account : Pubkey)
    : result InstructionError (list CallInstruction) :=
  match l with
  | [] => Ok []
  | x :: l => ix ← compose x account; rest ← compose_all l account; Ok (ix :: rest)
  end.

Definition compose_account (target : Pubkey) (account : OwnedAccount)
    : result InstructionError (list CallInstruction) :=
  compose_all (map RootPatch (patch_sequence account) ++ [RootFinalize (flags (o_core account))]) target.

End compose.

(** ** Account operations ([account.rs]) *)

(** A mutable borrow of an account of the transaction, dropped on every way out. *)
Definition direct_handle (index : Z) : BorrowedInstructionAccount :=
  {| instruction_account := instruction_account_new index false true; program_index := index |}.

Definition with_mut (index : Z) (body : Op TransactionAccounts unit) : Op TransactionAccounts unit := λ a,
  match try_borrow_mut index a with
  | (Err e, a) => (Err e, a)
  | (Ok _, a) => let '(r, a) := body a in (r, drop_ref_mut index a)
  end.

(** A call on the borrowed account that may fail. *)
Definition edit (index : Z)
    (f : mem → AccountSharedData → mem * AccountSharedData * result InstructionError unit)
    : Op TransactionAccounts unit := λ a,
  match accounts a !! Z.to_nat index with
  | Some (k, s) =>
      let '(m, s, r) := f (storage a) s in
      (r, with_accounts a m (<[Z.to_nat index := (k, s)]> (accounts a)))
  | None => (Err MissingAccount, a)
  end.

(** The length a patch asks for is computed in 64 bits and bounded. *)
Definition patched_len (p : AccountFieldPatch) (len : Z) : result InstructionError (option Z) :=
  match p with
  | PDataAt offset data => e ← ok_or (checked_add 64 offset (zlen data)) InvalidRealloc; Ok (Some (Z.max len e))
  | PDataLen n => Ok (Some n)
  | _ => Ok None
  end.
Definition check_patched_len (p : AccountFieldPatch) (len : Z) : Op TransactionAccounts unit :=
  n ← lift (patched_len p len);
  match n with
  | Some n => ensure (n <=? MAX_ACCOUNT_DATA_LEN) InvalidRealloc
  | None => mret tt
  end.

Definition apply_patch (p : AccountFieldPatch) (m : mem) (s : AccountSharedData)
    : mem * AccountSharedData * result InstructionError unit :=
  let '(m, s, r) := apply m s p in (m, s, map_err (λ _, InvalidArgument) r).

(** The authority pays for what the target gains, and takes what it loses. *)
Definition settle (old new : Z) (m : mem) (s : AccountSharedData)
    : mem * AccountSharedData * result InstructionError unit :=
  match (if old <? new then checked_sub_lamports m s (new - old)
         else if new <? old then checked_add_lamports m s (old - new) else Some (m, s)) with
  | Some (m, s) => (m, s, Ok tt)
  | None => (m, s, Err ArithmeticOverflow)
  end.

Definition root_patch (target : Z) (p : AccountFieldPatch) : Op TransactionAccounts unit :=
  with_mut target
    (data ← get_data (direct_handle target);
     _ ← check_patched_len p (zlen data);
     old ← get_core (direct_handle target);
     _ ← edit target (apply_patch p);
     new ← get_core (direct_handle target);
     with_mut 0 (edit 0 (settle (lamports old) (lamports new)))).

Definition root_set_flags (target flags : Z) : Op TransactionAccounts unit :=
  with_mut target (edit target (λ m s, (set_flags m s flags, Ok tt))).

Definition root_close (target : Z) : Op TransactionAccounts unit :=
  with_mut target (edit target (λ m s,
    let '(m, s, r) := set_lifecycle m s Closed (slot (core_of m s)) in
    (m, s, map_err (λ _, InvalidArgument) r))).

(** The comparison of the complete image, through a shared borrow. *)
Definition root_compare (target : Z) (expected : OwnedAccount) : Op TransactionAccounts unit := λ a,
  match try_borrow target a with
  | (Err e, a) => (Err e, a)
  | (Ok _, a) =>
      (match accounts a !! Z.to_nat target with
       | Some (_, s) => if bool_decide (owned (storage a) s = expected) then Ok tt else Err ACCOUNT_CHANGED
       | None => Err MissingAccount
       end, drop_ref target a)
  end.

Section root.
Context {Code : Type} `{MW : !MagicRootWire} `{PL : !ProgramLoader Code}.
(** The authority of the thread and the environment programs are loaded in. *)
Context (authority : Pubkey) (env : Environment).
Abbreviation IC := (InvokeContext Code).

Definition TARGET_ACCOUNT_IDX : Z := 0.

(** ** Authorization ([processor.rs]) *)

Definition is_builtin_entry (e : option (ProgramCacheEntry Code)) : bool :=
  match e with Some (Builtin _) => true | _ => false end.

Definition authorize_caller (s : IC) : result InstructionError unit :=
  ic ← get_current_instruction_context (transaction_context s);
  caller ← get_instruction_context_at_index_in_trace (transaction_context s) (ic_caller ic);
  id ← get_program_key (transaction_context s) caller;
  if bool_decide (id = MAGIC_ROOT_ID) then Err CallDepth
  else if negb (is_builtin_entry (cache_find (program_cache s) id)) then Err CallDepth
  else if negb (is_magic_root_authorized s) then Err MissingRequiredSignature
  else Ok tt.

Definition authorize (s : IC) : result InstructionError unit :=
  _ ← (if invoke_stack_height s =? 1 then Ok tt else authorize_caller s);
  signer ← ok_or (account_key (tx_accounts (transaction_context s)) 0) MissingAccount;
  if bool_decide (signer = authority) then Ok tt else Err MissingRequiredSignature.

Definition root_decode (s : IC) : result InstructionError MagicRootInstruction :=
  ic ← get_current_instruction_context (transaction_context s);
  ok_or (decode_root (ic_data ic)) InvalidInstructionData.

Definition root_target (s : IC) : result InstructionError Z :=
  ic ← get_current_instruction_context (transaction_context s);
  get_index_of_instruction_account_in_transaction ic TARGET_ACCOUNT_IDX.

(** ** Dispatch *)

Definition exit (r : result InstructionError unit) : Program Code := Exit (map_err FInstruction r).
Definition on_accounts_then (op : Op TransactionAccounts unit) (k : IC → Program Code) : Program Code :=
  Step (SAccounts op) (λ r s, match r with Ok _ => k s | Err e => exit (Err e) end).

Definition account_at (s : IC) (index : Z) : option (Pubkey * AccountSharedData) :=
  accounts (tx_accounts (transaction_context s)) !! Z.to_nat index.
Definition memory_of (s : IC) : mem := storage (tx_accounts (transaction_context s)).

Definition finalize (target flags : Z) : Program Code :=
  on_accounts_then (root_set_flags target flags) (λ s,
    match account_at s target with
    | None => exit (Err MissingAccount)
    | Some (key, a) =>
        if executable (memory_of s) a then
          match compile env (cow_data (memory_of s) (cow a)) false with
          | None => exit (Err ProgramEnvironmentSetupFailure)
          | Some x => Step (SDeploy key (Loaded env x)) (λ _ _, exit (Ok tt))
          end
        else exit (Ok tt)
    end).

Definition root_delete (target : Z) : Program Code :=
  on_accounts_then (root_close target) (λ s,
    match account_at s target with
    | None => exit (Err MissingAccount)
    | Some (key, a) =>
        if executable (memory_of s) a then Step (SDeploy key EntryClosed) (λ _ _, exit (Ok tt)) else exit (Ok tt)
    end).

(** ** Follow-up actions ([post_finalize.rs]) *)

Fixpoint check_writeback (s : IC) (l : list InstructionAccount) : result InstructionError unit :=
  match l with
  | [] => Ok tt
  | ia :: l =>
      match try_borrow (index_in_transaction ia) (tx_accounts (transaction_context s)) with
      | (Err e, _) => Err e
      | (Ok _, _) =>
          match account_at s (index_in_transaction ia) with
          | None => Err MissingAccount
          | Some (_, a) =>
              if account_is_writable ia && negb (can_writeback (memory_of s) a) then Err Immutable
              else check_writeback s l
          end
      end
  end.

Fixpoint invoke_actions (source : Pubkey) (l : list CallInstruction) (k : IC → Program Code) (s : IC) : Program Code :=
  match l with
  | [] => k s
  | action :: l =>
      let signers := omap (λ meta, if meta_is_signer meta then Some (meta_pubkey meta) else None)
                       (instruction_metas action) in
      Step (SInvoke (InvokeAs source signers) action) (λ r s,
        match r with Ok _ => invoke_actions source l k s | Err e => exit (Err e) end)
  end.

Definition post_finalize (x : PostFinalize) (s : IC) : Program Code :=
  invoke_actions (source_program x) (actions x) (λ s,
    exit (ic ← get_current_instruction_context (transaction_context s); check_writeback s (ic_accounts ic))) s.

Definition root_dispatch (x : MagicRootInstruction) (s : IC) : Program Code :=
  match root_target s with
  | Err e => exit (Err e)
  | Ok target =>
      match x with
      | RootPatch p => on_accounts_then (root_patch target p) (λ _, exit (Ok tt))
      | RootFinalize flags => finalize target flags
      | RootDelete => root_delete target
      | RootPostFinalize x => post_finalize x s
      | RootNonce _ => exit (Ok tt)
      | RootCompareAndPatch expected p =>
          on_accounts_then (root_compare target expected) (λ _,
            on_accounts_then (root_patch target p) (λ _, exit (Ok tt)))
      end
  end.

Definition root_process (s : IC) : Program Code :=
  match authorize s with
  | Err e => exit (Err e)
  | Ok _ => match root_decode s with Err e => exit (Err e) | Ok x => root_dispatch x s end
  end.

(** [MagicRootEntrypoint]: 150 units, then the instruction. *)
Definition root_entrypoint (s : IC) : Program Code :=
  Step (SConsumeChecked 150) (λ r s, match r with Ok _ => root_process s | Err e => exit (Err e) end).

End root.
