(* ===== verification/MagicRootProps.v ===== *)
(** * Facts about MagicRoot

    What a patch does to its target and to the authority that settles it, and what the
    sequence of patches that installs an account amounts to. *)

From stdpp Require Import base list gmap numbers option.
From S2P Require Import Prelude Effects Memory AccountMode Account AccountFacts Patch CtxAccounts CtxInstruction CtxStack CtxOps CtxRun CtxSession Programs Invoke InvokeFacts MagicRoot CtxProps Svm InvokeExample.

Local Open Scope Z_scope.

(** ** Borrowed accounts *)

Lemma edit_spec index a o o' r f :
  tidy a → states a !! Z.to_nat index = Some o →
  (∀ m s, wf m s → owned m s = o → denotes m s o' (f m s).1 ∧ (f m s).2 = r) →
  ∃ a', edit index f a = (r, a') ∧ updates (Z.to_nat index) o' a a'.
Proof.
  intros Ht Ho Hf.
  destruct (update_account_spec (direct_handle index) a o o' (λ m s, (f m s).1) Ht Ho) as (a' & E & U).
  { intros m s Hw Hs. by apply Hf. }
  exists a'. split; [|done]. unfold update_account, edit in *. change (handle_index (direct_handle index)) with (Z.to_nat index) in E.
  unfold states in Ho. rewrite !list_lookup_fmap in Ho.
  destruct (accounts a !! Z.to_nat index) as [[k s]|] eqn:Ea; [|done]. injection Ho as Ho.
  assert (Hw : wf (storage a) s).
  { destruct (tidy_separated _ Ht) as [Hw _]. eapply Forall_lookup in Hw; [done|].
    rewrite list_lookup_fmap. by rewrite Ea. }
  destruct (Hf _ _ Hw Ho) as [_ Hr]. destruct (f (storage a) s) as [[m1 s1] r1]. simpl in *. by simplify_eq.
Qed.

(** The counters are back after a borrow, whatever the body returns. *)
Lemma with_mut_spec index body a r a2 :
  borrow_counters a !! Z.to_nat index = Some 0 →
  body (with_counters a (<[Z.to_nat index := -1]> (borrow_counters a))) = (r, a2) →
  borrow_counters a2 = <[Z.to_nat index := -1]> (borrow_counters a) →
  with_mut index body a = (r, with_counters a2 (borrow_counters a)).
Proof.
  intros Hc Hb H2. unfold with_mut.
  assert (try_borrow_mut index a
    = (Ok index, with_counters a (<[Z.to_nat index := -1]> (borrow_counters a)))) as ->.
  { unfold try_borrow_mut, borrow_with. by rewrite Hc. }
  rewrite Hb. f_equal. by apply drop_after_borrow.
Qed.

Lemma updates_counters i o a a' c :
  updates i o a a' → length c = length (borrow_counters a') → updates i o (with_counters a c) (with_counters a' c).
Proof.
  intros [U1 U2 U3 U4 U5 U6] Hc. constructor; simpl; try done. by apply tidy_with_counters.
Qed.

(** ** A patch *)

Definition patched_outcome (o authority : OwnedAccount) (p : AccountFieldPatch)
    : result InstructionError (OwnedAccount * OwnedAccount) :=
  n ← patched_len p (zlen (o_data o));
  if match n with Some n => MAX_ACCOUNT_DATA_LEN <? n | None => false end then Err InvalidRealloc
  else
    match patch_result o p with
    | Err _ => Err InvalidArgument
    | Ok _ =>
        let o' := abstract_mutate o (mutation_of p) in
        let balance := lamports (o_core authority) + lamports (o_core o) - lamports (o_core o') in
        if (0 <=? balance) && (balance <? 2 ^ 64) then Ok (o', put authority (FLamports balance))
        else Err ArithmeticOverflow
    end.

Lemma settle_spec o old new m s :
  wf m s → owned m s = o → fits 64 (lamports (o_core o)) → fits 64 old → fits 64 new →
  let balance := lamports (o_core o) + old - new in
  if (0 <=? balance) && (balance <? 2 ^ 64)
  then denotes m s (put o (FLamports balance)) (settle old new m s).1 ∧ (settle old new m s).2 = Ok tt
  else (settle old new m s) = (m, s, Err ArithmeticOverflow).
Proof.
  intros Hw <- Hl Ho Hn balance. unfold fits in *. unfold settle, checked_sub_lamports, checked_add_lamports.
  rewrite core_of_owned. unfold checked_sub, checked_add.
  assert (Hset : 0 ≤ balance < 2 ^ 64 → denotes m s (put (owned m s) (FLamports balance)) (set_lamports m s balance)).
  { intros Hb. by apply (mutate_spec m s (MLamports balance)). }
  destruct (Z.leb_spec 0 balance), (Z.ltb_spec balance (2 ^ 64)); simpl;
    destruct (Z.ltb_spec old new); simpl; try (destruct (Z.ltb_spec new old)); simpl;
    try (destruct (Z.leb_spec (new - old) (lamports (o_core (owned m s))))); simpl;
    try (destruct (Z.ltb_spec (lamports (o_core (owned m s)) + (old - new)) (2 ^ 64))); simpl; try lia; try done.
  - replace (lamports (o_core (owned m s)) - (new - old)) with balance by lia.
    destruct (set_lamports m s balance) as [m1 s1] eqn:E. simpl. split; [apply Hset; lia|done].
  - replace (lamports (o_core (owned m s)) + (old - new)) with balance by lia.
    destruct (set_lamports m s balance) as [m1 s1] eqn:E. simpl. split; [apply Hset; lia|done].
  - split; [|done]. replace balance with (lamports (o_core (owned m s))) by lia.
    rewrite put_same; [by apply denotes_refl|]. by destruct (o_core (owned m s)).
Qed.

(** The same accounts, with other states. *)
Record altered (l : list OwnedAccount) (a a' : TransactionAccounts) : Prop := {
  ch_tidy : tidy a';
  ch_keys : (accounts a').*1 = (accounts a).*1;
  ch_counters : borrow_counters a' = borrow_counters a;
  ch_states : states a' = l;
  ch_deltas : lamports_delta a' = lamports_delta a ∧ resize_delta a' = resize_delta a;
}.

Lemma patched_lamports o p :
  patch_ok p → fits 64 (lamports (o_core o)) → fits 64 (lamports (o_core (abstract_mutate o (mutation_of p)))).
Proof. intros Hp Hl. destruct o as [[] d], p; simpl in *; try done. by case_match. Qed.

Section patch.
Context (a : TransactionAccounts) (target : Z) (p : AccountFieldPatch) (o au : OwnedAccount).
Abbreviation t := (Z.to_nat target).
Hypothesis Ht : tidy a.
Hypothesis Hne : t ≠ 0%nat.
Hypothesis Ho : states a !! t = Some o.
Hypothesis Hau : states a !! 0%nat = Some au.
Hypothesis Hct : borrow_counters a !! t = Some 0.
Hypothesis Hc0 : borrow_counters a !! 0%nat = Some 0.
Hypothesis Hp : patch_ok p.
Hypothesis Hlo : fits 64 (lamports (o_core o)).
Hypothesis Hla : fits 64 (lamports (o_core au)).

Let a1 := with_counters a (<[t := -1]> (borrow_counters a)).

Lemma a1_tidy : tidy a1.
Proof using Ht. apply tidy_with_counters; [done|by rewrite length_insert]. Qed.

Lemma edit_patch : patch_result o p = Ok tt →
  ∃ a2, edit target (apply_patch p) a1 = (Ok tt, a2) ∧ updates t (abstract_mutate o (mutation_of p)) a1 a2.
Proof using Ht Ho Hp.
  intros Hr. apply (edit_spec target a1 o); [apply a1_tidy|done|]. intros m s Hw Hs.
  pose proof (apply_spec m s p Hw Hp) as Hd. pose proof (apply_result m s p) as He.
  rewrite Hs in Hd, He. rewrite Hr in He. unfold apply_patch. destruct (apply m s p) as [[m1 s1] r]. simpl in *.
  by rewrite He.
Qed.

Lemma edit_patch_refused e : patch_result o p = Err e →
  ∃ a2, edit target (apply_patch p) a1 = (Err InvalidArgument, a2) ∧ updates t o a1 a2.
Proof using Ht Ho Hp.
  intros Hr. apply (edit_spec target a1 o); [apply a1_tidy|done|]. intros m s Hw Hs.
  pose proof (apply_spec m s p Hw Hp) as Hd. pose proof (apply_result m s p) as He.
  rewrite Hs in Hd, He. rewrite Hr in He.
  assert (abstract_mutate o (mutation_of p) = o) as E.
  { destruct p; try done. simpl in Hr |- *. by rewrite Hr. }
  rewrite E in Hd. unfold apply_patch. destruct (apply m s p) as [[m1 s1] r]. simpl in *. by rewrite He.
Qed.

(** Settling with the authority, while the target is borrowed. *)
Lemma settle_authority o' a2 :
  updates t o' a1 a2 → fits 64 (lamports (o_core o')) →
  let balance := lamports (o_core au) + lamports (o_core o) - lamports (o_core o') in
  ∃ a3, with_mut 0 (edit 0 (settle (lamports (o_core o)) (lamports (o_core o')))) a2
    = (if (0 <=? balance) && (balance <? 2 ^ 64) then Ok tt else Err ArithmeticOverflow, a3) ∧
    borrow_counters a3 = borrow_counters a1 ∧
    ((0 <=? balance) && (balance <? 2 ^ 64) = true →
       altered (<[0%nat := put au (FLamports balance)]> (<[t := o']> (states a))) a1 a3).
Proof using Ht Hne Hau Hc0 Hlo Hla.
  intros [U1 U2 U3 U4 U5 U6] Hl' balance.
  assert (H0 : borrow_counters a2 !! Z.to_nat 0 = Some 0)
    by (rewrite U3; simpl; by rewrite list_lookup_insert_ne).
  set (a2' := with_counters a2 (<[Z.to_nat 0 := -1]> (borrow_counters a2))).
  assert (T2 : tidy a2') by (apply tidy_with_counters; [done|by rewrite length_insert]).
  assert (S2 : states a2' !! Z.to_nat 0 = Some au)
    by (change (states a2') with (states a2); rewrite U4, list_lookup_insert_ne by done; done).
  destruct ((0 <=? balance) && (balance <? 2 ^ 64)) eqn:Eb.
  - destruct (edit_spec 0 a2' au (put au (FLamports balance)) (Ok tt)
      (settle (lamports (o_core o)) (lamports (o_core o'))) T2 S2) as (a3 & E3 & [V1 V2 V3 V4 V5 V6]).
    { intros m s Hw Hs. pose proof (settle_spec au _ _ m s Hw Hs Hla Hlo Hl') as H. simpl in H.
      fold balance in H. by rewrite Eb in H. }
    exists (with_counters a3 (borrow_counters a2)). split_and!; [by apply with_mut_spec|done|].
    intros _. constructor; simpl.
    + apply tidy_with_counters; [done|]. rewrite V3. simpl. by rewrite length_insert.
    + rewrite V2. exact U2.
    + done.
    + change (states (with_counters a3 _)) with (states a3). rewrite V4. change (states a2') with (states a2).
      by rewrite U4.
    + simpl in *. split; congruence.
  - exists (with_counters a2' (borrow_counters a2)). split_and!; [|done|done].
    apply with_mut_spec; [done| |done]. fold a2'. unfold edit.
    unfold states in S2. rewrite !list_lookup_fmap in S2.
    destruct (accounts a2' !! Z.to_nat 0) as [[k s]|] eqn:Ea; [|done]. injection S2 as S2.
    assert (Hw : wf (storage a2') s).
    { destruct (tidy_separated _ T2) as [Hw _]. eapply Forall_lookup in Hw; [done|].
      rewrite list_lookup_fmap. by rewrite Ea. }
    pose proof (settle_spec au _ _ (storage a2') s Hw S2 Hla Hlo Hl') as H. cbv zeta in H. fold balance in H.
    rewrite Eb in H. rewrite H. f_equal. unfold with_accounts. rewrite list_insert_id by done. done.
Qed.

Lemma check_len_cases n :
  patched_len p (zlen (o_data o)) = Ok n →
  check_patched_len p (zlen (o_data o)) a1
  = (if match n with Some n => MAX_ACCOUNT_DATA_LEN <? n | None => false end then Err InvalidRealloc else Ok tt, a1).
Proof using Hne.
  intros En. unfold check_patched_len. rewrite En. unfold mbind, op_bind, lift, ensure, fail, mret, op_ret.
  destruct n as [n|]; [|done]. destruct (Z.leb_spec n MAX_ACCOUNT_DATA_LEN), (Z.ltb_spec MAX_ACCOUNT_DATA_LEN n); (done || lia).
Qed.

Lemma patch_body :
  ∃ a3, (data ← get_data (direct_handle target);
     _ ← check_patched_len p (zlen data); old ← get_core (direct_handle target);
     _ ← edit target (apply_patch p); new ← get_core (direct_handle target);
     with_mut 0 (edit 0 (settle (lamports old) (lamports new)))) a1
    = (match patched_outcome o au p with Ok _ => Ok tt | Err e => Err e end, a3) ∧
    borrow_counters a3 = borrow_counters a1 ∧
    ∀ o' au', patched_outcome o au p = Ok (o', au') → altered (<[0%nat := au']> (<[t := o']> (states a))) a1 a3.
Proof using Ht Hne Ho Hau Hc0 Hp Hlo Hla.
  set (b := direct_handle target). assert (Hb : states a1 !! handle_index b = Some o) by done.
  op_ok (get_data_eq b a1 o Hb). unfold patched_outcome.
  destruct (patched_len p (zlen (o_data o))) as [n|e] eqn:En; simpl.
  2: { exists a1. unfold check_patched_len. rewrite En. done. }
  pose proof (check_len_cases n En) as Hlen.
  destruct (match n with Some n => MAX_ACCOUNT_DATA_LEN <? n | None => false end).
  { exists a1. rewrite (op_bind_err _ _ _ _ _ Hlen). done. }
  op_ok Hlen. op_ok (get_core_eq b a1 o Hb).
  destruct (patch_result o p) as [[]|e] eqn:Er.
  2: { destruct (edit_patch_refused e Er) as (a2 & E2 & [_ _ U3 _ _ _]). exists a2.
       rewrite (op_bind_err _ _ _ _ _ E2). done. }
  destruct (edit_patch Er) as (a2 & E2 & U). op_ok E2.
  set (o' := abstract_mutate o (mutation_of p)) in *.
  assert (Hb2 : states a2 !! handle_index b = Some o') by by eapply updates_lookup.
  op_ok (get_core_eq b a2 o' Hb2).
  destruct (settle_authority o' a2 U) as (a3 & E3 & Hc3 & H3); [by apply patched_lamports|].
  exists a3. rewrite E3. cbv zeta.
  destruct ((0 <=? _) && _) eqn:Eb; (split; [done|split; [done|]]); [|done].
  intros o'' au' [= <- <-]. by apply H3.
Qed.

Lemma root_patch_spec :
  ∃ a', root_patch target p a
    = (match patched_outcome o au p with Ok _ => Ok tt | Err e => Err e end, a') ∧
    ∀ o' au', patched_outcome o au p = Ok (o', au') → altered (<[0%nat := au']> (<[t := o']> (states a))) a a'.
Proof using Ht Hne Ho Hau Hct Hc0 Hp Hlo Hla.
  destruct patch_body as (a3 & E & Hc & H). exists (with_counters a3 (borrow_counters a)).
  split; [by apply with_mut_spec|]. intros o' au' Hout. destruct (H o' au' Hout) as [C1 C2 C3 C4 C5].
  constructor; simpl; try done. apply tidy_with_counters; [done|]. rewrite C3. simpl. by rewrite length_insert.
Qed.

End patch.

(** ** Installing an account *)

Fixpoint root_patches (target : Z) (ps : list AccountFieldPatch) : Op TransactionAccounts unit :=
  match ps with
  | [] => mret tt
  | p :: ps => _ ← root_patch target p; root_patches target ps
  end.

(** What an instruction other than a follow-up does to the accounts. *)
Definition root_op (target : Z) (x : MagicRootInstruction) : Op TransactionAccounts unit :=
  match x with
  | RootPatch p => root_patch target p
  | RootFinalize fl => root_set_flags target fl
  | RootDelete => root_close target
  | RootCompareAndPatch expected p => _ ← root_compare target expected; root_patch target p
  | RootPostFinalize _ | RootNonce _ => mret tt
  end.

(** What a list of instructions does to the accounts, one after the other. *)
Fixpoint install `{!MagicRootWire} (target : Z) (l : list CallInstruction) : Op TransactionAccounts unit :=
  match l with
  | [] => mret tt
  | ix :: l =>
      x ← lift (ok_or (decode_root (instruction_bytes ix)) InvalidInstructionData);
      _ ← root_op target x;
      install target l
  end.

Lemma install_patches `{!MagicRootWire} target key ps ixs tail a a1 :
  root_patches target ps a = (Ok tt, a1) → compose_all (map RootPatch ps ++ tail) key = Ok ixs →
  ∃ rest, compose_all tail key = Ok rest ∧ install target ixs a = install target rest a1.
Proof.
  revert ixs a. induction ps as [|p ps IH]; intros ixs a Hp Hc.
  { injection Hp as <-. exists ixs. split; [exact Hc|done]. }
  simpl in Hp, Hc. unfold compose in Hc. destruct (encode_root (RootPatch p)) as [d|] eqn:Ed; [|done]. simpl in Hc.
  destruct (compose_all _ key) as [rest|] eqn:Er; [|done]. simpl in Hc. injection Hc as <-.
  destruct (root_patch target p a) as [[[]|e] a0] eqn:E; [|by rewrite (op_bind_err _ _ _ _ _ E) in Hp].
  rewrite (op_bind_ok _ _ _ _ _ E) in Hp.
  destruct (IH rest a0 Hp eq_refl) as (tl & Ht & Hi). exists tl. split; [done|].
  simpl. rewrite (decode_encode_root _ _ Ed). simpl.
  change (mbind _ (lift (Ok (RootPatch p))) a) with ((_ ← root_patch target p; install target rest) a).
  by rewrite (op_bind_ok _ _ _ _ _ E).
Qed.

(** Patches that ask for no more than an account may have. *)
Definition bounded_patch (p : AccountFieldPatch) : Prop :=
  match p with
  | PDataAt offset data => offset + zlen data ≤ MAX_ACCOUNT_DATA_LEN
  | PDataLen n => n ≤ MAX_ACCOUNT_DATA_LEN
  | _ => True
  end.

Lemma patched_outcome_ok o au p :
  patch_ok p → bounded_patch p → zlen (o_data o) ≤ MAX_ACCOUNT_DATA_LEN → patch_result o p = Ok tt →
  let o' := abstract_mutate o (mutation_of p) in
  let balance := lamports (o_core au) + lamports (o_core o) - lamports (o_core o') in
  0 ≤ balance < 2 ^ 64 →
  patched_outcome o au p = Ok (o', put au (FLamports balance)) ∧ zlen (o_data o') ≤ MAX_ACCOUNT_DATA_LEN.
Proof.
  intros Hp Hb Hd Hr o' balance Hbal. split.
  - unfold patched_outcome.
    assert (∃ n, patched_len p (zlen (o_data o)) = Ok n ∧
      match n with Some n => MAX_ACCOUNT_DATA_LEN <? n | None => false end = false) as (n & En & Hn).
    { destruct p; simpl in *; try by exists None.
      - unfold checked_add. pose proof (zlen_nonneg data). change MAX_ACCOUNT_DATA_LEN with 10485760 in *.
        destruct (Z.ltb_spec (offset + zlen data) (2 ^ 64)); [|lia]. simpl. eexists. split; [done|].
        apply Z.ltb_ge. lia.
      - eexists. split; [done|]. by apply Z.ltb_ge. }
    rewrite En. simpl. rewrite Hn, Hr. cbv zeta. fold o'. fold balance.
    destruct (Z.leb_spec 0 balance), (Z.ltb_spec balance (2 ^ 64)); (done || lia).
  - unfold o'. destruct o as [c d], p; simpl in *; try done.
    + unfold splice, zlen in *. rewrite !length_app, length_resize, length_drop. unfold patch_ok in Hp. simpl in Hp. lia.
    + by case_match.
    + unfold zlen. rewrite length_resize. unfold patch_ok in Hp. simpl in Hp. lia.
Qed.

Lemma put_lamports_twice o v w : put (put o (FLamports v)) (FLamports w) = put o (FLamports w).
Proof. by destruct o as [[] d]. Qed.
Lemma lamports_put o v : lamports (o_core (put o (FLamports v))) = v.
Proof. by destruct o as [[] d]. Qed.

Section sequence.
Context (target : Z).
Abbreviation t := (Z.to_nat target).
Hypothesis Hne : t ≠ 0%nat.

(** After the patches the target is what they make of it, and the authority has settled. *)
Lemma root_patches_spec ps a o au :
  tidy a → states a !! t = Some o → states a !! 0%nat = Some au →
  borrow_counters a !! t = Some 0 → borrow_counters a !! 0%nat = Some 0 →
  Forall patch_ok ps → Forall bounded_patch ps → zlen (o_data o) ≤ MAX_ACCOUNT_DATA_LEN →
  fits 64 (lamports (o_core o)) → fits 64 (lamports (o_core au)) →
  let T := lamports (o_core au) + lamports (o_core o) in
  let final k := foldl abstract_mutate o (mutation_of <$> take k ps) in
  (∀ k p, ps !! k = Some p → patch_result (final k) p = Ok tt) →
  (∀ k, 0 ≤ T - lamports (o_core (final k)) < 2 ^ 64) →
  let o' := foldl abstract_mutate o (mutation_of <$> ps) in
  ∃ a', root_patches target ps a = (Ok tt, a') ∧
    altered (<[0%nat := put au (FLamports (T - lamports (o_core o')))]> (<[t := o']> (states a))) a a'.
Proof using Hne.
  revert a o au. induction ps as [|p ps IH]; intros a o au Hta Ho Hau Hct Hc0 Hps Hbs Hd Hlo Hla T final Hr Hbal o'.
  { exists a. split; [done|]. unfold o'. simpl. constructor; try done.
    replace (T - lamports (o_core o)) with (lamports (o_core au)) by lia.
    rewrite put_same by by destruct (o_core au).
    rewrite (list_insert_id (states a) t o) by done. by rewrite list_insert_id. }
  apply list.Forall_cons in Hps as [Hp Hps]. apply list.Forall_cons in Hbs as [Hb Hbs].
  assert (Hr0 : patch_result o p = Ok tt) by apply (Hr 0%nat p eq_refl).
  pose proof (Hbal 1%nat) as Hb1. unfold final in Hb1. simpl in Hb1.
  set (o1 := abstract_mutate o (mutation_of p)) in *.
  destruct (patched_outcome_ok o au p Hp Hb Hd Hr0) as [Hout Hd1]; [fold o1; lia|]. fold o1 in Hout, Hd1.
  destruct (root_patch_spec a target p o au Hta Hne Ho Hau Hct Hc0 Hp Hlo Hla) as (a1 & E1 & H1).
  destruct (H1 _ _ Hout) as [C1 C2 C3 C4 C5]. rewrite Hout in E1.
  set (au1 := put au (FLamports (lamports (o_core au) + lamports (o_core o) - lamports (o_core o1)))) in *.
  assert (Hl1 : fits 64 (lamports (o_core o1))) by by apply patched_lamports.
  assert (Hlau1 : lamports (o_core au1) = T - lamports (o_core o1)) by (unfold au1; rewrite lamports_put; lia).
  pose proof (lookup_lt_Some _ _ _ Ho) as Hlt. pose proof (lookup_lt_Some _ _ _ Hau) as Hlt0.
  destruct (IH a1 o1 au1) as (a2 & E2 & H2); try done.
  { rewrite C4, list_lookup_insert_ne by done. by rewrite list_lookup_insert_eq. }
  { rewrite C4, list_lookup_insert_eq; [done|by rewrite length_insert]. }
  { by rewrite C3. }
  { by rewrite C3. }
  { rewrite Hlau1. unfold fits. lia. }
  { intros k q Hk. apply (Hr (S k) q Hk). }
  { intros k. rewrite Hlau1. pose proof (Hbal (S k)) as Hk.
    change (final (S k)) with (foldl abstract_mutate o1 (mutation_of <$> take k ps)) in Hk. lia. }
  exists a2. split; [simpl; by op_ok E1|].
  destruct H2 as [D1 D2 D3 D4 D5]. constructor; [done|congruence|congruence| |].
  - rewrite D4, C4, Hlau1. change (foldl abstract_mutate o1 (mutation_of <$> ps)) with o'.
    replace (T - lamports (o_core o1) + lamports (o_core o1) - lamports (o_core o'))
      with (T - lamports (o_core o')) by lia.
    unfold au1. rewrite put_lamports_twice.
    rewrite (list_insert_insert_ne _ t 0%nat) by done. by rewrite !list_insert_insert_eq.
  - destruct C5, D5. split; congruence.
Qed.

End sequence.

(** ** Properties of MagicRoot

    The sequence of instructions that replaces an account installs exactly the image it was
    composed from, at the authority's expense; and nothing is touched without authority. *)

(** ** The patches of an account *)

Lemma chunks_aux_lookup {A} fuel n (l : list A) i c :
  chunks_aux fuel n l !! i = Some c → c = take n (drop (i * n) l) ∧ (i * n < length l)%nat ∨ n = 0%nat.
Proof.
  revert l i. induction fuel as [|fuel IH]; intros l i; [done|]. destruct l as [|x l]; [done|].
  destruct i as [|i]; cbn [chunks_aux lookup list_lookup].
  - intros [= <-]. left. simpl. split; [done|lia].
  - intros [[-> Hlt]|Hn]%IH; [|by right]. rewrite length_drop in Hlt. rewrite drop_drop.
    destruct n as [|n]; [by right|]. left. split; [done|simpl in *; lia].
Qed.

Lemma patch_sequence_bounded account :
  zlen (o_data account) ≤ MAX_ACCOUNT_DATA_LEN → Forall bounded_patch (patch_sequence account).
Proof.
  intros Hd. unfold patch_sequence. apply Forall_app. split; [by repeat constructor|].
  apply Forall_lookup_2. intros i p Hp. rewrite list_lookup_imap in Hp.
  destruct (chunks _ _ !! i) as [c|] eqn:Ec; [|done]. injection Hp as <-. simpl.
  unfold chunks in Ec. apply chunks_aux_lookup in Ec as [[-> Hlt]|Hn].
  - unfold zlen in *. rewrite length_take, length_drop. unfold MAX_DATA_CHUNK_SIZE, umax in *. lia.
  - unfold MAX_DATA_CHUNK_SIZE, umax in Hn. lia.
Qed.

(** Only the first patch changes the balance. *)
Definition keeps_lamports (p : AccountFieldPatch) : Prop := match p with PLamports _ => False | _ => True end.

Lemma keeps_lamports_fold ps o :
  Forall keeps_lamports ps →
  lamports (o_core (foldl abstract_mutate o (mutation_of <$> ps))) = lamports (o_core o).
Proof.
  intros Hps. revert o. induction Hps as [|p ps Hp _ IH]; intros o; [done|]. rewrite fmap_cons. simpl. rewrite IH.
  destruct o as [[] d], p; simpl in *; try done. by case_match.
Qed.

Lemma patch_sequence_lamports account o k :
  lamports (o_core (foldl abstract_mutate o (mutation_of <$> take k (patch_sequence account))))
  = lamports (o_core o) ∨
  lamports (o_core (foldl abstract_mutate o (mutation_of <$> take k (patch_sequence account))))
  = lamports (o_core account).
Proof.
  destruct k as [|k]; [by left|]. right. unfold patch_sequence. rewrite <- app_comm_cons, firstn_cons, fmap_cons. simpl.
  rewrite keeps_lamports_fold; [by destruct o as [[] d]|]. apply Forall_take.
  repeat (constructor; [done|]). apply Forall_lookup_2. intros i p Hp. rewrite list_lookup_imap in Hp.
  destruct (chunks _ _ !! i); [|done]. by injection Hp as <-.
Qed.

(** ** Finalization *)

Lemma set_flags_spec a target o fl :
  tidy a → states a !! Z.to_nat target = Some o → borrow_counters a !! Z.to_nat target = Some 0 → fits 8 fl →
  ∃ a', root_set_flags target fl a = (Ok tt, a') ∧
    altered (<[Z.to_nat target := put o (FFlags fl)]> (states a)) a a'.
Proof.
  intros Ht Ho Hc Hf. set (a1 := with_counters a (<[Z.to_nat target := -1]> (borrow_counters a))).
  assert (T1 : tidy a1) by (apply tidy_with_counters; [done|by rewrite length_insert]).
  destruct (edit_spec target a1 o (put o (FFlags fl)) (Ok tt) (λ m s, (set_flags m s fl, Ok tt)) T1 Ho)
    as (a2 & E2 & [U1 U2 U3 U4 U5 U6]).
  { intros m s Hw <-. split; [|done]. by apply (mutate_spec m s (MFlags fl)). }
  exists (with_counters a2 (borrow_counters a)). split; [by apply with_mut_spec|].
  constructor; simpl; try done. apply tidy_with_counters; [done|]. rewrite U3. simpl. by rewrite length_insert.
Qed.

(** The account installed over [o]; the padding byte is not part of an image. *)
Definition installed (o account : OwnedAccount) : OwnedAccount :=
  put (rebuilt o account) (FFlags (flags (o_core account))).

Lemma install_finalize `{!MagicRootWire} target key fl rest a a' :
  compose_all [RootFinalize fl] key = Ok rest → root_set_flags target fl a = (Ok tt, a') →
  install target rest a = (Ok tt, a').
Proof.
  intros Hc Hf. simpl in Hc. unfold compose in Hc. destruct (encode_root _) as [d|] eqn:Ed; [|done].
  simpl in Hc. injection Hc as <-. simpl. rewrite (decode_encode_root _ _ Ed). simpl.
  change (mbind _ (lift (Ok (RootFinalize fl))) a) with ((_ ← root_set_flags target fl; mret tt : Op _ _) a).
  by rewrite (op_bind_ok _ _ _ _ _ Hf).
Qed.


Definition example_target : OwnedAccount :=
  {| o_core := {| lamports := 200; owner := key 1; slot := 0; commit_seq := 0; mode := Mirrored; flags := 0; padding := 0 |};
     o_data := [1; 2; 3; 4] |}.
Definition example_image : OwnedAccount :=
  {| o_core := {| lamports := 250; owner := key 2; slot := 7; commit_seq := 3; mode := Mirrored; flags := 1; padding := 0 |};
     o_data := [9; 8; 7] |}.
Definition example_tx : TransactionAccounts :=
  transaction_accounts_new (λ _, 0) [(key 9, example_account 100 (key 0) Mirrored 0); (key 2, from_owned example_target)].

(** A wire format for the instructions of mirrored accounts. *)
Definition example_encode (x : MagicRootInstruction) : option (list Z) :=
  match x with
  | RootPatch (PLamports v) => Some [0; v]
  | RootPatch (PLifecycle Mirrored sl) => Some [1; sl]
  | RootPatch (POwner k) => Some (2 :: k)
  | RootPatch (PCommitSeq v) => Some [3; v]
  | RootPatch (PDataLen v) => Some [4; v]
  | RootPatch (PDataAt offset data) => Some (5 :: offset :: data)
  | RootFinalize fl => Some [6; fl]
  | _ => None
  end.
Definition example_decode (d : list Z) : option MagicRootInstruction :=
  match d with
  | [0; v] => Some (RootPatch (PLamports v))
  | [1; sl] => Some (RootPatch (PLifecycle Mirrored sl))
  | 2 :: k => Some (RootPatch (POwner k))
  | [3; v] => Some (RootPatch (PCommitSeq v))
  | [4; v] => Some (RootPatch (PDataLen v))
  | 5 :: offset :: data => Some (RootPatch (PDataAt offset data))
  | [6; fl] => Some (RootFinalize fl)
  | _ => None
  end.
Definition example_wire : MagicRootWire.
Proof.
  refine {| MAGIC_ROOT_ID := key 10; encode_root := example_encode; decode_root := example_decode |}.
  intros x d. destruct x as [p| | | | |]; simpl; try (by intros [= <-]); try done.
  destruct p as [| | |md ? | |]; simpl; try (by intros [= <-]). by destruct md; intros [= <-].
Defined.
Definition example_ixs : list CallInstruction :=
  match @compose_account example_wire (key 2) example_image with Ok l => l | Err _ => [] end.


(** ** Authorization *)

Section authorization.
Context {Code : Type} `{MW : !MagicRootWire} `{PL : !ProgramLoader Code}.
Context `{RR : !RentRules} `{IS : !InstructionsSysvar} `{PR : !ProgramRuntime Code}.
Context (authority : Pubkey) (env : Environment).
Abbreviation IC := (InvokeContext Code).

(** The payer is the authority, and the instruction is the transaction's own or comes from
    another builtin that was let in for this very instruction. *)
Definition root_permitted (s : IC) : Prop :=
  account_key (tx_accounts (transaction_context s)) 0 = Some authority ∧
  (invoke_stack_height s = 1 ∨
   ∃ ic caller id code,
     get_current_instruction_context (transaction_context s) = Ok ic ∧
     get_instruction_context_at_index_in_trace (transaction_context s) (ic_caller ic) = Ok caller ∧
     get_program_key (transaction_context s) caller = Ok id ∧
     id ≠ MAGIC_ROOT_ID ∧ cache_find (program_cache s) id = Some (Builtin code) ∧
     ∃ index, magic_root s = Some index ∧ get_current_instruction_index (transaction_context s) = Ok index).

Lemma authorize_caller_ok (s : IC) :
  authorize_caller s = Ok tt →
  ∃ ic caller id code,
    get_current_instruction_context (transaction_context s) = Ok ic ∧
    get_instruction_context_at_index_in_trace (transaction_context s) (ic_caller ic) = Ok caller ∧
    get_program_key (transaction_context s) caller = Ok id ∧
    id ≠ MAGIC_ROOT_ID ∧ cache_find (program_cache s) id = Some (Builtin code) ∧
    ∃ index, magic_root s = Some index ∧ get_current_instruction_index (transaction_context s) = Ok index.
Proof.
  unfold authorize_caller. intros H.
  destruct (get_current_instruction_context _) as [ic|] eqn:E1; [|done]. simpl in H.
  destruct (get_instruction_context_at_index_in_trace _ _) as [caller|] eqn:E2; [|done]. simpl in H.
  destruct (get_program_key _ _) as [id|] eqn:E3; [|done]. simpl in H.
  destruct (bool_decide_reflect (id = MAGIC_ROOT_ID)); [done|].
  destruct (cache_find _ _) as [[]|] eqn:E4; try done. simpl in H.
  destruct (is_magic_root_authorized s) eqn:E5; [|done].
  unfold is_magic_root_authorized in E5. destruct (magic_root s) as [index|]; [|done].
  apply bool_decide_eq_true in E5. eauto 15.
Qed.

Lemma authorize_ok (s : IC) : authorize authority s = Ok tt → root_permitted s.
Proof.
  unfold authorize. intros H. destruct (Z.eqb_spec (invoke_stack_height s) 1) as [Hh|_]; simpl in H.
  - destruct (account_key _ 0) as [k|] eqn:Ek; [|done]. simpl in H.
    destruct (bool_decide_reflect (k = authority)) as [->|]; [|done]. split; [done|by left].
  - destruct (authorize_caller s) as [[]|] eqn:Ea; [|done]. simpl in H.
    destruct (account_key _ 0) as [k|] eqn:Ek; [|done]. simpl in H.
    destruct (bool_decide_reflect (k = authority)) as [->|]; [|done]. split; [done|].
    right. by apply authorize_caller_ok.
Qed.

Lemma run_accounts process op k (s : IC) :
  run_program process (on_accounts_then op k) s
  = let '(r, s') := on_ctx (on_accounts op) s in
    match r with Ok _ => run_program process (k s') s' | Err e => (Err (FInstruction e), s') end.
Proof. unfold on_accounts_then. simpl. by destruct (on_ctx (on_accounts op) s) as [[[]|e] s']. Qed.

Lemma accounts_after (op : Op TransactionAccounts unit) (s : IC) r s' :
  on_ctx (on_accounts op) s = (r, s') →
  tx_accounts (transaction_context s') = (op (tx_accounts (transaction_context s))).2 ∧
  r = (op (tx_accounts (transaction_context s))).1.
Proof.
  unfold on_ctx, on_accounts. destruct (op (tx_accounts (transaction_context s))) as [r0 a]. by intros [= <- <-].
Qed.

(** What an instruction other than a follow-up leaves of the accounts. *)
Lemma dispatch_accounts process x t (s : IC) :
  (∀ pf, x ≠ RootPostFinalize pf) → root_target s = Ok t →
  tx_accounts (transaction_context (run_program process (root_dispatch env x s) s).2)
  = (root_op t x (tx_accounts (transaction_context s))).2.
Proof.
  intros Hx Ht. unfold root_dispatch. rewrite Ht. destruct x as [p|fl| |pf|n|expected p]; cbv beta iota; unfold root_op.
  - rewrite run_accounts. destruct (on_ctx _ s) as [[[]|e] s'] eqn:E; simpl; by apply accounts_after in E as [-> _].
  - unfold finalize. rewrite run_accounts. destruct (on_ctx _ s) as [[[]|e] s'] eqn:E; apply accounts_after in E as [E _].
    2: done. by repeat (case_match; simpl; try done).
  - unfold root_delete. rewrite run_accounts.
    destruct (on_ctx _ s) as [[[]|e] s'] eqn:E; apply accounts_after in E as [E _]; [|done].
    by repeat (case_match; simpl; try done).
  - by destruct (Hx pf).
  - done.
  - rewrite run_accounts. destruct (on_ctx _ s) as [r s'] eqn:E; apply accounts_after in E as [E Er].
    unfold mbind, op_bind. destruct (root_compare t expected _) as [[[]|e] a'] eqn:Ec; cbn [fst snd] in E, Er; subst r; cbv beta iota; [|done].
    rewrite run_accounts. destruct (on_ctx _ s') as [[[]|e] s''] eqn:E2; simpl; apply accounts_after in E2 as [-> _];
      by rewrite E.
Qed.

(** MagicRoot acts on authority only. Whatever the instruction and the programs it may
    call, a run of MagicRoot fails and has changed nothing but the compute meter, unless the
    payer of the transaction is the authority, the instruction is one of the transaction's own
    or a builtin other than MagicRoot was let in as its caller, and 150 units were left; then
    the data of the instruction decodes, and without follow-up actions the accounts are left as
    the decoded operation on the target leaves them. *)
Theorem root_guarded process (s : IC) :
  let '(r, s') := run_program process (root_entrypoint authority env s) s in
  (∃ e, r = Err (FInstruction e)) ∧ s' = consume 150 s ∨
  root_permitted s ∧ 150 ≤ compute_meter s ∧ ∃ x t,
    root_decode s = Ok x ∧ root_target s = Ok t ∧
    ((∀ pf, x ≠ RootPostFinalize pf) →
     tx_accounts (transaction_context s') = (root_op t x (tx_accounts (transaction_context s))).2).
Proof.
  simpl. unfold consume_checked. destruct (Z.ltb_spec (compute_meter s) 150) as [_|Hm]; simpl.
  { left. split; [by eexists|done]. }
  unfold root_process. destruct (authorize authority (consume 150 s)) as [[]|e] eqn:Ea.
  2: { left. split; [by eexists|done]. }
  change (root_decode (consume 150 s)) with (root_decode s). destruct (root_decode s) as [x|e] eqn:Ed.
  2: { left. split; [by eexists|done]. }
  destruct (root_target s) as [t|e] eqn:Et.
  2: { unfold root_dispatch. change (root_target (consume 150 s)) with (root_target s). rewrite Et.
       left. split; [by eexists|done]. }
  pose proof (λ Hx, dispatch_accounts process x t (consume 150 s) Hx Et) as Hd.
  destruct (run_program _ _ _) as [r s']. right. split; [by apply authorize_ok in Ea|]. split; [done|].
  exists x, t. done.
Qed.

End authorization.
