(* ===== verification/Calculator.v ===== *)
(** * The calculator program ([programs/v42-calculator-program],
    [programs/v42-calculator-interface])

    A program that evaluates a postfix byte code, calling itself for marked subexpressions, and
    the builder that lowers expressions to that byte code. The builder is correct: what the
    program leaves in its output account is the value of the expression. *)

From stdpp Require Import base list numbers option.
From S2P Require Import Prelude Effects Account Invoke.

Local Open Scope Z_scope.

(** ** Opcodes ([opcodes.rs]) *)

Definition PUSH_LIT : Z := 0x00.
Definition PUSH_ACC : Z := 0x01.
Definition PUSH_CLOCK : Z := 0x03.
Definition ADD : Z := 0x10.
Definition SUB : Z := 0x11.
Definition MUL : Z := 0x12.
Definition DIV : Z := 0x13.
Definition CALL : Z := 0x20.
Definition TRANSFER : Z := 0x30.

(** ** Errors ([error.rs]) *)

Inductive CalcError :=
| Truncated | BadOpcode | StackOverflow | StackUnderflow | UnbalancedProgram | Arithmetic | DivByZero
| BadAccountIndex | ShortAccount | MissingOutput | MissingReturnData | ShortReturnData.

Definition calc_code (e : CalcError) : Z :=
  match e with
  | Truncated => 1 | BadOpcode => 2 | StackOverflow => 3 | StackUnderflow => 4 | UnbalancedProgram => 5
  | Arithmetic => 6 | DivByZero => 7 | BadAccountIndex => 8 | ShortAccount => 9 | MissingOutput => 10
  | MissingReturnData => 12 | ShortReturnData => 13
  end.

(** [Refused] is a call that the runtime does not make. *)
Inductive ProgramError :=
| Custom (code : Z) | NotEnoughAccountKeys | InvalidArgument | InvalidInstructionData | Refused.

(** [From<CalcError> for ProgramError]. *)
Definition calc {A} (r : result CalcError A) : result ProgramError A :=
  map_err (λ e, Custom (calc_code e)) r.

(** ** Accounts

    The infos of one account of the transaction share its cells: lamports and data. *)

Record AccountInfo := { ai_key : Pubkey; ai_is_signer : bool; ai_is_writable : bool; ai_cell : nat }.
Record CalcCell := { cell_lamports : Z; cell_data : list Z }.

(** What a run of the program sees and changes: the cells of the accounts and the return data
    register of the transaction. *)
Record CalcState := { calc_cells : list CalcCell; calc_return_data : list Z }.

Definition with_cells (s : CalcState) (l : list CalcCell) : CalcState :=
  {| calc_cells := l; calc_return_data := calc_return_data s |}.
Definition with_return_data (s : CalcState) (d : list Z) : CalcState :=
  {| calc_cells := calc_cells s; calc_return_data := d |}.

(** ** Signed words *)

Definition i64_to_le_bytes (v : Z) : list Z := le_bytes 8 v.
Definition i64_from_le_bytes (bs : list Z) : Z := swrap 64 (le_num bs).
Definition i64_checked (v : Z) : option Z := if bool_decide (sfits 64 v) then Some v else None.

Arguments i64_to_le_bytes : simpl never.
Arguments i64_from_le_bytes : simpl never.

(** ** The cursor ([Cursor]) *)

Definition cursor_take (len : nat) (c : list Z) : result CalcError (list Z * list Z) :=
  if bool_decide (length c < len)%nat then Err Truncated else Ok (take len c, drop len c).
Definition cursor_u8 (c : list Z) : result CalcError (Z * list Z) :=
  match c with [] => Err Truncated | b :: rest => Ok (b, rest) end.
Definition cursor_u16 (c : list Z) : result CalcError (Z * list Z) :=
  p ← cursor_take 2 c; Ok (le_num p.1, p.2).
Definition cursor_i64 (c : list Z) : result CalcError (Z * list Z) :=
  p ← cursor_take 8 c; Ok (i64_from_le_bytes p.1, p.2).

(** ** The operand stack ([Stack]) *)

Record Stack := { slots : list Z; stack_len : nat }.
Definition STACK_SLOTS : nat := 64.

Definition stack_new : Stack := {| slots := replicate STACK_SLOTS 0; stack_len := 0 |}.
Definition stack_push (st : Stack) (v : Z) : result CalcError Stack :=
  match slots st !! stack_len st with
  | Some _ => Ok {| slots := <[stack_len st := v]> (slots st); stack_len := S (stack_len st) |}
  | None => Err StackOverflow
  end.
Definition stack_pop (st : Stack) : result CalcError (Z * Stack) :=
  match stack_len st with
  | O => Err StackUnderflow
  | S n => Ok (default 0 (slots st !! n), {| slots := slots st; stack_len := n |})
  end.
Definition into_result (st : Stack) : result CalcError Z :=
  match stack_len st with
  | 1%nat => Ok (default 0 (slots st !! 0%nat))
  | _ => Err UnbalancedProgram
  end.

Definition arithmetic (op a b : Z) : result CalcError Z :=
  if op =? ADD then ok_or (i64_checked (a + b)) Arithmetic
  else if op =? SUB then ok_or (i64_checked (a - b)) Arithmetic
  else if op =? MUL then ok_or (i64_checked (a * b)) Arithmetic
  else if op =? DIV then
    if b =? 0 then Err DivByZero else ok_or (i64_checked (Z.quot a b)) Arithmetic
  else Err BadOpcode.

(** ** Values in accounts *)

Definition read_head_i64 (bytes : list Z) (short : CalcError) : result CalcError Z :=
  if bool_decide (length bytes < 8)%nat then Err short else Ok (i64_from_le_bytes (take 8 bytes)).
Definition read_account_value (bytes : list Z) : result ProgramError Z :=
  calc (read_head_i64 bytes ShortAccount).
Definition write_account_value (bytes : list Z) (v : Z) : result ProgramError (list Z) :=
  if bool_decide (length bytes < 8)%nat then Err (Custom (calc_code ShortAccount))
  else Ok (i64_to_le_bytes v ++ drop 8 bytes).

Section program.
(** The clock, and whether the runtime makes a call from a stack height: its depth, compute
    and account rules are not the program's. *)
Context (unix_timestamp : Z) (admits : Z → bool).

Abbreviation Run := (Eff ProgramError CalcState).

Definition cell_of (s : CalcState) (i : AccountInfo) : CalcCell :=
  default {| cell_lamports := 0; cell_data := [] |} (calc_cells s !! ai_cell i).
Definition set_cell (i : AccountInfo) (c : CalcCell) (s : CalcState) : CalcState :=
  with_cells s (<[ai_cell i := c]> (calc_cells s)).

Definition account_i64 (accounts : list AccountInfo) (index : Z) : Run Z := λ s,
  match accounts !! Z.to_nat index with
  | None => (Err (Custom (calc_code BadAccountIndex)), s)
  | Some i => (read_account_value (cell_data (cell_of s i)), s)
  end.

(** ** Transfers ([transfer.rs]) *)

Definition apply_delta (i : AccountInfo) (delta : Z) : Run unit := λ s,
  let c := cell_of s i in
  let s := set_cell i {| cell_lamports := wrapping_add 64 (cell_lamports c) (wrap 64 delta);
                         cell_data := cell_data c |} s in
  match v ← read_account_value (cell_data c); write_account_value (cell_data c) (swrap 64 (v + delta)) with
  | Err e => (Err e, s)
  | Ok data =>
      (Ok tt, set_cell i {| cell_lamports := cell_lamports (cell_of s i); cell_data := data |} s)
  end.

Definition transfer_process (accounts : list AccountInfo) (data : list Z) : Run unit :=
  match accounts with
  | from :: to :: _ =>
      if bool_decide (ai_key from = ai_key to) then fail InvalidArgument
      else
        match data with
        | _ :: bytes =>
            if bool_decide (length bytes = 8%nat) then
              let delta := i64_from_le_bytes bytes in
              _ ← apply_delta from (swrap 64 (- delta));
              apply_delta to delta
            else fail InvalidInstructionData
        | [] => fail InvalidInstructionData
        end
  | _ => fail NotEnoughAccountKeys
  end.

(** ** Evaluation ([calculator.rs]) *)

(** The result goes to the first account or to the return data. *)
Definition emit (accounts : list AccountInfo) (height v : Z) : Run unit := λ s,
  if height =? 1 then
    match accounts with
    | [] => (Err (Custom (calc_code MissingOutput)), s)
    | output :: _ =>
        let c := cell_of s output in
        match write_account_value (cell_data c) v with
        | Err e => (Err e, s)
        | Ok data => (Ok tt, set_cell output {| cell_lamports := cell_lamports c; cell_data := data |} s)
        end
    end
  else (Ok tt, with_return_data s (i64_to_le_bytes v)).

(** The value a finished call left in the register. *)
Definition take_return_data : Run Z := λ s,
  (if bool_decide (calc_return_data s = []) then Err (Custom (calc_code MissingReturnData))
   else calc (read_head_i64 (calc_return_data s) ShortReturnData), s).

(** [process_instruction] of the nested program; the runtime clears the register first. *)
Definition nested_entry (evaluate : list Z → Run Z) (accounts : list AccountInfo) (height : Z)
    (nested : list Z) : Run unit := λ s,
  if bool_decide (head nested = Some TRANSFER) then transfer_process accounts nested s
  else (v ← evaluate nested; emit accounts height v) s.
Definition calc_call (evaluate : list Z → Run Z) (accounts : list AccountInfo) (height : Z)
    (nested : list Z) : Run Z := λ s,
  if negb (admits height) then (Err Refused, s)
  else
    (_ ← nested_entry evaluate accounts (height + 1) nested; take_return_data) (with_return_data s []).

(** One token: the operand stack and what is left of the input. *)
Definition eval_token (evaluate : list Z → Run Z) (accounts : list AccountInfo) (height : Z)
    (op : Z) (c : list Z) (st : Stack) : Run (list Z * Stack) :=
  if op =? PUSH_LIT then
    lift (calc (p ← cursor_i64 c; st ← stack_push st p.1; Ok (p.2, st)))
  else if op =? PUSH_ACC then
    p ← lift (calc (cursor_u8 c));
    v ← account_i64 accounts p.1;
    lift (calc (st ← stack_push st v; Ok (p.2, st)))
  else if op =? PUSH_CLOCK then
    lift (calc (st ← stack_push st unix_timestamp; Ok (c, st)))
  else if (op =? ADD) || (op =? SUB) || (op =? MUL) || (op =? DIV) then
    lift (calc (b ← stack_pop st; a ← stack_pop b.2; v ← arithmetic op a.1 b.1;
                st ← stack_push a.2 v; Ok (c, st)))
  else if op =? CALL then
    p ← lift (calc (cursor_u16 c));
    q ← lift (calc (cursor_take (Z.to_nat p.1) p.2));
    v ← calc_call evaluate accounts height q.1;
    lift (calc (st ← stack_push st v; Ok (q.2, st)))
  else fail (Custom (calc_code BadOpcode)).

(** Every token takes a byte, and a nested program is a part of what is left: the length of
    the input is enough fuel for both. *)
Fixpoint eval_loop (fuel : nat) (accounts : list AccountInfo) (height : Z) (c : list Z) (st : Stack)
    : Run Z :=
  match c with
  | [] => lift (calc (into_result st))
  | op :: c =>
      match fuel with
      | O => fail (Custom (calc_code Truncated))
      | S fuel =>
          p ← eval_token (λ nested, eval_loop fuel accounts (height + 1) nested stack_new)
                accounts height op c st;
          eval_loop fuel accounts height p.1 p.2
      end
  end.

Definition calc_eval (accounts : list AccountInfo) (height : Z) (data : list Z) : Run Z :=
  eval_loop (length data) accounts height data stack_new.

(** [process_instruction], at the height the runtime reports. *)
Definition calc_process (accounts : list AccountInfo) (height : Z) (data : list Z) : Run unit :=
  nested_entry (calc_eval accounts height) accounts height data.

End program.

(** ** The builder ([builder.rs]) *)

Definition expr_lit (v : Z) : list Z := PUSH_LIT :: i64_to_le_bytes v.
Definition expr_acc (index : Z) : list Z := [PUSH_ACC; index].
Definition expr_clock : list Z := [PUSH_CLOCK].
Definition expr_cpi (e : list Z) : list Z := CALL :: le_bytes 2 (wrap 16 (zlen e)) ++ e.
Definition expr_binary (a b : list Z) (op : Z) : list Z := a ++ b ++ [op].
Definition transfer_data (delta : Z) : list Z := TRANSFER :: i64_to_le_bytes delta.

Section compose.
(** The address of the program. *)
Context (ID : Pubkey).

Definition expr_compose (e : list Z) (output : Pubkey) (operands : list Pubkey) : CallInstruction :=
  {| program_id := ID;
     instruction_metas :=
       {| meta_pubkey := output; meta_is_signer := false; meta_is_writable := true |} ::
       map (λ k, {| meta_pubkey := k; meta_is_signer := false; meta_is_writable := false |}) operands ++
       [{| meta_pubkey := ID; meta_is_signer := false; meta_is_writable := false |}];
     instruction_bytes := e |}.

Definition transfer_instruction (from to : Pubkey) (delta : Z) : CallInstruction :=
  {| program_id := ID;
     instruction_metas := [{| meta_pubkey := from; meta_is_signer := false; meta_is_writable := true |};
                           {| meta_pubkey := to; meta_is_signer := false; meta_is_writable := true |}];
     instruction_bytes := transfer_data delta |}.

End compose.

(** ** Words *)

Lemma i64_round_trip v : sfits 64 v → i64_from_le_bytes (i64_to_le_bytes v) = v.
Proof.
  intros Hv. unfold i64_from_le_bytes, i64_to_le_bytes. rewrite le_num_le_bytes.
  change (256 ^ Z.of_nat 8) with (2 ^ 64). unfold swrap. rewrite Zplus_mod_idemp_l.
  fold (swrap 64 v). by apply swrap_small.
Qed.

Lemma swrap_sfits v : sfits 64 (swrap 64 v).
Proof. unfold swrap, sfits. pose proof (Z.mod_pos_bound (v + 2 ^ (64 - 1)) (2 ^ 64)). lia. Qed.

Lemma read_head_sfits bytes e v : read_head_i64 bytes e = Ok v → sfits 64 v.
Proof. unfold read_head_i64. case_bool_decide; [done|]. intros [= <-]. apply swrap_sfits. Qed.

Lemma read_head_word v rest e : sfits 64 v → read_head_i64 (i64_to_le_bytes v ++ rest) e = Ok v.
Proof.
  intros Hv. unfold read_head_i64. rewrite bool_decide_false; [|rewrite length_app; unfold i64_to_le_bytes; rewrite length_le_bytes; lia].
  rewrite take_app_length' by (unfold i64_to_le_bytes; by rewrite length_le_bytes).
  by rewrite i64_round_trip.
Qed.

Lemma arithmetic_sfits op a b v : arithmetic op a b = Ok v → sfits 64 v.
Proof.
  unfold arithmetic, i64_checked. intros H.
  repeat (case_match; simpl in H; try done); try case_bool_decide; simplify_eq/=; done.
Qed.

(** ** The stack as a list, its top first *)

Definition holds (st : Stack) (l : list Z) : Prop :=
  stack_len st = length l ∧ length (slots st) = STACK_SLOTS ∧ take (length l) (slots st) = rev l.

Lemma stack_new_holds : holds stack_new [].
Proof. done. Qed.

Lemma stack_push_holds st l v :
  holds st l → (length l < STACK_SLOTS)%nat → ∃ st', stack_push st v = Ok st' ∧ holds st' (v :: l).
Proof.
  intros (Hn & Hs & Ht) Hl. unfold stack_push. rewrite Hn.
  destruct (lookup_lt_is_Some_2 (slots st) (length l)) as [x ->]; [lia|].
  eexists. split; [done|]. split_and!; simpl; [done|by rewrite length_insert|].
  rewrite (take_S_r _ _ v) by (apply list_lookup_insert_eq; lia).
  rewrite take_insert_ge by lia. by rewrite Ht.
Qed.

Lemma stack_pop_holds st l v :
  holds st (v :: l) → ∃ st', stack_pop st = Ok (v, st') ∧ holds st' l.
Proof.
  intros (Hn & Hs & Ht). unfold stack_pop. rewrite Hn. simpl.
  assert (Hv : slots st !! length l = Some v).
  { rewrite <- (lookup_take_lt _ (S (length l))) by lia. simpl in Ht. rewrite Ht.
    rewrite lookup_app_r by (rewrite length_rev; lia). by rewrite length_rev, Nat.sub_diag. }
  rewrite Hv. eexists. split; [done|]. split_and!; simpl; [done|done|].
  simpl in Ht. apply (f_equal (take (length l))) in Ht. rewrite take_take in Ht.
  rewrite take_app_le in Ht by (rewrite length_rev; lia).
  rewrite (take_ge (rev l)) in Ht by (rewrite length_rev; lia). rewrite <- Ht. f_equal. lia.
Qed.

Lemma into_result_holds st v : holds st [v] → into_result st = Ok v.
Proof.
  intros (Hn & _ & Ht). unfold into_result. rewrite Hn. simpl. simpl in Ht.
  destruct (slots st); [done|]. simpl in Ht. by injection Ht as <-.
Qed.

(** ** Fuel *)

Section evaluation.
Context (unix_timestamp : Z) (admits : Z → bool) (accounts : list AccountInfo).
Abbreviation Run := (Eff ProgramError CalcState).
Abbreviation token := (λ f, eval_token unix_timestamp admits f accounts).
Abbreviation loop := (λ fuel, eval_loop unix_timestamp admits fuel accounts).

Lemma bind_ext {A B} (p : Run A) (k k' : A → Run B) s :
  (∀ x s', p s = (Ok x, s') → k x s' = k' x s') → (p ≫= k) s = (p ≫= k') s.
Proof. intros H. unfold mbind, op_bind. destruct (p s) as [[x|e] s'] eqn:E; auto. Qed.

Lemma cursor_take_ok n c p : cursor_take n c = Ok p → p = (take n c, drop n c) ∧ (n ≤ length c)%nat.
Proof. unfold cursor_take. case_bool_decide; [done|]. intros [= <-]. split; [done|lia]. Qed.

Lemma cursor_take_app n a b : length a = n → cursor_take n (a ++ b) = Ok (a, b).
Proof.
  intros Ha. unfold cursor_take. rewrite bool_decide_false by (rewrite length_app; lia).
  by rewrite take_app_length', drop_app_length'.
Qed.

Lemma calc_inv {A} (r : result CalcError A) x : calc r = Ok x → r = Ok x.
Proof. destruct r; simpl; naive_solver. Qed.

(** A nested program is a part of what is left of the input, which never grows. *)
Lemma call_within c (p q : Z * list Z) (x : list Z * list Z) :
  cursor_u16 c = Ok p → cursor_take (Z.to_nat p.1) p.2 = Ok x →
  (length x.1 ≤ length c)%nat ∧ (length x.2 ≤ length c)%nat.
Proof.
  unfold cursor_u16. intros Hp [-> Hx]%cursor_take_ok. inv_ok. subst p. apply cursor_take_ok in Hok as [-> Hl].
  simpl in *. rewrite length_take, !length_drop in *. lia.
Qed.

Lemma token_ext f g h op c st s :
  (∀ nested s, (length nested ≤ length c)%nat → f nested s = g nested s) →
  token f h op c st s = token g h op c st s.
Proof.
  intros H. unfold eval_token. repeat (case_match; [done|]). case_match; [|done].
  apply bind_ext. intros p s1 Hp. apply bind_ext. intros q s2 Hq.
  unfold lift in Hp, Hq. injection Hp as Hp _. injection Hq as Hq _. apply calc_inv in Hp, Hq.
  destruct (call_within c p p q Hp Hq) as [Hle _].
  assert (E : calc_call admits f accounts h q.1 s2 = calc_call admits g accounts h q.1 s2).
  { unfold calc_call. destruct (admits h); simpl; [|done].
    assert (E : nested_entry f accounts (h + 1) q.1 (with_return_data s2 [])
              = nested_entry g accounts (h + 1) q.1 (with_return_data s2 [])).
    { unfold nested_entry. case_bool_decide; [done|]. unfold mbind, op_bind. by rewrite H. }
    unfold mbind, op_bind. by rewrite E. }
  unfold mbind, op_bind. by rewrite E.
Qed.

Lemma token_shrinks f h op c st s p s' :
  token f h op c st s = (Ok p, s') → (length p.1 ≤ length c)%nat.
Proof.
  unfold eval_token. intros H.
  repeat match type of H with (if ?b then _ else _) _ = _ => destruct b end; try done.
  - unfold lift in H. injection H as H _. apply calc_inv in H. inv_ok. subst p. simpl.
    unfold cursor_i64 in Hok. inv_ok. subst. apply cursor_take_ok in Hok1 as [-> _]. simpl.
    rewrite length_drop. lia.
  - apply op_bind_inv_ok in H as (x & s1 & Hx & H). apply op_bind_inv_ok in H as (v & s2 & _ & H).
    unfold lift in Hx, H. injection Hx as Hx _. injection H as H _. apply calc_inv in Hx, H.
    inv_ok. subst p. simpl. destruct c; [done|]. simpl in Hx. injection Hx as <-. simpl. lia.
  - unfold lift in H. injection H as H _. apply calc_inv in H. inv_ok. by subst p.
  - unfold lift in H. injection H as H _. apply calc_inv in H. inv_ok. by subst p.
  - apply op_bind_inv_ok in H as (x & s1 & Hx & H). apply op_bind_inv_ok in H as (y & s2 & Hy & H).
    apply op_bind_inv_ok in H as (v & s3 & _ & H).
    unfold lift in Hx, Hy, H. injection Hx as Hx _. injection Hy as Hy _. injection H as H _.
    apply calc_inv in Hx, Hy, H. inv_ok. subst p. simpl. by eapply call_within.
Qed.

Lemma fuel_enough fuel fuel' h c st s :
  (length c ≤ fuel)%nat → (length c ≤ fuel')%nat → loop fuel h c st s = loop fuel' h c st s.
Proof.
  revert fuel' h c st s. induction fuel as [|fuel IH]; intros fuel' h c st s H H'.
  { destruct c; [|simpl in H; lia]. by destruct fuel'. }
  destruct c as [|op c]; [by destruct fuel'|]. destruct fuel' as [|fuel']; [simpl in H'; lia|].
  simpl in H, H'. simpl.
  assert (E : token (λ nested, loop fuel (h + 1) nested stack_new) h op c st s
            = token (λ nested, loop fuel' (h + 1) nested stack_new) h op c st s)
    by (apply token_ext; intros nested s1 Hn; apply IH; lia).
  unfold mbind, op_bind. rewrite E. clear E. destruct (eval_token _ _ _ _ _ _ _ _ s) as [[p|e] s1] eqn:Ep; [|done].
  apply token_shrinks in Ep. apply IH; lia.
Qed.

(** ** Expressions *)

Inductive Operator := OAdd | OSub | OMul | ODiv.
Inductive Tree :=
| TLit (v : Z) | TAcc (index : Z) | TClock
| TBin (op : Operator) (a b : Tree)
| TCpi (t : Tree).

Definition opcode (op : Operator) : Z :=
  match op with OAdd => ADD | OSub => SUB | OMul => MUL | ODiv => DIV end.

(** The byte code the builder makes of an expression. *)
Fixpoint lower (t : Tree) : list Z :=
  match t with
  | TLit v => expr_lit v
  | TAcc index => expr_acc index
  | TClock => expr_clock
  | TBin op a b => expr_binary (lower a) (lower b) (opcode op)
  | TCpi t => expr_cpi (lower t)
  end.

(** The value of an expression: operands from left to right, the first error first. *)
Fixpoint denote (s : CalcState) (t : Tree) : result ProgramError Z :=
  match t with
  | TLit v => Ok v
  | TAcc index => (account_i64 accounts index s).1
  | TClock => Ok unix_timestamp
  | TBin op a b => x ← denote s a; y ← denote s b; calc (arithmetic (opcode op) x y)
  | TCpi t => denote s t
  end.

(** What a program can express: words and indices of their width, at most 64 operands at a
    time, nested programs of a length that a 16-bit word holds, and calls that the runtime
    makes. *)
Fixpoint expressible (h : Z) (k : nat) (t : Tree) : Prop :=
  match t with
  | TLit v => sfits 64 v ∧ (k < STACK_SLOTS)%nat
  | TAcc index => fits 8 index ∧ (k < STACK_SLOTS)%nat
  | TClock => (k < STACK_SLOTS)%nat
  | TBin _ a b => expressible h k a ∧ expressible h (S k) b
  | TCpi t => (k < STACK_SLOTS)%nat ∧ zlen (lower t) < 2 ^ 16 ∧ admits h = true ∧ expressible (h + 1) 0 t
  end.

Lemma expressible_room h k t : expressible h k t → (k < STACK_SLOTS)%nat.
Proof using. revert k. induction t; simpl; naive_solver. Qed.

Hypothesis Hclock : sfits 64 unix_timestamp.

Lemma denote_sfits s t h k v : expressible h k t → denote s t = Ok v → sfits 64 v.
Proof using Hclock.
  revert h k v. induction t as [x|i| |op a IHa b IHb|t IH]; intros h k v He Hd; simpl in *.
  - injection Hd as <-. apply He.
  - unfold account_i64 in Hd. destruct (accounts !! _); [|done]. simpl in Hd.
    apply calc_inv in Hd. by eapply read_head_sfits.
  - by injection Hd as <-.
  - destruct (denote s a); [|done]. destruct (denote s b); [|done]. simpl in Hd.
    apply calc_inv in Hd. by eapply arithmetic_sfits.
  - by eapply IH; [apply He|].
Qed.

Lemma lower_head t : ∃ b rest, lower t = b :: rest ∧ b ≠ TRANSFER.
Proof.
  induction t as [| | |op a (x & rest & E & Hx) b _|]; simpl; try (by eexists _, _).
  rewrite E. by eexists _, _.
Qed.

(** What the loop does on the byte code of an expression: it pushes its value and goes on, or
    stops with its error. The cells stay as they are. *)
Definition evaluates (h : Z) (code rest : list Z) (l : list Z) (r : result ProgramError Z) (s : CalcState)
    : Prop :=
  ∀ st fuel, holds st l → (length (code ++ rest) ≤ fuel)%nat →
  ∃ s', calc_cells s' = calc_cells s ∧
    match r with
    | Ok v => ∃ st', holds st' (v :: l) ∧ loop fuel h (code ++ rest) st s = loop (length rest) h rest st' s'
    | Err e => loop fuel h (code ++ rest) st s = (Err e, s')
    end.

Lemma loop_step fuel h op c st s :
  (length c ≤ fuel)%nat →
  loop (S fuel) h (op :: c) st s
  = match token (λ nested, loop fuel (h + 1) nested stack_new) h op c st s with
    | (Ok p, s') => loop fuel h p.1 p.2 s'
    | (Err e, s') => (Err e, s')
    end.
Proof. done. Qed.

(** A token that pushes [v] and leaves the rest of the input. *)
Lemma push_evaluates h op args rest l r s :
  (length l < STACK_SLOTS)%nat →
  (∀ fuel st, (length (args ++ rest) ≤ fuel)%nat → holds st l →
     let f nested := loop fuel (h + 1) nested stack_new in
     ∃ s', calc_cells s' = calc_cells s ∧
     match r with
     | Ok v => ∃ st', holds st' (v :: l) ∧ token f h op (args ++ rest) st s = (Ok (rest, st'), s')
     | Err e => token f h op (args ++ rest) st s = (Err e, s')
     end) →
  evaluates h (op :: args) rest l r s.
Proof using.
  intros Hl Ht st fuel Hst Hf. destruct fuel as [|fuel]; [simpl in Hf; lia|]. simpl in Hf.
  destruct (Ht fuel st ltac:(lia) Hst) as (s' & Hs & Hr).
  exists s'. split; [done|]. destruct r as [v|e].
  - destruct Hr as (st' & Hst' & E). exists st'. split; [done|].
    rewrite <- app_comm_cons, loop_step by lia. rewrite E. simpl. apply fuel_enough; [|lia].
    rewrite length_app in Hf. lia.
  - rewrite <- app_comm_cons, loop_step by lia. by rewrite Hr.
Qed.

Lemma lit_evaluates h rest l v s :
  sfits 64 v → (length l < STACK_SLOTS)%nat → evaluates h (expr_lit v) rest l (Ok v) s.
Proof using.
  intros Hv Hl. apply push_evaluates; [done|]. intros fuel st _ Hst f. exists s. split; [done|].
  destruct (stack_push_holds st l v Hst Hl) as (st' & E & H'). exists st'. split; [done|].
  unfold eval_token. rewrite Z.eqb_refl. unfold lift, cursor_i64.
  rewrite cursor_take_app by apply length_le_bytes. simpl. by rewrite i64_round_trip, E by done.
Qed.

Lemma acc_evaluates h rest l i s :
  (length l < STACK_SLOTS)%nat → evaluates h (expr_acc i) rest l (account_i64 accounts i s).1 s.
Proof using.
  intros Hl. apply push_evaluates; [done|]. intros fuel st _ Hst f. exists s. split; [done|].
  assert (E : token f h PUSH_ACC ([i] ++ rest) st s
    = (v ← account_i64 accounts i; lift (calc (st ← stack_push st v; Ok (rest, st)))) s) by done.
  unfold account_i64 in *. unfold mbind, op_bind in E.
  destruct (accounts !! Z.to_nat i) as [info|]; [|done]. simpl in *.
  destruct (read_account_value _) as [v|e]; [|done].
  destruct (stack_push_holds st l v Hst Hl) as (st' & Ep & H'). exists st'. split; [done|].
  rewrite E. unfold lift. by rewrite Ep.
Qed.

Lemma clock_evaluates h rest l s :
  (length l < STACK_SLOTS)%nat → evaluates h expr_clock rest l (Ok unix_timestamp) s.
Proof using.
  intros Hl. apply push_evaluates; [done|]. intros fuel st _ Hst f. exists s. split; [done|].
  destruct (stack_push_holds st l unix_timestamp Hst Hl) as (st' & E & H'). exists st'. split; [done|].
  unfold eval_token, lift. simpl. by rewrite E.
Qed.

Lemma op_evaluates h op rest l x y s st fuel :
  holds st (y :: x :: l) → (length l < STACK_SLOTS)%nat → (length (opcode op :: rest) ≤ fuel)%nat →
  match calc (arithmetic (opcode op) x y) with
  | Ok v => ∃ st', holds st' (v :: l) ∧ loop fuel h (opcode op :: rest) st s = loop (length rest) h rest st' s
  | Err e => loop fuel h (opcode op :: rest) st s = (Err e, s)
  end.
Proof using.
  intros Hst Hl Hf. destruct fuel as [|fuel]; [simpl in Hf; lia|]. simpl in Hf.
  destruct (stack_pop_holds _ _ _ Hst) as (st1 & E1 & H1). destruct (stack_pop_holds _ _ _ H1) as (st2 & E2 & H2).
  assert (E : ∀ f, token f h (opcode op) rest st s
    = lift (calc (v ← arithmetic (opcode op) x y; st ← stack_push st2 v; Ok (rest, st))) s).
  { intros f. destruct op; unfold eval_token; simpl; by rewrite E1; simpl; rewrite E2. }
  rewrite loop_step, E by lia. unfold lift.
  destruct (arithmetic (opcode op) x y) as [v|e]; [|done]. simpl.
  destruct (stack_push_holds st2 l v H2 Hl) as (st' & Ep & H'). exists st'. split; [done|].
  rewrite Ep. simpl. apply fuel_enough; lia.
Qed.

Lemma denote_cells s s' t : calc_cells s = calc_cells s' → denote s t = denote s' t.
Proof using.
  intros E. induction t as [|i| |op a IHa b IHb|]; simpl; try done; [|by rewrite IHa, IHb].
  unfold account_i64, cell_of. by rewrite E; destruct (accounts !! _).
Qed.

(** A call evaluates the nested program on a stack of its own and passes its value through
    the return data. *)
Lemma cpi_evaluates h e rest l r s :
  1 ≤ h → (length l < STACK_SLOTS)%nat → zlen e < 2 ^ 16 → admits h = true → head e ≠ Some TRANSFER →
  (∀ v, r = Ok v → sfits 64 v) →
  (∀ s', calc_cells s' = calc_cells s → evaluates (h + 1) e [] [] r s') →
  evaluates h (expr_cpi e) rest l r s.
Proof using.
  intros Hh Hl He Ha Ht Hv IH. unfold expr_cpi. apply push_evaluates; [done|].
  intros fuel st Hf Hst f. rewrite <- app_assoc in *.
  assert (Hlen : (length e ≤ fuel)%nat) by (rewrite !length_app in Hf; lia).
  destruct (IH (with_return_data s []) eq_refl stack_new fuel stack_new_holds) as (s' & Hs & Hr);
    [by rewrite app_nil_r|]. rewrite app_nil_r in Hr.
  assert (E : token f h CALL (le_bytes 2 (wrap 16 (zlen e)) ++ e ++ rest) st s
    = (v ← calc_call admits f accounts h e; lift (calc (st ← stack_push st v; Ok (rest, st)))) s).
  { unfold eval_token. change (CALL =? CALL) with true. simpl (CALL =? _). cbv iota.
    assert (E1 : cursor_u16 (le_bytes 2 (wrap 16 (zlen e)) ++ e ++ rest) = Ok (zlen e, e ++ rest)).
    { unfold cursor_u16. rewrite cursor_take_app by apply length_le_bytes. unfold mbind, result_bind. cbn [fst snd].
      rewrite wrap_small, le_round_trip; [done|..]; unfold fits, zlen in *; lia. }
    assert (E2 : cursor_take (Z.to_nat (zlen e)) (e ++ rest) = Ok (e, rest))
      by (apply cursor_take_app; unfold zlen; lia).
    rewrite E1. unfold lift, mbind, op_bind. cbn -[cursor_take calc_call]. rewrite E2. done. }
  rewrite E. unfold calc_call. rewrite Ha. cbn [negb].
  assert (Hn : nested_entry f accounts (h + 1) e (with_return_data s []) =
    match r with Ok v => (Ok tt, with_return_data s' (i64_to_le_bytes v)) | Err x => (Err x, s') end).
  { unfold nested_entry. rewrite bool_decide_false by done. unfold mbind, op_bind. unfold f.
    destruct r as [v|x]; [|by rewrite Hr]. destruct Hr as (st' & Hst' & ->). cbn [length eval_loop]. unfold lift.
    rewrite (into_result_holds _ _ Hst'). cbn. unfold emit.
    destruct (Z.eqb_spec (h + 1) 1); [lia|done]. }
  destruct r as [v|x].
  - exists (with_return_data s' (i64_to_le_bytes v)). split; [done|].
    destruct (stack_push_holds st l v Hst Hl) as (st' & Ep & H'). exists st'. split; [done|].
    unfold mbind, op_bind. rewrite Hn. unfold take_return_data. cbn [calc_return_data with_return_data].
    rewrite bool_decide_false by done. rewrite <- (app_nil_r (i64_to_le_bytes v)), read_head_word by auto.
    simpl calc. cbv beta iota. unfold lift. rewrite Ep. by rewrite app_nil_r.
  - exists s'. split; [done|]. unfold mbind, op_bind. by rewrite Hn.
Qed.

Lemma lower_evaluates t h rest l s :
  1 ≤ h → expressible h (length l) t → evaluates h (lower t) rest l (denote s t) s.
Proof using Hclock.
  revert h rest l s. induction t as [v|i| |op a IHa b IHb|t IH]; intros h rest l s Hh He.
  - apply lit_evaluates; apply He.
  - apply acc_evaluates, He.
  - apply clock_evaluates, He.
  - destruct He as [Hea Heb]. intros st fuel Hst Hf. simpl lower in *. unfold expr_binary in *.
    rewrite <- !app_assoc in *. simpl denote.
    destruct (IHa h (lower b ++ [opcode op] ++ rest) l s Hh Hea st fuel Hst Hf) as (s1 & Hs1 & H1).
    destruct (denote s a) as [x|e]; [|by exists s1]. destruct H1 as (st1 & Hst1 & E1). rewrite E1.
    unfold mbind, result_bind. rewrite (denote_cells s s1) by done.
    destruct (IHb h ([opcode op] ++ rest) (x :: l) s1 Hh Heb st1 _ Hst1 (le_n _)) as (s2 & Hs2 & H2).
    destruct (denote s1 b) as [y|e]; [|exists s2; split; [congruence|done]].
    destruct H2 as (st2 & Hst2 & E2). exists s2. split; [congruence|]. rewrite E2.
    apply op_evaluates; [done|by eapply expressible_room|done].
  - destruct He as (Hl & Hlen & Hadm & He). simpl. apply cpi_evaluates; try done.
    + destruct (lower_head t) as (b & tl & -> & Hb). simpl. congruence.
    + intros v Hv. by eapply denote_sfits.
    + intros s0 Hs. rewrite (denote_cells s s0) by done. by apply IH; [lia|].
Qed.

End evaluation.

(** C23. The builder is correct. The byte code that the builder makes of an expression, run by
    the program as an instruction of a transaction, leaves exactly the value of the expression
    in the first eight bytes of the output account and changes no other account; when the
    expression has no value, because of an overflow, a division by zero or an account without
    a value, it fails with the error of the expression and changes no account. This holds
    however subexpressions are marked for calls to the program itself. *)
Theorem builder_correct ts admits output rest t s :
  let accounts := output :: rest in
  sfits 64 ts → expressible admits 1 0 t → (ai_cell output < length (calc_cells s))%nat →
  (8 ≤ length (cell_data (cell_of s output)))%nat →
  let '(r, s') := calc_process ts admits accounts 1 (lower t) s in
  match denote ts accounts s t with
  | Err e => r = Err e ∧ calc_cells s' = calc_cells s
  | Ok v =>
      r = Ok tt ∧ read_account_value (cell_data (cell_of s' output)) = Ok v ∧
      cell_lamports (cell_of s' output) = cell_lamports (cell_of s output) ∧
      drop 8 (cell_data (cell_of s' output)) = drop 8 (cell_data (cell_of s output)) ∧
      ∀ i, i ≠ ai_cell output → calc_cells s' !! i = calc_cells s !! i
  end.
Proof.
  intros accounts Hts He Hc Hd. unfold calc_process, nested_entry, calc_eval.
  destruct (lower_head t) as (b & tl & Eb & Hb). rewrite bool_decide_false by (rewrite Eb; simpl; congruence).
  destruct (lower_evaluates ts admits accounts Hts t 1 [] [] s ltac:(lia) He stack_new (length (lower t)) stack_new_holds)
    as (s1 & Hs1 & H); [by rewrite app_nil_r|]. rewrite app_nil_r in H.
  unfold mbind, op_bind. destruct (denote ts accounts s t) as [v|e] eqn:Ed; [|by rewrite H].
  destruct H as (st' & Hst' & ->). cbn [length eval_loop]. unfold lift.
  rewrite (into_result_holds _ _ Hst'). cbn -[write_account_value].
  assert (Eo : cell_of s1 output = cell_of s output) by (unfold cell_of; by rewrite Hs1).
  rewrite Eo. unfold write_account_value. rewrite bool_decide_false by lia.
  assert (Hv : sfits 64 v) by by eapply denote_sfits.
  unfold set_cell, cell_of, with_cells. cbn [calc_cells]. rewrite Hs1.
  rewrite list_lookup_insert_eq by done. cbn [from_option id cell_lamports cell_data]. split_and!; [done|..].
  - unfold read_account_value. by rewrite read_head_word.
  - done.
  - by rewrite drop_app_length' by (symmetry; apply length_le_bytes).
  - intros i Hi. by rewrite list_lookup_insert_ne.
Qed.

(** Account 0 holds the output, account 1 the operand 7: (42 + call (acc1 * 4)) - 56. *)
Definition example_cells : CalcState :=
  {| calc_cells := [{| cell_lamports := 5; cell_data := replicate 9 0 |};
                    {| cell_lamports := 6; cell_data := i64_to_le_bytes 7 |}];
     calc_return_data := [] |}.
Definition example_info (n : nat) : AccountInfo :=
  {| ai_key := [Z.of_nat n]; ai_is_signer := false; ai_is_writable := true; ai_cell := n |}.
Definition example_tree : Tree :=
  TBin OSub (TBin OAdd (TLit 42) (TCpi (TBin OMul (TAcc 1) (TLit 4)))) (TLit 56).

Lemma builder_correct_witness :
  let '(r, s') := calc_process 0 (λ h, h <? 5) [example_info 0; example_info 1] 1 (lower example_tree) example_cells in
  r = Ok tt ∧ read_account_value (cell_data (cell_of s' (example_info 0))) = Ok 14.
Proof.
  pose proof (builder_correct 0 (λ h, h <? 5) (example_info 0) [example_info 1] example_tree example_cells) as H.
  cbv zeta in H. destruct (calc_process _ _ _ _ _ _) as [r s'].
  destruct H as (H1 & H2 & _); [done|repeat split; first [reflexivity|vm_compute; discriminate|simpl; unfold STACK_SLOTS; lia]|vm_compute; lia|vm_compute; lia|].
  split; [exact H1|exact H2].
Defined.

Lemma swrap_add v d : swrap 64 (v + swrap 64 d) = swrap 64 (v + d).
Proof.
  unfold swrap at 1 3. f_equal. unfold swrap.
  replace (v + ((d + 2 ^ (64 - 1)) mod 2 ^ 64 - 2 ^ (64 - 1)) + 2 ^ (64 - 1))
    with (v + (d + 2 ^ (64 - 1)) mod 2 ^ 64) by lia.
  rewrite Zplus_mod_idemp_r. f_equal. lia.
Qed.
Lemma wrap_swrap d : wrap 64 (swrap 64 d) = wrap 64 d.
Proof.
  unfold wrap, swrap. rewrite Zminus_mod_idemp_l. f_equal. lia.
Qed.

(** What a delta leaves of a cell with a value. *)
Lemma apply_delta_spec i delta s v :
  (ai_cell i < length (calc_cells s))%nat → read_account_value (cell_data (cell_of s i)) = Ok v →
  ∃ c, apply_delta i delta s = (Ok tt, set_cell i c s) ∧
    cell_lamports c = wrap 64 (cell_lamports (cell_of s i) + delta) ∧
    read_account_value (cell_data c) = Ok (swrap 64 (v + delta)) ∧
    drop 8 (cell_data c) = drop 8 (cell_data (cell_of s i)).
Proof.
  intros Hi Hv. unfold apply_delta. rewrite Hv. unfold mbind, result_bind, write_account_value.
  unfold read_account_value, read_head_i64 in Hv. case_bool_decide as Hlen; [done|].
  eexists. split.
  { unfold set_cell, with_cells, cell_of. cbn [calc_cells]. rewrite list_lookup_insert_eq by done.
    rewrite list_insert_insert_eq. done. }
  cbn [cell_lamports cell_data]. unfold wrapping_add. split_and!.
  - unfold wrap. by rewrite Zplus_mod_idemp_r.
  - unfold read_account_value. by rewrite read_head_word by apply swrap_sfits.
  - by rewrite drop_app_length' by (symmetry; apply length_le_bytes).
Qed.

(** C2. Transfers move value. A transfer between two accounts with values takes the delta from
    the lamports and the value of the first and adds it to those of the second, in words, and
    changes nothing else: the sums of both stay the same modulo the word. *)
Theorem transfer_conserves ts admits from to rest h delta s v w :
  sfits 64 delta → ai_key from ≠ ai_key to → ai_cell from ≠ ai_cell to →
  (ai_cell from < length (calc_cells s))%nat → (ai_cell to < length (calc_cells s))%nat →
  read_account_value (cell_data (cell_of s from)) = Ok v →
  read_account_value (cell_data (cell_of s to)) = Ok w →
  let '(r, s') := calc_process ts admits (from :: to :: rest) h (transfer_data delta) s in
  r = Ok tt ∧
  cell_lamports (cell_of s' from) = wrap 64 (cell_lamports (cell_of s from) - delta) ∧
  cell_lamports (cell_of s' to) = wrap 64 (cell_lamports (cell_of s to) + delta) ∧
  read_account_value (cell_data (cell_of s' from)) = Ok (swrap 64 (v - delta)) ∧
  read_account_value (cell_data (cell_of s' to)) = Ok (swrap 64 (w + delta)) ∧
  wrap 64 (cell_lamports (cell_of s' from) + cell_lamports (cell_of s' to))
    = wrap 64 (cell_lamports (cell_of s from) + cell_lamports (cell_of s to)) ∧
  ∀ i, i ≠ ai_cell from → i ≠ ai_cell to → calc_cells s' !! i = calc_cells s !! i.
Proof.
  intros Hd Hk Hc Hf Ht Hv Hw. unfold calc_process, nested_entry, transfer_data. rewrite bool_decide_true by done.
  unfold transfer_process. rewrite bool_decide_false by done. rewrite bool_decide_true by apply length_le_bytes.
  rewrite i64_round_trip by done.
  destruct (apply_delta_spec from (swrap 64 (- delta)) s v Hf Hv) as (c & E1 & L1 & V1 & _).
  op_ok E1. set (s1 := set_cell from c s).
  assert (Et : cell_of s1 to = cell_of s to)
    by (unfold s1, set_cell, with_cells, cell_of; cbn [calc_cells]; by rewrite list_lookup_insert_ne).
  destruct (apply_delta_spec to delta s1 w) as (d & E2 & L2 & V2 & _).
  { unfold s1, set_cell, with_cells. cbn [calc_cells]. by rewrite length_insert. }
  { by rewrite Et. }
  rewrite E2. rewrite Et in L2.
  assert (Hfrom : cell_of (set_cell to d s1) from = c).
  { unfold s1, set_cell, with_cells, cell_of. cbn [calc_cells].
    rewrite list_lookup_insert_ne, list_lookup_insert_eq by done. done. }
  assert (Hto : cell_of (set_cell to d s1) to = d).
  { unfold s1, set_cell, with_cells, cell_of. cbn [calc_cells].
    rewrite list_lookup_insert_eq by (by rewrite length_insert). done. }
  rewrite Hfrom, Hto. rewrite swrap_add in V1.
  assert (L1' : cell_lamports c = wrap 64 (cell_lamports (cell_of s from) - delta)).
  { rewrite L1. unfold wrap at 1. rewrite <- Zplus_mod_idemp_r. fold (wrap 64 (swrap 64 (- delta))).
    rewrite wrap_swrap. unfold wrap. rewrite Zplus_mod_idemp_r. f_equal. }
  split_and!; try done.
  - rewrite L1', L2. unfold wrap. rewrite <- Zplus_mod. f_equal. lia.
  - intros i H1 H2. unfold s1, set_cell, with_cells. cbn [calc_cells]. by rewrite !list_lookup_insert_ne.
Qed.

Lemma transfer_conserves_witness :
  let s := {| calc_cells := [{| cell_lamports := 50; cell_data := i64_to_le_bytes (-3) |};
                             {| cell_lamports := 6; cell_data := i64_to_le_bytes 7 |}];
              calc_return_data := [] |} in
  let '(r, s') := calc_process 0 (λ _, true) [example_info 0; example_info 1] 1 (transfer_data 10) s in
  r = Ok tt ∧ cell_lamports (cell_of s' (example_info 0)) = 40 ∧
  read_account_value (cell_data (cell_of s' (example_info 1))) = Ok 17.
Proof.
  cbv zeta. set (s := {| calc_cells := _; calc_return_data := _ |}).
  pose proof (transfer_conserves 0 (λ _, true) (example_info 0) (example_info 1) [] 1 10 s (-3) 7) as H.
  destruct (calc_process _ _ _ _ _ _) as [r s'].
  destruct H as (H1 & H2 & _ & _ & H3 & _); [done|done|done|vm_compute; lia|vm_compute; lia|reflexivity|reflexivity|].
  split; [exact H1|]. split; [exact H2|exact H3].
Defined.
