(* ===== verification/KeeperCache.v ===== *)
(** * Caches of the keeper ([keeper/src/cache.rs])

    Recent signatures and block hashes live in caches with an expiry by slot, swept a few
    entries at a time. Together they keep a transaction from being admitted twice: its block
    hash is accepted for a while, and its signature is remembered for longer. *)

From stdpp Require Import base list gmap numbers option sorting.
From S2P Require Import Prelude Records AccountMode Account.

Local Open Scope Z_scope.

Definition EVICTION_LIMIT : nat := 16.

(** ** [ExpiringCache]

    Slots and lifetimes are far below the width of their type, so that their sum is the sum of
    the words. *)

Section expiring.
Context {K V : Type} `{Countable K}.

Record ExpiringRecord := { record_key : K; expires : Z }.
Record ExpiringCache := { cache_index : gmap K V; cache_queue : list ExpiringRecord; cache_ttl : Z }.

Definition cache_new (ttl : Z) : ExpiringCache :=
  {| cache_index := ∅; cache_queue := []; cache_ttl := ttl |}.

Definition expired (r : ExpiringRecord) (instant : Z) : bool := expires r <=? instant.

(** The loop over at most [n] expired records at the front of the queue. *)
Fixpoint evict (n : nat) (slot : Z) (index : gmap K V) (queue : list ExpiringRecord)
    : gmap K V * list ExpiringRecord :=
  match n, queue with
  | S n, r :: rest => if expired r slot then evict n slot (delete (record_key r) index) rest else (index, queue)
  | _, _ => (index, queue)
  end.

Definition cache_push (c : ExpiringCache) (key : K) (value : V) (slot : Z) : ExpiringCache * bool :=
  let '(index, queue) := evict EVICTION_LIMIT slot (cache_index c) (cache_queue c) in
  match index !! key with
  | Some _ => ({| cache_index := index; cache_queue := queue; cache_ttl := cache_ttl c |}, false)
  | None =>
      ({| cache_index := <[key := value]> index;
          cache_queue := queue ++ [{| record_key := key; expires := slot + cache_ttl c |}];
          cache_ttl := cache_ttl c |}, true)
  end.

Definition cache_len (c : ExpiringCache) : nat := size (cache_index c).
Definition cache_get (c : ExpiringCache) (key : K) : option V := cache_index c !! key.
Definition cache_contains (c : ExpiringCache) (key : K) : bool := bool_decide (is_Some (cache_index c !! key)).

Definition cache_update (c : ExpiringCache) (key : K) (value : V) : ExpiringCache :=
  match cache_index c !! key with
  | None => c
  | Some _ => {| cache_index := <[key := value]> (cache_index c); cache_queue := cache_queue c; cache_ttl := cache_ttl c |}
  end.

(** *** What holds of a cache: the queue lists the keys of the index, once each *)

Definition indexed (index : gmap K V) (queue : list ExpiringRecord) : Prop :=
  NoDup (record_key <$> queue) ∧ ∀ k, is_Some (index !! k) ↔ k ∈ record_key <$> queue.
Definition cache_ok (c : ExpiringCache) : Prop := indexed (cache_index c) (cache_queue c).

Lemma evict_indexed n slot index queue :
  indexed index queue → indexed (evict n slot index queue).1 (evict n slot index queue).2.
Proof.
  revert index queue. induction n as [|n IH]; intros index [|r queue] Hi; try done. simpl.
  destruct (expired r slot); [|done]. apply IH. destruct Hi as [Hnd Hk].
  rewrite fmap_cons in Hnd, Hk. apply list.NoDup_cons in Hnd as [Hr Hnd]. split; [done|]. intros k.
  destruct (decide (k = record_key r)) as [->|Hne].
  - rewrite lookup_delete_eq. split; [by intros [? ?]|done].
  - rewrite lookup_delete_ne, Hk, elem_of_cons by done. naive_solver.
Qed.

Lemma evict_subset n slot index queue k v : (evict n slot index queue).1 !! k = Some v → index !! k = Some v.
Proof.
  revert index queue. induction n as [|n IH]; intros index [|r queue]; try done. simpl.
  destruct (expired r slot); [|done]. intros [_ ?]%IH%lookup_delete_Some. done.
Qed.

(** What is evicted had expired; the rest stays in its order. *)
Lemma evict_suffix n slot index queue :
  ∃ gone, queue = gone ++ (evict n slot index queue).2 ∧ Forall (λ r, expires r ≤ slot) gone ∧
    ∀ k, k ∉ record_key <$> gone → (evict n slot index queue).1 !! k = index !! k.
Proof.
  revert index queue. induction n as [|n IH]; intros index queue; [by exists []|].
  destruct queue as [|r queue]; [by exists []|]. simpl.
  destruct (expired r slot) eqn:E; [|by exists []].
  destruct (IH (delete (record_key r) index) queue) as (gone & Eq & Hg & Hk).
  exists (r :: gone). split_and!; [by rewrite <- app_comm_cons, <- Eq|constructor; [|done]|].
  - unfold expired in E. by apply Z.leb_le.
  - intros k Hn. rewrite fmap_cons, elem_of_cons in Hn. rewrite Hk, lookup_delete_ne; naive_solver.
Qed.

(** When at most [n] records have expired and they are in front, none is left. *)
Lemma evict_all n slot index gone kept :
  (length gone ≤ n)%nat → Forall (λ r, expires r ≤ slot) gone → Forall (λ r, slot < expires r) kept →
  (evict n slot index (gone ++ kept)).2 = kept.
Proof.
  revert n index. induction gone as [|r gone IH]; intros n index Hn Hg Hk; simpl.
  - destruct n, kept as [|r kept]; try done. simpl. unfold expired.
    apply list.Forall_cons in Hk as [Hr _]. by destruct (Z.leb_spec (expires r) slot); [lia|].
  - simpl in Hn. destruct n as [|n]; [lia|]. apply list.Forall_cons in Hg as [Hr Hg]. simpl. unfold expired.
    destruct (Z.leb_spec (expires r) slot); [|lia]. apply IH; (done || lia).
Qed.

Lemma cache_push_ok c key value slot : cache_ok c → cache_ok (cache_push c key value slot).1.
Proof.
  intros Hc. unfold cache_push. pose proof (evict_indexed EVICTION_LIMIT slot _ _ Hc) as Hi.
  destruct (evict _ _ _ _) as [index queue]. simpl in Hi. destruct (index !! key) as [v|] eqn:Ek; [done|].
  destruct Hi as [Hnd Hk]. split; simpl.
  - rewrite fmap_app. apply list.NoDup_app. split_and!; [done| |by apply NoDup_singleton].
    intros k Hin Hs. apply list_elem_of_singleton in Hs as ->. apply Hk in Hin as [? ?]. simpl in *. congruence.
  - intros k. rewrite fmap_app, elem_of_app. rewrite <- Hk. simpl. rewrite list_elem_of_singleton.
    destruct (decide (k = key)) as [->|Hne]; [rewrite lookup_insert_eq|rewrite lookup_insert_ne by done]; naive_solver.
Qed.

(** A key that is not in the cache is pushed. *)
Lemma push_absent c key value slot :
  cache_get c key = None → cache_get (cache_push c key value slot).1 key = Some value.
Proof.
  unfold cache_get. intros Hk. unfold cache_push.
  pose proof (evict_subset EVICTION_LIMIT slot (cache_index c) (cache_queue c) key) as Hs.
  destruct (evict EVICTION_LIMIT slot (cache_index c) (cache_queue c)) as [index queue]. cbn [fst] in Hs.
  destruct (index !! key) as [v|] eqn:Ei; [|cbn; by rewrite lookup_insert_eq].
  specialize (Hs v eq_refl). congruence.
Qed.

Lemma push_fresh c key value slot : cache_get c key = None → (cache_push c key value slot).2 = true.
Proof.
  unfold cache_get. intros Hk. unfold cache_push.
  pose proof (evict_subset EVICTION_LIMIT slot (cache_index c) (cache_queue c) key) as Hs.
  destruct (evict EVICTION_LIMIT slot (cache_index c) (cache_queue c)) as [index queue]. cbn [fst] in Hs.
  destruct (index !! key) as [v|] eqn:Ei; [|done]. specialize (Hs v eq_refl). congruence.
Qed.

Lemma update_ok c key value : cache_ok c → cache_ok (cache_update c key value).
Proof.
  intros [Hnd Hk]. unfold cache_update. destruct (cache_index c !! key) as [v|] eqn:Ek; [|done].
  split; simpl; [done|]. intros k. rewrite <- Hk.
  destruct (decide (k = key)) as [->|Hne]; [rewrite lookup_insert_eq|by rewrite lookup_insert_ne]. naive_solver.
Qed.

Lemma update_queue c key value :
  cache_queue (cache_update c key value) = cache_queue c ∧ cache_ttl (cache_update c key value) = cache_ttl c.
Proof. unfold cache_update. by destruct (cache_index c !! key). Qed.

End expiring.
Arguments ExpiringRecord K : clear implicits.
Arguments ExpiringCache K V {_ _}.
Arguments evict : simpl never.

(** ** [BlocksCache] and [Caches] *)

Abbreviation SolanaHash := (list Z).
Abbreviation SignaturePrefix := (list Z).

Record BlocksCache := { blocks_latest : Block; blocks_history : ExpiringCache SolanaHash Z }.

Definition blocks_new (latest : Block) (ttl : Z) : BlocksCache :=
  {| blocks_latest := latest; blocks_history := cache_new ttl |}.
Definition blocks_push (c : BlocksCache) (b : Block) : BlocksCache :=
  {| blocks_latest := b;
     blocks_history := (cache_push (blocks_history c) (block_hash b) (block_slot b) (block_slot b)).1 |}.

Section caches.
Context {Status : Type}.

Record Caches := {
  signatures : ExpiringCache SignaturePrefix (option Status);
  blocks : BlocksCache;
}.

Definition caches_new (latest : Block) (block_ttl signature_ttl : Z) : Caches :=
  {| signatures := cache_new signature_ttl; blocks := blocks_new latest block_ttl |}.
Definition restore_hash (c : Caches) (slot : Z) (hash : SolanaHash) : Caches :=
  {| signatures := signatures c;
     blocks := {| blocks_latest := blocks_latest (blocks c);
                  blocks_history := (cache_push (blocks_history (blocks c)) hash slot slot).1 |} |}.
Definition restore_entry (c : Caches) (b : Block) (sigs : list SignaturePrefix) : Caches :=
  let c := restore_hash c (block_slot b) (block_hash b) in
  {| signatures := foldl (λ s k, (cache_push s k None (block_slot b)).1) (signatures c) sigs; blocks := blocks c |}.

(** [KeeperBuilder::leader_caches]. *)
Definition leader_caches (latest : Block) (block_ttl signature_ttl : Z) : Caches :=
  restore_hash (caches_new latest block_ttl signature_ttl) (block_slot latest) (block_hash latest).

Definition with_signatures (c : Caches) (s : ExpiringCache SignaturePrefix (option Status)) : Caches :=
  {| signatures := s; blocks := blocks c |}.
Definition with_block (c : Caches) (b : Block) : Caches :=
  {| signatures := signatures c; blocks := blocks_push (blocks c) b |}.
Definition latest_slot (c : Caches) : Z := block_slot (blocks_latest (blocks c)).
Definition is_valid (c : Caches) (hash : SolanaHash) : bool := cache_contains (blocks_history (blocks c)) hash.

End caches.
Arguments Caches Status : clear implicits.

(** ** Admission of transactions ([keeper/src/accessor.rs], [TransactionsAccessor::append])

    Calls of [append] run concurrently with each other and with the blocks: a call reads the
    slot, then reserves the signature, then checks the block hash. However these steps
    interleave, no transaction is admitted twice. *)

(** An [omap] that is injective on a list without repetitions has none. *)
Lemma NoDup_omap_pairs {A B} (f : A → option B) (l : list A) :
  NoDup l → (∀ i j b, i ∈ l → j ∈ l → f i = Some b → f j = Some b → i = j) → NoDup (omap f l).
Proof.
  intros Hl Hf. induction Hl as [|i l Hi Hl IH]; [constructor|]. simpl.
  assert (IH' : NoDup (omap f l)) by (apply IH; intros; eapply Hf; eauto; by right).
  destruct (f i) as [b|] eqn:E; [|done]. constructor; [|done].
  intros Hb. apply list_elem_of_omap in Hb as (j & Hj & Ej). apply Hi.
  rewrite (Hf i j b); [done|by left|by right|done|done].
Qed.

Section admission.
Context {Status : Type}.

(** ** The steps of [append] *)

Definition append_slot (c : Caches Status) : Z := latest_slot c + 1.
Definition append_reserve (c : Caches Status) (key : SignaturePrefix) (slot : Z) : Caches Status * bool :=
  let '(s, fresh) := cache_push (signatures c) key None slot in (with_signatures c s, fresh).

(** A call between its steps; [Reserved] names its claim on the signature. *)
Inductive AppendCall :=
| Sampled (key : SignaturePrefix) (hash : SolanaHash) (slot : Z)
| Reserved (claim : nat).

(** The claims made so far, the calls in flight, the claims that were admitted, and the hashes
    of the blocks so far. *)
Record Claim := { claim_key : SignaturePrefix; claim_hash : SolanaHash; claim_slot : Z }.
Record Admission := {
  caches : Caches Status;
  calls : gmap nat AppendCall;
  claims : list Claim;
  admitted : list nat;
  seen : list SolanaHash;
}.

Definition admission_start (latest : Block) (block_ttl signature_ttl : Z) : Admission :=
  {| caches := leader_caches latest block_ttl signature_ttl; calls := ∅; claims := []; admitted := [];
     seen := [block_hash latest] |}.

Definition with_caches (a : Admission) (c : Caches Status) : Admission :=
  {| caches := c; calls := calls a; claims := claims a; admitted := admitted a; seen := seen a |}.
Definition with_calls (a : Admission) (l : gmap nat AppendCall) : Admission :=
  {| caches := caches a; calls := l; claims := claims a; admitted := admitted a; seen := seen a |}.

(** The interleavings. A call is admitted within [lag] slots of the slot it read, blocks have
    consecutive slots and their hashes do not repeat. *)
Inductive admission_step (lag : Z) : Admission → Admission → Prop :=
| step_sample a id key hash :
    calls a !! id = None →
    admission_step lag a (with_calls a (<[id := Sampled key hash (append_slot (caches a))]> (calls a)))
| step_reserve a id key hash slot c :
    calls a !! id = Some (Sampled key hash slot) → append_reserve (caches a) key slot = (c, true) →
    admission_step lag a
      {| caches := c; calls := <[id := Reserved (length (claims a))]> (calls a);
         claims := claims a ++ [{| claim_key := key; claim_hash := hash; claim_slot := slot |}];
         admitted := admitted a; seen := seen a |}
| step_already_processed a id key hash slot c :
    calls a !! id = Some (Sampled key hash slot) → append_reserve (caches a) key slot = (c, false) →
    admission_step lag a (with_calls (with_caches a c) (delete id (calls a)))
| step_admit a id i x :
    calls a !! id = Some (Reserved i) → claims a !! i = Some x → is_valid (caches a) (claim_hash x) = true →
    append_slot (caches a) ≤ claim_slot x + lag →
    admission_step lag a
      {| caches := caches a; calls := delete id (calls a); claims := claims a; admitted := admitted a ++ [i];
         seen := seen a |}
| step_hash_not_found a id i x :
    calls a !! id = Some (Reserved i) → claims a !! i = Some x → is_valid (caches a) (claim_hash x) = false →
    admission_step lag a (with_calls a (delete id (calls a)))
| step_block a b :
    block_slot b = append_slot (caches a) → block_hash b ∉ seen a →
    admission_step lag a
      {| caches := with_block (caches a) b; calls := calls a; claims := claims a; admitted := admitted a;
         seen := block_hash b :: seen a |}
| step_commit a key status :
    admission_step lag a
      (with_caches a (with_signatures (caches a) (cache_update (signatures (caches a)) key (Some status)))).

(** ** The invariant *)

Section invariant.
Context (block_ttl signature_ttl lag : Z).
Hypothesis Hblock : 1 ≤ block_ttl.
Hypothesis Hlag : 0 ≤ lag.
Hypothesis Httl : block_ttl + lag ≤ signature_ttl.

(** The records of the history expire one by one after the latest block. *)
Record history_ok (latest : Z) (h : ExpiringCache SolanaHash Z) : Prop := {
  h_ok : cache_ok h;
  h_ttl : cache_ttl h = block_ttl;
  h_sorted : StronglySorted (λ r r' : ExpiringRecord SolanaHash, expires r < expires r') (cache_queue h);
  h_range : Forall (λ r, latest < expires r ≤ latest + block_ttl) (cache_queue h);
}.

Definition dead (latest : Z) (x : Claim) : Prop := claim_slot x + signature_ttl ≤ latest + 1.

Record admission_ok (a : Admission) : Prop := {
  a_history : history_ok (latest_slot (caches a)) (blocks_history (blocks (caches a)));
  a_signatures : cache_ok (signatures (caches a)) ∧ cache_ttl (signatures (caches a)) = signature_ttl;
  a_kept : ∀ i x, claims a !! i = Some x → dead (latest_slot (caches a)) x ∨
    {| record_key := claim_key x; expires := claim_slot x + signature_ttl |} ∈ cache_queue (signatures (caches a));
  a_once : ∀ i j x y, claims a !! i = Some x → claims a !! j = Some y → i ≠ j → claim_key x = claim_key y →
    dead (latest_slot (caches a)) x ∨ dead (latest_slot (caches a)) y;
  a_sampled : ∀ id key hash slot, calls a !! id = Some (Sampled key hash slot) → slot ≤ append_slot (caches a);
  a_reserved : ∀ id i, calls a !! id = Some (Reserved i) → is_Some (claims a !! i) ∧ i ∉ admitted a;
  a_reserved_once : ∀ id id' i, calls a !! id = Some (Reserved i) → calls a !! id' = Some (Reserved i) → id = id';
  a_admitted : NoDup (admitted a);
  a_bounded : ∀ i, i ∈ admitted a → ∃ x, claims a !! i = Some x ∧ claim_hash x ∈ seen a ∧
    ∀ r, r ∈ cache_queue (blocks_history (blocks (caches a))) → record_key r = claim_hash x →
      expires r ≤ claim_slot x - 1 + lag + block_ttl;
  a_seen : ∀ r, r ∈ cache_queue (blocks_history (blocks (caches a))) → record_key r ∈ seen a;
  a_distinct : ∀ i j x y, i ∈ admitted a → j ∈ admitted a → i ≠ j → claims a !! i = Some x → claims a !! j = Some y →
    (claim_key x, claim_hash x) ≠ (claim_key y, claim_hash y);
}.

Lemma history_push latest h b :
  history_ok latest h → block_slot b = latest + 1 → (∀ r, r ∈ cache_queue h → record_key r ≠ block_hash b) →
  let h' := (cache_push h (block_hash b) (block_slot b) (block_slot b)).1 in
  history_ok (latest + 1) h' ∧
  ∀ r, r ∈ cache_queue h' → r ∈ cache_queue h ∨ r = {| record_key := block_hash b; expires := latest + 1 + block_ttl |}.
Proof using Hblock.
  intros [H1 H2 H3 H4] Hb Hf h'. pose proof (cache_push_ok h (block_hash b) (block_slot b) (block_slot b) H1) as Hok.
  unfold h', cache_push in *. rewrite Hb in *.
  pose proof (evict_indexed EVICTION_LIMIT (latest + 1) _ _ H1) as Hi.
  destruct (evict_suffix EVICTION_LIMIT (latest + 1) (cache_index h) (cache_queue h)) as (gone & Eq & Hg & _).
  assert (Hkept : Forall (λ r, latest + 1 < expires r) (evict EVICTION_LIMIT (latest + 1) (cache_index h) (cache_queue h)).2).
  { destruct (cache_queue h) as [|r q] eqn:Eh; [by destruct EVICTION_LIMIT|].
    apply list.Forall_cons in H4 as [Hr H4]. apply StronglySorted_inv in H3 as [_ H3].
    assert (Hq : Forall (λ r', latest + 1 < expires r') q).
    { eapply list.Forall_impl; [exact H3|]. simpl. lia. }
    destruct (decide (expires r ≤ latest + 1)) as [Hle|Hgt].
    - change (r :: q) with ([r] ++ q).
      rewrite (evict_all EVICTION_LIMIT (latest + 1) (cache_index h) [r] q); [done|simpl; unfold EVICTION_LIMIT; lia|by constructor|done].
    - assert (Forall (λ r', latest + 1 < expires r') (r :: q)) by (constructor; [lia|done]).
      change (r :: q) with ([] ++ r :: q).
      rewrite (evict_all EVICTION_LIMIT (latest + 1) (cache_index h) [] (r :: q)); (done || simpl; lia). }
  destruct (evict EVICTION_LIMIT (latest + 1) (cache_index h) (cache_queue h)) as [index queue]. simpl in *.
  assert (Hsub : ∀ r, r ∈ queue → r ∈ cache_queue h) by (intros r Hr; rewrite Eq; apply elem_of_app; by right).
  destruct (index !! block_hash b) as [v|] eqn:Ek.
  { exfalso. destruct Hi as [_ Hi]. assert (Hin : block_hash b ∈ record_key <$> queue) by (apply Hi; by eexists).
    apply list_elem_of_fmap in Hin as (r & Er & Hr). by apply (Hf r); [apply Hsub|]. }
  simpl in *. rewrite H2 in *. split.
  - constructor; simpl; [done|done| |].
    + rewrite Eq in H3. apply StronglySorted_app in H3 as (_ & _ & H3). apply StronglySorted_app. split_and!; [|done|repeat constructor].
      intros r r' Hr Hr'. apply list_elem_of_singleton in Hr' as ->. simpl.
      rewrite list.Forall_forall in H4. specialize (H4 r (Hsub r Hr)). lia.
    + apply Forall_app. split; [|repeat constructor; simpl; lia]. rewrite list.Forall_forall in H4, Hkept |- *.
      intros r Hr. specialize (H4 r (Hsub r Hr)). specialize (Hkept r Hr). simpl in *. lia.
  - intros r Hr. apply elem_of_app in Hr as [Hr|Hr]; [left; auto|]. apply list_elem_of_singleton in Hr as ->. by right.
Qed.

(** A push drops only expired records; one that succeeds finds no live record of its key. *)
Lemma reserve_push {V} (c c' : ExpiringCache SignaturePrefix V) key value slot fresh :
  cache_ok c → cache_push c key value slot = (c', fresh) →
  cache_ok c' ∧ cache_ttl c' = cache_ttl c ∧
  (∀ r, r ∈ cache_queue c → r ∈ cache_queue c' ∨ expires r ≤ slot) ∧
  (fresh = true →
    {| record_key := key; expires := slot + cache_ttl c |} ∈ cache_queue c' ∧
    ∀ r, r ∈ cache_queue c → record_key r = key → expires r ≤ slot).
Proof using.
  intros Hc Hp. pose proof (cache_push_ok c key value slot Hc) as Hok. rewrite Hp in Hok. split; [done|].
  unfold cache_push in Hp. pose proof (evict_indexed EVICTION_LIMIT slot _ _ Hc) as [_ Hi].
  destruct (evict_suffix EVICTION_LIMIT slot (cache_index c) (cache_queue c)) as (gone & Eq & Hg & _).
  destruct (evict EVICTION_LIMIT slot (cache_index c) (cache_queue c)) as [index queue]. simpl in *.
  rewrite list.Forall_forall in Hg.
  assert (Hsplit : ∀ r, r ∈ cache_queue c → r ∈ queue ∨ expires r ≤ slot).
  { intros r Hr. rewrite Eq in Hr. apply elem_of_app in Hr as [Hr|Hr]; [right; by apply Hg|by left]. }
  destruct (index !! key) as [v|] eqn:Ek; injection Hp as <- <-; simpl; (split; [done|]).
  - split; [done|]. done.
  - split.
    { intros r Hr. destruct (Hsplit r Hr); [left|by right]. apply elem_of_app. by left. }
    intros _. split; [apply elem_of_app; right; by apply list_elem_of_singleton|].
    intros r Hr Hk. destruct (Hsplit r Hr) as [Hin|]; [|done]. exfalso.
    destruct (Hi key) as [_ Hk']. rewrite Ek in Hk'. destruct Hk' as [? ?]; [|done].
    apply list_elem_of_fmap. by exists r.
Qed.

(** A step that neither claims nor admits. *)
Lemma keep_claims a c l :
  admission_ok a → latest_slot c = latest_slot (caches a) →
  blocks_history (blocks c) = blocks_history (blocks (caches a)) →
  cache_ok (signatures c) → cache_ttl (signatures c) = signature_ttl →
  (∀ r, r ∈ cache_queue (signatures (caches a)) → r ∈ cache_queue (signatures c) ∨ expires r ≤ latest_slot c + 1) →
  (∀ id key hash slot, l !! id = Some (Sampled key hash slot) → slot ≤ append_slot c) →
  (∀ id i, l !! id = Some (Reserved i) → calls a !! id = Some (Reserved i)) →
  admission_ok (with_calls (with_caches a c) l).
Proof using.
  intros [A1 A2 A3 A4 A5 A6 A7 A8 A9 A10 A11] Hl Hh Hs Ht Hq Hsam Hres.
  constructor; simpl; rewrite ?Hl, ?Hh; try done.
  - intros i x Hx. destruct (A3 i x Hx) as [Hd|Hin]; [by left|].
    destruct (Hq _ Hin) as [|He]; [by right|left]. simpl in He. unfold dead. lia.
  - intros id i Hi. by apply (A6 id), Hres.
  - intros id id' i H1 H2. by apply (A7 id id' i); apply Hres.
Qed.

Lemma sample_step a id key hash :
  admission_ok a → calls a !! id = None →
  admission_ok (with_calls a (<[id := Sampled key hash (append_slot (caches a))]> (calls a))).
Proof using.
  intros Ha Hid. apply (keep_claims a (caches a)); try done; try apply Ha.
  - intros r Hr. by left.
  - intros id' k h s Hl. destruct (decide (id' = id)) as [->|Hne].
    + rewrite lookup_insert_eq in Hl. by injection Hl as <- <- <-.
    + rewrite lookup_insert_ne in Hl by done. by eapply a_sampled.
  - intros id' i Hl. destruct (decide (id' = id)) as [->|Hne].
    + by rewrite lookup_insert_eq in Hl.
    + by rewrite lookup_insert_ne in Hl.
Qed.

Lemma already_step a id key hash slot c :
  admission_ok a → calls a !! id = Some (Sampled key hash slot) → append_reserve (caches a) key slot = (c, false) →
  admission_ok (with_calls (with_caches a c) (delete id (calls a))).
Proof using.
  intros Ha Hid Hr. unfold append_reserve in Hr.
  destruct (cache_push _ _ _ _) as [s f] eqn:Ep. injection Hr as <- ->.
  destruct (a_signatures a Ha) as [Hs Ht]. destruct (reserve_push _ _ _ _ _ _ Hs Ep) as (P1 & P2 & P3 & _).
  pose proof (a_sampled a Ha _ _ _ _ Hid) as Hle.
  apply keep_claims; try done; simpl; [congruence|..].
  - intros r Hr. destruct (P3 r Hr); [by left|right]. unfold append_slot in Hle.
    change (latest_slot (with_signatures (caches a) s)) with (latest_slot (caches a)). lia.
  - intros id' k h sl Hl. apply lookup_delete_Some in Hl as [_ Hl]. by eapply a_sampled.
  - intros id' i Hl. by apply lookup_delete_Some in Hl as [_ Hl].
Qed.

Lemma not_found_step a id :
  admission_ok a → admission_ok (with_calls a (delete id (calls a))).
Proof using.
  intros Ha. apply (keep_claims a (caches a)); try done; try apply Ha.
  - intros r Hr. by left.
  - intros id' k h sl Hl. apply lookup_delete_Some in Hl as [_ Hl]. by eapply a_sampled.
  - intros id' i' Hl. by apply lookup_delete_Some in Hl as [_ Hl].
Qed.

Lemma admission_update_step a key status :
  admission_ok a →
  admission_ok (with_caches a (with_signatures (caches a) (cache_update (signatures (caches a)) key (Some status)))).
Proof using.
  intros Ha. destruct (a_signatures a Ha) as [Hs Ht].
  destruct (update_queue (signatures (caches a)) key (Some status)) as [Uq Ut].
  apply (keep_claims a (with_signatures (caches a) _) (calls a)); try done; simpl.
  - by apply update_ok.
  - congruence.
  - rewrite Uq. intros r Hr. by left.
  - intros id k h sl Hl. by eapply (a_sampled a Ha).
Qed.

Lemma reserve_step a id key hash slot c :
  admission_ok a → calls a !! id = Some (Sampled key hash slot) → append_reserve (caches a) key slot = (c, true) →
  admission_ok
    {| caches := c; calls := <[id := Reserved (length (claims a))]> (calls a);
       claims := claims a ++ [{| claim_key := key; claim_hash := hash; claim_slot := slot |}];
       admitted := admitted a; seen := seen a |}.
Proof using.
  intros [A1 [A2 A2'] A3 A4 A5 A6 A7 A8 A9 A10 A11] Hid Hr. unfold append_reserve in Hr.
  destruct (cache_push _ _ _ _) as [s f] eqn:Ep. injection Hr as <- ->.
  destruct (reserve_push _ _ _ _ _ _ A2 Ep) as (P1 & P2 & P3 & P4). destruct (P4 eq_refl) as [P5 P6].
  pose proof (A5 _ _ _ _ Hid) as Hle. unfold append_slot in Hle. rewrite A2' in *.
  set (L := latest_slot (caches a)) in *.
  assert (Hnew : ∀ i x, (claims a ++ [{| claim_key := key; claim_hash := hash; claim_slot := slot |}]) !! i = Some x →
    claims a !! i = Some x ∨ i = length (claims a) ∧ x = {| claim_key := key; claim_hash := hash; claim_slot := slot |}).
  { intros i x Hx. apply lookup_app_Some in Hx as [Hx|[Hge Hx]]; [by left|right].
    apply list_lookup_singleton_Some in Hx as [Hi <-]. split; [lia|done]. }
  assert (Hold : ∀ i x, claims a !! i = Some x → claim_key x = key → dead L x).
  { intros i x Hx Hk. destruct (A3 i x Hx) as [|Hin]; [done|].
    pose proof (P6 _ Hin Hk) as He. simpl in He. unfold dead. lia. }
  constructor; simpl; try done.
  - intros i x [Hx|[-> ->]]%Hnew; [|by right].
    destruct (A3 i x Hx) as [|Hin]; [by left|]. destruct (P3 _ Hin) as [|He]; [by right|left].
    simpl in He. unfold dead. change (latest_slot _) with L. lia.
  - intros i j x y [Hx|[-> ->]]%Hnew [Hy|[-> ->]]%Hnew Hne Hk; simpl in Hk.
    + by eapply A4.
    + left. by eapply Hold.
    + right. by eapply Hold.
    + done.
  - intros id' k h sl Hl. destruct (decide (id' = id)) as [->|Hne']; [by rewrite lookup_insert_eq in Hl|].
    rewrite lookup_insert_ne in Hl by done. by eapply A5.
  - intros id' i Hl. destruct (decide (id' = id)) as [->|Hne'].
    + rewrite lookup_insert_eq in Hl. injection Hl as <-. split; [rewrite lookup_app_r, Nat.sub_diag by lia; by eexists|].
      intros Hin. destruct (A9 _ Hin) as (x & Hx & _). apply lookup_lt_Some in Hx. lia.
    + rewrite lookup_insert_ne in Hl by done. destruct (A6 _ _ Hl) as [[x Hx] Hin]. split; [|done].
      exists x. by apply lookup_app_l_Some.
  - intros id1 id2 i H1 H2.
    assert (Hlt : ∀ id', calls a !! id' = Some (Reserved (length (claims a))) → False).
    { intros id' Hl. destruct (A6 _ _ Hl) as [[x Hx] _]. apply lookup_lt_Some in Hx. lia. }
    destruct (decide (id1 = id)) as [->|Hn1], (decide (id2 = id)) as [->|Hn2]; [done|..].
    + rewrite lookup_insert_eq in H1. rewrite lookup_insert_ne in H2 by done. injection H1 as <-. by destruct (Hlt id2).
    + rewrite lookup_insert_eq in H2. rewrite lookup_insert_ne in H1 by done. injection H2 as <-. by destruct (Hlt id1).
    + rewrite lookup_insert_ne in H1, H2 by done. by eapply A7.
  - intros i Hi. destruct (A9 i Hi) as (x & Hx & H1 & H2). exists x. split; [by apply lookup_app_l_Some|done].
  - intros i j x y Hi Hj Hne Hx Hy.
    destruct (A9 i Hi) as (x' & Hx' & _). destruct (A9 j Hj) as (y' & Hy' & _).
    rewrite (lookup_app_l_Some _ _ _ _ Hx') in Hx. rewrite (lookup_app_l_Some _ _ _ _ Hy') in Hy.
    injection Hx as <-. injection Hy as <-. exact (A11 i j x' y' Hi Hj Hne Hx' Hy').
Qed.

(** A valid hash has a record that has not expired. *)
Lemma valid_record (c : Caches Status) hash :
  cache_ok (blocks_history (blocks c)) → is_valid c hash = true →
  ∃ r, r ∈ cache_queue (blocks_history (blocks c)) ∧ record_key r = hash.
Proof using.
  intros [_ Hk] Hv. unfold is_valid, cache_contains in Hv. apply bool_decide_eq_true in Hv.
  apply Hk, list_elem_of_fmap in Hv as (r & -> & Hr). by exists r.
Qed.

Lemma admit_step a id i x :
  admission_ok a → calls a !! id = Some (Reserved i) → claims a !! i = Some x →
  is_valid (caches a) (claim_hash x) = true → append_slot (caches a) ≤ claim_slot x + lag →
  admission_ok
    {| caches := caches a; calls := delete id (calls a); claims := claims a; admitted := admitted a ++ [i];
       seen := seen a |}.
Proof using Hblock Httl.
  intros [[H1 H2 H3 H4] [A2 A2'] A3 A4 A5 A6 A7 A8 A9 A10 A11] Hid Hx Hv Hs. unfold append_slot in Hs.
  set (L := latest_slot (caches a)) in *. destruct (A6 id i Hid) as [_ Hni].
  destruct (valid_record _ _ H1 Hv) as (r & Hr & Hk). rewrite list.Forall_forall in H4.
  assert (Hin : ∀ j, j ∈ admitted a ++ [i] → j ∈ admitted a ∨ j = i).
  { intros j Hj. apply elem_of_app in Hj as [|Hj%list_elem_of_singleton]; auto. }
  (* the same transaction cannot have been admitted before *)
  assert (Hfresh : ∀ j y, j ∈ admitted a → claims a !! j = Some y → (claim_key x, claim_hash x) ≠ (claim_key y, claim_hash y)).
  { intros j y Hj Hy [= Ek Eh]. assert (Hne : i ≠ j) by (intros ->; done).
    destruct (A9 j Hj) as (y' & Hy' & _ & Hb). assert (y' = y) as -> by congruence.
    specialize (Hb r Hr ltac:(congruence)). specialize (H4 r Hr). simpl in H4.
    destruct (A4 i j x y Hx Hy Hne Ek) as [Hd|Hd]; unfold dead in Hd; lia. }
  constructor; simpl; try done.
  - constructor; [done..|]. by rewrite list.Forall_forall.
  - intros id' k h sl Hl. apply lookup_delete_Some in Hl as [_ Hl]. by eapply A5.
  - intros id' j Hl. apply lookup_delete_Some in Hl as [Hne Hl]. destruct (A6 _ _ Hl) as [Hj Hnj]. split; [done|].
    intros [Hj'| ->]%Hin; [done|]. by apply Hne, (A7 id id' i).
  - intros id1 id2 j Hl1 Hl2. apply lookup_delete_Some in Hl1 as [_ Hl1]. apply lookup_delete_Some in Hl2 as [_ Hl2].
    by eapply A7.
  - apply list.NoDup_app. split_and!; [done| |by apply NoDup_singleton].
    intros j Hj Hj'. apply list_elem_of_singleton in Hj' as ->. done.
  - intros j [Hj| ->]%Hin; [by apply A9|]. exists x. split_and!; [done|rewrite <- Hk; by apply A10|].
    intros r' Hr' _. specialize (H4 r' Hr'). simpl in H4. lia.
  - intros j j' y y' Hj Hj' Hne Hy Hy'. apply Hin in Hj as [Hj| ->]; apply Hin in Hj' as [Hj'| ->].
    + exact (A11 j j' y y' Hj Hj' Hne Hy Hy').
    + intros E. assert (y' = x) as -> by congruence. by eapply Hfresh.
    + assert (y = x) as -> by congruence. by eapply Hfresh.
    + done.
Qed.

Lemma block_step a b :
  admission_ok a → block_slot b = append_slot (caches a) → block_hash b ∉ seen a →
  admission_ok
    {| caches := with_block (caches a) b; calls := calls a; claims := claims a; admitted := admitted a;
       seen := block_hash b :: seen a |}.
Proof using Hblock Httl.
  intros [A1 [A2 A2'] A3 A4 A5 A6 A7 A8 A9 A10 A11] Hb Hns. unfold append_slot in Hb.
  destruct (history_push _ _ b A1 Hb) as [Hh Hsub].
  { intros r Hr E. apply Hns. rewrite <- E. by apply A10. }
  assert (El : latest_slot (with_block (caches a) b) = latest_slot (caches a) + 1) by done.
  assert (Hdead : ∀ x, dead (latest_slot (caches a)) x → dead (latest_slot (caches a) + 1) x)
    by (intros x; unfold dead; lia).
  constructor; simpl; rewrite ?El; try done.
  - intros i x Hx. destruct (A3 i x Hx); [left; auto|by right].
  - intros i j x y Hx Hy Hne Hk. destruct (A4 i j x y Hx Hy Hne Hk); [left|right]; auto.
  - intros id k h sl Hl. specialize (A5 _ _ _ _ Hl). unfold append_slot in *. rewrite El. lia.
  - intros i Hi. destruct (A9 i Hi) as (x & Hx & Hseen & Hbound). exists x. split_and!; [done|by right|].
    intros r [Hr| ->]%Hsub Hk; [by apply Hbound|]. simpl in Hk. by rewrite Hk in Hns.
  - intros r [Hr| ->]%Hsub; [right; by apply A10|by left].
Qed.

Lemma step_keeps a a' : admission_step lag a a' → admission_ok a → admission_ok a'.
Proof using Hblock Httl.
  intros [] Ha.
  - by apply sample_step.
  - by eapply reserve_step.
  - by eapply already_step.
  - by eapply admit_step.
  - by apply not_found_step.
  - by apply block_step.
  - by apply admission_update_step.
Qed.

Lemma new_ok {V} ttl : cache_ok (cache_new (K := SignaturePrefix) (V := V) ttl).
Proof using.
  split; [constructor|]. intros k. simpl. rewrite lookup_empty. split; [by intros [? ?]|by intros ?%elem_of_nil].
Qed.

Lemma start_ok latest : admission_ok (admission_start latest block_ttl signature_ttl).
Proof using Hblock.
  assert (Eq : cache_queue (blocks_history (blocks (leader_caches (Status := Status) latest block_ttl signature_ttl)))
    = [{| record_key := block_hash latest; expires := block_slot latest + block_ttl |}]) by reflexivity.
  constructor; try rewrite Eq; simpl; try done.
  - constructor; try rewrite Eq; [by apply cache_push_ok, new_ok|reflexivity|by apply SSorted_cons; [apply SSorted_nil|]|apply Forall_singleton; change (latest_slot _) with (block_slot latest); simpl; lia].
  - split; [apply new_ok|done].
  - constructor.
  - intros i Hi. by apply elem_of_nil in Hi.
  - intros r Hr. apply list_elem_of_singleton in Hr as ->. by left.
Qed.

End invariant.
End admission.
Arguments Admission Status : clear implicits.

(** The transactions admitted so far. *)
Definition admitted_transactions {Status} (a : Admission Status) : list (SignaturePrefix * SolanaHash) :=
  omap (λ i, (λ x, (claim_key x, claim_hash x)) <$> claims a !! i) (admitted a).

(** C14. No transaction is admitted twice. However calls of [append] interleave with each other,
    with new blocks and with commits, the admitted transactions, by signature prefix and block
    hash, are distinct, as long as a signature is remembered for longer than a block hash is
    accepted: by as many slots as a call may lag behind between reading the slot and checking
    the hash. *)
Theorem no_double_admission {Status} block_ttl signature_ttl lag latest (a : Admission Status) :
  1 ≤ block_ttl → 0 ≤ lag → block_ttl + lag ≤ signature_ttl →
  rtc (admission_step lag) (admission_start latest block_ttl signature_ttl) a →
  NoDup (admitted_transactions a).
Proof.
  intros Hb Hl Ht Hr.
  assert (Ha : admission_ok block_ttl signature_ttl lag a).
  { remember (admission_start latest block_ttl signature_ttl) as a0 eqn:E.
    assert (H0 : admission_ok block_ttl signature_ttl lag a0) by (subst; by apply start_ok). clear E.
    induction Hr; [done|]. apply IHHr. by eapply step_keeps. }
  unfold admitted_transactions. apply NoDup_omap_pairs; [by apply (a_admitted _ _ _ a Ha)|].
  intros i j p Hi Hj Ep Eq. destruct (claims a !! i) as [x|] eqn:Ex; [|done]. destruct (claims a !! j) as [y|] eqn:Ey; [|done].
  simpl in *. destruct (decide (i = j)) as [|Hne]; [done|]. exfalso.
  apply (a_distinct _ _ _ a Ha i j x y Hi Hj Hne Ex Ey). congruence.
Qed.

Definition example_latest : Block :=
  {| block_slot := 5; block_hash := [1]; block_time := 0; block_parent := [] |}.
Abbreviation example_admission := (admission_start (Status := unit) example_latest 60 75).

(** One transaction is submitted twice; the first call is admitted, the second refused. *)
Lemma no_double_admission_witness :
  ∃ a, rtc (admission_step 15) example_admission a ∧ admitted_transactions a = [([7], [1])] ∧
    NoDup (admitted_transactions a).
Proof.
  assert (H : ∃ a, rtc (admission_step 15) example_admission a ∧ admitted_transactions a = [([7], [1])]).
  { eexists. split.
    eapply rtc_l; [apply (step_sample 15 _ 0 [7] [1]); reflexivity|].
    eapply rtc_l; [apply (step_sample 15 _ 1 [7] [1]); reflexivity|].
    eapply rtc_l; [eapply (step_reserve 15 _ 0); reflexivity|].
    eapply rtc_l; [eapply (step_already_processed 15 _ 1); reflexivity|].
    eapply rtc_l; [eapply (step_admit 15 _ 0); [reflexivity|reflexivity|reflexivity|vm_compute; discriminate]|].
    apply rtc_refl. reflexivity. }
  destruct H as (a & Hr & Ha). exists a. split; [exact Hr|]. split; [exact Ha|].
  apply (no_double_admission 60 75 15 example_latest); [lia|lia|lia|exact Hr].
Defined.
