(* ===== verification/KeeperSubs.v ===== *)
(** * Subscriptions of the keeper ([keeper/src/subscriptions.rs])

    Receivers are registered under keys. A multicast stream has a bounded queue per receiver and
    disconnects the receiver that falls behind; a unicast stream has one unbounded receiver for
    the life of the process; the waiters of a signature each get its status once. *)

From stdpp Require Import base list gmap numbers option.
From S2P Require Import Prelude.

Local Open Scope Z_scope.

(** ** Receivers by key *)

(** A sender is the number of its channel. The count of keys is a [usize]; the entries it counts
    are in memory, so that it does not wrap. *)
Record Subscribers (K : Type) `{Countable K} := { entries : gmap K (list nat); keys : Z }.
Arguments entries {_ _ _} _.
Arguments keys {_ _ _} _.

Section subscribers.
Context {K : Type} `{Countable K}.

Definition subscribers_new : Subscribers K := {| entries := ∅; keys := 0 |}.
Definition is_empty (s : Subscribers K) : bool := keys s =? 0.

Definition subs_insert (s : Subscribers K) (k : K) (sender : nat) : Subscribers K :=
  let entry := default [] (entries s !! k) in
  {| entries := <[k := entry ++ [sender]]> (entries s);
     keys := if bool_decide (entry = []) then keys s + 1 else keys s |}.

(** [Vec::retain] with a test that may send to the channels [c]. *)
Fixpoint senders_retain {C} (keep : nat → C → bool * C) (senders : list nat) (c : C) : list nat * C :=
  match senders with
  | [] => ([], c)
  | x :: rest =>
      let '(b, c) := keep x c in
      let '(kept, c) := senders_retain keep rest c in
      (if b then x :: kept else kept, c)
  end.

(** Prunes the senders of [k] under its lock; the entry without senders goes with it. *)
Definition prune {C} (s : Subscribers K) (k : K) (keep : nat → C → bool * C) (c : C) : Subscribers K * C :=
  match entries s !! k with
  | None => (s, c)
  | Some senders =>
      let '(senders, c) := senders_retain keep senders c in
      (if bool_decide (senders = []) then {| entries := delete k (entries s); keys := keys s - 1 |}
       else {| entries := <[k := senders]> (entries s); keys := keys s |}, c)
  end.

Definition subs_retain {C} (s : Subscribers K) (k : K) (keep : nat → C → bool * C) (c : C) : Subscribers K * C :=
  if is_empty s then (s, c) else prune s k keep c.

(** The test of a cleanup only reads; one entry after the other is pruned. *)
Definition subs_cleanup (s : Subscribers K) (keep : nat → bool) : Subscribers K :=
  if is_empty s then s
  else foldl (λ s k, (prune s k (λ x c, (keep x, c)) ()).1) s (map_to_list (entries s)).*1.

Definition subs_remove (s : Subscribers K) (k : K) : Subscribers K * option (list nat) :=
  if is_empty s then (s, None)
  else match entries s !! k with
       | None => (s, None)
       | Some senders => ({| entries := delete k (entries s); keys := keys s - 1 |}, Some senders)
       end.

(** Every key has a sender, a sender is registered once, and the count is exact. *)
Record subs_ok (s : Subscribers K) (n : nat) : Prop := {
  so_keys : keys s = Z.of_nat (size (entries s));
  so_entry : ∀ k l, entries s !! k = Some l → l ≠ [] ∧ NoDup l ∧ ∀ x, x ∈ l → (x < n)%nat;
  so_apart : ∀ k k' l l' x, entries s !! k = Some l → entries s !! k' = Some l' → x ∈ l → x ∈ l' → k = k';
}.

Definition registered (s : Subscribers K) (k : K) (x : nat) : Prop := x ∈ default [] (entries s !! k).

#[export] Instance registered_dec s k x : Decision (registered s k x).
Proof. unfold registered; apply _. Defined.

Lemma registered_some s k x : registered s k x ↔ ∃ l, entries s !! k = Some l ∧ x ∈ l.
Proof.
  unfold registered. destruct (entries s !! k) as [l|]; simpl; [|set_solver].
  split; [by exists l|]. by intros (l' & [= ->] & ?).
Qed.

Lemma registered_below s n k x : subs_ok s n → registered s k x → (x < n)%nat.
Proof. intros Hs (l & Hl & Hx)%registered_some. by apply (so_entry s n Hs k l). Qed.

(** No key is hidden when the count is zero. *)
Lemma is_empty_exact s n : subs_ok s n → is_empty s = true ↔ entries s = ∅.
Proof.
  intros [Hk _ _]. unfold is_empty. rewrite Hk, Z.eqb_eq. rewrite <- map_size_empty_iff. lia.
Qed.

Lemma subs_insert_ok s n k : subs_ok s n → subs_ok (subs_insert s k n) (S n).
Proof.
  intros Hs. pose proof Hs as [Hk He Ha]. constructor; simpl.
  - destruct (entries s !! k) as [l|] eqn:El; simpl.
    + destruct (He k l El) as [Hl _]. destruct l as [|y l]; [done|].
      rewrite map_size_insert_Some by by exists (y :: l). done.
    + rewrite map_size_insert_None by done. lia.
  - intros k' l. destruct (decide (k' = k)) as [->|Hne].
    + rewrite lookup_insert_eq. intros [= <-]. destruct (entries s !! k) as [l|] eqn:El; simpl.
      * destruct (He k l El) as (? & ? & Hlt). split_and!; [by destruct l|..].
        -- apply list.NoDup_app. split_and!; [done| |by apply NoDup_singleton].
           intros x Hx ->%list_elem_of_singleton. by apply Hlt in Hx; lia.
        -- intros x [Hx| ->%list_elem_of_singleton]%elem_of_app; [apply Hlt in Hx|]; lia.
      * split_and!; [done|by apply NoDup_singleton|]. intros x ->%list_elem_of_singleton. lia.
    + rewrite lookup_insert_ne by done. intros Hl. destruct (He k' l Hl) as (? & ? & Hlt). split_and!; try done.
      intros x Hx%Hlt. lia.
  - assert (Hin : ∀ k' l x, <[k := default [] (entries s !! k) ++ [n]]> (entries s) !! k' = Some l → x ∈ l →
      registered s k' x ∨ (x = n ∧ k' = k)).
    { intros k' l x Hl Hx. destruct (decide (k' = k)) as [->|Hne].
      - rewrite lookup_insert_eq in Hl. injection Hl as <-. apply elem_of_app in Hx as [Hx| ->%list_elem_of_singleton]; auto.
      - rewrite lookup_insert_ne in Hl by done. left. apply registered_some. eauto. }
    intros k1 k2 l1 l2 x H1 H2 Hx1 Hx2.
    destruct (Hin _ _ _ H1 Hx1) as [R1|[-> ->]], (Hin _ _ _ H2 Hx2) as [R2|[E ->]]; try done.
    + apply registered_some in R1 as (? & ? & ?). apply registered_some in R2 as (? & ? & ?). by eapply Ha.
    + subst. apply (registered_below _ _ _ _ Hs) in R1. lia.
    + apply (registered_below _ _ _ _ Hs) in R2. lia.
Qed.

Lemma prune_ok {C} s n k (keep : nat → C → bool * C) c :
  subs_ok s n → (∀ l c, (senders_retain keep l c).1 `sublist_of` l) → subs_ok (prune s k keep c).1 n.
Proof.
  intros Hs Hsub. pose proof Hs as [Hk He Ha]. unfold prune. destruct (entries s !! k) as [l|] eqn:El; [|done].
  specialize (Hsub l c). destruct (senders_retain keep l c) as [l' c']; simpl in *.
  destruct (He k l El) as (_ & Hnd & Hlt). case_bool_decide as Hnil; simpl.
  - constructor; simpl.
    + rewrite map_size_delete_Some by by exists l. rewrite Hk.
      assert (size (entries s) ≠ 0%nat) by (rewrite map_size_ne_0_lookup; naive_solver). lia.
    + intros k' l0 [Hne Hl]%lookup_delete_Some. by eapply He.
    + intros k1 k2 l1 l2 x [_ H1]%lookup_delete_Some [_ H2]%lookup_delete_Some. by eapply Ha.
  - assert (Hold : ∀ k' l0, <[k:=l']> (entries s) !! k' = Some l0 → ∃ l1, entries s !! k' = Some l1 ∧ ∀ x, x ∈ l0 → x ∈ l1).
    { intros k' l0 [[<- <-]|[Hne Hl]]%lookup_insert_Some; [|by exists l0]. exists l. split; [done|].
      intros x Hx. by eapply elem_of_sublist. }
    constructor; simpl.
    + rewrite map_size_insert_Some by by exists l. done.
    + intros k' l0 Hl. destruct (decide (k' = k)) as [->|Hne].
      * rewrite lookup_insert_eq in Hl. injection Hl as <-. split_and!; [done|by eapply sublist_NoDup|].
        intros x Hx. by eapply Hlt, elem_of_sublist.
      * rewrite lookup_insert_ne in Hl by done. by eapply He.
    + intros k1 k2 l1 l2 x H1 H2 Hx1 Hx2. destruct (Hold _ _ H1) as (m1 & ? & ?), (Hold _ _ H2) as (m2 & ? & ?).
      eapply Ha; eauto.
Qed.

(** *** A cleanup keeps the senders that pass the test *)

Lemma retain_read (keep : nat → bool) l : (senders_retain (λ x c, (keep x, c)) l ()).1 = filter (λ x, keep x) l.
Proof.
  induction l as [|x l IH]; [done|]. rewrite filter_cons. simpl.
  destruct (senders_retain (λ x c, (keep x, c)) l ()) as [l' c]. simpl in *. subst.
  by destruct (keep x).
Qed.

Lemma prune_registered s (keep : nat → bool) k k' x :
  registered (prune s k (λ x c, (keep x, c)) ()).1 k' x ↔ registered s k' x ∧ (k' = k → keep x).
Proof.
  unfold prune. destruct (entries s !! k) as [l|] eqn:El; simpl.
  2: { split; [|by intros []]. intros Hx. split; [done|]. intros ->. apply registered_some in Hx as (l & ? & _). congruence. }
  pose proof (retain_read keep l) as Hr. destruct (senders_retain (λ x c, (keep x, c)) l ()) as [l' c]. simpl in *.
  unfold registered. set (s' := if bool_decide (l' = []) then _ else _).
  assert (E : default [] (entries s' !! k') = if decide (k' = k) then l' else default [] (entries s !! k')).
  { unfold s'. case_bool_decide; simpl; case_decide; subst; by simplify_map_eq. }
  rewrite E. clear E s'. case_decide; subst; [|naive_solver]. rewrite El. simpl. rewrite list_elem_of_filter. naive_solver.
Qed.

Lemma prune_read_ok s n (keep : nat → bool) k : subs_ok s n → subs_ok (prune s k (λ x c, (keep x, c)) ()).1 n.
Proof. intros Hs. apply prune_ok; [done|]. intros l []. rewrite retain_read. apply sublist_filter. Qed.

(** The count goes with the key. *)
Lemma prune_count s (keep : nat → bool) k :
  let s' := (prune s k (λ x c, (keep x, c)) ()).1 in
  keys s' - Z.of_nat (size (entries s')) = keys s - Z.of_nat (size (entries s)) ∧
  ∀ k', entries s' !! k' = Some [] → entries s !! k' = Some [].
Proof.
  simpl. unfold prune. destruct (entries s !! k) as [l|] eqn:El; [|done].
  destruct (senders_retain (λ x c, (keep x, c)) l ()) as [l' c]. case_bool_decide; simpl.
  - rewrite map_size_delete_Some by by exists l. split; [|by intros k' [_ ?]%lookup_delete_Some].
    assert (size (entries s) ≠ 0%nat) by (rewrite map_size_ne_0_lookup; naive_solver). lia.
  - rewrite map_size_insert_Some by by exists l. split; [lia|]. by intros k' [[_ ->]|[_ ?]]%lookup_insert_Some.
Qed.

Lemma subs_cleanup_spec s n (keep : nat → bool) :
  subs_ok s n → subs_ok (subs_cleanup s keep) n ∧
  ∀ k x, registered (subs_cleanup s keep) k x ↔ registered s k x ∧ keep x.
Proof.
  intros Hs. unfold subs_cleanup. destruct (is_empty s) eqn:Ee.
  { apply (is_empty_exact _ _ Hs) in Ee. split; [done|]. intros k x. unfold registered. rewrite Ee, lookup_empty. simpl. set_solver. }
  clear Ee.
  assert (Hfold : ∀ ks s, subs_ok s n →
    subs_ok (foldl (λ s k, (prune s k (λ x c, (keep x, c)) ()).1) s ks) n ∧
    ∀ k x, registered (foldl (λ s k, (prune s k (λ x c, (keep x, c)) ()).1) s ks) k x ↔
      registered s k x ∧ (k ∈ ks → keep x)).
  { clear s Hs. induction ks as [|k0 ks IH]; intros s Hs; simpl; [split; [done|set_solver]|].
    destruct (IH _ (prune_read_ok s n keep k0 Hs)) as [I1 I2]. split; [done|].
    intros k x. rewrite I2, prune_registered. set_solver. }
  destruct (Hfold (map_to_list (entries s)).*1 s Hs) as [F1 F2]. split; [done|].
  intros k x. rewrite F2. split; [|naive_solver]. intros [Hx Hk]. split; [done|]. apply Hk.
  apply registered_some in Hx as (l & Hl & _). apply list_elem_of_fmap. exists (k, l). split; [done|]. by apply elem_of_map_to_list.
Qed.

End subscribers.

(** ** Multicast *)

(** A queue of [tokio::sync::mpsc]: what is queued, what its receiver took, and whether the
    receiver is gone. *)
Record Channel (V : Type) := { queued : list V; taken : list V; closed : bool }.
Arguments queued {_} _.
Arguments taken {_} _.
Arguments closed {_} _.

Record Multicast (K V : Type) `{Countable K} := {
  senders : Subscribers K;
  capacity : nat;
  channels : list (Channel V);
}.
Arguments senders {_ _ _ _} _.
Arguments capacity {_ _ _ _} _.
Arguments channels {_ _ _ _} _.

Section multicast.
Context {K V : Type} `{Countable K}.

Definition channel_new : Channel V := {| queued := []; taken := []; closed := false |}.
Definition enqueue (v : V) (c : Channel V) : Channel V :=
  {| queued := queued c ++ [v]; taken := taken c; closed := closed c |}.

(** [try_send] to an open channel with room; the test before it is [is_closed]. *)
Definition accepts (cap : nat) (c : Channel V) : bool := negb (closed c) && (length (queued c) <? cap)%nat.
Definition try_send (cap : nat) (v : V) (x : nat) (cs : list (Channel V)) : bool * list (Channel V) :=
  match cs !! x with
  | None => (false, cs)
  | Some c => if accepts cap c then (true, <[x := enqueue v c]> cs) else (false, cs)
  end.

Definition multicast_new (cap : nat) : Multicast K V :=
  {| senders := subscribers_new; capacity := cap; channels := [] |}.
(** The receiver is the channel that the call appends. *)
Definition multicast_subscribe (m : Multicast K V) (k : K) : Multicast K V :=
  {| senders := subs_insert (senders m) k (length (channels m)); capacity := capacity m;
     channels := channels m ++ [channel_new] |}.
Definition send_with (m : Multicast K V) (k : K) (v : V) : Multicast K V :=
  let '(s, cs) := subs_retain (senders m) k (try_send (capacity m) v) (channels m) in
  {| senders := s; capacity := capacity m; channels := cs |}.
Definition is_open (cs : list (Channel V)) (x : nat) : bool :=
  match cs !! x with Some c => negb (closed c) | None => false end.
Definition multicast_cleanup (m : Multicast K V) : Multicast K V :=
  {| senders := subs_cleanup (senders m) (is_open (channels m)); capacity := capacity m; channels := channels m |}.

(** What the owner of a receiver does: take the oldest message, or go away. *)
Definition recv (m : Multicast K V) (x : nat) : Multicast K V :=
  {| senders := senders m; capacity := capacity m;
     channels := alter (λ c, match queued c with
                             | [] => c
                             | v :: q => {| queued := q; taken := taken c ++ [v]; closed := closed c |}
                             end) x (channels m) |}.
Definition close (m : Multicast K V) (x : nat) : Multicast K V :=
  {| senders := senders m; capacity := capacity m;
     channels := alter (λ c, {| queued := queued c; taken := taken c; closed := true |}) x (channels m) |}.

Inductive MulticastOp := MSubscribe (k : K) | MSend (k : K) (v : V) | MRecv (x : nat) | MClose (x : nat) | MCleanup.

Definition multicast_op (m : Multicast K V) (o : MulticastOp) : Multicast K V :=
  match o with
  | MSubscribe k => multicast_subscribe m k
  | MSend k v => send_with m k v
  | MRecv x => recv m x
  | MClose x => close m x
  | MCleanup => multicast_cleanup m
  end.
Definition multicast_run : Multicast K V → list MulticastOp → Multicast K V := foldl multicast_op.

(** Everything sent under a key. *)
Definition sent_to (k : K) (ops : list MulticastOp) : list V :=
  omap (λ o, match o with MSend k' v => if decide (k' = k) then Some v else None | _ => None end) ops.
Definition delivered (c : Channel V) : list V := taken c ++ queued c.

(** *** The invariant *)

Definition multicast_ok (m : Multicast K V) : Prop :=
  subs_ok (senders m) (length (channels m)) ∧
  ∀ x c, channels m !! x = Some c → (length (queued c) ≤ capacity m)%nat.

(** What a receiver that subscribed to [k] knows after [sent] was sent there. *)
Definition follows (m : Multicast K V) (k : K) (x : nat) (sent : list V) : Prop :=
  ∃ c, channels m !! x = Some c ∧ delivered c `prefix_of` sent ∧
    (registered (senders m) k x → delivered c = sent) ∧
    (closed c = false → delivered c = sent → registered (senders m) k x) ∧
    (∀ k', registered (senders m) k' x → k' = k).

Lemma retain_sublist {C} (keep : nat → C → bool * C) l c : (senders_retain keep l c).1 `sublist_of` l.
Proof.
  revert c. induction l as [|x l IH]; intros c; simpl; [done|]. destruct (keep x c) as [b c'].
  specialize (IH c'). destruct (senders_retain keep l c') as [l' c'']. simpl in *. destruct b; by constructor.
Qed.

Lemma same_length {A B} (l : list A) (l' : list B) : (∀ i, is_Some (l !! i) ↔ is_Some (l' !! i)) → length l = length l'.
Proof.
  intros Hi. pose proof (Hi (length l)) as H1. pose proof (Hi (length l')) as H2.
  rewrite !lookup_lt_is_Some in H1, H2. lia.
Qed.

Lemma try_send_spec cap v y cs :
  ((try_send cap v y cs).1 = true ↔ ∃ c, cs !! y = Some c ∧ accepts cap c = true) ∧
  ∀ x, (try_send cap v y cs).2 !! x =
    (λ c, if decide (x = y) then if accepts cap c then enqueue v c else c else c) <$> cs !! x.
Proof.
  unfold try_send. destruct (cs !! y) as [c|] eqn:Ec; [destruct (accepts cap c) eqn:Ea|]; simpl;
    (split; [naive_solver|intros x; destruct (decide (x = y)) as [->|Hne]]).
  - rewrite Ec; simpl; rewrite Ea. apply list_lookup_insert_eq. by apply lookup_lt_Some in Ec.
  - rewrite list_lookup_insert_ne by done. by destruct (cs !! x).
  - by rewrite Ec; simpl; rewrite Ea.
  - by destruct (cs !! x).
  - by rewrite Ec.
  - by destruct (cs !! x).
Qed.

(** A send offers the value to each sender once. *)
Lemma retain_send cap v l cs :
  NoDup l →
  (∀ x, x ∈ (senders_retain (try_send cap v) l cs).1 ↔ x ∈ l ∧ ∃ c, cs !! x = Some c ∧ accepts cap c = true) ∧
  ∀ x, (senders_retain (try_send cap v) l cs).2 !! x =
    (λ c, if decide (x ∈ l) then if accepts cap c then enqueue v c else c else c) <$> cs !! x.
Proof.
  revert cs. induction l as [|y l IH]; intros cs Hnd; simpl.
  { split; [set_solver|]. intros x. by destruct (cs !! x). }
  apply list.NoDup_cons in Hnd as [Hy Hnd]. destruct (try_send_spec cap v y cs) as [Hb Hcs].
  destruct (try_send cap v y cs) as [b cs'] eqn:Et. simpl in *.
  destruct (IH cs' Hnd) as [IH1 IH2]. destruct (senders_retain (try_send cap v) l cs') as [l' cs''] eqn:Er. simpl in *.
  assert (Hsame : ∀ x, x ≠ y → cs' !! x = cs !! x).
  { intros x Hne. rewrite Hcs. destruct (cs !! x); simpl; by rewrite ?decide_False. }
  split.
  - intros x. rewrite elem_of_cons. destruct (decide (x = y)) as [->|Hne].
    + destruct b; [rewrite elem_of_cons; naive_solver|]. rewrite IH1. naive_solver.
    + assert (x ∈ (if b then y :: l' else l') ↔ x ∈ l') as -> by (destruct b; set_solver).
      rewrite IH1, Hsame by done. naive_solver.
  - intros x. rewrite IH2. destruct (decide (x = y)) as [->|Hne].
    + rewrite Hcs. destruct (cs !! y); simpl; [|done].
      by rewrite (decide_False (P := y ∈ l)), (decide_True (P := y = y)), (decide_True (P := y ∈ y :: l)) by set_solver.
    + rewrite Hsame by done. destruct (cs !! x); simpl; [|done]. f_equal. by repeat case_decide; set_solver.
Qed.

(** The effect of a send on who stays registered and on the channels. *)
Lemma send_with_spec m k v :
  multicast_ok m →
  (∀ k' x, registered (senders (send_with m k v)) k' x ↔ registered (senders m) k' x ∧
     (k' = k → ∃ c, channels m !! x = Some c ∧ accepts (capacity m) c = true)) ∧
  (∀ x, channels (send_with m k v) !! x =
     (λ c, if decide (registered (senders m) k x) then if accepts (capacity m) c then enqueue v c else c else c)
       <$> channels m !! x).
Proof.
  intros [Hs _].
  assert (Hnone : entries (senders m) !! k = None → ∀ x, ¬ registered (senders m) k x).
  { intros E x (l & El & _)%registered_some. congruence. }
  unfold send_with, subs_retain.
  assert (Hskip : entries (senders m) !! k = None →
    (∀ k' x, registered (senders m) k' x ↔ registered (senders m) k' x ∧
      (k' = k → ∃ c, channels m !! x = Some c ∧ accepts (capacity m) c = true)) ∧
    (∀ x, channels m !! x =
      (λ c, if decide (registered (senders m) k x) then if accepts (capacity m) c then enqueue v c else c else c)
        <$> channels m !! x)).
  { intros E. specialize (Hnone E). split; [naive_solver|]. intros x.
    destruct (channels m !! x); simpl; [|done]. by rewrite decide_False. }
  destruct (is_empty (senders m)) eqn:Ee.
  { apply (is_empty_exact _ _ Hs) in Ee. apply Hskip. by rewrite Ee, lookup_empty. }
  unfold prune. destruct (entries (senders m) !! k) as [l|] eqn:El; simpl; [|by apply Hskip].
  destruct (so_entry _ _ Hs k l El) as (_ & Hnd & _).
  destruct (retain_send (capacity m) v l (channels m) Hnd) as [R1 R2].
  destruct (senders_retain (try_send (capacity m) v) l (channels m)) as [l' cs] eqn:Er; simpl in *.
  assert (Hl : ∀ x, registered (senders m) k x ↔ x ∈ l) by (intros x; unfold registered; by rewrite El).
  split.
  - intros k' x. set (s' := if bool_decide (l' = []) then _ else _).
    assert (E : default [] (entries s' !! k') = if decide (k' = k) then l' else default [] (entries (senders m) !! k')).
    { unfold s'. case_bool_decide; simpl; case_decide; subst; by simplify_map_eq. }
    unfold registered at 1. rewrite E. clear E s'. case_decide; subst; [rewrite R1, Hl|]; naive_solver.
  - intros x. rewrite R2. destruct (channels m !! x); simpl; [|done]. f_equal.
    rewrite (decide_ext (registered (senders m) k x) (x ∈ l)); [done|apply Hl].
Qed.

Lemma send_with_ok m k v : multicast_ok m → multicast_ok (send_with m k v).
Proof.
  intros Hm. destruct (send_with_spec m k v Hm) as [_ Hc]. pose proof Hm as [Hs Hq].
  assert (Hlen : length (channels (send_with m k v)) = length (channels m)).
  { apply same_length. intros i. rewrite Hc. destruct (channels m !! i); naive_solver. }
  split.
  - rewrite Hlen. unfold send_with, subs_retain. destruct (is_empty (senders m)); [done|].
    pose proof (prune_ok (senders m) _ k (try_send (capacity m) v) (channels m) Hs
      (λ l c, retain_sublist (try_send (capacity m) v) l c)) as Hp.
    by destruct (prune (senders m) k (try_send (capacity m) v) (channels m)).
  - assert (capacity (send_with m k v) = capacity m) as -> by (unfold send_with; by destruct (subs_retain _ _ _ _)).
    intros x c'. rewrite Hc. destruct (channels m !! x) as [c|] eqn:Ec; [|done]. simpl. intros [= <-].
    specialize (Hq x c Ec). case_decide; [|done]. destruct (accepts (capacity m) c) eqn:Ea; [|done].
    unfold accepts in Ea. apply andb_true_iff in Ea as [_ Ea%Nat.ltb_lt]. simpl. rewrite length_app. simpl. lia.
Qed.

(** What a receiver does keeps the registrations, its messages and the bound. *)
Lemma alter_ok m (f : Channel V → Channel V) x :
  multicast_ok m → (∀ c, (length (queued (f c)) ≤ length (queued c))%nat) →
  multicast_ok {| senders := senders m; capacity := capacity m; channels := alter f x (channels m) |}.
Proof.
  intros [Hs Hq] Hf. split; simpl; [by rewrite length_alter|].
  intros y c. rewrite list_lookup_alter. case_decide as E; [|apply Hq]. subst.
  destruct (channels m !! y) as [c0|] eqn:Ec; [|done]. intros [= <-]. specialize (Hq y c0 Ec). specialize (Hf c0). lia.
Qed.

Lemma multicast_op_ok m o : multicast_ok m → multicast_ok (multicast_op m o).
Proof.
  intros Hm. destruct o as [k|k v|x|x|]; simpl.
  - destruct Hm as [Hs Hq]. split; simpl.
    + rewrite length_app, Nat.add_1_r. by apply subs_insert_ok.
    + intros x c [Hc|[_ Hc]]%lookup_app_Some; [by eapply Hq|]. apply list_lookup_singleton_Some in Hc as [_ <-]. simpl. lia.
  - by apply send_with_ok.
  - apply alter_ok; [done|]. intros c. destruct (queued c) eqn:E; simpl; rewrite ?E; simpl; lia.
  - by apply alter_ok.
  - destruct Hm as [Hs Hq]. split; [|done]. by apply subs_cleanup_spec.
Qed.

Lemma multicast_run_ok m ops : multicast_ok m → multicast_ok (multicast_run m ops).
Proof. revert m. induction ops as [|o ops IH]; intros m Hm; [done|]. by apply IH, multicast_op_ok. Qed.

Lemma multicast_new_ok cap : multicast_ok (multicast_new cap).
Proof. split; [|done]. constructor; [done|..]; simpl; intros *; by rewrite lookup_empty. Qed.

(** *** What a receiver sees *)

Lemma send_with_follows m k k0 v x sent :
  multicast_ok m → follows m k x sent →
  follows (send_with m k0 v) k x (sent ++ if decide (k0 = k) then [v] else []).
Proof.
  intros Hm (c & Hc & Hpre & Hreg & Hopen & Honly). destruct (send_with_spec m k0 v Hm) as [S1 S2].
  unfold follows. rewrite S2, Hc. simpl. eexists. split; [done|].
  assert (Honly' : ∀ k', registered (senders (send_with m k0 v)) k' x → k' = k) by (intros k' [? _]%S1; auto).
  destruct (decide (k0 = k)) as [->|Hk].
  - destruct (decide (registered (senders m) k x)) as [Hr|Hr].
    + destruct (accepts (capacity m) c) eqn:Ea.
      * unfold delivered in *. simpl. rewrite app_assoc, (Hreg Hr). split_and!; try done.
        intros _ _. apply S1. split; [done|]. naive_solver.
      * split_and!; [by apply prefix_app_r| | |done].
        -- intros [_ Hac]%S1. destruct (Hac eq_refl) as (? & ? & ?). congruence.
        -- intros _ E. rewrite (Hreg Hr) in E. by apply (f_equal length) in E; rewrite length_app in E; simpl in E; lia.
    + split_and!; [by apply prefix_app_r|by intros [? _]%S1| |done].
      intros Hcl E. exfalso. apply prefix_length in Hpre. rewrite E, length_app in Hpre. simpl in Hpre. lia.
  - rewrite app_nil_r. rewrite decide_False by (intros E%Honly; congruence).
    split_and!; [done| | |done].
    + intros [? _]%S1. auto.
    + intros Hcl E. apply S1. split; [auto|]. intros ->. done.
Qed.

Lemma alter_follows m k x sent (f : Channel V → Channel V) y :
  (∀ c, delivered (f c) = delivered c) → (∀ c, closed (f c) = false → closed c = false) →
  follows m k x sent →
  follows {| senders := senders m; capacity := capacity m; channels := alter f y (channels m) |} k x sent.
Proof.
  intros Hd Hcl (c & Hc & Hrest). unfold follows. simpl. rewrite list_lookup_alter. case_decide as E; [|by exists c].
  subst. rewrite Hc. exists (f c). rewrite Hd. naive_solver.
Qed.

Lemma multicast_op_follows m k x o sent :
  multicast_ok m → follows m k x sent → follows (multicast_op m o) k x (sent ++ sent_to k [o]).
Proof.
  intros Hm Hf. destruct o as [k0|k0 v|y|y|]; simpl; rewrite ?app_nil_r.
  - destruct Hf as (c & Hc & Hpre & Hreg & Hopen & Honly). exists c. simpl.
    assert (Hx : (x < length (channels m))%nat) by by eapply lookup_lt_Some.
    rewrite lookup_app_l by done.
    assert (Hsame : ∀ k', registered (subs_insert (senders m) k0 (length (channels m))) k' x ↔ registered (senders m) k' x).
    { intros k'. unfold registered. simpl. destruct (decide (k' = k0)) as [->|]; simplify_map_eq; [|done].
      rewrite elem_of_app, list_elem_of_singleton. naive_solver lia. }
    split_and!; [done|done|..]; intros *; rewrite ?Hsame; auto.
  - pose proof (send_with_follows m k k0 v x sent Hm Hf) as Hsend. unfold sent_to. simpl.
    by destruct (decide (k0 = k)).
  - apply alter_follows; [| |done].
    + intros c. unfold delivered. destruct (queued c) eqn:E; simpl; [by rewrite E|]. by rewrite <- app_assoc.
    + intros c. by destruct (queued c).
  - apply alter_follows; [|done|done]. done.
  - destruct Hf as (c & Hc & Hpre & Hreg & Hopen & Honly). exists c. simpl.
    destruct Hm as [Hs _]. destruct (subs_cleanup_spec _ _ (is_open (channels m)) Hs) as [_ Hsame].
    split_and!; [done|done|..]; intros *; rewrite ?Hsame; [by intros [? _]; auto| |by intros [? _]; auto].
    intros Hcl E. split; [auto|]. unfold is_open. by rewrite Hc, Hcl.
Qed.

Lemma multicast_run_follows m k x ops sent :
  multicast_ok m → follows m k x sent → follows (multicast_run m ops) k x (sent ++ sent_to k ops).
Proof.
  revert m sent. induction ops as [|o ops IH]; intros m sent Hm Hf; [by rewrite app_nil_r|].
  assert (sent_to k (o :: ops) = sent_to k [o] ++ sent_to k ops) as ->.
  { change (o :: ops) with ([o] ++ ops). unfold sent_to. by rewrite omap_app. }
  rewrite app_assoc. apply (IH (multicast_op m o)); [by apply multicast_op_ok|by apply multicast_op_follows].
Qed.


End multicast.

(** ** Unicast *)

(** The sender is set at most once; its queue has no bound. *)
Record Unicast (V : Type) := { sender : option (Channel V) }.
Arguments sender {_} _.

Section unicast.
Context {V : Type}.
Definition unicast_new : Unicast V := {| sender := None |}.
(** The error is [KeeperError::SubscriptionRegistered]. *)
Definition unicast_subscribe (u : Unicast V) : result unit (Unicast V) :=
  match sender u with Some _ => Err () | None => Ok {| sender := Some channel_new |} end.
Definition open_sender (u : Unicast V) : option (Channel V) :=
  match sender u with Some c => if closed c then None else Some c | None => None end.
Definition unicast_send (u : Unicast V) (v : V) : Unicast V :=
  match open_sender u with Some c => {| sender := Some (enqueue v c) |} | None => u end.
End unicast.

(** ** Waiters of a signature *)

(** Threads run [subscribe_signature] and the end of [commit_execution] concurrently. The
    status of a signature is retained once it was committed; [oneshots] are the receivers, with
    what was sent to them. A call of [Signatures::send] removes the senders and only then
    decrements the count, so that the two steps are apart. *)
Section signatures.
Context {Sig St : Type} `{Countable Sig}.

Inductive SigCall :=
| Registered (s : Sig) (x : nat)
| Publishing (s : Sig) (st : St)
| Removing (s : Sig) (st : St).

Record SigState := {
  waiters : Subscribers Sig;
  retained : gmap Sig St;
  oneshots : gmap nat (Sig * option St);
  dropped : gset nat;
  sig_calls : gmap nat SigCall;
  (** Detached senders whose key is still counted. *)
  detached : gmap nat (St * list nat);
  (** Senders that are to be sent the status. *)
  delivering : gmap nat (St * list nat);
}.

Definition with_waiters (g : SigState) (w : Subscribers Sig) : SigState :=
  {| waiters := w; retained := retained g; oneshots := oneshots g; dropped := dropped g;
     sig_calls := sig_calls g; detached := detached g; delivering := delivering g |}.
Definition with_sig_calls (g : SigState) (c : gmap nat SigCall) : SigState :=
  {| waiters := waiters g; retained := retained g; oneshots := oneshots g; dropped := dropped g;
     sig_calls := c; detached := detached g; delivering := delivering g |}.

Inductive sig_step : SigState → SigState → Prop :=
(** [Signatures::subscribe] under the lock of the signature. *)
| sig_subscribe g id s x :
    sig_calls g !! id = None → oneshots g !! x = None →
    sig_step g {| waiters := subs_insert (waiters g) s x; retained := retained g;
                  oneshots := <[x := (s, None)]> (oneshots g); dropped := dropped g;
                  sig_calls := <[id := Registered s x]> (sig_calls g); detached := detached g; delivering := delivering g |}
(** [subscribe_signature] reads the status: the result is there, or it is not yet. *)
| sig_found g id s x st :
    sig_calls g !! id = Some (Registered s x) → retained g !! s = Some st →
    sig_step g (with_sig_calls g (<[id := Publishing s st]> (sig_calls g)))
| sig_missing g id s x :
    sig_calls g !! id = Some (Registered s x) → retained g !! s = None →
    sig_step g (with_sig_calls g (delete id (sig_calls g)))
(** [commit_execution] caches the status before the fanout. *)
| sig_commit g id s st :
    sig_calls g !! id = None → retained g !! s = None →
    sig_step g {| waiters := waiters g; retained := <[s := st]> (retained g); oneshots := oneshots g; dropped := dropped g;
                  sig_calls := <[id := Publishing s st]> (sig_calls g); detached := detached g; delivering := delivering g |}
(** [Subscribers::remove]: the check of the count, the removal, the decrement. *)
| sig_nobody g id s st :
    sig_calls g !! id = Some (Publishing s st) → is_empty (waiters g) = true →
    sig_step g (with_sig_calls g (delete id (sig_calls g)))
| sig_somebody g id s st :
    sig_calls g !! id = Some (Publishing s st) → is_empty (waiters g) = false →
    sig_step g (with_sig_calls g (<[id := Removing s st]> (sig_calls g)))
| sig_absent g id s st :
    sig_calls g !! id = Some (Removing s st) → entries (waiters g) !! s = None →
    sig_step g (with_sig_calls g (delete id (sig_calls g)))
| sig_detach g id s st l d :
    sig_calls g !! id = Some (Removing s st) → entries (waiters g) !! s = Some l → detached g !! d = None →
    sig_step g {| waiters := {| entries := delete s (entries (waiters g)); keys := keys (waiters g) |};
                  retained := retained g; oneshots := oneshots g; dropped := dropped g;
                  sig_calls := delete id (sig_calls g); detached := <[d := (st, l)]> (detached g); delivering := delivering g |}
| sig_uncount g d st l i :
    detached g !! d = Some (st, l) → delivering g !! i = None →
    sig_step g {| waiters := {| entries := entries (waiters g); keys := keys (waiters g) - 1 |};
                  retained := retained g; oneshots := oneshots g; dropped := dropped g; sig_calls := sig_calls g;
                  detached := delete d (detached g); delivering := <[i := (st, l)]> (delivering g) |}
| sig_deliver g i st x l :
    delivering g !! i = Some (st, x :: l) →
    sig_step g {| waiters := waiters g; retained := retained g;
                  oneshots := alter (λ o, (o.1, Some st)) x (oneshots g); dropped := dropped g; sig_calls := sig_calls g;
                  detached := detached g; delivering := <[i := (st, l)]> (delivering g) |}
| sig_delivered g i st :
    delivering g !! i = Some (st, []) →
    sig_step g {| waiters := waiters g; retained := retained g; oneshots := oneshots g; dropped := dropped g;
                  sig_calls := sig_calls g; detached := detached g; delivering := delete i (delivering g) |}
(** A receiver goes away; a cleanup prunes its sender. *)
| sig_drop g x :
    sig_step g {| waiters := waiters g; retained := retained g; oneshots := oneshots g; dropped := {[x]} ∪ dropped g;
                  sig_calls := sig_calls g; detached := detached g; delivering := delivering g |}
| sig_cleanup g s :
    sig_step g (with_waiters g (prune (waiters g) s (λ x c, (bool_decide (x ∉ dropped g), c)) ()).1).

Definition sig_start (r : gmap Sig St) : SigState :=
  {| waiters := subscribers_new; retained := r; oneshots := ∅; dropped := ∅; sig_calls := ∅; detached := ∅; delivering := ∅ |}.

(** Someone is on the way to publish the status of [s] to [x]. *)
Definition publisher (g : SigState) (s : Sig) (st : St) (x : nat) : Prop :=
  ∃ id, sig_calls g !! id = Some (Registered s x) ∨ sig_calls g !! id = Some (Publishing s st) ∨
        sig_calls g !! id = Some (Removing s st).

Definition in_flight (g : SigState) (s : Sig) (x : nat) : Prop :=
  ∃ i st l, (detached g !! i = Some (st, l) ∨ delivering g !! i = Some (st, l)) ∧ x ∈ l ∧ retained g !! s = Some st.

Record sig_ok (g : SigState) : Prop := {
  g_count : keys (waiters g) = Z.of_nat (size (entries (waiters g)) + size (detached g));
  g_nonempty : ∀ s, entries (waiters g) !! s ≠ Some [];
  g_calls : ∀ id s st, sig_calls g !! id = Some (Publishing s st) ∨ sig_calls g !! id = Some (Removing s st) →
    retained g !! s = Some st;
  g_waiting : ∀ x s, oneshots g !! x = Some (s, None) → x ∈ dropped g ∨ registered (waiters g) s x ∨ in_flight g s x;
  g_registered : ∀ x s, registered (waiters g) s x → ∃ r, oneshots g !! x = Some (s, r);
  g_flight : ∀ i st l x, detached g !! i = Some (st, l) ∨ delivering g !! i = Some (st, l) → x ∈ l →
    ∃ s r, oneshots g !! x = Some (s, r) ∧ retained g !! s = Some st;
  g_status : ∀ x s st, oneshots g !! x = Some (s, Some st) → retained g !! s = Some st;
  g_publish : ∀ s st x, retained g !! s = Some st → registered (waiters g) s x → publisher g s st x;
}.

(** A step of a call that is not on the way to [s] leaves its publisher. *)
Lemma publisher_keep g g' s st x :
  publisher g s st x →
  (∀ id c, sig_calls g !! id = Some c → (c = Registered s x ∨ c = Publishing s st ∨ c = Removing s st) →
    ∃ id' c', sig_calls g' !! id' = Some c' ∧ (c' = Registered s x ∨ c' = Publishing s st ∨ c' = Removing s st)) →
  publisher g' s st x.
Proof.
  intros (id & Hid) Hkeep. assert (Hex : ∃ id' c', sig_calls g' !! id' = Some c' ∧
    (c' = Registered s x ∨ c' = Publishing s st ∨ c' = Removing s st)) by (destruct Hid as [E|[E|E]]; eapply Hkeep; eauto).
  destruct Hex as (id' & c' & E & Hc'). exists id'. destruct Hc' as [->|[->| ->]]; auto.
Qed.

(** Replacing the call [id] by [new] leaves the publishers, unless [id] was one. *)
Lemma publisher_step g c0 new id s st x :
  publisher g s st x → sig_calls g !! id = Some c0 →
  ((c0 = Registered s x ∨ c0 = Publishing s st ∨ c0 = Removing s st) →
    ∃ c, new = Some c ∧ (c = Registered s x ∨ c = Publishing s st ∨ c = Removing s st)) →
  publisher (with_sig_calls g (partial_alter (λ _, new) id (sig_calls g))) s st x.
Proof.
  intros Hp Hid Hnew. eapply publisher_keep; [done|]. simpl. intros id' c Hc Hcase.
  destruct (decide (id' = id)) as [->|Hne].
  - assert (c = c0) as -> by congruence. destruct (Hnew Hcase) as (c & -> & ?). exists id, c. by rewrite lookup_partial_alter_eq.
  - exists id', c. by rewrite lookup_partial_alter_ne.
Qed.

(** Steps that only replace the call [id]. *)
Lemma sig_call_ok g id c0 new :
  sig_ok g → sig_calls g !! id = Some c0 →
  (∀ s st, new = Some (Publishing s st) ∨ new = Some (Removing s st) → retained g !! s = Some st) →
  (∀ s st x, retained g !! s = Some st → registered (waiters g) s x →
    (c0 = Registered s x ∨ c0 = Publishing s st ∨ c0 = Removing s st) →
    ∃ c, new = Some c ∧ (c = Registered s x ∨ c = Publishing s st ∨ c = Removing s st)) →
  sig_ok (with_sig_calls g (partial_alter (λ _, new) id (sig_calls g))).
Proof.
  intros [] Hid Hret Hpub. constructor; try done; simpl.
  - intros id' s st. destruct (decide (id' = id)) as [->|Hne]; [rewrite lookup_partial_alter_eq; apply Hret|].
    rewrite lookup_partial_alter_ne by done. eauto.
  - intros s st x Hs Hr. eapply publisher_step; eauto.
Qed.

Lemma registered_insert (w : Subscribers Sig) s x s' y :
  registered (subs_insert w s x) s' y ↔ registered w s' y ∨ (s' = s ∧ y = x).
Proof.
  unfold registered. simpl. destruct (decide (s' = s)) as [->|Hne].
  - rewrite lookup_insert_eq. simpl. rewrite elem_of_app, list_elem_of_singleton. naive_solver.
  - rewrite lookup_insert_ne by done. naive_solver.
Qed.

Lemma sig_subscribe_ok g id s x :
  sig_ok g → sig_calls g !! id = None → oneshots g !! x = None →
  sig_ok {| waiters := subs_insert (waiters g) s x; retained := retained g;
            oneshots := <[x := (s, None)]> (oneshots g); dropped := dropped g;
            sig_calls := <[id := Registered s x]> (sig_calls g); detached := detached g; delivering := delivering g |}.
Proof.
  intros [Gc Gn Gca Gw Gr Gf Gs Gp] Hid Hx.
  assert (Hkeep : ∀ y o, oneshots g !! y = Some o → <[x := (s, None)]> (oneshots g) !! y = Some o).
  { intros y o Hy. by rewrite lookup_insert_ne by congruence. }
  constructor; simpl.
  - destruct (entries (waiters g) !! s) as [l|] eqn:El; simpl.
    + destruct l as [|y l]; [by destruct (Gn s)|]. rewrite map_size_insert_Some by by eexists. done.
    + rewrite map_size_insert_None by done. lia.
  - intros s' E. destruct (decide (s' = s)) as [->|Hne].
    + rewrite lookup_insert_eq in E. injection E as E. by destruct (default [] (entries (waiters g) !! s)).
    + rewrite lookup_insert_ne in E by done. by apply Gn in E.
  - intros id' s' st Hc. apply (Gca id'). destruct (decide (id' = id)) as [->|Hne].
    + rewrite lookup_insert_eq in Hc. naive_solver.
    + by rewrite lookup_insert_ne in Hc.
  - intros y s' Hy. destruct (decide (y = x)) as [->|Hne].
    + rewrite lookup_insert_eq in Hy. injection Hy as <-. right; left. apply registered_insert. auto.
    + rewrite lookup_insert_ne in Hy by done. destruct (Gw y s' Hy) as [?|[?|?]]; [by left|right; left|by right; right].
      apply registered_insert. auto.
  - intros y s' [Hy|[-> ->]]%registered_insert; [|exists None; by rewrite lookup_insert_eq].
    destruct (Gr _ _ Hy) as (r & Hr). eauto.
  - intros i st l y Hi Hy. destruct (Gf i st l y Hi Hy) as (s' & r & ? & ?). eauto.
  - intros y s' st Hy. destruct (decide (y = x)) as [->|Hne]; [by rewrite lookup_insert_eq in Hy|].
    rewrite lookup_insert_ne in Hy by done. eauto.
  - intros s' st y Hs [Hy|[-> ->]]%registered_insert.
    + eapply publisher_keep; [by eapply Gp|]. simpl. intros id' c Hc Hcase. exists id', c.
      by rewrite lookup_insert_ne by congruence.
    + exists id. left. simpl. by rewrite lookup_insert_eq.
Qed.

Lemma sig_commit_ok g id s st :
  sig_ok g → sig_calls g !! id = None → retained g !! s = None →
  sig_ok {| waiters := waiters g; retained := <[s := st]> (retained g); oneshots := oneshots g; dropped := dropped g;
            sig_calls := <[id := Publishing s st]> (sig_calls g); detached := detached g; delivering := delivering g |}.
Proof.
  intros [Gc Gn Gca Gw Gr Gf Gs Gp] Hid Hs.
  assert (Hkeep : ∀ s' st', retained g !! s' = Some st' → <[s := st]> (retained g) !! s' = Some st').
  { intros s' st' Hy. by rewrite lookup_insert_ne by congruence. }
  constructor; simpl; try done.
  - intros id' s' st' Hc. destruct (decide (id' = id)) as [->|Hne].
    + rewrite lookup_insert_eq in Hc. destruct Hc as [[= <- <-]|?]; [|done]. by rewrite lookup_insert_eq.
    + rewrite lookup_insert_ne in Hc by done. by eapply Hkeep, Gca.
  - intros x s' Hx. destruct (Gw x s' Hx) as [?|[?|(i & st' & l & ? & ? & ?)]]; [by left|by right; left|].
    right; right. exists i, st', l. eauto.
  - intros i st' l x Hi Hx. destruct (Gf i st' l x Hi Hx) as (s' & r & ? & ?). eauto.
  - intros x s' st' Hx. eauto.
  - intros s' st' x Hs' Hr. destruct (decide (s' = s)) as [->|Hne].
    + rewrite lookup_insert_eq in Hs'. injection Hs' as <-. exists id. right; left. simpl. by rewrite lookup_insert_eq.
    + rewrite lookup_insert_ne in Hs' by done. eapply publisher_keep; [by eapply Gp|]. simpl.
      intros id' c Hc Hcase. exists id', c. by rewrite lookup_insert_ne by congruence.
Qed.

Lemma registered_delete (w : Subscribers Sig) s n s' x :
  registered {| entries := delete s (entries w); keys := n |} s' x ↔ s' ≠ s ∧ registered w s' x.
Proof.
  unfold registered. simpl. destruct (decide (s' = s)) as [->|Hne].
  - rewrite lookup_delete_eq. simpl. set_solver.
  - rewrite lookup_delete_ne by done. naive_solver.
Qed.

Lemma sig_detach_ok g id s st l d :
  sig_ok g → sig_calls g !! id = Some (Removing s st) → entries (waiters g) !! s = Some l → detached g !! d = None →
  sig_ok {| waiters := {| entries := delete s (entries (waiters g)); keys := keys (waiters g) |};
            retained := retained g; oneshots := oneshots g; dropped := dropped g;
            sig_calls := delete id (sig_calls g); detached := <[d := (st, l)]> (detached g); delivering := delivering g |}.
Proof.
  intros [Gc Gn Gca Gw Gr Gf Gs Gp] Hid Hl Hd.
  assert (Hst : retained g !! s = Some st) by (eapply Gca; eauto).
  assert (Hreg : ∀ x, registered (waiters g) s x ↔ x ∈ l) by (intros x; unfold registered; by rewrite Hl).
  constructor; simpl; try done.
  - rewrite map_size_delete_Some, map_size_insert_None by (done || by exists l).
    assert (size (entries (waiters g)) ≠ 0%nat) by (rewrite map_size_ne_0_lookup; naive_solver). lia.
  - intros s' [_ E]%lookup_delete_Some. by apply Gn in E.
  - intros id' s' st' Hc. apply (Gca id'). rewrite !lookup_delete_Some in Hc. naive_solver.
  - intros x s' Hx. destruct (Gw x s' Hx) as [?|[Hr|(i & st' & l' & Hi & ? & ?)]]; [by left|..].
    + destruct (decide (s' = s)) as [->|Hne]; [|right; left; by apply registered_delete].
      right; right. exists d, st, l. simpl. rewrite lookup_insert_eq. split_and!; [by left|by apply Hreg|done].
    + right; right. exists i, st', l'. split_and!; [|done|done]. destruct Hi; [left; simpl|by right]. by rewrite lookup_insert_ne by congruence.
  - intros x s' [_ ?]%registered_delete. auto.
  - intros i st' l' x Hi Hx. destruct (decide (i = d)) as [->|Hne].
    + destruct Hi as [Hi|Hi]; [|eapply Gf; eauto]. rewrite lookup_insert_eq in Hi. injection Hi as <- <-.
      apply Hreg in Hx. destruct (Gr _ _ Hx) as (r & ?). eauto.
    + eapply (Gf i); [|done]. destruct Hi as [Hi|Hi]; [left|by right]. by rewrite lookup_insert_ne in Hi.
  - intros s' st' x Hs' [Hne Hr]%registered_delete. eapply publisher_keep; [by eapply Gp|]. simpl.
    intros id' c Hc Hcase. exists id', c. rewrite lookup_delete_ne; [done|]. intros <-. naive_solver.
Qed.

Lemma sig_uncount_ok g d st l i :
  sig_ok g → detached g !! d = Some (st, l) → delivering g !! i = None →
  sig_ok {| waiters := {| entries := entries (waiters g); keys := keys (waiters g) - 1 |};
            retained := retained g; oneshots := oneshots g; dropped := dropped g; sig_calls := sig_calls g;
            detached := delete d (detached g); delivering := <[i := (st, l)]> (delivering g) |}.
Proof.
  intros [Gc Gn Gca Gw Gr Gf Gs Gp] Hd Hi. constructor; simpl; try done.
  - rewrite map_size_delete_Some by by eexists.
    assert (size (detached g) ≠ 0%nat) by (rewrite map_size_ne_0_lookup; naive_solver). lia.
  - intros x s Hx. destruct (Gw x s Hx) as [?|[?|(j & st' & l' & Hj & ? & ?)]]; [by left|by right; left|right; right].
    destruct Hj as [Hj|Hj].
    + destruct (decide (j = d)) as [->|Hne].
      * exists i, st', l'. simpl. rewrite lookup_insert_eq. split_and!; [right; congruence|done..].
      * exists j, st', l'. simpl. rewrite lookup_delete_ne by done. auto.
    + exists j, st', l'. simpl. rewrite lookup_insert_ne by congruence. auto.
  - intros j st' l' x Hj Hx. destruct Hj as [[_ Hj]%lookup_delete_Some|[[_ [= <- <-]]|[_ Hj]]%lookup_insert_Some];
      eapply Gf; eauto.
Qed.

Lemma sig_deliver_ok g i st x l :
  sig_ok g → delivering g !! i = Some (st, x :: l) →
  sig_ok {| waiters := waiters g; retained := retained g;
            oneshots := alter (λ o, (o.1, Some st)) x (oneshots g); dropped := dropped g; sig_calls := sig_calls g;
            detached := detached g; delivering := <[i := (st, l)]> (delivering g) |}.
Proof.
  intros [Gc Gn Gca Gw Gr Gf Gs Gp] Hi.
  assert (Hkeep : ∀ y s r, oneshots g !! y = Some (s, r) → ∃ r', alter (λ o, (o.1, Some st)) x (oneshots g) !! y = Some (s, r')).
  { intros y s r Hy. rewrite lookup_alter. case_decide; subst; rewrite ?Hy; simpl; eauto. }
  constructor; simpl; try done.
  - intros y s Hy. rewrite lookup_alter in Hy. case_decide as Ey; [by destruct (oneshots g !! x) as [[]|]|].
    destruct (Gw y s Hy) as [?|[?|(j & st' & l' & Hj & Hy' & ?)]]; [by left|by right; left|right; right].
    destruct Hj as [Hj|Hj]; [by exists j, st', l'; simpl; auto|]. destruct (decide (j = i)) as [->|Hne].
    + assert (st' = st ∧ l' = x :: l) as [-> ->] by naive_solver. exists i, st, l. simpl. rewrite lookup_insert_eq.
      split_and!; [by right|set_solver|done].
    + exists j, st', l'. simpl. rewrite lookup_insert_ne by done. auto.
  - intros y s Hy. destruct (Gr _ _ Hy) as (r & ?). eauto.
  - intros j st' l' y Hj Hy. assert (∃ s r, oneshots g !! y = Some (s, r) ∧ retained g !! s = Some st') as (s & r & Hr & ?).
    { destruct Hj as [Hj|[[<- [= <- <-]]|[_ Hj]]%lookup_insert_Some]; eapply Gf; eauto. set_solver. }
    destruct (Hkeep _ _ _ Hr) as (r' & ?). eauto.
  - intros y s st' Hy. rewrite lookup_alter in Hy. case_decide; [|eauto]. subst.
    destruct (oneshots g !! y) as [[s' r]|] eqn:Ey; [|done]. simpl in Hy. injection Hy as <- <-.
    destruct (Gf i st (y :: l) y) as (s & r' & Hr & ?); [by right|set_solver|]. congruence.
Qed.

Lemma sig_delivered_ok g i st :
  sig_ok g → delivering g !! i = Some (st, []) →
  sig_ok {| waiters := waiters g; retained := retained g; oneshots := oneshots g; dropped := dropped g;
            sig_calls := sig_calls g; detached := detached g; delivering := delete i (delivering g) |}.
Proof.
  intros [Gc Gn Gca Gw Gr Gf Gs Gp] Hi. constructor; simpl; try done.
  - intros x s Hx. destruct (Gw x s Hx) as [?|[?|(j & st' & l' & Hj & Hx' & ?)]]; [by left|by right; left|right; right].
    exists j, st', l'. simpl. destruct (decide (j = i)) as [->|Hne]; [|by rewrite lookup_delete_ne].
    destruct Hj as [Hj|Hj]; [by auto|]. rewrite Hi in Hj. injection Hj as <- <-. set_solver.
  - intros j st' l' x Hj Hx. destruct Hj as [Hj|[_ Hj]%lookup_delete_Some]; eapply Gf; eauto.
Qed.

Lemma sig_cleanup_ok g s :
  sig_ok g → sig_ok (with_waiters g (prune (waiters g) s (λ x c, (bool_decide (x ∉ dropped g), c)) ()).1).
Proof.
  intros [Gc Gn Gca Gw Gr Gf Gs Gp].
  pose proof (prune_registered (waiters g) (λ x, bool_decide (x ∉ dropped g)) s) as Hreg.
  destruct (prune_count (waiters g) (λ x, bool_decide (x ∉ dropped g)) s) as [Hcount Hnil].
  cbv beta in Hreg, Hcount, Hnil. set (w := (prune (waiters g) s (λ x c, (bool_decide (x ∉ dropped g), c)) ()).1) in *. clearbody w.
  constructor; simpl; try done.
  - lia.
  - intros s' E%Hnil. by apply Gn in E.
  - intros x s' Hx. destruct (decide (x ∈ dropped g)) as [|Hd]; [by left|].
    destruct (Gw x s' Hx) as [?|[?|?]]; [by left|right; left|by right; right].
    apply Hreg. split; [done|]. intros _. by rewrite bool_decide_true.
  - intros x s' [? _]%Hreg. auto.
  - intros s' st x Hs' [Hr _]%Hreg. eapply publisher_keep; [by eapply Gp|]. simpl. eauto.
Qed.

Lemma sig_step_ok g g' : sig_ok g → sig_step g g' → sig_ok g'.
Proof.
  intros Hg Hstep. destruct Hstep as [g id s x Hid Hx|g id s x st Hid Hs|g id s x Hid Hs|g id s st Hid Hs|
    g id s st Hid He|g id s st Hid He|g id s st Hid Hs|g id s st l d|g d st l i|g i st x l|g i st|g x|g s].
  - by apply sig_subscribe_ok.
  - eapply (sig_call_ok g id _ (Some (Publishing s st))); [done|done|naive_solver|]. intros s' st' x' ? _ Hcase.
    exists (Publishing s st). naive_solver.
  - eapply (sig_call_ok g id _ None); [done|done|naive_solver|]. naive_solver.
  - by apply sig_commit_ok.
  - eapply (sig_call_ok g id _ None); [done|done|naive_solver|]. intros s' st' x' _ Hr _.
    apply registered_some in Hr as (l & Hl & _). unfold is_empty in He. apply Z.eqb_eq in He. rewrite (g_count g Hg) in He.
    assert (size (entries (waiters g)) ≠ 0%nat) by (rewrite map_size_ne_0_lookup; naive_solver). lia.
  - eapply (sig_call_ok g id _ (Some (Removing s st))); [done|done| |].
    + intros s' st' [?|[= <- <-]]; [done|]. by eapply (g_calls g Hg); eauto.
    + naive_solver.
  - eapply (sig_call_ok g id _ None); [done|done|naive_solver|]. intros s' st' x' _ Hr Hcase.
    apply registered_some in Hr as (l & Hl & _). naive_solver.
  - by eapply sig_detach_ok.
  - by eapply sig_uncount_ok.
  - by eapply sig_deliver_ok.
  - by eapply sig_delivered_ok.
  - destruct Hg as [Gc Gn Gca Gw Gr Gf Gs Gp]. constructor; simpl; try done.
    intros y s Hy. destruct (Gw y s Hy) as [?|[?|?]]; [left; set_solver|by right; left|by right; right].
  - by apply sig_cleanup_ok.
Qed.

Lemma sig_start_ok r : sig_ok (sig_start r).
Proof.
  constructor; simpl; intros *; rewrite ?lookup_empty; try done; rewrite ?registered_some; naive_solver.
Qed.

(** C22. No waiter of a signature misses its status, however subscriptions, commits, deliveries,
    dropped receivers and cleanups interleave: once the calls that were begun are over, every
    receiver that was not dropped, of a signature whose status is retained, has been sent that
    status, whether it subscribed before, during or after the commit. *)
Theorem signature_not_missed r g s st x o :
  rtc sig_step (sig_start r) g → sig_calls g = ∅ → detached g = ∅ → delivering g = ∅ →
  retained g !! s = Some st → oneshots g !! x = Some (s, o) → x ∉ dropped g → o = Some st.
Proof.
  intros Hrun Hc Hd Hl Hst Hx Hdrop.
  assert (Hg : sig_ok g).
  { pose proof (sig_start_ok r) as Hs. induction Hrun as [|g1 g2 g3 Hstep _ IH]; [done|]. apply IH; try done. by eapply sig_step_ok. }
  destruct o as [st'|].
  { pose proof (g_status g Hg x s st' Hx). congruence. }
  destruct (g_waiting g Hg x s Hx) as [?|[Hr|(i & st' & l & [E|E] & _)]]; [done|..].
  - destruct (g_publish g Hg s st x Hst Hr) as (id & Hid). rewrite Hc, lookup_empty in Hid. naive_solver.
  - by rewrite Hd, lookup_empty in E.
  - by rewrite Hl, lookup_empty in E.
Qed.

End signatures.

Ltac state := cbn [waiters retained oneshots dropped sig_calls detached delivering with_sig_calls entries keys subs_insert
  subscribers_new sig_start].

(** A subscription races with the commit: both see the status, one of them delivers it. *)
Lemma signature_not_missed_witness :
  ∃ g : SigState (Sig := nat) (St := nat), rtc sig_step (sig_start ∅) g ∧ oneshots g !! 0%nat = Some (7%nat, Some 42%nat).
Proof.
  assert (∃ g : SigState (Sig := nat) (St := nat), rtc sig_step (sig_start ∅) g ∧ sig_calls g = ∅ ∧ detached g = ∅ ∧
    delivering g = ∅ ∧ retained g !! 7%nat = Some 42%nat ∧ (∃ o, oneshots g !! 0%nat = Some (7%nat, o)) ∧ 0%nat ∉ dropped g)
    as (g & Hrun & Hc & Hd & Hl & Hr & (o & Ho) & Hx).
  { eexists. split.
    { eapply rtc_l; [apply (sig_subscribe _ 0%nat 7%nat 0%nat); vm_compute; reflexivity|].
      eapply rtc_l; [apply (sig_commit _ 1%nat 7%nat 42%nat); reflexivity|state].
      eapply rtc_l; [apply (sig_found _ 0%nat 7%nat 0%nat 42%nat); reflexivity|state].
      eapply rtc_l; [apply (sig_somebody _ 1%nat 7%nat 42%nat); reflexivity|state].
      eapply rtc_l; [apply (sig_detach _ 1%nat 7%nat 42%nat [0%nat] 0%nat); reflexivity|state].
      eapply rtc_l; [apply (sig_uncount _ 0%nat 42%nat [0%nat] 0%nat); reflexivity|state].
      eapply rtc_l; [apply (sig_deliver _ 0%nat 42%nat 0%nat []); reflexivity|state].
      eapply rtc_l; [apply (sig_delivered _ 0%nat 42%nat); reflexivity|state].
      eapply rtc_l; [apply (sig_nobody _ 0%nat 7%nat 42%nat); reflexivity|state].
      apply rtc_refl. }
    split_and!; [vm_compute; reflexivity..|eexists; vm_compute; reflexivity|]. simpl. set_solver. }
  exists g. split; [done|]. rewrite Ho. by rewrite (signature_not_missed ∅ g 7%nat 42%nat 0%nat o).
Defined.
