(* ===== verification/KeeperLease.v ===== *)
(** * Account leases of the keeper ([keeper/src/cache.rs], [nucleus/src/notifier.rs])

    Materializations of an account are serialized by a lease: whoever finds it taken waits for
    the notification of its release and tries again. *)

From stdpp Require Import base list gmap numbers option.
From S2P Require Import Prelude AccountMode Account KeeperSubs.

Local Open Scope Z_scope.

(** Code outside the repository: a concurrent cache of bounded capacity with approximate
    recency. [lru_put] admits an absent key and may displace another one. *)
Class RecencyCache (L : Type) := {
  lru_contains : L → Pubkey → bool;
  lru_get : L → Pubkey → L;
  lru_put : L → Pubkey → L * option Pubkey;
  lru_remove : L → Pubkey → L;
}.

(** ** The event of a release *)

(** [notify] sets the flag and then wakes the waiters; a waiter makes its registration before it
    reads the flag. A registration is woken by the wake-ups that begin after it was made:
    [wakeups] counts them. *)
Inductive NotifiedTask := Made (at_ : nat) | Asleep (at_ : nat).
Record EventNotifier := { done : bool; notifying : bool; wakeups : nat; tasks : gmap nat NotifiedTask }.

Definition with_tasks (s : EventNotifier) (w : gmap nat NotifiedTask) : EventNotifier :=
  {| done := done s; notifying := notifying s; wakeups := wakeups s; tasks := w |}.

Inductive notifier_step : EventNotifier → EventNotifier → Prop :=
| notify_done s :
    notifying s = false →
    notifier_step s {| done := true; notifying := true; wakeups := wakeups s; tasks := tasks s |}
| notify_waiters s :
    notifying s = true →
    notifier_step s {| done := done s; notifying := false; wakeups := S (wakeups s); tasks := tasks s |}
| notified_make s id :
    tasks s !! id = None → notifier_step s (with_tasks s (<[id := Made (wakeups s)]> (tasks s)))
| notified_return s id n :
    tasks s !! id = Some (Made n) → done s = true → notifier_step s (with_tasks s (delete id (tasks s)))
| notified_sleep s id n :
    tasks s !! id = Some (Made n) → done s = false → notifier_step s (with_tasks s (<[id := Asleep n]> (tasks s)))
| notified_wake s id n :
    tasks s !! id = Some (Asleep n) → (n < wakeups s)%nat →
    notifier_step s (with_tasks s (<[id := Made (wakeups s)]> (tasks s))).

Definition notifier_new : EventNotifier := {| done := false; notifying := false; wakeups := 0; tasks := ∅ |}.

Definition notifier_ok (s : EventNotifier) : Prop :=
  ∀ id n, (tasks s !! id = Some (Made n) → (n ≤ wakeups s)%nat) ∧
    (tasks s !! id = Some (Asleep n) → (n ≤ wakeups s)%nat ∧ (done s = true → notifying s = true ∨ (n < wakeups s)%nat)).

Lemma notifier_step_ok s s' : notifier_ok s → notifier_step s s' → notifier_ok s'.
Proof.
  intros Hs Hstep. destruct Hstep as [s Hn|s Hn|s id0 Hid|s id0 n0 Hid Hd|s id0 n0 Hid Hd|s id0 n0 Hid Hd];
    intros id n; destruct (Hs id n) as [H1 H2]; simpl in *.
  - naive_solver.
  - split; intros Hw; [apply H1 in Hw; lia|]. destruct (H2 Hw) as [? _]. split; [|right]; lia.
  - split; intros [[_ E]|[_ Hw]]%lookup_insert_Some; simplify_eq; auto.
  - split; intros [_ Hw]%lookup_delete_Some; auto.
  - destruct (Hs id0 n0) as [H3 _]. split; intros [[_ E]|[_ Hw]]%lookup_insert_Some; simplify_eq; auto.
    split; [auto|]. by rewrite Hd.
  - split; intros [[_ E]|[_ Hw]]%lookup_insert_Some; simplify_eq; auto.
Qed.

(** After the event no waiter is left behind: whoever sleeps can be woken, and finds the event. *)
Lemma no_lost_wakeup s id n :
  rtc notifier_step notifier_new s → done s = true → notifying s = false → tasks s !! id = Some (Asleep n) → (n < wakeups s)%nat.
Proof.
  intros Hrun Hd Hn Hw. assert (Hs : notifier_ok s).
  { assert (H0 : notifier_ok notifier_new) by (intros ??; split; simpl; by rewrite lookup_empty). clear -Hrun H0.
    induction Hrun; [done|]. eauto using notifier_step_ok. }
  destruct (Hs id n) as [_ H2]. destruct (H2 Hw) as [_ H3]. destruct (H3 Hd); [congruence|done].
Qed.

Section lease.
Context {L : Type} `{!RecencyCache L}.

Record AccountCache := {
  lru : L;
  reservations : gmap Pubkey nat;
  evictions : Unicast Pubkey;
}.

(** A lease names the notifier of its release. *)
Record AccountLease := { lease_pubkey : Pubkey; released : nat; observed : option (AccountMode * Z) }.

Definition with_lru (c : AccountCache) (l : L) : AccountCache :=
  {| lru := l; reservations := reservations c; evictions := evictions c |}.
Definition with_reservations (c : AccountCache) (r : gmap Pubkey nat) : AccountCache :=
  {| lru := lru c; reservations := r; evictions := evictions c |}.

(** ** Recency *)

Definition admit_recency (c : AccountCache) (pubkey : Pubkey) : AccountCache * option Pubkey :=
  if lru_contains (lru c) pubkey then (with_lru c (lru_get (lru c) pubkey), None)
  else let '(l, evicted) := lru_put (lru c) pubkey in (with_lru c l, evicted).
Definition remove_recency (c : AccountCache) (pubkey : Pubkey) : AccountCache :=
  with_lru c (lru_remove (lru c) pubkey).
Definition track (c : AccountCache) (pubkey : Pubkey) (md : AccountMode) : AccountCache * option Pubkey :=
  if negb (requires_persistence md) then admit_recency c pubkey else (remove_recency c pubkey, None).

(** ** Methods of a lease *)

Definition lease_exists (l : AccountLease) : bool := bool_decide (is_Some (observed l)).
Definition evictable (l : AccountLease) : bool :=
  match observed l with Some (md, _) => negb (requires_persistence md) | None => false end.
Definition skipped (l : AccountLease) (md : AccountMode) (sl : Z) : option AccountMode :=
  match observed l with
  | Some (local_mode, local_slot) =>
      if (sl <? local_slot) || ((sl =? local_slot) && bool_decide (md = local_mode)) then Some local_mode else None
  | None => None
  end.
(** A displaced key goes to the receiver of evictions. *)
Definition materialized (c : AccountCache) (l : AccountLease) (md : AccountMode) : AccountCache :=
  let '(c, displaced) := track c (lease_pubkey l) md in
  {| lru := lru c; reservations := reservations c;
     evictions := match displaced with Some k => unicast_send (evictions c) k | None => evictions c end |}.
Definition deleted (c : AccountCache) (l : AccountLease) : AccountCache := remove_recency c (lease_pubkey l).
Definition cached_eviction_applies (c : AccountCache) (l : AccountLease) : bool :=
  evictable l && negb (lru_contains (lru c) (lease_pubkey l)).

(** ** Claims *)

Inductive AccountClaim := Acquired (l : AccountLease) | Busy (notifier : nat).

(** [fresh] names the notifier that the call makes. *)
Definition claim (c : AccountCache) (pubkey : Pubkey) (fresh : nat) : AccountCache * AccountClaim :=
  match reservations c !! pubkey with
  | Some n => (c, Busy n)
  | None =>
      (with_reservations c (<[pubkey := fresh]> (reservations c)),
       Acquired {| lease_pubkey := pubkey; released := fresh; observed := None |})
  end.

(** ** Calls of [lock] and drops of leases, one step at a time *)

Inductive LeaseCall :=
| Claiming (pubkey : Pubkey)
| Waiting (pubkey : Pubkey) (notifier : nat)
| Holding (l : AccountLease)
| Dropping (l : AccountLease).

(** [notified] are the events that were completed; they stay so. *)
Record LeaseState := { account_cache : AccountCache; lease_calls : gmap nat LeaseCall; fresh : nat; notified : list nat }.

Definition with_call (s : LeaseState) (c : AccountCache) (id : nat) (x : LeaseCall) : LeaseState :=
  {| account_cache := c; lease_calls := <[id := x]> (lease_calls s); fresh := fresh s; notified := notified s |}.

Inductive lease_step : LeaseState → LeaseState → Prop :=
| lease_lock s id pubkey :
    lease_calls s !! id = None → lease_step s (with_call s (account_cache s) id (Claiming pubkey))
| lease_acquire s id pubkey c l :
    lease_calls s !! id = Some (Claiming pubkey) → claim (account_cache s) pubkey (fresh s) = (c, Acquired l) →
    lease_step s {| account_cache := c; lease_calls := <[id := Holding l]> (lease_calls s);
                    fresh := S (fresh s); notified := notified s |}
| lease_busy s id pubkey c n :
    lease_calls s !! id = Some (Claiming pubkey) → claim (account_cache s) pubkey (fresh s) = (c, Busy n) →
    lease_step s (with_call s c id (Waiting pubkey n))
| lease_wake s id pubkey n :
    lease_calls s !! id = Some (Waiting pubkey n) → n ∈ notified s →
    lease_step s (with_call s (account_cache s) id (Claiming pubkey))
(** A call that waits is cancelled. *)
| lease_cancel s id pubkey :
    (lease_calls s !! id = Some (Claiming pubkey) ∨ ∃ n, lease_calls s !! id = Some (Waiting pubkey n)) →
    lease_step s {| account_cache := account_cache s; lease_calls := delete id (lease_calls s);
                    fresh := fresh s; notified := notified s |}
| lease_observe s id l o :
    lease_calls s !! id = Some (Holding l) →
    lease_step s (with_call s (account_cache s) id
      (Holding {| lease_pubkey := lease_pubkey l; released := released l; observed := o |}))
| lease_materialized s id l md :
    lease_calls s !! id = Some (Holding l) →
    lease_step s (with_call s (materialized (account_cache s) l md) id (Holding l))
| lease_deleted s id l :
    lease_calls s !! id = Some (Holding l) →
    lease_step s (with_call s (deleted (account_cache s) l) id (Holding l))
(** [Drop]: the reservation goes first, then the event is completed. *)
| lease_remove s id l :
    lease_calls s !! id = Some (Holding l) →
    lease_step s (with_call s (with_reservations (account_cache s)
      (delete (lease_pubkey l) (reservations (account_cache s)))) id (Dropping l))
| lease_notify s id l :
    lease_calls s !! id = Some (Dropping l) →
    lease_step s {| account_cache := account_cache s; lease_calls := delete id (lease_calls s); fresh := fresh s;
                    notified := released l :: notified s |}.

(** ** The invariant *)

Record lease_ok (s : LeaseState) : Prop := {
  l_held : ∀ id l, lease_calls s !! id = Some (Holding l) →
    reservations (account_cache s) !! lease_pubkey l = Some (released l);
  l_once : ∀ id id' l l', lease_calls s !! id = Some (Holding l) → lease_calls s !! id' = Some (Holding l') →
    released l = released l' → id = id';
  l_taken : ∀ k n, reservations (account_cache s) !! k = Some n → (n < fresh s)%nat ∧
    ∃ id l, lease_calls s !! id = Some (Holding l) ∧ lease_pubkey l = k ∧ released l = n;
  l_waits : ∀ id k n, lease_calls s !! id = Some (Waiting k n) → n ∈ notified s ∨
    ∃ id' l, released l = n ∧
      (lease_calls s !! id' = Some (Holding l) ∨ lease_calls s !! id' = Some (Dropping l));
}.

Definition lease_start (l : L) : LeaseState :=
  {| account_cache := {| lru := l; reservations := ∅; evictions := unicast_new |}; lease_calls := ∅; fresh := 0; notified := [] |}.

(** A step of one call that keeps the reservations and the state of leases. *)
Lemma keep_leases s c id x y :
  lease_ok s → reservations c = reservations (account_cache s) → lease_calls s !! id = x →
  (∀ l, y = Holding l → ∃ l', x = Some (Holding l') ∧ released l' = released l ∧ lease_pubkey l' = lease_pubkey l) →
  (∀ l, x = Some (Holding l) → ∃ l', y = Holding l' ∧ released l' = released l ∧ lease_pubkey l' = lease_pubkey l) →
  (∀ l, x ≠ Some (Dropping l)) →
  (∀ k n, y = Waiting k n → ∃ id' l, released l = n ∧ lease_calls s !! id' = Some (Holding l)) →
  lease_ok (with_call s c id y).
Proof.
  intros [H1 H2 H3 H4] Hc Hx Hy Hxy Hd Hw.
  assert (Hold : ∀ id' l, <[id := y]> (lease_calls s) !! id' = Some (Holding l) →
    ∃ l', lease_calls s !! id' = Some (Holding l') ∧ released l' = released l ∧ lease_pubkey l' = lease_pubkey l).
  { intros id' l Hl. destruct (decide (id' = id)) as [->|Hne].
    - rewrite lookup_insert_eq in Hl. injection Hl as Hl. destruct (Hy l Hl) as (l' & E & R). exists l'. by rewrite Hx.
    - rewrite lookup_insert_ne in Hl by done. by exists l. }
  assert (Hnew : ∀ id' l, lease_calls s !! id' = Some (Holding l) →
    ∃ l', <[id := y]> (lease_calls s) !! id' = Some (Holding l') ∧ released l' = released l ∧ lease_pubkey l' = lease_pubkey l).
  { intros id' l Hl. destruct (decide (id' = id)) as [->|Hne].
    - destruct (Hxy l ltac:(congruence)) as (l' & -> & R). exists l'. by rewrite lookup_insert_eq.
    - exists l. by rewrite lookup_insert_ne. }
  constructor; simpl; rewrite ?Hc.
  - intros id' l Hl. destruct (Hold _ _ Hl) as (l' & Hl' & E1 & E2). rewrite <- E1, <- E2. by eapply H1.
  - intros id1 id2 l l' Hl Hl' E. destruct (Hold _ _ Hl) as (m & Hm & Em & _). destruct (Hold _ _ Hl') as (m' & Hm' & Em' & _).
    apply (H2 id1 id2 m m' Hm Hm'). congruence.
  - intros k n Hk. destruct (H3 k n Hk) as (Hlt & id' & l & Hl & E1 & E2). split; [done|].
    destruct (Hnew _ _ Hl) as (l' & Hl' & E3 & E4). exists id', l'. split_and!; congruence.
  - intros id' k n Hl.
    assert (Hcase : n ∈ notified s ∨ ∃ id'' l, released l = n ∧
      (lease_calls s !! id'' = Some (Holding l) ∨ lease_calls s !! id'' = Some (Dropping l))).
    { destruct (decide (id' = id)) as [->|Hne].
      - rewrite lookup_insert_eq in Hl. injection Hl as Hl. destruct (Hw k n Hl) as (id'' & l & E & Hl'). right. exists id'', l. auto.
      - rewrite lookup_insert_ne in Hl by done. by eapply H4. }
    destruct Hcase as [|(id'' & l & E & [Hl'|Hl'])]; [by left|right..].
    + destruct (Hnew _ _ Hl') as (l' & ? & ? & _). exists id'', l'. split; [congruence|by left].
    + exists id'', l. split; [done|right]. rewrite lookup_insert_ne; [done|]. intros ->. by apply (Hd l); congruence.
Qed.

Lemma lease_acquire_ok s id pubkey c l :
  lease_ok s → lease_calls s !! id = Some (Claiming pubkey) → claim (account_cache s) pubkey (fresh s) = (c, Acquired l) →
  lease_ok {| account_cache := c; lease_calls := <[id := Holding l]> (lease_calls s);
              fresh := S (fresh s); notified := notified s |}.
Proof.
  intros [H1 H2 H3 H4] Hid Hc. unfold claim in Hc. destruct (reservations (account_cache s) !! pubkey) eqn:Er; [done|].
  injection Hc as <- <-.
  assert (Hnew : ∀ id' l', lease_calls s !! id' = Some (Holding l') → id' ≠ id ∧ lease_pubkey l' ≠ pubkey ∧ (released l' < fresh s)%nat).
  { intros id' l' Hl. pose proof (H1 _ _ Hl) as Hr. destruct (H3 _ _ Hr) as [? _]. split_and!; congruence || done. }
  constructor; simpl.
  - intros id' l [[_ [= <-]]|[_ Hl]]%lookup_insert_Some; simpl; [by rewrite lookup_insert_eq|].
    destruct (Hnew _ _ Hl) as (_ & ? & _). rewrite lookup_insert_ne by done. eauto.
  - intros id1 id2 l l' [[<- [= <-]]|[_ Hl]]%lookup_insert_Some [[<- [= <-]]|[_ Hl']]%lookup_insert_Some; simpl; intros E; [done|..].
    + apply Hnew in Hl'. lia.
    + apply Hnew in Hl. lia.
    + eauto.
  - intros k n [[<- <-]|[Hk Hr]]%lookup_insert_Some.
    + split; [lia|]. eexists id, _. rewrite lookup_insert_eq. done.
    + destruct (H3 k n Hr) as (? & id' & l' & Hl & ? & ?). split; [lia|]. exists id', l'.
      rewrite lookup_insert_ne; [done|]. destruct (Hnew _ _ Hl). congruence.
  - intros id' k n [[_ ?]|[_ Hw]]%lookup_insert_Some; [done|].
    destruct (H4 _ _ _ Hw) as [?|(id'' & l' & E & Hl)]; [by left|right]. exists id'', l'. split; [done|].
    rewrite lookup_insert_ne; [done|]. intros <-. destruct Hl; congruence.
Qed.

Lemma lease_remove_ok s id l :
  lease_ok s → lease_calls s !! id = Some (Holding l) →
  lease_ok (with_call s (with_reservations (account_cache s)
    (delete (lease_pubkey l) (reservations (account_cache s)))) id (Dropping l)).
Proof.
  intros [H1 H2 H3 H4] Hid. pose proof (H1 _ _ Hid) as Hr. constructor; simpl.
  - intros id' l' [[_ ?]|[Hne Hl]]%lookup_insert_Some; [done|]. pose proof (H1 _ _ Hl) as Hr'.
    rewrite lookup_delete_ne; [done|]. intros E. apply Hne. apply (H2 _ _ _ _ Hid Hl). congruence.
  - intros id1 id2 l1 l2 [[_ ?]|[_ Hl]]%lookup_insert_Some [[_ ?]|[_ Hl']]%lookup_insert_Some; try done. eauto.
  - intros k n [Hk Hn]%lookup_delete_Some. destruct (H3 k n Hn) as (? & id' & l' & Hl & <- & ?). split; [done|].
    exists id', l'. rewrite lookup_insert_ne; [done|]. intros <-. congruence.
  - intros id' k n [[_ ?]|[_ Hw]]%lookup_insert_Some; [done|].
    destruct (H4 _ _ _ Hw) as [?|(id'' & l' & E & Hl)]; [by left|right]. destruct (decide (id'' = id)) as [->|Hne].
    + exists id, l. rewrite lookup_insert_eq. split; [|by right]. destruct Hl; congruence.
    + exists id'', l'. rewrite lookup_insert_ne by done. done.
Qed.

Lemma lease_delete_ok s id c0 evs :
  lease_ok s → lease_calls s !! id = Some c0 → (∀ l, c0 ≠ Holding l) →
  (∀ l, c0 = Dropping l → released l ∈ evs) → notified s ⊆ evs →
  lease_ok {| account_cache := account_cache s; lease_calls := delete id (lease_calls s); fresh := fresh s; notified := evs |}.
Proof.
  intros [H1 H2 H3 H4] Hid Hh Hd Hsub. constructor; simpl.
  - intros id' l [_ Hl]%lookup_delete_Some. eauto.
  - intros id1 id2 l l' [_ Hl]%lookup_delete_Some [_ Hl']%lookup_delete_Some. eauto.
  - intros k n Hn. destruct (H3 k n Hn) as (? & id' & l & Hl & ?). split; [done|]. exists id', l.
    rewrite lookup_delete_ne; [done|]. intros <-. destruct (Hh l). congruence.
  - intros id' k n [_ Hw]%lookup_delete_Some. destruct (H4 _ _ _ Hw) as [?|(id'' & l & E & Hl)]; [left; set_solver|].
    destruct (decide (id'' = id)) as [->|Hne].
    + destruct Hl as [Hl|Hl]; [by destruct (Hh l); congruence|]. left. rewrite <- E. apply Hd. congruence.
    + right. exists id'', l. rewrite lookup_delete_ne by done. done.
Qed.

Lemma materialized_keeps (c : AccountCache) l md : reservations (materialized c l md) = reservations c.
Proof.
  unfold materialized, track, admit_recency. destruct (negb (requires_persistence md)); [|done].
  destruct (lru_contains (lru c) (lease_pubkey l)); [done|]. by destruct (lru_put (lru c) (lease_pubkey l)).
Qed.

Lemma lease_step_ok s s' : lease_ok s → lease_step s s' → lease_ok s'.
Proof.
  intros Hs Hstep. destruct Hstep as [s id pubkey Hid|s id pubkey c l Hid Hc|s id pubkey c n Hid Hc|s id pubkey n Hid Hn|
    s id pubkey Hid|s id l o Hid|s id l md Hid|s id l Hid|s id l Hid|s id l Hid].
  - eapply keep_leases; [done|done|done|..]; naive_solver.
  - by eapply lease_acquire_ok.
  - unfold claim in Hc. destruct (reservations (account_cache s) !! pubkey) as [n'|] eqn:Er; [|done]. injection Hc as <- <-.
    destruct (l_taken s Hs _ _ Er) as (_ & id' & l & Hl & _ & E).
    eapply keep_leases; [done|done|done|..]; naive_solver.
  - eapply keep_leases; [done|done|done|..]; naive_solver.
  - assert (∃ c0, lease_calls s !! id = Some c0 ∧ (∀ l, c0 ≠ Holding l) ∧ ∀ l, c0 ≠ Dropping l) as (c0 & Hc0 & ? & ?) by naive_solver.
    eapply lease_delete_ok; [done|done|done|naive_solver|done].
  - eapply keep_leases; [done|done|done|..]; naive_solver.
  - eapply keep_leases; [done|apply materialized_keeps|done|..]; naive_solver.
  - eapply keep_leases; [done|done|done|..]; naive_solver.
  - by apply lease_remove_ok.
  - eapply lease_delete_ok; [done|done|done|set_solver|set_solver].
Qed.

(** C25. However calls of [lock], cancellations, changes under leases and drops of leases
    interleave, an account is leased to one holder at a time, and no waiter is forgotten: the
    event it waits for was completed, or the lease that completes it is still held or being
    dropped. *)
Theorem leases_exclusive l0 s :
  rtc lease_step (lease_start l0) s →
  (∀ id id' l l', lease_calls s !! id = Some (Holding l) → lease_calls s !! id' = Some (Holding l') →
    lease_pubkey l = lease_pubkey l' → id = id') ∧
  (∀ id k n, lease_calls s !! id = Some (Waiting k n) → n ∈ notified s ∨
    ∃ id' l, released l = n ∧
      (lease_calls s !! id' = Some (Holding l) ∨ lease_calls s !! id' = Some (Dropping l))).
Proof.
  intros Hrun. assert (Hs : lease_ok s).
  { assert (H0 : lease_ok (lease_start l0)) by (constructor; simpl; intros *; rewrite lookup_empty; done).
    clear -Hrun H0. induction Hrun; [done|]. eauto using lease_step_ok. }
  split; [|apply Hs]. intros id id' l l' Hl Hl' E. apply (l_once s Hs _ _ _ _ Hl Hl').
  pose proof (l_held s Hs _ _ Hl). pose proof (l_held s Hs _ _ Hl'). congruence.
Qed.

End lease.
Arguments AccountCache L : clear implicits.
Arguments LeaseState L : clear implicits.

(** Two calls for one account: the second waits, and claims after the first has dropped. *)
#[local] Instance list_recency : RecencyCache (list Pubkey) := {|
  lru_contains l k := bool_decide (k ∈ l);
  lru_get l k := k :: filter (λ k', k' ≠ k) l;
  lru_put l k := (take 2 (k :: l), l !! 1%nat);
  lru_remove l k := filter (λ k', k' ≠ k) l;
|}.

Ltac lease_state := cbn [account_cache lease_calls fresh notified with_call with_reservations reservations lru evictions lease_start].

Lemma leases_exclusive_witness :
  ∃ s : LeaseState (list Pubkey), rtc lease_step (lease_start []) s ∧
    lease_calls s !! 1%nat = Some (Holding {| lease_pubkey := [1]; released := 1; observed := None |}) ∧
    (∀ id l, lease_calls s !! id = Some (Holding l) → lease_pubkey l = [1] → id = 1%nat).
Proof.
  assert (∃ s : LeaseState (list Pubkey), rtc lease_step (lease_start []) s ∧
    lease_calls s !! 1%nat = Some (Holding {| lease_pubkey := [1]; released := 1; observed := None |})) as (s & Hrun & H1).
  { eexists. split.
    { eapply rtc_l; [apply (lease_lock _ 0%nat [1]); reflexivity|lease_state].
      eapply rtc_l; [apply (lease_lock _ 1%nat [1]); reflexivity|lease_state].
      eapply rtc_l; [eapply (lease_acquire _ 0%nat [1]); vm_compute; reflexivity|lease_state].
      eapply rtc_l; [eapply (lease_busy _ 1%nat [1]); vm_compute; reflexivity|lease_state].
      eapply rtc_l; [eapply (lease_remove _ 0%nat); vm_compute; reflexivity|lease_state].
      eapply rtc_l; [eapply (lease_notify _ 0%nat); vm_compute; reflexivity|lease_state].
      eapply rtc_l; [eapply (lease_wake _ 1%nat [1] 0%nat); [vm_compute; reflexivity|apply list_elem_of_here]|lease_state].
      eapply rtc_l; [eapply (lease_acquire _ 1%nat [1]); vm_compute; reflexivity|lease_state].
      apply rtc_refl. }
    vm_compute; reflexivity. }
  exists s. split_and!; [done|done|]. intros id l Hl Hk.
  apply (proj1 (leases_exclusive [] s Hrun) id 1%nat l _ Hl H1 Hk).
Defined.
