(* ===== verification/Serialize.v ===== *)
(** * Program inputs ([solana/program-runtime/src/serialization.rs])

    The parameters of an instruction as the virtual machine sees them: a buffer with the fields
    of its accounts, and regions that map the buffer and the data of the accounts side by side in
    the address space of the program. After the program ran, the fields are read back. *)

From stdpp Require Import base list numbers option.
From S2P Require Import Prelude Effects Memory AccountMode Account CtxAccounts CtxInstruction CtxStack Invoke.

Local Open Scope Z_scope.

(** ** Constants of the entrypoint and of the virtual machine *)

Definition MAX_PERMITTED_DATA_INCREASE : Z := 1024 * 10.
Definition BPF_ALIGN_OF_U128 : Z := 8.
Definition NON_DUP_MARKER : Z := 255.
Definition MM_INPUT_START : Z := 4 * 2 ^ 32.
Definition MAX_PERMITTED_DATA_LENGTH : Z := 10 * 1024 * 1024.
Definition MAX_ACCOUNTS_PER_INSTRUCTION : Z := 255.

(** ** Regions *)

(** What a region shows: a range of the buffer, or the data of an account. *)
Inductive HostSlice := BufferSlice (start stop : Z) | AccountSlice (index : Z).
Record InputRegion := { ir_host : HostSlice; ir_region : MemoryRegion }.

(** [MemoryRegion::new] from a mutable or a constant slice. *)
Definition region_new (host : HostSlice) (vaddr len : Z) (writable : bool) : InputRegion :=
  {| ir_host := host;
     ir_region := {| region_vm_addr := vaddr; region_len := len; region_writable := writable; payload := None;
                     backing := match host with AccountSlice i => Some i | BufferSlice _ _ => None end |} |}.
Definition with_payload (r : InputRegion) (p : option Z) : InputRegion :=
  {| ir_host := ir_host r;
     ir_region := {| region_vm_addr := region_vm_addr (ir_region r); region_len := region_len (ir_region r);
                     region_writable := region_writable (ir_region r); payload := p; backing := backing (ir_region r) |} |}.

Definition account_data_region_size (is_loader_deprecated : bool) (data_len : Z) : Z :=
  if is_loader_deprecated then data_len else saturating_add 64 data_len MAX_PERMITTED_DATA_INCREASE.

(** A call fails, or stops at an [unwrap]. *)
Inductive SerializeFault := Fault (e : InstructionError) | Panicked.
Abbreviation Ser := (Eff SerializeFault TransactionAccounts).
Definition try_op {A} (p : Op TransactionAccounts A) : Ser A := λ a,
  let '(r, a) := p a in (map_err Fault r, a).
Definition unwrap_op {A} (p : Op TransactionAccounts A) : Ser A := λ a,
  let '(r, a) := p a in (map_err (λ _, Panicked) r, a).
Definition unwrap_result {E A} (r : result E A) : Ser A := λ a, (map_err (λ _, Panicked) r, a).

Section regions.
(** Whether the buffer of an owned account has other owners. *)
Context (shared : nat → bool).

Definition bia_is_shared (b : BorrowedInstructionAccount) : Op TransactionAccounts bool :=
  s ← borrowed_account b;
  mret (shared (handle_index b) || match cow s with Borrowed _ => true | Owned _ => false end).
Definition data_changeable (b : BorrowedInstructionAccount) : Op TransactionAccounts bool :=
  read (λ a, is_ok (can_data_be_changed b a).1).

Definition create_memory_region_of_account (b : BorrowedInstructionAccount) (vaddr : Z) : Op TransactionAccounts InputRegion :=
  changeable ← data_changeable b;
  sh ← bia_is_shared b;
  let index := index_in_transaction (instruction_account b) in
  region ← (if changeable && negb sh
            then _ ← bia_get_data_mut b; data ← get_data b; mret (region_new (AccountSlice index) vaddr (zlen data) true)
            else data ← get_data b; mret (region_new (AccountSlice index) vaddr (zlen data) false));
  mret (if (changeable : bool) then with_payload region (Some index) else region).

Definition modify_memory_region_of_account (b : BorrowedInstructionAccount) (r : InputRegion) : Op TransactionAccounts InputRegion :=
  data ← get_data b;
  changeable ← data_changeable b;
  mret {| ir_host := ir_host r;
          ir_region := {| region_vm_addr := region_vm_addr (ir_region r); region_len := zlen data;
                          region_writable := changeable;
                          payload := if (changeable : bool) then Some (index_in_transaction (instruction_account b)) else None;
                          backing := backing (ir_region r) |} |}.

(** ** The serializer

    A write is unchecked: that it stays within the capacity is a theorem. Guest addresses are sums
    of lengths in memory, so that they do not wrap. *)

Record Serializer := {
  s_buffer : list Z;
  s_capacity : Z;
  s_regions : list InputRegion;
  s_vaddr : Z;
  s_region_start : Z;
  s_is_loader_v1 : bool;
}.

Definition serializer_new (size start_addr : Z) (is_loader_v1 : bool) : Serializer :=
  {| s_buffer := []; s_capacity := size; s_regions := []; s_vaddr := start_addr; s_region_start := 0;
     s_is_loader_v1 := is_loader_v1 |}.
Definition with_buffer (s : Serializer) (bs : list Z) : Serializer :=
  {| s_buffer := bs; s_capacity := s_capacity s; s_regions := s_regions s; s_vaddr := s_vaddr s;
     s_region_start := s_region_start s; s_is_loader_v1 := s_is_loader_v1 s |}.

(** The address of the end of the buffer. *)
Definition write_address (s : Serializer) : Z :=
  saturating_sub (saturating_add 64 (s_vaddr s) (zlen (s_buffer s))) (s_region_start s).
Definition write_all (bs : list Z) (s : Serializer) : Z * Serializer :=
  (write_address s, with_buffer s (s_buffer s ++ bs)).
Definition write_u8 (v : Z) : Serializer → Z * Serializer := write_all (le_bytes 1 v).
Definition write_u64 (v : Z) : Serializer → Z * Serializer := write_all (le_bytes 8 v).
(** [AlignedMemory::fill_write] checks the capacity. *)
Definition fill_write (num value : Z) (s : Serializer) : option Serializer :=
  if s_capacity s <? zlen (s_buffer s) + num then None
  else Some (with_buffer s (s_buffer s ++ replicate (Z.to_nat num) value)).

Definition push_region (s : Serializer) : Serializer :=
  let stop := zlen (s_buffer s) in
  let len := stop - s_region_start s in
  {| s_buffer := s_buffer s; s_capacity := s_capacity s;
     s_regions := s_regions s ++ [region_new (BufferSlice (s_region_start s) stop) (s_vaddr s) len true];
     s_vaddr := s_vaddr s + len; s_region_start := stop; s_is_loader_v1 := s_is_loader_v1 s |}.

Definition push_account (s : Serializer) (r : InputRegion) (reserved : Z) : Serializer :=
  {| s_buffer := s_buffer s; s_capacity := s_capacity s; s_regions := s_regions s ++ [r];
     s_vaddr := s_vaddr s + reserved; s_region_start := s_region_start s; s_is_loader_v1 := s_is_loader_v1 s |}.
Definition skip_padding (s : Serializer) (n : Z) : Serializer :=
  {| s_buffer := s_buffer s; s_capacity := s_capacity s; s_regions := s_regions s; s_vaddr := s_vaddr s;
     s_region_start := s_region_start s + n; s_is_loader_v1 := s_is_loader_v1 s |}.

Definition write_account (b : BorrowedInstructionAccount) (s : Serializer) : Op TransactionAccounts (Z * Serializer) :=
  let s := push_region s in
  let vm_data_addr := s_vaddr s in
  data ← get_data b;
  let reserved := account_data_region_size (s_is_loader_v1 s) (zlen data) in
  s ← (if 0 <? reserved
       then r ← create_memory_region_of_account b (s_vaddr s); mret (push_account s r reserved)
       else mret s);
  if s_is_loader_v1 s then mret (vm_data_addr, s)
  else
    data ← get_data b;
    let align_offset := align_offset (zlen data) BPF_ALIGN_OF_U128 in
    s ← lift (ok_or (fill_write BPF_ALIGN_OF_U128 0 s) InvalidArgument);
    mret (vm_data_addr, skip_padding s (saturating_sub BPF_ALIGN_OF_U128 align_offset)).

Definition serializer_finish (s : Serializer) : list Z * list InputRegion :=
  let s := push_region s in (s_buffer s, s_regions s).

(** ** Serialization *)

Inductive SerializeAccount := SAccount (index : Z) (b : BorrowedInstructionAccount) | SDuplicate (index : Z).

(** The handles that a call still holds are dropped when it returns. *)
Definition drop_handle (b : BorrowedInstructionAccount) : TransactionAccounts → TransactionAccounts :=
  drop_ref_mut (index_in_transaction (instruction_account b)).
Definition drop_accounts (l : list SerializeAccount) (a : TransactionAccounts) : TransactionAccounts :=
  foldl (λ a x, match x with SAccount _ b => drop_handle b a | SDuplicate _ => a end) a l.

Definition get_key (b : BorrowedInstructionAccount) : Op TransactionAccounts Pubkey := λ a,
  match accounts a !! handle_index b with Some (k, _) => (Ok k, a) | None => (Err MissingAccount, a) end.
Definition bool_byte (b : bool) : Z := if b then 1 else 0.

(** The sizes computed before the buffer is made. *)
Definition v0_entry_size (x : SerializeAccount) : Z :=
  match x with SDuplicate _ => 1 | SAccount _ _ => 1 + (1 + 1 + 32 + 8 + 8 + 32 + 1 + 8) end.
Definition v0_size (l : list SerializeAccount) (data_len : Z) : Z :=
  8 + foldr (λ x n, v0_entry_size x + n) 0 l + (8 + data_len + 32).
Definition v1_entry_size (x : SerializeAccount) : Z :=
  match x with SDuplicate _ => 1 + 7 | SAccount _ _ => 1 + (1 + 1 + 1 + 4 + 32 + 32 + 8 + 8 + 8) + BPF_ALIGN_OF_U128 end.
Definition v1_size (l : list SerializeAccount) (data_len : Z) : Z :=
  8 + foldr (λ x n, v1_entry_size x + n) 0 l + (8 + data_len + 32).

(** The fields of an account, in the order of the format, and its metadata. *)
Definition serialize_account_v0 (b : BorrowedInstructionAccount) (s : Serializer)
    : Op TransactionAccounts (SerializedAccountMetadata * Serializer) :=
  let '(vm_addr, s) := write_u8 NON_DUP_MARKER s in
  let '(_, s) := write_u8 (bool_byte (account_is_signer (instruction_account b))) s in
  let '(_, s) := write_u8 (bool_byte (account_is_writable (instruction_account b))) s in
  key ← get_key b;
  let '(vm_key_addr, s) := write_all key s in
  core ← get_core b;
  let '(vm_lamports_addr, s) := write_u64 (lamports core) s in
  data ← get_data b;
  let '(_, s) := write_u64 (zlen data) s in
  r ← write_account b s;
  let '(vm_data_addr, s) := r in
  core ← get_core b;
  let '(vm_owner_addr, s) := write_all (owner core) s in
  let '(_, s) := write_u8 (bool_byte (contains (flags core) EXECUTABLE)) s in
  let '(_, s) := write_u64 (umax 64) s in
  data ← get_data b;
  mret ({| vm_addr_ := vm_addr; original_data_len := zlen data; vm_data_addr := vm_data_addr; vm_key_addr := vm_key_addr;
           vm_lamports_addr := vm_lamports_addr; vm_owner_addr := vm_owner_addr |}, s).

Definition serialize_account_v1 (b : BorrowedInstructionAccount) (s : Serializer)
    : Op TransactionAccounts (SerializedAccountMetadata * Serializer) :=
  core ← get_core b;
  let '(vm_addr, s) := write_u8 NON_DUP_MARKER s in
  let '(_, s) := write_u8 (bool_byte (account_is_signer (instruction_account b))) s in
  let '(_, s) := write_u8 (bool_byte (account_is_writable (instruction_account b))) s in
  let '(_, s) := write_u8 (bool_byte (contains (flags core) EXECUTABLE)) s in
  let '(_, s) := write_all [0; 0; 0; 0] s in
  key ← get_key b;
  let '(vm_key_addr, s) := write_all key s in
  let '(vm_owner_addr, s) := write_all (owner core) s in
  let '(vm_lamports_addr, s) := write_u64 (lamports core) s in
  data ← get_data b;
  let '(_, s) := write_u64 (zlen data) s in
  r ← write_account b s;
  let '(vm_data_addr, s) := r in
  let '(_, s) := write_u64 (umax 64) s in
  data ← get_data b;
  mret ({| vm_addr_ := vm_addr; original_data_len := zlen data; vm_data_addr := vm_data_addr; vm_key_addr := vm_key_addr;
           vm_lamports_addr := vm_lamports_addr; vm_owner_addr := vm_owner_addr |}, s).

Definition write_duplicate (v1 : bool) (position : Z) (s : Serializer) : Serializer :=
  let '(_, s) := write_u8 (wrap 8 position) s in
  if v1 then (write_all (replicate 7 0) s).2 else s.

(** The loop over the accounts: a handle is dropped at the end of its turn, and a failed turn
    drops the rest. *)
Fixpoint serialize_accounts (v1 : bool) (l : list SerializeAccount) (metas : list SerializedAccountMetadata) (s : Serializer)
    : Ser (list SerializedAccountMetadata * Serializer) := λ a,
  match l with
  | [] => (Ok (metas, s), a)
  | SDuplicate position :: l =>
      match metas !! Z.to_nat position with
      | None => (Err Panicked, a)
      | Some meta => serialize_accounts v1 l (metas ++ [meta]) (write_duplicate v1 position s) a
      end
  | SAccount _ b :: l =>
      match (if v1 then serialize_account_v1 b s else serialize_account_v0 b s) a with
      | (Err e, a) => (Err (Fault e), drop_accounts l (drop_handle b a))
      | (Ok (meta, s), a) => serialize_accounts v1 l (metas ++ [meta]) s (drop_handle b a)
      end
  end.

(** The buffer, the regions, the metadata and the address of the instruction data. *)
Definition SerializedInput : Type := list Z * list InputRegion * list SerializedAccountMetadata * Z.

Definition write_instruction (data : list Z) (program_id : Pubkey) (s : Serializer) : Z * Serializer :=
  let '(_, s) := write_u64 (zlen data) s in
  let '(offset, s) := write_all data s in
  let '(_, s) := write_all program_id s in
  (offset, s).

Definition serialize_parameters_for_abiv0 (l : list SerializeAccount) (data : list Z) (program_id : Pubkey) : Ser SerializedInput :=
  let s := serializer_new (v0_size l (zlen data)) MM_INPUT_START true in
  let '(_, s) := write_u64 (zlen l) s in
  r ← serialize_accounts false l [] s;
  let '(metas, s) := r in
  let '(offset, s) := write_instruction data program_id s in
  let '(buffer, regions) := serializer_finish s in
  mret (buffer, regions, metas, offset).

(** With account pointers, the array of their addresses follows the parameters, aligned. *)
Definition pointers_size (direct : bool) (l : list SerializeAccount) (size : Z) : Z :=
  if direct then align_offset size BPF_ALIGN_OF_U128 + zlen l * 8 else 0.
Definition write_pointers (direct : bool) (offset : Z) (metas : list SerializedAccountMetadata) (s : Serializer) : option Serializer :=
  if direct
  then (λ s, foldl (λ s meta, (write_u64 (vm_addr_ meta) s).2) s metas) <$> fill_write offset 0 s
  else Some s.

Definition serialize_parameters_for_abiv1 (l : list SerializeAccount) (data : list Z) (program_id : Pubkey) (direct : bool)
    : Ser SerializedInput :=
  let size := v1_size l (zlen data) in
  let s := serializer_new (size + pointers_size direct l size) MM_INPUT_START false in
  let '(_, s) := write_u64 (zlen l) s in
  r ← serialize_accounts true l [] s;
  let '(metas, s) := r in
  let '(offset, s) := write_instruction data program_id s in
  s ← lift (ok_or (write_pointers direct (align_offset size BPF_ALIGN_OF_U128) metas s) (Fault InvalidArgument));
  let '(buffer, regions) := serializer_finish s in
  mret (buffer, regions, metas, offset).

(** The accounts of the instruction: duplicates by position, the others borrowed. *)
Fixpoint collect_accounts (ic : InstructionContext) (indexes : list nat) : Ser (list SerializeAccount) :=
  match indexes with
  | [] => mret []
  | i :: indexes =>
      duplicate ← unwrap_result (is_instruction_account_duplicate ic (Z.of_nat i));
      x ← (match duplicate with
           | Some index => mret (SDuplicate index)
           | None => b ← unwrap_op (try_borrow_instruction_account ic (Z.of_nat i)); mret (SAccount (Z.of_nat i) b)
           end);
      l ← collect_accounts ic indexes;
      mret (x :: l)
  end.

(** ** Deserialization *)

Definition slice_get (bs : list Z) (start n : Z) : option (list Z) :=
  if (0 <=? start) && (start + n <=? zlen bs) then Some (take (Z.to_nat n) (drop (Z.to_nat start) bs)) else None.
Definition read_u64 (buffer : list Z) (start : Z) : Op TransactionAccounts Z :=
  lift (ok_or (le_num <$> slice_get buffer start 8) InvalidArgument).

Definition update_lamports (b : BorrowedInstructionAccount) (v : Z) : Op TransactionAccounts unit :=
  core ← get_core b; if lamports core =? v then mret tt else bia_set_lamports b v.
Definition update_length (b : BorrowedInstructionAccount) (n : Z) : Op TransactionAccounts unit :=
  data ← get_data b; if zlen data =? n then mret tt else bia_set_data_length b n.

(** The fields of one account; [start] is behind the marker, and the result behind the account. *)
Definition deserialize_account_v0 (b : BorrowedInstructionAccount) (buffer : list Z) (start pre_len : Z)
    : Op TransactionAccounts Z :=
  let start := start + 1 + 1 + 32 in
  v ← read_u64 buffer start;
  _ ← update_lamports b v;
  let start := start + (8 + 8) in
  _ ← update_length b pre_len;
  mret (start + (32 + 1 + 8)).

Definition deserialize_account_v1 (b : BorrowedInstructionAccount) (buffer : list Z) (start pre_len : Z)
    : Op TransactionAccounts Z :=
  let start := start + (1 + 1 + 1 + 4 + 32) in
  new_owner ← lift (ok_or (slice_get buffer start 32) InvalidArgument);
  let start := start + 32 in
  v ← read_u64 buffer start;
  _ ← update_lamports b v;
  let start := start + 8 in
  post_len ← read_u64 buffer start;
  let start := start + 8 in
  _ ← ensure (negb ((MAX_PERMITTED_DATA_INCREASE <? saturating_sub post_len pre_len) || (MAX_PERMITTED_DATA_LENGTH <? post_len)))
        InvalidRealloc;
  _ ← update_length b post_len;
  let start := start + BPF_ALIGN_OF_U128 + 8 in
  core ← get_core b;
  _ ← (if bool_decide (owner core = new_owner) then mret tt else bia_set_owner b new_owner);
  mret start.

(** The handle is dropped at the end of the turn, whatever its result. *)
Definition with_handle {A} (ic : InstructionContext) (i : Z) (f : BorrowedInstructionAccount → Op TransactionAccounts A)
    : Op TransactionAccounts A :=
  b ← try_borrow_instruction_account ic i;
  (λ a, let '(r, a) := f b a in (r, drop_handle b a)) : Op TransactionAccounts A.

Fixpoint deserialize_accounts (v1 : bool) (ic : InstructionContext) (buffer : list Z) (l : list (nat * Z)) (start : Z)
    : Op TransactionAccounts unit :=
  match l with
  | [] => mret tt
  | (i, pre_len) :: l =>
      duplicate ← lift (is_instruction_account_duplicate ic (Z.of_nat i));
      let start := start + 1 in
      start ← (match duplicate with
               | Some _ => mret (if v1 then start + 7 else start)
               | None => with_handle ic (Z.of_nat i) (λ b,
                   if v1 then deserialize_account_v1 b buffer start pre_len else deserialize_account_v0 b buffer start pre_len)
               end);
      deserialize_accounts v1 ic buffer l start
  end.

Section entry.
Context {Code : Type} `{PR : !ProgramRuntime Code}.

Definition serialize_parameters (c : TransactionContext) (ic : InstructionContext) (direct : bool) : Ser SerializedInput :=
  let n := zlen (ic_accounts ic) in
  _ ← ensure (n <=? MAX_ACCOUNTS_PER_INSTRUCTION) (Fault MaxAccountsExceeded);
  program_id ← lift (map_err Fault (get_program_key c ic));
  o ← try_op (get_program_owner ic);
  l ← collect_accounts ic (seq 0 (Z.to_nat n));
  if bool_decide (o = bpf_loader_deprecated) then serialize_parameters_for_abiv0 l (ic_data ic) program_id
  else serialize_parameters_for_abiv1 l (ic_data ic) program_id direct.

Definition deserialize_parameters (ic : InstructionContext) (buffer : list Z) (metas : list SerializedAccountMetadata)
    : Op TransactionAccounts unit :=
  o ← get_program_owner ic;
  let lengths := original_data_len <$> metas in
  deserialize_accounts (negb (bool_decide (o = bpf_loader_deprecated))) ic buffer
    (zip (seq 0 (length (ic_accounts ic))) lengths) 8.

End entry.
End regions.
