(* ===== verification/SerializeProps.v ===== *)
(** * Properties of program inputs

    The writes stay within the buffer, the program finds every field where its metadata says, and
    reading back an untouched buffer changes nothing. *)

From stdpp Require Import base list numbers option sets sorting.
From S2P Require Import Prelude Effects Memory AccountMode Account CtxAccounts CtxInstruction CtxOps CtxRun CtxStack Invoke InvokeExample Serialize.

Local Open Scope Z_scope.

(** ** What serialization leaves of the accounts *)

(** The value of an account is its key and its state, without the dirty markers. *)
Definition values (a : TransactionAccounts) : list (Pubkey * CoWAccount) := (λ p, (p.1, cow p.2)) <$> accounts a.
Definition cow_core (m : mem) (c : CoWAccount) : AccountCore := core_of m {| cow := c; dirty_bits := 0 |}.

Record inert (a a' : TransactionAccounts) : Prop := {
  in_storage : storage a' = storage a;
  in_values : values a' = values a;
  in_resize : resize_delta a' = resize_delta a;
  in_lamports : lamports_delta a' = lamports_delta a;
  in_flags : length (touched_flags a') = length (touched_flags a);
}.

#[export] Instance inert_preorder : PreOrder inert.
Proof. split; [done|]. intros a1 a2 a3 [] []. constructor; congruence. Qed.

Lemma inert_counters a c : inert a (with_counters a c).
Proof. by constructor. Qed.

Section values.
Context (shared : nat → bool) (b : BorrowedInstructionAccount).

Lemma values_lookup a k c :
  values a !! handle_index b = Some (k, c) → ∃ s, accounts a !! handle_index b = Some (k, s) ∧ cow s = c.
Proof. unfold values. rewrite list_lookup_fmap, fmap_Some. intros ((k' & s) & E & [= -> ->]). eauto. Qed.

Lemma get_key_run a k c : values a !! handle_index b = Some (k, c) → get_key b a = (Ok k, a).
Proof. intros (s & E & _)%values_lookup. unfold get_key. by rewrite E. Qed.
Lemma borrowed_account_run a k c :
  values a !! handle_index b = Some (k, c) → ∃ s, borrowed_account b a = (Ok s, a) ∧ cow s = c.
Proof. intros (s & E & Hc)%values_lookup. unfold borrowed_account. rewrite E. eauto. Qed.
Lemma get_core_run a k c : values a !! handle_index b = Some (k, c) → get_core b a = (Ok (cow_core (storage a) c), a).
Proof.
  intros H. destruct (borrowed_account_run a k c H) as (s & E & <-). unfold get_core. op_ok E. unfold read. by destruct s.
Qed.
Lemma get_data_run a k c : values a !! handle_index b = Some (k, c) → get_data b a = (Ok (cow_data (storage a) c), a).
Proof. intros H. destruct (borrowed_account_run a k c H) as (s & E & <-). unfold get_data. by op_ok E. Qed.

(** Marking an owned account changes no value. *)
Lemma update_inert f a k o :
  values a !! handle_index b = Some (k, Owned o) →
  (∀ m s, cow s = Owned o → (f m s).1 = m ∧ cow (f m s).2 = Owned o) →
  ∃ a', update_account b f a = (Ok tt, a') ∧ inert a a' ∧ borrow_counters a' = borrow_counters a.
Proof.
  intros (s & E & Hc)%values_lookup Hf. unfold update_account. rewrite E.
  destruct (f (storage a) s) as [m s'] eqn:Ef. destruct (Hf (storage a) s Hc) as [E1 E2]. rewrite Ef in E1, E2. simpl in E1, E2.
  eexists. split; [done|]. split; [|done]. constructor; simpl; try done. unfold values. simpl.
  rewrite list_fmap_insert. simpl. rewrite E2, <- Hc. apply list_insert_id. by rewrite list_lookup_fmap, E.
Qed.

Lemma get_data_mut_run a k o :
  values a !! handle_index b = Some (k, Owned o) → (handle_index b < length (touched_flags a))%nat →
  can_data_be_changed b a = (Ok tt, a) →
  ∃ a', bia_get_data_mut b a = (Ok tt, a') ∧ inert a a' ∧ borrow_counters a' = borrow_counters a.
Proof.
  intros Hv Hlt Hch. unfold bia_get_data_mut. op_ok Hch.
  assert (∃ a1, handle_touch b a = (Ok tt, a1) ∧ inert a a1 ∧ borrow_counters a1 = borrow_counters a) as (a1 & E1 & I1 & C1).
  { unfold handle_touch, account_touch. fold (handle_index b). destruct (lookup_lt_is_Some_2 _ _ Hlt) as (x & ->).
    eexists. split; [done|]. split; [|done]. constructor; simpl; try done. by rewrite length_insert. }
  op_ok E1. rewrite <- (in_values _ _ I1) in Hv. unfold make_data_mut.
  destruct (update_inert (λ m s, (m, {| cow := cow_reserve m (cow s) MAX_ACCOUNT_DATA_GROWTH_PER_INSTRUCTION;
           dirty_bits := dirty_bits s |})) a1 k o Hv) as (a2 & E2 & I2 & C2).
  { intros m s Hs. simpl. by rewrite Hs. }
  op_ok E2. rewrite <- (in_values _ _ I2) in Hv.
  destruct (update_inert (λ m s, touch m s DATA) a2 k o Hv) as (a3 & E3 & I3 & C3).
  { intros m s Hs. unfold touch, translate. destruct (is_dirty s); simpl; [done|]. by rewrite Hs. }
  exists a3. split; [done|]. split; [|congruence]. by rewrite I1, I2, I3.
Qed.

(** The checks read only. *)
Lemma borrowed_pure a : ∃ r, borrowed_account b a = (r, a).
Proof. unfold borrowed_account. destruct (accounts a !! handle_index b) as [[]|]; eauto. Qed.
Lemma core_pure a : ∃ r, get_core b a = (r, a).
Proof.
  destruct (borrowed_pure a) as ([s|e] & E); unfold get_core; [op_ok E|rewrite (op_bind_err _ _ _ _ _ E)]; eexists; reflexivity.
Qed.
Lemma owned_pure a : ∃ r, is_owned_by_current_program b a = (r, a).
Proof.
  destruct (core_pure a) as ([s|e] & E); unfold is_owned_by_current_program; [op_ok E|rewrite (op_bind_err _ _ _ _ _ E)];
    eexists; reflexivity.
Qed.
Lemma changeable_pure a : ∃ r, can_data_be_changed b a = (r, a).
Proof.
  unfold can_data_be_changed. destruct (handle_is_writable b); [|by eexists]. cbv beta iota delta [ensure].
  rewrite (op_bind_ok (mret tt) _ a tt a eq_refl).
  destruct (owned_pure a) as ([[]|e] & E); [op_ok E..|rewrite (op_bind_err _ _ _ _ _ E); by eexists]; [|by eexists].
  cbv iota. rewrite (op_bind_ok (mret tt) _ a tt a eq_refl). unfold check_mutable.
  destruct (core_pure a) as ([c|e] & E2); [op_ok E2|rewrite (op_bind_err _ _ _ _ _ E2); by eexists].
  unfold ensure. destruct (is_writable (mode c)); by eexists.
Qed.

(** The region of an account shows its data. *)
Lemma create_region_run a k c vaddr :
  values a !! handle_index b = Some (k, c) → (handle_index b < length (touched_flags a))%nat →
  ∃ r a', create_memory_region_of_account shared b vaddr a = (Ok r, a') ∧ inert a a' ∧ borrow_counters a' = borrow_counters a ∧
    ir_host r = AccountSlice (index_in_transaction (instruction_account b)) ∧ region_vm_addr (ir_region r) = vaddr ∧
    region_len (ir_region r) = zlen (cow_data (storage a) c).
Proof.
  intros Hv Hlt. unfold create_memory_region_of_account, data_changeable. rewrite (op_bind_ok (read _) _ a _ a eq_refl).
  destruct (borrowed_account_run a k c Hv) as (s & Es & Hs). unfold bia_is_shared.
  assert (Esh : (s ← borrowed_account b; mret (shared (handle_index b) || match cow s with Borrowed _ => true | Owned _ => false end)) a
    = (Ok (shared (handle_index b) || match c with Borrowed _ => true | Owned _ => false end), a)) by (op_ok Es; by rewrite Hs).
  op_ok Esh. clear Esh. destruct (changeable_pure a) as (r & Ech). rewrite Ech. cbn [fst].
  assert (Hplain : ∃ r a', (data ← get_data b; mret (region_new (AccountSlice (index_in_transaction (instruction_account b)))
      vaddr (zlen data) false)) a = (Ok r, a') ∧ a' = a ∧ ir_host r = AccountSlice (index_in_transaction (instruction_account b)) ∧
      region_vm_addr (ir_region r) = vaddr ∧ region_len (ir_region r) = zlen (cow_data (storage a) c)).
  { op_ok (get_data_run a k c Hv). by eexists _, _. }
  destruct (is_ok r && negb (shared (handle_index b) || match c with Borrowed _ => true | Owned _ => false end)) eqn:Ec.
  - apply andb_true_iff in Ec as [Er Eo]. destruct r as [[]|]; [|done]. destruct c as [bo|o]; [by rewrite orb_true_r in Eo|].
    destruct (get_data_mut_run a k o Hv Hlt Ech) as (a' & Em & I & C).
    assert (Hv' : values a' !! handle_index b = Some (k, Owned o)) by by rewrite (in_values _ _ I).
    eexists _, a'. split.
    { rewrite (op_bind_ok _ _ a (region_new (AccountSlice (index_in_transaction (instruction_account b))) vaddr
        (zlen (o_data o)) true) a'); [reflexivity|]. op_ok Em. op_ok (get_data_run a' k _ Hv'). reflexivity. }
    split_and!; try done.
  - destruct Hplain as (r' & a' & E' & -> & H1 & H2 & H3). eexists _, a. split.
    { rewrite (op_bind_ok _ _ a _ a E'). reflexivity. }
    split_and!; [reflexivity|done|..]; destruct (is_ok r); done.
Qed.

End values.

(** ** Where the bytes are *)

Lemma slice_get_app bs more start n x : 0 ≤ n → slice_get bs start n = Some x → slice_get (bs ++ more) start n = Some x.
Proof.
  intros Hn. unfold slice_get. destruct ((0 <=? start) && (start + n <=? zlen bs)) eqn:E; [|done].
  apply andb_true_iff in E as [E1 E2]. rewrite zlen_app. pose proof (zlen_nonneg more). apply Z.leb_le in E1, E2.
  assert ((0 <=? start) && (start + n <=? zlen bs + zlen more) = true) as -> by (apply andb_true_iff; split; apply Z.leb_le; lia).
  intros [= <-]. f_equal. unfold zlen in *. rewrite drop_app_le by lia. by rewrite take_app_le by (rewrite length_drop; lia).
Qed.

Lemma slice_get_end bs x : slice_get (bs ++ x) (zlen bs) (zlen x) = Some x.
Proof.
  unfold slice_get. rewrite zlen_app. pose proof (zlen_nonneg bs).
  assert ((0 <=? zlen bs) && (zlen bs + zlen x <=? zlen bs + zlen x) = true) as ->.
  { apply andb_true_iff; split; apply Z.leb_le; lia. }
  f_equal. unfold zlen. rewrite !Nat2Z.id, drop_app_length. by rewrite firstn_all.
Qed.

Lemma slice_get_range bs start n x : slice_get bs start n = Some x → 0 ≤ start ∧ start + n ≤ zlen bs.
Proof. unfold slice_get. destruct (_ && _) eqn:E; [|done]. apply andb_true_iff in E as [E1%Z.leb_le E2%Z.leb_le]. done. Qed.

Definition before (r r' : InputRegion) : Prop :=
  region_vm_addr (ir_region r) + region_len (ir_region r) ≤ region_vm_addr (ir_region r').

(** The range of a buffer region is in the buffer. *)
Definition slice_ok (buffer_len : Z) (r : InputRegion) : Prop :=
  match ir_host r with
  | BufferSlice st sp => 0 ≤ st ≤ sp ∧ sp ≤ buffer_len ∧ region_len (ir_region r) = sp - st
  | AccountSlice _ => True
  end.

(** [reserved] is the address space that the accounts so far take. *)
Record ser_ok (s : Serializer) (reserved : Z) : Prop := {
  so_start : 0 ≤ s_region_start s ≤ zlen (s_buffer s);
  so_sorted : StronglySorted before (s_regions s);
  so_below : Forall (λ r, 0 ≤ region_len (ir_region r) ∧
    region_vm_addr (ir_region r) + region_len (ir_region r) ≤ s_vaddr s) (s_regions s);
  so_slices : Forall (slice_ok (zlen (s_buffer s))) (s_regions s);
  so_vaddr : 0 ≤ reserved ∧ MM_INPUT_START ≤ s_vaddr s ≤ MM_INPUT_START + s_region_start s + reserved;
}.

(** Bytes of a pushed region, and bytes of the region being filled. *)
Definition in_region (r : InputRegion) (addr p n : Z) : Prop :=
  ∃ st sp, ir_host r = BufferSlice st sp ∧ st ≤ p ∧ p + n ≤ sp ∧ addr = region_vm_addr (ir_region r) + (p - st).
Definition fixed_at (s : Serializer) (addr : Z) (bs : list Z) : Prop :=
  ∃ p r, r ∈ s_regions s ∧ slice_get (s_buffer s) p (zlen bs) = Some bs ∧ in_region r addr p (zlen bs).
Definition pending_at (s : Serializer) (addr : Z) (bs : list Z) : Prop :=
  ∃ p, slice_get (s_buffer s) p (zlen bs) = Some bs ∧ s_region_start s ≤ p ∧ addr = s_vaddr s + (p - s_region_start s).
Definition holds_at (s : Serializer) (addr : Z) (bs : list Z) : Prop := pending_at s addr bs ∨ fixed_at s addr bs.
Definition shows (s : Serializer) (addr index len : Z) : Prop :=
  ∃ r, r ∈ s_regions s ∧ ir_host r = AccountSlice index ∧ region_vm_addr (ir_region r) = addr ∧ region_len (ir_region r) = len.

(** A step of the serializer that keeps what is there. *)
Record extends (s s' : Serializer) : Prop := {
  ex_buffer : ∃ bs, s_buffer s' = s_buffer s ++ bs;
  ex_regions : ∃ rs, s_regions s' = s_regions s ++ rs;
  ex_capacity : s_capacity s' = s_capacity s;
  ex_loader : s_is_loader_v1 s' = s_is_loader_v1 s;
  ex_holds : ∀ addr bs, holds_at s addr bs → holds_at s' addr bs;
}.

#[export] Instance extends_preorder : PreOrder extends.
Proof.
  split.
  - intros s. constructor; try done; exists []; by rewrite app_nil_r.
  - intros s1 s2 s3 [(b1 & B1) (r1 & R1) C1 L1 H1] [(b2 & B2) (r2 & R2) C2 L2 H2]. constructor; [..|auto].
    + exists (b1 ++ b2). by rewrite B2, B1, app_assoc.
    + exists (r1 ++ r2). by rewrite R2, R1, app_assoc.
    + congruence.
    + congruence.
Qed.

Lemma fixed_grows s s' addr bs :
  (∃ x, s_buffer s' = s_buffer s ++ x) → (∃ rs, s_regions s' = s_regions s ++ rs) → fixed_at s addr bs → fixed_at s' addr bs.
Proof.
  intros (x & Ex) (rs & Er) (p & r & Hr & Hs & Hin). exists p, r. rewrite Ex, Er. split_and!; [set_solver|by apply slice_get_app; [apply zlen_nonneg|]|done].
Qed.
Lemma extends_shows s s' addr index len : extends s s' → shows s addr index len → shows s' addr index len.
Proof. intros [_ (rs & Er) _ _ _] (r & Hr & H). exists r. rewrite Er. set_solver. Qed.

(** *** Writes *)

Lemma with_buffer_extends s x : extends s (with_buffer s (s_buffer s ++ x)).
Proof.
  constructor; simpl; [by exists x|by exists []; rewrite app_nil_r|done|done|].
  intros addr bs [(p & Hp & H1 & H2)|Hf].
  - left. exists p. simpl. split_and!; [by apply slice_get_app; [apply zlen_nonneg|]|done|done].
  - right. eapply fixed_grows; [by eexists| |done]. exists []. by rewrite app_nil_r.
Qed.

Lemma with_buffer_ok s x R : ser_ok s R → ser_ok (with_buffer s (s_buffer s ++ x)) R.
Proof.
  intros [H1 H2 H3 H4 H5]. pose proof (zlen_nonneg x). constructor; simpl; try done; rewrite zlen_app; [lia|].
  eapply list.Forall_impl; [exact H4|]. intros r. unfold slice_ok. destruct (ir_host r); [|done]. lia.
Qed.

Lemma write_address_eq s R :
  ser_ok s R → MM_INPUT_START + R + 2 * zlen (s_buffer s) ≤ umax 64 →
  write_address s = s_vaddr s + (zlen (s_buffer s) - s_region_start s).
Proof.
  intros [H1 _ _ _ H5] Hroom. unfold write_address, saturating_add, saturating_sub, MM_INPUT_START in *. lia.
Qed.

Lemma write_holds s R bs :
  ser_ok s R → MM_INPUT_START + R + 2 * zlen (s_buffer s) ≤ umax 64 → holds_at (write_all bs s).2 (write_all bs s).1 bs.
Proof.
  intros Hs Hroom. left. exists (zlen (s_buffer s)). simpl. rewrite (write_address_eq s R) by done.
  split_and!; [apply slice_get_end|apply Hs|done].
Qed.

(** *** Regions *)

Lemma push_region_fixed s R addr bs : ser_ok s R → holds_at s addr bs → fixed_at (push_region s) addr bs.
Proof.
  intros Hs [(p & Hp & H1 & H2)|Hf].
  - exists p, (region_new (BufferSlice (s_region_start s) (zlen (s_buffer s))) (s_vaddr s) (zlen (s_buffer s) - s_region_start s) true).
    simpl. split_and!; [set_solver|done|]. apply slice_get_range in Hp as [_ Hp].
    exists (s_region_start s), (zlen (s_buffer s)). split_and!; [done|done|lia|]. simpl. lia.
  - eapply fixed_grows; [|by eexists|done]. exists []. by rewrite app_nil_r.
Qed.

Lemma push_region_extends s R : ser_ok s R → extends s (push_region s).
Proof.
  intros Hs. constructor; simpl; [by exists []; rewrite app_nil_r|by eexists|done|done|].
  intros addr bs H. right. by eapply push_region_fixed.
Qed.

Lemma regions_snoc rs r v :
  StronglySorted before rs →
  Forall (λ r, 0 ≤ region_len (ir_region r) ∧ region_vm_addr (ir_region r) + region_len (ir_region r) ≤ v) rs →
  v ≤ region_vm_addr (ir_region r) → StronglySorted before (rs ++ [r]).
Proof.
  intros Hs Hb Hv. apply StronglySorted_app_2; [|done|by repeat constructor].
  intros x y Hx ->%list_elem_of_singleton. unfold before. rewrite list.Forall_forall in Hb. destruct (Hb x Hx). lia.
Qed.

Lemma push_region_ok s R : ser_ok s R → ser_ok (push_region s) R.
Proof.
  intros [H1 H2 H3 H4 H5]. constructor; simpl; [lia|eapply regions_snoc; [done|done|simpl; lia]|..|lia].
  - apply list.Forall_app. split; [|apply list.Forall_singleton; simpl; lia].
    eapply list.Forall_impl; [exact H3|]. simpl. intros r. lia.
  - apply list.Forall_app. split; [done|]. apply list.Forall_singleton. unfold slice_ok. simpl. lia.
Qed.

Lemma push_account_ok s R r n index :
  ser_ok s R → ir_host r = AccountSlice index → region_vm_addr (ir_region r) = s_vaddr s →
  0 ≤ region_len (ir_region r) ≤ n → ser_ok (push_account s r n) (R + n).
Proof.
  intros [H1 H2 H3 H4 H5] Hh Ha Hl. constructor; simpl; [lia|eapply regions_snoc; [done|done|lia]|..|lia].
  - apply list.Forall_app. split; [|apply list.Forall_singleton; lia].
    eapply list.Forall_impl; [exact H3|]. simpl. intros r'. lia.
  - apply list.Forall_app. split; [done|]. apply list.Forall_singleton. unfold slice_ok. by rewrite Hh.
Qed.

(** ** The fields of an account *)

Record written (s s' : Serializer) (R' : Z) (bs : list Z) : Prop := {
  w_ok : ser_ok s' R';
  w_extends : extends s s';
  w_buffer : s_buffer s' = s_buffer s ++ bs;
}.

Lemma written_trans s s1 s2 R1 R2 b1 b2 : written s s1 R1 b1 → written s1 s2 R2 b2 → written s s2 R2 (b1 ++ b2).
Proof. intros [O1 E1 B1] [O2 E2 B2]. split; [done|by etransitivity|]. by rewrite B2, B1, app_assoc. Qed.

Lemma write_all_written s R bs : ser_ok s R → written s (write_all bs s).2 R bs.
Proof. intros Hs. split; [by apply with_buffer_ok|apply with_buffer_extends|done]. Qed.

Section account.
Context (shared : nat → bool) (b : BorrowedInstructionAccount).
Abbreviation index := (index_in_transaction (instruction_account b)).

Definition padding (loader_v1 : bool) : list Z := if loader_v1 then [] else replicate 8 0.

Lemma region_size_min loader n : 0 ≤ n ≤ umax 64 → n ≤ account_data_region_size loader n.
Proof.
  intros Hn. unfold account_data_region_size, saturating_add, MAX_PERMITTED_DATA_INCREASE. destruct loader; lia.
Qed.

Lemma region_size_room loader n :
  0 ≤ n → account_data_region_size loader n < umax 64 → n ≤ umax 64 ∧ 0 ≤ account_data_region_size loader n.
Proof.
  change (umax 64) with 18446744073709551615. unfold account_data_region_size, saturating_add, MAX_PERMITTED_DATA_INCREASE.
  change (umax 64) with 18446744073709551615. destruct loader; lia.
Qed.

Lemma fill_write_run s n : zlen (s_buffer s) + n ≤ s_capacity s →
  fill_write n 0 s = Some (with_buffer s (s_buffer s ++ replicate (Z.to_nat n) 0)).
Proof. intros H. unfold fill_write. by destruct (Z.ltb_spec (s_capacity s) (zlen (s_buffer s) + n)); [lia|]. Qed.

(** The padding behind the data of an account is cut from the next region. *)
Lemma skip_ok s R n off :
  ser_ok s R → s_region_start s = zlen (s_buffer s) → 0 ≤ off ≤ n →
  ser_ok (skip_padding (with_buffer s (s_buffer s ++ replicate (Z.to_nat n) 0)) off) R.
Proof.
  intros Hs Hst Hn. destruct (with_buffer_ok s (replicate (Z.to_nat n) 0) R Hs) as [H1 H2 H3 H4 H5].
  constructor; simpl in *; try done; [|lia]. rewrite zlen_app. unfold zlen at 2. rewrite length_replicate. lia.
Qed.

(** The region of the data, behind the fields written so far. *)
Lemma account_region_run a k c s R :
  let data := cow_data (storage a) c in
  let n := account_data_region_size (s_is_loader_v1 s) (zlen data) in
  ser_ok s R → values a !! handle_index b = Some (k, c) → (handle_index b < length (touched_flags a))%nat → zlen data ≤ umax 64 →
  ∃ s1 a1, (if 0 <? n then r ← create_memory_region_of_account shared b (s_vaddr (push_region s)); mret (push_account (push_region s) r n)
      else mret (push_region s)) a = (Ok s1, a1) ∧ inert a a1 ∧ borrow_counters a1 = borrow_counters a ∧ ser_ok s1 (R + n) ∧
    s_buffer s1 = s_buffer s ∧ (∃ rs, s_regions s1 = s_regions (push_region s) ++ rs) ∧ s_region_start s1 = zlen (s_buffer s) ∧
    s_capacity s1 = s_capacity s ∧ s_is_loader_v1 s1 = s_is_loader_v1 s ∧
    (zlen data ≠ 0 → shows s1 (s_vaddr (push_region s)) index (zlen data)).
Proof.
  intros data n Hs Hv Hlt Hmax. pose proof (zlen_nonneg data) as H0.
  assert (Hn : zlen data ≤ n) by (apply region_size_min; lia). destruct (Z.ltb_spec 0 n).
  - destruct (create_region_run shared b a k c (s_vaddr (push_region s)) Hv Hlt) as (r & a1 & E & I & C & Hh & Ha & Hl).
    op_ok E. eexists _, a1. split; [done|]. fold data in Hl. split_and!; try done.
    + eapply push_account_ok; [by apply push_region_ok|done|done|lia].
    + by eexists.
    + intros _. exists r. split_and!; [simpl; set_solver|done..].
  - exists (push_region s), a. assert (n = 0) as -> by lia. rewrite Z.add_0_r. split_and!; try done; [by apply push_region_ok| |lia].
    exists []. by rewrite app_nil_r.
Qed.

(** What is written before the region stays readable behind it. *)
Lemma pushed_extends s R s1 s2 :
  ser_ok s R → s_buffer s1 = s_buffer s → (∃ rs, s_regions s1 = s_regions (push_region s) ++ rs) →
  s_capacity s1 = s_capacity s → s_is_loader_v1 s1 = s_is_loader_v1 s →
  (∃ x, s_buffer s2 = s_buffer s1 ++ x) → s_regions s2 = s_regions s1 →
  s_capacity s2 = s_capacity s1 → s_is_loader_v1 s2 = s_is_loader_v1 s1 → extends s s2.
Proof.
  intros Hs B1 (rs1 & R1) Cap1 L1 (x & Ex) Er Ec El. constructor; [exists x; by rewrite Ex, B1| |congruence|congruence|].
  - rewrite Er, R1. simpl. eexists. by rewrite <- !app_assoc.
  - intros addr bs Hh. right. eapply fixed_grows; [| |eapply push_region_fixed; [exact Hs|exact Hh]].
    + exists x. by rewrite Ex, B1.
    + exists rs1. by rewrite Er, R1.
Qed.

Lemma write_account_run a k c s R :
  let data := cow_data (storage a) c in
  ser_ok s R → values a !! handle_index b = Some (k, c) → (handle_index b < length (touched_flags a))%nat →
  zlen data ≤ umax 64 → zlen (s_buffer s) + zlen (padding (s_is_loader_v1 s)) ≤ s_capacity s →
  ∃ addr s' a', write_account shared b s a = (Ok (addr, s'), a') ∧ inert a a' ∧ borrow_counters a' = borrow_counters a ∧
    written s s' (R + account_data_region_size (s_is_loader_v1 s) (zlen data)) (padding (s_is_loader_v1 s)) ∧
    (zlen data ≠ 0 → shows s' addr index (zlen data)).
Proof.
  intros data Hs Hv Hlt Hmax Hcap. unfold write_account. op_ok (get_data_run b a k c Hv). fold data.
  change (s_is_loader_v1 (push_region s)) with (s_is_loader_v1 s).
  destruct (account_region_run a k c s R Hs Hv Hlt Hmax) as (s1 & a1 & E1 & I1 & C1 & O1 & B1 & R1 & St1 & Cap1 & L1 & Sh1).
  fold data in E1, O1. set (n := account_data_region_size (s_is_loader_v1 s) (zlen data)) in *.
  op_ok E1. rewrite L1. pose proof (pushed_extends s R s1) as Hext.
  unfold padding in *. destruct (s_is_loader_v1 s) eqn:El.
  - eexists _, s1, a1. split; [done|]. split_and!; try done. split; [done| |by rewrite B1, app_nil_r].
    apply Hext; try done. exists []. by rewrite app_nil_r.
  - rewrite <- (in_values _ _ I1) in Hv. op_ok (get_data_run b a1 k c Hv).
    change (zlen (replicate 8 0)) with 8 in Hcap.
    assert (Ef : fill_write BPF_ALIGN_OF_U128 0 s1 = Some (with_buffer s1 (s_buffer s1 ++ replicate 8 0))).
    { change (replicate 8 0) with (replicate (Z.to_nat BPF_ALIGN_OF_U128) 0). apply fill_write_run. rewrite B1, Cap1. done. }
    rewrite Ef. rewrite (op_bind_ok (lift (ok_or (Some _) _)) _ a1 _ a1 eq_refl).
    eexists _, _, a1. split; [done|]. split_and!; try done. split.
    + assert (0 ≤ align_offset (zlen (cow_data (storage a1) c)) BPF_ALIGN_OF_U128 < 8).
      { unfold align_offset. apply Z.mod_pos_bound. done. }
      apply (skip_ok s1 (R + n) 8); [done|by rewrite St1, B1|unfold saturating_sub, BPF_ALIGN_OF_U128 in *; lia].
    + apply Hext; try done. by eexists.
    + simpl. by rewrite B1.
Qed.

(** The bytes of an account in the two formats. *)
Definition account_chunk (v1 : bool) (k : Pubkey) (core : AccountCore) (len : Z) : list Z :=
  let signer := le_bytes 1 (bool_byte (account_is_signer (instruction_account b))) in
  let writable := le_bytes 1 (bool_byte (account_is_writable (instruction_account b))) in
  let executable := le_bytes 1 (bool_byte (contains (flags core) EXECUTABLE)) in
  let marker := le_bytes 1 NON_DUP_MARKER in
  let rent_epoch := le_bytes 8 (umax 64) in
  if v1
  then marker ++ signer ++ writable ++ executable ++ [0; 0; 0; 0] ++ k ++ owner core ++ le_bytes 8 (lamports core) ++
       le_bytes 8 len ++ replicate 8 0 ++ rent_epoch
  else marker ++ signer ++ writable ++ k ++ le_bytes 8 (lamports core) ++ le_bytes 8 len ++ owner core ++ executable ++ rent_epoch.

(** The metadata leads to the fields. *)
Record meta_ok (s : Serializer) (k : Pubkey) (core : AccountCore) (len : Z) (meta : SerializedAccountMetadata) : Prop := {
  me_len : original_data_len meta = len;
  me_marker : holds_at s (vm_addr_ meta) (le_bytes 1 NON_DUP_MARKER);
  me_key : holds_at s (vm_key_addr meta) k;
  me_owner : holds_at s (vm_owner_addr meta) (owner core);
  me_lamports : holds_at s (vm_lamports_addr meta) (le_bytes 8 (lamports core));
  me_data : len ≠ 0 → shows s (vm_data_addr meta) index len;
}.

End account.

(** ** Sequences of writes *)

(** A write, and the bytes it leads to. *)
Record wrote (s s' : Serializer) (R : Z) (addr : Z) (bs : list Z) : Prop := {
  wr_written : written s s' R bs;
  wr_holds : holds_at s' addr bs;
}.

(** A sequence of writes has the bytes of all of them, and every address stays good. *)
Fixpoint wrote_all (s : Serializer) (R : Z) (l : list (Z * list Z)) (s' : Serializer) : Prop :=
  match l with
  | [] => s' = s
  | (addr, bs) :: l => ∃ s1, wrote s s1 R addr bs ∧ wrote_all s1 R l s'
  end.

Lemma wrote_all_written s R l s' :
  ser_ok s R → wrote_all s R l s' → written s s' R (concat l.*2) ∧ Forall (λ x, holds_at s' x.1 x.2) l.
Proof.
  revert s. induction l as [|[addr bs] l IH]; intros s Hs; simpl.
  - intros ->. split; [|constructor]. split; [done|reflexivity|by rewrite app_nil_r].
  - intros (s1 & [W H] & Hl). destruct (IH s1 (w_ok _ _ _ _ W) Hl) as [W' H']. split; [by eapply written_trans|].
    constructor; [|done]. by apply (ex_holds _ _ (w_extends _ _ _ _ W')).
Qed.

Fixpoint writes (l : list (list Z)) (s : Serializer) : list Z * Serializer :=
  match l with
  | [] => ([], s)
  | bs :: l => let '(addr, s) := write_all bs s in let '(addrs, s) := writes l s in (addr :: addrs, s)
  end.

Lemma writes_wrote l s R :
  ser_ok s R → MM_INPUT_START + R + 2 * (zlen (s_buffer s) + zlen (concat l)) ≤ umax 64 →
  length (writes l s).1 = length l ∧ wrote_all s R (zip (writes l s).1 l) (writes l s).2.
Proof.
  revert s. induction l as [|bs l IH]; intros s Hs Hroom; [done|]. cbn [writes concat] in *. rewrite zlen_app in Hroom.
  pose proof (zlen_nonneg (concat l)). pose proof (zlen_nonneg bs).
  pose proof (write_all_written s R bs Hs) as W. pose proof (write_holds s R bs Hs ltac:(lia)) as Hh.
  destruct (write_all bs s) as [addr s1] eqn:E. simpl in W, Hh.
  destruct (IH s1 (w_ok _ _ _ _ W)) as [I1 I2].
  { rewrite (w_buffer _ _ _ _ W), zlen_app. lia. }
  destruct (writes l s1) as [addrs s2]. simpl in *. split; [by rewrite I1|]. by exists s1.
Qed.

Section account_run.
Context (shared : nat → bool) (b : BorrowedInstructionAccount).

Definition pre_fields (v1 : bool) (k : Pubkey) (core : AccountCore) (len : Z) : list (list Z) :=
  let signer := le_bytes 1 (bool_byte (account_is_signer (instruction_account b))) in
  let writable := le_bytes 1 (bool_byte (account_is_writable (instruction_account b))) in
  let executable := le_bytes 1 (bool_byte (contains (flags core) EXECUTABLE)) in
  let marker := le_bytes 1 NON_DUP_MARKER in
  if v1
  then [marker; signer; writable; executable; [0; 0; 0; 0]; k; owner core; le_bytes 8 (lamports core); le_bytes 8 len]
  else [marker; signer; writable; k; le_bytes 8 (lamports core); le_bytes 8 len].
Definition post_fields (v1 : bool) (core : AccountCore) : list (list Z) :=
  let executable := le_bytes 1 (bool_byte (contains (flags core) EXECUTABLE)) in
  if v1 then [le_bytes 8 (umax 64)] else [owner core; executable; le_bytes 8 (umax 64)].

Lemma chunk_fields v1 k core len :
  account_chunk b v1 k core len = concat (pre_fields v1 k core len) ++ padding (negb v1) ++ concat (post_fields v1 core).
Proof. destruct v1; unfold account_chunk; simpl; rewrite ?app_nil_r, <- ?app_assoc; reflexivity. Qed.

(** The three parts of an account, in the order of the source. *)
Definition account_parts (v1 : bool) (k : Pubkey) (core : AccountCore) (len : Z) (s : Serializer)
    : Op TransactionAccounts (list Z * Z * list Z * Serializer) :=
  let '(pre, s) := writes (pre_fields v1 k core len) s in
  r ← write_account shared b s;
  let '(addr, s) := r in
  let '(post, s) := writes (post_fields v1 core) s in
  mret (pre, addr, post, s).

Lemma account_parts_run v1 a k c s R :
  let core := cow_core (storage a) c in
  let len := zlen (cow_data (storage a) c) in
  let R' := R + account_data_region_size (negb v1) len in
  let N := zlen (s_buffer s) + zlen (account_chunk b v1 k core len) in
  ser_ok s R → s_is_loader_v1 s = negb v1 →
  values a !! handle_index b = Some (k, c) → (handle_index b < length (touched_flags a))%nat →
  MM_INPUT_START + R' + 2 * N ≤ umax 64 → N ≤ s_capacity s →
  ∃ pre addr post s' a', account_parts v1 k core len s a = (Ok (pre, addr, post, s'), a') ∧
    inert a a' ∧ borrow_counters a' = borrow_counters a ∧ written s s' R' (account_chunk b v1 k core len) ∧
    length pre = length (pre_fields v1 k core len) ∧ length post = length (post_fields v1 core) ∧
    Forall (λ x, holds_at s' x.1 x.2) (zip pre (pre_fields v1 k core len)) ∧
    Forall (λ x, holds_at s' x.1 x.2) (zip post (post_fields v1 core)) ∧
    (len ≠ 0 → shows s' addr (index_in_transaction (instruction_account b)) len).
Proof.
  intros core len R' N Hs Hl Hv Hlt Hroom Hcap. subst N. rewrite chunk_fields, !zlen_app in Hroom, Hcap.
  pose proof (zlen_nonneg (padding (negb v1))). pose proof (zlen_nonneg (concat (post_fields v1 core))).
  pose proof (zlen_nonneg (s_buffer s)). pose proof (zlen_nonneg (concat (pre_fields v1 k core len))).
  pose proof (proj1 (so_vaddr s R Hs)) as HR.
  destruct (region_size_room (negb v1) len) as [Hlen Hsize]; [apply zlen_nonneg|unfold MM_INPUT_START in *; lia|].
  unfold account_parts.
  destruct (writes_wrote (pre_fields v1 k core len) s R Hs ltac:(lia)) as [Lp Hp].
  apply (wrote_all_written s R _ _ Hs) in Hp as [Wp Hp].
  destruct (writes (pre_fields v1 k core len) s) as [pre s1]. cbn [fst snd] in *.
  rewrite snd_zip in Wp by lia.
  pose proof (w_extends _ _ _ _ Wp) as Xp.
  destruct (write_account_run shared b a k c s1 R (w_ok _ _ _ _ Wp) Hv Hlt Hlen) as (addr & s2 & a' & E & I & C & Wa & Hsh).
  { rewrite (ex_loader _ _ Xp), Hl, (ex_capacity _ _ Xp), (w_buffer _ _ _ _ Wp), zlen_app. lia. }
  rewrite (ex_loader _ _ Xp), Hl in Wa. fold len R' in Wa. op_ok E.
  destruct (writes_wrote (post_fields v1 core) s2 R' (w_ok _ _ _ _ Wa)) as [Lq Hq].
  { rewrite (w_buffer _ _ _ _ Wa), (w_buffer _ _ _ _ Wp), !zlen_app. lia. }
  apply (wrote_all_written s2 R' _ _ (w_ok _ _ _ _ Wa)) in Hq as [Wq Hq].
  destruct (writes (post_fields v1 core) s2) as [post s3]. cbn [fst snd] in *.
  rewrite snd_zip in Wq by lia.
  eexists pre, addr, post, s3, a'. split; [reflexivity|]. split_and!; try done.
  - rewrite chunk_fields. eapply written_trans; [exact Wp|]. by eapply written_trans.
  - eapply list.Forall_impl; [exact Hp|]. intros x Hx.
    apply (ex_holds _ _ (w_extends _ _ _ _ Wq)), (ex_holds _ _ (w_extends _ _ _ _ Wa)), Hx.
  - intros Hne. eapply extends_shows; [apply Wq|]. by apply Hsh.
Qed.

(** The source writes these parts. *)
Definition part_meta (v1 : bool) (pre : list Z) (addr : Z) (post : list Z) (len : Z) : SerializedAccountMetadata :=
  {| vm_addr_ := default 0 (pre !! 0%nat); original_data_len := len; vm_data_addr := addr;
     vm_key_addr := default 0 (pre !! (if v1 then 5 else 3)%nat);
     vm_lamports_addr := default 0 (pre !! (if v1 then 7 else 4)%nat);
     vm_owner_addr := default 0 (if v1 then pre !! 6%nat else post !! 0%nat) |}.

Lemma serialize_account_parts v1 a k c s pre addr post s' a' :
  let core := cow_core (storage a) c in
  let len := zlen (cow_data (storage a) c) in
  values a !! handle_index b = Some (k, c) →
  account_parts v1 k core len s a = (Ok (pre, addr, post, s'), a') → inert a a' →
  (if v1 then serialize_account_v1 shared b s else serialize_account_v0 shared b s) a =
    (Ok (part_meta v1 pre addr post len, s'), a').
Proof.
  intros core len Hv H I. unfold account_parts in H.
  assert (Hv' : values a' !! handle_index b = Some (k, c)) by by rewrite (in_values _ _ I).
  pose proof (get_core_run b a' k c Hv') as Ec. pose proof (get_data_run b a' k c Hv') as Ed.
  rewrite (in_storage _ _ I) in Ec, Ed. fold core in Ec.
  destruct v1.
  - unfold serialize_account_v1. op_ok (get_core_run b a k c Hv). fold core. cbn [pre_fields writes] in H.
    cbv beta iota zeta delta [write_u8 write_u64 write_all] in *. cbv beta iota zeta.
    op_ok (get_key_run b a k c Hv). op_ok (get_data_run b a k c Hv). fold len.
    apply op_bind_inv_ok in H as ([addr' s10] & a1 & E & H). op_ok E. cbn in H. injection H as <- <- <- <- <-. op_ok Ed. done.
  - unfold serialize_account_v0. cbn [pre_fields writes] in H.
    cbv beta iota zeta delta [write_u8 write_u64 write_all] in *. cbv beta iota zeta.
    op_ok (get_key_run b a k c Hv). op_ok (get_core_run b a k c Hv). op_ok (get_data_run b a k c Hv). fold core len.
    apply op_bind_inv_ok in H as ([addr' s10] & a1 & E & H). op_ok E. cbn in H. injection H as <- <- <- <- <-.
    op_ok Ec. op_ok Ed. done.
Qed.

Lemma serialize_account_run v1 a k c s R :
  let core := cow_core (storage a) c in
  let len := zlen (cow_data (storage a) c) in
  let R' := R + account_data_region_size (negb v1) len in
  let N := zlen (s_buffer s) + zlen (account_chunk b v1 k core len) in
  ser_ok s R → s_is_loader_v1 s = negb v1 →
  values a !! handle_index b = Some (k, c) → (handle_index b < length (touched_flags a))%nat →
  MM_INPUT_START + R' + 2 * N ≤ umax 64 → N ≤ s_capacity s →
  ∃ meta s' a', (if v1 then serialize_account_v1 shared b s else serialize_account_v0 shared b s) a = (Ok (meta, s'), a') ∧
    inert a a' ∧ borrow_counters a' = borrow_counters a ∧ written s s' R' (account_chunk b v1 k core len) ∧
    meta_ok b s' k core len meta.
Proof.
  intros core len R' N Hs Hl Hv Hlt Hroom Hcap.
  destruct (account_parts_run v1 a k c s R Hs Hl Hv Hlt Hroom Hcap) as (pre & addr & post & s' & a' & E & I & C & W & Lp & Lq & Hp & Hq & Hd).
  eexists _, s', a'. split; [by eapply serialize_account_parts|]. split_and!; try done.
  destruct v1; simpl in Lp, Lq; repeat (destruct pre as [|? pre]; simpl in Lp; try lia); repeat (destruct post as [|? post]; simpl in Lq; try lia).
  all: repeat (apply list.Forall_cons in Hp as [? Hp]); repeat (apply list.Forall_cons in Hq as [? Hq]); by constructor.
Qed.

End account_run.

(** ** All accounts of an instruction *)

Lemma meta_ok_extends b s s' k core len meta : extends s s' → meta_ok b s k core len meta → meta_ok b s' k core len meta.
Proof.
  intros X [H1 H2 H3 H4 H5 H6]. pose proof (ex_holds _ _ X) as Hh. constructor; auto.
  intros Hne. eapply extends_shows; eauto.
Qed.

Section accounts.
Context (shared : nat → bool) (v1 : bool).

(** The account of a handle, read from the values. *)
Definition handle_value (a : TransactionAccounts) (b : BorrowedInstructionAccount) : option (Pubkey * AccountCore * list Z) :=
  (λ p, (p.1, cow_core (storage a) p.2, cow_data (storage a) p.2)) <$> values a !! handle_index b.
Definition entry_chunk (a : TransactionAccounts) (x : SerializeAccount) : list Z :=
  match x with
  | SDuplicate p => le_bytes 1 (wrap 8 p) ++ (if v1 then replicate 7 0 else [])
  | SAccount _ b => match handle_value a b with Some (k, core, data) => account_chunk b v1 k core (zlen data) | None => [] end
  end.
Definition entry_reserved (a : TransactionAccounts) (x : SerializeAccount) : Z :=
  match x with
  | SDuplicate _ => 0
  | SAccount _ b => match handle_value a b with Some (_, _, data) => account_data_region_size (negb v1) (zlen data) | None => 0 end
  end.
Definition entry_ok (a : TransactionAccounts) (x : SerializeAccount) : Prop :=
  match x with
  | SDuplicate _ => True
  | SAccount _ b => is_Some (values a !! handle_index b) ∧ (handle_index b < length (touched_flags a))%nat
  end.
Definition entry_meta (s : Serializer) (a : TransactionAccounts) (metas : list SerializedAccountMetadata)
    (x : SerializeAccount) (meta : SerializedAccountMetadata) : Prop :=
  match x with
  | SDuplicate p => metas !! Z.to_nat p = Some meta
  | SAccount _ b => ∃ k core data, handle_value a b = Some (k, core, data) ∧ meta_ok b s k core (zlen data) meta
  end.
(** Duplicates refer to earlier accounts. *)
Fixpoint dups_ok (n : nat) (l : list SerializeAccount) : Prop :=
  match l with
  | [] => True
  | SDuplicate p :: l => 0 ≤ p < Z.of_nat n ∧ dups_ok (S n) l
  | SAccount _ _ :: l => dups_ok (S n) l
  end.

Lemma inert_value a a' b : inert a a' → handle_value a' b = handle_value a b.
Proof. intros I. unfold handle_value. by rewrite (in_values _ _ I), (in_storage _ _ I). Qed.
Lemma inert_chunk a a' x : inert a a' → entry_chunk a' x = entry_chunk a x ∧ entry_reserved a' x = entry_reserved a x.
Proof. intros I. destruct x as [i b|]; [|done]. simpl. by rewrite (inert_value a a'). Qed.
Lemma inert_ok a a' x : inert a a' → entry_ok a x → entry_ok a' x.
Proof. intros I. destruct x as [i b|]; [|done]. simpl. by rewrite (in_values _ _ I), (in_flags _ _ I). Qed.
Lemma inert_meta s a a' metas x meta : inert a a' → entry_meta s a' metas x meta → entry_meta s a metas x meta.
Proof. intros I. destruct x as [i b|]; [|done]. simpl. by rewrite (inert_value a a'). Qed.

Lemma drop_inert b a : inert a (drop_handle b a).
Proof. apply inert_counters. Qed.
Lemma drop_accounts_counters l a1 a2 :
  borrow_counters a1 = borrow_counters a2 → borrow_counters (drop_accounts l a1) = borrow_counters (drop_accounts l a2).
Proof.
  revert a1 a2. induction l as [|[i b|p] l IH]; intros a1 a2 E; [done|..]; simpl; apply IH; [|done].
  unfold drop_handle, drop_ref_mut, drop_with. simpl. by rewrite E.
Qed.

Lemma entry_reserved_nonneg a x : 0 ≤ entry_reserved a x.
Proof.
  destruct x as [i b|p]; simpl; [|lia]. destruct (handle_value a b) as [[[k core] data]|]; [|lia].
  pose proof (zlen_nonneg data). unfold account_data_region_size, saturating_add, MAX_PERMITTED_DATA_INCREASE.
  change (umax 64) with 18446744073709551615. destruct (negb v1); lia.
Qed.
Definition reserved_sum (a : TransactionAccounts) (l : list SerializeAccount) : Z := foldr (λ x n, entry_reserved a x + n) 0 l.
Lemma reserved_sum_nonneg a l : 0 ≤ reserved_sum a l.
Proof. induction l as [|x l IH]; simpl; [lia|]. pose proof (entry_reserved_nonneg a x). lia. Qed.

Lemma inert_list a a' l : inert a a' → entry_chunk a' <$> l = entry_chunk a <$> l ∧ reserved_sum a' l = reserved_sum a l.
Proof.
  intros I. induction l as [|x l [IH1 IH2]]; [done|]. destruct (inert_chunk a a' x I) as [E1 E2].
  rewrite !fmap_cons, IH1, E1. split; [done|]. unfold reserved_sum in *. cbn [foldr]. by rewrite IH2, E2.
Qed.

Lemma write_duplicate_written s R p :
  ser_ok s R → written s (write_duplicate v1 p s) R (le_bytes 1 (wrap 8 p) ++ (if v1 then replicate 7 0 else [])).
Proof.
  intros Hs. unfold write_duplicate, write_u8. pose proof (write_all_written s R (le_bytes 1 (wrap 8 p)) Hs) as W.
  destruct (write_all (le_bytes 1 (wrap 8 p)) s) as [addr s1]. simpl in W. destruct v1; [|by rewrite app_nil_r].
  eapply written_trans; [exact W|]. apply write_all_written, W.
Qed.

Lemma entry_meta_extends s s' a metas metas' x meta :
  extends s s' → metas `prefix_of` metas' → entry_meta s a metas x meta → entry_meta s' a metas' x meta.
Proof.
  intros X Hp. destruct x as [i b|p]; simpl.
  - intros (k & core & data & Hv & Hm). exists k, core, data. split; [done|]. by eapply meta_ok_extends.
  - intros Hl. by eapply prefix_lookup_Some.
Qed.

(** One turn of the loop. *)
Lemma serialize_turn x l metas s R a :
  ser_ok s R → s_is_loader_v1 s = negb v1 → entry_ok a x → dups_ok (length metas) (x :: l) →
  let N := zlen (s_buffer s) + zlen (entry_chunk a x) in
  MM_INPUT_START + (R + entry_reserved a x) + 2 * N ≤ umax 64 → N ≤ s_capacity s →
  ∃ meta s1 a1, serialize_accounts shared v1 (x :: l) metas s a = serialize_accounts shared v1 l (metas ++ [meta]) s1 a1 ∧
    inert a a1 ∧ borrow_counters (drop_accounts l a1) = borrow_counters (drop_accounts (x :: l) a) ∧
    written s s1 (R + entry_reserved a x) (entry_chunk a x) ∧ entry_meta s1 a metas x meta ∧ dups_ok (S (length metas)) l.
Proof.
  intros Hs Hl Hx Hd N Hroom Hcap. subst N. destruct x as [i b|p].
  - destruct Hx as [[[k c] Hv] Hlt]. simpl in *. unfold handle_value in *. rewrite Hv in *. cbn [fmap option_fmap option_map fst snd] in *.
    destruct (serialize_account_run shared b v1 a k c s R Hs Hl Hv Hlt) as (meta & s1 & a1 & E & I & C & W & M); [lia|lia|].
    exists meta, s1, (drop_handle b a1). rewrite E. split; [done|]. split_and!; [by rewrite I; apply drop_inert| |done| |done].
    + apply drop_accounts_counters. unfold drop_handle, drop_ref_mut, drop_with. simpl. by rewrite C.
    + by eexists _, _, _.
  - destruct Hd as [Hp Hd]. destruct (lookup_lt_is_Some_2 metas (Z.to_nat p)) as [meta Em]; [lia|].
    exists meta, (write_duplicate v1 p s), a. simpl. rewrite Em, Z.add_0_r. split_and!; try done. by apply write_duplicate_written.
Qed.

Lemma serialize_accounts_run l metas s R a :
  ser_ok s R → s_is_loader_v1 s = negb v1 → Forall (entry_ok a) l → dups_ok (length metas) l →
  let N := zlen (s_buffer s) + zlen (concat (entry_chunk a <$> l)) in
  MM_INPUT_START + (R + reserved_sum a l) + 2 * N ≤ umax 64 → N ≤ s_capacity s →
  ∃ news s' a', serialize_accounts shared v1 l metas s a = (Ok (metas ++ news, s'), a') ∧ inert a a' ∧
    borrow_counters a' = borrow_counters (drop_accounts l a) ∧
    written s s' (R + reserved_sum a l) (concat (entry_chunk a <$> l)) ∧
    Forall2 (entry_meta s' a (metas ++ news)) l news.
Proof.
  revert metas s R a. induction l as [|x l IH]; intros metas s R a Hs Hl He Hd N Hroom Hcap.
  { exists [], s, a. rewrite app_nil_r, Z.add_0_r. split_and!; try done. split; [done|reflexivity|by rewrite app_nil_r]. }
  apply list.Forall_cons in He as [Hx He].
  subst N. cbn [fmap list_fmap concat reserved_sum foldr] in Hroom, Hcap. fold (reserved_sum a l) in Hroom.
  rewrite zlen_app in Hroom, Hcap.
  pose proof (reserved_sum_nonneg a l). pose proof (zlen_nonneg (concat (entry_chunk a <$> l))).
  pose proof (entry_reserved_nonneg a x). pose proof (zlen_nonneg (entry_chunk a x)).
  destruct (serialize_turn x l metas s R a Hs Hl Hx Hd) as (meta & s1 & a1 & E & I & C & W & M & Hd'); [lia|lia|].
  destruct (inert_list a a1 l I) as [Ec Er].
  destruct (IH (metas ++ [meta]) s1 (R + entry_reserved a x) a1) as (news & s' & a' & E' & I' & C' & W' & F).
  { apply W. }
  { by rewrite (ex_loader _ _ (w_extends _ _ _ _ W)). }
  { eapply list.Forall_impl; [exact He|]. intros y. by apply inert_ok. }
  { by rewrite length_app, Nat.add_1_r. }
  { rewrite Ec, Er, (w_buffer _ _ _ _ W), zlen_app. lia. }
  { rewrite Ec, (w_buffer _ _ _ _ W), zlen_app, (ex_capacity _ _ (w_extends _ _ _ _ W)). lia. }
  exists (meta :: news), s', a'. rewrite E, E'. rewrite Ec, Er in *. rewrite <- app_assoc in F |- *. cbn [app] in F |- *.
  split; [done|]. split_and!.
  - by rewrite I.
  - by rewrite C', C.
  - cbn [reserved_sum foldr fmap list_fmap concat]. fold (reserved_sum a l). rewrite Z.add_assoc. by eapply written_trans.
  - constructor.
    + eapply entry_meta_extends; [apply W'| |exact M]. by exists (meta :: news).
    + eapply Forall2_impl; [exact F|]. intros y my. by apply inert_meta.
Qed.

(** ** The whole input *)

(** The sizes computed in advance are those of the bytes. *)
Definition entry_sized (a : TransactionAccounts) (x : SerializeAccount) : Prop :=
  match x with
  | SDuplicate _ => True
  | SAccount _ b => ∃ k core data, handle_value a b = Some (k, core, data) ∧ zlen k = 32 ∧ zlen (owner core) = 32
  end.
Definition entry_size (x : SerializeAccount) : Z := if v1 then v1_entry_size x else v0_entry_size x.
Definition params_size (l : list SerializeAccount) (data_len : Z) : Z := if v1 then v1_size l data_len else v0_size l data_len.

Lemma chunk_size a x : entry_sized a x → zlen (entry_chunk a x) = entry_size x.
Proof.
  unfold entry_size, entry_sized, entry_chunk. destruct x as [i b|p].
  - intros (k & core & data & -> & Hk & Ho). unfold account_chunk. destruct v1; rewrite !zlen_app, !zlen_le_bytes, Hk, Ho; done.
  - intros _. rewrite zlen_app, zlen_le_bytes. by destruct v1.
Qed.
Lemma chunks_size a l data_len : Forall (entry_sized a) l →
  params_size l data_len = 8 + zlen (concat (entry_chunk a <$> l)) + (8 + data_len + 32).
Proof.
  intros H. assert (E : zlen (concat (entry_chunk a <$> l)) = foldr (λ x n, entry_size x + n) 0 l).
  { induction H as [|x l Hx H IH]; [done|]. rewrite fmap_cons. cbn [concat foldr]. by rewrite zlen_app, (chunk_size a x Hx), IH. }
  rewrite E. unfold params_size, v0_size, v1_size, entry_size. by destruct v1.
Qed.

(** The array of account pointers. *)
Definition pointer_bytes (direct : bool) (n : Z) (metas : list SerializedAccountMetadata) : list Z :=
  if direct then replicate (Z.to_nat n) 0 ++ concat ((λ meta, le_bytes 8 (vm_addr_ meta)) <$> metas) else [].
Lemma pointer_bytes_size direct n metas :
  0 ≤ n → zlen (pointer_bytes direct n metas) = if direct then n + zlen metas * 8 else 0.
Proof.
  intros Hn. unfold pointer_bytes. destruct direct; [|done]. rewrite zlen_app. f_equal; [unfold zlen; rewrite length_replicate; lia|].
  induction metas as [|meta metas IH]; [done|]. rewrite fmap_cons. cbn [concat]. rewrite zlen_app, zlen_le_bytes, IH, zlen_cons. lia.
Qed.
Lemma pointers_fold metas s R : ser_ok s R →
  written s (foldl (λ s meta, (write_u64 (vm_addr_ meta) s).2) s metas) R (concat ((λ meta, le_bytes 8 (vm_addr_ meta)) <$> metas)).
Proof.
  revert s. induction metas as [|meta metas IH]; intros s Hs.
  - split; [done|reflexivity|by rewrite app_nil_r].
  - rewrite fmap_cons. cbn [foldl concat]. pose proof (write_all_written s R (le_bytes 8 (vm_addr_ meta)) Hs) as W. eapply written_trans; [exact W|]. apply IH, W.
Qed.
Lemma write_pointers_run direct n metas s R :
  ser_ok s R → 0 ≤ n → zlen (s_buffer s) + n ≤ s_capacity s ∨ direct = false →
  ∃ s', write_pointers direct n metas s = Some s' ∧ written s s' R (pointer_bytes direct n metas).
Proof.
  intros Hs Hn Hcap. unfold write_pointers, pointer_bytes. destruct direct.
  - rewrite fill_write_run by (destruct Hcap; [done|discriminate]). eexists. split; [done|].
    pose proof (write_all_written s R (replicate (Z.to_nat n) 0) Hs) as W. eapply written_trans; [exact W|]. apply pointers_fold, W.
  - exists s. split; [done|]. split; [done|reflexivity|by rewrite app_nil_r].
Qed.

Lemma serializer_new_ok size loader : ser_ok (serializer_new size MM_INPUT_START loader) 0.
Proof. constructor; simpl; try done. constructor. Qed.

(** The serializer after a call, and what the call returns of it. *)
Record input_ok (direct : bool) (l : list SerializeAccount) (data : list Z) (program_id : Pubkey) (a : TransactionAccounts)
    (s : Serializer) (metas : list SerializedAccountMetadata) (offset : Z) : Prop := {
  io_ser : ser_ok s (reserved_sum a l);
  io_end : s_region_start s = zlen (s_buffer s);
  io_size : zlen (s_buffer s) = s_capacity s;
  io_buffer : ∃ more, s_buffer s = le_bytes 8 (zlen l) ++ concat (entry_chunk a <$> l) ++
    le_bytes 8 (zlen data) ++ data ++ program_id ++ more;
  io_metas : Forall2 (entry_meta s a metas) l metas;
  io_data : holds_at s offset data;
}.

(** The part of the two formats that they share. *)
Definition serialize_params (direct : bool) (l : list SerializeAccount) (data : list Z) (program_id : Pubkey) : Ser SerializedInput :=
  if v1 then serialize_parameters_for_abiv1 shared l data program_id direct
  else serialize_parameters_for_abiv0 shared l data program_id.
Definition input_size (direct : bool) (l : list SerializeAccount) (data_len : Z) : Z :=
  params_size l data_len + (if v1 then pointers_size direct l (params_size l data_len) else 0).

Lemma align_offset_bounds x : 0 ≤ align_offset x BPF_ALIGN_OF_U128 < 8.
Proof. unfold align_offset. by apply Z.mod_pos_bound. Qed.
Lemma pointers_size_nonneg direct l size : 0 ≤ pointers_size direct l size.
Proof. unfold pointers_size. destruct direct; [|done]. pose proof (align_offset_bounds size). pose proof (zlen_nonneg l). lia. Qed.

Lemma serialize_params_parts direct l data pid a metas s1 a' s2 :
  let size := params_size l (zlen data) in
  serialize_accounts shared v1 l [] (write_u64 (zlen l) (serializer_new (input_size direct l (zlen data)) MM_INPUT_START (negb v1))).2 a
    = (Ok (metas, s1), a') →
  write_pointers (v1 && direct) (align_offset size BPF_ALIGN_OF_U128) metas (write_instruction data pid s1).2 = Some s2 →
  serialize_params direct l data pid a =
    (Ok (s_buffer (push_region s2), s_regions (push_region s2), metas, (write_instruction data pid s1).1), a').
Proof.
  intros size E1 E2. unfold serialize_params, input_size, params_size in *.
  destruct (write_instruction data pid s1) as [offset s] eqn:Ew. cbn [fst snd] in *. destruct v1.
  - unfold serialize_parameters_for_abiv1. cbv beta iota zeta delta [write_u64 write_all snd] in *. cbv zeta. op_ok E1.
    rewrite Ew. fold size. cbn [andb] in E2. rewrite E2. done.
  - unfold serialize_parameters_for_abiv0. rewrite Z.add_0_r in E1. cbv beta iota zeta delta [write_u64 write_all snd] in *. cbv zeta.
    op_ok E1. rewrite Ew. injection E2 as <-. done.
Qed.

Lemma write_instruction_run data pid s R :
  ser_ok s R → MM_INPUT_START + R + 2 * (zlen (s_buffer s) + (8 + zlen data + zlen pid)) ≤ umax 64 →
  written s (write_instruction data pid s).2 R (le_bytes 8 (zlen data) ++ data ++ pid) ∧
  holds_at (write_instruction data pid s).2 (write_instruction data pid s).1 data.
Proof.
  intros Hs Hroom. destruct (writes_wrote [le_bytes 8 (zlen data); data; pid] s R Hs) as [_ H].
  { cbn [concat]. rewrite !zlen_app, zlen_le_bytes. change (zlen []) with 0. lia. }
  apply (wrote_all_written _ _ _ _ Hs) in H as [W H]. cbn in W, H. rewrite app_nil_r in W. split; [exact W|].
  apply list.Forall_cons in H as [_ H]. by apply list.Forall_cons in H as [H _].
Qed.

(** What the last region leaves. *)
Lemma input_finish direct l data pid a s0 s1 s2 s3 metas offset :
  let psize := params_size l (zlen data) in
  Forall (entry_sized a) l →
  written s0 s3 (reserved_sum a l) (le_bytes 8 (zlen l) ++ concat (entry_chunk a <$> l) ++ le_bytes 8 (zlen data) ++ data ++ pid ++
    pointer_bytes (v1 && direct) (align_offset psize BPF_ALIGN_OF_U128) metas) →
  s_buffer s0 = [] → s_capacity s0 = input_size direct l (zlen data) → zlen pid = 32 →
  extends s1 s3 → extends s2 s3 → Forall2 (entry_meta s1 a metas) l metas → holds_at s2 offset data →
  input_ok direct l data pid a (push_region s3) metas offset.
Proof.
  intros psize Hz W B0 Cap Hpid X1 X2 F Hd. pose proof (push_region_extends s3 _ (w_ok _ _ _ _ W)) as X3. constructor.
  - apply push_region_ok, W.
  - done.
  - cbn [push_region s_buffer s_capacity]. rewrite (ex_capacity _ _ (w_extends _ _ _ _ W)), (w_buffer _ _ _ _ W), B0, Cap.
    rewrite !zlen_app, !zlen_le_bytes, Hpid, pointer_bytes_size by apply align_offset_bounds. change (zlen []) with 0.
    unfold input_size, pointers_size. fold psize. pose proof (chunks_size a l (zlen data) Hz) as Hsize. fold psize in Hsize.
    assert (zlen l = zlen metas) as -> by (unfold zlen; by rewrite (Forall2_length _ _ _ F)).
    destruct v1, direct; cbn [andb]; lia.
  - eexists. cbn [push_region s_buffer]. by rewrite (w_buffer _ _ _ _ W), B0.
  - eapply Forall2_impl; [exact F|]. intros x meta. apply entry_meta_extends; [by transitivity s3|done].
  - by apply (ex_holds _ _ X3), (ex_holds _ _ X2).
Qed.

Lemma serialize_params_run direct l data pid a :
  Forall (entry_ok a) l → Forall (entry_sized a) l → dups_ok 0 l → zlen pid = 32 →
  MM_INPUT_START + reserved_sum a l + 2 * input_size direct l (zlen data) ≤ umax 64 →
  ∃ s metas offset a', serialize_params direct l data pid a = (Ok (s_buffer s, s_regions s, metas, offset), a') ∧
    inert a a' ∧ borrow_counters a' = borrow_counters (drop_accounts l a) ∧
    input_ok direct l data pid a s metas offset ∧ s_capacity s = input_size direct l (zlen data).
Proof.
  intros He Hz Hd Hpid Hroom. set (size := input_size direct l (zlen data)) in *.
  pose proof (chunks_size a l (zlen data) Hz) as Hsize. pose proof (zlen_nonneg data).
  set (psize := params_size l (zlen data)) in *. pose proof (reserved_sum_nonneg a l).
  assert (Hps : size = psize + (if v1 then pointers_size direct l psize else 0)) by done.
  pose proof (pointers_size_nonneg direct l psize) as Hp0.
  set (s0 := serializer_new size MM_INPUT_START (negb v1)).
  pose proof (write_all_written s0 0 (le_bytes 8 (zlen l)) (serializer_new_ok size (negb v1))) as W0.
  fold (write_u64 (zlen l) s0) in W0.
  assert (B0 : zlen (s_buffer (write_u64 (zlen l) s0).2) = 8) by (rewrite (w_buffer _ _ _ _ W0), zlen_app, zlen_le_bytes; done).
  destruct (serialize_accounts_run l [] (write_u64 (zlen l) s0).2 0 a (w_ok _ _ _ _ W0) eq_refl He Hd) as (metas & s1 & a' & E1 & I & C & W1 & F).
  { rewrite B0. destruct v1; lia. }
  { rewrite B0. change (s_capacity (write_u64 (zlen l) s0).2) with size. destruct v1; lia. }
  rewrite Z.add_0_l in W1. pose proof (written_trans _ _ _ _ _ _ _ W0 W1) as W01.
  destruct (write_instruction_run data pid s1 (reserved_sum a l) (w_ok _ _ _ _ W1)) as [W2 Hdata].
  { rewrite (w_buffer _ _ _ _ W01). change (s_buffer s0) with (@nil Z). rewrite !zlen_app, zlen_le_bytes. change (zlen []) with 0. destruct v1; lia. }
  pose proof (written_trans _ _ _ _ _ _ _ W01 W2) as W02. set (s2 := (write_instruction data pid s1).2) in *.
  assert (B2 : zlen (s_buffer s2) = psize).
  { rewrite (w_buffer _ _ _ _ W02), !zlen_app, !zlen_le_bytes. change (s_buffer s0) with (@nil Z). change (zlen []) with 0. lia. }
  destruct (write_pointers_run (v1 && direct) (align_offset psize BPF_ALIGN_OF_U128) metas s2 (reserved_sum a l) (w_ok _ _ _ _ W2))
    as (s3 & E3 & W3); [apply align_offset_bounds|..].
  { rewrite B2, (ex_capacity _ _ (w_extends _ _ _ _ W02)). change (s_capacity s0) with size. rewrite Hps. unfold pointers_size.
    pose proof (zlen_nonneg l). destruct v1, direct; simpl; auto; left; lia. }
  pose proof (written_trans _ _ _ _ _ _ _ W02 W3) as W03.
  exists (push_region s3), metas, (write_instruction data pid s1).1, a'.
  split; [by apply serialize_params_parts|]. split_and!; [done|done| |by rewrite (ex_capacity _ _ (w_extends _ _ _ _ W03) : s_capacity (push_region s3) = _)].
  eapply (input_finish direct l data pid a s0 s1 s2 s3).
  - exact Hz.
  - rewrite <- !app_assoc in W03. exact W03.
  - done.
  - done.
  - done.
  - rewrite (w_extends _ _ _ _ W2). apply W3.
  - apply W3.
  - done.
  - done.
Qed.

End accounts.

(** ** The accounts of an instruction *)

(** The entry of a position: a duplicate of an earlier one, or the account itself. *)
Definition handle_of (ic : InstructionContext) (ia : InstructionAccount) : BorrowedInstructionAccount :=
  {| instruction_account := ia; program_index := ic_program_index ic |}.
Definition entry_of (ic : InstructionContext) (i : nat) : option SerializeAccount :=
  ia ← ic_accounts ic !! i;
  first ← dedup_map ic !! Z.to_nat (index_in_transaction ia);
  Some (if first =? Z.of_nat i then SAccount (Z.of_nat i) (handle_of ic ia) else SDuplicate first).

(** The deduplication map leads from every account to its first position. *)
Definition deduplicated (ic : InstructionContext) : Prop :=
  ∀ i ia, ic_accounts ic !! i = Some ia → ∃ first, dedup_map ic !! Z.to_nat (index_in_transaction ia) = Some first ∧
    0 ≤ first ≤ Z.of_nat i.

(** The account of a handle has a key, an owner and words of the size of their types. *)
Definition value_ok (a : TransactionAccounts) (b : BorrowedInstructionAccount) : Prop :=
  ∃ k core data, handle_value a b = Some (k, core, data) ∧ zlen k = 32 ∧ zlen (owner core) = 32 ∧
    fits 64 (lamports core) ∧ zlen data ≤ MAX_PERMITTED_DATA_LENGTH ∧ (handle_index b < length (touched_flags a))%nat.

(** An instruction whose accounts are in the transaction, none of them borrowed. *)
Record ready (ic : InstructionContext) (a : TransactionAccounts) : Prop := {
  rd_dedup : deduplicated ic;
  rd_values ia : ia ∈ ic_accounts ic → value_ok a (handle_of ic ia);
  rd_free ia : ia ∈ ic_accounts ic → borrow_counters a !! handle_index (handle_of ic ia) = Some 0;
}.

Lemma duplicate_run ic i x :
  deduplicated ic → entry_of ic i = Some x →
  is_instruction_account_duplicate ic (Z.of_nat i) = Ok (match x with SAccount _ _ => None | SDuplicate p => Some p end).
Proof.
  intros Hd Hx. unfold entry_of in Hx. destruct (ic_accounts ic !! i) as [ia|] eqn:Ea; [|done].
  destruct (Hd i ia Ea) as (first & Ef & Hf). simpl in Hx. rewrite Ef in Hx. injection Hx as <-.
  unfold is_instruction_account_duplicate, get_index_of_instruction_account_in_transaction, get_index_of_account_in_instruction.
  rewrite Nat2Z.id, Ea. simpl. rewrite Ef. simpl. apply lookup_lt_Some in Ea.
  destruct (Z.leb_spec (zlen (ic_accounts ic)) first); [unfold zlen in *; lia|]. simpl. by destruct (first =? Z.of_nat i).
Qed.

Lemma entry_account ic i j b :
  entry_of ic i = Some (SAccount j b) →
  ∃ ia, ic_accounts ic !! i = Some ia ∧ b = handle_of ic ia ∧ j = Z.of_nat i ∧
    dedup_map ic !! handle_index b = Some (Z.of_nat i).
Proof.
  unfold entry_of. destruct (ic_accounts ic !! i) as [ia|]; [|done]. simpl.
  destruct (dedup_map ic !! Z.to_nat (index_in_transaction ia)) as [first|] eqn:Ef; [|done]. simpl.
  destruct (Z.eqb_spec first (Z.of_nat i)) as [->|]; [|done]. intros [= <- <-]. eauto.
Qed.

Lemma handle_drop_comm b l a : drop_accounts l (drop_handle b a) = drop_handle b (drop_accounts l a).
Proof.
  revert a. induction l as [|[i b'|p] l IH]; intros a; [done|..]; simpl; [|apply IH]. rewrite <- IH. f_equal.
  unfold drop_handle, drop_ref_mut, drop_with, with_counters. simpl. f_equal.
  destruct (decide (Z.to_nat (index_in_transaction (instruction_account b)) = Z.to_nat (index_in_transaction (instruction_account b'))))
    as [->|Hne]; [done|].
  by apply list_alter_alter_ne.
Qed.

Lemma borrow_run ic ia i a :
  ic_accounts ic !! i = Some ia → borrow_counters a !! handle_index (handle_of ic ia) = Some 0 →
  try_borrow_instruction_account ic (Z.of_nat i) a =
    (Ok (handle_of ic ia), with_counters a (<[handle_index (handle_of ic ia) := -1]> (borrow_counters a))).
Proof.
  intros Ea Hc. unfold try_borrow_instruction_account. rewrite Nat2Z.id, Ea. cbn [ok_or]. unfold lift, mbind, op_bind.
  unfold try_borrow_mut, borrow_with. unfold handle_index in *. simpl in *. rewrite Hc. done.
Qed.

Lemma with_counters_self a : with_counters a (borrow_counters a) = a.
Proof. by destruct a. Qed.
Lemma with_counters_twice a c c' : with_counters (with_counters a c) c' = with_counters a c'.
Proof. done. Qed.

Lemma release_run b a :
  borrow_counters a !! handle_index b = Some 0 →
  drop_handle b (with_counters a (<[handle_index b := -1]> (borrow_counters a))) = a.
Proof. intros H. unfold drop_handle. rewrite (drop_after_borrow _ a) by done. by rewrite with_counters_twice, with_counters_self. Qed.

Lemma collect_run ic indexes a :
  deduplicated ic → NoDup indexes → Forall (λ i, is_Some (ic_accounts ic !! i)) indexes →
  Forall (λ i, ∀ j b, entry_of ic i = Some (SAccount j b) → borrow_counters a !! handle_index b = Some 0) indexes →
  ∃ l a', collect_accounts ic indexes a = (Ok l, a') ∧ inert a a' ∧ drop_accounts l a' = a ∧
    Forall2 (λ i x, entry_of ic i = Some x) indexes l.
Proof.
  intros Hd. revert a. induction indexes as [|i indexes IH]; intros a Hnd Hin Hfree; [by exists [], a|].
  apply list.NoDup_cons in Hnd as [Hi Hnd]. apply list.Forall_cons in Hin as [[ia Ea] Hin].
  apply list.Forall_cons in Hfree as [Hf Hfree].
  destruct (entry_of ic i) as [x|] eqn:Ex; [|by unfold entry_of in Ex; rewrite Ea in Ex; simpl in Ex; destruct (Hd i ia Ea) as (? & E & _); rewrite E in Ex].
  cbn [collect_accounts]. unfold unwrap_result at 1. rewrite (duplicate_run ic i x Hd Ex). cbn [map_err].
  rewrite (op_bind_ok (λ a, (Ok _, a)) _ a _ a eq_refl).
  destruct x as [j b|p].
  - destruct (entry_account ic i j b Ex) as (ia' & Ea' & -> & -> & Em). specialize (Hf _ _ eq_refl).
    unfold unwrap_op. rewrite Ea in Ea'. injection Ea' as <-.
    set (a1 := with_counters a (<[handle_index (handle_of ic ia) := -1]> (borrow_counters a))).
    rewrite (op_bind_ok _ _ a (SAccount (Z.of_nat i) (handle_of ic ia)) a1).
    2: { unfold mbind, op_bind. rewrite (borrow_run ic ia i a Ea Hf). done. }
    destruct (IH a1 Hnd Hin) as (l & a' & El & I & D & F).
    { apply list.Forall_forall. intros i' Hi' j' b' E'. rewrite list.Forall_forall in Hfree.
      destruct (entry_account ic i' j' b' E') as (ia' & _ & _ & _ & Em'). simpl.
      rewrite list_lookup_insert_ne; [by eapply Hfree|]. intros E. rewrite <- E, Em in Em'. injection Em' as Em'.
      apply Nat2Z.inj in Em'. by subst i'. }
    op_ok El. exists (SAccount (Z.of_nat i) (handle_of ic ia) :: l), a'. split_and!; [done| | |by constructor].
    + transitivity a1; [apply inert_counters|done].
    + simpl. rewrite handle_drop_comm, D. by apply release_run.
  - rewrite (op_bind_ok (mret _) _ a _ a eq_refl). destruct (IH a Hnd Hin Hfree) as (l & a' & El & I & D & F).
    op_ok El. exists (SDuplicate p :: l), a'. split_and!; [done|done|done|by constructor].
Qed.

(** ** The memory of the program *)

Definition region_bytes (a : TransactionAccounts) (buffer : list Z) (r : InputRegion) : list Z :=
  match ir_host r with
  | BufferSlice st sp => default [] (slice_get buffer st (sp - st))
  | AccountSlice i => match values a !! Z.to_nat i with Some (_, c) => cow_data (storage a) c | None => [] end
  end.
(** A load finds the region of its address, and stays within it. *)
Fixpoint guest_read (a : TransactionAccounts) (buffer : list Z) (regions : list InputRegion) (addr n : Z) : option (list Z) :=
  match regions with
  | [] => None
  | r :: regions =>
      if (region_vm_addr (ir_region r) <=? addr) && (addr <? region_vm_addr (ir_region r) + region_len (ir_region r))
      then slice_get (region_bytes a buffer r) (addr - region_vm_addr (ir_region r)) n
      else guest_read a buffer regions addr n
  end.

Lemma guest_read_region a buffer regions r addr n :
  StronglySorted before regions → Forall (λ r, 0 ≤ region_len (ir_region r)) regions → r ∈ regions →
  region_vm_addr (ir_region r) ≤ addr < region_vm_addr (ir_region r) + region_len (ir_region r) →
  guest_read a buffer regions addr n = slice_get (region_bytes a buffer r) (addr - region_vm_addr (ir_region r)) n.
Proof.
  intros Hs Hl Hr Ha. induction Hs as [|r' regions Hs IH Hb]; [set_solver|]. apply list.Forall_cons in Hl as [Hl' Hl].
  simpl. apply elem_of_cons in Hr as [<-|Hr].
  - by rewrite (proj2 (andb_true_iff _ _) (conj (proj2 (Z.leb_le _ _) (proj1 Ha)) (proj2 (Z.ltb_lt _ _) (proj2 Ha)))).
  - rewrite list.Forall_forall in Hb. specialize (Hb r Hr). unfold before in Hb.
    destruct (Z.ltb_spec addr (region_vm_addr (ir_region r') + region_len (ir_region r'))); [lia|]. rewrite andb_false_r. by apply IH.
Qed.

Lemma slice_slice bs st n p m x :
  0 ≤ m → slice_get bs p m = Some x → 0 ≤ st ≤ p → p + m ≤ st + n → st + n ≤ zlen bs →
  ∃ y, slice_get bs st n = Some y ∧ slice_get y (p - st) m = Some x.
Proof.
  intros Hm Hx Hst Hp Hn. unfold slice_get in *.
  assert (((0 <=? p) && (p + m <=? zlen bs)) = true) as Ec by (apply andb_true_iff; split; apply Z.leb_le; lia). rewrite Ec in Hx.
  injection Hx as <-.
  assert (((0 <=? st) && (st + n <=? zlen bs)) = true) as -> by (apply andb_true_iff; split; apply Z.leb_le; lia).
  eexists. split; [done|].
  assert (zlen (take (Z.to_nat n) (drop (Z.to_nat st) bs)) = n) as ->.
  { unfold zlen in *. rewrite length_take, length_drop. lia. }
  assert (((0 <=? p - st) && (p - st + m <=? n)) = true) as -> by (apply andb_true_iff; split; apply Z.leb_le; lia).
  f_equal. rewrite skipn_firstn_comm, firstn_firstn, drop_drop. f_equal; [lia|]. f_equal. lia.
Qed.

Section memory.
Context (a : TransactionAccounts) (s : Serializer) (R : Z) (Hs : ser_ok s R) (Hend : s_region_start s = zlen (s_buffer s)).

Lemma regions_nonneg : Forall (λ r, 0 ≤ region_len (ir_region r)) (s_regions s).
Proof using Hs. eapply list.Forall_impl; [apply (so_below _ _ Hs)|]. simpl. lia. Qed.

Lemma guest_read_holds addr bs : holds_at s addr bs → bs ≠ [] → guest_read a (s_buffer s) (s_regions s) addr (zlen bs) = Some bs.
Proof using Hs Hend.
  intros H Hne. assert (0 < zlen bs) as Hpos by (destruct bs; [done|rewrite zlen_cons; pose proof (zlen_nonneg bs); lia]).
  destruct H as [(p & Hp & H1 & _)|(p & r & Hr & Hp & st & sp & Hh & H1 & H2 & ->)].
  { apply slice_get_range in Hp. lia. }
  pose proof (so_slices _ _ Hs) as Hsl. rewrite list.Forall_forall in Hsl. specialize (Hsl r Hr). unfold slice_ok in Hsl. rewrite Hh in Hsl.
  rewrite (guest_read_region a _ _ r) by (first [apply Hs|apply regions_nonneg|done|lia]).
  unfold region_bytes. rewrite Hh. destruct (slice_slice (s_buffer s) st (sp - st) p (zlen bs) bs) as (y & -> & Hy); try lia; [done|].
  simpl. by replace (region_vm_addr (ir_region r) + (p - st) - region_vm_addr (ir_region r)) with (p - st) by lia.
Qed.

Lemma guest_read_shows addr i k c :
  let data := cow_data (storage a) c in
  shows s addr i (zlen data) → data ≠ [] → values a !! Z.to_nat i = Some (k, c) →
  guest_read a (s_buffer s) (s_regions s) addr (zlen data) = Some data.
Proof using Hs.
  intros data (r & Hr & Hh & <- & Hlen) Hne Hv.
  assert (0 < zlen data) as Hpos by (destruct data as [|? l]; [done|rewrite zlen_cons; pose proof (zlen_nonneg l); lia]).
  rewrite (guest_read_region a _ _ r) by (first [apply Hs|apply regions_nonneg|done|lia]).
  unfold region_bytes. rewrite Hh, Hv, Z.sub_diag. fold data. apply (slice_get_end [] data).
Qed.

End memory.

(** ** The call *)

Definition entries (ic : InstructionContext) : list SerializeAccount := omap (entry_of ic) (seq 0 (length (ic_accounts ic))).

Lemma entries_collected ic indexes l : Forall2 (λ i x, entry_of ic i = Some x) indexes l → omap (entry_of ic) indexes = l.
Proof. induction 1 as [|i x indexes l Hx _ IH]; [done|]. cbn. by rewrite Hx, <- IH. Qed.

Lemma entries_dups ic n m l :
  deduplicated ic → Forall2 (λ i x, entry_of ic i = Some x) (seq n m) l → dups_ok n l.
Proof.
  intros Hd. revert n l. induction m as [|m IH]; intros n l F; inversion F as [|? x ? l' Hx F']; subst; [done|].
  unfold entry_of in Hx. destruct (ic_accounts ic !! n) as [ia|] eqn:Ea; [|done]. simpl in Hx.
  destruct (Hd n ia Ea) as (first & Ef & Hf). rewrite Ef in Hx. injection Hx as <-.
  destruct (Z.eqb_spec first (Z.of_nat n)); simpl; [by apply IH|]. split; [lia|by apply IH].
Qed.

Lemma entries_values ic a a' indexes l :
  ready ic a → inert a a' → Forall2 (λ i x, entry_of ic i = Some x) indexes l →
  Forall (entry_ok a') l ∧ Forall (entry_sized a') l.
Proof.
  intros Hr I F. induction F as [|i [j b|p] indexes l Hx F [IH1 IH2]]; [done|..|by split; constructor].
  destruct (entry_account ic i j b Hx) as (ia & Ea & -> & _ & _).
  destruct (rd_values _ _ Hr ia) as (k & core & data & Hv & H1 & H2 & _ & _ & H5); [by eapply list_elem_of_lookup_2|].
  split; constructor; try done; simpl.
  - rewrite (in_values _ _ I), (in_flags _ _ I). split; [|done]. unfold handle_value in Hv. apply fmap_Some in Hv as (p & -> & _). done.
  - exists k, core, data. by rewrite (inert_value a a').
Qed.

(** The address space is large enough. *)
Lemma reserved_bound v1 ic a indexes l :
  ready ic a → Forall2 (λ i x, entry_of ic i = Some x) indexes l →
  reserved_sum v1 a l ≤ Z.of_nat (length l) * (MAX_PERMITTED_DATA_LENGTH + MAX_PERMITTED_DATA_INCREASE).
Proof.
  intros Hr F. induction F as [|i x indexes l Hx F IH]; [done|].
  assert (entry_reserved v1 a x ≤ MAX_PERMITTED_DATA_LENGTH + MAX_PERMITTED_DATA_INCREASE).
  { destruct x as [j b|p]; [|done]. destruct (entry_account ic i j b Hx) as (ia & Ea & -> & _ & _).
    destruct (rd_values _ _ Hr ia) as (k & core & data & Hv & _ & _ & _ & H4 & _); [by eapply list_elem_of_lookup_2|].
    unfold entry_reserved. rewrite Hv. unfold account_data_region_size, saturating_add, MAX_PERMITTED_DATA_LENGTH, MAX_PERMITTED_DATA_INCREASE in *.
    destruct (negb v1); lia. }
  cbn [reserved_sum foldr length]. fold (reserved_sum v1 a l). lia.
Qed.
Lemma size_bound v1 direct l n : 0 ≤ n → input_size v1 direct l n ≤ 112 * zlen l + n + 64.
Proof.
  intros Hn. assert (params_size v1 l n ≤ 104 * zlen l + n + 48).
  { assert (foldr (λ x n, entry_size v1 x + n) 0 l ≤ 104 * zlen l).
    { induction l as [|x l IH]; [done|]. rewrite zlen_cons. cbn [foldr].
      assert (entry_size v1 x ≤ 104) by (unfold entry_size; destruct v1, x; done). lia. }
    unfold params_size, v0_size, v1_size, entry_size in *. destruct v1; lia. }
  unfold input_size, pointers_size. pose proof (align_offset_bounds (params_size v1 l n)). pose proof (zlen_nonneg l).
  destruct v1, direct; lia.
Qed.

Section call.
Context {Code : Type} `{PR : !ProgramRuntime Code} (shared : nat → bool).

(** The program of the instruction, with its key and its owner. *)
Record program_ready (ic : InstructionContext) (a : TransactionAccounts) (program_id program_owner : Pubkey) : Prop := {
  pr_index : ic_program_index ic ≠ umax 16;
  pr_account : ∃ st, accounts a !! Z.to_nat (ic_program_index ic) = Some (program_id, st) ∧ owner (core_of (storage a) st) = program_owner;
  pr_key : zlen program_id = 32;
  pr_free : borrow_counters a !! Z.to_nat (ic_program_index ic) = Some 0;
}.

Lemma program_owner_run ic a pid o : program_ready ic a pid o → get_program_owner ic a = (Ok o, a).
Proof using Type.
  intros [H1 (st & Hst & Ho) _ H4]. unfold get_program_owner, get_index_of_program_account_in_transaction.
  destruct (Z.eqb_spec (ic_program_index ic) (umax 16)); [done|]. unfold try_borrow, borrow_with. rewrite H4. simpl. rewrite Hst, Ho.
  f_equal. unfold drop_ref, drop_with. simpl. rewrite with_counters_twice. rewrite <- (with_counters_self a) at 3. f_equal.
  apply list_eq. intros j. destruct (decide (j = Z.to_nat (ic_program_index ic))) as [->|Hj].
  - rewrite list_lookup_alter_eq, list_lookup_insert_eq by by eapply lookup_lt_Some. by rewrite H4.
  - by rewrite list_lookup_alter_ne, list_lookup_insert_ne by done.
Qed.

Lemma program_key_run c ic pid o : program_ready ic (tx_accounts c) pid o → get_program_key c ic = Ok pid.
Proof using Type.
  intros [H1 (st & Hst & Ho) _ H4]. unfold get_program_key, get_index_of_program_account_in_transaction, account_key.
  destruct (Z.eqb_spec (ic_program_index ic) (umax 16)); [done|]. simpl. by rewrite Hst.
Qed.

Definition format_v1 (program_owner : Pubkey) : bool := negb (bool_decide (program_owner = bpf_loader_deprecated)).

Lemma serialize_run c ic direct pid o :
  let a := tx_accounts c in
  let v1 := format_v1 o in
  ready ic a → program_ready ic a pid o → zlen (ic_accounts ic) ≤ MAX_ACCOUNTS_PER_INSTRUCTION → zlen (ic_data ic) ≤ 2 ^ 62 →
  ∃ s metas offset a', serialize_parameters shared c ic direct a = (Ok (s_buffer s, s_regions s, metas, offset), a') ∧
    inert a a' ∧ borrow_counters a' = borrow_counters a ∧ input_ok v1 direct (entries ic) (ic_data ic) pid a s metas offset ∧
    s_capacity s = input_size v1 direct (entries ic) (zlen (ic_data ic)) ∧
    Forall2 (λ i x, entry_of ic i = Some x) (seq 0 (length (ic_accounts ic))) (entries ic).
Proof using Type.
  intros a v1 Hr Hp Hn Hdata. unfold serialize_parameters, ensure.
  rewrite (proj2 (Z.leb_le _ _) Hn). rewrite (op_bind_ok (mret tt) _ a tt a eq_refl).
  rewrite (program_key_run c ic pid o Hp). cbn [map_err]. rewrite (op_bind_ok (lift (Ok pid)) _ a pid a eq_refl).
  rewrite (op_bind_ok (try_op (get_program_owner ic)) _ a o a) by (unfold try_op; by rewrite (program_owner_run ic a pid o Hp)).
  unfold zlen at 1. rewrite Nat2Z.id.
  destruct (collect_run ic (seq 0 (length (ic_accounts ic))) a (rd_dedup _ _ Hr)) as (l & a1 & E & I & D & F).
  { apply NoDup_seq. }
  { apply list.Forall_forall. intros i Hi%elem_of_seq. apply lookup_lt_is_Some. lia. }
  { apply list.Forall_forall. intros i Hi j b Hb. destruct (entry_account ic i j b Hb) as (ia & Ea & -> & _ & _).
    apply (rd_free _ _ Hr). by eapply list_elem_of_lookup_2. }
  op_ok E. pose proof (entries_collected _ _ _ F) as El. fold (entries ic) in El. rewrite El.
  destruct (entries_values ic a a1 _ l Hr I F) as [He Hz].
  destruct (inert_list v1 a a1 l I) as [Ic Ir]. pose proof (Forall2_length _ _ _ F) as Hlen. rewrite length_seq in Hlen.
  pose proof (reserved_bound v1 ic a _ l Hr F) as Hb. pose proof (size_bound v1 direct l (zlen (ic_data ic)) (zlen_nonneg _)) as Hsz.
  destruct (serialize_params_run shared v1 direct l (ic_data ic) pid a1 He Hz (entries_dups ic 0 _ l (rd_dedup _ _ Hr) F) (pr_key _ _ _ _ Hp))
    as (s & metas & offset & a' & Es & I' & C & O & Cap).
  { rewrite Ir. change (umax 64) with 18446744073709551615. change (2 ^ 62) with 4611686018427387904 in Hdata.
    unfold zlen in *. unfold MAX_ACCOUNTS_PER_INSTRUCTION, MAX_PERMITTED_DATA_LENGTH, MAX_PERMITTED_DATA_INCREASE, MM_INPUT_START in *. lia. }
  exists s, metas, offset, a'. split_and!; try done.
  - rewrite <- Es. unfold serialize_params, v1, format_v1. by destruct (bool_decide _).
  - by transitivity a1.
  - by rewrite C, D.
  - destruct O as [O1 O2 O3 O4 O5 O6]. rewrite Ir in O1. rewrite Ic in O4. constructor; try done.
    eapply Forall2_impl; [exact O5|]. intros x meta. by apply inert_meta.
Qed.

End call.

(** ** Reading back *)

Lemma slice_mid x y z : slice_get (x ++ y ++ z) (zlen x) (zlen y) = Some y.
Proof. rewrite app_assoc. apply slice_get_app; [apply zlen_nonneg|apply slice_get_end]. Qed.
Lemma slice_at x y z p n : p = zlen x → n = zlen y → slice_get (x ++ y ++ z) p n = Some y.
Proof. intros -> ->. apply slice_mid. Qed.
Lemma read_u64_at x v z p a : p = zlen x → fits 64 v → read_u64 (x ++ le_bytes 8 v ++ z) p a = (Ok v, a).
Proof.
  intros -> Hv. unfold read_u64. rewrite (slice_at x (le_bytes 8 v) z _ 8) by (try rewrite zlen_le_bytes; done).
  change (le_num <$> Some (le_bytes 8 v)) with (Some (le_num (le_bytes 8 v))).
  unfold lift, ok_or. rewrite le_num_le_bytes. change (256 ^ Z.of_nat 8) with (2 ^ 64). by rewrite Z.mod_small.
Qed.

Lemma handle_value_inv a b k core data :
  handle_value a b = Some (k, core, data) →
  ∃ c, values a !! handle_index b = Some (k, c) ∧ core = cow_core (storage a) c ∧ data = cow_data (storage a) c.
Proof. unfold handle_value. intros ([k' c] & E & [= -> -> ->])%fmap_Some. eauto. Qed.

Section reading.
Context (b : BorrowedInstructionAccount) (a : TransactionAccounts) (k : Pubkey) (core : AccountCore) (data : list Z).
Context (Hv : handle_value a b = Some (k, core, data)) (Hk : zlen k = 32) (Ho : zlen (owner core) = 32).
Context (Hl : fits 64 (lamports core)) (Hd : zlen data ≤ MAX_PERMITTED_DATA_LENGTH).

Lemma read_core : get_core b a = (Ok core, a).
Proof using Hv.
  destruct (handle_value_inv _ _ _ _ _ Hv) as (c & E & Ec & _). rewrite Ec. by apply (get_core_run b a k).
Qed.
Lemma read_data : get_data b a = (Ok data, a).
Proof using Hv.
  destruct (handle_value_inv _ _ _ _ _ Hv) as (c & E & _ & Ed). rewrite Ed. by apply (get_data_run b a k).
Qed.
Lemma update_lamports_same : update_lamports b (lamports core) a = (Ok tt, a).
Proof using Hv. unfold update_lamports. op_ok read_core. by rewrite Z.eqb_refl. Qed.
Lemma update_length_same : update_length b (zlen data) a = (Ok tt, a).
Proof using Hv. unfold update_length. op_ok read_data. by rewrite Z.eqb_refl. Qed.

Lemma data_len_fits : fits 64 (zlen data).
Proof using Hd. pose proof (zlen_nonneg data). unfold fits, MAX_PERMITTED_DATA_LENGTH in *. lia. Qed.

Ltac sizes := rewrite ?zlen_app, ?zlen_le_bytes, ?Hk, ?Ho; change (zlen [0; 0; 0; 0]) with 4; lia.

Lemma deserialize_v0_same pre post :
  deserialize_account_v0 b (pre ++ account_chunk b false k core (zlen data) ++ post) (zlen pre + 1) (zlen data) a =
    (Ok (zlen pre + zlen (account_chunk b false k core (zlen data))), a).
Proof using Hv Hk Ho Hl.
  unfold deserialize_account_v0, account_chunk. rewrite <- !app_assoc.
  set (f1 := le_bytes 1 NON_DUP_MARKER). set (f2 := le_bytes 1 _). set (f3 := le_bytes 1 _). set (f4 := le_bytes 8 (zlen data)).
  set (tail := owner core ++ _).
  replace (pre ++ f1 ++ f2 ++ f3 ++ k ++ le_bytes 8 (lamports core) ++ f4 ++ tail)
    with ((pre ++ f1 ++ f2 ++ f3 ++ k) ++ le_bytes 8 (lamports core) ++ f4 ++ tail) by by rewrite <- !app_assoc.
  erewrite op_bind_ok; [|apply read_u64_at; [subst f1 f2 f3; sizes|exact Hl]].
  op_ok update_lamports_same. op_ok update_length_same. unfold mret, op_ret. f_equal. f_equal. subst f1 f2 f3 f4. sizes.
Qed.

Lemma deserialize_v1_same pre post :
  deserialize_account_v1 b (pre ++ account_chunk b true k core (zlen data) ++ post) (zlen pre + 1) (zlen data) a =
    (Ok (zlen pre + zlen (account_chunk b true k core (zlen data))), a).
Proof using Hv Hk Ho Hl Hd.
  unfold deserialize_account_v1, account_chunk. rewrite <- !app_assoc.
  set (f1 := le_bytes 1 NON_DUP_MARKER). set (f2 := le_bytes 1 _). set (f3 := le_bytes 1 _). set (f4 := le_bytes 1 _).
  set (tail := replicate 8 0 ++ le_bytes 8 _ ++ post). set (head := pre ++ f1 ++ f2 ++ f3 ++ f4 ++ [0; 0; 0; 0] ++ k).
  assert (Hhead : zlen head = zlen pre + 40) by (subst head f1 f2 f3 f4; sizes).
  replace (pre ++ f1 ++ f2 ++ f3 ++ f4 ++ [0; 0; 0; 0] ++ k ++ owner core ++ le_bytes 8 (lamports core) ++ le_bytes 8 (zlen data) ++ tail)
    with (head ++ owner core ++ le_bytes 8 (lamports core) ++ le_bytes 8 (zlen data) ++ tail) by (subst head; by rewrite <- !app_assoc).
  rewrite (slice_at head (owner core)) by lia. rewrite (op_bind_ok (lift (ok_or (Some _) _)) _ a _ a eq_refl).
  rewrite (app_assoc head). erewrite op_bind_ok; [|apply read_u64_at; [sizes|exact Hl]].
  op_ok update_lamports_same. rewrite (app_assoc (head ++ owner core)).
  erewrite op_bind_ok; [|apply read_u64_at; [sizes|exact data_len_fits]].
  assert (negb ((MAX_PERMITTED_DATA_INCREASE <? saturating_sub (zlen data) (zlen data)) || (MAX_PERMITTED_DATA_LENGTH <? zlen data)) = true) as ->.
  { unfold saturating_sub. rewrite Z.sub_diag. destruct (Z.ltb_spec MAX_PERMITTED_DATA_LENGTH (zlen data)); [lia|done]. }
  rewrite (op_bind_ok (ensure true _) _ a tt a eq_refl). op_ok update_length_same. op_ok read_core. rewrite bool_decide_eq_true_2 by done.
  rewrite (op_bind_ok (mret tt) _ a tt a eq_refl). unfold mret, op_ret. f_equal. f_equal.
  subst f1 f2 f3 f4. rewrite !zlen_app, !zlen_le_bytes, Hk, Ho. unfold BPF_ALIGN_OF_U128. change (zlen (replicate 8 0)) with 8. change (zlen [0; 0; 0; 0]) with 4. lia.
Qed.

End reading.

(** The metadata has the length of the data. *)
Definition length_of (a : TransactionAccounts) (x : SerializeAccount) (n : Z) : Prop :=
  match x with
  | SDuplicate _ => True
  | SAccount _ b => ∀ k core data, handle_value a b = Some (k, core, data) → n = zlen data
  end.

Lemma deserialize_accounts_run v1 ic a indexes l lengths pre post :
  ready ic a → Forall2 (λ i x, entry_of ic i = Some x) indexes l → Forall2 (length_of a) l lengths →
  deserialize_accounts v1 ic (pre ++ concat (entry_chunk v1 a <$> l) ++ post) (zip indexes lengths) (zlen pre) a = (Ok tt, a).
Proof.
  intros Hr F. revert lengths pre. induction F as [|i x indexes l Hx F IH]; intros lengths pre Hn; [done|].
  inversion Hn as [|? n ? lengths' Hn1 Hn2]; subst. rewrite fmap_cons. cbn [zip zip_with deserialize_accounts concat].
  rewrite (duplicate_run ic i x (rd_dedup _ _ Hr) Hx). rewrite (op_bind_ok (lift (Ok _)) _ a _ a eq_refl). cbv zeta.
  rewrite (op_bind_ok _ _ a (zlen (pre ++ entry_chunk v1 a x)) a).
  { rewrite <- app_assoc, (app_assoc pre). by apply IH. }
  destruct x as [j b|p].
  - destruct (entry_account ic i j b Hx) as (ia & Ea & -> & _ & _). assert (ia ∈ ic_accounts ic) as Hin by by eapply list_elem_of_lookup_2.
    destruct (rd_values _ _ Hr ia Hin) as (k & core & data & Hv & H1 & H2 & H3 & H4 & _). pose proof (rd_free _ _ Hr ia Hin) as Hfree.
    rewrite (Hn1 _ _ _ Hv). unfold with_handle, mbind, op_bind. rewrite (borrow_run ic ia i a Ea Hfree).
    set (a1 := with_counters a _). assert (Hv1 : handle_value a1 (handle_of ic ia) = Some (k, core, data)) by done.
    cbn [entry_chunk]. rewrite Hv, <- app_assoc, zlen_app.
    assert (Es : (if v1 then deserialize_account_v1 (handle_of ic ia) (pre ++ account_chunk (handle_of ic ia) v1 k core (zlen data) ++
        concat (entry_chunk v1 a <$> l) ++ post) (zlen pre + 1) (zlen data)
      else deserialize_account_v0 (handle_of ic ia) (pre ++ account_chunk (handle_of ic ia) v1 k core (zlen data) ++
        concat (entry_chunk v1 a <$> l) ++ post) (zlen pre + 1) (zlen data)) a1 =
      (Ok (zlen pre + zlen (account_chunk (handle_of ic ia) v1 k core (zlen data))), a1)).
    { destruct v1; [by apply deserialize_v1_same|by apply deserialize_v0_same]. }
    rewrite Es. subst a1. by rewrite release_run.
  - unfold mret, op_ret. f_equal. f_equal. cbn [entry_chunk]. rewrite !zlen_app, zlen_le_bytes.
    assert (zlen (if v1 then replicate 7 0 else []) = if v1 then 7 else 0) as -> by by destruct v1. destruct v1; lia.
Qed.

Lemma ready_inert ic a a' : inert a a' → borrow_counters a' = borrow_counters a → ready ic a → ready ic a'.
Proof.
  intros I C [H1 H2 H3]. constructor; [done| |by rewrite C].
  intros ia Hia. destruct (H2 ia Hia) as (k & core & data & Hv & H). exists k, core, data.
  by rewrite (inert_value a a'), (in_flags _ _ I).
Qed.
Lemma program_ready_inert ic a a' pid o :
  inert a a' → borrow_counters a' = borrow_counters a → program_ready ic a pid o → program_ready ic a' pid o.
Proof.
  intros I C [H1 (st & Hst & Ho) H3 H4]. constructor; [done| |done|by rewrite C].
  assert (Hv : values a !! Z.to_nat (ic_program_index ic) = Some (pid, cow st)) by (unfold values; by rewrite list_lookup_fmap, Hst).
  rewrite <- (in_values _ _ I) in Hv. unfold values in Hv. rewrite list_lookup_fmap, fmap_Some in Hv.
  destruct Hv as ([k' st'] & E & [= <- Hc]). exists st'. split; [done|].
  rewrite (in_storage _ _ I), <- Ho. unfold core_of. by rewrite <- Hc.
Qed.

Lemma metas_lengths s a metas l metas' : Forall2 (entry_meta s a metas) l metas' → Forall2 (length_of a) l (original_data_len <$> metas').
Proof.
  intros F. apply Forall2_fmap_r. eapply Forall2_impl; [exact F|]. intros [i b|p] meta; [|done].
  intros (k & core & data & Hv & M) k' core' data'. rewrite Hv. intros [= <- <- <-]. apply M.
Qed.

(** ** Theorems *)

Section theorems.
Context {Code : Type} `{PR : !ProgramRuntime Code} (shared : nat → bool).

(** C16. Serialization succeeds and its buffer is exactly as large as was computed before the first write,
    so the unchecked writes stay within the allocation; every region of the buffer is within it, the
    regions do not overlap, and the accounts are left as they were, with all borrows released. *)
Theorem input_within_allocation c ic direct pid o :
  ready ic (tx_accounts c) → program_ready ic (tx_accounts c) pid o →
  zlen (ic_accounts ic) ≤ MAX_ACCOUNTS_PER_INSTRUCTION → zlen (ic_data ic) ≤ 2 ^ 62 →
  ∃ buffer regions metas offset a',
    serialize_parameters shared c ic direct (tx_accounts c) = (Ok (buffer, regions, metas, offset), a') ∧
    zlen buffer = input_size (format_v1 o) direct (entries ic) (zlen (ic_data ic)) ∧
    Forall (slice_ok (zlen buffer)) regions ∧ StronglySorted before regions ∧
    length metas = length (ic_accounts ic) ∧
    inert (tx_accounts c) a' ∧ borrow_counters a' = borrow_counters (tx_accounts c).
Proof using Type.
  intros Hr Hp Hn Hd. destruct (serialize_run shared c ic direct pid o Hr Hp Hn Hd) as (s & metas & offset & a' & E & I & C & O & Cap & F).
  exists (s_buffer s), (s_regions s), metas, offset, a'. split_and!; try done.
  - by rewrite (io_size _ _ _ _ _ _ _ _ _ O).
  - apply O.
  - apply O.
  - by rewrite <- (Forall2_length _ _ _ (io_metas _ _ _ _ _ _ _ _ _ O)), <- (Forall2_length _ _ _ F), length_seq.
Qed.

(** C17. The program finds its input: through the regions, the addresses of the metadata lead to the marker, the key,
    the owner, the lamports and the data of every account, a duplicate has the metadata of the first
    occurrence, and the instruction data is at the returned address. *)
Theorem program_finds_its_input c ic direct pid o :
  ready ic (tx_accounts c) → program_ready ic (tx_accounts c) pid o →
  zlen (ic_accounts ic) ≤ MAX_ACCOUNTS_PER_INSTRUCTION → zlen (ic_data ic) ≤ 2 ^ 62 →
  ∃ buffer regions metas offset a',
    serialize_parameters shared c ic direct (tx_accounts c) = (Ok (buffer, regions, metas, offset), a') ∧
    (ic_data ic ≠ [] → guest_read a' buffer regions offset (zlen (ic_data ic)) = Some (ic_data ic)) ∧
    ∀ i x, entry_of ic i = Some x → ∃ meta, metas !! i = Some meta ∧
      match x with
      | SDuplicate first => metas !! Z.to_nat first = Some meta
      | SAccount _ b => ∃ k core data, handle_value (tx_accounts c) b = Some (k, core, data) ∧
          original_data_len meta = zlen data ∧
          guest_read a' buffer regions (vm_addr_ meta) 1 = Some [NON_DUP_MARKER] ∧
          guest_read a' buffer regions (vm_key_addr meta) 32 = Some k ∧
          guest_read a' buffer regions (vm_owner_addr meta) 32 = Some (owner core) ∧
          guest_read a' buffer regions (vm_lamports_addr meta) 8 = Some (le_bytes 8 (lamports core)) ∧
          (data ≠ [] → guest_read a' buffer regions (vm_data_addr meta) (zlen data) = Some data)
      end.
Proof using Type.
  intros Hr Hp Hn Hd. destruct (serialize_run shared c ic direct pid o Hr Hp Hn Hd) as (s & metas & offset & a' & E & I & C & O & Cap & F).
  destruct O as [O1 O2 O3 _ O5 O6].
  exists (s_buffer s), (s_regions s), metas, offset, a'. split_and!; [done|by apply (guest_read_holds a' s _ O1 O2)|].
  intros i x Hx. assert (Hix : entries ic !! i = Some x).
  { assert (Hi : (i < length (ic_accounts ic))%nat).
    { unfold entry_of in Hx. destruct (ic_accounts ic !! i) eqn:Ei; [|done]. by eapply lookup_lt_Some. }
    destruct (Forall2_lookup_l _ _ _ i i F) as (y & Hy & Ey); [by apply lookup_seq_lt|]. congruence. }
  destruct (Forall2_lookup_l _ _ _ i x O5 Hix) as (meta & Em & Hm). exists meta. split; [done|].
  destruct x as [j b|p]; [|done]. destruct (entry_account ic i j b Hx) as (ia & Ea & -> & _ & _).
  destruct Hm as (k & core & data & Hv & [M1 M2 M3 M4 M5 M6]). exists k, core, data.
  destruct (rd_values _ _ Hr ia) as (k' & core' & data' & Hv' & H1 & H2 & _); [by eapply list_elem_of_lookup_2|].
  rewrite Hv in Hv'. injection Hv' as <- <- <-.
  assert (Hread : ∀ addr bs n, holds_at s addr bs → zlen bs = n → 0 < n → guest_read a' (s_buffer s) (s_regions s) addr n = Some bs).
  { intros addr bs n Hh <- Hpos. apply (guest_read_holds a' s _ O1 O2); [done|]. by intros ->. }
  split_and!; [done|done|by apply (Hread _ _ 1 M2)|by apply Hread|by apply Hread|by apply Hread|].
  intros Hne. destruct (handle_value_inv _ _ _ _ _ Hv) as (cw & Ec & _ & Ed). subst data.
  rewrite <- (in_storage _ _ I) in *. rewrite <- (in_values _ _ I) in Ec.
  apply (guest_read_shows a' s _ O1 _ (index_in_transaction ia) k cw); [|done|exact Ec]. apply M6.
  intros E0. apply Hne. by apply nil_length_inv, Nat2Z.inj.
Qed.

(** C18. Round trip: reading back an input that the program left alone succeeds and changes nothing. *)
Theorem untouched_input_changes_nothing c ic direct pid o :
  ready ic (tx_accounts c) → program_ready ic (tx_accounts c) pid o →
  zlen (ic_accounts ic) ≤ MAX_ACCOUNTS_PER_INSTRUCTION → zlen (ic_data ic) ≤ 2 ^ 62 →
  ∃ buffer regions metas offset a',
    serialize_parameters shared c ic direct (tx_accounts c) = (Ok (buffer, regions, metas, offset), a') ∧
    inert (tx_accounts c) a' ∧ borrow_counters a' = borrow_counters (tx_accounts c) ∧
    deserialize_parameters ic buffer metas a' = (Ok tt, a').
Proof using Type.
  intros Hr Hp Hn Hd. destruct (serialize_run shared c ic direct pid o Hr Hp Hn Hd) as (s & metas & offset & a' & E & I & C & O & _ & F).
  exists (s_buffer s), (s_regions s), metas, offset, a'. split_and!; try done.
  unfold deserialize_parameters. op_ok (program_owner_run ic a' pid o (program_ready_inert _ _ _ _ _ I C Hp)).
  destruct (io_buffer _ _ _ _ _ _ _ _ _ O) as (more & ->).
  destruct (inert_list (format_v1 o) _ _ (entries ic) I) as [<- _].
  change 8 with (zlen (le_bytes 8 (zlen (entries ic)))). apply deserialize_accounts_run; [by eapply ready_inert|done|].
  eapply Forall2_impl; [eapply metas_lengths, (io_metas _ _ _ _ _ _ _ _ _ O)|]. intros [i b|p] n; [|done]. simpl. by rewrite (inert_value _ _ _ I).
Qed.

End theorems.

(** ** A concrete instruction *)

#[local] Existing Instance example_runtime.

(** Two accounts of a program, the first of them twice. *)
Definition example_instruction : InstructionContext :=
  {| index_in_trace := 0; ic_nesting_level := 1; ic_caller := 0; ic_program_index := 4;
     ic_accounts := [instruction_account_new 1 false true; instruction_account_new 2 true false; instruction_account_new 1 false true];
     dedup_map := [65535; 0; 1]; ic_data := [7; 8] |}.
Definition example_context : TransactionContext := context_new (λ _, 0) example_accounts 5 64 1.

Lemma example_ready : ready example_instruction (tx_accounts example_context).
Proof.
  constructor.
  - intros i ia Hi. destruct i as [|[|[|i]]]; [..|done]; injection Hi as <-; eexists; split; try reflexivity; lia.
  - intros ia Hia. cbn [ic_accounts example_instruction] in Hia. repeat (apply elem_of_cons in Hia as [->|Hia]); [..|by apply not_elem_of_nil in Hia];
      eexists _, _, _; (split; [reflexivity|]); vm_compute; repeat split; try (intros H; discriminate H); lia.
  - intros ia Hia. cbn [ic_accounts example_instruction] in Hia. repeat (apply elem_of_cons in Hia as [->|Hia]); [..|by apply not_elem_of_nil in Hia]; reflexivity.
Qed.
Lemma example_program_ready : program_ready example_instruction (tx_accounts example_context) (key 4) (key 5).
Proof. constructor; [done|by eexists|done|done]. Qed.

Lemma input_within_allocation_witness :
  ∃ buffer regions metas offset a',
    serialize_parameters (λ _, false) example_context example_instruction true (tx_accounts example_context) =
      (Ok (buffer, regions, metas, offset), a') ∧ zlen buffer = 296 ∧ length metas = 3%nat.
Proof.
  destruct (input_within_allocation (λ _, false) example_context example_instruction true (key 4) (key 5)
    example_ready example_program_ready ltac:(done) ltac:(done)) as (buffer & regions & metas & offset & a' & E & Hz & _ & _ & Hl & _).
  exists buffer, regions, metas, offset, a'. split; [exact E|]. split; [rewrite Hz; reflexivity|exact Hl].
Defined.

Lemma program_finds_its_input_witness :
  ∃ buffer regions metas offset a' first last,
    serialize_parameters (λ _, false) example_context example_instruction false (tx_accounts example_context) =
      (Ok (buffer, regions, metas, offset), a') ∧
    guest_read a' buffer regions offset 2 = Some [7; 8] ∧ metas !! 0%nat = Some first ∧
    guest_read a' buffer regions (vm_key_addr first) 32 = Some (key 2) ∧
    guest_read a' buffer regions (vm_data_addr first) 4 = Some [1; 2; 3; 4] ∧
    metas !! 2%nat = Some last ∧ metas !! 0%nat = Some last.
Proof.
  destruct (program_finds_its_input (λ _, false) example_context example_instruction false (key 4) (key 5)
    example_ready example_program_ready ltac:(done) ltac:(done)) as (buffer & regions & metas & offset & a' & E & Hd & H).
  destruct (H 0%nat _ eq_refl) as (first & Hf & k & core & data & Hv & _ & _ & Hk & _ & _ & Hdata).
  destruct (H 2%nat _ eq_refl) as (last & Hl & Hl0). vm_compute in Hv. injection Hv as <- <- <-.
  exists buffer, regions, metas, offset, a', first, last. split; [exact E|]. split; [apply Hd; discriminate|].
  split; [exact Hf|]. split; [exact Hk|]. split; [apply Hdata; discriminate|]. split; [exact Hl|exact Hl0].
Defined.

Lemma untouched_input_witness :
  ∃ buffer regions metas offset a',
    serialize_parameters (λ _, false) example_context example_instruction false (tx_accounts example_context) =
      (Ok (buffer, regions, metas, offset), a') ∧ deserialize_parameters example_instruction buffer metas a' = (Ok tt, a').
Proof.
  destruct (untouched_input_changes_nothing (λ _, false) example_context example_instruction false (key 4) (key 5)
    example_ready example_program_ready ltac:(done) ltac:(done)) as (buffer & regions & metas & offset & a' & E & _ & _ & H).
  exists buffer, regions, metas, offset, a'. split; [exact E|exact H].
Defined.
