(* ===== verification/Cpi.v ===== *)
(** * Calls from the virtual machine ([solana/program-runtime/src/cpi.rs], [memory.rs])

    A program in the virtual machine asks for a call with addresses of its own memory. The request
    is translated and checked, the accounts as the caller sees them are brought to the accounts of
    the transaction, the callee runs, and what it changed is brought back to the caller's memory. *)

From stdpp Require Import base list numbers option.
From S2P Require Import Prelude Effects Memory AccountMode Account CtxAccounts CtxInstruction CtxStack CtxSession Programs Invoke Serialize.

Local Open Scope Z_scope.

(** ** Errors and limits *)

Inductive CpiError :=
| InvalidPointer | TooManySigners | BadSeeds (e : InstructionError) | InvalidLength
| MaxInstructionAccountsExceeded (num_accounts max_accounts : Z)
| MaxInstructionDataLenExceeded (data_len max_data_len : Z)
| MaxInstructionAccountInfosExceeded (num_account_infos max_account_infos : Z)
| ProgramNotSupported (program_id : Pubkey).

Inductive MemoryTranslationError := UnalignedPointer | InvalidSliceLength.

(** What the boxed error of a call is: of the runtime, of the call, of a translation, or of the
    memory mapping. [CpiPanic] is an [unwrap] that fails. *)
Inductive CpiFault :=
| CpiInstruction (e : InstructionError) | CpiCall (e : CpiError) | CpiMemory (e : MemoryTranslationError)
| CpiAccess | CpiPanic.

Definition MAX_SIGNERS : Z := 16.
Definition MAX_SEEDS : Z := 16.
Definition ACCOUNT_INFO_BYTE_SIZE : Z := 80.
Definition MAX_CPI_ACCOUNT_INFOS : Z := 128.
Definition MAX_CPI_ACCOUNT_INFOS_SIMD_0339 : Z := 255.
Definition MAX_INSTRUCTION_DATA_LEN : Z := 10 * 1024.
Definition ISIZE_MAX : Z := 2 ^ 63 - 1.

(** The costs and the features that calls read. *)
Record CpiConfig := {
  invoke_units : Z;
  cpi_bytes_per_unit : Z;
  increase_cpi_account_info_limit : bool;
  increase_tx_account_lock_limit : bool;
  enable_bpf_loader_set_authority_checked_ix : bool;
}.

(** ** Structures in the memory of a program *)

(** The [repr(C)] structures of the source, from their bytes. *)
Definition word_at (bs : list Z) (offset : nat) : Z := le_num (take 8 (drop offset bs)).
Definition byte_at (bs : list Z) (offset : nat) : Z := nth offset bs 0.

Record SolInstruction := {
  si_program_id_addr : Z; si_accounts_addr : Z; si_accounts_len : Z; si_data_addr : Z; si_data_len : Z;
}.
Definition sol_instruction_of (bs : list Z) : SolInstruction :=
  {| si_program_id_addr := word_at bs 0; si_accounts_addr := word_at bs 8; si_accounts_len := word_at bs 16;
     si_data_addr := word_at bs 24; si_data_len := word_at bs 32 |}.

Record UntrustedAccountMeta := { um_pubkey : Pubkey; um_is_signer : Z; um_is_writable : Z }.
Definition untrusted_account_meta_of (bs : list Z) : UntrustedAccountMeta :=
  {| um_pubkey := take 32 bs; um_is_signer := byte_at bs 32; um_is_writable := byte_at bs 33 |}.

Record UntrustedSolAccountMeta := { us_pubkey_addr : Z; us_is_writable : Z; us_is_signer : Z }.
Definition untrusted_sol_account_meta_of (bs : list Z) : UntrustedSolAccountMeta :=
  {| us_pubkey_addr := word_at bs 0; us_is_writable := byte_at bs 8; us_is_signer := byte_at bs 9 |}.

Record SolAccountInfo := {
  sa_key_addr : Z; sa_lamports_addr : Z; sa_data_len : Z; sa_data_addr : Z; sa_owner_addr : Z;
}.
Definition sol_account_info_of (bs : list Z) : SolAccountInfo :=
  {| sa_key_addr := word_at bs 0; sa_lamports_addr := word_at bs 8; sa_data_len := word_at bs 16;
     sa_data_addr := word_at bs 24; sa_owner_addr := word_at bs 32 |}.

(** [VmSlice]: an address and a length. *)
Record VmSliceAt := { vs_ptr : Z; vs_len : Z }.
Definition vm_slice_of (bs : list Z) : VmSliceAt := {| vs_ptr := word_at bs 0; vs_len := word_at bs 8 |}.

(** The structures of crates outside the repository: the instruction of Rust programs, and their
    account info with the addresses of its key, its owner and its two cells. *)
Record StableInstruction := {
  st_accounts_addr : Z; st_accounts_len : Z; st_data_addr : Z; st_data_len : Z; st_program_id : Pubkey;
}.
Record AccountInfo := { ai_key : Z; ai_owner : Z; ai_lamports : Z; ai_data : Z }.

Class GuestLayouts := {
  stable_instruction_size : Z;
  stable_instruction_align : Z;
  stable_instruction_of : list Z → StableInstruction;
  account_info_size : Z;
  account_info_align : Z;
  account_info_of : list Z → AccountInfo;
}.

(** The instructions of the upgradeable loader, by their data. *)
Class LoaderInstructions := {
  is_upgrade_instruction : list Z → bool;
  is_set_authority_instruction : list Z → bool;
  is_set_authority_checked_instruction : list Z → bool;
  is_close_instruction : list Z → bool;
}.

(** The memory mapping of the virtual machine, with the memory behind it. Mapping an address may run
    the access violation handler, which works on the accounts. *)
Class GuestMemory := {
  Vm : Type;
  vm_map : AccessType → Z → Z → Eff unit (Vm * TransactionAccounts) Z;
  host_read : Z → Z → Vm * TransactionAccounts → list Z;
  host_write : Z → list Z → Vm * TransactionAccounts → Vm * TransactionAccounts;
  find_region : Vm → Z → option (nat * MemoryRegion);
  replace_region : nat → InputRegion → Vm → result unit Vm;
}.

Definition address_is_aligned (align address : Z) : bool := address mod align =? 0.
(** [checked_div(..).unwrap_or(u64::MAX)]. *)
Definition units_of (bytes per_unit : Z) : Z := if per_unit =? 0 then umax 64 else bytes / per_unit.

Definition translate_bool (value : Z) : result CpiFault bool :=
  match value with 0 => Ok false | 1 => Ok true | _ => Err (CpiInstruction InvalidArgument) end.

Definition check_account_info_pointer (vm_addr expected_vm_addr : Z) : result CpiFault unit :=
  if vm_addr =? expected_vm_addr then Ok tt else Err (CpiCall InvalidPointer).

Definition check_instruction_size (num_accounts data_len : Z) : result CpiFault unit :=
  if MAX_ACCOUNTS_PER_INSTRUCTION <? num_accounts
  then Err (CpiCall (MaxInstructionAccountsExceeded num_accounts MAX_ACCOUNTS_PER_INSTRUCTION))
  else if MAX_INSTRUCTION_DATA_LEN <? data_len
  then Err (CpiCall (MaxInstructionDataLenExceeded data_len MAX_INSTRUCTION_DATA_LEN))
  else Ok tt.

Definition max_cpi_account_infos (cfg : CpiConfig) : Z :=
  if increase_cpi_account_info_limit cfg then MAX_CPI_ACCOUNT_INFOS_SIMD_0339
  else if increase_tx_account_lock_limit cfg then MAX_CPI_ACCOUNT_INFOS
  else 64.
Definition check_account_infos (cfg : CpiConfig) (num_account_infos : Z) : result CpiFault unit :=
  if max_cpi_account_infos cfg <? num_account_infos
  then Err (CpiCall (MaxInstructionAccountInfosExceeded num_account_infos (max_cpi_account_infos cfg)))
  else Ok tt.

Section calls.
Context {Code : Type} `{PR : !ProgramRuntime Code} `{LI : !LoaderInstructions} `{GL : !GuestLayouts} `{GM : !GuestMemory}.
Context (cfg : CpiConfig) (shared_buffer : nat → bool).
Abbreviation IC := (InvokeContext Code).
Abbreviation Cpi := (Eff CpiFault (IC * Vm)).

Definition check_authorized_program (id : Pubkey) (data : list Z) : result CpiFault unit :=
  if bool_decide (id = native_loader) || bool_decide (id = bpf_loader) || bool_decide (id = bpf_loader_deprecated)
     || (bool_decide (id = bpf_loader_upgradeable)
         && negb (is_upgrade_instruction data || is_set_authority_instruction data
                  || (enable_bpf_loader_set_authority_checked_ix cfg && is_set_authority_checked_instruction data)
                  || is_close_instruction data))
     || is_precompile id
  then Err (CpiCall (ProgramNotSupported id))
  else Ok tt.

(** ** Methods of the context, of the accounts and of the memory *)

Definition accounts_of (s : IC) : TransactionAccounts := tx_accounts (transaction_context s).
Definition with_accounts (s : IC) (a : TransactionAccounts) : IC :=
  with_session s {| ctx := with_tx_accounts (transaction_context s) a; held := held (session s); shared := shared (session s) |}.

Definition on_ic {A} (p : Eff InstructionError IC A) : Cpi A := λ x,
  let '(r, s) := p x.1 in (map_err CpiInstruction r, (s, x.2)).
Definition on_tx {A} (p : Op TransactionAccounts A) : Cpi A := λ x,
  let '(r, a) := p (accounts_of x.1) in (map_err CpiInstruction r, (with_accounts x.1 a, x.2)).
Definition on_memory {A} (p : Eff unit (Vm * TransactionAccounts) A) : Cpi A := λ x,
  let '(r, (v, a)) := p (x.2, accounts_of x.1) in (map_err (λ _, CpiAccess) r, (with_accounts x.1 a, v)).

Definition read_bytes (host len : Z) : Cpi (list Z) := λ x, (Ok (host_read host len (x.2, accounts_of x.1)), x).
Definition write_bytes (host : Z) (bs : list Z) : Cpi unit := λ x,
  let '(v, a) := host_write host bs (x.2, accounts_of x.1) in (Ok tt, (with_accounts x.1 a, v)).
Definition load_u64 (host : Z) : Cpi Z := bs ← read_bytes host 8; mret (le_num bs).
Definition store_u64 (host v : Z) : Cpi unit := write_bytes host (le_bytes 8 v).

(** The call runs in the frame of a program of the virtual machine. *)
Definition memory_mapping : Cpi unit := λ x,
  (match list.last (memory_contexts x.1) with
   | None => Err (CpiInstruction CallDepth)
   | Some Placeholder => Err (CpiInstruction ProgramEnvironmentSetupFailure)
   | Some (ABIv1 _ _) => Ok tt
   end, x).

Definition get_check_aligned : Cpi bool := λ x,
  match get_current_instruction_context (transaction_context x.1) with
  | Err _ => (Ok true, x)
  | Ok ic =>
      let '(r, a) := get_program_owner ic (accounts_of x.1) in
      (Ok (match r with Ok o => negb (bool_decide (o = bpf_loader_deprecated)) | Err _ => true end), (with_accounts x.1 a, x.2))
  end.

Definition consume_compute_meter (amount : Z) : Cpi unit := on_ic (consume_checked amount).

(** ** Translation *)

Definition translate_type (access : AccessType) (vm_addr size align : Z) (check_aligned : bool) : Cpi Z :=
  host ← on_memory (vm_map access vm_addr size);
  if check_aligned && negb (address_is_aligned align host) then fail (CpiMemory UnalignedPointer) else mret host.

(** An empty slice is a dangling pointer, which has the address of its alignment. *)
Definition translate_slice (access : AccessType) (vm_addr len size align : Z) (check_aligned : bool) : Cpi Z :=
  if len =? 0 then mret align
  else
    let total_size := saturating_mul 64 len size in
    if ISIZE_MAX <? total_size then fail (CpiMemory InvalidSliceLength)
    else
      host ← on_memory (vm_map access vm_addr total_size);
      if check_aligned && negb (address_is_aligned align host) then fail (CpiMemory UnalignedPointer) else mret host.

(** An iterator with [?] in its body. *)
Fixpoint each {A B} (f : A → Cpi B) (l : list A) : Cpi (list B) :=
  match l with
  | [] => mret []
  | x :: l => y ← f x; ys ← each f l; mret (y :: ys)
  end.
Definition indices (n : Z) : list Z := seqZ 0 n.

Definition translation_cost (data_len accounts_len : Z) : Z :=
  let cost := units_of data_len (cpi_bytes_per_unit cfg) in
  if increase_cpi_account_info_limit cfg
  then saturating_add 64 cost (units_of (saturating_mul 64 accounts_len 34) (cpi_bytes_per_unit cfg))
  else cost.

Definition translate_instruction_rust (addr : Z) : Cpi CallInstruction :=
  check_aligned ← get_check_aligned;
  _ ← memory_mapping;
  p ← translate_type Load addr stable_instruction_size stable_instruction_align check_aligned;
  bs ← read_bytes p stable_instruction_size;
  let ix := stable_instruction_of bs in
  metas ← translate_slice Load (st_accounts_addr ix) (st_accounts_len ix) 34 1 check_aligned;
  data ← translate_slice Load (st_data_addr ix) (st_data_len ix) 1 1 check_aligned;
  _ ← lift (check_instruction_size (st_accounts_len ix) (st_data_len ix));
  _ ← consume_compute_meter (translation_cost (st_data_len ix) (st_accounts_len ix));
  accounts ← each (λ i,
    bs ← read_bytes (metas + 34 * i) 34;
    let meta := untrusted_account_meta_of bs in
    is_signer ← lift (translate_bool (um_is_signer meta));
    is_writable ← lift (translate_bool (um_is_writable meta));
    mret {| meta_pubkey := um_pubkey meta; meta_is_signer := is_signer; meta_is_writable := is_writable |})
    (indices (st_accounts_len ix));
  bytes ← read_bytes data (st_data_len ix);
  mret {| program_id := st_program_id ix; instruction_metas := accounts; instruction_bytes := bytes |}.

Definition translate_instruction_c (addr : Z) : Cpi CallInstruction :=
  check_aligned ← get_check_aligned;
  _ ← memory_mapping;
  p ← translate_type Load addr 40 8 check_aligned;
  bs ← read_bytes p 40;
  let ix := sol_instruction_of bs in
  id ← translate_type Load (si_program_id_addr ix) 32 1 check_aligned;
  metas ← translate_slice Load (si_accounts_addr ix) (si_accounts_len ix) 16 1 check_aligned;
  _ ← ensure (negb ((check_aligned : bool) && negb (address_is_aligned 8 metas))) (CpiMemory UnalignedPointer);
  data ← translate_slice Load (si_data_addr ix) (si_data_len ix) 1 1 check_aligned;
  _ ← lift (check_instruction_size (si_accounts_len ix) (si_data_len ix));
  _ ← consume_compute_meter (translation_cost (si_data_len ix) (si_accounts_len ix));
  accounts ← each (λ i,
    bs ← read_bytes (metas + 16 * i) 16;
    let meta := untrusted_sol_account_meta_of bs in
    is_signer ← lift (translate_bool (us_is_signer meta));
    is_writable ← lift (translate_bool (us_is_writable meta));
    p ← translate_type Load (us_pubkey_addr meta) 32 1 check_aligned;
    key ← read_bytes p 32;
    mret {| meta_pubkey := key; meta_is_signer := is_signer; meta_is_writable := is_writable |})
    (indices (si_accounts_len ix));
  bytes ← read_bytes data (si_data_len ix);
  id ← read_bytes id 32;
  mret {| program_id := id; instruction_metas := accounts; instruction_bytes := bytes |}.

(** [translate_vm_slice] and the bytes of the slice. *)
Definition translate_vm_slice (slice : VmSliceAt) (size align : Z) (check_aligned : bool) : Cpi Z :=
  translate_slice Load (vs_ptr slice) (vs_len slice) size align check_aligned.

Definition translate_seed (check_aligned : bool) (seeds i : Z) : Cpi (list Z) :=
  bs ← read_bytes (seeds + 16 * i) 16;
  let seed := vm_slice_of bs in
  p ← translate_vm_slice seed 1 1 check_aligned;
  read_bytes p (vs_len seed).

Definition translate_signer (check_aligned : bool) (id : Pubkey) (signers_seeds i : Z) : Cpi Pubkey :=
  bs ← read_bytes (signers_seeds + 16 * i) 16;
  let slice := vm_slice_of bs in
  seeds ← translate_vm_slice slice 16 8 check_aligned;
  _ ← ensure (vs_len slice <=? MAX_SEEDS) (CpiInstruction MaxSeedLengthExceeded);
  seeds_bytes ← each (translate_seed check_aligned seeds) (indices (vs_len slice));
  lift (map_err (λ e, CpiCall (BadSeeds e)) (create_program_address seeds_bytes id)).

Definition translate_signers (id : Pubkey) (signers_seeds_addr signers_seeds_len : Z) : Cpi (list Pubkey) :=
  check_aligned ← get_check_aligned;
  _ ← memory_mapping;
  if signers_seeds_len =? 0 then mret []
  else
    signers_seeds ← translate_slice Load signers_seeds_addr signers_seeds_len 16 8 check_aligned;
    _ ← ensure (signers_seeds_len <=? MAX_SIGNERS) (CpiCall TooManySigners);
    each (translate_signer check_aligned id signers_seeds) (indices signers_seeds_len).

(** ** The accounts of the caller *)

(** Where the fields of an account are in the memory of the caller. *)
Record CallerAccount := {
  ca_lamports : Z;
  ca_owner : Z;
  ca_original_data_len : Z;
  ca_vm_data_addr : Z;
  ca_ref_to_len_in_vm : Z;
}.

Definition get_serialized_data (check_aligned : bool) (original_data_len len : Z) : result CpiFault unit :=
  if account_data_region_size (negb check_aligned) original_data_len <? len then Err (CpiInstruction InvalidRealloc) else Ok tt.

Definition from_account_info (check_aligned : bool) (host vm_addr : Z) (info : AccountInfo) (meta : SerializedAccountMetadata)
    : Cpi CallerAccount :=
  _ ← lift (check_account_info_pointer (ai_key info) (vm_key_addr meta));
  _ ← lift (check_account_info_pointer (ai_owner info) (vm_owner_addr meta));
  p ← translate_type Load (ai_lamports info) 8 8 check_aligned;
  _ ← ensure (ai_lamports info <? MM_INPUT_START) (CpiCall InvalidPointer);
  ptr ← load_u64 p;
  _ ← lift (check_account_info_pointer ptr (vm_lamports_addr meta));
  lamports ← translate_type Store ptr 8 8 check_aligned;
  owner ← translate_type Store (ai_owner info) 32 1 check_aligned;
  _ ← ensure (ai_data info <? MM_INPUT_START) (CpiCall InvalidPointer);
  p ← translate_type Load (ai_data info) 16 8 check_aligned;
  data_ptr ← load_u64 p;
  _ ← lift (check_account_info_pointer data_ptr (vm_data_addr meta));
  let vm_len_addr := saturating_add 64 (ai_data info) 8 in
  _ ← ensure (vm_len_addr <? MM_INPUT_START) (CpiCall InvalidPointer);
  ref_to_len ← translate_type Store vm_len_addr 8 8 false;
  len ← load_u64 ref_to_len;
  _ ← lift (get_serialized_data check_aligned (original_data_len meta) len);
  mret {| ca_lamports := lamports; ca_owner := owner; ca_original_data_len := original_data_len meta;
          ca_vm_data_addr := data_ptr; ca_ref_to_len_in_vm := ref_to_len |}.

(** The length is a field of the info itself, at offset 16. *)
Definition from_sol_account_info (check_aligned : bool) (host vm_addr : Z) (info : SolAccountInfo) (meta : SerializedAccountMetadata)
    : Cpi CallerAccount :=
  _ ← lift (check_account_info_pointer (sa_key_addr info) (vm_key_addr meta));
  _ ← lift (check_account_info_pointer (sa_owner_addr info) (vm_owner_addr meta));
  _ ← lift (check_account_info_pointer (sa_lamports_addr info) (vm_lamports_addr meta));
  _ ← lift (check_account_info_pointer (sa_data_addr info) (vm_data_addr meta));
  lamports ← translate_type Store (sa_lamports_addr info) 8 8 check_aligned;
  owner ← translate_type Store (sa_owner_addr info) 32 1 check_aligned;
  let vm_len_addr := saturating_sub (saturating_add 64 vm_addr (host + 16)) host in
  _ ← ensure (vm_len_addr <? MM_INPUT_START) (CpiCall InvalidPointer);
  ref_to_len ← translate_type Store vm_len_addr 8 8 false;
  len ← load_u64 ref_to_len;
  _ ← lift (get_serialized_data check_aligned (original_data_len meta) len);
  mret {| ca_lamports := lamports; ca_owner := owner; ca_original_data_len := original_data_len meta;
          ca_vm_data_addr := sa_data_addr info; ca_ref_to_len_in_vm := ref_to_len |}.

Record TranslatedAccount := {
  index_in_caller : Z;
  caller_account : CallerAccount;
  update_caller_account_region : bool;
  update_caller_account_info : bool;
}.
Definition with_region_update (t : TranslatedAccount) (b : bool) : TranslatedAccount :=
  {| index_in_caller := index_in_caller t; caller_account := caller_account t; update_caller_account_region := b;
     update_caller_account_info := update_caller_account_info t |}.

(** What the two languages differ in. *)
Record InfoKind := {
  info_type : Type;
  info_size : Z;
  info_align : Z;
  info_of : list Z → info_type;
  info_key : info_type → Z;
  do_translate : bool → Z → Z → info_type → SerializedAccountMetadata → Cpi CallerAccount;
}.
Definition rust_info : InfoKind :=
  {| info_size := account_info_size; info_align := account_info_align; info_of := account_info_of; info_key := ai_key;
     do_translate := from_account_info |}.
Definition c_info : InfoKind :=
  {| info_size := 56; info_align := 8; info_of := sol_account_info_of; info_key := sa_key_addr;
     do_translate := from_sol_account_info |}.

(** The address of the infos, and their keys. *)
Definition translate_account_infos (kind : InfoKind) (account_infos_addr account_infos_len : Z) (check_aligned : bool)
    : Cpi (Z * list Pubkey) :=
  _ ← ensure (saturating_add 64 account_infos_addr (saturating_mul 64 account_infos_len (info_size kind)) <? MM_INPUT_START)
        (CpiCall InvalidPointer);
  infos ← translate_slice Load account_infos_addr account_infos_len (info_size kind) (info_align kind) check_aligned;
  _ ← lift (check_account_infos cfg account_infos_len);
  _ ← (if increase_cpi_account_info_limit cfg
       then consume_compute_meter (units_of (saturating_mul 64 account_infos_len ACCOUNT_INFO_BYTE_SIZE) (cpi_bytes_per_unit cfg))
       else mret tt);
  keys ← each (λ i,
    bs ← read_bytes (infos + info_size kind * i) (info_size kind);
    p ← translate_type Load (info_key kind (info_of kind bs)) 32 1 check_aligned;
    read_bytes p 32) (indices account_infos_len);
  mret (infos, keys).

(** The handle is held to the end of the turn. *)
Definition with_borrowed {A} (ic : InstructionContext) (i : Z) (f : BorrowedInstructionAccount → Cpi A) : Cpi A :=
  b ← on_tx (try_borrow_instruction_account ic i);
  (λ x, let '(r, x) := f b x in (r, (with_accounts x.1 (drop_handle b (accounts_of x.1)), x.2))) : Cpi A.

Definition get_syscall_context (s : IC) : result InstructionError SyscallContext :=
  match list.last (syscall_context s) with Some (Some c) => Ok c | _ => Err CallDepth end.

Definition index_of (key : Pubkey) (keys : list Pubkey) : option Z := position key keys 0.

(** One account of the next instruction; [None] where it is skipped. *)
Definition translate_one (kind : InfoKind) (infos account_infos_addr account_infos_len : Z) (keys : list Pubkey)
    (check_aligned : bool) (next ic : InstructionContext) (metas : list SerializedAccountMetadata) (i : Z) (ia : InstructionAccount)
    : Cpi (option TranslatedAccount) :=
  duplicate ← lift (map_err CpiInstruction (is_instruction_account_duplicate next i));
  match duplicate with
  | Some _ => mret None
  | None =>
      index ← lift (map_err CpiInstruction (get_index_of_account_in_instruction ic (index_in_transaction ia)));
      with_borrowed ic index (λ b,
        key ← (λ x, (ok_or (account_key (accounts_of x.1) (index_in_transaction ia)) (CpiInstruction MissingAccount), x)) : Cpi Pubkey;
        core ← on_tx (get_core b);
        if contains (flags core) EXECUTABLE then
          data ← on_tx (get_data b);
          _ ← consume_compute_meter (units_of (zlen data) (cpi_bytes_per_unit cfg));
          mret None
        else
          match index_of key keys with
          | Some j =>
              meta ← lift (ok_or (metas !! Z.to_nat index) (CpiInstruction MissingAccount));
              _ ← ensure (j <? account_infos_len) (CpiCall InvalidLength);
              bs ← read_bytes (infos + info_size kind * j) (info_size kind);
              account ← do_translate kind check_aligned (infos + info_size kind * j)
                (saturating_add 64 account_infos_addr (saturating_mul 64 j (info_size kind))) (info_of kind bs) meta;
              len ← load_u64 (ca_ref_to_len_in_vm account);
              _ ← consume_compute_meter (units_of len (cpi_bytes_per_unit cfg));
              mret (Some {| index_in_caller := index; caller_account := account; update_caller_account_region := true;
                            update_caller_account_info := account_is_writable ia |})
          | None => fail (CpiInstruction MissingAccount)
          end)
  end.

Definition translate_accounts_common (kind : InfoKind) (infos account_infos_addr account_infos_len : Z) (keys : list Pubkey)
    (check_aligned : bool) : Cpi (list TranslatedAccount) := λ x,
  let c := transaction_context x.1 in
  (next ← lift (map_err CpiInstruction (get_next_instruction_context c));
   ic ← lift (map_err CpiInstruction (get_current_instruction_context c));
   syscall ← lift (map_err (λ _, CpiPanic) (get_syscall_context x.1));
   l ← each (λ p : nat * InstructionAccount,
        translate_one kind infos account_infos_addr account_infos_len keys check_aligned next ic (accounts_metadata syscall)
          (Z.of_nat p.1) p.2)
      (imap (λ i ia, (i, ia)) (ic_accounts next));
   mret (omap id l)) x.

Definition translate_accounts (kind : InfoKind) (account_infos_addr account_infos_len : Z) : Cpi (list TranslatedAccount) :=
  check_aligned ← get_check_aligned;
  _ ← memory_mapping;
  p ← translate_account_infos kind account_infos_addr account_infos_len check_aligned;
  let '(infos, keys) := p in
  translate_accounts_common kind infos account_infos_addr account_infos_len keys check_aligned.
Definition translate_accounts_rust : Z → Z → Cpi (list TranslatedAccount) := translate_accounts rust_info.
Definition translate_accounts_c : Z → Z → Cpi (list TranslatedAccount) := translate_accounts c_info.

(** ** Bringing the accounts over *)

Definition update_callee_account (caller : CallerAccount) (callee : BorrowedInstructionAccount) : Cpi bool :=
  core ← on_tx (get_core callee);
  lamports_ ← load_u64 (ca_lamports caller);
  _ ← (if lamports core =? lamports_ then mret tt else on_tx (bia_set_lamports callee lamports_));
  data ← on_tx (get_data callee);
  post_len ← load_u64 (ca_ref_to_len_in_vm caller);
  resized ← (if zlen data =? post_len then mret false else _ ← on_tx (bia_set_data_length callee post_len); mret true);
  core ← on_tx (get_core callee);
  owner_ ← read_bytes (ca_owner caller) 32;
  if bool_decide (owner core = owner_) then mret resized
  else _ ← on_tx (bia_set_owner callee owner_); mret true.

Definition update_region (check_aligned : bool) (caller : CallerAccount) (callee : BorrowedInstructionAccount) : Cpi unit :=
  if 0 <? account_data_region_size (negb check_aligned) (ca_original_data_len caller) then
    found ← (λ x, (ok_or (find_region x.2 (ca_vm_data_addr caller)) (CpiInstruction MissingAccount), x)) : Cpi (nat * MemoryRegion);
    let '(index, region) := found in
    new_region ← on_tx (create_memory_region_of_account shared_buffer callee (region_vm_addr region));
    (λ x, match replace_region index new_region x.2 with
          | Ok v => (Ok tt, (x.1, v))
          | Err _ => (Err CpiAccess, x)
          end) : Cpi unit
  else mret tt.

Definition update_caller_account (check_aligned : bool) (caller : CallerAccount) (callee : BorrowedInstructionAccount) : Cpi unit :=
  core ← on_tx (get_core callee);
  _ ← store_u64 (ca_lamports caller) (lamports core);
  core ← on_tx (get_core callee);
  _ ← write_bytes (ca_owner caller) (owner core);
  prev_len ← load_u64 (ca_ref_to_len_in_vm caller);
  data ← on_tx (get_data callee);
  let post_len := zlen data in
  _ ← ensure (post_len <=? account_data_region_size (negb check_aligned) (ca_original_data_len caller)) (CpiInstruction InvalidRealloc);
  if prev_len =? post_len then mret tt
  else
    _ ← store_u64 (ca_ref_to_len_in_vm caller) post_len;
    p ← translate_type Store (saturating_sub (ca_vm_data_addr caller) 8) 8 8 check_aligned;
    store_u64 p post_len.

(** ** The call *)

Record SyscallInvokeSigned := {
  translate_instruction : Z → Cpi CallInstruction;
  translate_accounts_of : Z → Z → Cpi (list TranslatedAccount);
}.
Definition invoke_signed_rust : SyscallInvokeSigned :=
  {| translate_instruction := translate_instruction_rust; translate_accounts_of := translate_accounts_rust |}.
Definition invoke_signed_c : SyscallInvokeSigned :=
  {| translate_instruction := translate_instruction_c; translate_accounts_of := translate_accounts_c |}.

Definition current_instruction : Cpi InstructionContext := λ x,
  (map_err CpiInstruction (get_current_instruction_context (transaction_context x.1)), x).

Definition synchronize_callee (ic : InstructionContext) (t : TranslatedAccount) : Cpi TranslatedAccount :=
  update_caller ← with_borrowed ic (index_in_caller t) (update_callee_account (caller_account t));
  mret (with_region_update t (update_caller_account_info t || update_caller)).
Definition synchronize_caller (check_aligned : bool) (ic : InstructionContext) (t : TranslatedAccount) : Cpi unit :=
  with_borrowed ic (index_in_caller t) (λ b,
    if update_caller_account_info t then update_caller_account check_aligned (caller_account t) b else mret tt).
Definition synchronize_region (check_aligned : bool) (ic : InstructionContext) (t : TranslatedAccount) : Cpi unit :=
  with_borrowed ic (index_in_caller t) (λ b,
    if update_caller_account_region t then update_region check_aligned (caller_account t) b else mret tt).

(** Before the callee runs. *)
Definition cpi_entry (S : SyscallInvokeSigned) (instruction_addr account_infos_addr account_infos_len signers_seeds_addr
    signers_seeds_len : Z) : Cpi (bool * list TranslatedAccount) :=
  _ ← consume_compute_meter (invoke_units cfg);
  check_aligned ← get_check_aligned;
  _ ← memory_mapping;
  ix ← translate_instruction S instruction_addr;
  ic ← current_instruction;
  caller ← (λ x, (map_err CpiInstruction (get_program_key (transaction_context x.1) ic), x)) : Cpi Pubkey;
  signers ← translate_signers caller signers_seeds_addr signers_seeds_len;
  _ ← lift (check_authorized_program (program_id ix) (instruction_bytes ix));
  _ ← on_ic (prepare_next_cpi_instruction ix signers);
  accounts ← translate_accounts_of S account_infos_addr account_infos_len;
  ic ← current_instruction;
  accounts ← each (synchronize_callee ic) accounts;
  mret (check_aligned, accounts).

(** After the callee ran. *)
Definition cpi_exit (check_aligned : bool) (accounts : list TranslatedAccount) : Cpi unit :=
  ic ← current_instruction;
  _ ← each (synchronize_caller check_aligned ic) accounts;
  _ ← each (synchronize_region check_aligned ic) accounts;
  mret tt.

Context (process : IC → result InstructionError unit * Z * IC).

Definition cpi_common (S : SyscallInvokeSigned) (instruction_addr account_infos_addr account_infos_len signers_seeds_addr
    signers_seeds_len : Z) : Cpi unit :=
  p ← cpi_entry S instruction_addr account_infos_addr account_infos_len signers_seeds_addr signers_seeds_len;
  let '(check_aligned, accounts) := p in
  _ ← on_ic (process_callee process);
  cpi_exit check_aligned accounts.

End calls.
