(* ===== verification/CpiProps.v ===== *)
(** * Properties of calls from the virtual machine

    When the callee starts, the request was within its limits and the accounts are as the memory of
    the caller shows them, changed only as the caller may change them; when the call returns, the
    memory of the caller shows what the callee left. The C interface refuses an instruction without
    accounts. *)

From stdpp Require Import base list numbers option sets sorting.
From S2P Require Import Prelude Effects Memory AccountMode Account AccountFacts CtxAccounts CtxInstruction CtxStack CtxOps CtxRun CtxSession Programs Invoke InvokeFacts InvokeFrames InvokeExample Serialize SerializeProps Cpi.

Local Open Scope Z_scope.

Create HintDb cpi.

(** ** The memory of a program *)

(** A range of addresses outside the data of accounts, and a range of host memory it is mapped to:
    it does not change with the accounts, and keeps what is written to it. *)
Definition disjoint (p n q m : Z) : Prop := p + n ≤ q ∨ q + m ≤ p.

Class GuestMemoryLaws `{GM : GuestMemory} := {
  own : Vm → Z → Z → Prop;
  place : Vm → Z → Z → Prop;
  own_low v addr n : addr < MM_INPUT_START → own v addr n;
  (** The access violation handler works on stores to account data only. *)
  map_same v a access addr n r w : access = Load ∨ own v addr n → vm_map access addr n (v, a) = (r, w) → w = (v, a);
  own_place v a access addr n p w : own v addr n → vm_map access addr n (v, a) = (Ok p, w) → place v p n;
  read_length p n w : length (host_read p n w) = Z.to_nat n;
  read_bytes_ok p n w : Forall byte_ok (host_read p n w);
  read_place v p n a a' : place v p n → host_read p n (v, a) = host_read p n (v, a');
  write_accounts v p a bs w : place v p (zlen bs) → host_write p bs (v, a) = w → w.2 = a;
  write_read v p a bs w : place v p (zlen bs) → Forall byte_ok bs → host_write p bs (v, a) = w → host_read p (zlen bs) w = bs;
  write_other v p a bs w q m : place v p (zlen bs) → host_write p bs (v, a) = w → place v q m →
    disjoint p (zlen bs) q m → host_read q m w = host_read q m (v, a);
  write_own v p a bs w q m : place v p (zlen bs) → host_write p bs (v, a) = w → own v q m → own w.1 q m;
  (** Where an address is mapped does not depend on the contents of memory. *)
  write_map v p a bs w access addr n a' : place v p (zlen bs) → host_write p bs (v, a) = w → own v addr n →
    (vm_map access addr n (w.1, a')).1 = (vm_map access addr n (v, a')).1;
  write_place v p a bs w q m : place v p (zlen bs) → host_write p bs (v, a) = w → place v q m → place w.1 q m;
  replace_read i r v v' q m a : replace_region i r v = Ok v' → place v q m → host_read q m (v', a) = host_read q m (v, a);
  replace_place i r v v' q m : replace_region i r v = Ok v' → place v q m → place v' q m;
}.

(** ** What the operations on an account set *)

Section sets.
Context (b : BorrowedInstructionAccount) (a : TransactionAccounts) (o : OwnedAccount).
Hypothesis Ht : tidy a.
Hypothesis Ho : states a !! handle_index b = Some o.
Abbreviation sets p o' := (let '(r, a') := p a in r = Ok tt → states a' = <[handle_index b := o']> (states a)).

Lemma sets_lamports v : fits 64 v → sets (bia_set_lamports b v) (put o (FLamports v)).
Proof using Ht Ho.
  intros Hv. unfold bia_set_lamports. op_ok (get_core_eq b a o Ho). cbv zeta.
  op_ok (is_owned_eq b a o Ho). op_check (owns b a o || (lamports (o_core o) <=? v)) by done.
  op_check (handle_is_writable b) by done.
  destruct (Z.eqb_spec (lamports (o_core o)) v) as [<-|].
  { intros _. symmetry. apply list_insert_id. rewrite Ho. by destruct o as [[] d]. }
  unfold mbind at 1, op_bind at 1. rewrite (check_mutable_eq b a o Ho).
  destruct (is_writable (mode (o_core o))) eqn:Em; [|done].
  unfold mbind at 1, op_bind at 1, add_lamports_delta. case_bool_decide; [|done].
  set (a1 := with_deltas a (resize_delta a) _).
  assert (Ht1 : tidy a1) by (by destruct Ht).
  destruct (touch_update b a1 o (put o (FLamports v)) (λ m s, set_lamports m s v) Ht1 Ho) as (a' & -> & U).
  { intros m s Hw <-. unfold set_lamports. rewrite core_of_owned. apply setter_spec; [done|done|done|].
    intros <-%Z.eqb_eq. by destruct (owned m s) as [[] ?]. }
  intros _. apply U.
Qed.

Lemma sets_owner k : length k = 32%nat → sets (bia_set_owner b k) (put o (FOwner k)).
Proof using Ht Ho.
  intros Hk. unfold bia_set_owner. op_ok (is_owned_eq b a o Ho).
  op_check (owns b a o && handle_is_writable b) by done.
  op_ok (get_data_eq b a o Ho). op_check (is_zeroed (o_data o)) by done.
  op_ok (get_core_eq b a o Ho). case_bool_decide as E.
  { intros _. symmetry. apply list_insert_id. rewrite Ho, <- E. by destruct o as [[] d]. }
  unfold mbind at 1, op_bind at 1. rewrite (check_mutable_eq b a o Ho).
  destruct (is_writable (mode (o_core o))); [|done].
  destruct (touch_update b a o (put o (FOwner k)) (copy_into_owner k) Ht Ho) as (a' & -> & U).
  { intros m s Hw <-. apply touch_then; [done|done|]. intros m' s' Hp <-. by apply assign_spec. }
  intros _. apply U.
Qed.

Lemma sets_length n : 0 ≤ n → zlen (o_data o) ≠ n →
  sets (bia_set_data_length b n) (with_data o (resize (Z.to_nat n) 0 (o_data o))).
Proof using Ht Ho.
  intros Hn Hne. unfold bia_set_data_length.
  destruct (can_data_be_resized_cases b a o Ho n) as [[e E]|[E Hr]]; [by rewrite (op_bind_err _ _ _ _ _ E)|].
  op_ok E. op_ok (get_data_eq b a o Ho). destruct (Z.eqb_spec (zlen (o_data o)) n); [done|].
  op_ok (handle_touch_eq b a o Ht Ho). set (a1 := with_touched a _).
  assert (U1 : updates (handle_index b) o a a1) by (apply touched_updates; auto; by rewrite length_insert).
  assert (H1 : states a1 !! handle_index b = Some o) by by eapply updates_lookup.
  unfold update_accounts_resize_delta. rewrite update_bind_assoc. op_ok (get_data_eq b a1 o H1).
  rewrite (op_bind_ok (update_resize_delta _ n) _ a1 tt (update_resize_delta (zlen (o_data o)) n a1).2 eq_refl).
  set (a2 := (update_resize_delta _ n a1).2).
  assert (T2 : tidy a2) by (destruct (up_tidy _ _ _ _ U1); by constructor).
  destruct (update_account_spec b a2 o (with_data o (resize (Z.to_nat n) 0 (o_data o))) (λ m s, resize_data m s n 0) T2 H1) as (a3 & -> & V).
  { intros m s Hw <-. by apply resize_data_spec. }
  intros _. rewrite (up_states _ _ _ _ V). change (states a2) with (states a1). rewrite (up_states _ _ _ _ U1). by rewrite list_insert_insert_eq.
Qed.

End sets.

Section calls.
Context {Code : Type} `{PR : !ProgramRuntime Code} `{LI : !LoaderInstructions} `{GL : !GuestLayouts}.
Context `{GM : !GuestMemory} `{ML : !GuestMemoryLaws}.
Context (cfg : CpiConfig) (shared_buffer : nat → bool).
Abbreviation IC := (InvokeContext Code).
Abbreviation Cpi := (Eff CpiFault (IC * Vm)).

Lemma with_tx_accounts_self c : with_tx_accounts c (tx_accounts c) = c.
Proof using Type. by destruct c. Qed.
Lemma with_accounts_self (s : IC) : with_accounts s (accounts_of s) = s.
Proof using Type.
  destruct s as [t c m sc mc n r]. unfold with_accounts, accounts_of, with_session, transaction_context. simpl. f_equal.
  rewrite with_tx_accounts_self. by destruct t.
Qed.
Lemma with_meter_self (s : IC) : with_meter s (compute_meter s) = s.
Proof using Type. by destruct s. Qed.

(** ** Translation only consumes units *)

Definition keeps {A} (v : Vm) (p : Cpi A) : Prop := ∀ s, ∃ m, (p (s, v)).2 = (with_meter s m, v).

Section keeps.
Context (v : Vm).

Lemma keeps_read {A} (f : IC * Vm → result CpiFault A) : keeps v (λ x, (f x, x)).
Proof using Type. intros s. exists (compute_meter s). by rewrite with_meter_self. Qed.
Lemma keeps_lift {A} (r : result CpiFault A) : keeps v (lift r).
Proof using Type. apply (keeps_read (λ _, r)). Qed.
Lemma keeps_ret {A} (y : A) : keeps v (mret y).
Proof using Type. apply (keeps_read (λ _, Ok y)). Qed.
Lemma keeps_fail {A} e : keeps v (fail e : Cpi A).
Proof using Type. apply (keeps_read (λ _, Err e)). Qed.
Lemma keeps_ensure b e : keeps v (ensure b e).
Proof using Type. destruct b; [apply keeps_ret|apply keeps_fail]. Qed.
Lemma keeps_bind {A B} (p : Cpi A) (k : A → Cpi B) : keeps v p → (∀ y, keeps v (k y)) → keeps v (p ≫= k).
Proof using Type.
  intros Hp Hk s. destruct (Hp s) as [m Em]. unfold mbind, op_bind. destruct (p (s, v)) as [[y|e] x1]; simpl in Em; subst; [|by exists m].
  destruct (Hk y (with_meter s m)) as [m' ->]. by exists m'.
Qed.
(** After a check, what it established. *)
Lemma keeps_bind_lift {A B} (r : result CpiFault A) (k : A → Cpi B) : (∀ y, r = Ok y → keeps v (k y)) → keeps v (lift r ≫= k).
Proof using Type.
  intros Hk s. unfold mbind, op_bind, lift. destruct r as [y|e]; [by apply Hk|]. exists (compute_meter s). by rewrite with_meter_self.
Qed.
Lemma keeps_bind_ensure {B} b e (k : unit → Cpi B) : (b = true → keeps v (k tt)) → keeps v (ensure b e ≫= k).
Proof using Type.
  intros Hk s. unfold mbind, op_bind, ensure. destruct b; [by apply Hk|]. exists (compute_meter s). by rewrite with_meter_self.
Qed.
Lemma keeps_each {A B} (f : A → Cpi B) l : (∀ y, keeps v (f y)) → keeps v (each f l).
Proof using Type.
  intros Hf. induction l as [|y l IH]; [apply keeps_ret|]. cbn [each]. apply keeps_bind; [done|]. intros z.
  apply keeps_bind; [done|]. intros zs. apply keeps_ret.
Qed.

Lemma keeps_memory access addr n : access = Load ∨ own v addr n → keeps v (on_memory (vm_map access addr n)).
Proof using ML.
  intros Ho s. unfold on_memory. simpl. destruct (vm_map access addr n (v, accounts_of s)) as [r w] eqn:E.
  apply map_same in E as ->; [|done]. exists (compute_meter s). simpl. by rewrite with_accounts_self, with_meter_self.
Qed.

Lemma keeps_consume n : keeps v (consume_compute_meter n).
Proof using Type. intros s. unfold consume_compute_meter, on_ic, consume_checked, consume. simpl. by eexists. Qed.

Lemma owner_same ic a : (get_program_owner ic a).2 = a.
Proof using Type.
  unfold get_program_owner. destruct (get_index_of_program_account_in_transaction ic) as [i|]; [|done].
  unfold try_borrow, borrow_with. destruct (borrow_counters a !! Z.to_nat i) as [c|] eqn:Ec; [|done].
  unfold counter_try_borrow, is_writing. destruct (Z.ltb_spec c 0); [done|]. destruct (Z.ltb_spec (c + 1) (2 ^ 7)); [|done].
  simpl. unfold drop_ref, drop_with. simpl. rewrite with_counters_twice.
  transitivity (with_counters a (borrow_counters a)); [f_equal|apply with_counters_self].
  apply list_eq. intros j. destruct (decide (j = Z.to_nat i)) as [->|Hj].
  - rewrite list_lookup_alter_eq, list_lookup_insert_eq by by eapply lookup_lt_Some. rewrite Ec. simpl. unfold release_borrow, clamp. f_equal. lia.
  - by rewrite list_lookup_alter_ne, list_lookup_insert_ne by done.
Qed.
Lemma keeps_check_aligned : keeps v get_check_aligned.
Proof using Type.
  intros s. exists (compute_meter s). rewrite with_meter_self. unfold get_check_aligned. simpl.
  destruct (get_current_instruction_context _) as [ic|]; [|done]. pose proof (owner_same ic (accounts_of s)) as Ho.
  destruct (get_program_owner ic (accounts_of s)) as [r a]. simpl in *. subst. by rewrite with_accounts_self.
Qed.

Lemma keeps_tx {A} (p : Op TransactionAccounts A) : (∀ a, (p a).2 = a) → keeps v (on_tx p).
Proof using Type.
  intros Hp s. exists (compute_meter s). unfold on_tx. simpl. specialize (Hp (accounts_of s)). destruct (p (accounts_of s)) as [r a].
  simpl in *. subst. by rewrite with_accounts_self, with_meter_self.
Qed.
Lemma keeps_core b : keeps v (on_tx (get_core b)).
Proof using Type. apply keeps_tx. intros a. by destruct (core_pure b a) as [r ->]. Qed.
Lemma keeps_data b : keeps v (on_tx (get_data b)).
Proof using Type.
  apply keeps_tx. intros a. unfold get_data. destruct (borrowed_pure b a) as [[s|e] E]; [op_ok E|rewrite (op_bind_err _ _ _ _ _ E)]; done.
Qed.

Lemma borrow_inv ic i a r a1 :
  try_borrow_instruction_account ic i a = (r, a1) →
  (∃ e, r = Err e ∧ a1 = a) ∨
  ∃ ia, ic_accounts ic !! Z.to_nat i = Some ia ∧ r = Ok (handle_of ic ia) ∧ borrow_counters a !! handle_index (handle_of ic ia) = Some 0 ∧
    a1 = with_counters a (<[handle_index (handle_of ic ia) := -1]> (borrow_counters a)).
Proof using Type.
  unfold try_borrow_instruction_account, mbind, op_bind, lift, ok_or.
  destruct (ic_accounts ic !! Z.to_nat i) as [ia|]; [|intros [= <- <-]; left; by eexists].
  destruct (try_borrow_mut (index_in_transaction ia) a) as [[j|e] a2] eqn:E.
  - intros [= <- <-]. right. apply borrow_mut_inv in E as (_ & E1 & E2). by exists ia.
  - intros [= <- <-]. left. apply borrow_mut_err in E as ->. by eexists.
Qed.

Lemma keeps_borrowed {A} ic i (f : BorrowedInstructionAccount → Cpi A) : (∀ b, keeps v (f b)) → keeps v (with_borrowed ic i f).
Proof using Type.
  intros Hf s. unfold with_borrowed, on_tx, mbind, op_bind. simpl.
  destruct (try_borrow_instruction_account ic i (accounts_of s)) as [r a1] eqn:Eb.
  apply borrow_inv in Eb as [(e & -> & ->)|(ia & _ & -> & H0 & ->)].
  { exists (compute_meter s). simpl. by rewrite with_accounts_self, with_meter_self. }
  simpl. set (a1 := with_counters _ _). destruct (Hf (handle_of ic ia) (with_accounts s a1)) as [m Em].
  destruct (f (handle_of ic ia) (with_accounts s a1, v)) as [r y]. simpl in Em. subst. simpl. exists m.
  change (accounts_of (with_meter (with_accounts s a1) m)) with a1. subst a1. rewrite release_run by done. f_equal.
  change (with_accounts (with_meter (with_accounts s _) m) (accounts_of s)) with (with_meter (with_accounts s (accounts_of s)) m).
  by rewrite with_accounts_self.
Qed.

End keeps.

(** Translation is a sequence of such steps. *)
Ltac keep :=
  lazymatch goal with
  | |- keeps _ (lift _ ≫= _) => apply keeps_bind_lift; intros ? ?; keep
  | |- keeps _ (ensure _ _ ≫= _) => apply keeps_bind_ensure; intros ?; keep
  | |- keeps _ (_ ≫= _) => apply keeps_bind; [keep|intros ?; keep]
  | |- keeps _ (each _ _) => apply keeps_each; intros ?; keep
  | |- keeps _ (with_borrowed _ _ _) => apply keeps_borrowed; intros ?; keep
  | |- keeps _ (if ?b then _ else _) => destruct b; keep
  | |- keeps _ (match ?e with _ => _ end) => destruct e; keep
  | |- keeps _ (let _ := _ in _) => cbv zeta; keep
  | |- keeps _ (mret _) => apply keeps_ret
  | |- keeps _ (lift _) => apply keeps_lift
  | |- keeps _ (ensure _ _) => apply keeps_ensure
  | |- keeps _ (fail _) => apply keeps_fail
  | |- keeps _ (consume_compute_meter _) => apply keeps_consume
  | |- keeps _ (on_memory (vm_map _ _ _)) => apply keeps_memory; auto
  | |- keeps _ (on_tx (get_core _)) => apply keeps_core
  | |- keeps _ (on_tx (get_data _)) => apply keeps_data
  | |- keeps _ get_check_aligned => apply keeps_check_aligned
  | |- keeps _ (λ x, (_, x)) => apply keeps_read
  | |- _ => auto with cpi
  end.

Section translation.
Context (v : Vm).

Lemma keeps_mapping : keeps v memory_mapping.
Proof using Type. apply (keeps_read v (λ x, _)). Qed.
Lemma keeps_bytes p n : keeps v (read_bytes p n).
Proof using Type. apply (keeps_read v (λ x, _)). Qed.
Lemma keeps_u64 p : keeps v (load_u64 p).
Proof using Type. apply keeps_bind; [apply keeps_bytes|intros ?; apply keeps_ret]. Qed.
#[local] Hint Resolve keeps_mapping keeps_bytes keeps_u64 : cpi.
Lemma keeps_type access addr n k c : access = Load ∨ own v addr n → keeps v (translate_type access addr n k c).
Proof using ML. intros Ho. unfold translate_type. keep. Qed.
Lemma keeps_load_type addr n k c : keeps v (translate_type Load addr n k c).
Proof using ML. apply keeps_type. by left. Qed.
Lemma keeps_slice addr len n k c : keeps v (translate_slice Load addr len n k c).
Proof using ML. unfold translate_slice. keep. Qed.
#[local] Hint Resolve keeps_load_type keeps_slice : cpi.
Lemma keeps_rust_instruction addr : keeps v (translate_instruction_rust cfg addr).
Proof using ML. unfold translate_instruction_rust. keep. Qed.
Lemma keeps_c_instruction addr : keeps v (translate_instruction_c cfg addr).
Proof using ML. unfold translate_instruction_c. keep. Qed.
Lemma keeps_seed c p i : keeps v (translate_seed c p i).
Proof using ML. unfold translate_seed, translate_vm_slice. keep. Qed.
#[local] Hint Resolve keeps_seed : cpi.
Lemma keeps_signer c id p i : keeps v (translate_signer c id p i).
Proof using ML. unfold translate_signer, translate_vm_slice. keep. Qed.
#[local] Hint Resolve keeps_signer : cpi.
Lemma keeps_signers id addr n : keeps v (translate_signers id addr n).
Proof using ML. unfold translate_signers. keep. Qed.

Lemma pointer_inv a b y : check_account_info_pointer a b = Ok y → a = b.
Proof using Type. unfold check_account_info_pointer. by destruct (Z.eqb_spec a b). Qed.

(** Where the fields of an account are serialized is outside the data of accounts. *)
Definition meta_own (meta : SerializedAccountMetadata) : Prop := own v (vm_lamports_addr meta) 8 ∧ own v (vm_owner_addr meta) 32.

Ltac pointers := repeat match goal with H : check_account_info_pointer _ _ = Ok _ |- _ => apply pointer_inv in H end.
Lemma keeps_rust_info c h addr info meta : meta_own meta → keeps v (from_account_info c h addr info meta).
Proof using ML.
  intros [H1 H2]. unfold from_account_info. keep; apply keeps_type; right; pointers; subst; try congruence.
  apply own_low. by apply Z.ltb_lt.
Qed.
Lemma keeps_c_info c h addr info meta : meta_own meta → keeps v (from_sol_account_info c h addr info meta).
Proof using ML.
  intros [H1 H2]. unfold from_sol_account_info. keep; apply keeps_type; right; pointers; try congruence.
  apply own_low. by apply Z.ltb_lt.
Qed.
End translation.

(** ** Places *)

Lemma keeps_inv {A B} v (p : Cpi A) (k : A → Cpi B) s z x2 :
  (p ≫= k) (s, v) = (Ok z, x2) → keeps v p → ∃ y m, p (s, v) = (Ok y, (with_meter s m, v)) ∧ k y (with_meter s m, v) = (Ok z, x2).
Proof using Type.
  intros (y & x1 & E & H)%op_bind_inv_ok Hp. destruct (Hp s) as [m Em]. rewrite E in Em. simpl in Em. subst. by exists y, m.
Qed.
(** [op_step H as pat] runs the first step of the sequence in [H]. *)
Tactic Notation "op_step" hyp(H) "as" simple_intropattern(pat) :=
  apply keeps_inv in H as pat; [|keep; auto using keeps_mapping, keeps_bytes, keeps_u64, keeps_load_type, keeps_slice].

Lemma lift_inv {A} (r : result CpiFault A) (x : IC * Vm) y x' : lift r x = (Ok y, x') → r = Ok y.
Proof using Type. by intros [= -> _]. Qed.
Lemma ensure_inv b (e : CpiFault) (x : IC * Vm) y x' : ensure b e x = (Ok y, x') → b = true.
Proof using Type. by destruct b. Qed.

Lemma type_place access addr n k c (s : IC) v p x' :
  translate_type access addr n k c (s, v) = (Ok p, x') → own v addr n → place v p n.
Proof using Type.
  intros H Ho. unfold translate_type in H. apply op_bind_inv_ok in H as (host & x1 & E & H).
  assert (p = host) as -> by (destruct (c && _); [done|]; by injection H).
  unfold on_memory in E. simpl in E. destruct (vm_map access addr n (v, accounts_of s)) as [[p|] w] eqn:Em; [|by destruct w].
  destruct w. injection E as <- _. by eapply own_place.
Qed.

(** The places of an account: what is written at the end of a call. *)
Record placed (v : Vm) (ca : CallerAccount) : Prop := {
  pl_lamports : place v (ca_lamports ca) 8;
  pl_owner : place v (ca_owner ca) 32;
  pl_len : place v (ca_ref_to_len_in_vm ca) 8;
}.

(** The pointers of the caller were checked. *)
Definition caller_ok (v : Vm) (ca : CallerAccount) (meta : SerializedAccountMetadata) : Prop :=
  placed v ca ∧ ca_vm_data_addr ca = vm_data_addr meta ∧ ca_original_data_len ca = original_data_len meta.

Lemma rust_places c host addr info meta (s : IC) v ca x' :
  from_account_info c host addr info meta (s, v) = (Ok ca, x') → meta_own v meta → caller_ok v ca meta.
Proof using Type.
  intros H [Ho1 Ho2]. unfold from_account_info in H.
  op_step H as ([] & m1 & _ & H). op_step H as ([] & m2 & E2%lift_inv%pointer_inv & H).
  op_step H as (p1 & m3 & _ & H). op_step H as ([] & m4 & _ & H). op_step H as (ptr & m5 & _ & H).
  op_step H as ([] & m6 & ->%lift_inv%pointer_inv & H). rewrite E2 in H.
  apply keeps_inv in H as (lam & m7 & E7 & H); [|apply keeps_type; by right].
  apply keeps_inv in H as (own' & m8 & E8 & H); [|apply keeps_type; by right].
  op_step H as ([] & m9 & _ & H). op_step H as (p2 & m10 & _ & H). op_step H as (dp & m11 & _ & H).
  op_step H as ([] & m12 & ->%lift_inv%pointer_inv & H). cbv zeta in H.
  op_step H as ([] & m13 & E13%ensure_inv & H). apply Z.ltb_lt in E13.
  apply keeps_inv in H as (rl & m14 & E14 & H); [|apply keeps_type; right; by apply own_low].
  op_step H as (len & m15 & _ & H). op_step H as ([] & m16 & _ & H). injection H as <- _.
  split; [|done]. constructor; simpl; eapply type_place; eauto using own_low.
Qed.

Lemma c_places c host addr info meta (s : IC) v ca x' :
  from_sol_account_info c host addr info meta (s, v) = (Ok ca, x') → meta_own v meta → caller_ok v ca meta.
Proof using Type.
  intros H [Ho1 Ho2]. unfold from_sol_account_info in H.
  op_step H as ([] & m1 & _ & H). op_step H as ([] & m2 & E2%lift_inv%pointer_inv & H).
  op_step H as ([] & m3 & E3%lift_inv%pointer_inv & H). op_step H as ([] & m4 & E4%lift_inv%pointer_inv & H). rewrite E2, E3 in H.
  apply keeps_inv in H as (lam & m7 & E7 & H); [|apply keeps_type; by right].
  apply keeps_inv in H as (own' & m8 & E8 & H); [|apply keeps_type; by right]. cbv zeta in H.
  op_step H as ([] & m13 & E13%ensure_inv & H). apply Z.ltb_lt in E13.
  apply keeps_inv in H as (rl & m14 & E14 & H); [|apply keeps_type; right; by apply own_low].
  op_step H as (len & m15 & _ & H). op_step H as ([] & m16 & _ & H). injection H as <- _.
  split; [|done]. constructor; simpl; eapply type_place; eauto using own_low.
Qed.

(** The two kinds of programs. *)
Definition known_kind (kind : InfoKind (Code := Code)) : Prop := kind = rust_info ∨ kind = c_info.
Lemma keeps_translate v kind c h addr info meta : known_kind kind → meta_own v meta → keeps v (do_translate kind c h addr info meta).
Proof using ML. intros [->| ->]; simpl; auto using keeps_rust_info, keeps_c_info. Qed.
Lemma kind_places kind c h addr info meta (s : IC) v ca x' :
  known_kind kind → do_translate kind c h addr info meta (s, v) = (Ok ca, x') → meta_own v meta → caller_ok v ca meta.
Proof using Type. intros [->| ->]; simpl; eauto using rust_places, c_places. Qed.
Lemma keeps_infos v kind addr n c : keeps v (translate_account_infos cfg kind addr n c).
Proof using ML. unfold translate_account_infos. keep; auto using keeps_load_type, keeps_slice, keeps_bytes. Qed.

Lemma metas_lookup v metas i meta : Forall (meta_own v) metas → ok_or (metas !! i) (CpiInstruction MissingAccount) = Ok meta → meta_own v meta.
Proof using Type.
  intros Ho. unfold ok_or. destruct (metas !! i) as [m'|] eqn:Em; [|done]. intros [= <-].
  rewrite list.Forall_forall in Ho. apply Ho. by eapply list_elem_of_lookup_2.
Qed.
Lemma keeps_one v kind infos addr n keys c next ic metas i ia :
  known_kind kind → Forall (meta_own v) metas → keeps v (translate_one cfg kind infos addr n keys c next ic metas i ia).
Proof using ML.
  intros Hk Ho. unfold translate_one. keep; auto using keeps_bytes, keeps_u64. apply keeps_translate; [done|]. by eapply metas_lookup.
Qed.

(** ** The translated accounts *)

(** The account of a translated account, by its index in the transaction. *)
Definition account_of (ic : InstructionContext) (t : TranslatedAccount) : option InstructionAccount :=
  ic_accounts ic !! Z.to_nat (index_in_caller t).
Definition tx_of (ic : InstructionContext) (t : TranslatedAccount) : nat :=
  match account_of ic t with Some ia => Z.to_nat (index_in_transaction ia) | None => 0%nat end.

Lemma borrowed_inv {A} ic i (f : BorrowedInstructionAccount → Cpi A) s v z x' :
  with_borrowed ic i f (s, v) = (Ok z, x') →
  ∃ ia a1 y, ic_accounts ic !! Z.to_nat i = Some ia ∧ borrow_counters (accounts_of s) !! handle_index (handle_of ic ia) = Some 0 ∧
    a1 = with_counters (accounts_of s) (<[handle_index (handle_of ic ia) := -1]> (borrow_counters (accounts_of s))) ∧
    f (handle_of ic ia) (with_accounts s a1, v) = (Ok z, y) ∧
    x' = (with_accounts y.1 (drop_handle (handle_of ic ia) (accounts_of y.1)), y.2).
Proof using Type.
  intros H. unfold with_borrowed in H. apply op_bind_inv_ok in H as (b & x1 & E & H). unfold on_tx in E. simpl in E.
  destruct (try_borrow_instruction_account ic i (accounts_of s)) as [r a1] eqn:Eb.
  apply borrow_inv in Eb as [(e & -> & ->)|(ia & Ea & -> & H0 & ->)]; [done|]. injection E as <- <-.
  match type of H with context [f ?b ?x] => destruct (f b x) as [r y] eqn:Ef end. injection H as -> <-.
  eexists ia, _, y. split_and!; [done|done|reflexivity|exact Ef|done].
Qed.

Lemma one_translated kind infos addr n keys c next ic metas i ia (s : IC) v o x' :
  known_kind kind → translate_one cfg kind infos addr n keys c next ic metas i ia (s, v) = (Ok o, x') → Forall (meta_own v) metas →
  match o with
  | None => True
  | Some t => placed v (caller_account t) ∧ is_instruction_account_duplicate next i = Ok None ∧
      get_index_of_account_in_instruction ic (index_in_transaction ia) = Ok (index_in_caller t)
  end.
Proof using Type.
  intros Hk H Ho. unfold translate_one in H.
  op_step H as (dup & m1 & E1%lift_inv & H). destruct dup as [d|]; [by injection H as <- _|].
  op_step H as (index & m2 & E2%lift_inv & H). apply borrowed_inv in H as (ia' & a1 & y & _ & _ & _ & H & _).
  op_step H as (key & m4 & _ & H). op_step H as (core & m5 & _ & H).
  destruct (contains (flags core) EXECUTABLE).
  { op_step H as (data & m6 & _ & H). op_step H as ([] & m7 & _ & H). by injection H as <- _. }
  destruct (index_of key keys) as [j|]; [|done].
  op_step H as (meta & m6 & E6%lift_inv & H). op_step H as ([] & m7 & _ & H). op_step H as (bs & m8 & _ & H).
  apply (metas_lookup v) in E6; [|done]. apply keeps_inv in H as (ca & m9 & E9 & H); [|by apply keeps_translate].
  op_step H as (len & m10 & _ & H). op_step H as ([] & m11 & _ & H). injection H as <- _.
  apply kind_places in E9 as [P _]; [|done|done]. split_and!; [done|..].
  - by destruct (is_instruction_account_duplicate next i); [injection E1 as ->|done].
  - by destruct (get_index_of_account_in_instruction ic _); [injection E2 as ->|done].
Qed.

Lemma each_inv {A B} v (f : A → Cpi B) l s ys x' :
  (∀ y, keeps v (f y)) → each f l (s, v) = (Ok ys, x') → Forall2 (λ y z, ∃ m x2, f y (with_meter s m, v) = (Ok z, x2)) l ys.
Proof using Type.
  intros Hf. revert s ys x'. induction l as [|y l IH]; intros s ys x' H; cbn [each] in H; [by injection H as <- _|].
  apply keeps_inv in H as (z & m1 & E1 & H); [|done]. apply keeps_inv in H as (zs & m2 & E2 & H); [|by apply keeps_each].
  injection H as <- _. constructor; [exists (compute_meter s); rewrite with_meter_self; by eexists|].
  eapply Forall2_impl; [by apply (IH _ _ _ E2)|]. intros w z' (m & x2 & E). by exists m, x2.
Qed.

(** Distinct accounts of the callee are distinct in the transaction. *)
Lemma kept_positions (P : nat → TranslatedAccount → Prop) (ps : list (nat * InstructionAccount)) outs :
  Forall2 (λ p o, match o with Some t => P p.1 t | None => True end) ps outs →
  ∃ js, js `sublist_of` ps.*1 ∧ Forall2 P js (omap id outs).
Proof using Type.
  induction 1 as [|p o ps outs Hp _ (js & Hs & Hf)]; [by exists []|]. destruct o as [t|].
  - exists (p.1 :: js). split; [by constructor|]. by constructor.
  - exists js. split; [by constructor|done].
Qed.

Lemma callee_positions ic next t i ia :
  frame_ok (ic_accounts ic) (dedup_map ic) →
  ic_accounts next !! i = Some ia → is_instruction_account_duplicate next (Z.of_nat i) = Ok None →
  get_index_of_account_in_instruction ic (index_in_transaction ia) = Ok (index_in_caller t) →
  is_Some (account_of ic t) ∧ dedup_map next !! tx_of ic t = Some (Z.of_nat i).
Proof using Type.
  intros Hf Ea Hd Hi. unfold get_index_of_account_in_instruction in Hi.
  destruct (dedup_map ic !! Z.to_nat (index_in_transaction ia)) as [q|] eqn:Eq; [|done]. simpl in Hi.
  destruct (Z.leb_spec (zlen (ic_accounts ic)) q); [done|]. injection Hi as Hi. rewrite Hi in *.
  destruct (Hf _ _ Eq) as (_ & ia' & E1 & E2); [done|]. unfold tx_of, account_of. rewrite E1, E2, Nat2Z.id. split; [by eexists|].
  unfold is_instruction_account_duplicate, get_index_of_instruction_account_in_transaction in Hd. rewrite Nat2Z.id, Ea in Hd. simpl in Hd.
  unfold get_index_of_account_in_instruction in Hd.
  destruct (dedup_map next !! Z.to_nat (index_in_transaction ia)) as [k|]; [|done]. simpl in Hd.
  destruct (zlen (ic_accounts next) <=? k); [done|]. simpl in Hd. destruct (Z.eqb_spec k (Z.of_nat i)); [congruence|done].
Qed.

Lemma imap_pairs {A} (l : list A) n : imap (λ i y, (i + n, y)%nat) l = zip (seq n (length l)) l.
Proof using Type.
  revert n. induction l as [|y l IH]; intros n; [done|]. simpl. f_equal. rewrite <- IH. apply imap_ext. intros i z _. simpl. f_equal. lia.
Qed.

Record translated (ic : InstructionContext) (v : Vm) (l : list TranslatedAccount) : Prop := {
  tr_placed : Forall (λ t, placed v (caller_account t)) l;
  tr_known : Forall (λ t, is_Some (account_of ic t)) l;
  tr_distinct : NoDup (tx_of ic <$> l);
}.

Lemma positions_distinct ic next (js : list nat) l :
  NoDup js → Forall2 (λ j t, dedup_map next !! tx_of ic t = Some (Z.of_nat j)) js l → NoDup (tx_of ic <$> l).
Proof using Type.
  intros Hj F. apply (NoDup_fmap_1 (λ k, default 0 (dedup_map next !! k))).
  assert ((λ k, default 0 (dedup_map next !! k)) <$> (tx_of ic <$> l) = Z.of_nat <$> js) as ->; [|by apply NoDup_fmap_2; [apply _|]].
  clear Hj. induction F as [|j t js l E _ IH]; [done|]. by rewrite !fmap_cons, IH, E.
Qed.

Lemma common_translated kind infos addr n keys c (s : IC) v l x' ic :
  known_kind kind → translate_accounts_common cfg kind infos addr n keys c (s, v) = (Ok l, x') →
  get_current_instruction_context (transaction_context s) = Ok ic → frame_ok (ic_accounts ic) (dedup_map ic) →
  (∀ sc, get_syscall_context s = Ok sc → Forall (meta_own v) (accounts_metadata sc)) →
  (∃ m, x' = (with_meter s m, v)) ∧ translated ic v l.
Proof using Type.
  intros Hk H Hic Hf Ho. unfold translate_accounts_common in H. cbn [fst snd] in H. rewrite Hic in H.
  op_step H as (next & m1 & E1%lift_inv & H). op_step H as (ic' & m2 & [= <-]%lift_inv & H). op_step H as (sc & m3 & E3%lift_inv & H).
  assert (Hsc : get_syscall_context s = Ok sc) by (destruct (get_syscall_context s); [by injection E3 as ->|done]). specialize (Ho sc Hsc).
  assert (K : ∀ p : nat * InstructionAccount, keeps v (translate_one cfg kind infos addr n keys c next ic (accounts_metadata sc) (Z.of_nat p.1) p.2))
    by (intros p; by apply keeps_one).
  apply keeps_inv in H as (outs & m4 & E4 & H); [|by apply keeps_each]. injection H as <- <-. split; [by eexists|].
  apply each_inv in E4; [|done].
  assert (Fi : Forall2 (λ p o, match o with Some t => placed v (caller_account t) ∧ is_Some (account_of ic t) ∧
      dedup_map next !! tx_of ic t = Some (Z.of_nat p.1) | None => True end) (imap (λ i ia, (i, ia)) (ic_accounts next)) outs).
  { eapply Forall2_same_length_lookup_2; [by eapply Forall2_length|]. intros k [i ia] o Hp Hout.
    destruct (Forall2_lookup_lr _ _ _ _ _ _ E4 Hp Hout) as (m & x2 & E). simpl in E. destruct o as [t|]; [|done].
    apply list_lookup_imap_Some in Hp as (ia' & Hia & [= -> ->]).
    destruct (one_translated _ _ _ _ _ _ _ _ _ _ _ _ _ _ _ Hk E Ho) as (P1 & P2 & P3). split; [done|]. by eapply callee_positions. }
  apply (kept_positions (λ i t, placed v (caller_account t) ∧ is_Some (account_of ic t) ∧ dedup_map next !! tx_of ic t = Some (Z.of_nat i)))
    in Fi as (js & Hs & Fj).
  constructor.
  - apply list.Forall_forall. intros t (k & Ht)%list_elem_of_lookup. by destruct (Forall2_lookup_r _ _ _ _ _ Fj Ht) as (j & _ & P & _).
  - apply list.Forall_forall. intros t (k & Ht)%list_elem_of_lookup. by destruct (Forall2_lookup_r _ _ _ _ _ Fj Ht) as (j & _ & _ & P & _).
  - apply (positions_distinct ic next js); [|eapply Forall2_impl; [exact Fj|naive_solver]]. eapply sublist_NoDup; [|exact Hs].
    assert ((imap (λ (i : nat) (ia : InstructionAccount), (i, ia)) (ic_accounts next)).*1 = seq 0 (length (ic_accounts next))) as ->; [|apply NoDup_seq].
    rewrite <- (fst_zip (seq 0 (length (ic_accounts next))) (ic_accounts next)) by (rewrite length_seq; lia). f_equal.
    rewrite <- imap_pairs. apply imap_ext. intros k y _. by rewrite Nat.add_0_r.
Qed.

(** ** Bringing an account to the callee *)

(** The account is as the memory of the caller shows it. *)
Record agree (w : Vm * TransactionAccounts) (ca : CallerAccount) (o : OwnedAccount) : Prop := {
  ag_lamports : lamports (o_core o) = le_num (host_read (ca_lamports ca) 8 w);
  ag_owner : owner (o_core o) = host_read (ca_owner ca) 32 w;
  ag_len : zlen (o_data o) = le_num (host_read (ca_ref_to_len_in_vm ca) 8 w);
}.
Lemma agree_accounts v a a' ca o : placed v ca → agree (v, a) ca o → agree (v, a') ca o.
Proof using Type.
  intros [P1 P2 P3] [H1 H2 H3]. constructor; [rewrite H1; f_equal|rewrite H2|rewrite H3; f_equal]; by apply read_place.
Qed.

(** One account changes, within the rights of a program with key [pk]. *)
Record changes (i : nat) (w : bool) (pk : option Pubkey) (o o' : OwnedAccount) (a a' : TransactionAccounts) : Prop := {
  cg_tidy : tidy a';
  cg_keys : (accounts a').*1 = (accounts a).*1;
  cg_counters : borrow_counters a' = borrow_counters a;
  cg_states : states a' = <[i := o']> (states a);
  cg_permit : permit w pk o o';
}.
Lemma changes_refl i w pk o a : tidy a → states a !! i = Some o → changes i w pk o o a a.
Proof using Type. intros Ht Ho. constructor; try done; [by rewrite list_insert_id|apply permit_refl]. Qed.
Lemma changes_trans i w pk o1 o2 o3 a1 a2 a3 :
  changes i w pk o1 o2 a1 a2 → changes i w pk o2 o3 a2 a3 → changes i w pk o1 o3 a1 a3.
Proof using Type.
  intros [T1 K1 C1 S1 P1] [T2 K2 C2 S2 P2]. constructor; try congruence; [|by eapply permit_trans].
  by rewrite S2, S1, list_insert_insert_eq.
Qed.
Lemma changes_lookup i w pk o o' a a' : states a !! i = Some o → changes i w pk o o' a a' → states a' !! i = Some o'.
Proof using Type. intros Ho C. rewrite (cg_states _ _ _ _ _ _ _ C). apply list_lookup_insert_eq. by eapply lookup_lt_Some. Qed.
Lemma changes_key i w pk o o' a a' j : changes i w pk o o' a a' → account_key a' j = account_key a j.
Proof using Type.
  intros C. unfold account_key. rewrite <- !list_lookup_fmap. by rewrite (cg_keys _ _ _ _ _ _ _ C).
Qed.

Lemma call_changes b a o o' (p : Op TransactionAccounts unit) a' :
  states a !! handle_index b = Some o → call_spec b a o (p a).2 →
  (let '(r, a') := p a in r = Ok tt → states a' = <[handle_index b := o']> (states a)) → p a = (Ok tt, a') →
  changes (handle_index b) (handle_is_writable b) (account_key a (program_index b)) o o' a a'.
Proof using Type.
  intros Ho (o1 & E & P) Hs Hp. rewrite Hp in E, Hs. simpl in E. specialize (Hs eq_refl). destruct E as [E1 E2 E3 E4 _ _ _].
  assert (o1 = o') as ->.
  { assert (H : Some o1 = Some o'); [|by injection H as ->]. apply lookup_lt_Some in Ho.
    rewrite <- (list_lookup_insert_eq (states a) (handle_index b) o1), <- (list_lookup_insert_eq (states a) (handle_index b) o') by done. congruence. }
  by constructor.
Qed.

Lemma tx_read {A} (p : Op TransactionAccounts A) (s : IC) (v : Vm) r : p (accounts_of s) = (Ok r, accounts_of s) → on_tx p (s, v) = (Ok r, (s, v)).
Proof using Type. intros E. unfold on_tx. simpl. rewrite E. simpl. by rewrite with_accounts_self. Qed.
Lemma tx_inv {A} (p : Op TransactionAccounts A) (s : IC) (v : Vm) r x :
  on_tx p (s, v) = (Ok r, x) → ∃ a, p (accounts_of s) = (Ok r, a) ∧ x = (with_accounts s a, v).
Proof using Type.
  unfold on_tx. simpl. destruct (p (accounts_of s)) as [[y|] a]; [|done]. intros [= -> <-]. by exists a.
Qed.
Lemma load_run p (s : IC) (v : Vm) : load_u64 p (s, v) = (Ok (le_num (host_read p 8 (v, accounts_of s))), (s, v)).
Proof using Type. done. Qed.
Lemma word_fits p w : fits 64 (le_num (host_read p 8 w)).
Proof using ML.
  pose proof (le_num_range _ (read_bytes_ok p 8 w)) as H. rewrite read_length in H. exact H.
Qed.

Section bring.
Context (ca : CallerAccount) (b : BorrowedInstructionAccount) (s : IC) (v : Vm) (o : OwnedAccount).
Abbreviation a := (accounts_of s).
Context (Ht : tidy a) (Ho : states a !! handle_index b = Some o) (Hp : placed v ca).
Abbreviation changed := (changes (handle_index b) (handle_is_writable b) (account_key a (program_index b)) o).

Lemma bring_step a1 o1 o2 (p : Op TransactionAccounts unit) a2 :
  changed o1 a a1 → call_spec b a1 o1 (p a1).2 →
  (let '(r, a') := p a1 in r = Ok tt → states a' = <[handle_index b := o2]> (states a1)) → p a1 = (Ok tt, a2) → changed o2 a a2.
Proof using Ho.
  intros C Hc Hs E. eapply changes_trans; [exact C|]. rewrite <- (changes_key _ _ _ _ _ _ _ (program_index b) C).
  eapply call_changes; try done. by eapply changes_lookup.
Qed.

Lemma bring_lamports y x1 :
  (core ← on_tx (get_core b); lamports_ ← load_u64 (ca_lamports ca);
   (if lamports core =? lamports_ then mret tt else on_tx (bia_set_lamports b lamports_))) (s, v) = (Ok y, x1) →
  ∃ a1 o1, x1 = (with_accounts s a1, v) ∧ changed o1 a a1 ∧
    lamports (o_core o1) = le_num (host_read (ca_lamports ca) 8 (v, a)) ∧ owner (o_core o1) = owner (o_core o) ∧ o_data o1 = o_data o.
Proof using Ht Ho Hp ML.
  rewrite (op_bind_ok _ _ _ _ _ (tx_read _ s v _ (get_core_eq b a o Ho))). op_ok (load_run (ca_lamports ca) s v).
  set (l := le_num _). destruct (Z.eqb_spec (lamports (o_core o)) l) as [E|E].
  - intros [= _ <-]. exists a, o. rewrite with_accounts_self. split_and!; try done. by apply changes_refl.
  - intros (a1 & E1 & ->)%tx_inv. destruct y. exists a1, (put o (FLamports l)). split; [done|].
    destruct (put_lamports o l) as (F1 & F2 & _ & _ & _ & _ & F7). split_and!; try done.
    eapply bring_step; [by apply changes_refl|by apply set_lamports_call; [..|apply word_fits]|by apply sets_lamports; [..|apply word_fits]|done].
Qed.

Lemma bring_length a1 o1 r x2 :
  changed o1 a a1 →
  (data ← on_tx (get_data b); post_len ← load_u64 (ca_ref_to_len_in_vm ca);
   (if zlen data =? post_len then mret false else _ ← on_tx (bia_set_data_length b post_len); mret true)) (with_accounts s a1, v) = (Ok r, x2) →
  ∃ a2 o2, x2 = (with_accounts s a2, v) ∧ changed o2 a a2 ∧ lamports (o_core o2) = lamports (o_core o1) ∧
    owner (o_core o2) = owner (o_core o1) ∧ zlen (o_data o2) = le_num (host_read (ca_ref_to_len_in_vm ca) 8 (v, a)) ∧
    (r = false → o_data o2 = o_data o1).
Proof using Ht Ho Hp ML.
  intros C. assert (Ho1 : states a1 !! handle_index b = Some o1) by by eapply changes_lookup.
  rewrite (op_bind_ok _ _ _ _ _ (tx_read _ (with_accounts s a1) v _ (get_data_eq b a1 o1 Ho1))). op_ok (load_run (ca_ref_to_len_in_vm ca) (with_accounts s a1) v).
  rewrite (read_place v (ca_ref_to_len_in_vm ca) 8 _ a (pl_len _ _ Hp)). set (n := le_num _).
  assert (Hn : 0 ≤ n) by apply word_fits. destruct (Z.eqb_spec (zlen (o_data o1)) n) as [E|E].
  - intros [= <- <-]. by exists a1, o1.
  - intros ([] & x3 & E3 & H)%op_bind_inv_ok. apply tx_inv in E3 as (a2 & E2 & ->). injection H as <- <-.
    exists a2, (with_data o1 (resize (Z.to_nat n) 0 (o_data o1))). split; [done|]. split_and!; try done.
    + eapply bring_step; [exact C|by apply set_length_call; [apply C|..]|by apply sets_length; [apply C|..]|done].
    + simpl. unfold zlen. rewrite length_resize. lia.
Qed.

Lemma bring_owner a2 o2 (r r' : bool) x3 :
  changed o2 a a2 →
  (core ← on_tx (get_core b); owner_ ← read_bytes (ca_owner ca) 32;
   (if bool_decide (owner core = owner_) then mret r else _ ← on_tx (bia_set_owner b owner_); mret true)) (with_accounts s a2, v) = (Ok r', x3) →
  ∃ a3 o3, x3 = (with_accounts s a3, v) ∧ changed o3 a a3 ∧ lamports (o_core o3) = lamports (o_core o2) ∧
    owner (o_core o3) = host_read (ca_owner ca) 32 (v, a) ∧ o_data o3 = o_data o2 ∧ (r' = false → r = false ∧ o3 = o2).
Proof using Ht Ho Hp ML.
  intros C. assert (Ho2 : states a2 !! handle_index b = Some o2) by by eapply changes_lookup.
  rewrite (op_bind_ok _ _ _ _ _ (tx_read _ (with_accounts s a2) v _ (get_core_eq b a2 o2 Ho2))).
  rewrite (op_bind_ok (read_bytes _ 32) _ _ _ _ eq_refl). cbn [fst snd].
  rewrite (read_place v (ca_owner ca) 32 _ a (pl_owner _ _ Hp)). set (k := host_read (ca_owner ca) 32 (v, a)).
  assert (Hk : length k = 32%nat) by apply read_length. case_bool_decide as E.
  - intros [= <- <-]. exists a2, o2. by split_and!.
  - intros ([] & x4 & E4 & H)%op_bind_inv_ok. apply tx_inv in E4 as (a3 & E3 & ->). injection H as <- <-.
    exists a3, (put o2 (FOwner k)). split; [done|]. destruct (put_owner o2 k) as (F1 & F2 & _ & _ & _ & _ & F7). split_and!; try done.
    eapply bring_step; [exact C|by apply set_owner_call; [apply C|..]|by apply sets_owner; [apply C|..]|done].
Qed.

(** The account becomes what the caller's memory shows; the region of the caller stays valid where
    neither the length nor the owner changed. *)
Lemma update_callee_run r x' :
  update_callee_account ca b (s, v) = (Ok r, x') →
  ∃ a' o', x' = (with_accounts s a', v) ∧ changed o' a a' ∧ agree (v, a) ca o' ∧
    (r = false → owner (o_core o') = owner (o_core o) ∧ o_data o' = o_data o).
Proof using Ht Ho Hp ML.
  intros H. unfold update_callee_account in H.
  assert (H1 : ∃ y x1, (core ← on_tx (get_core b); lamports_ ← load_u64 (ca_lamports ca);
     (if lamports core =? lamports_ then mret tt else on_tx (bia_set_lamports b lamports_))) (s, v) = (Ok y, x1) ∧
     (data ← on_tx (get_data b); post_len ← load_u64 (ca_ref_to_len_in_vm ca);
      resized ← (if zlen data =? post_len then mret false else _ ← on_tx (bia_set_data_length b post_len); mret true);
      core ← on_tx (get_core b); owner_ ← read_bytes (ca_owner ca) 32;
      if bool_decide (owner core = owner_) then mret resized else _ ← on_tx (bia_set_owner b owner_); mret true) x1 = (Ok r, x')).
  { apply op_bind_inv_ok in H as (core & y1 & E1 & H). apply op_bind_inv_ok in H as (l & y2 & E2 & H).
    apply op_bind_inv_ok in H as (z & y3 & E3 & H). exists z, y3. split; [op_ok E1; op_ok E2; done|done]. }
  clear H. destruct H1 as (y & x1 & E1 & H). apply bring_lamports in E1 as (a1 & o1 & -> & C1 & L1 & O1 & D1).
  assert (H2 : ∃ r2 x2, (data ← on_tx (get_data b); post_len ← load_u64 (ca_ref_to_len_in_vm ca);
     (if zlen data =? post_len then mret false else _ ← on_tx (bia_set_data_length b post_len); mret true)) (with_accounts s a1, v) = (Ok r2, x2) ∧
     (core ← on_tx (get_core b); owner_ ← read_bytes (ca_owner ca) 32;
      if bool_decide (owner core = owner_) then mret r2 else _ ← on_tx (bia_set_owner b owner_); mret true) x2 = (Ok r, x')).
  { apply op_bind_inv_ok in H as (data & y1 & E1 & H). apply op_bind_inv_ok in H as (n & y2 & E2 & H).
    apply op_bind_inv_ok in H as (z & y3 & E3 & H). exists z, y3. split; [op_ok E1; op_ok E2; done|done]. }
  clear H. destruct H2 as (r2 & x2 & E2 & H). apply (bring_length a1 o1) in E2 as (a2 & o2 & -> & C2 & L2 & O2 & N2 & D2); [|done].
  apply (bring_owner a2 o2) in H as (a3 & o3 & -> & C3 & L3 & O3 & D3 & R3); [|done].
  exists a3, o3. split; [done|]. split_and!; [done| |].
  - constructor; [congruence|done|by rewrite D3].
  - intros ->. destruct (R3 eq_refl) as [-> ->]. split; [congruence|]. rewrite D2; congruence.
Qed.

End bring.

(** An account changes while it is borrowed, and the borrow ends. *)
Lemma borrowed_changes a b i w pk o o' a2 :
  i = handle_index b → tidy a → borrow_counters a !! handle_index b = Some 0 →
  changes i w pk o o' (with_counters a (<[handle_index b := -1]> (borrow_counters a))) a2 →
  changes i w pk o o' a (drop_handle b a2).
Proof using Type.
  intros -> Ht H0 [C1 C2 C3 C4 C5]. unfold drop_handle. rewrite (drop_after_borrow _ a) by done.
  constructor; simpl; try done. apply tidy_with_counters; [done|]. rewrite C3. simpl. by rewrite length_insert.
Qed.

(** The accounts of a transaction, one of them changed by a translated account. *)
Record synchronized (ic : InstructionContext) (t : TranslatedAccount) (v : Vm) (a a' : TransactionAccounts) : Prop := {
  sy_account : ∃ ia o o', account_of ic t = Some ia ∧ states a !! tx_of ic t = Some o ∧
    changes (tx_of ic t) (account_is_writable ia) (account_key a (ic_program_index ic)) o o' a a' ∧ agree (v, a') (caller_account t) o';
}.

Lemma synchronize_run ic t (s : IC) v t' x' :
  synchronize_callee ic t (s, v) = (Ok t', x') → tidy (accounts_of s) → placed v (caller_account t) →
  ∃ a' r, x' = (with_accounts s a', v) ∧ synchronized ic t v (accounts_of s) a' ∧ t' = with_region_update t (update_caller_account_info t || r).
Proof using ML.
  intros H Ht Hp. unfold synchronize_callee in H. apply op_bind_inv_ok in H as (r & x1 & E & H). injection H as <- <-.
  apply borrowed_inv in E as (ia & a1 & y & Ea & H0 & Ea1 & E & ->).
  assert (Ht1 : tidy a1) by (rewrite Ea1; apply tidy_with_counters; [done|by rewrite length_insert]).
  destruct (states_in_range (accounts_of s) (handle_index (handle_of ic ia)) Ht) as (o & Ho); [by eapply lookup_lt_Some|].
  destruct (update_callee_run (caller_account t) (handle_of ic ia) (with_accounts s a1) v o) with (r := r) (x' := y)
    as (a2 & o' & -> & C & Ag & _); [done|by rewrite Ea1|done|done|]. simpl in *. rewrite Ea1 in C.
  eexists _, r. split; [reflexivity|]. split; [|done]. constructor. exists ia, o, o'.
  assert (Et : tx_of ic t = handle_index (handle_of ic ia)) by (unfold tx_of, account_of; by rewrite Ea).
  rewrite Et. split_and!; [done|done|by apply borrowed_changes|]. by eapply agree_accounts.
Qed.

(** ** Bringing all accounts to the callee *)

Definition synced (ic : InstructionContext) (w : Vm * TransactionAccounts) (t : TranslatedAccount) : Prop :=
  ∃ o, states w.2 !! tx_of ic t = Some o ∧ agree w (caller_account t) o.

(** Only accounts of the instruction change, each as its program may change it. *)
Record within_rights (ic : InstructionContext) (changed : list nat) (a a' : TransactionAccounts) : Prop := {
  wi_tidy : tidy a';
  wi_keys : (accounts a').*1 = (accounts a).*1;
  wi_counters : borrow_counters a' = borrow_counters a;
  wi_states i o : states a !! i = Some o → ∃ o', states a' !! i = Some o' ∧ (i ∉ changed → o' = o) ∧
    (o' = o ∨ ∃ ia, ia ∈ ic_accounts ic ∧ Z.to_nat (index_in_transaction ia) = i ∧
                    permit (account_is_writable ia) (account_key a (ic_program_index ic)) o o');
}.

Lemma rights_refl ic a : tidy a → within_rights ic [] a a.
Proof using Type. intros Ht. constructor; [done|done|done|]. intros i o Ho. exists o. split; [done|]. split; [done|by left]. Qed.

Lemma rights_step ic t v a a1 txs a2 :
  synchronized ic t v a a1 → within_rights ic txs a1 a2 → tx_of ic t ∉ txs → within_rights ic (tx_of ic t :: txs) a a2.
Proof using Type.
  intros [(ia & o & o1 & Ea & Ho & C & _)] [W1 W2 W3 W4] Hni. pose proof C as [C1 C2 C3 C4 C5].
  constructor; [done|congruence|congruence|]. intros i p Hp.
  destruct (decide (i = tx_of ic t)) as [->|Hne].
  - assert (p = o) as -> by congruence. destruct (W4 (tx_of ic t) o1) as (o' & H1 & H2 & _); [by eapply changes_lookup|].
    rewrite (H2 Hni) in H1. exists o1. split_and!; [done|intros []; by left|]. right. exists ia.
    split_and!; [by eapply list_elem_of_lookup_2|unfold tx_of; by rewrite Ea|done].
  - destruct (W4 i p) as (o' & H1 & H2 & H3).
    { rewrite C4, list_lookup_insert_ne by done. done. }
    exists o'. split_and!; [done|intros Hn; apply H2; intros Hi; apply Hn; by right|]. by rewrite (changes_key _ _ _ _ _ _ _ (ic_program_index ic) C) in H3.
Qed.

Lemma synced_later ic t v a a1 txs a2 :
  synchronized ic t v a a1 → within_rights ic txs a1 a2 → tx_of ic t ∉ txs → placed v (caller_account t) → synced ic (v, a2) t.
Proof using Type.
  intros [(ia & o & o1 & Ea & Ho & C & Ag)] W Hni Hp. destruct (wi_states _ _ _ _ W (tx_of ic t) o1) as (o' & H1 & H2 & _).
  { by eapply changes_lookup. }
  rewrite (H2 Hni) in H1. exists o1. split; [done|]. by eapply agree_accounts.
Qed.

Lemma synchronize_all ic l (s : IC) v l' x' :
  each (synchronize_callee ic) l (s, v) = (Ok l', x') → tidy (accounts_of s) → Forall (λ t, placed v (caller_account t)) l →
  NoDup (tx_of ic <$> l) →
  ∃ a', x' = (with_accounts s a', v) ∧ within_rights ic (tx_of ic <$> l) (accounts_of s) a' ∧ Forall (synced ic (v, a')) l' ∧
    Forall2 (λ t t', ∃ b, t' = with_region_update t b) l l'.
Proof using ML.
  revert s l' x'. induction l as [|t l IH]; intros s l' x' H Ht Hp Hd; cbn [each] in H.
  { injection H as <- <-. exists (accounts_of s). rewrite with_accounts_self. split_and!; try done. by apply rights_refl. }
  apply op_bind_inv_ok in H as (t' & x1 & E1 & H). apply op_bind_inv_ok in H as (ts & x2 & E2 & H). injection H as <- <-.
  apply list.Forall_cons in Hp as [Hp Hps]. rewrite fmap_cons in Hd. apply list.NoDup_cons in Hd as [Hni Hd].
  apply synchronize_run in E1 as (a1 & r & -> & S1 & ->); [|done|done].
  assert (Ht1 : tidy a1) by (destruct S1 as [(ia & o & o1 & _ & _ & [C1 _ _ _ _] & _)]; done).
  apply IH in E2 as (a2 & -> & W & F & G); [|done|done|done].
  exists a2. split; [done|]. split_and!; [by eapply rights_step| |by constructor; [eexists|]].
  constructor; [|done]. change (synced ic (v, a2) t). by eapply synced_later.
Qed.

(** ** The request *)

Lemma each_length {A B} v (f : A → Cpi B) l s ys x' : (∀ y, keeps v (f y)) → each f l (s, v) = (Ok ys, x') → length ys = length l.
Proof using Type. intros Hf H. apply each_inv in H; [|done]. by rewrite (Forall2_length _ _ _ H). Qed.
Lemma size_inv n m y : check_instruction_size n m = Ok y → n ≤ MAX_ACCOUNTS_PER_INSTRUCTION ∧ m ≤ MAX_INSTRUCTION_DATA_LEN.
Proof using Type.
  unfold check_instruction_size. destruct (Z.ltb_spec MAX_ACCOUNTS_PER_INSTRUCTION n); [done|].
  destruct (Z.ltb_spec MAX_INSTRUCTION_DATA_LEN m); [done|]. done.
Qed.

(** An instruction of at most 255 accounts and 10 KiB of data, for a program that may be called. *)
Record request_ok (ix : CallInstruction) : Prop := {
  rq_accounts : zlen (instruction_metas ix) ≤ MAX_ACCOUNTS_PER_INSTRUCTION;
  rq_data : zlen (instruction_bytes ix) ≤ MAX_INSTRUCTION_DATA_LEN;
}.
Lemma indices_length n k : n ≤ k → 0 ≤ k → Z.of_nat (length (indices n)) ≤ k.
Proof using Type. intros H1 H2. unfold indices. rewrite length_seqZ. lia. Qed.

Ltac keep_all := keep; auto using keeps_mapping, keeps_bytes, keeps_u64, keeps_load_type, keeps_slice.

Lemma rust_request addr (s : IC) v ix x' : translate_instruction_rust cfg addr (s, v) = (Ok ix, x') → request_ok ix.
Proof using ML.
  intros H. unfold translate_instruction_rust in H.
  op_step H as (c & m1 & _ & H). op_step H as ([] & m2 & _ & H). op_step H as (p & m3 & _ & H). op_step H as (bs & m4 & _ & H).
  cbv zeta in H. op_step H as (metas & m5 & _ & H). op_step H as (data & m6 & _ & H).
  op_step H as ([] & m7 & [H1 H2]%lift_inv%size_inv & H). op_step H as ([] & m8 & _ & H).
  op_step H as (accs & m9 & E9 & H). op_step H as (bytes & m10 & E10 & H). injection H as <- _.
  apply each_length in E9; [|intros y; keep_all]. injection E10 as <- _.
  constructor; simpl; unfold zlen; [rewrite E9; by apply indices_length|]. rewrite read_length. unfold MAX_INSTRUCTION_DATA_LEN in *. lia.
Qed.
Lemma c_request addr (s : IC) v ix x' : translate_instruction_c cfg addr (s, v) = (Ok ix, x') → request_ok ix.
Proof using ML.
  intros H. unfold translate_instruction_c in H.
  op_step H as (c & m1 & _ & H). op_step H as ([] & m2 & _ & H). op_step H as (p & m3 & _ & H). op_step H as (bs & m4 & _ & H).
  cbv zeta in H. op_step H as (id & m5 & _ & H). op_step H as (metas & m6 & _ & H). op_step H as ([] & m7 & _ & H).
  op_step H as (data & m8 & _ & H). op_step H as ([] & m9 & [H1 H2]%lift_inv%size_inv & H). op_step H as ([] & m10 & _ & H).
  op_step H as (accs & m11 & E9 & H). op_step H as (bytes & m12 & E10 & H). op_step H as (k & m13 & _ & H). injection H as <- _.
  apply each_length in E9; [|intros y; keep_all]. injection E10 as <- _.
  constructor; simpl; unfold zlen; [rewrite E9; by apply indices_length|]. rewrite read_length. simpl in H2.
  unfold MAX_INSTRUCTION_DATA_LEN in *. lia.
Qed.

(** A signer is an address of the calling program. *)
Definition derived (caller k : Pubkey) : Prop := ∃ seeds, zlen seeds ≤ MAX_SEEDS ∧ create_program_address seeds caller = Ok k.
Lemma signer_derived c id p i (s : IC) v k x' : translate_signer c id p i (s, v) = (Ok k, x') → derived id k.
Proof using ML.
  intros H. unfold translate_signer in H. op_step H as (bs & m1 & _ & H). cbv zeta in H.
  apply keeps_inv in H as (seeds & m2 & _ & H); [|apply keeps_slice].
  op_step H as ([] & m3 & E3%ensure_inv & H). apply Z.leb_le in E3.
  apply keeps_inv in H as (sb & m4 & E4 & H); [|apply keeps_each; intros; apply keeps_seed].
  apply each_length in E4; [|intros; apply keeps_seed]. apply lift_inv in H.
  exists sb. split; [unfold zlen; rewrite E4; by apply indices_length|]. by destruct (create_program_address sb id); [injection H as ->|done].
Qed.
Lemma signers_derived id addr n (s : IC) v ks x' :
  translate_signers id addr n (s, v) = (Ok ks, x') → zlen ks ≤ MAX_SIGNERS ∧ Forall (derived id) ks.
Proof using ML.
  intros H. unfold translate_signers in H. op_step H as (c & m1 & _ & H). op_step H as ([] & m2 & _ & H).
  destruct (n =? 0); [by injection H as <- _|].
  op_step H as (p & m3 & _ & H). op_step H as ([] & m4 & E4%ensure_inv & H). apply Z.leb_le in E4.
  pose proof H as Hl. apply each_length in Hl; [|intros; apply keeps_signer]. apply each_inv in H; [|intros; apply keeps_signer].
  split; [unfold zlen; rewrite Hl; by apply indices_length|]. apply list.Forall_forall. intros k (i & Hk)%list_elem_of_lookup.
  destruct (Forall2_lookup_r _ _ _ _ _ H Hk) as (j & _ & m & x2 & E). by eapply signer_derived.
Qed.

(** A program that may be called: no loader, but for some instructions of the upgradeable one, and
    no precompile. *)
Definition callable (id : Pubkey) (data : list Z) : Prop :=
  id ≠ native_loader ∧ id ≠ bpf_loader ∧ id ≠ bpf_loader_deprecated ∧ is_precompile id = false ∧
  (id = bpf_loader_upgradeable → is_upgrade_instruction data = true ∨ is_set_authority_instruction data = true ∨
     is_set_authority_checked_instruction data = true ∨ is_close_instruction data = true).
Lemma authorized_inv id data y : check_authorized_program cfg id data = Ok y → callable id data.
Proof using Type.
  unfold check_authorized_program, callable. repeat (case_bool_decide; simpl; try done).
  - destruct (is_upgrade_instruction data), (is_set_authority_instruction data),
      (is_set_authority_checked_instruction data), (is_close_instruction data),
      (enable_bpf_loader_set_authority_checked_ix cfg), (is_precompile id); simpl; try done; intros _; split_and!; auto.
  - destruct (is_precompile id); [done|]. by intros _.
Qed.

Lemma prepare_same ix signers (s s2 : IC) :
  prepare_next_cpi_instruction ix signers s = (Ok tt, s2) → accounts_of s2 = accounts_of s ∧ syscall_context s2 = syscall_context s.
Proof using Type.
  intros H. destruct (prepare_cases ix signers s) as [[e E]|(ic & x & accs & p & c & _ & E)]; rewrite E in H; [done|].
  unfold on_ctx, configure_instruction_at_index in H. destruct (instruction_trace (transaction_context s) !! _); [|done].
  injection H as <-. done.
Qed.

Lemma region_updates ic l l' :
  Forall2 (λ t t', ∃ b, t' = with_region_update t b) l l' → tx_of ic <$> l' = tx_of ic <$> l.
Proof using Type. induction 1 as [|t t' l l' [b ->] _ IH]; [done|]. by rewrite !fmap_cons, IH. Qed.

(** One of the two system calls. *)
Definition known_call (S : SyscallInvokeSigned (Code := Code)) : Prop := S = invoke_signed_rust cfg ∨ S = invoke_signed_c cfg.
Lemma call_request S addr (s : IC) v : known_call S → keeps v (translate_instruction S addr) ∧
  ∀ ix x', translate_instruction S addr (s, v) = (Ok ix, x') → request_ok ix.
Proof using ML.
  intros [->| ->]; simpl; (split; [auto using keeps_rust_instruction, keeps_c_instruction|]); intros ix x' H;
    [by eapply rust_request|by eapply c_request].
Qed.
Lemma call_accounts S infos_addr n (s : IC) v l x' ic :
  known_call S → translate_accounts_of S infos_addr n (s, v) = (Ok l, x') →
  get_current_instruction_context (transaction_context s) = Ok ic → frame_ok (ic_accounts ic) (dedup_map ic) →
  (∀ sc, get_syscall_context s = Ok sc → Forall (meta_own v) (accounts_metadata sc)) →
  (∃ m, x' = (with_meter s m, v)) ∧ translated ic v l.
Proof using Type.
  intros HS H Hic Hf Ho.
  assert (∃ kind, known_kind kind ∧ translate_accounts cfg kind infos_addr n (s, v) = (Ok l, x')) as (kind & Hk & H').
  { destruct HS as [->| ->]; [exists rust_info|exists c_info]; (split; [by constructor|done]). }
  clear H. unfold translate_accounts in H'. op_step H' as (c & m1 & _ & H'). op_step H' as ([] & m2 & _ & H').
  apply keeps_inv in H' as ([infos keys] & m3 & _ & H'); [|apply keeps_infos].
  apply common_translated with (ic := ic) in H' as [[m ->] T]; [|done..]. split; [by exists m|done].
Qed.

(** The current instruction has been configured: it is before the placeholder for the next one. *)
Record configured (c : TransactionContext) (i : nat) : Prop := {
  cf_trace : (i < Z.to_nat (get_instruction_trace_length c))%nat;
  cf_accounts : (i < length (instruction_accounts c))%nat;
  cf_maps : (i < length (deduplication_maps c))%nat;
  cf_data : (i < length (instruction_data c))%nat;
}.

Lemma prepare_current ix signers (s s2 : IC) i :
  prepare_next_cpi_instruction ix signers s = (Ok tt, s2) →
  get_current_instruction_index (transaction_context s) = Ok i → configured (transaction_context s) (Z.to_nat i) →
  get_current_instruction_context (transaction_context s2) = get_current_instruction_context (transaction_context s).
Proof using Type.
  intros H Hi [C1 C2 C3 C4]. destruct (prepare_cases ix signers s) as [[e E]|(ic & x & accs & p & c & _ & E)]; rewrite E in H; [done|].
  unfold on_ctx, configure_instruction_at_index in H. destruct (instruction_trace (transaction_context s) !! _) as [f|] eqn:Ef; [|done].
  injection H as <-. unfold get_current_instruction_context, get_instruction_context_at_index_in_trace.
  change (get_current_instruction_index (transaction_context (with_session s _))) with (get_current_instruction_index (transaction_context s)).
  rewrite Hi. simpl. rewrite list_lookup_insert_ne by lia. by rewrite !lookup_app_l.
Qed.


(** ** Bringing the accounts back *)

(** Memory changed, but not where [P] holds. *)
Record rewritten (P : Z → Z → Prop) (v v' : Vm) : Prop := {
  rw_place q m : place v q m → place v' q m;
  rw_own q m : own v q m → own v' q m;
  rw_map access addr n a : own v addr n → (vm_map access addr n (v', a)).1 = (vm_map access addr n (v, a)).1;
  rw_read q m a : place v q m → P q m → host_read q m (v', a) = host_read q m (v, a);
}.
Lemma rewritten_refl P v : rewritten P v v.
Proof using Type. by constructor. Qed.
Lemma rewritten_trans (P Q : Z → Z → Prop) v1 v2 v3 :
  rewritten P v1 v2 → rewritten Q v2 v3 → rewritten (λ q m, P q m ∧ Q q m) v1 v3.
Proof using Type.
  intros [P1 O1 M1 R1] [P2 O2 M2 R2]. constructor; auto.
  - intros access addr n a H. rewrite M2, M1; auto.
  - intros q m a H [HP HQ]. rewrite R2, R1; auto.
Qed.
Lemma rewritten_weaken (P Q : Z → Z → Prop) v v' : (∀ q m, Q q m → P q m) → rewritten P v v' → rewritten Q v v'.
Proof using Type. intros H [P1 O1 M1 R1]. constructor; auto. Qed.

Lemma write_run p bs (s : IC) v :
  place v p (zlen bs) → Forall byte_ok bs → ∃ v', write_bytes p bs (s, v) = (Ok tt, (s, v')) ∧ rewritten (disjoint p (zlen bs)) v v' ∧
    (∀ a, host_read p (zlen bs) (v', a) = bs).
Proof using Type.
  intros Hp Hb. unfold write_bytes. simpl. destruct (host_write p bs (v, accounts_of s)) as [v' a'] eqn:E.
  pose proof (write_accounts _ _ _ _ _ Hp E) as Ha. simpl in Ha. subst. exists v'. rewrite with_accounts_self. split; [done|]. split.
  - constructor.
    + intros q m. apply (write_place _ _ _ _ _ _ _ Hp E).
    + intros q m. apply (write_own _ _ _ _ _ _ _ Hp E).
    + intros access addr n a. apply (write_map _ _ _ _ _ access addr n a Hp E).
    + intros q m a Hq Hd. rewrite (read_place v' q m a (accounts_of s)), (read_place v q m a (accounts_of s));
        [by apply (write_other _ _ _ _ _ _ _ Hp E)|done|by apply (write_place _ _ _ _ _ _ _ Hp E)].
  - intros a. rewrite (read_place v' p _ a (accounts_of s)); [by apply (write_read _ _ _ _ _ Hp Hb E)|by apply (write_place _ _ _ _ _ _ _ Hp E)].
Qed.

(** Where the length of the data is in the serialized parameters. *)
Definition len_addr (ca : CallerAccount) : Z := saturating_sub (ca_vm_data_addr ca) 8.
Definition len_apart (v : Vm) (ca : CallerAccount) (q m : Z) : Prop :=
  ∀ a p, (vm_map Store (len_addr ca) 8 (v, a)).1 = Ok p → disjoint p 8 q m.
(** A range that an update of the account does not write to. *)
Definition clear (v : Vm) (ca : CallerAccount) (q m : Z) : Prop :=
  (disjoint (ca_lamports ca) 8 q m ∧ disjoint (ca_owner ca) 32 q m) ∧ disjoint (ca_ref_to_len_in_vm ca) 8 q m ∧ len_apart v ca q m.
(** The fields of the account do not overlap. *)
Record fields_apart (v : Vm) (ca : CallerAccount) : Prop := {
  fa_placed : placed v ca;
  fa_own : own v (len_addr ca) 8;
  fa_lamports : disjoint (ca_owner ca) 32 (ca_lamports ca) 8 ∧ disjoint (ca_ref_to_len_in_vm ca) 8 (ca_lamports ca) 8 ∧ len_apart v ca (ca_lamports ca) 8;
  fa_owner : disjoint (ca_ref_to_len_in_vm ca) 8 (ca_owner ca) 32 ∧ len_apart v ca (ca_owner ca) 32;
  fa_len : len_apart v ca (ca_ref_to_len_in_vm ca) 8;
}.

Lemma len_apart_rewritten P v v' ca q m : rewritten P v v' → own v (len_addr ca) 8 → len_apart v ca q m → len_apart v' ca q m.
Proof using Type. intros W Ho H a p Hp. rewrite (rw_map _ _ _ W) in Hp by done. by apply (H a). Qed.

(** The types of the fields. *)
Definition fields_ok (o : OwnedAccount) : Prop := fits 64 (lamports (o_core o)) ∧ zlen (owner (o_core o)) = 32 ∧ Forall byte_ok (owner (o_core o)) ∧ fits 64 (zlen (o_data o)).

Lemma store_run p n (s : IC) v :
  place v p 8 → fits 64 n →
  ∃ v', store_u64 p n (s, v) = (Ok tt, (s, v')) ∧ rewritten (disjoint p 8) v v' ∧ (∀ a, le_num (host_read p 8 (v', a)) = n).
Proof using Type.
  intros Hp Hn. destruct (write_run p (le_bytes 8 n) s v) as (v' & E & W & R); [by rewrite zlen_le_bytes|apply le_bytes_ok|].
  rewrite zlen_le_bytes in W, R. exists v'. split; [done|]. split; [done|]. intros a. rewrite R, le_num_le_bytes. by apply Z.mod_small.
Qed.

Lemma type_run access addr n k c (s : IC) v p x' :
  translate_type access addr n k c (s, v) = (Ok p, x') → own v addr n →
  x' = (s, v) ∧ place v p n ∧ (vm_map access addr n (v, accounts_of s)).1 = Ok p.
Proof using Type.
  intros H Ho. pose proof (type_place _ _ _ _ _ _ _ _ _ H Ho) as Hp. unfold translate_type in H.
  apply op_bind_inv_ok in H as (host & x1 & E & H).
  assert (p = host ∧ x' = x1) as [-> ->] by (destruct (c && _); [done|]; by injection H as -> ->).
  unfold on_memory in E. simpl in E. destruct (vm_map access addr n (v, accounts_of s)) as [r w] eqn:Em.
  apply map_same in Em as ->; [|by right]. destruct r as [q|]; [|done]. injection E as -> <-. by rewrite with_accounts_self.
Qed.

(** The fields that are written in any case. *)
Lemma update_fields ca b (s : IC) v o (k : unit → Cpi unit) x' :
  (core ← on_tx (get_core b); _ ← store_u64 (ca_lamports ca) (lamports core);
   core ← on_tx (get_core b); y ← write_bytes (ca_owner ca) (owner core); k y) (s, v) = (Ok tt, x') →
  states (accounts_of s) !! handle_index b = Some o → fields_apart v ca → fields_ok o →
  ∃ v2, k tt (s, v2) = (Ok tt, x') ∧ rewritten (λ q m, disjoint (ca_lamports ca) 8 q m ∧ disjoint (ca_owner ca) 32 q m) v v2 ∧
    ∀ a, lamports (o_core o) = le_num (host_read (ca_lamports ca) 8 (v2, a)) ∧ owner (o_core o) = host_read (ca_owner ca) 32 (v2, a).
Proof using ML.
  intros H Ho [[P1 P2 P3] A1 A2 A3 A4] (F1 & F2 & F4 & _).
  rewrite (op_bind_ok _ _ _ _ _ (tx_read _ s v _ (get_core_eq b _ o Ho))) in H.
  destruct (store_run (ca_lamports ca) (lamports (o_core o)) s v P1 F1) as (v1 & E1 & W1 & R1).
  rewrite (op_bind_ok _ _ _ _ _ E1), (op_bind_ok _ _ _ _ _ (tx_read _ s v1 _ (get_core_eq b _ o Ho))) in H.
  destruct (write_run (ca_owner ca) (owner (o_core o)) s v1) as (v2 & E2 & W2 & R2); [rewrite F2; by apply (rw_place _ _ _ W1)|done|].
  rewrite (op_bind_ok _ _ _ _ _ E2) in H. rewrite F2 in W2, R2. exists v2. split; [done|]. split; [by eapply rewritten_trans|].
  intros a. split; [|done]. rewrite (rw_read _ _ _ W2); [done|by apply (rw_place _ _ _ W1)|apply A2].
Qed.

Lemma update_caller_run c ca b (s : IC) v o x' :
  update_caller_account c ca b (s, v) = (Ok tt, x') → states (accounts_of s) !! handle_index b = Some o → fields_apart v ca → fields_ok o →
  ∃ v', x' = (s, v') ∧ rewritten (clear v ca) v v' ∧ ∀ a, agree (v', a) ca o.
Proof using ML.
  intros H Ho A F. unfold update_caller_account in H. apply update_fields with (o := o) in H as (v2 & H & W & R); [|done|done|done].
  destruct A as [[P1 P2 P3] A1 A2 A3 A4]. destruct F as (_ & _ & _ & F3).
  rewrite (op_bind_ok _ _ _ _ _ (load_run (ca_ref_to_len_in_vm ca) s v2)), (op_bind_ok _ _ _ _ _ (tx_read _ s v2 _ (get_data_eq b _ o Ho))) in H.
  cbv zeta in H. apply op_bind_inv_ok in H as ([] & x3 & E3 & H). destruct (_ <=? _); [|done]. injection E3 as <-.
  destruct (Z.eqb_spec (le_num (host_read (ca_ref_to_len_in_vm ca) 8 (v2, accounts_of s))) (zlen (o_data o))) as [En|En].
  - injection H as <-. exists v2. split; [done|]. split; [by eapply rewritten_weaken; [|exact W]; intros q m []|].
    intros a. destruct (R a) as [R1 R2]. constructor; [done|done|]. rewrite <- En. f_equal. apply read_place. by apply (rw_place _ _ _ W).
  - destruct (store_run (ca_ref_to_len_in_vm ca) (zlen (o_data o)) s v2) as (v3 & E3 & W3 & R3); [by apply (rw_place _ _ _ W)|done|].
    rewrite (op_bind_ok _ _ _ _ _ E3) in H. apply op_bind_inv_ok in H as (p & x4 & E4 & H).
    pose proof (rewritten_trans _ _ _ _ _ W W3) as W03.
    apply type_run in E4 as (-> & P4 & M4); [|by apply (rw_own _ _ _ W03)].
    assert (Hp : (vm_map Store (len_addr ca) 8 (v, accounts_of s)).1 = Ok p) by (by rewrite <- (rw_map _ _ _ W03)).
    destruct (store_run p (zlen (o_data o)) s v3 P4 F3) as (v4 & E5 & W4 & _). rewrite E5 in H. injection H as <-.
    exists v4. split; [done|]. split.
    + eapply rewritten_weaken; [|exact (rewritten_trans _ _ _ _ _ W03 W4)]. intros q m (C1 & C2 & C3). split_and!; [apply C1..|done|by eapply C3].
    + intros a. destruct (R a) as [R1 R2]. constructor.
      * rewrite R1. f_equal. rewrite (rw_read _ _ _ W4), (rw_read _ _ _ W3); [done|by apply (rw_place _ _ _ W)|apply A2|by apply (rw_place _ _ _ W03)|].
        eapply (proj2 (proj2 A2)), Hp.
      * rewrite R2. rewrite (rw_read _ _ _ W4), (rw_read _ _ _ W3); [done|by apply (rw_place _ _ _ W)|apply A3|by apply (rw_place _ _ _ W03)|].
        eapply (proj2 A3), Hp.
      * rewrite (rw_read _ _ _ W4); [by rewrite R3|by apply (rw_place _ _ _ W03)|]. eapply A4, Hp.
Qed.

Lemma clear_rewritten P v v' ca q m : rewritten P v v' → own v (len_addr ca) 8 → clear v ca q m → clear v' ca q m.
Proof using Type. intros W Ho (H1 & H2 & H3). split_and!; [apply H1..|done|by eapply len_apart_rewritten]. Qed.
Lemma fields_rewritten P v v' ca : rewritten P v v' → fields_apart v ca → fields_apart v' ca.
Proof using Type.
  intros W [[P1 P2 P3] Ho (A1 & A2 & A3) (B1 & B2) C].
  constructor; [constructor; by apply (rw_place _ _ _ W)|by apply (rw_own _ _ _ W)|..]; split_and?; try done; by eapply len_apart_rewritten.
Qed.

(** Later updates do not write to the fields of earlier accounts. *)
Definition spares (v : Vm) (ca' ca : CallerAccount) : Prop :=
  clear v ca' (ca_lamports ca) 8 ∧ clear v ca' (ca_owner ca) 32 ∧ clear v ca' (ca_ref_to_len_in_vm ca) 8.
Fixpoint laid_out (v : Vm) (l : list TranslatedAccount) : Prop :=
  match l with
  | [] => True
  | t :: l => fields_apart v (caller_account t) ∧ Forall (λ t', spares v (caller_account t') (caller_account t)) l ∧ laid_out v l
  end.
Lemma laid_out_fields v l : laid_out v l → Forall (λ t, fields_apart v (caller_account t)) l.
Proof using Type. induction l as [|t l IH]; [done|]. intros (H1 & _ & H3). constructor; auto. Qed.
Lemma laid_out_rewritten P v v' l : rewritten P v v' → laid_out v l → laid_out v' l.
Proof using Type.
  intros W. induction l as [|t l IH]; [done|]. intros (H1 & H2 & H3). split_and!; [by eapply fields_rewritten| |auto].
  apply laid_out_fields in H3. rewrite list.Forall_forall in *. intros t' Ht'. destruct (H2 t' Ht') as (C1 & C2 & C3).
  destruct (H3 t' Ht') as [_ Ho _ _ _]. split_and!; by eapply clear_rewritten.
Qed.

Lemma agree_rewritten P v v' a ca o :
  rewritten P v v' → placed v ca → P (ca_lamports ca) 8 → P (ca_owner ca) 32 → P (ca_ref_to_len_in_vm ca) 8 → agree (v, a) ca o → agree (v', a) ca o.
Proof using Type.
  intros W [P1 P2 P3] H1 H2 H3 [A1 A2 A3]. constructor; [rewrite A1; f_equal|rewrite A2|rewrite A3; f_equal]; symmetry; by apply (rw_read _ _ _ W).
Qed.

Lemma return_run c ic t (s : IC) v x' :
  synchronize_caller c ic t (s, v) = (Ok tt, x') → tidy (accounts_of s) → Forall fields_ok (states (accounts_of s)) →
  fields_apart v (caller_account t) →
  ∃ v', x' = (s, v') ∧ rewritten (clear v (caller_account t)) v v' ∧
    (update_caller_account_info t = true → synced ic (v', accounts_of s) t).
Proof using ML.
  intros H Ht Hf Hfa. unfold synchronize_caller in H. apply borrowed_inv in H as (ia & a1 & y & Ea & H0 & Ea1 & E & ->).
  assert (Hback : ∀ v' : Vm, (with_accounts (with_accounts s a1) (drop_handle (handle_of ic ia) (accounts_of (with_accounts s a1))), v') = (s, v')).
  { intros v'. change (accounts_of (with_accounts s a1)) with a1. rewrite Ea1, release_run by done.
    change (with_accounts (with_accounts s _) (accounts_of s)) with (with_accounts s (accounts_of s)). by rewrite with_accounts_self. }
  destruct (update_caller_account_info t).
  - destruct (states_in_range (accounts_of s) (handle_index (handle_of ic ia)) Ht) as (o & Ho); [by eapply lookup_lt_Some|].
    apply update_caller_run with (o := o) in E as (v' & -> & W & A); [|by rewrite Ea1|done|by eapply Forall_lookup_1].
    exists v'. split; [apply Hback|]. split; [done|]. intros _. exists o. split; [|apply A]. unfold tx_of, account_of. by rewrite Ea.
  - injection E as <-. exists v. split; [apply Hback|]. split; [apply rewritten_refl|done].
Qed.

Lemma return_all c ic ts (s : IC) v us x' :
  each (synchronize_caller c ic) ts (s, v) = (Ok us, x') → tidy (accounts_of s) → Forall fields_ok (states (accounts_of s)) → laid_out v ts →
  ∃ v', x' = (s, v') ∧ rewritten (λ q m, Forall (λ t, clear v (caller_account t) q m) ts) v v' ∧
    Forall (λ t, update_caller_account_info t = true → synced ic (v', accounts_of s) t) ts.
Proof using ML.
  revert v us x'. induction ts as [|t ts IH]; intros v us x' H Ht Hf Hl; cbn [each] in H.
  { injection H as _ <-. exists v. split; [done|]. split; [apply rewritten_refl|constructor]. }
  apply op_bind_inv_ok in H as ([] & x1 & E1 & H). apply op_bind_inv_ok in H as (ys & x2 & E2 & H). injection H as _ <-.
  destruct Hl as (Hfa & Hsp & Hl). apply return_run in E1 as (v1 & -> & W1 & S1); [|done..].
  apply IH in E2 as (v2 & -> & W2 & F2); [|done|done|by eapply laid_out_rewritten]. exists v2. split; [done|].
  assert (Hown : ∀ q m, Forall (λ t', clear v (caller_account t') q m) ts → Forall (λ t', clear v1 (caller_account t') q m) ts).
  { intros q m H. apply laid_out_fields in Hl. rewrite list.Forall_forall in *. intros t' Ht'. eapply clear_rewritten; [exact W1|by apply Hl|auto]. }
  split.
  - eapply rewritten_weaken; [|exact (rewritten_trans _ _ _ _ _ W1 W2)]. intros q m H. apply list.Forall_cons in H as [H1 H2]. auto.
  - constructor; [|done]. intros Hi. destruct (S1 Hi) as (o & Ho & A). exists o. split; [done|].
    destruct (fields_rewritten _ _ _ _ W1 Hfa) as [Hp _ _ _ _]. eapply agree_rewritten; [exact W2|exact Hp|..|exact A]; apply Hown;
      (eapply list.Forall_impl; [exact Hsp|]); intros t' (C1 & C2 & C3); done.
Qed.

(** ** The regions of the caller *)

Lemma inert_states a a' : inert a a' → states a' = states a.
Proof using Type.
  intros I. assert (H : ∀ b, states b = (λ p, owned (storage b) {| cow := p.2; dirty_bits := 0 |}) <$> values b).
  { intros b. unfold states, values. rewrite <- !list_fmap_compose. apply list_fmap_ext. intros i [k st] _. by destruct st. }
  by rewrite !H, (in_values _ _ I), (in_storage _ _ I).
Qed.

Record sized (a : TransactionAccounts) : Prop := {
  sz_flags : length (touched_flags a) = length (values a);
  sz_counters : length (borrow_counters a) = length (values a);
}.
Lemma tidy_sized a : tidy a → sized a.
Proof using Type. intros [_ H1 H2]. constructor; unfold values; by rewrite length_fmap. Qed.
Lemma sized_inert a a' : inert a a' → length (borrow_counters a') = length (borrow_counters a) → sized a → sized a'.
Proof using Type. intros I C [H1 H2]. constructor; rewrite (in_values _ _ I); [by rewrite (in_flags _ _ I)|congruence]. Qed.

(** Memory is as it was, under other regions. *)
Definition remapped (v v' : Vm) : Prop := ∀ q m, place v q m → place v' q m ∧ ∀ a, host_read q m (v', a) = host_read q m (v, a).

Lemma update_region_run c ca b (s : IC) v x' :
  update_region shared_buffer c ca b (s, v) = (Ok tt, x') → sized (accounts_of s) → (handle_index b < length (values (accounts_of s)))%nat →
  ∃ a' v', x' = (with_accounts s a', v') ∧ inert (accounts_of s) a' ∧ borrow_counters a' = borrow_counters (accounts_of s) ∧ remapped v v'.
Proof using ML.
  intros H [Hs _] Hlt. unfold update_region in H. destruct (0 <? _).
  - apply op_bind_inv_ok in H as ([i region] & x1 & E1 & H). injection E1 as E1 <-.
    apply op_bind_inv_ok in H as (r & x2 & E2 & H). apply tx_inv in E2 as (a' & E2 & ->).
    destruct (lookup_lt_is_Some_2 _ _ Hlt) as ([k cw] & Hv).
    destruct (create_region_run shared_buffer b (accounts_of s) k cw (region_vm_addr region) Hv) as (r' & a2 & E2' & I & C & _); [by rewrite Hs|].
    rewrite E2' in E2. injection E2 as -> ->. simpl in H. destruct (replace_region i r v) as [v'|] eqn:Er; [|done]. injection H as <-.
    exists a', v'. split_and!; [done|done|done|]. intros q m Hp. split; [by eapply replace_place|]. intros a. by eapply replace_read.
  - injection H as <-. exists (accounts_of s), v. rewrite with_accounts_self. split_and!; [done|reflexivity|done|by split].
Qed.

Lemma region_run c ic t (s : IC) v x' :
  synchronize_region shared_buffer c ic t (s, v) = (Ok tt, x') → sized (accounts_of s) →
  ∃ a' v', x' = (with_accounts s a', v') ∧ inert (accounts_of s) a' ∧ sized a' ∧ remapped v v'.
Proof using ML.
  intros H Hs. unfold synchronize_region in H. apply borrowed_inv in H as (ia & a1 & y & Ea & H0 & Ea1 & E & ->).
  assert (I1 : inert (accounts_of s) a1) by (rewrite Ea1; apply inert_counters).
  assert (Hs1 : sized a1) by (eapply sized_inert; [exact I1| |done]; rewrite Ea1; simpl; by rewrite length_insert).
  assert (∃ a2 v2, y = (with_accounts s a2, v2) ∧ inert a1 a2 ∧ borrow_counters a2 = borrow_counters a1 ∧ remapped v v2) as (a2 & v2 & -> & I2 & C2 & R).
  { destruct (update_caller_account_region t).
    - apply update_region_run in E as (a2 & v2 & -> & I2 & C2 & R); [by exists a2, v2|done|]. change (accounts_of (with_accounts s a1)) with a1.
      rewrite (in_values _ _ I1), <- (sz_counters _ Hs). by eapply lookup_lt_Some.
    - injection E as <-. exists a1, v. split_and!; [done|reflexivity|done|by split]. }
  cbn [fst snd]. change (accounts_of (with_accounts s a2)) with a2.
  exists (drop_handle (handle_of ic ia) a2), v2. split; [done|].
  assert (I : inert (accounts_of s) (drop_handle (handle_of ic ia) a2)) by (rewrite I1, I2; apply inert_counters).
  split_and!; [done| |done]. eapply sized_inert; [exact I| |done]. simpl. rewrite length_alter, C2, Ea1. simpl. by rewrite length_insert.
Qed.

Lemma region_all c ic ts (s : IC) v us x' :
  each (synchronize_region shared_buffer c ic) ts (s, v) = (Ok us, x') → sized (accounts_of s) →
  ∃ a' v', x' = (with_accounts s a', v') ∧ inert (accounts_of s) a' ∧ remapped v v'.
Proof using ML.
  revert s v us x'. induction ts as [|t ts IH]; intros s v us x' H Hs; cbn [each] in H.
  { injection H as _ <-. exists (accounts_of s), v. rewrite with_accounts_self. split_and!; [done|reflexivity|by split]. }
  apply op_bind_inv_ok in H as ([] & x1 & E1 & H). apply op_bind_inv_ok in H as (ys & x2 & E2 & H). injection H as _ <-.
  apply region_run in E1 as (a1 & v1 & -> & I1 & S1 & R1); [|done]. apply IH in E2 as (a2 & v2 & -> & I2 & R2); [|done].
  exists a2, v2. split; [done|]. split; [by rewrite I1|]. intros q m Hp. destruct (R1 q m Hp) as [P1 E1]. destruct (R2 q m P1) as [P2 E2].
  split; [done|]. intros a. by rewrite E2, E1.
Qed.


(** ** Calls without accounts *)

(** C40. A call of the C interface without accounts is refused where pointers must be aligned: the empty
    slice of the metas is a dangling pointer with the alignment of bytes, and is checked for the
    alignment of the structure of words. *)
Theorem c_call_without_accounts_refused addr (s : IC) v p q :
  get_check_aligned (s, v) = (Ok true, (s, v)) → memory_mapping (s, v) = (Ok tt, (s, v)) →
  translate_type Load addr 40 8 true (s, v) = (Ok p, (s, v)) →
  let ix := sol_instruction_of (host_read p 40 (v, accounts_of s)) in
  translate_type Load (si_program_id_addr ix) 32 1 true (s, v) = (Ok q, (s, v)) → si_accounts_len ix = 0 →
  translate_instruction_c cfg addr (s, v) = (Err (CpiMemory UnalignedPointer), (s, v)).
Proof using Type.
  intros H1 H2 H3 ix H4 H5. unfold translate_instruction_c.
  rewrite (op_bind_ok _ _ _ _ _ H1), (op_bind_ok _ _ _ _ _ H2), (op_bind_ok _ _ _ _ _ H3).
  rewrite (op_bind_ok (read_bytes p 40) _ (s, v) _ (s, v) eq_refl). cbv zeta. cbn [fst snd].
  change (sol_instruction_of _) with ix.
  rewrite (op_bind_ok _ _ _ _ _ H4). by rewrite H5.
Qed.

End calls.

(** ** A call of the C interface *)

#[local] Existing Instance example_runtime.

(** Addresses are those of the host, and stores keep bytes. *)
#[local] Instance example_memory : GuestMemory := {|
  Vm := mem;
  vm_map _ addr _ := λ w, (Ok addr, w);
  host_read p n w := (λ b, b mod 256) <$> load w.1 p (Z.to_nat n);
  host_write p bs w := (store w.1 p bs, w.2);
  find_region _ addr := Some (0%nat, {| region_vm_addr := addr; region_len := 4; region_writable := true; payload := None; backing := None |});
  replace_region _ _ v := Ok v;
|}.
#[local] Instance example_memory_laws : GuestMemoryLaws.
Proof.
  refine {| own _ _ _ := True; place _ _ _ := True |}; try done; simpl.
  - intros v a access addr n r w _ [= _ <-]. done.
  - intros p n w. by rewrite length_fmap, length_load.
  - intros p n w. apply list.Forall_fmap, list.Forall_true. intros b. simpl. unfold byte_ok. apply Z.mod_pos_bound. lia.
  - intros v p a bs w _ <-. done.
  - intros v p a bs w _ Hb <-. simpl. rewrite load_store_same by (unfold zlen; lia).
    rewrite <- (list_fmap_id bs) at 2. apply list_fmap_ext. intros i b Hi. apply Z.mod_small. exact (list.Forall_lookup_1 _ _ _ _ Hb Hi).
  - intros v p a bs w q m _ <- _ H. simpl. f_equal. destruct (decide (0 ≤ m)).
    + apply load_store_disjoint. unfold disjoint, zlen in *. lia.
    + by replace (Z.to_nat m) with 0%nat by lia.
  - by intros i r v v' q m a [= ->].
Defined.
#[local] Instance example_layouts : GuestLayouts := {|
  stable_instruction_size := 80; stable_instruction_align := 8; account_info_size := 48; account_info_align := 8;
  stable_instruction_of bs := {| st_accounts_addr := word_at bs 0; st_accounts_len := word_at bs 16; st_data_addr := word_at bs 24;
                                 st_data_len := word_at bs 40; st_program_id := take 32 (drop 48 bs) |};
  account_info_of bs := {| ai_key := word_at bs 0; ai_lamports := word_at bs 8; ai_data := word_at bs 16; ai_owner := word_at bs 24 |};
|}.
#[local] Instance example_instructions : LoaderInstructions :=
  {| is_upgrade_instruction _ := false; is_set_authority_instruction _ := false; is_set_authority_checked_instruction _ := false;
     is_close_instruction _ := false |}.
Definition example_config : CpiConfig :=
  {| invoke_units := 100; cpi_bytes_per_unit := 250; increase_cpi_account_info_limit := true; increase_tx_account_lock_limit := true;
     enable_bpf_loader_set_authority_checked_ix := true |}.

(** Key, lamports, owner, length and data of an account of the caller, at [addr]. *)
Definition example_meta (addr : Z) : SerializedAccountMetadata :=
  {| vm_addr_ := addr; original_data_len := 4; vm_data_addr := addr + 88; vm_key_addr := addr; vm_lamports_addr := addr + 32;
     vm_owner_addr := addr + 40 |}.
Definition words (l : list Z) : list Z := concat (le_bytes 8 <$> l).
Definition example_info (addr : Z) : list Z := words [addr; addr + 32; 4; addr + 88; addr + 40; 0; 0].
Definition example_serialized (k : Pubkey) (balance : Z) : list Z := k ++ le_bytes 8 balance ++ key 1 ++ le_bytes 8 4.
(** The instruction, its program and its metas; the infos; and the accounts, of which the caller
    has credited the first. *)
Definition example_vm (accounts : Z) : @Vm example_memory :=
  store (store (store (store (store (store (λ _, 0) 4096 (words [4200; 4304; accounts; 4400; 1])) 4200 (key 1))
    4304 (words [20480; 1; 24576; 1])) 8192 (example_info 20480 ++ example_info 24576))
    20480 (example_serialized (key 2) 205)) 24576 (example_serialized (key 3) 300).

Definition example_empty : @Vm example_memory := λ _, 0.

(** The calling program runs in the virtual machine. *)
Definition example_guest : InvokeContext nat :=
  {| session := session example_caller; program_cache := program_cache example_caller; compute_meter := compute_meter example_caller;
     syscall_context := [Some {| allocator := allocator_new 0; accounts_metadata := example_meta <$> [20480; 24576; 28672] |}];
     memory_contexts := [ABIv1 (allocator_new 0) []]; native_caller := None; magic_root := None |}.

Lemma example_tidy : tidy (accounts_of example_guest).
Proof. destruct example_loaded as [H _]. by constructor. Qed.
Definition frame_okb (accs : list InstructionAccount) (map : list Z) : bool :=
  forallb (λ p : nat * Z, (zlen accs <=? p.2) || ((0 <=? p.2) && bool_decide (index_in_transaction <$> accs !! Z.to_nat p.2 = Some (Z.of_nat p.1))))
    (imap pair map).
Lemma frame_okb_sound accs map : frame_okb accs map = true → frame_ok accs map.
Proof.
  intros H index pos Hi Hlt. apply Is_true_true_2, forallb_True, (list.Forall_lookup_1 _ _ index (index, pos)) in H; [|by rewrite list_lookup_imap, Hi].
  simpl in H. destruct (Z.leb_spec (zlen accs) pos); [lia|]. simpl in H. apply andb_prop_elim in H as [H1 H2].
  split; [apply Z.leb_le; by destruct (0 <=? pos)|]. apply bool_decide_unpack in H2.
  destruct (accs !! Z.to_nat pos) as [ia|]; [|done]. exists ia. split; [done|]. by injection H2.
Qed.
Lemma example_frame ic : get_current_instruction_context (transaction_context example_guest) = Ok ic → frame_ok (ic_accounts ic) (dedup_map ic).
Proof.
  intros H. apply frame_okb_sound.
  assert (C : match get_current_instruction_context (transaction_context example_guest) with
              | Ok ic => frame_okb (ic_accounts ic) (dedup_map ic) | Err _ => true end = true) by (vm_compute; reflexivity).
  by rewrite H in C.
Qed.
Lemma example_owned l : Forall (meta_own (example_vm 2)) l.
Proof. apply list.Forall_true. intros meta. split; constructor. Qed.
Lemma example_configured i :
  get_current_instruction_index (transaction_context example_guest) = Ok i → configured (transaction_context example_guest) (Z.to_nat i).
Proof. intros Hi. vm_compute in Hi. injection Hi as <-. constructor; vm_compute; lia. Qed.


(** The first account of the caller, which the callee could write. *)
Definition example_translated : list TranslatedAccount :=
  [{| index_in_caller := 0; update_caller_account_region := true; update_caller_account_info := true;
      caller_account := {| ca_lamports := 20512; ca_owner := 20520; ca_original_data_len := 4; ca_vm_data_addr := 20568;
                           ca_ref_to_len_in_vm := 8208 |} |};
   {| index_in_caller := 1; update_caller_account_region := true; update_caller_account_info := true;
      caller_account := {| ca_lamports := 24608; ca_owner := 24616; ca_original_data_len := 4; ca_vm_data_addr := 24664;
                           ca_ref_to_len_in_vm := 8264 |} |}].
Ltac range := first [left; vm_compute; by intros ?|right; vm_compute; by intros ?].
Ltac ranges A := repeat match goal with
  | |- _ ∧ _ => split
  | |- len_apart _ _ _ _ => apply A
  | |- disjoint _ _ _ _ => range
  end.
Lemma example_laid_out v : laid_out v example_translated.
Proof.
  assert (A : ∀ ca q m, disjoint (len_addr ca) 8 q m → len_apart v ca q m) by (by intros ca q m H a p [= <-]).
  assert (F : ∀ t, t ∈ example_translated → fields_apart v (caller_account t)).
  { intros t Ht. repeat (apply elem_of_cons in Ht as [->|Ht]; [constructor; [by constructor|done|..]; ranges A|]). by apply not_elem_of_nil in Ht. }
  split; [|split; [|split; [|done]]]; [apply F; set_solver| |apply F; set_solver]. constructor; [|done]. unfold spares, clear. ranges A.
Qed.
#[local] Instance fields_ok_dec o : Decision (fields_ok o).
Proof. unfold fields_ok, fits. apply _. Defined.
Lemma example_fields : Forall fields_ok (states (accounts_of example_guest)).
Proof. apply (bool_decide_unpack _). vm_compute. exact I. Qed.


Lemma c_call_without_accounts_witness :
  translate_instruction_c example_config 4096 (example_guest, example_vm 0) = (Err (CpiMemory UnalignedPointer), (example_guest, example_vm 0)).
Proof.
  apply (c_call_without_accounts_refused example_config 4096 example_guest (example_vm 0) 4096 4200); reflexivity.
Defined.
