(* ===== verification/LedgerFile.v ===== *)
(** * Ledger storage ([ledger/src/storage.rs], [error.rs], and [Span] of [index.rs])

    Append files with their pending buffer, the metadata headers, and packed spans. A file is
    a byte memory with a size; what the operating system answers to a call is a parameter, and
    a failed write may have reached the file in part. *)

From stdpp Require Import base list numbers option.
From S2P Require Import Prelude Effects Memory TxBytes.

Local Open Scope Z_scope.

(** ** Errors

    Errors of the operating system, the index and the codecs are opaque codes. [Panicked] is
    an index out of range, which Rust turns into a panic. *)

Abbreviation ErrorCode := Z.

Inductive LedgerError :=
| IO (e : ErrorCode)
| FS (e : ErrorCode)
| Wincode (e : ErrorCode)
| Bitcode (e : ErrorCode)
| Index (e : ErrorCode)
| TransactionView (e : TransactionViewError)
| Corruption
| UnsupportedVersion (v : Z)
| TruncationPanic
| IndexerClosed
| IndexerFenceClosed
| Panicked.

#[export] Instance LedgerError_eq_dec : EqDecision LedgerError.
Proof. solve_decision. Defined.

(** [?] between error types. *)
Definition with_error {E F S A} (f : E → F) (p : Eff E S A) : Eff F S A := λ s,
  let '(r, s) := p s in (map_err f r, s).

(** ** Files *)

Record File := { bytes : mem; size : Z }.

Definition empty_file : File := {| bytes := λ _, 0; size := 0 |}.

Definition write_at (f : File) (offset : Z) (bs : list Z) : File :=
  {| bytes := store (bytes f) offset bs; size := Z.max (size f) (offset + zlen bs) |}.

(** [read_exact_at]: an error past the end of the file. *)
Definition file_read (f : File) (offset n : Z) : option (list Z) :=
  if offset + n <=? size f then Some (load (bytes f) offset (Z.to_nat n)) else None.

Definition file_allocate (f : File) (offset n : Z) : File :=
  {| bytes := bytes f; size := Z.max (size f) (offset + n) |}.

Definition file_set_len (f : File) (n : Z) : File :=
  {| bytes := λ x, if x <? n then bytes f x else 0; size := n |}.

(** What the operating system answers: to a write at an offset, how many bytes reached the
    file before an error; to the other calls, whether they failed. *)
Class LedgerIo := {
  io_write : Z → list Z → result (ErrorCode * nat) unit;
  io_read : Z → Z → result ErrorCode unit;
  io_sync_data : Z → result ErrorCode unit;
  io_sync_all : Z → result ErrorCode unit;
  io_fallocate : Z → result ErrorCode unit;
  io_set_len : Z → result ErrorCode unit;
  io_open : Z → result ErrorCode unit;
  io_flush_meta : Z → result ErrorCode unit;
  io_statvfs : Z → result ErrorCode (Z * Z * Z);
}.
Definition FILE_TOO_LARGE : ErrorCode := 27.
Definition UNEXPECTED_EOF : ErrorCode := 0.

(** ** Spans *)

Abbreviation Span := Z.
Definition SIZE_BITS : Z := 25.
Definition SIZE_MASK : Z := Z.shiftl 1 SIZE_BITS - 1.
Definition MAX_SIZE : Z := SIZE_MASK.
Definition MAX_FILE_SIZE : Z := Z.shiftr (umax 64) SIZE_BITS + 1.

Definition span_new (offset size : Z) : Span := Z.lor (wrap 64 (Z.shiftl offset SIZE_BITS)) size.
Definition span_offset (s : Span) : Z := Z.shiftr s SIZE_BITS.
Definition span_size (s : Span) : Z := Z.land s SIZE_MASK.

(** ** Append files *)

Definition FILE_BUFFER_SIZE : Z := 64 * (1024 * 1024).
Definition PREALLOCATION_SIZE : Z := 4 * (1024 * 1024 * 1024).
Definition PREALLOCATION_THRESHOLD : Z := PREALLOCATION_SIZE / 16.

Inductive Durability := Buffer | SyncData.
Definition requires_sync (d : Durability) : bool := match d with SyncData => true | Buffer => false end.

Record AppendFile := { buffer : list Z; cursor : Z; len : Z }.

(** The file on disk and the writer's view of it. *)
Abbreviation Writing := (File * AppendFile)%type.

Section append.
Context `{!LedgerIo}.

Definition append_file_new (f : File) (published : Z) : AppendFile :=
  {| buffer := []; cursor := published; len := size f |}.

Definition flush : Eff ErrorCode Writing unit := λ '(f, w),
  if bool_decide (buffer w = []) then (Ok tt, (f, w))
  else
    let offset := cursor w - zlen (buffer w) in
    match io_write offset (buffer w) with
    | Err (e, n) => (Err e, (write_at f offset (take n (buffer w)), w))
    | Ok _ => (Ok tt, (write_at f offset (buffer w),
                       {| buffer := []; cursor := cursor w; len := Z.max (len w) (cursor w) |}))
    end.

Definition append (bs : list Z) : Eff ErrorCode Writing unit :=
  _ ← modify (λ '(f, w), (f, {| buffer := buffer w ++ bs; cursor := cursor w + zlen bs; len := len w |}));
  full ← read (λ '(_, w), FILE_BUFFER_SIZE <=? zlen (buffer w));
  if full : bool then flush else mret tt.

Definition preallocate : Eff LedgerError Writing unit := λ '(f, w),
  let offset := len w in
  if MAX_FILE_SIZE <? offset + PREALLOCATION_SIZE then (Err (IO FILE_TOO_LARGE), (f, w))
  else
    match io_fallocate offset with
    | Err e => (Err (FS e), (f, w))
    | Ok _ => (Ok tt, (file_allocate f offset PREALLOCATION_SIZE,
                       {| buffer := buffer w; cursor := cursor w; len := offset + PREALLOCATION_SIZE |}))
    end.

Definition file_persist (d : Durability) : Eff LedgerError Writing Z :=
  short ← read (λ '(_, w), saturating_sub (len w) (cursor w) <? PREALLOCATION_THRESHOLD);
  _ ← (if short : bool then preallocate else mret tt);
  _ ← with_error IO flush;
  at_ ← read (λ '(_, w), cursor w);
  _ ← (if requires_sync d then lift (map_err IO (io_sync_data at_)) else mret tt);
  mret at_.

Definition file_finalize : Eff LedgerError Writing unit :=
  _ ← with_error IO flush;
  at_ ← read (λ '(_, w), cursor w);
  _ ← lift (map_err IO (io_set_len at_));
  _ ← modify (λ '(f, w), (file_set_len f at_, w));
  _ ← lift (map_err IO (io_sync_all at_));
  modify (λ '(f, w), (f, {| buffer := buffer w; cursor := cursor w; len := cursor w |})).

End append.

(** ** Metadata headers *)

Record BlockRange := { start : Z; end_ : Z }.
Definition range_contains (r : BlockRange) (slot : Z) : bool := (start r <=? slot) && (slot <=? end_ r).

Record LedgerMeta := {
  transactions : Z;
  superblocks : Z;
  head : Z;
  range : BlockRange;
  blocks : Z;
}.

Definition default_range : BlockRange := {| start := 0; end_ := 0 |}.
Definition default_ledger_meta : LedgerMeta :=
  {| transactions := 0; superblocks := 1; head := 1; range := default_range; blocks := 0 |}.

(** The half-open range of retained superblocks, as its bounds. *)
Definition retained_ids (m : LedgerMeta) : Z * Z :=
  (saturating_sub (head m) (saturating_sub (superblocks m) 1), head m + 1).

Definition VERSION : Z := 1.

Record SuperblockMeta := {
  version : Z;
  cursor_blockstore : Z;
  cursor_executions : Z;
  sb_range : BlockRange;
  sb_checksum : Z;
  sb_transactions : Z;
  sb_signature : list Z;
}.

Definition default_superblock_meta : SuperblockMeta :=
  {| version := VERSION; cursor_blockstore := 0; cursor_executions := 0; sb_range := default_range;
     sb_checksum := 0; sb_transactions := 0; sb_signature := replicate 64 0 |}.

(** ** Append files and spans: facts

    What has been appended is on disk or in the buffer, whatever the buffer sizes, the
    reservations and the errors; spans are exact up to the limits of their fields. *)

(** ** Spans *)

Lemma size_mask_ones : SIZE_MASK = Z.ones SIZE_BITS.
Proof. done. Qed.

Lemma max_file_size_eq : MAX_FILE_SIZE = 2 ^ 39.
Proof. done. Qed.

Lemma span_new_eq offset n :
  0 ≤ offset < MAX_FILE_SIZE → 0 ≤ n ≤ MAX_SIZE → span_new offset n = offset * 2 ^ 25 + n.
Proof.
  rewrite max_file_size_eq. unfold span_new, MAX_SIZE, SIZE_MASK, SIZE_BITS. intros Ho Hn.
  change (Z.shiftl 1 25 - 1) with (2 ^ 25 - 1) in Hn. rewrite Z.shiftl_mul_pow2 by done.
  rewrite wrap_small by (unfold fits; lia). rewrite Z.lor_comm, lor_disjoint by lia. lia.
Qed.

Lemma span_fields offset n :
  0 ≤ offset < MAX_FILE_SIZE → 0 ≤ n ≤ MAX_SIZE →
  span_offset (span_new offset n) = offset ∧ span_size (span_new offset n) = n ∧
  fits 64 (span_new offset n).
Proof.
  intros Ho Hn. rewrite span_new_eq by done. rewrite max_file_size_eq in Ho.
  unfold MAX_SIZE, span_offset, span_size in *. rewrite size_mask_ones in *. unfold SIZE_BITS in *.
  change (Z.ones 25) with (2 ^ 25 - 1) in Hn. rewrite Z.land_ones, Z.shiftr_div_pow2 by done.
  unfold fits. split_and!; [| |lia|lia].
  - rewrite Z.div_add_l by done. rewrite Z.div_small by lia. lia.
  - rewrite Z.add_comm, Z.mod_add by done. apply Z.mod_small. lia.
Qed.

(** Spans order as their offsets. *)
Lemma span_lt o1 n1 o2 n2 :
  0 ≤ o1 → o1 < o2 < MAX_FILE_SIZE → 0 ≤ n1 ≤ MAX_SIZE → 0 ≤ n2 ≤ MAX_SIZE →
  span_new o1 n1 < span_new o2 n2.
Proof.
  intros H0 H1 H2 H3. rewrite !span_new_eq by lia. unfold MAX_SIZE, SIZE_MASK, SIZE_BITS in *.
  change (Z.shiftl 1 25 - 1) with (2 ^ 25 - 1) in *. lia.
Qed.

(** ** Files *)

(** The file starts with these bytes. *)
Definition holds (f : File) (bs : list Z) : Prop :=
  load (bytes f) 0 (length bs) = bs ∧ zlen bs ≤ size f.

Lemma holds_empty f : 0 ≤ size f → holds f [].
Proof. intros H. split; [done|]. unfold zlen. simpl. lia. Qed.

Lemma holds_prefix f bs bs' : holds f (bs ++ bs') → holds f bs.
Proof.
  intros [H1 H2]. unfold holds, zlen in *. rewrite length_app in H1, H2. split; [|lia].
  rewrite load_app in H1. apply (f_equal (take (length bs))) in H1.
  rewrite take_app_length', take_app_length in H1 by by rewrite length_load. done.
Qed.

(** A write behind the bytes keeps them, and a complete one extends them. *)
Lemma holds_write f disk bs bs' :
  holds f disk → holds (write_at f (zlen disk) bs') disk ∧
  (bs' = bs → holds (write_at f (zlen disk) bs') (disk ++ bs)).
Proof.
  intros [H1 H2]. unfold zlen in *. unfold holds, write_at, zlen. cbn [bytes size]. split.
  - split; [|lia]. rewrite load_store_disjoint by lia. done.
  - intros ->. rewrite length_app. split; [|lia]. rewrite load_app. f_equal.
    + rewrite load_store_disjoint by lia. done.
    + rewrite Z.add_0_l. by apply load_store_same.
Qed.

Lemma holds_read f pre bs post :
  holds f (pre ++ bs ++ post) → file_read f (zlen pre) (zlen bs) = Some bs.
Proof.
  intros H. unfold file_read. rewrite app_assoc in H. apply holds_prefix in H as [H1 H2].
  unfold zlen in *. rewrite length_app in *.
  destruct (Z.leb_spec (Z.of_nat (length pre) + Z.of_nat (length bs)) (size f)); [|lia].
  rewrite Nat2Z.id. f_equal. rewrite load_app, Z.add_0_l in H1.
  by apply app_inj_1 in H1 as [_ ?]; [|by rewrite length_load].
Qed.

Lemma holds_allocate f bs o n : holds f bs → holds (file_allocate f o n) bs.
Proof. intros [H1 H2]. split; [done|]. simpl. lia. Qed.

Lemma holds_set_len f bs n : zlen bs ≤ n → holds f bs → holds (file_set_len f n) bs.
Proof.
  intros Hn [H1 H2]. split; [|done]. rewrite <- H1 at 2. apply load_ext. intros x Hx. simpl.
  unfold zlen in Hn. destruct (Z.ltb_spec x n); [done|lia].
Qed.

(** ** Appending *)

(** All the bytes appended: those known on disk, then the buffer. *)
Record appended (fw : Writing) (disk all : list Z) : Prop := {
  ap_all : all = disk ++ buffer fw.2;
  ap_disk : holds fw.1 disk;
  ap_cursor : cursor fw.2 = zlen all;
}.

Definition reaches (fw : Writing) (disk all : list Z) : Prop :=
  ∃ disk', disk `prefix_of` disk' ∧ appended fw disk' all.

Lemma appended_new f bs : holds f bs → appended (f, append_file_new f (zlen bs)) bs bs.
Proof. intros H. constructor; simpl; [by rewrite app_nil_r|done|done]. Qed.

Section append.
Context `{IOC : !LedgerIo}.

Lemma flush_spec fw disk all :
  appended fw disk all →
  match flush fw with
  | (Ok _, fw') => appended fw' all all
  | (Err _, fw') => appended fw' disk all
  end.
Proof using Type.
  intros [E D C]. destruct fw as [f w]. simpl in *. unfold flush. case_bool_decide as Hb.
  - rewrite Hb, app_nil_r in E. subst all. by constructor; simpl; rewrite ?Hb, ?app_nil_r.
  - assert (Ho : cursor w - zlen (buffer w) = zlen disk) by (rewrite C, E, zlen_app; lia).
    rewrite Ho. destruct (io_write (zlen disk) (buffer w)) as [[]|[e n]].
    + constructor; simpl; [by rewrite app_nil_r| |done]. subst all. by apply holds_write.
    + constructor; simpl; [done| |done]. by apply (holds_write f disk []).
Qed.

Lemma append_spec bs fw disk all :
  appended fw disk all →
  reaches (append bs fw).2 disk (all ++ bs).
Proof using Type.
  intros [E D C]. destruct fw as [f w]. unfold append, mbind, op_bind, modify, read. simpl in *.
  set (w' := {| buffer := buffer w ++ bs; cursor := cursor w + zlen bs; len := len w |}).
  assert (H : appended (f, w') disk (all ++ bs)).
  { constructor; simpl; [by rewrite E, app_assoc|done|by rewrite C, zlen_app]. }
  case_match; [|by exists disk]. apply flush_spec in H.
  destruct (flush (f, w')) as [[]  fw']; [|by exists disk]. exists (all ++ bs). split; [|done].
  rewrite E, <- !app_assoc. by apply prefix_app_r.
Qed.

Lemma preallocate_spec fw disk all :
  appended fw disk all → appended (preallocate fw).2 disk all.
Proof using Type.
  intros [E D C]. destruct fw as [f w]. unfold preallocate. case_match; [done|].
  destruct (io_fallocate (len w)); [|done]. constructor; simpl; [done|by apply holds_allocate|done].
Qed.

Lemma persist_spec d fw disk all :
  appended fw disk all →
  match file_persist d fw with
  | (Ok at_, fw') => appended fw' all all ∧ at_ = zlen all
  | (Err _, fw') => reaches fw' disk all
  end.
Proof using Type.
  intros H. unfold file_persist, with_error, mbind, op_bind, read, lift. destruct fw as [f w].
  pose proof (preallocate_spec _ _ _ H) as Hp.
  set (b := saturating_sub (len w) (cursor w) <? PREALLOCATION_THRESHOLD).
  assert (H1 : ∀ r fw1, (if b then preallocate else mret tt) (f, w) = (r, fw1) → appended fw1 disk all).
  { intros r fw1. destruct b; [intros E; by rewrite E in Hp|]. by intros [= _ <-]. }
  destruct ((if b then preallocate else mret tt) (f, w)) as [[[]|e] fw1]; specialize (H1 _ _ eq_refl);
    [|by exists disk].
  pose proof (flush_spec _ _ _ H1) as H2.
  destruct (flush fw1) as [[[]|e] [f2 w2]]; cbn [map_err]; [|by exists disk].
  pose proof (ap_cursor _ _ _ H2) as Hc. simpl in Hc.
  destruct (requires_sync d); [destruct (io_sync_data (cursor w2)); cbn [map_err]|]; try by split.
  exists all. split; [|done]. rewrite (ap_all _ _ _ H). by apply prefix_app_r.
Qed.

Lemma finalize_spec fw disk all :
  appended fw disk all →
  match file_finalize fw with
  | (Ok _, fw') => appended fw' all all
  | (Err _, fw') => reaches fw' disk all
  end.
Proof using Type.
  intros H. unfold file_finalize, with_error, mbind, op_bind, read, lift, modify.
  pose proof (flush_spec _ _ _ H) as H2.
  destruct (flush fw) as [[[]|e] [f2 w2]]; cbn [map_err]; [|by exists disk].
  assert (Hp : disk `prefix_of` all) by (rewrite (ap_all _ _ _ H); by apply prefix_app_r).
  pose proof H2 as [E2 D2 C2]. simpl in *.
  destruct (io_set_len (cursor w2)); cbn [map_err]; [|by exists all].
  assert (Hh : holds (file_set_len f2 (cursor w2)) all) by (apply holds_set_len; [lia|done]).
  destruct (io_sync_all (cursor w2)); cbn [map_err]; [|exists all; split; [done|by constructor]].
  by constructor.
Qed.

End append.
