(* ===== verification/LedgerIndex.v ===== *)
(** * The ledger index ([ledger/src/index.rs])

    One keyspace of the Fjall database per superblock, with namespaced keys for transactions,
    blocks and accounts. The keyspace is a parameter with the laws of an ordered map of byte
    strings; its calls may fail. *)

From stdpp Require Import base list gmap numbers option sorting.
From S2P Require Import Prelude LedgerFile Records.

Local Open Scope Z_scope.

(** ** Fjall keyspaces *)

Class Fjall (Ks : Type) := {
  ks_new : Ks;
  ks_get : Ks → list Z → result ErrorCode (option (list Z));
  ks_commit : Ks → list (list Z * list Z) → result ErrorCode Ks;
  ks_persist : Ks → result ErrorCode unit;
  ks_rotate_memtable : Ks → result ErrorCode unit;
  ks_delete : Ks → result ErrorCode unit;
  (** The keys with a prefix, below a suffix when there is one, from the last to the first;
      every step of the iteration may fail. *)
  ks_rev_range : Ks → list Z → option (list Z) → list (result ErrorCode (list Z));
}.

Definition lex_lt (a b : list Z) : Prop := lex_leb b a = false.

(** The matching keys of a map, in descending order. *)
Record matches (m : gmap (list Z) (list Z)) (p : list Z) (upper : option (list Z)) (l : list (list Z)) : Prop := {
  ma_sorted : StronglySorted (λ a b, lex_lt b a) l;
  ma_keys k : k ∈ l ↔ is_Some (m !! k) ∧ p `prefix_of` k ∧
                match upper with Some u => lex_lt k (p ++ u) | None => True end;
}.

(** An iteration yields the keys it should, up to a first error. *)
Definition yields (r : list (result ErrorCode (list Z))) (l : list (list Z)) : Prop :=
  r = Ok <$> l ∨ ∃ l1 l2 e r', l = l1 ++ l2 ∧ r = (Ok <$> l1) ++ Err e :: r'.

Class FjallLaws (Ks : Type) `{!Fjall Ks} := {
  ks_data : Ks → gmap (list Z) (list Z);
  ks_new_data : ks_data ks_new = ∅;
  ks_get_data ks k o : ks_get ks k = Ok o → o = ks_data ks !! k;
  ks_commit_data ks batch ks' :
    ks_commit ks batch = Ok ks' → ks_data ks' = foldl (λ m '(k, v), <[k:=v]> m) (ks_data ks) batch;
  ks_rev_range_data ks p upper :
    ∃ l, matches (ks_data ks) p upper l ∧ yields (ks_rev_range ks p upper) l;
}.

(** ** Keys and values *)

Definition TRANSACTION : Z := 116.
Definition BLOCK : Z := 98.
Definition ACCOUNT : Z := 97.
Definition ACCOUNT_BYTES : nat := 8.
Definition SPAN_BYTES : nat := 8.
Definition TX_SPAN_BYTES : nat := 16.
Definition ACCOUNT_PREFIX_BYTES : nat := 9.

Definition be_bytes (n : nat) (x : Z) : list Z := reverse (le_bytes n x).
Definition be_num (bs : list Z) : Z := le_num (reverse bs).

Definition value_bytes (s : Span) : list Z := le_bytes SPAN_BYTES s.
Definition key_bytes (s : Span) : list Z := be_bytes SPAN_BYTES s.

(** [fixed::<N>]: exactly [n] bytes. *)
Definition fixed (n : nat) (bs : list Z) : result LedgerError (list Z) :=
  if decide (length bs = n) then Ok bs else Err Corruption.

Definition from_value (bs : list Z) : result LedgerError Span :=
  v ← fixed SPAN_BYTES bs; Ok (le_num v).
Definition from_key (bs : list Z) : result LedgerError Span :=
  v ← fixed SPAN_BYTES bs; Ok (be_num v).

Definition transaction_key (s : Signature) : list Z := TRANSACTION :: signature_prefix s.
Definition block_key (slot : Z) : list Z := BLOCK :: be_bytes 8 slot.
Definition account_prefix (key : list Z) : list Z := ACCOUNT :: take ACCOUNT_BYTES key.
Definition account_key (prefix : list Z) (span : Span) : list Z := prefix ++ key_bytes span.

Record TxSpan := { tx_blockstore : Span; tx_execution : Span }.

(** ** Reading *)

Section index.
Context {Ks : Type} `{!Fjall Ks}.

Definition index_transaction (ks : Ks) (s : Signature) : result LedgerError (option TxSpan) :=
  found ← map_err Index (ks_get ks (transaction_key s));
  match found with
  | None => Ok None
  | Some value =>
      value ← fixed TX_SPAN_BYTES value;
      b ← from_value (take SPAN_BYTES value);
      e ← from_value (drop SPAN_BYTES value);
      Ok (Some {| tx_blockstore := b; tx_execution := e |})
  end.

Definition index_block (ks : Ks) (slot : Z) : result LedgerError (option Span) :=
  found ← map_err Index (ks_get ks (block_key slot));
  match found with
  | None => Ok None
  | Some value => s ← from_value value; Ok (Some s)
  end.

(** [AccountIter::next] on every key of the reverse iteration. *)
Definition account_span (r : result ErrorCode (list Z)) : result LedgerError Span :=
  key ← map_err Index r;
  if decide (ACCOUNT_PREFIX_BYTES ≤ length key)%nat then from_key (drop ACCOUNT_PREFIX_BYTES key)
  else Err Corruption.

Definition index_accounts (ks : Ks) (pubkey : list Z) (before : option Span)
    : list (result LedgerError Span) :=
  account_span <$> ks_rev_range ks (account_prefix pubkey) (key_bytes <$> before).

(** ** Writing: a batch for the keyspace of one superblock *)

Record IndexWriter := { batch : list (list Z * list Z); keyspace : Z }.

Definition writer_new (id : Z) : IndexWriter := {| batch := []; keyspace := id |}.
Definition batch_insert (w : IndexWriter) (k v : list Z) : IndexWriter :=
  {| batch := batch w ++ [(k, v)]; keyspace := keyspace w |}.

Definition insert_block (w : IndexWriter) (slot : Z) (span : Span) : IndexWriter :=
  batch_insert w (block_key slot) (value_bytes span).
Definition insert_transaction (w : IndexWriter) (s : Signature) (span : TxSpan) : IndexWriter :=
  batch_insert w (transaction_key s) (value_bytes (tx_blockstore span) ++ value_bytes (tx_execution span)).
Definition insert_accounts (w : IndexWriter) (accounts : list (list Z)) (span : Span) : IndexWriter :=
  foldl (λ w a, batch_insert w (account_key a span) []) w accounts.

(** [IndexWriter::persist] on the keyspace: the batch is gone whether it could be committed
    or not. *)
Definition index_persist (ks : Ks) (w : IndexWriter) (d : Durability) : result LedgerError Ks * IndexWriter :=
  let w' := writer_new (keyspace w) in
  if bool_decide (batch w = []) then
    if requires_sync d then (_ ← map_err Index (ks_persist ks); Ok ks, w') else (Ok ks, w')
  else (map_err Index (ks_commit ks (batch w)), w').

End index.
