(* ===== verification/Ledger.v ===== *)
(** * The ledger and its writers ([ledger/src/lib.rs], [appender.rs], [indexer.rs])

    Superblock directories with their metadata, two data files and an index keyspace; the
    appender, which owns the files of the active superblock; and the indexer, which follows it
    through an ordered queue. A fence is the appender waiting for the indexer to work the
    queue off. *)

From stdpp Require Import base list gmap numbers option.
From S2P Require Import Prelude Effects Memory Records LedgerFile LedgerIndex.

Local Open Scope Z_scope.

(** ** Codecs

    Wincode writes an encoding in fragments and may fail after some of them; bitcode encodes
    the details, zstd compresses them. *)

Class LedgerCodec := {
  entry_fragments : BlockstoreEntry → list (list Z) * result ErrorCode unit;
  decode_entry : list Z → result ErrorCode (BlockstoreEntry * list Z);
  header_fragments : ExecutionHeader → list (list Z) * result ErrorCode unit;
  decode_header : list Z → result ErrorCode ExecutionHeader;
  header_size : ExecutionHeader → result ErrorCode Z;
  bitcode_encode : option ExecutionDetails → list Z;
  bitcode_decode : list Z → result ErrorCode (option ExecutionDetails);
  zstd_compress : list Z → result ErrorCode (list Z);
  zstd_decompress : list Z → Z → result ErrorCode (list Z);
}.

Definition MAX_EXECUTION_DETAILS_SIZE : Z := 4 * (1024 * 1024).

(** ** State *)

Record Superblock (Ks : Type) := {
  meta : SuperblockMeta;
  blockstore : File;
  executions : File;
  index : Ks;
}.
Arguments Build_Superblock {Ks} _ _ _ _.
Arguments meta {Ks} _.
Arguments blockstore {Ks} _.
Arguments executions {Ks} _.
Arguments index {Ks} _.

Inductive IndexMessage :=
| MsgTransaction (s : Signature) (accounts : list (list Z)) (span : TxSpan)
| MsgBlock (slot : Z) (span : Span)
| MsgFence (next : option Z).

(** The directories on disk and the ids of the retained ones; the appender with its files,
    the transactions that wait for their execution and the count not yet published; the queue
    to the indexer and its writer; the cleanup job; the positions broadcast so far. *)
Record Ledger (Ks : Type) := {
  l_meta : LedgerMeta;
  disk : gmap Z (Superblock Ks);
  retained : gset Z;
  size_limit : Z;
  active : Z;
  w_blockstore : AppendFile;
  w_executions : AppendFile;
  pending : gmap Signature Span;
  unpublished : Z;
  queue : list IndexMessage;
  writer : IndexWriter;
  indexer_running : bool;
  truncation : option Z;
  positions : list BlockstorePosition;
}.
Arguments l_meta {Ks} _.
Arguments disk {Ks} _.
Arguments retained {Ks} _.
Arguments size_limit {Ks} _.
Arguments active {Ks} _.
Arguments w_blockstore {Ks} _.
Arguments w_executions {Ks} _.
Arguments pending {Ks} _.
Arguments unpublished {Ks} _.
Arguments queue {Ks} _.
Arguments writer {Ks} _.
Arguments indexer_running {Ks} _.
Arguments truncation {Ks} _.
Arguments positions {Ks} _.

Inductive Event :=
| EvTransaction (s : Signature) (payload : list Z)
| EvExecution (x : Execution) (accounts : list (list Z))
| EvBlock (b : Signed Block)
| EvSuperblock (s : Signed SuperblockSeal)
| EvReset (r : Signed Reset)
| EvCheckpoint (c : Signed Z)
| EvSync.

(** [AccountIndex::new]. *)
Definition account_index (keys : list (list Z)) : list (list Z) := account_prefix <$> keys.

Section ledger.
Context {Ks : Type} `{!Fjall Ks} `{!LedgerIo} `{!LedgerCodec}.

Abbreviation L := (Ledger Ks).
Abbreviation Do := (Eff LedgerError L).

Definition empty_superblock : Superblock Ks :=
  Build_Superblock default_superblock_meta empty_file empty_file ks_new.

(** *** Field updates *)

Definition with_meta (s : L) (m : LedgerMeta) : L :=
  {| l_meta := m; disk := disk s; retained := retained s; size_limit := size_limit s;
     active := active s; w_blockstore := w_blockstore s; w_executions := w_executions s;
     pending := pending s; unpublished := unpublished s; queue := queue s; writer := writer s;
     indexer_running := indexer_running s; truncation := truncation s; positions := positions s |}.
Definition with_disk (s : L) (d : gmap Z (Superblock Ks)) : L :=
  {| l_meta := l_meta s; disk := d; retained := retained s; size_limit := size_limit s;
     active := active s; w_blockstore := w_blockstore s; w_executions := w_executions s;
     pending := pending s; unpublished := unpublished s; queue := queue s; writer := writer s;
     indexer_running := indexer_running s; truncation := truncation s; positions := positions s |}.
Definition with_retained (s : L) (r : gset Z) (t : option Z) : L :=
  {| l_meta := l_meta s; disk := disk s; retained := r; size_limit := size_limit s;
     active := active s; w_blockstore := w_blockstore s; w_executions := w_executions s;
     pending := pending s; unpublished := unpublished s; queue := queue s; writer := writer s;
     indexer_running := indexer_running s; truncation := t; positions := positions s |}.
Definition with_files (s : L) (id : Z) (b e : AppendFile) : L :=
  {| l_meta := l_meta s; disk := disk s; retained := retained s; size_limit := size_limit s;
     active := id; w_blockstore := b; w_executions := e;
     pending := pending s; unpublished := unpublished s; queue := queue s; writer := writer s;
     indexer_running := indexer_running s; truncation := truncation s; positions := positions s |}.
Definition with_pending (s : L) (p : gmap Signature Span) (n : Z) : L :=
  {| l_meta := l_meta s; disk := disk s; retained := retained s; size_limit := size_limit s;
     active := active s; w_blockstore := w_blockstore s; w_executions := w_executions s;
     pending := p; unpublished := n; queue := queue s; writer := writer s;
     indexer_running := indexer_running s; truncation := truncation s; positions := positions s |}.
Definition with_indexer (s : L) (q : list IndexMessage) (w : IndexWriter) (running : bool) : L :=
  {| l_meta := l_meta s; disk := disk s; retained := retained s; size_limit := size_limit s;
     active := active s; w_blockstore := w_blockstore s; w_executions := w_executions s;
     pending := pending s; unpublished := unpublished s; queue := q; writer := w;
     indexer_running := running; truncation := truncation s; positions := positions s |}.
Definition with_position (s : L) (p : BlockstorePosition) : L :=
  {| l_meta := l_meta s; disk := disk s; retained := retained s; size_limit := size_limit s;
     active := active s; w_blockstore := w_blockstore s; w_executions := w_executions s;
     pending := pending s; unpublished := unpublished s; queue := queue s; writer := writer s;
     indexer_running := indexer_running s; truncation := truncation s;
     positions := positions s ++ [p] |}.

Definition directory (s : L) (id : Z) : Superblock Ks := default empty_superblock (disk s !! id).
Definition with_directory (s : L) (id : Z) (sb : Superblock Ks) : L :=
  with_disk s (<[id := sb]> (disk s)).

Definition set_meta (sb : Superblock Ks) (m : SuperblockMeta) : Superblock Ks :=
  Build_Superblock m (blockstore sb) (executions sb) (index sb).
Definition set_index (sb : Superblock Ks) (ks : Ks) : Superblock Ks :=
  Build_Superblock (meta sb) (blockstore sb) (executions sb) ks.

(** The files of the active superblock. *)
Definition on_blockstore {E A} (p : Eff E Writing A) : Eff E L A := λ s,
  let sb := directory s (active s) in
  let '(r, (f, w)) := p (blockstore sb, w_blockstore s) in
  (r, with_files (with_directory s (active s) (Build_Superblock (meta sb) f (executions sb) (index sb)))
        (active s) w (w_executions s)).
Definition on_executions {E A} (p : Eff E Writing A) : Eff E L A := λ s,
  let sb := directory s (active s) in
  let '(r, (f, w)) := p (executions sb, w_executions s) in
  (r, with_files (with_directory s (active s) (Build_Superblock (meta sb) (blockstore sb) f (index sb)))
        (active s) (w_blockstore s) w).

(** ** The indexer *)

Definition commit_batch (d : Durability) (w : IndexWriter) (s : L) : result LedgerError unit * L :=
  let id := keyspace w in
  let '(r, w) := index_persist (index (directory s id)) w d in
  match r with
  | Ok ks => (Ok tt, with_indexer (with_directory s id (set_index (directory s id) ks)) (queue s) w true)
  | Err e => (Err e, with_indexer s (queue s) w false)
  end.

(** The body of [LedgerIndexer::run] for one message; an error ends the worker. *)
Definition index_message (m : IndexMessage) : Do unit := λ s,
  let w := writer s in
  match m with
  | MsgTransaction sig accounts span =>
      let w := insert_accounts (insert_transaction w sig span) accounts (tx_execution span) in
      (Ok tt, with_indexer s (queue s) w true)
  | MsgBlock slot span => commit_batch Buffer (insert_block w slot span) s
  | MsgFence (Some next) =>
      match ks_rotate_memtable (index (directory s (keyspace w))) with
      | Err e => (Err (Index e), with_indexer s (queue s) w false)
      | Ok _ => (Ok tt, with_indexer s (queue s) (writer_new next) true)
      end
  | MsgFence None => commit_batch SyncData w s
  end.

(** One message of the queue. *)
Definition index_step (s : L) : L :=
  if indexer_running s then
    match queue s with
    | [] => s
    | m :: q => (index_message m (with_indexer s q (writer s) true)).2
    end
  else s.

(** [IndexerHandle::send] and [fence]. *)
Definition send (m : IndexMessage) : Do unit := λ s,
  if indexer_running s then (Ok tt, with_indexer s (queue s ++ [m]) (writer s) true)
  else (Err IndexerClosed, s).

Definition fence (next : option Z) : Do unit :=
  _ ← send (MsgFence next);
  _ ← modify (λ s, Nat.iter (length (queue s)) index_step s);
  running ← read indexer_running;
  if running : bool then mret tt else fail IndexerFenceClosed.

(** ** Writing the files of the active superblock *)

Fixpoint append_all (fragments : list (list Z)) : Eff ErrorCode Writing unit :=
  match fragments with
  | [] => mret tt
  | f :: fs => _ ← append f; append_all fs
  end.

(** [wincode::serialize_into] an append file. *)
Definition serialize_into (enc : list (list Z) * result ErrorCode unit) : Eff ErrorCode Writing unit :=
  _ ← append_all enc.1; lift enc.2.

Definition write_blockstore (e : BlockstoreEntry) : Do Span :=
  offset ← read (λ s, cursor (w_blockstore s));
  _ ← on_blockstore (with_error Wincode (serialize_into (entry_fragments e)));
  at_ ← read (λ s, cursor (w_blockstore s));
  mret (span_new offset (at_ - offset)).

(** [AppendFile::compress]. *)
Definition compress (bs : list Z) : Eff ErrorCode Writing unit :=
  out ← lift (zstd_compress bs); append out.

(** The details as they are stored: omitted when too large. *)
Definition stored_details (x : Execution) : list Z :=
  let d := bitcode_encode (details x) in
  if MAX_EXECUTION_DETAILS_SIZE <? zlen d then bitcode_encode None else d.

Definition writer_write_execution (x : Execution) : Do Span :=
  offset ← read (λ s, cursor (w_executions s));
  _ ← on_executions (with_error Wincode (serialize_into (header_fragments (header x))));
  _ ← on_executions (with_error IO (compress (stored_details x)));
  at_ ← read (λ s, cursor (w_executions s));
  mret (span_new offset (at_ - offset)).

Definition writer_persist (d : Durability) : Do (Z * Z) :=
  b ← on_blockstore (file_persist d);
  e ← on_executions (file_persist d);
  mret (b, e).

Definition with_range (m : SuperblockMeta) (b e : Z) (slot : option Z) : SuperblockMeta :=
  {| version := version m; cursor_blockstore := b; cursor_executions := e;
     sb_range := match slot with
       | None => sb_range m
       | Some n => {| start := if start (sb_range m) =? 0 then n else start (sb_range m); end_ := n |} end;
     sb_checksum := sb_checksum m; sb_transactions := sb_transactions m; sb_signature := sb_signature m |}.

Definition writer_publish (cursors : Z * Z) (slot : option Z) (d : Durability) : Do unit :=
  _ ← modify (λ s,
        let sb := directory s (active s) in
        with_directory s (active s) (set_meta sb (with_range (meta sb) cursors.1 cursors.2 slot)));
  lift (map_err IO (io_flush_meta cursors.1)).

Definition writer_finalize : Do unit :=
  _ ← on_blockstore file_finalize; on_executions file_finalize.

(** ** The ledger: opening, retention *)

(** [Superblock::open_meta], [Superblock::open]: the directory, created when missing. *)
Definition open_meta (id : Z) : Do (Superblock Ks) :=
  _ ← lift (map_err IO (io_open id));
  sb ← read (λ s, directory s id);
  _ ← ensure (version (meta sb) =? VERSION) (UnsupportedVersion (version (meta sb)));
  mret sb.

Definition size_exceeded (s : L) : result LedgerError bool :=
  '(blocks, free, frsize) ← map_err FS (io_statvfs (cursor (w_blockstore s)));
  Ok (size_limit s <=? saturating_sub (blocks * frsize) (free * frsize)).

(** The smallest id, [first_key_value] of the tree. *)
Definition first_id (r : gset Z) : option Z :=
  match elements r with [] => None | x :: xs => Some (foldr Z.min x xs) end.

Definition ledger_truncate : Do (option Z) := λ s,
  match first_id (retained s) with
  | None => (Ok None, s)
  | Some id =>
      if head (l_meta s) <=? id then (Ok None, s)
      else
        let m := l_meta s in
        let end_slot := end_ (sb_range (meta (directory s id))) in
        let s := with_retained s (retained s ∖ {[id]}) (truncation s) in
        let s := with_meta s {| transactions := transactions m; superblocks := superblocks m - 1;
                                head := head m; range := {| start := end_slot + 1; end_ := end_ (range m) |};
                                blocks := blocks m |} in
        (_ ← map_err IO (io_flush_meta id); Ok (Some id), s)
  end.

(** ** The appender *)

Definition publish (slot : option Z) (d : Durability) : Do unit :=
  cursors ← writer_persist d;
  _ ← writer_publish cursors slot d;
  _ ← modify (λ s,
        let m := l_meta s in
        with_meta s {| transactions := transactions m + unpublished s; superblocks := superblocks m;
                       head := head m;
                       range := match slot with
                                | Some n => {| start := start (range m); end_ := n |}
                                | None => range m end;
                       blocks := match slot with Some _ => blocks m + 1 | None => blocks m end |});
  _ ← lift (map_err IO (io_flush_meta cursors.1));
  _ ← modify (λ s, with_pending s (pending s) 0);
  modify (λ s, with_position s {| position_superblock := head (l_meta s); position_offset := cursors.1 |}).

Definition sync : Do unit := _ ← publish None SyncData; fence None.

(** The cleanup worker: it deletes the keyspace, then the directory. *)
Definition join_truncation : Do unit := λ s,
  match truncation s with
  | None => (Ok tt, s)
  | Some id =>
      let s := with_retained s (retained s) None in
      match ks_delete (index (directory s id)) with
      | Err e => (Err (Index e), s)
      | Ok _ => (Ok tt, with_disk s (delete id (disk s)))
      end
  end.

Definition truncate : Do unit :=
  _ ← join_truncation;
  id ← ledger_truncate;
  modify (λ s, with_retained s (retained s) id).

Definition rotate (seal : Signed SuperblockSeal) : Do unit :=
  let head_ := seal_id (payload seal) + 1 in
  sb ← open_meta head_;
  let m := meta sb in
  let sb := set_meta sb {| version := version m; cursor_blockstore := cursor_blockstore m;
    cursor_executions := cursor_executions m; sb_range := sb_range m;
    sb_checksum := seal_checksum (payload seal); sb_transactions := seal_transactions (payload seal);
    sb_signature := signature seal |} in
  _ ← modify (λ s, with_directory s head_ sb);
  _ ← lift (map_err IO (io_flush_meta head_));
  _ ← modify (λ s,
        let m := l_meta s in
        let s := with_retained s (retained s ∪ {[head_]}) (truncation s) in
        with_meta s {| transactions := transactions m; superblocks := superblocks m + 1; head := head_;
                       range := range m; blocks := blocks m |});
  _ ← lift (map_err IO (io_flush_meta head_));
  _ ← modify (λ s, with_files s head_ (append_file_new (blockstore sb) (cursor_blockstore m))
                     (append_file_new (executions sb) (cursor_executions m)));
  _ ← fence (Some head_);
  modify (λ s, with_position s {| position_superblock := head_; position_offset := 0 |}).

Definition seal (x : Signed SuperblockSeal) : Do unit :=
  _ ← write_blockstore (ESuperblock x);
  _ ← sync;
  _ ← writer_finalize;
  _ ← modify (λ s, let m := l_meta s in
        with_meta s {| transactions := seal_transactions (payload x); superblocks := superblocks m;
                       head := head m; range := range m; blocks := blocks m |});
  rotate x.

Definition write_transaction (sig : Signature) (bs : list Z) : Do unit :=
  span ← write_blockstore (ETransaction bs);
  modify (λ s, with_pending s (<[sig := span]> (pending s)) (unpublished s + 1)).

Definition write_execution (x : Execution) (accounts : list (list Z)) : Do unit :=
  let sig := header_signature (header x) in
  found ← read (λ s, pending s !! sig);
  match found with
  | None => mret tt
  | Some b =>
      _ ← modify (λ s, with_pending s (delete sig (pending s)) (unpublished s));
      e ← writer_write_execution x;
      send (MsgTransaction sig accounts {| tx_blockstore := b; tx_execution := e |})
  end.

Definition SIZE_CHECK_FREQUENCY : Z := 512.

Definition write_block (b : Signed Block) : Do unit :=
  let slot := block_slot (payload b) in
  span ← write_blockstore (EBlock b);
  _ ← publish (Some slot) Buffer;
  _ ← send (MsgBlock slot span);
  if slot mod SIZE_CHECK_FREQUENCY =? 0 then
    exceeded ← (λ s, (size_exceeded s, s) : result LedgerError bool * L);
    if exceeded : bool then _ ← sync; truncate else mret tt
  else mret tt.

Definition write_checkpoint (c : Signed Z) : Do unit :=
  _ ← write_blockstore (ECheckpoint c); publish None Buffer.

Definition write_reset (r : Signed Reset) : Do unit :=
  _ ← write_blockstore (EReset r); sync.

(** The body of [LedgerAppender::run] for one event. *)
Definition handle (ev : Event) : Do unit :=
  match ev with
  | EvTransaction sig bs => write_transaction sig bs
  | EvExecution x accounts => write_execution x accounts
  | EvBlock b => write_block b
  | EvSuperblock x => seal x
  | EvReset r => write_reset r
  | EvCheckpoint c => write_checkpoint c
  | EvSync => sync
  end.

(** A new ledger, and the services on an existing one: what was buffered, queued or batched by
    the previous services is gone. *)
Definition ledger_new (limit : Z) : L :=
  {| l_meta := default_ledger_meta; disk := {[ 1 := empty_superblock ]}; retained := {[ 1 ]};
     size_limit := limit; active := 1; w_blockstore := append_file_new empty_file 0;
     w_executions := append_file_new empty_file 0; pending := ∅; unpublished := 0; queue := [];
     writer := writer_new 1; indexer_running := true; truncation := None; positions := [] |}.

Definition reopen (s : L) : L :=
  let id := head (l_meta s) in
  let sb := directory s id in
  {| l_meta := l_meta s; disk := disk s;
     retained := list_to_set (seqZ (retained_ids (l_meta s)).1
                                   ((retained_ids (l_meta s)).2 - (retained_ids (l_meta s)).1));
     size_limit := size_limit s; active := id;
     w_blockstore := append_file_new (blockstore sb) (cursor_blockstore (meta sb));
     w_executions := append_file_new (executions sb) (cursor_executions (meta sb));
     pending := ∅; unpublished := 0; queue := []; writer := writer_new id; indexer_running := true;
     truncation := None; positions := [] |}.

(** ** Reading the ledger's state *)

Definition superblock_iter (s : L) : list Z :=
  filter (λ id, id ∈ retained s)
    (reverse (seqZ (retained_ids (l_meta s)).1 ((retained_ids (l_meta s)).2 - (retained_ids (l_meta s)).1))).

(** [superblock.checked_add(1)], then up to the head. *)
Definition iter_after (s : L) (id : Z) : list Z :=
  match checked_add 64 id 1 with
  | None => []
  | Some from => filter (λ id, id ∈ retained s) (seqZ from (head (l_meta s) + 1 - from))
  end.

Definition retained_range (s : L) : option (Z * Z) :=
  first ← first_id (retained s);
  let lo := start (sb_range (meta (directory s first))) in
  let hi := end_ (range (l_meta s)) in
  if negb (lo =? 0) && (lo <=? hi) then Some (lo, hi) else None.

Definition tip (s : L) : option Z :=
  match superblock_iter s with
  | [] => None
  | id :: ids =>
      Some (foldr Z.max (end_ (sb_range (meta (directory s id))))
              ((λ id, end_ (sb_range (meta (directory s id)))) <$> ids))
  end.

Definition ledger_cursor (s : L) (id : Z) : option Z :=
  let '(lo, hi) := retained_ids (l_meta s) in
  if (lo <=? id) && (id <? hi) && bool_decide (id ∈ retained s)
  then Some (cursor_blockstore (meta (directory s id))) else None.

Definition ledger_position (s : L) : BlockstorePosition :=
  {| position_superblock := head (l_meta s);
     position_offset := default 0 (ledger_cursor s (head (l_meta s))) |}.

(** [Superblock::seal]: the seal that opened a superblock. *)
Definition opening_seal (id : Z) (sb : Superblock Ks) : Signed SuperblockSeal :=
  {| payload := {| seal_id := saturating_sub id 1; seal_checksum := sb_checksum (meta sb);
                   seal_transactions := sb_transactions (meta sb) |};
     signature := sb_signature (meta sb) |}.

End ledger.
