(* ===== verification/LedgerReader.v ===== *)
(** * Reading the ledger ([ledger/src/reader.rs], [request.rs])

    Lookups by signature, slot and account, and the scans of the blockstore stream. A request
    may be cancelled and a receiver may go away: both are predicates on how far the reader got. *)

From stdpp Require Import base list gmap numbers option.
From S2P Require Import Prelude Memory Records TxBytes TxFrame TxView LedgerFile LedgerIndex Ledger.

Local Open Scope Z_scope.

Record TransactionResponse := { transaction : list Z; execution : Execution }.
Record TransactionStatus := { status_result : result Z unit; status_slot : Z }.
Record AccountSignature := {
  as_signature : Signature; as_slot : Z; as_result : result Z unit; as_blocktime : Z;
}.
Record BlockHistoryEntry := { history_block : Block; history_signatures : list (list Z) }.

Inductive BlockDetails := Full | Transactions | Signatures | NoDetails.
Inductive BlockResponse :=
| Bare (b : Block)
| WithSignatures (b : Block) (l : list Signature)
| WithTransactions (b : Block) (l : list (list Z))
| FullBlock (b : Block) (l : list TransactionResponse).

Record IndexedTransaction := { it_transaction : list Z; it_signature : Signature; it_execution : Span }.

Section reader.
Context {Ks : Type} `{FJ : !Fjall Ks} `{IO_ : !LedgerIo} `{CO : !LedgerCodec} `{WC : !WireConstants}.

Abbreviation L := (Ledger Ks).

(** ** Decoding at a span *)

(** [read_exact_at] into a buffer of the wanted size. *)
Definition read_exact_at (f : File) (offset n : Z) : result LedgerError (list Z) :=
  _ ← map_err IO (io_read offset n);
  ok_or (file_read f offset n) (IO UNEXPECTED_EOF).

Definition blockstore_entry (sb : Superblock Ks) (span : Span) : result LedgerError BlockstoreEntry :=
  bs ← read_exact_at (blockstore sb) (span_offset span) (span_size span);
  '(e, _) ← map_err Wincode (decode_entry bs);
  Ok e.

Definition transaction_entry (sb : Superblock Ks) (span : Span) : result LedgerError (list Z) :=
  e ← blockstore_entry sb span;
  match e with ETransaction bs => Ok bs | _ => Err Corruption end.

Definition read_header (sb : Superblock Ks) (span : Span) : result LedgerError ExecutionHeader :=
  bs ← read_exact_at (executions sb) (span_offset span) (span_size span);
  map_err Wincode (decode_header bs).

Definition read_execution (sb : Superblock Ks) (span : Span) : result LedgerError Execution :=
  bs ← read_exact_at (executions sb) (span_offset span) (span_size span);
  h ← map_err Wincode (decode_header bs);
  n ← map_err Wincode (header_size h);
  if zlen bs <? n then Err Panicked
  else
    plain ← map_err IO (zstd_decompress (drop (Z.to_nat n) bs) MAX_EXECUTION_DETAILS_SIZE);
    d ← map_err Bitcode (bitcode_decode plain);
    Ok {| header := h; details := d |}.

Definition block_entry (sb : Superblock Ks) (span : Span) : result LedgerError Block :=
  e ← blockstore_entry sb span;
  match e with EBlock b => Ok (payload b) | _ => Err Corruption end.

Definition blocktime (sb : Superblock Ks) (slot : Z) : result LedgerError Z :=
  found ← index_block (index sb) slot;
  match found with
  | None => Ok 0
  | Some span =>
      e ← blockstore_entry sb span;
      match e with EBlock b => Ok (block_time (payload b)) | _ => Ok 0 end
  end.

(** The first signature of a serialized transaction. *)
Definition transaction_signature (bs : list Z) : result LedgerError Signature :=
  let fault e := match e with Reject e => TransactionView e | Undefined => Panicked end in
  v ← map_err fault (try_new_unsanitized bs);
  l ← map_err fault (signatures v);
  match l with s :: _ => Ok s | [] => Err Panicked end.

(** ** Lookups by signature *)

(** The first retained superblock, newest first, for which [f] answers. *)
Fixpoint search {A} (cancelled : Z → bool) (f : Superblock Ks → result LedgerError (option A))
    (s : L) (ids : list Z) : result LedgerError (option A) :=
  match ids with
  | [] => Ok None
  | id :: ids =>
      if cancelled id then Ok None
      else
        r ← f (directory s id);
        match r with Some a => Ok (Some a) | None => search cancelled f s ids end
  end.

Definition read_transaction (cancelled : Z → bool) (sig : Signature) (s : L)
    : result LedgerError (option TransactionResponse) :=
  search cancelled (λ sb,
    found ← index_transaction (index sb) sig;
    match found with
    | None => Ok None
    | Some spans =>
        t ← transaction_entry sb (tx_blockstore spans);
        x ← read_execution sb (tx_execution spans);
        Ok (Some {| transaction := t; execution := x |})
    end) s (superblock_iter s).

Definition read_transaction_status (cancelled : Z → bool) (sig : Signature) (s : L)
    : result LedgerError (option TransactionStatus) :=
  search cancelled (λ sb,
    found ← index_transaction (index sb) sig;
    match found with
    | None => Ok None
    | Some spans =>
        h ← read_header sb (tx_execution spans);
        Ok (Some {| status_result := header_result h; status_slot := header_slot h |})
    end) s (superblock_iter s).

(** ** Blocks *)

(** The loop over the entries between two boundaries; [n] bounds the entries left. *)
Fixpoint block_body (n : nat) (cancelled : Z → bool) (ks : Ks) (bs : list Z)
    (acc : list IndexedTransaction) : result LedgerError (list IndexedTransaction) :=
  if bool_decide (bs = []) || cancelled (zlen bs) then Ok acc
  else
    match n with
    | O => Err Panicked
    | S n =>
        '(e, bs) ← map_err Wincode (decode_entry bs);
        match e with
        | ETransaction t =>
            sig ← transaction_signature t;
            found ← index_transaction ks sig;
            match found with
            | None => block_body n cancelled ks bs acc
            | Some spans =>
                block_body n cancelled ks bs
                  (acc ++ [{| it_transaction := t; it_signature := sig; it_execution := tx_execution spans |}])
            end
        | EReset _ | ECheckpoint _ => block_body n cancelled ks bs acc
        | EBlock _ | ESuperblock _ => Err Corruption
        end
    end.

Definition indexed_transactions (cancelled : Z → bool) (sb : Superblock Ks) (slot : Z) (span : Span)
    : result LedgerError (list IndexedTransaction) :=
  previous ← match checked_sub slot 1 with
             | Some p => index_block (index sb) p
             | None => Ok None end;
  let from := match previous with Some p => span_offset p + span_size p | None => 0 end in
  bs ← read_exact_at (blockstore sb) from (span_offset span - from);
  block_body (length bs) cancelled (index sb) bs [].

(** [collect] of the executions into a [Result]. *)
Fixpoint with_executions (sb : Superblock Ks) (l : list IndexedTransaction)
    : result LedgerError (list TransactionResponse) :=
  match l with
  | [] => Ok []
  | t :: l =>
      x ← read_execution sb (it_execution t);
      rest ← with_executions sb l;
      Ok ({| transaction := it_transaction t; execution := x |} :: rest)
  end.

Definition block_response (cancelled : Z → bool) (sb : Superblock Ks) (slot : Z) (d : BlockDetails)
    (span : Span) : result LedgerError BlockResponse :=
  b ← block_entry sb span;
  match d with
  | NoDetails => Ok (Bare b)
  | _ =>
      body ← indexed_transactions cancelled sb slot span;
      match d with
      | Full => l ← with_executions sb body; Ok (FullBlock b l)
      | Transactions => Ok (WithTransactions b (it_transaction <$> body))
      | Signatures => Ok (WithSignatures b (it_signature <$> body))
      | NoDetails => Ok (Bare b)
      end
  end.

(** The first superblock whose range covers the slot answers. *)
Fixpoint find_block (cancelled : Z → bool) (slot : Z) (s : L) (ids : list Z)
    : result LedgerError (option (Z * Span)) :=
  match ids with
  | [] => Ok None
  | id :: ids =>
      if cancelled id then Ok None
      else if negb (range_contains (sb_range (meta (directory s id))) slot)
      then find_block cancelled slot s ids
      else
        found ← index_block (index (directory s id)) slot;
        Ok (option_map (pair id) found)
  end.

Definition read_block (cancelled : Z → bool) (slot : Z) (d : BlockDetails) (s : L)
    : result LedgerError (option BlockResponse) :=
  if negb (range_contains (range (l_meta s)) slot) then Ok None
  else
    found ← find_block cancelled slot s (superblock_iter s);
    match found with
    | None => Ok None
    | Some (id, span) => r ← block_response cancelled (directory s id) slot d span; Ok (Some r)
    end.

(** ** Account history *)

(** What the loop over one superblock carries: the signatures so far and the block times. *)
Inductive Scan := Stopped (l : list AccountSignature) | Continued (l : list AccountSignature) (times : gmap Z Z).

Fixpoint scan_account (sb : Superblock Ks) (limit : nat) (until : option Signature)
    (spans : list (result LedgerError Span)) (acc : list AccountSignature) (times : gmap Z Z)
    : result LedgerError Scan :=
  match spans with
  | [] => Ok (Continued acc times)
  | r :: spans =>
      span ← r;
      h ← read_header sb span;
      if bool_decide (until = Some (header_signature h)) then Ok (Stopped acc)
      else
        '(t, times) ← match times !! header_slot h with
                      | Some t => Ok (t, times)
                      | None => t ← blocktime sb (header_slot h); Ok (t, <[header_slot h := t]> times)
                      end;
        let acc := acc ++ [{| as_signature := header_signature h; as_slot := header_slot h;
                              as_result := header_result h; as_blocktime := t |}] in
        if decide (limit ≤ length acc)%nat then Ok (Stopped acc)
        else scan_account sb limit until spans acc times
  end.

Fixpoint scan_superblocks (cancelled : Z → bool) (pubkey : list Z) (limit : nat)
    (until : option Signature) (s : L) (ids : list Z) (before : option Signature)
    (acc : list AccountSignature) (times : gmap Z Z) : result LedgerError (list AccountSignature) :=
  match ids with
  | [] => Ok acc
  | id :: ids =>
      if cancelled id then Ok acc
      else
        let sb := directory s id in
        cut ← match before with
              | None => Ok (Some None)
              | Some sig =>
                  found ← index_transaction (index sb) sig;
                  Ok (option_map (λ sp, Some (tx_execution sp)) found)
              end;
        match cut with
        | None => scan_superblocks cancelled pubkey limit until s ids before acc times
        | Some upper =>
            r ← scan_account sb limit until (index_accounts (index sb) pubkey upper) acc times;
            match r with
            | Stopped acc => Ok acc
            | Continued acc times => scan_superblocks cancelled pubkey limit until s ids None acc times
            end
        end
  end.

Definition account_signatures (cancelled : Z → bool) (pubkey : list Z) (limit : nat)
    (before until : option Signature) (s : L) : result LedgerError (list AccountSignature) :=
  if decide (limit = 0)%nat then Ok []
  else scan_superblocks cancelled pubkey limit until s (superblock_iter s) before [] ∅.

(** ** Scans of the stream *)

(** The bytes a superblock has published. *)
Definition published_bytes (sb : Superblock Ks) : list Z :=
  load (bytes (blockstore sb)) 0 (Z.to_nat (Z.min (cursor_blockstore (meta sb)) (size (blockstore sb)))).

(** [visit_blockstore]: a state passed through the visitor, which may stop the scan. *)
Fixpoint visit {A} (n : nat) (f : A → BlockstoreEntry → result LedgerError (A * bool)) (a : A)
    (bs : list Z) : result LedgerError (A * bool) :=
  if bool_decide (bs = []) then Ok (a, true)
  else
    match n with
    | O => Err Panicked
    | S n =>
        '(e, bs) ← map_err Wincode (decode_entry bs);
        '(a, go) ← f a e;
        if go : bool then visit n f a bs else Ok (a, false)
    end.

Definition visit_blockstore {A} (sb : Superblock Ks) (f : A → BlockstoreEntry → result LedgerError (A * bool))
    (a : A) : result LedgerError (A * bool) :=
  _ ← map_err IO (io_read 0 (cursor_blockstore (meta sb)));
  let bs := published_bytes sb in
  visit (length bs) f a bs.

(** [listening] says whether the receiver still takes an entry after the ones sent. *)
Fixpoint replay_superblocks (listening : list BlockstoreEntry → bool) (s : L) (ids : list Z)
    (sent : list BlockstoreEntry) : result LedgerError (list BlockstoreEntry) :=
  match ids with
  | [] => Ok sent
  | id :: ids =>
      '(sent, complete) ← visit_blockstore (directory s id)
        (λ sent e, Ok (if listening sent then (sent ++ [e], true) else (sent, false))) sent;
      if complete : bool then replay_superblocks listening s ids sent else Ok sent
  end.

Definition replay (listening : list BlockstoreEntry → bool) (after : Z) (s : L)
    : result LedgerError (list BlockstoreEntry) :=
  replay_superblocks listening s (iter_after s after) [].

(** The visitor of [blocks]: the prefixes of the open block and the blocks sent. *)
Definition history_visit (listening : list BlockHistoryEntry → bool) (lo hi : Z)
    (st : list (list Z) * list BlockHistoryEntry) (e : BlockstoreEntry)
    : result LedgerError (list (list Z) * list BlockHistoryEntry * bool) :=
  let '(sigs, sent) := st in
  if negb (listening sent) then Ok ((sigs, sent), false)
  else
    match e with
    | ETransaction t => s ← transaction_signature t; Ok ((sigs ++ [signature_prefix s], sent), true)
    | EBlock b =>
        let slot := block_slot (payload b) in
        if hi <=? slot then Ok ((sigs, sent), false)
        else if (lo <=? slot) && (slot <? hi)
        then Ok (([], sent ++ [{| history_block := payload b; history_signatures := sigs |}]), true)
        else Ok (([], sent), true)
    | ESuperblock _ | EReset _ | ECheckpoint _ => Ok ((sigs, sent), true)
    end.

Fixpoint history_superblocks (listening : list BlockHistoryEntry → bool) (lo hi : Z) (s : L)
    (ids : list Z) (sent : list BlockHistoryEntry) : result LedgerError (list BlockHistoryEntry) :=
  match ids with
  | [] => Ok sent
  | id :: ids =>
      if negb (listening sent) then Ok sent
      else
        let r := sb_range (meta (directory s id)) in
        if (hi <=? start r) || (end_ r <? lo) then history_superblocks listening lo hi s ids sent
        else
          '((_, sent), complete) ← visit_blockstore (directory s id) (history_visit listening lo hi) ([], sent);
          if complete : bool then history_superblocks listening lo hi s ids sent else Ok sent
  end.

(** Blocks of the half-open range, oldest superblock first. *)
Definition read_blocks (listening : list BlockHistoryEntry → bool) (lo hi : Z) (s : L)
    : result LedgerError (list BlockHistoryEntry) :=
  if hi <=? lo then Ok []
  else history_superblocks listening lo hi s (reverse (superblock_iter s)) [].

End reader.
