(* ===== verification/LedgerBook.v ===== *)
(** * The ledger as a book

    The abstract specification of the ledger's writers: per superblock the entries and
    execution records appended so far, how many of them are published, and the index items in
    the order they were sent, with how many are visible to readers. *)

From stdpp Require Import base list gmap numbers option.
From S2P Require Import Prelude Effects Memory Records TxFrame LedgerFile LedgerIndex Ledger LedgerReader.

Local Open Scope Z_scope.

(** ** Books *)

(** An index item names an entry by its number, and an execution record by its. *)
Inductive Item :=
| ItemTx (s : Signature) (accounts : list (list Z)) (entry record : nat)
| ItemBlock (slot : Z) (entry : nat).

Record Segment := {
  entries : list BlockstoreEntry;
  public : nat;
  records : list Execution;
  rec_public : nat;
  items : list Item;
  visible : nat;
}.

Record Book := {
  segments : gmap Z Segment;
  current : Z;
  open_ids : gset Z;
  waiting : gmap Signature nat;
  taken : nat;
  last_slot : Z;
}.

Definition empty_segment : Segment :=
  {| entries := []; public := 0; records := []; rec_public := 0; items := []; visible := 0 |}.
Definition book_new : Book :=
  {| segments := {[ 1 := empty_segment ]}; current := 1; open_ids := {[ 1 ]}; waiting := ∅;
     taken := 0; last_slot := 0 |}.

Definition segment (b : Book) (id : Z) : Segment := default empty_segment (segments b !! id).
Definition active_segment (b : Book) : Segment := segment b (current b).

Definition with_segment (b : Book) (g : Segment) : Book :=
  {| segments := <[current b := g]> (segments b); current := current b; open_ids := open_ids b;
     waiting := waiting b; taken := taken b; last_slot := last_slot b |}.
Definition with_waiting (b : Book) (w : gmap Signature nat) : Book :=
  {| segments := segments b; current := current b; open_ids := open_ids b;
     waiting := w; taken := taken b; last_slot := last_slot b |}.
Definition with_taken (b : Book) (n : nat) : Book :=
  {| segments := segments b; current := current b; open_ids := open_ids b;
     waiting := waiting b; taken := n; last_slot := last_slot b |}.
Definition with_slot (b : Book) (n : Z) : Book :=
  {| segments := segments b; current := current b; open_ids := open_ids b;
     waiting := waiting b; taken := taken b; last_slot := n |}.

Lemma active_with_segment b g : active_segment (with_segment b g) = g.
Proof. unfold active_segment, segment. simpl. by rewrite lookup_insert_eq. Qed.

(** ** Steps of the book *)

Definition seg_entry (g : Segment) (e : BlockstoreEntry) : Segment :=
  {| entries := entries g ++ [e]; public := public g; records := records g;
     rec_public := rec_public g; items := items g; visible := visible g |}.
Definition seg_record (g : Segment) (x : Execution) : Segment :=
  {| entries := entries g; public := public g; records := records g ++ [x];
     rec_public := rec_public g; items := items g; visible := visible g |}.
Definition seg_item (g : Segment) (i : Item) : Segment :=
  {| entries := entries g; public := public g; records := records g;
     rec_public := rec_public g; items := items g ++ [i]; visible := visible g |}.
Definition seg_publish (g : Segment) : Segment :=
  {| entries := entries g; public := length (entries g); records := records g;
     rec_public := length (records g); items := items g; visible := visible g |}.
Definition seg_show (g : Segment) (n : nat) : Segment :=
  {| entries := entries g; public := public g; records := records g;
     rec_public := rec_public g; items := items g; visible := n |}.

Definition book_entry (b : Book) (e : BlockstoreEntry) : Book :=
  with_segment b (seg_entry (active_segment b) e).
Definition book_publish (b : Book) : Book := with_segment b (seg_publish (active_segment b)).
Definition book_item (b : Book) (i : Item) : Book := with_segment b (seg_item (active_segment b) i).

(** The indexer takes one item; at a block it makes everything taken visible. *)
Definition book_index (b : Book) : Book :=
  match items (active_segment b) !! taken b with
  | None => b
  | Some (ItemTx _ _ _ _) => with_taken b (S (taken b))
  | Some (ItemBlock _ _) =>
      with_taken (with_segment b (seg_show (active_segment b) (S (taken b)))) (S (taken b))
  end.

(** A fence: everything sent is visible. *)
Definition book_fence (b : Book) : Book :=
  let n := length (items (active_segment b)) in
  with_taken (with_segment b (seg_show (active_segment b) n)) n.

Definition book_sync (b : Book) : Book := book_fence (book_publish b).

Definition book_rotate (b : Book) : Book :=
  {| segments := <[current b + 1 := empty_segment]> (segments b); current := current b + 1;
     open_ids := open_ids b ∪ {[ current b + 1 ]}; waiting := waiting b; taken := 0;
     last_slot := last_slot b |}.

(** Retention drops the oldest superblock but the current one. *)
Definition book_truncate (b : Book) : Book :=
  match first_id (open_ids b) with
  | Some id =>
      if current b <=? id then b
      else {| segments := segments b; current := current b; open_ids := open_ids b ∖ {[id]};
              waiting := waiting b; taken := taken b; last_slot := last_slot b |}
  | None => b
  end.

Section spec.
Context `{CO : !LedgerCodec} `{WC : !WireConstants}.

(** An execution as it is stored. *)
Definition stored (x : Execution) : Execution :=
  {| header := header x;
     details := if MAX_EXECUTION_DETAILS_SIZE <? zlen (bitcode_encode (details x)) then None else details x |}.

(** What an event does when it is handled without an error. *)
Definition book_event (ev : Event) (b : Book) : Book :=
  let n := length (entries (active_segment b)) in
  match ev with
  | EvTransaction sig bs =>
      let b := book_entry b (ETransaction bs) in with_waiting b (<[sig := n]> (waiting b))
  | EvExecution x accounts =>
      let sig := header_signature (header x) in
      match waiting b !! sig with
      | None => b
      | Some i =>
          let j := length (records (active_segment b)) in
          let b := with_waiting b (delete sig (waiting b)) in
          let b := with_segment b (seg_record (active_segment b) (stored x)) in
          book_item b (ItemTx sig accounts i j)
      end
  | EvBlock x =>
      let slot := block_slot (payload x) in
      with_slot (book_item (book_publish (book_entry b (EBlock x))) (ItemBlock slot n)) slot
  | EvSuperblock x => book_rotate (book_sync (book_entry b (ESuperblock x)))
  | EvReset r => book_sync (book_entry b (EReset r))
  | EvCheckpoint c => book_publish (book_entry b (ECheckpoint c))
  | EvSync => book_sync b
  end.

(** Events as the engine sends them: transactions with their own signature, executions with
    the accounts' keys, consecutive slots from 1, and seals of the active superblock once every
    execution has arrived. *)
Definition event_ok (ev : Event) (b : Book) : Prop :=
  match ev with
  | EvTransaction sig bs => transaction_signature bs = Ok sig
  | EvExecution x accounts =>
      fits 64 (header_slot (header x)) ∧
      ∃ keys, Forall (λ k, length k = 32%nat) keys ∧ accounts = account_index keys
  | EvBlock x =>
      let slot := block_slot (payload x) in
      1 ≤ slot ∧ fits 64 slot ∧ (last_slot b = 0 ∨ slot = last_slot b + 1)
  | EvSuperblock x => seal_id (payload x) = current b ∧ waiting b = ∅ ∧ fits 64 (current b + 1)
  | _ => True
  end.

(** ** Bytes, spans and index entries of a segment *)

Definition enc (e : BlockstoreEntry) : list Z := concat (entry_fragments e).1.
Definition rec_bytes (x : Execution) : list Z :=
  concat (header_fragments (header x)).1 ++
  match zstd_compress (bitcode_encode (details x)) with Ok out => out | Err _ => [] end.

Definition stream (l : list BlockstoreEntry) : list Z := concat (enc <$> l).
Definition rec_stream (l : list Execution) : list Z := concat (rec_bytes <$> l).

Definition entry_span (g : Segment) (i : nat) : Span :=
  span_new (zlen (stream (take i (entries g))))
    (match entries g !! i with Some e => zlen (enc e) | None => 0 end).
Definition record_span (g : Segment) (j : nat) : Span :=
  span_new (zlen (rec_stream (take j (records g))))
    (match records g !! j with Some x => zlen (rec_bytes x) | None => 0 end).

Definition item_entries (g : Segment) (it : Item) : list (list Z * list Z) :=
  match it with
  | ItemTx sig accounts i j =>
      (transaction_key sig, value_bytes (entry_span g i) ++ value_bytes (record_span g j)) ::
      ((λ a, (account_key a (record_span g j), [])) <$> accounts)
  | ItemBlock slot i => [(block_key slot, value_bytes (entry_span g i))]
  end.

Definition item_message (g : Segment) (it : Item) : IndexMessage :=
  match it with
  | ItemTx sig accounts i j =>
      MsgTransaction sig accounts {| tx_blockstore := entry_span g i; tx_execution := record_span g j |}
  | ItemBlock slot i => MsgBlock slot (entry_span g i)
  end.

(** ** Well-formed segments *)

(** An item refers to what it says. *)
Definition item_ok (g : Segment) (it : Item) : Prop :=
  match it with
  | ItemTx sig _ i j =>
      (∃ bs, entries g !! i = Some (ETransaction bs)) ∧
      ∃ x, records g !! j = Some x ∧ header_signature (header x) = sig
  | ItemBlock slot i => ∃ x, entries g !! i = Some (EBlock x) ∧ block_slot (payload x) = slot
  end.

Definition item_public (g : Segment) (it : Item) : Prop :=
  match it with
  | ItemTx _ _ i j => (i < public g)%nat ∧ (j < rec_public g)%nat
  | ItemBlock _ i => (i < public g)%nat
  end.

Record seg_ok (g : Segment) : Prop := {
  sg_public : (public g ≤ length (entries g))%nat;
  sg_rec_public : (rec_public g ≤ length (records g))%nat;
  sg_visible : (visible g ≤ length (items g))%nat;
  sg_items : Forall (item_ok g) (items g);
  sg_shown : Forall (item_public g) (take (visible g) (items g));
  sg_blocks n slot i : items g !! n = Some (ItemBlock slot i) →
    Forall (item_public g) (take (S n) (items g));
}.

(** What is in a segment was encoded completely, and an item of the index belongs to the
    transaction it names. *)
Definition signed (g : Segment) (sig : Signature) (i : nat) : Prop :=
  ∃ bs, entries g !! i = Some (ETransaction bs) ∧ transaction_signature bs = Ok sig.

Definition entry_valid (e : BlockstoreEntry) : Prop :=
  (entry_fragments e).2 = Ok tt ∧
  match e with
  | ETransaction bs => ∃ sig, transaction_signature bs = Ok sig
  | EBlock x => fits 64 (block_slot (payload x))
  | _ => True
  end.
Definition record_valid (x : Execution) : Prop :=
  (header_fragments (header x)).2 = Ok tt ∧ fits 64 (header_slot (header x)) ∧
  (∃ out, zstd_compress (bitcode_encode (details x)) = Ok out) ∧
  (details x ≠ None → zlen (bitcode_encode (details x)) ≤ MAX_EXECUTION_DETAILS_SIZE).
Definition item_valid (g : Segment) (it : Item) : Prop :=
  match it with
  | ItemTx sig accounts i _ =>
      signed g sig i ∧ Forall (λ a, ∃ key, length key = 32%nat ∧ a = account_prefix key) accounts
  | ItemBlock _ _ => True
  end.

Record seg_valid (g : Segment) : Prop := {
  sv_entries : Forall entry_valid (entries g);
  sv_records : Forall record_valid (records g);
  sv_items : Forall (item_valid g) (items g);
}.

End spec.
