(* ===== verification/LedgerRefine.v ===== *)
(** * The writers implement the book

    Every primitive of the appender and the indexer that succeeds takes the ledger from a
    state that represents a book to one that represents the book after the step. *)

From stdpp Require Import base list gmap numbers option.
From S2P Require Import Prelude Effects Memory Records TxFrame LedgerFile LedgerIndex Ledger LedgerReader LedgerBook.

Local Open Scope Z_scope.

(** ** Slots of a list of entries *)

Definition slots (l : list BlockstoreEntry) : list Z :=
  omap (λ e, match e with EBlock x => Some (block_slot (payload x)) | _ => None end) l.

Definition slots_range (l : list Z) : BlockRange :=
  match l with
  | [] => default_range
  | x :: _ => {| start := x; end_ := default 0 (list.last l) |}
  end.

(** Committing a batch to a keyspace. *)
Abbreviation write_all := (foldl (λ (m : gmap (list Z) (list Z)) '(k, v), <[k:=v]> m)).

Section refine.
Context {Ks : Type} `{FJ : !Fjall Ks, FL : !FjallLaws Ks} `{IOC : !LedgerIo} `{CO : !LedgerCodec}.

Abbreviation L := (Ledger Ks).

(** ** Spans do not move when the segment grows *)

Lemma item_ok_bounds g it :
  item_ok g it →
  match it with
  | ItemTx _ _ i j => (i < length (entries g))%nat ∧ (j < length (records g))%nat
  | ItemBlock _ i => (i < length (entries g))%nat
  end.
Proof using Type.
  destruct it; simpl.
  - intros [[bs Hb] (x & Hx & _)]. split; by eapply lookup_lt_Some.
  - intros (x & Hx & _). by eapply lookup_lt_Some.
Qed.

(** Growing a segment keeps what an item stands for. *)
Definition grows (g g' : Segment) : Prop :=
  entries g `prefix_of` entries g' ∧ records g `prefix_of` records g'.

Lemma entry_span_grows g g' i :
  grows g g' → (i < length (entries g))%nat → entry_span g' i = entry_span g i.
Proof using Type.
  intros [[l Hl] _] Hi. unfold entry_span. rewrite Hl, take_app_le, lookup_app_l by lia. done.
Qed.
Lemma record_span_grows g g' j :
  grows g g' → (j < length (records g))%nat → record_span g' j = record_span g j.
Proof using Type.
  intros [_ [l Hl]] Hi. unfold record_span. rewrite Hl, take_app_le, lookup_app_l by lia. done.
Qed.

Lemma item_entries_grows g g' it : grows g g' → item_ok g it → item_entries g' it = item_entries g it.
Proof using Type.
  intros Hg Hi. apply item_ok_bounds in Hi. destruct it; simpl in *.
  - by rewrite !(entry_span_grows g g'), !(record_span_grows g g') by tauto.
  - by rewrite !(entry_span_grows g g').
Qed.
Lemma item_message_grows g g' it : grows g g' → item_ok g it → item_message g' it = item_message g it.
Proof using Type.
  intros Hg Hi. apply item_ok_bounds in Hi. destruct it; simpl in *.
  - by rewrite !(entry_span_grows g g'), !(record_span_grows g g') by tauto.
  - by rewrite !(entry_span_grows g g').
Qed.

Lemma items_grow {A} (f f' : Item → A) g l :
  Forall (item_ok g) l → (∀ it, item_ok g it → f' it = f it) → f' <$> l = f <$> l.
Proof using Type.
  intros Hl Hf. induction Hl as [|it l Hi _ IH]; [done|]. rewrite !fmap_cons. by rewrite Hf, IH.
Qed.

Lemma item_ok_grows g g' it : grows g g' → item_ok g it → item_ok g' it.
Proof using Type.
  intros [[l Hl] [r Hr]]. destruct it; simpl; rewrite Hl, ?Hr.
  - intros [[bs Hb] (x & Hx & Hs)]. split; [exists bs; by apply lookup_app_l_Some|].
    exists x. split; [by apply lookup_app_l_Some|done].
  - intros (x & Hx & Hs). exists x. split; [by apply lookup_app_l_Some|done].
Qed.

(** ** Representation *)

(** A superblock as readers see it. *)
Record on_disk (g : Segment) (sb : Superblock Ks) : Prop := {
  od_segment : seg_ok g;
  od_version : version (meta sb) = VERSION;
  od_cursor : cursor_blockstore (meta sb) = zlen (stream (take (public g) (entries g)));
  od_stream : holds (blockstore sb) (stream (take (public g) (entries g)));
  od_rec_cursor : cursor_executions (meta sb) = zlen (rec_stream (take (rec_public g) (records g)));
  od_records : holds (executions sb) (rec_stream (take (rec_public g) (records g)));
  od_index : ks_data (index sb) =
    write_all ∅ (concat (item_entries g <$> take (visible g) (items g)));
  od_range : sb_range (meta sb) = slots_range (slots (take (public g) (entries g)));
}.

(** The appender's files. *)
Definition written (g : Segment) (sb : Superblock Ks) (s : L) : Prop :=
  (∃ d, stream (take (public g) (entries g)) `prefix_of` d ∧
        appended (blockstore sb, w_blockstore s) d (stream (entries g))) ∧
  (∃ d, rec_stream (take (rec_public g) (records g)) `prefix_of` d ∧
        appended (executions sb, w_executions s) d (rec_stream (records g))).

(** The running indexer: a batch of the items taken but not visible, and a queue of the rest. *)
Definition indexing (b : Book) (g : Segment) (s : L) : Prop :=
  indexer_running s = true →
  keyspace (writer s) = current b ∧ (visible g ≤ taken b ≤ length (items g))%nat ∧
  batch (writer s) = concat (item_entries g <$> drop (visible g) (take (taken b) (items g))) ∧
  queue s = item_message g <$> drop (taken b) (items g).

Record refines (b : Book) (s : L) : Prop := {
  rf_active : active s = current b;
  rf_head : head (l_meta s) = current b;
  rf_retained : retained s = open_ids b;
  rf_current : current b ∈ open_ids b;
  rf_count : 1 ≤ superblocks (l_meta s) ≤ current b;
  rf_ids id : id ∈ open_ids b ↔ current b - superblocks (l_meta s) < id ≤ current b;
  rf_fresh id : current b < id → disk s !! id = None;
  rf_disk id : id ∈ open_ids b →
    ∃ g sb, segments b !! id = Some g ∧ disk s !! id = Some sb ∧ on_disk g sb;
  rf_written sb : disk s !! current b = Some sb → written (active_segment b) sb s;
  rf_pending : pending s = entry_span (active_segment b) <$> waiting b;
  rf_waiting sig i : waiting b !! sig = Some i →
    ∃ bs, entries (active_segment b) !! i = Some (ETransaction bs);
  rf_indexing : indexing b (active_segment b) s;
  rf_end : end_ (range (l_meta s)) = last_slot b;
  rf_start id g slot : id ∈ open_ids b → segments b !! id = Some g →
    slot ∈ slots (take (public g) (entries g)) → start (range (l_meta s)) ≤ slot;
  rf_floor : start (range (l_meta s)) ≤ last_slot b + 1;
  rf_truncation id : truncation s = Some id → (id ∉ open_ids b) ∧ id < current b;
}.

(** The active segment and directory. *)
Lemma active_lookup b s :
  refines b s →
  ∃ sb, segments b !! current b = Some (active_segment b) ∧ disk s !! current b = Some sb ∧
        on_disk (active_segment b) sb ∧ directory s (active s) = sb.
Proof using Type.
  intros H. destruct (rf_disk _ _ H _ (rf_current _ _ H)) as (g & sb & Hg & Hs & Ho).
  assert (active_segment b = g) as -> by (unfold active_segment, segment; by rewrite Hg).
  exists sb. split_and!; [done|done|done|]. unfold directory. by rewrite (rf_active _ _ H), Hs.
Qed.

(** Steps that touch the active superblock only. *)
Lemma refines_local b s b' s' g' sb' :
  refines b s →
  segments b' = <[current b := g']> (segments b) → current b' = current b → open_ids b' = open_ids b →
  disk s' = <[current b := sb']> (disk s) → active s' = active s → retained s' = retained s →
  truncation s' = truncation s → head (l_meta s') = head (l_meta s) →
  superblocks (l_meta s') = superblocks (l_meta s) →
  start (range (l_meta s')) = start (range (l_meta s)) → end_ (range (l_meta s')) = last_slot b' →
  on_disk g' sb' → written g' sb' s' →
  pending s' = entry_span g' <$> waiting b' →
  (∀ sig i, waiting b' !! sig = Some i → ∃ bs, entries g' !! i = Some (ETransaction bs)) →
  indexing b' g' s' →
  (∀ slot, slot ∈ slots (take (public g') (entries g')) → start (range (l_meta s)) ≤ slot) →
  last_slot b ≤ last_slot b' → refines b' s'.
Proof using Type.
  intros R Hseg Hcur Hopen Hdisk Hact Hret Htr Hhead Hsup Hst Hend Hod Hwr Hpend Hwait Hix Hslots Hlast.
  assert (Hact' : active_segment b' = g').
  { unfold active_segment, segment. by rewrite Hseg, Hcur, lookup_insert_eq. }
  constructor; rewrite ?Hact', ?Hcur, ?Hopen, ?Hhead, ?Hsup, ?Hret, ?Hst; try (by apply R); try done.
  - rewrite Hact. apply R.
  - intros id Hid. rewrite Hdisk, lookup_insert_ne by lia. by apply R.
  - intros id Hid. rewrite Hseg, Hdisk. destruct (decide (id = current b)) as [->|Hn].
    + rewrite !lookup_insert_eq. by exists g', sb'.
    + rewrite !lookup_insert_ne by done. by apply R.
  - intros sb. rewrite Hdisk, lookup_insert_eq. by intros [= <-].
  - intros id g slot Hid. rewrite Hseg. destruct (decide (id = current b)) as [->|Hn].
    + rewrite lookup_insert_eq. intros [= <-]. apply Hslots.
    + rewrite lookup_insert_ne by done. intros Hg Hs. by eapply (rf_start _ _ R).
  - pose proof (rf_floor _ _ R). lia.
  - intros id. rewrite Htr. apply R.
Qed.

Lemma grows_entry g e : grows g (seg_entry g e).
Proof using Type. split; [by exists [e]|done]. Qed.
Lemma grows_record g x : grows g (seg_record g x).
Proof using Type. split; [done|by exists [x]]. Qed.

(** Growing keeps the segment well formed and the superblock's view of it. *)
Lemma seg_ok_grows g g' :
  grows g g' → public g' = public g → rec_public g' = rec_public g → items g' = items g →
  visible g' = visible g → seg_ok g → seg_ok g'.
Proof using Type.
  intros Hg Hp Hr Hi Hv [S1 S2 S3 S4 S5 S6]. pose proof Hg as [[l1 E1] [l2 E2]].
  assert (Hpub : ∀ it, item_public g it → item_public g' it).
  { intros [] Hit; simpl in *; by rewrite ?Hp, ?Hr. }
  constructor; rewrite ?Hp, ?Hr, ?Hi, ?Hv, ?E1, ?E2, ?length_app; try lia.
  - eapply list.Forall_impl; [done|]. intros it. by apply item_ok_grows.
  - by eapply list.Forall_impl.
  - intros n slot i Hn. eapply list.Forall_impl; [by eapply S6|done].
Qed.

Lemma on_disk_grows g g' sb :
  grows g g' → public g' = public g → rec_public g' = rec_public g → items g' = items g →
  visible g' = visible g → on_disk g sb → on_disk g' sb.
Proof using Type.
  intros Hg Hp Hr Hi Hv [D1 D2 D3 D4 D5 D6 D7 D8]. pose proof Hg as [[l1 E1] [l2 E2]].
  pose proof (sg_public _ D1) as Hpl. pose proof (sg_rec_public _ D1) as Hrl.
  assert (T1 : take (public g') (entries g') = take (public g) (entries g)).
  { rewrite Hp, E1. by apply take_app_le. }
  assert (T2 : take (rec_public g') (records g') = take (rec_public g) (records g)).
  { rewrite Hr, E2. by apply take_app_le. }
  constructor; rewrite ?T1, ?T2; try done.
  - by eapply seg_ok_grows.
  - rewrite D7, Hv, Hi. do 2 f_equal. symmetry. apply (items_grow (item_entries g) (item_entries g') g).
    + by apply Forall_take, (sg_items _ D1).
    + intros it. by apply item_entries_grows.
Qed.

Lemma indexing_grows b b' g g' s s' :
  grows g g' → items g' = items g → visible g' = visible g → Forall (item_ok g) (items g) →
  current b' = current b → taken b' = taken b → writer s' = writer s → queue s' = queue s →
  indexer_running s' = indexer_running s → indexing b g s → indexing b' g' s'.
Proof using Type.
  intros Hg Hi Hv Hok Hc Ht Hw Hq Hr H. unfold indexing. rewrite Hc, Ht, Hw, Hq, Hr, Hi, Hv.
  intros Hrun. destruct (H Hrun) as (I1 & I2 & I3 & I4). split_and!; [done|lia|lia| |].
  - rewrite I3. f_equal. symmetry. apply (items_grow (item_entries g) (item_entries g') g).
    + by apply Forall_drop, Forall_take.
    + intros it. by apply item_entries_grows.
  - rewrite I4. symmetry. apply (items_grow (item_message g) (item_message g') g).
    + by apply Forall_drop.
    + intros it. by apply item_message_grows.
Qed.

Lemma pending_grows (g g' : Segment) (w : gmap Signature nat) :
  grows g g' → (∀ sig i, w !! sig = Some i → ∃ bs, entries g !! i = Some (ETransaction bs)) →
  entry_span g' <$> w = entry_span g <$> w.
Proof using Type.
  intros Hg Hw. apply map_eq. intros sig. rewrite !lookup_fmap.
  destruct (w !! sig) as [i|] eqn:E; [|done]. simpl. f_equal. destruct (Hw _ _ E) as [bs Hb].
  apply entry_span_grows; [done|by eapply lookup_lt_Some].
Qed.

(** ** Appending to the files *)

Lemma append_all_spec l fw disk all :
  appended fw disk all →
  match append_all l fw with
  | (r, fw') => ∃ x, reaches fw' disk (all ++ x) ∧ (r = Ok tt → x = concat l)
  end.
Proof using Type.
  revert fw disk all. induction l as [|f l IH]; intros fw disk all H.
  - exists []. rewrite app_nil_r. split; [by exists disk|done].
  - cbn [append_all]. unfold mbind, op_bind. pose proof (append_spec f fw disk all H) as (d & Hd & H1).
    destruct (append f fw) as [[[]|e] fw1]; simpl in H1.
    + specialize (IH _ _ _ H1). destruct (append_all l fw1) as [r fw2]. destruct IH as (x & (d2 & Hd2 & H2) & Hx).
      exists (f ++ x). rewrite app_assoc. split; [exists d2; split; [by etrans|done]|].
      intros Hr. simpl. by rewrite Hx.
    + exists f. split; [by exists d|done].
Qed.

Lemma serialize_into_spec enc_ fw disk all :
  appended fw disk all →
  match serialize_into enc_ fw with
  | (r, fw') => ∃ x, reaches fw' disk (all ++ x) ∧ (r = Ok tt → x = concat enc_.1)
  end.
Proof using Type.
  intros H. unfold serialize_into, mbind, op_bind, lift. pose proof (append_all_spec enc_.1 fw disk all H) as Ha.
  destruct (append_all enc_.1 fw) as [[[]|e] fw1]; [|done]. destruct Ha as (x & Hx & Hr).
  exists x. split; [done|]. intros _. by apply Hr.
Qed.

Lemma compress_spec bs fw disk all :
  appended fw disk all →
  match compress bs fw with
  | (r, fw') => ∃ x, reaches fw' disk (all ++ x) ∧ (r = Ok tt → zstd_compress bs = Ok x)
  end.
Proof using Type.
  intros H. unfold compress, mbind, op_bind, lift. destruct (zstd_compress bs) as [out|e].
  - pose proof (append_spec out fw disk all H) as (d & Hd & H1). destruct (append out fw) as [[[]|e] fw1]; exists out; simpl in H1;
      (split; [by exists d|done]).
  - exists []. rewrite app_nil_r. split; [by exists disk|done].
Qed.

End refine.
