(* ===== verification/LedgerSteps.v ===== *)
(** * The primitives of the writers, one by one *)

From stdpp Require Import base list gmap numbers option.
From S2P Require Import Prelude Effects Memory Records TxFrame LedgerFile LedgerIndex Ledger LedgerReader LedgerBook LedgerRefine.

Local Open Scope Z_scope.

Section steps.
Context {Ks : Type} `{FJ : !Fjall Ks, FL : !FjallLaws Ks} `{IOC : !LedgerIo} `{CO : !LedgerCodec}.

Abbreviation L := (Ledger Ks).

Lemma stream_app l e : stream (l ++ [e]) = stream l ++ enc e.
Proof using Type. unfold stream. rewrite fmap_app, concat_app. simpl. by rewrite app_nil_r. Qed.
Lemma rec_stream_app l x : rec_stream (l ++ [x]) = rec_stream l ++ rec_bytes x.
Proof using Type. unfold rec_stream. rewrite fmap_app, concat_app. simpl. by rewrite app_nil_r. Qed.

Lemma entry_span_last g e :
  entry_span (seg_entry g e) (length (entries g)) = span_new (zlen (stream (entries g))) (zlen (enc e)).
Proof using Type.
  unfold entry_span. simpl. rewrite take_app_length, lookup_app_r, Nat.sub_diag by done. done.
Qed.
Lemma record_span_last g x :
  record_span (seg_record g x) (length (records g)) =
  span_new (zlen (rec_stream (records g))) (zlen (rec_bytes x)).
Proof using Type.
  unfold record_span. simpl. rewrite take_app_length, lookup_app_r, Nat.sub_diag by done. done.
Qed.

(** ** Entries *)

Lemma write_blockstore_step b s e span s' :
  refines b s → write_blockstore e s = (Ok span, s') →
  refines (book_entry b e) s' ∧
  span = entry_span (active_segment (book_entry b e)) (length (entries (active_segment b))) ∧
  unpublished s' = unpublished s.
Proof using Type.
  intros R H. destruct (active_lookup b s R) as (sb & Hg & Hs & Hod & Hdir).
  destruct (rf_written _ _ R sb Hs) as [(d & Hd & Ha) He].
  unfold write_blockstore, mbind, op_bind, read in H. unfold on_blockstore, with_error in H.
  rewrite Hdir in H. pose proof (serialize_into_spec (entry_fragments e) _ _ _ Ha) as Hser.
  destruct (serialize_into (entry_fragments e) (blockstore sb, w_blockstore s)) as [r [f w]].
  destruct Hser as (x & (d' & Hd' & Ha') & Hx). destruct r as [[]|]; [|done].
  specialize (Hx eq_refl). subst x. fold (enc e) in Ha'. cbn [map_err] in H. injection H as <- <-.
  set (g := active_segment b) in *.
  assert (Hact : active_segment (book_entry b e) = seg_entry g e).
  { apply active_with_segment. }
  assert (Hgr : grows g (seg_entry g e)) by apply grows_entry.
  pose proof (od_segment _ _ Hod) as Hseg. rewrite (rf_active _ _ R). split_and!; [|rewrite Hact, entry_span_last|done].
  - eapply (refines_local b s _ _ (seg_entry g e) (Build_Superblock (meta sb) f (executions sb) (index sb)) R);
      try done; cbn [l_meta active with_files with_directory with_disk]; try (by apply R); try (by symmetry; apply R).
    + cut (on_disk (seg_entry g e) sb); [|by apply (on_disk_grows g)].
      intros [D1 D2 D3 D4 D5 D6 D7 D8]. constructor; try done. simpl. simpl in D4.
      rewrite take_app_le by apply Hseg. destruct Ha' as [A1 A2 A3]. cbn [fst snd] in *.
      destruct Hd as [x ->]. destruct Hd' as [y ->]. rewrite <- app_assoc in A2. by apply holds_prefix in A2.
    + split; cbn [w_blockstore w_executions with_files]; [|done].
      exists d'. simpl. rewrite take_app_le by apply Hseg. split; [by etrans|]. by rewrite stream_app.
    + change (pending s = entry_span (seg_entry g e) <$> waiting b). rewrite (rf_pending _ _ R). symmetry. apply pending_grows; [done|]. apply R.
    + intros sig i Hi. destruct (rf_waiting _ _ R sig i Hi) as [bs Hbs]. exists bs. simpl.
      by apply lookup_app_l_Some.
    + eapply (indexing_grows b _ g _ s); try done; [apply Hseg|apply R].
    + intros slot. simpl. rewrite take_app_le by apply Hseg. apply (rf_start _ _ R (current b)); [apply R|done].
  - cbn [w_blockstore with_files]. pose proof (ap_cursor _ _ _ Ha') as C1. pose proof (ap_cursor _ _ _ Ha) as C0.
    cbn [snd] in C0, C1. rewrite C0, C1, zlen_app. f_equal. lia.
Qed.

(** ** Execution records *)

Lemma directory_insert (s : L) id sb x : directory (with_files (with_directory s id sb) x.1 x.2.1 x.2.2) id = sb.
Proof using Type. unfold directory. simpl. by rewrite lookup_insert_eq. Qed.

Lemma on_executions_bind {A B} (p : Eff LedgerError Writing A) (q : A → Eff LedgerError Writing B) s :
  (x ← on_executions p; on_executions (q x)) s = on_executions (x ← p; q x) s.
Proof using Type.
  unfold mbind, op_bind, on_executions. set (sb := directory s (active s)).
  destruct (p (executions sb, w_executions s)) as [[x|e] [f w]]; [|done].
  set (s1 := with_files _ _ _ _).
  assert (directory s1 (active s1) = Build_Superblock (meta sb) (blockstore sb) f (index sb)) as ->
    by apply (directory_insert s (active s) _ (active s, (w_blockstore s, w))).
  cbn [executions w_executions s1 with_files]. destruct (q x (f, w)) as [r [f' w']].
  unfold s1, with_files, with_directory, with_disk. simpl. by rewrite insert_insert_eq.
Qed.

Lemma record_spec x fw disk all :
  appended fw disk all →
  match (_ ← with_error Wincode (serialize_into (header_fragments (header x)));
         with_error IO (compress (stored_details x))) fw with
  | (r, fw') => ∃ y, reaches fw' disk (all ++ y) ∧ (r = Ok tt → y = rec_bytes (stored x))
  end.
Proof using Type.
  intros H. unfold mbind, op_bind, with_error.
  pose proof (serialize_into_spec (header_fragments (header x)) fw disk all H) as H1.
  destruct (serialize_into (header_fragments (header x)) fw) as [r fw1].
  destruct H1 as (y & (d & Hd & H1) & Hy). destruct r as [[]|e]; cbn [map_err].
  2: { exists y. split; [by exists d|done]. }
  specialize (Hy eq_refl). subst y.
  pose proof (compress_spec (stored_details x) fw1 d _ H1) as H2.
  destruct (compress (stored_details x) fw1) as [r fw2]. destruct H2 as (y & (d2 & Hd2 & H2) & Hy).
  exists (concat (header_fragments (header x)).1 ++ y). rewrite app_assoc.
  split; [exists d2; split; [by etrans|done]|]. destruct r as [[]|e]; [|done]. intros _.
  unfold rec_bytes. change (header (stored x)) with (header x). f_equal.
  assert (stored_details x = bitcode_encode (details (stored x))) as <-.
  { unfold stored_details, stored. simpl. by case_match. }
  by rewrite Hy.
Qed.

Lemma write_execution_step b s x span s' :
  refines b s → writer_write_execution x s = (Ok span, s') →
  let g := seg_record (active_segment b) (stored x) in
  refines (with_segment b g) s' ∧
  span = record_span g (length (records (active_segment b))) ∧
  pending s' = pending s ∧ unpublished s' = unpublished s.
Proof using Type.
  intros R H g'. destruct (active_lookup b s R) as (sb & Hg & Hs & Hod & Hdir).
  destruct (rf_written _ _ R sb Hs) as [He (d & Hd & Ha)].
  pose proof (record_spec x _ _ _ Ha) as Hrec. unfold writer_write_execution in H.
  rewrite (op_bind_ok (read _) _ _ _ _ eq_refl) in H.
  assert (Hassoc : ∀ (k : Eff LedgerError L Span),
    (_ ← on_executions (with_error Wincode (serialize_into (header_fragments (header x))));
     _ ← on_executions (with_error IO (compress (stored_details x))); k) s =
    (_ ← (_ ← on_executions (with_error Wincode (serialize_into (header_fragments (header x))));
          on_executions (with_error IO (compress (stored_details x)))); k) s).
  { intros k. unfold mbind, op_bind. by destruct (on_executions _ s) as [[]]. }
  rewrite Hassoc in H. clear Hassoc. apply op_bind_inv_ok in H as ([] & s1 & H1 & H2).
  rewrite (on_executions_bind _ (λ _, _)) in H1. unfold on_executions in H1. rewrite Hdir in H1.
  match type of Hrec with match ?c with _ => _ end => destruct c as [r [f w]] eqn:E end.
  destruct Hrec as (y & (d' & Hd' & Ha') & Hy).
  injection H1 as -> <-. specialize (Hy eq_refl). subst y.
  rewrite (op_bind_ok (read _) _ _ _ _ eq_refl) in H2. injection H2 as <- <-.
  set (g := active_segment b) in *.
  assert (Hgr : grows g g') by apply grows_record.
  pose proof (od_segment _ _ Hod) as Hseg. rewrite (rf_active _ _ R).
  split_and!; [|unfold g'; rewrite record_span_last|done|done].
  - eapply (refines_local b s _ _ g' (Build_Superblock (meta sb) (blockstore sb) f (index sb)) R);
      try done; cbn [l_meta active with_files with_directory with_disk]; try (by apply R); try (by symmetry; apply R).
    + cut (on_disk g' sb); [|by apply (on_disk_grows g)].
      intros [D1 D2 D3 D4 D5 D6 D7 D8]. constructor; try done. simpl.
      rewrite take_app_le by apply Hseg. destruct Ha' as [A1 A2 A3]. cbn [fst snd] in *.
      destruct Hd as [z ->]. destruct Hd' as [y ->]. rewrite <- app_assoc in A2. by apply holds_prefix in A2.
    + split; cbn [w_blockstore w_executions with_files]; [done|].
      exists d'. simpl. rewrite take_app_le by apply Hseg. split; [by etrans|]. by rewrite rec_stream_app.
    + eapply (indexing_grows b _ g _ s); try done; [apply Hseg|apply R].
    + intros slot. simpl. apply (rf_start _ _ R (current b)); [apply R|done].
  - cbn [w_executions with_files]. pose proof (ap_cursor _ _ _ Ha') as C1. pose proof (ap_cursor _ _ _ Ha) as C0.
    cbn [snd] in C0, C1. rewrite C0, C1, zlen_app. f_equal. lia.
Qed.

(** ** Publication *)

(** A state whose files hold everything appended. *)
Definition flushed (g : Segment) (sb : Superblock Ks) (s : L) : Prop :=
  appended (blockstore sb, w_blockstore s) (stream (entries g)) (stream (entries g)) ∧
  appended (executions sb, w_executions s) (rec_stream (records g)) (rec_stream (records g)).

(** Everything but the files of the active superblock is as before. *)
Record same_rest (s s' : L) : Prop := {
  sr_meta : l_meta s' = l_meta s;
  sr_retained : retained s' = retained s;
  sr_active : active s' = active s;
  sr_pending : pending s' = pending s;
  sr_unpublished : unpublished s' = unpublished s;
  sr_queue : queue s' = queue s;
  sr_writer : writer s' = writer s;
  sr_running : indexer_running s' = indexer_running s;
  sr_truncation : truncation s' = truncation s;
  sr_limit : size_limit s' = size_limit s;
}.

Lemma stream_take_prefix n l : stream (take n l) `prefix_of` stream l.
Proof using Type.
  exists (stream (drop n l)). unfold stream. by rewrite <- concat_app, <- fmap_app, take_drop.
Qed.
Lemma rec_stream_take_prefix n l : rec_stream (take n l) `prefix_of` rec_stream l.
Proof using Type.
  exists (rec_stream (drop n l)). unfold rec_stream. by rewrite <- concat_app, <- fmap_app, take_drop.
Qed.

Lemma holds_prefix_of f l l' : l `prefix_of` l' → holds f l' → holds f l.
Proof using Type. intros [x ->]. apply holds_prefix. Qed.

(** Replacing the files of the active superblock by ones that hold everything. *)
Lemma refines_files b s sb f e bw ew :
  refines b s → disk s !! current b = Some sb →
  let sb' := Build_Superblock (meta sb) f e (index sb) in
  let s' := with_files (with_directory s (current b) sb') (current b) bw ew in
  flushed (active_segment b) sb' s' → refines b s'.
Proof using Type.
  intros R Hs sb' s' [F1 F2]. destruct (active_lookup b s R) as (sb0 & Hg & Hs0 & Hod & _).
  assert (sb0 = sb) as -> by congruence. set (g := active_segment b) in *.
  eapply (refines_local b s _ _ g sb' R); try done; try (by apply R); try (by symmetry; apply R).
  - by rewrite insert_id.
  - destruct Hod as [D1 D2 D3 D4 D5 D6 D7 D8]. constructor; try done; simpl.
    + eapply holds_prefix_of; [apply stream_take_prefix|apply F1].
    + eapply holds_prefix_of; [apply rec_stream_take_prefix|apply F2].
  - split; [exists (stream (entries g)); split; [apply stream_take_prefix|done]|].
    exists (rec_stream (records g)). split; [apply rec_stream_take_prefix|done].
  - intros slot. by apply (rf_start _ _ R (current b)); [apply R|].
Qed.

(** Two file operations that flush both files. *)
Lemma both_files_step {A} (V : A → list Z → Prop) b s (p : Eff LedgerError Writing A) x y s1 s2 :
  refines b s →
  (∀ fw disk all, appended fw disk all →
     ∀ z fw', p fw = (Ok z, fw') → appended fw' all all ∧ V z all) →
  on_blockstore p s = (Ok x, s1) → on_executions p s1 = (Ok y, s2) →
  refines b s2 ∧ same_rest s s2 ∧
  V x (stream (entries (active_segment b))) ∧ V y (rec_stream (records (active_segment b))) ∧ ∃ sb, disk s2 !! current b = Some sb ∧ flushed (active_segment b) sb s2.
Proof using Type.
  intros R Hp E1 E2. destruct (active_lookup b s R) as (sb & Hg & Hs & Hod & Hdir).
  destruct (rf_written _ _ R sb Hs) as [(d1 & _ & A1) (d2 & _ & A2)].
  unfold on_blockstore in E1. rewrite Hdir in E1.
  destruct (p (blockstore sb, w_blockstore s)) as [r1 [f1 w1]] eqn:Ep. injection E1 as -> <-.
  destruct (Hp _ _ _ A1 _ _ Ep) as [B1 V1]. unfold on_executions in E2.
  match type of E2 with context [directory ?s0 (active ?s0)] => set (s1 := s0) in * end.
  assert (directory s1 (active s1) = Build_Superblock (meta sb) f1 (executions sb) (index sb)) as Hd1
    by apply (directory_insert s (active s) _ (active s, (w1, w_executions s))).
  rewrite Hd1 in E2. cbn [executions w_executions s1 with_files meta blockstore index] in E2.
  destruct (p (executions sb, w_executions s)) as [r2 [f2 w2]] eqn:Eq. injection E2 as -> <-.
  destruct (Hp _ _ _ A2 _ _ Eq) as [B2 V2].
  set (sb' := Build_Superblock (meta sb) f1 f2 (index sb)).
  assert (Es : with_files (with_directory s1 (active s) sb') (active s) w1 w2 =
               with_files (with_directory s (current b) sb') (current b) w1 w2).
  { unfold s1, with_files, with_directory, with_disk. simpl. by rewrite insert_insert_eq, (rf_active _ _ R). }
  rewrite Es.
  assert (Hf : flushed (active_segment b) sb' (with_files (with_directory s (current b) sb') (current b) w1 w2))
    by (by split).
  split_and!.
  - by eapply refines_files.
  - constructor; try done. symmetry. apply R.
  - done.
  - done.
  - exists sb'. split; [|done]. simpl. apply lookup_insert_eq.
Qed.

Lemma writer_persist_step b s d x y s' :
  refines b s → writer_persist d s = (Ok (x, y), s') →
  refines b s' ∧ same_rest s s' ∧
  x = zlen (stream (entries (active_segment b))) ∧ y = zlen (rec_stream (records (active_segment b))) ∧
  ∃ sb, disk s' !! current b = Some sb ∧ flushed (active_segment b) sb s'.
Proof using Type.
  intros R H. unfold writer_persist in H. apply op_bind_inv_ok in H as (x' & s1 & E1 & H).
  apply op_bind_inv_ok in H as (y' & s2 & E2 & H). injection H as -> -> ->.
  eapply (both_files_step (λ z all, z = zlen all)) in E2; [|done| |done]; [done|].
  intros fw disk all Ha z fw' E. pose proof (persist_spec d _ _ _ Ha) as Hs. by rewrite E in Hs.
Qed.

Lemma seg_ok_publish g : seg_ok g → seg_ok (seg_publish g).
Proof using Type.
  intros [S1 S2 S3 S4 S5 S6].
  assert (Hp : ∀ it, item_ok g it → item_public (seg_publish g) it).
  { intros it Hit. apply item_ok_bounds in Hit. by destruct it. }
  constructor; simpl; try done.
  - by apply Forall_take, list.Forall_impl with (item_ok g).
  - intros n slot i _. by apply Forall_take, list.Forall_impl with (item_ok g).
Qed.

(** The range of a superblock after publishing at most one new block. *)
Lemma publish_range g slot m b e :
  sb_range m = slots_range (slots (take (public g) (entries g))) →
  (∀ n, n ∈ slots (take (public g) (entries g)) → 1 ≤ n) →
  slots (drop (public g) (entries g)) = option_list slot →
  sb_range (with_range m b e slot) = slots_range (slots (entries g)).
Proof using Type.
  intros Hm Hpos Hd. rewrite <- (take_drop (public g) (entries g)).
  unfold slots at 1. rewrite omap_app. fold (slots (take (public g) (entries g))).
  fold (slots (drop (public g) (entries g))). rewrite Hd. simpl.
  destruct slot as [n|]; cbn [option_list]; [|by rewrite app_nil_r].
  rewrite Hm. destruct (slots (take (public g) (entries g))) as [|x l] eqn:El; [done|].
  cbn [slots_range app start]. destruct (Z.eqb_spec x 0) as [->|].
  { specialize (Hpos 0). exfalso. assert (1 ≤ 0); [|lia]. apply Hpos. left. }
  f_equal. rewrite app_comm_cons. change (option_list (Some n)) with [n]. by rewrite last_snoc.
Qed.

Definition slot_published (b : Book) (slot : option Z) : Book :=
  match slot with Some n => with_slot (book_publish b) n | None => book_publish b end.

Lemma publish_step b s slot d s' :
  refines b s →
  (∀ n, n ∈ slots (take (public (active_segment b)) (entries (active_segment b))) → 1 ≤ n) →
  slots (drop (public (active_segment b)) (entries (active_segment b))) = option_list slot →
  (∀ n, slot = Some n → 1 ≤ n ∧ (last_slot b = 0 ∨ n = last_slot b + 1)) →
  publish slot d s = (Ok tt, s') →
  refines (slot_published b slot) s' ∧
  unpublished s' = 0 ∧ writer s' = writer s ∧ queue s' = queue s.
Proof using Type.
  intros R Hpos Hd Hslot H. unfold publish in H. apply op_bind_inv_ok in H as ([x y] & s1 & E1 & H).
  destruct (writer_persist_step b s d x y s1 R E1) as (R1 & Hr & -> & -> & sb & Hsb & F1 & F2).
  apply op_bind_inv_ok in H as ([] & s2 & E2 & H). unfold writer_publish in E2.
  rewrite (op_bind_ok (modify _) _ _ _ _ eq_refl) in E2. unfold lift in E2.
  match type of E2 with (map_err IO ?c, _) = _ => destruct c as [[]|]; [|done] end.
  cbn [map_err] in E2. injection E2 as E2. rewrite (op_bind_ok (modify _) _ _ _ _ eq_refl) in H.
  apply op_bind_inv_ok in H as ([] & s3 & E3 & H). unfold lift in E3.
  match type of E3 with (map_err IO ?c, _) = _ => destruct c as [[]|]; [|done] end.
  cbn [map_err] in E3. injection E3 as E3. rewrite (op_bind_ok (modify _) _ _ _ _ eq_refl) in H.
  injection H as H. destruct (active_lookup b s1 R1) as (sb0 & Hg & Hs0 & Hod & Hdir).
  assert (sb0 = sb) as -> by congruence. rewrite Hdir, (rf_active _ _ R1) in E2.
  set (g := active_segment b) in *.
  set (sb' := set_meta sb (with_range (meta sb) (zlen (stream (entries g))) (zlen (rec_stream (records g))) slot)) in *.
  assert (Hend : last_slot b ≤ last_slot (slot_published b slot) ∧
                 ∀ n, slot = Some n → start (range (l_meta s1)) ≤ n).
  { pose proof (rf_floor _ _ R1). destruct slot as [n|]; [|done]. simpl.
    destruct (Hslot n eq_refl) as [H1 H2]. split; [lia|]. intros n' [= <-]. lia. }
  assert (Hseg : segments (slot_published b slot) = <[current b := seg_publish g]> (segments b))
    by by destruct slot.
  assert (Hwait : waiting (slot_published b slot) = waiting b) by by destruct slot.
  split_and!; [|by subst|subst; simpl; apply Hr..].
  eapply (refines_local b s1 _ _ (seg_publish g) sb' R1); try (by subst; simpl; destruct slot);
    try (by subst; simpl; destruct slot; [|apply R1]).
  - constructor; simpl; rewrite ?firstn_all; try done.
    + apply seg_ok_publish, Hod.
    + apply Hod.
    + apply F1.
    + apply F2.
    + rewrite (od_index _ _ Hod). done.
    + apply (publish_range g slot (meta sb) 0 0); [apply Hod|done|done].
  - split; simpl; rewrite !firstn_all.
    + exists (stream (entries g)). split; [done|]. subst; simpl. apply F1.
    + exists (rec_stream (records g)). split; [done|]. subst; simpl. apply F2.
  - rewrite Hwait. subst; simpl. rewrite (rf_pending _ _ R1). done.
  - rewrite Hwait. apply R1.
  - intros Hrun. destruct (rf_indexing _ _ R1) as (I1 & I2 & I3 & I4); [by subst|].
    subst; simpl. by destruct slot.
  - intros n. simpl. rewrite firstn_all, <- (take_drop (public g) (entries g)) at 1.
    unfold slots at 1. rewrite omap_app, elem_of_app. intros [Hn|Hn].
    + by apply (rf_start _ _ R1 (current b) g); [apply R1|..].
    + change (n ∈ slots (drop (public g) (entries g))) in Hn. rewrite Hd in Hn.
      destruct slot as [n'|]; [|by apply elem_of_nil in Hn].
      apply list_elem_of_singleton in Hn as ->. by apply Hend.
  - apply Hend.
Qed.

End steps.

(** ** The indexer follows the book *)

Section indexing.
Context {Ks : Type} `{FJ : !Fjall Ks, FL : !FjallLaws Ks} `{IOC : !LedgerIo} `{CO : !LedgerCodec}.

Abbreviation L := (Ledger Ks).

(** ** Sending an item *)

Lemma seg_ok_item g it :
  seg_ok g → item_ok g it →
  (∀ slot i, it = ItemBlock slot i → Forall (item_public g) (items g ++ [it])) →
  seg_ok (seg_item g it).
Proof using Type.
  intros [S1 S2 S3 S4 S5 S6] Hit Hb. constructor; simpl; try done.
  - rewrite length_app. lia.
  - apply Forall_app. split; [done|by repeat constructor].
  - by rewrite take_app_le.
  - intros n slot i Hn. apply lookup_app_Some in Hn as [Hn|[Hl Hn]].
    + pose proof (lookup_lt_Some _ _ _ Hn). rewrite take_app_le by lia. by eapply S6.
    + apply list_lookup_singleton_Some in Hn as [Hn ->]. apply Forall_take. by eapply Hb.
Qed.

Lemma send_step b s it s' :
  refines b s → item_ok (active_segment b) it →
  (∀ slot i, it = ItemBlock slot i →
     Forall (item_public (active_segment b)) (items (active_segment b) ++ [it])) →
  send (item_message (active_segment b) it) s = (Ok tt, s') → refines (book_item b it) s'.
Proof using Type.
  intros R Hit Hb H. unfold send in H. destruct (indexer_running s) eqn:Hrun; [|done]. injection H as <-.
  destruct (active_lookup b s R) as (sb & Hg & Hs & Hod & Hdir). set (g := active_segment b) in *.
  eapply (refines_local b s _ _ (seg_item g it) sb R); try done; try (by apply R); try (by symmetry; apply R).
  - simpl. by rewrite insert_id.
  - destruct Hod as [D1 D2 D3 D4 D5 D6 D7 D8]. constructor; try done.
    + by apply seg_ok_item.
    + simpl. rewrite take_app_le by apply D1. done.
  - intros _. destruct (rf_indexing _ _ R Hrun) as (I1 & I2 & I3 & I4). fold g in I2, I3, I4. simpl.
    rewrite length_app. split_and!; [done|lia|lia| |].
    + rewrite take_app_le by lia. done.
    + rewrite drop_app_le, fmap_app, I4 by lia. done.
  - intros slot. simpl. by apply (rf_start _ _ R (current b)); [apply R|].
Qed.

(** ** Taking an item *)

Lemma insert_accounts_batch w l span :
  batch (insert_accounts w l span) = batch w ++ ((λ a, (account_key a span, [])) <$> l) ∧
  keyspace (insert_accounts w l span) = keyspace w.
Proof using Type.
  revert w. induction l as [|a l IH]; intros w; simpl; [by rewrite app_nil_r|].
  destruct (IH (batch_insert w (account_key a span) [])) as [-> ->]. simpl. by rewrite <- app_assoc.
Qed.

(** The next item of the queue. *)
Lemma queue_head b s m q :
  refines b s → indexer_running s = true → queue s = m :: q →
  ∃ it, items (active_segment b) !! taken b = Some it ∧ m = item_message (active_segment b) it ∧
    q = item_message (active_segment b) <$> drop (S (taken b)) (items (active_segment b)).
Proof using Type.
  intros R Hrun Hq. destruct (rf_indexing _ _ R Hrun) as (_ & _ & _ & I4). rewrite Hq in I4.
  destruct (items (active_segment b) !! taken b) as [it|] eqn:E.
  - rewrite (drop_S _ _ _ E), fmap_cons in I4. injection I4 as -> ->. by exists it.
  - apply lookup_ge_None in E. rewrite drop_ge in I4 by done. done.
Qed.

(** What is on disk after a batch that makes the first [n] items visible. *)
Lemma on_disk_show g sb n ks :
  on_disk g sb → (visible g ≤ n ≤ length (items g))%nat →
  Forall (item_public g) (take n (items g)) →
  ks_data ks = write_all (ks_data (index sb)) (concat (item_entries g <$> drop (visible g) (take n (items g)))) →
  on_disk (seg_show g n) (set_index sb ks).
Proof using Type.
  intros [[S1 S2 S3 S4 S5 S6] D2 D3 D4 D5 D6 D7 D8] Hn Hp Hk. constructor; try done.
  - constructor; simpl; try done. lia.
  - simpl. rewrite Hk, D7, <- foldl_app, <- concat_app, <- fmap_app. do 3 f_equal.
    rewrite <- (take_drop (visible g) (take n (items g))) at 2. rewrite take_take. by rewrite Nat.min_l by lia.
Qed.

Lemma refines_show b s sb n ks w q :
  refines b s → disk s !! current b = Some sb → on_disk (seg_show (active_segment b) n) (set_index sb ks) →
  keyspace w = current b → batch w = [] →
  (n ≤ length (items (active_segment b)))%nat →
  q = item_message (active_segment b) <$> drop n (items (active_segment b)) →
  refines (with_taken (with_segment b (seg_show (active_segment b) n)) n)
    (with_indexer (with_directory s (current b) (set_index sb ks)) q w true).
Proof using Type.
  intros R Hs Hod Hw Hb Hn ->. set (g := active_segment b) in *.
  eapply (refines_local b s _ _ (seg_show g n) (set_index sb ks) R); try done; try (by apply R); try (by symmetry; apply R).
  - destruct (rf_written _ _ R sb Hs). by split.
  - intros _. simpl. split_and!; [done|lia|done| |done].
    rewrite drop_ge by (rewrite length_take; lia). by rewrite Hb.
  - intros slot. simpl. destruct (active_lookup b s R) as (_ & Hg & _).
    by apply (rf_start _ _ R (current b)); [apply R|].
Qed.

(** A batch of all the items taken up to [n], committed. *)
Lemma commit_step b s d w n q w0 :
  refines b s → keyspace w = current b →
  (visible (active_segment b) ≤ n ≤ length (items (active_segment b)))%nat →
  batch w = concat (item_entries (active_segment b) <$>
              drop (visible (active_segment b)) (take n (items (active_segment b)))) →
  Forall (item_public (active_segment b)) (take n (items (active_segment b))) →
  q = item_message (active_segment b) <$> drop n (items (active_segment b)) →
  match commit_batch d w (with_indexer s q w0 true) with
  | (Ok _, s') => refines (with_taken (with_segment b (seg_show (active_segment b) n)) n) s' ∧
                  indexer_running s' = true ∧ queue s' = q
  | (Err _, s') => indexer_running s' = false
  end.
Proof using Type.
  intros R Hk Hn Hb Hp Eq. destruct (active_lookup b s R) as (sb & Hg & Hs & Hod & Hdir).
  unfold commit_batch. rewrite Hk. rewrite (rf_active _ _ R) in Hdir.
  change (directory (with_indexer s q w0 true)) with (directory s). rewrite Hdir.
  unfold index_persist. rewrite Hk. case_bool_decide as Hbe.
  - assert (Hsame : ks_data (index sb) = write_all (ks_data (index sb))
      (concat (item_entries (active_segment b) <$> drop (visible (active_segment b)) (take n (items (active_segment b))))))
      by by rewrite <- Hb, Hbe.
    assert (Hend : refines (with_taken (with_segment b (seg_show (active_segment b) n)) n)
      (with_indexer (with_directory s (current b) (set_index sb (index sb))) q (writer_new (current b)) true)).
    { apply refines_show; [done|done| |done|done|lia|done]. by apply on_disk_show. }
    destruct (requires_sync d); [|done].
    unfold mbind, result_bind. destruct (ks_persist (index sb)); by cbn [map_err].
  - destruct (ks_commit (index sb) (batch w)) as [ks|e] eqn:Ec; cbn [map_err]; [|done].
    split_and!; [|done|done]. apply (refines_show b s sb n ks); [done|done| |done|done|lia|done].
    apply on_disk_show; [done|done|done|]. by rewrite (ks_commit_data _ _ _ Ec), Hb.
Qed.

Lemma index_step_spec b s :
  refines b s → indexer_running s = true →
  let s' := index_step s in
  indexer_running s' = true → refines (book_index b) s' ∧ queue s' = tail (queue s).
Proof using Type.
  intros R Hrun s'. unfold s', index_step. rewrite Hrun. destruct (queue s) as [|m q] eqn:Eq.
  { intros _. split; [|by rewrite Eq]. unfold book_index.
    destruct (rf_indexing _ _ R Hrun) as (_ & _ & _ & I4). rewrite Eq in I4.
    destruct (items (active_segment b) !! taken b) as [it|] eqn:E; [|done].
    by rewrite (drop_S _ _ _ E) in I4. }
  destruct (queue_head b s m q R Hrun Eq) as (it & Hit & -> & Hq).
  destruct (rf_indexing _ _ R Hrun) as (I1 & I2 & I3 & I4).
  destruct (active_lookup b s R) as (sb & Hg & Hs & Hod & Hdir). set (g := active_segment b) in *.
  pose proof (lookup_lt_Some _ _ _ Hit) as Hlt. unfold book_index. fold g. rewrite Hit.
  assert (Hbatch : ∀ x, batch (writer s) ++ item_entries g it = x →
    x = concat (item_entries g <$> drop (visible g) (take (S (taken b)) (items g)))).
  { intros x <-. rewrite (take_S_r _ _ _ Hit), drop_app_le by (rewrite length_take; lia).
    rewrite fmap_app, concat_app, <- I3. simpl. by rewrite app_nil_r. }
  destruct it as [sig accs i j|slot i]; cbn [item_message index_message].
  - intros _. split; [|done].
    eapply (refines_local b s _ _ g sb R); try done; try (by apply R); try (by symmetry; apply R).
    + simpl. by rewrite insert_id.
    + simpl. by rewrite insert_id.
    + intros _. simpl. destruct (insert_accounts_batch (insert_transaction (writer s) sig
        {| tx_blockstore := entry_span g i; tx_execution := record_span g j |}) accs (record_span g j)) as [Ea Ek].
      rewrite Ea, Ek. simpl. rewrite <- app_assoc. split_and!; [done|lia|lia| |done].
      by apply Hbatch.
    + intros slot. by apply (rf_start _ _ R (current b)); [apply R|].
  - pose proof (commit_step b s Buffer (insert_block (writer s) slot (entry_span g i)) (S (taken b)) q (writer s) R) as Hc.
    specialize (Hc I1 ltac:(fold g; lia) (Hbatch _ eq_refl)
      (sg_blocks _ (od_segment _ _ Hod) _ _ _ Hit) Hq).
    destruct (commit_batch _ _ _) as [[[]|e] s1]; simpl; intros Hr; [|congruence].
    by destruct Hc as (? & _ & ?).
Qed.

(** ** Fences *)

Definition add_tail (s : L) (t : list IndexMessage) : L :=
  with_indexer s (queue s ++ t) (writer s) (indexer_running s).

Lemma index_step_tail s t :
  queue s ≠ [] → index_step (add_tail s t) = add_tail (index_step s) t.
Proof using Type.
  intros Hq. unfold index_step. cbn [indexer_running queue add_tail with_indexer].
  destruct (indexer_running s) eqn:Hr; [|by unfold add_tail; rewrite Hr].
  destruct (queue s) as [|m q]; [done|]. cbn [app]. unfold add_tail, index_message, commit_batch.
  destruct m as [sig accs span|slot span|[next|]]; cbn [writer with_indexer queue index_persist].
  - done.
  - unfold directory, index_persist. cbn. by repeat case_match.
  - unfold directory. cbn. by repeat case_match.
  - unfold directory, index_persist. cbn. by repeat case_match.
Qed.

Lemma index_step_queue (s : L) : (length (queue s) ≤ S (length (queue (index_step s))))%nat.
Proof using Type.
  unfold index_step. destruct (indexer_running s); [|lia]. destruct (queue s) as [|m q] eqn:E; [simpl; lia|].
  unfold index_message, commit_batch, index_persist. destruct m as [sig accs span|slot span|[next|]]; simpl;
    repeat (case_match; simplify_eq/=); lia.
Qed.

Lemma iter_tail n (s : L) t :
  (n ≤ length (queue s))%nat → Nat.iter n index_step (add_tail s t) = add_tail (Nat.iter n index_step s) t.
Proof using Type.
  revert s. induction n as [|n IH]; intros s Hn; [done|]. rewrite !Nat.iter_succ_r.
  rewrite index_step_tail by (by intros E; rewrite E in Hn; simpl in Hn; lia).
  apply IH. pose proof (index_step_queue s). lia.
Qed.

Lemma dead_step (s : L) n : indexer_running s = false → Nat.iter n index_step s = s.
Proof using Type.
  intros H. induction n as [|n IH]; [done|]. rewrite Nat.iter_succ, IH. unfold index_step. by rewrite H.
Qed.

Lemma book_fence_index b : book_fence (book_index b) = book_fence b.
Proof using Type.
  unfold book_index. case_match; [|done]. case_match; [done|].
  unfold book_fence.
  match goal with |- context [active_segment (with_taken ?x ?y)] => change (active_segment (with_taken x y)) with (active_segment x) end.
  rewrite active_with_segment. simpl. unfold with_taken, with_segment. simpl. by rewrite insert_insert_eq.
Qed.

(** The worker works the queue off. *)
Lemma drain_spec n b s :
  refines b s → indexer_running s = true → length (queue s) = n →
  let s' := Nat.iter n index_step s in
  indexer_running s' = true →
  queue s' = [] ∧ ∃ b', refines b' s' ∧ book_fence b' = book_fence b ∧ current b' = current b ∧
    items (active_segment b') = items (active_segment b) ∧
    ∀ it, item_public (active_segment b) it → item_public (active_segment b') it.
Proof using Type.
  revert b s. induction n as [|n IH]; intros b s R Hrun Hn s' Hr.
  { apply nil_length_inv in Hn. split; [done|by exists b]. }
  unfold s'. rewrite Nat.iter_succ_r. unfold s' in Hr. rewrite Nat.iter_succ_r in Hr.
  assert (Hr1 : indexer_running (index_step s) = true).
  { destruct (indexer_running (index_step s)) eqn:E; [done|]. rewrite dead_step in Hr by done. congruence. }
  destruct (index_step_spec b s R Hrun Hr1) as [R1 Hq].
  destruct (IH (book_index b) (index_step s) R1 Hr1) as (Q & b' & R' & F & C & Hi & Hp); [|done|].
  { rewrite Hq. destruct (queue s); [done|]. simpl in *. lia. }
  assert (Hix : current (book_index b) = current b ∧
    items (active_segment (book_index b)) = items (active_segment b) ∧
    ∀ it, item_public (active_segment b) it → item_public (active_segment (book_index b)) it).
  { unfold book_index. case_match; [|done]. case_match; [done|]. split; [done|].
    match goal with |- context [active_segment (with_taken ?x ?y)] =>
      change (active_segment (with_taken x y)) with (active_segment x) end.
    rewrite active_with_segment. split; [done|]. by intros []. }
  destruct Hix as (X1 & X2 & X3). split; [done|].
  exists b'. split_and!; [done|by rewrite F, book_fence_index|congruence|congruence|].
  intros it Hit. by apply Hp, X3.
Qed.

Lemma fence_step b s s' :
  refines b s → Forall (item_public (active_segment b)) (items (active_segment b)) →
  fence None s = (Ok tt, s') → refines (book_fence b) s'.
Proof using Type.
  intros R Hp H. unfold fence in H. apply op_bind_inv_ok in H as ([] & s1 & E1 & H).
  unfold send in E1. destruct (indexer_running s) eqn:Hrun; [|done]. injection E1 as E1.
  rewrite (op_bind_ok (modify _) _ _ _ _ eq_refl), (op_bind_ok (read _) _ _ _ _ eq_refl) in H.
  assert (Es1 : s1 = add_tail s [MsgFence None]) by (unfold add_tail; by rewrite Hrun).
  set (n := length (queue s)).
  assert (El : length (queue s1) = S n) by (rewrite Es1; simpl; rewrite length_app; simpl; lia).
  rewrite El, Nat.iter_succ in H. clear E1 El.
  destruct (indexer_running (index_step (Nat.iter n index_step s1))) eqn:Hr2; [|done]. injection H as <-.
  rewrite Es1, iter_tail in Hr2 by (unfold n; lia). rewrite Es1, iter_tail by (unfold n; lia).
  set (s2 := Nat.iter n index_step s) in *.
  destruct (indexer_running s2) eqn:Hr.
  2: { unfold index_step, add_tail in Hr2. cbn [indexer_running with_indexer] in Hr2. rewrite Hr in Hr2.
       cbn [indexer_running with_indexer] in Hr2. done. }
  destruct (drain_spec n b s R Hrun eq_refl Hr) as (Q & b' & R' & F & C & Hi & Hpub). fold s2 in Q, R'.
  destruct (rf_indexing _ _ R' Hr) as (I1 & I2 & I3 & I4). rewrite Q in I4.
  assert (Ht : taken b' = length (items (active_segment b'))).
  { symmetry in I4. apply fmap_nil_inv in I4. apply (f_equal length) in I4. rewrite length_drop in I4. simpl in I4. lia. }
  pose proof (commit_step b' s2 SyncData (writer s2) (length (items (active_segment b'))) [] (writer s2) R' I1) as Hc.
  rewrite firstn_all, drop_all in Hc. rewrite Ht, firstn_all in I3.
  assert (Hall : Forall (item_public (active_segment b')) (items (active_segment b'))).
  { rewrite Hi. eapply list.Forall_impl; [exact Hp|]. apply Hpub. }
  specialize (Hc ltac:(lia) I3 Hall eq_refl). rewrite <- F. unfold book_fence.
  unfold index_step, add_tail in *. cbn [indexer_running queue with_indexer writer] in *. rewrite Hr, Q in *.
  cbn [app index_message queue writer with_indexer] in *.
  change (with_indexer (with_indexer s2 [MsgFence None] (writer s2) true) [] (writer s2) true)
    with (with_indexer s2 [] (writer s2) true) in *.
  destruct (commit_batch SyncData (writer s2) (with_indexer s2 [] (writer s2) true)) as [[[]|e] s3] eqn:E; [apply Hc|].
  simpl in Hr2. congruence.
Qed.

End indexing.
