(* ===== verification/LedgerEvents.v ===== *)
(** * Handling events implements the book *)

From stdpp Require Import base list gmap numbers option.
From S2P Require Import Prelude Effects Memory Records TxFrame LedgerFile LedgerIndex Ledger LedgerReader LedgerBook LedgerRefine LedgerSteps.

Local Open Scope Z_scope.

(** ** Books the engine's events lead to *)

Record book_ok `{!LedgerCodec} `{!WireConstants} (b : Book) : Prop := {
  bk_valid id g : id ∈ open_ids b → segments b !! id = Some g → seg_valid g;
  bk_waiting sig i : waiting b !! sig = Some i → signed (active_segment b) sig i;
  bk_shown id g : id ∈ open_ids b → segments b !! id = Some g → slots (drop (public g) (entries g)) = [];
  bk_slots id g n : id ∈ open_ids b → segments b !! id = Some g → n ∈ slots (entries g) → 1 ≤ n ≤ last_slot b;
  bk_consecutive id g : id ∈ open_ids b → segments b !! id = Some g → ∃ x n, slots (entries g) = seqZ x n;
  bk_last : slots (entries (active_segment b)) = [] ∨
            list.last (slots (entries (active_segment b))) = Some (last_slot b);
  bk_order id id' g g' n n' : id ∈ open_ids b → id' ∈ open_ids b → id < id' →
    segments b !! id = Some g → segments b !! id' = Some g' →
    n ∈ slots (entries g) → n' ∈ slots (entries g') → n < n';
  bk_floor : 0 ≤ last_slot b;
  bk_current : fits 64 (current b);
}.

Section events.
Context {Ks : Type} `{FJ : !Fjall Ks, FL : !FjallLaws Ks} `{IOC : !LedgerIo} `{CO : !LedgerCodec} `{WC : !WireConstants}.

Abbreviation L := (Ledger Ks).

Lemma slots_app l l' : slots (l ++ l') = slots l ++ slots l'.
Proof using Type. apply omap_app. Qed.

Lemma slots_take n l x : x ∈ slots (take n l) → x ∈ slots l.
Proof using Type.
  intros H. rewrite <- (take_drop n l), slots_app, elem_of_app. by left.
Qed.

(** The slots of the active segment, published or not. *)
Lemma active_slots b s n :
  refines b s → book_ok b → n ∈ slots (take (public (active_segment b)) (entries (active_segment b))) → 1 ≤ n.
Proof using Type.
  intros R B Hn. destruct (active_lookup b s R) as (_ & Hg & _).
  eapply (bk_slots _ B (current b)); [apply R|done|]. by eapply slots_take.
Qed.

Lemma publish_items_public b s :
  refines b s → Forall (item_public (active_segment (book_publish b))) (items (active_segment (book_publish b))).
Proof using Type.
  intros R. destruct (active_lookup b s R) as (sb & _ & _ & Hod & _). unfold book_publish.
  rewrite active_with_segment. simpl. eapply list.Forall_impl; [apply Hod|].
  intros it Hit. apply item_ok_bounds in Hit. by destruct it.
Qed.

Lemma sync_step b s s' :
  refines b s →
  (∀ n, n ∈ slots (take (public (active_segment b)) (entries (active_segment b))) → 1 ≤ n) →
  slots (drop (public (active_segment b)) (entries (active_segment b))) = [] →
  sync s = (Ok tt, s') → refines (book_sync b) s'.
Proof using Type.
  intros R Hpos Hs H. unfold sync in H. apply op_bind_inv_ok in H as ([] & s1 & E1 & H).
  destruct (publish_step b s None SyncData s1 R Hpos Hs ltac:(done) E1) as [R1 _].
  eapply fence_step; [exact R1| |exact H]. eapply publish_items_public. exact R.
Qed.

(** ** Adding an entry that is no block *)

Lemma active_slots_entry b s e :
  refines b s → book_ok b → slots [e] = [] →
  let g := active_segment (book_entry b e) in
  (∀ n, n ∈ slots (take (public g) (entries g)) → 1 ≤ n) ∧ slots (drop (public g) (entries g)) = [].
Proof using Type.
  intros R B He g. destruct (active_lookup b s R) as (sb & Hg & _ & Hod & _).
  unfold g, book_entry. rewrite active_with_segment. simpl.
  pose proof (sg_public _ (od_segment _ _ Hod)) as Hp. rewrite take_app_le, drop_app_le by done. split.
  - intros n. by eapply active_slots.
  - rewrite slots_app, He, (bk_shown _ B (current b)); [done|apply R|done].
Qed.

(** ** What a book does not see *)

Lemma refines_ext b (s s' : L) :
  refines b s →
  head (l_meta s') = head (l_meta s) → superblocks (l_meta s') = superblocks (l_meta s) →
  range (l_meta s') = range (l_meta s) → disk s' = disk s → retained s' = retained s →
  active s' = active s → w_blockstore s' = w_blockstore s → w_executions s' = w_executions s →
  pending s' = pending s → queue s' = queue s → writer s' = writer s →
  indexer_running s' = indexer_running s → truncation s' = truncation s → refines b s'.
Proof using Type.
  intros [] E1 E2 E3 E4 E5 E6 E7 E8 E9 E10 E11 E12 E13.
  constructor; unfold written, indexing in *; rewrite ?E1, ?E2, ?E3, ?E4, ?E5, ?E6, ?E7, ?E8, ?E9, ?E10, ?E11, ?E12, ?E13; done.
Qed.

Lemma refines_waiting b (s : L) w p n :
  refines b s → p = entry_span (active_segment b) <$> w →
  (∀ sig i, w !! sig = Some i → ∃ bs, entries (active_segment b) !! i = Some (ETransaction bs)) →
  refines (with_waiting b w) (with_pending s p n).
Proof using Type.
  intros [] -> Hw. by constructor.
Qed.

(** ** The book's own invariant *)

Lemma book_ok_local b b' g g' :
  book_ok b → segments b !! current b = Some g →
  segments b' = <[current b := g']> (segments b) → current b' = current b → open_ids b' = open_ids b →
  last_slot b' = last_slot b → slots (entries g') = slots (entries g) →
  slots (drop (public g') (entries g')) = [] → seg_valid g' →
  (∀ sig i, waiting b' !! sig = Some i → signed g' sig i) → book_ok b'.
Proof using Type.
  intros [V1 V2 B1 B2 B3 B4 B5 B6 B7] Hg Hseg Hcur Hopen Hlast Hsl Hdr Hval Hwait.
  assert (Hact : active_segment b' = g') by (unfold active_segment, segment; by rewrite Hseg, Hcur, lookup_insert_eq).
  assert (Hl : ∀ id g1, segments b' !! id = Some g1 →
    ∃ g0, segments b !! id = Some g0 ∧ slots (entries g1) = slots (entries g0) ∧
      (slots (drop (public g1) (entries g1)) = [] ∨ g1 = g0)).
  { intros id g1. rewrite Hseg. destruct (decide (id = current b)) as [->|Hn].
    - rewrite lookup_insert_eq. intros [= <-]. exists g. split_and!; auto.
    - rewrite lookup_insert_ne by done. intros Hg1. exists g1. split_and!; [done|done|by right]. }
  constructor; rewrite ?Hopen, ?Hlast, ?Hact, ?Hcur; try done.
  - intros id g1 Hid. rewrite Hseg. destruct (decide (id = current b)) as [->|Hn].
    + rewrite lookup_insert_eq. by intros [= <-].
    + rewrite lookup_insert_ne by done. by apply V1.
  - intros id g1 Hid Hg1. destruct (Hl _ _ Hg1) as (g0 & Hg0 & _ & [?| ->]); [done|]. by eapply B1.
  - intros id g1 n Hid Hg1. destruct (Hl _ _ Hg1) as (g0 & Hg0 & -> & _). by eapply B2.
  - intros id g1 Hid Hg1. destruct (Hl _ _ Hg1) as (g0 & Hg0 & -> & _). by eapply B3.
  - assert (active_segment b = g) as E by (unfold active_segment, segment; by rewrite Hg).
    rewrite E in B4. by rewrite Hsl.
  - intros id id' g1 g2 n n' Hid Hid' Hlt Hg1 Hg2. destruct (Hl _ _ Hg1) as (g0 & Hg0 & -> & _).
    destruct (Hl _ _ Hg2) as (g3 & Hg3 & -> & _). by apply (B5 id id').
Qed.

(** What is valid stays so when a segment grows. *)
Lemma signed_grows g g' sig i : grows g g' → signed g sig i → signed g' sig i.
Proof using Type. intros [[l E] _] (bs & Hb & Hs). exists bs. rewrite E. by rewrite (lookup_app_l_Some _ _ _ _ Hb). Qed.
Lemma item_valid_grows g g' it : grows g g' → item_valid g it → item_valid g' it.
Proof using Type. intros Hg. destruct it; [|done]. intros [Hs Ha]. split; [by eapply signed_grows|done]. Qed.
Lemma seg_valid_grows g g' :
  grows g g' → seg_valid g →
  Forall entry_valid (drop (length (entries g)) (entries g')) →
  Forall record_valid (drop (length (records g)) (records g')) →
  Forall (item_valid g') (drop (length (items g)) (items g')) → items g `prefix_of` items g' → seg_valid g'.
Proof using Type.
  intros Hg [V1 V2 V3] H1 H2 H3 [li Hi]. pose proof Hg as [[le He] [lr Hr]].
  rewrite He, drop_app_length in H1. rewrite Hr, drop_app_length in H2. rewrite Hi, drop_app_length in H3.
  constructor; rewrite ?He, ?Hr, ?Hi; apply Forall_app; (split; [|done]); [done|done|].
  eapply list.Forall_impl; [exact V3|]. intros it. by apply item_valid_grows.
Qed.

Lemma active_valid b (s : L) : refines b s → book_ok b → seg_valid (active_segment b).
Proof using Type.
  intros R B. destruct (active_lookup b s R) as (sb & Hg & _). by eapply (bk_valid _ B (current b)); [apply R|].
Qed.

(** Steps on the active segment that keep its slots. *)
Lemma book_ok_grow b (s : L) b' g' :
  refines b s → book_ok b →
  segments b' = <[current b := g']> (segments b) → current b' = current b → open_ids b' = open_ids b →
  last_slot b' = last_slot b → waiting b' = waiting b → grows (active_segment b) g' →
  items (active_segment b) `prefix_of` items g' →
  slots (drop (length (entries (active_segment b))) (entries g')) = [] →
  slots (drop (public g') (entries g')) = [] →
  Forall entry_valid (drop (length (entries (active_segment b))) (entries g')) →
  Forall record_valid (drop (length (records (active_segment b))) (records g')) →
  Forall (item_valid g') (drop (length (items (active_segment b))) (items g')) → book_ok b'.
Proof using Type.
  intros R B Hseg Hcur Hopen Hlast Hw Hgr Hi Hsl Hdr H1 H2 H3.
  destruct (active_lookup b s R) as (sb & Hg & _). eapply (book_ok_local b); try done.
  - destruct Hgr as [[l E] _]. rewrite E in Hsl |- *. rewrite drop_app_length in Hsl.
    by rewrite slots_app, Hsl, app_nil_r.
  - apply (seg_valid_grows (active_segment b)); try done. by eapply active_valid.
  - rewrite Hw. intros sig i Hs. eapply signed_grows; [done|]. by apply (bk_waiting _ B).
Qed.

Lemma active_shown b (s : L) :
  refines b s → book_ok b → slots (drop (public (active_segment b)) (entries (active_segment b))) = [].
Proof using Type.
  intros R B. destruct (active_lookup b s R) as (sb & Hg & _). by apply (bk_shown _ B (current b)); [apply R|].
Qed.

Lemma book_ok_entry b (s : L) e :
  refines b s → book_ok b → slots [e] = [] → entry_valid e → book_ok (book_entry b e).
Proof using Type.
  intros R B He Hv. destruct (active_lookup b s R) as (sb & Hg & _ & Hod & _).
  eapply (book_ok_grow b s); try done; cbn; rewrite ?drop_app_length, ?drop_all; try done.
  - apply grows_entry.
  - pose proof (sg_public _ (od_segment _ _ Hod)) as Hp. rewrite drop_app_le by done.
    by rewrite slots_app, He, (active_shown b s).
  - by constructor.
Qed.

Lemma book_ok_publish b (s : L) : refines b s → book_ok b → book_ok (book_publish b).
Proof using Type.
  intros R B. eapply (book_ok_grow b s); try done; cbn; by rewrite drop_all.
Qed.

Lemma book_ok_item b (s : L) it :
  refines b s → book_ok b → item_valid (active_segment b) it → book_ok (book_item b it).
Proof using Type.
  intros R B Hv. eapply (book_ok_grow b s); try done; cbn; rewrite ?drop_all; try done.
  - by exists [it].
  - by eapply active_shown.
  - rewrite drop_app_length. by constructor.
Qed.

Lemma book_ok_record b (s : L) x :
  refines b s → book_ok b → record_valid x → book_ok (with_segment b (seg_record (active_segment b) x)).
Proof using Type.
  intros R B Hv. eapply (book_ok_grow b s); try done; cbn; rewrite ?drop_all; try done.
  - apply grows_record.
  - by eapply active_shown.
  - rewrite drop_app_length. by constructor.
Qed.

Lemma book_ok_show b (s : L) n : refines b s → book_ok b → book_ok (with_taken (with_segment b (seg_show (active_segment b) n)) n).
Proof using Type.
  intros R B. eapply (book_ok_grow b s); try done; cbn; rewrite ?drop_all; try done. by eapply active_shown.
Qed.

(** Fields the invariant does not mention. *)
Lemma book_ok_ext b b' :
  segments b' = segments b → current b' = current b → open_ids b' = open_ids b →
  last_slot b' = last_slot b →
  (∀ sig i, waiting b' !! sig = Some i → signed (active_segment b) sig i) → book_ok b → book_ok b'.
Proof using Type.
  intros E1 E2 E3 E4 Hw B. assert (Ha : active_segment b' = active_segment b) by (unfold active_segment, segment; by rewrite E1, E2).
  destruct B. constructor; rewrite ?Ha, ?E1, ?E2, ?E3, ?E4; done.
Qed.

Lemma book_ok_index b (s : L) : refines b s → book_ok b → book_ok (book_index b).
Proof using Type.
  intros R B. unfold book_index. case_match; [|done]. case_match; [|by eapply book_ok_show].
  eapply book_ok_ext; [..|exact B]; try done. by apply (bk_waiting _ B).
Qed.

Lemma book_ok_sync b (s : L) : refines b s → book_ok b → book_ok (book_sync b).
Proof using Type.
  intros R B. unfold book_sync, book_fence, book_publish. rewrite !active_with_segment.
  set (g := seg_publish (active_segment b)).
  eapply (book_ok_grow b s _ (seg_show g (length (items g)))); try done; cbn; rewrite ?drop_all; try done.
  by rewrite insert_insert_eq.
Qed.

(** What could be written was encoded. *)
Lemma serialize_into_ok enc_ fw fw' : serialize_into enc_ fw = (Ok tt, fw') → enc_.2 = Ok tt.
Proof using Type. unfold serialize_into. intros (? & ? & _ & H)%op_bind_inv_ok. unfold lift in H. congruence. Qed.

Lemma write_blockstore_encoded e (s : L) span s' :
  write_blockstore e s = (Ok span, s') → (entry_fragments e).2 = Ok tt.
Proof using Type.
  unfold write_blockstore. rewrite (op_bind_ok (read _) _ _ _ _ eq_refl). intros ([] & s1 & H & _)%op_bind_inv_ok.
  unfold on_blockstore, with_error in H. destruct (serialize_into _ _) as [[[]|] [f w]] eqn:E; [|done].
  by eapply serialize_into_ok.
Qed.

Lemma write_execution_encoded x (s : L) span s' :
  fits 64 (header_slot (header x)) → writer_write_execution x s = (Ok span, s') → record_valid (stored x).
Proof using Type.
  intros Hfit. unfold writer_write_execution. rewrite (op_bind_ok (read _) _ _ _ _ eq_refl).
  intros ([] & s1 & H & (v & s2 & H' & _)%op_bind_inv_ok)%op_bind_inv_ok. unfold on_executions, with_error in H, H'.
  destruct (serialize_into _ _) as [[[]|] [f w]] eqn:E; [|done]. apply serialize_into_ok in E.
  destruct (compress _ _) as [[?|] [f' w']] eqn:E'; [|done]. unfold compress in E'.
  apply op_bind_inv_ok in E' as (out & ? & E' & _). unfold lift in E'. injection E' as E' _.
  assert (stored_details x = bitcode_encode (details (stored x))) as Es.
  { unfold stored_details, stored. simpl. by case_match. }
  split_and!; [done|done|exists out; by rewrite <- Es|]. unfold stored. simpl. case_match eqn:Ez; [done|].
  apply Z.ltb_ge in Ez. done.
Qed.

(** ** One event *)

Lemma transaction_event b (s : L) sig bs s' :
  refines b s → book_ok b → transaction_signature bs = Ok sig → write_transaction sig bs s = (Ok tt, s') →
  refines (book_event (EvTransaction sig bs) b) s' ∧ book_ok (book_event (EvTransaction sig bs) b).
Proof using Type.
  intros R B Hsig H. unfold write_transaction in H. apply op_bind_inv_ok in H as (span & s1 & E1 & H).
  destruct (write_blockstore_step b s _ _ _ R E1) as (R1 & -> & _). unfold modify in H. injection H as <-.
  assert (B1 : book_ok (book_entry b (ETransaction bs))).
  { eapply book_ok_entry; try done. split; [by eapply write_blockstore_encoded|by exists sig]. }
  assert (Hl : signed (active_segment (book_entry b (ETransaction bs))) sig (length (entries (active_segment b)))).
  { exists bs. unfold book_entry. rewrite active_with_segment. simpl. by rewrite lookup_app_r, Nat.sub_diag by done. }
  assert (Hs : ∀ sig' i, <[sig := length (entries (active_segment b))]> (waiting b) !! sig' = Some i →
            signed (active_segment (book_entry b (ETransaction bs))) sig' i).
  { intros sig' i. destruct (decide (sig' = sig)) as [->|Hn].
    - rewrite lookup_insert_eq. by intros [= <-].
    - rewrite lookup_insert_ne by done. apply (bk_waiting _ B1). }
  cbn [book_event]. split; [apply refines_waiting; [done| |]|by eapply book_ok_ext; [..|exact B1]].
  - rewrite fmap_insert, (rf_pending _ _ R1). done.
  - intros sig' i (bs' & Hb & _)%Hs. by exists bs'.
Qed.

Lemma execution_event b (s : L) x accs s' :
  refines b s → book_ok b → event_ok (EvExecution x accs) b → write_execution x accs s = (Ok tt, s') →
  refines (book_event (EvExecution x accs) b) s' ∧ book_ok (book_event (EvExecution x accs) b).
Proof using Type.
  intros R B (Hfit & keys & Hk & ->) H. unfold write_execution in H. rewrite (op_bind_ok (read _) _ _ _ _ eq_refl) in H.
  set (sig := header_signature (header x)) in *. rewrite (rf_pending _ _ R), lookup_fmap in H.
  cbn [book_event]. fold sig. destruct (waiting b !! sig) as [i|] eqn:Ew; cbn [fmap option_fmap option_map] in H.
  2: { by injection H as <-. }
  rewrite (op_bind_ok (modify _) _ _ _ _ eq_refl) in H.
  set (b1 := with_waiting b (delete sig (waiting b))).
  match type of H with _ (with_pending s ?p ?n) = _ => assert (R1 : refines b1 (with_pending s p n)) end.
  { apply refines_waiting; [done|by rewrite (rf_pending _ _ R), fmap_delete|]. intros sig' i'. rewrite lookup_delete_Some.
    intros [_ Hi]. by eapply (rf_waiting _ _ R). }
  assert (B1 : book_ok b1).
  { eapply book_ok_ext; [..|exact B]; try done. intros sig' i'. simpl. rewrite lookup_delete_Some.
    intros [_ Hi]. by apply (bk_waiting _ B). }
  apply op_bind_inv_ok in H as (span & s2 & E2 & H).
  destruct (write_execution_step b1 _ x span s2 R1 E2) as (R2 & -> & _). set (b2 := with_segment b1 _) in *.
  assert (B2 : book_ok b2) by (eapply book_ok_record; [done..|by eapply write_execution_encoded]).
  assert (Ha : active_segment b2 = seg_record (active_segment b) (stored x)) by apply active_with_segment.
  change (active_segment b1) with (active_segment b) in H.
  destruct (bk_waiting _ B sig i Ew) as (bs & Hbs & Hsg).
  split; [|eapply book_ok_item; try done].
  2: { split; [exists bs; by rewrite Ha|]. apply Forall_fmap. eapply list.Forall_impl; [done|]. intros key Hl. by exists key. }
  apply (send_step b2 s2 _ _ R2); [| |].
  - rewrite Ha. split; [by exists bs|]. exists (stored x). split; [|done]. simpl.
    by rewrite lookup_app_r, Nat.sub_diag by done.
  - done.
  - rewrite Ha. cbn [item_message].
    assert (entry_span (seg_record (active_segment b) (stored x)) i = entry_span (active_segment b) i) as -> by done.
    done.
Qed.

Lemma checkpoint_event b (s : L) c s' :
  refines b s → book_ok b → write_checkpoint c s = (Ok tt, s') →
  refines (book_event (EvCheckpoint c) b) s' ∧ book_ok (book_event (EvCheckpoint c) b).
Proof using Type.
  intros R B H. unfold write_checkpoint in H. apply op_bind_inv_ok in H as (span & s1 & E1 & H).
  destruct (write_blockstore_step b s _ _ _ R E1) as (R1 & _ & _).
  assert (B1 : book_ok (book_entry b (ECheckpoint c))).
  { eapply book_ok_entry; try done. split; [by eapply write_blockstore_encoded|done]. }
  destruct (active_slots_entry b s (ECheckpoint c) R B eq_refl) as [P1 P2].
  destruct (publish_step _ _ None _ _ R1 P1 P2 ltac:(done) H) as [R2 _].
  split; [done|]. by eapply book_ok_publish.
Qed.

Lemma sync_event b (s : L) s' :
  refines b s → book_ok b → sync s = (Ok tt, s') → refines (book_sync b) s' ∧ book_ok (book_sync b).
Proof using Type.
  intros R B H. split; [|by eapply book_ok_sync]. destruct (active_lookup b s R) as (sb & Hg & _).
  eapply sync_step; [done| | |done].
  - intros n. by eapply active_slots.
  - apply (bk_shown _ B (current b)); [apply R|done].
Qed.

Lemma reset_event b (s : L) r s' :
  refines b s → book_ok b → write_reset r s = (Ok tt, s') →
  refines (book_event (EvReset r) b) s' ∧ book_ok (book_event (EvReset r) b).
Proof using Type.
  intros R B H. unfold write_reset in H. apply op_bind_inv_ok in H as (span & s1 & E1 & H).
  destruct (write_blockstore_step b s _ _ _ R E1) as (R1 & _ & _).
  eapply sync_event; [exact R1| |done]. eapply book_ok_entry; try done.
  split; [by eapply write_blockstore_encoded|done].
Qed.

(** ** Blocks *)

Lemma seqZ_extend y n z : list.last (seqZ y n) = Some z → seqZ y n ++ [z + 1] = seqZ y (n + 1).
Proof using Type.
  rewrite last_lookup. intros H. apply lookup_seqZ in H as [Hz Hn]. rewrite length_seqZ in Hz, Hn.
  rewrite seqZ_app by lia. do 2 f_equal. rewrite (seqZ_cons _ 1), seqZ_nil by lia. f_equal. lia.
Qed.

Lemma book_ok_block b (s : L) x :
  refines b s → book_ok b → event_ok (EvBlock x) b → (entry_fragments (EBlock x)).2 = Ok tt →
  book_ok (book_event (EvBlock x) b).
Proof using Type.
  intros R B (Hpos & Hfit & Hnext) Henc. destruct (active_lookup b s R) as (sb & Hg & _ & Hod & _).
  cbn [book_event]. set (slot := block_slot (payload x)) in *.
  set (it := ItemBlock slot (length (entries (active_segment b)))).
  set (g := active_segment b) in *. set (g' := seg_item (seg_publish (seg_entry g (EBlock x))) it).
  set (b' := with_slot _ slot).
  assert (Hseg : segments b' = <[current b := g']> (segments b)).
  { unfold b', book_item, book_publish, book_entry. rewrite !active_with_segment. simpl. by rewrite !insert_insert_eq. }
  assert (Hact : active_segment b' = g').
  { unfold active_segment, segment. rewrite Hseg. cbn. by rewrite lookup_insert_eq. }
  assert (Hsl : slots (entries g') = slots (entries g) ++ [slot]) by (simpl; by rewrite slots_app).
  assert (Hmax : ∀ id g0 n, id ∈ open_ids b → segments b !! id = Some g0 → n ∈ slots (entries g0) → n < slot).
  { intros id g0 n Hid Hg0 Hn. pose proof (bk_slots _ B _ _ _ Hid Hg0 Hn). destruct Hnext; lia. }
  assert (Hc : ∀ id g1, segments b' !! id = Some g1 → (id = current b ∧ g1 = g') ∨
            (id ≠ current b ∧ segments b !! id = Some g1)).
  { intros id g1. rewrite Hseg. destruct (decide (id = current b)) as [->|Hn].
    - rewrite lookup_insert_eq. intros [= <-]. by left.
    - rewrite lookup_insert_ne by done. by right. }
  pose proof (bk_floor _ B) as Hf. change (open_ids b') with (open_ids b) in *.
  assert (Hgr : grows g g') by apply (grows_entry g (EBlock x)).
  constructor; change (open_ids b') with (open_ids b); change (last_slot b') with slot.
  - intros id g1 Hid Hg1. destruct (Hc _ _ Hg1) as [[-> ->]|[_ Hg2]]; [|by eapply (bk_valid _ B)].
    apply (seg_valid_grows g); try done; [by eapply (bk_valid _ B)|..]; simpl; rewrite ?drop_app_length, ?drop_all;
      [by constructor|done|by constructor|by eexists].
  - rewrite Hact. intros sig i Hi. eapply signed_grows; [done|]. by apply (bk_waiting _ B).
  - intros id g1 Hid Hg1. destruct (Hc _ _ Hg1) as [[-> ->]|[_ Hg2]]; [simpl; by rewrite drop_all|].
    by eapply (bk_shown _ B).
  - intros id g1 n Hid Hg1. destruct (Hc _ _ Hg1) as [[-> ->]|[_ Hg2]].
    + rewrite Hsl, elem_of_app, list_elem_of_singleton. intros [Hn| ->]; [|lia].
      pose proof (bk_slots _ B _ _ _ Hid Hg Hn). pose proof (Hmax _ _ _ Hid Hg Hn). lia.
    + intros Hn. pose proof (bk_slots _ B _ _ _ Hid Hg2 Hn). pose proof (Hmax _ _ _ Hid Hg2 Hn). lia.
  - intros id g1 Hid Hg1. destruct (Hc _ _ Hg1) as [[-> ->]|[_ Hg2]]; [|by eapply (bk_consecutive _ B)].
    rewrite Hsl. destruct (bk_last _ B) as [E|E]; fold g in E.
    + rewrite E. by exists slot, 1.
    + destruct (bk_consecutive _ B _ _ Hid Hg) as (y & n & Ey). rewrite Ey in E |- *. exists y, (n + 1).
      assert (Hin : last_slot b ∈ slots (entries g)).
      { rewrite Ey. rewrite last_lookup in E. by eapply list_elem_of_lookup_2. }
      pose proof (bk_slots _ B _ _ _ Hid Hg Hin). destruct Hnext as [Hz| ->]; [lia|]. by apply seqZ_extend.
  - right. rewrite Hact, Hsl. by rewrite last_snoc.
  - intros id id' g1 g2 n n' Hid Hid' Hlt Hg1 Hg2.
    destruct (Hc _ _ Hg1) as [[-> ->]|[Hne1 Hg3]], (Hc _ _ Hg2) as [[-> ->]|[Hne2 Hg4]]; try lia.
    + pose proof (proj1 (rf_ids _ _ R id') Hid'). lia.
    + rewrite Hsl, elem_of_app, list_elem_of_singleton. intros Hn [Hn'| ->]; [|by eapply (Hmax id g1)].
      by apply (bk_order _ B id (current b) g1 g n n').
    + by apply (bk_order _ B id id' g1 g2 n n').
  - lia.
  - apply (bk_current _ B).
Qed.

Lemma block_core b (s : L) x span s1 s2 s3 :
  refines b s → book_ok b → event_ok (EvBlock x) b →
  write_blockstore (EBlock x) s = (Ok span, s1) →
  publish (Some (block_slot (payload x))) Buffer s1 = (Ok tt, s2) →
  send (MsgBlock (block_slot (payload x)) span) s2 = (Ok tt, s3) →
  refines (book_event (EvBlock x) b) s3.
Proof using Type.
  intros R B (Hpos & Hfit & Hnext) E1 E2 E3. destruct (active_lookup b s R) as (sb & Hg & _ & Hod & _).
  destruct (write_blockstore_step b s _ _ _ R E1) as (R1 & -> & _).
  set (slot := block_slot (payload x)) in *. set (b1 := book_entry b (EBlock x)) in *.
  pose proof (sg_public _ (od_segment _ _ Hod)) as Hpl.
  assert (Ha1 : active_segment b1 = seg_entry (active_segment b) (EBlock x)) by apply active_with_segment.
  destruct (publish_step b1 s1 (Some slot) Buffer s2 R1) as [R2 _]; [| | |done|].
  - intros n. rewrite Ha1. simpl. rewrite take_app_le by done. by eapply active_slots.
  - rewrite Ha1. simpl. rewrite drop_app_le, slots_app by done.
    by rewrite (bk_shown _ B (current b) _ (rf_current _ _ R) Hg).
  - intros n [= <-]. done.
  - set (b2 := slot_published b1 (Some slot)) in *.
    set (it := ItemBlock slot (length (entries (active_segment b)))).
    assert (Ha2 : active_segment b2 = seg_publish (active_segment b1)) by apply active_with_segment.
    assert (Hok : item_ok (active_segment b2) it).
    { rewrite Ha2, Ha1. exists x. split; [|done]. simpl. by rewrite lookup_app_r, Nat.sub_diag by done. }
    change (refines (book_item b2 it) s3). apply (send_step b2 s2 it s3 R2 Hok).
    + intros _ _ _. apply Forall_app. split; [|repeat constructor].
      * apply (publish_items_public b1 s1 R1).
      * rewrite Ha2, Ha1. simpl. rewrite length_app. simpl. lia.
    + rewrite Ha2. exact E3.
Qed.

(** ** Retention *)

Lemma first_id_spec (r : gset Z) :
  match first_id r with
  | None => r = ∅
  | Some id => id ∈ r ∧ ∀ id', id' ∈ r → id ≤ id'
  end.
Proof using Type.
  unfold first_id. destruct (elements r) as [|x l] eqn:E; [by apply elements_empty_iff, leibniz_equiv_iff in E|].
  assert (H : (foldr Z.min x l ∈ x :: l) ∧ ∀ y, y ∈ x :: l → foldr Z.min x l ≤ y).
  { clear E. induction l as [|y l [I1 I2]]; simpl.
    - split; [left|]. intros y Hy. apply list_elem_of_singleton in Hy. lia.
    - split.
      + destruct (Z.min_spec y (foldr Z.min x l)) as [[_ ->]|[_ ->]]; [right; left|].
        apply elem_of_cons in I1 as [->|I1]; [left|]. right. by right.
      + intros z Hz. rewrite !elem_of_cons in Hz. destruct Hz as [->|[->|Hz]].
        * assert (foldr Z.min x l ≤ x) by (apply I2; left). lia.
        * lia.
        * assert (foldr Z.min x l ≤ z) by (apply I2; by right). lia. }
  rewrite <- E in H. setoid_rewrite elem_of_elements in H. done.
Qed.

Lemma book_ok_truncate b : book_ok b → current b ∈ open_ids b → book_ok (book_truncate b).
Proof using Type.
  intros [V1 V2 B1 B2 B3 B4 B5 B6 B7] Hc. unfold book_truncate. pose proof (first_id_spec (open_ids b)) as Hf.
  destruct (first_id (open_ids b)) as [id|]; [|done]. case_match; [done|]. constructor; simpl; try done.
  - intros i g Hi. apply V1. set_solver.
  - intros i g Hi. apply B1. set_solver.
  - intros i g n Hi. apply B2. set_solver.
  - intros i g Hi. apply B3. set_solver.
  - intros i i' g g' n n' Hi Hi'. apply B5; set_solver.
Qed.

Lemma join_step b (s : L) s' :
  refines b s → join_truncation s = (Ok tt, s') → refines b s' ∧ truncation s' = None.
Proof using Type.
  intros R H. unfold join_truncation in H. destruct (truncation s) as [id|] eqn:Et; [|by injection H as <-].
  destruct (ks_delete _) as [[]|]; [|done]. injection H as <-. split; [|done].
  destruct (rf_truncation _ _ R id Et) as [Hid _]. destruct R. constructor; simpl; try done.
  - intros i Hi. rewrite lookup_delete_None. right. auto.
  - intros i Hi. rewrite lookup_delete_ne by (intros ->; done). auto.
  - intros sb. rewrite lookup_delete_ne by (intros ->; done). apply rf_written.
Qed.

(** The range in a superblock's metadata is the range of its slots. *)
Lemma segment_range b (s : L) id g sb :
  book_ok b → id ∈ open_ids b → segments b !! id = Some g → on_disk g sb →
  slots (entries g) = [] ∧ sb_range (meta sb) = default_range ∨
  ∃ x n, 0 < n ∧ slots (entries g) = seqZ x n ∧ sb_range (meta sb) = {| start := x; end_ := x + n - 1 |}.
Proof using Type.
  intros B Hid Hg Hod. pose proof (od_range _ _ Hod) as Hr. pose proof (bk_shown _ B _ _ Hid Hg) as Hd.
  destruct (bk_consecutive _ B _ _ Hid Hg) as (x & n & Ex).
  assert (Ht : slots (take (public g) (entries g)) = slots (entries g)).
  { rewrite <- (take_drop (public g) (entries g)) at 2. by rewrite slots_app, Hd, app_nil_r. }
  rewrite Ht, Ex in Hr. rewrite Ex. destruct (decide (n ≤ 0)) as [Hn|Hn].
  - left. by rewrite seqZ_nil in Hr |- *.
  - right. exists x, n. split_and!; [lia|done|]. rewrite Hr. rewrite seqZ_cons at 1 by lia. simpl. f_equal.
    rewrite <- seqZ_cons by lia. rewrite last_lookup, length_seqZ, lookup_seqZ_lt by lia. simpl. lia.
Qed.

Lemma truncate_step b (s : L) s' :
  refines b s → book_ok b → truncate s = (Ok tt, s') → refines (book_truncate b) s'.
Proof using Type.
  intros R B H. unfold truncate in H. apply op_bind_inv_ok in H as ([] & s1 & E1 & H).
  destruct (join_step b s s1 R E1) as [R1 Ht1]. clear E1 R. apply op_bind_inv_ok in H as (o & s2 & E2 & H).
  unfold modify in H. injection H as <-. unfold ledger_truncate in E2. rewrite (rf_retained _ _ R1) in E2.
  unfold book_truncate. pose proof (first_id_spec (open_ids b)) as Hf.
  destruct (first_id (open_ids b)) as [id|]; [|pose proof (rf_current _ _ R1); set_solver].
  rewrite (rf_head _ _ R1) in E2. destruct Hf as [Hf1 Hf2]. destruct (Z.leb_spec (current b) id) as [Hle|Hlt].
  { injection E2 as <- <-. by eapply refines_ext. }
  destruct (io_flush_meta id) as [[]|]; [|done]. cbn [map_err mbind result_bind] in E2. injection E2 as <- <-.
  destruct (rf_disk _ _ R1 id Hf1) as (g & sb & Hg & Hs & Hod).
  assert (Hdir : directory s1 id = sb) by (unfold directory; by rewrite Hs).
  set (e := end_ (sb_range (meta (directory s1 id)))).
  assert (He : e = 0 ∨ e ∈ slots (entries g)).
  { unfold e. rewrite Hdir. destruct (segment_range b s1 id g sb B Hf1 Hg Hod) as [[_ ->]|(x & n & Hn & -> & ->)]; [by left|].
    right. simpl. apply elem_of_seqZ. lia. }
  assert (Hn : superblocks (l_meta s1) ≠ 1).
  { intros E. pose proof (proj1 (rf_ids _ _ R1 id) Hf1). lia. }
  assert (Hid : id = current b - superblocks (l_meta s1) + 1).
  { pose proof (proj1 (rf_ids _ _ R1 id) Hf1) as H1. pose proof (rf_count _ _ R1) as H2.
    assert (current b - superblocks (l_meta s1) + 1 ∈ open_ids b) as H3 by (apply (rf_ids _ _ R1); lia).
    apply Hf2 in H3. lia. }
  destruct R1. constructor; simpl; try done.
  - apply elem_of_difference. split; [done|]. rewrite elem_of_singleton. lia.
  - lia.
  - intros i. rewrite elem_of_difference, elem_of_singleton, rf_ids. lia.
  - intros i Hi. apply rf_disk. set_solver.
  - intros i g' n Hi Hg' Hn'. apply elem_of_difference in Hi as [Hi Hne]. apply slots_take in Hn'.
    pose proof (bk_slots _ B _ _ _ Hi Hg' Hn'). destruct He as [->|He]; [lia|].
    pose proof (Hf2 i Hi). assert (id < i) by (assert (i ≠ id) by set_solver; lia).
    pose proof (bk_order _ B id i g g' e n Hf1 Hi ltac:(done) Hg Hg' He Hn'). lia.
  - pose proof (bk_floor _ B). destruct He as [->|He]; [lia|]. pose proof (bk_slots _ B _ _ _ Hf1 Hg He). lia.
  - intros i [= <-]. split; [set_solver|done].
Qed.

End events.

(** ** Sealing a superblock, and any event

    The rotation to the next superblock and, from the lemmas for the single events, that
    whatever the appender handles without an error is the book's step for the event. *)

Section rotate.
Context {Ks : Type} `{FJ : !Fjall Ks, FL : !FjallLaws Ks} `{IOC : !LedgerIo} `{CO : !LedgerCodec} `{WC : !WireConstants}.

Abbreviation L := (Ledger Ks).

Lemma active_rotate b : active_segment (book_rotate b) = empty_segment.
Proof using Type. unfold active_segment, segment. simpl. by rewrite lookup_insert_eq. Qed.

Lemma seg_ok_empty : seg_ok empty_segment.
Proof using Type. by constructor; simpl. Qed.

Lemma on_disk_new m :
  version m = VERSION → cursor_blockstore m = 0 → cursor_executions m = 0 → sb_range m = default_range →
  on_disk empty_segment (Build_Superblock m empty_file empty_file (ks_new : Ks)).
Proof using Type.
  intros Hv Hb He Hr. constructor; simpl; try done. apply ks_new_data.
Qed.

Lemma written_new (m : SuperblockMeta) (ks : Ks) s :
  w_blockstore s = append_file_new empty_file 0 → w_executions s = append_file_new empty_file 0 →
  written empty_segment (Build_Superblock m empty_file empty_file ks) s.
Proof using Type.
  intros Hb He. unfold written. rewrite Hb, He.
  split; exists []; (split; [done|]); apply (appended_new empty_file []), holds_empty; done.
Qed.

(** Fencing with nothing queued moves the indexer to the next keyspace. *)
Lemma fence_next (s : L) next s' :
  queue s = [] → fence (Some next) s = (Ok tt, s') →
  indexer_running s = true ∧ s' = with_indexer s [] (writer_new next) true.
Proof using Type.
  intros Hq H. unfold fence in H. apply op_bind_inv_ok in H as ([] & s1 & E1 & H).
  unfold send in E1. destruct (indexer_running s) eqn:Er; [|done]. injection E1 as <-. split; [done|].
  rewrite (op_bind_ok (modify _) _ _ _ _ eq_refl), (op_bind_ok (read _) _ _ _ _ eq_refl) in H.
  rewrite Hq in H. cbn in H. unfold index_step in H. cbn in H.
  destruct (ks_rotate_memtable _) as [[]|]; cbn in H; [|done]. by injection H as <-.
Qed.

Lemma rotate_step b (s : L) x s' :
  refines b s → seal_id (payload x) = current b → waiting b = ∅ →
  taken b = length (items (active_segment b)) → rotate x s = (Ok tt, s') → refines (book_rotate b) s'.
Proof using Type.
  intros R Hid Hw Ht H. unfold rotate in H. rewrite Hid in H.
  assert (Hf : disk s !! (current b + 1) = None) by (apply R; lia).
  apply op_bind_inv_ok in H as (sb & s0 & E0 & H). unfold open_meta in E0.
  apply op_bind_inv_ok in E0 as ([] & s1 & E1 & E0). destruct (io_open (current b + 1)) as [[]|]; [|done]. injection E1 as <-.
  rewrite (op_bind_ok (read _) _ _ _ _ eq_refl) in E0. unfold directory in E0. rewrite Hf in E0.
  injection E0 as <- <-. cbn [default] in H.
  rewrite (op_bind_ok (modify _) _ _ _ _ eq_refl) in H.
  apply op_bind_inv_ok in H as ([] & s1 & E1 & H). destruct (io_flush_meta (current b + 1)) as [[]|]; [|done]. injection E1 as <-.
  rewrite (op_bind_ok (modify _) _ _ _ _ eq_refl) in H.
  apply op_bind_inv_ok in H as ([] & s1 & E1 & H). injection E1 as <-.
  rewrite (op_bind_ok (modify _) _ _ _ _ eq_refl) in H.
  apply op_bind_inv_ok in H as ([] & s1 & E1 & H).
  assert (Hq : indexer_running s = true → queue s = []).
  { intros Er. destruct (rf_indexing _ _ R Er) as (_ & _ & _ & ->). by rewrite Ht, drop_all. }
  assert (Hr : indexer_running s = true).
  { unfold fence in E1. apply op_bind_inv_ok in E1 as (? & ? & E2 & _). unfold send in E2. cbn in E2. by destruct (indexer_running s). }
  apply fence_next in E1 as [_ ->]; [|by apply Hq]. injection H as <-.
  pose proof (active_rotate b) as Ha.
  destruct R. constructor; cbn; try done.
  - by rewrite rf_retained.
  - set_solver.
  - lia.
  - intros id. rewrite elem_of_union, elem_of_singleton, rf_ids. lia.
  - intros id Hlt. rewrite lookup_insert_ne by lia. apply rf_fresh. lia.
  - intros id Hin. destruct (decide (id = current b + 1)) as [->|Hn].
    + rewrite !lookup_insert_eq. eexists _, _. split_and!; [done|done|by apply on_disk_new].
    + rewrite !lookup_insert_ne by done. apply rf_disk. set_solver.
  - rewrite lookup_insert_eq, Ha. intros sb [= <-]. by apply written_new.
  - rewrite Hw, rf_pending, Hw. by rewrite !fmap_empty.
  - rewrite Hw. intros sig i. by rewrite lookup_empty.
  - rewrite Ha. by intros _.
  - intros id g slot Hin. destruct (decide (id = current b + 1)) as [->|Hn].
    + rewrite lookup_insert_eq. intros [= <-] Hs. by apply elem_of_nil in Hs.
    + rewrite lookup_insert_ne by done. apply rf_start. set_solver.
  - intros id Htr. destruct (rf_truncation id Htr) as [H1 H2]. split; [|lia].
    rewrite elem_of_union, elem_of_singleton. intros [?|?]; [done|lia].
Qed.

Lemma book_ok_rotate b (s : L) : refines b s → book_ok b → waiting b = ∅ → fits 64 (current b + 1) → book_ok (book_rotate b).
Proof using Type.
  intros R B Hw Hfit. assert (Ha : active_segment (book_rotate b) = empty_segment) by apply active_rotate.
  assert (Hc : ∀ id g, segments (book_rotate b) !! id = Some g → id ∈ open_ids (book_rotate b) →
            (slots (entries g) = [] ∧ public g = 0%nat ∧ seg_valid g) ∨ segments b !! id = Some g ∧ id ∈ open_ids b).
  { intros id g. simpl. destruct (decide (id = current b + 1)) as [->|Hn].
    - rewrite lookup_insert_eq. intros [= <-] _. left. split_and!; [done|done|by constructor].
    - rewrite lookup_insert_ne by done. intros Hg Hi. right. split; [done|set_solver]. }
  constructor.
  - intros id g Hid Hg. destruct (Hc _ _ Hg Hid) as [(_ & _ & ?)|[Hg' Hid']]; [done|]. by eapply (bk_valid _ B).
  - intros sig i. change (waiting (book_rotate b)) with (waiting b). by rewrite Hw, lookup_empty.
  - intros id g Hid Hg. destruct (Hc _ _ Hg Hid) as [(Hs & -> & _)|[Hg' Hid']]; [by rewrite drop_0|].
    by eapply (bk_shown _ B).
  - intros id g n Hid Hg. destruct (Hc _ _ Hg Hid) as [(-> & _ & _)|[Hg' Hid']]; [by intros ?%elem_of_nil|].
    by eapply (bk_slots _ B).
  - intros id g Hid Hg. destruct (Hc _ _ Hg Hid) as [(-> & _ & _)|[Hg' Hid']]; [by exists 0, 0|].
    by eapply (bk_consecutive _ B).
  - left. by rewrite Ha.
  - intros id id' g g' n n' Hid Hid' Hlt Hg Hg'.
    destruct (Hc _ _ Hg Hid) as [(-> & _ & _)|[Hg1 Hid1]]; [by intros ?%elem_of_nil|].
    destruct (Hc _ _ Hg' Hid') as [(-> & _ & _)|[Hg2 Hid2]]; [by intros _ ?%elem_of_nil|].
    by apply (bk_order _ B id id').
  - apply (bk_floor _ B).
  - done.
Qed.

Lemma finalize_step b (s : L) s' :
  refines b s → writer_finalize s = (Ok tt, s') → refines b s'.
Proof using Type.
  intros R H. unfold writer_finalize in H. apply op_bind_inv_ok in H as ([] & s1 & E1 & E2).
  refine (proj1 (both_files_step (λ _ _, True) b s file_finalize tt tt s1 s' R _ E1 E2)).
  intros fw disk all Ha z fw' Hz. pose proof (finalize_spec fw disk all Ha) as Hs. by rewrite Hz in Hs.
Qed.

Lemma superblock_event b (s : L) x s' :
  refines b s → book_ok b → event_ok (EvSuperblock x) b → seal x s = (Ok tt, s') →
  refines (book_event (EvSuperblock x) b) s' ∧ book_ok (book_event (EvSuperblock x) b).
Proof using Type.
  intros R B (Hid & Hw & Hfit) H. unfold seal in H. apply op_bind_inv_ok in H as (span & s1 & E1 & H).
  destruct (write_blockstore_step b s _ _ _ R E1) as (R1 & _ & _).
  assert (B1 : book_ok (book_entry b (ESuperblock x))).
  { eapply book_ok_entry; try done. split; [by eapply write_blockstore_encoded|done]. }
  apply op_bind_inv_ok in H as ([] & s2 & E2 & H).
  destruct (sync_event _ _ _ R1 B1 E2) as [R2 B2]. apply op_bind_inv_ok in H as ([] & s3 & E3 & H).
  pose proof (finalize_step _ _ _ R2 E3) as R3. rewrite (op_bind_ok (modify _) _ _ _ _ eq_refl) in H.
  cbn [book_event]. split; [|by eapply book_ok_rotate]. eapply rotate_step; [|done|done| |exact H].
  - by eapply refines_ext.
  - unfold book_sync, book_fence. simpl.
    change (active_segment (with_taken ?b _)) with (active_segment b). by rewrite active_with_segment.
Qed.

(** ** Any event

    A block may also find the file system full, which ends in the removal of the oldest
    superblock. *)

Inductive book_step (ev : Event) (b : Book) : Book → Prop :=
| book_step_event : book_step ev b (book_event ev b)
| book_step_full x : ev = EvBlock x → block_slot (payload x) mod SIZE_CHECK_FREQUENCY = 0 →
    book_step ev b (book_truncate (book_sync (book_event ev b))).

Lemma block_event b (s : L) x s' :
  refines b s → book_ok b → event_ok (EvBlock x) b → write_block x s = (Ok tt, s') →
  ∃ b', book_step (EvBlock x) b b' ∧ refines b' s' ∧ book_ok b'.
Proof using Type.
  intros R B Hev H. unfold write_block in H. apply op_bind_inv_ok in H as (span & s1 & E1 & H).
  apply op_bind_inv_ok in H as ([] & s2 & E2 & H). apply op_bind_inv_ok in H as ([] & s3 & E3 & H).
  pose proof (block_core b s x span s1 s2 s3 R B Hev E1 E2 E3) as R3.
  pose proof (book_ok_block b s x R B Hev (write_blockstore_encoded _ _ _ _ E1)) as B3.
  destruct (Z.eqb_spec (block_slot (payload x) mod SIZE_CHECK_FREQUENCY) 0) as [Hm|Hm].
  2: { injection H as <-. eexists. split_and!; [apply book_step_event|done|done]. }
  apply op_bind_inv_ok in H as (full & s4 & E4 & H).
  assert (s4 = s3) as -> by congruence. destruct full.
  2: { injection H as <-. eexists. split_and!; [apply book_step_event|done|done]. }
  apply op_bind_inv_ok in H as ([] & s5 & E5 & H). destruct (sync_event _ _ _ R3 B3 E5) as [R5 B5].
  eexists. split_and!; [by eapply book_step_full|by eapply truncate_step|].
  apply book_ok_truncate; [done|apply R5].
Qed.

Lemma event_refines b (s : L) ev s' :
  refines b s → book_ok b → event_ok ev b → handle ev s = (Ok tt, s') →
  ∃ b', book_step ev b b' ∧ refines b' s' ∧ book_ok b'.
Proof using Type.
  intros R B Hev H. destruct ev; cbn [handle] in H; [| |by eapply block_event|..];
    (eexists; split; [apply book_step_event|]).
  - by eapply transaction_event.
  - by eapply execution_event.
  - by eapply superblock_event.
  - by eapply reset_event.
  - by eapply checkpoint_event.
  - by eapply sync_event.
Qed.

End rotate.
