(* ===== verification/LedgerRun.v ===== *)
(** * Runs of the ledger

    The ledger starts empty, handles events, lets its indexer work in between, and may be
    closed and opened again, with or without a last synchronization. *)

From stdpp Require Import base list gmap numbers option.
From S2P Require Import Prelude Effects Memory Records TxFrame LedgerFile LedgerIndex Ledger LedgerReader LedgerBook LedgerRefine LedgerSteps LedgerEvents.

Local Open Scope Z_scope.

(** Opening the ledger again keeps what was published and indexed. *)
Definition seg_reopen (g : Segment) : Segment :=
  {| entries := take (public g) (entries g); public := public g;
     records := take (rec_public g) (records g); rec_public := rec_public g;
     items := take (visible g) (items g); visible := visible g |}.

Definition book_reopen (b : Book) : Book :=
  let g := seg_reopen (active_segment b) in
  {| segments := <[current b := g]> (segments b); current := current b; open_ids := open_ids b;
     waiting := ∅; taken := visible g; last_slot := last_slot b |}.

(** The blocks of a stream and of an index, by slot and position. *)
Definition block_positions (l : list BlockstoreEntry) : list (Z * nat) :=
  omap id (imap (λ i e, match e with EBlock x => Some (block_slot (payload x), i) | _ => None end) l).
Definition block_items (l : list Item) : list (Z * nat) :=
  omap (λ it, match it with ItemBlock slot i => Some (slot, i) | ItemTx _ _ _ _ => None end) l.

(** Every block of the segment is in the index, and a seal ends a segment. *)
Definition seg_complete (g : Segment) : Prop :=
  block_items (items g) = block_positions (entries g) ∧
  ∀ i x, entries g !! i = Some (ESuperblock x) → S i = length (entries g).

Definition fully_indexed (b : Book) : Prop :=
  (∀ id g, segments b !! id = Some g → seg_complete g) ∧
  ∀ i x, entries (active_segment b) !! i ≠ Some (ESuperblock x).

(** What an event appends. *)
Definition event_entry (ev : Event) : option BlockstoreEntry :=
  match ev with
  | EvTransaction _ bs => Some (ETransaction bs)
  | EvBlock x => Some (EBlock x)
  | EvSuperblock x => Some (ESuperblock x)
  | EvReset r => Some (EReset r)
  | EvCheckpoint c => Some (ECheckpoint c)
  | EvExecution _ _ | EvSync => None
  end.

Section sizes.
Context `{CO : !LedgerCodec}.

Definition seg_sized (g : Segment) : Prop :=
  Forall (λ e, zlen (enc e) ≤ MAX_SIZE) (entries g) ∧ zlen (stream (entries g)) < MAX_FILE_SIZE ∧
  Forall (λ x, zlen (rec_bytes x) ≤ MAX_SIZE) (records g) ∧ zlen (rec_stream (records g)) < MAX_FILE_SIZE.
Definition sized (b : Book) : Prop := ∀ id g, segments b !! id = Some g → seg_sized g.

(** An event fits when a span can describe what it appends. *)
Definition event_fits (ev : Event) (b : Book) : Prop :=
  let g := active_segment b in
  match event_entry ev, ev with
  | Some e, _ => zlen (enc e) ≤ MAX_SIZE ∧ zlen (stream (entries g)) + zlen (enc e) < MAX_FILE_SIZE
  | None, EvExecution x _ =>
      zlen (rec_bytes (stored x)) ≤ MAX_SIZE ∧
      zlen (rec_stream (records g)) + zlen (rec_bytes (stored x)) < MAX_FILE_SIZE
  | None, _ => True
  end.

End sizes.

Section run.
Context {Ks : Type} `{FJ : !Fjall Ks, FL : !FjallLaws Ks} `{IOC : !LedgerIo} `{CO : !LedgerCodec} `{WC : !WireConstants}.

Abbreviation L := (Ledger Ks).

(** ** The new ledger *)

Lemma new_refines limit : refines book_new (ledger_new limit : L).
Proof using Type.
  assert (Hc : ∀ id g, (segments book_new) !! id = Some g → id = 1 ∧ g = empty_segment).
  { intros id g H. cbn in H. apply lookup_singleton_Some in H as [<- <-]. done. }
  assert (Ha : active_segment book_new = empty_segment) by done.
  constructor; try done; cbn.
  - intros id. rewrite elem_of_singleton. lia.
  - intros id Hid. rewrite lookup_singleton_ne by lia. done.
  - intros id ->%elem_of_singleton. exists empty_segment, empty_superblock. split_and!; [done|done|].
    by apply on_disk_new.
  - rewrite lookup_singleton_eq. intros sb [= <-]. by apply written_new.
  - intros id g slot _ [-> ->]%Hc Hs. by apply elem_of_nil in Hs.
Qed.

Lemma book_ok_new : book_ok book_new.
Proof using Type.
  assert (Hc : ∀ id g, (segments book_new) !! id = Some g → g = empty_segment).
  { intros id g H. cbn in H. apply lookup_singleton_Some in H as [_ <-]. done. }
  constructor; try done.
  - intros id g _ ->%Hc. by constructor.
  - intros id g _ ->%Hc. done.
  - intros id g n _ ->%Hc Hn. by apply elem_of_nil in Hn.
  - intros id g _ ->%Hc. by exists 0, 0.
  - by left.
  - intros id id' g g' n n' _ _ _ ->%Hc _ Hn. by apply elem_of_nil in Hn.
Qed.

(** ** The indexer, whether it survives the step or not *)

Lemma refines_stopped b (s : L) q w : refines b s → refines b (with_indexer s q w false).
Proof using Type. intros []. by constructor. Qed.

Lemma index_message_dies m (s : L) :
  indexer_running (index_message m s).2 = false →
  ∃ w, (index_message m s).2 = with_indexer s (queue s) w false.
Proof using Type.
  assert (Hc : ∀ d w, indexer_running (commit_batch d w s).2 = false →
            ∃ w', (commit_batch d w s).2 = with_indexer s (queue s) w' false).
  { intros d w. unfold commit_batch. destruct (index_persist _ w d) as [[ks|e] w']; [done|]. by eexists. }
  destruct m as [| |[next|]]; cbn [index_message]; [done|apply Hc| |apply Hc].
  destruct (ks_rotate_memtable _); [done|]. by eexists.
Qed.

Lemma index_step_refines b (s : L) :
  refines b s → book_ok b →
  ∃ b', (b' = b ∨ indexer_running s = true ∧ b' = book_index b) ∧ refines b' (index_step s) ∧ book_ok b'.
Proof using Type.
  intros R B. destruct (indexer_running s) eqn:Er.
  2: { exists b. unfold index_step. rewrite Er. auto. }
  destruct (indexer_running (index_step s)) eqn:Er'.
  - exists (book_index b). split_and!; [right; by split| |by eapply book_ok_index].
    by destruct (index_step_spec b s R Er Er').
  - exists b. split_and!; [by left| |done]. unfold index_step in *. rewrite Er in *.
    destruct (queue s) as [|m q]; [done|]. apply index_message_dies in Er' as [w ->].
    by apply (refines_stopped b s q w).
Qed.

(** ** Opening the ledger again *)

Lemma retained_again b (s : L) :
  refines b s →
  list_to_set (seqZ (retained_ids (l_meta s)).1
                 ((retained_ids (l_meta s)).2 - (retained_ids (l_meta s)).1)) = open_ids b.
Proof using Type.
  intros R. apply set_eq. intros id. rewrite elem_of_list_to_set, elem_of_seqZ, (rf_ids _ _ R).
  pose proof (rf_count _ _ R). unfold retained_ids, saturating_sub. simpl. rewrite (rf_head _ _ R). lia.
Qed.

Lemma reopen_grows g : grows (seg_reopen g) g.
Proof using Type. split; eexists; symmetry; apply take_drop. Qed.

Lemma item_ok_reopen g it : item_ok g it → item_public g it → item_ok (seg_reopen g) it.
Proof using Type.
  destruct it; simpl.
  - intros [[bs Hb] (x & Hx & Hs)] [Hi Hj]. rewrite !lookup_take_lt by done. eauto.
  - intros (x & Hx & Hs) Hi. rewrite lookup_take_lt by done. eauto.
Qed.

Lemma items_reopen g : seg_ok g → Forall (item_ok (seg_reopen g)) (take (visible g) (items g)).
Proof using Type.
  intros [S1 S2 S3 S4 S5 S6]. rewrite list.Forall_forall in S5 |- *. rewrite list.Forall_forall in S4.
  intros it Hit. apply item_ok_reopen; [|by apply S5]. apply S4. by eapply list.subseteq_take.
Qed.

Lemma seg_ok_reopen g : seg_ok g → seg_ok (seg_reopen g).
Proof using Type.
  intros Hg. pose proof (items_reopen g Hg) as Hi. destruct Hg as [S1 S2 S3 S4 S5 S6].
  constructor; simpl; rewrite ?length_take; try lia; [done|rewrite take_take, Nat.min_id; done|].
  intros n slot i Hn. apply list.Forall_take. done.
Qed.

Lemma on_disk_reopen g (sb : Superblock Ks) : on_disk g sb → on_disk (seg_reopen g) sb.
Proof using Type.
  intros [D1 D2 D3 D4 D5 D6 D7 D8]. pose proof (items_reopen g D1) as Hi.
  constructor; simpl; rewrite ?take_take, ?Nat.min_id; try done; [by apply seg_ok_reopen|].
  rewrite D7. do 2 f_equal. eapply items_grow; [exact Hi|]. intros it Hit. apply item_entries_grows; [apply reopen_grows|done].
Qed.

Lemma reopen_refines b (s : L) : refines b s → refines (book_reopen b) (reopen s).
Proof using Type.
  intros R. pose proof (retained_again b s R) as Hret.
  destruct (active_lookup b s R) as (sb & Hg & Hs & Hod & _). set (g := active_segment b) in *.
  assert (Ha : active_segment (book_reopen b) = seg_reopen g).
  { unfold active_segment, segment. simpl. by rewrite lookup_insert_eq. }
  assert (Hdir : directory s (head (l_meta s)) = sb) by (unfold directory; by rewrite (rf_head _ _ R), Hs).
  pose proof (on_disk_reopen g sb Hod) as Hod'.
  constructor; rewrite ?Ha; try (by apply R); try done; cbn [current open_ids book_reopen waiting segments].
  - intros id Hid. destruct (decide (id = current b)) as [->|Hn].
    + rewrite lookup_insert_eq. by exists (seg_reopen g), sb.
    + rewrite lookup_insert_ne by done. by apply R.
  - intros sb0 Hs0. cbn in Hs0. rewrite Hs in Hs0. injection Hs0 as <-.
    unfold written, reopen. cbn [w_blockstore w_executions]. rewrite Hdir.
    cbn [public rec_public entries records seg_reopen]. rewrite !take_take, !Nat.min_id.
    rewrite (od_cursor _ _ Hod), (od_rec_cursor _ _ Hod).
    split; (eexists; split; [reflexivity|]); apply appended_new; apply Hod.
  - intros _. pose proof (sg_visible _ (od_segment _ _ Hod)) as Hv. cbn. fold g.
    rewrite length_take, take_take, Nat.min_id, drop_ge by (rewrite length_take; lia).
    split_and!; [apply R|lia|lia|done|done].
  - intros id g0 slot Hid. destruct (decide (id = current b)) as [->|Hn].
    + rewrite lookup_insert_eq. intros [= <-]. cbn. rewrite take_take, Nat.min_id. by apply (rf_start _ _ R (current b)).
    + rewrite lookup_insert_ne by done. by apply (rf_start _ _ R).
Qed.

Lemma seg_valid_reopen g : seg_ok g → seg_valid g → seg_valid (seg_reopen g).
Proof using Type.
  intros Hg [V1 V2 V3]. constructor; simpl; [by apply list.Forall_take..|].
  pose proof (sg_shown _ Hg) as Hs. rewrite list.Forall_forall in Hs, V3 |- *. intros it Hit.
  specialize (Hs it Hit). specialize (V3 it (list.subseteq_take _ _ _ Hit)). destruct it; [|done].
  destruct V3 as [(bs & Hb & Hsg) Ha]. split; [|done]. exists bs. simpl. by rewrite lookup_take_lt by apply Hs.
Qed.

Lemma book_ok_reopen b (s : L) : refines b s → book_ok b → book_ok (book_reopen b).
Proof using Type.
  intros R B. destruct (active_lookup b s R) as (sb & Hg & _ & Hod & _).
  assert (Hsl : slots (take (public (active_segment b)) (entries (active_segment b))) = slots (entries (active_segment b))).
  { rewrite <- (take_drop (public (active_segment b)) (entries (active_segment b))) at 2.
    by rewrite slots_app, (active_shown b s), app_nil_r. }
  eapply (book_ok_local b); try done; simpl.
  - rewrite drop_ge; [done|]. rewrite length_take. lia.
  - apply seg_valid_reopen; [apply Hod|by eapply active_valid].
Qed.

(** ** What a step does to the segments *)

Definition seg_core (g : Segment) : list BlockstoreEntry * list Execution * list Item :=
  (entries g, records g, items g).

Definition event_core (ev : Event) (b : Book) : list BlockstoreEntry * list Execution * list Item :=
  let g := active_segment b in
  match ev with
  | EvExecution x accounts =>
      match waiting b !! header_signature (header x) with
      | None => seg_core g
      | Some i => (entries g, records g ++ [stored x],
                   items g ++ [ItemTx (header_signature (header x)) accounts i (length (records g))])
      end
  | EvBlock x => (entries g ++ [EBlock x], records g,
                  items g ++ [ItemBlock (block_slot (payload x)) (length (entries g))])
  | _ => (entries g ++ option_list (event_entry ev), records g, items g)
  end.

Lemma sync_core b :
  ∃ g, segments (book_sync b) = <[current b := g]> (segments b) ∧ seg_core g = seg_core (active_segment b).
Proof using Type.
  eexists. unfold book_sync, book_fence, book_publish. rewrite !active_with_segment. simpl.
  rewrite insert_insert_eq. done.
Qed.

Lemma event_segments ev b id g' :
  segments (book_event ev b) !! id = Some g' →
  (id = current b ∧ seg_core g' = event_core ev b) ∨
  (id ≠ current b ∧ segments b !! id = Some g') ∨
  (id = current (book_event ev b) ∧ g' = empty_segment).
Proof using Type.
  assert (Hone : ∀ (P : Prop) (m : gmap Z Segment) g, seg_core g = event_core ev b →
    m = <[current b := g]> (segments b) → m !! id = Some g' →
    (id = current b ∧ seg_core g' = event_core ev b) ∨ (id ≠ current b ∧ segments b !! id = Some g') ∨ P).
  { intros P m g Hg -> [[<- <-]|[Hn Hl]]%lookup_insert_Some; auto. }
  destruct ev as [sig bs|x accs|x|x|r|c|]; cbn [book_event].
  - by apply (Hone _ _ (seg_entry (active_segment b) (ETransaction bs))).
  - destruct (waiting b !! header_signature (header x)) as [i|] eqn:Ew.
    + eapply Hone; [|unfold book_item; rewrite active_with_segment; simpl; by rewrite insert_insert_eq].
      simpl. by rewrite Ew.
    + intros Hl. destruct (decide (id = current b)) as [->|Hn]; [left|by right; left]. split; [done|].
      simpl. rewrite Ew. unfold active_segment, segment. by rewrite Hl.
  - eapply Hone; [|unfold book_item, book_publish, book_entry; rewrite !active_with_segment; simpl; by rewrite !insert_insert_eq].
    done.
  - destruct (sync_core (book_entry b (ESuperblock x))) as (g & Hseg & Hg). cbn [segments book_rotate].
    rewrite Hseg. intros [[<- <-]|[Hn Hl]]%lookup_insert_Some; [by right; right|]. revert Hl.
    apply (Hone _ _ g); [rewrite Hg; unfold book_entry; by rewrite active_with_segment|]. simpl. by rewrite insert_insert_eq.
  - destruct (sync_core (book_entry b (EReset r))) as (g & Hseg & Hg). rewrite Hseg.
    apply (Hone _ _ g); [rewrite Hg; unfold book_entry; by rewrite active_with_segment|]. simpl. by rewrite insert_insert_eq.
  - eapply Hone; [|unfold book_publish, book_entry; rewrite !active_with_segment; simpl; by rewrite !insert_insert_eq].
    done.
  - destruct (sync_core b) as (g & Hseg & Hg). rewrite Hseg. apply (Hone _ _ g); [|done].
    rewrite Hg. simpl. by rewrite app_nil_r.
Qed.

Lemma truncate_fields b :
  segments (book_truncate b) = segments b ∧ current (book_truncate b) = current b.
Proof using Type. unfold book_truncate. repeat case_match; done. Qed.

Lemma step_segments ev b b' id g' :
  book_step ev b b' → segments b' !! id = Some g' →
  (id = current b ∧ seg_core g' = event_core ev b) ∨
  (id ≠ current b ∧ segments b !! id = Some g') ∨
  (id = current b' ∧ g' = empty_segment).
Proof using Type.
  intros [|x -> Hm]; [apply event_segments|].
  destruct (truncate_fields (book_sync (book_event (EvBlock x) b))) as [-> ->].
  destruct (sync_core (book_event (EvBlock x) b)) as (g & -> & Hg).
  intros [[<- <-]|[Hn Hl]]%lookup_insert_Some; [left; split; [done|]|by apply event_segments in Hl].
  rewrite Hg. cbn [book_event]. change (active_segment (with_slot ?b _)) with (active_segment b).
  unfold book_item, book_publish, book_entry. by rewrite !active_with_segment.
Qed.

(** ** Sizes and completeness *)

Lemma seg_sized_empty : seg_sized empty_segment.
Proof using Type. by repeat split; constructor. Qed.

Lemma active_sized b : sized b → seg_sized (active_segment b).
Proof using Type.
  intros Hs. unfold active_segment, segment. destruct (_ !! _) eqn:E; [by eapply Hs|apply seg_sized_empty].
Qed.

Lemma seg_sized_entry g g' e :
  seg_sized g → entries g' = entries g ++ [e] → records g' = records g → zlen (enc e) ≤ MAX_SIZE →
  zlen (stream (entries g)) + zlen (enc e) < MAX_FILE_SIZE → seg_sized g'.
Proof using Type.
  intros (S1 & S2 & S3 & S4) He Hr H1 H2. unfold seg_sized. rewrite He, Hr, stream_app, zlen_app.
  split_and!; try done. apply Forall_app. auto.
Qed.

Lemma step_sized ev b b' : sized b → event_fits ev b → book_step ev b b' → sized b'.
Proof using Type.
  intros Hs Hf Hstep id g' Hl. pose proof (active_sized b Hs) as Ha.
  destruct (step_segments ev b b' id g' Hstep Hl) as [[-> Hc]|[[_ Hg]|[_ ->]]];
    [|by eapply Hs|apply seg_sized_empty].
  unfold event_fits in Hf.
  destruct ev as [sig bs|x accs|x|x|r|c|]; cbn [event_core event_entry] in Hc, Hf;
    try (injection Hc as He Hr _; destruct Hf; by eapply seg_sized_entry).
  - destruct (waiting b !! header_signature (header x)); injection Hc as He Hr _; unfold seg_sized.
    + rewrite He, Hr, rec_stream_app, zlen_app. destruct Ha as (S1 & S2 & S3 & S4), Hf.
      split_and!; try done. apply Forall_app. auto.
    + by rewrite He, Hr.
  - injection Hc as He Hr _. unfold seg_sized. by rewrite He, Hr, app_nil_r.
Qed.

Lemma block_positions_app l e :
  block_positions (l ++ [e]) =
  block_positions l ++ match e with EBlock x => [(block_slot (payload x), length l)] | _ => [] end.
Proof using Type.
  unfold block_positions. rewrite imap_app, omap_app. f_equal. simpl. rewrite Nat.add_0_r. by destruct e.
Qed.
Lemma block_items_app l it :
  block_items (l ++ [it]) = block_items l ++ match it with ItemBlock slot i => [(slot, i)] | _ => [] end.
Proof using Type. unfold block_items. rewrite omap_app. f_equal. by destruct it. Qed.

Lemma step_current ev b b' :
  book_step ev b b' → current b' = current b ∨ current b' = current b + 1 ∧ ∃ x, ev = EvSuperblock x.
Proof using Type.
  intros [|x -> _]; [|left; by destruct (truncate_fields (book_sync (book_event (EvBlock x) b))) as [_ ->]].
  destruct ev; try (by left); [|right; eauto]. left. simpl. by case_match.
Qed.

Lemma active_complete b : fully_indexed b → seg_complete (active_segment b).
Proof using Type.
  intros [Hs _]. unfold active_segment, segment. destruct (_ !! _) eqn:E; [by eapply Hs|done].
Qed.

Lemma sync_active b : seg_core (active_segment (book_sync b)) = seg_core (active_segment b).
Proof using Type.
  unfold book_sync, book_fence, book_publish. change (active_segment (with_taken ?b _)) with (active_segment b).
  by rewrite !active_with_segment.
Qed.

Lemma active_core ev b b' :
  book_step ev b b' → (∀ x, ev ≠ EvSuperblock x) → seg_core (active_segment b') = event_core ev b.
Proof using Type.
  assert (He : (∀ x, ev ≠ EvSuperblock x) → seg_core (active_segment (book_event ev b)) = event_core ev b).
  { intros Hn. destruct ev as [sig bs|x accs|x|x|r|c|]; cbn [book_event event_core].
    - change (active_segment (with_waiting ?b _)) with (active_segment b). unfold book_entry. by rewrite active_with_segment.
    - case_match; [|done]. unfold book_item. by rewrite !active_with_segment.
    - change (active_segment (with_slot ?b _)) with (active_segment b).
      unfold book_item, book_publish, book_entry. by rewrite !active_with_segment.
    - by destruct (Hn x).
    - rewrite sync_active. unfold book_entry. by rewrite active_with_segment.
    - unfold book_publish, book_entry. by rewrite !active_with_segment.
    - rewrite sync_active. simpl. by rewrite app_nil_r. }
  intros [|x -> Hm] Hn; [by apply He|].
  assert (∀ b0, active_segment (book_truncate b0) = active_segment b0) as ->.
  { intros b0. unfold active_segment, segment. by destruct (truncate_fields b0) as [-> ->]. }
  rewrite sync_active. by apply He.
Qed.

(** A segment without a seal that grows by at most one entry. *)
Lemma seg_complete_grow g g' l k :
  seg_complete g → (∀ i x, entries g !! i ≠ Some (ESuperblock x)) → (length l ≤ 1)%nat →
  entries g' = entries g ++ l → items g' = items g ++ k →
  block_positions (entries g ++ l) = block_positions (entries g) ++ block_items k → seg_complete g'.
Proof using Type.
  intros [Hb Hs] Hn Hl He Hi Hbl. split.
  - unfold block_items in *. by rewrite He, Hi, omap_app, Hbl, Hb.
  - intros i x. rewrite He, length_app. intros [H|[Hle H]]%lookup_app_Some; [by destruct (Hn i x)|].
    apply lookup_lt_Some in H. lia.
Qed.

Lemma core_complete ev b g' : fully_indexed b → seg_core g' = event_core ev b → seg_complete g'.
Proof using Type.
  intros Hb Hc. pose proof (active_complete b Hb) as Ha. destruct Hb as [_ Ho].
  assert (Hone : ∀ e k, entries g' = entries (active_segment b) ++ [e] → items g' = items (active_segment b) ++ k →
            match e with EBlock x => [(block_slot (payload x), length (entries (active_segment b)))] | _ => [] end = block_items k →
            seg_complete g').
  { intros e k He Hi Hk. apply (seg_complete_grow (active_segment b) g' [e] k); try done.
    by rewrite block_positions_app, Hk. }
  destruct ev as [sig bs|x accs|x|x|r|c|]; cbn [event_core event_entry option_list] in Hc;
    try (injection Hc as He Hr Hi; eapply (Hone _ []); [done|by rewrite app_nil_r|done]).
  - destruct (waiting b !! _); injection Hc as He Hr Hi.
    + eapply (seg_complete_grow (active_segment b) g' []); try done; [simpl; lia|by rewrite app_nil_r|]. by rewrite !app_nil_r.
    + unfold seg_complete. by rewrite He, Hi.
  - injection Hc as He Hr Hi. by eapply Hone.
  - injection Hc as He Hr Hi. unfold seg_complete. by rewrite He, Hi, app_nil_r.
Qed.

Lemma step_complete ev b b' : fully_indexed b → book_step ev b b' → fully_indexed b'.
Proof using Type.
  intros Hb Hstep. pose proof Hb as [Hc Ho]. split.
  - intros id g' Hl. destruct (step_segments ev b b' id g' Hstep Hl) as [[-> Hcore]|[[_ Hg]|[_ ->]]];
      [by eapply core_complete|by eapply Hc|done].
  - assert (Hsb : (∀ x, ev ≠ EvSuperblock x) ∨ active_segment b' = empty_segment).
    { destruct ev; try (by left). right. destruct Hstep; [|done]. apply active_rotate. }
    destruct Hsb as [Hn| ->]; [|done]. pose proof (active_core ev b b' Hstep Hn) as Hcore.
    assert (He : entries (active_segment b') = (event_core ev b).1.1) by (by rewrite <- Hcore). rewrite He.
    intros i y. destruct ev as [sig bs|x accs|x|x|r|c|]; cbn [event_core event_entry option_list fst];
      try (intros [H|[_ H]]%lookup_app_Some; [by destruct (Ho i y)|by apply list_lookup_singleton_Some in H as [_ ?]]).
    + case_match; apply Ho.
    + by destruct (Hn x).
    + rewrite app_nil_r. apply Ho.
Qed.

End run.
