(* ===== verification/LedgerHistory.v ===== *)
(** * What was published stays

    The published entries and records and the visible index items of a superblock only grow,
    along any history and over restarts, for as long as the superblock is retained. *)

From stdpp Require Import base list gmap numbers option.
From S2P Require Import Prelude Effects Memory Records TxFrame LedgerFile LedgerIndex Ledger LedgerReader LedgerBook LedgerRefine LedgerSteps LedgerEvents LedgerRun.

Local Open Scope Z_scope.

Definition published (g : Segment) : list BlockstoreEntry := take (public g) (entries g).
Definition recorded (g : Segment) : list Execution := take (rec_public g) (records g).
Definition shown (g : Segment) : list Item := take (visible g) (items g).

Record seg_le (g g' : Segment) : Prop := {
  le_published : published g `prefix_of` published g';
  le_recorded : recorded g `prefix_of` recorded g';
  le_shown : shown g `prefix_of` shown g';
}.

#[export] Instance seg_le_preorder : PreOrder seg_le.
Proof. split; [by constructor|]. intros a b c [] []. constructor; by etrans. Qed.

(** Superblocks open before and after. *)
Definition book_le (b b' : Book) : Prop :=
  ∀ id, id ∈ open_ids b → id ∈ open_ids b' → seg_le (segment b id) (segment b' id).

(** A step that only replaces the active segment by a larger one. *)
Lemma replace_le b b' g :
  segments b' = <[current b := g]> (segments b) → seg_le (active_segment b) g → book_le b b'.
Proof.
  intros Hs Hg id _ _. unfold segment. rewrite Hs. destruct (decide (id = current b)) as [->|Hn].
  - by rewrite lookup_insert_eq.
  - by rewrite lookup_insert_ne.
Qed.

Lemma take_app_prefix {A} n (l l' : list A) : take n l `prefix_of` take n (l ++ l').
Proof. rewrite take_app. by eexists. Qed.
Lemma take_prefix_self {A} n (l : list A) : take n l `prefix_of` take (length l) l.
Proof. rewrite firstn_all. eexists. symmetry. apply take_drop. Qed.
Lemma take_prefix_le {A} n m (l : list A) : (n ≤ m)%nat → take n l `prefix_of` take m l.
Proof. intros H. eexists (drop n (take m l)). rewrite <- (take_drop n (take m l)) at 1. by rewrite take_take, Nat.min_l by lia. Qed.

Create HintDb ledger discriminated.
#[export] Hint Resolve take_app_prefix take_prefix_self : ledger.

Section growth.
Context {Ks : Type} `{FJ : !Fjall Ks, FL : !FjallLaws Ks} `{IOC : !LedgerIo} `{CO : !LedgerCodec} `{WC : !WireConstants}.

Abbreviation L := (Ledger Ks).

Lemma seg_le_entry g e : seg_le g (seg_entry g e).
Proof using Type. constructor; unfold published, recorded, shown; simpl; auto with ledger. Qed.
Lemma seg_le_record g x : seg_le g (seg_record g x).
Proof using Type. constructor; unfold published, recorded, shown; simpl; auto with ledger. Qed.
Lemma seg_le_item g i : seg_le g (seg_item g i).
Proof using Type. constructor; unfold published, recorded, shown; simpl; auto with ledger. Qed.
Lemma seg_le_publish g : seg_le g (seg_publish g).
Proof using Type. constructor; unfold published, recorded, shown; simpl; auto with ledger. Qed.
Lemma seg_le_show g : seg_le g (seg_show g (length (items g))).
Proof using Type. constructor; unfold published, recorded, shown; simpl; auto with ledger. Qed.
Lemma seg_le_reopen g : seg_le g (seg_reopen g).
Proof using Type. constructor; unfold published, recorded, shown; simpl; by rewrite take_take, Nat.min_id. Qed.

Lemma sync_le b : ∃ g, segments (book_sync b) = <[current b := g]> (segments b) ∧ seg_le (active_segment b) g.
Proof using Type.
  exists (seg_show (seg_publish (active_segment b)) (length (items (seg_publish (active_segment b))))). split.
  - unfold book_sync, book_fence, book_publish. rewrite active_with_segment. simpl. by rewrite insert_insert_eq.
  - etrans; [apply seg_le_publish|apply seg_le_show].
Qed.

Lemma entry_sync_le b e :
  ∃ g, segments (book_sync (book_entry b e)) = <[current b := g]> (segments b) ∧ seg_le (active_segment b) g.
Proof using Type.
  destruct (sync_le (book_entry b e)) as (g & Hs & Hg). exists g. split.
  - rewrite Hs. simpl. by rewrite insert_insert_eq.
  - etrans; [|exact Hg]. unfold book_entry. rewrite active_with_segment. apply seg_le_entry.
Qed.

Lemma event_le ev b : current b + 1 ∉ open_ids b → book_le b (book_event ev b).
Proof using Type.
  intros Hf. destruct ev as [sig bs|x accs|x|x|r|c|]; cbn [book_event].
  - by eapply replace_le; [|apply (seg_le_entry _ (ETransaction bs))].
  - case_match; [|done]. eapply replace_le; [|etrans; [apply (seg_le_record _ (stored x))|apply seg_le_item]].
    unfold book_item. rewrite active_with_segment. simpl. by rewrite insert_insert_eq.
  - eapply replace_le.
    + unfold book_item, book_publish, book_entry. rewrite !active_with_segment. simpl. by rewrite !insert_insert_eq.
    + etrans; [apply (seg_le_entry _ (EBlock x))|]. etrans; [apply seg_le_publish|apply seg_le_item].
  - destruct (entry_sync_le b (ESuperblock x)) as (g & Hs & Hg). intros id H1 H2.
    assert (id ≠ current b + 1) by (intros ->; done). etrans; [by apply (replace_le b _ g Hs Hg)|].
    unfold segment. cbn [segments book_rotate]. by rewrite lookup_insert_ne.
  - destruct (entry_sync_le b (EReset r)) as (g & Hs & Hg). by apply (replace_le b _ g).
  - eapply replace_le.
    + unfold book_publish, book_entry. rewrite !active_with_segment. simpl. by rewrite !insert_insert_eq.
    + etrans; [apply (seg_le_entry _ (ECheckpoint c))|apply seg_le_publish].
  - destruct (sync_le b) as (g & Hs & Hg). by apply (replace_le b _ g).
Qed.

Lemma truncate_le b : book_le b (book_truncate b).
Proof using Type. intros id _ _. unfold segment. by destruct (truncate_fields b) as [-> _]. Qed.

(** ** Later books *)

Record later (b b' : Book) : Prop := {
  lt_segments : book_le b b';
  lt_open id : id ∈ open_ids b' → id ≤ current b → id ∈ open_ids b;
  lt_current : current b ≤ current b';
}.

Lemma later_refl b : later b b.
Proof using Type. constructor; [by intros id _ _|done|done]. Qed.

Lemma later_trans b1 b2 b3 (s : L) : refines b1 s → later b1 b2 → later b2 b3 → later b1 b3.
Proof using Type.
  intros R [A1 A2 A3] [B1 B2 B3]. constructor; [|intros id H1 H2; apply A2; [apply B2; [done|lia]|done]|lia].
  intros id H1 H3. pose proof (proj1 (rf_ids _ _ R id) H1). assert (id ∈ open_ids b2) by (apply B2; [done|lia]).
  etrans; [by apply A1|by apply B1].
Qed.

Lemma event_open ev b : open_ids (book_event ev b) = open_ids b ∨
  open_ids (book_event ev b) = open_ids b ∪ {[current b + 1]}.
Proof using Type. destruct ev; cbn [book_event]; try (by left); [case_match; by left|by right]. Qed.

Lemma truncate_open b : open_ids (book_truncate b) ⊆ open_ids b.
Proof using Type. unfold book_truncate. repeat case_match; simpl; set_solver. Qed.

Lemma event_later ev b (s : L) : refines b s → later b (book_event ev b).
Proof using Type.
  intros R. assert (Hf : current b + 1 ∉ open_ids b) by (rewrite (rf_ids _ _ R); lia). constructor.
  - by apply event_le.
  - intros id. destruct (event_open ev b) as [-> | ->]; [done|]. rewrite elem_of_union, elem_of_singleton. intros [?|?]; [done|lia].
  - destruct (step_current ev b _ (book_step_event ev b)) as [->|[-> _]]; lia.
Qed.

Lemma step_later ev b b' (s : L) : refines b s → book_step ev b b' → later b b'.
Proof using Type.
  intros R [|x -> Hm]; [by eapply event_later|]. destruct (event_later (EvBlock x) b s R) as [E1 E2 E3].
  set (b1 := book_event (EvBlock x) b) in *. destruct (truncate_fields (book_sync b1)) as [Hs Hc].
  assert (Ho : ∀ id, id ∈ open_ids (book_truncate (book_sync b1)) → id ∈ open_ids b1).
  { intros id Hid. by apply truncate_open in Hid. }
  constructor.
  - intros id H1 H2. etrans; [apply E1; [done|by apply Ho]|]. unfold segment at 2. rewrite Hs.
    destruct (sync_le b1) as (g & Hg & Hle). by apply (replace_le b1 (book_sync b1) g Hg Hle id); apply Ho.
  - intros id H1 H2. apply E2; [by apply Ho|done].
  - rewrite Hc. exact E3.
Qed.

Lemma index_later b (s : L) : refines b s → indexer_running s = true → later b (book_index b).
Proof using Type.
  intros R Hr. destruct (rf_indexing _ _ R Hr) as (_ & Ht & _). unfold book_index.
  destruct (items (active_segment b) !! taken b) as [[]|]; try apply later_refl; constructor; try done.
  eapply (replace_le b _ (seg_show (active_segment b) (S (taken b)))); [done|].
  constructor; unfold published, recorded, shown; simpl; try done. apply take_prefix_le. lia.
Qed.

Lemma reopen_later b : later b (book_reopen b).
Proof using Type.
  constructor; try done. eapply (replace_le b _ (seg_reopen (active_segment b))); [done|]. apply seg_le_reopen.
Qed.

End growth.

(** ** Histories

    A history of the ledger is a sequence of moves: the appender handles an event, the indexer
    takes a message, the services stop and start again. Every history leaves the ledger in a
    state that represents the book of the same history. *)

Inductive HistoryMove := MEvent (ev : Event) | MIndex | MRestart.

(** Restarts happen after a synchronization with nothing new since. *)
Fixpoint orderly_from (synced : bool) (ms : list HistoryMove) : bool :=
  match ms with
  | [] => true
  | MRestart :: ms => synced && orderly_from true ms
  | MIndex :: ms => orderly_from synced ms
  | MEvent EvSync :: ms => orderly_from true ms
  | MEvent _ :: ms => orderly_from false ms
  end.
Definition orderly (ms : list HistoryMove) : bool := orderly_from true ms.

Section history.
Context {Ks : Type} `{FJ : !Fjall Ks} `{IOC : !LedgerIo} `{CO : !LedgerCodec} `{WC : !WireConstants}.

Abbreviation L := (Ledger Ks).

Definition move (m : HistoryMove) : Eff LedgerError L unit :=
  match m with
  | MEvent ev => handle ev
  | MIndex => modify index_step
  | MRestart => modify reopen
  end.

Fixpoint run (ms : list HistoryMove) : Eff LedgerError L unit :=
  match ms with
  | [] => mret tt
  | m :: ms => _ ← move m; run ms
  end.

(** What the ledger expects of an event: a transaction comes with its own signature, an
    execution with the accounts' keys, slots count up, and a superblock is sealed by its id once
    no transaction waits. *)
Definition event_expected (ev : Event) (s : L) : Prop :=
  match ev with
  | EvTransaction sig bs => transaction_signature bs = Ok sig
  | EvExecution x accounts =>
      fits 64 (header_slot (header x)) ∧
      ∃ keys, Forall (λ k, length k = 32%nat) keys ∧ accounts = account_index keys
  | EvBlock x =>
      let slot := block_slot (payload x) in
      let last := end_ (range (l_meta s)) in
      1 ≤ slot ∧ fits 64 slot ∧ (last = 0 ∨ slot = last + 1)
  | EvSuperblock x => seal_id (payload x) = active s ∧ pending s = ∅ ∧ fits 64 (active s + 1)
  | _ => True
  end.

(** Entries of at most 32 MiB in files of at most 512 GiB. *)
Definition event_room (ev : Event) (s : L) : Prop :=
  match event_entry ev, ev with
  | Some e, _ => zlen (enc e) ≤ MAX_SIZE ∧ cursor (w_blockstore s) + zlen (enc e) < MAX_FILE_SIZE
  | None, EvExecution x _ =>
      zlen (rec_bytes (stored x)) ≤ MAX_SIZE ∧
      cursor (w_executions s) + zlen (rec_bytes (stored x)) < MAX_FILE_SIZE
  | None, _ => True
  end.

Fixpoint expected (ms : list HistoryMove) (s : L) : Prop :=
  match ms with
  | [] => True
  | m :: ms =>
      match m with MEvent ev => event_expected ev s ∧ event_room ev s | _ => True end ∧
      expected ms (move m s).2
  end.

(** The book's side. *)
Inductive book_move : HistoryMove → Book → Book → Prop :=
| bm_event ev b b' : book_step ev b b' → book_move (MEvent ev) b b'
| bm_index b : book_move MIndex b (book_index b)
| bm_stopped b : book_move MIndex b b
| bm_restart b : book_move MRestart b (book_reopen b).

Inductive book_run : list HistoryMove → Book → Book → Prop :=
| br_nil b : book_run [] b b
| br_cons m ms b b1 b2 : book_move m b b1 → book_run ms b1 b2 → book_run (m :: ms) b b2.

End history.

Section simulation.
Context {Ks : Type} `{FJ : !Fjall Ks, FL : !FjallLaws Ks} `{IOC : !LedgerIo} `{CO : !LedgerCodec} `{WC : !WireConstants}.

Abbreviation L := (Ledger Ks).

Lemma expected_ok ev b (s : L) : refines b s → event_expected ev s → event_ok ev b.
Proof using Type.
  intros R. destruct ev; simpl; try done.
  - by rewrite (rf_end _ _ R).
  - rewrite (rf_active _ _ R), (rf_pending _ _ R). intros (? & He & ?). split_and!; [done| |done]. by eapply fmap_empty_inv.
Qed.

Lemma room_fits ev b (s : L) : refines b s → event_room ev s → event_fits ev b.
Proof using Type.
  intros R. destruct (active_lookup b s R) as (sb & Hg & Hs & _).
  destruct (rf_written _ _ R sb Hs) as [(d & _ & [_ _ Hb]) (d' & _ & [_ _ He])]. cbn [snd] in Hb, He.
  unfold event_room, event_fits. by rewrite Hb, He.
Qed.

Lemma index_sized b : sized b → sized (book_index b).
Proof using Type.
  intros Hs. unfold book_index. repeat case_match; try done.
  intros id g Hl. cbn in Hl. apply lookup_insert_Some in Hl as [[<- <-]|[_ Hl]]; [|by eapply Hs]. apply (active_sized b Hs).
Qed.
Lemma index_complete b : fully_indexed b → fully_indexed (book_index b).
Proof using Type.
  intros Hb. pose proof (active_complete b Hb) as Ha. destruct Hb as [Hc Ho].
  unfold book_index. repeat case_match; try done. split.
  - intros id g Hl. cbn in Hl. apply lookup_insert_Some in Hl as [[<- <-]|[_ Hl]]; [done|by eapply Hc].
  - change (active_segment (with_taken ?b _)) with (active_segment b). rewrite active_with_segment. apply Ho.
Qed.

Lemma stream_take_le n l : zlen (stream (take n l)) ≤ zlen (stream l).
Proof using Type.
  destruct (stream_take_prefix n l) as [r ->]. rewrite zlen_app. pose proof (zlen_nonneg r). lia.
Qed.
Lemma rec_stream_take_le n l : zlen (rec_stream (take n l)) ≤ zlen (rec_stream l).
Proof using Type.
  destruct (rec_stream_take_prefix n l) as [r ->]. rewrite zlen_app. pose proof (zlen_nonneg r). lia.
Qed.
Lemma reopen_sized b : sized b → sized (book_reopen b).
Proof using Type.
  intros Hs id g Hl. cbn in Hl. apply lookup_insert_Some in Hl as [[<- <-]|[_ Hl]]; [|by eapply Hs].
  destruct (active_sized b Hs) as (S1 & S2 & S3 & S4). set (a := active_segment b) in *.
  pose proof (stream_take_le (public a) (entries a)). pose proof (rec_stream_take_le (rec_public a) (records a)).
  split_and!; simpl; [by apply list.Forall_take|lia|by apply list.Forall_take|lia].
Qed.

(** Nothing is lost by a restart after a synchronization. *)
Definition settled (b : Book) : Prop :=
  let g := active_segment b in
  public g = length (entries g) ∧ visible g = length (items g).

Lemma reopen_complete b : fully_indexed b → settled b → fully_indexed (book_reopen b) ∧ settled (book_reopen b).
Proof using Type.
  intros Hb [Hp Hv]. pose proof (active_complete b Hb) as Ha. destruct Hb as [Hc Ho].
  assert (E : active_segment (book_reopen b) = seg_reopen (active_segment b)).
  { unfold active_segment, segment. simpl. by rewrite lookup_insert_eq. }
  assert (E1 : entries (seg_reopen (active_segment b)) = entries (active_segment b)) by (simpl; by rewrite Hp, firstn_all).
  assert (E2 : items (seg_reopen (active_segment b)) = items (active_segment b)) by (simpl; by rewrite Hv, firstn_all).
  split; [split|].
  - intros id g Hl. cbn in Hl. apply lookup_insert_Some in Hl as [[<- <-]|[_ Hl]]; [|by eapply Hc]. unfold seg_complete. by rewrite E1, E2.
  - by rewrite E, E1.
  - unfold settled. by rewrite E, E1, E2.
Qed.

Lemma sync_settled b : settled (book_sync b).
Proof using Type.
  unfold settled, book_sync, book_fence, book_publish. change (active_segment (with_taken ?b _)) with (active_segment b).
  by rewrite !active_with_segment.
Qed.

Lemma index_settled b (s : L) : refines b s → indexer_running s = true → settled b → book_index b = b.
Proof using Type.
  intros R Hr [Hp Hv]. destruct (rf_indexing _ _ R Hr) as (_ & Ht & _). unfold book_index.
  by rewrite lookup_ge_None_2 by lia.
Qed.

(** ** One move *)

Definition synced_after (m : HistoryMove) (synced : bool) : bool :=
  match m with MEvent EvSync => true | MEvent _ => false | MIndex | MRestart => synced end.

Lemma orderly_cons synced m ms :
  orderly_from synced (m :: ms) = true →
  orderly_from synced [m] = true ∧ orderly_from (synced_after m synced) ms = true.
Proof using Type.
  destruct m as [[]| |]; simpl; try done. intros [-> ?]%andb_prop. done.
Qed.

Lemma move_refines m b (s : L) s' :
  refines b s → book_ok b → sized b →
  match m with MEvent ev => event_expected ev s ∧ event_room ev s | _ => True end →
  move m s = (Ok tt, s') →
  ∃ b', book_move m b b' ∧ refines b' s' ∧ book_ok b' ∧ sized b' ∧ later b b' ∧
    ∀ synced, fully_indexed b → (synced = true → settled b) → orderly_from synced [m] = true →
      fully_indexed b' ∧
      (synced_after m synced = true → settled b').
Proof using Type.
  intros R B S Hm H. destruct m as [ev| |]; cbn [move] in H.
  - destruct Hm as [He Hr]. pose proof (expected_ok ev b s R He) as Hok. pose proof (room_fits ev b s R Hr) as Hf.
    destruct (event_refines b s ev s' R B Hok H) as (b' & Hs & R' & B').
    exists b'. split_and!; [by constructor|done|done|by eapply step_sized|by eapply step_later|]. intros synced Hc _ _.
    split; [by eapply step_complete|]. destruct ev; try done. intros _. inversion Hs; subst; [|done]. apply sync_settled.
  - injection H as <-. destruct (index_step_refines b s R B) as (b' & [->|[Hr ->]] & R' & B').
    + exists b. split_and!; [by constructor|done|done|done|apply later_refl|]. by intros synced Hc Hs _.
    + exists (book_index b). split_and!; [by constructor|done|done|by apply index_sized|by eapply index_later|].
      intros synced Hc Hs _. split; [by apply index_complete|]. intros Hy.
      rewrite (index_settled b s R Hr); auto.
  - injection H as <-. exists (book_reopen b).
    split_and!; [by constructor|by apply reopen_refines|by eapply book_ok_reopen|by apply reopen_sized|apply reopen_later|].
    intros synced Hc Hs Ho. simpl in Ho. rewrite andb_true_r in Ho. destruct (reopen_complete b Hc (Hs Ho)). auto.
Qed.

Lemma run_refines ms b (s : L) s' :
  refines b s → book_ok b → sized b → expected ms s → run ms s = (Ok tt, s') →
  ∃ b', book_run ms b b' ∧ refines b' s' ∧ book_ok b' ∧ sized b' ∧ later b b' ∧
    ∀ synced, fully_indexed b → (synced = true → settled b) → orderly_from synced ms = true → fully_indexed b'.
Proof using Type.
  revert b s. induction ms as [|m ms IH]; intros b s R B S He H.
  { injection H as <-. exists b. split_and!; [constructor|done|done|done|apply later_refl|done]. }
  destruct He as [Hm He]. cbn [run] in H. apply op_bind_inv_ok in H as ([] & s1 & H1 & H).
  rewrite H1 in He. cbn [snd] in He.
  destruct (move_refines m b s s1 R B S Hm H1) as (b1 & Hb1 & R1 & B1 & S1 & A1 & C1).
  destruct (IH b1 s1 R1 B1 S1 He H) as (b2 & Hb2 & R2 & B2 & S2 & A2 & C2).
  exists b2. split_and!; [by econstructor|done|done|done|by eapply later_trans|]. intros synced Hc Hs Ho.
  apply orderly_cons in Ho as [Ho1 Ho2]. destruct (C1 synced Hc Hs Ho1) as [Hc1 Hs1].
  by apply (C2 (synced_after m synced)).
Qed.

(** ** Histories from the new ledger *)

Lemma sized_new : sized book_new.
Proof using Type. intros id g Hl. cbn in Hl. apply lookup_singleton_Some in Hl as [_ <-]. apply seg_sized_empty. Qed.
Lemma indexed_new : fully_indexed book_new.
Proof using Type. split; [|done]. intros id g Hl. cbn in Hl. by apply lookup_singleton_Some in Hl as [_ <-]. Qed.

Lemma history_refines limit ms (s : L) :
  expected ms (ledger_new limit) → run ms (ledger_new limit) = (Ok tt, s) →
  ∃ b, book_run ms book_new b ∧ refines b s ∧ book_ok b ∧ sized b ∧ (orderly ms = true → fully_indexed b).
Proof using Type.
  intros He H.
  destruct (run_refines ms book_new _ s (new_refines limit) book_ok_new sized_new He H) as (b & H1 & H2 & H3 & H4 & _ & H5).
  exists b. split_and!; try done. intros Ho. by apply (H5 true indexed_new).
Qed.

End simulation.
