(* ===== verification/LedgerLookup.v ===== *)
(** * Reading what the book says

    The laws of the codecs, and that a span of the index leads to the entry or the execution
    record it stands for. A lookup either gives the book's answer or reports an error of the
    file system or the index; it never takes its own data for corrupt. *)

From stdpp Require Import base list gmap numbers option sorting.
From S2P Require Import Prelude Effects Memory Records TxFrame LedgerFile LedgerIndex Ledger LedgerReader LedgerBook LedgerRefine LedgerSteps LedgerEvents LedgerRun LedgerHistory.

Local Open Scope Z_scope.

(** What wincode, bitcode and zstd promise for values that could be encoded: an entry is read
    back with the bytes after it untouched, a header has the size reported for it. *)
Class CodecLaws `{!LedgerCodec} := {
  entry_nonempty e : (entry_fragments e).2 = Ok tt → enc e ≠ [];
  entry_decodes e rest :
    (entry_fragments e).2 = Ok tt → zlen (enc e) ≤ MAX_SIZE → decode_entry (enc e ++ rest) = Ok (e, rest);
  header_nonempty h : (header_fragments h).2 = Ok tt → concat (header_fragments h).1 ≠ [];
  header_decodes h rest :
    (header_fragments h).2 = Ok tt → decode_header (concat (header_fragments h).1 ++ rest) = Ok h;
  header_measures h :
    (header_fragments h).2 = Ok tt → header_size h = Ok (zlen (concat (header_fragments h).1));
  bitcode_decodes d : bitcode_decode (bitcode_encode d) = Ok d;
  bitcode_none : zlen (bitcode_encode None) ≤ MAX_EXECUTION_DETAILS_SIZE;
  zstd_decodes bs out n : zstd_compress bs = Ok out → zlen bs ≤ n → zstd_decompress out n = Ok bs;
}.

(** ** Answers *)

Definition faulty (e : LedgerError) : Prop :=
  match e with IO _ | Index _ => True | _ => False end.
Definition answers {A} (r : result LedgerError A) (a : A) : Prop :=
  match r with Ok x => x = a | Err e => faulty e end.

Lemma answers_bind {A B} (r : result LedgerError A) (k : A → result LedgerError B) a c :
  answers r a → answers (k a) c → answers (r ≫= k) c.
Proof. destruct r as [x|e]; simpl; [by intros ->|done]. Qed.
Lemma answers_map_err {A} (f : ErrorCode → LedgerError) (r : result ErrorCode A) a :
  (∀ e, faulty (f e)) → (∀ x, r = Ok x → x = a) → answers (map_err f r) a.
Proof. intros Hf Ha. destruct r; simpl; [by apply Ha|apply Hf]. Qed.

Section query.
Context {Ks : Type} `{FJ : !Fjall Ks, FL : !FjallLaws Ks} `{IOC : !LedgerIo} `{CO : !LedgerCodec, CL : !CodecLaws} `{WC : !WireConstants}.

Abbreviation L := (Ledger Ks).

(** ** Entries and records at their spans *)

Lemma stream_split l i e : l !! i = Some e → stream l = stream (take i l) ++ enc e ++ stream (drop (S i) l).
Proof using Type.
  intros H. unfold stream. rewrite <- (take_drop_middle l i e H) at 1. rewrite fmap_app, concat_app. done.
Qed.
Lemma rec_stream_split l j x :
  l !! j = Some x → rec_stream l = rec_stream (take j l) ++ rec_bytes x ++ rec_stream (drop (S j) l).
Proof using Type.
  intros H. unfold rec_stream. rewrite <- (take_drop_middle l j x H) at 1. rewrite fmap_app, concat_app. done.
Qed.

Lemma entry_span_fields g i e :
  seg_sized g → entries g !! i = Some e →
  span_offset (entry_span g i) = zlen (stream (take i (entries g))) ∧ span_size (entry_span g i) = zlen (enc e) ∧
  fits 64 (entry_span g i).
Proof using Type.
  intros (S1 & S2 & _) Hi. unfold entry_span. rewrite Hi. apply span_fields.
  - rewrite (stream_split _ _ _ Hi), !zlen_app in S2. pose proof (zlen_nonneg (stream (take i (entries g)))).
    pose proof (zlen_nonneg (enc e)). pose proof (zlen_nonneg (stream (drop (S i) (entries g)))). lia.
  - split; [apply zlen_nonneg|]. rewrite list.Forall_lookup in S1. by eapply S1.
Qed.
Lemma record_span_fields g j x :
  seg_sized g → records g !! j = Some x →
  span_offset (record_span g j) = zlen (rec_stream (take j (records g))) ∧
  span_size (record_span g j) = zlen (rec_bytes x) ∧ fits 64 (record_span g j).
Proof using Type.
  intros (_ & _ & S1 & S2) Hi. unfold record_span. rewrite Hi. apply span_fields.
  - rewrite (rec_stream_split _ _ _ Hi), !zlen_app in S2. pose proof (zlen_nonneg (rec_stream (take j (records g)))).
    pose proof (zlen_nonneg (rec_bytes x)). pose proof (zlen_nonneg (rec_stream (drop (S j) (records g)))). lia.
  - split; [apply zlen_nonneg|]. rewrite list.Forall_lookup in S1. by eapply S1.
Qed.

Lemma read_exact_holds f pre bs post :
  holds f (pre ++ bs ++ post) → answers (read_exact_at f (zlen pre) (zlen bs)) bs.
Proof using Type.
  intros H. unfold read_exact_at. apply (answers_bind _ _ tt); [apply answers_map_err; [done|by intros []]|].
  by rewrite (holds_read _ _ _ _ H).
Qed.

Lemma read_entry g (sb : Superblock Ks) i e :
  on_disk g sb → seg_valid g → seg_sized g → entries g !! i = Some e → (i < public g)%nat →
  answers (blockstore_entry sb (entry_span g i)) e.
Proof using All.
  intros Hod Hv Hs Hi Hp. destruct (entry_span_fields g i e Hs Hi) as (E1 & E2 & _).
  unfold blockstore_entry. rewrite E1, E2. apply (answers_bind _ _ (enc e)).
  - assert (Hi' : take (public g) (entries g) !! i = Some e) by (by rewrite lookup_take_lt).
    pose proof (od_stream _ _ Hod) as Hh. rewrite (stream_split _ _ _ Hi'), take_take, Nat.min_l in Hh by lia.
    by eapply read_exact_holds.
  - pose proof (sv_entries _ Hv) as He. destruct Hs as (Hs & _). rewrite list.Forall_lookup in He, Hs.
    destruct (He i e Hi) as [Henc _]. specialize (Hs i e Hi).
    pose proof (entry_decodes e [] Henc Hs) as Hd. rewrite app_nil_r in Hd. by rewrite Hd.
Qed.

Lemma read_record_bytes g (sb : Superblock Ks) j x :
  on_disk g sb → seg_sized g → records g !! j = Some x → (j < rec_public g)%nat →
  answers (read_exact_at (executions sb) (span_offset (record_span g j)) (span_size (record_span g j))) (rec_bytes x).
Proof using Type.
  intros Hod Hs Hj Hp. destruct (record_span_fields g j x Hs Hj) as (E1 & E2 & _). rewrite E1, E2.
  assert (Hj' : take (rec_public g) (records g) !! j = Some x) by (by rewrite lookup_take_lt).
  pose proof (od_records _ _ Hod) as Hh. rewrite (rec_stream_split _ _ _ Hj'), take_take, Nat.min_l in Hh by lia.
  by eapply read_exact_holds.
Qed.

Lemma record_valid_at g j x : seg_valid g → records g !! j = Some x → record_valid x.
Proof using Type. intros Hv Hj. pose proof (sv_records _ Hv) as H. rewrite list.Forall_lookup in H. by eapply H. Qed.

Lemma read_header_at g (sb : Superblock Ks) j x :
  on_disk g sb → seg_valid g → seg_sized g → records g !! j = Some x → (j < rec_public g)%nat →
  answers (read_header sb (record_span g j)) (header x).
Proof using All.
  intros Hod Hv Hs Hj Hp. unfold read_header. eapply answers_bind; [by eapply read_record_bytes|].
  destruct (record_valid_at g j x Hv Hj) as (Hh & _). unfold rec_bytes. by rewrite header_decodes.
Qed.

Lemma read_execution_at g (sb : Superblock Ks) j x :
  on_disk g sb → seg_valid g → seg_sized g → records g !! j = Some x → (j < rec_public g)%nat →
  answers (read_execution sb (record_span g j)) x.
Proof using All.
  intros Hod Hv Hs Hj Hp. unfold read_execution. eapply answers_bind; [by eapply read_record_bytes|].
  destruct (record_valid_at g j x Hv Hj) as (Hh & _ & (out & Hz) & Hd). unfold rec_bytes. rewrite Hz.
  rewrite header_decodes by done. cbn [map_err mbind result_bind].
  rewrite header_measures by done. cbn [map_err mbind result_bind].
  rewrite zlen_app. pose proof (zlen_nonneg out). rewrite (proj2 (Z.ltb_ge _ _)) by lia.
  unfold zlen at 1. rewrite Nat2Z.id, drop_app_length.
  assert (Hsmall : zlen (bitcode_encode (details x)) ≤ MAX_EXECUTION_DETAILS_SIZE).
  { destruct (details x) eqn:E; [by apply Hd|apply bitcode_none]. }
  rewrite (zstd_decodes _ _ _ Hz Hsmall). cbn [map_err mbind result_bind]. rewrite bitcode_decodes. simpl. by destruct x.
Qed.

End query.

(** ** What the index finds

    The keyspace of a superblock maps the prefix of a signature to the last transaction with it
    and a slot to its block; both are read off the visible items of the segment. *)

(** The last visible transaction with the signature's prefix, as its entry and its record. *)
Definition seg_find (g : Segment) (sig : Signature) : option (nat * nat) :=
  list.last (omap (λ it, match it with
    | ItemTx sig' _ i j => if decide (signature_prefix sig' = signature_prefix sig) then Some (i, j) else None
    | ItemBlock _ _ => None end) (take (visible g) (items g))).

(** The visible block of a slot. *)
Definition seg_block (g : Segment) (slot : Z) : option nat :=
  list.last (omap (λ it, match it with
    | ItemBlock slot' i => if decide (slot' = slot) then Some i else None
    | ItemTx _ _ _ _ => None end) (take (visible g) (items g))).

(** ** Writing a batch *)

Definition values (k : list Z) (l : list (list Z * list Z)) : list (list Z) :=
  omap (λ '(k', v), if decide (k' = k) then Some v else None) l.

Lemma write_all_lookup (m : gmap (list Z) (list Z)) l k :
  write_all m l !! k = match list.last (values k l) with Some v => Some v | None => m !! k end.
Proof.
  induction l as [|[k' v] l IH] using rev_ind; [done|]. unfold values in *. rewrite foldl_snoc, omap_app. simpl.
  destruct (decide (k' = k)) as [->|Hn].
  - by rewrite lookup_insert_eq, last_snoc.
  - by rewrite lookup_insert_ne, app_nil_r by done.
Qed.

Lemma omap_concat {A B} (f : A → option B) (ls : list (list A)) :
  omap f (concat ls) = concat ((λ l : list A, omap f l : list B) <$> ls).
Proof. induction ls as [|l ls IH]; [done|]. simpl. by rewrite omap_app, IH. Qed.

Lemma concat_options {A B} (f : A → option B) (l : list A) : concat ((λ x, option_list (f x)) <$> l) = omap f l.
Proof. induction l as [|x l IH]; [done|]. rewrite fmap_cons. simpl. rewrite IH. by destruct (f x). Qed.

Lemma fmap_ext_Forall {A B} (P : A → Prop) (f h : A → B) (l : list A) :
  Forall P l → (∀ x, P x → f x = h x) → f <$> l = h <$> l.
Proof. intros H Hf. induction H as [|x l Hx _ IH]; [done|]. rewrite !fmap_cons. by rewrite Hf, IH. Qed.

Lemma omap_fmap_values {A B C} (f : A → option B) (h : B → C) (l : list A) :
  omap (λ x, h <$> f x) l = h <$> omap f l.
Proof. induction l as [|x l IH]; [done|]. simpl. unfold omap in IH. rewrite IH. by destruct (f x). Qed.

Lemma values_cons k k' v l : values k ((k', v) :: l) = (if decide (k' = k) then [v] else []) ++ values k l.
Proof. unfold values. cbn -[decide]. by destruct (decide (k' = k)). Qed.
Lemma values_none k l : Forall (λ p, p.1 ≠ k) l → values k l = [].
Proof.
  intros H. induction H as [|[k' v] l Hk _ IH]; [done|]. rewrite values_cons, IH. by rewrite decide_False.
Qed.

(** One value per item at most: the lookup is the last one. *)
Lemma lookup_items {B} (h : Item → list (list Z * list Z)) (P : Item → Prop) k (f : Item → option B) (w : B → list Z) l :
  Forall P l → (∀ it, P it → values k (h it) = option_list (w <$> f it)) →
  write_all ∅ (concat (h <$> l)) !! k = w <$> list.last (omap f l).
Proof.
  intros Hl Hk. rewrite write_all_lookup, lookup_empty.
  assert (values k (concat (h <$> l)) = w <$> omap f l) as ->.
  { rewrite <- omap_fmap_values, <- concat_options, <- (fmap_ext_Forall P _ _ l Hl Hk).
    unfold values. by rewrite omap_concat, <- list_fmap_compose. }
  rewrite fmap_last.
  by destruct (list.last (omap f l)).
Qed.

(** ** Spans in the index *)

Lemma be_bytes_inj n x y : 0 ≤ x < 256 ^ Z.of_nat n → 0 ≤ y < 256 ^ Z.of_nat n → be_bytes n x = be_bytes n y → x = y.
Proof.
  intros Hx Hy H. unfold be_bytes in H. apply (f_equal reverse) in H. rewrite !reverse_involutive in H.
  apply (f_equal le_num) in H. rewrite !le_num_le_bytes, !Z.mod_small in H by done. done.
Qed.

Lemma from_value_bytes s : fits 64 s → from_value (value_bytes s) = Ok s.
Proof.
  intros H. unfold from_value, fixed, value_bytes. rewrite length_le_bytes, decide_True by done. cbn [mbind result_bind].
  rewrite le_num_le_bytes, Z.mod_small; [done|]. exact H.
Qed.

Lemma length_value_bytes s : length (value_bytes s) = SPAN_BYTES.
Proof. apply length_le_bytes. Qed.

Section lookup.
Context {Ks : Type} `{FJ : !Fjall Ks, FL : !FjallLaws Ks} `{IOC : !LedgerIo} `{CO : !LedgerCodec} `{WC : !WireConstants}.

(** Nothing but the item of a transaction has its key, nothing but that of a block its. *)
Lemma values_transaction g it sig :
  item_valid g it →
  values (transaction_key sig) (item_entries g it) =
  option_list ((λ '(i, j), value_bytes (entry_span g i) ++ value_bytes (record_span g j)) <$>
    match it with
    | ItemTx sig' _ i j => if decide (signature_prefix sig' = signature_prefix sig) then Some (i, j) else None
    | ItemBlock _ _ => None end).
Proof using Type.
  destruct it as [sig' accs i j|slot i]; cbn [item_entries].
  - intros [_ Ha]. rewrite values_cons, values_none, app_nil_r.
    + destruct (decide (signature_prefix sig' = signature_prefix sig)) as [E|E].
      * rewrite decide_True; [done|]. unfold transaction_key. by rewrite E.
      * rewrite decide_False; [done|]. unfold transaction_key. by intros [= ?].
    + apply Forall_fmap. eapply list.Forall_impl; [done|]. by intros a (key & _ & ->).
  - intros _. by rewrite values_cons, decide_False.
Qed.

Lemma values_block g it slot :
  item_valid g it → fits 64 slot → match it with ItemBlock slot' _ => fits 64 slot' | _ => True end →
  values (block_key slot) (item_entries g it) =
  option_list ((λ i, value_bytes (entry_span g i)) <$>
    match it with
    | ItemBlock slot' i => if decide (slot' = slot) then Some i else None
    | ItemTx _ _ _ _ => None end).
Proof using Type.
  destruct it as [sig' accs i j|slot' i]; cbn [item_entries].
  - intros [_ Ha] _ _. rewrite values_cons, decide_False, values_none; [done| |done].
    apply Forall_fmap. eapply list.Forall_impl; [done|]. by intros a (key & _ & ->).
  - intros _ Hs Hs'. rewrite values_cons. destruct (decide (slot' = slot)) as [->|E]; [by rewrite decide_True|].
    rewrite decide_False; [done|]. unfold block_key. intros H. apply (f_equal tail) in H. cbn [tail] in H. by apply be_bytes_inj in H.
Qed.

(** ** Lookups *)

Lemma take_visible g : Forall (item_valid g) (items g) → Forall (item_valid g) (take (visible g) (items g)).
Proof using Type. apply list.Forall_take. Qed.

Lemma find_in g sig i j :
  seg_ok g → seg_find g sig = Some (i, j) →
  ∃ sig' accs, ItemTx sig' accs i j ∈ take (visible g) (items g) ∧ signature_prefix sig' = signature_prefix sig.
Proof using Type.
  intros Hg H. unfold seg_find in H. apply last_Some_elem_of in H. apply list_elem_of_omap in H as (it & Hin & Hit).
  destruct it as [sig' accs i' j'|]; [|done]. case_decide; [|done]. injection Hit as -> ->. eauto.
Qed.
Lemma block_in g slot i :
  seg_block g slot = Some i → ItemBlock slot i ∈ take (visible g) (items g).
Proof using Type.
  intros H. unfold seg_block in H. apply last_Some_elem_of in H. apply list_elem_of_omap in H as (it & Hin & Hit).
  destruct it as [|slot' i']; [done|]. case_decide; [|done]. by simplify_eq.
Qed.

(** What a visible item refers to is there and published. *)
Lemma visible_ok g it : seg_ok g → it ∈ take (visible g) (items g) → item_ok g it ∧ item_public g it.
Proof using Type.
  intros [S1 S2 S3 S4 S5 S6] H. rewrite list.Forall_forall in S4, S5. split; [|by apply S5].
  apply S4. by eapply list.subseteq_take.
Qed.

Lemma find_transaction g (sb : Superblock Ks) sig :
  on_disk g sb → seg_valid g → seg_sized g →
  answers (index_transaction (index sb) sig)
    ((λ '(i, j), {| tx_blockstore := entry_span g i; tx_execution := record_span g j |}) <$> seg_find g sig).
Proof using All.
  intros Hod Hv Hs. unfold index_transaction. eapply answers_bind.
  { apply answers_map_err; [done|]. intros o Ho. apply ks_get_data in Ho. rewrite (od_index _ _ Hod) in Ho.
    rewrite (lookup_items _ _ _ _ _ _ (take_visible g (sv_items _ Hv)) (λ it Hit, values_transaction g it sig Hit)) in Ho.
    exact Ho. }
  fold (seg_find g sig). destruct (seg_find g sig) as [[i j]|] eqn:E; [|done]. cbn [fmap option_fmap option_map].
  destruct (find_in g sig i j (od_segment _ _ Hod) E) as (sig' & accs & Hin & _).
  destruct (visible_ok g _ (od_segment _ _ Hod) Hin) as [[[bs Hb] (x & Hx & _)] _].
  destruct (entry_span_fields g i _ Hs Hb) as (_ & _ & F1).
  destruct (record_span_fields g j _ Hs Hx) as (_ & _ & F2).
  unfold fixed. rewrite length_app, !length_value_bytes, decide_True by done. cbn [mbind result_bind].
  rewrite take_app_le, drop_app_le, firstn_all2, drop_ge by (rewrite length_value_bytes; done).
  rewrite app_nil_l, !from_value_bytes by done. done.
Qed.

Lemma item_slots g :
  seg_ok g → seg_valid g →
  Forall (λ it, item_valid g it ∧ match it with ItemBlock slot _ => fits 64 slot | _ => True end)
    (take (visible g) (items g)).
Proof using Type.
  intros Hg Hv. rewrite list.Forall_forall. intros it Hin. split.
  - pose proof (sv_items _ Hv) as Hi. rewrite list.Forall_forall in Hi. apply Hi. by eapply list.subseteq_take.
  - destruct (visible_ok g it Hg Hin) as [Hok _]. destruct it as [|slot i]; [done|]. destruct Hok as (x & Hx & <-).
    pose proof (sv_entries _ Hv) as He. rewrite list.Forall_lookup in He. by destruct (He _ _ Hx).
Qed.

Lemma find_slot g (sb : Superblock Ks) slot :
  on_disk g sb → seg_valid g → seg_sized g → fits 64 slot →
  answers (index_block (index sb) slot) (entry_span g <$> seg_block g slot).
Proof using All.
  intros Hod Hv Hs Hf. unfold index_block. eapply answers_bind.
  { apply answers_map_err; [done|]. intros o Ho. apply ks_get_data in Ho. rewrite (od_index _ _ Hod) in Ho.
    rewrite (lookup_items _ _ _ _ _ _ (item_slots g (od_segment _ _ Hod) Hv)
              (λ it Hit, values_block g it slot (proj1 Hit) Hf (proj2 Hit))) in Ho. exact Ho. }
  fold (seg_block g slot). destruct (seg_block g slot) as [i|] eqn:E; [|done]. cbn [fmap option_fmap option_map].
  destruct (visible_ok g _ (od_segment _ _ Hod) (block_in g slot i E)) as [(x & Hx & _) _].
  destruct (entry_span_fields g i _ Hs Hx) as (_ & _ & F). by rewrite from_value_bytes.
Qed.

End lookup.

(** ** Requests answered from the book

    Lookups by signature search the retained superblocks from the newest; a replay streams what
    was published after a superblock. *)

(** ** The book's answers *)

Fixpoint first_some {A B} (f : A → option B) (l : list A) : option B :=
  match l with
  | [] => None
  | x :: l => match f x with Some y => Some y | None => first_some f l end
  end.

(** The open superblocks, and those after one, in the order of the search. *)
Definition newest_first (b : Book) : list Z :=
  filter (λ id, id ∈ open_ids b) (reverse (seqZ 1 (current b))).
Definition after_first (b : Book) (id : Z) : list Z :=
  filter (λ i, i ∈ open_ids b ∧ id < i) (seqZ 1 (current b)).

Definition seg_transaction (g : Segment) (sig : Signature) : option TransactionResponse :=
  '(i, j) ← seg_find g sig;
  match entries g !! i, records g !! j with
  | Some (ETransaction t), Some x => Some {| transaction := t; execution := x |}
  | _, _ => None
  end.
Definition book_transaction (b : Book) (sig : Signature) : option TransactionResponse :=
  first_some (λ id, seg_transaction (segment b id) sig) (newest_first b).

Definition response_status (t : TransactionResponse) : TransactionStatus :=
  {| status_result := header_result (header (execution t)); status_slot := header_slot (header (execution t)) |}.

(** The entries published after a superblock, in order. *)
Definition book_stream (b : Book) (after : Z) : list BlockstoreEntry :=
  concat ((λ id, take (public (segment b id)) (entries (segment b id))) <$> after_first b after).

(** What a receiver takes before it goes away. *)
Fixpoint received (listening : list BlockstoreEntry → bool) (sent l : list BlockstoreEntry) : list BlockstoreEntry :=
  match l with
  | [] => sent
  | e :: l => if listening sent then received listening (sent ++ [e]) l else sent
  end.

Section reads.
Context {Ks : Type} `{FJ : !Fjall Ks, FL : !FjallLaws Ks} `{IOC : !LedgerIo} `{CO : !LedgerCodec, CL : !CodecLaws} `{WC : !WireConstants}.

Abbreviation L := (Ledger Ks).

Lemma filter_reverse {A} (P : A → Prop) `{∀ x, Decision (P x)} (l : list A) :
  filter P (reverse l) = reverse (filter P l).
Proof using Type.
  induction l as [|x l IH]; [done|]. rewrite reverse_cons, list.filter_app, IH, !list.filter_cons.
  case_decide; [by rewrite reverse_cons|]. by rewrite list.filter_nil, app_nil_r.
Qed.

Lemma filter_none {A} (P : A → Prop) `{∀ x, Decision (P x)} (l : list A) : Forall (λ x, ¬ P x) l → filter P l = [].
Proof using Type. intros Hl. induction Hl as [|x l Hx _ IH]; [done|]. by rewrite list.filter_cons, decide_False. Qed.

Lemma filter_ext {A} (P Q : A → Prop) `{∀ x, Decision (P x)} `{∀ x, Decision (Q x)} (l : list A) :
  (∀ x, x ∈ l → P x ↔ Q x) → filter P l = filter Q l.
Proof using Type.
  induction l as [|x l IH]; intros Hl; [done|]. rewrite !list.filter_cons, IH by (intros y Hy; apply Hl; by right).
  assert (P x ↔ Q x) as Hx by (apply Hl; left). repeat case_decide; tauto.
Qed.

Lemma sorted_filter {A} (R : A → A → Prop) (P : A → Prop) `{∀ x, Decision (P x)} (l : list A) :
  StronglySorted R l → StronglySorted R (filter P l).
Proof using Type.
  intros Hl. induction Hl as [|x l _ IH Hx]; [constructor|]. rewrite list.filter_cons. case_decide; [|done].
  constructor; [done|]. rewrite list.Forall_forall in Hx |- *. intros y [_ Hy]%list_elem_of_filter. by apply Hx.
Qed.

Lemma iter_newest b (s : L) : refines b s → superblock_iter s = newest_first b.
Proof using Type.
  intros R. pose proof (rf_count _ _ R) as Hc. unfold superblock_iter, newest_first, retained_ids, saturating_sub.
  cbn [fst snd]. rewrite (rf_head _ _ R), (rf_retained _ _ R), !filter_reverse. f_equal.
  set (n := superblocks (l_meta s)) in *.
  replace (Z.max 0 (current b - Z.max 0 (n - 1))) with (current b - n + 1) by lia.
  assert (Hs : seqZ 1 (current b) = seqZ 1 (current b - n) ++ seqZ (current b - n + 1) n).
  { replace (current b) with ((current b - n) + n) at 1 by lia. rewrite seqZ_app by lia. do 2 f_equal; lia. }
  rewrite Hs.
  rewrite list.filter_app, (filter_none _ (seqZ 1 _)), app_nil_l; [do 2 f_equal; lia|].
  rewrite list.Forall_forall. intros id [H1 H2]%elem_of_seqZ. rewrite (rf_ids _ _ R). lia.
Qed.

Lemma iter_after_book b (s : L) id :
  refines b s → book_ok b → 0 ≤ id → iter_after s id = after_first b id.
Proof using Type.
  intros R B Hid. destruct (bk_current _ B) as [_ Hcur]. unfold iter_after, after_first.
  destruct (checked_add 64 id 1) as [from|] eqn:E.
  - apply checked_add_Some in E as [-> _]. rewrite (rf_head _ _ R), (rf_retained _ _ R).
    destruct (decide (current b ≤ id)) as [Hle|Hlt].
    + rewrite seqZ_nil by lia. symmetry. apply filter_none, list.Forall_forall.
      intros i [H1 H2]%elem_of_seqZ. lia.
    + assert (Hs : seqZ 1 (current b) = seqZ 1 id ++ seqZ (id + 1) (current b + 1 - (id + 1))).
      { replace (current b) with (id + (current b - id)) at 1 by lia. rewrite seqZ_app by lia. do 2 f_equal; lia. }
      rewrite Hs, list.filter_app, (filter_none _ (seqZ 1 id)), app_nil_l.
      2: { apply list.Forall_forall. intros i [H1 H2]%elem_of_seqZ. lia. }
      apply filter_ext. intros i [H1 H2]%elem_of_seqZ. split; [|tauto]. intros Hi. split; [done|lia].
  - apply checked_add_None in E. symmetry. apply filter_none, list.Forall_forall.
    intros i [H1 H2]%elem_of_seqZ. lia.
Qed.

Lemma open_segment b (s : L) id :
  refines b s → book_ok b → sized b → id ∈ open_ids b →
  on_disk (segment b id) (directory s id) ∧ seg_valid (segment b id) ∧ seg_sized (segment b id) ∧
  segments b !! id = Some (segment b id).
Proof using Type.
  intros R B S Hid. destruct (rf_disk _ _ R id Hid) as (g & sb & Hg & Hs & Hod).
  assert (segment b id = g) as -> by (unfold segment; by rewrite Hg).
  assert (directory s id = sb) as -> by (unfold directory; by rewrite Hs).
  split_and!; [done|by eapply (bk_valid _ B)|by eapply S|done].
Qed.

Lemma search_answers {A} (f : Superblock Ks → result LedgerError (option A)) h (s : L) ids :
  (∀ id, id ∈ ids → answers (f (directory s id)) (h id)) →
  answers (search (λ _, false) f s ids) (first_some h ids).
Proof using Type.
  induction ids as [|id ids IH]; intros H; [done|]. cbn [search first_some].
  eapply answers_bind; [apply H; left|]. destruct (h id); [done|]. apply IH. intros i Hi. apply H. by right.
Qed.

Lemma newest_open b id : id ∈ newest_first b → id ∈ open_ids b.
Proof using Type. intros H. apply list_elem_of_filter in H. tauto. Qed.

Lemma transaction_at g (sb : Superblock Ks) sig i j :
  on_disk g sb → seg_valid g → seg_sized g → seg_find g sig = Some (i, j) →
  ∃ t x, entries g !! i = Some (ETransaction t) ∧ records g !! j = Some x ∧
    (i < public g)%nat ∧ (j < rec_public g)%nat.
Proof using Type.
  intros Hod Hv Hs E. destruct (find_in g sig i j (od_segment _ _ Hod) E) as (sig' & accs & Hin & _).
  destruct (visible_ok g _ (od_segment _ _ Hod) Hin) as [[[bs Hb] (x & Hx & _)] [Hi Hj]]. by exists bs, x.
Qed.

Lemma read_transaction_answers b (s : L) sig :
  refines b s → book_ok b → sized b →
  answers (read_transaction (λ _, false) sig s) (book_transaction b sig).
Proof using All.
  intros R B S. unfold read_transaction, book_transaction. rewrite (iter_newest b s R). apply search_answers.
  intros id Hid%newest_open. destruct (open_segment b s id R B S Hid) as (Hod & Hv & Hs & _).
  eapply answers_bind; [by apply find_transaction|]. unfold seg_transaction.
  destruct (seg_find (segment b id) sig) as [[i j]|] eqn:E; [|done].
  destruct (transaction_at _ _ sig i j Hod Hv Hs E) as (t & x & Ht & Hx & Hi & Hj).
  cbn [fmap option_fmap option_map mbind option_bind tx_blockstore tx_execution]. rewrite Ht, Hx.
  eapply answers_bind; [unfold transaction_entry; eapply answers_bind; [by eapply read_entry|done]|].
  eapply answers_bind; [by eapply read_execution_at|done].
Qed.

Lemma read_status_answers b (s : L) sig :
  refines b s → book_ok b → sized b →
  answers (read_transaction_status (λ _, false) sig s) (response_status <$> book_transaction b sig).
Proof using All.
  intros R B S. unfold read_transaction_status, book_transaction.
  assert (E : ∀ l, response_status <$> first_some (λ id, seg_transaction (segment b id) sig) l =
            first_some (λ id, response_status <$> seg_transaction (segment b id) sig) l).
  { induction l as [|id l IH]; [done|]. simpl. by destruct (seg_transaction (segment b id) sig). }
  rewrite E, (iter_newest b s R). apply search_answers.
  intros id Hid%newest_open. destruct (open_segment b s id R B S Hid) as (Hod & Hv & Hs & _).
  eapply answers_bind; [by apply find_transaction|]. unfold seg_transaction.
  destruct (seg_find (segment b id) sig) as [[i j]|] eqn:F; [|done].
  destruct (transaction_at _ _ sig i j Hod Hv Hs F) as (t & x & Ht & Hx & Hi & Hj).
  cbn [fmap option_fmap option_map mbind option_bind tx_blockstore tx_execution]. rewrite Ht, Hx.
  eapply answers_bind; [by eapply read_header_at|done].
Qed.

(** ** Scanning the stream *)

(** A scan decodes the published entries one after the other. *)
Fixpoint visit_list {A} (f : A → BlockstoreEntry → result LedgerError (A * bool)) (a : A)
    (l : list BlockstoreEntry) : result LedgerError (A * bool) :=
  match l with
  | [] => Ok (a, true)
  | e :: l => '(a, go) ← f a e; if go : bool then visit_list f a l else Ok (a, false)
  end.

Lemma visit_stream {A} (f : A → BlockstoreEntry → result LedgerError (A * bool)) l n a :
  Forall entry_valid l → Forall (λ e, zlen (enc e) ≤ MAX_SIZE) l → (length (stream l) ≤ n)%nat →
  visit n f a (stream l) = visit_list f a l.
Proof using CL.
  revert n a. induction l as [|e l IH]; intros n a Hv Hs Hn.
  { by destruct n. }
  apply list.Forall_cons in Hv as [[He _] Hv]. apply list.Forall_cons in Hs as [Hse Hs].
  pose proof (entry_nonempty e He) as Hne. change (stream (e :: l)) with (enc e ++ stream l) in Hn |- *.
  rewrite length_app in Hn. assert (Hlen : (1 ≤ length (enc e))%nat) by (destruct (enc e); [done|simpl; lia]).
  destruct n as [|n]; [lia|]. cbn [visit visit_list].
  rewrite bool_decide_eq_false_2 by (by destruct (enc e)). rewrite entry_decodes by done.
  cbn [map_err mbind result_bind]. destruct (f a e) as [[a' [|]]|]; [|done|done].
  apply IH; [done|done|lia].
Qed.

Lemma published_stream g (sb : Superblock Ks) :
  on_disk g sb → published_bytes sb = stream (take (public g) (entries g)).
Proof using Type.
  intros Hod. destruct (od_stream _ _ Hod) as [Hl Hz]. unfold published_bytes. rewrite (od_cursor _ _ Hod).
  rewrite Z.min_l by done. unfold zlen at 1. by rewrite Nat2Z.id.
Qed.

Lemma visit_published {A} (f : A → BlockstoreEntry → result LedgerError (A * bool)) g (sb : Superblock Ks) a r :
  on_disk g sb → seg_valid g → seg_sized g →
  answers (visit_list f a (take (public g) (entries g))) r → answers (visit_blockstore sb f a) r.
Proof using CL.
  intros Hod Hv (Hs & _) Hr. unfold visit_blockstore.
  apply (answers_bind _ _ tt); [apply answers_map_err; [done|by intros []]|].
  rewrite (published_stream g sb Hod), visit_stream; [done| | |done].
  - apply list.Forall_take, Hv.
  - by apply list.Forall_take.
Qed.

(** ** Replay *)

Lemma received_visit (listening : list BlockstoreEntry → bool) sent l :
  ∃ c : bool, visit_list (λ sent e, Ok (if listening sent then (sent ++ [e], true) else (sent, false))) sent l =
    Ok (received listening sent l, c) ∧
  ∀ l', received listening sent (l ++ l') =
    if c then received listening (received listening sent l) l' else received listening sent l.
Proof using Type.
  revert sent. induction l as [|e l IH]; intros sent; [by exists true|]. cbn [visit_list received app].
  destruct (listening sent) eqn:E; cbn [mbind result_bind]; [apply IH|]. by exists false.
Qed.

Lemma replay_answers b (s : L) listening after :
  refines b s → book_ok b → sized b → 0 ≤ after →
  answers (replay listening after s) (received listening [] (book_stream b after)).
Proof using CL.
  intros R B S Ha. unfold replay, book_stream. rewrite (iter_after_book b s after R B Ha).
  assert (Hop : ∀ id, id ∈ after_first b after → id ∈ open_ids b).
  { intros id [[H _] _]%list_elem_of_filter. done. }
  generalize (@nil BlockstoreEntry). revert Hop. generalize (after_first b after) as ids.
  induction ids as [|id ids IH]; intros Hop sent; [done|]. cbn [replay_superblocks].
  destruct (open_segment b s id R B S) as (Hod & Hv & Hs & _); [apply Hop; left|].
  destruct (received_visit listening sent (take (public (segment b id)) (entries (segment b id)))) as (c & Hc & Hr).
  eapply answers_bind; [eapply visit_published; [done..|]; by rewrite Hc|]. rewrite fmap_cons. cbn [concat]. rewrite Hr.
  destruct c; [|done]. apply IH. intros i Hi. apply Hop. by right.
Qed.

End reads.
