(* ===== verification/LedgerBlocks.v ===== *)
(** * Blocks answered from the book

    A block request finds the superblock that covers the slot, and reads the transactions
    between the boundary before it and its own. *)

From stdpp Require Import base list gmap numbers option.
From S2P Require Import Prelude Effects Memory Records TxFrame LedgerFile LedgerIndex Ledger LedgerReader LedgerBook LedgerRefine LedgerSteps LedgerEvents LedgerRun LedgerHistory LedgerLookup.

Local Open Scope Z_scope.

(** ** The book's answers *)

(** The entries after the last block of a list. *)
Fixpoint since_block (acc l : list BlockstoreEntry) : list BlockstoreEntry :=
  match l with
  | [] => acc
  | EBlock _ :: l => since_block [] l
  | e :: l => since_block (acc ++ [e]) l
  end.

Definition book_find (b : Book) (slot : Z) : option (Z * nat) :=
  first_some (λ id, pair id <$> seg_block (segment b id) slot) (newest_first b).

Section spec.
Context `{WC : !WireConstants}.

(** A transaction that the index knows, with its signature and the number of its record. *)
Definition seg_executed (g : Segment) (e : BlockstoreEntry) : option (list Z * Signature * nat) :=
  match e with
  | ETransaction t =>
      match transaction_signature t with
      | Ok sig => '(_, j) ← seg_find g sig; Some (t, sig, j)
      | Err _ => None
      end
  | _ => None
  end.

Definition seg_body (g : Segment) (i : nat) : list (list Z * Signature * nat) :=
  omap (seg_executed g) (since_block [] (take i (entries g))).

Definition seg_response (g : Segment) (d : BlockDetails) (i : nat) : option BlockResponse :=
  match entries g !! i with
  | Some (EBlock x) =>
      let b := payload x in
      let body := seg_body g i in
      Some match d with
           | NoDetails => Bare b
           | Signatures => WithSignatures b ((λ '(_, sig, _), sig) <$> body)
           | Transactions => WithTransactions b ((λ '(t, _, _), t) <$> body)
           | Full => FullBlock b (omap (λ '(t, _, j),
                       (λ x, {| transaction := t; execution := x |}) <$> records g !! j) body)
           end
  | _ => None
  end.

Definition book_block (b : Book) (slot : Z) (d : BlockDetails) : option BlockResponse :=
  '(id, i) ← book_find b slot; seg_response (segment b id) d i.

End spec.

(** ** Positions of blocks *)

Lemma since_block_app acc l e :
  since_block acc (l ++ [e]) = match e with EBlock _ => [] | _ => since_block acc l ++ [e] end.
Proof.
  revert acc. induction l as [|e' l IH]; intros acc; [by destruct e|]. destruct e'; simpl; by rewrite IH.
Qed.

Lemma positions_bound l s i : (s, i) ∈ block_positions l → (i < length l)%nat.
Proof.
  induction l as [|e l IH] using rev_ind; [by intros ?%elem_of_nil|]. rewrite block_positions_app, length_app.
  intros [H|H]%elem_of_app; [specialize (IH H); simpl; lia|]. destruct e; try by apply elem_of_nil in H.
  apply list_elem_of_singleton in H as [= -> ->]. simpl. lia.
Qed.

Lemma positions_slots l : (block_positions l).*1 = slots l.
Proof.
  induction l as [|e l IH] using rev_ind; [done|]. rewrite block_positions_app, fmap_app, IH.
  unfold slots. rewrite omap_app. f_equal. by destruct e.
Qed.

Lemma positions_entry l s i : (s, i) ∈ block_positions l → ∃ x, l !! i = Some (EBlock x) ∧ block_slot (payload x) = s.
Proof.
  induction l as [|e l IH] using rev_ind; [by intros ?%elem_of_nil|]. rewrite block_positions_app.
  intros [H|H]%elem_of_app.
  - destruct (IH H) as (x & Hx & Hs). exists x. split; [by apply lookup_app_l_Some|done].
  - destruct e as [x| | | |]; try by apply elem_of_nil in H. apply list_elem_of_singleton in H as [= -> ->].
    exists x. by rewrite lookup_app_r, Nat.sub_diag by done.
Qed.

Lemma positions_take l k s i :
  block_positions l !! k = Some (s, i) → block_positions (take i l) = take k (block_positions l).
Proof.
  revert k. induction l as [|e l IH] using rev_ind; intros k; [done|]. rewrite block_positions_app.
  intros [H|[Hk H]]%lookup_app_Some.
  - pose proof (positions_bound l s i ltac:(by eapply list_elem_of_lookup_2)) as Hi.
    pose proof (lookup_lt_Some _ _ _ H). rewrite !take_app_le by lia. by apply IH.
  - destruct e as [x| | | |]; try done. apply list_lookup_singleton_Some in H as [Hk' [= _ <-]].
    assert (k = length (block_positions l)) as -> by lia. by rewrite !take_app_length.
Qed.

Lemma since_block_positions l :
  since_block [] l = match list.last (block_positions l) with Some (_, p) => drop (S p) l | None => l end.
Proof.
  induction l as [|e l IH] using rev_ind; [done|]. rewrite since_block_app, block_positions_app.
  assert (Hc : since_block [] l ++ [e] =
    match list.last (block_positions l) with Some (_, p) => drop (S p) (l ++ [e]) | None => l ++ [e] end).
  { rewrite IH. destruct (list.last (block_positions l)) as [[s p]|] eqn:E; [|done].
    apply last_Some_elem_of, positions_bound in E. by rewrite drop_app_le by lia. }
  destruct e as [x| | | |]; rewrite ?app_nil_r; try done. rewrite last_snoc.
  rewrite drop_ge; [done|]. rewrite length_app. simpl. lia.
Qed.

Lemma since_block_prefix l i e : e ∈ since_block [] (take i l) → ∃ n, (n < i)%nat ∧ l !! n = Some e.
Proof.
  rewrite since_block_positions. intros He. assert (He' : e ∈ take i l).
  { destruct (list.last _) as [[s p]|]; [|done]. by eapply list.subseteq_drop. }
  apply elem_of_take in He' as (n & Hn & Hl). eauto.
Qed.

Lemma since_block_none l e : e ∈ since_block [] l → ∀ x, e ≠ EBlock x.
Proof.
  induction l as [|e' l IH] using rev_ind; [by intros ?%elem_of_nil|]. rewrite since_block_app.
  destruct e'; try by intros ?%elem_of_nil. all: intros [H|H]%elem_of_app; [by apply IH|].
  all: by apply list_elem_of_singleton in H as ->.
Qed.

(** ** The block of a slot *)

Lemma omap_cons_app {A B} (f : A → option B) x (l : list A) : omap f (x :: l) = option_list (f x) ++ omap f l.
Proof. simpl. by destruct (f x). Qed.

Lemma block_items_take n l : block_items (take n l) `prefix_of` block_items l.
Proof.
  unfold block_items. rewrite <- (take_drop n l) at 2. rewrite omap_app. by eexists.
Qed.

Lemma seg_block_items g slot :
  seg_block g slot =
  list.last (omap (λ '(s, i), if decide (s = slot) then Some i else None) (block_items (take (visible g) (items g)))).
Proof.
  unfold seg_block, block_items. f_equal. induction (take (visible g) (items g)) as [|it l IH]; [done|].
  destruct it as [|s i]; [done|]. cbn -[decide]. by case_decide; rewrite <- IH.
Qed.

Lemma only_slot (Q : list (Z * nat)) k slot i :
  NoDup Q.*1 → Q !! k = Some (slot, i) →
  omap (λ '(s, i), if decide (s = slot) then Some i else None) Q = [i].
Proof.
  assert (Hno : ∀ Q : list (Z * nat), slot ∉ Q.*1 →
            omap (λ '(s, i), if decide (s = slot) then Some i else None) Q = []).
  { intros Q' Hn. induction Q' as [|[s j] Q' IH]; [done|]. cbn -[decide]. rewrite fmap_cons, not_elem_of_cons in Hn.
    rewrite decide_False by (intros ->; tauto). apply IH. tauto. }
  revert k. induction Q as [|[s j] Q IH]; intros k Hd Hk; [done|].
  rewrite fmap_cons in Hd. apply list.NoDup_cons in Hd as [Hs Hd]. destruct k as [|k]; cbn -[decide].
  - injection Hk as -> ->. rewrite decide_True by done. f_equal. by apply Hno.
  - cbn in Hk. rewrite decide_False; [by eapply IH|]. intros ->. apply Hs.
    apply list_elem_of_fmap. exists (slot, i). split; [done|]. by eapply list_elem_of_lookup_2.
Qed.

Lemma NoDup_seqZ x n : NoDup (seqZ x n).
Proof. apply NoDup_fmap_2; [|apply NoDup_seq]. intros a b. lia. Qed.

Section complete.
Context (g : Segment) (x n : Z) (Hc : seg_complete g) (Hx : slots (entries g) = seqZ x n).

Let Q := block_items (take (visible g) (items g)).

Lemma index_prefix k p : Q !! k = Some p → block_positions (entries g) !! k = Some p.
Proof using Hc.
  intros Hk. destruct Hc as [<- _]. destruct (block_items_take (visible g) (items g)) as [r ->]. by apply lookup_app_l_Some.
Qed.

Lemma index_slots : ∃ r, seqZ x n = Q.*1 ++ r.
Proof using Hc Hx.
  destruct Hc as [Hb _]. rewrite <- Hx, <- positions_slots, <- Hb.
  destruct (block_items_take (visible g) (items g)) as [r ->]. rewrite fmap_app. by eexists.
Qed.

Lemma block_slot_at k slot i : Q !! k = Some (slot, i) → slot = x + Z.of_nat k ∧ seg_block g slot = Some i.
Proof using Hc Hx.
  intros Hk. destruct index_slots as [r Hr]. split.
  - assert (Hs : seqZ x n !! k = Some slot).
    { rewrite Hr. apply lookup_app_l_Some. by rewrite list_lookup_fmap, Hk. }
    apply lookup_seqZ in Hs. lia.
  - rewrite seg_block_items. fold Q. rewrite (only_slot Q k slot i); [done| |done].
    pose proof (NoDup_seqZ x n) as Hd. rewrite Hr in Hd. by apply list.NoDup_app in Hd as [? _].
Qed.

Lemma previous_block slot i :
  seg_block g slot = Some i →
  seg_block g (slot - 1) = snd <$> list.last (block_positions (take i (entries g))).
Proof using Hc Hx.
  intros Hb. apply block_in in Hb. assert (Hq : (slot, i) ∈ Q).
  { apply list_elem_of_omap. by exists (ItemBlock slot i). }
  apply list_elem_of_lookup in Hq as [k Hk]. destruct (block_slot_at k slot i Hk) as [-> _].
  rewrite (positions_take _ _ _ _ (index_prefix _ _ Hk)). destruct k as [|k].
  - rewrite take_0. destruct (seg_block g (x + Z.of_nat 0 - 1)) as [j|] eqn:E; [|done].
    apply block_in in E. assert (Hq : (x + Z.of_nat 0 - 1, j) ∈ Q).
    { apply list_elem_of_omap. by exists (ItemBlock (x + Z.of_nat 0 - 1) j). }
    apply list_elem_of_lookup in Hq as [k Hk']. apply block_slot_at in Hk' as [? _]. lia.
  - destruct (Q !! k) as [[s p]|] eqn:E; [|apply lookup_ge_None in E; apply lookup_lt_Some in Hk; lia].
    rewrite (take_S_r _ _ _ (index_prefix _ _ E)), last_snoc. destruct (block_slot_at k s p E) as [-> Hp].
    replace (x + Z.of_nat (S k) - 1) with (x + Z.of_nat k) by lia. done.
Qed.

End complete.

Section blocks.
Context {Ks : Type} `{FJ : !Fjall Ks, FL : !FjallLaws Ks} `{IOC : !LedgerIo} `{CO : !LedgerCodec, CL : !CodecLaws} `{WC : !WireConstants}.

Abbreviation L := (Ledger Ks).

(** ** The transactions of a block *)

Definition indexed (g : Segment) (t : list Z * Signature * nat) : IndexedTransaction :=
  {| it_transaction := t.1.1; it_signature := t.1.2; it_execution := record_span g t.2 |}.

Lemma block_body_answers g (sb : Superblock Ks) l n acc :
  on_disk g sb → seg_valid g → seg_sized g →
  Forall (λ e, entry_valid e ∧ zlen (enc e) ≤ MAX_SIZE ∧
    match e with EBlock _ | ESuperblock _ => False | _ => True end) l → (length (stream l) ≤ n)%nat →
  answers (block_body n (λ _, false) (index sb) (stream l) acc) (acc ++ (indexed g <$> omap (seg_executed g) l)).
Proof using All.
  intros Hod Hgv Hgs Hl. revert n acc. induction Hl as [|e l (Hv & Hse & Hk) _ IH]; intros n acc Hn.
  { destruct n; simpl; by rewrite app_nil_r. }
  pose proof Hv as [He Hsig]. pose proof (entry_nonempty e He) as Hne.
  change (stream (e :: l)) with (enc e ++ stream l) in Hn |- *.
  rewrite length_app in Hn. assert (Hlen : (1 ≤ length (enc e))%nat) by (destruct (enc e); [done|simpl; lia]).
  destruct n as [|n]; [lia|]. cbn [block_body].
  rewrite bool_decide_eq_false_2 by (by destruct (enc e)). cbn [orb]. rewrite entry_decodes by done.
  cbn [map_err mbind result_bind]. destruct e as [x|t|x|r|c]; try done; [|apply IH; lia|apply IH; lia].
  destruct Hsig as [sig Hsig]. rewrite omap_cons_app, fmap_app, app_assoc. cbn [seg_executed]. rewrite Hsig.
  cbn [mbind result_bind]. eapply answers_bind; [by apply find_transaction|].
  destruct (seg_find g sig) as [[i j]|]; cbn; [apply IH; lia|]. rewrite app_nil_r. apply IH. lia.
Qed.

(** The bytes from one entry of the stream to another. *)
Lemma read_entries g (sb : Superblock Ks) m i :
  on_disk g sb → (m ≤ i ≤ public g)%nat →
  answers (read_exact_at (blockstore sb) (zlen (stream (take m (entries g))))
             (zlen (stream (take i (entries g))) - zlen (stream (take m (entries g)))))
    (stream (drop m (take i (entries g)))).
Proof using Type.
  intros Hod Hm. pose proof (od_stream _ _ Hod) as Hh.
  assert (E1 : stream (take i (entries g)) = stream (take m (entries g)) ++ stream (drop m (take i (entries g)))).
  { unfold stream. rewrite <- concat_app, <- fmap_app. do 2 f_equal.
    rewrite <- (take_drop m (take i (entries g))) at 1. by rewrite take_take, Nat.min_l by lia. }
  assert (E2 : ∃ r, stream (take (public g) (entries g)) = stream (take i (entries g)) ++ r).
  { eexists (stream (drop i (take (public g) (entries g)))). unfold stream. rewrite <- concat_app, <- fmap_app. do 2 f_equal.
    rewrite <- (take_drop i (take (public g) (entries g))) at 1. by rewrite take_take, Nat.min_l by lia. }
  destruct E2 as [r E2]. rewrite E2, E1, <- app_assoc in Hh. rewrite E1, zlen_app, Z.add_simpl_l.
  by eapply read_exact_holds.
Qed.

Lemma stream_take_S l i e : l !! i = Some e → zlen (stream (take (S i) l)) = zlen (stream (take i l)) + zlen (enc e).
Proof using Type. intros H. by rewrite (take_S_r _ _ _ H), stream_app, zlen_app. Qed.

Lemma indexed_answers g (sb : Superblock Ks) x n slot i :
  on_disk g sb → seg_valid g → seg_sized g → seg_complete g → slots (entries g) = seqZ x n →
  1 ≤ slot → fits 64 slot → seg_block g slot = Some i →
  answers (indexed_transactions (λ _, false) sb slot (entry_span g i)) (indexed g <$> seg_body g i).
Proof using All.
  intros Hod Hv Hs Hc Hx Hpos Hfit Hb.
  destruct (visible_ok g _ (od_segment _ _ Hod) (block_in g slot i Hb)) as [(y & Hy & _) Hi]. cbn [item_public] in Hi.
  unfold indexed_transactions. rewrite (proj2 (checked_sub_Some slot 1 (slot - 1))) by lia.
  eapply answers_bind; [apply (find_slot g sb (slot - 1) Hod Hv Hs); unfold fits in *; lia|].
  rewrite (previous_block g x n Hc Hx slot i Hb).
  destruct (entry_span_fields g i _ Hs Hy) as (Eo & _ & _). rewrite Eo. unfold seg_body.
  set (m := match list.last (block_positions (take i (entries g))) with Some (_, p) => S p | None => 0%nat end).
  assert (Hm : (m ≤ i)%nat ∧ since_block [] (take i (entries g)) = drop m (take i (entries g)) ∧
    match entry_span g <$> (snd <$> list.last (block_positions (take i (entries g)))) with
    | Some p => span_offset p + span_size p | None => 0 end = zlen (stream (take m (entries g)))).
  { rewrite since_block_positions. unfold m.
    destruct (list.last (block_positions (take i (entries g)))) as [[s p]|] eqn:E; [|split_and!; [lia|done|done]].
    apply last_Some_elem_of in E. pose proof (positions_bound _ _ _ E) as Hp. rewrite length_take in Hp.
    destruct (positions_entry _ _ _ E) as (z & Hz & _). rewrite lookup_take_lt in Hz by lia.
    split_and!; [lia|done|]. cbn [fmap option_fmap option_map snd].
    destruct (entry_span_fields g p _ Hs Hz) as (-> & -> & _). by rewrite (stream_take_S _ _ _ Hz). }
  destruct Hm as (Hm & Hsince & ->). eapply answers_bind; [apply (read_entries g sb m i Hod); lia|].
  rewrite Hsince. apply (block_body_answers g sb (drop m (take i (entries g))) _ []); try done. rewrite <- Hsince. apply list.Forall_forall. intros e He.
  destruct (since_block_prefix _ _ _ He) as (k & Hk & Hek). pose proof (since_block_none _ _ He) as Hnb.
  pose proof (sv_entries _ Hv) as Hev. destruct Hs as (Hse & _). rewrite list.Forall_lookup in Hev, Hse.
  split_and!; [by eapply Hev|by eapply Hse|]. destruct e as [z| |z| |]; try done; [by destruct (Hnb z)|].
  destruct Hc as [_ Hseal]. apply Hseal in Hek. apply lookup_lt_Some in Hy. lia.
Qed.

Lemma executions_answers g (sb : Superblock Ks) l :
  on_disk g sb → seg_valid g → seg_sized g →
  Forall (λ t : list Z * Signature * nat, ∃ sig i, seg_find g sig = Some (i, t.2)) l →
  answers (with_executions sb (indexed g <$> l))
    (omap (λ '(t, _, j), (λ x, {| transaction := t; execution := x |}) <$> records g !! j) l).
Proof using All.
  intros Hod Hv Hs Hl. induction Hl as [|[[t sig] j] l (sig' & i & Hf) _ IH]; [done|].
  destruct (transaction_at g sb sig' i j Hod Hv Hs Hf) as (t' & x & _ & Hx & _ & Hj).
  rewrite omap_cons_app, fmap_cons. cbn [with_executions it_execution it_transaction indexed fst snd]. rewrite Hx.
  eapply answers_bind; [by eapply read_execution_at|]. eapply answers_bind; [exact IH|]. done.
Qed.

Lemma seg_body_found g i : Forall (λ t : list Z * Signature * nat, ∃ sig i, seg_find g sig = Some (i, t.2)) (seg_body g i).
Proof using Type.
  apply list.Forall_forall. intros t Ht. apply list_elem_of_omap in Ht as (e & _ & He). destruct e as [|bs| | |]; try done.
  cbn [seg_executed] in He. destruct (transaction_signature bs) as [sig|]; [|done].
  destruct (seg_find g sig) as [[k j]|] eqn:E; [|done]. injection He as <-. by exists sig, k.
Qed.

Lemma response_answers g (sb : Superblock Ks) x n slot d i :
  on_disk g sb → seg_valid g → seg_sized g → seg_complete g → slots (entries g) = seqZ x n →
  1 ≤ slot → fits 64 slot → seg_block g slot = Some i →
  ∃ r, seg_response g d i = Some r ∧ answers (block_response (λ _, false) sb slot d (entry_span g i)) r.
Proof using All.
  intros Hod Hv Hs Hc Hx Hpos Hfit Hb.
  destruct (visible_ok g _ (od_segment _ _ Hod) (block_in g slot i Hb)) as [(y & Hy & _) Hi]. cbn [item_public] in Hi.
  pose proof (indexed_answers g sb x n slot i Hod Hv Hs Hc Hx Hpos Hfit Hb) as Hbody.
  unfold seg_response. rewrite Hy. eexists. split; [done|]. unfold block_response.
  eapply answers_bind; [unfold block_entry; eapply answers_bind; [by eapply read_entry|done]|].
  destruct d; [| | |done]; (eapply answers_bind; [exact Hbody|]).
  - eapply answers_bind; [apply executions_answers; try done; apply seg_body_found|done].
  - cbn. f_equal. rewrite <- list_fmap_compose. apply list_fmap_ext. by intros k [[t sig] j] _.
  - cbn. f_equal. rewrite <- list_fmap_compose. apply list_fmap_ext. by intros k [[t sig] j] _.
Qed.

(** ** The superblock of a slot *)

Lemma block_listed b (s : L) id slot i :
  refines b s → book_ok b → sized b → id ∈ open_ids b → seg_block (segment b id) slot = Some i →
  slot ∈ slots (take (public (segment b id)) (entries (segment b id))).
Proof using Type.
  intros R B S Hid Hb. destruct (open_segment b s id R B S Hid) as (Hod & _).
  destruct (visible_ok _ _ (od_segment _ _ Hod) (block_in _ _ _ Hb)) as [(y & Hy & <-) Hi]. cbn [item_public] in Hi.
  apply list_elem_of_omap. exists (EBlock y). split; [|done].
  apply list_elem_of_lookup. exists i. by rewrite lookup_take_lt.
Qed.

(** A superblock whose range covers a slot leaves no other with the block. *)
Lemma range_exclusive b (s : L) id id' slot :
  refines b s → book_ok b → sized b → id ∈ open_ids b → id' ∈ open_ids b → id ≠ id' →
  range_contains (sb_range (meta (directory s id))) slot = true → seg_block (segment b id') slot = None.
Proof using Type.
  intros R B S Hid Hid' Hne Hr. destruct (seg_block (segment b id') slot) as [i|] eqn:E; [exfalso|done].
  pose proof (block_listed b s id' slot i R B S Hid' E) as Hin%slots_take.
  destruct (open_segment b s id R B S Hid) as (Hod & _ & _ & Hg).
  destruct (open_segment b s id' R B S Hid') as (_ & _ & _ & Hg').
  pose proof (bk_slots _ B _ _ _ Hid' Hg' Hin) as Hpos. unfold range_contains in Hr. apply andb_prop in Hr as [H1 H2].
  apply Z.leb_le in H1, H2.
  destruct (segment_range b s id _ _ B Hid Hg Hod) as [[_ Er]|(x & n & Hn & Ex & Er)]; rewrite Er in H1, H2; simpl in H1, H2; [lia|].
  assert (Hin' : slot ∈ slots (entries (segment b id))) by (rewrite Ex; apply elem_of_seqZ; lia).
  destruct (decide (id < id')) as [Hlt|Hge].
  - pose proof (bk_order _ B id id' _ _ slot slot Hid Hid' Hlt Hg Hg' Hin' Hin). lia.
  - pose proof (bk_order _ B id' id _ _ slot slot Hid' Hid ltac:(lia) Hg' Hg Hin Hin'). lia.
Qed.

Lemma range_covers b (s : L) id slot i :
  refines b s → book_ok b → sized b → id ∈ open_ids b → seg_block (segment b id) slot = Some i →
  range_contains (sb_range (meta (directory s id))) slot = true.
Proof using Type.
  intros R B S Hid Hb. pose proof (block_listed b s id slot i R B S Hid Hb) as Hin%slots_take.
  destruct (open_segment b s id R B S Hid) as (Hod & _ & _ & Hg). unfold range_contains.
  destruct (segment_range b s id _ _ B Hid Hg Hod) as [[E _]|(x & n & Hn & Ex & ->)]; [rewrite E in Hin; by apply elem_of_nil in Hin|].
  rewrite Ex in Hin. apply elem_of_seqZ in Hin. simpl. apply andb_true_intro. split; apply Z.leb_le; lia.
Qed.

Lemma find_block_answers b (s : L) slot ids :
  refines b s → book_ok b → sized b → fits 64 slot → NoDup ids → Forall (λ id, id ∈ open_ids b) ids →
  answers (find_block (λ _, false) slot s ids)
    ((λ '(id, i), (id, entry_span (segment b id) i)) <$> first_some (λ id, pair id <$> seg_block (segment b id) slot) ids).
Proof using All.
  intros R B S Hf Hd Ho. induction Ho as [|id ids Hid Ho IH]; [done|]. apply list.NoDup_cons in Hd as [Hni Hd].
  specialize (IH Hd). destruct (open_segment b s id R B S Hid) as (Hod & Hv & Hs & _). cbn [find_block first_some].
  destruct (range_contains (sb_range (meta (directory s id))) slot) eqn:E; cbn [negb].
  - eapply answers_bind; [by apply find_slot|].
    destruct (seg_block (segment b id) slot) as [i|] eqn:Eb; [done|]. cbn [fmap option_fmap option_map].
    assert (first_some (λ id, pair id <$> seg_block (segment b id) slot) ids = None) as ->; [|done].
    clear IH Hd. induction Ho as [|id' ids Hid' Ho IH]; [done|]. apply not_elem_of_cons in Hni as [Hn1 Hn2].
    cbn [first_some]. rewrite (range_exclusive b s id id' slot) by done. by apply IH.
  - assert (seg_block (segment b id) slot = None) as ->; [|exact IH].
    destruct (seg_block (segment b id) slot) eqn:Eb; [|done]. by rewrite (range_covers b s id slot n) in E.
Qed.

Lemma newest_nodup b : NoDup (newest_first b).
Proof using Type.
  unfold newest_first. apply list.NoDup_filter. rewrite reverse_Permutation. apply NoDup_seqZ.
Qed.

Lemma first_some_in {A B} (f : A → option B) l y : first_some f l = Some y → ∃ x, x ∈ l ∧ f x = Some y.
Proof using Type.
  induction l as [|x l IH]; [done|]. simpl. destruct (f x) as [z|] eqn:E.
  - intros [= ->]. exists x. split; [left|done].
  - intros (x' & Hx & Hf)%IH. exists x'. split; [by right|done].
Qed.

Lemma read_block_answers b (s : L) slot d :
  refines b s → book_ok b → sized b → fully_indexed b → fits 64 slot →
  answers (read_block (λ _, false) slot d s) (book_block b slot d).
Proof using All.
  intros R B S C Hf. unfold read_block, book_block.
  assert (Hfound : ∀ id i, book_find b slot = Some (id, i) → id ∈ open_ids b ∧ seg_block (segment b id) slot = Some i).
  { intros id i H. unfold book_find in H. apply first_some_in in H as (id' & Hin & H).
    destruct (seg_block (segment b id') slot) eqn:E; [|done]. injection H as -> ->. split; [by apply newest_open|done]. }
  destruct (range_contains (range (l_meta s)) slot) eqn:E; cbn [negb].
  - rewrite (iter_newest b s R). eapply answers_bind.
    { apply (find_block_answers b s slot); try done; [apply newest_nodup|].
      apply list.Forall_forall. intros id. apply newest_open. }
    fold (book_find b slot). destruct (book_find b slot) as [[id i]|] eqn:Eb; [|done].
    cbn [fmap option_fmap option_map mbind option_bind]. destruct (Hfound id i eq_refl) as [Hid Hb].
    destruct (open_segment b s id R B S Hid) as (Hod & Hv & Hs & Hg).
    destruct (bk_consecutive _ B _ _ Hid Hg) as (x & n & Ex).
    pose proof (bk_slots _ B _ _ _ Hid Hg (slots_take _ _ _ (block_listed b s id slot i R B S Hid Hb))) as Hpos.
    destruct (response_answers _ _ x n slot d i Hod Hv Hs (proj1 C _ _ Hg) Ex (proj1 Hpos) Hf Hb) as (r & -> & Hr).
    eapply answers_bind; [exact Hr|done].
  - destruct (book_find b slot) as [[id i]|] eqn:Eb; [exfalso|done]. destruct (Hfound id i eq_refl) as [Hid Hb].
    pose proof (block_listed b s id slot i R B S Hid Hb) as Hin.
    destruct (open_segment b s id R B S Hid) as (_ & _ & _ & Hg).
    pose proof (rf_start _ _ R id _ slot Hid Hg Hin) as H1. pose proof (bk_slots _ B _ _ _ Hid Hg (slots_take _ _ _ Hin)) as H2.
    unfold range_contains in E. rewrite (rf_end _ _ R) in E. apply andb_false_iff in E as [E|E]; apply Z.leb_gt in E; lia.
Qed.

End blocks.
