(* ===== verification/LedgerAccounts.v ===== *)
(** * Account history answered from the book

    The signatures of the transactions that named an account, newest first, from an optional
    signature down to another one and to a limit. *)

From stdpp Require Import base list gmap numbers option sorting.
From S2P Require Import Prelude Effects Memory Records TxFrame LedgerFile LedgerIndex Ledger LedgerReader LedgerBook LedgerRefine LedgerSteps LedgerEvents LedgerRun LedgerHistory LedgerLookup LedgerBlocks.

Local Open Scope Z_scope.

(** ** The book's answers *)

(** Record [j] belongs to a visible transaction that names the account. *)
Definition touched (g : Segment) (key : list Z) (j : nat) : Prop :=
  Exists (λ it, match it with
    | ItemTx _ accounts _ j' => j' = j ∧ account_prefix key ∈ accounts
    | ItemBlock _ _ => False end) (take (visible g) (items g)).
#[export] Instance touched_dec g key j : Decision (touched g key j).
Proof. unfold touched. apply Exists_dec. intros []; apply _. Defined.

Definition below (upper : option nat) (j : nat) : Prop :=
  match upper with Some u => (j < u)%nat | None => True end.
#[export] Instance below_dec upper j : Decision (below upper j).
Proof. destruct upper; simpl; apply _. Defined.

(** Their records from the newest, below one when there is a bound. *)
Definition seg_hits (g : Segment) (key : list Z) (upper : option nat) : list nat :=
  filter (λ j, touched g key j ∧ below upper j) (reverse (seq 0 (length (records g)))).

Definition HistoryEntry : Type := Signature * Z * result Z unit.
Definition history_of (h : ExecutionHeader) : HistoryEntry :=
  (header_signature h, header_slot h, header_result h).
Definition seg_history (g : Segment) (key : list Z) (upper : option nat) : list HistoryEntry :=
  omap (λ j, history_of ∘ header <$> records g !! j) (seg_hits g key upper).

(** Superblocks newer than the one that knows [before] are left out. *)
Fixpoint account_history (b : Book) (key : list Z) (ids : list Z) (before : option Signature)
    : list HistoryEntry :=
  match ids with
  | [] => []
  | id :: ids =>
      match before with
      | None => seg_history (segment b id) key None ++ account_history b key ids None
      | Some sig =>
          match seg_find (segment b id) sig with
          | None => account_history b key ids before
          | Some (_, u) => seg_history (segment b id) key (Some u) ++ account_history b key ids None
          end
      end
  end.

Fixpoint before_until (until : option Signature) (l : list HistoryEntry) : list HistoryEntry :=
  match l with
  | [] => []
  | e :: l => if bool_decide (until = Some e.1.1) then [] else e :: before_until until l
  end.

Definition book_history (b : Book) (key : list Z) (limit : nat) (before until : option Signature)
    : list HistoryEntry :=
  take limit (before_until until (account_history b key (newest_first b) before)).

(** A block time is that of a visible block of the slot, or zero for want of one. *)
Definition time_of (b : Book) (slot t : Z) : Prop :=
  t = 0 ∨ ∃ id i x, id ∈ open_ids b ∧ seg_block (segment b id) slot = Some i ∧
                    entries (segment b id) !! i = Some (EBlock x) ∧ t = block_time (payload x).

Definition entry_of (a : AccountSignature) : HistoryEntry := (as_signature a, as_slot a, as_result a).

(** ** Big-endian keys are ordered as the numbers *)

Lemma lex_leb_snoc a b c d :
  length a = length b → lex_leb (a ++ [c]) (b ++ [d]) = if decide (a = b) then c <=? d else lex_leb a b.
Proof.
  revert b. induction a as [|x a IH]; intros [|y b] Hl; try done.
  - rewrite decide_True by done. cbn [app lex_leb]. destruct (Z.ltb_spec c d), (Z.eqb_spec c d), (Z.leb_spec c d); simpl; lia || done.
  - injection Hl as Hl. cbn [app lex_leb]. rewrite IH by done.
    destruct (Z.ltb_spec x y), (Z.eqb_spec x y); cbn [orb andb]; try lia.
    + rewrite decide_False by (intros [=]; lia). done.
    + subst y. destruct (decide (a = b)) as [->|Hn]; [by rewrite decide_True|]. by rewrite decide_False by congruence.
    + rewrite decide_False by (intros [=]; lia). done.
Qed.

Lemma be_bytes_S n x : be_bytes (S n) x = be_bytes n (x / 256) ++ [x mod 256].
Proof. unfold be_bytes. simpl. by rewrite reverse_cons. Qed.

Lemma length_be_bytes n x : length (be_bytes n x) = n.
Proof. unfold be_bytes. by rewrite length_reverse, length_le_bytes. Qed.

Lemma lex_be_bytes n x y :
  0 ≤ x < 256 ^ Z.of_nat n → 0 ≤ y < 256 ^ Z.of_nat n → lex_leb (be_bytes n x) (be_bytes n y) = (x <=? y).
Proof.
  revert x y. induction n as [|n IH]; intros x y Hx Hy.
  { simpl in *. assert (x = 0) as -> by lia. assert (y = 0) as -> by lia. done. }
  rewrite !be_bytes_S, lex_leb_snoc by (by rewrite !length_be_bytes).
  rewrite Nat2Z.inj_succ, Z.pow_succ_r in Hx, Hy by lia.
  assert (Hx' : 0 ≤ x / 256 < 256 ^ Z.of_nat n) by (split; [apply Z.div_pos; lia|apply Z.div_lt_upper_bound; lia]).
  assert (Hy' : 0 ≤ y / 256 < 256 ^ Z.of_nat n) by (split; [apply Z.div_pos; lia|apply Z.div_lt_upper_bound; lia]).
  pose proof (Z.div_mod x 256 ltac:(lia)). pose proof (Z.div_mod y 256 ltac:(lia)).
  pose proof (Z.mod_pos_bound x 256 ltac:(lia)). pose proof (Z.mod_pos_bound y 256 ltac:(lia)).
  case_decide as Hd.
  - apply be_bytes_inj in Hd; [|done|done].
    destruct (Z.leb_spec (x mod 256) (y mod 256)), (Z.leb_spec x y); lia || done.
  - rewrite IH by done. assert (x / 256 ≠ y / 256) by congruence.
    destruct (Z.leb_spec (x / 256) (y / 256)), (Z.leb_spec x y); lia || done.
Qed.

Lemma lex_leb_app p a b : lex_leb (p ++ a) (p ++ b) = lex_leb a b.
Proof. induction p as [|x p IH]; [done|]. simpl. by rewrite Z.ltb_irrefl, Z.eqb_refl, IH. Qed.

Lemma account_key_lt p x y :
  fits 64 x → fits 64 y → lex_lt (account_key p x) (account_key p y) ↔ x < y.
Proof.
  intros Hx Hy. unfold lex_lt, account_key, key_bytes. rewrite lex_leb_app, lex_be_bytes by done.
  apply Z.leb_gt.
Qed.

Lemma lex_leb_refl a : lex_leb a a = true.
Proof. rewrite <- (app_nil_r a). by rewrite lex_leb_app. Qed.

Lemma lex_lt_asym a b : lex_lt a b → ¬ lex_lt b a.
Proof.
  unfold lex_lt. destruct (total lex_le a b) as [H|H]; unfold lex_le in H; congruence.
Qed.

(** A strictly descending list is determined by its elements. *)
Lemma sorted_unique (l1 l2 : list (list Z)) :
  StronglySorted (λ a b, lex_lt b a) l1 → StronglySorted (λ a b, lex_lt b a) l2 →
  (∀ k, k ∈ l1 ↔ k ∈ l2) → l1 = l2.
Proof.
  assert (Hirr : ∀ a, ¬ lex_lt a a) by (intros a Ha; by apply (lex_lt_asym a a)).
  intros H1. revert l2. induction H1 as [|x l1 _ IH Hx]; intros l2 H2 He.
  { destruct l2 as [|y l2]; [done|]. exfalso. by apply (elem_of_nil y), He; left. }
  destruct H2 as [|y l2 H2 Hy]; [exfalso; apply (elem_of_nil x), He; left|].
  rewrite list.Forall_forall in Hx, Hy.
  assert (x = y) as <-.
  { assert (H3 : x ∈ y :: l2) by (apply He; left). assert (H4 : y ∈ x :: l1) by (apply He; left).
    apply elem_of_cons in H3 as [->|H3]; [done|]. apply elem_of_cons in H4 as [->|H4]; [done|].
    exfalso. by apply (lex_lt_asym x y); [apply Hy|apply Hx]. }
  f_equal. apply IH; [done|]. intros k. split; intros Hk.
  - assert (H3 : k ∈ x :: l2) by (apply He; by right). apply elem_of_cons in H3 as [->|H3]; [|done].
    exfalso. by apply (Hirr x), Hx.
  - assert (H3 : k ∈ x :: l1) by (apply He; by right). apply elem_of_cons in H3 as [->|H3]; [|done].
    exfalso. by apply (Hirr x), Hy.
Qed.

Lemma write_all_elem l k : is_Some (write_all ∅ l !! k) ↔ ∃ v, (k, v) ∈ l.
Proof.
  rewrite write_all_lookup, lookup_empty. split.
  - intros [v Hv]. destruct (list.last (values k l)) as [w|] eqn:E; [|done]. apply last_Some_elem_of in E.
    apply list_elem_of_omap in E as ([k' v'] & Hin & Hk). case_decide; [|done]. subst k'. eauto.
  - intros [v Hv]. assert (Hin : v ∈ values k l).
    { apply list_elem_of_omap. exists (k, v). split; [done|]. by rewrite decide_True. }
    destruct (list.last (values k l)) eqn:E; [done|]. apply last_None in E. rewrite E in Hin. by apply elem_of_nil in Hin.
Qed.

Lemma elem_of_concat {A} (x : A) ls : x ∈ concat ls ↔ ∃ l, x ∈ l ∧ l ∈ ls.
Proof.
  induction ls as [|l ls IH]; simpl; [split; [by intros ?%elem_of_nil|by intros (? & _ & ?%elem_of_nil)]|].
  rewrite elem_of_app, IH. setoid_rewrite elem_of_cons. naive_solver.
Qed.

Lemma sorted_fmap {A B} (R : A → A → Prop) (R' : B → B → Prop) (f : A → B) (l : list A) :
  StronglySorted R l → (∀ x y, x ∈ l → y ∈ l → R x y → R' (f x) (f y)) → StronglySorted R' (f <$> l).
Proof.
  intros H. induction H as [|x l _ IH Hx]; intros Hf; [constructor|]. rewrite fmap_cons. constructor.
  - apply IH. intros a b Ha Hb. apply Hf; by right.
  - rewrite list.Forall_forall in Hx. apply list.Forall_forall. intros y (z & -> & Hz)%list_elem_of_fmap. apply Hf; [left|by right|by apply Hx].
Qed.

Lemma sorted_seq n : StronglySorted (λ a b : nat, (b < a)%nat) (reverse (seq 0 n)).
Proof.
  induction n as [|n IH]; [constructor|]. rewrite seq_S, reverse_snoc. simpl. constructor; [done|].
  apply list.Forall_forall. intros y. rewrite elem_of_reverse, elem_of_seq. lia.
Qed.

Section accounts.
Context {Ks : Type} `{FJ : !Fjall Ks, FL : !FjallLaws Ks} `{IOC : !LedgerIo} `{CO : !LedgerCodec, CL : !CodecLaws} `{WC : !WireConstants}.

Abbreviation L := (Ledger Ks).

Lemma record_span_lt g i j :
  seg_valid g → seg_sized g → (i < j < length (records g))%nat → record_span g i < record_span g j.
Proof using CL.
  intros Hv Hs Hij. destruct (lookup_lt_is_Some_2 (records g) i ltac:(lia)) as [x Hx].
  destruct (lookup_lt_is_Some_2 (records g) j ltac:(lia)) as [y Hy].
  pose proof Hs as (_ & _ & S1 & S2). rewrite list.Forall_lookup in S1. unfold record_span. rewrite Hx, Hy.
  apply span_lt; [apply zlen_nonneg| |split; [apply zlen_nonneg|by eapply S1]..].
  assert (Hlen : 1 ≤ zlen (rec_bytes x)).
  { destruct (record_valid_at g i x Hv Hx) as (Hh & _). apply header_nonempty in Hh. unfold rec_bytes, zlen.
    rewrite length_app. destruct (concat _); [done|]. simpl. lia. }
  rewrite (rec_stream_split _ _ _ Hy), !zlen_app in S2. pose proof (zlen_nonneg (rec_bytes y)).
  pose proof (zlen_nonneg (rec_stream (drop (S j) (records g)))). split; [|lia].
  rewrite (rec_stream_split (take j (records g)) i x) by (by rewrite lookup_take_lt by lia).
  rewrite take_take, Nat.min_l, !zlen_app by lia. pose proof (zlen_nonneg (rec_stream (drop (S i) (take j (records g))))). lia.
Qed.

Lemma hits_bound g key upper j :
  j ∈ seg_hits g key upper → touched g key j ∧ below upper j ∧ (j < length (records g))%nat.
Proof using Type.
  intros [[Ht Hb] Hj]%list_elem_of_filter. rewrite elem_of_reverse, elem_of_seq in Hj. split_and!; [done|done|lia].
Qed.

Lemma span_key_lt g key j u :
  seg_valid g → seg_sized g → (j < length (records g))%nat → (u < length (records g))%nat →
  lex_lt (account_key (account_prefix key) (record_span g j)) (account_key (account_prefix key) (record_span g u)) ↔ (j < u)%nat.
Proof using CL.
  intros Hv Hs Hj Hu. destruct (lookup_lt_is_Some_2 (records g) j Hj) as [x Hx].
  destruct (lookup_lt_is_Some_2 (records g) u Hu) as [y Hy].
  destruct (record_span_fields g j x Hs Hx) as (_ & _ & F1). destruct (record_span_fields g u y Hs Hy) as (_ & _ & F2).
  rewrite account_key_lt by done. split; [|intros; apply record_span_lt; [done|done|lia]].
  intros Hlt. destruct (decide (j < u)%nat) as [|Hge]; [done|]. destruct (decide (j = u)) as [->|Hne]; [lia|].
  pose proof (record_span_lt g u j Hv Hs ltac:(lia)). lia.
Qed.

Lemma prefix_of_length {A} (p q r : list A) : p `prefix_of` q ++ r → length p = length q → p = q.
Proof using Type. intros [t Ht] Hl. by apply app_inj_1 in Ht as [-> _]. Qed.

Lemma length_account_prefix key : length key = 32%nat → length (account_prefix key) = 9%nat.
Proof using Type. intros H. simpl. by rewrite length_take, H. Qed.

(** The keys with an account's prefix in the index are those of the records that touch it. *)
Lemma account_entry g key k :
  seg_ok g → seg_valid g → length key = 32%nat →
  (∃ v, (k, v) ∈ concat (item_entries g <$> take (visible g) (items g))) ∧ account_prefix key `prefix_of` k ↔
  ∃ j, touched g key j ∧ (j < length (records g))%nat ∧ k = account_key (account_prefix key) (record_span g j).
Proof using Type.
  intros Hg Hv Hk. pose proof (item_slots g Hg Hv) as Hi. rewrite list.Forall_forall in Hi. split.
  - intros [[v Hin] Hp]. apply elem_of_concat in Hin as (l & Hin & Hl).
    apply list_elem_of_fmap in Hl as (it & -> & Hit). destruct (Hi it Hit) as [Hval _].
    destruct (visible_ok g it Hg Hit) as [Hok _]. destruct it as [sig accs i j|slot i]; cbn [item_entries] in Hin.
    + apply elem_of_cons in Hin as [[= -> _]|Hin]; [by apply prefix_cons_inv_1 in Hp|].
      apply list_elem_of_fmap in Hin as (a & [= -> _] & Ha). destruct Hval as [_ Haccs].
      rewrite list.Forall_forall in Haccs. destruct (Haccs a Ha) as (key' & Hk' & ->).
      apply prefix_of_length in Hp; [|by rewrite !length_account_prefix].
      exists j. split_and!; [|apply item_ok_bounds in Hok; apply Hok|by rewrite Hp].
      apply Exists_exists. exists (ItemTx sig accs i j). split; [done|]. by rewrite Hp.
    + apply list_elem_of_singleton in Hin as [= -> _]. by apply prefix_cons_inv_1 in Hp.
  - intros (j & Ht & Hj & ->). split; [|by eexists]. apply Exists_exists in Ht as (it & Hit & Ht).
    destruct it as [sig accs i j'|]; [|done]. destruct Ht as [-> Ha]. exists []. apply elem_of_concat.
    exists (item_entries g (ItemTx sig accs i j)). split; [|apply list_elem_of_fmap; by eexists].
    right. apply list_elem_of_fmap. by exists (account_prefix key).
Qed.

Lemma account_matches g (sb : Superblock Ks) key upper l :
  on_disk g sb → seg_valid g → seg_sized g → length key = 32%nat →
  (∀ u, upper = Some u → (u < length (records g))%nat) →
  matches (ks_data (index sb)) (account_prefix key) (key_bytes ∘ record_span g <$> upper) l →
  l = (λ j, account_key (account_prefix key) (record_span g j)) <$> seg_hits g key upper.
Proof using All.
  intros Hod Hv Hs Hk Hu [M1 M2]. apply sorted_unique; [done| |].
  - eapply sorted_fmap; [apply sorted_filter, sorted_seq|]. intros j u Hj Hu' Hlt.
    apply hits_bound in Hj as (_ & _ & Hj). apply hits_bound in Hu' as (_ & _ & Hu'). by apply span_key_lt.
  - intros k. rewrite M2, list_elem_of_fmap, (od_index _ _ Hod), write_all_elem.
    assert (Hlt : ∀ j, (j < length (records g))%nat →
      match key_bytes ∘ record_span g <$> upper with
      | Some u => lex_lt (account_key (account_prefix key) (record_span g j)) (account_prefix key ++ u)
      | None => True end ↔ below upper j).
    { intros j Hj. destruct upper as [u|]; [|done]. specialize (Hu u eq_refl). by apply span_key_lt. }
    pose proof (account_entry g key k (od_segment _ _ Hod) Hv Hk) as Hae. split.
    + intros (H1 & H2 & H3). destruct (proj1 Hae (conj H1 H2)) as (j & Ht & Hj & ->).
      exists j. split; [done|]. apply list_elem_of_filter. split; [split; [done|by apply Hlt]|].
      rewrite elem_of_reverse, elem_of_seq. lia.
    + intros (j & -> & Hj). apply hits_bound in Hj as (Ht & Hb & Hj).
      destruct (proj2 Hae) as [H1 H2]; [by exists j|]. split_and!; [done|done|]. by apply Hlt.
Qed.

(** ** One superblock *)

(** The spans an iteration gives are those of some records, up to a first error. *)
Inductive tracks (g : Segment) : list (result LedgerError Span) → list nat → Prop :=
| tracks_nil : tracks g [] []
| tracks_cons j spans js : tracks g spans js → tracks g (Ok (record_span g j) :: spans) (j :: js)
| tracks_err e spans js : faulty e → tracks g (Err e :: spans) js.

Lemma account_span_key g key j x :
  seg_sized g → length key = 32%nat → records g !! j = Some x →
  account_span (Ok (account_key (account_prefix key) (record_span g j))) = Ok (record_span g j).
Proof using Type.
  intros Hs Hk Hx. destruct (record_span_fields g j x Hs Hx) as (_ & _ & F).
  assert (Hl : length (key_bytes (record_span g j)) = SPAN_BYTES) by apply length_be_bytes.
  unfold account_span, account_key. cbn [map_err mbind result_bind].
  rewrite length_app, length_account_prefix, Hl by done.
  rewrite decide_True by (unfold ACCOUNT_PREFIX_BYTES; lia).
  rewrite drop_app_length' by (by rewrite length_account_prefix). unfold from_key, fixed. rewrite Hl, decide_True by done.
  cbn [mbind result_bind]. unfold be_num, key_bytes, be_bytes. rewrite reverse_involutive, le_num_le_bytes, Z.mod_small; [done|].
  exact F.
Qed.

Lemma accounts_track g (sb : Superblock Ks) key upper :
  on_disk g sb → seg_valid g → seg_sized g → length key = 32%nat →
  (∀ u, upper = Some u → (u < length (records g))%nat) →
  tracks g (index_accounts (index sb) key (record_span g <$> upper)) (seg_hits g key upper).
Proof using All.
  intros Hod Hv Hs Hk Hu. unfold index_accounts. rewrite <- option_fmap_compose.
  destruct (ks_rev_range_data (index sb) (account_prefix key) (key_bytes ∘ record_span g <$> upper)) as (l & Hm & Hy).
  apply (account_matches g sb key upper) in Hm; try done. subst l.
  assert (Hb : ∀ j, j ∈ seg_hits g key upper → (j < length (records g))%nat) by (intros j Hj; by destruct (hits_bound _ _ _ _ Hj) as (_ & _ & ?)).
  assert (Hok : ∀ js rest rest', (∀ j, j ∈ js → (j < length (records g))%nat) → tracks g rest rest' →
    tracks g ((account_span <$> (Ok <$> ((λ j, account_key (account_prefix key) (record_span g j)) <$> js))) ++ rest) (js ++ rest')).
  { intros js rest rest' Hj Hr. induction js as [|j js IH]; [done|]. rewrite !fmap_cons. cbn [app].
    destruct (lookup_lt_is_Some_2 (records g) j ltac:(apply Hj; left)) as [x Hx].
    rewrite (account_span_key g key j x) by done. constructor. apply IH. intros i Hi. apply Hj. by right. }
  destruct Hy as [->|(l1 & l2 & e & r' & Hl & ->)].
  - specialize (Hok (seg_hits g key upper) [] [] Hb (tracks_nil g)). by rewrite !app_nil_r in Hok.
  - apply fmap_app_inv in Hl as (j1 & j2 & -> & -> & Hj). rewrite fmap_app, fmap_cons. rewrite Hj in Hb |- *.
    apply Hok; [intros j Hin; apply Hb, elem_of_app; by left|]. by constructor.
Qed.

Lemma blocktime_answers b (s : L) id slot :
  refines b s → book_ok b → sized b → id ∈ open_ids b → fits 64 slot →
  ∃ t, time_of b slot t ∧ answers (blocktime (directory s id) slot) t.
Proof using All.
  intros R B S Hid Hf. destruct (open_segment b s id R B S Hid) as (Hod & Hv & Hs & _).
  pose proof (find_slot _ _ slot Hod Hv Hs Hf) as Hfind. unfold blocktime.
  destruct (seg_block (segment b id) slot) as [i|] eqn:E.
  - destruct (visible_ok _ _ (od_segment _ _ Hod) (block_in _ _ _ E)) as [(x & Hx & _) Hi]. cbn [item_public] in Hi.
    exists (block_time (payload x)). split; [right; by exists id, i, x|].
    eapply answers_bind; [exact Hfind|]. eapply answers_bind; [by eapply read_entry|done].
  - exists 0. split; [by left|]. eapply answers_bind; [exact Hfind|done].
Qed.

Definition times_ok (b : Book) (times : gmap Z Z) : Prop := ∀ slot t, times !! slot = Some t → time_of b slot t.
Definition timed (b : Book) (l : list AccountSignature) : Prop :=
  Forall (λ a, time_of b (as_slot a) (as_blocktime a)) l.

Definition seg_entries (g : Segment) (js : list nat) : list HistoryEntry :=
  omap (λ j, history_of ∘ header <$> records g !! j) js.

(** What a scan of one superblock may return. *)
Definition scan_ok (b : Book) (limit : nat) (until : option Signature) (fa es : list HistoryEntry)
    (r : result LedgerError Scan) : Prop :=
  match r with
  | Err e => faulty e
  | Ok (Stopped acc) =>
      timed b acc ∧ ∀ rest, entry_of <$> acc = take limit (fa ++ before_until until (es ++ rest))
  | Ok (Continued acc times) =>
      timed b acc ∧ times_ok b times ∧ (length acc < limit)%nat ∧ entry_of <$> acc = fa ++ es ∧
      ∀ rest, before_until until (es ++ rest) = es ++ before_until until rest
  end.

Lemma cached_time b (s : L) id (times : gmap Z Z) slot :
  refines b s → book_ok b → sized b → id ∈ open_ids b → fits 64 slot → times_ok b times →
  match (match times !! slot with
         | Some t => Ok (t, times)
         | None => t ← blocktime (directory s id) slot; Ok (t, <[slot := t]> times) end : result LedgerError (Z * gmap Z Z)) with
  | Ok (t, times') => time_of b slot t ∧ times_ok b times'
  | Err e => faulty e
  end.
Proof using All.
  intros R B S Hid Hf Ht. destruct (times !! slot) as [t|] eqn:E; [split; [by apply Ht|done]|].
  destruct (blocktime_answers b s id slot R B S Hid Hf) as (t & Hto & Ha).
  destruct (blocktime (directory s id) slot) as [t'|e]; [|done]. cbn in Ha |- *. subst t'. split; [done|].
  intros slot' t' [[<- <-]|[_ Hl]]%lookup_insert_Some; [done|by apply Ht].
Qed.

Lemma scan_answers b (s : L) id limit until spans js acc times :
  refines b s → book_ok b → sized b → id ∈ open_ids b → tracks (segment b id) spans js →
  Forall (λ j, (j < rec_public (segment b id))%nat) js → (length acc < limit)%nat → times_ok b times → timed b acc →
  scan_ok b limit until (entry_of <$> acc) (seg_entries (segment b id) js)
    (scan_account (directory s id) limit until spans acc times).
Proof using All.
  intros R B S Hid Htr. destruct (open_segment b s id R B S Hid) as (Hod & Hv & Hs & _).
  revert acc times. induction Htr as [|j spans js _ IH|e spans js He]; intros acc times Hj Hacc Ht Hta.
  { split_and!; [done|done|done|by rewrite app_nil_r|done]. }
  2: { done. }
  apply list.Forall_cons in Hj as [Hj Hjs]. cbn [scan_account mbind result_bind].
  destruct (lookup_lt_is_Some_2 (records (segment b id)) j) as [x Hx].
  { pose proof (sg_rec_public _ (od_segment _ _ Hod)). lia. }
  pose proof (read_header_at _ _ j x Hod Hv Hs Hx Hj) as Hh.
  destruct (read_header (directory s id) (record_span (segment b id) j)) as [h|e]; [|done]. cbn in Hh. subst h. cbn [mbind result_bind].
  unfold seg_entries. rewrite omap_cons_app, Hx. cbn [fmap option_fmap option_map option_list compose].
  change (option_list (Some ?e)) with [e]. fold (seg_entries (segment b id) js).
  destruct (record_valid_at _ j x Hv Hx) as (_ & Hfit & _).
  pose proof (cached_time b s id times (header_slot (header x)) R B S Hid Hfit Ht) as Hc.
  case_bool_decide as Hu.
  - split; [done|]. intros rest. cbn [app before_until history_of fst]. rewrite bool_decide_eq_true_2 by done.
    rewrite app_nil_r, firstn_all2; [done|]. rewrite length_fmap. lia.
  - match type of Hc with match ?c with _ => _ end => destruct c as [[t times']|e] end; [|done]. destruct Hc as [Hto Ht'].
    cbn [mbind result_bind]. set (a := {| as_signature := _ |}).
    assert (Hta' : timed b (acc ++ [a])) by (apply Forall_app; split; [done|by constructor]).
    assert (Hfa : entry_of <$> acc ++ [a] = (entry_of <$> acc) ++ [history_of (header x)]) by (by rewrite fmap_app).
    assert (Hbu : ∀ l, before_until until (history_of (header x) :: l) = history_of (header x) :: before_until until l).
    { intros l. cbn [before_until history_of fst]. by rewrite bool_decide_eq_false_2. }
    destruct (decide _) as [Hlim|Hlim]; rewrite length_app in Hlim; simpl in Hlim.
    + split; [done|]. intros rest. cbn [app]. rewrite Hfa, Hbu, (cons_middle _ (entry_of <$> acc) (before_until _ _)), app_assoc.
      rewrite take_app_le, firstn_all2 by (rewrite length_app, length_fmap; simpl; lia). done.
    + specialize (IH (acc ++ [a]) times' Hjs ltac:(rewrite length_app; simpl; lia) Ht' Hta').
      unfold scan_ok in IH |- *. destruct (scan_account _ _ _ _ _ _) as [[acc'|acc' times'']|]; [| |done].
      * destruct IH as [I1 I2]. split; [done|]. intros rest. rewrite (I2 rest), Hfa, <- app_assoc. cbn [app]. by rewrite Hbu.
      * destruct IH as (I1 & I2 & I3 & I4 & I5). split_and!; try done.
        { rewrite I4, Hfa, <- app_assoc. done. }
        intros rest. cbn [app]. by rewrite Hbu, I5.
Qed.

(** ** All superblocks *)

Lemma hits_public g key upper :
  seg_ok g → Forall (λ j, (j < rec_public g)%nat) (seg_hits g key upper).
Proof using Type.
  intros Hg. apply list.Forall_forall. intros j (Ht & _ & _)%hits_bound. apply Exists_exists in Ht as (it & Hit & Ht).
  destruct it as [sig accs i j'|]; [|done]. destruct Ht as [-> _]. by destruct (visible_ok g _ Hg Hit) as [_ [_ ?]].
Qed.

Definition history_ok (b : Book) (r : result LedgerError (list AccountSignature)) (l : list HistoryEntry) : Prop :=
  match r with
  | Ok acc => timed b acc ∧ entry_of <$> acc = l
  | Err e => faulty e
  end.

(** The scan of one superblock with the rest of the search after it. *)
Lemma scan_continues b (s : L) id key limit until upper acc times ids rest :
  refines b s → book_ok b → sized b → id ∈ open_ids b → length key = 32%nat →
  (∀ u, upper = Some u → (u < length (records (segment b id)))%nat) →
  (length acc < limit)%nat → times_ok b times → timed b acc →
  (∀ acc' times', (length acc' < limit)%nat → times_ok b times' → timed b acc' →
     history_ok b (scan_superblocks (λ _, false) key limit until s ids None acc' times')
       (take limit ((entry_of <$> acc') ++ before_until until rest))) →
  history_ok b
    (r ← scan_account (directory s id) limit until
           (index_accounts (index (directory s id)) key (record_span (segment b id) <$> upper)) acc times;
     match r with
     | Stopped acc => Ok acc
     | Continued acc times => scan_superblocks (λ _, false) key limit until s ids None acc times
     end)
    (take limit ((entry_of <$> acc) ++ before_until until (seg_history (segment b id) key upper ++ rest))).
Proof using All.
  intros R B S Hid Hk Hu Hacc Ht Hta Hrest. destruct (open_segment b s id R B S Hid) as (Hod & Hv & Hs & _).
  pose proof (scan_answers b s id limit until _ _ acc times R B S Hid (accounts_track _ _ key upper Hod Hv Hs Hk Hu)
    (hits_public _ key upper (od_segment _ _ Hod)) Hacc Ht Hta) as Hscan.
  fold (seg_history (segment b id) key upper) in Hscan. unfold scan_ok in Hscan.
  change (seg_entries (segment b id) (seg_hits (segment b id) key upper)) with (seg_history (segment b id) key upper) in Hscan.
  destruct (scan_account _ _ _ _ _ _) as [[acc'|acc' times']|]; [| |done]; cbn [mbind result_bind].
  - destruct Hscan as [H1 H2]. split; [done|]. by rewrite (H2 rest).
  - destruct Hscan as (H1 & H2 & H3 & H4 & H5). rewrite (H5 rest), app_assoc, <- H4. by apply Hrest.
Qed.

Lemma superblocks_answers b (s : L) key limit until ids before acc times :
  refines b s → book_ok b → sized b → Forall (λ id, id ∈ open_ids b) ids → length key = 32%nat →
  (length acc < limit)%nat → times_ok b times → timed b acc →
  history_ok b (scan_superblocks (λ _, false) key limit until s ids before acc times)
    (take limit ((entry_of <$> acc) ++ before_until until (account_history b key ids before))).
Proof using All.
  intros R B S Ho Hk. revert before acc times. induction Ho as [|id ids Hid _ IH]; intros before acc times Hacc Ht Hta.
  { split; [done|]. rewrite app_nil_r, firstn_all2; [done|]. rewrite length_fmap. lia. }
  destruct (open_segment b s id R B S Hid) as (Hod & Hv & Hs & _). cbn [scan_superblocks account_history].
  destruct before as [sig|]; cbn [mbind result_bind].
  - pose proof (find_transaction _ _ sig Hod Hv Hs) as Hf.
    destruct (index_transaction (index (directory s id)) sig) as [found|e]; [|done]. cbn in Hf. subst found. cbn [mbind result_bind].
    destruct (seg_find (segment b id) sig) as [[i u]|] eqn:E; [|by apply IH].
    apply (scan_continues b s id key limit until (Some u)); try done.
    + intros u' [= <-]. destruct (transaction_at _ _ sig i u Hod Hv Hs E) as (t & x & _ & Hx & _). by eapply lookup_lt_Some.
    + intros acc' times'. apply IH.
  - apply (scan_continues b s id key limit until None); try done. intros acc' times'. apply IH.
Qed.

Lemma account_signatures_answers b (s : L) key limit before until :
  refines b s → book_ok b → sized b → length key = 32%nat →
  history_ok b (account_signatures (λ _, false) key limit before until s) (book_history b key limit before until).
Proof using All.
  intros R B S Hk. unfold account_signatures, book_history. destruct (decide (limit = 0%nat)) as [->|Hl]; [by split; [constructor|]|].
  rewrite (iter_newest b s R). apply (superblocks_answers b s key limit until); try done; [|simpl; lia|constructor].
  apply list.Forall_forall. intros id. apply newest_open.
Qed.

End accounts.

(** ** Ranges of blocks answered from the book

    The scan of a half-open range of slots skips superblocks outside it and stops at the first
    block past its end. *)

Section spec.
Context `{WC : !WireConstants}.

(** The blocks of a stream with the compact signatures before each. *)
Fixpoint blocks_of (sigs : list (list Z)) (l : list BlockstoreEntry) : list BlockHistoryEntry :=
  match l with
  | [] => []
  | ETransaction t :: l =>
      match transaction_signature t with
      | Ok s => blocks_of (sigs ++ [signature_prefix s]) l
      | Err _ => blocks_of sigs l
      end
  | EBlock x :: l => {| history_block := payload x; history_signatures := sigs |} :: blocks_of [] l
  | _ :: l => blocks_of sigs l
  end.

Definition in_slots (lo hi : Z) (h : BlockHistoryEntry) : Prop := lo ≤ block_slot (history_block h) < hi.
#[export] Instance in_slots_dec lo hi h : Decision (in_slots lo hi h).
Proof. unfold in_slots. apply _. Defined.

Definition seg_blocks (b : Book) (id : Z) : list BlockHistoryEntry :=
  blocks_of [] (take (public (segment b id)) (entries (segment b id))).

(** All published blocks of the range, oldest first. *)
Definition book_blocks (b : Book) (lo hi : Z) : list BlockHistoryEntry :=
  filter (in_slots lo hi) (concat (seg_blocks b <$> reverse (newest_first b))).

Lemma blocks_slots sigs l : block_slot ∘ history_block <$> blocks_of sigs l = slots l.
Proof using Type.
  revert sigs. induction l as [|e l IH]; intros sigs; [done|].
  destruct e as [x|t| | |]; cbn [blocks_of]; try apply IH.
  { change (slots (EBlock x :: l)) with (block_slot (payload x) :: slots l). by rewrite fmap_cons, IH. }
  destruct (transaction_signature t); apply IH.
Qed.

Lemma out_of_range lo hi sigs l :
  Forall (λ n, ¬ (lo ≤ n < hi)) (slots l) → filter (in_slots lo hi) (blocks_of sigs l) = [].
Proof using Type.
  rewrite <- (blocks_slots sigs), Forall_fmap. apply filter_none.
Qed.

(** The scan of one stream with ascending slots. *)
Lemma history_visits lo hi sigs sent l :
  lo < hi → Forall (λ e, match e with ETransaction t => ∃ s, transaction_signature t = Ok s | _ => True end) l →
  StronglySorted Z.lt (slots l) →
  ∃ sigs' c, visit_list (history_visit (λ _, true) lo hi) (sigs, sent) l =
    Ok ((sigs', sent ++ filter (in_slots lo hi) (blocks_of sigs l)), c) ∧
  (c = false → ∃ n, n ∈ slots l ∧ hi ≤ n).
Proof using Type.
  intros Hlo Hv. revert sigs sent. induction Hv as [|e l He _ IH]; intros sigs sent Hsort.
  { exists sigs, true. cbn. by rewrite app_nil_r. }
  destruct e as [x|t|x|r|c]; cbn [visit_list history_visit negb blocks_of].
  - set (slot := block_slot (payload x)) in *. change (slots (EBlock x :: l)) with (slot :: slots l) in *.
    apply StronglySorted_inv in Hsort as [Hsort Hlt]. destruct (Z.leb_spec hi slot) as [Hhi|Hhi].
    + cbn [mbind result_bind]. exists sigs, false. split; [|intros _; exists slot; split; [left|done]].
      rewrite list.filter_cons, decide_False by (unfold in_slots; simpl; lia).
      rewrite out_of_range, app_nil_r; [done|]. eapply list.Forall_impl; [exact Hlt|]. intros n Hn. simpl in Hn. lia.
    + destruct (Z.leb_spec lo slot) as [Hl|Hl], (Z.ltb_spec slot hi) as [Hh|Hh]; try lia; cbn [andb mbind result_bind].
      * destruct (IH [] (sent ++ [{| history_block := payload x; history_signatures := sigs |}]) Hsort) as (sigs' & c & Hc & Hf).
        exists sigs', c. rewrite Hc, list.filter_cons, decide_True by done. split; [by rewrite <- app_assoc|].
        intros (n & Hn & ?)%Hf. exists n. split; [by right|done].
      * destruct (IH [] sent Hsort) as (sigs' & c & Hc & Hf). exists sigs', c.
        rewrite Hc, list.filter_cons, decide_False by (unfold in_slots; simpl; lia). split; [done|].
        intros (n & Hn & ?)%Hf. exists n. split; [by right|done].
  - destruct He as [s Hs]. rewrite Hs. cbn [mbind result_bind]. by apply IH.
  - cbn [mbind result_bind]. by apply IH.
  - cbn [mbind result_bind]. by apply IH.
  - cbn [mbind result_bind]. by apply IH.
Qed.

End spec.

Lemma sorted_seqZ x n : StronglySorted Z.lt (seqZ x n).
Proof.
  remember (Z.to_nat n) as k eqn:E. revert x n E. induction k as [|k IH]; intros x n E.
  { rewrite seqZ_nil by lia. constructor. }
  rewrite seqZ_cons by lia. constructor; [apply IH; lia|]. apply list.Forall_forall. intros y Hy%elem_of_seqZ. lia.
Qed.

Section range.
Context {Ks : Type} `{FJ : !Fjall Ks, FL : !FjallLaws Ks} `{IOC : !LedgerIo} `{CO : !LedgerCodec, CL : !CodecLaws} `{WC : !WireConstants}.

Abbreviation L := (Ledger Ks).

Lemma published_slots b (s : L) id :
  refines b s → book_ok b → sized b → id ∈ open_ids b →
  slots (take (public (segment b id)) (entries (segment b id))) = slots (entries (segment b id)).
Proof using Type.
  intros R B S Hid. destruct (open_segment b s id R B S Hid) as (_ & _ & _ & Hg).
  rewrite <- (take_drop (public (segment b id)) (entries (segment b id))) at 2.
  by rewrite slots_app, (bk_shown _ B _ _ Hid Hg), app_nil_r.
Qed.

(** A superblock outside the range has no block in it. *)
Lemma skipped b (s : L) id lo hi :
  refines b s → book_ok b → sized b → id ∈ open_ids b →
  (hi <=? start (sb_range (meta (directory s id)))) || (end_ (sb_range (meta (directory s id))) <? lo) = true →
  filter (in_slots lo hi) (seg_blocks b id) = [].
Proof using Type.
  intros R B S Hid Hr. apply out_of_range. rewrite (published_slots b s) by done.
  destruct (open_segment b s id R B S Hid) as (Hod & _ & _ & Hg). apply list.Forall_forall. intros n Hn.
  destruct (segment_range b s id _ _ B Hid Hg Hod) as [[E _]|(x & m & Hm & Ex & Er)]; [rewrite E in Hn; by apply elem_of_nil in Hn|].
  rewrite Er in Hr. rewrite Ex in Hn. apply elem_of_seqZ in Hn. simpl in Hr.
  apply orb_prop in Hr as [Hr|Hr]; [apply Z.leb_le in Hr|apply Z.ltb_lt in Hr]; lia.
Qed.

Lemma visit_segment b (s : L) id lo hi sent :
  refines b s → book_ok b → sized b → id ∈ open_ids b → lo < hi →
  ∃ sigs' c, answers (visit_blockstore (directory s id) (history_visit (λ _, true) lo hi) ([], sent))
    ((sigs', sent ++ filter (in_slots lo hi) (seg_blocks b id)), c) ∧
  (c = false → ∃ n, n ∈ slots (entries (segment b id)) ∧ hi ≤ n).
Proof using All.
  intros R B S Hid Hlo. destruct (open_segment b s id R B S Hid) as (Hod & Hv & Hs & Hg).
  destruct (bk_consecutive _ B _ _ Hid Hg) as (x & n & Ex).
  destruct (history_visits lo hi [] sent (take (public (segment b id)) (entries (segment b id))) Hlo) as (sigs' & c & Hc & Hf).
  - eapply list.Forall_impl; [apply list.Forall_take, (sv_entries _ Hv)|]. intros e [_ He]. by destruct e.
  - rewrite (published_slots b s), Ex by done. apply sorted_seqZ.
  - exists sigs', c. rewrite (published_slots b s) in Hf by done. split; [|done].
    eapply visit_published; [done..|]. by rewrite Hc.
Qed.

Lemma ranges_answers b (s : L) lo hi ids sent :
  refines b s → book_ok b → sized b → lo < hi → Forall (λ id, id ∈ open_ids b) ids → StronglySorted Z.lt ids →
  answers (history_superblocks (λ _, true) lo hi s ids sent)
    (sent ++ filter (in_slots lo hi) (concat (seg_blocks b <$> ids))).
Proof using All.
  intros R B S Hlo Ho. revert sent. induction Ho as [|id ids Hid Ho IH]; intros sent Hsort; [cbn; by rewrite app_nil_r|].
  apply StronglySorted_inv in Hsort as [Hsort Hlt]. cbn [history_superblocks negb]. rewrite fmap_cons. cbn [concat].
  rewrite list.filter_app, app_assoc.
  destruct ((hi <=? start (sb_range (meta (directory s id)))) || (end_ (sb_range (meta (directory s id))) <? lo)) eqn:Er.
  { rewrite (skipped b s id lo hi) by done. rewrite app_nil_r. by apply IH. }
  destruct (visit_segment b s id lo hi sent R B S Hid Hlo) as (sigs' & c & Ha & Hf).
  eapply answers_bind; [exact Ha|]. destruct c; [by apply IH|]. destruct (Hf eq_refl) as (n & Hn & Hhi).
  assert (filter (in_slots lo hi) (concat (seg_blocks b <$> ids)) = []) as ->; [|cbn; by rewrite app_nil_r].
  clear IH Ha Hf Er Hsort. destruct (open_segment b s id R B S Hid) as (_ & _ & _ & Hg).
  induction Ho as [|id' ids Hid' Ho IH]; [done|]. apply list.Forall_cons in Hlt as [Hlt1 Hlt]. rewrite fmap_cons. cbn [concat].
  rewrite list.filter_app, IH, app_nil_r by done. apply out_of_range. rewrite (published_slots b s) by done.
  destruct (open_segment b s id' R B S Hid') as (_ & _ & _ & Hg'). apply list.Forall_forall. intros n' Hn'.
  pose proof (bk_order _ B id id' _ _ n n' Hid Hid' Hlt1 Hg Hg' Hn Hn'). lia.
Qed.

Lemma oldest_sorted b : StronglySorted Z.lt (reverse (newest_first b)).
Proof using Type.
  unfold newest_first. rewrite <- filter_reverse, reverse_involutive.
  apply sorted_filter, sorted_seqZ.
Qed.

Lemma read_blocks_answers b (s : L) lo hi :
  refines b s → book_ok b → sized b → answers (read_blocks (λ _, true) lo hi s) (book_blocks b lo hi).
Proof using All.
  intros R B S. unfold read_blocks, book_blocks. destruct (Z.leb_spec hi lo) as [Hle|Hlt].
  - cbn. rewrite filter_none; [done|]. apply list.Forall_forall. intros h _. unfold in_slots. lia.
  - rewrite (iter_newest b s R). apply (ranges_answers b s lo hi _ []); try done; [|apply oldest_sorted].
    apply list.Forall_forall. intros id Hid. apply newest_open. by rewrite elem_of_reverse in Hid.
Qed.

End range.
