(* ===== verification/LedgerExample.v ===== *)
(** * An instance of the ledger's environment

    A keyspace as a finite map, files that never fail, and codecs that write one cell per
    value. The laws assumed of the environment hold for it. *)

From stdpp Require Import base list gmap numbers option countable sorting.
From S2P Require Import Prelude Effects Memory Records TxFrame LedgerFile LedgerIndex Ledger LedgerReader LedgerBook LedgerRefine LedgerSteps LedgerEvents LedgerRun LedgerHistory LedgerLookup.

Local Open Scope Z_scope.

(** ** Values as numbers *)

#[export] Instance result_countable E A `{Countable E} `{Countable A} `{!EqDecision (result E A)} : Countable (result E A).
Proof.
  apply (inj_countable' (λ r, match r with Ok a => inl a | Err e => inr e end)
           (λ s : A + E, match s with inl a => Ok a | inr e => Err e end)). by intros [].
Defined.
#[export] Instance Block_countable : Countable Block.
Proof.
  apply (inj_countable' (λ x, (block_slot x, block_hash x, block_time x, block_parent x))
           (λ '(a, b, c, d), {| block_slot := a; block_hash := b; block_time := c; block_parent := d |})). by intros [].
Defined.
#[export] Instance SuperblockSeal_countable : Countable SuperblockSeal.
Proof.
  apply (inj_countable' (λ x, (seal_id x, seal_checksum x, seal_transactions x))
           (λ '(a, b, c), {| seal_id := a; seal_checksum := b; seal_transactions := c |})). by intros [].
Defined.
#[export] Instance Reset_countable : Countable Reset.
Proof.
  apply (inj_countable' (λ x, (reset_slot x, reset_rent x, reset_features x))
           (λ '(a, b, c), {| reset_slot := a; reset_rent := b; reset_features := c |})). by intros [].
Defined.
#[export] Instance Signed_countable A `{Countable A} : Countable (Signed A).
Proof.
  apply (inj_countable' (λ x, (payload x, Records.signature x))
           (λ '(a, b), {| payload := a; Records.signature := b |})). by intros [].
Defined.
#[export] Instance BlockstoreEntry_countable : Countable BlockstoreEntry.
Proof.
  apply (inj_countable' (λ e, match e with
      | EBlock x => inl (inl x) | ETransaction t => inl (inr t)
      | ESuperblock x => inr (inl x) | EReset r => inr (inr (inl r)) | ECheckpoint c => inr (inr (inr c)) end)
    (λ s : (Signed Block + list Z) + (Signed SuperblockSeal + (Signed Reset + Signed Z)), match s with
      | inl (inl x) => EBlock x | inl (inr t) => ETransaction t
      | inr (inl x) => ESuperblock x | inr (inr (inl r)) => EReset r | inr (inr (inr c)) => ECheckpoint c end)). by intros [].
Defined.
#[export] Instance ExecutionHeader_eq_dec : EqDecision ExecutionHeader.
Proof. solve_decision. Defined.
#[export] Instance ExecutionHeader_countable : Countable ExecutionHeader.
Proof.
  apply (inj_countable' (λ x, (header_signature x, header_result x, header_slot x))
           (λ '(a, b, c), {| header_signature := a; header_result := b; header_slot := c |})). by intros [].
Defined.
#[export] Instance CompiledInstruction_eq_dec : EqDecision CompiledInstruction.
Proof. solve_decision. Defined.
#[export] Instance CompiledInstruction_countable : Countable CompiledInstruction.
Proof.
  apply (inj_countable' (λ x, (program_index x, ci_accounts x, ci_data x))
           (λ '(a, b, c), {| program_index := a; ci_accounts := b; ci_data := c |})). by intros [].
Defined.
#[export] Instance Instruction_eq_dec : EqDecision Instruction.
Proof. solve_decision. Defined.
#[export] Instance Instruction_countable : Countable Instruction.
Proof.
  apply (inj_countable' (λ x, (compiled x, stack_height x)) (λ '(a, b), {| compiled := a; stack_height := b |})). by intros [].
Defined.
#[export] Instance ReturnData_eq_dec : EqDecision ReturnData.
Proof. solve_decision. Defined.
#[export] Instance ReturnData_countable : Countable ReturnData.
Proof.
  apply (inj_countable' (λ x, (return_program x, return_bytes x)) (λ '(a, b), {| return_program := a; return_bytes := b |})).
  by intros [].
Defined.
#[export] Instance Balances_eq_dec : EqDecision Balances.
Proof. solve_decision. Defined.
#[export] Instance Balances_countable : Countable Balances.
Proof.
  apply (inj_countable' (λ x, (pre_balances x, post_balances x)) (λ '(a, b), {| pre_balances := a; post_balances := b |})).
  by intros [].
Defined.
#[export] Instance ExecutionDetails_eq_dec : EqDecision ExecutionDetails.
Proof. solve_decision. Defined.
#[export] Instance ExecutionDetails_countable : Countable ExecutionDetails.
Proof.
  apply (inj_countable' (λ x, (fee x, balances x, logs x, cpi x, compute_units x, return_data x))
           (λ '(a, b, c, d, e, f), {| fee := a; balances := b; logs := c; cpi := d; compute_units := e; return_data := f |})).
  by intros [].
Defined.

(** ** Codecs *)

Definition cell {A} `{Countable A} (x : A) : list Z := [Zpos (encode x)].
Definition uncell {A} `{Countable A} (bs : list Z) : result ErrorCode (A * list Z) :=
  match bs with
  | Zpos p :: rest => match decode p with Some x => Ok (x, rest) | None => Err 1 end
  | _ => Err 1
  end.

Lemma uncell_cell {A} `{Countable A} (x : A) rest : uncell (cell x ++ rest) = Ok (x, rest).
Proof. simpl. by rewrite decode_encode. Qed.

#[export] Instance sample_codec : LedgerCodec := {
  entry_fragments e := ([cell e], Ok tt);
  decode_entry := uncell;
  header_fragments h := ([cell h], Ok tt);
  decode_header bs := '(h, _) ← uncell bs; Ok h;
  header_size _ := Ok 1;
  bitcode_encode d := cell d;
  bitcode_decode bs := '(d, _) ← uncell bs; Ok d;
  zstd_compress bs := Ok bs;
  zstd_decompress bs n := if zlen bs <=? n then Ok bs else Err 1;
}.

#[export] Instance sample_codec_laws : CodecLaws.
Proof.
  split.
  - done.
  - intros e rest _ _. apply uncell_cell.
  - done.
  - intros h rest _. change (('(h', _) ← uncell (cell h ++ rest); Ok h') = Ok h). by rewrite uncell_cell.
  - done.
  - intros d. cbn -[uncell cell]. pose proof (uncell_cell d []) as H. rewrite app_nil_r in H. by rewrite H.
  - done.
  - intros bs out n [= <-] Hn. simpl. by rewrite (proj2 (Z.leb_le _ _) Hn).
Qed.

(** ** A keyspace as a map *)

Abbreviation SampleKs := (gmap (list Z) (list Z)).

Definition in_scan (p : list Z) (upper : option (list Z)) (k : list Z) : bool :=
  bool_decide (p `prefix_of` k) && match upper with Some u => negb (lex_leb (p ++ u) k) | None => true end.

Definition descending (a b : list Z) : Prop := lex_le b a.
#[export] Instance descending_dec a b : Decision (descending a b).
Proof. unfold descending. apply _. Defined.
#[export] Instance descending_total : Total descending.
Proof. intros a b. destruct (total lex_le a b); [by right|by left]. Qed.
#[export] Instance descending_trans : Transitive descending.
Proof. intros a b c H1 H2. unfold descending in *. by etrans. Qed.

#[export] Instance sample_fjall : Fjall SampleKs := {
  ks_new := ∅;
  ks_get ks k := Ok (ks !! k);
  ks_commit ks batch := Ok (write_all ks batch);
  ks_persist _ := Ok tt;
  ks_rotate_memtable _ := Ok tt;
  ks_delete _ := Ok tt;
  ks_rev_range ks p upper := Ok <$> merge_sort descending (filter (λ k, in_scan p upper k) (map_to_list ks).*1);
}.

Lemma sorted_strict l : StronglySorted descending l → NoDup l → StronglySorted (λ a b, lex_lt b a) l.
Proof.
  intros Hs. induction Hs as [|x l _ IH Hx]; intros Hd; [constructor|]. apply list.NoDup_cons in Hd as [Hn Hd].
  constructor; [by apply IH|]. rewrite list.Forall_forall in Hx |- *. intros y Hy. specialize (Hx y Hy). unfold lex_lt.
  destruct (lex_leb x y) eqn:E; [|done]. exfalso. assert (y = x) as -> by (by apply (anti_symm lex_le)). done.
Qed.

#[export] Instance sample_fjall_laws : FjallLaws SampleKs.
Proof.
  refine {| ks_data := λ ks, ks |}; try done.
  - by intros ks k o [= <-].
  - by intros ks batch ks' [= <-].
  - intros ks p upper. exists (merge_sort descending (filter (λ k, in_scan p upper k) (map_to_list ks).*1)).
    split; [|by left]. split.
    + apply sorted_strict; [apply (StronglySorted_merge_sort _)|]. rewrite merge_sort_Permutation.
      apply list.NoDup_filter, NoDup_fst_map_to_list.
    + intros k. rewrite merge_sort_Permutation, list_elem_of_filter, list_elem_of_fmap.
      assert (Hk : (∃ y, k = y.1 ∧ y ∈ map_to_list ks) ↔ is_Some (ks !! k)).
      { split.
        - intros ([k' v] & -> & Hv%elem_of_map_to_list). by exists v.
        - intros [v Hv]. exists (k, v). split; [done|]. by apply elem_of_map_to_list. }
      rewrite Hk. unfold in_scan, lex_lt. destruct upper as [u|].
      * destruct (bool_decide_reflect (p `prefix_of` k)), (lex_leb (p ++ u) k); simpl; naive_solver.
      * rewrite andb_true_r, bool_decide_spec. tauto.
Qed.

(** ** A file system without errors *)

#[export] Instance sample_io : LedgerIo := {
  io_write _ _ := Ok tt;
  io_read _ _ := Ok tt;
  io_sync_data _ := Ok tt;
  io_sync_all _ := Ok tt;
  io_fallocate _ := Ok tt;
  io_set_len _ := Ok tt;
  io_open _ := Ok tt;
  io_flush_meta _ := Ok tt;
  io_statvfs _ := Ok (0, 0, 1);
}.
