(* ===== verification/LedgerProps.v ===== *)
(** * Properties of the ledger *)

From stdpp Require Import base list gmap numbers option.
From S2P Require Import Prelude Effects Memory Records TxFrame TxView TxProps LedgerFile LedgerIndex Ledger LedgerReader LedgerBook LedgerRefine LedgerSteps LedgerEvents LedgerRun LedgerHistory LedgerLookup LedgerBlocks LedgerAccounts LedgerExample.

Local Open Scope Z_scope.

(** The state of a ledger stands for a book: its files, index and metadata hold what the book
    says, and the book is one that events within the format's limits lead to. *)
Record represents {Ks} `{!Fjall Ks, !FjallLaws Ks} `{!LedgerCodec} `{!WireConstants} (b : Book) (s : Ledger Ks) : Prop := {
  rp_refines : refines b s;
  rp_ok : book_ok b;
  rp_sized : sized b;
}.

Section props.
Context {Ks : Type} `{FJ : !Fjall Ks, FL : !FjallLaws Ks} `{IOC : !LedgerIo} `{CO : !LedgerCodec, CL : !CodecLaws} `{WC : !WireConstants}.

Abbreviation L := (Ledger Ks).

Lemma history_represents limit ms (s : L) :
  expected ms (ledger_new limit) → run ms (ledger_new limit) = (Ok tt, s) →
  ∃ b, book_run ms book_new b ∧ represents b s ∧ (orderly ms = true → fully_indexed b).
Proof using Type.
  intros He H. destruct (history_refines limit ms s He H) as (b & H1 & H2 & H3 & H4 & H5). exists b. split_and!; done.
Qed.

Lemma expected_app ms ms' (s s1 : L) :
  run ms s = (Ok tt, s1) → expected (ms ++ ms') s → expected ms s ∧ expected ms' s1.
Proof using Type.
  revert s. induction ms as [|m ms IH]; intros s H He; [by injection H as <-|].
  cbn [run] in H. apply op_bind_inv_ok in H as ([] & s2 & H1 & H). destruct He as [Hm He].
  destruct (IH s2 H) as [I1 I2]; [by rewrite H1 in He|]. split; [|done]. split; [done|]. by rewrite H1.
Qed.

(** What the book finds for a signature belongs to it. *)
Lemma found_belongs b (s : L) sig r :
  represents b s → book_transaction b sig = Some r →
  ∃ sig', signature_prefix sig' = signature_prefix sig ∧ transaction_signature (transaction r) = Ok sig' ∧
    header_signature (header (execution r)) = sig'.
Proof using Type.
  intros [R B S] H. unfold book_transaction in H. apply first_some_in in H as (id & Hid%newest_open & H).
  destruct (open_segment b s id R B S Hid) as (Hod & Hv & Hs & _). unfold seg_transaction in H.
  destruct (seg_find (segment b id) sig) as [[i j]|] eqn:E; [|done].
  destruct (find_in _ _ _ _ (od_segment _ _ Hod) E) as (sig' & accs & Hin & Hp).
  destruct (visible_ok _ _ (od_segment _ _ Hod) Hin) as [[_ (x & Hx & Hsx)] _].
  pose proof (sv_items _ Hv) as Hi. rewrite list.Forall_forall in Hi.
  destruct (Hi _ (list.subseteq_take _ _ _ Hin)) as [(t & Ht & Hst) _].
  cbn [mbind option_bind] in H. rewrite Ht, Hx in H. injection H as <-. by exists sig'.
Qed.


(** Published entries and execution records and visible index items are never lost or
    changed: however a history continues, also over restarts that lose what was buffered, they
    stay a prefix of what their superblock has, for as long as it is retained. *)
Theorem published_data_stays limit ms ms' (s s' : L) :
  expected (ms ++ ms') (ledger_new limit) →
  run ms (ledger_new limit) = (Ok tt, s) → run ms' s = (Ok tt, s') →
  ∃ b b', book_run ms book_new b ∧ represents b s ∧ book_run ms' b b' ∧ represents b' s' ∧
    ∀ id, id ∈ open_ids b → id ∈ open_ids b' →
      published (segment b id) `prefix_of` published (segment b' id) ∧
      recorded (segment b id) `prefix_of` recorded (segment b' id) ∧
      shown (segment b id) `prefix_of` shown (segment b' id).
Proof using Type.
  intros He H H'. destruct (expected_app ms ms' _ s H He) as [He1 He2].
  destruct (history_represents limit ms s He1 H) as (b & Hb & [R B S] & _).
  destruct (run_refines ms' b s s' R B S He2 H') as (b' & Hb' & R' & B' & S' & Hl & _).
  exists b, b'. split_and!; [done|done|done|done|]. intros id H1 H2. by destruct (lt_segments _ _ Hl id H1 H2).
Qed.

(** C15. A lookup by signature gives the transaction and the execution of the newest retained
    superblock whose index knows the signature's prefix, nothing when none does, or an error of
    the file system or the index; transaction and execution carry the same signature, which has
    the prefix asked for. *)
Theorem transaction_lookup_exact b (s : L) sig :
  represents b s →
  answers (read_transaction (λ _, false) sig s) (book_transaction b sig) ∧
  answers (read_transaction_status (λ _, false) sig s) (response_status <$> book_transaction b sig) ∧
  ∀ r, book_transaction b sig = Some r →
    ∃ sig', signature_prefix sig' = signature_prefix sig ∧ transaction_signature (transaction r) = Ok sig' ∧
      header_signature (header (execution r)) = sig'.
Proof using All.
  intros Hr. pose proof Hr as [R B S]. split_and!.
  - by apply read_transaction_answers.
  - by apply read_status_answers.
  - intros r. by apply (found_belongs b s).
Qed.

(** C13. A block request is answered with the block of the slot, whose superblock is found by its
    range, and with exactly the indexed transactions between the block before it and its own
    boundary, at every level of detail, when every block is in the index. *)
Theorem block_lookup_exact b (s : L) slot d :
  represents b s → fully_indexed b → fits 64 slot →
  answers (read_block (λ _, false) slot d s) (book_block b slot d).
Proof using All. intros [R B S]. by apply read_block_answers. Qed.

(** C33. A replay streams the published entries of the retained superblocks after the requested
    one, in order and once each, for as long as the receiver listens. *)
Theorem replay_exact b (s : L) listening after :
  represents b s → 0 ≤ after →
  answers (replay listening after s) (received listening [] (book_stream b after)).
Proof using CL. intros [R B S]. by apply replay_answers. Qed.

(** The history of an account lists the headers of the visible transactions that named it,
    newest first over all superblocks, below one signature and down to another, to the limit;
    a block time is that of a visible block of the slot or zero. *)
Theorem account_history_exact b (s : L) key limit before until :
  represents b s → length key = 32%nat →
  history_ok b (account_signatures (λ _, false) key limit before until s) (book_history b key limit before until).
Proof using All. intros [R B S]. by apply account_signatures_answers. Qed.

(** A range of slots is answered with exactly the published blocks of the range, oldest
    first, each with the signature prefixes of the transactions before its boundary, although
    superblocks outside the range are skipped and the scan stops at the first later block. *)
Theorem block_range_exact b (s : L) lo hi :
  represents b s → answers (read_blocks (λ _, true) lo hi s) (book_blocks b lo hi).
Proof using All. intros [R B S]. by apply read_blocks_answers. Qed.

End props.

(** ** A history *)

Definition sample_sig : Signature := replicate 64 9.
Definition sample_key : list Z := replicate 32 1.
Definition sample_execution (slot : Z) : Execution :=
  {| header := {| header_signature := sample_sig; header_result := Ok tt; header_slot := slot |}; details := None |}.
Definition sample_block (slot : Z) : Signed Block :=
  {| payload := {| block_slot := slot; block_hash := [slot]; block_time := 1000 + slot; block_parent := [slot - 1] |};
     Records.signature := [] |}.
Definition sample_seal (id : Z) : Signed SuperblockSeal :=
  {| payload := {| seal_id := id; seal_checksum := 7; seal_transactions := 1 |}; Records.signature := [] |}.

(** A transaction, its execution and its block, indexed; a seal; another block; an orderly restart. *)
Definition sample_moves : list HistoryMove :=
  [MEvent (EvTransaction sample_sig (data sample_view));
   MEvent (EvExecution (sample_execution 1) (account_index [sample_key]));
   MEvent (EvBlock (sample_block 1)); MIndex; MIndex;
   MEvent (EvSuperblock (sample_seal 1));
   MEvent (EvBlock (sample_block 2)); MEvent EvSync; MRestart].

Abbreviation sample_start := (ledger_new 1000 : Ledger SampleKs).

Ltac sample_step :=
  split; [first [exact I | split;
    [first [exact I | vm_compute; reflexivity
           | split; [by vm_compute|]; exists [sample_key]; split; [by repeat constructor|reflexivity]
           | split_and!; [by vm_compute|by vm_compute|first [left; vm_compute; reflexivity|right; vm_compute; reflexivity]]
           | split_and!; [vm_compute; reflexivity|vm_compute; reflexivity|by vm_compute]]
    |first [exact I | split; by vm_compute]]]|].

Lemma sample_expected : expected sample_moves sample_start.
Proof. do 9 sample_step. exact I. Qed.

Lemma sample_runs : (run sample_moves sample_start).1 = Ok tt.
Proof. vm_compute. reflexivity. Qed.

Definition sample_state : Ledger SampleKs := (run sample_moves sample_start).2.

Lemma sample_run : run sample_moves sample_start = (Ok tt, sample_state).
Proof. rewrite <- sample_runs. apply surjective_pairing. Qed.

Lemma sample_book : ∃ b, book_run sample_moves book_new b ∧ represents b sample_state ∧ fully_indexed b.
Proof.
  destruct (history_represents 1000 sample_moves sample_state sample_expected sample_run) as (b & H1 & H2 & H3).
  exists b. split_and!; [done|done|]. apply H3. vm_compute. reflexivity.
Qed.


Lemma transaction_lookup_exact_witness :
  (∃ r, read_transaction (λ _, false) sample_sig sample_state = Ok (Some r) ∧ transaction r = data sample_view) ∧
  ∃ b, represents b sample_state ∧
    answers (read_transaction (λ _, false) sample_sig sample_state) (book_transaction b sample_sig).
Proof.
  split; [eexists; split; vm_compute; reflexivity|]. destruct sample_book as (b & _ & Hr & _). exists b.
  split; [exact Hr|]. exact (proj1 (transaction_lookup_exact b sample_state sample_sig Hr)).
Defined.

(** The same history, cut before the restart. *)
Definition sample_before : list HistoryMove := take 8 sample_moves.
Definition sample_middle : Ledger SampleKs := (run sample_before sample_start).2.

Lemma sample_cut :
  run sample_before sample_start = (Ok tt, sample_middle) ∧ run [MRestart] sample_middle = (Ok tt, reopen sample_middle).
Proof.
  split; [|reflexivity]. assert ((run sample_before sample_start).1 = Ok tt) as <- by (vm_compute; reflexivity).
  apply surjective_pairing.
Qed.

Lemma published_data_stays_witness :
  ∃ b b', book_run sample_before book_new b ∧ represents b sample_middle ∧ book_run [MRestart] b b' ∧
    represents b' (reopen sample_middle) ∧
    ∀ id, id ∈ open_ids b → id ∈ open_ids b' →
      published (segment b id) `prefix_of` published (segment b' id) ∧
      recorded (segment b id) `prefix_of` recorded (segment b' id) ∧
      shown (segment b id) `prefix_of` shown (segment b' id).
Proof.
  exact (published_data_stays 1000 sample_before [MRestart] sample_middle (reopen sample_middle)
           sample_expected (proj1 sample_cut) (proj2 sample_cut)).
Defined.

Lemma block_lookup_exact_witness :
  read_block (λ _, false) 1 Signatures sample_state =
    Ok (Some (WithSignatures (payload (sample_block 1)) [sample_sig])) ∧
  ∃ b, represents b sample_state ∧ fully_indexed b ∧
    answers (read_block (λ _, false) 1 Signatures sample_state) (book_block b 1 Signatures).
Proof.
  split; [vm_compute; reflexivity|]. destruct sample_book as (b & _ & Hr & Hc). exists b.
  refine (conj Hr (conj Hc (block_lookup_exact b sample_state 1 Signatures Hr Hc _))). by vm_compute.
Defined.

Lemma replay_exact_witness :
  replay (λ _, true) 1 sample_state = Ok [EBlock (sample_block 2)] ∧
  ∃ b, represents b sample_state ∧
    answers (replay (λ _, true) 1 sample_state) (received (λ _, true) [] (book_stream b 1)).
Proof.
  split; [vm_compute; reflexivity|]. destruct sample_book as (b & _ & Hr & _). exists b.
  refine (conj Hr (replay_exact b sample_state (λ _, true) 1 Hr _)). by vm_compute.
Defined.

Lemma account_history_exact_witness :
  account_signatures (λ _, false) sample_key 10 None None sample_state =
    Ok [{| as_signature := sample_sig; as_slot := 1; as_result := Ok tt; as_blocktime := 1001 |}] ∧
  ∃ b, represents b sample_state ∧
    history_ok b (account_signatures (λ _, false) sample_key 10 None None sample_state)
      (book_history b sample_key 10 None None).
Proof.
  split; [vm_compute; reflexivity|]. destruct sample_book as (b & _ & Hr & _). exists b.
  exact (conj Hr (account_history_exact b sample_state sample_key 10 None None Hr eq_refl)).
Defined.

Lemma block_range_exact_witness :
  read_blocks (λ _, true) 1 2 sample_state =
    Ok [{| history_block := payload (sample_block 1); history_signatures := [signature_prefix sample_sig] |}] ∧
  ∃ b, represents b sample_state ∧ answers (read_blocks (λ _, true) 1 2 sample_state) (book_blocks b 1 2).
Proof.
  split; [vm_compute; reflexivity|]. destruct sample_book as (b & _ & Hr & _). exists b.
  exact (conj Hr (block_range_exact b sample_state 1 2 Hr)).
Defined.

(** ** A restart that loses index work *)

Definition gap_moves : list HistoryMove :=
  [MEvent (EvBlock (sample_block 1)); MRestart; MEvent (EvBlock (sample_block 2)); MIndex].

