(* ===== verification/Keeper.v ===== *)
(** * The keeper ([keeper/src/accessor.rs], [keeper/src/util.rs], [keeper/src/lib.rs])

    The durable state of the engine behind one handle: the accounts database, the append stream
    of the ledger, the caches and the subscriptions. A commit writes the ledger record of an
    execution, stores the accounts of a successful one, notifies the subscribers and publishes
    the status; a replayed commit does the same to the state and nothing else. *)

From stdpp Require Import base list gmap numbers option sets.
From S2P Require Import Prelude LedgerIndex Ledger CtxAccounts CtxInstruction Invoke Svm.
From S2P Require Import Memory AccountMode Account AccountFacts Records Storage Index Store Volatile.
From S2P Require Import StoreFacts StoreBatch StoreProps AccountsDb AccountsDbFacts.
From S2P Require Import Effects KeeperCache KeeperSubs.

Local Open Scope Z_scope.

(** ** Data *)

Record TransactionStatus := { status_result : result TransactionError unit; status_slot : Z }.
Record ResolvedTransaction := {
  tx_signatures : list Signature;
  static_account_keys : list Pubkey;
  tx_recent_blockhash : SolanaHash;
  tx_inner_data : list Z;
}.
Record ExecutionRecord := {
  er_result : result TransactionError ExecutedTransaction;
  er_balances : option BalanceCollector;
  er_slot : Z;
}.
Record FullTransaction := { ft_transaction : ResolvedTransaction; ft_execution : ExecutionRecord }.
Record Clock := {
  clock_slot : Z; clock_epoch : Z; clock_leader_schedule_epoch : Z; clock_unix_timestamp : Z;
  clock_epoch_start_timestamp : Z;
}.

(** Code outside the repository: the encodings of errors, logs and sysvars, the sysvar keys,
    the epoch schedule and the signer. [add_slot_hash] decodes the entries, adds one and
    encodes them again. *)
Class KeeperLibraries := {
  error_code : TransactionError → Z;
  log_bytes : LogMessage → list Z;
  instructions_id : Pubkey;
  slot_hashes_id : Pubkey;
  clock_id : Pubkey;
  add_slot_hash : list Z → Z → Hash → result ErrorCode (list Z);
  clock_bytes : Clock → list Z;
  get_epoch : Z → Z;
  get_leader_schedule_epoch : Z → Z;
  sign_checkpoint : Z → Signature;
}.

Inductive KeeperError :=
| KAccountsDb (e : AccountsDBError) | KLedger | MissingSysvar (key : Pubkey) | CheckpointMismatch.

(** [subscriptions.rs]: one stream per kind; the receivers of a signature are one-shot. *)
Record Subscriptions := {
  s_accounts : Multicast Pubkey AccountSharedData;
  s_programs : Multicast Pubkey (Pubkey * AccountSharedData);
  s_signatures : Subscribers Signature;
  s_oneshots : gmap nat (option TransactionStatus);
  s_logs : Multicast Pubkey FullTransaction;
  s_blocks : Multicast unit Block;
  s_transactions : Unicast FullTransaction;
  s_failures : Multicast unit FullTransaction;
  s_services : Unicast (list Z);
}.

Definition with_s_accounts (s : Subscriptions) (v : Multicast Pubkey AccountSharedData) : Subscriptions :=
  {| s_accounts := v; s_programs := s_programs s; s_signatures := s_signatures s; s_oneshots := s_oneshots s;
     s_logs := s_logs s; s_blocks := s_blocks s; s_transactions := s_transactions s; s_failures := s_failures s;
     s_services := s_services s |}.
Definition with_s_programs (s : Subscriptions) (v : Multicast Pubkey (Pubkey * AccountSharedData)) : Subscriptions :=
  {| s_accounts := s_accounts s; s_programs := v; s_signatures := s_signatures s; s_oneshots := s_oneshots s;
     s_logs := s_logs s; s_blocks := s_blocks s; s_transactions := s_transactions s; s_failures := s_failures s;
     s_services := s_services s |}.
Definition with_s_signatures (s : Subscriptions) (v : Subscribers Signature) (o : gmap nat (option TransactionStatus))
    : Subscriptions :=
  {| s_accounts := s_accounts s; s_programs := s_programs s; s_signatures := v; s_oneshots := o;
     s_logs := s_logs s; s_blocks := s_blocks s; s_transactions := s_transactions s; s_failures := s_failures s;
     s_services := s_services s |}.
Definition with_s_streams (s : Subscriptions) (l : Multicast Pubkey FullTransaction) (f : Multicast unit FullTransaction)
    (t : Unicast FullTransaction) : Subscriptions :=
  {| s_accounts := s_accounts s; s_programs := s_programs s; s_signatures := s_signatures s; s_oneshots := s_oneshots s;
     s_logs := l; s_blocks := s_blocks s; s_transactions := t; s_failures := f; s_services := s_services s |}.
Definition with_s_blocks (s : Subscriptions) (v : Multicast unit Block) : Subscriptions :=
  {| s_accounts := s_accounts s; s_programs := s_programs s; s_signatures := s_signatures s; s_oneshots := s_oneshots s;
     s_logs := s_logs s; s_blocks := v; s_transactions := s_transactions s; s_failures := s_failures s;
     s_services := s_services s |}.
Definition with_s_services (s : Subscriptions) (v : Unicast (list Z)) : Subscriptions :=
  {| s_accounts := s_accounts s; s_programs := s_programs s; s_signatures := s_signatures s; s_oneshots := s_oneshots s;
     s_logs := s_logs s; s_blocks := s_blocks s; s_transactions := s_transactions s; s_failures := s_failures s;
     s_services := v |}.

Definition subscriptions_new : Subscriptions :=
  {| s_accounts := multicast_new 8; s_programs := multicast_new 16; s_signatures := subscribers_new; s_oneshots := ∅;
     s_logs := multicast_new 8; s_blocks := multicast_new 32; s_transactions := unicast_new;
     s_failures := multicast_new 32; s_services := unicast_new |}.

(** [AccountSharedData::clone]: a view becomes a copy. *)
Definition clone_account (m : mem) (a : AccountSharedData) : AccountSharedData :=
  {| cow := promote m (cow a); dirty_bits := dirty_bits a |}.

(** [send_accounts]. *)
Definition send_account (m : mem) (accounts programs : bool) (s : Subscriptions) (entry : Pubkey * AccountSharedData)
    : Subscriptions :=
  let '(key, account) := entry in
  if negb (is_dirty account) then s
  else
    let copy := clone_account m account in
    let s := if accounts then with_s_accounts s (send_with (s_accounts s) key copy) else s in
    if programs then with_s_programs s (send_with (s_programs s) (owner (core_of m account)) (key, copy)) else s.
Definition send_accounts (m : mem) (s : Subscriptions) (updates : list (Pubkey * AccountSharedData)) : Subscriptions :=
  let accounts := negb (is_empty (senders (s_accounts s))) in
  let programs := negb (is_empty (senders (s_programs s))) in
  if negb accounts && negb programs then s else foldl (send_account m accounts programs) s updates.

(** [Signatures::send]. *)
Definition signatures_subscribe (s : Subscriptions) (sig : Signature) (x : nat) : Subscriptions :=
  with_s_signatures s (subs_insert (s_signatures s) sig x) (<[x := None]> (s_oneshots s)).
Definition signatures_send (s : Subscriptions) (sig : Signature) (st : TransactionStatus) : Subscriptions :=
  match subs_remove (s_signatures s) sig with
  | (_, None) => s
  | (w, Some l) => with_s_signatures s w (foldl (λ o x, alter (λ _, Some st) x o) (s_oneshots s) l)
  end.

(** ** Ledger records ([util.rs]) *)

Section records.
Context `{KL : !KeeperLibraries}.

Definition coded (r : result TransactionError unit) : result Z unit :=
  match r with Ok _ => Ok tt | Err e => Err (error_code e) end.
Definition transaction_status (r : result TransactionError ExecutedTransaction) (slot : Z) : TransactionStatus :=
  {| status_result := flattened_result r; status_slot := slot |}.

Definition instruction (ix : InnerInstruction) : Records.Instruction :=
  {| compiled := {| program_index := inner_program ix; ci_accounts := inner_accounts ix; ci_data := inner_data ix |};
     stack_height := inner_stack_height ix |}.
Definition cpis (groups : list (list InnerInstruction)) : list (list Records.Instruction) :=
  (λ g : list InnerInstruction, instruction <$> g) <$> groups.

Definition total_fee (f : FeeDetails) : Z := saturating_add 64 (transaction_fee f) (prioritization_fee f).

(** A failed execution changes no account: its balances after are those before. *)
Definition execution_details (e : ExecutedTransaction) (b : option BalanceCollector) : ExecutionDetails :=
  let d := Svm.execution_details e in
  let pre := default [] (native_pre <$> b) in
  let post := default [] (native_post <$> b) in
  let post := match status d with Err _ => pre | Ok _ => post end in
  {| fee := total_fee (lt_fee_details (loaded_transaction e));
     balances := {| pre_balances := pre; post_balances := post |};
     logs := log_bytes <$> default [] (log_messages d);
     cpi := cpis <$> inner_instructions d;
     compute_units := executed_units d;
     Records.return_data := (λ rd, {| return_program := rd.1; return_bytes := rd.2 |}) <$> Svm.return_data d |}.

Record ExecutionCommit := {
  commit_signature : Signature;
  commit_status : TransactionStatus;
  commit_event : Event;
}.

(** The balances stay in the transaction when it is going to be sent. *)
Definition execution_commit (txn : FullTransaction) (retain_balances : bool) : FullTransaction * ExecutionCommit :=
  let x := ft_execution txn in
  let slot := er_slot x in
  let signature := hd [] (tx_signatures (ft_transaction txn)) in
  let status := transaction_status (er_result x) slot in
  let header := {| header_signature := signature; header_result := coded (status_result status); header_slot := slot |} in
  let details := match er_result x with Ok e => Some (execution_details e (er_balances x)) | Err _ => None end in
  let taken := match er_result x with Ok _ => negb retain_balances | Err _ => false end in
  let x := {| er_result := er_result x; er_balances := if taken then None else er_balances x; er_slot := slot |} in
  ({| ft_transaction := ft_transaction txn; ft_execution := x |},
   {| commit_signature := signature; commit_status := status;
      commit_event := EvExecution {| header := header; details := details |}
                        (account_index (static_account_keys (ft_transaction txn))) |}).

End records.

(** ** The keeper *)

Section keeper.
Context {A P F : Type}.
Context `{HA : !Database A Pubkey OwnerAndOffset, HP : !Database P KeyTail Offset}.
Context `{HF : !Database F Z Offset, HE : !HeedEnv A P F, IO_ : !FileIo, HH : !Hasher}.
Context `{KL : !KeeperLibraries}.

(** The append stream of the ledger: what was sent, and whether its receiver is there. *)
Record Keeper := {
  accountsdb : AccountsDB A P F;
  appended : list Event;
  appender_open : bool;
  k_caches : Caches TransactionStatus;
  subscriptions : Subscriptions;
  (** The messages that the execution left on the thread. *)
  tls : list (list Z);
}.
Abbreviation K := (Eff KeeperError Keeper).

Definition with_accountsdb (k : Keeper) (d : AccountsDB A P F) : Keeper :=
  {| accountsdb := d; appended := appended k; appender_open := appender_open k; k_caches := k_caches k;
     subscriptions := subscriptions k; tls := tls k |}.
Definition with_appended (k : Keeper) (l : list Event) : Keeper :=
  {| accountsdb := accountsdb k; appended := l; appender_open := appender_open k; k_caches := k_caches k;
     subscriptions := subscriptions k; tls := tls k |}.
Definition with_k_caches (k : Keeper) (c : Caches TransactionStatus) : Keeper :=
  {| accountsdb := accountsdb k; appended := appended k; appender_open := appender_open k; k_caches := c;
     subscriptions := subscriptions k; tls := tls k |}.
Definition with_subscriptions (k : Keeper) (s : Subscriptions) : Keeper :=
  {| accountsdb := accountsdb k; appended := appended k; appender_open := appender_open k; k_caches := k_caches k;
     subscriptions := s; tls := tls k |}.
Definition with_tls (k : Keeper) (l : list (list Z)) : Keeper :=
  {| accountsdb := accountsdb k; appended := appended k; appender_open := appender_open k; k_caches := k_caches k;
     subscriptions := subscriptions k; tls := l |}.

Definition on_db {R} (f : AccountsDB A P F → AccountsDB A P F * result AccountsDBError R) : K R := λ k,
  let '(d, r) := f (accountsdb k) in (map_err KAccountsDb r, with_accountsdb k d).
Definition send_event (e : Event) : K unit := λ k,
  if appender_open k then (Ok tt, with_appended k (appended k ++ [e])) else (Err KLedger, k).

Definition k_mem (k : Keeper) : mem := db_mem (accountsdb k).
Definition cached (k : Keeper) (sig : Signature) : option (option TransactionStatus) :=
  cache_get (signatures (k_caches k)) (signature_prefix sig).

(** *** Transactions *)

(** [append] without another call in between. *)
Definition k_append (t : ResolvedTransaction) : K (result TransactionError unit) :=
  c ← read k_caches;
  let signature := hd [] (tx_signatures t) in
  let '(c, fresh) := append_reserve c (signature_prefix signature) (append_slot c) in
  _ ← modify (λ k, with_k_caches k c);
  if negb fresh then mret (Err AlreadyProcessed)
  else if negb (is_valid c (tx_recent_blockhash t)) then mret (Err BlockhashNotFound)
  else _ ← send_event (EvTransaction signature (tx_inner_data t)); mret (Ok tt).

(** The accounts a successful execution changed. *)
Definition dirty_accounts (r : result TransactionError ExecutedTransaction) : list AccountEntry :=
  match r with
  | Ok e =>
      if was_successful e
      then List.filter (λ a : AccountEntry, is_dirty a.2 && negb (bool_decide (a.1 = instructions_id)))
             (lt_accounts (loaded_transaction e))
      else []
  | Err _ => []
  end.
Definition commit_state_transitions (r : result TransactionError ExecutedTransaction) : K (option ExecutedTransaction) :=
  _ ← on_db (λ d, db_commit d (dirty_accounts r));
  mret (match r with Ok e => if was_successful e then Some e else None | Err _ => None end).

(** The queue of the thread goes to the receiver of service messages. *)
Definition drain_services (k : Keeper) : Keeper :=
  with_tls (with_subscriptions k (with_s_services (subscriptions k)
    (foldl unicast_send (s_services (subscriptions k)) (tls k)))) [].

(** The copy of the transaction for the streams: views become owned accounts. *)
Definition shared_transaction (m : mem) (txn : FullTransaction) : FullTransaction :=
  match er_result (ft_execution txn) with
  | Err _ => txn
  | Ok e =>
      let t := loaded_transaction e in
      let accounts := prod_map id (clone_account m) <$> lt_accounts t in
      let t := {| lt_accounts := accounts; lt_program_indices := lt_program_indices t; lt_fee_details := lt_fee_details t;
                  lt_compute_budget := lt_compute_budget t;
                  lt_loaded_accounts_data_size := lt_loaded_accounts_data_size t |} in
      {| ft_transaction := ft_transaction txn;
         ft_execution := {| er_result := Ok {| loaded_transaction := t; Svm.execution_details := Svm.execution_details e |};
                            er_balances := er_balances (ft_execution txn); er_slot := er_slot (ft_execution txn) |} |}
  end.

(** The streams of transactions; [registered] is whether a receiver of all of them was open. *)
Definition notify_streams (logs failures registered : bool) (txn : FullTransaction) (k : Keeper) : Keeper :=
  let s := subscriptions k in
  let keys := if logs then static_account_keys (ft_transaction txn) else [] in
  let copy := shared_transaction (k_mem k) txn in
  with_subscriptions k (with_s_streams s
    (foldl (λ l key, send_with l key copy) (s_logs s) keys)
    (if failures then send_with (s_failures s) () copy else s_failures s)
    (if registered then unicast_send (s_transactions s) copy else s_transactions s)).

Definition commit_execution (txn : FullTransaction) : K (result TransactionError unit) :=
  subs ← read subscriptions;
  let r := er_result (ft_execution txn) in
  let success := match r with Ok e => was_successful e | Err _ => false end in
  let logs := is_ok r && negb (is_empty (senders (s_logs subs))) in
  let failures := negb success && negb (is_empty (senders (s_failures subs))) in
  let registered := bool_decide (is_Some (open_sender (s_transactions subs))) in
  let notify := logs || failures || registered in
  let '(txn, commit) := execution_commit txn notify in
  _ ← send_event (commit_event commit);
  execution ← commit_state_transitions (er_result (ft_execution txn));
  _ ← modify (λ k, match execution with
                   | Some e => drain_services (with_subscriptions k
                                 (send_accounts (k_mem k) (subscriptions k) (lt_accounts (loaded_transaction e))))
                   | None => k
                   end);
  _ ← modify (λ k, if notify then notify_streams logs failures registered txn k else k);
  _ ← modify (λ k, with_tls k []);
  _ ← modify (λ k, with_k_caches k (with_signatures (k_caches k)
        (cache_update (signatures (k_caches k)) (signature_prefix (commit_signature commit)) (Some (commit_status commit)))));
  _ ← modify (λ k, with_subscriptions k (signatures_send (subscriptions k) (commit_signature commit) (commit_status commit)));
  mret (status_result (commit_status commit)).

Definition commit_replay (t : ResolvedTransaction) (x : ExecutionRecord) : K unit :=
  _ ← commit_state_transitions (er_result x);
  let key := signature_prefix (hd [] (tx_signatures t)) in
  modify (λ k, with_k_caches k (with_signatures (k_caches k)
    (cache_push (signatures (k_caches k)) key (Some (transaction_status (er_result x) (er_slot x))) (er_slot x)).1)).

(** *** Blocks *)

Definition k_current_slot (k : Keeper) : Z := latest_slot (k_caches k) + 1.

(** [serialize_data]: the bytes go to the front of the data, which keeps its length. *)
Definition serialize_data (m : mem) (a : AccountSharedData) (bs : list Z) : result AccountsDBError (mem * AccountSharedData) :=
  if zlen (cow_data m (cow a)) <? zlen bs then Err (Codec 0) else Ok (write_data m a 0 bs).

Definition clock (b : Block) : Clock :=
  let slot := block_slot b + 1 in
  {| clock_slot := slot; clock_epoch := get_epoch slot; clock_leader_schedule_epoch := get_leader_schedule_epoch slot;
     clock_unix_timestamp := block_time b; clock_epoch_start_timestamp := 0 |}.

Definition load_sysvar (key : Pubkey) : K AccountSharedData :=
  a ← on_db (λ d, db_load d key);
  lift (match a with Some a => Ok a | None => Err (MissingSysvar key) end).
Definition write_sysvar (a : AccountSharedData) (bs : list Z) : K AccountSharedData := λ k,
  match serialize_data (k_mem k) a bs with
  | Err e => (Err (KAccountsDb e), k)
  | Ok (m, a) =>
      let p := persisted (accountsdb k) in
      (Ok a, with_accountsdb k (with_persisted (accountsdb k) {| storage := with_mem (storage p) m; index := index p |}))
  end.
Definition update_sysvars (b : Block) : K unit :=
  hacc ← load_sysvar slot_hashes_id;
  cacc ← load_sysvar clock_id;
  m ← read k_mem;
  hashes ← lift (map_err (λ e, KAccountsDb (Codec e)) (add_slot_hash (cow_data m (cow hacc)) (block_slot b) (block_hash b)));
  hacc ← write_sysvar hacc hashes;
  cacc ← write_sysvar cacc (clock_bytes (clock b));
  on_db (λ d, db_store d [(slot_hashes_id, hacc); (clock_id, cacc)]).

Definition block_append (b : Signed Block) (replay : bool) : K unit :=
  _ ← (if replay then mret tt
       else _ ← send_event (EvBlock b);
            modify (λ k, with_subscriptions k (with_s_blocks (subscriptions k)
              (send_with (s_blocks (subscriptions k)) () (payload b)))));
  _ ← modify (λ k, with_k_caches k (with_block (k_caches k) (payload b)));
  _ ← update_sysvars (payload b);
  on_db (λ d, set_slot d (block_slot (payload b))).

(** *** Superblocks, checkpoints, replay *)

Definition sealed (k : Keeper) : SuperblockSeal :=
  let m := meta (storage (persisted (accountsdb k))) in
  {| seal_id := superblock m; seal_checksum := checksum m; seal_transactions := transactions m |}.

Definition checkpoint (expected : option (Signed Z)) : K unit :=
  observed ← on_db (λ d, (d, map_err IndexError (store_checksum (persisted d))));
  c ← lift (match expected with
            | None => Ok {| payload := observed; signature := sign_checkpoint observed |}
            | Some c => if decide (payload c = observed) then Ok c else Err CheckpointMismatch
            end);
  send_event (EvCheckpoint c).

(** Whether [replay] streams the retained entries after the sealed superblock. *)
Definition replay_needed (k : Keeper) (ledger_tip : option Z) (ledger_txns : Z) : bool :=
  let m := meta (storage (persisted (accountsdb k))) in
  negb ((default 0 ledger_tip <=? meta_slot m) && (ledger_txns <=? transactions m)).

(** ** What a commit does *)

Context `{!MapDatabase A Pubkey OwnerAndOffset, !DupDatabase P KeyTail Offset, !DupDatabase F Z Offset}.

(** The part of the state that notifications leave alone. *)
Record quiet (k k' : Keeper) : Prop := {
  q_db : accountsdb k' = accountsdb k;
  q_appended : appended k' = appended k;
  q_open : appender_open k' = appender_open k;
  q_caches : k_caches k' = k_caches k;
  q_signatures : s_signatures (subscriptions k') = s_signatures (subscriptions k);
  q_oneshots : s_oneshots (subscriptions k') = s_oneshots (subscriptions k);
}.

#[local] Instance quiet_preorder : PreOrder quiet.
Proof. split; [done|]. intros k1 k2 k3 [] []. constructor; congruence. Qed.

Lemma send_accounts_waiters m s l :
  s_signatures (send_accounts m s l) = s_signatures s ∧ s_oneshots (send_accounts m s l) = s_oneshots s.
Proof.
  unfold send_accounts. destruct (_ && _); [done|]. generalize (negb (is_empty (senders (s_accounts s)))).
  generalize (negb (is_empty (senders (s_programs s)))). intros p a. revert s.
  induction l as [|[key account] l IH]; intros s; [done|]. cbn [foldl].
  assert (E : s_signatures (send_account m a p s (key, account)) = s_signatures s ∧
    s_oneshots (send_account m a p s (key, account)) = s_oneshots s).
  { unfold send_account. destruct (negb (is_dirty account)); [done|]. by destruct a, p. }
  destruct E as [<- <-]. apply IH.
Qed.

Lemma drain_quiet k e :
  quiet k (drain_services (with_subscriptions k (send_accounts (k_mem k) (subscriptions k) (lt_accounts (loaded_transaction e))))).
Proof. constructor; simpl; try done; apply send_accounts_waiters. Qed.

Lemma notify_quiet l f r txn k : quiet k (notify_streams l f r txn k).
Proof. by constructor. Qed.

(** A commit is the ledger record, the commit of the accounts, notifications, and the status. *)
Lemma commit_execution_run k txn :
  appender_open k = true →
  let x := ft_execution txn in
  let sig := hd [] (tx_signatures (ft_transaction txn)) in
  let status := transaction_status (er_result x) (er_slot x) in
  ∃ recorded, header recorded = {| header_signature := sig; header_result := coded (flattened_result (er_result x));
                                   header_slot := er_slot x |} ∧
    details recorded = match er_result x with Ok e => Some (execution_details e (er_balances x)) | Err _ => None end ∧
  let k1 := with_appended k (appended k ++ [EvExecution recorded (account_index (static_account_keys (ft_transaction txn)))]) in
  match db_commit (accountsdb k) (dirty_accounts (er_result x)) with
  | (d, Err e) => commit_execution txn k = (Err (KAccountsDb e), with_accountsdb k1 d)
  | (d, Ok _) => ∃ k2, quiet (with_accountsdb k1 d) k2 ∧ tls k2 = [] ∧
      commit_execution txn k = (Ok (flattened_result (er_result x)),
        with_subscriptions (with_k_caches k2 (with_signatures (k_caches k)
            (cache_update (signatures (k_caches k)) (signature_prefix sig) (Some status))))
          (signatures_send (subscriptions k2) sig status))
  end.
Proof.
  intros Hopen x sig status.
  exists {| header := {| header_signature := sig; header_result := coded (flattened_result (er_result x)); header_slot := er_slot x |};
            details := match er_result x with Ok e => Some (execution_details e (er_balances x)) | Err _ => None end |}.
  split; [done|]. split; [done|]. intros k1.
  unfold commit_execution, commit_state_transitions, send_event, on_db, mbind, op_bind, read, modify, mret, op_ret.
  cbn [fst snd er_result er_slot ft_execution commit_event commit_signature commit_status execution_commit].
  rewrite Hopen. cbn [accountsdb with_appended]. fold x.
  destruct (db_commit (accountsdb k) (dirty_accounts (er_result x))) as [d [[]|e]]; [|reflexivity].
  cbn [map_err].
  set (k3 := with_accountsdb _ d). set (txn' := {| ft_transaction := _; ft_execution := _ |}).
  set (execution := match er_result x with Ok e => _ | Err _ => None end).
  set (k4 := match execution with Some e => _ | None => k3 end).
  assert (Hk4 : quiet k3 k4) by (unfold k4; destruct execution; [apply drain_quiet|reflexivity]).
  match goal with |- context [with_tls ?k5 []] => set (k5' := k5) end.
  assert (Hk5 : quiet k3 k5').
  { etransitivity; [exact Hk4|]. unfold k5'. destruct (_ || _); [apply notify_quiet|reflexivity]. }
  exists (with_tls k5' []). split_and!; [by destruct Hk5; constructor|done|].
  destruct Hk5 as [_ _ _ Hc _ _]. simpl in Hc. cbn [k_caches with_tls with_subscriptions with_k_caches]. by rewrite Hc.
Qed.

(** The waiters of a signature get the status; the others stay as they are. *)
Lemma deliver_lookup {V} (v : V) l (o : gmap nat (option V)) x :
  foldl (λ o x, alter (λ _, Some v) x o) o l !! x = (λ w, if decide (x ∈ l) then Some v else w) <$> o !! x.
Proof.
  revert o. induction l as [|y l IH]; intros o; cbn [foldl].
  - by destruct (o !! x).
  - rewrite IH. destruct (decide (x = y)) as [->|Hne].
    + rewrite lookup_alter_eq. destruct (o !! y); simpl; [|done]. f_equal.
      rewrite (decide_True (P := y ∈ y :: l)) by set_solver. by case_decide.
    + rewrite lookup_alter_ne by done. destruct (o !! x); simpl; [|done]. f_equal.
      by repeat case_decide; set_solver.
Qed.

Lemma signatures_send_spec n s sig st x :
  subs_ok (s_signatures s) n →
  s_oneshots (signatures_send s sig st) !! x =
    (λ w, if decide (registered (s_signatures s) sig x) then Some st else w) <$> s_oneshots s !! x.
Proof.
  intros Hs. unfold signatures_send, subs_remove.
  assert (Hskip : entries (s_signatures s) !! sig = None →
    s_oneshots s !! x = (λ w, if decide (registered (s_signatures s) sig x) then Some st else w) <$> s_oneshots s !! x).
  { intros E. destruct (s_oneshots s !! x); simpl; [|done].
    rewrite decide_False; [done|]. intros (l & El & _)%registered_some. congruence. }
  destruct (is_empty (s_signatures s)) eqn:Ee.
  { apply (is_empty_exact _ _ Hs) in Ee. apply Hskip. by rewrite Ee, lookup_empty. }
  destruct (entries (s_signatures s) !! sig) as [l|] eqn:El; [|by apply Hskip]. simpl. rewrite deliver_lookup.
  destruct (s_oneshots s !! x); simpl; [|done]. f_equal. apply decide_ext. unfold registered. by rewrite El.
Qed.


(** C24. Replay reaches the state of the live commit. For one execution result and one state, the
    replayed commit fails when the live one fails and leaves the same accounts database; it
    caches the same status, but it appends nothing to the ledger and sends nothing to the
    subscribers. *)
Theorem replay_same_state k txn :
  let x := ft_execution txn in
  let sig := hd [] (tx_signatures (ft_transaction txn)) in
  let status := transaction_status (er_result x) (er_slot x) in
  appender_open k = true → cached k sig = Some None →
  let '(r, live) := commit_execution txn k in
  ∀ c, cache_get (signatures c) (signature_prefix sig) = None →
  let '(r', replayed) := commit_replay (ft_transaction txn) x (with_k_caches k c) in
  accountsdb replayed = accountsdb live ∧ is_ok r' = is_ok r ∧
  appended replayed = appended k ∧ subscriptions replayed = subscriptions k ∧
  (is_ok r = true → cached live sig = Some (Some status) ∧ cached replayed sig = Some (Some status)).
Proof using Type.
  intros x sig status Hopen Hcached. destruct (commit_execution_run k txn Hopen) as (recorded & _ & _ & Hrun).
  fold x sig status in Hrun.
  unfold commit_replay, commit_state_transitions, on_db, mbind, op_bind, modify, mret, op_ret.
  cbn [accountsdb with_k_caches].
  destruct (db_commit (accountsdb k) (dirty_accounts (er_result x))) as [d [[]|e]].
  - destruct Hrun as (k2 & [Qd _ _ _ _ _] & _ & ->). intros c Hc. simpl. simpl in Qd. split_and!; [by rewrite Qd|done..|].
    intros _. split.
    + unfold cached in *. simpl. unfold cache_get, cache_update in *. rewrite Hcached. simpl. by rewrite lookup_insert_eq.
    + unfold cached. simpl. fold sig status. apply push_absent, Hc.
  - rewrite Hrun. intros c _. simpl. split_and!; done.
Qed.

(** ** A restart of the leader *)

(** [build] for a leader: the caches start from the latest block of the stored sysvars. The
    subscriptions and the thread are new. *)
Definition restart (k : Keeper) (block_ttl signature_ttl : Z) : Keeper :=
  {| accountsdb := accountsdb k; appended := appended k; appender_open := appender_open k;
     k_caches := leader_caches (blocks_latest (blocks (k_caches k))) block_ttl signature_ttl;
     subscriptions := subscriptions_new; tls := [] |}.

Lemma k_append_fresh k t :
  appender_open k = true →
  cache_get (signatures (k_caches k)) (signature_prefix (hd [] (tx_signatures t))) = None →
  is_valid (k_caches k) (tx_recent_blockhash t) = true →
  (k_append t k).1 = Ok (Ok tt) ∧ appended (k_append t k).2 = appended k ++ [EvTransaction (hd [] (tx_signatures t)) (tx_inner_data t)].
Proof.
  intros Hopen Hsig Hhash. unfold k_append, append_reserve, mbind, op_bind, read.
  pose proof (push_fresh (signatures (k_caches k)) (signature_prefix (hd [] (tx_signatures t))) None (append_slot (k_caches k)) Hsig) as Hp.
  destruct (cache_push (signatures (k_caches k)) _ None _) as [c fresh]. simpl in Hp. subst fresh. cbn [negb].
  assert (is_valid (with_signatures (k_caches k) c) (tx_recent_blockhash t) = true) as -> by exact Hhash.
  unfold modify, send_event. simpl. by rewrite Hopen.
Qed.

(** The protection against duplicates ends with a restart: a leader resumes with the hash of
    the latest block and no signatures. A transaction that refers to that block, admitted and
    committed before a restart that replays nothing, is admitted again. *)
Theorem restart_readmits k txn block_ttl signature_ttl :
  let t := ft_transaction txn in
  let k1 := (k_append t k).2 in
  let k2 := (commit_execution txn k1).2 in
  let k3 := restart k2 block_ttl signature_ttl in
  let m := meta (storage (persisted (accountsdb k2))) in
  appender_open k = true → tx_recent_blockhash t = block_hash (blocks_latest (blocks (k_caches k))) →
  (k_append t k).1 = Ok (Ok tt) →
  replay_needed k3 (Some (meta_slot m)) (transactions m) = false ∧
  (k_append t k3).1 = Ok (Ok tt) ∧
  appended (k_append t k3).2 = appended k2 ++ [EvTransaction (hd [] (tx_signatures t)) (tx_inner_data t)].
Proof using Type.
  intros t k1 k2 k3 m Hopen Hhash Hadmit.
  assert (H1 : blocks (k_caches k1) = blocks (k_caches k) ∧ appender_open k1 = true).
  { unfold k1, k_append, append_reserve, mbind, op_bind, read, modify, send_event in *.
    destruct (cache_push (signatures (k_caches k)) _ None _) as [c fresh]. destruct (negb fresh); [done|].
    destruct (negb (is_valid _ _)); [done|]. simpl in *. by rewrite Hopen. }
  assert (H2 : blocks (k_caches k2) = blocks (k_caches k1) ∧ appender_open k2 = true).
  { destruct H1 as [_ H1]. destruct (commit_execution_run k1 txn H1) as (recorded & _ & _ & Hrun). unfold k2.
    destruct (db_commit (accountsdb k1) _) as [d [[]|e]]; [|by rewrite Hrun].
    destruct Hrun as (k' & [_ _ Qo _ _ _] & _ & ->). simpl. by rewrite Qo. }
  destruct H1 as [H1 _], H2 as [H2 Ho2].
  split; [|change (appended k2) with (appended k3); apply k_append_fresh].
  - unfold replay_needed. simpl. fold m. by rewrite !Z.leb_refl.
  - exact Ho2.
  - done.
  - unfold k3, is_valid, restart, leader_caches, restore_hash, cache_contains. cbn [k_caches blocks blocks_history].
    apply bool_decide_eq_true. rewrite H2, H1, Hhash. eexists. by apply push_absent.
Qed.

End keeper.

(** ** Witnesses: a reserved signature with a receiver, and a transfer that wrote two accounts *)

#[local] Existing Instance good_io.
#[local] Existing Instance good_env.
#[local] Instance example_libraries : KeeperLibraries := {|
  error_code := λ _, 1; log_bytes := λ _, []; instructions_id := replicate 32 1; slot_hashes_id := replicate 32 2;
  clock_id := replicate 32 3; add_slot_hash := λ bs _ _, Ok bs; clock_bytes := λ _, []; get_epoch := λ s, s / 64;
  get_leader_schedule_epoch := λ s, s / 64 + 1; sign_checkpoint := λ _, [] |}.

Definition touched (o : OwnedAccount) : AccountSharedData := mark (from_owned o) LAMPORTS.
Definition example_executed (st : result TransactionError unit) : ExecutedTransaction :=
  {| loaded_transaction :=
       {| lt_accounts := [(key_a, touched ex_account); (key_b, touched mirror)]; lt_program_indices := [];
          lt_fee_details := {| transaction_fee := 0; prioritization_fee := 0 |};
          lt_compute_budget := budget_new_with_defaults true; lt_loaded_accounts_data_size := 10 |};
     Svm.execution_details :=
       {| status := st; log_messages := None; inner_instructions := None; Svm.return_data := None; executed_units := 7;
          accounts_data_len_delta := 0 |} |}.
Definition example_transaction : ResolvedTransaction :=
  {| tx_signatures := [replicate 64 5]; static_account_keys := [key_a; key_b]; tx_recent_blockhash := []; tx_inner_data := [] |}.
Definition example_full (st : result TransactionError unit) : FullTransaction :=
  {| ft_transaction := example_transaction;
     ft_execution := {| er_result := Ok (example_executed st); er_balances := None; er_slot := 4 |} |}.
Definition example_block : Block := {| block_slot := 3; block_hash := []; block_time := 0; block_parent := [] |}.
Definition example_keeper : Keeper (A := AT) (P := PT) (F := FT) :=
  {| accountsdb := fresh_db; appended := []; appender_open := true;
     k_caches := (append_reserve (leader_caches example_block 10 20) (replicate 16 5) 4).1;
     subscriptions := signatures_subscribe subscriptions_new (replicate 64 5) 0; tls := [[1; 2]] |}.

Lemma example_batch_ok : db_batch_ok (accountsdb example_keeper) (dirty_accounts (Ok (example_executed (Ok tt)))).
Proof.
  assert (Hm : core_ok mirror_core) by (unfold core_ok, fits; simpl; split_and!; lia || done).
  change (dirty_accounts _) with [(key_a, touched ex_account); (key_b, touched mirror)]. split.
  - apply list.NoDup_cons. split; [|apply NoDup_singleton]. rewrite list_elem_of_singleton. discriminate.
  - repeat apply Forall_cons_2; [apply (owned_entry_ok empty_store); [apply ex_core_ok || done|done|done]..|done].
  - split; [discriminate|exact I].
  - intros k a _ _. unfold store_view, view. rewrite lookup_fmap. done.
Qed.


Lemma replay_same_state_witness :
  let live := commit_execution (example_full (Ok tt)) example_keeper in
  let replayed := commit_replay example_transaction (ft_execution (example_full (Ok tt)))
    (with_k_caches example_keeper (leader_caches example_block 10 20)) in
  accountsdb replayed.2 = accountsdb live.2 ∧ appended replayed.2 = [] ∧ length (appended live.2) = 1%nat.
Proof.
  pose proof (replay_same_state example_keeper (example_full (Ok tt)) eq_refl ltac:(vm_compute; reflexivity)) as H.
  intros live replayed. unfold live, replayed.
  destruct (commit_execution (example_full (Ok tt)) example_keeper) as [r l] eqn:El.
  specialize (H (leader_caches example_block 10 20) ltac:(vm_compute; reflexivity)). cbn [ft_transaction example_full] in H.
  destruct (commit_replay _ _ _) as [r' rep]. destruct H as (H1 & _ & H2 & _).
  split_and!; [exact H1|exact H2|]. apply (f_equal (λ p, length (appended p.2))) in El. rewrite <- El. vm_compute. reflexivity.
Defined.

Lemma restart_readmits_witness :
  let k1 := (k_append example_transaction (restart example_keeper 10 20)).2 in
  let k2 := (commit_execution (example_full (Ok tt)) k1).2 in
  (k_append example_transaction (restart k2 10 20)).1 = Ok (Ok tt).
Proof.
  intros k1 k2. apply (restart_readmits (restart example_keeper 10 20) (example_full (Ok tt)) 10 20);
    [reflexivity|vm_compute; reflexivity|vm_compute; reflexivity].
Defined.
